(* ===== verification/_CoqProject ===== *)
-Q . S2P
Prelude.v
Float64.v
Double.v
DoubleOrder.v
DoubleDiv.v
DoubleRound.v
DoubleUnit.v
Bitmapset.v
BitmapsetSpec.v
PlanTypes.v
Samples.v
Pathkeys.v
PathCompare.v
AddPath.v
Cheapest.v
CostExpr.v
CostBase.v
CostScan.v
CostScanSpec.v
CostNode.v
HashSize.v
CostJoin.v
ClauseSel.v
CostJoinSpec.v
SizeEst.v
SizeEstSpec.v
ClauseSelSpec.v
ParamInfo.v
CreatePath.v
CreatePathSpec.v
UpperPathSpec.v
PlanCosts.v
MergeKeys.v
MergeKeysSpec.v
JoinPath.v
QualCover.v
JoinPathSpec.v
JoinSearchSpec.v
JoinLegal.v
JoinLegalSpec.v
BuildRel.v
BuildRelSpec.v
JoinOrder.v
Qsort.v
GeqoRandom.v
GeqoTour.v
GeqoPool.v
Geqo.v
JoinList.v
JoinParts.v
JoinNodeSpec.v
JoinOrderSpec.v
BasePaths.v
BasePathsSpec.v
OneRelSpec.v
DoubleSqrt.v
GeqoTourSpec.v
GeqoPoolSpec.v
GeqoDrawSpec.v
GeqoSelectSpec.v
GeqoTreeSpec.v
GeqoSpec.v
WuPacket.v
WuSession.v
WuSessionSpec.v
