(* ===== verification/Prelude.v ===== *)
(** * Verification of GreenPipelineDB

    GreenPipelineDB is PostgreSQL 10.3 with an energy-aware planner: every path
    carries, besides its startup and total cost, an I/O cost, a CPU cost and a
    power cost (watts, from a regression over the other two), and paths are
    compared by [time_weight * log(total_cost) + power_weight * log(power_cost)].
    A small tool beside it (src/watts-up-linux) reads the power of the machine
    from a "Watts Up?" meter.  This library models the parts that implement the
    energy dimension and the code they rest on, and proves what the planner and
    the tool rely on.

    ** The parts and how they interact

    The planner sizes relations (costsize.c), asks for parameterizations of their
    paths (relnode.c), builds path nodes (pathnode.c, create_*_path), which the
    cost functions fill in (costsize.c), and keeps the good ones in the path
    lists of a relation (add_path, add_partial_path); set_cheapest and the path
    key lookups (pathkeys.c) choose among them.  The search for join paths
    (joinpath.c) pairs the paths of two relations, estimates each join, and
    builds and offers those that may be good enough.  The search over join orders
    (joinrels.c, allpaths.c) goes from pairs of relations up to the whole query:
    it asks which joins the outer joins and LATERAL references allow, makes a join
    relation for each set of relations (relnode.c), and lets the search for join
    paths fill it.  make_one_rel (allpaths.c) is the whole of it: it sizes every
    relation the query names, finds paths for it by its kind, and starts the search
    over join orders.  Large queries go to the genetic search instead (geqo): it keeps
    a pool of join orders, turns each into a join tree to learn its cost, and breeds
    new orders from good ones with random numbers.  The row estimates rest on the
    selectivities of clauses (clausesel.c).  Relation sets everywhere are bitmapsets (bitmapset.c).  The
    meter tool encodes and decodes packets and drives a logging session over a
    serial line.

    ** Files

    - [Prelude]: errors as values ([result], for elog(ERROR) and failed assertions),
      int32 wrap-around, integer and bit lemmas.
    - [Float64], [Double], [DoubleOrder], [DoubleDiv], [DoubleRound], [DoubleUnit]:
      C doubles as the valid binary64 numbers of the Standard Library's SpecFloat,
      computed with, the order lemmas the cost proofs need, and the arithmetic of
      fractions with its rounding errors.
    - [Bitmapset], [BitmapsetSpec]: nodes/bitmapset.c; the operations refine finite
      sets, iteration ends and visits each member once.
    - [PlanTypes], [Samples]: nodes/relation.h, primnodes.h, nodes.h, the settings
      of guc.c, libm; concrete inputs for the witnesses.
    - [Pathkeys], [PathCompare]: pathkeys.c, compare_path_costs and the fuzzy and
      fractional comparisons of pathnode.c.
    - [AddPath], [Cheapest]: add_path, add_partial_path, their prechecks and
      set_cheapest of pathnode.c; get_cheapest_* of pathkeys.c.
    - [CostExpr], [CostBase], [CostScan], [CostNode], [HashSize], [CostJoin]:
      costsize.c (with compute_parallel_worker of allpaths.c,
      ExecChooseHashTableSize of nodeHash.c and other routines it calls);
      [CostScanSpec], [CostJoinSpec]: their properties.
    - [SizeEst], [SizeEstSpec]: set_*_size_estimates, set_rel_width, the
      foreign key selectivities and join sizes of costsize.c,
      get_relation_data_width of plancat.c.
    - [ClauseSel], [ClauseSelSpec]: all of clausesel.c, restriction_selectivity and
      join_selectivity of plancat.c; selectivities are fractions, caches transparent.
    - [ParamInfo]: get_*_parampathinfo of relnode.c.
    - [CreatePath], [CreatePathSpec], [UpperPathSpec]: every create_*_path of
      pathnode.c, apply_projection_to_path and reparameterize_path.
    - [PlanCosts]: the costs and the power createplan.c gives plan nodes, and
      SS_charge_for_initplans of subselect.c.
    - [MergeKeys], [MergeKeysSpec]: the merge join routines of pathkeys.c over the
      equivalence classes of a query.
    - [JoinPath], [QualCover], [JoinPathSpec], [JoinSearchSpec]: joinpath.c, from the
      six try_*_path routines to add_paths_to_joinrel; clauses that are part of a
      list of clauses; what each routine guarantees; the whole search.
    - [JoinLegal], [JoinLegalSpec]: join_is_legal of joinrels.c and the tests for
      join clauses and order restrictions (joininfo.c, equivclass.c).
    - [BuildRel], [BuildRelSpec]: build_join_rel and the table of join relations of
      relnode.c, add_placeholders_to_joinrel of placeholder.c.
    - [JoinOrder]: the rest of joinrels.c, and generate_gather_paths and
      standard_join_search of allpaths.c; [JoinParts],
      [JoinNodeSpec], [JoinOrderSpec]: join relations as sets of inputs, what happens
      to one of them, and the invariant of the whole search.
    - [Qsort]: port/qsort.c; [GeqoRandom]: port/erand48.c, geqo_random.c.
    - [GeqoTour], [GeqoPool], [Geqo]: the tours and their crossover (geqo_erx.c,
      geqo_recombination.c), the pool and the choice of parents (geqo_pool.c,
      geqo_copy.c, geqo_selection.c), join trees and the search (geqo_eval.c,
      geqo_main.c); [JoinList]: make_rel_from_joinlist of allpaths.c, which picks the
      search.  [DoubleSqrt], [GeqoTourSpec], [GeqoPoolSpec], [GeqoDrawSpec],
      [GeqoSelectSpec], [GeqoTreeSpec], [GeqoSpec]: their properties, from square roots
      of doubles over tours, pool and parents to the whole search.
    - [BasePaths]: make_one_rel of allpaths.c with the sizes and paths of base
      relations of every kind, check_index_predicates of indxpath.c; [BasePathsSpec],
      [OneRelSpec]: the stages of one relation, and all of them together.
    - [WuPacket], [WuSession], [WuSessionSpec]: watts-up-linux/util.c, wattsup.c,
      config.c.

    ** How state and effects are modelled

    A path node is a [Path]: the header every path struct starts with and, in
    [extra], the members of its own struct.  A RelOptInfo is split by what
    mutates: the record [RelOptInfo], its path lists [RelPaths], its
    parameterizations [RelParams], its attribute widths [RelAttrs].  A routine
    that sets members returns the new value; one that may call elog(ERROR)
    returns a [result]; a conversion or array access C leaves undefined is an
    option ([None]), or [Undefined] in the packet code, which works on the
    256-byte buffer of the struct.  The join search is a sequence of steps on a
    [JoinState]: the paths of the join relation, the caches of its inputs, the
    canonical path keys and the caches kept in the clauses.  The search over join
    orders works on a [SearchState]: the relations as a list, in which a pointer to a
    RelOptInfo is a position ([RelNode] puts the parts of one together), the
    special joins, the join relations by list, hash table and level.  A path holds
    the members of its parent as they were when it was made; later only the row
    count of a relation proven empty changes, and no routine reads it through a
    path.  The meter session is a state monad over the
    tool's globals, the device and the trace of system calls.

    What is not in these sources, or answers questions from the catalogs and
    statistics, is a class: [Libm] (log and pow), [Settings], [Catalog],
    [Tablespaces], [IndexAM] (amcostestimate), [Estimator] (clause and join
    selectivities), [Widths], [Equivalences], [EClasses],
    [PathSupport], [JoinSupport], [SearchSupport] (hash_any, wrappers),
    [OrderSearch] (the search hook, the use of geqo), [GeqoSettings], [OldMemory]
    (what palloc leaves in new memory), [BaseSupport] (index
    and TID paths, constraint exclusion, subqueries, foreign data wrappers),
    [SelectivitySupport] (estimation procedures of operators); [Device] and [System] for
    the meter.  The laws assumed of them are classes of their own ([LibmLaws],
    [EstimatorLaws], ...), and each has an instance that satisfies them.

    Doubles keep NaN and infinities.  [nonneg x] holds if the sign bit is clear
    or [x] is NaN, and [x ⊑ y] compares magnitudes with NaN on top, so that the
    order theorems hold without side conditions on overflow; [finite] and
    [row_count] (a finite, whole, positive number) say where there is neither.

    ** What the theorems show

    - Path lists: add_path discards only dominated paths and keeps the list sorted
      and free of mutual domination over any sequence of calls; the precheck finds
      a dominating path iff there is one; set_cheapest and the lookups pick a
      cheapest path; on paths without NaN compare_path_costs is the lexicographic order
      by weighted and startup cost, in which a path that is no dearer never loses.
    - Costs: every cost function returns for planned expressions, with startup
      costs that are not negative, at most the total and at least disable_cost for
      a disabled node, and power of at most 80; the preliminary estimates of the
      three join methods are lower bounds of the final ones; sorted and hashed
      aggregation cost the same to the bit; hash table sizes and worker counts
      stay in range and their loops end.
    - Sizes: rows of base relations and joins are whole, at least one and within
      the bounds of the relation and of the join type; the width of a relation is the
      sum of the widths of its columns as long as that fits an int32; foreign keys partition the join
      clauses; parameterization never raises a row count and is shared by all paths
      that ask for it.
    - Constructors: scans, joins and upper nodes yield costed paths with the
      parameterization asked for; joins are no cheaper than their preliminary
      estimates and parallel-safe only over parallel-safe inputs; charging the final paths for initplans keeps their list in order.
    - Join search: the orders chosen for merge joins use every clause and always
      have a matching inner order, key by key; over well-formed inputs the whole search raises
      no error for any join type and only ever offers well-formed join paths to the
      relation; it finds a path wherever a nested loop is possible; a join rejected
      on its preliminary cost would be rejected on its final cost.
    - Join orders: a join that join_is_legal accepts breaks no special join, in
      either order of its inputs; the loop that follows outer joins ends with the
      least closed set; the hash table and the list of join relations agree after any
      lookups and additions, and no set has two join relations; every
      clause of the query is evaluated once, at the first join that has all its
      relations, whatever the order of the joins.  For a query of inner joins without
      LATERAL references and placeholders the dynamic programming over levels never fails and ends with the join of all
      inputs, with a plan or proven empty; make_one_rel brings every base relation
      to the state this needs and returns the join of exactly the query's relations.
    - Genetic search: the random generator is the 48-bit linear congruence and its
      doubles are exact; qsort sorts; random tours and children of the crossover are
      permutations, without an error and inside their arrays; the pool stays ranked;
      choosing two parents ends, because the generator reaches every state and some
      states are accepted; for a query of inner joins every tour becomes a join of all
      inputs, evaluating it leaves no trace in the table of join relations, and so the
      search, once its first population is found, returns one.
    - Selectivities: clausesel.c always finds a fraction between zero and one, to the
      last bit of the floating point operations, and its caches never change it, if the
      procedures of selfuncs.c return fractions: the laws allow what scalarltsel and
      scalargtsel do, the default estimate whatever the fraction of nulls is.
    - Meter: what wu_write sends parse_packet reads back; parsing stays inside
      the buffer for well-formed input and depends on the received bytes only; a
      logging session ends within thirteen reads per sample, collects exactly the
      records asked for, or gives up after eleven attempts and one reset.
    - Where the code does not do what it means to: paths whose constructor leaves
      the power at zero beat every path with a finite weighted cost once power has a
      weight (and compare as NaN when it has none), the fuzzy comparison of negative weighted costs, the
      precheck that ignores power, the cap of the power regression, the cost of
      initplans added to watts, and the defects of the packet parser and of the tool's options.

    ** Bounds and fuel

    Loops over words use the word's width ([rightmost_bit_from]: 4 bytes,
    [count_ones_from]: 4), enumeration of a set its capacity plus one, printing
    of an unsigned 10 digits, the worker loop 21 triplings of the threshold, which
    overflow would end before; following merged equivalence classes takes as many
    steps as there are classes (merging is acyclic), the choice of the next most
    popular class one more round than there are classes; [read_data_loop] gets eleven
    rounds per sample, which [wu_read_data_terminates] proves enough; [rhs_loop] gets two passes for
    each special join and one more, enough by [join_plus_rhs_least]; [linear_rand] and
    [draw_other] get [2^48] rounds, the period of the generator, enough by
    [geqo_selection_ends] (a bound never evaluated); [pg_qsort] one level per element,
    enough by [qsort_sorts]; [random_init_pool] a number of tries, since the code sets
    no bound once one tour was accepted.  All other recursions are
    structural.

    ** Not modelled

    The estimation procedures of operators (selfuncs.c) and extended statistics,
    index access method estimates, inheritance and UNION ALL parents (append
    relations are arguments of make_one_rel), index and TID path generation, the
    construction of equivalence classes and of the path
    keys of sort clauses and indexes, the crossovers of geqo that are not compiled in,
    the creation of plans but for their costs, EXPLAIN output, and the rest of PostgreSQL (parser, executor,
    storage, transactions, tools), which is unchanged by the energy dimension;
    memory management (pfree of rejected paths is recorded, allocation is not);
    of the meter tool the texts it prints besides the samples. *)
From Stdlib Require Export ZArith Lia Bool.
From stdpp Require Export base tactics list strings.
#[export] Set Default Goal Selector "!".
Global Open Scope Z_scope.

(** ** Integer lemmas *)

Lemma pow2_pos (k : Z) : 0 <= k -> 0 < 2 ^ k.
Proof. intros; apply Z.pow_pos_nonneg; lia. Qed.

Lemma pow2_split (a b : Z) : 0 <= a -> 0 <= b -> 2 ^ (a + b) = 2 ^ a * 2 ^ b.
Proof. intros; apply Z.pow_add_r; lia. Qed.

Lemma pow2_le (a b : Z) : a <= b -> 2 ^ a <= 2 ^ b.
Proof. intros; apply Z.pow_le_mono_r; lia. Qed.

Lemma mul_pow2_le (x y k : Z) : 0 <= k -> x <= y -> x * 2 ^ k <= y * 2 ^ k.
Proof. intros; apply Z.mul_le_mono_nonneg_r; [apply Z.pow_nonneg|]; lia. Qed.

(** ** Errors *)

(** The outcome of a backend routine that may call [elog(ERROR, msg)] or
    [ereport(ERROR, ...)], which never return. *)
Inductive result (A : Type) : Type :=
| Ok (a : A)
| Error (msg : string).
Arguments Ok {A} a.
Arguments Error {A} msg.

Definition rbind {A B} (m : result A) (f : A -> result B) : result B :=
  match m with Ok a => f a | Error e => Error e end.

Declare Scope result_scope.
Delimit Scope result_scope with result.
Notation "'let!' x := m 'in' k" := (rbind m (fun x => k))
  (at level 10, x pattern, m at level 100, k at level 200) : result_scope.
Open Scope result_scope.

(** [Assert(c)], as a build with assertions checks it. *)
Definition Assert (c : bool) : result unit := if c then Ok tt else Error "assertion failed".

(** The value of a signed 32-bit integer: sums wrap around, since PostgreSQL is
    compiled with -fwrapv. *)
Definition wrap32 (n : Z) : Z := (n + 2 ^ 31) mod 2 ^ 32 - 2 ^ 31.

Lemma wrap32_small n : - 2 ^ 31 <= n < 2 ^ 31 -> wrap32 n = n.
Proof. intros Hn. unfold wrap32. rewrite Z.mod_small by lia. lia. Qed.

Lemma wrap32_range n : - 2 ^ 31 <= wrap32 n < 2 ^ 31.
Proof. unfold wrap32. pose proof (Z.mod_pos_bound (n + 2 ^ 31) (2 ^ 32) ltac:(lia)). lia. Qed.

Lemma rbind_ok {A B} (m : result A) (f : A -> result B) b :
  rbind m f = Ok b -> exists a, m = Ok a /\ f a = Ok b.
Proof. destruct m; simpl; intros; [eauto|done]. Qed.

Definition is_ok {A} (m : result A) : bool := match m with Ok _ => true | Error _ => false end.

(** ** Bits *)

Lemma testbit_small (w i k : Z) : 0 <= w < 2 ^ k -> k <= i -> Z.testbit w i = false.
Proof.
  intros Hw Hi. destruct (decide (w = 0)) as [->|]; [apply Z.bits_0|].
  apply Z.bits_above_log2; [lia|].
  assert (Z.log2 w < k); [|lia]. apply Z.log2_lt_pow2; lia.
Qed.

Lemma bits_range (w k : Z) :
  0 <= k -> 0 <= w -> (forall i, k <= i -> Z.testbit w i = false) -> w < 2 ^ k.
Proof.
  intros Hk Hw Hb. destruct (decide (w = 0)) as [->|]; [apply pow2_pos, Hk|].
  apply Z.log2_lt_pow2; [lia|].
  destruct (decide (Z.log2 w < k)) as [|E]; [assumption|].
  pose proof (Z.bit_log2 w ltac:(lia)) as H1. rewrite Hb in H1 by lia. done.
Qed.

Lemma shift_low_range (w k n : Z) : 0 <= k -> 0 <= n -> 0 <= w < 2 ^ n -> 0 <= Z.shiftr w k < 2 ^ n.
Proof.
  intros Hk Hn Hw. rewrite Z.shiftr_div_pow2 by lia. pose proof (pow2_pos k Hk). split.
  - apply Z.div_pos; lia.
  - apply Z.le_lt_trans with w; [|lia]. apply Z.div_le_upper_bound; nia.
Qed.
