(* ===== verification/Float64.v ===== *)
(** IEEE 754 binary64. *)
From Stdlib Require Import SpecFloat.
From S2P Require Import Prelude.

Definition prec : Z := 53.
Definition emax : Z := 1024.
Abbreviation emin64 := (-1074).

(** ** Rounding an integer to 53 bits *)

(** [rne v k]: the integer nearest to [v / 2^k], ties to even. *)
Definition rne (v k : Z) : Z :=
  let q := v / 2 ^ k in
  match 2 * (v mod 2 ^ k) ?= 2 ^ k with
  | Lt => q
  | Eq => if Z.even q then q else q + 1
  | Gt => q + 1
  end.

Lemma rne_bounds v k : 0 <= k -> v / 2 ^ k <= rne v k <= v / 2 ^ k + 1.
Proof. intros. unfold rne. case_match; [case_match|..]; lia. Qed.

Lemma rne_mono v w k : 0 <= k -> v <= w -> rne v k <= rne w k.
Proof.
  intros Hk Hvw. pose proof (pow2_pos k Hk) as Hp.
  assert (v / 2 ^ k <= w / 2 ^ k) as Hq by (apply Z.div_le_mono; lia).
  destruct (decide (v / 2 ^ k = w / 2 ^ k)) as [E|E].
  - assert (v mod 2 ^ k <= w mod 2 ^ k) by (rewrite !Z.mod_eq, E by lia; lia).
    unfold rne. rewrite E.
    destruct (Z.compare_spec (2 * (v mod 2 ^ k)) (2 ^ k));
      destruct (Z.compare_spec (2 * (w mod 2 ^ k)) (2 ^ k));
      repeat case_match; lia.
  - pose proof (rne_bounds v k Hk). pose proof (rne_bounds w k Hk). lia.
Qed.

Lemma rne_mul_pow2 v k : 0 <= k -> rne (v * 2 ^ k) k = v.
Proof.
  intros Hk. pose proof (pow2_pos k Hk). unfold rne.
  rewrite Z.div_mul, Z.mod_mul by lia.
  destruct (Z.compare_spec (2 * 0) (2 ^ k)); lia.
Qed.

Lemma rne_pow2 d k : 0 <= k -> k <= d -> rne (2 ^ d) k = 2 ^ (d - k).
Proof.
  intros. replace (2 ^ d) with (2 ^ (d - k) * 2 ^ k).
  - apply rne_mul_pow2; lia.
  - rewrite <- pow2_split by lia. f_equal; lia.
Qed.

(** Number of bits of a non-negative integer. *)
Definition nbits (v : Z) : Z := if v =? 0 then 0 else Z.log2 v + 1.

Lemma nbits_spec v : 0 < v -> 2 ^ (nbits v - 1) <= v < 2 ^ nbits v.
Proof.
  intros. unfold nbits. rewrite (proj2 (Z.eqb_neq v 0)) by lia.
  pose proof (Z.log2_spec v ltac:(lia)). unfold Z.succ in *.
  replace (Z.log2 v + 1 - 1) with (Z.log2 v) by lia. lia.
Qed.

Lemma nbits_lt v : 0 <= v -> v < 2 ^ nbits v.
Proof.
  intros. destruct (decide (v = 0)) as [->|]; [reflexivity|].
  apply nbits_spec; lia.
Qed.

Lemma nbits_nonneg v : 0 <= nbits v.
Proof. unfold nbits. case_match; [lia|]. pose proof (Z.log2_nonneg v). lia. Qed.

Lemma nbits_pos v : 0 < v -> 0 < nbits v.
Proof.
  intros. unfold nbits. rewrite (proj2 (Z.eqb_neq v 0)) by lia.
  pose proof (Z.log2_nonneg v). lia.
Qed.

Lemma nbits_mono v w : 0 <= v -> v <= w -> nbits v <= nbits w.
Proof.
  intros. unfold nbits. pose proof (Z.log2_nonneg w).
  destruct (Z.eqb_spec v 0), (Z.eqb_spec w 0); try lia.
  pose proof (Z.log2_le_mono v w). lia.
Qed.

Lemma nbits_mul_pow2 v k : 0 < v -> 0 <= k -> nbits (v * 2 ^ k) = nbits v + k.
Proof.
  intros. pose proof (pow2_pos k ltac:(lia)). unfold nbits.
  rewrite (proj2 (Z.eqb_neq v 0)), (proj2 (Z.eqb_neq (v * 2 ^ k) 0)) by nia.
  rewrite Z.log2_mul_pow2 by lia. lia.
Qed.

Lemma nbits_unique v d : 0 < v -> 2 ^ (d - 1) <= v < 2 ^ d -> nbits v = d.
Proof.
  intros Hv [H1 H2]. pose proof (nbits_spec v Hv) as [H3 H4].
  destruct (decide (nbits v < d)).
  - pose proof (pow2_le (nbits v) (d - 1) ltac:(lia)). lia.
  - destruct (decide (d < nbits v)); [|lia].
    pose proof (pow2_le d (nbits v - 1) ltac:(lia)). lia.
Qed.

Lemma digits2_nbits p : Zpos (digits2_pos p) = nbits (Zpos p).
Proof.
  unfold nbits. simpl. induction p as [p IH|p IH|]; simpl in *; [| |reflexivity].
  - rewrite Pos2Z.inj_succ, IH. destruct p; simpl in *; lia.
  - rewrite Pos2Z.inj_succ, IH. destruct p; simpl in *; lia.
Qed.

Lemma Zdigits2_nbits v : 0 <= v -> Zdigits2 v = nbits v.
Proof. destruct v; intros; [reflexivity|apply digits2_nbits|lia]. Qed.

(** [Rnd kmin v] rounds the exact value [v * 2^-(1074+kmin)] to binary64, as a
    number of units of [2^-1074], before the overflow test. *)
Definition rnd_shift (kmin v : Z) : Z := Z.max (nbits v - 53) kmin.

Definition Rnd (kmin v : Z) : Z :=
  let k := rnd_shift kmin v in rne v k * 2 ^ (k - kmin).

Lemma Rnd_mono kmin v w : 0 <= kmin -> 0 <= v -> v <= w -> Rnd kmin v <= Rnd kmin w.
Proof.
  intros Hk Hv Hvw. pose proof (nbits_mono v w Hv Hvw) as Hn.
  pose proof (nbits_nonneg v). unfold Rnd, rnd_shift.
  set (kv := Z.max (nbits v - 53) kmin). set (kw := Z.max (nbits w - 53) kmin).
  destruct (decide (kv = kw)) as [E|E].
  { rewrite E. apply mul_pow2_le; [lia|]. apply rne_mono; lia. }
  assert (kv < kw) as Hlt by lia. assert (kw = nbits w - 53) as Ew by lia.
  set (d := nbits w - 1).
  assert (0 < w) as Hw.
  { destruct (decide (w = 0)) as [->|]; [|lia]. change (nbits 0) with 0 in *. lia. }
  pose proof (nbits_spec w Hw) as [Hlo _].
  assert (v <= 2 ^ d) as Hvd.
  { pose proof (nbits_lt v Hv). pose proof (pow2_le (nbits v) d ltac:(lia)). lia. }
  pose proof (rne_mono v (2 ^ d) kv ltac:(lia) Hvd) as H1.
  pose proof (rne_mono (2 ^ d) w kw ltac:(lia) ltac:(subst d; lia)) as H2.
  rewrite rne_pow2 in H1 by lia. rewrite rne_pow2 in H2 by lia.
  apply Z.le_trans with (2 ^ (d - kmin)).
  - replace (2 ^ (d - kmin)) with (2 ^ (d - kv) * 2 ^ (kv - kmin))
      by (rewrite <- pow2_split by lia; f_equal; lia).
    apply mul_pow2_le; lia.
  - replace (2 ^ (d - kmin)) with (2 ^ (d - kw) * 2 ^ (kw - kmin))
      by (rewrite <- pow2_split by lia; f_equal; lia).
    apply mul_pow2_le; lia.
Qed.

(** A value with at most 53 significant bits is a fixed point of rounding. *)
Lemma Rnd_exact m e kmin :
  0 <= kmin -> kmin <= e -> 0 <= m -> m < 2 ^ 53 -> Rnd kmin (m * 2 ^ e) = m * 2 ^ (e - kmin).
Proof.
  intros Hk He Hm Hm53. unfold Rnd, rnd_shift.
  set (k := Z.max (nbits (m * 2 ^ e) - 53) kmin).
  assert (k <= e) as Hke.
  { subst k. destruct (decide (m = 0)) as [->|].
    - rewrite Z.mul_0_l. change (nbits 0) with 0. lia.
    - rewrite nbits_mul_pow2 by lia. pose proof (nbits_spec m ltac:(lia)) as [Hs _].
      assert (nbits m - 1 < 53); [|lia]. apply (Z.pow_lt_mono_r_iff 2); lia. }
  replace (m * 2 ^ e) with (m * 2 ^ (e - k) * 2 ^ k)
    by (rewrite <- Z.mul_assoc, <- pow2_split by lia; do 2 f_equal; lia).
  rewrite rne_mul_pow2 by lia.
  rewrite <- Z.mul_assoc, <- pow2_split by lia. do 2 f_equal; lia.
Qed.

(** ** The shift register of [SpecFloat] computes [rne] *)

Lemma iter_pos_nat {A} (f : A -> A) n x : SpecFloat.iter_pos f n x = Nat.iter (Pos.to_nat n) f x.
Proof.
  revert x. induction n as [n IH|n IH|]; intros x; cbn [SpecFloat.iter_pos]; [| |reflexivity].
  - rewrite !IH, Pos2Nat.inj_xI, <- Nat.iter_add, <- Nat.iter_succ_r.
    f_equal; lia.
  - rewrite !IH, Pos2Nat.inj_xO, <- Nat.iter_add. f_equal; lia.
Qed.

Lemma shr_1_m mrs : 0 <= shr_m mrs -> shr_m (shr_1 mrs) = shr_m mrs / 2.
Proof.
  destruct mrs as [[|[p|p|]|p] r s]; simpl; intros; try lia; try reflexivity.
  - apply (Z.div_unique _ _ _ 1); lia.
  - apply (Z.div_unique _ _ _ 0); lia.
Qed.

Lemma shr_iter_m k mrs :
  0 <= shr_m mrs -> shr_m (Nat.iter k shr_1 mrs) = shr_m mrs / 2 ^ Z.of_nat k.
Proof.
  intros Hm. induction k as [|k IH]; [rewrite Z.div_1_r; reflexivity|].
  rewrite Nat.iter_succ, shr_1_m.
  - rewrite IH, Nat2Z.inj_succ, Z.pow_succ_r, Z.div_div by lia. f_equal; lia.
  - rewrite IH. apply Z.div_pos; [lia|]. apply pow2_pos; lia.
Qed.

(** Position of the discarded bits relative to the half-way point. *)
Definition loc_of (v k : Z) : location :=
  if v mod 2 ^ k =? 0 then loc_Exact else loc_Inexact (2 * (v mod 2 ^ k) ?= 2 ^ k).

Lemma shr_1_loc (m : Z) r s v k :
  0 <= k -> 0 <= v -> m = v / 2 ^ k ->
  loc_of_shr_record (Build_shr_record m r s) = loc_of v k ->
  loc_of_shr_record (shr_1 (Build_shr_record m r s)) = loc_of v (k + 1).
Proof.
  intros Hk Hv Hm Hloc. pose proof (pow2_pos k Hk) as Hp.
  assert (0 <= m) by (subst m; apply Z.div_pos; lia).
  assert (v mod 2 ^ (k + 1) = v mod 2 ^ k + 2 ^ k * (m mod 2)) as Hmod.
  { rewrite Z.pow_add_r by lia. rewrite Z.rem_mul_r by lia. subst m. reflexivity. }
  pose proof (Z.mod_pos_bound v (2 ^ k) Hp) as Hb.
  assert (2 ^ (k + 1) = 2 * 2 ^ k) as Hp1 by (rewrite Z.pow_add_r by lia; lia).
  unfold loc_of in Hloc |- *. rewrite Hmod, Hp1. clear Hm Hmod Hp1.
  set (R := v mod 2 ^ k) in *. set (P := 2 ^ k) in *. clearbody R P.
  assert (orb r s = negb (R =? 0)) as Hrs.
  { destruct (Z.eqb_spec R 0), r, s; simpl in Hloc |- *; congruence. }
  destruct m as [|[p|p|]|p]; try lia; simpl shr_1; rewrite Hrs; simpl.
  - change (0 mod 2) with 0. rewrite Z.mul_0_r, Z.add_0_r.
    destruct (Z.eqb_spec R 0); simpl; [reflexivity|].
    f_equal. symmetry. apply Z.compare_lt_iff. lia.
  - replace (Z.pos p~1 mod 2) with 1 by (apply (Z.mod_unique _ _ (Z.pos p)); lia).
    rewrite Z.mul_1_r, (proj2 (Z.eqb_neq (R + P) 0)) by lia.
    destruct (Z.eqb_spec R 0); simpl; f_equal; symmetry;
      [apply Z.compare_eq_iff|apply Z.compare_gt_iff]; lia.
  - replace (Z.pos p~0 mod 2) with 0 by (apply (Z.mod_unique _ _ (Z.pos p)); lia).
    rewrite Z.mul_0_r, Z.add_0_r.
    destruct (Z.eqb_spec R 0); simpl; [reflexivity|].
    f_equal. symmetry. apply Z.compare_lt_iff. lia.
  - change (1 mod 2) with 1. rewrite Z.mul_1_r, (proj2 (Z.eqb_neq (R + P) 0)) by lia.
    destruct (Z.eqb_spec R 0); simpl; f_equal; symmetry;
      [apply Z.compare_eq_iff|apply Z.compare_gt_iff]; lia.
Qed.

Lemma shr_iter_loc k v :
  0 <= v ->
  loc_of_shr_record (Nat.iter k shr_1 (Build_shr_record v false false)) = loc_of v (Z.of_nat k).
Proof.
  intros Hv. induction k as [|k IH].
  - unfold loc_of. rewrite Z.mod_1_r. reflexivity.
  - rewrite Nat.iter_succ.
    pose proof (shr_iter_m k (Build_shr_record v false false) Hv) as Hm.
    destruct (Nat.iter k shr_1 _) as [m r s]. simpl in Hm.
    rewrite Nat2Z.inj_succ. apply shr_1_loc; auto with lia.
Qed.

Lemma round_rne v k : 0 <= k -> round_nearest_even (v / 2 ^ k) (loc_of v k) = rne v k.
Proof.
  intros Hk. pose proof (pow2_pos k Hk). unfold loc_of, rne.
  destruct (Z.eqb_spec (v mod 2 ^ k) 0) as [E|E].
  - rewrite E. destruct (Z.compare_spec (2 * 0) (2 ^ k)); [lia|reflexivity|lia].
  - simpl. destruct (2 * (v mod 2 ^ k) ?= 2 ^ k); reflexivity.
Qed.

(** ** Normalisation after rounding *)

(** The float with mantissa [q] (at most [2^53]) and exponent [e], or an
    infinity. *)
Definition norm (s : bool) (q e : Z) : spec_float :=
  if q =? 0 then S754_zero s
  else if q =? 2 ^ 53 then
    if e + 1 <=? 971 then S754_finite s (2 ^ 52)%positive (e + 1) else S754_infinity s
  else if e <=? 971 then S754_finite s (Z.to_pos q) e else S754_infinity s.

Definition valid64 (x : spec_float) : bool := valid_binary prec emax x.

(** A mantissa that needs no further shift. *)
Definition fits (q e : Z) : Prop :=
  0 <= q <= 2 ^ 53 /\ emin64 <= e /\ (emin64 < e -> 2 ^ 52 <= q).

Lemma fexp_eq x : SpecFloat.fexp prec emax x = Z.max (x - 53) emin64.
Proof. reflexivity. Qed.

Lemma bounded_spec m e :
  bounded prec emax m e = true <->
  Z.max (nbits (Zpos m) + e - 53) emin64 = e /\ e <= 971.
Proof.
  unfold bounded, canonical_mantissa. rewrite fexp_eq, digits2_nbits.
  rewrite andb_true_iff, Z.eqb_eq, Z.leb_le. reflexivity.
Qed.

Lemma fits_nbits q e : fits q e -> q < 2 ^ 53 -> 0 < q -> Z.max (nbits q + e - 53) emin64 = e.
Proof.
  intros (Hq & He & Hn) Hlt Hpos. pose proof (nbits_spec q Hpos) as [H1 H2].
  assert (nbits q <= 53).
  { assert (nbits q - 1 < 53); [|lia]. apply (Z.pow_lt_mono_r_iff 2); lia. }
  destruct (decide (emin64 < e)); [|lia].
  rewrite (nbits_unique q 53); [lia|lia|]. specialize (Hn ltac:(lia)). simpl Z.sub. lia.
Qed.

Lemma norm_valid s q e : fits q e -> valid64 (norm s q e) = true.
Proof.
  intros H. unfold norm.
  destruct (Z.eqb_spec q 0); [reflexivity|].
  destruct (Z.eqb_spec q (2 ^ 53)).
  - destruct (Z.leb_spec (e + 1) 971); [|reflexivity].
    apply bounded_spec. destruct H as (_ & He & _).
    change (nbits (Z.pos (2 ^ 52))) with 53. lia.
  - destruct (Z.leb_spec e 971); [|reflexivity].
    apply bounded_spec. destruct H as (Hq & He & Hn).
    rewrite Z2Pos.id by lia. rewrite (fits_nbits q e); unfold fits; lia.
Qed.

(** The second normalisation step of [binary_round_aux]. *)
Lemma round_stage2 s q e :
  fits q e ->
  (let '(mrs'', e'') := shr_fexp prec emax q e loc_Exact in
   match shr_m mrs'' with
   | Z0 => S754_zero s
   | Zpos m => if Z.leb e'' (Z.sub emax prec) then S754_finite s m e'' else S754_infinity s
   | _ => S754_nan
   end) = norm s q e.
Proof.
  intros H. pose proof H as (Hq & He & Hn). unfold shr_fexp, norm.
  rewrite fexp_eq, Zdigits2_nbits by lia.
  destruct (Z.eqb_spec q 0) as [->|Hq0].
  { change (nbits 0) with 0. rewrite Z.max_r by lia.
    replace (emin64 - e) with (- (e + 1074)) by lia.
    destruct (e + 1074) eqn:E; simpl; [reflexivity| |lia]. reflexivity. }
  destruct (Z.eqb_spec q (2 ^ 53)) as [->|Hq53].
  { change (nbits (2 ^ 53)) with 54. rewrite Z.max_l by lia.
    replace (54 + e - 53 - e) with 1 by lia. simpl.
    change (Z.sub emax prec) with 971. case_match; reflexivity. }
  rewrite fits_nbits by (assumption || lia). rewrite Z.sub_diag. simpl.
  change (Z.sub emax prec) with 971. destruct q; simpl; try lia. reflexivity.
Qed.

(** Target exponent of a rounding of [m * 2^e]. *)
Definition texp (m e : Z) : Z := Z.max (nbits m + e - 53) emin64.

Lemma shr_stage1 m e l :
  0 <= m -> e <= texp m e ->
  exists mrs, shr_fexp prec emax m e l = (mrs, texp m e) /\
    shr_m mrs = m / 2 ^ (texp m e - e) /\
    (l = loc_Exact -> loc_of_shr_record mrs = loc_of m (texp m e - e)).
Proof.
  intros Hm He. unfold shr_fexp. rewrite fexp_eq, Zdigits2_nbits by lia.
  change (Z.max (nbits m + e - 53) emin64) with (texp m e).
  set (E := texp m e) in *.
  assert (shr_m (shr_record_of_loc m l) = m) as Hl by (destruct l as [|[]]; reflexivity).
  destruct (E - e) as [|p|p] eqn:D; [| |lia].
  - exists (shr_record_of_loc m l). simpl. repeat split.
    + f_equal; lia.
    + rewrite Hl, Z.div_1_r. reflexivity.
    + intros ->. unfold loc_of. rewrite Z.mod_1_r. reflexivity.
  - exists (SpecFloat.iter_pos shr_1 p (shr_record_of_loc m l)). simpl. repeat split.
    + f_equal; lia.
    + rewrite iter_pos_nat, shr_iter_m, Hl, positive_nat_Z by lia. reflexivity.
    + intros ->. rewrite iter_pos_nat. simpl shr_record_of_loc.
      rewrite shr_iter_loc, positive_nat_Z by lia. reflexivity.
Qed.

Lemma div_fits m e q :
  0 <= m -> e <= texp m e ->
  m / 2 ^ (texp m e - e) <= q <= m / 2 ^ (texp m e - e) + 1 -> fits q (texp m e).
Proof.
  intros Hm He Hq. unfold fits. set (E := texp m e) in *.
  assert (0 <= E - e) as Hk by lia. pose proof (pow2_pos _ Hk) as Hp.
  assert (m / 2 ^ (E - e) < 2 ^ 53) as Hlt.
  { apply Z.div_lt_upper_bound; [lia|]. rewrite Z.mul_comm, <- pow2_split by lia.
    pose proof (nbits_lt m Hm). pose proof (pow2_le (nbits m) (53 + (E - e)) ltac:(unfold E, texp; lia)).
    lia. }
  assert (0 <= m / 2 ^ (E - e)) by (apply Z.div_pos; lia).
  repeat split; try lia.
  - unfold E, texp. lia.
  - intros HE. assert (E = nbits m + e - 53) as EE by (unfold E, texp in *; lia).
    assert (0 < m) as Hm0.
    { destruct (decide (m = 0)) as [->|]; [|lia]. change (nbits 0) with 0 in EE. lia. }
    pose proof (nbits_spec m Hm0) as [Hlo _].
    apply Z.le_trans with (m / 2 ^ (E - e)); [|lia].
    apply Z.div_le_lower_bound; [lia|]. rewrite Z.mul_comm, <- pow2_split by lia.
    replace (52 + (E - e)) with (nbits m - 1) by lia. lia.
Qed.

Lemma round_nearest_even_bounds m l : m <= round_nearest_even m l <= m + 1.
Proof. destruct l as [|[]]; simpl; try case_match; lia. Qed.

Lemma round_aux_fits s m e l :
  0 <= m -> e <= texp m e ->
  exists q, binary_round_aux prec emax s m e l = norm s q (texp m e) /\
    fits q (texp m e) /\ (l = loc_Exact -> q = rne m (texp m e - e)).
Proof.
  intros Hm He. unfold binary_round_aux.
  destruct (shr_stage1 m e l Hm He) as (mrs & -> & Hs & Hl).
  exists (round_nearest_even (shr_m mrs) (loc_of_shr_record mrs)).
  assert (fits (round_nearest_even (shr_m mrs) (loc_of_shr_record mrs)) (texp m e)) as Hf.
  { apply div_fits; [lia..|]. rewrite Hs. apply round_nearest_even_bounds. }
  split; [apply round_stage2, Hf|]. split; [exact Hf|].
  intros El. rewrite Hs, Hl, round_rne by (assumption || lia). reflexivity.
Qed.

Lemma round_aux_valid s m e l :
  0 <= m -> e <= texp m e -> valid64 (binary_round_aux prec emax s m e l) = true.
Proof.
  intros Hm He. destruct (round_aux_fits s m e l Hm He) as (q & -> & Hf & _).
  apply norm_valid, Hf.
Qed.

Lemma shl_align_spec m e e' :
  let '(m', e'') := shl_align m e e' in
  e'' = Z.min e e' /\ Zpos m' = Zpos m * 2 ^ (e - e'').
Proof.
  unfold shl_align. destruct (e' - e) as [|d|d] eqn:D.
  - replace e' with e by lia. rewrite Z.min_id, Z.sub_diag. lia.
  - rewrite Z.min_l, Z.sub_diag by lia. lia.
  - split; [lia|]. replace (e - e') with (Zpos d) by lia.
    rewrite <- Z.shiftl_mul_pow2 by lia. unfold Z.shiftl.
    apply Pos.iter_swap_gen. reflexivity.
Qed.

Lemma nbits_texp_shift m e k : 0 < m -> 0 <= k -> texp (m * 2 ^ k) (e - k) = texp m e.
Proof. intros. unfold texp. rewrite nbits_mul_pow2 by lia. lia. Qed.

(** [binary_round] and [binary_normalize] round correctly. *)
Lemma binary_round_fits s m e :
  let T := texp (Zpos m) e in
  let k := e - Z.min e T in
  exists q, binary_round prec emax s m e = norm s q T /\ fits q T /\
    q = rne (Zpos m * 2 ^ k) (T - (e - k)).
Proof.
  intros T k. unfold binary_round. rewrite fexp_eq, digits2_nbits.
  change (Z.max (nbits (Zpos m) + e - 53) emin64) with T.
  pose proof (shl_align_spec m e T) as Hs.
  destruct (shl_align m e _) as [mz ez]. destruct Hs as [-> Hm].
  assert (texp (Zpos mz) (Z.min e T) = T) as Ht.
  { transitivity (texp (Zpos m * 2 ^ k) (e - k)).
    - rewrite Hm. f_equal; lia.
    - apply nbits_texp_shift; lia. }
  destruct (round_aux_fits s (Zpos mz) (Z.min e T) loc_Exact)
    as (q & Hq & Hf & Hr); [lia..|].
  rewrite Ht in *. exists q. split; [exact Hq|]. split; [exact Hf|].
  rewrite (Hr eq_refl), Hm. f_equal; lia.
Qed.

Lemma binary_round_valid s m e : valid64 (binary_round prec emax s m e) = true.
Proof.
  destruct (binary_round_fits s m e) as (q & -> & Hf & _). apply norm_valid, Hf.
Qed.

Lemma binary_normalize_valid m e s : valid64 (binary_normalize prec emax m e s) = true.
Proof. destruct m; [reflexivity|apply binary_round_valid..]. Qed.

(** ** The operations preserve validity *)

Lemma nbits_mul_ge a b : 0 < a -> 0 < b -> nbits a + nbits b - 1 <= nbits (a * b).
Proof.
  intros Ha Hb. pose proof (nbits_pos a Ha). pose proof (nbits_pos b Hb).
  pose proof (nbits_spec a Ha) as [Ha1 _]. pose proof (nbits_spec b Hb) as [Hb1 _].
  assert (2 ^ (nbits a + nbits b - 2) <= a * b) as H1.
  { replace (nbits a + nbits b - 2) with ((nbits a - 1) + (nbits b - 1)) by lia.
    rewrite pow2_split by lia. apply Z.mul_le_mono_nonneg; try lia; apply Z.pow_nonneg; lia. }
  pose proof (nbits_lt (a * b) ltac:(nia)) as H2.
  assert (nbits a + nbits b - 2 < nbits (a * b)); [|lia].
  apply (Z.pow_lt_mono_r_iff 2); try lia. apply nbits_nonneg.
Qed.

Lemma nbits_div_ge a b : 0 <= a -> 0 < b -> nbits a - nbits b <= nbits (a / b).
Proof.
  intros Ha Hb. pose proof (nbits_nonneg (a / b)).
  destruct (decide (nbits a - nbits b <= 0)); [lia|].
  assert (0 < a) as Ha0.
  { destruct (decide (a = 0)) as [->|]; [|lia]. change (nbits 0) with 0 in *.
    pose proof (nbits_nonneg b). lia. }
  pose proof (nbits_spec a Ha0) as [Ha1 _]. pose proof (nbits_lt b ltac:(lia)).
  pose proof (nbits_nonneg b).
  assert (2 ^ (nbits a - nbits b - 1) <= a / b) as Hlow.
  { apply Z.div_le_lower_bound; [lia|]. apply Z.le_trans with (2 ^ (nbits a - 1)); [|lia].
    replace (nbits a - 1) with (nbits b + (nbits a - nbits b - 1)) by lia.
    rewrite (pow2_split (nbits b)) by lia.
    apply Z.mul_le_mono_nonneg_r; [apply Z.pow_nonneg|]; lia. }
  pose proof (nbits_lt (a / b) ltac:(apply Z.div_pos; lia)) as Hhigh.
  assert (nbits a - nbits b - 1 < nbits (a / b)); [|lia].
  apply (Z.pow_lt_mono_r_iff 2); lia.
Qed.

Lemma nbits_sqrt_ge a : 0 < a -> (nbits a + 1) / 2 <= nbits (Z.sqrt a).
Proof.
  intros Ha. pose proof (nbits_spec a Ha) as [Ha1 _]. pose proof (nbits_pos a Ha).
  set (h := (nbits a - 1) / 2).
  assert (2 * h <= nbits a - 1) as Hh by (subst h; pose proof (Z.mul_div_le (nbits a - 1) 2); lia).
  assert (0 <= h) by (subst h; apply Z.div_pos; lia).
  assert (2 ^ h <= Z.sqrt a) as Hlow.
  { rewrite <- (Z.sqrt_square (2 ^ h)) by (apply Z.pow_nonneg; lia).
    apply Z.sqrt_le_mono. rewrite <- pow2_split by lia.
    pose proof (pow2_le (h + h) (nbits a - 1) ltac:(lia)). lia. }
  pose proof (nbits_lt (Z.sqrt a) (Z.sqrt_nonneg a)) as Hhigh.
  pose proof (nbits_nonneg (Z.sqrt a)).
  assert (h < nbits (Z.sqrt a)) by (apply (Z.pow_lt_mono_r_iff 2); lia).
  replace ((nbits a + 1) / 2) with (h + 1); [lia|].
  subst h. replace (nbits a + 1) with (nbits a - 1 + 1 * 2) by lia.
  rewrite Z.div_add by lia. lia.
Qed.

Lemma mul_texp m1 e1 m2 e2 :
  bounded prec emax m1 e1 = true -> bounded prec emax m2 e2 = true ->
  e1 + e2 <= texp (Zpos (m1 * m2)) (e1 + e2).
Proof.
  rewrite !bounded_spec. intros [H1 _] [H2 _]. unfold texp.
  pose proof (nbits_mul_ge (Zpos m1) (Zpos m2)). rewrite Pos2Z.inj_mul.
  pose proof (nbits_pos (Zpos m1)). pose proof (nbits_pos (Zpos m2)). lia.
Qed.

Lemma SFmul_valid x y :
  valid64 x = true -> valid64 y = true -> valid64 (SFmul prec emax x y) = true.
Proof.
  destruct x, y; simpl; intros; try reflexivity.
  apply round_aux_valid; [lia|]. apply mul_texp; assumption.
Qed.

Lemma SFadd_valid x y :
  valid64 x = true -> valid64 y = true -> valid64 (SFadd prec emax x y) = true.
Proof.
  destruct x as [[]|[]| |], y as [[]|[]| |]; simpl; intros; try reflexivity; try assumption;
    apply binary_normalize_valid.
Qed.

Lemma SFsub_valid x y :
  valid64 x = true -> valid64 y = true -> valid64 (SFsub prec emax x y) = true.
Proof.
  destruct x as [[]|[]| |], y as [[]|[]| |]; simpl; intros; try reflexivity; try assumption;
    apply binary_normalize_valid.
Qed.

Lemma div_core_texp m1 e1 m2 e2 :
  let '(q, e, _) := SFdiv_core_binary prec emax (Zpos m1) e1 (Zpos m2) e2 in
  0 <= q /\ e <= texp q e.
Proof.
  unfold SFdiv_core_binary. rewrite fexp_eq, !Zdigits2_nbits by lia.
  set (D := nbits (Zpos m1) + e1 - (nbits (Zpos m2) + e2)).
  set (e' := Z.min (Z.max (D - 53) emin64) (e1 - e2)).
  set (s := e1 - e2 - e').
  assert (0 <= s) by lia.
  assert (match s with Z0 => Zpos m1 | Zpos _ => Z.shiftl (Zpos m1) s | Zneg _ => 0 end
          = Zpos m1 * 2 ^ s) as ->.
  { destruct s eqn:Es; [lia| |lia]. rewrite Z.shiftl_mul_pow2; lia. }
  pose proof (nbits_div_ge (Zpos m1 * 2 ^ s) (Zpos m2)
    ltac:(pose proof (pow2_pos s ltac:(lia)); nia) ltac:(lia)) as Hd.
  rewrite nbits_mul_pow2 in Hd by lia.
  assert (0 <= Zpos m1 * 2 ^ s / Zpos m2).
  { apply Z.div_pos; [|lia]. pose proof (pow2_pos s ltac:(lia)). nia. }
  unfold Z.div in *. destruct (Z.div_eucl _ _) as [q r].
  split; [assumption|]. unfold texp. lia.
Qed.

Lemma SFdiv_valid x y : valid64 (SFdiv prec emax x y) = true.
Proof.
  destruct x as [| | |sx mx ex], y as [| | |sy my ey]; simpl; intros; try reflexivity.
  pose proof (div_core_texp mx ex my ey) as H.
  destruct (SFdiv_core_binary _ _ _ _ _ _) as [[q e] l]. destruct H.
  apply round_aux_valid; assumption.
Qed.

Lemma sqrt_core_texp m e :
  let '(q, e', _) := SFsqrt_core_binary prec emax (Zpos m) e in 0 <= q /\ e' <= texp q e'.
Proof.
  unfold SFsqrt_core_binary. rewrite fexp_eq, !Zdigits2_nbits, !Z.div2_div by lia.
  set (D := (nbits (Zpos m) + e + 1) / 2).
  set (e' := Z.min (Z.max (D - 53) emin64) (e / 2)).
  set (s := e - 2 * e').
  assert (0 <= s) by (subst s e'; pose proof (Z.mul_div_le e 2); lia).
  assert (match s with Z0 => Zpos m | Zpos _ => Z.shiftl (Zpos m) s | Zneg _ => 0 end
          = Zpos m * 2 ^ s) as ->.
  { destruct s eqn:Es; [lia| |lia]. rewrite Z.shiftl_mul_pow2; lia. }
  pose proof (nbits_sqrt_ge (Zpos m * 2 ^ s)
    ltac:(pose proof (pow2_pos s ltac:(lia)); nia)) as Hd.
  rewrite nbits_mul_pow2 in Hd by lia.
  replace (nbits (Z.pos m) + s + 1) with (nbits (Z.pos m) + e + 1 + (- e') * 2) in Hd by lia.
  rewrite Z.div_add in Hd by lia.
  pose proof (Z.sqrtrem_sqrt (Zpos m * 2 ^ s)) as Hq.
  pose proof (Z.sqrt_nonneg (Zpos m * 2 ^ s)).
  destruct (Z.sqrtrem _) as [q r]. simpl in Hq. subst q.
  split; [assumption|]. unfold texp. lia.
Qed.

Lemma SFsqrt_valid x : valid64 (SFsqrt prec emax x) = true.
Proof.
  destruct x as [|[]| |[] mx ex]; simpl; intros; try reflexivity.
  pose proof (sqrt_core_texp mx ex) as H.
  destruct (SFsqrt_core_binary _ _ _ _) as [[q e] l]. destruct H.
  apply round_aux_valid; assumption.
Qed.

(** ** Values of non-negative floats *)

Lemma rne_scale a b j : 0 <= b -> 0 <= j -> rne (a * 2 ^ j) (b + j) = rne a b.
Proof.
  intros Hb Hj. pose proof (pow2_pos b Hb). pose proof (pow2_pos j Hj). unfold rne.
  rewrite pow2_split by lia. rewrite Z.div_mul_cancel_r, Z.mul_mod_distr_r by lia.
  rewrite Z.mul_assoc, <- Zmult_compare_compat_r by lia. reflexivity.
Qed.

(** Overflow threshold, in units of [2^-1074]. *)
Definition HUGE : Z := 2 ^ 2098.

Lemma HUGE_pos : 0 < HUGE.
Proof. apply pow2_pos. lia. Qed.

(** Value of a non-negative float in units of [2^-1074]; infinity is [HUGE] and
    NaN is above everything. *)
Definition fmag (x : spec_float) : Z :=
  match x with
  | S754_zero _ => 0
  | S754_finite _ m e => Zpos m * 2 ^ (e + 1074)
  | S754_infinity _ => HUGE
  | S754_nan => HUGE + 1
  end.

Lemma bounded_range m e :
  bounded prec emax m e = true -> emin64 <= e <= 971 /\ Zpos m < 2 ^ 53.
Proof.
  rewrite bounded_spec. intros [H1 H2]. split; [lia|].
  pose proof (nbits_lt (Zpos m) ltac:(lia)).
  pose proof (pow2_le (nbits (Zpos m)) 53 ltac:(lia)). lia.
Qed.

Lemma finite_fmag_lt m e :
  bounded prec emax m e = true -> 0 < Zpos m * 2 ^ (e + 1074) < HUGE.
Proof.
  intros H. apply bounded_range in H as [He Hm].
  pose proof (pow2_pos (e + 1074) ltac:(lia)). split; [lia|].
  unfold HUGE. change 2098 with (53 + 2045). rewrite (pow2_split 53 2045) by lia.
  apply Z.lt_le_trans with (2 ^ 53 * 2 ^ (e + 1074)).
  - apply Z.mul_lt_mono_pos_r; lia.
  - apply Z.mul_le_mono_nonneg_l; [lia|]. apply pow2_le. lia.
Qed.

Lemma fmag_norm q e : fits q e -> fmag (norm false q e) = Z.min (q * 2 ^ (e + 1074)) HUGE.
Proof.
  intros (Hq & He & Hn). unfold norm.
  destruct (Z.eqb_spec q 0) as [->|].
  { rewrite Z.mul_0_l, Z.min_l; [reflexivity|]. apply Z.pow_nonneg; lia. }
  destruct (Z.eqb_spec q (2 ^ 53)) as [->|].
  - rewrite <- pow2_split by lia. destruct (Z.leb_spec (e + 1) 971); simpl fmag.
    + change (Z.pos (2 ^ 52)) with (2 ^ 52). rewrite <- pow2_split by lia.
      replace (52 + (e + 1 + 1074)) with (53 + (e + 1074)) by lia.
      rewrite Z.min_l; [reflexivity|]. apply pow2_le. lia.
    + rewrite Z.min_r; [reflexivity|]. apply pow2_le. lia.
  - destruct (Z.leb_spec e 971); simpl fmag.
    + rewrite Z2Pos.id by lia. rewrite Z.min_l; [reflexivity|].
      apply Z.le_trans with (2 ^ 53 * 2 ^ (e + 1074)).
      * apply mul_pow2_le; lia.
      * rewrite <- pow2_split by lia. apply pow2_le. lia.
    + rewrite Z.min_r; [reflexivity|]. specialize (Hn ltac:(lia)).
      apply Z.le_trans with (2 ^ 52 * 2 ^ (e + 1074)).
      * rewrite <- pow2_split by lia. apply pow2_le. lia.
      * apply mul_pow2_le; lia.
Qed.

Lemma rne_Rnd m e k kmin :
  0 < m -> 0 <= kmin -> 0 <= k -> 0 <= e - k + 1074 + kmin -> e - k <= texp m e ->
  rne (m * 2 ^ k) (texp m e - (e - k)) * 2 ^ (texp m e + 1074) = Rnd kmin (m * 2 ^ (e + 1074 + kmin)).
Proof.
  intros Hm Hk0 Hk Hj Ht. unfold Rnd, rnd_shift. rewrite nbits_mul_pow2 by lia.
  set (K := Z.max (nbits m + (e + 1074 + kmin) - 53) kmin).
  assert (K = texp m e + 1074 + kmin) as HK by (unfold K, texp; lia).
  replace (K - kmin) with (texp m e + 1074) by lia. f_equal.
  replace (m * 2 ^ (e + 1074 + kmin)) with (m * 2 ^ k * 2 ^ (e - k + 1074 + kmin))
    by (rewrite <- Z.mul_assoc, <- pow2_split by lia; do 2 f_equal; lia).
  replace K with (texp m e - (e - k) + (e - k + 1074 + kmin)) by lia.
  symmetry. apply rne_scale; lia.
Qed.

Lemma fmag_binary_round m e :
  emin64 <= e ->
  fmag (binary_round prec emax false m e) = Z.min (Rnd 0 (Zpos m * 2 ^ (e + 1074))) HUGE.
Proof.
  intros He. destruct (binary_round_fits false m e) as (q & -> & Hf & ->).
  assert (emin64 <= texp (Zpos m) e) by (unfold texp; lia).
  rewrite fmag_norm by assumption. f_equal.
  rewrite (rne_Rnd _ _ _ 0) by lia. do 3 f_equal. lia.
Qed.

Lemma fmag_round_aux m e :
  -2148 <= e -> e <= texp (Zpos m) e ->
  fmag (binary_round_aux prec emax false (Zpos m) e loc_Exact) =
  Z.min (Rnd 1074 (Zpos m * 2 ^ (e + 2148))) HUGE.
Proof.
  intros He Ht. destruct (round_aux_fits false (Zpos m) e loc_Exact) as (q & -> & Hf & Hq); [lia..|].
  rewrite fmag_norm by assumption. f_equal. rewrite (Hq eq_refl).
  pose proof (rne_Rnd (Zpos m) e 0 1074) as H. rewrite Z.mul_1_r, Z.sub_0_r in H.
  rewrite H by lia. do 3 f_equal. lia.
Qed.
