(* ===== verification/Double.v ===== *)
(** The C type [double]: the valid binary64 floats, the operators of C on them,
    the [<math.h>] roundings [rint], [ceil] and [sqrt], and the order theory of
    non-negative doubles that the cost theorems use. *)
From Stdlib Require Import SpecFloat Eqdep_dec.
From S2P Require Import Prelude Float64.

(** A double is a valid binary64 value; NaN payloads are not distinguished. *)
Record double := mkD { SF : spec_float; SF_valid : valid64 SF = true }.

Lemma double_eq (x y : double) : SF x = SF y -> x = y.
Proof.
  destruct x as [x Hx], y as [y Hy]. simpl. intros <-. f_equal.
  apply UIP_dec. decide equality.
Qed.

#[export] Instance spec_float_eq_dec : EqDecision spec_float.
Proof. intros x y. unfold Decision. repeat decide equality. Defined.

#[export] Instance double_eq_dec : EqDecision double.
Proof.
  intros x y. destruct (decide (SF x = SF y)) as [E|E].
  - left. apply double_eq, E.
  - right. intros ->. apply E. reflexivity.
Defined.

(** ** Operators *)

(** A validity proof that evaluates to [eq_refl], so that equal doubles evaluate
    to equal terms. *)
Definition checked (b : bool) : b = true -> b = true :=
  match b with true => fun _ => eq_refl | false => fun H => H end.

Definition dadd (x y : double) : double :=
  mkD (SFadd prec emax (SF x) (SF y)) (checked _ (SFadd_valid _ _ (SF_valid x) (SF_valid y))).
Definition dsub (x y : double) : double :=
  mkD (SFsub prec emax (SF x) (SF y)) (checked _ (SFsub_valid _ _ (SF_valid x) (SF_valid y))).
Definition dmul (x y : double) : double :=
  mkD (SFmul prec emax (SF x) (SF y)) (checked _ (SFmul_valid _ _ (SF_valid x) (SF_valid y))).
Definition ddiv (x y : double) : double :=
  mkD (SFdiv prec emax (SF x) (SF y)) (checked _ (SFdiv_valid _ _)).
Definition dsqrt (x : double) : double := mkD (SFsqrt prec emax (SF x)) (checked _ (SFsqrt_valid _)).

(** Conversion from an integer type ([(double) n], round to nearest). *)
Definition i2d (n : Z) : double :=
  mkD (binary_normalize prec emax n 0 false) (checked _ (binary_normalize_valid _ _ _)).

(** A decimal literal [n / d]: [n] and [d] are exactly representable, so the
    division is the correctly rounded literal. *)
Definition dlit (n d : Z) : double := ddiv (i2d n) (i2d d).

Definition dnan : double := mkD S754_nan eq_refl.
Definition dinf (s : bool) : double := mkD (S754_infinity s) eq_refl.
Definition dzero : double := mkD (S754_zero false) eq_refl.

(** The comparison operators of C: false as soon as an operand is NaN. *)
Definition dlt (x y : double) : bool := SFltb (SF x) (SF y).
Definition dle (x y : double) : bool := SFleb (SF x) (SF y).
Definition deq (x y : double) : bool := SFeqb (SF x) (SF y).
Definition isnan (x : double) : bool := match SF x with S754_nan => true | _ => false end.

Declare Scope double_scope.
Delimit Scope double_scope with D.
Bind Scope double_scope with double.
Infix "+" := dadd : double_scope.
Infix "-" := dsub : double_scope.
Infix "*" := dmul : double_scope.
Infix "/" := ddiv : double_scope.
Infix "<?" := dlt (at level 70, no associativity) : double_scope.
Infix "<=?" := dle (at level 70, no associativity) : double_scope.
Notation "x >? y" := (dlt y x) (at level 70, no associativity, only parsing) : double_scope.
Notation "x >=? y" := (dle y x) (at level 70, no associativity, only parsing) : double_scope.

(** [Max] and [Min] of c.h. *)
Definition dMax (x y : double) : double := if (x >? y)%D then x else y.
Definition dMin (x y : double) : double := if (x <? y)%D then x else y.

(** [rint] in the default rounding mode, and [ceil]. *)
Definition SFrint (x : spec_float) : spec_float :=
  match x with
  | S754_finite s m e =>
      if e <? 0 then binary_normalize prec emax (cond_Zopp s (rne (Zpos m) (- e))) 0 s else x
  | _ => x
  end.

Definition SFceil (x : spec_float) : spec_float :=
  match x with
  | S754_finite s m e =>
      if e <? 0 then
        let q := Zpos m / 2 ^ (- e) in
        let up := negb s && negb (Zpos m mod 2 ^ (- e) =? 0) in
        binary_normalize prec emax (cond_Zopp s (if up then q + 1 else q)) 0 s
      else x
  | _ => x
  end.

Lemma SFrint_valid x : valid64 x = true -> valid64 (SFrint x) = true.
Proof.
  destruct x; simpl; auto. intros. case_match; [apply binary_normalize_valid|assumption].
Qed.

Lemma SFceil_valid x : valid64 x = true -> valid64 (SFceil x) = true.
Proof.
  destruct x; simpl; auto. intros. case_match; [apply binary_normalize_valid|assumption].
Qed.

Definition rint (x : double) : double := mkD (SFrint (SF x)) (checked _ (SFrint_valid _ (SF_valid x))).
Definition ceil (x : double) : double := mkD (SFceil (SF x)) (checked _ (SFceil_valid _ (SF_valid x))).

(** ** Non-negative doubles *)

(** Sign bit clear, or NaN. *)
Definition nonneg (x : double) : bool :=
  match SF x with
  | S754_zero s | S754_infinity s | S754_finite s _ _ => negb s
  | S754_nan => true
  end.

(** [x ⊑ y] on non-negative doubles: [x] is at most [y], NaN above everything. *)
Definition cmag (x : double) : Z := fmag (SF x).
Definition cle (x y : double) : Prop := cmag x <= cmag y.
Infix "⊑" := cle (at level 70) : double_scope.
Open Scope double_scope.

#[export] Instance cle_preorder : PreOrder cle.
Proof. split; unfold cle; [intros x|intros x y z]; lia. Qed.

Create HintDb nneg.

Lemma norm_nonneg q e : match norm false q e with
  | S754_zero s | S754_infinity s | S754_finite s _ _ => negb s | S754_nan => true end = true.
Proof. unfold norm. repeat case_match; try discriminate; simplify_eq; reflexivity. Qed.

Lemma round_aux_nonneg m e l : 0 <= m -> (e <= texp m e)%Z ->
  match binary_round_aux prec emax false m e l with
  | S754_zero s | S754_infinity s | S754_finite s _ _ => negb s | S754_nan => true end = true.
Proof.
  intros Hm He. destruct (round_aux_fits false m e l Hm He) as (q & -> & _). apply norm_nonneg.
Qed.

Lemma binary_normalize_nonneg m e : 0 <= m ->
  match binary_normalize prec emax m e false with
  | S754_zero s | S754_infinity s | S754_finite s _ _ => negb s | S754_nan => true end = true.
Proof.
  intros Hm. destruct m; [reflexivity| |lia]. simpl.
  destruct (binary_round_fits false p e) as (q & -> & _). apply norm_nonneg.
Qed.

Lemma nonneg_i2d n : 0 <= n -> nonneg (i2d n) = true.
Proof. intros. apply binary_normalize_nonneg. lia. Qed.

Lemma nonneg_add x y : nonneg x = true -> nonneg y = true -> nonneg (x + y) = true.
Proof.
  destruct x as [x Vx], y as [y Vy]. unfold nonneg, dadd. simpl. clear.
  destruct x as [[]|[]| |[] mx ex], y as [[]|[]| |[] my ey]; simpl; intros; try done.
  apply (binary_normalize_nonneg (Z.pos _)). lia.
Qed.

Lemma nonneg_mul x y : nonneg x = true -> nonneg y = true -> nonneg (x * y) = true.
Proof.
  destruct x as [x Vx], y as [y Vy]. unfold nonneg, dmul. simpl.
  destruct x as [[]|[]| |[] mx ex], y as [[]|[]| |[] my ey]; simpl in *; intros; try done.
  apply round_aux_nonneg; [lia|]. apply mul_texp; assumption.
Qed.

Lemma nonneg_div x y : nonneg x = true -> nonneg y = true -> nonneg (x / y) = true.
Proof.
  destruct x as [x Vx], y as [y Vy]. unfold nonneg, ddiv. simpl.
  destruct x as [[]|[]| |[] mx ex], y as [[]|[]| |[] my ey]; simpl in *; intros; try done.
  pose proof (div_core_texp mx ex my ey) as H1.
  destruct (SFdiv_core_binary _ _ _ _ _ _) as [[q e] l]. destruct H1.
  apply round_aux_nonneg; assumption.
Qed.

Lemma nonneg_rint x : nonneg x = true -> nonneg (rint x) = true.
Proof.
  destruct x as [x Vx]. unfold nonneg, rint. simpl.
  destruct x as [[]|[]| |[] m e]; simpl in *; intros; try done.
  destruct (Z.ltb_spec e 0); [|reflexivity]. apply binary_normalize_nonneg.
  pose proof (rne_bounds (Zpos m) (- e) ltac:(lia)).
  assert (0 <= Zpos m / 2 ^ (- e)); [|lia]. apply Z.div_pos; [lia|]. apply pow2_pos. lia.
Qed.

Lemma nonneg_ceil x : nonneg x = true -> nonneg (ceil x) = true.
Proof.
  destruct x as [x Vx]. unfold nonneg, ceil. simpl.
  destruct x as [[]|[]| |[] m e]; simpl in *; intros; try done.
  destruct (Z.ltb_spec e 0); [|reflexivity]. apply binary_normalize_nonneg.
  assert (0 <= Zpos m / 2 ^ (- e)); [|case_match; lia].
  apply Z.div_pos; [lia|]. apply pow2_pos. lia.
Qed.

Lemma nonneg_sqrt x : nonneg x = true -> nonneg (dsqrt x) = true.
Proof.
  destruct x as [x Vx]. unfold nonneg, dsqrt. simpl.
  destruct x as [[]|[]| |[] m e]; simpl in *; intros; try done.
  pose proof (sqrt_core_texp m e) as H1.
  destruct (SFsqrt_core_binary _ _ _ _) as [[q e'] l]. destruct H1.
  apply round_aux_nonneg; assumption.
Qed.

#[export] Hint Resolve nonneg_add nonneg_mul nonneg_div nonneg_rint nonneg_ceil
  nonneg_sqrt nonneg_i2d : nneg.

(** ** Comparisons and magnitudes *)

Lemma cmag_range x : 0 <= cmag x <= HUGE + 1.
Proof.
  destruct x as [[s|s| |s m e] V]; unfold cmag; cbn [SF fmag].
  all: pose proof HUGE_pos.
  all: try lia. pose proof (finite_fmag_lt m e V). lia.
Qed.

Lemma finite_lt_exp m1 e1 m2 e2 :
  bounded prec emax m1 e1 = true -> bounded prec emax m2 e2 = true -> (e1 < e2)%Z ->
  (Zpos m1 * 2 ^ (e1 + 1074) < Zpos m2 * 2 ^ (e2 + 1074))%Z.
Proof.
  intros H1 H2 He. pose proof (bounded_range _ _ H1) as [R1 M1].
  pose proof (bounded_range _ _ H2) as [R2 M2]. apply bounded_spec in H2 as [C2 _].
  assert (nbits (Zpos m2) = 53) as N2 by lia.
  pose proof (nbits_spec (Zpos m2) ltac:(lia)) as [L2 _]. rewrite N2 in L2.
  pose proof (pow2_pos (e1 + 1074) ltac:(lia)).
  apply Z.lt_le_trans with (2 ^ 53 * 2 ^ (e1 + 1074))%Z; [nia|].
  apply Z.le_trans with (2 ^ 52 * 2 ^ (e2 + 1074))%Z.
  - rewrite <- !pow2_split by lia. apply pow2_le. lia.
  - apply mul_pow2_le; lia.
Qed.

Lemma finite_compare m1 e1 m2 e2 :
  bounded prec emax m1 e1 = true -> bounded prec emax m2 e2 = true ->
  match Z.compare e1 e2 with
  | Lt => Lt | Gt => Gt | Eq => Pos.compare_cont Eq m1 m2
  end = (Zpos m1 * 2 ^ (e1 + 1074) ?= Zpos m2 * 2 ^ (e2 + 1074))%Z.
Proof.
  intros H1 H2. pose proof (bounded_range _ _ H1) as [R1 M1].
  destruct (Z.compare_spec e1 e2) as [<-|He|He].
  - change (Pos.compare_cont Eq m1 m2) with (Zpos m1 ?= Zpos m2)%Z.
    apply Zmult_compare_compat_r. pose proof (pow2_pos (e1 + 1074) ltac:(lia)). lia.
  - symmetry. apply Z.compare_lt_iff. apply finite_lt_exp; assumption.
  - symmetry. apply Z.compare_gt_iff. apply finite_lt_exp; assumption.
Qed.

Lemma SFcompare_cmag x y :
  nonneg x = true -> nonneg y = true -> isnan x = false -> isnan y = false ->
  SFcompare (SF x) (SF y) = Some (cmag x ?= cmag y)%Z.
Proof.
  destruct x as [x Vx], y as [y Vy]. unfold nonneg, isnan, cmag. cbn [SF].
  pose proof HUGE_pos.
  destruct x as [[]|[]| |[] mx ex], y as [[]|[]| |[] my ey]; cbn [fmag negb]; intros;
    try discriminate; cbn [SFcompare]; f_equal; symmetry.
  all: try apply Z.compare_refl.
  all: try (apply Z.compare_lt_iff; pose proof (finite_fmag_lt _ _ Vy); lia).
  all: try (apply Z.compare_gt_iff; pose proof (finite_fmag_lt _ _ Vx); lia).
  all: try (apply Z.compare_lt_iff; pose proof (finite_fmag_lt _ _ Vx); lia).
  all: try (apply Z.compare_gt_iff; pose proof (finite_fmag_lt _ _ Vy); lia).
  all: try (apply Z.compare_lt_iff; lia).
  all: try (apply Z.compare_gt_iff; lia).
  symmetry. apply finite_compare; assumption.
Qed.

Lemma isnan_cmag x : isnan x = true <-> cmag x = (HUGE + 1)%Z.
Proof.
  destruct x as [[s|s| |s m e] V]; unfold isnan, cmag; cbn [SF fmag];
    split; intros; try done; pose proof HUGE_pos; try lia.
  pose proof (finite_fmag_lt _ _ V). lia.
Qed.

Lemma isnan_cmag_false x : isnan x = false <-> (cmag x <= HUGE)%Z.
Proof.
  pose proof (cmag_range x). pose proof (isnan_cmag x) as E.
  destruct (isnan x); split; intros; try done.
  - assert (cmag x = HUGE + 1)%Z by (apply E; reflexivity). lia.
  - destruct (decide (cmag x = HUGE + 1)%Z); [|lia]. destruct E as [_ E]. discriminate E. done.
Qed.

Lemma dlt_nan_l x y : isnan x = true -> (x <? y) = false.
Proof. destruct x as [[] V]; done. Qed.
Lemma dlt_nan_r x y : isnan y = true -> (x <? y) = false.
Proof. destruct y as [[] V], x as [[] V']; done. Qed.
Lemma dle_nan_l x y : isnan x = true -> (x <=? y) = false.
Proof. destruct x as [[] V]; done. Qed.
Lemma dle_nan_r x y : isnan y = true -> (x <=? y) = false.
Proof. destruct y as [[] V], x as [[] V']; done. Qed.

(** The boolean comparisons on non-negative doubles. *)
Lemma dlt_iff x y : nonneg x = true -> nonneg y = true ->
  (x <? y) = true <-> (cmag x < cmag y)%Z /\ isnan y = false.
Proof.
  intros Hx Hy. destruct (isnan x) eqn:Nx.
  { rewrite dlt_nan_l by done. pose proof (cmag_range y). apply isnan_cmag in Nx. split; [done|lia]. }
  destruct (isnan y) eqn:Ny.
  { rewrite dlt_nan_r by done. split; [done|]. intros [_ E]. done. }
  unfold dlt, SFltb. rewrite SFcompare_cmag by assumption.
  destruct (Z.compare_spec (cmag x) (cmag y)); split; intros; try done; lia.
Qed.

Lemma dle_iff x y : nonneg x = true -> nonneg y = true ->
  (x <=? y) = true <-> (cmag x <= cmag y)%Z /\ isnan y = false.
Proof.
  intros Hx Hy. destruct (isnan y) eqn:Ny.
  { rewrite dle_nan_r by done. split; [done|]. intros [_ E]. done. }
  destruct (isnan x) eqn:Nx.
  { rewrite dle_nan_l by done. apply isnan_cmag in Nx. apply isnan_cmag_false in Ny.
    split; [done|lia]. }
  unfold dle, SFleb. rewrite SFcompare_cmag by assumption.
  destruct (Z.compare_spec (cmag x) (cmag y)); split; intros; try done; lia.
Qed.

Lemma cle_not_lt x y : nonneg x = true -> nonneg y = true -> x ⊑ y -> (y <? x) = false.
Proof.
  unfold cle. intros Hx Hy H. apply not_true_iff_false. rewrite dlt_iff by assumption. lia.
Qed.

Lemma cle_dle x y : nonneg x = true -> nonneg y = true -> isnan y = false ->
  (x <=? y) = true <-> x ⊑ y.
Proof. unfold cle. intros. rewrite dle_iff by assumption. tauto. Qed.

Lemma dlt_cle x y : nonneg x = true -> nonneg y = true -> (x <? y) = true -> x ⊑ y.
Proof. unfold cle. intros ??. rewrite dlt_iff by assumption. lia. Qed.

(** ** Addition is monotone *)

Definition sat (v : Z) : Z := Z.min v HUGE.

Lemma shl_align_fst m e ez : (ez <= e)%Z -> Zpos (fst (shl_align m e ez)) = (Zpos m * 2 ^ (e - ez))%Z.
Proof.
  intros. pose proof (shl_align_spec m e ez) as H1. destruct (shl_align m e ez) as [m' e''].
  destruct H1 as [-> H1]. cbn [fst]. rewrite H1, Z.min_r by lia. reflexivity.
Qed.

Lemma Rnd_HUGE : Rnd 0 HUGE = HUGE.
Proof.
  unfold HUGE. replace (2 ^ 2098)%Z with (1 * 2 ^ 2098)%Z by lia.
  rewrite Rnd_exact by lia. f_equal.
Qed.

Lemma Rnd_cmag x : isnan x = false -> Rnd 0 (cmag x) = cmag x.
Proof.
  destruct x as [[s|s| |s m e] V]; unfold isnan, cmag; cbn [SF fmag]; intros;
    [reflexivity|apply Rnd_HUGE|discriminate|].
  apply bounded_range in V as [R M]. rewrite Rnd_exact by lia. f_equal. f_equal. lia.
Qed.

#[local] Opaque HUGE Rnd.

Lemma cmag_add x y : nonneg x = true -> nonneg y = true -> isnan x = false -> isnan y = false ->
  cmag (x + y) = sat (Rnd 0 (cmag x + cmag y)).
Proof.
  intros Hx Hy Nx Ny.
  assert (forall v, 0 <= v -> sat (Rnd 0 (HUGE + v)) = HUGE)%Z as Hsat.
  { intros v Hv. unfold sat. apply Z.min_r. rewrite <- Rnd_HUGE at 1.
    pose proof HUGE_pos. apply Rnd_mono; lia. }
  assert (forall z, isnan z = false -> sat (Rnd 0 (cmag z)) = cmag z)%Z as Hid.
  { intros z Hz. unfold sat. rewrite Rnd_cmag by assumption. apply Z.min_l.
    apply isnan_cmag_false, Hz. }
  pose proof (Hid x Nx) as Rx. pose proof (Hid y Ny) as Ry.
  pose proof (Hsat _ (proj1 (cmag_range x))) as Sx.
  pose proof (Hsat _ (proj1 (cmag_range y))) as Sy. clear Hsat Hid.
  destruct x as [x Vx], y as [y Vy]. unfold nonneg, isnan, cmag, dadd in *. cbn [SF] in *.
  destruct x as [[]|[]| |[] mx ex]; try discriminate Hx; try discriminate Nx;
    destruct y as [[]|[]| |[] my ey]; try discriminate Hy; try discriminate Ny;
    cbn [SFadd fmag] in *; rewrite ?Z.add_0_l, ?Z.add_0_r in *; try (symmetry; assumption).
  - rewrite Z.add_comm. symmetry. assumption.
  - cbn [cond_Zopp]. rewrite !shl_align_fst by lia.
    pose proof (bounded_range _ _ Vx) as [Bx _]. pose proof (bounded_range _ _ Vy) as [By _].
    set (ez := Z.min ex ey).
    destruct (Zpos mx * 2 ^ (ex - ez) + Zpos my * 2 ^ (ey - ez))%Z as [|p|p] eqn:Es.
    all: pose proof (pow2_pos (ex - ez) ltac:(lia)); pose proof (pow2_pos (ey - ez) ltac:(lia)).
    all: try nia. cbn [binary_normalize]. rewrite fmag_binary_round by lia.
    unfold sat. do 2 f_equal. rewrite <- Es, Z.mul_add_distr_r, <- !Z.mul_assoc, <- !pow2_split by lia.
    f_equal; do 2 f_equal; lia.
Qed.

Lemma isnan_add x y : nonneg x = true -> nonneg y = true ->
  isnan (x + y) = isnan x || isnan y.
Proof.
  intros Hx Hy. destruct (isnan x) eqn:Nx; [destruct x as [[] V]; done|].
  destruct (isnan y) eqn:Ny; [destruct y as [[] V], x as [[] V']; done|].
  apply isnan_cmag_false. rewrite cmag_add by assumption. unfold sat. lia.
Qed.

Lemma cle_add x x' y y' :
  nonneg x = true -> nonneg y = true -> nonneg x' = true -> nonneg y' = true ->
  x ⊑ x' -> y ⊑ y' -> x + y ⊑ x' + y'.
Proof.
  unfold cle. intros Hx Hy Hx' Hy' Lx Ly.
  pose proof (cmag_range x). pose proof (cmag_range y). pose proof (cmag_range (x + y)).
  destruct (isnan (x' + y')) eqn:N'; [apply isnan_cmag in N'; lia|].
  rewrite isnan_add in N' by assumption. apply orb_false_iff in N' as [Nx' Ny'].
  pose proof Nx' as Mx'. pose proof Ny' as My'.
  apply isnan_cmag_false in Mx'. apply isnan_cmag_false in My'.
  assert (isnan x = false) by (apply isnan_cmag_false; lia).
  assert (isnan y = false) by (apply isnan_cmag_false; lia).
  rewrite !cmag_add by assumption. unfold sat.
  pose proof (Rnd_mono 0 (cmag x + cmag y) (cmag x' + cmag y')). lia.
Qed.

Lemma cle_add_l x y : nonneg x = true -> nonneg y = true -> x ⊑ x + y.
Proof.
  intros Hx Hy. unfold cle. destruct (isnan (x + y)) eqn:N.
  { apply isnan_cmag in N. pose proof (cmag_range x). lia. }
  rewrite isnan_add in N by assumption. apply orb_false_iff in N as [Nx Ny].
  rewrite cmag_add by assumption. rewrite <- (Rnd_cmag x Nx) at 1. unfold sat.
  pose proof (cmag_range x). pose proof (cmag_range y).
  pose proof (Rnd_mono 0 (cmag x) (cmag x + cmag y)).
  apply isnan_cmag_false in Nx. rewrite <- (Rnd_cmag x) in Nx by (apply isnan_cmag_false; done). lia.
Qed.

Lemma dadd_comm x y : x + y = y + x.
Proof.
  apply double_eq. destruct x as [x Vx], y as [y Vy]. cbn [SF dadd].
  destruct x as [[]|[]| |sx mx ex], y as [[]|[]| |sy my ey]; cbn [SFadd]; try reflexivity.
  rewrite (Z.min_comm ex ey), Z.add_comm. reflexivity.
Qed.

Lemma cle_add_r x y : nonneg x = true -> nonneg y = true -> x ⊑ y + x.
Proof. intros. rewrite dadd_comm. apply cle_add_l; assumption. Qed.

(** ** Multiplication is monotone *)

Definition finite (x : double) : Prop := (cmag x < HUGE)%Z.

Lemma finite_isnan x : finite x -> isnan x = false.
Proof. intros H. apply isnan_cmag_false. unfold finite in H. lia. Qed.

Lemma cmag_mul x y : nonneg x = true -> nonneg y = true -> finite x -> finite y ->
  cmag (x * y) = sat (Rnd 1074 (cmag x * cmag y)).
Proof.
  intros Hx Hy Fx Fy. assert (sat (Rnd 1074 0) = 0)%Z as R0.
  { rewrite <- (Z.mul_0_l (2 ^ 1074)), Rnd_exact by lia. unfold sat. pose proof HUGE_pos. lia. }
  destruct x as [x Vx], y as [y Vy]. unfold nonneg, finite, cmag, dmul in *. cbn [SF] in *.
  destruct x as [[]|[]| |[] mx ex]; try discriminate Hx; cbn [fmag] in *; try lia;
    destruct y as [[]|[]| |[] my ey]; try discriminate Hy; cbn [fmag] in *; try lia;
    cbn [SFmul xorb fmag]; rewrite ?Z.mul_0_l, ?Z.mul_0_r; try (symmetry; exact R0).
  pose proof (bounded_range _ _ Vx) as [Bx _]. pose proof (bounded_range _ _ Vy) as [By _].
  rewrite fmag_round_aux by (lia || apply mul_texp; assumption).
  unfold sat. do 2 f_equal. rewrite Pos2Z.inj_mul.
  replace (ex + ey + 2148)%Z with ((ex + 1074) + (ey + 1074))%Z by lia.
  rewrite pow2_split by lia. lia.
Qed.

Lemma SFmul_inf x y : nonneg x = true -> nonneg y = true -> finite y -> cmag x = HUGE ->
  cmag (x * y) = if decide (cmag y = 0)%Z then (HUGE + 1)%Z else HUGE.
Proof.
  intros Hx Hy Fy Ex. pose proof HUGE_pos.
  destruct x as [x Vx], y as [y Vy]. unfold nonneg, finite, cmag, dmul in *. cbn [SF] in *.
  destruct x as [[]|[]| |[] mx ex]; try discriminate Hx; cbn [fmag] in *; try lia;
    try (pose proof (finite_fmag_lt _ _ Vx); lia).
  destruct y as [[]|[]| |[] my ey]; try discriminate Hy; cbn [fmag] in *; try lia;
    cbn [SFmul xorb fmag]; case_decide; try lia.
  pose proof (finite_fmag_lt _ _ Vy). lia.
Qed.

Lemma isnan_mul_l x y : isnan x = true -> isnan (x * y) = true.
Proof. destruct x as [[] V]; done. Qed.

Lemma cle_mul_r x x' z :
  nonneg x = true -> nonneg x' = true -> nonneg z = true -> finite z ->
  x ⊑ x' -> x * z ⊑ x' * z.
Proof.
  intros Hx Hx' Hz Fz L. unfold cle in *. pose proof HUGE_pos.
  pose proof (cmag_range x). pose proof (cmag_range z). pose proof (cmag_range (x * z)).
  destruct (isnan x') eqn:N'.
  { apply (isnan_mul_l x' z) in N'. apply isnan_cmag in N'. lia. }
  apply isnan_cmag_false in N'.
  destruct (decide (cmag x' < HUGE)%Z).
  { rewrite !cmag_mul by (assumption || unfold finite; lia). unfold sat.
    pose proof (Rnd_mono 1074 (cmag x * cmag z) (cmag x' * cmag z)). nia. }
  rewrite (SFmul_inf x' z) by (assumption || lia).
  case_decide; [lia|].
  destruct (decide (cmag x < HUGE)%Z).
  { rewrite cmag_mul by (assumption || unfold finite; lia). unfold sat. lia. }
  rewrite (SFmul_inf x z) by (assumption || lia). case_decide; lia.
Qed.

Lemma dmul_comm x y : x * y = y * x.
Proof.
  apply double_eq. destruct x as [x Vx], y as [y Vy]. cbn [SF dmul].
  destruct x as [[]|[]| |[] mx ex], y as [[]|[]| |[] my ey]; cbn [SFmul xorb]; try reflexivity.
  all: rewrite Pos.mul_comm, Z.add_comm; reflexivity.
Qed.

Lemma cle_mul_l z x x' :
  nonneg x = true -> nonneg x' = true -> nonneg z = true -> finite z ->
  x ⊑ x' -> z * x ⊑ z * x'.
Proof. intros. rewrite !(dmul_comm z). apply cle_mul_r; assumption. Qed.

(** ** Integers, [ceil] and [rint] *)

Lemma fmag_normalize_int n :
  0 <= n -> fmag (binary_normalize prec emax n 0 false) = sat (Rnd 0 (n * 2 ^ 1074)).
Proof.
  intros Hn. destruct n as [|p|p]; [|apply (fmag_binary_round p 0); lia|lia].
  rewrite <- (Z.mul_0_l (2 ^ 1074)) at 2. rewrite Rnd_exact by lia.
  unfold sat. pose proof HUGE_pos. cbn [binary_normalize fmag]. lia.
Qed.

Lemma cle_i2d n n' : 0 <= n -> (n <= n')%Z -> i2d n ⊑ i2d n'.
Proof.
  intros. unfold cle, cmag, i2d. cbn [SF]. rewrite !fmag_normalize_int by lia.
  unfold sat. pose proof (Rnd_mono 0 (n * 2 ^ 1074) (n' * 2 ^ 1074)).
  pose proof (pow2_pos 1074 ltac:(lia)). nia.
Qed.

Lemma isnan_i2d n : isnan (i2d n) = false.
Proof.
  unfold isnan, i2d. cbn [SF]. destruct n as [|p|p]; [reflexivity| |];
    cbn [binary_normalize];
    [destruct (binary_round_fits false p 0) as (q & -> & _)
    |destruct (binary_round_fits true p 0) as (q & -> & _)];
    unfold norm; repeat case_match; simplify_eq; reflexivity.
Qed.

(** Rounding up an exact multiple: [m / 2^k] units of [2^-(1074)]. *)
Lemma cle_ceil x : nonneg x = true -> x ⊑ ceil x.
Proof.
  intros Hx. pose proof (Rnd_cmag x) as Rx.
  destruct x as [x Vx]. unfold nonneg, isnan, cle, cmag, ceil in *. cbn [SF] in *.
  destruct x as [[]|[]| |[] m e]; try discriminate Hx; cbn [SFceil fmag negb andb cond_Zopp] in *; try lia.
  destruct (Z.ltb_spec e 0); [|cbn [fmag]; lia].
  pose proof (bounded_range _ _ Vx) as [B _].
  pose proof (pow2_pos (- e) ltac:(lia)) as Hp. pose proof (pow2_pos (e + 1074) ltac:(lia)).
  pose proof (Z.div_mod (Zpos m) (2 ^ (- e)) ltac:(lia)) as Hd.
  pose proof (Z.mod_pos_bound (Zpos m) (2 ^ (- e)) Hp).
  assert (0 <= Zpos m / 2 ^ (- e))%Z by (apply Z.div_pos; lia).
  set (q := (if negb (Zpos m mod 2 ^ (- e) =? 0)%Z then Zpos m / 2 ^ (- e) + 1 else Zpos m / 2 ^ (- e))%Z).
  assert (Zpos m <= q * 2 ^ (- e))%Z as Hq.
  { unfold q. destruct (Z.eqb_spec (Zpos m mod 2 ^ (- e)) 0); cbn [negb]; lia. }
  assert (0 <= q)%Z by (unfold q; case_match; lia).
  rewrite fmag_normalize_int by lia. rewrite <- Rx by reflexivity. unfold sat.
  pose proof (Rnd_mono 0 (Zpos m * 2 ^ (e + 1074)) (q * 2 ^ 1074)) as Hm.
  replace (2 ^ 1074)%Z with (2 ^ (- e) * 2 ^ (e + 1074))%Z in *
    by (rewrite <- pow2_split by lia; f_equal; lia).
  pose proof (finite_fmag_lt _ _ Vx). rewrite Rx in * by reflexivity. nia.
Qed.

Lemma cmag_one : cmag (i2d 1) = (2 ^ 1074)%Z.
Proof. vm_compute. reflexivity. Qed.

(** [rint] of a value that is at least one is at least one. *)
Lemma one_cle_rint x : nonneg x = true -> i2d 1 ⊑ x -> i2d 1 ⊑ rint x.
Proof.
  intros Hx. unfold cle. rewrite cmag_one. intros L.
  destruct x as [x Vx]. unfold nonneg, cmag, rint in *. cbn [SF] in *.
  destruct x as [[]|[]| |[] m e]; try discriminate Hx; cbn [SFrint fmag cond_Zopp] in *; try lia.
  destruct (Z.ltb_spec e 0); [|cbn [fmag]; lia].
  pose proof (bounded_range _ _ Vx) as [B _].
  assert (2 ^ (- e) <= Zpos m)%Z as Hm.
  { apply (Z.mul_le_mono_pos_r _ _ (2 ^ (e + 1074))); [apply pow2_pos; lia|].
    rewrite <- pow2_split by lia. replace (- e + (e + 1074))%Z with 1074%Z by lia. lia. }
  pose proof (rne_mono (2 ^ (- e)) (Zpos m) (- e) ltac:(lia) Hm) as Hr.
  rewrite rne_pow2, Z.sub_diag in Hr by lia. change (2 ^ 0)%Z with 1%Z in Hr.
  rewrite fmag_normalize_int by lia. unfold sat.
  pose proof (Rnd_mono 0 (1 * 2 ^ 1074) (rne (Zpos m) (- e) * 2 ^ 1074)) as H1.
  rewrite Rnd_exact in H1 by lia. change (1074 - 0)%Z with 1074%Z in H1.
  pose proof (pow2_pos 1074 ltac:(lia)).
  pose proof (finite_fmag_lt _ _ Vx). assert (2 ^ 1074 <= HUGE)%Z by lia. nia.
Qed.
