(* ===== verification/DoubleOrder.v ===== *)
(** The order of all doubles, negative ones included, as an integer
    comparison; subtraction of an ordered pair; scaling by a factor that is at
    least one. *)
From Stdlib Require Import SpecFloat.
From S2P Require Import Prelude Float64 Double.
Open Scope double_scope.

#[local] Opaque HUGE Rnd.

(** The signed value, in units of [2^-1074]; the infinities are [±HUGE]. *)
Definition sval (x : double) : Z := if nonneg x then cmag x else (- cmag x)%Z.

Definition dneg (x : double) : double :=
  mkD (SFopp (SF x)) (match x with mkD x V =>
    match x return valid64 x = true -> valid64 (SFopp x) = true with
    | S754_zero _ | S754_infinity _ | S754_nan => fun _ => eq_refl
    | S754_finite _ _ _ => fun V => V
    end V end).

Lemma cmag_dneg x : cmag (dneg x) = cmag x.
Proof. destruct x as [[] V]; reflexivity. Qed.

Lemma SFcompare_swap x y :
  SFcompare (SFopp x) (SFopp y) = SFcompare y x.
Proof.
  destruct x as [[]|[]| |[] mx ex], y as [[]|[]| |[] my ey]; cbn; try reflexivity.
  all: rewrite (Z.compare_antisym ey ex); destruct (ey ?= ex)%Z; try reflexivity; cbn [CompOpp].
  all: f_equal; fold (Pos.compare my mx); fold (Pos.compare mx my).
  all: rewrite <- Pos.compare_antisym; reflexivity.
Qed.

Lemma SFcompare_sval x y : isnan x = false -> isnan y = false ->
  SFcompare (SF x) (SF y) = Some (sval x ?= sval y)%Z.
Proof.
  intros Nx Ny. unfold sval. destruct (nonneg x) eqn:Hx, (nonneg y) eqn:Hy.
  - apply SFcompare_cmag; assumption.
  - pose proof (cmag_range x). pose proof (cmag_range y).
    destruct x as [x Vx], y as [y Vy]. unfold nonneg, isnan, cmag in *. cbn [SF] in *.
    pose proof HUGE_pos.
    destruct y as [[]|[]| |[] my ey]; try discriminate Hy; try discriminate Ny;
      destruct x as [[]|[]| |[] mx ex]; try discriminate Hx; try discriminate Nx;
      cbn [SFcompare fmag] in *; f_equal; symmetry; try apply Z.compare_refl;
      apply Z.compare_gt_iff; try lia.
    all: try (pose proof (pow2_pos (ey + 1074) ltac:(apply bounded_range in Vy; lia)); lia).
    all: pose proof (pow2_pos (ex + 1074) ltac:(apply bounded_range in Vx; lia)); lia.
  - pose proof (cmag_range x). pose proof (cmag_range y).
    destruct x as [x Vx], y as [y Vy]. unfold nonneg, isnan, cmag in *. cbn [SF] in *.
    pose proof HUGE_pos.
    destruct y as [[]|[]| |[] my ey]; try discriminate Hy; try discriminate Ny;
      destruct x as [[]|[]| |[] mx ex]; try discriminate Hx; try discriminate Nx;
      cbn [SFcompare fmag] in *; f_equal; symmetry; try apply Z.compare_refl;
      apply Z.compare_lt_iff; try lia.
    all: try (pose proof (pow2_pos (ey + 1074) ltac:(apply bounded_range in Vy; lia)); lia).
    all: pose proof (pow2_pos (ex + 1074) ltac:(apply bounded_range in Vx; lia)); lia.
  - rewrite <- SFcompare_swap.
    assert (forall z, nonneg z = false -> isnan z = false ->
              nonneg (dneg z) = true /\ isnan (dneg z) = false) as Hneg.
    { intros [[[]|[]| |[] m e] V]; done. }
    destruct (Hneg x Hx Nx), (Hneg y Hy Ny).
    change (SFopp (SF x)) with (SF (dneg x)). change (SFopp (SF y)) with (SF (dneg y)).
    rewrite SFcompare_cmag by assumption. rewrite !cmag_dneg. f_equal.
    rewrite <- Z.compare_opp. reflexivity.
Qed.

Lemma dlt_sval x y : isnan x = false -> isnan y = false -> (x <? y) = (sval x <? sval y)%Z.
Proof.
  intros. unfold dlt, SFltb. rewrite SFcompare_sval by assumption.
  unfold Z.ltb. destruct (_ ?= _)%Z; reflexivity.
Qed.

Lemma dle_sval x y : isnan x = false -> isnan y = false -> (x <=? y) = (sval x <=? sval y)%Z.
Proof.
  intros. unfold dle, SFleb. rewrite SFcompare_sval by assumption.
  unfold Z.leb. destruct (_ ?= _)%Z; reflexivity.
Qed.

Lemma sval_nonneg x : nonneg x = true -> sval x = cmag x.
Proof. unfold sval. intros ->. reflexivity. Qed.

(** [<] is irreflexive and asymmetric whatever the operands. *)
Lemma dlt_irrefl x : (x <? x) = false.
Proof.
  destruct (isnan x) eqn:N; [apply dlt_nan_l, N|].
  rewrite dlt_sval by done. apply Z.ltb_irrefl.
Qed.

Lemma dlt_asym x y : (x <? y) = true -> (y <? x) = false.
Proof.
  destruct (isnan x) eqn:Nx; [intros; apply dlt_nan_r, Nx|].
  destruct (isnan y) eqn:Ny; [intros; apply dlt_nan_l, Ny|].
  rewrite !dlt_sval by done. lia.
Qed.

Lemma dle_not_lt x y : (x <=? y) = true -> (y <? x) = false.
Proof.
  destruct (isnan x) eqn:Nx; [rewrite dle_nan_l by done; done|].
  destruct (isnan y) eqn:Ny; [rewrite dle_nan_r by done; done|].
  rewrite dle_sval, dlt_sval by done. lia.
Qed.

(** ** Scaling *)

Lemma cmag_mul_one x : nonneg x = true -> cmag (x * i2d 1) = cmag x.
Proof.
  intros Hx. destruct (isnan x) eqn:N.
  { pose proof (isnan_mul_l x (i2d 1) N) as N'. apply isnan_cmag in N, N'. lia. }
  assert (finite (i2d 1)) as F1 by (unfold finite; vm_compute; reflexivity).
  destruct (decide (cmag x < HUGE)%Z) as [F|F].
  - rewrite cmag_mul by (assumption || reflexivity). rewrite cmag_one.
    destruct x as [[[]|[]| |[] m e] V]; try discriminate Hx; try discriminate N;
      unfold cmag in *; cbn [SF fmag] in *; try lia.
    + rewrite Rnd_exact by lia. unfold sat. pose proof HUGE_pos. lia.
    + pose proof (bounded_range _ _ V) as [B M]. rewrite <- Z.mul_assoc, <- pow2_split by lia.
      rewrite Rnd_exact by lia. replace (e + 1074 + 1074 - 1074)%Z with (e + 1074)%Z by lia.
      unfold sat. lia.
  - apply isnan_cmag_false in N. rewrite (SFmul_inf x (i2d 1)) by (assumption || reflexivity || lia).
    rewrite cmag_one. case_decide; [|lia]. pose proof (pow2_pos 1074 ltac:(lia)). lia.
Qed.

(** Scaling by a finite factor that is at least one never makes a value smaller. *)
Lemma cle_scale x f : nonneg x = true -> nonneg f = true -> finite f -> i2d 1 ⊑ f -> x ⊑ x * f.
Proof.
  intros Hx Hf Ff L. unfold cle. rewrite <- (cmag_mul_one x) by assumption.
  destruct (isnan x) eqn:N.
  { pose proof (isnan_mul_l x (i2d 1) N) as N1. pose proof (isnan_mul_l x f N) as N2.
    apply isnan_cmag in N1, N2. lia. }
  destruct (decide (cmag x < HUGE)%Z) as [F|F].
  - apply (cle_mul_l x (i2d 1) f); assumption || reflexivity.
  - apply isnan_cmag_false in N. rewrite cmag_mul_one by assumption.
    rewrite SFmul_inf by (assumption || lia).
    unfold cle in L. rewrite cmag_one in L. pose proof (pow2_pos 1074 ltac:(lia)).
    case_decide; lia.
Qed.

(** ** Subtraction *)

(** The difference of an ordered pair is not negative. *)
Lemma nonneg_sub x y : nonneg x = true -> nonneg y = true -> y ⊑ x -> nonneg (x - y) = true.
Proof.
  intros Hx Hy L. destruct x as [x Vx], y as [y Vy].
  unfold nonneg, cle, cmag, dsub in *. cbn [SF] in *. pose proof HUGE_pos.
  destruct x as [[]|[]| |[] mx ex]; try discriminate Hx;
    destruct y as [[]|[]| |[] my ey]; try discriminate Hy; cbn [fmag] in *; try reflexivity.
  all: try (pose proof (finite_fmag_lt _ _ Vx)); try (pose proof (finite_fmag_lt _ _ Vy)); try lia.
  cbn [SFsub cond_Zopp].
  pose proof (bounded_range _ _ Vx) as [Bx _]. pose proof (bounded_range _ _ Vy) as [By _].
  apply binary_normalize_nonneg. rewrite !shl_align_fst by lia.
  replace (ex + 1074)%Z with ((ex - Z.min ex ey) + (Z.min ex ey + 1074))%Z in L by lia.
  replace (ey + 1074)%Z with ((ey - Z.min ex ey) + (Z.min ex ey + 1074))%Z in L by lia.
  rewrite (pow2_split (ex - _)), (pow2_split (ey - _)), !Z.mul_assoc in L by lia.
  apply Z.mul_le_mono_pos_r in L; [|apply pow2_pos; lia]. lia.
Qed.

(** ** Signs *)

Lemma round_aux_opp s m e l :
  binary_round_aux prec emax (negb s) m e l = SFopp (binary_round_aux prec emax s m e l).
Proof.
  unfold binary_round_aux. destruct (shr_fexp prec emax m e l) as [mrs e'].
  destruct (shr_fexp prec emax (round_nearest_even (shr_m mrs) (loc_of_shr_record mrs)) e' loc_Exact)
    as [mrs' e'']. destruct (shr_m mrs'); try reflexivity. case_match; reflexivity.
Qed.

Lemma dmul_dneg x y : x * dneg y = dneg (x * y).
Proof.
  apply double_eq. destruct x as [x Vx], y as [y Vy]. cbn [SF dneg dmul].
  destruct x as [[]|[]| |[] mx ex], y as [[]|[]| |[] my ey]; cbn [SFmul SFopp xorb negb]; try reflexivity.
  all: rewrite <- round_aux_opp; reflexivity.
Qed.

Lemma dneg_involutive x : dneg (dneg x) = x.
Proof. apply double_eq. destruct x as [[[]|[]| |[] m e] V]; reflexivity. Qed.

Lemma nonneg_dneg x : nonneg x = false -> nonneg (dneg x) = true.
Proof. destruct x as [[[]|[]| |[] m e] V]; done. Qed.

Lemma sval_dneg x : nonneg x = true -> isnan x = false -> sval (dneg x) = (- cmag x)%Z.
Proof.
  unfold sval. rewrite cmag_dneg. destruct x as [[[]|[]| |[] m e] V]; cbn; try discriminate; intros; lia.
Qed.

Lemma isnan_dneg x : isnan (dneg x) = isnan x.
Proof. destruct x as [[] V]; reflexivity. Qed.

Lemma neg_isnan x : nonneg x = false -> isnan x = false.
Proof. destruct x as [[] V]; done. Qed.

Lemma isnan_mul_one x : isnan (x * i2d 1) = isnan x.
Proof.
  assert (forall y, nonneg y = true -> isnan (y * i2d 1) = isnan y) as Hp.
  { intros y Hy. pose proof (cmag_mul_one y Hy) as E.
    destruct (isnan y) eqn:N; [apply isnan_mul_l, N|].
    apply isnan_cmag_false in N. apply isnan_cmag_false. lia. }
  destruct (nonneg x) eqn:Hx; [apply Hp, Hx|].
  rewrite <- (dneg_involutive x) at 1. rewrite dmul_comm, dmul_dneg, dmul_comm, isnan_dneg.
  rewrite Hp by apply nonneg_dneg, Hx. apply isnan_dneg.
Qed.

(** Multiplication by one keeps the value. *)
Lemma sval_mul_one x : sval (i2d 1 * x) = sval x.
Proof.
  rewrite dmul_comm. destruct (nonneg x) eqn:Hx.
  { rewrite !sval_nonneg by auto with nneg. apply cmag_mul_one, Hx. }
  pose proof (nonneg_dneg x Hx) as Hd. pose proof (neg_isnan x Hx) as N.
  rewrite <- (dneg_involutive x) at 1. rewrite dmul_comm, dmul_dneg, dmul_comm, sval_dneg.
  - rewrite cmag_mul_one by assumption. rewrite cmag_dneg. unfold sval. rewrite Hx. reflexivity.
  - auto with nneg.
  - rewrite isnan_mul_one, isnan_dneg. exact N.
Qed.

(** Adding a zero keeps the value. *)
Lemma sval_add_zero x z : cmag z = 0 -> sval (x + z) = sval x /\ isnan (x + z) = isnan x.
Proof.
  intros Hz. destruct z as [z Vz]. unfold cmag in Hz. cbn [SF] in Hz. pose proof HUGE_pos.
  destruct z as [s|s| |s m e]; cbn [fmag] in Hz; try lia.
  2:{ pose proof (finite_fmag_lt _ _ Vz). lia. }
  destruct x as [[[]|[]| |[] mx ex] V], s; split; reflexivity.
Qed.

(** Zero times a finite value is a zero; zero times an infinity is NaN. *)
Lemma zero_mul x : finite x -> cmag (dzero * x) = 0.
Proof.
  intros F. destruct x as [[[]|[]| |[] mx ex] V]; unfold finite, cmag in *; cbn [SF fmag] in *;
    try reflexivity; lia.
Qed.

Lemma zero_mul_inf s x : cmag x = 0 -> isnan (x * dinf s) = true.
Proof.
  intros Hx. destruct x as [x Vx]. unfold cmag in Hx. cbn [SF] in Hx. pose proof HUGE_pos.
  destruct x as [t|t| |t m e]; cbn [fmag] in Hx; try lia.
  - destruct s, t; reflexivity.
  - pose proof (finite_fmag_lt _ _ Vx). lia.
Qed.

Lemma isnan_add_r x y : isnan y = true -> isnan (x + y) = true.
Proof. destruct y as [[] V], x as [[] V']; done. Qed.

(** Scaling a value of at least one by a factor above [1 + 2^-7] makes it larger. *)
Lemma scale_strict x f :
  nonneg x = true -> nonneg f = true -> finite x -> finite f ->
  (2 ^ 1074 <= cmag x)%Z -> (129 * 2 ^ 1067 <= cmag f)%Z -> (cmag x < cmag (x * f))%Z.
Proof.
  intros Hx Hf Fx Ff Lx Lf. rewrite cmag_mul by assumption. unfold sat.
  apply Z.min_glb_lt; [|exact Fx].
  destruct x as [[[]|[]| |[] m e] V]; try discriminate Hx; unfold finite, cmag in *;
    cbn [SF fmag] in *; pose proof (pow2_pos 1074 ltac:(lia)); try lia.
  pose proof (bounded_range _ _ V) as [B M]. pose proof V as V'.
  apply bounded_spec in V' as [C _].
  set (k := (e + 1074)%Z) in *.
  assert (128 <= Zpos m)%Z as Hm.
  { destruct (decide (k = 0)) as [E|E].
    - rewrite E in Lx. change (2 ^ 0)%Z with 1%Z in Lx.
      exfalso. assert (2 ^ 53 < 2 ^ 1074)%Z by (apply Z.pow_lt_mono_r; lia). lia.
    - assert (nbits (Zpos m) = 53) as N2 by lia.
      pose proof (nbits_spec (Zpos m) ltac:(lia)) as [L2 _]. rewrite N2 in L2. lia. }
  pose proof (pow2_pos k ltac:(lia)) as Pk. pose proof (pow2_pos 1067 ltac:(lia)) as P67.
  apply Z.lt_le_trans with ((Zpos m + 1) * 2 ^ k)%Z; [lia|].
  apply Z.le_trans with (Rnd 1074 ((Zpos m + 1) * 2 ^ (k + 1074))).
  - destruct (decide (Zpos m + 1 < 2 ^ 53)%Z).
    + rewrite Rnd_exact by lia. replace (k + 1074 - 1074)%Z with k by lia. lia.
    + assert (Zpos m + 1 = 2 ^ 52 * 2)%Z as -> by lia.
      replace (2 ^ 52 * 2 * 2 ^ (k + 1074))%Z with (2 ^ 52 * 2 ^ (k + 1075))%Z.
      * rewrite Rnd_exact by lia. replace (k + 1075 - 1074)%Z with (k + 1)%Z by lia.
        rewrite (pow2_split k 1) by lia. lia.
      * rewrite <- Z.mul_assoc, <- (Z.pow_succ_r 2) by lia. do 2 f_equal. lia.
  - assert (0 <= (Zpos m + 1) * 2 ^ (k + 1074))%Z
      by (apply Z.mul_nonneg_nonneg; [lia|apply Z.pow_nonneg; lia]).
    apply Rnd_mono; [lia|assumption|].
    apply Z.le_trans with (Zpos m * 2 ^ k * (129 * 2 ^ 1067))%Z.
    + rewrite (pow2_split k 1074) by lia. change 1074%Z with (7 + 1067)%Z.
      rewrite (pow2_split 7 1067) by lia. change (2 ^ 7)%Z with 128%Z.
      assert (0 <= 2 ^ k * 2 ^ 1067)%Z by lia.
      replace ((Zpos m + 1) * (2 ^ k * (128 * 2 ^ 1067)))%Z
        with ((Zpos m + 1) * 128 * (2 ^ k * 2 ^ 1067))%Z by ring.
      replace (Zpos m * 2 ^ k * (129 * 2 ^ 1067))%Z
        with (Zpos m * 129 * (2 ^ k * 2 ^ 1067))%Z by ring.
      apply Z.mul_le_mono_nonneg_r; lia.
    + apply Z.mul_le_mono_nonneg_l; [|exact Lf]. apply Z.mul_nonneg_nonneg; lia.
Qed.

(** ** Equality and integral values *)

(** A non-negative double is determined by its magnitude. *)
Lemma cmag_inj x y : nonneg x = true -> nonneg y = true -> cmag x = cmag y -> x = y.
Proof.
  intros Hx Hy E. destruct (isnan x) eqn:Nx.
  { assert (isnan y = true) as Ny by (apply isnan_cmag; apply isnan_cmag in Nx; lia).
    apply double_eq. destruct x as [[] ?], y as [[] ?]; done. }
  assert (isnan y = false) as Ny.
  { apply isnan_cmag_false. apply isnan_cmag_false in Nx. lia. }
  pose proof (SFcompare_cmag x y Hx Hy Nx Ny) as C. rewrite E, Z.compare_refl in C.
  apply double_eq. clear E. destruct x as [x Vx], y as [y Vy]. unfold nonneg, isnan in *. cbn [SF] in *.
  destruct x as [[]|[]| |[] mx ex], y as [[]|[]| |[] my ey]; try discriminate; try reflexivity.
  cbn [SFcompare] in C. destruct (Z.compare_spec ex ey) as [->| |]; try discriminate.
  injection C as C. fold (Pos.compare mx my) in C. apply Pos.compare_eq in C. subst. reflexivity.
Qed.

(** A whole number (or infinite, or NaN). *)
Definition integral (x : double) : Prop := (HUGE <= cmag x)%Z \/ exists n, cmag x = (n * 2 ^ 1074)%Z.

Lemma cmag_i2d n : 0 <= n -> (n < 2 ^ 53)%Z -> cmag (i2d n) = (n * 2 ^ 1074)%Z.
Proof.
  intros H0 H1. unfold cmag, i2d. cbn [SF]. rewrite fmag_normalize_int, Rnd_exact by lia.
  unfold sat. change (1074 - 0)%Z with 1074%Z. apply Z.min_l.
  apply Z.le_trans with (2 ^ 53 * 2 ^ 1074)%Z; [apply mul_pow2_le; lia|].
  rewrite <- pow2_split by lia. with_strategy transparent [HUGE] unfold HUGE. apply pow2_le. lia.
Qed.

Lemma finite_i2d n : 0 <= n -> (n < 2 ^ 53)%Z -> finite (i2d n).
Proof.
  intros H0 H1. unfold finite. rewrite cmag_i2d by lia.
  apply Z.lt_le_trans with (2 ^ 53 * 2 ^ 1074)%Z.
  - apply Z.mul_lt_mono_pos_r; [apply pow2_pos; lia|lia].
  - rewrite <- pow2_split by lia. with_strategy transparent [HUGE] unfold HUGE. apply pow2_le. lia.
Qed.

Lemma i2d_mul a b : 0 <= a -> 0 <= b -> (a < 2 ^ 53)%Z -> (b < 2 ^ 53)%Z -> (a * b < 2 ^ 53)%Z ->
  i2d a * i2d b = i2d (a * b).
Proof.
  intros. apply cmag_inj; auto using nonneg_i2d with nneg; [apply nonneg_i2d; lia|].
  rewrite cmag_mul by auto using nonneg_i2d, finite_i2d. rewrite !cmag_i2d by lia.
  replace (a * 2 ^ 1074 * (b * 2 ^ 1074))%Z with (a * b * 2 ^ (1074 + 1074))%Z
    by (rewrite pow2_split by lia; ring).
  rewrite Rnd_exact by lia. change (1074 + 1074 - 1074)%Z with 1074%Z.
  pose proof (finite_i2d (a * b) ltac:(lia) ltac:(lia)) as F. unfold finite in F.
  rewrite cmag_i2d in F by lia. unfold sat. lia.
Qed.

Lemma rint_integral x : nonneg x = true -> integral (rint x).
Proof.
  intros Hx. unfold integral, cmag, rint. cbn [SF]. pose proof HUGE_pos.
  destruct x as [[[]|[]| |[] m e] V]; try discriminate Hx; cbn [SF SFrint fmag cond_Zopp].
  - right. exists 0%Z. reflexivity.
  - left. lia.
  - left. lia.
  - pose proof (bounded_range _ _ V) as [B M]. destruct (Z.ltb_spec e 0).
    + right. exists (rne (Zpos m) (- e)).
      pose proof (rne_bounds (Zpos m) (- e) ltac:(lia)) as R.
      pose proof (Z.div_pos (Zpos m) (2 ^ (- e)) ltac:(lia) ltac:(apply pow2_pos; lia)).
      assert (Zpos m / 2 ^ (- e) <= 2 ^ 52)%Z.
      { apply Z.div_le_upper_bound; [apply pow2_pos; lia|].
        apply Z.le_trans with (2 ^ 1 * 2 ^ 52)%Z; [lia|]. apply mul_pow2_le; [lia|]. apply pow2_le. lia. }
      apply (cmag_i2d (rne (Zpos m) (- e))); lia.
    + right. exists (Zpos m * 2 ^ e)%Z. cbn [fmag]. rewrite pow2_split by lia. lia.
Qed.

Lemma rint_of_integral x : nonneg x = true -> integral x -> rint x = x.
Proof.
  intros Hx Hi. apply cmag_inj; [auto with nneg|exact Hx|].
  unfold integral, cmag, rint in *. cbn [SF]. pose proof HUGE_pos.
  destruct x as [[[]|[]| |[] m e] V]; try discriminate Hx; cbn [SF SFrint fmag cond_Zopp] in *; try reflexivity.
  pose proof (bounded_range _ _ V) as [B M]. destruct (Z.ltb_spec e 0); [|reflexivity].
  destruct Hi as [Hi|(n & En)]; [pose proof (finite_fmag_lt _ _ V); lia|].
  assert (Zpos m = n * 2 ^ (- e))%Z as Em.
  { pose proof (pow2_pos (e + 1074) ltac:(lia)).
    apply (Z.mul_reg_r _ _ (2 ^ (e + 1074))); [lia|]. rewrite En, <- Z.mul_assoc, <- pow2_split by lia.
    do 2 f_equal. lia. }
  rewrite Em, rne_mul_pow2 by lia. pose proof (pow2_pos (- e) ltac:(lia)).
  assert (0 < n)%Z by nia. assert (n < 2 ^ 53)%Z by nia.
  change (fmag (binary_normalize prec emax n 0 false)) with (cmag (i2d n)).
  rewrite cmag_i2d by lia. rewrite <- En, Em. reflexivity.
Qed.

(** Rounding up stays below any integer bound. *)
Lemma ceil_le_int x n : nonneg x = true -> 0 <= n -> (n < 2 ^ 52)%Z -> x ⊑ i2d n -> ceil x ⊑ i2d n.
Proof.
  intros Hx H0 Hn L. unfold cle in *. rewrite cmag_i2d in * by lia.
  unfold cmag, ceil in *. cbn [SF] in *.
  destruct x as [[[]|[]| |[] m e] V]; try discriminate Hx; cbn [SF SFceil fmag negb andb cond_Zopp] in *; try lia.
  pose proof (bounded_range _ _ V) as [B M]. destruct (Z.ltb_spec e 0); [|cbn [fmag]; lia].
  pose proof (pow2_pos (- e) ltac:(lia)) as Hp. pose proof (pow2_pos (e + 1074) ltac:(lia)).
  assert (Zpos m <= n * 2 ^ (- e))%Z as Hm.
  { apply (Z.mul_le_mono_pos_r _ _ (2 ^ (e + 1074))); [lia|]. rewrite <- Z.mul_assoc, <- pow2_split by lia.
    replace (- e + (e + 1074))%Z with 1074%Z by lia. exact L. }
  pose proof (Z.div_mod (Zpos m) (2 ^ (- e)) ltac:(lia)) as Hd.
  pose proof (Z.mod_pos_bound (Zpos m) (2 ^ (- e)) Hp).
  assert (0 <= Zpos m / 2 ^ (- e))%Z by (apply Z.div_pos; lia).
  set (q := (if negb (Zpos m mod 2 ^ (- e) =? 0)%Z then Zpos m / 2 ^ (- e) + 1 else Zpos m / 2 ^ (- e))%Z).
  assert (0 <= q <= n)%Z as Hq.
  { unfold q. destruct (Z.eqb_spec (Zpos m mod 2 ^ (- e)) 0); cbn [negb]; nia. }
  change (fmag (binary_normalize prec emax q 0 false)) with (cmag (i2d q)).
  rewrite cmag_i2d by lia. apply mul_pow2_le; lia.
Qed.

Lemma ceil_integral x : nonneg x = true -> integral (ceil x).
Proof.
  intros Hx. unfold integral, cmag, ceil. cbn [SF]. pose proof HUGE_pos.
  destruct x as [[[]|[]| |[] m e] V]; try discriminate Hx; cbn [SF SFceil fmag cond_Zopp negb andb].
  - right. exists 0%Z. reflexivity.
  - left. lia.
  - left. lia.
  - pose proof (bounded_range _ _ V) as [B M]. destruct (Z.ltb_spec e 0).
    + right. set (q := (if negb (Zpos m mod 2 ^ (- e) =? 0)%Z then Zpos m / 2 ^ (- e) + 1 else Zpos m / 2 ^ (- e))%Z).
      exists q. pose proof (Z.div_pos (Zpos m) (2 ^ (- e)) ltac:(lia) ltac:(apply pow2_pos; lia)).
      assert (Zpos m / 2 ^ (- e) <= 2 ^ 52)%Z.
      { apply Z.div_le_upper_bound; [apply pow2_pos; lia|].
        apply Z.le_trans with (2 ^ 1 * 2 ^ 52)%Z; [lia|]. apply mul_pow2_le; [lia|]. apply pow2_le. lia. }
      assert (0 <= q <= 2 ^ 52 + 1)%Z as Hq by (unfold q; destruct (negb _); lia).
      apply (cmag_i2d q); lia.
    + right. exists (Zpos m * 2 ^ e)%Z. cbn [fmag]. rewrite pow2_split by lia. lia.
Qed.

Lemma integral_i2d n : 0 <= n -> (n < 2 ^ 53)%Z -> integral (i2d n).
Proof. intros. right. exists n. apply cmag_i2d; assumption. Qed.

(** ** Comparisons that fail *)

Lemma dle_false_dlt x y : (x <=? y) = false -> (x <? y) = false.
Proof.
  destruct (isnan x) eqn:Nx; [intros; apply dlt_nan_l, Nx|].
  destruct (isnan y) eqn:Ny; [intros; apply dlt_nan_r, Ny|].
  rewrite dle_sval, dlt_sval by assumption. lia.
Qed.

Lemma nonneg_sub_not_lt x y : nonneg x = true -> nonneg y = true -> (x <? y) = false ->
  nonneg (x - y) = true.
Proof.
  intros Hx Hy L. destruct (isnan x) eqn:Nx; [destruct x as [[] ?]; done|].
  destruct (isnan y) eqn:Ny; [destruct y as [[] ?], x as [[] ?]; done|].
  apply nonneg_sub; [assumption..|]. rewrite dlt_sval in L by assumption.
  rewrite !sval_nonneg in L by assumption. unfold cle. lia.
Qed.

Lemma nonneg_dMax x y : nonneg x = true -> nonneg y = true -> nonneg (dMax x y) = true.
Proof. unfold dMax. case_match; auto. Qed.
#[export] Hint Resolve nonneg_dMax : nneg.

Lemma dle_false_cle x y : nonneg x = true -> nonneg y = true -> isnan x = false ->
  (y <=? x) = false -> x ⊑ y.
Proof.
  intros Hx Hy Nx E. unfold cle. destruct (isnan y) eqn:Ny.
  - apply isnan_cmag in Ny. pose proof (cmag_range x). lia.
  - rewrite dle_sval, !sval_nonneg in E by assumption. lia.
Qed.

Lemma isnan_mul_pos x y : nonneg x = true -> nonneg y = true -> isnan x = false -> finite y -> (0 < cmag y)%Z ->
  isnan (x * y) = false.
Proof.
  intros Hx Hy Nx Fy Py. apply isnan_cmag_false in Nx. apply isnan_cmag_false.
  destruct (decide (finite x)) as [F|F].
  - rewrite cmag_mul by assumption. unfold sat. lia.
  - unfold finite in F. rewrite SFmul_inf by (assumption || lia). case_decide; lia.
Qed.
