(* ===== verification/DoubleDiv.v ===== *)
(** Division and square root of non-negative doubles: the rounded result lies on
    the same side of any double as the exact one. *)
From Stdlib Require Import SpecFloat.
From S2P Require Import Prelude Float64 Double DoubleOrder.
Open Scope Z_scope.

#[local] Opaque HUGE Rnd.

#[export] Instance location_eq_dec : EqDecision location.
Proof. intros x y. unfold Decision. repeat decide equality. Defined.

Lemma round_aux_bounds m e l :
  0 <= m -> e <= texp m e ->
  exists q, binary_round_aux prec emax false m e l = norm false q (texp m e) /\ fits q (texp m e)
    /\ m / 2 ^ (texp m e - e) <= q <= m / 2 ^ (texp m e - e) + 1
    /\ (l = loc_Exact -> m mod 2 ^ (texp m e - e) = 0 -> q = m / 2 ^ (texp m e - e)).
Proof.
  intros Hm He. unfold binary_round_aux.
  destruct (shr_stage1 m e l Hm He) as (mrs & -> & Hs & Hl).
  exists (round_nearest_even (shr_m mrs) (loc_of_shr_record mrs)). rewrite <- Hs.
  pose proof (round_nearest_even_bounds (shr_m mrs) (loc_of_shr_record mrs)) as Hb.
  split; [apply round_stage2, div_fits; [lia..|]; rewrite <- Hs; exact Hb|].
  split; [apply div_fits; [lia..|]; rewrite <- Hs; exact Hb|].
  split; [exact Hb|]. intros El Hz. rewrite (Hl El). unfold loc_of. rewrite Hz. reflexivity.
Qed.

(** [m * 2^e] rounded to the exponent [texp m e]: the doubles below and above. *)
Section grid.
Context (m e : Z) (Hm : 0 < m) (Ht : e <= texp m e) (He : -2148 <= e).
Let E := texp m e.
Let F := m / 2 ^ (E - e).

Lemma grid_normal : emin64 < E -> 2 ^ 52 <= F.
Proof.
  intros HE. unfold F. fold E in Ht. pose proof (pow2_pos (E - e) ltac:(lia)).
  apply Z.div_le_lower_bound; [lia|]. rewrite Z.mul_comm, <- pow2_split by lia.
  pose proof (nbits_spec m Hm) as [Hlo _].
  replace (52 + (E - e)) with (nbits m - 1) by (unfold E, texp in *; lia). exact Hlo.
Qed.

Lemma grid_below z : finite z ->
  cmag z * 2 ^ 1074 < (m + 1) * 2 ^ (e + 2148) -> cmag z <= F * 2 ^ (E + 1074).
Proof.
  intros Fz L. fold E in Ht. assert (emin64 <= E) by (unfold E, texp; lia).
  pose proof (pow2_pos (E - e) ltac:(lia)) as Pk. pose proof (pow2_pos (E + 1074) ltac:(lia)) as PE.
  assert (0 <= F) by (apply Z.div_pos; lia). unfold finite, cmag in *.
  destruct z as [[s|s| |s mz ez] V]; cbn [SF fmag] in *; [lia|lia|lia|].
  pose proof (bounded_range _ _ V) as [B M]. destruct (Z.le_gt_cases E ez).
  - assert (Zpos mz * 2 ^ (ez + 1074) = Zpos mz * 2 ^ (ez - E) * 2 ^ (E + 1074)) as R
      by (rewrite <- Z.mul_assoc, <- pow2_split by lia; do 2 f_equal; lia).
    rewrite R in *.
    apply mul_pow2_le; [lia|]. apply Z.div_le_lower_bound; [lia|].
    assert (Zpos mz * 2 ^ (ez - E) * 2 ^ (E - e) < m + 1); [|lia].
    apply (Z.mul_lt_mono_pos_r (2 ^ (e + 2148))); [apply pow2_pos; lia|].
    rewrite <- Z.mul_assoc, <- pow2_split by lia.
    replace (E - e + (e + 2148)) with (E + 1074 + 1074) by lia. rewrite (pow2_split (E + 1074)) by lia. lia.
  - pose proof (grid_normal ltac:(lia)) as HF.
    apply Z.le_trans with (2 ^ 52 * 2 ^ (E + 1074)); [|apply mul_pow2_le; lia].
    apply Z.le_trans with (2 ^ 53 * 2 ^ (ez + 1074)); [apply mul_pow2_le; lia|].
    rewrite <- !pow2_split by lia. apply pow2_le. lia.
Qed.

Lemma grid_above z : finite z ->
  F * 2 ^ (E + 1074) < cmag z -> (F + 1) * 2 ^ (E + 1074) <= cmag z.
Proof.
  intros Fz L. fold E in Ht. assert (emin64 <= E) by (unfold E, texp; lia).
  pose proof (pow2_pos (E - e) ltac:(lia)) as Pk. pose proof (pow2_pos (E + 1074) ltac:(lia)) as PE.
  assert (0 <= F) by (apply Z.div_pos; lia). unfold finite, cmag in *.
  destruct z as [[s|s| |s mz ez] V]; cbn [SF fmag] in *; [lia|lia|lia|].
  pose proof (bounded_range _ _ V) as [B M]. destruct (Z.le_gt_cases E ez).
  - assert (Zpos mz * 2 ^ (ez + 1074) = Zpos mz * 2 ^ (ez - E) * 2 ^ (E + 1074)) as R
      by (rewrite <- Z.mul_assoc, <- pow2_split by lia; do 2 f_equal; lia).
    rewrite R in *.
    apply mul_pow2_le; [lia|]. apply Z.mul_lt_mono_pos_r in L; lia.
  - pose proof (grid_normal ltac:(lia)) as HF. exfalso.
    assert (Zpos mz * 2 ^ (ez + 1074) <= 2 ^ 53 * 2 ^ (ez + 1074)) by (apply mul_pow2_le; lia).
    assert (2 ^ 53 * 2 ^ (ez + 1074) <= 2 ^ 52 * 2 ^ (E + 1074))
      by (rewrite <- !pow2_split by lia; apply pow2_le; lia).
    assert (2 ^ 52 * 2 ^ (E + 1074) <= F * 2 ^ (E + 1074)) by (apply mul_pow2_le; lia). lia.
Qed.

(** The rounded value stays on its side of [z]; [l] tells whether a positive part
    was cut off from [m]. *)
Lemma round_aux_ge l z : finite z ->
  cmag z * 2 ^ 1074 < (m + 1) * 2 ^ (e + 2148) ->
  cmag z <= fmag (binary_round_aux prec emax false m e l).
Proof.
  intros Fz L. destruct (round_aux_bounds m e l ltac:(lia) Ht) as (q & -> & Hf & Hq & _).
  rewrite fmag_norm by exact Hf. pose proof (grid_below z Fz L) as G. fold E F in Hq |- *.
  unfold finite in Fz. apply Z.min_glb; [|lia]. etransitivity; [exact G|].
  apply mul_pow2_le; [|lia]. unfold E, texp. lia.
Qed.

Lemma round_aux_le l z : finite z ->
  m * 2 ^ (e + 2148) <= cmag z * 2 ^ 1074 ->
  (l <> loc_Exact -> m * 2 ^ (e + 2148) < cmag z * 2 ^ 1074) ->
  fmag (binary_round_aux prec emax false m e l) <= cmag z.
Proof.
  intros Fz L Ls. destruct (round_aux_bounds m e l ltac:(lia) Ht) as (q & -> & Hf & Hq & Hx).
  rewrite fmag_norm by exact Hf. fold E F in Hq, Hx |- *. fold E in Ht.
  assert (emin64 <= E) by (unfold E, texp; lia).
  pose proof (pow2_pos (E - e) ltac:(lia)) as Pk. pose proof (pow2_pos (E + 1074) ltac:(lia)) as PE.
  pose proof (pow2_pos (e + 2148) ltac:(lia)) as Pe. pose proof (pow2_pos 1074 ltac:(lia)) as P1.
  pose proof (Z.div_mod m (2 ^ (E - e)) ltac:(lia)) as Hd. fold F in Hd.
  pose proof (Z.mod_pos_bound m (2 ^ (E - e)) Pk) as Hr.
  assert (F * 2 ^ (E + 1074) * 2 ^ 1074 = F * 2 ^ (E - e) * 2 ^ (e + 2148)) as EF.
  { rewrite <- !Z.mul_assoc, <- !pow2_split by lia. do 2 f_equal. lia. }
  apply Z.le_trans with (q * 2 ^ (E + 1074)); [lia|].
  destruct (decide (l = loc_Exact /\ m mod 2 ^ (E - e) = 0)) as [[El Hz]|N].
  - rewrite (Hx El Hz). apply (Z.mul_le_mono_pos_r _ _ (2 ^ 1074)); [lia|]. rewrite EF.
    etransitivity; [|exact L]. apply Z.mul_le_mono_nonneg_r; lia.
  - apply Z.le_trans with ((F + 1) * 2 ^ (E + 1074)); [apply mul_pow2_le; lia|].
    apply grid_above; [exact Fz|]. apply (Z.mul_lt_mono_pos_r (2 ^ 1074)); [lia|]. rewrite EF.
    destruct (decide (l = loc_Exact)) as [El|El].
    + assert (m mod 2 ^ (E - e) <> 0) by tauto.
      eapply Z.lt_le_trans; [|exact L]. apply Z.mul_lt_mono_pos_r; lia.
    + eapply Z.le_lt_trans; [|exact (Ls El)]. apply Z.mul_le_mono_nonneg_r; lia.
Qed.

End grid.

(** ** Division *)

Lemma new_location_exact n r : new_location n r <> loc_Exact -> r <> 0.
Proof.
  unfold new_location, new_location_even, new_location_odd. intros H ->. apply H.
  destruct (Z.even n); reflexivity.
Qed.

(** The quotient of the two mantissas, with what SFdiv_core_binary keeps of it. *)
Lemma div_core_spec m1 e1 m2 e2 : -1074 <= e1 <= 971 -> -1074 <= e2 <= 971 ->
  exists q e r, SFdiv_core_binary prec emax (Zpos m1) e1 (Zpos m2) e2 = (q, e, new_location (Zpos m2) r)
    /\ 0 <= q /\ e <= texp q e /\ -2148 <= e /\ 0 <= r < Zpos m2 /\ e <= e1 - e2 /\ -2148 <= e + e2
    /\ Zpos m1 * 2 ^ (e1 - e2 - e) = Zpos m2 * q + r.
Proof.
  intros H1 H2. pose proof (div_core_texp m1 e1 m2 e2) as Ht.
  unfold SFdiv_core_binary in *. rewrite fexp_eq in *.
  set (e' := Z.min (Z.max (Zdigits2 (Zpos m1) + e1 - (Zdigits2 (Zpos m2) + e2) - 53) emin64) (e1 - e2)) in *.
  assert (match e1 - e2 - e' with Z0 => Zpos m1 | Zpos _ => Z.shiftl (Zpos m1) (e1 - e2 - e') | Zneg _ => 0 end
          = Zpos m1 * 2 ^ (e1 - e2 - e')) as Es.
  { destruct (e1 - e2 - e') eqn:D; [lia| |lia]. rewrite <- D, Z.shiftl_mul_pow2; lia. }
  rewrite Es in *. pose proof (Z_div_mod (Zpos m1 * 2 ^ (e1 - e2 - e')) (Zpos m2) ltac:(lia)) as Hd.
  destruct (Z.div_eucl _ _) as [q r]. destruct Ht as [Hq Ht]. destruct Hd as [Hd Hr].
  exists q, e', r. split_and!; try reflexivity; try assumption; try lia.
Qed.

Section div.
Context (x y : double) (Hx : nonneg x = true) (Hy : nonneg y = true) (Fx : finite x) (Fy : finite y)
  (Py : 0 < cmag y).

Lemma SFdiv_zero_num : cmag x = 0 -> cmag (x / y)%D = 0.
Proof.
  intros Zx. unfold finite, cmag, ddiv in *. cbn [SF] in *.
  destruct x as [[[]|[]| |[] mx ex] Vx]; try discriminate Hx; cbn [SF fmag] in *; try lia;
    try (pose proof (finite_fmag_lt _ _ Vx); lia);
    destruct y as [[[]|[]| |[] my ey] Vy]; try discriminate Hy; cbn [SF fmag] in *; try lia; reflexivity.
Qed.

(** A double that is at most the exact quotient is at most the rounded one. *)
Lemma ddiv_ge z : finite z -> cmag z * cmag y <= cmag x * 2 ^ 1074 -> cmag z <= cmag (x / y)%D.
Proof.
  intros Fz L. destruct (decide (cmag x = 0)) as [Zx|Nx].
  { rewrite SFdiv_zero_num by exact Zx. pose proof (cmag_range z). nia. }
  unfold finite, cmag, ddiv in *. cbn [SF] in *.
  destruct x as [[[]|[]| |[] mx ex] Vx]; try discriminate Hx; cbn [SF fmag] in *; try lia.
  destruct y as [[[]|[]| |[] my ey] Vy]; try discriminate Hy; cbn [SF fmag] in *; try lia.
  pose proof (bounded_range _ _ Vx) as [Bx _]. pose proof (bounded_range _ _ Vy) as [By _].
  destruct (div_core_spec mx ex my ey Bx By) as (q & e & r & Ec & Hq & Ht & He & Hr & Hs & Hse & Hd).
  cbn [SFdiv xorb]. rewrite Ec.
  pose proof (pow2_pos (ey + 1074) ltac:(lia)) as P2.
  assert (fmag (SF z) * 2 ^ 1074 < (q + 1) * 2 ^ (e + 2148)) as G.
  { apply (Z.mul_lt_mono_pos_r (Zpos my * 2 ^ (ey + 1074))); [lia|].
    apply Z.le_lt_trans with (Zpos mx * 2 ^ (ex + 1074) * 2 ^ 1074 * 2 ^ 1074).
    - rewrite <- (Z.mul_assoc (fmag (SF z))), (Z.mul_comm (2 ^ 1074)), Z.mul_assoc. apply mul_pow2_le; lia.
    - replace (Zpos mx * 2 ^ (ex + 1074) * 2 ^ 1074 * 2 ^ 1074)
        with (Zpos mx * 2 ^ (ex - ey - e) * 2 ^ (e + ey + 3222))
        by (rewrite <- !Z.mul_assoc, <- !pow2_split by lia; do 2 f_equal; lia).
      replace ((q + 1) * 2 ^ (e + 2148) * (Zpos my * 2 ^ (ey + 1074)))
        with ((q + 1) * Zpos my * 2 ^ (e + ey + 3222)).
      + apply Z.mul_lt_mono_pos_r; [apply pow2_pos; lia|]. lia.
      + replace (e + ey + 3222) with (e + 2148 + (ey + 1074)) by lia. rewrite pow2_split by lia. ring. }
  destruct (Z.eq_dec q 0) as [->|Nq].
  - (* the quotient of the mantissas vanishes: the double is zero too *)
    assert (e <= -1074) by (clear -Ht; unfold texp in Ht; change (nbits 0) with 0 in Ht; lia).
    assert (fmag (SF z) = 0) as ->.
    { pose proof (cmag_range z) as [R _]. unfold cmag in R.
      pose proof (pow2_le (e + 2148) 1074 ltac:(lia)). pose proof (pow2_pos 1074 ltac:(lia)). nia. }
    pose proof (cmag_range (ddiv (mkD _ Vx) (mkD _ Vy))) as [R _]. unfold cmag, ddiv in R. cbn [SF] in R.
    cbn [SFdiv xorb] in R. rewrite Ec in R. exact R.
  - apply (round_aux_ge q e ltac:(lia) Ht He _ z Fz G).
Qed.

(** A double that is at least the exact quotient is at least the rounded one. *)
Lemma ddiv_le z : finite z -> cmag x * 2 ^ 1074 <= cmag z * cmag y -> cmag (x / y)%D <= cmag z.
Proof.
  intros Fz L. destruct (decide (cmag x = 0)) as [Zx|Nx].
  { rewrite SFdiv_zero_num by exact Zx. pose proof (cmag_range z). lia. }
  assert (0 < cmag z) as Pz.
  { pose proof (cmag_range z). pose proof (cmag_range x). pose proof (pow2_pos 1074 ltac:(lia)). nia. }
  unfold finite, cmag, ddiv in *. cbn [SF] in *.
  destruct x as [[[]|[]| |[] mx ex] Vx]; try discriminate Hx; cbn [SF fmag] in *; try lia.
  destruct y as [[[]|[]| |[] my ey] Vy]; try discriminate Hy; cbn [SF fmag] in *; try lia.
  pose proof (bounded_range _ _ Vx) as [Bx _]. pose proof (bounded_range _ _ Vy) as [By _].
  destruct (div_core_spec mx ex my ey Bx By) as (q & e & r & Ec & Hq & Ht & He & Hr & Hs & Hse & Hd).
  cbn [SFdiv xorb]. rewrite Ec.
  pose proof (pow2_pos (ey + 1074) ltac:(lia)) as P2.
  pose proof (pow2_pos (e + ey + 3222) ltac:(lia)) as P3.
  assert ((Zpos my * q + r) * 2 ^ (e + ey + 3222) <= fmag (SF z) * 2 ^ 1074 * (Zpos my * 2 ^ (ey + 1074))) as G.
  { rewrite <- Hd.
    replace (Zpos mx * 2 ^ (ex - ey - e) * 2 ^ (e + ey + 3222))
      with (Zpos mx * 2 ^ (ex + 1074) * 2 ^ 1074 * 2 ^ 1074)
      by (rewrite <- !Z.mul_assoc, <- !pow2_split by lia; do 2 f_equal; lia).
    rewrite <- (Z.mul_assoc (fmag (SF z))), (Z.mul_comm (2 ^ 1074) (Zpos my * _)), Z.mul_assoc.
    apply mul_pow2_le; lia. }
  assert (forall a, (Zpos my * a) * 2 ^ (e + ey + 3222) = a * 2 ^ (e + 2148) * (Zpos my * 2 ^ (ey + 1074))) as Ea.
  { intros a. replace (e + ey + 3222) with (e + 2148 + (ey + 1074)) by lia. rewrite pow2_split by lia. ring. }
  destruct (Z.eq_dec q 0) as [->|Nq].
  - (* the exact quotient is below one unit of [2^-1074] *)
    assert (e <= -1074) by (clear -Ht; unfold texp in Ht; change (nbits 0) with 0 in Ht; lia).
    destruct (round_aux_bounds 0 e (new_location (Zpos my) r) ltac:(lia) Ht) as (q' & -> & Hf & Hq' & _).
    rewrite fmag_norm by exact Hf. rewrite Z.div_0_l in Hq' by (apply Z.pow_nonzero; lia).
    assert (texp 0 e = -1074) as -> by (unfold texp; change (nbits 0) with 0; lia).
    change (2 ^ (-1074 + 1074)) with 1. lia.
  - apply (round_aux_le q e ltac:(lia) Ht He _ z Fz).
    + apply (Z.mul_le_mono_pos_r _ _ (Zpos my * 2 ^ (ey + 1074))); [lia|]. unfold cmag.
      rewrite <- Ea. nia.
    + intros Hl%new_location_exact.
      apply (Z.mul_lt_mono_pos_r (Zpos my * 2 ^ (ey + 1074))); [lia|]. unfold cmag.
      rewrite <- Ea. nia.
Qed.

End div.

Open Scope double_scope.

(** Dividing by a finite divisor that is at least one makes nothing larger. *)
Lemma cle_div x y : nonneg x = true -> nonneg y = true -> finite y -> i2d 1 ⊑ y -> x / y ⊑ x.
Proof.
  intros Hx Hy Fy L. unfold cle in *. rewrite cmag_one in L. pose proof (pow2_pos 1074 ltac:(lia)).
  destruct (decide (cmag x < HUGE)%Z) as [Fx|Nx].
  - apply ddiv_le; [assumption..|lia|exact Fx|]. apply Z.mul_le_mono_nonneg_l; [apply cmag_range|exact L].
  - pose proof (cmag_range x). destruct (isnan x) eqn:N.
    { apply isnan_cmag in N. pose proof (cmag_range (x / y)). lia. }
    apply isnan_cmag_false in N. unfold finite, cmag, ddiv in *. cbn [SF] in *.
    destruct x as [[[]|[]| |[] mx ex] Vx]; try discriminate Hx; cbn [SF fmag] in *;
      try (pose proof (finite_fmag_lt _ _ Vx)); try lia.
    all: destruct y as [[[]|[]| |[] my ey] Vy]; try discriminate Hy; cbn [SF fmag SFdiv xorb] in *; lia.
Qed.

(** The same for a finite dividend and an infinite divisor. *)
Lemma cle_div_number x y : nonneg x = true -> finite x -> nonneg y = true -> isnan y = false -> i2d 1 ⊑ y -> x / y ⊑ x.
Proof.
  intros Hx Fx Hy Ny L. destruct (decide (cmag y < HUGE)%Z) as [Fy|Iy]; [apply cle_div; assumption|].
  apply isnan_cmag_false in Ny. unfold finite, cle, cmag, ddiv in *. cbn [SF] in *.
  destruct y as [[[]|[]| |[] my ey] Vy]; try discriminate Hy; cbn [SF fmag] in *;
    try (pose proof (finite_fmag_lt _ _ Vy)); try lia.
  all: destruct x as [[[]|[]| |[] mx ex] Vx]; try discriminate Hx; cbn [SF fmag SFdiv xorb] in *; try lia.
Qed.

(** A part divided by the whole is at most one. *)
Lemma div_le_one x y : nonneg x = true -> nonneg y = true -> finite y -> (0 < cmag y)%Z ->
  x ⊑ y -> x / y ⊑ i2d 1.
Proof.
  intros Hx Hy Fy Py L. unfold cle in *. unfold finite in Fy.
  apply ddiv_le; try assumption.
  - unfold finite. lia.
  - apply finite_i2d; lia.
  - rewrite cmag_one. lia.
Qed.

(** ** Square root *)

Lemma sqrt_core_spec m e : (-1074 <= e <= 971)%Z ->
  exists q e' r l, SFsqrt_core_binary prec emax (Zpos m) e = (q, e', l)
    /\ (0 < q /\ e' <= texp q e' /\ -1074 <= e' /\ 0 <= r <= 2 * q /\ 2 * e' <= e)%Z
    /\ (Zpos m * 2 ^ (e - 2 * e') = q * q + r)%Z /\ (l <> loc_Exact -> r <> 0%Z).
Proof.
  intros He. pose proof (sqrt_core_texp m e) as Ht.
  unfold SFsqrt_core_binary in *. rewrite fexp_eq, !Z.div2_div in *.
  set (e' := Z.min (Z.max ((Zdigits2 (Zpos m) + e + 1) / 2 - 53) emin64) (e / 2)) in *.
  assert (2 * e' <= e)%Z as H2 by (unfold e'; pose proof (Z.mul_div_le e 2); lia).
  assert (-537 <= e / 2)%Z by (apply Z.div_le_lower_bound; lia).
  assert (match (e - 2 * e')%Z with Z0 => Zpos m | Zpos _ => Z.shiftl (Zpos m) (e - 2 * e') | Zneg _ => 0%Z end
          = Zpos m * 2 ^ (e - 2 * e'))%Z as Es.
  { destruct (e - 2 * e')%Z eqn:D; [lia| |lia]. rewrite <- D, Z.shiftl_mul_pow2; lia. }
  rewrite Es in *. pose proof (pow2_pos (e - 2 * e') ltac:(lia)) as Ps.
  pose proof (Z.sqrtrem_spec (Zpos m * 2 ^ (e - 2 * e')) ltac:(nia)) as Hs.
  destruct (Z.sqrtrem _) as [q r]. destruct Ht as [Hq Ht], Hs as [Hd Hr].
  exists q, e', r. eexists. split; [reflexivity|]. split_and!; try lia.
  destruct (Z.eqb_spec r 0); [done|]. auto.
Qed.

Lemma sqrt_le_one x : nonneg x = true -> x ⊑ i2d 1 -> dsqrt x ⊑ i2d 1.
Proof.
  intros Hx L. pose proof (pow2_pos 1074 ltac:(lia)) as P1. pose proof HUGE_pos.
  pose proof (finite_i2d 1 ltac:(lia) ltac:(lia)) as F1. unfold cle in *.
  unfold finite in F1. rewrite cmag_one in L, F1.
  destruct x as [[[]|[]| |[] m e] V]; try discriminate Hx; unfold cmag, dsqrt in L; cbn [SF fmag] in L; try lia.
  - rewrite cmag_one. unfold cmag, dsqrt. cbn [SF SFsqrt fmag]. clear -P1; lia.
  - pose proof (bounded_range _ _ V) as [B _]. unfold cmag at 1, dsqrt. cbn [SF SFsqrt].
    destruct (sqrt_core_spec m e B) as (q & e' & r & l & -> & (Hq & Ht & He & Hr & H2) & Hd & Hl).
    assert (forall a, (0 <= a -> a * 2 ^ (e' + 1074) * (a * 2 ^ (e' + 1074))
              = a * a * 2 ^ (2 * e' + 2148)))%Z as Ea.
    { intros a Ha. replace (2 * e' + 2148)%Z with ((e' + 1074) + (e' + 1074))%Z by lia.
      rewrite (pow2_split (e' + 1074) (e' + 1074)) by lia. ring. }
    assert ((q * q + r) * 2 ^ (2 * e' + 2148) <= 2 ^ 1074 * 2 ^ 1074)%Z as G.
    { rewrite <- Hd, <- Z.mul_assoc, <- pow2_split by (clear -H2 He; lia).
      replace (e - 2 * e' + (2 * e' + 2148))%Z with (e + 1074 + 1074)%Z by lia.
      rewrite pow2_split, Z.mul_assoc by lia. apply mul_pow2_le; lia. }
    pose proof (pow2_pos (2 * e' + 2148) ltac:(lia)). pose proof (pow2_pos (e' + 1074) ltac:(lia)).
    assert (q * 2 ^ (e' + 2148) = q * 2 ^ (e' + 1074) * 2 ^ 1074)%Z as Eq.
    { rewrite <- Z.mul_assoc, <- pow2_split by lia. do 2 f_equal. lia. }
    apply (round_aux_le q e' ltac:(lia) Ht ltac:(lia) l (i2d 1)).
    + unfold finite. rewrite cmag_one. exact F1.
    + rewrite Eq, cmag_one. apply mul_pow2_le; [lia|]. apply Z.square_le_simpl_nonneg; [lia|].
      rewrite Ea by lia. nia.
    + intros Hr0%Hl. rewrite Eq, cmag_one. apply Z.mul_lt_mono_pos_r; [lia|].
      apply Z.square_lt_simpl_nonneg; [lia|]. rewrite Ea by lia. nia.
Qed.

(** ** Differences *)

Lemma cle_sub x y : nonneg x = true -> nonneg y = true -> finite x -> y ⊑ x -> x - y ⊑ x.
Proof.
  intros Hx Hy Fx L. pose proof (Rnd_cmag x (finite_isnan x Fx)) as Rx.
  destruct x as [x Vx], y as [y Vy]. unfold nonneg, finite, cle, cmag, dsub in *. cbn [SF] in *.
  pose proof HUGE_pos.
  destruct x as [[]|[]| |[] mx ex]; try discriminate Hx; cbn [fmag] in *; try lia;
    destruct y as [[]|[]| |[] my ey]; try discriminate Hy; cbn [fmag SFsub] in *; try lia.
  pose proof (bounded_range _ _ Vx) as [Bx _]. pose proof (bounded_range _ _ Vy) as [By _].
  set (ez := Z.min ex ey) in *. cbn [cond_Zopp]. rewrite !shl_align_fst by lia.
  assert (forall a b, (ez <= b -> -1074 <= ez -> a * 2 ^ (b + 1074) = a * 2 ^ (b - ez) * 2 ^ (ez + 1074))%Z) as Ea.
  { intros a b Hb He. rewrite <- Z.mul_assoc, <- pow2_split by lia. do 2 f_equal. lia. }
  rewrite (Ea (Zpos mx) ex), (Ea (Zpos my) ey) in L by lia. rewrite (Ea (Zpos mx) ex) in * by lia.
  pose proof (pow2_pos (ez + 1074) ltac:(lia)) as Pz.
  apply Z.mul_le_mono_pos_r in L; [|exact Pz].
  pose proof (pow2_pos (ey - ez) ltac:(lia)). pose proof (pow2_pos (ex - ez) ltac:(lia)).
  destruct (Zpos mx * 2 ^ (ex - ez) - Zpos my * 2 ^ (ey - ez))%Z as [|p|p] eqn:Es; [cbn [binary_normalize fmag]; lia| |lia].
  cbn [binary_normalize]. rewrite fmag_binary_round by lia. rewrite <- Rx.
  apply Z.le_trans with (Rnd 0 (Zpos p * 2 ^ (ez + 1074))); [lia|].
  apply Rnd_mono; [lia|lia|]. apply Z.mul_le_mono_nonneg_r; lia.
Qed.

(** ** Interpolation *)

Lemma dsub_dneg x y : x - y = x + dneg y.
Proof.
  apply double_eq. destruct x as [[sx|sx| |sx mx ex] Vx], y as [[sy|sy| |sy my ey] Vy]; cbn;
    try reflexivity; try (destruct sx, sy; reflexivity).
Qed.

Lemma binary_round_opp m e : binary_round prec emax true m e = SFopp (binary_round prec emax false m e).
Proof.
  unfold binary_round. destruct (shl_align m e _) as [mz ez].
  apply (round_aux_opp false).
Qed.

Lemma dneg_sub x y : nonneg x = true -> nonneg y = true -> isnan x = false -> isnan y = false ->
  (cmag x < cmag y)%Z -> x - y = dneg (y - x).
Proof.
  intros Hx Hy Nx Ny L. apply double_eq. destruct x as [x Vx], y as [y Vy].
  unfold nonneg, isnan, cmag, dsub in *. cbn [SF dneg] in *. pose proof HUGE_pos.
  destruct x as [[]|[]| |[] mx ex]; try discriminate;
    destruct y as [[]|[]| |[] my ey]; try discriminate; cbn [fmag] in *; try reflexivity.
  all: try (pose proof (finite_fmag_lt _ _ Vx)); try (pose proof (finite_fmag_lt _ _ Vy)); try lia.
  pose proof (bounded_range _ _ Vx) as [Bx _]. pose proof (bounded_range _ _ Vy) as [By _].
  cbn [SFsub cond_Zopp]. rewrite (Z.min_comm ey ex). rewrite !shl_align_fst by lia.
  replace (ex + 1074)%Z with ((ex - Z.min ex ey) + (Z.min ex ey + 1074))%Z in L by lia.
  replace (ey + 1074)%Z with ((ey - Z.min ex ey) + (Z.min ex ey + 1074))%Z in L by lia.
  rewrite (pow2_split (ex - _)), (pow2_split (ey - _)), !Z.mul_assoc in L by lia.
  apply Z.mul_lt_mono_pos_r in L; [|apply pow2_pos; lia].
  set (a := (Zpos mx * 2 ^ (ex - Z.min ex ey))%Z) in *. set (b := (Zpos my * 2 ^ (ey - Z.min ex ey))%Z) in *.
  destruct (b - a)%Z as [|d|d] eqn:D; try lia.
  replace (a - b)%Z with (Z.neg d) by lia. cbn [binary_normalize]. apply binary_round_opp.
Qed.

Lemma mul_le_factor c d : nonneg c = true -> nonneg d = true -> finite d -> c ⊑ i2d 1 -> c * d ⊑ d.
Proof.
  intros Hc Hd Fd Lc. transitivity (i2d 1 * d).
  - apply cle_mul_r; [exact Hc|reflexivity|exact Hd|exact Fd|exact Lc].
  - rewrite dmul_comm. unfold cle. rewrite cmag_mul_one by exact Hd. reflexivity.
Qed.

(** A point between [mx] and [mn] is not negative. *)
Lemma interpolate_nonneg mx mn c : nonneg mx = true -> nonneg mn = true -> nonneg c = true -> c ⊑ i2d 1 ->
  nonneg (mx + c * (mn - mx)) = true.
Proof.
  intros Hx Hn Hc Lc. destruct (Z.le_gt_cases (cmag mx) (cmag mn)) as [L|L].
  { apply nonneg_add, nonneg_mul, nonneg_sub; assumption. }
  destruct (isnan mx) eqn:Nx; [destruct mx as [[] V]; try discriminate; reflexivity|].
  assert (isnan mn = false) as Nn.
  { apply isnan_cmag_false. apply isnan_cmag_false in Nx. lia. }
  rewrite dneg_sub, dmul_dneg, <- dsub_dneg by assumption.
  assert (nonneg (mx - mn) = true) as Hd by (apply nonneg_sub; [assumption..|unfold cle; lia]).
  destruct (decide (finite mx)) as [Fx|Fx].
  - assert (mx - mn ⊑ mx) as Ld by (apply cle_sub; [assumption..|unfold cle; lia]).
    assert (finite (mx - mn)) as Fd by (unfold finite, cle in *; lia).
    apply nonneg_sub; [assumption|apply nonneg_mul; assumption|].
    etransitivity; [apply mul_le_factor; assumption|exact Ld].
  - destruct mx as [[[]|[]| |[] m e] V]; try discriminate; try (exfalso; apply Fx; apply HUGE_pos).
    + destruct mn as [[[]|[]| |[] m' e'] V']; try discriminate; try (unfold cmag in L; cbn in L; lia);
        destruct c as [[[]|[]| |[] m'' e''] V'']; try discriminate; reflexivity.
    + exfalso. apply Fx. unfold finite, cmag. cbn [SF fmag]. apply (finite_fmag_lt m e V).
Qed.

(** Squares of numbers in [-1, 1]. *)
Lemma square_unit c : (i2d (-1) <=? c) = true -> (c <=? i2d 1) = true ->
  nonneg (c * c) = true /\ c * c ⊑ i2d 1.
Proof.
  intros L1 L2.
  assert (isnan c = false) as Nc by (destruct (isnan c) eqn:E; [rewrite dle_nan_l in L2 by exact E|]; done).
  rewrite dle_sval in L1, L2 by (exact Nc || reflexivity).
  assert (forall a, nonneg a = true -> (cmag a <= cmag (i2d 1))%Z -> nonneg (a * a) = true /\ a * a ⊑ i2d 1) as Sq.
  { intros a Ha La. split; [auto with nneg|]. etransitivity; [|exact La].
    apply mul_le_factor; [assumption..| |exact La].
    unfold finite. pose proof (finite_i2d 1) as F. unfold finite in F. specialize (F ltac:(lia) ltac:(lia)). lia. }
  destruct (nonneg c) eqn:Hc.
  - apply Sq; [exact Hc|]. rewrite !sval_nonneg in L2 by (exact Hc || reflexivity). lia.
  - replace (c * c) with (dneg c * dneg c).
    + apply Sq; [apply nonneg_dneg, Hc|]. rewrite cmag_dneg. unfold sval in L1. rewrite Hc in L1.
      change (nonneg (i2d (-1))) with false in L1. cbv iota in L1.
      change (cmag (i2d (-1))) with (cmag (dneg (i2d 1))) in L1. rewrite cmag_dneg in L1. lia.
    + rewrite dmul_dneg, dmul_comm, dmul_dneg, dneg_involutive. reflexivity.
Qed.
