(* ===== verification/DoubleRound.v ===== *)
(** Monotonicity of rounding to an integer and of division: a rounded quotient
    is a nearest double, so quotients keep the order of their numerators. *)
From Stdlib Require Import SpecFloat.
From S2P Require Import Prelude Float64 Double DoubleOrder DoubleDiv.
Open Scope Z_scope.

#[local] Opaque HUGE Rnd.

(** ** Rounding to an integer *)

Lemma cmag_rint x : nonneg x = true -> finite x -> cmag (rint x) = rne (cmag x) 1074 * 2 ^ 1074.
Proof.
  intros Hx Fx. unfold finite, cmag, rint in *. cbn [SF] in *. pose proof HUGE_pos.
  destruct x as [[[]|[]| |[] m e] V]; try discriminate Hx; cbn [SF SFrint fmag cond_Zopp] in *; try lia.
  { rewrite <- (Z.mul_0_l (2 ^ 1074)), rne_mul_pow2 by lia. reflexivity. }
  pose proof (bounded_range _ _ V) as [B M]. destruct (Z.ltb_spec e 0).
  - assert (rne (Zpos m * 2 ^ (e + 1074)) 1074 = rne (Zpos m) (- e)) as ->
      by (rewrite <- (rne_scale (Zpos m) (- e) (e + 1074)) by lia; f_equal; lia).
    pose proof (rne_bounds (Zpos m) (- e) ltac:(lia)) as R.
    pose proof (Z.div_pos (Zpos m) (2 ^ (- e)) ltac:(lia) ltac:(apply pow2_pos; lia)).
    assert (Zpos m / 2 ^ (- e) <= 2 ^ 52).
    { apply Z.div_le_upper_bound; [apply pow2_pos; lia|].
      apply Z.le_trans with (2 ^ 1 * 2 ^ 52); [lia|]. apply mul_pow2_le; [lia|]. apply pow2_le. lia. }
    apply (cmag_i2d (rne (Zpos m) (- e))); lia.
  - cbn [fmag]. rewrite pow2_split, Z.mul_assoc, rne_mul_pow2 by lia. reflexivity.
Qed.

Lemma finite_rint x : nonneg x = true -> finite x -> finite (rint x).
Proof.
  intros Hx Fx. destruct x as [[[]|[]| |[] m e] V]; try discriminate Hx; try exact Fx.
  destruct (Z.ltb_spec e 0) as [E|E].
  - assert (rint (mkD (S754_finite false m e) V) = i2d (rne (Zpos m) (- e))) as ->.
    { apply double_eq. unfold rint. cbn [SF SFrint cond_Zopp]. rewrite (proj2 (Z.ltb_lt e 0) E). reflexivity. }
    pose proof (bounded_range _ _ V) as [B M]. pose proof (rne_bounds (Zpos m) (- e) ltac:(lia)) as R.
    pose proof (Z.div_pos (Zpos m) (2 ^ (- e)) ltac:(lia) ltac:(apply pow2_pos; lia)).
    assert (Zpos m / 2 ^ (- e) <= 2 ^ 52).
    { apply Z.div_le_upper_bound; [apply pow2_pos; lia|].
      apply Z.le_trans with (2 ^ 1 * 2 ^ 52); [lia|]. apply mul_pow2_le; [lia|]. apply pow2_le. lia. }
    apply finite_i2d; lia.
  - unfold finite, cmag, rint in *. cbn [SF SFrint]. rewrite (proj2 (Z.ltb_ge e 0) E). exact Fx.
Qed.

Lemma isnan_rint x : isnan (rint x) = isnan x.
Proof.
  destruct x as [[s|s| |s m e] V]; try reflexivity. unfold isnan, rint. cbn [SF SFrint].
  destruct (e <? 0); [|reflexivity]. pose proof (isnan_i2d (cond_Zopp s (rne (Zpos m) (- e)))) as N.
  unfold isnan, i2d in N. cbn [SF] in N.
  destruct (cond_Zopp s (rne (Zpos m) (- e))) as [|p|p]; [destruct s; reflexivity|exact N|exact N].
Qed.

Lemma cle_rint x y : nonneg x = true -> nonneg y = true -> cle x y -> cle (rint x) (rint y).
Proof.
  intros Hx Hy L. unfold cle in *. destruct (decide (finite y)) as [Fy|Fy].
  - assert (finite x) as Fx by (unfold finite in *; lia). rewrite !cmag_rint by assumption.
    apply mul_pow2_le; [lia|]. apply rne_mono; lia.
  - assert (rint y = y) as -> by (apply rint_of_integral; [exact Hy|left; unfold finite in Fy; lia]).
    destruct (isnan x) eqn:N.
    + apply isnan_cmag in N. pose proof (cmag_range (rint x)). lia.
    + assert (cmag (rint x) <= HUGE) by (apply isnan_cmag_false; rewrite isnan_rint; exact N).
      unfold finite in Fy. lia.
Qed.

Lemma rint_le_integral x y : nonneg x = true -> nonneg y = true -> integral y -> cle x y -> cle (rint x) y.
Proof. intros Hx Hy Iy L. rewrite <- (rint_of_integral y Hy Iy). apply cle_rint; assumption. Qed.

(** ** The rounded value is a nearest double *)

Definition loc_code (l : location) : Z :=
  match l with
  | loc_Exact => 0
  | loc_Inexact Lt => 1
  | loc_Inexact Eq => 2
  | loc_Inexact Gt => 3
  end.

Lemma loc_code_range l : 0 <= loc_code l <= 3.
Proof. destruct l as [|[]]; simpl; lia. Qed.

Lemma shr_iter_code k m l : 0 <= m ->
  let mrs := Nat.iter k shr_1 (shr_record_of_loc m l) in
  shr_m mrs = m / 2 ^ Z.of_nat k /\ loc_of_shr_record mrs = loc_of (4 * m + loc_code l) (Z.of_nat k + 2).
Proof.
  intros Hm. pose proof (loc_code_range l) as Hc. cbv zeta.
  assert (shr_m (shr_record_of_loc m l) = m) as E0 by (destruct l as [|[]]; reflexivity).
  split; [rewrite shr_iter_m, E0 by lia; reflexivity|].
  induction k as [|k IH].
  - change (Z.of_nat 0 + 2) with 2. unfold loc_of. change (2 ^ 2) with 4.
    replace ((4 * m + loc_code l) mod 4) with (loc_code l)
      by (apply (Z.mod_unique _ _ m); lia).
    destruct l as [|[]]; reflexivity.
  - rewrite Nat.iter_succ. pose proof (shr_iter_m k (shr_record_of_loc m l) ltac:(lia)) as Em.
    destruct (Nat.iter k shr_1 (shr_record_of_loc m l)) as [mk r s]. cbn [shr_m] in Em.
    rewrite Nat2Z.inj_succ. replace (Z.succ (Z.of_nat k) + 2) with (Z.of_nat k + 2 + 1) by lia.
    apply shr_1_loc; [lia|lia| |exact IH].
    rewrite Em, E0, (Z.add_comm (Z.of_nat k)), pow2_split, <- Z.div_div by lia. f_equal.
    change (2 ^ 2) with 4. apply (Z.div_unique _ _ _ (loc_code l)); lia.
Qed.

Lemma round_aux_code m e l : 0 <= m -> e <= texp m e ->
  binary_round_aux prec emax false m e l
  = norm false (rne (4 * m + loc_code l) (texp m e - e + 2)) (texp m e)
  /\ fits (rne (4 * m + loc_code l) (texp m e - e + 2)) (texp m e).
Proof.
  intros Hm He. unfold binary_round_aux, shr_fexp. rewrite fexp_eq, Zdigits2_nbits by lia.
  change (Z.max (nbits m + e - 53) emin64) with (texp m e). set (E := texp m e) in *.
  set (k := Z.to_nat (E - e)).
  assert (shr (shr_record_of_loc m l) e (E - e) = (Nat.iter k shr_1 (shr_record_of_loc m l), E)) as ->.
  { unfold shr, k. destruct (E - e) as [|p|p] eqn:D; [| |lia].
    - f_equal. lia.
    - rewrite iter_pos_nat. f_equal. lia. }
  destruct (shr_iter_code k m l Hm) as [Es El]. cbv zeta in Es, El.
  set (mrs := Nat.iter k shr_1 (shr_record_of_loc m l)) in *. cbv iota beta.
  assert (Z.of_nat k = E - e) as Ek by (unfold k; lia). rewrite Ek in *.
  assert (round_nearest_even (shr_m mrs) (loc_of_shr_record mrs) = rne (4 * m + loc_code l) (E - e + 2)) as Er.
  { rewrite El, Es, <- round_rne by lia. f_equal. pose proof (loc_code_range l).
    rewrite (Z.add_comm (E - e)), pow2_split, <- Z.div_div by (lia || apply pow2_pos; lia). f_equal.
    change (2 ^ 2) with 4. apply (Z.div_unique _ _ _ (loc_code l)); lia. }
  assert (fits (rne (4 * m + loc_code l) (E - e + 2)) E) as Hf.
  { rewrite <- Er. apply div_fits; [lia..|]. fold E. rewrite <- Es. apply round_nearest_even_bounds. }
  split; [|exact Hf]. rewrite Er. apply round_stage2. exact Hf.
Qed.

(** [rne] chooses the nearer of the two multiples. *)
Lemma rne_near v k : 0 <= k -> let F := v / 2 ^ k in
  (rne v k = F /\ 2 * v <= (2 * F + 1) * 2 ^ k) \/ (rne v k = F + 1 /\ (2 * F + 1) * 2 ^ k <= 2 * v).
Proof.
  intros Hk F. pose proof (pow2_pos k Hk) as Hp. pose proof (Z.div_mod v (2 ^ k) ltac:(lia)) as Hd. fold F in Hd.
  unfold rne. fold F. destruct (Z.compare_spec (2 * (v mod 2 ^ k)) (2 ^ k)).
  - destruct (Z.even F); [left|right]; split; lia.
  - left. split; lia.
  - right. split; lia.
Qed.

(** The next double above the grid point, also for a vanishing mantissa. *)
Lemma grid_next m e z : 0 <= m -> e <= texp m e -> finite z ->
  let E := texp m e in let F := m / 2 ^ (E - e) in
  F * 2 ^ (E + 1074) < cmag z -> (F + 1) * 2 ^ (E + 1074) <= cmag z.
Proof.
  intros Hm Ht Fz. destruct (decide (m = 0)) as [->|N]; [|apply grid_above; [lia|exact Ht|exact Fz]].
  cbv zeta. assert (texp 0 e = emin64) as ->.
  { unfold texp in *. change (nbits 0) with 0 in *. lia. }
  rewrite Z.div_0_l by (apply Z.pow_nonzero; unfold texp in *; change (nbits 0) with 0 in *; lia).
  change (emin64 + 1074) with 0. change (2 ^ 0) with 1. lia.
Qed.

Section near.
Context (m e : Z) (l : location) (Hm : 0 <= m) (Ht : e <= texp m e) (He : -2148 <= e).
Let E := texp m e.
Let F := m / 2 ^ (E - e).
Let v := 4 * m + loc_code l.
Let R := fmag (binary_round_aux prec emax false m e l).

Lemma near_setup : emin64 <= E /\ v / 2 ^ (E - e + 2) = F /\ 0 < 2 ^ (E - e) /\ 0 < 2 ^ (E + 1074)
  /\ 2 ^ (E - e + 2) = 4 * 2 ^ (E - e) /\ 2 ^ (E - e) * 2 ^ (e + 2148) = 2 ^ (E + 1074) * 2 ^ 1074
  /\ R = Z.min (rne v (E - e + 2) * 2 ^ (E + 1074)) HUGE /\ F * 2 ^ (E - e + 2) <= v < (F + 1) * 2 ^ (E - e + 2).
Proof.
  fold E in Ht. assert (emin64 <= E) by (unfold E, texp; lia). pose proof (loc_code_range l) as Hc.
  assert (2 ^ (E - e + 2) = 4 * 2 ^ (E - e)) as P4 by (rewrite Z.add_comm, pow2_split by lia; reflexivity).
  pose proof (pow2_pos (E - e) ltac:(lia)) as Pk.
  assert (v / 2 ^ (E - e + 2) = F) as EF.
  { rewrite P4, <- Z.div_div by lia. unfold F. f_equal. symmetry. apply (Z.div_unique _ _ _ (loc_code l)); lia. }
  split_and!; [assumption|exact EF|exact Pk|apply pow2_pos; lia|exact P4| | | |].
  - rewrite <- !pow2_split by lia. f_equal. lia.
  - unfold R. destruct (round_aux_code m e l ltac:(lia) Ht) as [-> Hf]. fold E v in Hf |- *.
    apply fmag_norm, Hf.
  - rewrite <- EF. rewrite Z.mul_comm. apply Z.mul_div_le. lia.
  - rewrite <- EF. pose proof (Z.mul_succ_div_gt v (2 ^ (E - e + 2)) ltac:(lia)). lia.
Qed.

(** Doubles below and above the rounded value are at least as far from the
    exact one: with [h] halves of [2^e] between them. *)
Lemma near_below z : finite z -> cmag z < R ->
  exists h, 2 * h <= v /\ (cmag z + R) * 2 ^ 1074 <= h * 2 ^ (e + 2148).
Proof.
  intros Fz L. destruct near_setup as (HE & EF & Pk & PE & P4 & P2 & ER & Hv). fold E in Ht.
  pose proof (pow2_pos 1074 ltac:(lia)) as P1.
  pose proof (rne_near v (E - e + 2) ltac:(lia)) as N. cbv zeta in N. rewrite EF in N.
  assert (R <= rne v (E - e + 2) * 2 ^ (E + 1074)) as LR by lia.
  destruct N as [[Eq _]|[Eq N]]; rewrite Eq in *.
  - exists (2 * F * 2 ^ (E - e)). split; [lia|]. rewrite <- Z.mul_assoc, P2, Z.mul_assoc.
    apply Z.mul_le_mono_nonneg_r; [lia|]. lia.
  - exists ((2 * F + 1) * 2 ^ (E - e)). split; [lia|]. rewrite <- Z.mul_assoc, P2, Z.mul_assoc.
    apply Z.mul_le_mono_nonneg_r; [lia|].
    assert (cmag z <= F * 2 ^ (E + 1074)); [|lia].
    destruct (Z.le_gt_cases (cmag z) (F * 2 ^ (E + 1074))) as [G|G]; [exact G|].
    apply (grid_next m e z Hm Ht Fz) in G. fold E F in G. lia.
Qed.

Lemma near_above z : finite z -> R < cmag z ->
  exists h, v <= 2 * h /\ h * 2 ^ (e + 2148) <= (cmag z + R) * 2 ^ 1074.
Proof.
  intros Fz L. destruct near_setup as (HE & EF & Pk & PE & P4 & P2 & ER & Hv). fold E in Ht.
  pose proof (pow2_pos 1074 ltac:(lia)) as P1.
  pose proof (rne_near v (E - e + 2) ltac:(lia)) as N. cbv zeta in N. rewrite EF in N.
  assert (R = rne v (E - e + 2) * 2 ^ (E + 1074)) as LR by (unfold finite in Fz; lia).
  destruct N as [[Eq N]|[Eq _]]; rewrite Eq in *.
  - exists ((2 * F + 1) * 2 ^ (E - e)). split; [lia|]. rewrite <- Z.mul_assoc, P2, Z.mul_assoc.
    apply Z.mul_le_mono_nonneg_r; [lia|].
    pose proof (grid_next m e z Hm Ht Fz) as G. cbv zeta in G. fold E F in G. specialize (G ltac:(lia)). lia.
  - exists (2 * (F + 1) * 2 ^ (E - e)). split; [lia|]. rewrite <- Z.mul_assoc, P2, Z.mul_assoc.
    apply Z.mul_le_mono_nonneg_r; [lia|]. lia.
Qed.

End near.

(** ** Division *)

Lemma new_location_code n r q h : 0 < n -> 0 <= r < n ->
  (2 * h <= 4 * q + loc_code (new_location n r) <-> h * n <= 2 * (n * q + r))
  /\ (4 * q + loc_code (new_location n r) <= 2 * h <-> 2 * (n * q + r) <= h * n).
Proof.
  intros Hn Hr. assert (loc_code (new_location n r) =
    if r =? 0 then 0 else match 2 * r ?= n with Lt => 1 | Eq => 2 | Gt => 3 end) as ->.
  { unfold new_location, new_location_even, new_location_odd.
    destruct (Z.even n) eqn:Ev; destruct (Z.eqb_spec r 0); try reflexivity; simpl.
    - assert (Z.odd n = true) as Od by (rewrite <- Z.negb_even, Ev; reflexivity).
      apply Z.odd_spec in Od as [k ->].
      destruct (Z.compare_spec (2 * r + 1) (2 * k + 1)), (Z.compare_spec (2 * r) (2 * k + 1)); try reflexivity; lia. }
  destruct (Z.eqb_spec r 0) as [->|]; [split; split; nia|].
  destruct (Z.compare_spec (2 * r) n); split; split; nia.
Qed.

Section div_near.
Context (x y : double) (Hx : nonneg x = true) (Hy : nonneg y = true) (Fx : finite x) (Fy : finite y)
  (Px : 0 < cmag x) (Py : 0 < cmag y).

(** Any other double is at least as far from the exact quotient. *)
Lemma ddiv_near z : finite z ->
  (cmag z < cmag (x / y)%D -> (cmag z + cmag (x / y)%D) * cmag y <= 2 * cmag x * 2 ^ 1074)
  /\ (cmag (x / y)%D < cmag z -> 2 * cmag x * 2 ^ 1074 <= (cmag z + cmag (x / y)%D) * cmag y).
Proof.
  intros Fz. unfold finite, cmag, ddiv in *. cbn [SF] in *.
  destruct x as [[[]|[]| |[] mx ex] Vx]; try discriminate Hx; cbn [SF fmag] in *; try lia.
  destruct y as [[[]|[]| |[] my ey] Vy]; try discriminate Hy; cbn [SF fmag] in *; try lia.
  pose proof (bounded_range _ _ Vx) as [Bx _]. pose proof (bounded_range _ _ Vy) as [By _].
  destruct (div_core_spec mx ex my ey Bx By) as (q & e & r & Ec & Hq & Ht & He & Hr & Hs & Hse & Hd).
  cbn [SFdiv xorb]. rewrite Ec. set (R := fmag (binary_round_aux prec emax false q e (new_location (Zpos my) r))).
  pose proof (pow2_pos 1074 ltac:(lia)) as P1. pose proof (pow2_pos (ey + 1074) ltac:(lia)) as P2.
  pose proof (pow2_pos (e + ey + 3222) ltac:(lia)) as P3.
  assert (2 * (Zpos mx * 2 ^ (ex + 1074)) * 2 ^ 1074 * 2 ^ 1074
          = 2 * (Zpos my * q + r) * 2 ^ (e + ey + 3222)) as EX.
  { rewrite <- Hd, <- !Z.mul_assoc, <- !pow2_split by lia. do 3 f_equal. lia. }
  assert (forall h, h * 2 ^ (e + 2148) * (Zpos my * 2 ^ (ey + 1074)) = h * Zpos my * 2 ^ (e + ey + 3222)) as EH.
  { intros h. replace (e + ey + 3222) with (e + 2148 + (ey + 1074)) by lia. rewrite (pow2_split (e + 2148) (ey + 1074)) by lia. ring. }
  split; intros L.
  - destruct (near_below q e _ Hq Ht He z Fz L) as (h & L1 & L2). fold R in L2.
    apply (proj1 (new_location_code (Zpos my) r q h ltac:(lia) Hr)) in L1.
    apply (Z.mul_le_mono_pos_r _ _ (2 ^ 1074)); [lia|]. rewrite EX.
    apply Z.le_trans with (h * Zpos my * 2 ^ (e + ey + 3222)); [|apply mul_pow2_le; lia].
    rewrite <- EH. unfold cmag in L2. nia.
  - destruct (near_above q e _ Hq Ht He z Fz L) as (h & L1 & L2). fold R in L2.
    apply (proj2 (new_location_code (Zpos my) r q h ltac:(lia) Hr)) in L1.
    apply (Z.mul_le_mono_pos_r _ _ (2 ^ 1074)); [lia|]. rewrite EX.
    apply Z.le_trans with (h * Zpos my * 2 ^ (e + ey + 3222)); [apply mul_pow2_le; lia|].
    rewrite <- EH. unfold cmag in L2. nia.
Qed.

End div_near.

(** Quotients by the same divisor keep the order of the numerators. *)
Lemma cle_div_mono x x' y : nonneg x = true -> nonneg x' = true -> nonneg y = true ->
  finite x' -> finite y -> 0 < cmag y -> finite (x / y)%D -> cle x x' -> cle (x / y)%D (x' / y)%D.
Proof.
  intros Hx Hx' Hy Fx' Fy Py Fq L. unfold cle in *. assert (finite x) as Fx by (unfold finite in *; lia).
  destruct (decide (cmag x = 0)) as [Zx|Nx].
  { rewrite (SFdiv_zero_num x y) by assumption. pose proof (cmag_range (x' / y)%D). lia. }
  pose proof (cmag_range x). destruct (Z.le_gt_cases (cmag (x / y)%D) (cmag (x' / y)%D)) as [G|G]; [exact G|].
  assert (finite (x' / y)%D) as Fq' by (unfold finite in *; lia).
  destruct (ddiv_near x y Hx Hy Fx Fy ltac:(lia) Py _ Fq') as [A _].
  destruct (ddiv_near x' y Hx' Hy Fx' Fy ltac:(lia) Py _ Fq) as [_ B].
  specialize (A G). specialize (B G). pose proof (pow2_pos 1074 ltac:(lia)).
  assert (cmag x = cmag x') as E by nia. apply cmag_inj in E; [|assumption..]. subst x'. lia.
Qed.

(** ** Differences *)

(** The difference of distinct doubles does not vanish. *)
Lemma sub_pos x y : nonneg x = true -> nonneg y = true -> isnan x = false -> finite y ->
  cmag x < cmag y -> 0 < cmag (y - x)%D.
Proof.
  intros Hx Hy Nx Fy L. unfold nonneg, isnan, finite, cmag, dsub in *. cbn [SF] in *. pose proof HUGE_pos.
  destruct x as [[[]|[]| |[] mx ex] Vx]; try discriminate Hx; try discriminate Nx; cbn [SF fmag] in *;
    destruct y as [[[]|[]| |[] my ey] Vy]; try discriminate Hy; cbn [SF fmag SFsub] in *; try lia.
  pose proof (bounded_range _ _ Vx) as [Bx _]. pose proof (bounded_range _ _ Vy) as [By _].
  rewrite !shl_align_fst by lia. cbn [cond_Zopp].
  replace (ex + 1074) with ((ex - Z.min ey ex) + (Z.min ey ex + 1074)) in L by lia.
  replace (ey + 1074) with ((ey - Z.min ey ex) + (Z.min ey ex + 1074)) in L by lia.
  rewrite (pow2_split (ex - _)), (pow2_split (ey - _)), !Z.mul_assoc in L by lia.
  apply Z.mul_lt_mono_pos_r in L; [|apply pow2_pos; lia].
  destruct (Zpos my * 2 ^ (ey - Z.min ey ex) - Zpos mx * 2 ^ (ex - Z.min ey ex)) as [|d|d] eqn:D; try lia.
  cbn [binary_normalize]. rewrite fmag_binary_round by lia.
  pose proof (Rnd_mono 0 (1 * 2 ^ 0) (Zpos d * 2 ^ (Z.min ey ex + 1074))) as M.
  rewrite Rnd_exact in M by lia. pose proof (pow2_pos (Z.min ey ex + 1074) ltac:(lia)).
  change (1 * 2 ^ (0 - 0)) with 1 in M. change (1 * 2 ^ 0) with 1 in M. nia.
Qed.

(** A product with a factor not below one does not shrink, whatever it is. *)
Lemma cle_scale_any x f : nonneg x = true -> nonneg f = true -> cle (i2d 1) f -> cle x (x * f)%D.
Proof.
  intros Hx Hf L. destruct (decide (finite f)) as [Ff|Nf]; [apply cle_scale; assumption|].
  unfold cle, finite, cmag, dmul, nonneg in *. cbn [SF] in *. pose proof HUGE_pos.
  destruct f as [[[]|[]| |[] mf ef] Vf]; try discriminate Hf; cbn [SF fmag] in *;
    [lia| | |exfalso; pose proof (finite_fmag_lt _ _ Vf); lia];
    destruct x as [[[]|[]| |[] mx ex] Vx]; try discriminate Hx; cbn [SF SFmul fmag xorb]; try lia;
    pose proof (finite_fmag_lt _ _ Vx); lia.
Qed.
