(* ===== verification/DoubleUnit.v ===== *)
(** Arithmetic on fractions: doubles between zero and one stay there under the
    operations of the selectivity estimates, rounding included. *)
From Stdlib Require Import SpecFloat.
From S2P Require Import Prelude Float64 Double DoubleOrder DoubleDiv DoubleRound.
Open Scope Z_scope.
Open Scope double_scope.

(** A probability: not negative, not NaN, at most one. *)
Record fraction (x : double) : Prop := {
  fr_nonneg : nonneg x = true;
  fr_le : x ⊑ i2d 1;
}.

Lemma fraction_cmag x : fraction x -> 0 <= cmag x <= 2 ^ 1074.
Proof. intros [_ L]. unfold cle in L. rewrite cmag_one in L. pose proof (cmag_range x). lia. Qed.

Lemma one_lt_HUGE : (2 ^ 1075 < HUGE)%Z.
Proof. unfold HUGE. apply Z.pow_lt_mono_r; lia. Qed.

Lemma fraction_finite x : fraction x -> finite x.
Proof. intros F. apply fraction_cmag in F. unfold finite. pose proof one_lt_HUGE. pose proof (pow2_le 1074 1075). lia. Qed.

Lemma fraction_isnan x : fraction x -> isnan x = false.
Proof. intros F. apply finite_isnan, fraction_finite, F. Qed.

Lemma fraction_zero : fraction (i2d 0).
Proof. split; [reflexivity|]. unfold cle. rewrite cmag_one. change (cmag (i2d 0)) with 0. lia. Qed.

Lemma fraction_one : fraction (i2d 1).
Proof. split; reflexivity. Qed.

(** ** Rounding near one *)

(** The error of one rounding is at most half a unit. *)
Lemma rne_above v k : 0 <= k -> (2 * rne v k * 2 ^ k <= 2 * v + 2 ^ k)%Z.
Proof.
  intros Hk. pose proof (pow2_pos k Hk). pose proof (Z.div_mod v (2 ^ k) ltac:(lia)) as D.
  unfold rne. destruct (Z.compare_spec (2 * (v mod 2 ^ k)) (2 ^ k)); [destruct (Z.even _)|..]; try nia.
  pose proof (Z.mod_pos_bound v (2 ^ k)). nia.
Qed.

(** Sums between one and two are rounded up by at most [2^-53]. *)
Lemma Rnd_above v : (2 ^ 1074 <= v <= 2 ^ 1075)%Z -> (Rnd 0 v <= v + 2 ^ 1021)%Z.
Proof.
  intros Hv. destruct (decide (v = 2 ^ 1075)%Z) as [-> |Ne].
  { rewrite <- (Z.mul_1_l (2 ^ 1075)) at 1. rewrite Rnd_exact by lia. rewrite Z.sub_0_r. pose proof (pow2_pos 1021). lia. }
  unfold Rnd, rnd_shift. rewrite (nbits_unique v 1075) by lia. change (Z.max (1075 - 53) 0) with 1022. rewrite Z.sub_0_r.
  pose proof (rne_above v 1022 ltac:(lia)) as R. replace (2 ^ 1022)%Z with (2 * 2 ^ 1021)%Z in * by reflexivity. lia.
Qed.

(** A value within half a unit above one is rounded to one at most. *)
Lemma Rnd_one v : 0 <= v -> (v <= 2 ^ 1074 + 2 ^ 1021)%Z -> (Rnd 0 v <= 2 ^ 1074)%Z.
Proof.
  intros H0 Hv. etransitivity; [apply (Rnd_mono 0 v _ ltac:(lia) H0 Hv)|]. apply Z.leb_le. vm_compute. reflexivity.
Qed.

Lemma sat_le v w : (v <= w -> sat v <= w)%Z.
Proof. unfold sat. lia. Qed.

(** ** Differences, exactly *)

Lemma cmag_sub x y : nonneg x = true -> nonneg y = true -> finite x -> y ⊑ x ->
  cmag (x - y) = sat (Rnd 0 (cmag x - cmag y)).
Proof.
  intros Hx Hy Fx L. pose proof (Rnd_cmag x (finite_isnan x Fx)) as Rx. assert (sat (Rnd 0 0) = 0)%Z as R0 by reflexivity.
  assert (sat (cmag x) = cmag x) as Sx by (unfold sat, finite in *; lia).
  destruct x as [x Vx], y as [y Vy]. unfold nonneg, finite, cle, cmag, dsub in *. cbn [SF] in *.
  pose proof HUGE_pos.
  destruct x as [[]|[]| |[] mx ex]; try discriminate Hx; cbn [fmag] in *; try lia;
    destruct y as [[]|[]| |[] my ey]; try discriminate Hy; cbn [fmag SFsub] in *; try lia;
    rewrite ?Z.sub_0_r, ?Rx; try (symmetry; assumption).
  - exfalso. pose proof (bounded_range _ _ Vy) as [By _]. pose proof (pow2_pos (ey + 1074) ltac:(lia)). nia.
  - pose proof (bounded_range _ _ Vx) as [Bx _]. pose proof (bounded_range _ _ Vy) as [By _].
    set (ez := Z.min ex ey) in *. cbn [cond_Zopp]. rewrite !shl_align_fst by lia.
    assert (forall a b, (ez <= b -> -1074 <= ez -> a * 2 ^ (b + 1074) = a * 2 ^ (b - ez) * 2 ^ (ez + 1074))%Z) as Ea.
    { intros a b Hb He. rewrite <- Z.mul_assoc, <- pow2_split by lia. do 2 f_equal. lia. }
    rewrite (Ea (Zpos mx) ex), (Ea (Zpos my) ey) in * by lia. rewrite <- Z.mul_sub_distr_r.
    pose proof (pow2_pos (ez + 1074) ltac:(lia)) as Pz. apply Z.mul_le_mono_pos_r in L; [|exact Pz].
    destruct (Zpos mx * 2 ^ (ex - ez) - Zpos my * 2 ^ (ey - ez))%Z as [|p|p] eqn:Es; [reflexivity| |lia].
    cbn [binary_normalize]. rewrite fmag_binary_round by lia. reflexivity.
Qed.

(** ** Products, complements and disjunctions *)

Lemma fraction_mul x y : fraction x -> fraction y -> fraction (x * y).
Proof.
  intros [Hx Lx] Fy. pose proof (fraction_finite y Fy) as Ff. destruct Fy as [Hy Ly]. split; [auto with nneg|].
  etransitivity; [apply mul_le_factor; assumption|exact Ly].
Qed.

Lemma fraction_not x : fraction x -> fraction (i2d 1 - x).
Proof. intros [Hx Lx]. split; [apply nonneg_sub; try assumption; reflexivity|]. apply cle_sub; try assumption; [reflexivity|apply fraction_finite, fraction_one]. Qed.

(** The grid of the smaller of two doubles contains the larger one. *)
Lemma common_grid x y : finite x -> finite y -> (0 < cmag y <= cmag x)%Z ->
  exists mx my e, cmag x = (mx * 2 ^ e)%Z /\ cmag y = (my * 2 ^ e)%Z /\ 0 <= e /\ (0 < my < 2 ^ 53)%Z /\ (cmag x <= 2 ^ 1074 -> e <= 1074)%Z.
Proof.
  intros Fx Fy L. unfold finite, cmag in *. destruct x as [[| | |sx mx ex] Vx], y as [[| | |sy my ey] Vy]; cbn [SF fmag] in *; try lia.
  pose proof (bounded_range _ _ Vx) as [Bx Mx]. pose proof (bounded_range _ _ Vy) as [By My].
  assert (ey <= ex)%Z as Le. { destruct (decide (ey <= ex)%Z) as [|N]; [assumption|]. pose proof (finite_lt_exp mx ex my ey Vx Vy ltac:(lia)). lia. }
  exists (Zpos mx * 2 ^ (ex - ey))%Z, (Zpos my), (ey + 1074)%Z. split_and!; [|reflexivity|lia|lia|lia|].
  - rewrite <- Z.mul_assoc, <- pow2_split by lia. do 2 f_equal. lia.
  - intros Lx. assert (2 ^ (ey + 1074) <= 2 ^ 1074)%Z as P; [|apply Z.pow_le_mono_r_iff in P; lia]. nia.
Qed.

(** The exact sum less one is a double, and at most the product. *)
Lemma mul_above x y : fraction x -> fraction y -> y ⊑ x -> (2 ^ 1074 < cmag x + cmag y)%Z -> (cmag x + cmag y - 2 ^ 1074 <= cmag (x * y))%Z.
Proof.
  intros Fx Fy L S. pose proof (fraction_cmag x Fx) as Bx. pose proof (fraction_cmag y Fy) as By. unfold cle in L.
  destruct (common_grid x y) as (mx & my & e & Ex & Ey & He & Hm & Ho); [apply fraction_finite; assumption..|lia|].
  specialize (Ho ltac:(lia)). rewrite cmag_mul by (apply Fx || apply Fy || apply fraction_finite; assumption).
  assert (2 ^ 1074 = 2 ^ (1074 - e) * 2 ^ e)%Z as Eo by (rewrite <- pow2_split by lia; f_equal; lia).
  pose proof (pow2_pos e He) as Pe. set (d := (mx + my - 2 ^ (1074 - e))%Z).
  assert (cmag x + cmag y - 2 ^ 1074 = d * 2 ^ e)%Z as Ed by (subst d; rewrite Eo, Ex, Ey; ring).
  assert (0 <= d <= my)%Z as Bd by nia.
  assert (d * 2 ^ e <= Rnd 1074 (cmag x * cmag y))%Z as R.
  { replace (d * 2 ^ e)%Z with (Rnd 1074 (d * 2 ^ (e + 1074)))%Z
      by (rewrite Rnd_exact by lia; do 2 f_equal; lia).
    apply Rnd_mono; [lia| |]; rewrite pow2_split by lia; [pose proof (pow2_pos 1074); nia|].
    rewrite Z.mul_assoc, <- Ed. nia. }
  rewrite Ed. unfold sat. pose proof one_lt_HUGE. pose proof (pow2_le 1074 1075). lia.
Qed.

Lemma fraction_sum_cmag x y : fraction x -> fraction y -> cmag (x + y) = Rnd 0 (cmag x + cmag y) /\ (Rnd 0 (cmag x + cmag y) <= 2 ^ 1075)%Z.
Proof.
  intros Fx Fy. pose proof (fraction_cmag x Fx) as Bx. pose proof (fraction_cmag y Fy) as By.
  assert (Rnd 0 (cmag x + cmag y) <= 2 ^ 1075)%Z as R.
  { etransitivity; [apply (Rnd_mono 0 _ (1 * 2 ^ 1075)); lia|]. rewrite Rnd_exact by lia. rewrite Z.sub_0_r. lia. }
  split; [|exact R]. rewrite cmag_add by (apply Fx || apply Fy || apply fraction_isnan; assumption). unfold sat. pose proof one_lt_HUGE. lia.
Qed.

(** [s1 + s2 - s1 * s2]: the chance of either event. *)
Lemma fraction_or x y : fraction x -> fraction y -> fraction (x + y - x * y).
Proof.
  assert (forall x y, fraction x -> fraction y -> y ⊑ x -> fraction (x + y - x * y)) as Or.
  - clear. intros x y Fx Fy L. pose proof (fraction_mul x y Fx Fy) as Fp. pose proof (fraction_cmag x Fx) as Bx. pose proof (fraction_cmag y Fy) as By.
    destruct (fraction_sum_cmag x y Fx Fy) as [Es Ls].
    assert (finite (x + y)) as Fs by (unfold finite; pose proof one_lt_HUGE; lia).
    assert (x * y ⊑ x + y) as Lp.
    { etransitivity; [apply mul_le_factor; try apply Fx; try apply Fy; apply fraction_finite, Fy|]. apply cle_add_r; [apply Fy|apply Fx]. }
    assert (nonneg (x + y) = true) as Hs by (apply nonneg_add; [apply Fx|apply Fy]).
    split; [apply nonneg_sub; [exact Hs|apply Fp|exact Lp]|]. unfold cle in *. rewrite cmag_one, cmag_sub by (assumption || apply Fp).
    apply sat_le, Rnd_one; [lia|]. rewrite Es in *. destruct (Z.le_gt_cases (cmag x + cmag y) (2 ^ 1074)) as [S|S].
    + pose proof (Rnd_mono 0 (cmag x + cmag y) (1 * 2 ^ 1074)) as M. rewrite Rnd_exact in M by lia. rewrite Z.sub_0_r in M.
      pose proof (cmag_range (x * y)). pose proof (pow2_pos 1021). lia.
    + pose proof (mul_above x y Fx Fy L S). pose proof (Rnd_above (cmag x + cmag y)) as A. replace (2 ^ 1075)%Z with (2 * 2 ^ 1074)%Z in A by reflexivity. lia.
  - intros Fx Fy. destruct (Z.le_ge_cases (cmag y) (cmag x)) as [L|L]; [apply Or; assumption|].
    rewrite dadd_comm, dmul_comm. apply Or; assumption.
Qed.

(** ** Ranges *)

(** [hisel + losel - 1 + null_frac] is negative or a fraction, if it is at most one in
    exact arithmetic. *)
Lemma fraction_range hi lo nulls : fraction hi -> fraction lo -> fraction nulls -> (cmag hi + cmag lo + cmag nulls <= 2 ^ 1075)%Z ->
  let s := hi + lo - i2d 1 + nulls in (s <=? i2d 0) = true \/ fraction s.
Proof.
  intros Fh Fl Fn Ex s. pose proof (fraction_cmag hi Fh) as Bh. pose proof (fraction_cmag lo Fl) as Bl. pose proof (fraction_cmag nulls Fn) as Bn.
  destruct (fraction_sum_cmag hi lo Fh Fl) as [Es Ls]. set (t := hi + lo) in *.
  assert (nonneg t = true) as Ht by (apply nonneg_add; [apply Fh|apply Fl]).
  assert (finite t) as Ft by (unfold finite; pose proof one_lt_HUGE; lia).
  assert (nonneg (i2d 1) = true) as H1 by reflexivity. assert (finite (i2d 1)) as F1 by apply fraction_finite, fraction_one.
  destruct (Z.le_gt_cases (2 ^ 1074) (cmag t)) as [G|G].
  - assert (i2d 1 ⊑ t) as Lt by (unfold cle; rewrite cmag_one; exact G).
    assert (cmag (t - i2d 1) = cmag t - 2 ^ 1074)%Z as Ed.
    { rewrite cmag_sub, cmag_one by assumption. destruct (common_grid t (i2d 1)) as (mt & m1 & e & Et & E1 & He & Hm & _); [assumption..|rewrite cmag_one; lia|].
      rewrite cmag_one in E1. pose proof (pow2_pos e He). rewrite E1, Et, <- Z.mul_sub_distr_r.
      rewrite Rnd_exact by nia. rewrite Z.sub_0_r, Z.mul_sub_distr_r, <- Et, <- E1. unfold sat. pose proof one_lt_HUGE. lia. }
    assert (nonneg (t - i2d 1) = true) as Hd by (apply nonneg_sub; assumption).
    right. split; [apply nonneg_add; [exact Hd|apply Fn]|]. unfold cle, s. rewrite cmag_one.
    rewrite cmag_add; [|exact Hd|apply Fn|apply isnan_cmag_false; unfold finite in Ft; lia|apply fraction_isnan, Fn].
    apply sat_le, Rnd_one; [rewrite Ed; lia|]. rewrite Ed, Es.
    replace (2 ^ 1075)%Z with (2 * 2 ^ 1074)%Z in Ex by reflexivity.
    destruct (Z.le_gt_cases (2 ^ 1074) (cmag hi + cmag lo)) as [S|S].
    + pose proof (Rnd_above (cmag hi + cmag lo)) as A. replace (2 ^ 1075)%Z with (2 * 2 ^ 1074)%Z in A by reflexivity. lia.
    + pose proof (Rnd_mono 0 (cmag hi + cmag lo) (1 * 2 ^ 1074)) as M. rewrite Rnd_exact in M by lia. rewrite Z.sub_0_r in M. pose proof (pow2_pos 1021). lia.
  - assert (t - i2d 1 = dneg (i2d 1 - t)) as En by (apply dneg_sub; [exact Ht|exact H1|apply finite_isnan, Ft|apply finite_isnan, F1|rewrite cmag_one; exact G]).
    assert (t ⊑ i2d 1) as Lt by (unfold cle; rewrite cmag_one; lia). assert (fraction t) as Fr by (split; assumption).
    pose proof (fraction_not t Fr) as Fd. unfold s. rewrite En, dadd_comm, <- dsub_dneg. set (d := i2d 1 - t) in *.
    destruct (Z.le_gt_cases (cmag d) (cmag nulls)) as [Ld|Ld].
    + right. split; [apply nonneg_sub; [apply Fn|apply Fd|exact Ld]|]. etransitivity; [|apply Fn]. apply cle_sub; [apply Fn|apply Fd|apply fraction_finite, Fn|exact Ld].
    + left. rewrite dneg_sub by (exact Ld || apply Fn || apply Fd || (apply fraction_isnan; assumption)).
      assert (nonneg (d - nulls) = true) as Hdn by (apply nonneg_sub; [apply Fd|apply Fn|unfold cle; lia]).
      assert (isnan (d - nulls) = false) as Nn.
      { apply finite_isnan. pose proof (cle_sub d nulls (fr_nonneg _ Fd) (fr_nonneg _ Fn) (fraction_finite d Fd) ltac:(unfold cle; lia)) as C.
        pose proof (fraction_finite d Fd). unfold cle, finite in *. lia. }
      rewrite dle_sval by (rewrite ?isnan_dneg; assumption || reflexivity). rewrite sval_dneg by assumption.
      rewrite (sval_nonneg (i2d 0)) by reflexivity. change (cmag (i2d 0)) with 0. pose proof (cmag_range (d - nulls)). apply Z.leb_le. lia.
Qed.
