(* ===== verification/Bitmapset.v ===== *)
(** Model of src/backend/nodes/bitmapset.c: sets of non-negative integers as
    arrays of 32-bit words, a NULL pointer being the empty set. *)
From S2P Require Import Prelude.
Open Scope Z_scope.

Definition BITS_PER_BITMAPWORD : Z := 32.

(** [None] is the NULL pointer; [Some ws] a palloc'd set with
    [nwords = length ws]. *)
Definition Bitmapset : Type := option (list Z).

(** A [bitmapword] is a [uint32]. *)
Definition word_ok (w : Z) : Prop := 0 <= w < 2 ^ 32.
Definition bms_wf (a : Bitmapset) : Prop :=
  match a with None => True | Some ws => Forall word_ok ws end.

Definition WORDNUM (x : Z) : Z := x / BITS_PER_BITMAPWORD.
Definition BITNUM (x : Z) : Z := x mod BITS_PER_BITMAPWORD.

(** The unary [~] and [-] of a 32-bit word. *)
Definition not32 (w : Z) : Z := Z.lxor w (2 ^ 32 - 1).
Definition neg32 (w : Z) : Z := (- w) mod 2 ^ 32.

Definition RIGHTMOST_ONE (x : Z) : Z := Z.land x (neg32 x).
Definition HAS_MULTIPLE_ONES (x : Z) : bool := negb (RIGHTMOST_ONE x =? x).

Inductive BMS_Comparison := BMS_EQUAL | BMS_SUBSET1 | BMS_SUBSET2 | BMS_DIFFERENT.
Inductive BMS_Membership := BMS_EMPTY_SET | BMS_SINGLETON | BMS_MULTIPLE.

#[export] Instance BMS_Comparison_eq_dec : EqDecision BMS_Comparison.
Proof. solve_decision. Defined.

Definition rightmost_one_pos : list Z :=
  [
    0; 0; 1; 0; 2; 0; 1; 0; 3; 0; 1; 0; 2; 0; 1; 0; 4; 0; 1; 0; 2; 0; 1; 0; 3; 0; 1; 0; 2; 0; 1; 0;
    5; 0; 1; 0; 2; 0; 1; 0; 3; 0; 1; 0; 2; 0; 1; 0; 4; 0; 1; 0; 2; 0; 1; 0; 3; 0; 1; 0; 2; 0; 1; 0;
    6; 0; 1; 0; 2; 0; 1; 0; 3; 0; 1; 0; 2; 0; 1; 0; 4; 0; 1; 0; 2; 0; 1; 0; 3; 0; 1; 0; 2; 0; 1; 0;
    5; 0; 1; 0; 2; 0; 1; 0; 3; 0; 1; 0; 2; 0; 1; 0; 4; 0; 1; 0; 2; 0; 1; 0; 3; 0; 1; 0; 2; 0; 1; 0;
    7; 0; 1; 0; 2; 0; 1; 0; 3; 0; 1; 0; 2; 0; 1; 0; 4; 0; 1; 0; 2; 0; 1; 0; 3; 0; 1; 0; 2; 0; 1; 0;
    5; 0; 1; 0; 2; 0; 1; 0; 3; 0; 1; 0; 2; 0; 1; 0; 4; 0; 1; 0; 2; 0; 1; 0; 3; 0; 1; 0; 2; 0; 1; 0;
    6; 0; 1; 0; 2; 0; 1; 0; 3; 0; 1; 0; 2; 0; 1; 0; 4; 0; 1; 0; 2; 0; 1; 0; 3; 0; 1; 0; 2; 0; 1; 0;
    5; 0; 1; 0; 2; 0; 1; 0; 3; 0; 1; 0; 2; 0; 1; 0; 4; 0; 1; 0; 2; 0; 1; 0; 3; 0; 1; 0; 2; 0; 1; 0 ].

Definition number_of_ones : list Z :=
  [
    0; 1; 1; 2; 1; 2; 2; 3; 1; 2; 2; 3; 2; 3; 3; 4; 1; 2; 2; 3; 2; 3; 3; 4; 2; 3; 3; 4; 3; 4; 4; 5;
    1; 2; 2; 3; 2; 3; 3; 4; 2; 3; 3; 4; 3; 4; 4; 5; 2; 3; 3; 4; 3; 4; 4; 5; 3; 4; 4; 5; 4; 5; 5; 6;
    1; 2; 2; 3; 2; 3; 3; 4; 2; 3; 3; 4; 3; 4; 4; 5; 2; 3; 3; 4; 3; 4; 4; 5; 3; 4; 4; 5; 4; 5; 5; 6;
    2; 3; 3; 4; 3; 4; 4; 5; 3; 4; 4; 5; 4; 5; 5; 6; 3; 4; 4; 5; 4; 5; 5; 6; 4; 5; 5; 6; 5; 6; 6; 7;
    1; 2; 2; 3; 2; 3; 3; 4; 2; 3; 3; 4; 3; 4; 4; 5; 2; 3; 3; 4; 3; 4; 4; 5; 3; 4; 4; 5; 4; 5; 5; 6;
    2; 3; 3; 4; 3; 4; 4; 5; 3; 4; 4; 5; 4; 5; 5; 6; 3; 4; 4; 5; 4; 5; 5; 6; 4; 5; 5; 6; 5; 6; 6; 7;
    2; 3; 3; 4; 3; 4; 4; 5; 3; 4; 4; 5; 4; 5; 5; 6; 3; 4; 4; 5; 4; 5; 5; 6; 4; 5; 5; 6; 5; 6; 6; 7;
    3; 4; 4; 5; 4; 5; 5; 6; 4; 5; 5; 6; 5; 6; 6; 7; 4; 5; 5; 6; 5; 6; 6; 7; 5; 6; 6; 7; 6; 7; 7; 8 ].

(** [table[i]] for a byte index. *)
Definition byte_index (table : list Z) (i : Z) : Z := nth (Z.to_nat i) table 0.

(** [while ((w & 255) == 0) { w >>= 8; result += 8; }] followed by the table
    lookup; a non-zero 32-bit word needs at most three iterations. *)
Fixpoint rightmost_bit_from (fuel : nat) (w result : Z) : option Z :=
  match fuel with
  | O => None
  | S fuel =>
      if Z.land w 255 =? 0 then rightmost_bit_from fuel (Z.shiftr w 8) (result + 8)
      else Some (result + byte_index rightmost_one_pos (Z.land w 255))
  end.

(** The fuel [4] is never exhausted on a non-zero word
    ([rightmost_bit_spec]); the default is therefore unreachable there. *)
Definition rightmost_bit (w result : Z) : Z := default (-1) (rightmost_bit_from 4 w result).

(** [while (w != 0) { result += number_of_ones[w & 255]; w >>= 8; }] *)
Fixpoint count_ones_from (fuel : nat) (w result : Z) : option Z :=
  if w =? 0 then Some result
  else match fuel with
       | O => None
       | S fuel => count_ones_from fuel (Z.shiftr w 8)
                     (result + byte_index number_of_ones (Z.land w 255))
       end.

(** The loops over the words common to two sets, then over the rest. *)
Fixpoint words_or (longer shorter : list Z) : list Z :=
  match longer, shorter with
  | w :: longer, v :: shorter => Z.lor w v :: words_or longer shorter
  | _, _ => longer
  end.

Fixpoint words_and (shorter longer : list Z) : list Z :=
  match shorter, longer with
  | w :: shorter, v :: longer => Z.land w v :: words_and shorter longer
  | _, _ => shorter
  end.

Fixpoint words_andnot (a b : list Z) : list Z :=
  match a, b with
  | w :: a, v :: b => Z.land w (not32 v) :: words_andnot a b
  | _, _ => a
  end.

Fixpoint words_equal (shorter longer : list Z) : bool :=
  match shorter, longer with
  | w :: shorter, v :: longer => (w =? v) && words_equal shorter longer
  | [], v :: longer => (v =? 0) && words_equal [] longer
  | _, [] => true
  end.

Fixpoint words_subset (a b : list Z) : bool :=
  match a, b with
  | w :: a, v :: b => (Z.land w (not32 v) =? 0) && words_subset a b
  | w :: a, [] => (w =? 0) && words_subset a []
  | [], _ => true
  end.

Definition bms_copy (a : Bitmapset) : Bitmapset :=
  match a with None => None | Some ws => Some ws end.

Fixpoint words_is_empty (ws : list Z) : bool :=
  match ws with
  | [] => true
  | w :: ws => if negb (w =? 0) then false else words_is_empty ws
  end.

Definition bms_is_empty (a : Bitmapset) : bool :=
  match a with None => true | Some ws => words_is_empty ws end.

Definition bms_equal (a b : Bitmapset) : bool :=
  match a, b with
  | None, None => true
  | None, Some _ => bms_is_empty b
  | Some _, None => bms_is_empty a
  | Some wa, Some wb =>
      if (length wa <=? length wb)%nat then words_equal wa wb else words_equal wb wa
  end.

Definition negative_member {A} : result A := Error "negative bitmapset member not allowed".

Definition bms_make_singleton (x : Z) : result Bitmapset :=
  if x <? 0 then negative_member
  else Ok (Some (<[Z.to_nat (WORDNUM x) := Z.shiftl 1 (BITNUM x)]>
                   (replicate (Z.to_nat (WORDNUM x + 1)) 0))).

Definition bms_union (a b : Bitmapset) : Bitmapset :=
  match a, b with
  | None, _ => bms_copy b
  | _, None => bms_copy a
  | Some wa, Some wb =>
      if (length wa <=? length wb)%nat then Some (words_or wb wa) else Some (words_or wa wb)
  end.

Definition bms_intersect (a b : Bitmapset) : Bitmapset :=
  match a, b with
  | None, _ | _, None => None
  | Some wa, Some wb =>
      if (length wa <=? length wb)%nat then Some (words_and wa wb) else Some (words_and wb wa)
  end.

Definition bms_difference (a b : Bitmapset) : Bitmapset :=
  match a, b with
  | None, _ => None
  | _, None => bms_copy a
  | Some wa, Some wb => Some (words_andnot wa wb)
  end.

Definition bms_is_subset (a b : Bitmapset) : bool :=
  match a, b with
  | None, _ => true
  | _, None => bms_is_empty a
  | Some wa, Some wb => words_subset wa wb
  end.

(** The status automaton of [bms_subset_compare]: [None] is the early
    [return BMS_DIFFERENT]. *)
Definition cmp_not_subset_a (r : BMS_Comparison) : option BMS_Comparison :=
  match r with BMS_SUBSET1 => None | _ => Some BMS_SUBSET2 end.
Definition cmp_not_subset_b (r : BMS_Comparison) : option BMS_Comparison :=
  match r with BMS_SUBSET2 => None | _ => Some BMS_SUBSET1 end.

Fixpoint words_subset_compare (a b : list Z) (r : BMS_Comparison) : BMS_Comparison :=
  match a, b with
  | aword :: a, bword :: b =>
      match (if negb (Z.land aword (not32 bword) =? 0) then cmp_not_subset_a r else Some r) with
      | None => BMS_DIFFERENT
      | Some r =>
          match (if negb (Z.land bword (not32 aword) =? 0) then cmp_not_subset_b r else Some r) with
          | None => BMS_DIFFERENT
          | Some r => words_subset_compare a b r
          end
      end
  | aword :: a, [] =>
      match (if negb (aword =? 0) then cmp_not_subset_a r else Some r) with
      | None => BMS_DIFFERENT
      | Some r => words_subset_compare a [] r
      end
  | [], _ =>
      (fix extra (b : list Z) (r : BMS_Comparison) : BMS_Comparison :=
         match b with
         | [] => r
         | bword :: b =>
             match (if negb (bword =? 0) then cmp_not_subset_b r else Some r) with
             | None => BMS_DIFFERENT
             | Some r => extra b r
             end
         end) b r
  end.

Definition bms_subset_compare (a b : Bitmapset) : BMS_Comparison :=
  match a, b with
  | None, None => BMS_EQUAL
  | None, Some _ => if bms_is_empty b then BMS_EQUAL else BMS_SUBSET1
  | Some _, None => if bms_is_empty a then BMS_EQUAL else BMS_SUBSET2
  | Some wa, Some wb => words_subset_compare wa wb BMS_EQUAL
  end.

Definition bms_is_member (x : Z) (a : Bitmapset) : result bool :=
  if x <? 0 then negative_member
  else match a with
       | None => Ok false
       | Some ws =>
           match ws !! Z.to_nat (WORDNUM x) with
           | None => Ok false
           | Some w => Ok (negb (Z.land w (Z.shiftl 1 (BITNUM x)) =? 0))
           end
       end.

Fixpoint words_overlap (a b : list Z) : bool :=
  match a, b with
  | w :: a, v :: b => if negb (Z.land w v =? 0) then true else words_overlap a b
  | _, _ => false
  end.

Definition bms_overlap (a b : Bitmapset) : bool :=
  match a, b with
  | None, _ | _, None => false
  | Some wa, Some wb => words_overlap wa wb
  end.

(** [foreach(lc, b)] with [b] an integer list. *)
Fixpoint bms_overlap_list_loop (ws : list Z) (b : list Z) : result bool :=
  match b with
  | [] => Ok false
  | x :: b =>
      if x <? 0 then negative_member
      else match ws !! Z.to_nat (WORDNUM x) with
           | Some w =>
               if negb (Z.land w (Z.shiftl 1 (BITNUM x)) =? 0) then Ok true
               else bms_overlap_list_loop ws b
           | None => bms_overlap_list_loop ws b
           end
  end.

Definition bms_overlap_list (a : Bitmapset) (b : list Z) : result bool :=
  match a, b with
  | None, _ | _, [] => Ok false
  | Some ws, _ => bms_overlap_list_loop ws b
  end.

Fixpoint words_nonempty_difference (a b : list Z) : bool :=
  match a, b with
  | w :: a, v :: b =>
      if negb (Z.land w (not32 v) =? 0) then true else words_nonempty_difference a b
  | w :: a, [] => if negb (w =? 0) then true else words_nonempty_difference a []
  | [], _ => false
  end.

Definition bms_nonempty_difference (a b : Bitmapset) : bool :=
  match a, b with
  | None, _ => false
  | _, None => negb (bms_is_empty a)
  | Some wa, Some wb => words_nonempty_difference wa wb
  end.

(** The common loop of [bms_singleton_member] and [bms_get_singleton_member]:
    [None] is "multiple members", otherwise the final [result]. *)
Fixpoint singleton_loop (ws : list Z) (wordnum result : Z) : option Z :=
  match ws with
  | [] => Some result
  | w :: ws =>
      if negb (w =? 0) then
        if (result >=? 0) || HAS_MULTIPLE_ONES w then None
        else singleton_loop ws (wordnum + 1) (rightmost_bit w (wordnum * BITS_PER_BITMAPWORD))
      else singleton_loop ws (wordnum + 1) result
  end.

Definition bms_singleton_member (a : Bitmapset) : result Z :=
  match a with
  | None => Error "bitmapset is empty"
  | Some ws =>
      match singleton_loop ws 0 (-1) with
      | None => Error "bitmapset has multiple members"
      | Some r => if r <? 0 then Error "bitmapset is empty" else Ok r
      end
  end.

(** The out parameter is the returned option: [None] leaves it unchanged. *)
Definition bms_get_singleton_member (a : Bitmapset) : option Z :=
  match a with
  | None => None
  | Some ws =>
      match singleton_loop ws 0 (-1) with
      | None => None
      | Some r => if r <? 0 then None else Some r
      end
  end.

Fixpoint num_members_loop (ws : list Z) (result : Z) : Z :=
  match ws with
  | [] => result
  | w :: ws => num_members_loop ws (default 0 (count_ones_from 4 w result))
  end.

Definition bms_num_members (a : Bitmapset) : Z :=
  match a with None => 0 | Some ws => num_members_loop ws 0 end.

Fixpoint membership_loop (ws : list Z) (result : BMS_Membership) : BMS_Membership :=
  match ws with
  | [] => result
  | w :: ws =>
      if negb (w =? 0) then
        match result with
        | BMS_EMPTY_SET =>
            if HAS_MULTIPLE_ONES w then BMS_MULTIPLE else membership_loop ws BMS_SINGLETON
        | _ => BMS_MULTIPLE
        end
      else membership_loop ws result
  end.

Definition bms_membership (a : Bitmapset) : BMS_Membership :=
  match a with None => BMS_EMPTY_SET | Some ws => membership_loop ws BMS_EMPTY_SET end.

Definition bms_add_member (a : Bitmapset) (x : Z) : result Bitmapset :=
  if x <? 0 then negative_member
  else match a with
       | None => bms_make_singleton x
       | Some ws =>
           let wordnum := Z.to_nat (WORDNUM x) in
           let ws := if (length ws <=? wordnum)%nat
                     then ws ++ replicate (wordnum + 1 - length ws) 0 else ws in
           Ok (Some (alter (fun w => Z.lor w (Z.shiftl 1 (BITNUM x))) wordnum ws))
       end.

Definition bms_del_member (a : Bitmapset) (x : Z) : result Bitmapset :=
  if x <? 0 then negative_member
  else match a with
       | None => Ok None
       | Some ws =>
           Ok (Some (alter (fun w => Z.land w (not32 (Z.shiftl 1 (BITNUM x))))
                       (Z.to_nat (WORDNUM x)) ws))
       end.

Definition bms_add_members (a b : Bitmapset) : Bitmapset :=
  match a, b with
  | None, _ => bms_copy b
  | _, None => a
  | Some wa, Some wb =>
      if (length wa <? length wb)%nat then Some (words_or wb wa) else Some (words_or wa wb)
  end.

Fixpoint words_int (a b : list Z) : list Z :=
  match a, b with
  | w :: a, v :: b => Z.land w v :: words_int a b
  | _ :: a, [] => 0 :: words_int a []
  | [], _ => []
  end.

Definition bms_int_members (a b : Bitmapset) : Bitmapset :=
  match a, b with
  | None, _ | _, None => None
  | Some wa, Some wb => Some (words_int wa wb)
  end.

Definition bms_del_members (a b : Bitmapset) : Bitmapset :=
  match a, b with
  | None, _ => None
  | _, None => a
  | Some wa, Some wb => Some (words_andnot wa wb)
  end.

Definition bms_join (a b : Bitmapset) : Bitmapset :=
  match a, b with
  | None, _ => b
  | _, None => a
  | Some wa, Some wb =>
      if (length wa <? length wb)%nat then Some (words_or wb wa) else Some (words_or wa wb)
  end.

(** [bms_first_member] removes the member it returns from the set. *)
Fixpoint first_member_loop (ws : list Z) (wordnum : Z) : Z * list Z :=
  match ws with
  | [] => (-1, [])
  | w :: ws =>
      if negb (w =? 0) then
        let w1 := RIGHTMOST_ONE w in
        (rightmost_bit w1 (wordnum * BITS_PER_BITMAPWORD), Z.land w (not32 w1) :: ws)
      else let '(r, ws) := first_member_loop ws (wordnum + 1) in (r, w :: ws)
  end.

Definition bms_first_member (a : Bitmapset) : Z * Bitmapset :=
  match a with
  | None => (-1, None)
  | Some ws => let '(r, ws) := first_member_loop ws 0 in (r, Some ws)
  end.

(** The loop of [bms_next_member] from word [wordnum] on. *)
Fixpoint next_member_loop (ws : list Z) (wordnum mask : Z) : Z :=
  match ws with
  | [] => -2
  | w :: ws =>
      let w := Z.land w mask in
      if negb (w =? 0) then rightmost_bit w (wordnum * BITS_PER_BITMAPWORD)
      else next_member_loop ws (wordnum + 1) (2 ^ 32 - 1)
  end.

Definition bms_next_member (a : Bitmapset) (prevbit : Z) : Z :=
  match a with
  | None => -2
  | Some ws =>
      let prevbit := prevbit + 1 in
      let mask := Z.shiftl (2 ^ 32 - 1) (BITNUM prevbit) mod 2 ^ 32 in
      next_member_loop (drop (Z.to_nat (WORDNUM prevbit)) ws) (WORDNUM prevbit) mask
  end.

(** ** The abstract set *)

(** A bitmapset denotes the integer whose bit [i] tells whether [i] is a
    member; the set operations become the bitwise operations of [Z]. *)
Definition cat (w v : Z) : Z := Z.lor w (Z.shiftl v 32).

Fixpoint words_val (ws : list Z) : Z :=
  match ws with [] => 0 | w :: ws => cat w (words_val ws) end.

Definition bms_val (a : Bitmapset) : Z :=
  match a with None => 0 | Some ws => words_val ws end.

(** [x] is a member of the set [a]. *)
Definition member (x : Z) (a : Bitmapset) : Prop := 0 <= x /\ Z.testbit (bms_val a) x = true.

Create HintDb bms.

Lemma cat_testbit w v i : word_ok w -> 0 <= i ->
  Z.testbit (cat w v) i = if i <? 32 then Z.testbit w i else Z.testbit v (i - 32).
Proof.
  intros Hw Hi. unfold cat. rewrite Z.lor_spec, Z.shiftl_spec by lia.
  destruct (Z.ltb_spec i 32).
  - rewrite (Z.testbit_neg_r v) by lia. apply orb_false_r.
  - rewrite (testbit_small w i 32) by (assumption || lia). reflexivity.
Qed.

Lemma land_word w v : word_ok w -> word_ok v -> word_ok (Z.land w v).
Proof.
  intros [Hw Hw'] [Hv Hv']. split; [apply Z.land_nonneg; lia|].
  apply bits_range; [lia|apply Z.land_nonneg; lia|]. intros i Hi.
  rewrite Z.land_spec, (testbit_small w i 32) by lia. reflexivity.
Qed.

Lemma lor_word w v : word_ok w -> word_ok v -> word_ok (Z.lor w v).
Proof.
  intros [Hw Hw'] [Hv Hv']. split; [apply Z.lor_nonneg; lia|].
  apply bits_range; [lia|apply Z.lor_nonneg; lia|]. intros i Hi.
  rewrite Z.lor_spec, (testbit_small w i 32), (testbit_small v i 32) by lia. reflexivity.
Qed.

Lemma ldiff_word w v : word_ok w -> 0 <= v -> word_ok (Z.ldiff w v).
Proof.
  intros [Hw Hw'] Hv. split; [apply Z.ldiff_nonneg; lia|].
  apply bits_range; [lia|apply Z.ldiff_nonneg; lia|]. intros i Hi.
  rewrite Z.ldiff_spec, (testbit_small w i 32) by lia. reflexivity.
Qed.

(** [a & ~b] on words. *)
Lemma land_not32 w v : word_ok w -> Z.land w (not32 v) = Z.ldiff w v.
Proof.
  intros Hw. apply Z.bits_inj'. intros i Hi. unfold not32.
  rewrite Z.land_spec, Z.lxor_spec, Z.ldiff_spec.
  change (2 ^ 32 - 1) with (Z.ones 32). destruct (decide (i < 32)).
  - rewrite Z.ones_spec_low by lia. rewrite xorb_true_r. reflexivity.
  - rewrite (testbit_small w i 32) by (assumption || lia). reflexivity.
Qed.

Lemma zero_word : word_ok 0.
Proof. unfold word_ok. lia. Qed.

#[export] Hint Resolve land_word lor_word zero_word : bms.

Ltac bits_cases := let i := fresh "i" in let Hi := fresh "Hi" in
  apply Z.bits_inj'; intros i Hi;
  rewrite ?Z.land_spec, ?Z.lor_spec, ?Z.ldiff_spec, ?cat_testbit, ?Z.land_spec, ?Z.lor_spec, ?Z.ldiff_spec
    by (auto with bms; lia); destruct (Z.ltb_spec i 32); rewrite ?Z.land_spec, ?Z.lor_spec, ?Z.ldiff_spec; reflexivity.

Lemma cat_land w v x y : word_ok w -> word_ok v ->
  Z.land (cat w x) (cat v y) = cat (Z.land w v) (Z.land x y).
Proof. intros. bits_cases. Qed.

Lemma cat_lor w v x y : word_ok w -> word_ok v ->
  Z.lor (cat w x) (cat v y) = cat (Z.lor w v) (Z.lor x y).
Proof. intros. bits_cases. Qed.

Lemma cat_ldiff w v x y : word_ok w -> word_ok v ->
  Z.ldiff (cat w x) (cat v y) = cat (Z.ldiff w v) (Z.ldiff x y).
Proof.
  intros Hw Hv. pose proof (ldiff_word w v Hw ltac:(destruct Hv; lia)). bits_cases.
Qed.

Lemma cat_inj w v x y : word_ok w -> word_ok v -> cat w x = cat v y -> w = v /\ x = y.
Proof.
  intros Hw Hv E. split; apply Z.bits_inj'; intros i Hi.
  - destruct (decide (i < 32)).
    + apply (f_equal (fun z => Z.testbit z i)) in E. rewrite !cat_testbit in E by auto.
      rewrite (proj2 (Z.ltb_lt i 32)) in E by lia. exact E.
    + rewrite (testbit_small w i 32), (testbit_small v i 32) by (assumption || lia). reflexivity.
  - apply (f_equal (fun z => Z.testbit z (i + 32))) in E. rewrite !cat_testbit in E by (auto; lia).
    rewrite (proj2 (Z.ltb_ge (i + 32) 32)) in E by lia.
    replace (i + 32 - 32) with i in E by lia. exact E.
Qed.

Lemma cat_0 : cat 0 0 = 0.
Proof. reflexivity. Qed.

Lemma cat_eq_0 w x : word_ok w -> cat w x = 0 <-> w = 0 /\ x = 0.
Proof.
  intros Hw. rewrite <- cat_0 at 1. split.
  - intros E. apply cat_inj in E; auto with bms.
  - intros [-> ->]. reflexivity.
Qed.

Lemma words_val_nonneg ws : Forall word_ok ws -> 0 <= words_val ws.
Proof.
  induction 1 as [|w ws [Hw _] _ IH]; simpl; [lia|]. unfold cat.
  apply Z.lor_nonneg. split; [lia|]. apply Z.shiftl_nonneg. lia.
Qed.

Lemma words_is_empty_spec ws : Forall word_ok ws -> words_is_empty ws = (words_val ws =? 0).
Proof.
  induction 1 as [|w ws Hw _ IH]; simpl; [reflexivity|].
  apply eq_true_iff_eq. rewrite Z.eqb_eq, (cat_eq_0 _ _ Hw).
  destruct (Z.eqb_spec w 0); simpl; [rewrite IH, Z.eqb_eq; tauto|]. split; [done|tauto].
Qed.

Lemma bms_is_empty_spec a : bms_wf a -> bms_is_empty a = (bms_val a =? 0).
Proof. destruct a; [apply words_is_empty_spec|reflexivity]. Qed.

(** ** The word loops compute the bitwise operations *)

Lemma words_or_spec a b : Forall word_ok a -> Forall word_ok b -> (length b <= length a)%nat ->
  Forall word_ok (words_or a b) /\ words_val (words_or a b) = Z.lor (words_val a) (words_val b).
Proof.
  intros Ha. revert b. induction Ha as [|w a Hw Ha IH]; intros [|v b] Hb L; simpl in *; try lia.
  - auto.
  - rewrite Z.lor_0_r. auto.
  - apply Forall_cons in Hb as [Hv Hb]. destruct (IH b Hb ltac:(lia)) as [H1 H2].
    rewrite H2, cat_lor by assumption. split; [|reflexivity]. constructor; auto with bms.
Qed.

Lemma words_and_spec a b : Forall word_ok a -> Forall word_ok b -> (length a <= length b)%nat ->
  Forall word_ok (words_and a b) /\ words_val (words_and a b) = Z.land (words_val a) (words_val b).
Proof.
  intros Ha. revert b. induction Ha as [|w a Hw Ha IH]; intros [|v b] Hb L; simpl in *; try lia.
  - auto.
  - rewrite Z.land_0_l. auto.
  - apply Forall_cons in Hb as [Hv Hb]. destruct (IH b Hb ltac:(lia)) as [H1 H2].
    rewrite H2, cat_land by assumption. split; [|reflexivity]. constructor; auto with bms.
Qed.

Lemma words_int_spec a b : Forall word_ok a -> Forall word_ok b ->
  Forall word_ok (words_int a b) /\ words_val (words_int a b) = Z.land (words_val a) (words_val b).
Proof.
  intros Ha. revert b. induction Ha as [|w a Hw Ha IH]; intros b Hb; simpl.
  - destruct b; rewrite ?Z.land_0_l; auto.
  - destruct Hb as [|v b Hv Hb]; simpl.
    + destruct (IH [] ltac:(constructor)) as [H1 H2]. rewrite H2. simpl.
      rewrite !Z.land_0_r. split; [|reflexivity]. constructor; auto with bms.
    + destruct (IH b Hb) as [H1 H2]. rewrite H2, cat_land by assumption.
      split; [|reflexivity]. constructor; auto with bms.
Qed.

Lemma words_andnot_spec a b : Forall word_ok a -> Forall word_ok b ->
  Forall word_ok (words_andnot a b) /\
  words_val (words_andnot a b) = Z.ldiff (words_val a) (words_val b).
Proof.
  intros Ha. revert b. induction Ha as [|w a Hw Ha IH]; intros b Hb; simpl.
  - destruct b; rewrite ?Z.ldiff_0_l; auto.
  - destruct Hb as [|v b Hv Hb]; simpl.
    + rewrite Z.ldiff_0_r. auto.
    + destruct (IH b Hb) as [H1 H2]. rewrite H2, land_not32, cat_ldiff by assumption.
      split; [|reflexivity]. constructor; [apply ldiff_word; [assumption|destruct Hv; lia]|assumption].
Qed.

Lemma words_subset_spec a b : Forall word_ok a -> Forall word_ok b ->
  words_subset a b = (Z.ldiff (words_val a) (words_val b) =? 0).
Proof.
  intros Ha. revert b. induction Ha as [|w a Hw Ha IH]; intros b Hb; simpl.
  - rewrite ?Z.ldiff_0_l. reflexivity.
  - destruct Hb as [|v b Hv Hb]; simpl; apply eq_true_iff_eq.
    + rewrite andb_true_iff, IH, !Z.eqb_eq by constructor. simpl.
      rewrite !Z.ldiff_0_r, (cat_eq_0 _ _ Hw). reflexivity.
    + rewrite andb_true_iff, IH, !Z.eqb_eq, land_not32, cat_ldiff by assumption.
      rewrite cat_eq_0 by (apply ldiff_word; [assumption|destruct Hv; lia]). reflexivity.
Qed.

Lemma words_nonempty_difference_spec a b :
  words_nonempty_difference a b = negb (words_subset a b).
Proof.
  revert b. induction a as [|w a IH]; intros [|v b]; simpl; try reflexivity;
    rewrite IH, negb_andb; case_match; reflexivity.
Qed.

Lemma words_equal_spec a b : Forall word_ok a -> Forall word_ok b -> (length a <= length b)%nat ->
  words_equal a b = (words_val a =? words_val b).
Proof.
  intros Ha Hb. revert a Ha. induction Hb as [|v b Hv Hb IH]; intros a Ha L.
  - destruct Ha; simpl in *; [reflexivity|lia].
  - apply eq_true_iff_eq. rewrite Z.eqb_eq. destruct Ha as [|w a Hw Ha]; simpl in *.
    + rewrite andb_true_iff, IH, !Z.eqb_eq by (constructor || simpl; lia). simpl.
      rewrite (Z.eq_sym_iff 0 (cat v (words_val b))), (cat_eq_0 _ _ Hv).
      rewrite (Z.eq_sym_iff 0 (words_val b)). reflexivity.
    + rewrite andb_true_iff, IH, !Z.eqb_eq by (assumption || lia). split.
      * intros [-> ->]. reflexivity.
      * apply cat_inj; assumption.
Qed.

Lemma words_overlap_spec a b : Forall word_ok a -> Forall word_ok b ->
  words_overlap a b = negb (Z.land (words_val a) (words_val b) =? 0).
Proof.
  intros Ha. revert b. induction Ha as [|w a Hw Ha IH]; intros b Hb; simpl.
  - rewrite ?Z.land_0_l. reflexivity.
  - destruct Hb as [|v b Hv Hb]; simpl; [rewrite Z.land_0_r; reflexivity|].
    rewrite cat_land, IH by assumption.
    assert (word_ok (Z.land w v)) as Hl by auto with bms.
    pose proof (cat_eq_0 _ (Z.land (words_val a) (words_val b)) Hl).
    destruct (Z.eqb_spec (Z.land w v) 0), (Z.eqb_spec (Z.land (words_val a) (words_val b)) 0);
      simpl; symmetry; rewrite ?negb_true_iff, ?negb_false_iff, ?Z.eqb_eq, ?Z.eqb_neq; tauto.
Qed.

(** Both inclusion tests of [words_subset_compare], from a status [r]. *)
Definition cmp_combine (r : BMS_Comparison) (a_sub_b b_sub_a : bool) : BMS_Comparison :=
  match r, a_sub_b, b_sub_a with
  | BMS_DIFFERENT, _, _ => BMS_DIFFERENT
  | r, true, true => r
  | (BMS_EQUAL | BMS_SUBSET1), true, false => BMS_SUBSET1
  | (BMS_EQUAL | BMS_SUBSET2), false, true => BMS_SUBSET2
  | _, _, _ => BMS_DIFFERENT
  end.

Lemma words_subset_compare_spec a b r :
  r <> BMS_DIFFERENT ->
  words_subset_compare a b r = cmp_combine r (words_subset a b) (words_subset b a).
Proof.
  revert b r. induction a as [|w a IH].
  - intros b. simpl. induction b as [|v b IH]; intros r Hr; simpl; [destruct r; done|].
    destruct (v =? 0); simpl; [apply IH, Hr|].
    destruct r; simpl; try rewrite IH by done; try reflexivity; try done;
      destruct (words_subset b []); reflexivity.
  - intros [|v b] r Hr; simpl.
    + destruct (w =? 0); simpl; [rewrite IH by done; simpl; destruct (words_subset a []), r; done|].
      destruct r; simpl; try rewrite IH by done; simpl; try done;
        destruct (words_subset a []); reflexivity.
    + destruct (Z.land w (not32 v) =? 0), (Z.land v (not32 w) =? 0), r; simpl;
        try rewrite IH by done; simpl; try done;
        destruct (words_subset a b), (words_subset b a); reflexivity.
Qed.

(** ** Lowest set bit *)

Definition lowbit (w k : Z) : Prop :=
  0 <= k /\ Z.testbit w k = true /\ forall i, 0 <= i < k -> Z.testbit w i = false.

Definition lowbit_b (w k : Z) : bool :=
  (0 <=? k) && Z.testbit w k && forallb (fun i => negb (Z.testbit w (Z.of_nat i))) (seq 0 (Z.to_nat k)).

Lemma lowbit_b_sound w k : lowbit_b w k = true -> lowbit w k.
Proof.
  unfold lowbit_b. rewrite !andb_true_iff, Z.leb_le, forallb_forall.
  intros [[Hk Hb] Hall]. repeat split; auto. intros i Hi.
  specialize (Hall (Z.to_nat i)). rewrite Z2Nat.id, negb_true_iff in Hall by lia.
  apply Hall. apply in_seq. lia.
Qed.

Lemma lowbit_unique w k k' : lowbit w k -> lowbit w k' -> k = k'.
Proof.
  intros (? & H1 & H2) (? & H3 & H4).
  destruct (Z.lt_trichotomy k k') as [|[|]]; [|assumption|].
  - rewrite H4 in H1 by lia. done.
  - rewrite H2 in H3 by lia. done.
Qed.

(** Every entry of the two lookup tables is right. *)
Lemma rightmost_one_pos_ok b : 0 < b < 256 -> lowbit b (byte_index rightmost_one_pos b).
Proof.
  intros Hb. apply lowbit_b_sound.
  assert (forallb (fun n => lowbit_b (Z.of_nat n) (byte_index rightmost_one_pos (Z.of_nat n)))
            (seq 1 255) = true) as H by (vm_compute; reflexivity).
  rewrite forallb_forall in H. specialize (H (Z.to_nat b)). rewrite Z2Nat.id in H by lia.
  apply H, in_seq. lia.
Qed.

Lemma land_255_testbit w i : 0 <= i -> Z.testbit (Z.land w 255) i = (i <? 8) && Z.testbit w i.
Proof.
  intros Hi. rewrite Z.land_spec. change 255 with (Z.ones 8). destruct (Z.ltb_spec i 8).
  - rewrite Z.ones_spec_low by lia. apply andb_true_r.
  - rewrite Z.ones_spec_high by lia. apply andb_false_r.
Qed.

Lemma land_255_range w : 0 <= w -> 0 <= Z.land w 255 < 256.
Proof.
  intros. change 255 with (Z.ones 8). rewrite Z.land_ones by lia.
  apply Z.mod_pos_bound. lia.
Qed.

Lemma shiftr_8_eq_0 w : Z.land w 255 = 0 -> Z.shiftr w 8 = 0 -> w = 0.
Proof.
  intros H1 H2. apply Z.bits_inj'. intros i Hi. rewrite Z.bits_0.
  destruct (decide (i < 8)).
  - apply (f_equal (fun z => Z.testbit z i)) in H1. rewrite land_255_testbit, Z.bits_0 in H1 by lia.
    rewrite (proj2 (Z.ltb_lt i 8)) in H1 by lia. exact H1.
  - apply (f_equal (fun z => Z.testbit z (i - 8))) in H2.
    rewrite Z.shiftr_spec, Z.bits_0 in H2 by lia. replace (i - 8 + 8) with i in H2 by lia. exact H2.
Qed.

Lemma rightmost_bit_from_spec n w r :
  0 < w < 2 ^ (8 * Z.of_nat n) ->
  exists k, rightmost_bit_from n w r = Some (r + k) /\ lowbit w k.
Proof.
  revert w r. induction n as [|n IH]; intros w r Hw; [simpl in Hw; lia|]. simpl rightmost_bit_from.
  destruct (Z.eqb_spec (Z.land w 255) 0) as [E|E].
  - destruct (IH (Z.shiftr w 8) (r + 8)) as (k & Hk & H0 & H1 & H2).
    + split.
      * assert (0 <= Z.shiftr w 8) by (apply Z.shiftr_nonneg; lia).
        destruct (decide (Z.shiftr w 8 = 0)) as [E0|]; [|lia].
        pose proof (shiftr_8_eq_0 w E E0). lia.
      * rewrite Z.shiftr_div_pow2 by lia. apply Z.div_lt_upper_bound; [lia|].
        rewrite <- pow2_split by lia. replace (8 + 8 * Z.of_nat n) with (8 * Z.of_nat (S n)) by lia.
        lia.
    + exists (k + 8). split; [rewrite Hk; f_equal; lia|]. split; [lia|]. split.
      * rewrite Z.shiftr_spec in H1 by lia. exact H1.
      * intros i Hi. destruct (decide (i < 8)).
        -- apply (f_equal (fun z => Z.testbit z i)) in E.
           rewrite land_255_testbit, Z.bits_0, (proj2 (Z.ltb_lt i 8)) in E by lia. exact E.
        -- specialize (H2 (i - 8) ltac:(lia)). rewrite Z.shiftr_spec in H2 by lia.
           replace (i - 8 + 8) with i in H2 by lia. exact H2.
  - pose proof (land_255_range w ltac:(lia)).
    destruct (rightmost_one_pos_ok (Z.land w 255) ltac:(lia)) as (H1 & H2 & H3).
    eexists. split; [reflexivity|].
    rewrite land_255_testbit, andb_true_iff, Z.ltb_lt in H2 by lia. destruct H2 as [Hlt H2].
    split; [lia|]. split; [exact H2|].
    intros i Hi. specialize (H3 i Hi). rewrite land_255_testbit in H3 by lia.
    rewrite (proj2 (Z.ltb_lt i 8)) in H3 by lia. exact H3.
Qed.

Lemma rightmost_bit_spec w r : word_ok w -> w <> 0 ->
  exists k, rightmost_bit w r = r + k /\ lowbit w k /\ k < 32.
Proof.
  intros Hw Hn. destruct Hw. destruct (rightmost_bit_from_spec 4 w r) as (k & Hk & Hl); [simpl; lia|].
  exists k. unfold rightmost_bit. rewrite Hk. split; [reflexivity|]. split; [exact Hl|].
  destruct (decide (k < 32)); [assumption|]. destruct Hl as (_ & Hl & _).
  rewrite (testbit_small w k 32) in Hl by lia. done.
Qed.

(** [x & -x] isolates the lowest set bit. *)
Lemma RIGHTMOST_ONE_spec w k : word_ok w -> lowbit w k -> RIGHTMOST_ONE w = 2 ^ k.
Proof.
  intros Hw (Hk & Hb & Hlow). unfold RIGHTMOST_ONE, neg32.
  assert (k < 32) as Hk32.
  { destruct (decide (k < 32)); [assumption|]. rewrite (testbit_small w k 32) in Hb by (assumption || lia). done. }
  assert (w mod 2 ^ (k + 1) = 2 ^ k) as Hm.
  { apply Z.bits_inj'. intros i Hi. rewrite Z.pow2_bits_eqb by lia. destruct (decide (i < k + 1)).
    - rewrite Z.mod_pow2_bits_low by lia. destruct (Z.eqb_spec k i) as [<-|]; [assumption|].
      apply Hlow. lia.
    - rewrite Z.mod_pow2_bits_high by lia. destruct (Z.eqb_spec k i); [lia|reflexivity]. }
  set (P := 2 ^ (k + 1)) in *. assert (P = 2 * 2 ^ k) as HP by (unfold P; rewrite Z.pow_add_r by lia; lia).
  assert (0 < 2 ^ k) by (apply pow2_pos; lia).
  pose proof (Z.div_mod w P ltac:(lia)) as Hd. rewrite Hm in Hd.
  assert ((w - 1) / P = w / P /\ (w - 1) mod P = 2 ^ k - 1) as [Hq Hr].
  { split; symmetry; [apply (Z.div_unique _ _ _ (2 ^ k - 1))|apply (Z.mod_unique _ _ (w / P))]; lia. }
  apply Z.bits_inj'. intros i Hi. rewrite Z.land_spec, Z.pow2_bits_eqb by lia.
  destruct (decide (i < 32)).
  - rewrite Z.mod_pow2_bits_low by lia.
    replace (- w) with (Z.lnot (w - 1)) by (rewrite <- Z.opp_lnot; unfold Z.lnot; lia).
    rewrite Z.lnot_spec by lia. destruct (decide (i < k + 1)).
    + assert (Z.testbit (w - 1) i = (i <? k)) as ->.
      { rewrite <- (Z.mod_pow2_bits_low (w - 1) (k + 1)) by lia. fold P. rewrite Hr.
        rewrite <- Z.ones_equiv || replace (2 ^ k - 1) with (Z.ones k) by (rewrite Z.ones_equiv; lia).
        destruct (Z.ltb_spec i k); [apply Z.ones_spec_low|apply Z.ones_spec_high]; lia. }
      destruct (Z.eqb_spec k i) as [<-|].
      * rewrite Hb, Z.ltb_irrefl. reflexivity.
      * rewrite Hlow by lia. reflexivity.
    + assert (Z.testbit (w - 1) i = Z.testbit w i) as ->.
      { replace i with (i - (k + 1) + (k + 1)) by lia. rewrite <- !Z.div_pow2_bits by lia.
        fold P. rewrite Hq. reflexivity. }
      destruct (Z.eqb_spec k i); [lia|]. destruct (Z.testbit w i); reflexivity.
  - rewrite (testbit_small w i 32) by (assumption || lia).
    destruct (Z.eqb_spec k i); [lia|reflexivity].
Qed.

(** ** Set operations *)

Lemma bms_union_spec a b : bms_wf a -> bms_wf b ->
  bms_wf (bms_union a b) /\ bms_val (bms_union a b) = Z.lor (bms_val a) (bms_val b).
Proof.
  intros Ha Hb. destruct a as [a|], b as [b|]; simpl in *; rewrite ?Z.lor_0_r; auto.
  destruct (Nat.leb_spec (length a) (length b)).
  - rewrite Z.lor_comm. apply words_or_spec; assumption.
  - apply words_or_spec; auto with lia.
Qed.

Lemma bms_intersect_spec a b : bms_wf a -> bms_wf b ->
  bms_wf (bms_intersect a b) /\ bms_val (bms_intersect a b) = Z.land (bms_val a) (bms_val b).
Proof.
  intros Ha Hb. destruct a as [a|], b as [b|]; simpl in *; rewrite ?Z.land_0_r; auto.
  destruct (Nat.leb_spec (length a) (length b)).
  - apply words_and_spec; assumption.
  - rewrite Z.land_comm. apply words_and_spec; auto with lia.
Qed.

Lemma bms_difference_spec a b : bms_wf a -> bms_wf b ->
  bms_wf (bms_difference a b) /\ bms_val (bms_difference a b) = Z.ldiff (bms_val a) (bms_val b).
Proof.
  intros Ha Hb. destruct a as [a|], b as [b|]; simpl in *; rewrite ?Z.ldiff_0_r, ?Z.ldiff_0_l; auto.
  apply words_andnot_spec; assumption.
Qed.

Lemma bms_add_members_spec a b : bms_wf a -> bms_wf b ->
  bms_wf (bms_add_members a b) /\ bms_val (bms_add_members a b) = Z.lor (bms_val a) (bms_val b).
Proof.
  intros Ha Hb. destruct a as [a|], b as [b|]; simpl in *; rewrite ?Z.lor_0_r; auto.
  destruct (Nat.ltb_spec (length a) (length b)).
  - rewrite Z.lor_comm. apply words_or_spec; auto with lia.
  - apply words_or_spec; assumption.
Qed.

Lemma bms_int_members_spec a b : bms_wf a -> bms_wf b ->
  bms_wf (bms_int_members a b) /\ bms_val (bms_int_members a b) = Z.land (bms_val a) (bms_val b).
Proof.
  intros Ha Hb. destruct a as [a|], b as [b|]; simpl in *; rewrite ?Z.land_0_r; auto.
  apply words_int_spec; assumption.
Qed.

Lemma bms_del_members_spec a b : bms_wf a -> bms_wf b ->
  bms_wf (bms_del_members a b) /\ bms_val (bms_del_members a b) = Z.ldiff (bms_val a) (bms_val b).
Proof.
  intros Ha Hb. destruct a as [a|], b as [b|]; simpl in *; rewrite ?Z.ldiff_0_r, ?Z.ldiff_0_l; auto.
  apply words_andnot_spec; assumption.
Qed.

Lemma bms_join_spec a b : bms_wf a -> bms_wf b ->
  bms_wf (bms_join a b) /\ bms_val (bms_join a b) = Z.lor (bms_val a) (bms_val b).
Proof.
  intros Ha Hb. destruct a as [a|], b as [b|]; simpl in *; rewrite ?Z.lor_0_r; auto.
  destruct (Nat.ltb_spec (length a) (length b)).
  - rewrite Z.lor_comm. apply words_or_spec; auto with lia.
  - apply words_or_spec; assumption.
Qed.

Lemma bms_val_nonneg a : bms_wf a -> 0 <= bms_val a.
Proof. destruct a; [apply words_val_nonneg|simpl; lia]. Qed.

Lemma ldiff_eq_0 x y : Z.ldiff x y = 0 <-> (forall i, 0 <= i -> Z.testbit x i = true -> Z.testbit y i = true).
Proof.
  split.
  - intros E i Hi Hx. apply (f_equal (fun z => Z.testbit z i)) in E.
    rewrite Z.ldiff_spec, Z.bits_0, Hx in E. destruct (Z.testbit y i); done.
  - intros H. apply Z.bits_inj'. intros i Hi. rewrite Z.ldiff_spec, Z.bits_0.
    specialize (H i Hi). destruct (Z.testbit x i); [rewrite H|]; reflexivity.
Qed.

(** The subset relation of the abstract sets. *)
Definition subset (a b : Bitmapset) : Prop := forall x, member x a -> member x b.

Lemma subset_ldiff a b : subset a b <-> Z.ldiff (bms_val a) (bms_val b) = 0.
Proof.
  rewrite ldiff_eq_0. unfold subset, member. split; intros H.
  - intros i Hi Ha. apply H. auto.
  - intros x [Hx Ha]. auto.
Qed.

Lemma bms_is_subset_ldiff a b : bms_wf a -> bms_wf b ->
  bms_is_subset a b = (Z.ldiff (bms_val a) (bms_val b) =? 0).
Proof.
  intros Ha Hb. destruct a as [a|], b as [b|]; simpl in *; rewrite ?Z.ldiff_0_r, ?Z.ldiff_0_l.
  - apply words_subset_spec; assumption.
  - apply words_is_empty_spec; assumption.
  - reflexivity.
  - reflexivity.
Qed.

Lemma bms_is_subset_spec a b : bms_wf a -> bms_wf b -> bms_is_subset a b = true <-> subset a b.
Proof. intros. rewrite bms_is_subset_ldiff, Z.eqb_eq, subset_ldiff by assumption. reflexivity. Qed.

Lemma bms_equal_val a b : bms_wf a -> bms_wf b -> bms_equal a b = (bms_val a =? bms_val b).
Proof.
  intros Ha Hb. destruct a as [a|], b as [b|]; simpl in *.
  - destruct (Nat.leb_spec (length a) (length b)).
    + apply words_equal_spec; assumption.
    + rewrite Z.eqb_sym. apply words_equal_spec; auto with lia.
  - apply words_is_empty_spec; assumption.
  - rewrite words_is_empty_spec by assumption. apply Z.eqb_sym.
  - reflexivity.
Qed.

Lemma bms_equal_subset a b : bms_wf a -> bms_wf b ->
  bms_equal a b = true <-> subset a b /\ subset b a.
Proof.
  intros Ha Hb. rewrite bms_equal_val, Z.eqb_eq by assumption. split.
  - unfold subset, member. intros ->. auto.
  - intros [H1 H2]. apply Z.bits_inj'. intros i Hi.
    apply eq_true_iff_eq. split; intros Hb'; [apply (H1 i)|apply (H2 i)]; split; assumption.
Qed.

Lemma bms_subset_compare_combine a b : bms_wf a -> bms_wf b ->
  bms_subset_compare a b = cmp_combine BMS_EQUAL (bms_is_subset a b) (bms_is_subset b a).
Proof.
  intros Ha Hb. destruct a as [a|], b as [b|]; simpl in *.
  - apply words_subset_compare_spec. done.
  - destruct (words_is_empty a); reflexivity.
  - destruct (words_is_empty b); reflexivity.
  - reflexivity.
Qed.

(** What each verdict of the comparison says about the sets. *)
Lemma bms_subset_compare_subset a b : bms_wf a -> bms_wf b ->
  match bms_subset_compare a b with
  | BMS_EQUAL => subset a b /\ subset b a
  | BMS_SUBSET1 => subset a b /\ ~ subset b a
  | BMS_SUBSET2 => subset b a /\ ~ subset a b
  | BMS_DIFFERENT => ~ subset a b /\ ~ subset b a
  end.
Proof.
  intros Ha Hb. rewrite bms_subset_compare_combine by assumption.
  pose proof (bms_is_subset_spec a b Ha Hb). pose proof (bms_is_subset_spec b a Hb Ha).
  destruct (bms_is_subset a b), (bms_is_subset b a); simpl; intuition congruence.
Qed.

(** ** Single members *)

Lemma words_val_lookup ws x : Forall word_ok ws -> 0 <= x ->
  Z.testbit (words_val ws) x =
  match ws !! Z.to_nat (WORDNUM x) with Some w => Z.testbit w (BITNUM x) | None => false end.
Proof.
  unfold WORDNUM, BITNUM, BITS_PER_BITMAPWORD. intros Hws. revert x.
  induction Hws as [|w ws Hw Hws IH]; intros x Hx; simpl; [apply Z.bits_0|].
  rewrite cat_testbit by assumption. destruct (Z.ltb_spec x 32).
  - rewrite Z.div_small, Z.mod_small by lia. reflexivity.
  - rewrite IH by lia.
    assert (x / 32 = (x - 32) / 32 + 1) as -> by (rewrite <- Z.div_add by lia; f_equal; lia).
    assert (x mod 32 = (x - 32) mod 32) as -> by (rewrite <- (Z.mod_add (x - 32) 1) by lia; f_equal; lia).
    assert (0 <= (x - 32) / 32) by (apply Z.div_pos; lia).
    rewrite Z2Nat.inj_add, Nat.add_comm by lia. reflexivity.
Qed.

Lemma bit_range x : 0 <= BITNUM x < 32.
Proof. apply Z.mod_pos_bound. reflexivity. Qed.

Lemma bit_word x : word_ok (Z.shiftl 1 (BITNUM x)).
Proof.
  pose proof (bit_range x). unfold word_ok. rewrite Z.shiftl_1_l.
  split; [apply Z.pow_nonneg; lia|]. apply Z.pow_lt_mono_r; lia.
Qed.

Lemma land_bit w k : 0 <= k -> negb (Z.land w (Z.shiftl 1 k) =? 0) = Z.testbit w k.
Proof.
  intros Hk. rewrite Z.shiftl_1_l. destruct (Z.testbit w k) eqn:E.
  - apply negb_true_iff, Z.eqb_neq. intros E0.
    apply (f_equal (fun z => Z.testbit z k)) in E0.
    rewrite Z.land_spec, Z.pow2_bits_true, E, Z.bits_0 in E0 by lia. done.
  - apply negb_false_iff, Z.eqb_eq, Z.bits_inj'. intros i Hi.
    rewrite Z.land_spec, Z.pow2_bits_eqb, Z.bits_0 by lia.
    destruct (Z.eqb_spec k i) as [<-|]; [rewrite E|rewrite andb_false_r]; reflexivity.
Qed.

Lemma bms_is_member_val x a : bms_wf a -> 0 <= x ->
  bms_is_member x a = Ok (Z.testbit (bms_val a) x).
Proof.
  intros Ha Hx. unfold bms_is_member. rewrite (proj2 (Z.ltb_ge x 0)) by lia.
  destruct a as [ws|]; simpl; [|rewrite Z.bits_0; reflexivity].
  rewrite words_val_lookup by assumption. pose proof (bit_range x).
  case_match; [rewrite land_bit by lia|]; reflexivity.
Qed.

Lemma words_alter_val ws x f g :
  Forall word_ok ws -> 0 <= x -> (Z.to_nat (WORDNUM x) < length ws)%nat ->
  (forall w, word_ok w -> word_ok (f w)) ->
  (forall w i, word_ok w -> 0 <= i -> Z.testbit (f w) i = g (BITNUM x =? i) (Z.testbit w i)) ->
  (forall b, g false b = b) ->
  Forall word_ok (alter f (Z.to_nat (WORDNUM x)) ws) /\
  forall i, 0 <= i -> Z.testbit (words_val (alter f (Z.to_nat (WORDNUM x)) ws)) i =
                      g (x =? i) (Z.testbit (words_val ws) i).
Proof.
  intros Hws Hx Hlen Hf Hg Hid.
  assert (Forall word_ok (alter f (Z.to_nat (WORDNUM x)) ws)) as Hok.
  { apply Forall_alter; [assumption|]. intros w _ Hw. apply Hf, Hw. }
  split; [exact Hok|]. intros i Hi. rewrite !words_val_lookup by assumption.
  destruct (decide (WORDNUM x = WORDNUM i)) as [E|E].
  - rewrite E in *. rewrite list_lookup_alter_eq.
    destruct (lookup_lt_is_Some_2 _ _ Hlen) as [w Hw]. rewrite Hw. simpl.
    pose proof (bit_range i). rewrite Hg; [|exact (Forall_lookup_1 _ _ _ _ Hws Hw)|lia].
    f_equal. apply eq_true_iff_eq. rewrite !Z.eqb_eq. split; [|congruence].
    intros Eb. rewrite (Z.div_mod x 32), (Z.div_mod i 32) by lia.
    unfold WORDNUM, BITNUM, BITS_PER_BITMAPWORD in *. congruence.
  - rewrite list_lookup_alter_ne.
    + destruct (Z.eqb_spec x i) as [->|]; [done|]. rewrite Hid. reflexivity.
    + assert (0 <= WORDNUM x /\ 0 <= WORDNUM i) by (unfold WORDNUM, BITS_PER_BITMAPWORD; split; apply Z.div_pos; lia). lia.
Qed.

Lemma words_val_app_zeros ws n : words_val (ws ++ replicate n 0) = words_val ws.
Proof.
  assert (words_val (replicate n 0) = 0) as Hz by (induction n; simpl; [|rewrite IHn]; reflexivity).
  induction ws as [|w ws IH]; simpl; [assumption|]. rewrite IH. reflexivity.
Qed.

Lemma WORDNUM_nonneg x : 0 <= x -> 0 <= WORDNUM x.
Proof. intros. unfold WORDNUM, BITS_PER_BITMAPWORD. apply Z.div_pos; lia. Qed.

Lemma testbit_lor_bit w x i : 0 <= i ->
  Z.testbit (Z.lor w (Z.shiftl 1 (BITNUM x))) i = (BITNUM x =? i) || Z.testbit w i.
Proof.
  intros Hi. pose proof (bit_range x).
  rewrite Z.lor_spec, Z.shiftl_1_l, Z.pow2_bits_eqb by lia. apply orb_comm.
Qed.

Lemma make_singleton_add x : 0 <= x -> bms_make_singleton x = bms_add_member (Some []) x.
Proof.
  intros Hx. pose proof (WORDNUM_nonneg x Hx). unfold bms_make_singleton, bms_add_member.
  rewrite (proj2 (Z.ltb_ge x 0)) by lia. simpl. do 2 f_equal.
  replace (Z.to_nat (WORDNUM x + 1)) with (Z.to_nat (WORDNUM x) + 1)%nat by lia.
  rewrite Nat.sub_0_r. apply list_eq. intros i.
  destruct (decide (i = Z.to_nat (WORDNUM x))) as [->|Hne].
  - rewrite list_lookup_insert_eq by (rewrite length_replicate; lia).
    rewrite list_lookup_alter_eq, lookup_replicate_2 by lia. reflexivity.
  - rewrite list_lookup_insert_ne, list_lookup_alter_ne by done. reflexivity.
Qed.

Lemma bms_add_member_spec a x : bms_wf a -> 0 <= x ->
  exists a', bms_add_member a x = Ok a' /\ bms_wf a' /\
    forall i, 0 <= i -> Z.testbit (bms_val a') i = (x =? i) || Z.testbit (bms_val a) i.
Proof.
  intros Ha Hx. pose proof (WORDNUM_nonneg x Hx).
  assert (bms_add_member a x = bms_add_member (Some (default [] a)) x) as ->.
  { destruct a; [reflexivity|]. simpl default. rewrite <- make_singleton_add by assumption.
    unfold bms_add_member. rewrite (proj2 (Z.ltb_ge x 0)) by lia. reflexivity. }
  unfold bms_add_member. rewrite (proj2 (Z.ltb_ge x 0)) by lia.
  set (ws := default [] a).
  assert (Forall word_ok ws /\ words_val ws = bms_val a) as [Hws <-] by (destruct a; auto).
  set (n := Z.to_nat (WORDNUM x)).
  set (ws' := if (length ws <=? n)%nat then ws ++ replicate (n + 1 - length ws) 0 else ws).
  assert (Forall word_ok ws' /\ words_val ws' = words_val ws /\ (n < length ws')%nat) as (Hw' & Hv' & Hl').
  { unfold ws'. destruct (Nat.leb_spec (length ws) n); [|auto].
    rewrite words_val_app_zeros, length_app, length_replicate. split; [|lia].
    apply Forall_app_2; [assumption|]. apply Forall_replicate. auto with bms. }
  eexists. split; [reflexivity|]. rewrite <- Hv'. simpl.
  apply (words_alter_val ws' x _ orb); try assumption.
  - intros w Hw. apply lor_word; [assumption|apply bit_word].
  - intros w i Hw Hi. apply testbit_lor_bit, Hi.
  - reflexivity.
Qed.

Lemma bms_del_member_spec a x : bms_wf a -> 0 <= x ->
  exists a', bms_del_member a x = Ok a' /\ bms_wf a' /\
    forall i, 0 <= i -> Z.testbit (bms_val a') i = negb (x =? i) && Z.testbit (bms_val a) i.
Proof.
  intros Ha Hx. unfold bms_del_member. rewrite (proj2 (Z.ltb_ge x 0)) by lia.
  destruct a as [ws|]; simpl.
  2:{ exists None. repeat split; intros; simpl; rewrite Z.bits_0, andb_false_r; reflexivity. }
  eexists. split; [reflexivity|]. simpl in *.
  destruct (decide (Z.to_nat (WORDNUM x) < length ws)%nat).
  - apply (words_alter_val ws x _ (fun b c => negb b && c)); try assumption.
    + intros w Hw. rewrite land_not32 by assumption. pose proof (bit_word x) as [? _].
      apply ldiff_word; assumption.
    + intros w i Hw Hi. rewrite land_not32 by assumption. pose proof (bit_range x).
      rewrite Z.ldiff_spec, Z.shiftl_1_l, Z.pow2_bits_eqb by lia. apply andb_comm.
    + reflexivity.
  - rewrite (list_alter_ext _ id ws ws), list_alter_id;
      [|done|intros y Hy; rewrite lookup_ge_None_2 in Hy by lia; done|done]. split; [assumption|]. intros i Hi.
    destruct (Z.eqb_spec x i) as [<-|]; [|reflexivity].
    rewrite words_val_lookup by assumption. rewrite lookup_ge_None_2 by lia. reflexivity.
Qed.

(** ** Iteration *)

Lemma words_val_drop ws n k : Forall word_ok ws -> 0 <= k ->
  Z.testbit (words_val ws) (32 * Z.of_nat n + k) = Z.testbit (words_val (drop n ws)) k.
Proof.
  intros Hws. revert ws Hws. induction n as [|n IH]; intros ws Hws Hk; [reflexivity|].
  destruct Hws as [|w ws Hw Hws]; [simpl; rewrite !Z.bits_0; reflexivity|].
  change (drop (S n) (w :: ws)) with (drop n ws). cbn [words_val].
  rewrite <- IH by assumption. rewrite cat_testbit by (assumption || lia).
  destruct (Z.ltb_spec (32 * Z.of_nat (S n) + k) 32); [lia|]. f_equal. lia.
Qed.

Lemma next_member_loop_spec ws wn j mask :
  Forall word_ok ws -> 0 <= j < 32 -> 0 <= mask ->
  (forall i, 0 <= i < 32 -> Z.testbit mask i = (j <=? i)) ->
  (next_member_loop ws wn mask = -2 /\ forall k, j <= k -> Z.testbit (words_val ws) k = false) \/
  (exists k, j <= k /\ next_member_loop ws wn mask = wn * 32 + k /\
     Z.testbit (words_val ws) k = true /\
     forall i, j <= i < k -> Z.testbit (words_val ws) i = false).
Proof.
  intros Hws. revert wn j mask. induction Hws as [|w ws Hw Hws IH]; intros wn j mask Hj Hm0 Hm; simpl.
  { left. split; [reflexivity|]. intros. apply Z.bits_0. }
  assert (word_ok (Z.land w mask)) as Hwm.
  { rewrite Z.land_comm. destruct Hw. split; [apply Z.land_nonneg; lia|].
    apply bits_range; [lia|apply Z.land_nonneg; lia|]. intros i Hi.
    rewrite Z.land_spec, (testbit_small w i 32) by lia. apply andb_false_r. }
  destruct (Z.eqb_spec (Z.land w mask) 0) as [E|E]; simpl.
  - assert (forall i, j <= i < 32 -> Z.testbit w i = false) as Hz.
    { intros i Hi. apply (f_equal (fun z => Z.testbit z i)) in E.
      rewrite Z.land_spec, Z.bits_0, Hm, (proj2 (Z.leb_le j i)), andb_true_r in E by lia. exact E. }
    destruct (IH (wn + 1) 0 (2 ^ 32 - 1)) as [[H1 H2]|(k & H1 & H2 & H3 & H4)]; try lia.
    + intros i Hi. change (2 ^ 32 - 1) with (Z.ones 32). rewrite Z.ones_spec_low by lia.
      symmetry. apply Z.leb_le. lia.
    + left. split; [exact H1|]. intros k Hk. rewrite cat_testbit by (assumption || lia).
      destruct (Z.ltb_spec k 32); [apply Hz|apply H2]; lia.
    + right. exists (k + 32). split; [lia|]. split; [lia|]. split.
      * rewrite cat_testbit by (assumption || lia). destruct (Z.ltb_spec (k + 32) 32); [lia|].
        replace (k + 32 - 32) with k by lia. exact H3.
      * intros i Hi. rewrite cat_testbit by (assumption || lia).
        destruct (Z.ltb_spec i 32); [apply Hz|apply H4]; lia.
  - right. destruct (rightmost_bit_spec _ (wn * 32) Hwm E) as (k & Hk & (Hk0 & Hb & Hl) & Hk32).
    rewrite Z.land_spec, andb_true_iff, Hm, Z.leb_le in Hb by lia. destruct Hb as [Hb Hjk].
    exists k. split; [assumption|]. split; [exact Hk|]. split.
    + rewrite cat_testbit by (assumption || lia). rewrite (proj2 (Z.ltb_lt k 32)) by lia. exact Hb.
    + intros i Hi. rewrite cat_testbit by (assumption || lia). rewrite (proj2 (Z.ltb_lt i 32)) by lia.
      specialize (Hl i ltac:(lia)). rewrite Z.land_spec, Hm, (proj2 (Z.leb_le j i)), andb_true_r in Hl by lia.
      exact Hl.
Qed.

Lemma bms_next_member_spec a prevbit : bms_wf a -> -1 <= prevbit ->
  let r := bms_next_member a prevbit in
  (r = -2 /\ forall x, prevbit < x -> ~ member x a) \/
  (prevbit < r /\ member r a /\ forall x, prevbit < x < r -> ~ member x a).
Proof.
  intros Ha Hp. destruct a as [ws|]; unfold bms_next_member, member; simpl bms_val.
  2:{ left. split; [reflexivity|]. intros x _ [_ Hx]. rewrite Z.bits_0 in Hx. done. }
  set (p := prevbit + 1). pose proof (bit_range p). pose proof (WORDNUM_nonneg p ltac:(lia)).
  assert (p = 32 * WORDNUM p + BITNUM p) as Epd by (apply Z.div_mod; lia).
  set (n := Z.to_nat (WORDNUM p)) in *.
  assert (forall k, 0 <= k -> Z.testbit (words_val ws) (32 * WORDNUM p + k) =
                              Z.testbit (words_val (drop n ws)) k) as Hd.
  { intros k Hk. rewrite <- words_val_drop by assumption. f_equal. lia. }
  destruct (next_member_loop_spec (drop n ws) (WORDNUM p) (BITNUM p)
              (Z.shiftl (2 ^ 32 - 1) (BITNUM p) mod 2 ^ 32))
    as [[-> H2]|(k & H1 & -> & H3 & H4)]; try lia.
  - apply Forall_drop, Ha.
  - apply Z.mod_pos_bound. lia.
  - intros i Hi. rewrite Z.mod_pow2_bits_low, Z.shiftl_spec by lia.
    change (2 ^ 32 - 1) with (Z.ones 32). destruct (Z.leb_spec (BITNUM p) i).
    + apply Z.ones_spec_low. lia.
    + apply Z.testbit_neg_r. lia.
  - left. split; [reflexivity|]. intros x Hx [_ Hb].
    replace x with (32 * WORDNUM p + (x - 32 * WORDNUM p)) in Hb by lia.
    rewrite Hd, H2 in Hb by lia. done.
  - right. unfold BITS_PER_BITMAPWORD in *. rewrite (Z.mul_comm (WORDNUM p) 32).
    split; [lia|]. split; [split; [lia|rewrite Hd by lia; exact H3]|].
    intros x Hx [_ Hb].
    replace x with (32 * WORDNUM p + (x - 32 * WORDNUM p)) in Hb by lia.
    rewrite Hd, H4 in Hb by lia. done.
Qed.
