(* ===== verification/BitmapsetSpec.v ===== *)
(** Bitmapsets as sets: the operations of nodes/bitmapset.c refine the operations on
    finite sets of non-negative integers, and the iteration, counting and
    singleton routines agree with the sorted list of members. *)
From S2P Require Import Prelude Bitmapset.
From Stdlib Require Import Sorted.
From stdpp Require Import list_numbers.
Open Scope Z_scope.

(** ** Members in order *)

(** The set bits of [v] among [n] positions from [s] on. *)
Definition bits (v s n : Z) : list Z := List.filter (Z.testbit v) (seqZ s n).
Definition ones (n v : Z) : Z := Z.of_nat (length (bits v 0 n)).

Lemma ones_length n v : ones n v = Z.of_nat (length (bits v 0 n)).
Proof. reflexivity. Qed.

Definition capacity (a : Bitmapset) : Z := match a with None => 0 | Some ws => 32 * Z.of_nat (length ws) end.
Definition members (a : Bitmapset) : list Z := bits (bms_val a) 0 (capacity a).

Lemma bits_split v s m n : 0 <= m -> 0 <= n -> bits v s (m + n) = bits v s m ++ bits v (s + m) n.
Proof. intros Hm Hn. unfold bits. rewrite seqZ_app by assumption. apply List.filter_app. Qed.

Lemma in_bits v s n x : In x (bits v s n) <-> s <= x < s + n /\ Z.testbit v x = true.
Proof. unfold bits. rewrite List.filter_In, <- list_elem_of_In, elem_of_seqZ. reflexivity. Qed.

Lemma bits_ext u v s n : (forall i, s <= i < s + n -> Z.testbit u i = Z.testbit v i) -> bits u s n = bits v s n.
Proof.
  intros H. unfold bits. apply List.filter_ext_in. intros i Hi. apply list_elem_of_In, elem_of_seqZ in Hi. apply H. lia.
Qed.

Lemma bits_none v s n : (forall i, s <= i < s + n -> Z.testbit v i = false) -> bits v s n = [].
Proof.
  intros Hn. unfold bits. assert (forall l, Forall (fun i => Z.testbit v i = false) l -> List.filter (Z.testbit v) l = []) as E.
  { induction 1 as [|i l Hi _ IH]; simpl; [reflexivity|]. rewrite Hi. exact IH. }
  apply E, Forall_forall. intros i Hi. apply elem_of_seqZ in Hi. apply Hn. lia.
Qed.

Lemma bits_one v r : Z.testbit v r = true -> bits v r 1 = [r].
Proof. intros E. unfold bits. change (seqZ r 1) with [r]. unfold List.filter. rewrite E. reflexivity. Qed.

(** Shifting the number shifts the list. *)
Lemma bits_shift v s n k : 0 <= s -> 0 <= k -> bits v (s + k) n = map (Z.add k) (bits (Z.shiftr v k) s n).
Proof.
  intros Hs Hk. unfold bits. destruct (decide (0 <= n)) as [Hn|Hn]; [|unfold seqZ; rewrite !Z2Nat.nonpos by lia; reflexivity].
  rewrite (Z.add_comm s k), <- (fmap_add_seqZ k s n). unfold fmap.
  assert (forall l, Forall (fun i => 0 <= i) l -> List.filter (Z.testbit v) (list_fmap _ _ (Z.add k) l)
    = map (Z.add k) (List.filter (Z.testbit (Z.shiftr v k)) l)) as E.
  { induction 1 as [|i l Hi _ IH]; [reflexivity|]. cbn [list_fmap List.filter]. rewrite Z.shiftr_spec, (Z.add_comm i k) by lia.
    destruct (Z.testbit v (k + i)); cbn [map]; [f_equal|]; exact IH. }
  apply E, Forall_forall. intros i Hi. apply elem_of_seqZ in Hi. lia.
Qed.

Lemma ones_split v m n : 0 <= m -> 0 <= n -> ones (m + n) v = ones m v + ones n (Z.shiftr v m).
Proof.
  intros Hm Hn. unfold ones. rewrite bits_split, length_app by assumption.
  rewrite (bits_shift v 0 n m) by lia. rewrite length_map. lia.
Qed.

Lemma ones_ext m u v : (forall i, 0 <= i < m -> Z.testbit u i = Z.testbit v i) -> ones m u = ones m v.
Proof. intros E. unfold ones. rewrite (bits_ext u v); [reflexivity|]. intros i Hi. apply E. lia. Qed.

Lemma ones_0 m : ones m 0 = 0.
Proof. unfold ones. rewrite bits_none; [reflexivity|]. intros. apply Z.bits_0. Qed.

(** ** Counting *)

Lemma number_of_ones_ok b : 0 <= b < 256 -> byte_index number_of_ones b = ones 8 b.
Proof.
  intros Hb. assert (forallb (fun n => byte_index number_of_ones (Z.of_nat n) =? ones 8 (Z.of_nat n)) (seq 0 256) = true) as E
    by (vm_compute; reflexivity).
  rewrite forallb_forall in E. specialize (E (Z.to_nat b)). rewrite Z2Nat.id, Z.eqb_eq in E by lia. apply E, in_seq. lia.
Qed.

Lemma count_ones_from_spec n w r : 0 <= w < 2 ^ (8 * Z.of_nat n) ->
  count_ones_from n w r = Some (r + ones (8 * Z.of_nat n) w).
Proof.
  revert w r. induction n as [|n IH]; intros w r Hw; cbn [count_ones_from].
  - assert (w = 0) as -> by (simpl in Hw; lia). simpl. rewrite Z.add_0_r. reflexivity.
  - destruct (Z.eqb_spec w 0) as [->|Nz]; [rewrite ones_0, Z.add_0_r; reflexivity|].
    replace (8 * Z.of_nat (S n)) with (8 + 8 * Z.of_nat n) in * by lia. rewrite IH.
    + rewrite number_of_ones_ok by (apply land_255_range; lia). rewrite (ones_split w 8) by lia.
      rewrite (ones_ext 8 (Z.land w 255) w); [f_equal; lia|]. intros i Hi. rewrite land_255_testbit by lia.
      rewrite (proj2 (Z.ltb_lt i 8)) by lia. reflexivity.
    + rewrite Z.shiftr_div_pow2 by lia. split; [apply Z.div_pos; lia|]. apply Z.div_lt_upper_bound; [lia|].
      rewrite <- pow2_split by lia. lia.
Qed.

Lemma cat_shiftr w v : word_ok w -> 0 <= v -> Z.shiftr (cat w v) 32 = v.
Proof.
  intros Hw Hv. apply Z.bits_inj'. intros i Hi. rewrite Z.shiftr_spec, cat_testbit by (assumption || lia).
  rewrite (proj2 (Z.ltb_ge (i + 32) 32)) by lia. f_equal. lia.
Qed.

Lemma cat_low n w v : word_ok w -> n <= 32 -> ones n (cat w v) = ones n w.
Proof.
  intros Hw Hn. apply ones_ext. intros i Hi. rewrite cat_testbit by (assumption || lia).
  rewrite (proj2 (Z.ltb_lt i 32)) by lia. reflexivity.
Qed.

(** A set's cardinality word by word. *)
Lemma ones_words w ws : word_ok w -> Forall word_ok ws ->
  ones (32 * Z.of_nat (length (w :: ws))) (words_val (w :: ws)) = ones 32 w + ones (32 * Z.of_nat (length ws)) (words_val ws).
Proof.
  intros Hw Hws. cbn [length words_val]. replace (32 * Z.of_nat (S (length ws))) with (32 + 32 * Z.of_nat (length ws)) by lia.
  rewrite ones_split by lia. rewrite cat_low, cat_shiftr by (assumption || lia || apply words_val_nonneg, Hws). reflexivity.
Qed.

Lemma num_members_loop_spec ws r : Forall word_ok ws ->
  num_members_loop ws r = r + ones (32 * Z.of_nat (length ws)) (words_val ws).
Proof.
  intros Hws. revert r. induction Hws as [|w ws Hw Hws IH]; intros r; cbn [num_members_loop]; [simpl; unfold ones; simpl; lia|].
  rewrite ones_words by assumption. rewrite (count_ones_from_spec 4 w r) by exact Hw. simpl default. rewrite IH.
  change (8 * Z.of_nat 4) with 32. lia.
Qed.

Lemma bms_num_members_spec a : bms_wf a -> bms_num_members a = Z.of_nat (length (members a)).
Proof.
  intros Ha. destruct a as [ws|]; [|reflexivity]. unfold bms_num_members. rewrite num_members_loop_spec by exact Ha. reflexivity.
Qed.

(** ** Iterating *)

(** [while ((x = bms_next_member(a, x)) >= 0)] from [prev] on. *)
Fixpoint enumerate (fuel : nat) (a : Bitmapset) (prev : Z) : list Z :=
  match fuel with
  | O => []
  | S fuel => let x := bms_next_member a prev in if x >=? 0 then x :: enumerate fuel a x else []
  end.

Lemma member_capacity a x : bms_wf a -> member x a -> x < capacity a.
Proof.
  intros Ha [Hx Hb]. destruct a as [ws|]; simpl in *; [|rewrite Z.bits_0 in Hb; discriminate].
  rewrite words_val_lookup in Hb by assumption. destruct (ws !! Z.to_nat (WORDNUM x)) as [w|] eqn:E; [|discriminate].
  apply lookup_lt_Some in E. pose proof (WORDNUM_nonneg x Hx). pose proof (bit_range x).
  assert (x = 32 * WORDNUM x + BITNUM x) by (apply Z.div_mod; lia). lia.
Qed.

Lemma not_member_bit a x : 0 <= x -> ~ member x a -> Z.testbit (bms_val a) x = false.
Proof. intros Hx N. destruct (Z.testbit (bms_val a) x) eqn:E; [|reflexivity]. destruct N. split; assumption. Qed.

Lemma capacity_nonneg a : 0 <= capacity a.
Proof. destruct a; simpl; lia. Qed.

Lemma enumerate_from fuel a prev : bms_wf a -> -1 <= prev -> prev < capacity a \/ prev = -1 -> capacity a - prev <= Z.of_nat fuel ->
  enumerate fuel a prev = bits (bms_val a) (prev + 1) (capacity a - prev - 1).
Proof.
  intros Ha. pose proof (capacity_nonneg a) as Hc. revert prev. induction fuel as [|fuel IH]; intros prev Hp Hlt Hf; [lia|]. cbn [enumerate].
  destruct (bms_next_member_spec a prev Ha Hp) as [[-> N]|(Lt & M & N)].
  - simpl. symmetry. apply bits_none. intros i Hi. apply not_member_bit; [lia|]. apply N. lia.
  - set (r := bms_next_member a prev) in *. rewrite (proj2 (Z.geb_le r 0)) by (destruct M; lia).
    pose proof (member_capacity a r Ha M). rewrite IH by lia.
    replace (capacity a - prev - 1) with ((r - prev - 1) + (1 + (capacity a - r - 1))) by lia.
    assert (bits (bms_val a) (prev + 1) (r - prev - 1) = []) as E
      by (apply bits_none; intros i Hi; apply not_member_bit; [lia|apply N; lia]).
    rewrite bits_split, E by lia.
    replace (prev + 1 + (r - prev - 1)) with r by lia. rewrite bits_split by lia. cbn [app].
    assert (bits (bms_val a) r 1 = [r]) as -> by (apply bits_one, M). reflexivity.
Qed.

Lemma bms_enumerate a : bms_wf a -> enumerate (Z.to_nat (capacity a) + 1) a (-1) = members a.
Proof.
  intros Ha. pose proof (capacity_nonneg a). rewrite enumerate_from by (exact Ha || lia). unfold members. f_equal. lia.
Qed.

Lemma members_spec a x : bms_wf a -> In x (members a) <-> member x a.
Proof.
  intros Ha. unfold members. rewrite in_bits. split.
  - intros [Hx Hb]. split; [lia|exact Hb].
  - intros M. pose proof (member_capacity a x Ha M). destruct M. split; [lia|assumption].
Qed.

Lemma seqZ_sorted s n : StronglySorted Z.lt (seqZ s n).
Proof.
  destruct (decide (0 <= n)) as [Hn|Hn]; [|unfold seqZ; rewrite Z2Nat.nonpos by lia; constructor].
  revert s. pattern n. apply natlike_ind; [|clear n Hn; intros n Hn IH s|exact Hn]; [constructor|].
  rewrite seqZ_cons by lia. constructor; [replace (Z.pred (Z.succ n)) with n by lia; apply IH|].
  apply Forall_forall. intros i Hi. apply elem_of_seqZ in Hi. lia.
Qed.

Lemma filter_lt_sorted (p : Z -> bool) l : StronglySorted Z.lt l -> StronglySorted Z.lt (List.filter p l).
Proof.
  induction 1 as [|x l Hl IH Hx]; simpl; [constructor|]. destruct (p x); [constructor; [exact IH|]|exact IH].
  apply List.Forall_forall. intros y Hy. apply List.filter_In in Hy as [Hy _]. rewrite Forall_forall in Hx. apply Hx, list_elem_of_In, Hy.
Qed.

(** Iterating with bms_next_member from -1 ends and visits every member exactly once, in
    increasing order; bms_num_members is the number of members visited. *)
Theorem bms_iteration a : bms_wf a ->
  let l := enumerate (Z.to_nat (capacity a) + 1) a (-1) in
  (forall x, In x l <-> member x a) /\ StronglySorted Z.lt l /\ bms_num_members a = Z.of_nat (length l)
  /\ bms_next_member a (default (-1) (last l)) = -2.
Proof.
  intros Ha. cbv zeta. rewrite (bms_enumerate a Ha).
  assert (StronglySorted Z.lt (members a)) as S by apply filter_lt_sorted, seqZ_sorted.
  split_and!; [intros x; apply members_spec, Ha|exact S|apply bms_num_members_spec, Ha|].
  assert (-1 <= default (-1) (last (members a))) as Hl.
  { destruct (last (members a)) as [x|] eqn:E; simpl; [|lia]. apply last_Some_elem_of, list_elem_of_In in E.
    apply (members_spec a x Ha) in E. destruct E. lia. }
  destruct (bms_next_member_spec a _ Ha Hl) as [[E _]|(Lt & M & _)]; [exact E|exfalso].
  apply (members_spec a _ Ha), list_elem_of_In in M.
  assert (forall l x, StronglySorted Z.lt l -> x ∈ l -> x <= default (-1) (last l)) as Max.
  { clear. induction l as [|y l IH]; intros x Sl Hx; [apply not_elem_of_nil in Hx; destruct Hx|].
    apply StronglySorted_inv in Sl as [Sl Fy]. rewrite last_cons. apply elem_of_cons in Hx as [->|Hx].
    - destruct (last l) as [z|] eqn:E; simpl; [|lia]. apply last_Some_elem_of in E. rewrite Forall_forall in Fy. specialize (Fy z E). lia.
    - specialize (IH x Sl Hx). destruct (last l) eqn:E; [exact IH|]. apply last_None in E. subst l. apply not_elem_of_nil in Hx. destruct Hx. }
  specialize (Max (members a) _ S M). lia.
Qed.

(** ** Set operations *)

Lemma overlap_val a b : bms_wf a -> bms_wf b -> bms_overlap a b = negb (Z.land (bms_val a) (bms_val b) =? 0).
Proof.
  intros Ha Hb. destruct a as [a|], b as [b|]; simpl in *; rewrite ?Z.land_0_r; try reflexivity.
  apply words_overlap_spec; assumption.
Qed.

Lemma nonempty_difference_val a b : bms_wf a -> bms_wf b -> bms_nonempty_difference a b = negb (bms_is_subset a b).
Proof.
  intros Ha Hb. destruct a as [a|], b as [b|]; simpl in *; try reflexivity.
  apply words_nonempty_difference_spec.
Qed.

(** [r] represents the set [S]. *)
Definition represents (r : Bitmapset) (S : Z -> Prop) : Prop := bms_wf r /\ forall x, member x r <-> S x.

Lemma represents_bits r v (S : Z -> Prop) : bms_wf r /\ bms_val r = v -> (forall x, 0 <= x -> Z.testbit v x = true <-> S x) ->
  (forall x, S x -> 0 <= x) -> represents r S.
Proof.
  intros [W <-] H Hn. split; [exact W|]. intros x. unfold member. split.
  - intros [Hx Hb]. apply H; assumption.
  - intros HS. pose proof (Hn x HS). split; [assumption|]. apply H; assumption.
Qed.

Lemma testbit_member a x : 0 <= x -> Z.testbit (bms_val a) x = true <-> member x a.
Proof. intros Hx. unfold member. tauto. Qed.

Lemma represents_lor r a b : bms_wf r /\ bms_val r = Z.lor (bms_val a) (bms_val b) -> represents r (fun x => member x a \/ member x b).
Proof.
  intros H. eapply represents_bits; [exact H| |].
  - intros x Hx. rewrite Z.lor_spec, orb_true_iff, !testbit_member by lia. reflexivity.
  - intros x [[? _]|[? _]]; assumption.
Qed.

Lemma represents_land r a b : bms_wf r /\ bms_val r = Z.land (bms_val a) (bms_val b) -> represents r (fun x => member x a /\ member x b).
Proof.
  intros H. eapply represents_bits; [exact H| |].
  - intros x Hx. rewrite Z.land_spec, andb_true_iff, !testbit_member by lia. reflexivity.
  - intros x [[? _] _]. assumption.
Qed.

Lemma represents_ldiff r a b : bms_wf r /\ bms_val r = Z.ldiff (bms_val a) (bms_val b) -> represents r (fun x => member x a /\ ~ member x b).
Proof.
  intros H. eapply represents_bits; [exact H| |].
  - intros x Hx. rewrite Z.ldiff_spec, andb_true_iff, negb_true_iff, <- not_true_iff_false, !testbit_member by lia. reflexivity.
  - intros x [[? _] _]. assumption.
Qed.

Lemma bms_overlap_spec a b : bms_wf a -> bms_wf b -> bms_overlap a b = true <-> exists x, member x a /\ member x b.
Proof.
  intros Ha Hb. rewrite overlap_val, negb_true_iff, Z.eqb_neq by assumption. split.
  - intros Nz. pose proof (represents_land (bms_intersect a b) a b (bms_intersect_spec a b Ha Hb)) as [_ R].
    assert (0 <= Z.land (bms_val a) (bms_val b)) by (apply Z.land_nonneg; left; apply bms_val_nonneg, Ha).
    exists (Z.log2 (Z.land (bms_val a) (bms_val b))). apply R. destruct (bms_intersect_spec a b Ha Hb) as [_ V].
    split; [apply Z.log2_nonneg|]. rewrite V. apply Z.bit_log2. lia.
  - intros (x & [Hx Ba] & [_ Bb]) E. apply (f_equal (fun v => Z.testbit v x)) in E.
    rewrite Z.land_spec, Ba, Bb, Z.bits_0 in E. discriminate.
Qed.

Lemma represents_add a x : bms_wf a -> 0 <= x -> exists r, bms_add_member a x = Ok r /\ represents r (fun y => y = x \/ member y a).
Proof.
  intros Ha Hx. destruct (bms_add_member_spec a x Ha Hx) as (r & E & W & B). exists r. split; [exact E|].
  eapply represents_bits; [split; [exact W|reflexivity]| |].
  - intros y Hy. rewrite B, orb_true_iff, Z.eqb_eq, testbit_member by lia. split; intros [?|?]; auto.
  - intros y [->|[? _]]; assumption.
Qed.

Lemma represents_del a x : bms_wf a -> 0 <= x -> exists r, bms_del_member a x = Ok r /\ represents r (fun y => member y a /\ y <> x).
Proof.
  intros Ha Hx. destruct (bms_del_member_spec a x Ha Hx) as (r & E & W & B). exists r. split; [exact E|].
  eapply represents_bits; [split; [exact W|reflexivity]| |].
  - intros y Hy. rewrite B, andb_true_iff, negb_true_iff, Z.eqb_neq, testbit_member by lia. split; intros [? ?]; split; auto.
  - intros y [[? _] _]. assumption.
Qed.

(** C10: the bitmapset operations implement finite sets of non-negative integers: union,
    intersection and difference, in the copying and in the recycling versions, represent the set
    operations on well-formed bitmapsets; the tests decide inclusion, equality, overlap and
    difference. *)
Theorem bms_refines_sets a b : bms_wf a -> bms_wf b ->
  (represents (bms_union a b) (fun x => member x a \/ member x b)
   /\ represents (bms_add_members a b) (fun x => member x a \/ member x b)
   /\ represents (bms_join a b) (fun x => member x a \/ member x b))
  /\ (represents (bms_intersect a b) (fun x => member x a /\ member x b)
      /\ represents (bms_int_members a b) (fun x => member x a /\ member x b))
  /\ (represents (bms_difference a b) (fun x => member x a /\ ~ member x b)
      /\ represents (bms_del_members a b) (fun x => member x a /\ ~ member x b))
  /\ (bms_is_subset a b = true <-> subset a b)
  /\ (bms_equal a b = true <-> forall x, member x a <-> member x b)
  /\ (bms_overlap a b = true <-> exists x, member x a /\ member x b)
  /\ (bms_nonempty_difference a b = false <-> subset a b).
Proof.
  intros Ha Hb. split_and!.
  - apply represents_lor, bms_union_spec; assumption.
  - apply represents_lor, bms_add_members_spec; assumption.
  - apply represents_lor, bms_join_spec; assumption.
  - apply represents_land, bms_intersect_spec; assumption.
  - apply represents_land, bms_int_members_spec; assumption.
  - apply represents_ldiff, bms_difference_spec; assumption.
  - apply represents_ldiff, bms_del_members_spec; assumption.
  - apply bms_is_subset_spec; assumption.
  - rewrite bms_equal_subset by assumption. unfold subset. split; [intros [H1 H2] x; split; auto|]. intros H. split; intros x Hx; apply H, Hx.
  - apply bms_overlap_spec; assumption.
  - rewrite nonempty_difference_val, negb_false_iff by assumption. apply bms_is_subset_spec; assumption.
Qed.

(** Single members: adding, deleting and testing a non-negative member behave as on sets, and
    a negative member is an error of all three. *)
Theorem bms_single_members a x : bms_wf a ->
  if x <? 0 then
    bms_add_member a x = negative_member /\ bms_del_member a x = negative_member /\ bms_is_member x a = negative_member
  else
    (exists r, bms_add_member a x = Ok r /\ represents r (fun y => y = x \/ member y a))
    /\ (exists r, bms_del_member a x = Ok r /\ represents r (fun y => member y a /\ y <> x))
    /\ (exists b, bms_is_member x a = Ok b /\ (b = true <-> member x a)).
Proof.
  intros Ha. destruct (Z.ltb_spec x 0) as [Hx|Hx].
  - unfold bms_add_member, bms_del_member, bms_is_member. rewrite (proj2 (Z.ltb_lt x 0) Hx). auto.
  - split_and!; [apply represents_add; assumption|apply represents_del; assumption|].
    exists (Z.testbit (bms_val a) x). split; [apply bms_is_member_val; assumption|apply testbit_member, Hx].
Qed.

(** ** First member, singletons *)

(** What lies in the first word, and behind it. *)
Lemma lowbit_ones w k : word_ok w -> lowbit w k -> (ones 32 w = 1 <-> RIGHTMOST_ONE w = w) /\ 1 <= ones 32 w.
Proof.
  intros Hw Hl. rewrite (RIGHTMOST_ONE_spec w k Hw Hl). destruct Hl as (Hk & Hb & Hlow).
  assert (k < 32) as Hk32.
  { destruct (decide (k < 32)); [assumption|]. rewrite (testbit_small w k 32) in Hb by (assumption || lia). discriminate. }
  assert (ones 32 w = 1 + Z.of_nat (length (bits w (k + 1) (31 - k)))) as E.
  { unfold ones. replace 32 with (k + (1 + (31 - k))) at 1 by lia. rewrite !bits_split by lia. rewrite Z.add_0_l.
    rewrite (bits_none w 0 k) by (intros i Hi; apply Hlow; lia). rewrite (bits_one w k) by exact Hb. rewrite !length_app. simpl. lia. }
  split; [|lia]. rewrite E. split.
  - intros E1. assert (bits w (k + 1) (31 - k) = []) as Nil by (destruct (bits w (k + 1) (31 - k)); [reflexivity|simpl in E1; lia]).
    apply Z.bits_inj'. intros i Hi. rewrite Z.pow2_bits_eqb by lia. destruct (Z.eqb_spec k i) as [->|Ne]; [symmetry; exact Hb|].
    destruct (decide (i < k)); [symmetry; apply Hlow; lia|]. destruct (decide (i < 32)); [|symmetry; apply (testbit_small w i 32); [exact Hw|lia]].
    destruct (Z.testbit w i) eqn:Bi; [|reflexivity]. assert (In i (bits w (k + 1) (31 - k))) as Hin.
    { apply in_bits. split; [lia|exact Bi]. }
    rewrite Nil in Hin. destruct Hin.
  - intros <-. rewrite bits_none; [reflexivity|]. intros i Hi. rewrite Z.pow2_bits_eqb by lia. apply Z.eqb_neq. lia.
Qed.

Lemma word_lowbit w : word_ok w -> w <> 0 -> exists k, lowbit w k.
Proof. intros Hw Nz. destruct (rightmost_bit_spec w 0 Hw Nz) as (k & _ & Hl & _). eauto. Qed.

Lemma HAS_MULTIPLE_ONES_spec w : word_ok w -> w <> 0 -> HAS_MULTIPLE_ONES w = negb (ones 32 w =? 1) /\ 1 <= ones 32 w.
Proof.
  intros Hw Nz. destruct (word_lowbit w Hw Nz) as [k Hl]. destruct (lowbit_ones w k Hw Hl) as [E L]. split; [|exact L].
  unfold HAS_MULTIPLE_ONES. f_equal. apply eq_true_iff_eq. rewrite !Z.eqb_eq. symmetry. exact E.
Qed.

Definition classify (n : Z) : BMS_Membership := if n =? 0 then BMS_EMPTY_SET else if n =? 1 then BMS_SINGLETON else BMS_MULTIPLE.

Lemma ones_nonneg n v : 0 <= ones n v.
Proof. unfold ones. lia. Qed.

Lemma membership_loop_spec ws r c : Forall word_ok ws -> r = classify c -> r <> BMS_MULTIPLE -> 0 <= c ->
  membership_loop ws r = classify (c + ones (32 * Z.of_nat (length ws)) (words_val ws)).
Proof.
  intros Hws. revert r c. induction Hws as [|w ws Hw Hws IH]; intros r c -> Nm Hc; cbn [membership_loop].
  { simpl. rewrite ones_0, Z.add_0_r. reflexivity. }
  rewrite ones_words by assumption. pose proof (ones_nonneg (32 * Z.of_nat (length ws)) (words_val ws)) as L.
  destruct (Z.eqb_spec w 0) as [->|Nz]; cbn [negb].
  - rewrite ones_0. rewrite (IH (classify c) c); auto.
  - destruct (HAS_MULTIPLE_ONES_spec w Hw Nz) as [-> L1]. unfold classify in *.
    set (t := ones (32 * Z.of_nat (length ws)) (words_val ws)) in *. destruct (Z.eqb_spec c 0) as [E0|N0].
    + destruct (Z.eqb_spec (ones 32 w) 1) as [E1|]; cbn [negb].
      * rewrite (IH _ 1); [rewrite E0, E1; reflexivity|reflexivity|discriminate|lia].
      * destruct (Z.eqb_spec (c + (ones 32 w + t)) 0); [lia|]. destruct (Z.eqb_spec (c + (ones 32 w + t)) 1); [lia|reflexivity].
    + destruct (Z.eqb_spec c 1); [|congruence].
      destruct (Z.eqb_spec (c + (ones 32 w + t)) 0); [lia|]. destruct (Z.eqb_spec (c + (ones 32 w + t)) 1); [lia|reflexivity].
Qed.

Lemma bms_membership_spec a : bms_wf a -> bms_membership a = classify (Z.of_nat (length (members a))).
Proof.
  intros Ha. destruct a as [ws|]; [|reflexivity]. unfold bms_membership.
  rewrite (membership_loop_spec ws _ 0 Ha); [reflexivity|reflexivity|discriminate|lia].
Qed.

(** The members from word [n] on, numbered from the start of the set. *)
Lemma members_words w ws n : word_ok w -> Forall word_ok ws ->
  map (Z.add (32 * n)) (bits (words_val (w :: ws)) 0 (32 * Z.of_nat (length (w :: ws))))
  = map (Z.add (32 * n)) (bits w 0 32) ++ map (Z.add (32 * (n + 1))) (bits (words_val ws) 0 (32 * Z.of_nat (length ws))).
Proof.
  intros Hw Hws. cbn [length words_val]. replace (32 * Z.of_nat (S (length ws))) with (32 + 32 * Z.of_nat (length ws)) by lia.
  rewrite bits_split, map_app by lia. f_equal.
  - f_equal. apply bits_ext. intros i Hi. rewrite cat_testbit by (assumption || lia). rewrite (proj2 (Z.ltb_lt i 32)) by lia. reflexivity.
  - rewrite (bits_shift _ 0) by lia. rewrite cat_shiftr by (exact Hw || apply words_val_nonneg, Hws). rewrite map_map.
    apply map_ext. intros i. lia.
Qed.

Lemma only_member (l : list Z) k : Z.of_nat (length l) = 1 -> In k l -> l = [k].
Proof. destruct l as [|x [|y l]]; intros E Hk; [discriminate E| |simpl in E; lia]. destruct Hk as [->|[]]. reflexivity. Qed.

Lemma single_word w k : word_ok w -> lowbit w k -> ones 32 w = 1 -> bits w 0 32 = [k].
Proof.
  intros Hw Hl E. assert (In k (bits w 0 32)) as Hk.
  { destruct Hl as (Hk & Hb & _). apply in_bits. split; [|exact Hb].
    destruct (decide (k < 32)); [lia|]. rewrite (testbit_small w k 32) in Hb by (assumption || lia). discriminate. }
  rewrite ones_length in E. apply only_member; assumption.
Qed.

(** The loop with no member found yet: the only member of the rest, -1, or several. *)
Lemma singleton_loop_spec ws n r : Forall word_ok ws -> 0 <= n ->
  singleton_loop ws n r
  = match map (Z.add (32 * n)) (bits (words_val ws) 0 (32 * Z.of_nat (length ws))) with
    | [] => Some r
    | [x] => if r >=? 0 then None else Some x
    | _ => None
    end.
Proof.
  intros Hws. revert n r. induction Hws as [|w ws Hw Hws IH]; intros n r Hn; [reflexivity|]. rewrite members_words by assumption.
  cbn [singleton_loop]. destruct (Z.eqb_spec w 0) as [->|Nz]; cbn [negb].
  - rewrite (bits_none 0) by (intros; apply Z.bits_0). cbn [map app]. apply IH. lia.
  - destruct (word_lowbit w Hw Nz) as [k Hl]. destruct (HAS_MULTIPLE_ONES_spec w Hw Nz) as [-> L1].
    destruct (Z.eqb_spec (ones 32 w) 1) as [E1|E1]; cbn [negb].
    + rewrite (single_word w k Hw Hl E1). cbn [map app]. rewrite orb_false_r.
      destruct (rightmost_bit_spec w (n * BITS_PER_BITMAPWORD) Hw Nz) as (k' & -> & Hl' & _). rewrite (lowbit_unique w k' k Hl' Hl).
      unfold BITS_PER_BITMAPWORD. rewrite IH by lia. assert ((n * 32 + k >=? 0) = true) as -> by (apply Z.geb_le; destruct Hl; lia).
      destruct (map _ _) as [|y [|z l]], (r >=? 0); try reflexivity. do 2 f_equal. lia.
    + rewrite orb_true_r. rewrite ones_length in E1, L1. revert E1 L1. generalize (bits w 0 32) as l. intros l E1 L1.
      destruct l as [|x [|y l]]; [simpl in L1; lia|simpl in E1; lia|reflexivity].
Qed.

(** bms_membership, bms_singleton_member and bms_get_singleton_member tell empty, one-element
    and larger sets apart, and return the only member of a singleton. *)
Theorem bms_singletons a : bms_wf a ->
  match members a with
  | [] => bms_membership a = BMS_EMPTY_SET /\ bms_singleton_member a = Error "bitmapset is empty" /\ bms_get_singleton_member a = None
  | [x] => bms_membership a = BMS_SINGLETON /\ bms_singleton_member a = Ok x /\ bms_get_singleton_member a = Some x
  | _ => bms_membership a = BMS_MULTIPLE /\ bms_singleton_member a = Error "bitmapset has multiple members"
         /\ bms_get_singleton_member a = None
  end.
Proof.
  intros Ha. rewrite (bms_membership_spec a Ha). pose proof (fun x => proj1 (members_spec a x Ha)) as M.
  unfold bms_singleton_member, bms_get_singleton_member. destruct a as [ws|]; [|simpl; auto].
  rewrite (singleton_loop_spec ws 0 (-1) Ha) by lia.
  assert (map (Z.add (32 * 0)) (bits (words_val ws) 0 (32 * Z.of_nat (length ws))) = members (Some ws)) as ->
    by (rewrite (map_ext _ id) by (intros; unfold id; lia); apply map_id).
  destruct (members (Some ws)) as [|x [|y l]]; [simpl; auto| |].
  - destruct (M x ltac:(left; reflexivity)) as [Hx _]. change (-1 >=? 0) with false. cbv iota. rewrite (proj2 (Z.ltb_ge x 0)) by lia. auto.
  - unfold classify. split_and!; try reflexivity. cbn [length]. destruct (Z.eqb_spec (Z.of_nat (S (S (length l)))) 0); [lia|].
    destruct (Z.eqb_spec (Z.of_nat (S (S (length l)))) 1); [lia|reflexivity].
Qed.

(** ** Removing the first member *)

Lemma first_member_loop_spec ws n : Forall word_ok ws -> 0 <= n ->
  let '(r, ws') := first_member_loop ws n in
  Forall word_ok ws' /\
  ((r = -1 /\ ws' = ws /\ words_val ws = 0)
   \/ exists k, r = 32 * n + k /\ lowbit (words_val ws) k
        /\ forall i, 0 <= i -> Z.testbit (words_val ws') i = negb (k =? i) && Z.testbit (words_val ws) i).
Proof.
  intros Hws. revert n. induction Hws as [|w ws Hw Hws IH]; intros n Hn; cbn [first_member_loop].
  { split; [constructor|]. left. auto. }
  destruct (Z.eqb_spec w 0) as [->|Nz]; cbn [negb].
  - specialize (IH (n + 1) ltac:(lia)). destruct (first_member_loop ws (n + 1)) as [r ws'] eqn:E. destruct IH as [W' IH].
    split; [constructor; [apply zero_word|exact W']|]. destruct IH as [(-> & -> & V)|(k & -> & (Hk & Hb & Hl) & B)].
    + left. cbn [words_val]. rewrite V. auto using cat_0.
    + right. exists (k + 32). split; [lia|]. cbn [words_val]. split; [split_and!; [lia| |]|].
      * rewrite cat_testbit by (apply zero_word || lia). rewrite (proj2 (Z.ltb_ge (k + 32) 32)) by lia. rewrite Z.add_simpl_r. exact Hb.
      * intros i Hi. rewrite cat_testbit by (apply zero_word || lia). destruct (Z.ltb_spec i 32); [apply Z.bits_0|apply Hl; lia].
      * intros i Hi. rewrite !cat_testbit by (apply zero_word || lia). destruct (Z.ltb_spec i 32).
        -- rewrite Z.bits_0, andb_false_r. reflexivity.
        -- rewrite B by lia. do 2 f_equal. apply eq_true_iff_eq. rewrite !Z.eqb_eq. lia.
  - destruct (word_lowbit w Hw Nz) as [k Hl]. rewrite (RIGHTMOST_ONE_spec w k Hw Hl), land_not32 by exact Hw.
    assert (k < 32) as Hk32 by (destruct (rightmost_bit_spec w 0 Hw Nz) as (k' & _ & Hl' & ?); rewrite (lowbit_unique w k k' Hl Hl'); assumption).
    destruct Hl as (Hk & Hb & Hlow). split; [constructor; [apply ldiff_word; [exact Hw|apply Z.pow_nonneg; lia]|exact Hws]|].
    right. exists k. split_and!.
    + assert (word_ok (2 ^ k)) as Wp by (split; [apply Z.pow_nonneg; lia|apply Z.pow_lt_mono_r; lia]).
      destruct (rightmost_bit_spec (2 ^ k) (n * BITS_PER_BITMAPWORD) Wp ltac:(pose proof (pow2_pos k Hk); lia)) as (k' & -> & Hl' & _).
      rewrite (lowbit_unique (2 ^ k) k' k Hl'); [unfold BITS_PER_BITMAPWORD; lia|]. split_and!; [exact Hk|apply Z.pow2_bits_true, Hk|].
      intros i Hi. rewrite Z.pow2_bits_eqb by lia. apply Z.eqb_neq. lia.
    + cbn [words_val]. split_and!; [exact Hk| |].
      * rewrite cat_testbit by (exact Hw || lia). rewrite (proj2 (Z.ltb_lt k 32)) by lia. exact Hb.
      * intros i Hi. rewrite cat_testbit by (exact Hw || lia). rewrite (proj2 (Z.ltb_lt i 32)) by lia. apply Hlow, Hi.
    + intros i Hi. cbn [words_val]. rewrite !cat_testbit; [|exact Hw|exact Hi|apply ldiff_word; [exact Hw|apply Z.pow_nonneg; lia]|exact Hi].
      destruct (Z.ltb_spec i 32).
      * rewrite Z.ldiff_spec, Z.pow2_bits_eqb by lia. apply andb_comm.
      * destruct (Z.eqb_spec k i); [lia|reflexivity].
Qed.

(** bms_first_member returns -1 on an empty set and leaves it alone; otherwise it returns the
    least member and removes exactly that member from the set. *)
Theorem bms_first_member_spec a : bms_wf a ->
  let '(r, a') := bms_first_member a in
  bms_wf a' /\ ((r = -1 /\ a' = a /\ forall x, ~ member x a)
                \/ (member r a /\ (forall x, member x a -> r <= x) /\ represents a' (fun x => member x a /\ x <> r))).
Proof.
  intros Ha. destruct a as [ws|]; simpl.
  2: { split; [exact I|]. left. split_and!; [reflexivity..|]. intros x [_ Hx]. simpl in Hx. rewrite Z.bits_0 in Hx. discriminate. }
  pose proof (first_member_loop_spec ws 0 Ha ltac:(lia)) as S. destruct (first_member_loop ws 0) as [r ws']. destruct S as [W S].
  split; [exact W|]. destruct S as [(-> & -> & V)|(k & -> & (Hk & Hb & Hl) & B)].
  - left. split_and!; [reflexivity..|]. intros x [_ Hx]. simpl in Hx. rewrite V, Z.bits_0 in Hx. discriminate.
  - right. replace (32 * 0 + k) with k by lia. split_and!; [split; assumption| |].
    + intros x [Hx Bx]. simpl in Bx. destruct (decide (x < k)); [|lia]. rewrite Hl in Bx by lia. discriminate.
    + eapply represents_bits; [split; [exact W|reflexivity]| |].
      * intros x Hx. simpl bms_val. rewrite B, andb_true_iff, negb_true_iff, Z.eqb_neq by lia. unfold member. simpl bms_val. intuition congruence.
      * intros x [[? _] _]. assumption.
Qed.

(** ** Hashing *)

Section Hash.
(** access/hash/hashfunc.c: hash_any, over the words of the set. *)
Variable hash_any : list Z -> Z.

(** [for (lastword = a->nwords; --lastword >= 0;)] up to a non-zero word. *)
Fixpoint lastword_from (n : nat) (ws : list Z) : option nat :=
  match n with
  | O => None
  | S n => if negb (nth n ws 0 =? 0) then Some n else lastword_from n ws
  end.

Definition bms_hash_value (a : Bitmapset) : Z :=
  match a with
  | None => 0
  | Some ws => match lastword_from (length ws) ws with
               | None => 0
               | Some lastword => hash_any (take (lastword + 1) ws)
               end
  end.

(** The words without trailing zeros. *)
Fixpoint strip (ws : list Z) : list Z :=
  match ws with
  | [] => []
  | w :: ws => match strip ws with [] => if w =? 0 then [] else [w] | l => w :: l end
  end.

Lemma strip_snoc ws w : strip (ws ++ [w]) = if w =? 0 then strip ws else ws ++ [w].
Proof.
  induction ws as [|v ws IH]; simpl; [destruct (w =? 0); reflexivity|]. rewrite IH. destruct (w =? 0); [reflexivity|].
  destruct ws; reflexivity.
Qed.

Lemma lastword_app n ws w : (n <= length ws)%nat -> lastword_from n (ws ++ [w]) = lastword_from n ws.
Proof. induction n as [|n IH]; intros L; cbn [lastword_from]; [reflexivity|]. rewrite app_nth1 by lia. rewrite IH by lia. reflexivity. Qed.

Lemma lastword_lt n ws k : lastword_from n ws = Some k -> (k < n)%nat.
Proof.
  induction n as [|n IH]; cbn [lastword_from]; [discriminate|]. destruct (negb _); [intros E; injection E as <-; lia|].
  intros E. apply IH in E. lia.
Qed.

Lemma lastword_strip ws : match lastword_from (length ws) ws with None => strip ws = [] | Some n => take (n + 1) ws = strip ws end.
Proof.
  induction ws as [|w ws IH] using rev_ind; [reflexivity|]. rewrite length_app, Nat.add_comm. cbn [length Nat.add lastword_from].
  rewrite nth_middle, lastword_app, strip_snoc by lia. destruct (w =? 0); cbn [negb].
  - destruct (lastword_from (length ws) ws) as [n|] eqn:E; [|exact IH]. apply lastword_lt in E. rewrite take_app_le by lia. exact IH.
  - apply take_ge. rewrite length_app. simpl. lia.
Qed.

Lemma strip_nil ws : words_val ws = 0 -> Forall word_ok ws -> strip ws = [].
Proof.
  intros V Hws. revert V. induction Hws as [|w ws Hw Hws IH]; [reflexivity|]. intros V. cbn [words_val] in V.
  apply cat_eq_0 in V as [-> V]; [|exact Hw]. simpl. rewrite (IH V). reflexivity.
Qed.

Lemma strip_val a b : Forall word_ok a -> Forall word_ok b -> words_val a = words_val b -> strip a = strip b.
Proof.
  intros Ha. revert b. induction Ha as [|w a Hw Ha IH]; intros b Hb E.
  - symmetry. apply strip_nil; [symmetry; exact E|exact Hb].
  - destruct Hb as [|v b Hv Hb]; [apply strip_nil; [exact E|constructor; assumption]|]. cbn [words_val] in E.
    apply cat_inj in E as [-> E]; [|exact Hw|exact Hv]. simpl. rewrite (IH b Hb E). reflexivity.
Qed.

Lemma bms_hash_strip ws : bms_hash_value (Some ws) = match strip ws with [] => 0 | l => hash_any l end.
Proof.
  unfold bms_hash_value. pose proof (lastword_strip ws) as L. destruct (lastword_from (length ws) ws) as [n|] eqn:E.
  - rewrite <- L. destruct ws as [|w ws]; [discriminate E|]. rewrite Nat.add_comm. reflexivity.
  - rewrite L. reflexivity.
Qed.

(** Bitmapsets that bms_equal holds to be equal hash alike, whatever the hash function: the
    trailing zero words of either are not hashed. *)
Theorem bms_hash_equal a b : bms_wf a -> bms_wf b -> bms_equal a b = true -> bms_hash_value a = bms_hash_value b.
Proof.
  intros Ha Hb E. rewrite bms_equal_val, Z.eqb_eq in E by assumption.
  assert (forall c, bms_wf c -> bms_hash_value c = match strip (default [] c) with [] => 0 | l => hash_any l end) as H.
  { intros [ws|] _; [apply bms_hash_strip|reflexivity]. }
  rewrite (H a Ha), (H b Hb), (strip_val (default [] a) (default [] b)); [reflexivity|destruct a; [exact Ha|constructor]|destruct b; [exact Hb|constructor]|].
  destruct a, b; exact E.
Qed.
End Hash.

(** ** Witnesses *)

Definition sample_a : Bitmapset := Some [10; 0; 1; 0].
Definition sample_b : Bitmapset := Some [8; 0; 5].

Lemma sample_a_wf : bms_wf sample_a.
Proof. repeat constructor; vm_compute; congruence. Qed.
Lemma sample_b_wf : bms_wf sample_b.
Proof. repeat constructor; vm_compute; congruence. Qed.

Lemma bms_iteration_witness : enumerate 129 sample_a (-1) = [1; 3; 64] /\ bms_num_members sample_a = 3.
Proof.
  split; [vm_compute; reflexivity|]. destruct (bms_iteration sample_a sample_a_wf) as (_ & _ & E & _).
  rewrite E. vm_compute. reflexivity.
Defined.

Lemma bms_refines_sets_witness :
  represents (bms_union sample_a sample_b) (fun x => member x sample_a \/ member x sample_b)
  /\ represents (bms_difference sample_a sample_b) (fun x => member x sample_a /\ ~ member x sample_b).
Proof. split; apply (bms_refines_sets sample_a sample_b sample_a_wf sample_b_wf). Defined.

Lemma bms_single_members_witness :
  exists r, bms_add_member sample_a 200 = Ok r /\ represents r (fun y => y = 200 \/ member y sample_a).
Proof. apply (bms_single_members sample_a 200 sample_a_wf). Defined.

Lemma bms_singletons_witness : bms_membership sample_a = BMS_MULTIPLE /\ bms_get_singleton_member sample_a = None.
Proof. split; apply (bms_singletons sample_a sample_a_wf). Defined.

Lemma bms_first_member_spec_witness : bms_first_member sample_a = (1, Some [8; 0; 1; 0]) /\ bms_wf (Some [8; 0; 1; 0]).
Proof. split; [reflexivity|apply (bms_first_member_spec sample_a sample_a_wf)]. Defined.

Lemma bms_hash_equal_witness : bms_hash_value (fold_right Z.add 7) sample_a = bms_hash_value (fold_right Z.add 7) (Some [10; 0; 1]).
Proof.
  apply (bms_hash_equal (fold_right Z.add 7) sample_a (Some [10; 0; 1]) sample_a_wf); [|reflexivity].
  repeat constructor; vm_compute; congruence.
Defined.
