(* ===== verification/PlanTypes.v ===== *)
(** The planner's data: expressions, restriction clauses, relations, path keys
    and path nodes (nodes/relation.h, nodes/primnodes.h, nodes/nodes.h), the
    planner's settings (the variables of costsize.c and pathnode.c that guc.c
    sets) and the library functions the cost model calls.

    A struct that embeds [Path] as its first member is one [Path] value whose
    [extra] holds the other members, so that a cast of a [Path *] is a match on
    [extra] and [nodeTag] is read off it.  The path lists of a [RelOptInfo],
    which the planner mutates, are in a record of their own ([RelPaths]). *)
From S2P Require Import Prelude Float64 Double Bitmapset.
Open Scope double_scope.

Abbreviation Cost := double (only parsing).
Abbreviation Selectivity := double (only parsing).
Abbreviation Oid := Z (only parsing).
Abbreviation Relids := Bitmapset (only parsing).
Abbreviation BlockNumber := Z (only parsing).

(** ** Library functions *)

(** The functions of libm the sources call and the kernel cannot compute. *)
Class Libm := {
  log : double -> double;
  pow : double -> double -> double;
}.

(** What C99 (Annex F) promises of them for the special arguments. *)
Class LibmLaws `{Libm} := {
  log_zero : forall x, deq x dzero = true -> log x = dinf true;
  log_one : log (i2d 1) = dzero;
  log_neg : forall x, (x <? dzero) = true -> log x = dnan;
  log_inf : log (dinf false) = dinf false;
  log_nan : log dnan = dnan;
  pow_0 : forall x, pow x dzero = i2d 1;
  pow_of_0 : forall y, (y >? dzero) = true -> pow dzero y = dzero;
}.

(** Results that are representable are exact, as an error below one unit in the
    last place implies. *)
Class LibmExact `{Libm} := {
  pow_1 : forall n, 0 <= n < 2 ^ 53 -> pow (i2d n) (i2d 1) = i2d n;
  pow_2 : forall n, 0 <= n < 2 ^ 26 -> pow (i2d n) (i2d 2) = i2d (n * n)%Z;
}.

(** The logarithm of a number not below one is not negative. *)
Class LibmOrder `{Libm} := {
  log_ge_1 : forall x, (i2d 1 <=? x)%D = true -> nonneg (log x) = true;
}.

(** ** Settings *)

(** The planner's variables (costsize.c and pathnode.c), set through guc.c. *)
Class Settings := {
  seq_page_cost : double;
  random_page_cost : double;
  cpu_tuple_cost : double;
  cpu_index_tuple_cost : double;
  cpu_operator_cost : double;
  parallel_tuple_cost : double;
  parallel_setup_cost : double;
  effective_cache_size : Z;
  disable_cost : Cost;
  max_parallel_workers_per_gather : Z;
  min_parallel_table_scan_size : Z;
  min_parallel_index_scan_size : Z;
  work_mem : Z;
  enable_seqscan : bool;
  enable_indexscan : bool;
  enable_indexonlyscan : bool;
  enable_bitmapscan : bool;
  enable_tidscan : bool;
  enable_sort : bool;
  enable_hashagg : bool;
  enable_nestloop : bool;
  enable_material : bool;
  enable_mergejoin : bool;
  enable_hashjoin : bool;
  enable_gathermerge : bool;
  time_weight : double;
  power_weight : double;
}.

(** The defaults (cost.h, costsize.c, guc.c). *)
Definition default_settings : Settings := {|
  seq_page_cost := i2d 1;
  random_page_cost := i2d 4;
  cpu_tuple_cost := dlit 1 100;
  cpu_index_tuple_cost := dlit 5 1000;
  cpu_operator_cost := dlit 25 10000;
  parallel_tuple_cost := dlit 1 10;
  parallel_setup_cost := i2d 1000;
  effective_cache_size := 524288;
  disable_cost := i2d (10 ^ 10);
  max_parallel_workers_per_gather := 2;
  min_parallel_table_scan_size := 1024;
  min_parallel_index_scan_size := 64;
  work_mem := 4096;
  enable_seqscan := true;
  enable_indexscan := true;
  enable_indexonlyscan := true;
  enable_bitmapscan := true;
  enable_tidscan := true;
  enable_sort := true;
  enable_hashagg := true;
  enable_nestloop := true;
  enable_material := true;
  enable_mergejoin := true;
  enable_hashjoin := true;
  enable_gathermerge := true;
  time_weight := i2d 1;
  power_weight := i2d 0;
|}.

(** The ranges guc.c allows for the settings, as far as the cost model needs
    them: page and tuple costs are in [0, DBL_MAX], the weights in [0, 1]. *)
Record settings_ok `{Settings} : Prop := {
  seq_page_cost_ok : nonneg seq_page_cost = true /\ finite seq_page_cost;
  random_page_cost_ok : nonneg random_page_cost = true /\ finite random_page_cost;
  cpu_tuple_cost_ok : nonneg cpu_tuple_cost = true /\ finite cpu_tuple_cost;
  cpu_index_tuple_cost_ok : nonneg cpu_index_tuple_cost = true /\ finite cpu_index_tuple_cost;
  cpu_operator_cost_ok : nonneg cpu_operator_cost = true /\ finite cpu_operator_cost;
  parallel_tuple_cost_ok : nonneg parallel_tuple_cost = true /\ finite parallel_tuple_cost;
  parallel_setup_cost_ok : nonneg parallel_setup_cost = true /\ finite parallel_setup_cost;
  disable_cost_ok : disable_cost = i2d (10 ^ 10);
  effective_cache_size_ok : 1 <= effective_cache_size < 2 ^ 31;
  work_mem_ok : 64 <= work_mem < 2 ^ 31;
  max_parallel_workers_ok : 0 <= max_parallel_workers_per_gather <= 1024;
  min_parallel_table_scan_size_ok : 0 <= min_parallel_table_scan_size <= 715827882;
  min_parallel_index_scan_size_ok : 0 <= min_parallel_index_scan_size <= 715827882;
}.

(** ** Expressions and restriction clauses *)

Record QualCost := mkQualCost { startup : Cost; per_tuple : Cost }.

(** The members of a RestrictInfo that describe its use as a join clause; an
    equivalence class is named by its address. *)
Record JoinClause := mkJoinClause {
  jc_can_join : bool;
  jc_mergeopfamilies : list Oid;
  jc_hashjoinoperator : Oid;
  jc_left_ec : Z;
  jc_right_ec : Z;
  jc_outer_is_left : bool;
  jc_required_relids : Relids;
}.

(** A clause that is no join clause. *)
Definition no_join : JoinClause := mkJoinClause false [] 0 0 0 false None.

(** nodes/primnodes.h *)
Inductive BoolExprType := AND_EXPR | OR_EXPR | NOT_EXPR.
Inductive NullTestType := IS_NULL | IS_NOT_NULL.
Inductive BoolTestType := IS_TRUE | IS_NOT_TRUE | IS_FALSE | IS_NOT_FALSE | IS_UNKNOWN | IS_NOT_UNKNOWN.

(** Expression nodes, with the fields the cost walker and the selectivity estimates
    read.  [OtherExpr] stands for the node types neither has a case for and whose
    children expression_tree_walker visits (CaseExpr, ArrayExpr, ...);
    [UnknownNode] for a node type expression_tree_walker rejects.  Two values
    the source computes from a child are kept beside it: [argtype], its
    exprType, and [array_length], its estimate_array_length.  The value of a
    constant is read as a boolean only. *)
Inductive Node : Type :=
| Var (varno varattno : Z)
| Const (constisnull constvalue : bool)
| Param
| FuncExpr (funcid : Oid) (args : list Node)
| OpExpr (opno opfuncid : Oid) (args : list Node)
| DistinctExpr (opno opfuncid : Oid) (args : list Node)
| NullIfExpr (opno opfuncid : Oid) (args : list Node)
| ScalarArrayOpExpr (opno opfuncid : Oid) (scalar array : Node) (array_length : Z)
| Aggref (args : list Node)
| WindowFunc (args : list Node)
| CoerceViaIO (resulttype : Oid) (arg : Node) (argtype : Oid)
| ArrayCoerceExpr (elemfuncid : Oid) (arg : Node) (array_length : Z)
| RowCompareExpr (opnos : list Oid) (largs rargs : list Node)
| MinMaxExpr (args : list Node)
| SQLValueFunction
| XmlExpr (named_args args : list Node)
| CoerceToDomain (arg : Node)
| NextValueExpr
| CurrentOfExpr (cvarno : Z)
| SubLink
| SubPlan (startup_cost per_call_cost : Cost) (testexpr : Node) (args : list Node)
| AlternativeSubPlan (subplan : Node) (others : list Node)
| PlaceHolderVar (phexpr : Node)
| BoolExpr (boolop : BoolExprType) (args : list Node)
| NullTest (nulltesttype : NullTestType) (arg : Node)
| BooleanTest (booltesttype : BoolTestType) (arg : Node)
| RelabelType (arg : Node)
| OtherExpr (children : list Node)
| UnknownNode
| RestrictInfoNode (rinfo : RestrictInfo)
with RestrictInfo : Type :=
| mkRestrictInfo
    (ri_ptr : Z)
    (clause : Node)
    (is_pushed_down pseudoconstant : bool)
    (clause_relids outer_relids nullable_relids left_relids right_relids : Relids)
    (orclause : option Node)
    (parent_ec : option Z)
    (eval_cost : QualCost)
    (left_bucketsize right_bucketsize : Selectivity)
    (ri_join : JoinClause).

Definition ri_ptr (r : RestrictInfo) : Z :=
  let (p, _, _, _, _, _, _, _, _, _, _, _, _, _, _) := r in p.
Definition clause (r : RestrictInfo) : Node :=
  let (_, c, _, _, _, _, _, _, _, _, _, _, _, _, _) := r in c.
Definition is_pushed_down (r : RestrictInfo) : bool :=
  let (_, _, b, _, _, _, _, _, _, _, _, _, _, _, _) := r in b.
Definition pseudoconstant (r : RestrictInfo) : bool :=
  let (_, _, _, b, _, _, _, _, _, _, _, _, _, _, _) := r in b.
Definition clause_relids (r : RestrictInfo) : Relids :=
  let (_, _, _, _, x, _, _, _, _, _, _, _, _, _, _) := r in x.
Definition outer_relids (r : RestrictInfo) : Relids :=
  let (_, _, _, _, _, x, _, _, _, _, _, _, _, _, _) := r in x.
Definition nullable_relids (r : RestrictInfo) : Relids :=
  let (_, _, _, _, _, _, x, _, _, _, _, _, _, _, _) := r in x.
Definition left_relids (r : RestrictInfo) : Relids :=
  let (_, _, _, _, _, _, _, x, _, _, _, _, _, _, _) := r in x.
Definition right_relids (r : RestrictInfo) : Relids :=
  let (_, _, _, _, _, _, _, _, x, _, _, _, _, _, _) := r in x.
Definition orclause (r : RestrictInfo) : option Node :=
  let (_, _, _, _, _, _, _, _, _, x, _, _, _, _, _) := r in x.
Definition parent_ec (r : RestrictInfo) : option Z :=
  let (_, _, _, _, _, _, _, _, _, _, x, _, _, _, _) := r in x.
Definition eval_cost (r : RestrictInfo) : QualCost :=
  let (_, _, _, _, _, _, _, _, _, _, _, x, _, _, _) := r in x.
Definition left_bucketsize (r : RestrictInfo) : Selectivity :=
  let (_, _, _, _, _, _, _, _, _, _, _, _, x, _, _) := r in x.
Definition right_bucketsize (r : RestrictInfo) : Selectivity :=
  let (_, _, _, _, _, _, _, _, _, _, _, _, _, x, _) := r in x.
Definition ri_join (r : RestrictInfo) : JoinClause :=
  let (_, _, _, _, _, _, _, _, _, _, _, _, _, _, x) := r in x.

Definition can_join (r : RestrictInfo) : bool := jc_can_join (ri_join r).
Definition mergeopfamilies (r : RestrictInfo) : list Oid := jc_mergeopfamilies (ri_join r).
Definition hashjoinoperator (r : RestrictInfo) : Oid := jc_hashjoinoperator (ri_join r).
Definition left_ec (r : RestrictInfo) : Z := jc_left_ec (ri_join r).
Definition right_ec (r : RestrictInfo) : Z := jc_right_ec (ri_join r).
Definition outer_is_left (r : RestrictInfo) : bool := jc_outer_is_left (ri_join r).
Definition required_relids (r : RestrictInfo) : Relids := jc_required_relids (ri_join r).

(** ** Relations, path keys and parameterizations *)

(** [pk_ptr] is the address of the canonical node: path keys are compared by
    pointer. *)
Record PathKey := mkPathKey {
  pk_ptr : Z;
  pk_eclass : Z;
  pk_opfamily : Oid;
  pk_strategy : Z;
  pk_nulls_first : bool;
}.

Record PathTarget := mkPathTarget {
  exprs : list Node;
  target_cost : QualCost;
  width : Z;
}.

Inductive RelOptKind :=
  RELOPT_BASEREL | RELOPT_JOINREL | RELOPT_OTHER_MEMBER_REL | RELOPT_UPPER_REL | RELOPT_DEADREL.
Inductive RTEKind :=
  RTE_RELATION | RTE_SUBQUERY | RTE_JOIN | RTE_FUNCTION | RTE_TABLEFUNC | RTE_VALUES | RTE_CTE
| RTE_NAMEDTUPLESTORE.
Inductive JoinType :=
  JOIN_INNER | JOIN_LEFT | JOIN_FULL | JOIN_RIGHT | JOIN_SEMI | JOIN_ANTI | JOIN_UNIQUE_OUTER
| JOIN_UNIQUE_INNER.
Inductive CostSelector := STARTUP_COST | TOTAL_COST.
Inductive AggStrategy := AGG_PLAIN | AGG_SORTED | AGG_HASHED | AGG_MIXED.
Inductive UniquePathMethod := UNIQUE_PATH_NOOP | UNIQUE_PATH_HASH | UNIQUE_PATH_SORT.

#[export] Instance AggStrategy_eq_dec : EqDecision AggStrategy.
Proof. solve_decision. Defined.
#[export] Instance UniquePathMethod_eq_dec : EqDecision UniquePathMethod.
Proof. solve_decision. Defined.
#[export] Instance JoinType_eq_dec : EqDecision JoinType.
Proof. solve_decision. Defined.
#[export] Instance RelOptKind_eq_dec : EqDecision RelOptKind.
Proof. solve_decision. Defined.

Definition IS_OUTER_JOIN (jointype : JoinType) : bool :=
  match jointype with
  | JOIN_LEFT | JOIN_FULL | JOIN_RIGHT | JOIN_ANTI => true
  | _ => false
  end.

Record RelOptInfo := mkRelOptInfo {
  reloptkind : RelOptKind;
  relids : Relids;
  rel_rows : double;
  consider_startup : bool;
  consider_param_startup : bool;
  consider_parallel : bool;
  reltarget : PathTarget;
  relid : Z;
  reltablespace : Oid;
  rtekind : RTEKind;
  pages : BlockNumber;
  tuples : double;
  allvisfrac : double;
  rel_parallel_workers : Z;
  baserestrictinfo : list RestrictInfo;
  baserestrictcost : QualCost;
}.

Record ParamPathInfo := mkParamPathInfo {
  ppi_req_outer : Relids;
  ppi_rows : double;
  ppi_clauses : list RestrictInfo;
}.

Record IndexOptInfo := mkIndexOptInfo {
  indexoid : Oid;
  index_rel : RelOptInfo;
  index_pages : BlockNumber;
  index_tuples : double;
  indrestrictinfo : list RestrictInfo;
}.

(** The fields of PlannerInfo the modelled code reads. *)
Record PlannerInfo := mkPlannerInfo {
  total_table_pages : double;
  tuple_fraction : double;
  all_baserels : Relids;
  limit_tuples : double;
  group_pathkeys : list PathKey;
}.

(** ** Paths *)

Inductive PlanTag :=
  T_Result | T_ProjectSet | T_ModifyTable | T_Append | T_MergeAppend | T_RecursiveUnion
| T_BitmapAnd | T_BitmapOr | T_SeqScan | T_SampleScan | T_IndexScan | T_IndexOnlyScan
| T_BitmapIndexScan | T_BitmapHeapScan | T_TidScan | T_SubqueryScan | T_FunctionScan
| T_ValuesScan | T_TableFuncScan | T_CteScan | T_NamedTuplestoreScan | T_WorkTableScan
| T_ForeignScan | T_CustomScan | T_NestLoop | T_MergeJoin | T_HashJoin | T_Material | T_Sort
| T_Group | T_Agg | T_WindowAgg | T_Unique | T_Gather | T_GatherMerge | T_Hash | T_SetOp
| T_LockRows | T_Limit.

#[export] Instance PlanTag_eq_dec : EqDecision PlanTag.
Proof. solve_decision. Defined.

(** The header every path node starts with; [X] is the type of what follows it. *)
Record PathOf (X : Type) := mkPath {
  pathtype : PlanTag;
  parent : RelOptInfo;
  pathtarget : PathTarget;
  param_info : option ParamPathInfo;
  parallel_aware : bool;
  parallel_safe : bool;
  parallel_workers : Z;
  rows : double;
  startup_cost : Cost;
  total_cost : Cost;
  io_cost : Cost;
  cpu_cost : Cost;
  power_cost : Cost;
  pathkeys : list PathKey;
  extra : X;
}.
Arguments mkPath {X}.
Arguments pathtype {X}.
Arguments parent {X}.
Arguments pathtarget {X}.
Arguments param_info {X}.
Arguments parallel_aware {X}.
Arguments parallel_safe {X}.
Arguments parallel_workers {X}.
Arguments rows {X}.
Arguments startup_cost {X}.
Arguments total_cost {X}.
Arguments io_cost {X}.
Arguments cpu_cost {X}.
Arguments power_cost {X}.
Arguments pathkeys {X}.
Arguments extra {X}.

Record IndexFields := mkIndexFields {
  indexinfo : IndexOptInfo;
  indexclauses : list RestrictInfo;
  indexquals : list RestrictInfo;
  indextotalcost : Cost;
  indexselectivity : Selectivity;
}.

(** The members that follow the header, one constructor per path struct. *)
Inductive PathExtra : Type :=
| XPath
| XIndexPath (f : IndexFields)
| XBitmapHeapPath (bitmapqual : PathOf PathExtra)
| XBitmapAndPath (bitmapquals : list (PathOf PathExtra)) (bitmapselectivity : Selectivity)
| XBitmapOrPath (bitmapquals : list (PathOf PathExtra)) (bitmapselectivity : Selectivity)
| XTidPath (tidquals : list Node)
| XSubqueryScanPath (subpath : PathOf PathExtra)
| XForeignPath (fdw_outerpath : option (PathOf PathExtra))
| XCustomPath (flags : Z) (custom_paths : list (PathOf PathExtra))
| XNestPath (jointype : JoinType) (inner_unique : bool)
    (outerjoinpath innerjoinpath : PathOf PathExtra) (joinrestrictinfo : list RestrictInfo)
| XMergePath (jointype : JoinType) (inner_unique : bool)
    (outerjoinpath innerjoinpath : PathOf PathExtra) (joinrestrictinfo : list RestrictInfo)
    (path_mergeclauses : list RestrictInfo) (outersortkeys innersortkeys : list PathKey)
    (skip_mark_restore materialize_inner : bool)
| XHashPath (jointype : JoinType) (inner_unique : bool)
    (outerjoinpath innerjoinpath : PathOf PathExtra) (joinrestrictinfo : list RestrictInfo)
    (path_hashclauses : list RestrictInfo) (num_batches : Z)
| XAppendPath (subpaths : list (PathOf PathExtra))
| XMergeAppendPath (subpaths : list (PathOf PathExtra)) (limit_tuples : double)
| XResultPath (quals : list Node)
| XMaterialPath (subpath : PathOf PathExtra)
| XUniquePath (subpath : PathOf PathExtra) (umethod : UniquePathMethod)
| XGatherPath (subpath : PathOf PathExtra) (single_copy : bool) (num_workers : Z)
| XGatherMergePath (subpath : PathOf PathExtra) (num_workers : Z)
| XProjectionPath (subpath : PathOf PathExtra) (dummypp : bool)
| XProjectSetPath (subpath : PathOf PathExtra)
| XSortPath (subpath : PathOf PathExtra)
| XGroupPath (subpath : PathOf PathExtra) (qual : list Node)
| XUpperUniquePath (subpath : PathOf PathExtra) (numkeys : Z)
| XAggPath (subpath : PathOf PathExtra) (aggstrategy : AggStrategy) (numGroups : double)
    (qual : list Node)
| XGroupingSetsPath (subpath : PathOf PathExtra) (aggstrategy : AggStrategy)
| XMinMaxAggPath
| XWindowAggPath (subpath : PathOf PathExtra)
| XSetOpPath (subpath : PathOf PathExtra) (numGroups : double)
| XRecursiveUnionPath (leftpath rightpath : PathOf PathExtra) (numGroups : double)
| XLockRowsPath (subpath : PathOf PathExtra)
| XModifyTablePath (subpaths : list (PathOf PathExtra))
| XLimitPath (subpath : PathOf PathExtra) (limitOffset limitCount : option Node).

Definition Path : Type := PathOf PathExtra.

(** [IsA(path, IndexPath)]. *)
Definition IsIndexPath (path : Path) : bool :=
  match extra path with XIndexPath _ => true | _ => false end.

Definition PATH_REQ_OUTER (path : Path) : Relids :=
  match param_info path with Some ppi => ppi_req_outer ppi | None => None end.

(** The fields of a RelOptInfo that hold its paths. *)
Record RelPaths := mkRelPaths {
  pathlist : list Path;
  partial_pathlist : list Path;
  cheapest_startup_path : option Path;
  cheapest_total_path : option Path;
  cheapest_unique_path : option Path;
  cheapest_parameterized_paths : list Path;
}.

(** [makeNode] zeroes the fields it does not set. *)
Definition makePath (tag : PlanTag) (rel : RelOptInfo) (target : PathTarget) (x : PathExtra) : Path :=
  {| pathtype := tag; parent := rel; pathtarget := target; param_info := None;
     parallel_aware := false; parallel_safe := false; parallel_workers := 0;
     rows := dzero; startup_cost := dzero; total_cost := dzero;
     io_cost := dzero; cpu_cost := dzero; power_cost := dzero;
     pathkeys := []; extra := x |}.
