(* ===== verification/Samples.v ===== *)
(** Concrete inputs on which the theorems are evaluated: a stand-in for the
    libm functions that obeys the laws assumed of them, a small relation and
    paths over it. *)
From S2P Require Import Prelude Float64 Double DoubleOrder DoubleDiv Bitmapset PlanTypes.
Open Scope double_scope.

(** Not the natural logarithm, but a function with the special values of
    [log] and its signs below and above one. *)
Definition sample_log (x : double) : double :=
  if isnan x || (x <? dzero) then dnan
  else if deq x dzero then dinf true
  else if deq x (dinf false) then x
  else if deq x (i2d 1) then dzero
  else x - i2d 1 / x.

Definition sample_pow (x y : double) : double :=
  if deq y (i2d 0) then i2d 1 else if deq y (i2d 1) then x else x * x.

#[export] Instance sample_libm : Libm := {| log := sample_log; pow := sample_pow |}.

#[export] Instance sample_libm_laws : LibmLaws.
Proof.
  split; cbn [log pow sample_libm].
  - intros x Hx. unfold sample_log. rewrite Hx.
    destruct (isnan x || (x <? dzero)) eqn:E; [|reflexivity].
    apply orb_prop in E as [E|E]; destruct x as [[[]|[]| |[] m e] V]; discriminate.
  - vm_compute. apply double_eq. reflexivity.
  - intros x Hx. unfold sample_log. rewrite Hx, orb_true_r. reflexivity.
  - vm_compute. apply double_eq. reflexivity.
  - reflexivity.
  - reflexivity.
  - intros y Hy. unfold sample_pow. destruct (deq y (i2d 0)) eqn:E.
    + destruct y as [[[]|[]| |[] m e] V]; discriminate.
    + destruct (deq y (i2d 1)); [reflexivity|]. apply double_eq. reflexivity.
Qed.

#[export] Instance sample_libm_exact : LibmExact.
Proof.
  split; intros n Hn; cbn [pow sample_libm]; unfold sample_pow.
  - reflexivity.
  - apply i2d_mul; nia.
Qed.

#[export] Instance sample_libm_order : LibmOrder.
Proof.
  split. intros x Hx. cbn [log sample_libm]. unfold sample_log.
  assert (isnan x = false) as Nx by (destruct (isnan x) eqn:E; [rewrite dle_nan_r in Hx by exact E|]; done).
  assert (nonneg x = true) as Hn.
  { destruct (nonneg x) eqn:E; [reflexivity|]. rewrite dle_sval in Hx by (exact Nx || apply isnan_i2d).
    unfold sval in Hx. rewrite E in Hx. pose proof (cmag_range x). pose proof cmag_one as C.
    change (nonneg (i2d 1)) with true in Hx. cbv iota in Hx. rewrite C in Hx. lia. }
  assert (i2d 1 ⊑ x) as Hle.
  { rewrite dle_sval, !sval_nonneg in Hx by (exact Nx || exact Hn || apply isnan_i2d || reflexivity). unfold cle. lia. }
  assert ((x <? dzero) = false) as Hz.
  { rewrite dlt_sval, (sval_nonneg x) by (exact Nx || exact Hn || reflexivity). pose proof (cmag_range x).
    change (sval dzero) with 0%Z. lia. }
  rewrite Nx, Hz. cbn [orb]. destruct (deq x dzero) eqn:E0.
  { unfold cle in Hle. rewrite cmag_one in Hle. destruct x as [[[]|[]| |[] m e] V]; discriminate || (cbn in Hle; lia). }
  destruct (deq x (dinf false)) eqn:Ei; [exact Hn|]. destruct (deq x (i2d 1)); [reflexivity|].
  assert (finite x) as Hf.
  { destruct x as [[[]|[]| |[] m e] V]; try discriminate. unfold finite, cmag; cbn [SF fmag].
    apply (finite_fmag_lt m e V). }
  apply nonneg_sub; [exact Hn|apply nonneg_div; [reflexivity|exact Hn]|].
  transitivity (i2d 1); [|exact Hle].
  apply div_le_one; [reflexivity|exact Hn|exact Hf| |exact Hle].
  unfold cle in Hle. rewrite cmag_one in Hle. lia.
Qed.

Definition no_cost : QualCost := mkQualCost dzero dzero.
Definition sample_target : PathTarget := mkPathTarget [Var 1 1] no_cost 8.

(** A table of 100 pages and 10000 tuples. *)
Definition sample_rel : RelOptInfo := {|
  reloptkind := RELOPT_BASEREL; relids := Some [2]; rel_rows := i2d 10000;
  consider_startup := true; consider_param_startup := false; consider_parallel := true;
  reltarget := sample_target; relid := 1; reltablespace := 0; rtekind := RTE_RELATION;
  pages := 100; tuples := i2d 10000; allvisfrac := dzero; rel_parallel_workers := -1;
  baserestrictinfo := []; baserestrictcost := mkQualCost dzero (dlit 25 10000) |}.

(** A path over [sample_rel] with the given costs. *)
Definition sample_path (startup total power : Cost) : Path :=
  {| pathtype := T_SeqScan; parent := sample_rel; pathtarget := sample_target; param_info := None;
     parallel_aware := false; parallel_safe := true; parallel_workers := 0;
     rows := i2d 10000; startup_cost := startup; total_cost := total;
     io_cost := dzero; cpu_cost := dzero; power_cost := power; pathkeys := []; extra := XPath |}.
