(* ===== verification/Pathkeys.v ===== *)
(** Comparison of sort orders (optimizer/path/pathkeys.c). *)
From S2P Require Import Prelude Double Bitmapset PlanTypes.

Inductive PathKeysComparison :=
  PATHKEYS_EQUAL | PATHKEYS_BETTER1 | PATHKEYS_BETTER2 | PATHKEYS_DIFFERENT.

#[export] Instance PathKeysComparison_eq_dec : EqDecision PathKeysComparison.
Proof. solve_decision. Defined.

(** The [forboth] loop; the source's first test ([keys1 == keys2] as list
    pointers) only short-cuts it ([compare_pathkeys_refl]). *)
Fixpoint compare_pathkeys (keys1 keys2 : list PathKey) : PathKeysComparison :=
  match keys1, keys2 with
  | key1 :: keys1', key2 :: keys2' =>
      if negb (pk_ptr key1 =? pk_ptr key2) then PATHKEYS_DIFFERENT
      else compare_pathkeys keys1' keys2'
  | _ :: _, [] => PATHKEYS_BETTER1
  | [], _ :: _ => PATHKEYS_BETTER2
  | [], [] => PATHKEYS_EQUAL
  end.

Definition pathkeys_contained_in (keys1 keys2 : list PathKey) : bool :=
  match compare_pathkeys keys1 keys2 with
  | PATHKEYS_EQUAL | PATHKEYS_BETTER2 => true
  | _ => false
  end.

(** ** The order on path key lists *)

(** [keys2] starts with the keys of [keys1]. *)
Definition keys_prefix (keys1 keys2 : list PathKey) : Prop :=
  map pk_ptr keys1 `prefix_of` map pk_ptr keys2.

(** The verdict as a function of the two prefix tests. *)
Definition keys_verdict (le12 le21 : bool) : PathKeysComparison :=
  match le12, le21 with
  | true, true => PATHKEYS_EQUAL
  | false, true => PATHKEYS_BETTER1
  | true, false => PATHKEYS_BETTER2
  | false, false => PATHKEYS_DIFFERENT
  end.

#[export] Instance keys_prefix_dec k1 k2 : Decision (keys_prefix k1 k2).
Proof. unfold keys_prefix. apply _. Defined.

#[export] Instance keys_prefix_preorder : PreOrder keys_prefix.
Proof.
  unfold keys_prefix. split; [intros x|intros x y z]; [reflexivity|apply transitivity].
Qed.

Lemma compare_pathkeys_verdict k1 k2 :
  compare_pathkeys k1 k2 =
  keys_verdict (bool_decide (keys_prefix k1 k2)) (bool_decide (keys_prefix k2 k1)).
Proof.
  unfold keys_prefix. revert k2. induction k1 as [|a k1 IH]; intros [|b k2]; cbn [compare_pathkeys map].
  - rewrite !bool_decide_true by apply prefix_nil. reflexivity.
  - rewrite bool_decide_true by apply prefix_nil. rewrite bool_decide_false; [reflexivity|].
    apply prefix_nil_not.
  - rewrite (bool_decide_true ([] `prefix_of` _)) by apply prefix_nil.
    rewrite bool_decide_false; [reflexivity|]. apply prefix_nil_not.
  - destruct (Z.eqb_spec (pk_ptr a) (pk_ptr b)) as [E|E]; cbn [negb].
    + rewrite IH. f_equal; apply bool_decide_ext; (split; [intros; rewrite E; apply prefix_cons; assumption|]).
      all: intros H; eapply prefix_cons_inv_2; exact H.
    + rewrite !bool_decide_false; [reflexivity|..]; intros H; apply prefix_cons_inv_1 in H; congruence.
Qed.

Lemma compare_pathkeys_refl k : compare_pathkeys k k = PATHKEYS_EQUAL.
Proof. rewrite compare_pathkeys_verdict, bool_decide_true by reflexivity. reflexivity. Qed.

Lemma pathkeys_contained_in_prefix k1 k2 :
  pathkeys_contained_in k1 k2 = true <-> keys_prefix k1 k2.
Proof.
  unfold pathkeys_contained_in. rewrite compare_pathkeys_verdict.
  do 2 case_bool_decide; simpl; split; intros; done || congruence.
Qed.

(** Swapping the arguments of a comparison. *)
Definition flip_keys (c : PathKeysComparison) : PathKeysComparison :=
  match c with PATHKEYS_BETTER1 => PATHKEYS_BETTER2 | PATHKEYS_BETTER2 => PATHKEYS_BETTER1 | c => c end.

Lemma compare_pathkeys_flip k1 k2 : compare_pathkeys k2 k1 = flip_keys (compare_pathkeys k1 k2).
Proof. rewrite !compare_pathkeys_verdict. do 2 case_bool_decide; reflexivity. Qed.
