(* ===== verification/PathCompare.v ===== *)
(** Comparison of paths by time and power cost (optimizer/util/pathnode.c):
    the weighted log cost, the exact, fractional and fuzzy comparisons. *)
From S2P Require Import Prelude Float64 Double DoubleOrder Bitmapset PlanTypes Samples.
Open Scope double_scope.

Inductive PathCostComparison := COSTS_EQUAL | COSTS_BETTER1 | COSTS_BETTER2 | COSTS_DIFFERENT.

#[export] Instance PathCostComparison_eq_dec : EqDecision PathCostComparison.
Proof. solve_decision. Defined.

Definition STD_FUZZ_FACTOR : double := dlit 101 100.

Section compare.
Context `{Libm, Settings}.

(** [time_weight * log(path->total_cost) + power_weight * log(path->power_cost)] *)
Definition weighted_cost (path : Path) : Cost :=
  time_weight * log (total_cost path) + power_weight * log (power_cost path).

Definition compare_path_costs (path1 path2 : Path) (criterion : CostSelector) : Z :=
  let total_cost1 := weighted_cost path1 in
  let total_cost2 := weighted_cost path2 in
  match criterion with
  | STARTUP_COST =>
      if startup_cost path1 <? startup_cost path2 then -1
      else if startup_cost path1 >? startup_cost path2 then 1
      else if total_cost1 <? total_cost2 then -1
      else if total_cost1 >? total_cost2 then 1
      else 0
  | TOTAL_COST =>
      if total_cost1 <? total_cost2 then -1
      else if total_cost1 >? total_cost2 then 1
      else if startup_cost path1 <? startup_cost path2 then -1
      else if startup_cost path1 >? startup_cost path2 then 1
      else 0
  end.

Definition compare_fractional_path_costs (path1 path2 : Path) (fraction : double) : Z :=
  if (fraction <=? i2d 0) || (fraction >=? i2d 1) then compare_path_costs path1 path2 TOTAL_COST
  else
    let cost1 := startup_cost path1 + fraction * (total_cost path1 - startup_cost path1) in
    let cost2 := startup_cost path2 + fraction * (total_cost path2 - startup_cost path2) in
    let (cost1, cost2) :=
      if power_weight >? i2d 0
      then (cost1 + fraction * power_cost path1, cost2 + fraction * power_cost path2)
      else (cost1, cost2) in
    if cost1 <? cost2 then -1
    else if cost1 >? cost2 then 1
    else 0.

Definition scale_path_costs (path1 path2 : Path) : Cost * Cost :=
  let total_cost1 := total_cost path1 in
  let total_cost2 := total_cost path2 in
  let power_cost1 := power_cost path1 in
  let power_cost2 := power_cost path2 in
  let total_min := if total_cost1 >? total_cost2 then total_cost2 else total_cost1 in
  let total_max := if total_cost1 >? total_cost2 then total_cost1 else total_cost2 in
  let power_min := if power_cost1 >? power_cost2 then power_cost2 else power_cost1 in
  let power_max := if power_cost1 >? power_cost2 then power_cost1 else power_cost2 in
  let power_diff := power_max - power_min in
  let power_diff := if deq power_diff (i2d 0) then i2d 1 else power_diff in
  let total_diff := total_max - total_min in
  let r := total_diff / power_diff in
  ((power_cost1 - power_min) * r + total_min, (power_cost2 - power_min) * r + total_min).

Definition CONSIDER_PATH_STARTUP_COST (p : Path) : bool :=
  match param_info p with
  | None => consider_startup (parent p)
  | Some _ => consider_param_startup (parent p)
  end.

Definition compare_path_costs_fuzzily (path1 path2 : Path) (fuzz_factor : double)
    : PathCostComparison :=
  let total_cost1 := weighted_cost path1 in
  let total_cost2 := weighted_cost path2 in
  if total_cost1 >? total_cost2 * fuzz_factor then
    if CONSIDER_PATH_STARTUP_COST path1
       && (startup_cost path2 >? startup_cost path1 * fuzz_factor)
    then COSTS_DIFFERENT else COSTS_BETTER2
  else if total_cost2 >? total_cost1 * fuzz_factor then
    if CONSIDER_PATH_STARTUP_COST path2
       && (startup_cost path1 >? startup_cost path2 * fuzz_factor)
    then COSTS_DIFFERENT else COSTS_BETTER1
  else if startup_cost path1 >? startup_cost path2 * fuzz_factor then COSTS_BETTER2
  else if startup_cost path2 >? startup_cost path1 * fuzz_factor then COSTS_BETTER1
  else COSTS_EQUAL.

(** ** Exact comparison *)

Lemma compare_path_costs_flip p1 p2 c :
  compare_path_costs p2 p1 c = (- compare_path_costs p1 p2 c)%Z.
Proof.
  unfold compare_path_costs. pose proof (dlt_asym (startup_cost p1) (startup_cost p2)).
  pose proof (dlt_asym (weighted_cost p1) (weighted_cost p2)).
  destruct c; repeat case_match; try reflexivity; try congruence; naive_solver.
Qed.

Lemma compare_path_costs_range p1 p2 c :
  compare_path_costs p1 p2 c = -1 \/ compare_path_costs p1 p2 c = 0 \/ compare_path_costs p1 p2 c = 1.
Proof. unfold compare_path_costs. repeat case_match; tauto. Qed.

(** A path none of whose compared costs is NaN. *)
Definition comparable (p : Path) : Prop :=
  isnan (weighted_cost p) = false /\ isnan (startup_cost p) = false.

(** The sort key of a comparable path. *)
Definition cost_key (c : CostSelector) (p : Path) : Z * Z :=
  match c with
  | STARTUP_COST => (sval (startup_cost p), sval (weighted_cost p))
  | TOTAL_COST => (sval (weighted_cost p), sval (startup_cost p))
  end.

Definition lex_le (a b : Z * Z) : Prop := a.1 < b.1 \/ (a.1 = b.1 /\ a.2 <= b.2).

Lemma compare_path_costs_key p1 p2 c : comparable p1 -> comparable p2 ->
  compare_path_costs p1 p2 c <= 0 <-> lex_le (cost_key c p1) (cost_key c p2).
Proof.
  intros [W1 S1] [W2 S2]. unfold compare_path_costs, lex_le, cost_key.
  rewrite !dlt_sval by assumption.
  destruct c; simpl; repeat case_match; lia.
Qed.

Lemma compare_path_costs_trans p1 p2 p3 c :
  comparable p1 -> comparable p2 -> comparable p3 ->
  compare_path_costs p1 p2 c <= 0 -> compare_path_costs p2 p3 c <= 0 ->
  compare_path_costs p1 p3 c <= 0.
Proof.
  intros C1 C2 C3. rewrite !compare_path_costs_key by assumption. unfold lex_le. lia.
Qed.

(** compare_path_costs is antisymmetric for either criterion and whatever the
    costs: exchanging the paths negates the result, NaN costs included. *)
Theorem compare_path_costs_antisym p1 p2 c :
  compare_path_costs p2 p1 c = (- compare_path_costs p1 p2 c)%Z.
Proof. apply compare_path_costs_flip. Qed.

(** ** The weights *)

(** With the default weights (1 and 0) the weighted cost is the logarithm of the
    total cost, provided the logarithm of the power cost is finite. *)
Lemma weighted_cost_default p :
  time_weight = i2d 1 -> power_weight = i2d 0 -> finite (log (power_cost p)) ->
  sval (weighted_cost p) = sval (log (total_cost p)) /\
  isnan (weighted_cost p) = isnan (log (total_cost p)).
Proof.
  intros T P F. unfold weighted_cost. rewrite T, P.
  assert (i2d 0 = dzero) as -> by (apply double_eq; reflexivity).
  destruct (sval_add_zero (i2d 1 * log (total_cost p)) _ (zero_mul _ F)) as [-> ->].
  split; [apply sval_mul_one|]. rewrite dmul_comm. apply isnan_mul_one.
Qed.

Lemma weighted_cost_power p :
  time_weight = i2d 0 -> power_weight = i2d 1 -> finite (log (total_cost p)) ->
  sval (weighted_cost p) = sval (log (power_cost p)).
Proof.
  intros T P F. unfold weighted_cost. rewrite T, P, dadd_comm.
  assert (i2d 0 = dzero) as -> by (apply double_eq; reflexivity).
  destruct (sval_add_zero (i2d 1 * log (power_cost p)) _ (zero_mul _ F)) as [-> _]. apply sval_mul_one.
Qed.

(** Comparison of pairs, the first members first: -1, 0 or 1. *)
Definition lex_compare (a b : Z * Z) : Z :=
  match (a.1 ?= b.1)%Z with
  | Lt => -1
  | Gt => 1
  | Eq => match (a.2 ?= b.2)%Z with Lt => -1 | Gt => 1 | Eq => 0 end
  end.

Lemma compare_path_costs_lex p1 p2 c : comparable p1 -> comparable p2 ->
  compare_path_costs p1 p2 c = lex_compare (cost_key c p1) (cost_key c p2).
Proof.
  intros [W1 S1] [W2 S2]. unfold compare_path_costs, lex_compare, cost_key. rewrite !dlt_sval by assumption.
  destruct c; cbn [fst snd];
    destruct (Z.compare_spec (sval (weighted_cost p1)) (sval (weighted_cost p2))),
      (Z.compare_spec (sval (startup_cost p1)) (sval (startup_cost p2)));
    repeat (case_match; try reflexivity); lia.
Qed.

(** No more time, power or startup cost: the logarithms are those of costs of at least one. *)
Record no_dearer (p1 p2 : Path) : Prop := {
  nd_total : nonneg (log (total_cost p1)) = true /\ nonneg (log (total_cost p2)) = true /\ log (total_cost p1) ⊑ log (total_cost p2);
  nd_power : nonneg (log (power_cost p1)) = true /\ nonneg (log (power_cost p2)) = true /\ log (power_cost p1) ⊑ log (power_cost p2);
  nd_startup : nonneg (startup_cost p1) = true /\ nonneg (startup_cost p2) = true /\ startup_cost p1 ⊑ startup_cost p2;
}.

(** The weights of the configuration, which are not negative. *)
Definition weights_ok : Prop := nonneg time_weight = true /\ finite time_weight /\ nonneg power_weight = true /\ finite power_weight.

Lemma weighted_cost_mono p1 p2 : weights_ok -> no_dearer p1 p2 -> sval (weighted_cost p1) <= sval (weighted_cost p2).
Proof.
  intros (Tn & Tf & Pn & Pf) [(T1 & T2 & T) (P1 & P2 & P) _]. unfold weighted_cost.
  rewrite !sval_nonneg by auto with nneg. apply cle_add; [auto with nneg..| |]; apply cle_mul_l; assumption.
Qed.

(** C39: compare_path_costs orders the paths whose weighted and startup costs are not NaN.
    The result is -1 if the first path is cheaper, 1 if the second is and 0 for a tie, by
    the weighted cost and then the startup cost for the total criterion, and the other
    way around for the startup criterion; it is a total preorder. With weights that are
    not negative a path whose startup cost and logarithms of total cost and power are not
    negative and no larger than those of the other never loses. If only time has a weight,
    the logarithm of the total cost decides, and if only power has a weight, the logarithm
    of the power. *)
Theorem compare_path_costs_spec p1 p2 p3 c : comparable p1 -> comparable p2 -> comparable p3 ->
  compare_path_costs p1 p2 c = lex_compare (cost_key c p1) (cost_key c p2)
  /\ (compare_path_costs p1 p2 c <= 0 -> compare_path_costs p2 p3 c <= 0 -> compare_path_costs p1 p3 c <= 0)
  /\ (compare_path_costs p1 p2 c <= 0 \/ compare_path_costs p2 p1 c <= 0)
  /\ (weights_ok -> no_dearer p1 p2 -> compare_path_costs p1 p2 c <= 0)
  /\ (time_weight = i2d 1 -> power_weight = i2d 0 -> finite (log (power_cost p1)) -> finite (log (power_cost p2)) ->
      compare_path_costs p1 p2 TOTAL_COST =
        lex_compare (sval (log (total_cost p1)), sval (startup_cost p1)) (sval (log (total_cost p2)), sval (startup_cost p2)))
  /\ (time_weight = i2d 0 -> power_weight = i2d 1 -> finite (log (total_cost p1)) -> finite (log (total_cost p2)) ->
      compare_path_costs p1 p2 TOTAL_COST =
        lex_compare (sval (log (power_cost p1)), sval (startup_cost p1)) (sval (log (power_cost p2)), sval (startup_cost p2))).
Proof.
  intros C1 C2 C3. split_and!.
  - apply compare_path_costs_lex; assumption.
  - apply compare_path_costs_trans; assumption.
  - rewrite (compare_path_costs_flip p1 p2 c). lia.
  - intros Wo D. apply compare_path_costs_key; [assumption..|]. pose proof (weighted_cost_mono p1 p2 Wo D) as M.
    destruct D as [_ _ (N1 & N2 & S)]. unfold cle in S. rewrite <- !sval_nonneg in S by assumption.
    unfold lex_le, cost_key. destruct c; cbn [fst snd]; lia.
  - intros T P F1 F2. rewrite compare_path_costs_lex by assumption. unfold cost_key.
    rewrite (proj1 (weighted_cost_default p1 T P F1)), (proj1 (weighted_cost_default p2 T P F2)). reflexivity.
  - intros T P F1 F2. rewrite compare_path_costs_lex by assumption. unfold cost_key.
    rewrite !(weighted_cost_power _ T P) by assumption. reflexivity.
Qed.

Lemma weighted_cost_nan `{!LibmLaws} p :
  power_weight = i2d 0 -> deq (power_cost p) dzero = true -> isnan (weighted_cost p) = true.
Proof.
  intros P Z. unfold weighted_cost. rewrite (log_zero _ Z), P.
  apply isnan_add_r, zero_mul_inf. reflexivity.
Qed.

(** With the default power weight of zero, a path whose power cost is zero has a
    NaN weighted cost (0 * log 0), so comparing it with any other path by total cost
    ignores both total costs and only looks at the startup costs. *)
Theorem zero_power_ignores_total `{!LibmLaws} p q :
  power_weight = i2d 0 -> deq (power_cost p) dzero = true ->
  compare_path_costs p q TOTAL_COST =
    (if startup_cost p <? startup_cost q then -1
     else if startup_cost q <? startup_cost p then 1 else 0).
Proof.
  intros P Z. pose proof (weighted_cost_nan p P Z) as N. unfold compare_path_costs.
  rewrite dlt_nan_l, dlt_nan_r by exact N. reflexivity.
Qed.

(** ** Fuzzy comparison *)

Definition flip_costs (c : PathCostComparison) : PathCostComparison :=
  match c with COSTS_BETTER1 => COSTS_BETTER2 | COSTS_BETTER2 => COSTS_BETTER1 | c => c end.

(** A fuzz factor as the callers pass it: finite and at least one. *)
Definition fuzz_ok (f : double) : Prop := nonneg f = true /\ finite f /\ i2d 1 ⊑ f.

(** Of two non-negative costs at most one is fuzzily worse. *)
Lemma fuzz_exclusive x y f : fuzz_ok f -> nonneg x = true -> nonneg y = true ->
  (x >? y * f) = true -> (y >? x * f) = false.
Proof.
  intros (Hf & Ff & Lf) Hx Hy L. apply cle_not_lt; auto with nneg.
  apply dlt_cle in L; auto with nneg.
  transitivity x; [|apply cle_scale; assumption].
  transitivity (y * f); [apply cle_scale; assumption|exact L].
Qed.

Lemma fuzz_self x f : fuzz_ok f -> nonneg x = true -> (x >? x * f) = false.
Proof. intros (Hf & Ff & Lf) Hx. apply cle_not_lt; auto with nneg. apply cle_scale; assumption. Qed.

(** Non-negative weighted and startup costs. *)
Definition nonneg_costs (p : Path) : Prop :=
  nonneg (weighted_cost p) = true /\ nonneg (startup_cost p) = true.

Lemma compare_path_costs_fuzzily_flip p1 p2 f :
  fuzz_ok f -> nonneg_costs p1 -> nonneg_costs p2 ->
  compare_path_costs_fuzzily p2 p1 f = flip_costs (compare_path_costs_fuzzily p1 p2 f).
Proof.
  intros Hf [W1 S1] [W2 S2]. unfold compare_path_costs_fuzzily.
  pose proof (fuzz_exclusive _ _ f Hf W1 W2) as E1.
  pose proof (fuzz_exclusive _ _ f Hf S1 S2) as E2.
  destruct (weighted_cost p2 * f <? weighted_cost p1); [rewrite E1 by reflexivity; by case_match|].
  destruct (weighted_cost p1 * f <? weighted_cost p2); [by case_match|].
  destruct (startup_cost p2 * f <? startup_cost p1); [rewrite E2 by reflexivity; reflexivity|].
  by case_match.
Qed.

(** On paths with non-negative weighted and startup costs the fuzzy comparison is
    symmetric (exchanging the paths exchanges BETTER1 and BETTER2) and a path is
    fuzzily equal to itself. *)
Theorem compare_path_costs_fuzzily_symmetric p1 p2 f :
  fuzz_ok f -> nonneg_costs p1 -> nonneg_costs p2 ->
  compare_path_costs_fuzzily p2 p1 f = flip_costs (compare_path_costs_fuzzily p1 p2 f)
  /\ compare_path_costs_fuzzily p1 p1 f = COSTS_EQUAL.
Proof.
  intros Hf H1 H2. split; [apply compare_path_costs_fuzzily_flip; assumption|].
  destruct H1 as [W S]. unfold compare_path_costs_fuzzily.
  rewrite !(fuzz_self (weighted_cost p1)), !(fuzz_self (startup_cost p1)) by assumption. reflexivity.
Qed.

(** The weighted cost is at most minus one: a total cost below one, typically. *)
Definition cheap (p : Path) : Prop :=
  (weighted_cost p <=? i2d (-1)) = true /\ finite (weighted_cost p).

Lemma STD_FUZZ_FACTOR_ok :
  nonneg STD_FUZZ_FACTOR = true /\ finite STD_FUZZ_FACTOR
  /\ (129 * 2 ^ 1067 <= cmag STD_FUZZ_FACTOR)%Z.
Proof. split; [|split]; vm_compute; (reflexivity || discriminate). Qed.

Lemma STD_FUZZ_FACTOR_fuzz_ok : fuzz_ok STD_FUZZ_FACTOR.
Proof. split; [|split]; vm_compute; (reflexivity || discriminate). Qed.

Lemma negative_fuzz x : (x <=? i2d (-1)) = true -> finite x -> (x >? x * STD_FUZZ_FACTOR) = true.
Proof.
  intros L F. pose proof (finite_isnan _ F) as N. destruct STD_FUZZ_FACTOR_ok as (Hn & Hfin & Hbig).
  assert (nonneg x = false) as Hx.
  { destruct (nonneg x) eqn:E; [|reflexivity]. exfalso.
    rewrite dle_sval, (sval_nonneg x) in L by (exact E || exact N || apply isnan_i2d).
    pose proof (cmag_range x). assert (sval (i2d (-1)) = - 2 ^ 1074)%Z as V by (vm_compute; reflexivity).
    rewrite V in L. pose proof (pow2_pos 1074 ltac:(lia)). lia. }
  pose proof (nonneg_dneg x Hx) as Hd. pose proof (cmag_dneg x) as Md.
  rewrite dle_sval in L by (exact N || apply isnan_i2d).
  assert (sval (i2d (-1)) = - 2 ^ 1074)%Z as V by (vm_compute; reflexivity). rewrite V in L.
  assert (sval x = - cmag x)%Z as Sx by (unfold sval; rewrite Hx; reflexivity).
  assert (cmag (dneg x) < cmag (dneg x * STD_FUZZ_FACTOR))%Z as Sc.
  { apply scale_strict; [assumption|exact Hn|unfold finite in *; lia|exact Hfin|lia|exact Hbig]. }
  assert (isnan (x * STD_FUZZ_FACTOR) = false /\
          sval (x * STD_FUZZ_FACTOR) = (- cmag (dneg x * STD_FUZZ_FACTOR))%Z) as [Nm Sm].
  { rewrite <- (dneg_involutive x) at 1 2. rewrite dmul_comm, dmul_dneg, dmul_comm, isnan_dneg.
    assert (isnan (dneg x * STD_FUZZ_FACTOR) = false) as Nd.
    { apply isnan_cmag_false. rewrite cmag_mul; [unfold sat; lia|assumption|exact Hn| |exact Hfin].
      unfold finite in *. lia. }
    split; [exact Nd|]. apply sval_dneg; [|exact Nd]. apply nonneg_mul; [assumption|exact Hn]. }
  rewrite dlt_sval by assumption. apply Z.ltb_lt. lia.
Qed.

(** Below a weighted cost of minus one the fuzz factor works backwards: such a
    path is reported as fuzzily worse than itself, so the comparison is neither
    reflexive nor symmetric there. *)
Theorem fuzzy_comparison_negative p :
  cheap p -> nonneg (startup_cost p) = true ->
  compare_path_costs_fuzzily p p STD_FUZZ_FACTOR = COSTS_BETTER2.
Proof.
  intros [L F] S. unfold compare_path_costs_fuzzily. rewrite (negative_fuzz _ L F).
  rewrite (fuzz_self _ _ STD_FUZZ_FACTOR_fuzz_ok S), andb_false_r. reflexivity.
Qed.

End compare.

(** ** Concrete comparisons *)

#[local] Existing Instance default_settings.

(** 10, 20 and 30 units of total cost at 40 W. *)
Definition path10 : Path := sample_path dzero (i2d 10) (i2d 40).
Definition path20 : Path := sample_path dzero (i2d 20) (i2d 40).
Definition path30 : Path := sample_path dzero (i2d 30) (i2d 40).

(** Weights 0 and 1. *)
Definition power_settings : Settings :=
  {| seq_page_cost := i2d 1; random_page_cost := i2d 4; cpu_tuple_cost := dlit 1 100;
     cpu_index_tuple_cost := dlit 5 1000; cpu_operator_cost := dlit 25 10000;
     parallel_tuple_cost := dlit 1 10; parallel_setup_cost := i2d 1000;
     effective_cache_size := 524288; disable_cost := i2d (10 ^ 10);
     max_parallel_workers_per_gather := 2; min_parallel_table_scan_size := 1024;
     min_parallel_index_scan_size := 64; work_mem := 4096;
     enable_seqscan := true; enable_indexscan := true; enable_indexonlyscan := true;
     enable_bitmapscan := true; enable_tidscan := true; enable_sort := true;
     enable_hashagg := true; enable_nestloop := true; enable_material := true;
     enable_mergejoin := true; enable_hashjoin := true; enable_gathermerge := true;
     time_weight := i2d 0; power_weight := i2d 1 |}.

(** Ten units of cost at 60 W. *)
Definition path10_hot : Path := sample_path dzero (i2d 10) (i2d 60).

(** By time alone, and by power alone. *)
Lemma compare_path_costs_spec_witness :
  compare_path_costs path10 path30 TOTAL_COST <= 0
  /\ compare_path_costs path20 path10 TOTAL_COST = 1
  /\ compare_path_costs (H0 := power_settings) path20 path10_hot TOTAL_COST = -1.
Proof.
  assert (forall p, p = path10 \/ p = path20 \/ p = path30 -> comparable p) as C.
  { intros p [-> | [-> | ->]]; split; vm_compute; reflexivity. }
  pose proof (compare_path_costs_spec path10 path20 path30 TOTAL_COST (C _ ltac:(tauto)) (C _ ltac:(tauto)) (C _ ltac:(tauto))) as (_ & T & _).
  pose proof (compare_path_costs_spec path20 path10 path30 TOTAL_COST (C _ ltac:(tauto)) (C _ ltac:(tauto)) (C _ ltac:(tauto)))
    as (_ & _ & _ & _ & Time & _).
  pose proof (compare_path_costs_spec (H0 := power_settings) path20 path10_hot path10_hot TOTAL_COST
    ltac:(split; vm_compute; reflexivity) ltac:(split; vm_compute; reflexivity) ltac:(split; vm_compute; reflexivity)) as (_ & _ & _ & _ & _ & Power).
  split; [|split].
  - apply T; vm_compute; discriminate.
  - rewrite Time; vm_compute; reflexivity.
  - rewrite Power; vm_compute; reflexivity.
Defined.

(** A billion units against ten, both without power cost: a tie. *)
Definition path_dear : Path := sample_path dzero (i2d (10 ^ 9)) dzero.
Definition path_cheap : Path := sample_path dzero (i2d 10) dzero.

Lemma zero_power_ignores_total_witness : compare_path_costs path_dear path_cheap TOTAL_COST = 0.
Proof.
  rewrite (zero_power_ignores_total path_dear path_cheap); vm_compute; reflexivity.
Defined.

Lemma compare_path_costs_fuzzily_symmetric_witness :
  compare_path_costs_fuzzily path20 path10 STD_FUZZ_FACTOR = COSTS_BETTER2
  /\ compare_path_costs_fuzzily path10 path10 STD_FUZZ_FACTOR = COSTS_EQUAL.
Proof.
  destruct (compare_path_costs_fuzzily_symmetric path10 path20 STD_FUZZ_FACTOR
    STD_FUZZ_FACTOR_fuzz_ok) as [F R].
  - split; vm_compute; reflexivity.
  - split; vm_compute; reflexivity.
  - split; [|exact R]. rewrite F. vm_compute. reflexivity.
Defined.

(** A path of total cost 0.01. *)
Lemma fuzzy_comparison_negative_witness :
  compare_path_costs_fuzzily (sample_path dzero (dlit 1 100) (i2d 40))
    (sample_path dzero (dlit 1 100) (i2d 40)) STD_FUZZ_FACTOR = COSTS_BETTER2.
Proof.
  apply (fuzzy_comparison_negative (sample_path dzero (dlit 1 100) (i2d 40))).
  - split; vm_compute; reflexivity.
  - vm_compute. reflexivity.
Defined.
