(* ===== verification/AddPath.v ===== *)
(** The path lists of a relation (optimizer/util/pathnode.c): add_path and its
    precheck, add_partial_path and its precheck. *)
From stdpp Require Import sorting.
From S2P Require Import Prelude Float64 Double DoubleOrder Bitmapset PlanTypes Samples Pathkeys PathCompare.
Open Scope double_scope.

(** ** The loop over a path list

    add_path and add_partial_path scan a list once, deleting cells, remembering
    the cell after which the new element belongs and leaving the loop when the
    new element loses.  [verdict new old] is [(remove_old, accept_new)] as the
    loop body computes it and [after new old] the test that moves
    [insert_after]. *)
Section tournament.
Context {A : Type} (verdict : A -> A -> bool * bool) (after : A -> A -> bool).

(** [kept] is the part of the list before the current cell, [insert_after] the
    position of a cell of it, [dropped] the elements of the deleted cells. *)
Fixpoint tournament (new : A) (old kept : list A) (insert_after : option nat) (dropped : list A)
    : bool * list A * option nat * list A :=
  match old with
  | [] => (true, kept, insert_after, dropped)
  | p :: rest =>
      let '(remove_old, accept_new) := verdict new p in
      let '(kept, insert_after, dropped) :=
        if remove_old then (kept, insert_after, dropped ++ [p])
        else (kept ++ [p], if after new p then Some (length kept) else insert_after, dropped) in
      if accept_new then tournament new rest kept insert_after dropped
      else (false, kept ++ rest, insert_after, dropped)
  end.

(** [lappend_cell] after the remembered cell, or [lcons]. *)
Definition insert_cell (new : A) (l : list A) (insert_after : option nat) : list A :=
  match insert_after with
  | Some i => take (S i) l ++ new :: drop (S i) l
  | None => new :: l
  end.

(** The resulting list, and the elements that are in it no more. *)
Definition run_tournament (new : A) (l : list A) : list A * list A :=
  let '(accept_new, l, insert_after, dropped) := tournament new l [] None [] in
  if accept_new then (insert_cell new l insert_after, dropped) else (l, dropped ++ [new]).

Definition removes (new old : A) : bool := (verdict new old).1.
Definition rejects (new old : A) : bool := negb (verdict new old).2.
Definition keeps_both (new old : A) : Prop := verdict new old = (false, true).

(** A loop body that removes the old element does not reject the new one. *)
Hypothesis verdict_exclusive : forall new old, removes new old = true -> rejects new old = false.

Lemma tournament_spec new old kept ia dropped acc kept' ia' dropped' :
  tournament new old kept ia dropped = (acc, kept', ia', dropped') ->
  exists scanned rest,
    old = scanned ++ rest
    /\ kept' = kept ++ filter (fun p => removes new p = false) scanned ++ rest
    /\ dropped' = dropped ++ filter (fun p => removes new p = true) scanned
    /\ if acc then rest = [] /\ Forall (fun p => rejects new p = false) scanned
       else exists s q, scanned = s ++ [q] /\ rejects new q = true.
Proof.
  revert kept ia dropped. induction old as [|p old IH]; intros kept ia dropped; simpl.
  - intros [= <- <- <- <-]. exists [], []. rewrite !app_nil_r. split_and!; auto.
  - pose proof (verdict_exclusive new p) as Hx. unfold removes, rejects in Hx.
    destruct (verdict new p) as [r a] eqn:V. simpl in Hx.
    assert (removes new p = r /\ rejects new p = negb a) as [Hr Ha].
    { unfold removes, rejects. rewrite V. done. }
    destruct a.
    + intros E. assert (exists k' i' d', tournament new old k' i' d' = (acc, kept', ia', dropped')
        /\ k' = kept ++ filter (fun p => removes new p = false) [p]
        /\ d' = dropped ++ filter (fun p => removes new p = true) [p]) as (k' & i' & d' & E' & -> & ->).
      { destruct r; do 3 eexists; (split; [exact E|]); rewrite !filter_cons, !filter_nil, Hr;
          simpl; rewrite ?app_nil_r; done. }
      destruct (IH _ _ _ E') as (s & rest & -> & -> & -> & Hc).
      exists (p :: s), rest. split_and!.
      * reflexivity.
      * rewrite (filter_app _ [p] s : filter _ (p :: s) = _), <- !app_assoc. reflexivity.
      * rewrite (filter_app _ [p] s : filter _ (p :: s) = _), <- !app_assoc. reflexivity.
      * destruct acc.
        -- destruct Hc as [? Hc]. split; [assumption|]. constructor; [|exact Hc]. rewrite Ha. done.
        -- destruct Hc as (s' & q & -> & Hq). exists (p :: s'), q. done.
    + destruct r; [by specialize (Hx eq_refl)|]. simpl. intros [= <- <- <- <-].
      exists [p], old. split_and!.
      * reflexivity.
      * rewrite filter_cons, filter_nil, Hr. simpl. rewrite <- app_assoc. reflexivity.
      * rewrite filter_cons, filter_nil, Hr. simpl. rewrite app_nil_r. reflexivity.
      * exists [], p. done.
Qed.

(** The cell remembered by the loop: nothing kept behind it is passed over, and
    it is itself one the new element goes after. *)
Definition position_ok (new : A) (kept : list A) (ia : option nat) : Prop :=
  match ia with
  | None => Forall (fun p => after new p = false) kept
  | Some i => exists p, kept !! i = Some p /\ after new p = true
                /\ Forall (fun p => after new p = false) (drop (S i) kept)
  end.

Lemma position_ok_snoc new kept ia p :
  position_ok new kept ia ->
  position_ok new (kept ++ [p]) (if after new p then Some (length kept) else ia).
Proof.
  intros H. destruct (after new p) eqn:E; simpl.
  - exists p. rewrite lookup_app_r by lia. rewrite Nat.sub_diag. split_and!; [done..|].
    rewrite drop_ge; [constructor|]. rewrite length_app. simpl. lia.
  - destruct ia as [i|]; simpl in *.
    + destruct H as (q & Hq & Ha & Hf). exists q. apply lookup_lt_Some in Hq as Hl. split_and!; [|done|].
      * rewrite lookup_app_l by lia. exact Hq.
      * rewrite drop_app_le by lia. apply Forall_app. split; [exact Hf|]. constructor; [exact E|constructor].
    + apply Forall_app. split; [exact H|]. constructor; [exact E|constructor].
Qed.

Lemma tournament_position new old kept ia dropped kept' ia' dropped' :
  position_ok new kept ia ->
  tournament new old kept ia dropped = (true, kept', ia', dropped') ->
  position_ok new kept' ia'.
Proof.
  revert kept ia dropped. induction old as [|p old IH]; intros kept ia dropped H; simpl.
  - intros [= <- <- <-]. exact H.
  - destruct (verdict new p) as [[] []]; try discriminate; apply IH.
    + exact H.
    + apply position_ok_snoc, H.
Qed.

Lemma insert_cell_perm new l ia : insert_cell new l ia ≡ₚ new :: l.
Proof.
  destruct ia as [i|]; simpl; [|reflexivity].
  rewrite <- Permutation_middle, take_drop. reflexivity.
Qed.

Lemma filter_split (f : A -> bool) l :
  filter (fun p => f p = false) l ++ filter (fun p => f p = true) l ≡ₚ l.
Proof.
  induction l as [|p l IH]; [reflexivity|]. destruct (f p) eqn:E.
  - rewrite filter_cons_False, filter_cons_True by congruence.
    rewrite <- Permutation_middle, IH. reflexivity.
  - rewrite filter_cons_True, filter_cons_False by congruence. simpl. rewrite IH. reflexivity.
Qed.

(** Nothing is lost or duplicated. *)
Lemma run_tournament_perm new l l' dropped :
  run_tournament new l = (l', dropped) -> l' ++ dropped ≡ₚ new :: l.
Proof.
  unfold run_tournament. destruct (tournament new l [] None []) as [[[acc k] ia] d] eqn:E.
  apply tournament_spec in E as (s & rest & -> & -> & -> & Hc). simpl.
  pose proof (filter_split (removes new) s) as Hs.
  destruct acc; intros [= <- <-].
  - destruct Hc as [-> _]. rewrite insert_cell_perm, !app_nil_r. simpl. rewrite Hs. reflexivity.
  - rewrite <- Hs at 3. solve_Permutation.
Qed.

(** An accepted element is in the list and no kept element is removed by it or
    rejects it; a rejected one lost to an element that is kept. *)
Lemma run_tournament_accepted new l l' dropped :
  run_tournament new l = (l', dropped) ->
  (exists kept, l' ≡ₚ new :: kept /\ kept ⊆+ l /\ Forall (keeps_both new) kept
     /\ dropped ≡ₚ filter (fun p => removes new p = true) l)
  \/ (l' ⊆+ l /\ (exists q, q ∈ l' /\ rejects new q = true)
      /\ exists d, dropped = d ++ [new] /\ Forall (fun p => removes new p = true) d).
Proof.
  unfold run_tournament. destruct (tournament new l [] None []) as [[[acc k] ia] d] eqn:E.
  apply tournament_spec in E as (s & rest & -> & -> & -> & Hc). simpl.
  pose proof (filter_split (removes new) s) as Hs.
  destruct acc; intros [= <- <-].
  - destruct Hc as [-> Hc]. left. exists (filter (fun p => removes new p = false) s). split_and!.
    + rewrite insert_cell_perm, app_nil_r. reflexivity.
    + rewrite app_nil_r. apply sublist_submseteq, sublist_filter.
    + apply Forall_forall. intros p [Hp Hin]%list_elem_of_filter.
      rewrite Forall_forall in Hc. specialize (Hc p Hin).
      unfold keeps_both, removes, rejects in *. destruct (verdict new p) as [r []]; simpl in *; congruence.
    + rewrite app_nil_r. reflexivity.
  - destruct Hc as (s' & q & -> & Hq). right. split_and!.
    + apply submseteq_app; [|reflexivity]. apply sublist_submseteq, sublist_filter.
    + exists q. split; [|exact Hq]. apply elem_of_app. left. apply list_elem_of_filter.
      split; [|apply elem_of_app; right; constructor].
      destruct (removes new q) eqn:R; [|reflexivity]. rewrite (verdict_exclusive _ _ R) in Hq. done.
    + eexists. split; [reflexivity|]. apply Forall_forall. intros p Hp.
      apply list_elem_of_filter in Hp. tauto.
Qed.

(** *** Sortedness *)

Section sorted.
Context (key : A -> Z).

Definition key_sorted : list A -> Prop := StronglySorted (fun p q => key p <= key q)%Z.

Lemma insert_cell_sorted new l ia :
  (forall p, p ∈ l -> after new p = (key p <=? key new)%Z) ->
  key_sorted l -> position_ok new l ia -> key_sorted (insert_cell new l ia).
Proof.
  intros Ha Hs Hp. unfold key_sorted in *.
  assert (forall l', (forall p, p ∈ l' -> p ∈ l) -> Forall (fun p => after new p = false) l' ->
            Forall (fun p => key new <= key p)%Z l') as Hgt.
  { intros l' Hin Hf. apply Forall_forall. intros p Hp'. rewrite Forall_forall in Hf.
    specialize (Hf p Hp'). rewrite Ha in Hf by auto. lia. }
  destruct ia as [i|]; simpl in *.
  - destruct Hp as (q & Hq & Haq & Hf).
    rewrite <- (take_drop (S i) l) in Hs. apply StronglySorted_app in Hs as (H12 & H1 & H2).
    assert (q ∈ take (S i) l) as Hq'.
    { rewrite (take_S_r l i q Hq). apply elem_of_app. right. constructor. }
    assert (forall x, x ∈ take (S i) l -> key x <= key q)%Z as Hle.
    { rewrite (take_S_r l i q Hq) in H1 |- *. apply StronglySorted_app in H1 as (H1 & _ & _).
      intros x [Hx|Hx]%elem_of_app; [apply H1; [exact Hx|constructor]|].
      apply list_elem_of_singleton in Hx as ->. lia. }
    rewrite Ha in Haq by (eapply elem_of_take_2, Hq'|| (apply list_elem_of_lookup_2 in Hq; exact Hq)).
    apply StronglySorted_app_2; [|exact H1|].
    + intros x y Hx [->|Hy]%elem_of_cons; [specialize (Hle x Hx); lia|apply H12; assumption].
    + constructor; [exact H2|]. apply Hgt; [|exact Hf].
      intros p Hp. rewrite <- (take_drop (S i) l). apply elem_of_app. right. exact Hp.
  - constructor; [exact Hs|]. apply Hgt; auto.
Qed.

Lemma filter_sorted (P : A -> Prop) `{forall x, Decision (P x)} l : key_sorted l -> key_sorted (filter P l).
Proof.
  unfold key_sorted. induction l as [|p l IH]; [auto|].
  intros [Hp Hl]%StronglySorted_cons. rewrite filter_cons.
  case_decide; [|auto]. constructor; [auto|]. apply Forall_forall. intros q [_ Hq]%list_elem_of_filter.
  rewrite Forall_forall in Hp. auto.
Qed.

Lemma run_tournament_sorted new l l' dropped :
  (forall p, p ∈ l -> after new p = (key p <=? key new)%Z) ->
  key_sorted l -> run_tournament new l = (l', dropped) -> key_sorted l'.
Proof.
  intros Ha Hs. unfold run_tournament.
  destruct (tournament new l [] None []) as [[[acc k] ia] d] eqn:E.
  pose proof E as E'. apply tournament_spec in E' as (s & rest & -> & -> & _ & Hc).
  assert (key_sorted (filter (fun p => removes new p = false) s ++ rest)) as Hk.
  { unfold key_sorted in *. apply StronglySorted_app in Hs as (H12 & H1 & H2).
    apply StronglySorted_app_2; [|apply filter_sorted, H1|exact H2].
    intros x y [_ Hx]%list_elem_of_filter Hy. apply H12; assumption. }
  destruct acc; intros [= <- <-]; [|exact Hk].
  apply insert_cell_sorted; [|exact Hk|].
  - intros p [[_ Hp]%list_elem_of_filter|Hp]%elem_of_app; apply Ha, elem_of_app; tauto.
  - eapply tournament_position; [|exact E]. constructor.
Qed.

End sorted.

(** *** No element of the list beats another *)

(** Whichever of the two came last, the loop body kept both. *)
Definition compatible (p q : A) : Prop := keeps_both p q \/ keeps_both q p.

Lemma compatible_sym p q : compatible p q -> compatible q p.
Proof. unfold compatible. tauto. Qed.

Lemma pairwise_perm l l' : l ≡ₚ l' -> StronglySorted compatible l -> StronglySorted compatible l'.
Proof.
  induction 1 as [|x l l' HP IH|x y l|l1 l2 l3 _ IH1 _ IH2]; auto.
  - intros [Hx Hl]%StronglySorted_cons. apply StronglySorted_cons. split; [rewrite <- HP; exact Hx|auto].
  - intros [Hy Hl]%StronglySorted_cons. apply StronglySorted_cons in Hl as [Hx Hl].
    apply Forall_cons in Hy as [Hyx Hy]. apply StronglySorted_cons. split.
    + constructor; [apply compatible_sym, Hyx|exact Hx].
    + apply StronglySorted_cons. auto.
Qed.

Lemma pairwise_submseteq l l' : l' ⊆+ l -> StronglySorted compatible l -> StronglySorted compatible l'.
Proof.
  intros [k HP]%submseteq_Permutation Hl. eapply pairwise_perm in Hl; [|exact HP].
  apply StronglySorted_app_1_l in Hl. exact Hl.
Qed.

Lemma run_tournament_pairwise new l l' dropped :
  StronglySorted compatible l -> run_tournament new l = (l', dropped) ->
  StronglySorted compatible l'.
Proof.
  intros Hl [(kept & HP & Hsub & Hk & _)|(Hsub & _)]%run_tournament_accepted.
  - symmetry in HP. eapply pairwise_perm; [exact HP|]. apply StronglySorted_cons. split.
    + eapply Forall_impl; [exact Hk|]. intros q Hq. left. exact Hq.
    + eapply pairwise_submseteq, Hl. exact Hsub.
  - eapply pairwise_submseteq, Hl. exact Hsub.
Qed.

End tournament.

(** ** add_path *)

(** [a >= b] on C bools. *)
Definition bool_ge (a b : bool) : bool := a || negb b.
Definition bool_gt (a b : bool) : bool := a && negb b.

(** Parameterized paths are treated as having no path keys. *)
Definition effective_pathkeys (path : Path) : list PathKey :=
  match param_info path with Some _ => [] | None => pathkeys path end.

Section add_path.
Context `{Libm, Settings}.

Definition SMALL_FUZZ : double := dlit 10000000001 10000000000.

(** [(remove_old, accept_new)] for equal costs, equal path keys and equal outer relations. *)
Definition keep_just_one (new_path old_path : Path) : bool * bool :=
  if bool_gt (parallel_safe new_path) (parallel_safe old_path) then (true, true)
  else if bool_gt (parallel_safe old_path) (parallel_safe new_path) then (false, false)
  else if rows new_path <? rows old_path then (true, true)
  else if rows new_path >? rows old_path then (false, false)
  else if decide (compare_path_costs_fuzzily new_path old_path SMALL_FUZZ = COSTS_BETTER1)
       then (true, true)
  else (false, false).

(** The body of add_path's loop: [(remove_old, accept_new)]. *)
Definition add_path_verdict (new_path old_path : Path) : bool * bool :=
  let outercmp := bms_subset_compare (PATH_REQ_OUTER new_path) (PATH_REQ_OUTER old_path) in
  let fewer_rows := (rows new_path <=? rows old_path)
                    && bool_ge (parallel_safe new_path) (parallel_safe old_path) in
  let more_rows := (rows new_path >=? rows old_path)
                   && bool_ge (parallel_safe old_path) (parallel_safe new_path) in
  let keep_both := (false, true) in
  let new_dominates := (true, true) in
  let old_dominates := (false, false) in
  match compare_path_costs_fuzzily new_path old_path STD_FUZZ_FACTOR with
  | COSTS_DIFFERENT => keep_both
  | costcmp =>
      match compare_pathkeys (effective_pathkeys new_path) (effective_pathkeys old_path) with
      | PATHKEYS_DIFFERENT => keep_both
      | keyscmp =>
          match costcmp with
          | COSTS_EQUAL =>
              match keyscmp with
              | PATHKEYS_BETTER1 =>
                  match outercmp with
                  | BMS_EQUAL | BMS_SUBSET1 => if fewer_rows then new_dominates else keep_both
                  | _ => keep_both
                  end
              | PATHKEYS_BETTER2 =>
                  match outercmp with
                  | BMS_EQUAL | BMS_SUBSET2 => if more_rows then old_dominates else keep_both
                  | _ => keep_both
                  end
              | _ =>
                  match outercmp with
                  | BMS_EQUAL => keep_just_one new_path old_path
                  | BMS_SUBSET1 => if fewer_rows then new_dominates else keep_both
                  | BMS_SUBSET2 => if more_rows then old_dominates else keep_both
                  | BMS_DIFFERENT => keep_both
                  end
              end
          | COSTS_BETTER1 =>
              match keyscmp, outercmp with
              | PATHKEYS_BETTER2, _ => keep_both
              | _, (BMS_EQUAL | BMS_SUBSET1) => if fewer_rows then new_dominates else keep_both
              | _, _ => keep_both
              end
          | COSTS_BETTER2 =>
              match keyscmp, outercmp with
              | PATHKEYS_BETTER1, _ => keep_both
              | _, (BMS_EQUAL | BMS_SUBSET2) => if more_rows then old_dominates else keep_both
              | _, _ => keep_both
              end
          | COSTS_DIFFERENT => keep_both
          end
      end
  end.

(** The new element goes after an old one of no larger total cost. *)
Definition cost_after (new_path old_path : Path) : bool := total_cost new_path >=? total_cost old_path.

Definition set_pathlist (rel : RelPaths) (l : list Path) : RelPaths :=
  mkRelPaths l (partial_pathlist rel) (cheapest_startup_path rel) (cheapest_total_path rel)
    (cheapest_unique_path rel) (cheapest_parameterized_paths rel).

(** The relation with its new path list, and the paths that were pfree'd. *)
Definition add_path (parent_rel : RelPaths) (new_path : Path) : RelPaths * list Path :=
  let (l, dropped) := run_tournament add_path_verdict cost_after new_path (pathlist parent_rel) in
  (set_pathlist parent_rel l, filter (fun p => IsIndexPath p = false) dropped).

Fixpoint add_path_precheck_loop (consider_startup : bool) (startup_cost' total_cost' : Cost)
    (new_path_pathkeys : list PathKey) (required_outer : Relids) (l : list Path) : bool :=
  match l with
  | [] => true
  | old_path :: l =>
      if total_cost' >? total_cost old_path * STD_FUZZ_FACTOR then
        if ((startup_cost' >? startup_cost old_path * STD_FUZZ_FACTOR) || negb consider_startup)
           && pathkeys_contained_in new_path_pathkeys (effective_pathkeys old_path)
           && bms_equal required_outer (PATH_REQ_OUTER old_path)
        then false
        else add_path_precheck_loop consider_startup startup_cost' total_cost' new_path_pathkeys
               required_outer l
      else true
  end.

(** [rel] holds the relation's flags, [parent_rel] its path lists. *)
Definition add_path_precheck (rel : RelOptInfo) (parent_rel : RelPaths) (startup_cost' total_cost' : Cost)
    (pathkeys' : list PathKey) (required_outer : Relids) : bool :=
  let (new_path_pathkeys, startup_matters) :=
    match required_outer with
    | Some _ => ([], consider_param_startup rel)
    | None => (pathkeys', consider_startup rel)
    end in
  add_path_precheck_loop startup_matters startup_cost' total_cost' new_path_pathkeys required_outer
    (pathlist parent_rel).

(** ** add_partial_path *)

Definition add_partial_path_verdict (new_path old_path : Path) : bool * bool :=
  match compare_pathkeys (pathkeys new_path) (pathkeys old_path) with
  | PATHKEYS_DIFFERENT => (false, true)
  | keyscmp =>
      if total_cost new_path >? total_cost old_path * STD_FUZZ_FACTOR then
        match keyscmp with PATHKEYS_BETTER1 => (false, true) | _ => (false, false) end
      else if total_cost old_path >? total_cost new_path * STD_FUZZ_FACTOR then
        match keyscmp with PATHKEYS_BETTER2 => (false, true) | _ => (true, true) end
      else
        match keyscmp with
        | PATHKEYS_BETTER1 => (true, true)
        | PATHKEYS_BETTER2 => (false, false)
        | _ =>
            if total_cost old_path >? total_cost new_path * SMALL_FUZZ then (true, true)
            else (false, false)
        end
  end.

Definition set_partial_pathlist (rel : RelPaths) (l : list Path) : RelPaths :=
  mkRelPaths (pathlist rel) l (cheapest_startup_path rel) (cheapest_total_path rel)
    (cheapest_unique_path rel) (cheapest_parameterized_paths rel).

Definition add_partial_path (parent_rel : RelPaths) (new_path : Path) : RelPaths * list Path :=
  let (l, dropped) :=
    run_tournament add_partial_path_verdict cost_after new_path (partial_pathlist parent_rel) in
  (set_partial_pathlist parent_rel l, dropped).

(** [Some b] when the loop returns [b], [None] when it falls through. *)
Fixpoint add_partial_path_precheck_loop (total_cost' : Cost) (pathkeys' : list PathKey)
    (l : list Path) : option bool :=
  match l with
  | [] => None
  | old_path :: l =>
      let continue := add_partial_path_precheck_loop total_cost' pathkeys' l in
      match compare_pathkeys pathkeys' (pathkeys old_path) with
      | PATHKEYS_DIFFERENT => continue
      | keyscmp =>
          if (total_cost' >? total_cost old_path * STD_FUZZ_FACTOR)
             && negb (bool_decide (keyscmp = PATHKEYS_BETTER1))
          then Some false
          else if (total_cost old_path >? total_cost' * STD_FUZZ_FACTOR)
                  && negb (bool_decide (keyscmp = PATHKEYS_BETTER2))
          then Some true
          else continue
      end
  end.

Definition add_partial_path_precheck (rel : RelOptInfo) (parent_rel : RelPaths) (total_cost' : Cost)
    (pathkeys' : list PathKey) : bool :=
  match add_partial_path_precheck_loop total_cost' pathkeys' (partial_pathlist parent_rel) with
  | Some b => b
  | None => add_path_precheck rel parent_rel total_cost' total_cost' pathkeys' None
  end.

(** ** Dominance *)

(** [p] makes [q] superfluous, [c] being the fuzzy cost comparison of [p] with
    [q]: no worse cost, at least as well ordered, no other outer relations, no
    less parallel safe, and no more rows unless [p] is the parallel-safe one of
    the two. *)
Record dominates (c : PathCostComparison) (p q : Path) : Prop := {
  dom_cost : c = COSTS_EQUAL \/ c = COSTS_BETTER1;
  dom_keys : keys_prefix (effective_pathkeys q) (effective_pathkeys p);
  dom_outer : subset (PATH_REQ_OUTER p) (PATH_REQ_OUTER q);
  dom_safe : bool_ge (parallel_safe p) (parallel_safe q) = true;
  dom_rows : (rows p >? rows q) = false \/ bool_gt (parallel_safe p) (parallel_safe q) = true;
}.

Definition std_costcmp (p q : Path) : PathCostComparison :=
  compare_path_costs_fuzzily p q STD_FUZZ_FACTOR.

Definition outer_wf (p : Path) : Prop := bms_wf (PATH_REQ_OUTER p).

Lemma keep_just_one_cases new old :
  (keep_just_one new old = (true, true)
   /\ bool_ge (parallel_safe new) (parallel_safe old) = true
   /\ ((rows new >? rows old) = false \/ bool_gt (parallel_safe new) (parallel_safe old) = true))
  \/ (keep_just_one new old = (false, false)
      /\ bool_ge (parallel_safe old) (parallel_safe new) = true
      /\ ((rows old >? rows new) = false \/ bool_gt (parallel_safe old) (parallel_safe new) = true)).
Proof.
  unfold keep_just_one, bool_gt, bool_ge.
  pose proof (dlt_asym (rows new) (rows old)) as A1. pose proof (dlt_asym (rows old) (rows new)) as A2.
  destruct (parallel_safe new), (parallel_safe old); simpl; auto.
  all: destruct (rows new <? rows old); [rewrite A1 by done; auto|].
  all: destruct (rows old <? rows new); [auto|]; case_decide; auto.
Qed.

(** Every verdict but "keep both" comes with the dominance that justifies it. *)
Lemma add_path_verdict_sound new old : outer_wf new -> outer_wf old ->
  match add_path_verdict new old with
  | (true, true) => dominates (std_costcmp new old) new old
  | (false, true) => True
  | (false, false) => dominates (flip_costs (std_costcmp new old)) old new
  | (true, false) => False
  end.
Proof.
  intros Wn Wo. pose proof (bms_subset_compare_subset _ _ Wn Wo) as Ho.
  pose proof (compare_pathkeys_verdict (effective_pathkeys new) (effective_pathkeys old)) as Hk.
  pose proof (keep_just_one_cases new old) as Hj.
  pose proof (dle_not_lt (rows new) (rows old)) as R1.
  pose proof (dle_not_lt (rows old) (rows new)) as R2.
  unfold add_path_verdict, std_costcmp.
  destruct (compare_path_costs_fuzzily new old STD_FUZZ_FACTOR);
    do 2 case_bool_decide; simpl in Hk; rewrite ?Hk;
    destruct (bms_subset_compare (PATH_REQ_OUTER new) (PATH_REQ_OUTER old)); simpl; try done.
  all: try (destruct Hj as [(-> & ? & ?)|(-> & ? & ?)]; constructor; tauto).
  all: clear Hj; match goal with |- context [if ?a && ?b then _ else _] =>
         destruct a, b eqn:?; simpl; try done end.
  all: constructor; tauto.
Qed.

Lemma add_path_verdict_exclusive new old :
  removes add_path_verdict new old = true -> rejects add_path_verdict new old = false.
Proof.
  unfold removes, rejects, add_path_verdict, keep_just_one. repeat (case_match; try done).
Qed.

Lemma removes_dominates new old : outer_wf new -> outer_wf old ->
  removes add_path_verdict new old = true -> dominates (std_costcmp new old) new old.
Proof.
  intros Wn Wo. pose proof (add_path_verdict_sound new old Wn Wo) as Hs. unfold removes.
  destruct (add_path_verdict new old) as [[] []]; simpl; done.
Qed.

Lemma rejects_dominates new old : outer_wf new -> outer_wf old ->
  rejects add_path_verdict new old = true -> dominates (flip_costs (std_costcmp new old)) old new.
Proof.
  intros Wn Wo. pose proof (add_path_verdict_sound new old Wn Wo) as Hs. unfold rejects.
  destruct (add_path_verdict new old) as [[] []]; simpl; done.
Qed.

(** ** The contract of add_path *)

(** C1: add_path loses and duplicates nothing: the new path list and the discarded
    paths are the old list and the new path; exactly the discarded paths that are
    not IndexPaths are freed; every discarded old path is dominated by the new path;
    and a discarded new path is dominated by a path that stays in the list. *)
Theorem add_path_contract rel new rel' freed :
  outer_wf new -> Forall outer_wf (pathlist rel) -> add_path rel new = (rel', freed) ->
  exists removed,
    Forall (fun old => dominates (std_costcmp new old) new old) removed
    /\ ((pathlist rel' ++ removed ≡ₚ new :: pathlist rel /\ new ∈ pathlist rel'
         /\ freed = filter (fun p => IsIndexPath p = false) removed)
        \/ (pathlist rel' ++ removed ≡ₚ pathlist rel
            /\ (exists old, old ∈ pathlist rel'
                  /\ dominates (flip_costs (std_costcmp new old)) old new)
            /\ freed = filter (fun p => IsIndexPath p = false) (removed ++ [new]))).
Proof.
  intros Wn Wl E. unfold add_path in E.
  destruct (run_tournament add_path_verdict cost_after new (pathlist rel)) as [l d] eqn:T.
  injection E as <- <-. cbn [pathlist set_pathlist].
  pose proof (run_tournament_perm _ _ add_path_verdict_exclusive _ _ _ _ T) as HP.
  rewrite Forall_forall in Wl.
  pose proof (run_tournament_accepted _ _ add_path_verdict_exclusive _ _ _ _ T)
    as [(kept & HP' & _ & _ & Hd)|(Hsub & (q & Hq & Hrej) & d' & -> & Hd)].
  - exists d. split.
    + rewrite Hd. apply Forall_forall. intros p [Hp Hin]%list_elem_of_filter.
      apply removes_dominates; auto.
    + left. split_and!; [exact HP| |reflexivity]. rewrite HP'. constructor.
  - assert (l ++ d' ≡ₚ pathlist rel) as HP'.
    { apply (Permutation.Permutation_cons_inv (a:=new)). rewrite <- HP. solve_Permutation. }
    exists d'. split.
    + apply Forall_forall. intros p Hp. apply removes_dominates; [exact Wn| |].
      * apply Wl. rewrite <- HP'. apply elem_of_app. auto.
      * rewrite Forall_forall in Hd. auto.
    + right. split_and!; [exact HP'| |reflexivity].
      exists q. split; [exact Hq|]. apply rejects_dominates; [exact Wn| |exact Hrej].
      apply Wl. rewrite <- HP'. apply elem_of_app. auto.
Qed.

(** The invariant of a path list: no NaN total cost, cheaper total first, and no
    path of it beats another. *)
Definition total_key (p : Path) : Z := sval (total_cost p).
Record pathlist_ok (l : list Path) : Prop := {
  ok_costs : Forall (fun p => isnan (total_cost p) = false) l;
  ok_sorted : key_sorted total_key l;
  ok_pairwise : StronglySorted (compatible add_path_verdict) l;
}.

Lemma cost_after_key new p : isnan (total_cost new) = false -> isnan (total_cost p) = false ->
  cost_after new p = (total_key p <=? total_key new)%Z.
Proof. intros. unfold cost_after, total_key. apply dle_sval; assumption. Qed.

Lemma add_path_ok rel new : isnan (total_cost new) = false -> pathlist_ok (pathlist rel) ->
  pathlist_ok (pathlist (add_path rel new).1) /\ pathlist (add_path rel new).1 <> [].
Proof.
  intros Nn [Hc Hs Hp]. unfold add_path.
  destruct (run_tournament add_path_verdict cost_after new (pathlist rel)) as [l d] eqn:T.
  cbn [fst pathlist set_pathlist].
  pose proof (run_tournament_perm _ _ add_path_verdict_exclusive _ _ _ _ T) as HP.
  split; [split|].
  - assert (Forall (fun p => isnan (total_cost p) = false) (l ++ d)) as Hl.
    { rewrite HP. constructor; assumption. }
    apply Forall_app in Hl. tauto.
  - refine (run_tournament_sorted _ _ add_path_verdict_exclusive total_key _ _ _ _ _ Hs T).
    intros p Hin. apply cost_after_key; [exact Nn|]. rewrite Forall_forall in Hc. auto.
  - exact (run_tournament_pairwise _ _ add_path_verdict_exclusive _ _ _ _ Hp T).
  - intros ->. pose proof (run_tournament_accepted _ _ add_path_verdict_exclusive _ _ _ _ T)
      as [(kept & HP' & _)|(_ & (q & Hq & _) & _)].
    + symmetry in HP'. apply Permutation_nil_cons in HP' || (apply Permutation_sym, Permutation_nil in HP'; done).
    + apply not_elem_of_nil in Hq. done.
Qed.

(** Offering the paths one after the other. *)
Definition add_paths (rel : RelPaths) (news : list Path) : RelPaths :=
  foldl (fun rel new => (add_path rel new).1) rel news.

Lemma add_paths_ok rel news :
  Forall (fun p => isnan (total_cost p) = false) news -> pathlist_ok (pathlist rel) ->
  pathlist_ok (pathlist (add_paths rel news))
  /\ (news <> [] \/ pathlist rel <> [] -> pathlist (add_paths rel news) <> []).
Proof.
  revert rel. induction news as [|new news IH]; intros rel; simpl.
  - intros _ Hok. split; [exact Hok|]. intros [?|?]; done.
  - intros [Hn Hns]%Forall_cons Hok. destruct (add_path_ok rel new Hn Hok) as [Hok' Hne].
    destruct (IH (add_path rel new).1 Hns Hok') as [Hok'' Hne'].
    split; [exact Hok''|]. auto.
Qed.

(** C2: whatever sequence of paths without NaN total cost is offered to a relation
    that has none yet, its path list stays sorted by total cost, no path of it beats
    another under add_path's test, and it is not empty once a path was offered. *)
Theorem add_path_invariant rel news :
  pathlist rel = [] -> news <> [] -> Forall (fun p => isnan (total_cost p) = false) news ->
  pathlist_ok (pathlist (add_paths rel news)) /\ pathlist (add_paths rel news) <> [].
Proof.
  intros E Hne Hn. destruct (add_paths_ok rel news Hn) as [Hok Hne'].
  - rewrite E. split; constructor.
  - split; [exact Hok|]. apply Hne'. auto.
Qed.

(** ** add_path_precheck *)

(** An old path that makes the precheck fail. *)
Definition precheck_beaten (startup_matters : bool) (startup_cost' total_cost' : Cost)
    (new_path_pathkeys : list PathKey) (required_outer : Relids) (old_path : Path) : bool :=
  (total_cost' >? total_cost old_path * STD_FUZZ_FACTOR)
  && (((startup_cost' >? startup_cost old_path * STD_FUZZ_FACTOR) || negb startup_matters)
      && pathkeys_contained_in new_path_pathkeys (effective_pathkeys old_path)
      && bms_equal required_outer (PATH_REQ_OUTER old_path)).

Definition nonneg_totals (l : list Path) : Prop :=
  Forall (fun p => nonneg (total_cost p) = true) l.

Lemma precheck_stop total' p q :
  nonneg total' = true -> nonneg (total_cost p) = true -> nonneg (total_cost q) = true ->
  (total_key p <= total_key q)%Z ->
  (total' >? total_cost p * STD_FUZZ_FACTOR) = false ->
  isnan total' = false -> isnan (total_cost p * STD_FUZZ_FACTOR) = false ->
  (total' >? total_cost q * STD_FUZZ_FACTOR) = false.
Proof.
  intros Ht Hp Hq L Hs Nt Nm. destruct STD_FUZZ_FACTOR_ok as (Hf & Ff & _).
  unfold total_key in L. rewrite !sval_nonneg in L by assumption.
  apply cle_not_lt; auto with nneg. transitivity (total_cost p * STD_FUZZ_FACTOR).
  - apply cle_dle; auto with nneg. rewrite dle_sval by assumption.
    rewrite dlt_sval in Hs by assumption. lia.
  - apply cle_mul_r; assumption.
Qed.

Lemma isnan_fuzz x : nonneg x = true -> isnan x = false -> isnan (x * STD_FUZZ_FACTOR) = false.
Proof.
  intros Hx Nx. destruct STD_FUZZ_FACTOR_ok as (Hf & Ff & B).
  apply isnan_cmag_false. apply isnan_cmag_false in Nx.
  destruct (decide (cmag x < HUGE)%Z).
  - rewrite cmag_mul by assumption. unfold sat. lia.
  - rewrite SFmul_inf by (assumption || lia). case_decide as D; [|lia].
    rewrite D in B. pose proof (pow2_pos 1067 ltac:(lia)). lia.
Qed.

Lemma precheck_loop_scan startup_matters startup' total' keys outer l :
  nonneg total' = true -> isnan total' = false -> nonneg_totals l ->
  Forall (fun p => isnan (total_cost p) = false) l -> key_sorted total_key l ->
  add_path_precheck_loop startup_matters startup' total' keys outer l =
  negb (existsb (precheck_beaten startup_matters startup' total' keys outer) l).
Proof.
  intros Ht Nt Hn Hc Hs. induction l as [|p l IH]; [reflexivity|].
  unfold nonneg_totals, key_sorted in *.
  apply Forall_cons in Hn as [Hnp Hn]. apply Forall_cons in Hc as [Hcp Hc].
  apply StronglySorted_cons in Hs as [Hsp Hs]. simpl.
  rewrite IH by assumption. clear IH. unfold precheck_beaten at 2.
  destruct (total' >? total_cost p * STD_FUZZ_FACTOR) eqn:E; simpl; [by case_match|].
  symmetry. apply negb_true_iff, not_true_iff_false. rewrite existsb_exists.
  intros (q & Hq%list_elem_of_In & Hb). rewrite !Forall_forall in *.
  unfold precheck_beaten in Hb. rewrite (precheck_stop total' p q) in Hb by auto using isnan_fuzz.
  discriminate.
Qed.

(** C37: although it stops at the first path of no smaller total cost, add_path_precheck
    finds a dominating old path exactly when there is one anywhere in the (sorted) list. *)
Theorem add_path_precheck_complete rel parent_rel startup' total' keys outer :
  nonneg total' = true -> isnan total' = false ->
  nonneg_totals (pathlist parent_rel) -> pathlist_ok (pathlist parent_rel) ->
  add_path_precheck rel parent_rel startup' total' keys outer = false <->
  exists old, old ∈ pathlist parent_rel
    /\ precheck_beaten
         (match outer with Some _ => consider_param_startup rel | None => consider_startup rel end)
         startup' total' (match outer with Some _ => [] | None => keys end) outer old = true.
Proof.
  intros Ht Nt Hn [Hc Hs _]. unfold add_path_precheck.
  destruct outer; cbn [fst snd]; rewrite precheck_loop_scan by assumption;
    rewrite negb_false_iff, existsb_exists;
    (split; intros (q & Hq & Hb); exists q; (split; [apply list_elem_of_In; assumption|assumption])).
Qed.

(** The precheck compares total costs only.  A path that is fuzzily cheaper on the
    weighted cost, so that add_path would let it replace the single old path, is turned
    away by the precheck when its total cost is more than 1% higher. *)
Theorem precheck_ignores_power rel parent_rel new old :
  pathlist parent_rel = [old] -> parent new = rel ->
  param_info new = None -> param_info old = None -> pathkeys new = pathkeys old ->
  rows new = rows old -> isnan (rows old) = false -> parallel_safe new = parallel_safe old ->
  consider_startup rel = false ->
  (total_cost new >? total_cost old * STD_FUZZ_FACTOR) = true ->
  (weighted_cost old >? weighted_cost new * STD_FUZZ_FACTOR) = true ->
  (weighted_cost new >? weighted_cost old * STD_FUZZ_FACTOR) = false ->
  parent old = rel ->
  add_path_precheck rel parent_rel (startup_cost new) (total_cost new) (pathkeys new) None = false
  /\ pathlist (add_path parent_rel new).1 = [new].
Proof.
  intros El Pn In Io Ek Er Nr Es Ec Ht Hw Hw' Po. split.
  - unfold add_path_precheck. rewrite El, Ec. cbn [add_path_precheck_loop]. rewrite Ht, orb_true_r.
    unfold pathkeys_contained_in, effective_pathkeys, PATH_REQ_OUTER. rewrite Io, Ek.
    rewrite compare_pathkeys_refl. reflexivity.
  - unfold add_path, run_tournament. rewrite El. simpl.
    assert (add_path_verdict new old = (true, true)) as ->; [|reflexivity].
    unfold add_path_verdict, compare_path_costs_fuzzily. rewrite Hw', Hw.
    unfold CONSIDER_PATH_STARTUP_COST. rewrite Io, Po, Ec. simpl.
    unfold effective_pathkeys, PATH_REQ_OUTER. rewrite In, Io, Ek, compare_pathkeys_refl, Er, Es. simpl.
    rewrite dle_sval, Z.leb_refl by assumption. unfold bool_ge. by destruct (parallel_safe old).
Qed.

(** ** add_partial_path *)

Lemma add_partial_path_verdict_exclusive new old :
  removes add_partial_path_verdict new old = true -> rejects add_partial_path_verdict new old = false.
Proof. unfold removes, rejects, add_partial_path_verdict. repeat (case_match; try done). Qed.

Lemma partial_keeps_both_keys new old :
  keeps_both add_partial_path_verdict new old ->
  map pk_ptr (pathkeys new) <> map pk_ptr (pathkeys old).
Proof.
  intros K E. unfold keeps_both, add_partial_path_verdict in K.
  assert (compare_pathkeys (pathkeys new) (pathkeys old) = PATHKEYS_EQUAL) as Ek.
  { rewrite compare_pathkeys_verdict.
    rewrite !bool_decide_true; [reflexivity|..]; unfold keys_prefix; rewrite E; reflexivity. }
  rewrite Ek in K. repeat case_match; discriminate.
Qed.

Definition different_keys (p q : Path) : Prop := map pk_ptr (pathkeys p) <> map pk_ptr (pathkeys q).

(** What the users of a partial path list rely on. *)
Record partial_pathlist_ok (l : list Path) : Prop := {
  partial_costs : Forall (fun p => isnan (total_cost p) = false) l;
  partial_sorted : key_sorted total_key l;
  partial_pairwise : StronglySorted (compatible add_partial_path_verdict) l;
}.

Definition add_partial_paths (rel : RelPaths) (news : list Path) : RelPaths :=
  foldl (fun rel new => (add_partial_path rel new).1) rel news.

Lemma add_partial_path_ok rel new :
  isnan (total_cost new) = false -> partial_pathlist_ok (partial_pathlist rel) ->
  partial_pathlist_ok (partial_pathlist (add_partial_path rel new).1).
Proof.
  intros Nn [Hc Hs Hp]. unfold add_partial_path.
  destruct (run_tournament add_partial_path_verdict cost_after new (partial_pathlist rel)) as [l d] eqn:T.
  cbn [fst partial_pathlist set_partial_pathlist].
  pose proof (run_tournament_perm _ _ add_partial_path_verdict_exclusive _ _ _ _ T) as HP.
  split.
  - assert (Forall (fun p => isnan (total_cost p) = false) (l ++ d)) as Hl.
    { rewrite HP. constructor; assumption. }
    apply Forall_app in Hl. tauto.
  - refine (run_tournament_sorted _ _ add_partial_path_verdict_exclusive total_key _ _ _ _ _ Hs T).
    intros p Hin. apply cost_after_key; [exact Nn|]. rewrite Forall_forall in Hc. auto.
  - exact (run_tournament_pairwise _ _ add_partial_path_verdict_exclusive _ _ _ _ Hp T).
Qed.

Lemma add_partial_paths_ok rel news :
  Forall (fun p => isnan (total_cost p) = false) news -> partial_pathlist_ok (partial_pathlist rel) ->
  partial_pathlist_ok (partial_pathlist (add_partial_paths rel news)).
Proof.
  revert rel. induction news as [|new news IH]; intros rel; simpl; [auto|].
  intros [Hn Hns]%Forall_cons Hok. apply IH; [exact Hns|]. apply add_partial_path_ok; assumption.
Qed.

(** After any sequence of add_partial_path calls on a relation without partial
    paths, the first path of the partial path list is one of least total cost, which
    is what the code that just takes the front entry relies on, and no two paths of
    the list have the same path keys. *)
Theorem add_partial_path_front_cheapest rel news p l :
  partial_pathlist rel = [] -> Forall (fun q => isnan (total_cost q) = false) news ->
  partial_pathlist (add_partial_paths rel news) = p :: l ->
  Forall (fun q => (total_cost p <=? total_cost q) = true) l /\ StronglySorted different_keys (p :: l).
Proof.
  intros E Hn El. destruct (add_partial_paths_ok rel news Hn) as [Hc Hs Hp].
  { rewrite E. split; constructor. }
  rewrite El in *. split.
  - unfold key_sorted in Hs. apply StronglySorted_cons in Hs as [Hs _].
    apply Forall_cons in Hc as [Hcp Hc]. rewrite !Forall_forall in *. intros q Hq.
    specialize (Hs q Hq). rewrite dle_sval by auto. unfold total_key in Hs. lia.
  - clear -Hp. induction Hp as [|q l' _ IH Hq]; constructor; [exact IH|].
    eapply Forall_impl; [exact Hq|]. unfold different_keys.
    intros r [K|K]; [exact (partial_keeps_both_keys _ _ K)|].
    apply not_eq_sym. exact (partial_keeps_both_keys _ _ K).
Qed.

End add_path.

(** ** Concrete path lists *)

#[local] Existing Instance default_settings.

Definition no_paths : RelPaths := mkRelPaths [] [] None None None [].

Lemma add_path_contract_witness :
  exists removed, pathlist (add_path (add_path no_paths path20).1 path10).1 ++ removed
    ≡ₚ [path10; path20].
Proof.
  destruct (add_path_contract (add_path no_paths path20).1 path10
    (add_path (add_path no_paths path20).1 path10).1
    (add_path (add_path no_paths path20).1 path10).2) as (removed & _ & [(HP & _)|(HP & H & _)]).
  - exact I.
  - repeat constructor.
  - reflexivity.
  - exists removed. exact HP.
  - exists (removed ++ [path10]). rewrite app_assoc, HP. apply Permutation_app_comm.
Defined.

Lemma add_path_invariant_witness :
  pathlist (add_paths no_paths [path20; path10; path30]) = [path10]
  /\ pathlist_ok (pathlist (add_paths no_paths [path20; path10; path30])).
Proof.
  split; [vm_compute; reflexivity|].
  apply (add_path_invariant no_paths [path20; path10; path30]).
  - reflexivity.
  - discriminate.
  - repeat constructor.
Defined.

(** A path of 11 units against one of 10 that is no better in any respect. *)
Lemma add_path_precheck_complete_witness :
  add_path_precheck sample_rel (mkRelPaths [path10] [] None None None [])
    (i2d 1) (i2d 11) [] None = false.
Proof.
  apply (add_path_precheck_complete sample_rel (mkRelPaths [path10] [] None None None [])
    (i2d 1) (i2d 11) [] None).
  - reflexivity.
  - reflexivity.
  - repeat constructor.
  - split; repeat constructor.
  - exists path10. split; [constructor|]. vm_compute. reflexivity.
Defined.

Lemma add_partial_path_front_cheapest_witness :
  Forall (fun q : Path => (total_cost path10 <=? total_cost q) = true) []
  /\ StronglySorted different_keys [path10].
Proof.
  apply (add_partial_path_front_cheapest no_paths [path20; path10; path30]).
  - reflexivity.
  - repeat constructor.
  - vm_compute. reflexivity.
Defined.

(** Half the power for twice the time. *)
Definition slow_rel : RelOptInfo :=
  {| reloptkind := RELOPT_BASEREL; relids := Some [2]; rel_rows := i2d 10000;
     consider_startup := false; consider_param_startup := false; consider_parallel := true;
     reltarget := sample_target; relid := 1; reltablespace := 0; rtekind := RTE_RELATION;
     pages := 100; tuples := i2d 10000; allvisfrac := dzero; rel_parallel_workers := -1;
     baserestrictinfo := []; baserestrictcost := no_cost |}.

Definition slow_path (total power : Cost) : Path :=
  {| pathtype := T_SeqScan; parent := slow_rel; pathtarget := sample_target; param_info := None;
     parallel_aware := false; parallel_safe := true; parallel_workers := 0;
     rows := i2d 10000; startup_cost := dzero; total_cost := total;
     io_cost := dzero; cpu_cost := dzero; power_cost := power; pathkeys := []; extra := XPath |}.

Lemma precheck_ignores_power_witness :
  let old := slow_path (i2d 10) (i2d 60) in
  let new := slow_path (i2d 20) (i2d 30) in
  let parent_rel := mkRelPaths [old] [] None None None [] in
  add_path_precheck slow_rel parent_rel dzero (i2d 20) [] None = false
  /\ pathlist (@add_path sample_libm power_settings parent_rel new).1 = [new].
Proof.
  intros old new parent_rel.
  apply (@precheck_ignores_power sample_libm power_settings slow_rel parent_rel new old);
    vm_compute; reflexivity.
Defined.
