(* ===== verification/Cheapest.v ===== *)
(** Selection of the cheapest paths: set_cheapest (optimizer/util/pathnode.c) and
    the lookups by sort order and parameterization (optimizer/path/pathkeys.c). *)
From stdpp Require Import sorting.
From S2P Require Import Prelude Float64 Double DoubleOrder Bitmapset PlanTypes Samples Pathkeys PathCompare AddPath.
Open Scope double_scope.

Section cheapest.
Context `{Libm, Settings}.

(** The variables of set_cheapest's loop. *)
Record CheapestState := mkCheapest {
  st_startup : option Path;
  st_total : option Path;
  st_best_param : option Path;
  st_parameterized : list Path;
}.

(** The switch on the comparison of the parameterizations. *)
Definition better_param_path (path best_param_path : Path) : Path :=
  match bms_subset_compare (PATH_REQ_OUTER path) (PATH_REQ_OUTER best_param_path) with
  | BMS_EQUAL =>
      if (compare_path_costs path best_param_path TOTAL_COST <? 0)%Z then path else best_param_path
  | BMS_SUBSET1 => path
  | BMS_SUBSET2 | BMS_DIFFERENT => best_param_path
  end.

(** The path to keep of the cheapest one so far and the current one. *)
Definition better_path (cheapest path : Path) (criterion : CostSelector) : Path :=
  let cmp := compare_path_costs cheapest path criterion in
  if (cmp >? 0)%Z
     || ((cmp =? 0)%Z
         && bool_decide (compare_pathkeys (pathkeys cheapest) (pathkeys path) = PATHKEYS_BETTER2))
  then path else cheapest.

Definition set_cheapest_step (st : CheapestState) (path : Path) : CheapestState :=
  match param_info path with
  | Some _ =>
      let parameterized_paths := st_parameterized st ++ [path] in
      match st_total st with
      | Some _ => mkCheapest (st_startup st) (st_total st) (st_best_param st) parameterized_paths
      | None =>
          let best := match st_best_param st with
                      | None => path
                      | Some best_param_path => better_param_path path best_param_path
                      end in
          mkCheapest (st_startup st) (st_total st) (Some best) parameterized_paths
      end
  | None =>
      match st_startup st, st_total st with
      | Some cheapest_startup_path, Some cheapest_total_path =>
          mkCheapest (Some (better_path cheapest_startup_path path STARTUP_COST))
            (Some (better_path cheapest_total_path path TOTAL_COST))
            (st_best_param st) (st_parameterized st)
      | _, _ => mkCheapest (Some path) (Some path) (st_best_param st) (st_parameterized st)
      end
  end.

Definition set_cheapest (parent_rel : RelPaths) : result RelPaths :=
  match pathlist parent_rel with
  | [] => Error "could not devise a query plan for the given query"
  | l =>
      let st := foldl set_cheapest_step (mkCheapest None None None []) l in
      let parameterized_paths :=
        match st_total st with
        | Some p => p :: st_parameterized st
        | None => st_parameterized st
        end in
      let cheapest_total :=
        match st_total st with Some p => Some p | None => st_best_param st end in
      Ok (mkRelPaths (pathlist parent_rel) (partial_pathlist parent_rel)
            (st_startup st) cheapest_total None parameterized_paths)
  end.

(** ** Lookups *)

(** One round of the loops of pathkeys.c: keep the path found so far if it is no
    more expensive, else take the current one if it is acceptable. *)
Definition pick (cmp : Path -> Path -> Z) (acceptable : Path -> bool) (matched_path : option Path)
    (path : Path) : option Path :=
  match matched_path with
  | Some m => if (cmp m path <=? 0)%Z then matched_path
              else if acceptable path then Some path else matched_path
  | None => if acceptable path then Some path else None
  end.

Definition get_cheapest_path_for_pathkeys (paths : list Path) (keys : list PathKey)
    (required_outer : Relids) (cost_criterion : CostSelector) (require_parallel_safe : bool)
    : option Path :=
  foldl (pick (fun p q => compare_path_costs p q cost_criterion)
           (fun path =>
              if require_parallel_safe && negb (parallel_safe path) then false
              else pathkeys_contained_in keys (pathkeys path)
                   && bms_is_subset (PATH_REQ_OUTER path) required_outer)) None paths.

Definition get_cheapest_fractional_path_for_pathkeys (paths : list Path) (keys : list PathKey)
    (required_outer : Relids) (fraction : double) : option Path :=
  foldl (pick (fun p q => compare_fractional_path_costs p q fraction)
           (fun path => pathkeys_contained_in keys (pathkeys path)
                        && bms_is_subset (PATH_REQ_OUTER path) required_outer)) None paths.

Fixpoint get_cheapest_parallel_safe_total_inner (paths : list Path) : option Path :=
  match paths with
  | [] => None
  | innerpath :: paths =>
      if parallel_safe innerpath && bms_is_empty (PATH_REQ_OUTER innerpath) then Some innerpath
      else get_cheapest_parallel_safe_total_inner paths
  end.

(** ** What the lookups find *)

(** [pick] finds a minimum of the acceptable paths, for a comparison that is a
    preorder on them. *)
Section pick.
Context (cmp : Path -> Path -> Z) (acceptable : Path -> bool) (good : Path -> Prop).
Hypothesis cmp_refl : forall p, good p -> cmp p p <= 0.
Hypothesis cmp_total : forall p q, good p -> good q -> cmp p q <= 0 \/ cmp q p <= 0.
Hypothesis cmp_trans : forall p q r, good p -> good q -> good r ->
  cmp p q <= 0 -> cmp q r <= 0 -> cmp p r <= 0.

Definition is_pick (paths : list Path) (m : option Path) : Prop :=
  match m with
  | None => Forall (fun p => acceptable p = false) paths
  | Some p => p ∈ paths /\ acceptable p = true
              /\ Forall (fun q => acceptable q = true -> cmp p q <= 0) paths
  end.

Lemma pick_spec paths : Forall good paths -> is_pick paths (foldl (pick cmp acceptable) None paths).
Proof.
  induction paths as [|x paths IH] using rev_ind; [constructor|].
  intros [Hg Hx]%Forall_app. apply Forall_cons in Hx as [Hx _]. specialize (IH Hg).
  rewrite foldl_app. simpl. destruct (foldl _ None paths) as [m|]; simpl in *.
  - destruct IH as (Hm & Ha & Hmin). assert (good m) as Gm by (rewrite Forall_forall in Hg; auto).
    destruct (Z.leb_spec (cmp m x) 0) as [L|L]; simpl.
    + split_and!; [apply elem_of_app; auto|exact Ha|]. apply Forall_app_2; [exact Hmin|apply Forall_singleton; auto].
    + destruct (acceptable x) eqn:Ax; simpl.
      * split_and!; [apply elem_of_app; right; constructor|exact Ax|].
        apply Forall_app_2; [|apply Forall_singleton; auto]. rewrite Forall_forall in *. intros q Hq Aq.
        apply (cmp_trans x m q); auto. destruct (cmp_total m x Gm Hx); [lia|assumption].
      * split_and!; [apply elem_of_app; auto|exact Ha|]. apply Forall_app_2; [exact Hmin|].
        constructor; [congruence|constructor].
  - destruct (acceptable x) eqn:Ax; simpl.
    + split_and!; [apply elem_of_app; right; constructor|exact Ax|]. apply Forall_app_2; [|apply Forall_singleton; auto].
      eapply Forall_impl; [exact IH|]. simpl. congruence.
    + apply Forall_app_2; [exact IH|apply Forall_singleton; auto].
Qed.

End pick.

Lemma compare_path_costs_refl p c : compare_path_costs p p c = 0.
Proof. pose proof (compare_path_costs_flip p p c). lia. Qed.

Lemma compare_path_costs_total p q c :
  compare_path_costs p q c <= 0 \/ compare_path_costs q p c <= 0.
Proof. rewrite (compare_path_costs_flip p q c). lia. Qed.

Definition sorted_enough (keys : list PathKey) (required_outer : Relids) (safe : bool) (p : Path) : Prop :=
  (safe = true -> parallel_safe p = true) /\ keys_prefix keys (pathkeys p)
  /\ subset (PATH_REQ_OUTER p) required_outer.

Lemma acceptable_iff keys outer safe p : bms_wf outer -> outer_wf p ->
  (if safe && negb (parallel_safe p) then false
   else pathkeys_contained_in keys (pathkeys p) && bms_is_subset (PATH_REQ_OUTER p) outer) = true
  <-> sorted_enough keys outer safe p.
Proof.
  intros Wo Wp. unfold sorted_enough. rewrite <- pathkeys_contained_in_prefix.
  rewrite <- bms_is_subset_spec by assumption.
  destruct safe, (parallel_safe p); simpl; rewrite ?andb_true_iff; intuition congruence.
Qed.

(** get_cheapest_path_for_pathkeys returns NULL exactly when no path is sorted
    well enough, needs only the allowed outer relations and is parallel safe if that
    is asked for; otherwise it returns such a path of least cost under
    compare_path_costs. *)
Theorem get_cheapest_path_for_pathkeys_spec paths keys outer criterion safe :
  bms_wf outer -> Forall outer_wf paths -> Forall comparable paths ->
  match get_cheapest_path_for_pathkeys paths keys outer criterion safe with
  | None => forall p, p ∈ paths -> ~ sorted_enough keys outer safe p
  | Some p => p ∈ paths /\ sorted_enough keys outer safe p
              /\ forall q, q ∈ paths -> sorted_enough keys outer safe q ->
                   compare_path_costs p q criterion <= 0
  end.
Proof.
  intros Wo Wp Hc. unfold get_cheapest_path_for_pathkeys.
  pose proof (pick_spec (fun p q => compare_path_costs p q criterion)
    (fun path => if safe && negb (parallel_safe path) then false
       else pathkeys_contained_in keys (pathkeys path) && bms_is_subset (PATH_REQ_OUTER path) outer)
    comparable) as Hp.
  specialize (Hp ltac:(intros p _; cbv beta; rewrite compare_path_costs_refl; lia)
    ltac:(intros p q _ _; apply compare_path_costs_total)
    ltac:(intros p q r; apply compare_path_costs_trans) paths Hc).
  rewrite Forall_forall in Wp. destruct (foldl _ None paths) as [p|]; cbn [is_pick] in Hp.
  - destruct Hp as (Hin & Ha & Hmin). rewrite Forall_forall in Hmin. split_and!; [exact Hin| |].
    + apply acceptable_iff; auto.
    + intros q Hq Sq. apply (Hmin q Hq). apply acceptable_iff; auto.
  - intros p Hin Sp%acceptable_iff; auto. rewrite Forall_forall in Hp. rewrite Hp in Sp; auto. done.
Qed.

(** On a path list sorted by total cost, as add_path keeps it,
    get_cheapest_parallel_safe_total_inner finds an unparameterized parallel-safe path
    of least total cost, and NULL only when there is none. *)
Theorem cheapest_parallel_safe_inner_spec paths :
  Forall outer_wf paths -> Forall (fun p => isnan (total_cost p) = false) paths ->
  key_sorted total_key paths ->
  match get_cheapest_parallel_safe_total_inner paths with
  | None => forall p, p ∈ paths -> parallel_safe p = true -> bms_val (PATH_REQ_OUTER p) <> 0
  | Some p => p ∈ paths /\ parallel_safe p = true /\ bms_val (PATH_REQ_OUTER p) = 0
              /\ forall q, q ∈ paths -> parallel_safe q = true -> bms_val (PATH_REQ_OUTER q) = 0 ->
                   (total_cost p <=? total_cost q) = true
  end.
Proof.
  unfold key_sorted. induction paths as [|p paths IH]; intros Wp Hc Hs; simpl.
  { intros p Hp. apply not_elem_of_nil in Hp. done. }
  apply Forall_cons in Wp as [Wp Wps]. apply Forall_cons in Hc as [Hcp Hc].
  apply StronglySorted_cons in Hs as [Hsp Hs]. specialize (IH Wps Hc Hs).
  rewrite bms_is_empty_spec by exact Wp.
  destruct (parallel_safe p && (bms_val (PATH_REQ_OUTER p) =? 0)%Z) eqn:E.
  - apply andb_prop in E as [E1 E2]. split_and!; [constructor|exact E1|lia|].
    intros q [->|Hq]%elem_of_cons _ _.
    + rewrite dle_sval by assumption. apply Z.leb_refl.
    + rewrite !Forall_forall in *. specialize (Hsp q Hq). rewrite dle_sval by auto.
      unfold total_key in Hsp. lia.
  - assert (parallel_safe p = true -> bms_val (PATH_REQ_OUTER p) <> 0) as Hp.
    { intros Sp. rewrite Sp in E. simpl in E. lia. }
    destruct (get_cheapest_parallel_safe_total_inner paths) as [m|].
    + destruct IH as (Hin & Sm & Em & Hmin). split_and!; [constructor; exact Hin|exact Sm|exact Em|].
      intros q [->|Hq]%elem_of_cons Sq Eq; [by apply Hp in Sq|auto].
    + intros q [->|Hq]%elem_of_cons; auto.
Qed.

(** ** What set_cheapest finds *)

Definition unparameterized (p : Path) : Prop := param_info p = None.

#[export] Instance unparameterized_dec p : Decision (unparameterized p).
Proof. unfold unparameterized. destruct (param_info p); [right|left]; congruence. Defined.

(** [p] is an unparameterized path of [l] of least cost. *)
Definition cheapest_of (c : CostSelector) (l : list Path) (p : Path) : Prop :=
  p ∈ l /\ unparameterized p
  /\ forall q, q ∈ l -> unparameterized q -> compare_path_costs p q c <= 0.

(** [p] is a path of [l] of minimal parameterization, and of least total cost
    among those of the same parameterization. *)
Definition best_of (l : list Path) (p : Path) : Prop :=
  p ∈ l
  /\ forall q, q ∈ l -> subset (PATH_REQ_OUTER q) (PATH_REQ_OUTER p) ->
       subset (PATH_REQ_OUTER p) (PATH_REQ_OUTER q) /\ compare_path_costs p q TOTAL_COST <= 0.

Lemma better_path_cases cheapest path c :
  (better_path cheapest path c = cheapest /\ compare_path_costs cheapest path c <= 0)
  \/ (better_path cheapest path c = path /\ compare_path_costs path cheapest c <= 0).
Proof.
  unfold better_path. rewrite (compare_path_costs_flip cheapest path c).
  destruct (compare_path_costs_range cheapest path c) as [-> | [-> | ->]]; simpl;
    [left|case_bool_decide; [right|left]|right]; (split; [reflexivity|lia]).
Qed.

Lemma cheapest_of_step c l p path :
  Forall comparable (l ++ [path]) -> cheapest_of c l p -> unparameterized path ->
  cheapest_of c (l ++ [path]) (better_path p path c).
Proof.
  intros Hc (Hin & Hu & Hmin) Hp. rewrite Forall_forall in Hc.
  assert (comparable p /\ comparable path) as [Cp Cq].
  { split; apply Hc, elem_of_app; [left; exact Hin|right; constructor]. }
  destruct (better_path_cases p path c) as [[-> L]|[-> L]].
  - split_and!; [apply elem_of_app; auto|exact Hu|].
    intros q [Hq| ->%list_elem_of_singleton]%elem_of_app; auto.
  - split_and!; [apply elem_of_app; right; constructor|exact Hp|].
    intros q [Hq| ->%list_elem_of_singleton]%elem_of_app Uq.
    + apply (compare_path_costs_trans path p q); auto. apply Hc, elem_of_app. auto.
    + rewrite compare_path_costs_refl. lia.
Qed.

Lemma best_of_step l p path :
  Forall comparable (l ++ [path]) -> Forall outer_wf (l ++ [path]) -> best_of l p ->
  best_of (l ++ [path]) (better_param_path path p).
Proof.
  intros Hc Hw (Hin & Hmin). rewrite Forall_forall in Hc, Hw.
  assert (p ∈ l ++ [path] /\ path ∈ l ++ [path]) as [Ip Iq].
  { split; apply elem_of_app; [left; exact Hin|right; constructor]. }
  pose proof (bms_subset_compare_subset _ _ (Hw _ Iq) (Hw _ Ip)) as Ho. unfold better_param_path.
  assert (forall q, q ∈ l -> comparable q) as Hcl by (intros q Hq; apply Hc, elem_of_app; auto).
  assert (compare_path_costs path path TOTAL_COST <= 0) as Hr by (rewrite compare_path_costs_refl; lia).
  assert (forall a b c, subset a b -> subset b c -> subset a c) as Ht by (unfold subset; auto).
  destruct (bms_subset_compare _ _).
  - destruct Ho as [S1 S2]. destruct (Z.ltb_spec (compare_path_costs path p TOTAL_COST) 0) as [L|L].
    + split; [exact Iq|]. intros q [Hq| ->%list_elem_of_singleton]%elem_of_app Sq; [|auto].
      destruct (Hmin q Hq) as [Sp Cp]; [eauto|]. split; [eauto|].
      apply (compare_path_costs_trans path p q); auto. lia.
    + split; [exact Ip|]. intros q [Hq| ->%list_elem_of_singleton]%elem_of_app Sq; [auto|].
      split; [exact S2|]. rewrite (compare_path_costs_flip path p). lia.
  - destruct Ho as [S1 N]. split; [exact Iq|].
    intros q [Hq| ->%list_elem_of_singleton]%elem_of_app Sq; [|auto].
    destruct N. destruct (Hmin q Hq) as [Sp _]; eauto.
  - destruct Ho as [S1 N]. split; [exact Ip|].
    intros q [Hq| ->%list_elem_of_singleton]%elem_of_app Sq; [auto|done].
  - destruct Ho as [N1 N2]. split; [exact Ip|].
    intros q [Hq| ->%list_elem_of_singleton]%elem_of_app Sq; [auto|done].
Qed.

(** The state of the loop after the paths of [l]. *)
Definition cheapest_inv (l : list Path) (st : CheapestState) : Prop :=
  st_parameterized st = filter (fun p => ~ unparameterized p) l
  /\ match st_startup st, st_total st with
     | Some s, Some t => cheapest_of STARTUP_COST l s /\ cheapest_of TOTAL_COST l t
     | None, None =>
         Forall (fun p => ~ unparameterized p) l
         /\ match st_best_param st with Some b => best_of l b | None => l = [] end
     | _, _ => False
     end.

Lemma cheapest_of_param c l p path :
  cheapest_of c l p -> ~ unparameterized path -> cheapest_of c (l ++ [path]) p.
Proof.
  intros (Hin & Hu & Hmin) Hp. split_and!; [apply elem_of_app; auto|exact Hu|].
  intros q [Hq| ->%list_elem_of_singleton]%elem_of_app; [auto|done].
Qed.

Lemma cheapest_of_first c l path :
  Forall (fun p => ~ unparameterized p) l -> unparameterized path -> cheapest_of c (l ++ [path]) path.
Proof.
  intros Hl Hp. rewrite Forall_forall in Hl. split_and!; [apply elem_of_app; right; constructor|exact Hp|].
  intros q [Hq| ->%list_elem_of_singleton]%elem_of_app Uq; [by apply Hl in Hq|].
  rewrite compare_path_costs_refl. lia.
Qed.

Lemma set_cheapest_step_inv l st path :
  Forall comparable (l ++ [path]) -> Forall outer_wf (l ++ [path]) ->
  cheapest_inv l st -> cheapest_inv (l ++ [path]) (set_cheapest_step st path).
Proof.
  intros Hc Hw [Hp Hm]. unfold set_cheapest_step, cheapest_inv.
  rewrite filter_app, filter_cons, filter_nil. destruct (param_info path) as [ppi|] eqn:E.
  - assert (~ unparameterized path) as Np by (unfold unparameterized; congruence).
    rewrite decide_True by exact Np.
    destruct (st_startup st), (st_total st) as [t|]; try done; cbn [st_startup st_total st_best_param st_parameterized];
      (split; [rewrite Hp; reflexivity|]).
    + destruct Hm. split; apply cheapest_of_param; assumption.
    + destruct Hm as [Hf Hb]. split; [apply Forall_app_2; auto|].
      destruct (st_best_param st) as [b|].
      * apply best_of_step; assumption.
      * subst l. split; [constructor|]. intros q ->%list_elem_of_singleton _.
        split; [intros x; auto|]. rewrite compare_path_costs_refl. lia.
  - assert (unparameterized path) as Np by exact E.
    rewrite decide_False, app_nil_r by (intros X; apply X, Np).
    destruct (st_startup st), (st_total st) as [t|]; try done; cbn [st_startup st_total st_best_param st_parameterized];
      (split; [exact Hp|]).
    + destruct Hm. split; apply cheapest_of_step; assumption.
    + destruct Hm as [Hf _]. split; apply cheapest_of_first; assumption.
Qed.

Lemma set_cheapest_loop_inv l : Forall comparable l -> Forall outer_wf l ->
  cheapest_inv l (foldl set_cheapest_step (mkCheapest None None None []) l).
Proof.
  induction l as [|x l IH] using rev_ind; intros Hc Hw.
  - split; [reflexivity|]. split; [constructor|reflexivity].
  - rewrite foldl_app. simpl. apply set_cheapest_step_inv; [assumption..|].
    apply Forall_app in Hc as [Hc _]. apply Forall_app in Hw as [Hw _]. auto.
Qed.

(** C3: set_cheapest fails exactly on an empty path list.  If the relation has an
    unparameterized path, cheapest_startup_path and cheapest_total_path are
    unparameterized paths of least startup and least weighted total cost and the total
    one heads the list of parameterized paths; otherwise cheapest_startup_path is NULL
    and cheapest_total_path has a minimal parameterization and is the cheapest of those
    with the same one. *)
Theorem set_cheapest_spec rel :
  Forall comparable (pathlist rel) -> Forall outer_wf (pathlist rel) ->
  match set_cheapest rel with
  | Error _ => pathlist rel = []
  | Ok rel' =>
      pathlist rel' = pathlist rel /\ partial_pathlist rel' = partial_pathlist rel
      /\ cheapest_unique_path rel' = None
      /\ exists t, cheapest_total_path rel' = Some t
      /\ (((exists s, cheapest_startup_path rel' = Some s /\ cheapest_of STARTUP_COST (pathlist rel) s)
           /\ cheapest_of TOTAL_COST (pathlist rel) t
           /\ cheapest_parameterized_paths rel'
              = t :: filter (fun p => ~ unparameterized p) (pathlist rel))
          \/ (Forall (fun p => ~ unparameterized p) (pathlist rel)
              /\ cheapest_startup_path rel' = None /\ best_of (pathlist rel) t
              /\ cheapest_parameterized_paths rel' = pathlist rel))
  end.
Proof.
  intros Hc Hw. unfold set_cheapest. pose proof (set_cheapest_loop_inv _ Hc Hw) as [Hp Hm].
  destruct (pathlist rel) as [|p l] eqn:El; [reflexivity|]. rewrite <- El in *.
  cbn [pathlist partial_pathlist cheapest_unique_path cheapest_total_path cheapest_startup_path
       cheapest_parameterized_paths].
  destruct (foldl set_cheapest_step _ _) as [s t b ps]; cbn [st_startup st_total st_best_param st_parameterized] in *.
  split_and!; [reflexivity..|].
  destruct s as [s|], t as [t|]; try done.
  - destruct Hm as [Hs Ht]. exists t. split; [reflexivity|]. left. rewrite Hp. eauto.
  - destruct Hm as [Hf Hb]. destruct b as [b|]; [|congruence].
    exists b. split; [reflexivity|]. right. split_and!; [exact Hf|reflexivity|exact Hb|].
    rewrite Hp. clear -Hf. induction Hf as [|q l' Hq _ IH]; [reflexivity|].
    rewrite filter_cons_True by exact Hq. rewrite IH. reflexivity.
Qed.

End cheapest.

(** ** Concrete selections *)

#[local] Existing Instance default_settings.

Lemma sample_comparable : Forall comparable [path10; path20; path30].
Proof. repeat constructor. Qed.

Lemma get_cheapest_path_for_pathkeys_spec_witness :
  get_cheapest_path_for_pathkeys [path20; path10; path30] [] None TOTAL_COST true = Some path10
  /\ sorted_enough [] None true path10.
Proof.
  pose proof (get_cheapest_path_for_pathkeys_spec [path20; path10; path30] [] None TOTAL_COST true) as S.
  assert (get_cheapest_path_for_pathkeys [path20; path10; path30] [] None TOTAL_COST true = Some path10)
    as E by (vm_compute; reflexivity).
  rewrite E in S. split; [exact E|]. apply S; repeat constructor.
Defined.

Lemma cheapest_parallel_safe_inner_spec_witness :
  get_cheapest_parallel_safe_total_inner [path10; path20] = Some path10
  /\ (total_cost path10 <=? total_cost path20) = true.
Proof.
  split; [reflexivity|]. destruct (cheapest_parallel_safe_inner_spec [path10; path20]) as (_ & _ & _ & Hmin).
  - repeat constructor.
  - repeat constructor.
  - unfold key_sorted. repeat constructor; vm_compute; discriminate.
  - apply Hmin; [constructor; constructor|reflexivity|reflexivity].
Defined.

Lemma set_cheapest_spec_witness :
  set_cheapest (mkRelPaths [path10; path20] [] None None None [])
  = Ok (mkRelPaths [path10; path20] [] (Some path10) (Some path10) None [path10])
  /\ exists t, Some path10 = Some t.
Proof.
  assert (set_cheapest (mkRelPaths [path10; path20] [] None None None [])
    = Ok (mkRelPaths [path10; path20] [] (Some path10) (Some path10) None [path10])) as E
    by (vm_compute; reflexivity).
  pose proof (set_cheapest_spec (mkRelPaths [path10; path20] [] None None None [])) as S.
  rewrite E in S. destruct S as (_ & _ & _ & t & Ht & _).
  - repeat constructor.
  - repeat constructor.
  - split; [exact E|]. exists t. exact Ht.
Defined.
