(* ===== verification/CostExpr.v ===== *)
(** Evaluation cost of expressions (costsize.c: cost_qual_eval and its walker,
    with the set_opfuncid of nodeFuncs.c).

    The walker writes into the tree it visits: it fills in missing operator
    function ids and caches the cost of each RestrictInfo.  It is modelled as a
    function that returns the updated tree with the accumulated cost. *)
From S2P Require Import Prelude Float64 Double DoubleOrder Bitmapset PlanTypes Samples.
Open Scope double_scope.

(** The system catalogs, as the walker sees them (lsyscache.c). *)
Class Catalog := {
  get_func_cost : Oid -> double;            (* pg_proc.procost *)
  get_opcode : Oid -> Oid;                  (* pg_operator.oprcode *)
  type_input_func : Oid -> Oid;             (* getTypeInputInfo *)
  type_output_func : Oid -> Oid;            (* getTypeOutputInfo *)
}.

(** procost is positive: CREATE FUNCTION rejects anything else. *)
Class CatalogLaws `{Catalog} := {
  get_func_cost_nonneg : forall f, nonneg (get_func_cost f) = true;
}.

Section walker.
Context `{Settings, Catalog}.

Definition add_startup (ctx : QualCost) (c : Cost) : QualCost :=
  mkQualCost (startup ctx + c) (per_tuple ctx).
Definition add_per_tuple (ctx : QualCost) (c : Cost) : QualCost :=
  mkQualCost (startup ctx) (per_tuple ctx + c).

Definition set_opfuncid (opno opfuncid : Oid) : Oid :=
  if (opfuncid =? 0)%Z then get_opcode opno else opfuncid.

Definition zero_qual_cost : QualCost := mkQualCost (i2d 0) (i2d 0).

Definition rowcompare_cost (ctx : QualCost) (opnos : list Oid) : QualCost :=
  foldl (fun ctx opid => add_per_tuple ctx (get_func_cost (get_opcode opid) * cpu_operator_cost))
    ctx opnos.

(** The cost of a clause in its RestrictInfo: a pseudoconstant one is tested once. *)
Definition restrictinfo_cost (pseudoconstant : bool) (total : QualCost) : QualCost :=
  if pseudoconstant then mkQualCost (startup total + per_tuple total) (i2d 0) else total.

Definition charge (context eval_cost : QualCost) : QualCost :=
  mkQualCost (startup context + startup eval_cost) (per_tuple context + per_tuple eval_cost).

(** expression_tree_walker on a list of children. *)
Definition walk_list (walker : Node -> QualCost -> result (Node * QualCost))
    : list Node -> QualCost -> result (list Node * QualCost) :=
  fix go l context :=
    match l with
    | [] => Ok ([], context)
    | n :: l =>
        let! (n, context) := walker n context in
        let! (l, context) := go l context in
        Ok (n :: l, context)
    end.

Fixpoint cost_qual_eval_walker (node : Node) (context : QualCost) : result (Node * QualCost) :=
  let walk_list := walk_list cost_qual_eval_walker in
  let op_cost opfuncid := get_func_cost opfuncid * cpu_operator_cost in
  match node with
  | RestrictInfoNode (mkRestrictInfo ptr clause pushed pseudo crel orel nrel lrel rrel orclause ec
                        eval_cost lb rb jc) =>
      if startup eval_cost <? i2d 0 then
        let! (clause, orclause, total) :=
          match orclause with
          | Some o =>
              let! (o, total) := cost_qual_eval_walker o zero_qual_cost in Ok (clause, Some o, total)
          | None =>
              let! (c, total) := cost_qual_eval_walker clause zero_qual_cost in Ok (c, None, total)
          end in
        let eval_cost := restrictinfo_cost pseudo total in
        Ok (RestrictInfoNode (mkRestrictInfo ptr clause pushed pseudo crel orel nrel lrel rrel
                                orclause ec eval_cost lb rb jc), charge context eval_cost)
      else Ok (node, charge context eval_cost)
  | FuncExpr funcid args =>
      let! (args, context) := walk_list args (add_per_tuple context (op_cost funcid)) in
      Ok (FuncExpr funcid args, context)
  | OpExpr opno opfuncid args =>
      let opfuncid := set_opfuncid opno opfuncid in
      let! (args, context) := walk_list args (add_per_tuple context (op_cost opfuncid)) in
      Ok (OpExpr opno opfuncid args, context)
  | DistinctExpr opno opfuncid args =>
      let opfuncid := set_opfuncid opno opfuncid in
      let! (args, context) := walk_list args (add_per_tuple context (op_cost opfuncid)) in
      Ok (DistinctExpr opno opfuncid args, context)
  | NullIfExpr opno opfuncid args =>
      let opfuncid := set_opfuncid opno opfuncid in
      let! (args, context) := walk_list args (add_per_tuple context (op_cost opfuncid)) in
      Ok (NullIfExpr opno opfuncid args, context)
  | ScalarArrayOpExpr opno opfuncid scalar array array_length =>
      let opfuncid := set_opfuncid opno opfuncid in
      let context := add_per_tuple context
        (get_func_cost opfuncid * cpu_operator_cost * i2d array_length * dlit 1 2) in
      let! (scalar, context) := cost_qual_eval_walker scalar context in
      let! (array, context) := cost_qual_eval_walker array context in
      Ok (ScalarArrayOpExpr opno opfuncid scalar array array_length, context)
  | Aggref _ | WindowFunc _ => Ok (node, context)
  | CoerceViaIO resulttype arg argtype =>
      let context := add_per_tuple context (op_cost (type_input_func resulttype)) in
      let context := add_per_tuple context (op_cost (type_output_func argtype)) in
      let! (arg, context) := cost_qual_eval_walker arg context in
      Ok (CoerceViaIO resulttype arg argtype, context)
  | ArrayCoerceExpr elemfuncid arg array_length =>
      let context :=
        if negb (elemfuncid =? 0)%Z
        then add_per_tuple context
               (get_func_cost elemfuncid * cpu_operator_cost * i2d array_length)
        else context in
      let! (arg, context) := cost_qual_eval_walker arg context in
      Ok (ArrayCoerceExpr elemfuncid arg array_length, context)
  | RowCompareExpr opnos largs rargs =>
      let! (largs, context) := walk_list largs (rowcompare_cost context opnos) in
      let! (rargs, context) := walk_list rargs context in
      Ok (RowCompareExpr opnos largs rargs, context)
  | MinMaxExpr args =>
      let! (args, context) := walk_list args (add_per_tuple context cpu_operator_cost) in
      Ok (MinMaxExpr args, context)
  | SQLValueFunction | NextValueExpr => Ok (node, add_per_tuple context cpu_operator_cost)
  | XmlExpr named_args args =>
      let! (named_args, context) := walk_list named_args (add_per_tuple context cpu_operator_cost) in
      let! (args, context) := walk_list args context in
      Ok (XmlExpr named_args args, context)
  | CoerceToDomain arg =>
      let! (arg, context) := cost_qual_eval_walker arg (add_per_tuple context cpu_operator_cost) in
      Ok (CoerceToDomain arg, context)
  | CurrentOfExpr _ => Ok (node, add_startup context disable_cost)
  | SubLink => Error "cannot handle unplanned sub-select"
  | SubPlan startup_cost per_call_cost _ _ =>
      Ok (node, add_per_tuple (add_startup context startup_cost) per_call_cost)
  | AlternativeSubPlan subplan others =>
      let! (subplan, context) := cost_qual_eval_walker subplan context in
      Ok (AlternativeSubPlan subplan others, context)
  | PlaceHolderVar _ => Ok (node, context)
  | Var _ _ | Const _ _ | Param => Ok (node, context)
  | BoolExpr boolop args =>
      let! (args, context) := walk_list args context in
      Ok (BoolExpr boolop args, context)
  | NullTest nulltesttype arg =>
      let! (arg, context) := cost_qual_eval_walker arg context in
      Ok (NullTest nulltesttype arg, context)
  | BooleanTest booltesttype arg =>
      let! (arg, context) := cost_qual_eval_walker arg context in
      Ok (BooleanTest booltesttype arg, context)
  | RelabelType arg =>
      let! (arg, context) := cost_qual_eval_walker arg context in
      Ok (RelabelType arg, context)
  | OtherExpr children =>
      let! (children, context) := walk_list children context in
      Ok (OtherExpr children, context)
  | UnknownNode => Error "unrecognized node type"
  end.

(** The quals with their caches filled in, and their cost. *)
Definition cost_qual_eval (quals : list Node) : result (list Node * QualCost) :=
  walk_list cost_qual_eval_walker quals zero_qual_cost.

Definition cost_qual_eval_node (qual : Node) : result (Node * QualCost) :=
  cost_qual_eval_walker qual zero_qual_cost.

(** ** Induction over expression trees *)

(** The expressions the walker visits below a node. *)
Definition children (node : Node) : list Node :=
  match node with
  | RestrictInfoNode (mkRestrictInfo _ clause _ _ _ _ _ _ _ orclause _ _ _ _ _) =>
      match orclause with Some o => [clause; o] | None => [clause] end
  | FuncExpr _ args | OpExpr _ _ args | DistinctExpr _ _ args | NullIfExpr _ _ args
  | MinMaxExpr args | BoolExpr _ args | OtherExpr args => args
  | ScalarArrayOpExpr _ _ scalar array _ => [scalar; array]
  | CoerceViaIO _ arg _ | ArrayCoerceExpr _ arg _ | CoerceToDomain arg
  | NullTest _ arg | BooleanTest _ arg | RelabelType arg => [arg]
  | RowCompareExpr _ largs rargs => largs ++ rargs
  | XmlExpr named_args args => named_args ++ args
  | AlternativeSubPlan subplan _ => [subplan]
  | _ => []
  end.

Fixpoint Node_children_ind (P : Node -> Prop) (step : forall n, Forall P (children n) -> P n)
    (node : Node) {struct node} : P node.
Proof.
  refine (let all := fix all (l : list Node) : Forall P l :=
    match l with
    | [] => Forall_nil_2 P
    | x :: l => Forall_cons_2 P x l (Node_children_ind P step x) (all l)
    end in step node _).
  destruct node as [| | |? args|? ? args|? ? args|? ? args|? ? a b ?|args|args|? a ?|? a ?
    |? l r|args| |l r|a| |?| |? ? a args|a args|a|? args|? a|? a|a|args| |rinfo]; cbn [children];
    try exact (Forall_nil_2 P); try exact (all args);
    try (exact (Forall_cons_2 P a [] (Node_children_ind P step a) (Forall_nil_2 P)));
    try (exact (Forall_app_2 P l r (all l) (all r))).
  - exact (Forall_cons_2 P a [b] (Node_children_ind P step a)
      (Forall_cons_2 P b [] (Node_children_ind P step b) (Forall_nil_2 P))).
  - destruct rinfo as [ptr c ? ? ? ? ? ? ? [o|] ? ? ? ?].
    + exact (Forall_cons_2 P c [o] (Node_children_ind P step c)
        (Forall_cons_2 P o [] (Node_children_ind P step o) (Forall_nil_2 P))).
    + exact (Forall_cons_2 P c [] (Node_children_ind P step c) (Forall_nil_2 P)).
Defined.

(** ** Costs only grow *)

(** [b] is [a] plus something. *)
Definition qual_cost_ok (c : QualCost) : Prop := nonneg (startup c) = true /\ nonneg (per_tuple c) = true.
Definition qual_cost_le (a b : QualCost) : Prop := startup a ⊑ startup b /\ per_tuple a ⊑ per_tuple b.
Definition grows (a b : QualCost) : Prop := qual_cost_ok a -> qual_cost_ok b /\ qual_cost_le a b.

#[export] Instance grows_preorder : PreOrder grows.
Proof.
  split.
  - intros a Ha. split; [exact Ha|]. split; reflexivity.
  - intros a b c Hab Hbc Ha. destruct (Hab Ha) as [Hb [L1 L2]], (Hbc Hb) as [Hc [L3 L4]].
    split; [exact Hc|]. split; etransitivity; eassumption.
Qed.

(** The costs stored in the tree: those of sub-plans, and the cached ones, which are
    negative as long as they are not computed. *)
Definition stored_costs_ok (node : Node) : Prop :=
  match node with
  | SubPlan s p _ _ => nonneg s = true /\ nonneg p = true
  | ScalarArrayOpExpr _ _ _ _ n | ArrayCoerceExpr _ _ n => 0 <= n
  | RestrictInfoNode r => (startup (eval_cost r) <? i2d 0) = true \/ qual_cost_ok (eval_cost r)
  | _ => True
  end.

Inductive node_ok : Node -> Prop :=
| node_ok_intro node : stored_costs_ok node -> Forall node_ok (children node) -> node_ok node.

Lemma grows_startup a c : nonneg c = true -> grows a (add_startup a c).
Proof.
  intros Hc [H1 H2]. split; [split; simpl; auto with nneg|]. split; simpl; [|reflexivity].
  apply cle_add_l; assumption.
Qed.

Lemma grows_per_tuple a c : nonneg c = true -> grows a (add_per_tuple a c).
Proof.
  intros Hc [H1 H2]. split; [split; simpl; auto with nneg|]. split; simpl; [reflexivity|].
  apply cle_add_l; assumption.
Qed.

Lemma grows_charge a c : qual_cost_ok c -> grows a (charge a c).
Proof.
  intros [C1 C2] [H1 H2]. split; [split; simpl; auto with nneg|].
  split; simpl; apply cle_add_l; assumption.
Qed.

Lemma zero_qual_cost_ok : qual_cost_ok zero_qual_cost.
Proof. split; reflexivity. Qed.

Lemma restrictinfo_cost_ok b c : qual_cost_ok c -> qual_cost_ok (restrictinfo_cost b c).
Proof. intros [C1 C2]. destruct b; split; simpl; auto with nneg. Qed.

(** A non-negative cost is not taken for a missing one. *)
Lemma nonneg_not_lt0 x : nonneg x = true -> (x <? i2d 0) = false.
Proof.
  intros Hx. apply cle_not_lt; [reflexivity|exact Hx|].
  unfold cle. pose proof (cmag_range x). assert (cmag (i2d 0) = 0) as -> by reflexivity. lia.
Qed.

Context `{!CatalogLaws} (settings_costs : nonneg cpu_operator_cost = true /\ nonneg disable_cost = true).

Lemma op_cost_nonneg f : nonneg (get_func_cost f * cpu_operator_cost) = true.
Proof. destruct settings_costs. auto using get_func_cost_nonneg with nneg. Qed.

Lemma grows_rowcompare a opnos : grows a (rowcompare_cost a opnos).
Proof.
  revert a. induction opnos as [|o opnos IH]; intros a; [reflexivity|].
  etransitivity; [|apply IH]. apply grows_per_tuple, op_cost_nonneg.
Qed.

Definition walker_grows (n : Node) : Prop := forall ctx n' ctx',
  node_ok n -> cost_qual_eval_walker n ctx = Ok (n', ctx') -> grows ctx ctx'.

Lemma walk_list_grows l : Forall walker_grows l -> Forall node_ok l ->
  forall ctx l' ctx', walk_list cost_qual_eval_walker l ctx = Ok (l', ctx') -> grows ctx ctx'.
Proof.
  induction 1 as [|n l Hn _ IH]; intros Hok ctx l' ctx'; cbn [walk_list].
  - intros [= <- <-]. reflexivity.
  - apply Forall_cons in Hok as [Hk Hok].
    intros ([n1 c1] & E1 & ([l1 c2] & E2 & [= <- <-])%rbind_ok)%rbind_ok.
    etransitivity; [eapply Hn; eassumption|]. eapply IH; eassumption.
Qed.

Lemma half_nonneg : nonneg (dlit 1 2) = true.
Proof. reflexivity. Qed.


Ltac walker_inv :=
  repeat match goal with
  | H : rbind _ _ = Ok _ |- _ =>
      let E := fresh "E" in apply rbind_ok in H as ([? ?] & E & H)
  | H : Ok _ = Ok _ |- _ => injection H as <- <-
  end.

Lemma restrictinfo_total clause orclause (clause' : Node) (orclause' : option Node) total :
  match orclause with
  | Some o =>
      let! (o, total) := cost_qual_eval_walker o zero_qual_cost in Ok (clause, Some o, total)
  | None =>
      let! (c, total) := cost_qual_eval_walker clause zero_qual_cost in Ok (c, None, total)
  end = Ok (clause', orclause', total) ->
  match orclause with
  | Some o => exists o', cost_qual_eval_walker o zero_qual_cost = Ok (o', total)
                /\ clause' = clause /\ orclause' = Some o'
  | None => cost_qual_eval_walker clause zero_qual_cost = Ok (clause', total) /\ orclause' = None
  end.
Proof.
  destruct orclause as [o|]; intros ([n c] & E & E')%rbind_ok; injection E' as <- <- <-; eauto.
Qed.

Lemma cost_qual_eval_walker_grows n : walker_grows n.
Proof.
  destruct settings_costs as [Hop Hdis].
  induction n as [n IH] using Node_children_ind. intros ctx n' ctx' Hok Hw.
  inversion Hok as [? Hst Hch]; subst.
  destruct n as [| | |? args|? ? args|? ? args|? ? args|? ? a b ?|args|args|? a ?|? a ?
    |? l r|args| |l r|a| |?| |? ? a args|a args|a|? args|? a|? a|a|args| |rinfo];
    cbn [cost_qual_eval_walker children stored_costs_ok] in *; try discriminate Hw; walker_inv;
    rewrite ?Forall_app, ?Forall_cons, ?Forall_nil in *; try reflexivity;
    try (etransitivity; [|eapply walk_list_grows; [eassumption..|]; exact IH || eassumption]).
  all: try (apply grows_per_tuple; assumption || apply op_cost_nonneg).
  - destruct IH as (IHa & IHb & _), Hch as (Ha & Hb & _).
    etransitivity; [|eapply IHb; eassumption]. etransitivity; [|eapply IHa; eassumption].
    apply grows_per_tuple. apply nonneg_mul; [|reflexivity].
    apply nonneg_mul; [apply op_cost_nonneg|apply nonneg_i2d, Hst].
  - destruct IH as (IHa & _), Hch as (Ha & _). etransitivity; [|eapply IHa; eassumption].
    etransitivity; apply grows_per_tuple, op_cost_nonneg.
  - destruct IH as (IHa & _), Hch as (Ha & _). etransitivity; [|eapply IHa; eassumption].
    case_match; [|reflexivity]. apply grows_per_tuple.
    apply nonneg_mul; [apply op_cost_nonneg|apply nonneg_i2d, Hst].
  - destruct IH as (IHl & IHr), Hch as (Hl & Hr).
    etransitivity; [|eapply (walk_list_grows r); eassumption].
    etransitivity; [|eapply (walk_list_grows l); eassumption]. apply grows_rowcompare.
  - destruct IH as (IHl & IHr), Hch as (Hl & Hr).
    etransitivity; [|eapply (walk_list_grows r); eassumption].
    etransitivity; [|eapply (walk_list_grows l); eassumption]. apply grows_per_tuple, Hop.
  - destruct IH as (IHa & _), Hch as (Ha & _). etransitivity; [|eapply IHa; eassumption].
    apply grows_per_tuple, Hop.
  - apply grows_startup, Hdis.
  - destruct Hst. etransitivity; [apply grows_startup|apply grows_per_tuple]; assumption.
  - destruct IH as (IHa & _), Hch as (Ha & _). eapply IHa; eassumption.
  - reflexivity.
  - destruct IH as (IHa & _), Hch as (Ha & _). eapply IHa; eassumption.
  - destruct IH as (IHa & _), Hch as (Ha & _). eapply IHa; eassumption.
  - destruct IH as (IHa & _), Hch as (Ha & _). eapply IHa; eassumption.
  - reflexivity.
  - destruct rinfo as [ptr c ? pseudo ? ? ? ? ? orc ? ec ? ?]. cbn [eval_cost] in Hst.
    destruct (startup ec <? i2d 0) eqn:Ec.
    + apply rbind_ok in Hw as ([[c' orc'] total] & Et & Hw). injection Hw as <- <-.
      apply grows_charge, restrictinfo_cost_ok. apply restrictinfo_total in Et.
      destruct orc as [o|]; rewrite ?Forall_cons in *.
      * destruct Et as (o' & Eo & _), IH as (_ & IHo & _), Hch as (_ & Ho & _).
        apply (IHo _ _ _ Ho Eo), zero_qual_cost_ok.
      * destruct Et as (Eo & _), IH as (IHc & _), Hch as (Hc & _).
        apply (IHc _ _ _ Hc Eo), zero_qual_cost_ok.
    + injection Hw as <- <-. apply grows_charge. destruct Hst as [Hst|Hst]; [congruence|exact Hst].
Qed.

(** ** The caches do not change the cost *)

Lemma set_opfuncid_idem opno f : set_opfuncid opno (set_opfuncid opno f) = set_opfuncid opno f.
Proof.
  unfold set_opfuncid. destruct (f =? 0)%Z eqn:E; [|rewrite E; reflexivity].
  case_match; reflexivity.
Qed.

Definition walker_idem (n : Node) : Prop := forall ctx n' ctx',
  node_ok n -> cost_qual_eval_walker n ctx = Ok (n', ctx') ->
  cost_qual_eval_walker n' ctx = Ok (n', ctx').

Lemma walk_list_idem l : Forall walker_idem l -> Forall node_ok l ->
  forall ctx l' ctx', walk_list cost_qual_eval_walker l ctx = Ok (l', ctx') ->
  walk_list cost_qual_eval_walker l' ctx = Ok (l', ctx').
Proof.
  induction 1 as [|n l Hn _ IH]; intros Hok ctx l' ctx'; cbn [walk_list].
  - intros [= <- <-]. reflexivity.
  - apply Forall_cons in Hok as [Hk Hok].
    intros ([n1 c1] & E1 & ([l1 c2] & E2 & [= <- <-])%rbind_ok)%rbind_ok. cbn [walk_list].
    rewrite (Hn _ _ _ Hk E1). cbn [rbind]. rewrite (IH Hok _ _ _ E2). reflexivity.
Qed.

Lemma cost_qual_eval_walker_idem n : walker_idem n.
Proof.
  induction n as [n IH] using Node_children_ind. intros ctx n' ctx' Hok Hw.
  inversion Hok as [? Hst Hch]; subst.
  destruct n as [| | |? args|? ? args|? ? args|? ? args|? ? a b ?|args|args|? a ?|? a ?
    |? l r|args| |l r|a| |?| |? ? a args|a args|a|? args|? a|? a|a|args| |rinfo];
    cbn [cost_qual_eval_walker children stored_costs_ok] in *; try discriminate Hw; walker_inv;
    rewrite ?Forall_app, ?Forall_cons, ?Forall_nil in *; cbn [cost_qual_eval_walker];
    rewrite ?set_opfuncid_idem; try reflexivity.
  all: try (rewrite (walk_list_idem _ IH Hch _ _ _ E); reflexivity).
  - destruct IH as (IHa & IHb & _), Hch as (Ha & Hb & _).
    rewrite (IHa _ _ _ Ha E). cbn [rbind]. rewrite (IHb _ _ _ Hb E0). reflexivity.
  - destruct IH as (IHa & _), Hch as (Ha & _). rewrite (IHa _ _ _ Ha E). reflexivity.
  - destruct IH as (IHa & _), Hch as (Ha & _). rewrite (IHa _ _ _ Ha E). reflexivity.
  - destruct IH as (IHl & IHr), Hch as (Hl & Hr).
    rewrite (walk_list_idem _ IHl Hl _ _ _ E). cbn [rbind].
    rewrite (walk_list_idem _ IHr Hr _ _ _ E0). reflexivity.
  - destruct IH as (IHl & IHr), Hch as (Hl & Hr).
    rewrite (walk_list_idem _ IHl Hl _ _ _ E). cbn [rbind].
    rewrite (walk_list_idem _ IHr Hr _ _ _ E0). reflexivity.
  - destruct IH as (IHa & _), Hch as (Ha & _). rewrite (IHa _ _ _ Ha E). reflexivity.
  - destruct IH as (IHa & _), Hch as (Ha & _). rewrite (IHa _ _ _ Ha E). reflexivity.
  - destruct IH as (IHa & _), Hch as (Ha & _). rewrite (IHa _ _ _ Ha E). reflexivity.
  - destruct IH as (IHa & _), Hch as (Ha & _). rewrite (IHa _ _ _ Ha E). reflexivity.
  - destruct IH as (IHa & _), Hch as (Ha & _). rewrite (IHa _ _ _ Ha E). reflexivity.
  - destruct rinfo as [ptr c ? pseudo ? ? ? ? ? orc ? ec ? ?]. cbn [eval_cost] in Hst.
    destruct (startup ec <? i2d 0) eqn:Ec.
    + apply rbind_ok in Hw as ([[c' orc'] total] & Et & Hw). injection Hw as <- <-.
      cbn [cost_qual_eval_walker]. rewrite nonneg_not_lt0; [reflexivity|].
      apply restrictinfo_cost_ok. apply restrictinfo_total in Et.
      destruct orc as [o|]; rewrite ?Forall_cons in *.
      * destruct Et as (o' & Eo & _), Hch as (_ & Ho & _).
        apply (cost_qual_eval_walker_grows _ _ _ _ Ho Eo), zero_qual_cost_ok.
      * destruct Et as (Eo & _), Hch as (Hc & _).
        apply (cost_qual_eval_walker_grows _ _ _ _ Hc Eo), zero_qual_cost_ok.
    + injection Hw as <- <-. cbn [cost_qual_eval_walker]. rewrite Ec. reflexivity.
Qed.
(** ** The walker is total on planned expressions *)

Inductive planned : Node -> Prop :=
| planned_intro node : node <> SubLink -> node <> UnknownNode -> Forall planned (children node) ->
    planned node.

Lemma walk_list_total l :
  Forall (fun n => planned n -> forall ctx, is_ok (cost_qual_eval_walker n ctx) = true) l ->
  Forall planned l -> forall ctx, is_ok (walk_list cost_qual_eval_walker l ctx) = true.
Proof.
  induction 1 as [|n l Hn _ IH]; intros Hp ctx; [reflexivity|]. apply Forall_cons in Hp as [Hp Hps].
  cbn [walk_list]. specialize (Hn Hp ctx).
  destruct (cost_qual_eval_walker n ctx) as [[n' c]|]; [|done]. cbn [rbind].
  specialize (IH Hps c). destruct (walk_list cost_qual_eval_walker l c) as [[l' c']|]; done.
Qed.

Lemma is_ok_rbind {A B} (m : result A) (f : A -> result B) :
  is_ok m = true -> (forall a, is_ok (f a) = true) -> is_ok (rbind m f) = true.
Proof. destruct m; simpl; auto. Qed.

Lemma cost_qual_eval_walker_total n : planned n -> forall ctx, is_ok (cost_qual_eval_walker n ctx) = true.
Proof.
  induction n as [n IH] using Node_children_ind. intros Hp ctx. inversion Hp as [? N1 N2 Hch]; subst.
  destruct n as [| | |? args|? ? args|? ? args|? ? args|? ? a b ?|args|args|? a ?|? a ?
    |? l r|args| |l r|a| |?| |? ? a args|a args|a|? args|? a|? a|a|args| |rinfo];
    cbn [cost_qual_eval_walker children] in *; rewrite ?Forall_app, ?Forall_cons in *; try done;
    try (apply is_ok_rbind; [|intros [? ?]]; try done).
  all: try (apply walk_list_total; tauto).
  all: try (apply (proj1 IH); tauto).
  - apply is_ok_rbind; [|intros [? ?]; done]. apply (proj1 (proj2 IH)). tauto.
  - apply is_ok_rbind; [|intros [? ?]; done]. apply walk_list_total; tauto.
  - apply is_ok_rbind; [|intros [? ?]; done]. apply walk_list_total; tauto.
  - destruct rinfo as [ptr c ? pseudo ? ? ? ? ? orc ? ec ? ?]. destruct (startup ec <? i2d 0); [|reflexivity].
    apply is_ok_rbind; [|intros [[? ?] ?]; done].
    destruct orc as [o|]; rewrite ?Forall_cons in *; (apply is_ok_rbind; [|intros [? ?]; done]);
      apply IH; tauto.
Qed.

Lemma walk_list_app l1 l2 ctx :
  walk_list cost_qual_eval_walker (l1 ++ l2) ctx =
  let! (l1', ctx1) := walk_list cost_qual_eval_walker l1 ctx in
  let! (l2', ctx2) := walk_list cost_qual_eval_walker l2 ctx1 in
  Ok (l1' ++ l2', ctx2).
Proof.
  revert ctx. induction l1 as [|n l1 IH]; intros ctx; simpl.
  - destruct (walk_list cost_qual_eval_walker l2 ctx) as [[? ?]|]; reflexivity.
  - destruct (cost_qual_eval_walker n ctx) as [[n' c]|]; [|reflexivity]. cbn [rbind]. rewrite IH.
    destruct (walk_list cost_qual_eval_walker l1 c) as [[l1' c1]|]; [|reflexivity]. cbn [rbind].
    destruct (walk_list cost_qual_eval_walker l2 c1) as [[l2' c2]|]; reflexivity.
Qed.

Lemma cost_qual_eval_grows quals ctx quals' ctx' :
  Forall node_ok quals -> walk_list cost_qual_eval_walker quals ctx = Ok (quals', ctx') -> grows ctx ctx'.
Proof.
  intros Hok. apply walk_list_grows; [|exact Hok].
  apply Forall_forall. intros n _. apply cost_qual_eval_walker_grows.
Qed.

(** Evaluating quals a second time, now with the operator functions and the
    RestrictInfo cost caches filled in by the first evaluation, gives the same cost and
    leaves the caches alone. *)
Theorem cost_qual_eval_cached quals quals' c :
  Forall node_ok quals -> cost_qual_eval quals = Ok (quals', c) ->
  cost_qual_eval quals' = Ok (quals', c) /\ qual_cost_ok c.
Proof.
  intros Hok E. split.
  - apply (walk_list_idem quals); [|exact Hok|exact E].
    apply Forall_forall. intros n _. apply cost_qual_eval_walker_idem.
  - apply (cost_qual_eval_grows _ _ _ _ Hok E), zero_qual_cost_ok.
Qed.

(** cost_qual_eval succeeds on every list of planned expressions, and appending
    quals never lowers the startup or the per-tuple cost. *)
Theorem cost_qual_eval_monotone quals more :
  Forall planned (quals ++ more) -> Forall node_ok (quals ++ more) ->
  exists q1 c1 q2 c2,
    cost_qual_eval quals = Ok (q1, c1) /\ cost_qual_eval (quals ++ more) = Ok (q1 ++ q2, c2)
    /\ qual_cost_le c1 c2.
Proof.
  intros [Hp Hpm]%Forall_app [Hok Hokm]%Forall_app.
  assert (forall l, Forall planned l -> forall ctx, exists l' c, walk_list cost_qual_eval_walker l ctx = Ok (l', c)) as Ht.
  { intros l Hl ctx. pose proof (walk_list_total l) as T.
    specialize (T ltac:(apply Forall_forall; intros n _; apply cost_qual_eval_walker_total) Hl ctx).
    destruct (walk_list cost_qual_eval_walker l ctx) as [[l' c]|]; [eauto|done]. }
  destruct (Ht quals Hp zero_qual_cost) as (q1 & c1 & E1). destruct (Ht more Hpm c1) as (q2 & c2 & E2).
  exists q1, c1, q2, c2. unfold cost_qual_eval. split_and!; [exact E1| |].
  - rewrite walk_list_app, E1. cbn [rbind]. rewrite E2. reflexivity.
  - apply (cost_qual_eval_grows _ _ _ _ Hokm E2). apply (cost_qual_eval_grows _ _ _ _ Hok E1), zero_qual_cost_ok.
Qed.

End walker.

(** ** Concrete quals *)

#[local] Existing Instance default_settings.

(** Every function costs one operator evaluation. *)
#[export] Instance sample_catalog : Catalog := {|
  get_func_cost := fun _ => i2d 1; get_opcode := fun o => o;
  type_input_func := fun t => t; type_output_func := fun t => t |}.

#[export] Instance sample_catalog_laws : CatalogLaws.
Proof. split. intros. reflexivity. Qed.

(** [x = 1] in a RestrictInfo whose cost is not computed yet. *)
Definition sample_qual : Node :=
  RestrictInfoNode (mkRestrictInfo 1 (OpExpr 96 0 [Var 1 1; Const false true]) false false
    (Some [2]) None None None None None None (mkQualCost (i2d (-1)) (i2d 0)) (i2d (-1)) (i2d (-1)) no_join).

Lemma sample_qual_ok : node_ok sample_qual.
Proof. repeat constructor. Qed.

Lemma sample_qual_planned : planned sample_qual.
Proof. repeat (constructor || discriminate). Qed.

Lemma sample_settings_costs :
  nonneg (@cpu_operator_cost default_settings) = true /\ nonneg (@disable_cost default_settings) = true.
Proof. split; vm_compute; reflexivity. Qed.

Definition sample_qual_cached : Node :=
  RestrictInfoNode (mkRestrictInfo 1 (OpExpr 96 96 [Var 1 1; Const false true]) false false
    (Some [2]) None None None None None None (mkQualCost (i2d 0) (dlit 25 10000)) (i2d (-1)) (i2d (-1)) no_join).

Lemma cost_qual_eval_cached_witness :
  cost_qual_eval [sample_qual_cached] = Ok ([sample_qual_cached], mkQualCost (i2d 0) (dlit 25 10000)).
Proof.
  apply (cost_qual_eval_cached sample_settings_costs [sample_qual]).
  - repeat constructor.
  - vm_compute. reflexivity.
Defined.

Lemma cost_qual_eval_monotone_witness :
  exists q1 c1 q2 c2, cost_qual_eval [sample_qual] = Ok (q1, c1)
    /\ cost_qual_eval [sample_qual; sample_qual] = Ok (q1 ++ q2, c2) /\ qual_cost_le c1 c2.
Proof.
  apply (cost_qual_eval_monotone sample_settings_costs [sample_qual] [sample_qual]).
  - do 2 (constructor; [apply sample_qual_planned|]). constructor.
  - repeat constructor.
Defined.
