(* ===== verification/CostBase.v ===== *)
(** The numeric helpers of the cost model: row estimates, the cache model, page
    sizes, parallel workers and the power regression (costsize.c, with
    compute_parallel_worker of allpaths.c and get_tablespace_page_costs of
    spccache.c). *)
From Stdlib Require SpecFloat.
From S2P Require Import Prelude Float64 Double DoubleOrder Bitmapset PlanTypes Samples PathCompare.
Open Scope double_scope.

Definition BLCKSZ : Z := 8192.
Definition INT_MAX : Z := 2147483647.
Definition SizeofHeapTupleHeader : Z := 23.
Definition MAXALIGN (len : Z) : Z := Z.land (len + 7) (Z.lnot 7).

(** Conversion of a double to an int: truncation; [None] where C leaves it undefined. *)
Definition d2int (x : double) : option Z :=
  match SF x with
  | SpecFloat.S754_zero _ => Some 0
  | SpecFloat.S754_finite s m e =>
      let v := if (e <? 0)%Z then (Zpos m / 2 ^ (- e))%Z else (Zpos m * 2 ^ e)%Z in
      let v := if s then (- v)%Z else v in
      if (- INT_MAX - 1 <=? v)%Z && (v <=? INT_MAX)%Z then Some v else None
  | _ => None
  end.

Definition clamp_row_est (nrows : double) : double :=
  if nrows <=? i2d 1 then i2d 1 else rint nrows.

Definition relation_byte_size (tuples : double) (width : Z) : double :=
  tuples * i2d (MAXALIGN width + MAXALIGN SizeofHeapTupleHeader).

Definition page_size (tuples : double) (width : Z) : double :=
  ceil (relation_byte_size tuples width / i2d BLCKSZ).

Definition get_parallel_divisor (parallel_workers : Z) : double :=
  let parallel_divisor := i2d parallel_workers in
  let leader_contribution := i2d 1 - (dlit 3 10 * i2d parallel_workers) in
  if leader_contribution >? i2d 0 then parallel_divisor + leader_contribution
  else parallel_divisor.

(** The regression coefficients of cost.h. *)
Definition B0 : double := dlit 3991 100.
Definition B1 : double := dlit (-4582) (10 ^ 9).
Definition B2 : double := dlit 9017 (10 ^ 9).
Definition B3 : double := dlit 2636 (10 ^ 16).
Definition B4 : double := dlit (-8472) (10 ^ 16).
Definition B5 : double := dlit (-4072) (10 ^ 15).

Section base.
Context `{Libm, Settings}.

Definition LOG2 (x : double) : double := log x / dlit 693147180559945 (10 ^ 15).

(** The [time] argument is not used by the source either. *)
Definition count_power_cost (io_cost cpu_cost time : double) (wh : Z) : Cost :=
  let fcd := i2d wh * dlit 552 10000 + dlit 783 100000 in
  let p0 x := pow x (i2d 0) in
  let p1 x := pow x (i2d 1) in
  let p2 x := pow x (i2d 2) in
  let total_power_cost :=
    if negb (wh =? 0)%Z then
      B0
      + p1 io_cost * p0 cpu_cost * B1
      + (p0 io_cost * p1 cpu_cost * B2 + p0 io_cost * p1 cpu_cost * fcd * B2)
      + p2 io_cost * p0 cpu_cost * B3
      + (p0 io_cost * p2 cpu_cost * B4 + p0 io_cost * p2 cpu_cost * fcd * B4)
      + (p1 io_cost * p1 cpu_cost * B5 + p1 io_cost * p1 cpu_cost * fcd * B5)
    else
      B0
      + p1 io_cost * p0 cpu_cost * B1
      + p0 io_cost * p1 cpu_cost * B2
      + p2 io_cost * p0 cpu_cost * B3
      + p0 io_cost * p2 cpu_cost * B4
      + p1 io_cost * p1 cpu_cost * B5 in
  if total_power_cost >? i2d 80 then i2d 45 else total_power_cost.

(** [T]: the pages of the table, at least one. *)
Definition table_pages (pages : BlockNumber) : double := if (pages >? 1)%Z then i2d pages else i2d 1.

(** [b]: the table's share of effective_cache_size. *)
Definition cache_share (pages : BlockNumber) (index_pages : double) (root : PlannerInfo) : double :=
  let T := table_pages pages in
  let total_pages := total_table_pages root + index_pages in
  let total_pages := dMax total_pages (i2d 1) in
  let b := i2d effective_cache_size * T / total_pages in
  if b <=? i2d 1 then i2d 1 else ceil b.

(** The Mackert-Lohman estimate for a table that fits into the cache. *)
Definition mackert_lohman (T tuples_fetched : double) : double :=
  (i2d 2 * T * tuples_fetched) / (i2d 2 * T + tuples_fetched).

Definition index_pages_fetched (tuples_fetched : double) (pages : BlockNumber) (index_pages : double)
    (root : PlannerInfo) : double :=
  let T := table_pages pages in
  let b := cache_share pages index_pages root in
  if T <=? b then
    let pages_fetched := mackert_lohman T tuples_fetched in
    if pages_fetched >=? T then T else ceil pages_fetched
  else
    let lim := (i2d 2 * T * b) / (i2d 2 * T - b) in
    let pages_fetched :=
      if tuples_fetched <=? lim then mackert_lohman T tuples_fetched
      else b + (tuples_fetched - lim) * (T - b) / T in
    ceil pages_fetched.

(** The page costs stored with a tablespace, if any; negative means unset. *)
Class Tablespaces := {
  tablespace_opts : Oid -> option (double * double);   (* random_page_cost, seq_page_cost *)
}.

(** [(spc_random_page_cost, spc_seq_page_cost)] *)
Definition get_tablespace_page_costs `{Tablespaces} (spcid : Oid) : double * double :=
  match tablespace_opts spcid with
  | None => (random_page_cost, seq_page_cost)
  | Some (spc_random, spc_seq) =>
      (if spc_random <? i2d 0 then random_page_cost else spc_random,
       if spc_seq <? i2d 0 then seq_page_cost else spc_seq)
  end.

(** The [while] loop of compute_parallel_worker: the number of workers; [None] when
    the fuel is exhausted or [threshold * 3] overflows an int. *)
Fixpoint parallel_workers_loop (fuel : nat) (pages : double) (workers threshold : Z) : option Z :=
  match fuel with
  | O => None
  | S fuel =>
      if (threshold * 3 >? INT_MAX)%Z then None
      else if pages >=? i2d (threshold * 3) then
        let workers := (workers + 1)%Z in
        let threshold := (threshold * 3)%Z in
        if (threshold >? INT_MAX / 3)%Z then Some workers
        else parallel_workers_loop fuel pages workers threshold
      else Some workers
  end.

(** Twenty iterations triple the threshold beyond [INT_MAX / 3]. *)
Definition workers_for (pages : double) (min_size : Z) : option Z :=
  parallel_workers_loop 21 pages 1 (Z.max min_size 1).

Definition compute_parallel_worker (rel : RelOptInfo) (heap_pages index_pages : double) : option Z :=
  let clamp parallel_workers := Z.min parallel_workers max_parallel_workers_per_gather in
  if negb (rel_parallel_workers rel =? -1)%Z then Some (clamp (rel_parallel_workers rel))
  else if bool_decide (reloptkind rel = RELOPT_BASEREL)
     && (((heap_pages >=? i2d 0) && (heap_pages <? i2d min_parallel_table_scan_size))
         || ((index_pages >=? i2d 0) && (index_pages <? i2d min_parallel_index_scan_size)))
  then Some 0
  else
    heap_workers ← (if heap_pages >=? i2d 0
                    then workers_for heap_pages min_parallel_table_scan_size else Some 0);
    parallel_workers ←
      (if index_pages >=? i2d 0 then
         index_workers ← workers_for index_pages min_parallel_index_scan_size;
         Some (if (heap_workers >? 0)%Z then Z.min heap_workers index_workers else index_workers)
       else Some heap_workers);
    Some (clamp parallel_workers).

(** ** Row estimates *)

Lemma not_dle_one x : (x <=? i2d 1) = false -> nonneg x = true /\ i2d 1 ⊑ x.
Proof.
  intros E. destruct (isnan x) eqn:N.
  { split; [destruct x as [[] ?]; done|]. unfold cle. apply isnan_cmag in N. rewrite N.
    pose proof (cmag_range (i2d 1)). lia. }
  rewrite dle_sval in E by (assumption || apply isnan_i2d).
  rewrite (sval_nonneg (i2d 1) eq_refl), cmag_one in E. unfold sval in E.
  pose proof (cmag_range x). pose proof (pow2_pos 1074 ltac:(lia)).
  destruct (nonneg x); [|lia]. split; [reflexivity|]. unfold cle. rewrite cmag_one. lia.
Qed.

Lemma clamp_row_est_ok x : nonneg (clamp_row_est x) = true /\ i2d 1 ⊑ clamp_row_est x.
Proof.
  unfold clamp_row_est. destruct (x <=? i2d 1) eqn:E; [split; reflexivity|].
  apply not_dle_one in E as [Hx L]. split; [auto with nneg|]. apply one_cle_rint; assumption.
Qed.

Lemma clamp_row_est_integral x : integral (clamp_row_est x).
Proof.
  unfold clamp_row_est. destruct (x <=? i2d 1) eqn:E.
  - right. exists 1. rewrite cmag_one. reflexivity.
  - apply rint_integral, (not_dle_one x E).
Qed.

(** clamp_row_est returns a whole number of at least one row (or NaN for a NaN
    estimate) whatever its argument, and clamping a clamped estimate changes nothing. *)
Theorem clamp_row_est_spec x :
  i2d 1 ⊑ clamp_row_est x /\ integral (clamp_row_est x)
  /\ clamp_row_est (clamp_row_est x) = clamp_row_est x.
Proof.
  destruct (clamp_row_est_ok x) as [Hn L]. pose proof (clamp_row_est_integral x) as Hi.
  split_and!; [exact L|exact Hi|]. unfold clamp_row_est at 1.
  destruct (clamp_row_est x <=? i2d 1) eqn:E; [|apply rint_of_integral; assumption].
  apply cmag_inj; [reflexivity|exact Hn|]. apply dle_iff in E; [|exact Hn|reflexivity].
  unfold cle in L. lia.
Qed.

(** ** Power *)

(** The power estimate never exceeds 80 W. *)
Lemma count_power_cost_bounded io cpu time wh : (count_power_cost io cpu time wh >? i2d 80) = false.
Proof.
  unfold count_power_cost.
  match goal with |- (i2d 80 <? (if i2d 80 <? ?t then _ else _)) = false =>
    destruct (i2d 80 <? t) eqn:E; [vm_compute; reflexivity|exact E] end.
Qed.

Lemma i2d_0 : i2d 0 = dzero.
Proof. apply double_eq. reflexivity. Qed.

(** A plan node that reads no page and uses no CPU draws the base power B0 (39.91 W)
    if it has no parallel workers. *)
Theorem count_power_cost_idle `{!LibmLaws} time : count_power_cost dzero dzero time 0 = B0.
Proof.
  unfold count_power_cost. rewrite i2d_0, !pow_0, !pow_of_0 by reflexivity.
  vm_compute. reflexivity.
Qed.

(** The regression is not clamped from below: a scan of 20 million CPU cost units and
    no pages gets a negative power estimate, whose logarithm is NaN, so that the weighted
    cost of its path is NaN for every setting of the weights. *)
Theorem count_power_cost_negative `{!LibmLaws, !LibmExact} time p :
  power_cost p = count_power_cost (i2d 0) (i2d 20000000) time 0 ->
  (power_cost p <? dzero) = true /\ isnan (weighted_cost p) = true.
Proof.
  intros Ep. assert ((power_cost p <? dzero) = true) as L.
  { rewrite Ep. unfold count_power_cost. rewrite i2d_0, !pow_0, !(pow_of_0 (i2d _)) by reflexivity.
    rewrite pow_1, pow_2 by lia. vm_compute. reflexivity. }
  split; [exact L|]. unfold weighted_cost. rewrite (log_neg _ L).
  apply isnan_add_r. rewrite dmul_comm. apply isnan_mul_l. reflexivity.
Qed.

(** The cap at 80 W makes the estimate fall back to 45 W, so a scan of 24 million pages
    is estimated to draw less power than one of 22 million. *)
Theorem count_power_cost_drop `{!LibmLaws, !LibmExact} time :
  (count_power_cost (i2d 24000000) (i2d 0) time 0 <? count_power_cost (i2d 22000000) (i2d 0) time 0)
  = true.
Proof.
  unfold count_power_cost. rewrite i2d_0, !pow_0, !(pow_of_0 (i2d _)) by reflexivity.
  rewrite !pow_1, !pow_2 by lia. vm_compute. reflexivity.
Qed.

(** ** The cache model *)

Lemma table_pages_ok pages : 0 <= pages < 2 ^ 32 ->
  nonneg (table_pages pages) = true /\ i2d 1 ⊑ table_pages pages /\ integral (table_pages pages).
Proof.
  intros Hp. unfold table_pages. destruct (Z.gtb_spec pages 1); [|split_and!; [reflexivity..|apply integral_i2d; lia]].
  split_and!; [apply nonneg_i2d; lia|apply cle_i2d; lia|apply integral_i2d; lia].
Qed.

Lemma ceil_le_table x pages : 0 <= pages < 2 ^ 32 -> nonneg x = true ->
  x ⊑ table_pages pages -> ceil x ⊑ table_pages pages.
Proof. intros Hp Hx. unfold table_pages. destruct (pages >? 1)%Z; apply ceil_le_int; lia || assumption. Qed.

Lemma mackert_lohman_nonneg T t : nonneg T = true -> nonneg t = true -> nonneg (mackert_lohman T t) = true.
Proof.
  intros HT Ht. unfold mackert_lohman. assert (nonneg (i2d 2) = true) by reflexivity. auto with nneg.
Qed.

(** What the callers guarantee. *)
Record cache_args_ok (tuples : double) (pages : BlockNumber) (index_pages : double) (root : PlannerInfo)
    : Prop := {
  ca_tuples : nonneg tuples = true;
  ca_pages : 0 <= pages < 2 ^ 32;
  ca_index : nonneg index_pages = true;
  ca_root : nonneg (total_table_pages root) = true;
  ca_cache : 1 <= effective_cache_size;
}.

Lemma cache_share_nonneg tuples pages index_pages root :
  cache_args_ok tuples pages index_pages root -> nonneg (cache_share pages index_pages root) = true.
Proof.
  intros [Ht Hp Hi Hr Hc]. destruct (table_pages_ok pages Hp) as (HT & _ & _).
  unfold cache_share. case_match; [reflexivity|].
  assert (nonneg (i2d effective_cache_size) = true) by (apply nonneg_i2d; lia).
  assert (nonneg (i2d 1) = true) by reflexivity. auto 10 with nneg.
Qed.

Lemma index_pages_fetched_nonneg tuples pages index_pages root :
  cache_args_ok tuples pages index_pages root ->
  nonneg (index_pages_fetched tuples pages index_pages root) = true
  /\ integral (index_pages_fetched tuples pages index_pages root).
Proof.
  intros Ha. pose proof (cache_share_nonneg _ _ _ _ Ha) as Hb. destruct Ha as [Ht Hp Hi Hr Hc].
  destruct (table_pages_ok pages Hp) as (HT & _ & IT). unfold index_pages_fetched.
  set (T := table_pages pages) in *. set (b := cache_share pages index_pages root) in *.
  pose proof (mackert_lohman_nonneg T tuples HT Ht) as Hm.
  destruct (T <=? b) eqn:E.
  { case_match; [auto|]. split; [auto with nneg|apply ceil_integral; auto with nneg]. }
  assert (nonneg (i2d 2 * T) = true) as H2T by (apply nonneg_mul; [reflexivity|exact HT]).
  assert (nonneg (T - b) = true) as HTb by (apply nonneg_sub_not_lt; auto using dle_false_dlt).
  assert (nonneg (i2d 2 * T - b) = true) as H2Tb.
  { apply dle_false_dlt in E. apply nonneg_sub_not_lt; [assumption..|].
    destruct (isnan b) eqn:Nb; [apply dlt_nan_r, Nb|].
    apply cle_not_lt; [assumption..|]. transitivity T.
    - destruct (isnan T) eqn:NT.
      + unfold cle. apply isnan_cmag in NT. pose proof (cmag_range b). lia.
      + rewrite dlt_sval, !sval_nonneg in E by assumption. unfold cle. lia.
    - rewrite dmul_comm. apply cle_scale; [exact HT|reflexivity|apply finite_i2d; lia|apply cle_i2d; lia]. }
  set (lim := i2d 2 * T * b / (i2d 2 * T - b)).
  assert (nonneg lim = true) as Hlim by (unfold lim; auto with nneg).
  assert (nonneg (if tuples <=? lim then mackert_lohman T tuples
                  else b + (tuples - lim) * (T - b) / T) = true) as Hpf.
  { destruct (tuples <=? lim) eqn:El; [exact Hm|].
    assert (nonneg (tuples - lim) = true) by (apply nonneg_sub_not_lt; auto using dle_false_dlt).
    auto with nneg. }
  split; [auto with nneg|apply ceil_integral, Hpf].
Qed.

(** index_pages_fetched returns a non-negative whole number of pages, and never more
    pages than the table has when the table fits into its share of the cache. *)
Theorem index_pages_fetched_spec tuples pages index_pages root :
  cache_args_ok tuples pages index_pages root ->
  nonneg (index_pages_fetched tuples pages index_pages root) = true
  /\ integral (index_pages_fetched tuples pages index_pages root)
  /\ ((table_pages pages <=? cache_share pages index_pages root) = true ->
      (index_pages_fetched tuples pages index_pages root >? table_pages pages) = false).
Proof.
  intros Ha. destruct (index_pages_fetched_nonneg _ _ _ _ Ha) as [Hn Hi].
  split_and!; [exact Hn|exact Hi|]. intros E. revert Hn. unfold index_pages_fetched. rewrite E.
  destruct Ha as [Ht Hp _ _ _]. destruct (table_pages_ok pages Hp) as (HT & _ & _).
  destruct (mackert_lohman _ _ >=? _) eqn:El; [intros _; apply dlt_irrefl|].
  pose proof (mackert_lohman_nonneg _ _ HT Ht) as Hm. intros Hn.
  destruct (isnan (mackert_lohman (table_pages pages) tuples)) eqn:N.
  { apply dlt_nan_r. revert N. generalize (mackert_lohman (table_pages pages) tuples).
    intros [[] V]; done. }
  apply cle_not_lt; [assumption..|]. apply ceil_le_table; [assumption..|].
  apply dle_false_cle; assumption.
Qed.

(** ** Parallel workers *)

Lemma parallel_workers_loop_spec fuel pages workers threshold :
  1 <= threshold <= INT_MAX / 3 -> INT_MAX / 3 < threshold * 3 ^ Z.of_nat fuel ->
  exists n, parallel_workers_loop fuel pages workers threshold = Some n /\ workers <= n.
Proof.
  revert workers threshold. induction fuel as [|fuel IH]; intros workers threshold Ht Hf.
  { simpl in Hf. lia. }
  cbn [parallel_workers_loop]. assert (INT_MAX / 3 = 715827882)%Z as I3 by reflexivity.
  assert (INT_MAX = 2147483647)%Z as I1 by reflexivity.
  destruct (Z.gtb_spec (threshold * 3) INT_MAX); [lia|].
  destruct (pages >=? i2d (threshold * 3)); [|exists workers; split; [reflexivity|lia]].
  destruct (Z.gtb_spec (threshold * 3) (INT_MAX / 3)).
  { exists (workers + 1)%Z. split; [reflexivity|lia]. }
  destruct (IH (workers + 1)%Z (threshold * 3)%Z) as (n & -> & L); [lia| |exists n; split; [reflexivity|lia]].
  replace (Z.of_nat (S fuel)) with (Z.of_nat fuel + 1)%Z in Hf by lia.
  rewrite Z.pow_add_r in Hf by lia. lia.
Qed.

Lemma workers_for_spec pages min_size : 0 <= min_size <= 715827882 ->
  exists n, workers_for pages min_size = Some n /\ 1 <= n.
Proof.
  intros Hm. apply parallel_workers_loop_spec.
  - change (INT_MAX / 3)%Z with 715827882%Z. lia.
  - change (INT_MAX / 3)%Z with 715827882%Z. change (3 ^ Z.of_nat 21)%Z with 10460353203%Z. lia.
Qed.

Lemma compute_parallel_worker_ok rel heap_pages index_pages :
  settings_ok -> rel_parallel_workers rel = -1 \/ 0 <= rel_parallel_workers rel ->
  exists n, compute_parallel_worker rel heap_pages index_pages = Some n
    /\ 0 <= n <= max_parallel_workers_per_gather.
Proof.
  intros So Hr. pose proof (max_parallel_workers_ok So) as Hmax.
  destruct (workers_for_spec heap_pages _ (min_parallel_table_scan_size_ok So)) as (h & Eh & Lh).
  destruct (workers_for_spec index_pages _ (min_parallel_index_scan_size_ok So)) as (i & Ei & Li).
  unfold compute_parallel_worker. destruct (Z.eqb_spec (rel_parallel_workers rel) (-1)); cbn [negb].
  2:{ eexists. split; [reflexivity|]. lia. }
  destruct (bool_decide _ && _); [eexists; split; [reflexivity|lia]|].
  assert (exists hw, (if heap_pages >=? i2d 0 then workers_for heap_pages min_parallel_table_scan_size
            else Some 0) = Some hw /\ 0 <= hw) as (hw & -> & Lhw).
  { destruct (heap_pages >=? i2d 0); [exists h; split; [exact Eh|lia]|exists 0; split; [reflexivity|lia]]. }
  cbn [mbind option_bind]. destruct (index_pages >=? i2d 0).
  - rewrite Ei. cbn [mbind option_bind]. eexists. split; [reflexivity|]. case_match; lia.
  - cbn [mbind option_bind]. eexists. split; [reflexivity|]. lia.
Qed.

(** compute_parallel_worker terminates without integer overflow for every setting
    guc.c allows and returns between 0 and max_parallel_workers_per_gather workers. *)
Theorem compute_parallel_worker_bounds rel heap_pages index_pages :
  settings_ok -> rel_parallel_workers rel = -1 \/ 0 <= rel_parallel_workers rel ->
  exists n, compute_parallel_worker rel heap_pages index_pages = Some n
    /\ 0 <= n <= max_parallel_workers_per_gather.
Proof. apply compute_parallel_worker_ok. Qed.

(** The divisor is at least the number of workers. *)
Lemma get_parallel_divisor_ok workers : 1 <= workers ->
  nonneg (get_parallel_divisor workers) = true /\ i2d 1 ⊑ get_parallel_divisor workers.
Proof.
  intros Hw. assert (nonneg (i2d workers) = true) as Hn by (apply nonneg_i2d; lia).
  assert (i2d 1 ⊑ i2d workers) as L by (apply cle_i2d; lia).
  unfold get_parallel_divisor. destruct (_ >? i2d 0) eqn:E; [|auto].
  set (x := i2d 1 - dlit 3 10 * i2d workers) in *.
  assert (nonneg x = true) as Hx.
  { destruct (nonneg x) eqn:N; [reflexivity|]. rewrite dlt_sval in E by (apply isnan_i2d || apply neg_isnan, N).
    unfold sval in E. rewrite N in E. pose proof (cmag_range x). change (cmag (i2d 0)) with 0%Z in E.
    change (nonneg (i2d 0)) with true in E. cbn in E. lia. }
  split; [auto with nneg|]. etransitivity; [exact L|]. apply cle_add_l; assumption.
Qed.

Lemma get_parallel_divisor_number workers : 1 <= workers -> isnan (get_parallel_divisor workers) = false.
Proof.
  intros Hw. unfold get_parallel_divisor. destruct (_ >? i2d 0) eqn:E; [|apply isnan_i2d].
  set (x := i2d 1 - dlit 3 10 * i2d workers) in *.
  assert (isnan x = false) as N by (destruct (isnan x) eqn:N; [rewrite dlt_nan_r in E by exact N; discriminate|reflexivity]).
  assert (nonneg x = true) as Hx.
  { destruct (nonneg x) eqn:Nn; [reflexivity|]. rewrite dlt_sval in E by (apply isnan_i2d || exact N).
    unfold sval in E. rewrite Nn in E. pose proof (cmag_range x). change (cmag (i2d 0)) with 0%Z in E.
    change (nonneg (i2d 0)) with true in E. cbn in E. lia. }
  rewrite isnan_add, N, isnan_i2d by (exact Hx || apply nonneg_i2d; lia). reflexivity.
Qed.

End base.

(** ** Concrete estimates *)

#[local] Existing Instance default_settings.

Definition sample_root : PlannerInfo := mkPlannerInfo (i2d 100) (i2d 0) (Some [2]) (i2d (-1)) [].

Lemma count_power_cost_negative_witness :
  isnan (weighted_cost (sample_path dzero (i2d 20000000)
    (count_power_cost (i2d 0) (i2d 20000000) dzero 0))) = true.
Proof.
  apply (count_power_cost_negative dzero (sample_path dzero (i2d 20000000)
    (count_power_cost (i2d 0) (i2d 20000000) dzero 0))). reflexivity.
Defined.

Lemma index_pages_fetched_spec_witness :
  index_pages_fetched (i2d 50) 100 (i2d 0) sample_root = i2d 40
  /\ nonneg (index_pages_fetched (i2d 50) 100 (i2d 0) sample_root) = true.
Proof.
  split; [vm_compute; reflexivity|].
  destruct (index_pages_fetched_spec (i2d 50) 100 (i2d 0) sample_root) as [Hn _]; [|exact Hn].
  split; try reflexivity; vm_compute; (split; congruence) || discriminate.
Defined.

Lemma default_settings_ok : settings_ok.
Proof.
  split; try (split; vm_compute; reflexivity); try (vm_compute; reflexivity);
    vm_compute; split; congruence.
Qed.

Lemma compute_parallel_worker_bounds_witness :
  exists n, compute_parallel_worker sample_rel (i2d 100000) (i2d (-1)) = Some n
    /\ 0 <= n <= max_parallel_workers_per_gather.
Proof.
  apply (compute_parallel_worker_bounds sample_rel (i2d 100000) (i2d (-1))).
  - exact default_settings_ok.
  - left. reflexivity.
Defined.
