(* ===== verification/CostScan.v ===== *)
(** Cost of scanning base relations (optimizer/path/costsize.c): sequential,
    sampled, index, bitmap, TID, subquery, function, VALUES, CTE and tuplestore
    scans, and the gathering of parallel scans. *)
From S2P Require Import Prelude Float64 Double DoubleOrder DoubleDiv Bitmapset PlanTypes Samples PathCompare CostExpr CostBase.
Open Scope double_scope.

(** A path with the fields a cost function sets. *)
Definition set_path_costs (path : Path) (rows' : double) (startup' total' io' cpu' power' : Cost) : Path :=
  {| pathtype := pathtype path; parent := parent path; pathtarget := pathtarget path;
     param_info := param_info path; parallel_aware := parallel_aware path;
     parallel_safe := parallel_safe path; parallel_workers := parallel_workers path;
     rows := rows'; startup_cost := startup'; total_cost := total';
     io_cost := io'; cpu_cost := cpu'; power_cost := power';
     pathkeys := pathkeys path; extra := extra path |}.

(** "Mark the path with the correct row estimate". *)
Definition row_estimate (baserel : RelOptInfo) (param_info : option ParamPathInfo) : double :=
  match param_info with Some ppi => ppi_rows ppi | None => rel_rows baserel end.

(** The estimates of the index access methods, reached through the function
    pointer amcostestimate of an IndexOptInfo:
    (indexStartupCost, indexTotalCost, indexSelectivity, indexCorrelation, index_pages). *)
Class IndexAM := {
  amcostestimate : Path -> IndexFields -> double -> Cost * Cost * Selectivity * double * double;
}.

Section scan.
Context `{Libm, Settings, Catalog, Tablespaces, IndexAM}.

Definition disabled (enabled : bool) (startup_cost : Cost) : Cost :=
  if enabled then startup_cost else startup_cost + disable_cost.

Definition qual_nodes (quals : list RestrictInfo) : list Node := map RestrictInfoNode quals.

Definition get_restriction_qual_cost (baserel : RelOptInfo) (param_info : option ParamPathInfo)
    : result QualCost :=
  match param_info with
  | Some ppi =>
      let! (_, qpqual_cost) := cost_qual_eval (qual_nodes (ppi_clauses ppi)) in
      Ok (mkQualCost (startup qpqual_cost + startup (baserestrictcost baserel))
                     (per_tuple qpqual_cost + per_tuple (baserestrictcost baserel)))
  | None => Ok (baserestrictcost baserel)
  end.

Definition cost_seqscan (path : Path) (baserel : RelOptInfo) (param_info : option ParamPathInfo)
    : result Path :=
  let rows := row_estimate baserel param_info in
  let startup_cost := disabled enable_seqscan (i2d 0) in
  let spc_seq_page_cost := (get_tablespace_page_costs (reltablespace baserel)).2 in
  let disk_run_cost := spc_seq_page_cost * i2d (pages baserel) in
  let io_cost := i2d (pages baserel) in
  let! qpqual_cost := get_restriction_qual_cost baserel param_info in
  let startup_cost := startup_cost + startup qpqual_cost in
  let cpu_per_tuple := cpu_tuple_cost + per_tuple qpqual_cost in
  let cpu_run_cost := cpu_per_tuple * tuples baserel in
  let cpu_cost := cpu_per_tuple * tuples baserel in
  let startup_cost := startup_cost + startup (target_cost (pathtarget path)) in
  let cpu_run_cost := cpu_run_cost + per_tuple (target_cost (pathtarget path)) * rows in
  let '(cpu_run_cost, cpu_cost, rows) :=
    if (parallel_workers path >? 0)%Z then
      let parallel_divisor := get_parallel_divisor (parallel_workers path) in
      (cpu_run_cost / parallel_divisor, cpu_cost / parallel_divisor,
       clamp_row_est (rows / parallel_divisor))
    else (cpu_run_cost, cpu_cost, rows) in
  let total_cost := startup_cost + cpu_run_cost + disk_run_cost in
  let rsom := cpu_run_cost + disk_run_cost in
  let power_cost := count_power_cost io_cost cpu_cost rsom (parallel_workers path) in
  Ok (set_path_costs path rows startup_cost total_cost io_cost cpu_cost power_cost).

(** [next_sample_block] tells whether the sampling method has a NextSampleBlock. *)
Definition cost_samplescan (path : Path) (baserel : RelOptInfo) (param_info : option ParamPathInfo)
    (next_sample_block : bool) : result Path :=
  let rows := row_estimate baserel param_info in
  let (spc_random_page_cost, spc_seq_page_cost) := get_tablespace_page_costs (reltablespace baserel) in
  let spc_page_cost := if next_sample_block then spc_random_page_cost else spc_seq_page_cost in
  let run_cost := i2d 0 + spc_page_cost * i2d (pages baserel) in
  let io_cost := i2d (pages baserel) in
  let! qpqual_cost := get_restriction_qual_cost baserel param_info in
  let startup_cost := i2d 0 + startup qpqual_cost in
  let cpu_per_tuple := cpu_tuple_cost + per_tuple qpqual_cost in
  let run_cost := run_cost + cpu_per_tuple * tuples baserel in
  let cpu_cost := cpu_per_tuple * tuples baserel in
  let startup_cost := startup_cost + startup (target_cost (pathtarget path)) in
  let run_cost := run_cost + per_tuple (target_cost (pathtarget path)) * rows in
  Ok (set_path_costs path rows startup_cost (startup_cost + run_cost) io_cost cpu_cost
        (count_power_cost io_cost cpu_cost run_cost 0)).

(** The row estimate of a gather: [rows] overrides the others. *)
Definition gather_rows (rel : RelOptInfo) (param_info : option ParamPathInfo) (rows : option double) : double :=
  match rows with Some r => r | None => row_estimate rel param_info end.

Definition cost_gather (path subpath : Path) (rel : RelOptInfo) (param_info : option ParamPathInfo)
    (rows : option double) : Path :=
  let rows := gather_rows rel param_info rows in
  let startup := startup_cost subpath in
  let run_cost := total_cost subpath - startup_cost subpath in
  let startup := startup + parallel_setup_cost in
  let run_cost := run_cost + parallel_tuple_cost * rows in
  let cpu_cost := parallel_tuple_cost * rows in
  let io_cost := i2d 0 in
  set_path_costs path rows startup (startup + run_cost) io_cost cpu_cost
    (count_power_cost io_cost cpu_cost run_cost 0).

Definition cost_gather_merge (path : Path) (num_workers : Z) (rel : RelOptInfo)
    (param_info : option ParamPathInfo) (input_startup_cost input_total_cost : Cost)
    (rows : option double) : Path :=
  let rows := gather_rows rel param_info rows in
  let startup := disabled enable_gathermerge (i2d 0) in
  let N := i2d num_workers + i2d 1 in
  let logN := LOG2 N in
  let comparison_cost := i2d 2 * cpu_operator_cost in
  let startup := startup + comparison_cost * N * logN in
  let run_cost := i2d 0 + rows * comparison_cost * logN in
  let run_cost := run_cost + cpu_operator_cost * rows in
  let cpu_cost := i2d 0 + cpu_operator_cost * rows in
  let startup := startup + parallel_setup_cost in
  let run_cost := run_cost + parallel_tuple_cost * rows * dlit 105 100 in
  let io_cost := i2d 0 in
  set_path_costs path rows (startup + input_startup_cost) (startup + run_cost + input_total_cost)
    io_cost cpu_cost (count_power_cost io_cost cpu_cost run_cost 0).

(** ** Index scans *)

(** is_redundant_derived_clause (equivclass.c). *)
Definition is_redundant_derived_clause (rinfo : RestrictInfo) (clauselist : list RestrictInfo) : bool :=
  match parent_ec rinfo with
  | None => false
  | Some ec => existsb (fun other => bool_decide (parent_ec other = Some ec)) clauselist
  end.

(** list_member_ptr: the same node, not an equal one. *)
Definition list_member_ptr (l : list RestrictInfo) (rinfo : RestrictInfo) : bool :=
  existsb (fun other => (ri_ptr other =? ri_ptr rinfo)%Z) l.

Fixpoint extract_nonindex_conditions (qual_clauses indexquals : list RestrictInfo) : list RestrictInfo :=
  match qual_clauses with
  | [] => []
  | rinfo :: qual_clauses =>
      let rest := extract_nonindex_conditions qual_clauses indexquals in
      if pseudoconstant rinfo then rest
      else if list_member_ptr indexquals rinfo then rest
      else if is_redundant_derived_clause rinfo indexquals then rest
      else rinfo :: rest
  end.

(** Heap fetches saved by the visibility map of an index-only scan. *)
Definition visible_pages (indexonly : bool) (baserel : RelOptInfo) (pages_fetched : double) : double :=
  if indexonly then ceil (pages_fetched * (i2d 1 - allvisfrac baserel)) else pages_fetched.

(** [(min_IO_cost, max_IO_cost, rand_heap_pages, pages_fetched)]: the I/O cost of
    the perfectly correlated and of the uncorrelated index. *)
Definition index_io_cost (root : PlannerInfo) (baserel : RelOptInfo) (index : IndexOptInfo)
    (indexonly : bool) (loop_count tuples_fetched : double) (indexSelectivity : Selectivity)
    (spc_random_page_cost spc_seq_page_cost : double) : Cost * Cost * double * double :=
  if loop_count >? i2d 1 then
    let pages_fetched :=
      index_pages_fetched (tuples_fetched * loop_count) (pages baserel) (i2d (index_pages index)) root in
    let pages_fetched := visible_pages indexonly baserel pages_fetched in
    let rand_heap_pages := pages_fetched in
    let max_IO_cost := (pages_fetched * spc_random_page_cost) / loop_count in
    let pages_fetched := ceil (indexSelectivity * i2d (pages baserel)) in
    let pages_fetched :=
      index_pages_fetched (pages_fetched * loop_count) (pages baserel) (i2d (index_pages index)) root in
    let pages_fetched := visible_pages indexonly baserel pages_fetched in
    let min_IO_cost := (pages_fetched * spc_random_page_cost) / loop_count in
    (min_IO_cost, max_IO_cost, rand_heap_pages, pages_fetched)
  else
    let pages_fetched :=
      index_pages_fetched tuples_fetched (pages baserel) (i2d (index_pages index)) root in
    let pages_fetched := visible_pages indexonly baserel pages_fetched in
    let rand_heap_pages := pages_fetched in
    let max_IO_cost := pages_fetched * spc_random_page_cost in
    let pages_fetched := ceil (indexSelectivity * i2d (pages baserel)) in
    let pages_fetched := visible_pages indexonly baserel pages_fetched in
    let min_IO_cost :=
      if pages_fetched >? i2d 0 then
        if pages_fetched >? i2d 1
        then spc_random_page_cost + (pages_fetched - i2d 1) * spc_seq_page_cost
        else spc_random_page_cost
      else i2d 0 in
    (min_IO_cost, max_IO_cost, rand_heap_pages, pages_fetched).

(** The index path with its members set. *)
Definition set_index_fields (path : Path) (f : IndexFields) (rows' : double) (workers : Z) (aware : bool) : Path :=
  {| pathtype := pathtype path; parent := parent path; pathtarget := pathtarget path;
     param_info := param_info path; parallel_aware := aware;
     parallel_safe := parallel_safe path; parallel_workers := workers;
     rows := rows'; startup_cost := startup_cost path; total_cost := total_cost path;
     io_cost := io_cost path; cpu_cost := cpu_cost path; power_cost := power_cost path;
     pathkeys := pathkeys path; extra := XIndexPath f |}.

(** The row estimate and the quals to be checked besides the index quals. *)
Definition index_rows_quals (path : Path) (f : IndexFields) : double * list RestrictInfo :=
  let index := indexinfo f in
  match param_info path with
  | Some ppi =>
      (ppi_rows ppi,
       extract_nonindex_conditions (indrestrictinfo index) (indexquals f)
       ++ extract_nonindex_conditions (ppi_clauses ppi) (indexquals f))
  | None => (rel_rows (index_rel index), extract_nonindex_conditions (indrestrictinfo index) (indexquals f))
  end.

(** [path] is the header and [f] the members of the IndexPath. *)
Definition cost_index (path : Path) (f : IndexFields) (root : PlannerInfo) (loop_count : double)
    (partial_path : bool) : result Path :=
  let index := indexinfo f in
  let baserel := index_rel index in
  let indexonly := bool_decide (pathtype path = T_IndexOnlyScan) in
  let (rows, qpquals) := index_rows_quals path f in
  let startup_cost := disabled enable_indexscan (i2d 0) in
  let '(indexStartupCost, indexTotalCost, indexSelectivity, indexCorrelation, am_index_pages) :=
    amcostestimate path f loop_count in
  let f := mkIndexFields index (indexclauses f) (indexquals f) indexTotalCost indexSelectivity in
  let startup_cost := startup_cost + indexStartupCost in
  let run_cost := i2d 0 + (indexTotalCost - indexStartupCost) in
  let tuples_fetched := clamp_row_est (indexSelectivity * tuples baserel) in
  let (spc_random_page_cost, spc_seq_page_cost) := get_tablespace_page_costs (reltablespace baserel) in
  let '(min_IO_cost, max_IO_cost, rand_heap_pages, pages_fetched) :=
    index_io_cost root baserel index indexonly loop_count tuples_fetched indexSelectivity
      spc_random_page_cost spc_seq_page_cost in
  let! (workers, aware) :=
    if partial_path then
      let rand_heap_pages := if indexonly then i2d (-1) else rand_heap_pages in
      match compute_parallel_worker baserel rand_heap_pages am_index_pages with
      | Some w => Ok (w, if (w <=? 0)%Z then parallel_aware path else true)
      | None => Error "integer overflow in compute_parallel_worker"
      end
    else Ok (parallel_workers path, parallel_aware path) in
  let path := set_index_fields path f rows workers aware in
  if partial_path && (workers <=? 0)%Z then Ok path
  else
    let csquared := indexCorrelation * indexCorrelation in
    let run_cost := run_cost + (max_IO_cost + csquared * (min_IO_cost - max_IO_cost)) in
    let! (_, qpqual_cost) := cost_qual_eval (qual_nodes qpquals) in
    let startup_cost := startup_cost + startup qpqual_cost in
    let cpu_per_tuple := cpu_tuple_cost + per_tuple qpqual_cost in
    let cpu_run_cost := i2d 0 + cpu_per_tuple * tuples_fetched in
    let io_cost := pages_fetched in
    let startup_cost := startup_cost + startup (target_cost (pathtarget path)) in
    let cpu_run_cost := cpu_run_cost + per_tuple (target_cost (pathtarget path)) * rows in
    let (rows, cpu_run_cost) :=
      if (workers >? 0)%Z then
        let parallel_divisor := get_parallel_divisor workers in
        (clamp_row_est (rows / parallel_divisor), cpu_run_cost / parallel_divisor)
      else (rows, cpu_run_cost) in
    let cpu_cost := cpu_run_cost in
    let run_cost := run_cost + cpu_run_cost in
    Ok (set_path_costs path rows startup_cost (startup_cost + run_cost) io_cost cpu_cost
          (count_power_cost io_cost cpu_cost run_cost workers)).

(** ** Bitmap scans *)

Fixpoint indexpath_pages (x : PathExtra) : result double :=
  let sum := fix sum (l : list Path) (acc : double) : result double :=
    match l with
    | [] => Ok acc
    | p :: l => let! x := indexpath_pages (extra p) in sum l (acc + x)
    end in
  match x with
  | XBitmapAndPath bitmapquals _ => sum bitmapquals (i2d 0)
  | XBitmapOrPath bitmapquals _ => sum bitmapquals (i2d 0)
  | XIndexPath f => Ok (i2d (index_pages (indexinfo f)))
  | _ => Error "unrecognized node type"
  end.

Definition get_indexpath_pages (bitmapqual : Path) : result double := indexpath_pages (extra bitmapqual).

(** [(cost, selec)] *)
Definition cost_bitmap_tree_node (path : Path) : result (Cost * Selectivity) :=
  match extra path with
  | XIndexPath f =>
      Ok (indextotalcost f + dlit 1 10 * cpu_operator_cost * rows path, indexselectivity f)
  | XBitmapAndPath _ bitmapselectivity => Ok (total_cost path, bitmapselectivity)
  | XBitmapOrPath _ bitmapselectivity => Ok (total_cost path, bitmapselectivity)
  | _ => Error "unrecognized node type"
  end.

(** The header of a bitmap node with its costs; rows is not used. *)
Definition set_bitmap_costs (path : Path) (totalCost : Cost) (x : PathExtra) : Path :=
  {| pathtype := pathtype path; parent := parent path; pathtarget := pathtarget path;
     param_info := param_info path; parallel_aware := parallel_aware path;
     parallel_safe := parallel_safe path; parallel_workers := parallel_workers path;
     rows := i2d 0; startup_cost := totalCost; total_cost := totalCost;
     io_cost := io_cost path; cpu_cost := cpu_cost path; power_cost := power_cost path;
     pathkeys := pathkeys path; extra := x |}.

(** The loop of cost_bitmap_and_node; [first] is [l == list_head(bitmapquals)]. *)
Fixpoint bitmap_and_loop (bitmapquals : list Path) (first : bool) (totalCost : Cost) (selec : Selectivity)
    : result (Cost * Selectivity) :=
  match bitmapquals with
  | [] => Ok (totalCost, selec)
  | subpath :: l =>
      let! (subCost, subselec) := cost_bitmap_tree_node subpath in
      let selec := selec * subselec in
      let totalCost := totalCost + subCost in
      let totalCost := if negb first then totalCost + i2d 100 * cpu_operator_cost else totalCost in
      bitmap_and_loop l false totalCost selec
  end.

Definition cost_bitmap_and_node (path : Path) (bitmapquals : list Path) : result Path :=
  let! (totalCost, selec) := bitmap_and_loop bitmapquals true (i2d 0) (i2d 1) in
  Ok (set_bitmap_costs path totalCost (XBitmapAndPath bitmapquals selec)).

Fixpoint bitmap_or_loop (bitmapquals : list Path) (first : bool) (totalCost : Cost) (selec : Selectivity)
    : result (Cost * Selectivity) :=
  match bitmapquals with
  | [] => Ok (totalCost, selec)
  | subpath :: l =>
      let! (subCost, subselec) := cost_bitmap_tree_node subpath in
      let selec := selec + subselec in
      let totalCost := totalCost + subCost in
      let totalCost := if negb first && negb (IsIndexPath subpath)
                       then totalCost + i2d 100 * cpu_operator_cost else totalCost in
      bitmap_or_loop l false totalCost selec
  end.

Definition cost_bitmap_or_node (path : Path) (bitmapquals : list Path) : result Path :=
  let! (totalCost, selec) := bitmap_or_loop bitmapquals true (i2d 0) (i2d 0) in
  Ok (set_bitmap_costs path totalCost (XBitmapOrPath bitmapquals (dMin selec (i2d 1)))).

(** [(pages_fetched, indexTotalCost, tuples_fetched)]; [loop_count] is an int here. *)
Definition compute_bitmap_pages (root : PlannerInfo) (baserel : RelOptInfo) (bitmapqual : Path)
    (loop_count : Z) : result (double * Cost * double) :=
  let! (indexTotalCost, indexSelectivity) := cost_bitmap_tree_node bitmapqual in
  let tuples_fetched := clamp_row_est (indexSelectivity * tuples baserel) in
  let T := table_pages (pages baserel) in
  let! pages_fetched :=
    if (loop_count >? 1)%Z then
      let! ipages := get_indexpath_pages bitmapqual in
      let pages_fetched := index_pages_fetched (tuples_fetched * i2d loop_count) (pages baserel) ipages root in
      Ok (pages_fetched / i2d loop_count)
    else Ok (mackert_lohman T tuples_fetched) in
  let pages_fetched := if pages_fetched >=? T then T else ceil pages_fetched in
  Ok (pages_fetched, indexTotalCost, tuples_fetched).

(** The cost per page, between random and sequential access. *)
Definition bitmap_cost_per_page (pages_fetched T spc_random_page_cost spc_seq_page_cost : double) : Cost :=
  if pages_fetched >=? i2d 2
  then spc_random_page_cost - (spc_random_page_cost - spc_seq_page_cost) * dsqrt (pages_fetched / T)
  else spc_random_page_cost.

Definition cost_bitmap_heap_scan (path : Path) (root : PlannerInfo) (baserel : RelOptInfo)
    (param_info : option ParamPathInfo) (bitmapqual : Path) (loop_count : double) : result Path :=
  let rows := row_estimate baserel param_info in
  let startup_cost := disabled enable_bitmapscan (i2d 0) in
  let! loops := match d2int loop_count with
                | Some n => Ok n
                | None => Error "loop_count is out of the range of int"
                end in
  let! (pages_fetched, indexTotalCost, tuples_fetched) :=
    compute_bitmap_pages root baserel bitmapqual loops in
  let startup_cost := startup_cost + indexTotalCost in
  let T := table_pages (pages baserel) in
  let (spc_random_page_cost, spc_seq_page_cost) := get_tablespace_page_costs (reltablespace baserel) in
  let cost_per_page := bitmap_cost_per_page pages_fetched T spc_random_page_cost spc_seq_page_cost in
  let run_cost := i2d 0 + pages_fetched * cost_per_page in
  let io_cost := pages_fetched in
  let! qpqual_cost := get_restriction_qual_cost baserel param_info in
  let startup_cost := startup_cost + startup qpqual_cost in
  let cpu_per_tuple := cpu_tuple_cost + per_tuple qpqual_cost in
  let cpu_run_cost := cpu_per_tuple * tuples_fetched in
  let (cpu_run_cost, rows) :=
    if (parallel_workers path >? 0)%Z then
      let parallel_divisor := get_parallel_divisor (parallel_workers path) in
      (cpu_run_cost / parallel_divisor, clamp_row_est (rows / parallel_divisor))
    else (cpu_run_cost, rows) in
  let cpu_cost := cpu_run_cost in
  let run_cost := run_cost + cpu_run_cost in
  let startup_cost := startup_cost + startup (target_cost (pathtarget path)) in
  let run_cost := run_cost + per_tuple (target_cost (pathtarget path)) * rows in
  Ok (set_path_costs path rows startup_cost (startup_cost + run_cost) io_cost cpu_cost
        (count_power_cost io_cost cpu_cost run_cost (parallel_workers path))).

(** ** TID scans *)

(** [(ntuples, isCurrentOf)] *)
Fixpoint count_tids (tidquals : list Node) (ntuples : Z) (isCurrentOf : bool) : Z * bool :=
  match tidquals with
  | [] => (ntuples, isCurrentOf)
  | ScalarArrayOpExpr _ _ _ _ array_length :: l => count_tids l (ntuples + array_length) isCurrentOf
  | CurrentOfExpr _ :: l => count_tids l (ntuples + 1) true
  | _ :: l => count_tids l (ntuples + 1) isCurrentOf
  end.

Definition cost_tidscan (path : Path) (baserel : RelOptInfo) (tidquals : list Node)
    (param_info : option ParamPathInfo) : result Path :=
  let rows := row_estimate baserel param_info in
  let (ntuples, isCurrentOf) := count_tids tidquals 0 false in
  let startup_cost :=
    if isCurrentOf then i2d 0 - disable_cost else disabled enable_tidscan (i2d 0) in
  let! (_, tid_qual_cost) := cost_qual_eval tidquals in
  let spc_random_page_cost := (get_tablespace_page_costs (reltablespace baserel)).1 in
  let run_cost := i2d 0 + spc_random_page_cost * i2d ntuples in
  let! qpqual_cost := get_restriction_qual_cost baserel param_info in
  let startup_cost := startup_cost + (startup qpqual_cost + per_tuple tid_qual_cost) in
  let cpu_per_tuple := cpu_tuple_cost + per_tuple qpqual_cost - per_tuple tid_qual_cost in
  let run_cost := run_cost + cpu_per_tuple * i2d ntuples in
  let io_cost := i2d ntuples in
  let cpu_cost := cpu_per_tuple * i2d ntuples in
  let startup_cost := startup_cost + startup (target_cost (pathtarget path)) in
  let run_cost := run_cost + per_tuple (target_cost (pathtarget path)) * rows in
  Ok (set_path_costs path rows startup_cost (startup_cost + run_cost) io_cost cpu_cost
        (count_power_cost io_cost cpu_cost run_cost 0)).

(** ** Scans of subqueries, functions, VALUES, CTEs and tuplestores *)

Definition cost_subqueryscan (path subpath : Path) (baserel : RelOptInfo)
    (param_info : option ParamPathInfo) : result Path :=
  let rows := row_estimate baserel param_info in
  let! qpqual_cost := get_restriction_qual_cost baserel param_info in
  let startup' := startup qpqual_cost in
  let cpu_per_tuple := cpu_tuple_cost + per_tuple qpqual_cost in
  let run_cost := cpu_per_tuple * tuples baserel in
  let io_cost := i2d 0 in
  let cpu_cost := cpu_per_tuple * tuples baserel in
  let startup' := startup' + startup (target_cost (pathtarget path)) in
  let run_cost := run_cost + per_tuple (target_cost (pathtarget path)) * rows in
  Ok (set_path_costs path rows (startup_cost subpath + startup') (total_cost subpath + (startup' + run_cost))
        io_cost cpu_cost (count_power_cost io_cost cpu_cost run_cost 0)).

(** cost_functionscan and cost_tablefuncscan, whose bodies agree; [expr] is
    rte->functions or rte->tablefunc. *)
Definition cost_functionscan (path : Path) (baserel : RelOptInfo) (param_info : option ParamPathInfo)
    (expr : Node) : result Path :=
  let rows := row_estimate baserel param_info in
  let! (_, exprcost) := cost_qual_eval_node expr in
  let startup_cost := i2d 0 + (startup exprcost + per_tuple exprcost) in
  let! qpqual_cost := get_restriction_qual_cost baserel param_info in
  let startup_cost := startup_cost + startup qpqual_cost in
  let cpu_per_tuple := cpu_tuple_cost + per_tuple qpqual_cost in
  let run_cost := i2d 0 + cpu_per_tuple * tuples baserel in
  let io_cost := i2d 0 in
  let cpu_cost := cpu_per_tuple * tuples baserel in
  let startup_cost := startup_cost + startup (target_cost (pathtarget path)) in
  let run_cost := run_cost + per_tuple (target_cost (pathtarget path)) * rows in
  Ok (set_path_costs path rows startup_cost (startup_cost + run_cost) io_cost cpu_cost
        (count_power_cost io_cost cpu_cost run_cost 0)).

Definition cost_tablefuncscan (path : Path) (baserel : RelOptInfo) (param_info : option ParamPathInfo)
    (tablefunc : Node) : result Path := cost_functionscan path baserel param_info tablefunc.

(** cost_valuesscan and cost_ctescan charge [base] per tuple besides the quals. *)
Definition cost_listscan (base : Cost) (path : Path) (baserel : RelOptInfo)
    (param_info : option ParamPathInfo) : result Path :=
  let rows := row_estimate baserel param_info in
  let cpu_per_tuple := base in
  let! qpqual_cost := get_restriction_qual_cost baserel param_info in
  let startup_cost := i2d 0 + startup qpqual_cost in
  let cpu_per_tuple := cpu_per_tuple + (cpu_tuple_cost + per_tuple qpqual_cost) in
  let run_cost := i2d 0 + cpu_per_tuple * tuples baserel in
  let cpu_cost := cpu_per_tuple * tuples baserel in
  let startup_cost := startup_cost + startup (target_cost (pathtarget path)) in
  let run_cost := run_cost + per_tuple (target_cost (pathtarget path)) * rows in
  let io_cost := i2d 0 in
  Ok (set_path_costs path rows startup_cost (startup_cost + run_cost) io_cost cpu_cost
        (count_power_cost io_cost cpu_cost run_cost 0)).

Definition cost_valuesscan : Path -> RelOptInfo -> option ParamPathInfo -> result Path :=
  cost_listscan cpu_operator_cost.
Definition cost_ctescan : Path -> RelOptInfo -> option ParamPathInfo -> result Path :=
  cost_listscan cpu_tuple_cost.

Definition cost_namedtuplestorescan (path : Path) (baserel : RelOptInfo)
    (param_info : option ParamPathInfo) : result Path :=
  let rows := row_estimate baserel param_info in
  let cpu_per_tuple := cpu_tuple_cost in
  let! qpqual_cost := get_restriction_qual_cost baserel param_info in
  let startup_cost := i2d 0 + startup qpqual_cost in
  let cpu_per_tuple := cpu_per_tuple + (cpu_tuple_cost + per_tuple qpqual_cost) in
  let run_cost := i2d 0 + cpu_per_tuple * tuples baserel in
  let cpu_cost := cpu_per_tuple * tuples baserel in
  let io_cost := i2d 0 in
  Ok (set_path_costs path rows startup_cost (startup_cost + run_cost) io_cost cpu_cost
        (count_power_cost io_cost cpu_cost run_cost 0)).

(** The recursive union also sets the width of its target. *)
Definition cost_recursive_union (runion nrterm rterm : Path) : Path :=
  let startup := startup_cost nrterm in
  let total := total_cost nrterm in
  let total_rows := rows nrterm in
  let total := total + i2d 10 * total_cost rterm in
  let total_rows := total_rows + i2d 10 * rows rterm in
  let total := total + cpu_tuple_cost * total_rows in
  let cpu_cost := cpu_tuple_cost * total_rows in
  let io_cost := i2d 0 in
  let target := pathtarget runion in
  let target := mkPathTarget (exprs target) (target_cost target)
                  (Z.max (width (pathtarget nrterm)) (width (pathtarget rterm))) in
  let p := set_path_costs runion total_rows startup total io_cost cpu_cost
             (count_power_cost io_cost cpu_cost total 0) in
  {| pathtype := pathtype p; parent := parent p; pathtarget := target;
     param_info := param_info p; parallel_aware := parallel_aware p;
     parallel_safe := parallel_safe p; parallel_workers := parallel_workers p;
     rows := rows p; startup_cost := startup_cost p; total_cost := total_cost p;
     io_cost := PlanTypes.io_cost p; cpu_cost := PlanTypes.cpu_cost p; power_cost := power_cost p;
     pathkeys := pathkeys p; extra := extra p |}.

End scan.
