(* ===== verification/CostScanSpec.v ===== *)
(** What the scan costs guarantee: the cost functions return for every planned
    clause list, startup costs are not negative and never exceed total costs,
    disabled scans cost at least disable_cost, and power stays below its cap. *)
From S2P Require Import Prelude Float64 Double DoubleOrder DoubleDiv Bitmapset PlanTypes Samples PathCompare CostExpr CostBase CostScan.
Open Scope double_scope.

(** Page costs of tablespaces are unset (negative) or valid. *)
Class TablespaceLaws `{Tablespaces} := {
  tablespace_costs_ok : forall spc r s, tablespace_opts spc = Some (r, s) ->
    ((r <? i2d 0) = true \/ (nonneg r = true /\ finite r))
    /\ ((s <? i2d 0) = true \/ (nonneg s = true /\ finite s));
}.

(** What an index access method's estimate satisfies (access/amapi.h and the
    genericcostestimate machinery: costs are not negative, the selectivity is a
    fraction, the correlation lies between -1 and 1). *)
Class IndexAMLaws `{IndexAM} := {
  am_costs_ok : forall path f loops s t sel corr pg, amcostestimate path f loops = (s, t, sel, corr, pg) ->
    nonneg s = true /\ nonneg t = true /\ s ⊑ t
    /\ nonneg sel = true /\ (i2d (-1) <=? corr) = true /\ (corr <=? i2d 1) = true;
}.

Section spec.
Context `{Libm, Settings, Catalog, Tablespaces, IndexAM}.
Context `{!CatalogLaws, !TablespaceLaws} (So : settings_ok).

Lemma disable_cost_nonneg : nonneg disable_cost = true.
Proof. rewrite (disable_cost_ok So). vm_compute. reflexivity. Qed.

Lemma walker_settings : nonneg cpu_operator_cost = true /\ nonneg disable_cost = true.
Proof. split; [apply (cpu_operator_cost_ok So)|apply disable_cost_nonneg]. Qed.

Lemma zero_nonneg : nonneg (i2d 0) = true.
Proof. reflexivity. Qed.
Lemma cpu_tuple_nonneg : nonneg cpu_tuple_cost = true.
Proof. apply (cpu_tuple_cost_ok So). Qed.
Lemma cpu_operator_nonneg : nonneg cpu_operator_cost = true.
Proof. apply (cpu_operator_cost_ok So). Qed.

Lemma parallel_tuple_nonneg : nonneg parallel_tuple_cost = true.
Proof. apply (parallel_tuple_cost_ok So). Qed.
Lemma parallel_setup_nonneg : nonneg parallel_setup_cost = true.
Proof. apply (parallel_setup_cost_ok So). Qed.

#[local] Hint Resolve zero_nonneg cpu_tuple_nonneg cpu_operator_nonneg disable_cost_nonneg
  parallel_tuple_nonneg parallel_setup_nonneg : nneg.

Lemma page_costs_ok spc :
  (nonneg (get_tablespace_page_costs spc).1 = true /\ finite (get_tablespace_page_costs spc).1)
  /\ (nonneg (get_tablespace_page_costs spc).2 = true /\ finite (get_tablespace_page_costs spc).2).
Proof.
  pose proof (random_page_cost_ok So) as Hr. pose proof (seq_page_cost_ok So) as Hs.
  unfold get_tablespace_page_costs. destruct (tablespace_opts spc) as [[r s]|] eqn:E; [|auto].
  destruct (tablespace_costs_ok _ _ _ E) as [Cr Cs]. cbn [fst snd].
  split; case_match; try assumption; destruct Cr as [Cr|Cr], Cs as [Cs|Cs]; assumption || congruence.
Qed.

(** ** Well-formed inputs *)

Record rel_ok (rel : RelOptInfo) : Prop := {
  ro_rows : nonneg (rel_rows rel) = true;
  ro_tuples : nonneg (tuples rel) = true;
  ro_pages : 0 <= pages rel < 2 ^ 32;
  ro_visible : nonneg (allvisfrac rel) = true /\ allvisfrac rel ⊑ i2d 1;
  ro_quals : qual_cost_ok (baserestrictcost rel);
}.

Definition clauses_ok (clauses : list RestrictInfo) : Prop :=
  Forall node_ok (qual_nodes clauses) /\ Forall planned (qual_nodes clauses).

Definition ppi_ok (param_info : option ParamPathInfo) : Prop :=
  match param_info with
  | None => True
  | Some ppi => nonneg (ppi_rows ppi) = true /\ clauses_ok (ppi_clauses ppi)
  end.

(** What a costed path satisfies. *)
Record costed (p : Path) : Prop := {
  co_rows : nonneg (rows p) = true;
  co_startup : nonneg (startup_cost p) = true;
  co_ordered : startup_cost p ⊑ total_cost p;
  co_total : nonneg (total_cost p) = true;
  co_power : (power_cost p >? i2d 80) = false;
}.

(** A startup cost that is not negative, and at least disable_cost when the scan
    type is disabled. *)
Definition startup_ok (enabled : bool) (s : Cost) : Prop :=
  nonneg s = true /\ (enabled = false -> disable_cost ⊑ s).

(** What a cost function of an [enabled] scan type returns. *)
Definition costs_ok (enabled : bool) (r : result Path) : Prop :=
  exists p, r = Ok p /\ costed p /\ startup_ok enabled (startup_cost p).

Lemma startup_add en s c : startup_ok en s -> nonneg c = true -> startup_ok en (s + c).
Proof.
  intros [Hs Hd] Hc. split; [auto with nneg|]. intros E. etransitivity; [exact (Hd E)|].
  apply cle_add_l; assumption.
Qed.

Lemma startup_add_r en s c : startup_ok en s -> nonneg c = true -> startup_ok en (c + s).
Proof. intros. rewrite dadd_comm. apply startup_add; assumption. Qed.

Lemma startup_disabled en s : nonneg s = true -> startup_ok en (disabled en s).
Proof.
  intros Hs. unfold disabled. destruct en; (split; [auto with nneg|]); [discriminate|].
  intros _. apply cle_add_r; auto with nneg.
Qed.

Lemma startup_enabled s : nonneg s = true -> startup_ok true s.
Proof. intros Hs. split; [exact Hs|discriminate]. Qed.

Lemma costs_ok_intro path en rows' startup' total' io' cpu' time' wh :
  nonneg rows' = true -> startup_ok en startup' -> nonneg total' = true -> startup' ⊑ total' ->
  costs_ok en (Ok (set_path_costs path rows' startup' total' io' cpu' (count_power_cost io' cpu' time' wh))).
Proof.
  intros Hr [Hs Hd] Ht Hle. eexists. split; [reflexivity|].
  split; [split|split]; cbn [rows startup_cost total_cost power_cost set_path_costs]; auto.
  apply count_power_cost_bounded.
Qed.

Lemma costs_ok_run path en rows' startup' run' io' cpu' time' wh :
  nonneg rows' = true -> startup_ok en startup' -> nonneg run' = true ->
  costs_ok en (Ok (set_path_costs path rows' startup' (startup' + run') io' cpu'
                     (count_power_cost io' cpu' time' wh))).
Proof.
  intros Hr Hs Hrun. apply costs_ok_intro; auto; destruct Hs; [auto with nneg|apply cle_add_l; auto].
Qed.

Lemma cost_qual_eval_total clauses : Forall node_ok clauses -> Forall planned clauses ->
  exists quals c, cost_qual_eval clauses = Ok (quals, c) /\ qual_cost_ok c.
Proof.
  intros Hok Hp. pose proof (walk_list_total clauses) as T.
  specialize (T ltac:(apply Forall_forall; intros n _; apply (cost_qual_eval_walker_total walker_settings)) Hp zero_qual_cost).
  unfold cost_qual_eval. destruct (walk_list _ _ _) as [[quals c]|] eqn:E; [|done].
  exists quals, c. split; [reflexivity|].
  apply (cost_qual_eval_grows walker_settings _ _ _ _ Hok E), zero_qual_cost_ok.
Qed.

Lemma restriction_qual_cost_ok rel ppi : rel_ok rel -> ppi_ok ppi ->
  exists c, get_restriction_qual_cost rel ppi = Ok c /\ qual_cost_ok c.
Proof.
  intros Hrel Hp. pose proof (ro_quals _ Hrel) as [Q1 Q2]. destruct ppi as [ppi|]; simpl.
  - destruct Hp as [_ [Hn Hpl]]. destruct (cost_qual_eval_total _ Hn Hpl) as (q & c & -> & C1 & C2).
    eexists. split; [reflexivity|]. split; simpl; auto with nneg.
  - exists (baserestrictcost rel). split; [reflexivity|]. split; assumption.
Qed.

Lemma row_estimate_nonneg rel ppi : rel_ok rel -> ppi_ok ppi -> nonneg (row_estimate rel ppi) = true.
Proof. intros Hrel Hp. destruct ppi; simpl in *; [tauto|apply (ro_rows _ Hrel)]. Qed.

Lemma clamp_nonneg x : nonneg (clamp_row_est x) = true.
Proof. apply clamp_row_est_ok. Qed.

Lemma divisor_nonneg w : (w >? 0)%Z = true -> nonneg (get_parallel_divisor w) = true.
Proof. intros Hw. apply get_parallel_divisor_ok. lia. Qed.

#[local] Hint Resolve clamp_nonneg : nneg.

(** ** Scans without index *)

Definition target_ok (path : Path) : Prop := qual_cost_ok (target_cost (pathtarget path)).

#[local] Hint Resolve startup_add startup_disabled startup_enabled : nneg.

(** What the proofs of the scans start from: the qual cost, the row estimate
    and the sign of every input. *)
Ltac scan_setup rel ppi Hrel Hp Ht :=
  let c := fresh "c" in let Ec := fresh "Ec" in
  destruct (restriction_qual_cost_ok rel ppi Hrel Hp) as (c & Ec & [? ?]);
  pose proof (row_estimate_nonneg rel ppi Hrel Hp);
  pose proof (page_costs_ok (reltablespace rel)) as [[? _] [? _]];
  pose proof (ro_tuples _ Hrel);
  assert (nonneg (i2d (pages rel)) = true) by (apply nonneg_i2d; destruct (ro_pages _ Hrel); lia);
  destruct Ht as [? ?]; rewrite ?Ec; cbn [rbind].

Lemma cost_seqscan_ok path rel ppi : rel_ok rel -> ppi_ok ppi -> target_ok path ->
  costs_ok enable_seqscan (cost_seqscan path rel ppi).
Proof.
  intros Hrel Hp Ht. unfold cost_seqscan. scan_setup rel ppi Hrel Hp Ht.
  destruct (parallel_workers path >? 0)%Z eqn:W; try (pose proof (divisor_nonneg _ W) as Hd).
  all: match goal with |- costs_ok _ (Ok (set_path_costs _ _ ?s _ _ _ _)) =>
    assert (startup_ok enable_seqscan s) as S by auto 8 with nneg; pose proof S as [? _] end.
  all: apply costs_ok_intro; auto 12 with nneg.
  all: etransitivity; apply cle_add_l; auto 12 with nneg.
Qed.

Lemma cost_samplescan_ok path rel ppi nsb : rel_ok rel -> ppi_ok ppi -> target_ok path ->
  costs_ok true (cost_samplescan path rel ppi nsb).
Proof.
  intros Hrel Hp Ht. unfold cost_samplescan. scan_setup rel ppi Hrel Hp Ht.
  destruct (get_tablespace_page_costs (reltablespace rel)) as [r q]. cbn [fst snd] in *.
  apply costs_ok_run; destruct nsb; auto 12 with nneg.
Qed.

(** The cost of the subpath is charged besides the scan's own. *)
Lemma cost_subqueryscan_ok path subpath rel ppi : rel_ok rel -> ppi_ok ppi -> target_ok path ->
  costed subpath -> costs_ok true (cost_subqueryscan path subpath rel ppi).
Proof.
  intros Hrel Hp Ht [_ Hs Hle Hst _]. unfold cost_subqueryscan. scan_setup rel ppi Hrel Hp Ht.
  apply costs_ok_intro; auto 12 with nneg.
  apply cle_add; auto 12 with nneg. apply cle_add_l; auto 12 with nneg.
Qed.

Lemma cost_qual_eval_node_ok n : node_ok n -> planned n ->
  exists n' c, cost_qual_eval_node n = Ok (n', c) /\ qual_cost_ok c.
Proof.
  intros Hok Hp. pose proof (cost_qual_eval_walker_total walker_settings n Hp zero_qual_cost) as T.
  unfold cost_qual_eval_node. destruct (cost_qual_eval_walker n zero_qual_cost) as [[n' c]|] eqn:E; [|done].
  exists n', c. split; [reflexivity|].
  apply (cost_qual_eval_walker_grows walker_settings n _ _ _ Hok E), zero_qual_cost_ok.
Qed.

Lemma cost_functionscan_ok path rel ppi expr : rel_ok rel -> ppi_ok ppi -> target_ok path ->
  node_ok expr -> planned expr -> costs_ok true (cost_functionscan path rel ppi expr).
Proof.
  intros Hrel Hp Ht Hn Hpl. destruct (cost_qual_eval_node_ok _ Hn Hpl) as (? & ec & Ee & [? ?]).
  unfold cost_functionscan. rewrite Ee. cbn [rbind]. scan_setup rel ppi Hrel Hp Ht.
  apply costs_ok_run; auto 12 with nneg.
Qed.

Lemma cost_listscan_ok base path rel ppi : nonneg base = true -> rel_ok rel -> ppi_ok ppi -> target_ok path ->
  costs_ok true (cost_listscan base path rel ppi).
Proof.
  intros Hb Hrel Hp Ht. unfold cost_listscan. scan_setup rel ppi Hrel Hp Ht.
  apply costs_ok_run; auto 12 with nneg.
Qed.

Lemma cost_namedtuplestorescan_ok path rel ppi : rel_ok rel -> ppi_ok ppi -> target_ok path ->
  costs_ok true (cost_namedtuplestorescan path rel ppi).
Proof.
  intros Hrel Hp Ht. unfold cost_namedtuplestorescan. scan_setup rel ppi Hrel Hp Ht.
  apply costs_ok_run; auto 12 with nneg.
Qed.

(** ** Gathering *)

Lemma gather_rows_nonneg rel ppi r : rel_ok rel -> ppi_ok ppi ->
  match r with Some x => nonneg x = true | None => True end -> nonneg (gather_rows rel ppi r) = true.
Proof. intros Hrel Hp Hr. destruct r; simpl; [exact Hr|apply row_estimate_nonneg; assumption]. Qed.

Lemma cost_gather_ok path subpath rel ppi r : rel_ok rel -> ppi_ok ppi -> costed subpath ->
  match r with Some x => nonneg x = true | None => True end ->
  costs_ok true (Ok (cost_gather path subpath rel ppi r)).
Proof.
  intros Hrel Hp [_ Hs Hle Hst _] Hr. pose proof (gather_rows_nonneg rel ppi r Hrel Hp Hr).
  pose proof (nonneg_sub _ _ Hst Hs Hle). apply costs_ok_run; auto 12 with nneg.
Qed.

Lemma nonneg_LOG2 `{!LibmOrder} x : (i2d 1 <=? x) = true -> nonneg (LOG2 x) = true.
Proof. intros Hx. apply nonneg_div; [apply log_ge_1, Hx|reflexivity]. Qed.

Lemma workers_ge_one n : 0 <= n -> (i2d 1 <=? i2d n + i2d 1) = true.
Proof.
  intros Hn. apply cle_dle; [reflexivity|apply nonneg_add; [apply nonneg_i2d, Hn|reflexivity]| |].
  - rewrite isnan_add, !isnan_i2d by (apply nonneg_i2d; lia). reflexivity.
  - apply cle_add_r; apply nonneg_i2d; lia.
Qed.

Lemma cost_gather_merge_ok `{!LibmOrder} path n rel ppi istart itotal r : rel_ok rel -> ppi_ok ppi ->
  0 <= n -> nonneg istart = true -> nonneg itotal = true -> istart ⊑ itotal ->
  match r with Some x => nonneg x = true | None => True end ->
  costs_ok enable_gathermerge (Ok (cost_gather_merge path n rel ppi istart itotal r)).
Proof.
  intros Hrel Hp Hn His Hit Hle Hr. pose proof (gather_rows_nonneg rel ppi r Hrel Hp Hr) as Hrows.
  pose proof (nonneg_LOG2 _ (workers_ge_one n Hn)) as HL.
  assert (nonneg (i2d n) = true) by (apply nonneg_i2d, Hn).
  assert (nonneg (i2d 1) = true) by reflexivity. assert (nonneg (i2d 2) = true) by reflexivity.
  assert (nonneg (dlit 105 100) = true) by reflexivity.
  unfold cost_gather_merge.
  match goal with |- costs_ok _ (Ok (set_path_costs _ _ (?s + _) _ _ _ _)) =>
    assert (startup_ok enable_gathermerge s) as S by auto 12 with nneg; pose proof S as [? _] end.
  apply costs_ok_intro; auto 14 with nneg.
  apply cle_add; auto 14 with nneg. apply cle_add_l; auto 14 with nneg.
Qed.

Lemma cost_recursive_union_ok path nrterm rterm : costed nrterm -> costed rterm ->
  costed (cost_recursive_union path nrterm rterm).
Proof.
  intros [Nr Ns Nle Nt _] [Rr Rs Rle Rt _]. assert (nonneg (i2d 10) = true) by reflexivity.
  split; cbn; auto 12 with nneg; [|apply count_power_cost_bounded].
  etransitivity; [exact Nle|]. etransitivity; apply cle_add_l; auto 12 with nneg.
Qed.

(** ** Index scans *)

Record index_ok (f : IndexFields) (root : PlannerInfo) : Prop := {
  io_rel : rel_ok (index_rel (indexinfo f));
  io_workers : rel_parallel_workers (index_rel (indexinfo f)) = -1
               \/ 0 <= rel_parallel_workers (index_rel (indexinfo f));
  io_pages : 0 <= index_pages (indexinfo f);
  io_root : nonneg (total_table_pages root) = true;
  io_quals : clauses_ok (indrestrictinfo (indexinfo f));
}.

Lemma clauses_ok_forall l :
  clauses_ok l <-> Forall (fun ri => node_ok (RestrictInfoNode ri) /\ planned (RestrictInfoNode ri)) l.
Proof. unfold clauses_ok, qual_nodes. rewrite !Forall_map, <- Forall_and. reflexivity. Qed.

Lemma extract_nonindex_conditions_ok l quals :
  clauses_ok l -> clauses_ok (extract_nonindex_conditions l quals).
Proof.
  rewrite !clauses_ok_forall. induction 1 as [|x l Hx Hl IH]; simpl; [constructor|].
  repeat case_match; auto.
Qed.

Lemma clauses_ok_app l1 l2 : clauses_ok l1 -> clauses_ok l2 -> clauses_ok (l1 ++ l2).
Proof. rewrite !clauses_ok_forall. apply Forall_app_2. Qed.

Lemma visible_pages_nonneg io rel x : rel_ok rel -> nonneg x = true -> nonneg (visible_pages io rel x) = true.
Proof.
  intros Hrel Hx. destruct (ro_visible _ Hrel) as [Hv Lv]. unfold visible_pages. destruct io; [|exact Hx].
  assert (nonneg (i2d 1 - allvisfrac rel) = true) by (apply nonneg_sub; [reflexivity|assumption..]).
  auto with nneg.
Qed.

Lemma index_io_cost_nonneg f root io loops t sel r q mn mx rhp pf : index_ok f root ->
  nonneg t = true -> nonneg sel = true -> nonneg r = true -> nonneg q = true ->
  index_io_cost root (index_rel (indexinfo f)) (indexinfo f) io loops t sel r q = (mn, mx, rhp, pf) ->
  nonneg mn = true /\ nonneg mx = true /\ nonneg pf = true.
Proof.
  intros [Hrel _ Hi Hroot _] Ht Hs Hr Hq. set (rel := index_rel (indexinfo f)) in *.
  assert (nonneg (i2d (pages rel)) = true) by (apply nonneg_i2d; destruct (ro_pages _ Hrel); lia).
  assert (forall x, nonneg x = true ->
    nonneg (visible_pages io rel (index_pages_fetched x (pages rel) (i2d (index_pages (indexinfo f))) root)) = true) as HF.
  { intros x Hx. apply visible_pages_nonneg; [exact Hrel|]. apply index_pages_fetched_nonneg.
    split; [exact Hx|apply (ro_pages _ Hrel)|apply nonneg_i2d, Hi|exact Hroot|apply (effective_cache_size_ok So)]. }
  unfold index_io_cost. destruct (loops >? i2d 1) eqn:L.
  - assert (nonneg loops = true) as Hl.
    { destruct (nonneg loops) eqn:N; [reflexivity|]. apply neg_isnan in N as N'.
      rewrite dlt_sval in L by (exact N' || reflexivity). unfold sval in L. rewrite N in L.
      pose proof (cmag_range loops). change (nonneg (i2d 1)) with true in L. cbv iota in L.
      rewrite cmag_one in L. lia. }
    intros [= <- <- <- <-]. split_and!; auto 10 with nneg.
  - assert (nonneg (visible_pages io rel (ceil (sel * i2d (pages rel)))) = true) as HV
      by (apply visible_pages_nonneg; auto with nneg).
    intros [= <- <- <- <-]. split_and!; [|auto 10 with nneg..].
    destruct (visible_pages _ _ _ >? i2d 0); [|reflexivity]. destruct (visible_pages _ _ _ >? i2d 1) eqn:G; [|exact Hr].
    apply nonneg_add, nonneg_mul; [exact Hr| |exact Hq].
    apply nonneg_sub_not_lt; [exact HV|reflexivity|apply dlt_asym, G].
Qed.

(** The outcome of cost_index: without workers a partial path keeps its costs
    for the caller to discard it. *)
Definition index_costs_ok (path : Path) (partial_path : bool) (r : result Path) : Prop :=
  exists p, r = Ok p
    /\ ((partial_path = true /\ parallel_workers p = 0 /\ total_cost p = total_cost path)
        \/ (costed p /\ startup_ok enable_indexscan (startup_cost p)
            /\ (partial_path = true ->
                parallel_aware p = true /\ 0 < parallel_workers p <= max_parallel_workers_per_gather))).

Lemma index_rows_quals_ok path f root : index_ok f root -> ppi_ok (param_info path) ->
  nonneg (index_rows_quals path f).1 = true /\ clauses_ok (index_rows_quals path f).2.
Proof.
  intros [Hrel _ _ _ Hq] Hp. unfold index_rows_quals. destruct (param_info path) as [ppi|]; split; cbn [fst snd].
  - apply Hp.
  - apply clauses_ok_app; apply extract_nonindex_conditions_ok; [exact Hq|apply Hp].
  - apply (ro_rows _ Hrel).
  - apply extract_nonindex_conditions_ok, Hq.
Qed.

Lemma cost_index_ok `{!IndexAMLaws} path f root loops partial :
  index_ok f root -> ppi_ok (param_info path) -> target_ok path ->
  index_costs_ok path partial (cost_index path f root loops partial).
Proof.
  intros Hi Hp [T1 T2]. destruct (index_rows_quals_ok path f root Hi Hp) as [Hrows Hquals]. unfold cost_index.
  destruct (index_rows_quals path f) as [rows quals]. cbn [fst snd] in *.
  destruct (amcostestimate path f loops) as [[[[s t] sel] corr] pg] eqn:Eam.
  destruct (am_costs_ok _ _ _ _ _ _ _ _ Eam) as (Hs & Ht & Lst & Hsel & C1 & C2).
  destruct (square_unit corr C1 C2) as [Hcsq Lcsq].
  pose proof (page_costs_ok (reltablespace (index_rel (indexinfo f)))) as [[Hr _] [Hq _]].
  destruct (get_tablespace_page_costs _) as [r q]. cbn [fst snd] in *.
  destruct (index_io_cost _ _ _ _ _ _ _ _ _) as [[[mn mx] rhp] pf] eqn:Eio.
  destruct (index_io_cost_nonneg _ _ _ _ _ _ _ _ _ _ _ _ Hi (clamp_nonneg _) Hsel Hr Hq Eio) as (Hmn & Hmx & Hpf).
  destruct (cost_qual_eval_total _ (proj1 Hquals) (proj2 Hquals)) as (q' & c & Ec & C1' & C2').
  pose proof (interpolate_nonneg mx mn _ Hmx Hmn Hcsq Lcsq) as Hint.
  pose proof (nonneg_sub _ _ Ht Hs Lst) as Hrun.
  pose proof (compute_parallel_worker_ok (index_rel (indexinfo f))) as CP. destruct partial.
  - destruct (CP (if bool_decide (pathtype path = T_IndexOnlyScan) then i2d (-1) else rhp) pg So (io_workers _ _ Hi))
      as (n & -> & Hn). cbn [rbind andb]. destruct (Z.leb_spec n 0).
    + eexists. split; [reflexivity|]. left. cbn. split_and!; [reflexivity|lia|reflexivity].
    + rewrite Ec. cbn [rbind]. destruct (Z.gtb_spec n 0) as [W|]; [|lia].
      assert (nonneg (get_parallel_divisor n) = true) by (apply divisor_nonneg; lia).
      edestruct costs_ok_run as (p & E & HP & HS); [..|eexists; split; [exact E|]; right].
      4:{ split_and!; [exact HP|exact HS|]. intros _. injection E as <-. cbn. split; [reflexivity|lia]. }
      all: cbn; auto 14 with nneg.
  - cbn [rbind andb]. rewrite Ec. cbn [rbind].
    destruct (parallel_workers path >? 0)%Z eqn:W; try (pose proof (divisor_nonneg _ W)).
    all: edestruct costs_ok_run as (p & E & HP & HS); [..|eexists; split; [exact E|]; right].
    4,8: split_and!; [exact HP|exact HS|discriminate].
    all: cbn; auto 14 with nneg.
Qed.

(** cost_index returns for every index path over planned clauses.  A partial path
    gets between one and max_parallel_workers_per_gather workers, or none and then
    keeps its old costs; every costed index path has a startup cost that is not negative,
    at least disable_cost when index scans are disabled, at most its total cost, and a
    power cost of at most 80. *)
Theorem cost_index_costed `{!IndexAMLaws} path f root loops partial :
  index_ok f root -> ppi_ok (param_info path) -> target_ok path ->
  index_costs_ok path partial (cost_index path f root loops partial).
Proof. apply cost_index_ok. Qed.

(** ** Bitmap scans *)

(** A tree of BitmapAnd and BitmapOr nodes over index paths, with selectivities
    that are fractions. *)
Inductive bitmap_ok : Path -> Prop :=
| bitmap_index p f : extra p = XIndexPath f -> nonneg (indextotalcost f) = true -> nonneg (rows p) = true ->
    nonneg (indexselectivity f) = true -> indexselectivity f ⊑ i2d 1 ->
    0 <= index_pages (indexinfo f) -> bitmap_ok p
| bitmap_and p l sel : extra p = XBitmapAndPath l sel -> Forall bitmap_ok l -> nonneg (total_cost p) = true ->
    nonneg sel = true -> sel ⊑ i2d 1 -> bitmap_ok p
| bitmap_or p l sel : extra p = XBitmapOrPath l sel -> Forall bitmap_ok l -> nonneg (total_cost p) = true ->
    nonneg sel = true -> sel ⊑ i2d 1 -> bitmap_ok p.

Lemma tenth_nonneg : nonneg (dlit 1 10) = true.
Proof. reflexivity. Qed.
Lemma hundred_nonneg : nonneg (i2d 100) = true.
Proof. reflexivity. Qed.
#[local] Hint Resolve tenth_nonneg hundred_nonneg : nneg.

Lemma cost_bitmap_tree_node_ok p : bitmap_ok p ->
  exists c sel, cost_bitmap_tree_node p = Ok (c, sel) /\ nonneg c = true /\ nonneg sel = true /\ sel ⊑ i2d 1.
Proof.
  intros Hp. unfold cost_bitmap_tree_node.
  inversion Hp as [? f E|? l sel E|? l sel E]; subst; rewrite E; eexists _, _; split_and!;
    try reflexivity; try assumption; auto 8 with nneg.
Qed.

Lemma get_indexpath_pages_ok p : bitmap_ok p -> exists x, get_indexpath_pages p = Ok x /\ nonneg x = true.
Proof.
  unfold get_indexpath_pages. revert p. fix IH 2. intros p Hp.
  assert (forall l acc, Forall bitmap_ok l -> nonneg acc = true -> exists x,
    (fix sum (l : list Path) (acc : double) : result double :=
      match l with
      | [] => Ok acc
      | p :: l => let! x := indexpath_pages (extra p) in sum l (acc + x)
      end) l acc = Ok x /\ nonneg x = true) as Sum.
  { intros l acc Hl. revert acc. induction Hl as [|q l Hq Hl IHl]; intros acc Ha; [eauto|].
    destruct (IH q Hq) as (x & -> & Hx). cbn [rbind]. apply IHl. auto with nneg. }
  destruct Hp as [p f E|p l sel E Hl|p l sel E Hl]; rewrite E; cbn [indexpath_pages].
  - eexists. split; [reflexivity|]. apply nonneg_i2d. assumption.
  - apply Sum; [assumption|reflexivity].
  - apply Sum; [assumption|reflexivity].
Qed.

Lemma bitmap_and_loop_ok l : Forall bitmap_ok l -> forall first c sel,
  nonneg c = true -> nonneg sel = true -> sel ⊑ i2d 1 ->
  exists c' sel', bitmap_and_loop l first c sel = Ok (c', sel')
    /\ nonneg c' = true /\ c ⊑ c' /\ nonneg sel' = true /\ sel' ⊑ sel.
Proof.
  induction 1 as [|p l Hp Hl IH]; intros first c sel Hc Hs Ls; cbn [bitmap_and_loop].
  { eexists _, _. split_and!; reflexivity || assumption. }
  destruct (cost_bitmap_tree_node_ok p Hp) as (c1 & s1 & -> & Hc1 & Hs1 & Ls1). cbn [rbind].
  assert (sel * s1 ⊑ sel) as Lm.
  { rewrite dmul_comm. apply mul_le_factor; try assumption. unfold finite, cle in *.
    pose proof (finite_i2d 1 ltac:(lia) ltac:(lia)) as F. unfold finite in F. lia. }
  match goal with |- context [bitmap_and_loop l false ?c ?s] =>
    destruct (IH false c s) as (c' & s' & -> & Hc' & Lc' & Hs' & Ls') end.
  1-3: try destruct first; cbn [negb]; auto 8 with nneg; etransitivity; eassumption.
  eexists _, _. split_and!; [reflexivity|assumption| |assumption|etransitivity; eassumption].
  etransitivity; [|exact Lc']. destruct first; cbn [negb].
  - apply cle_add_l; assumption.
  - etransitivity; apply cle_add_l; auto with nneg.
Qed.

Lemma bitmap_or_loop_ok l : Forall bitmap_ok l -> forall first c sel,
  nonneg c = true -> nonneg sel = true ->
  exists c' sel', bitmap_or_loop l first c sel = Ok (c', sel')
    /\ nonneg c' = true /\ c ⊑ c' /\ nonneg sel' = true /\ sel ⊑ sel'.
Proof.
  induction 1 as [|p l Hp Hl IH]; intros first c sel Hc Hs; cbn [bitmap_or_loop].
  { eexists _, _. split_and!; reflexivity || assumption. }
  destruct (cost_bitmap_tree_node_ok p Hp) as (c1 & s1 & -> & Hc1 & Hs1 & Ls1). cbn [rbind].
  assert (sel ⊑ sel + s1) as Lm by (apply cle_add_l; assumption).
  match goal with |- context [bitmap_or_loop l false ?c ?s] =>
    destruct (IH false c s) as (c' & s' & -> & Hc' & Lc' & Hs' & Ls') end.
  1,2: try destruct (negb first && _); auto 8 with nneg.
  eexists _, _. split_and!; [reflexivity|assumption| |assumption|etransitivity; eassumption].
  etransitivity; [|exact Lc']. destruct (negb first && _).
  - etransitivity; apply cle_add_l; auto with nneg.
  - apply cle_add_l; assumption.
Qed.

Lemma dMin_one_ok x : nonneg x = true -> nonneg (dMin x (i2d 1)) = true /\ dMin x (i2d 1) ⊑ i2d 1.
Proof.
  intros Hx. unfold dMin. destruct (x <? i2d 1) eqn:E; [|split; reflexivity].
  split; [exact Hx|]. apply dlt_cle; [exact Hx|reflexivity|exact E].
Qed.

(** Costing a BitmapAnd or BitmapOr node over well-formed bitmap trees succeeds and
    gives a well-formed bitmap tree again: its cost is not negative, its selectivity is a
    fraction, and the selectivity of an AND is at most that of its first input. *)
Theorem cost_bitmap_nodes_ok path first bitmapquals :
  Forall bitmap_ok (first :: bitmapquals) ->
  (exists p, cost_bitmap_or_node path (first :: bitmapquals) = Ok p /\ bitmap_ok p)
  /\ (exists p c sel c1 sel1, cost_bitmap_and_node path (first :: bitmapquals) = Ok p /\ bitmap_ok p
        /\ cost_bitmap_tree_node p = Ok (c, sel) /\ cost_bitmap_tree_node first = Ok (c1, sel1) /\ sel ⊑ sel1).
Proof.
  intros Hl. split.
  - destruct (bitmap_or_loop_ok _ Hl true (i2d 0) (i2d 0)) as (c & s & E & Hc & _ & Hs & _); [reflexivity..|].
    unfold cost_bitmap_or_node. rewrite E. cbn [rbind]. eexists. split; [reflexivity|].
    destruct (dMin_one_ok s Hs). eapply bitmap_or; [reflexivity|exact Hl|exact Hc|assumption..].
  - apply Forall_cons in Hl as H2l. destruct H2l as [Hf Hl'].
    destruct (cost_bitmap_tree_node_ok first Hf) as (c1 & s1 & E1 & Hc1 & Hs1 & Ls1).
    assert (cmag (i2d 1 * s1) = cmag s1) as M by (rewrite dmul_comm; apply cmag_mul_one, Hs1).
    destruct (bitmap_and_loop_ok _ Hl' false (i2d 0 + c1) (i2d 1 * s1)) as (c & s & E & Hc & _ & Hs & Ls).
    + auto with nneg.
    + apply nonneg_mul; [reflexivity|exact Hs1].
    + unfold cle in *. lia.
    + unfold cost_bitmap_and_node. cbn [bitmap_and_loop negb]. rewrite E1. cbn [rbind negb]. rewrite E. cbn [rbind].
      eexists _, c, s, c1, s1. split_and!; try reflexivity; [|unfold cle in *; lia].
      eapply bitmap_and; [reflexivity|exact Hl|exact Hc|exact Hs|unfold cle in *; lia].
Qed.

(** The pages a bitmap scan fetches do not exceed the table. *)
Lemma compute_bitmap_pages_ok root rel bq n : rel_ok rel -> bitmap_ok bq ->
  nonneg (total_table_pages root) = true ->
  exists pf c t, compute_bitmap_pages root rel bq n = Ok (pf, c, t)
    /\ nonneg pf = true /\ nonneg c = true /\ nonneg t = true
    /\ (isnan pf = true \/ pf ⊑ table_pages (pages rel)).
Proof.
  intros Hrel Hb Hroot. destruct (cost_bitmap_tree_node_ok bq Hb) as (c & sel & Ec & Hc & Hs & _).
  destruct (get_indexpath_pages_ok bq Hb) as (ip & Ei & Hi). pose proof (ro_pages _ Hrel) as Hpg.
  destruct (table_pages_ok (pages rel) Hpg) as (HT & FT & _). pose proof (clamp_nonneg (sel * tuples rel)) as Ht.
  unfold compute_bitmap_pages. rewrite Ec. cbn [rbind]. rewrite Ei.
  set (t := clamp_row_est (sel * tuples rel)) in *. set (T := table_pages (pages rel)) in *.
  match goal with |- context [rbind ?r _] =>
    assert (exists x, r = Ok x /\ nonneg x = true) as (x & -> & Hx) end.
  { destruct (Z.gtb_spec n 1).
    - assert (nonneg (i2d n) = true) by (apply nonneg_i2d; lia). cbn [rbind]. eexists. split; [reflexivity|].
      apply nonneg_div; [|assumption]. apply index_pages_fetched_nonneg.
      split; [auto with nneg|exact Hpg|exact Hi|exact Hroot|apply (effective_cache_size_ok So)].
    - eexists. split; [reflexivity|]. apply mackert_lohman_nonneg; assumption. }
  cbn [rbind]. eexists _, _, _. split; [reflexivity|]. split_and!; [|exact Hc|exact Ht|].
  - destruct (x >=? T); [exact HT|auto with nneg].
  - destruct (x >=? T) eqn:E; [right; reflexivity|]. destruct (isnan x) eqn:Nx.
    + left. destruct x as [[] V]; try discriminate. reflexivity.
    + right. apply ceil_le_table; [exact Hpg|exact Hx|]. apply dle_false_cle; assumption.
Qed.

Lemma bitmap_cost_per_page_nonneg pf T r q : nonneg pf = true -> nonneg T = true -> finite T ->
  (0 < cmag T)%Z -> pf ⊑ T \/ isnan pf = true -> nonneg r = true /\ finite r -> nonneg q = true /\ finite q ->
  nonneg (bitmap_cost_per_page pf T r q) = true.
Proof.
  intros Hpf HT FT PT Lpf [Hr Fr] [Hq Fq]. unfold bitmap_cost_per_page.
  destruct (pf >=? i2d 2) eqn:G; [|exact Hr].
  destruct Lpf as [Lpf|N]; [|rewrite dle_nan_r in G by exact N; discriminate].
  assert (nonneg (pf / T) = true) as Hd by auto with nneg.
  assert (dsqrt (pf / T) ⊑ i2d 1) as Ls by (apply sqrt_le_one; [exact Hd|apply div_le_one; assumption]).
  assert (nonneg (dsqrt (pf / T)) = true) as Hs by auto with nneg.
  destruct (Z.le_gt_cases (cmag q) (cmag r)) as [L|L].
  - assert (nonneg (r - q) = true) as Hsub by (apply nonneg_sub; assumption).
    assert (r - q ⊑ r) as Lsub by (apply cle_sub; assumption).
    apply nonneg_sub; [exact Hr|auto with nneg|]. etransitivity; [|exact Lsub]. rewrite dmul_comm.
    apply mul_le_factor; try assumption. unfold finite, cle in *. lia.
  - rewrite (dneg_sub r q), (dmul_comm (dneg _)), dmul_dneg, dsub_dneg, dneg_involutive
      by (assumption || apply finite_isnan; assumption).
    assert (nonneg (q - r) = true) by (apply nonneg_sub; [assumption..|unfold cle; lia]). auto with nneg.
Qed.

Lemma cost_bitmap_heap_scan_ok path root rel ppi bq loops n :
  rel_ok rel -> ppi_ok ppi -> target_ok path -> bitmap_ok bq -> nonneg (total_table_pages root) = true ->
  d2int loops = Some n ->
  exists p, cost_bitmap_heap_scan path root rel ppi bq loops = Ok p /\ costed p
    /\ startup_ok enable_bitmapscan (startup_cost p)
    /\ (io_cost p >? table_pages (pages rel)) = false.
Proof.
  intros Hrel Hp Ht Hb Hroot Hn.
  destruct (compute_bitmap_pages_ok root rel bq n Hrel Hb Hroot) as (pf & c & t & Ecp & Hpf & Hc & Htf & Lpf).
  pose proof (table_pages_ok (pages rel) (ro_pages _ Hrel)) as (HT & LT & IT).
  assert (finite (table_pages (pages rel))) as FT.
  { pose proof (ro_pages _ Hrel). unfold table_pages. destruct (pages rel >? 1)%Z; apply finite_i2d; lia. }
  assert (0 < cmag (table_pages (pages rel)))%Z as PT by (unfold cle in LT; rewrite cmag_one in LT; lia).
  assert ((pf >? table_pages (pages rel)) = false) as Lio.
  { destruct Lpf as [N|L]; [apply dlt_nan_r, N|]. apply cle_not_lt; assumption. }
  unfold cost_bitmap_heap_scan. rewrite Hn. cbn [rbind]. rewrite Ecp. cbn [rbind].
  pose proof (page_costs_ok (reltablespace rel)) as [Pr Pq].
  pose proof (bitmap_cost_per_page_nonneg pf _ _ _ Hpf HT FT PT ltac:(tauto) Pr Pq) as Hcpp.
  scan_setup rel ppi Hrel Hp Ht.
  destruct (get_tablespace_page_costs (reltablespace rel)) as [r q]. cbn [fst snd] in *.
  destruct (parallel_workers path >? 0)%Z eqn:W; try (pose proof (divisor_nonneg _ W)).
  all: edestruct costs_ok_run as (p & E & HP & HS); [..|exists p; split_and!; [exact E|exact HP|exact HS|]].
  4,8: injection E as <-; exact Lio.
  all: auto 14 with nneg.
Qed.

(** For every well-formed bitmap tree and a loop count that fits an int,
    cost_bitmap_heap_scan returns a path whose startup cost is not negative, at least
    disable_cost when bitmap scans are disabled and at most its total cost, whose power
    cost is at most 80, and which reads no more pages than the table has. *)
Theorem cost_bitmap_heap_scan_costed path root rel ppi bq loops n :
  rel_ok rel -> ppi_ok ppi -> target_ok path -> bitmap_ok bq -> nonneg (total_table_pages root) = true ->
  d2int loops = Some n ->
  exists p, cost_bitmap_heap_scan path root rel ppi bq loops = Ok p /\ costed p
    /\ startup_ok enable_bitmapscan (startup_cost p)
    /\ (io_cost p >? table_pages (pages rel)) = false.
Proof. apply cost_bitmap_heap_scan_ok. Qed.

(** For a well-formed relation, parameterization and target, the scans of tables,
    samples, functions, VALUES lists, CTEs and tuplestores can be costed: the cost function
    returns (it does not raise an error), the startup cost is not negative and at most the
    total cost, at least disable_cost for a disabled scan, and the power cost is at most 80. *)
Theorem base_scans_costed path rel ppi nsb expr :
  rel_ok rel -> ppi_ok ppi -> target_ok path -> node_ok expr -> planned expr ->
  costs_ok enable_seqscan (cost_seqscan path rel ppi)
  /\ costs_ok true (cost_samplescan path rel ppi nsb)
  /\ costs_ok true (cost_functionscan path rel ppi expr)
  /\ costs_ok true (cost_tablefuncscan path rel ppi expr)
  /\ costs_ok true (cost_valuesscan path rel ppi)
  /\ costs_ok true (cost_ctescan path rel ppi)
  /\ costs_ok true (cost_namedtuplestorescan path rel ppi).
Proof.
  intros Hrel Hp Ht Hn Hpl.
  split_and!; [apply cost_seqscan_ok|apply cost_samplescan_ok|apply cost_functionscan_ok..
    |apply cost_listscan_ok|apply cost_listscan_ok|apply cost_namedtuplestorescan_ok]; auto with nneg.
Qed.

(** The nodes above a costed path are costed: Gather, GatherMerge, SubqueryScan and
    RecursiveUnion keep the startup cost non-negative and below the total cost, and a
    disabled GatherMerge costs at least disable_cost. *)
Theorem upper_scans_costed `{!LibmOrder} path subpath rterm rel ppi r n :
  rel_ok rel -> ppi_ok ppi -> target_ok path -> costed subpath -> costed rterm -> 0 <= n ->
  match r with Some x => nonneg x = true | None => True end ->
  costs_ok true (cost_subqueryscan path subpath rel ppi)
  /\ costs_ok true (Ok (cost_gather path subpath rel ppi r))
  /\ costs_ok enable_gathermerge
       (Ok (cost_gather_merge path n rel ppi (startup_cost subpath) (total_cost subpath) r))
  /\ costed (cost_recursive_union path subpath rterm).
Proof.
  intros Hrel Hp Ht Hs Hrt Hn Hr. split_and!.
  - apply cost_subqueryscan_ok; assumption.
  - apply cost_gather_ok; assumption.
  - destruct Hs. apply cost_gather_merge_ok; assumption.
  - apply cost_recursive_union_ok; assumption.
Qed.

(** The page reads of a table scan are its pages: the I/O of a sequential scan is linear in
    the table, and the parallel divisor lowers the CPU work but never the I/O. *)
Lemma cost_seqscan_io path rel ppi p : cost_seqscan path rel ppi = Ok p -> io_cost p = i2d (pages rel).
Proof.
  unfold cost_seqscan. destruct (get_restriction_qual_cost rel ppi); [|discriminate]. cbn [rbind].
  destruct (parallel_workers path >? 0)%Z; intros [= <-]; reflexivity.
Qed.

End spec.

#[export] Hint Resolve zero_nonneg cpu_tuple_nonneg cpu_operator_nonneg disable_cost_nonneg
  parallel_tuple_nonneg parallel_setup_nonneg clamp_nonneg startup_add startup_disabled startup_enabled
  tenth_nonneg hundred_nonneg : nneg.

(** ** Witnesses *)

#[local] Existing Instance default_settings.
#[export] Instance sample_tablespaces : Tablespaces := {| tablespace_opts := fun _ => None |}.
#[export] Instance sample_tablespace_laws : TablespaceLaws.
Proof. split. discriminate. Qed.

(** An access method that charges ten, fetches a tenth, uncorrelated. *)
#[export] Instance sample_am : IndexAM :=
  {| amcostestimate := fun _ _ _ => (i2d 1, i2d 10, dlit 1 10, i2d 0, i2d 30) |}.
#[export] Instance sample_am_laws : IndexAMLaws.
Proof. split. intros path f loops s t sel corr pg [= <- <- <- <- <-]. split_and!; vm_compute; congruence. Qed.

Lemma sample_rel_ok : rel_ok sample_rel.
Proof. split; try (vm_compute; split; congruence); vm_compute; reflexivity. Qed.

Lemma sample_target_ok p : pathtarget p = sample_target -> target_ok p.
Proof. unfold target_ok. intros ->. split; reflexivity. Qed.

Definition scan_path : Path := sample_path dzero dzero dzero.

Lemma sample_costed : costed (sample_path (i2d 1) (i2d 10) (i2d 40)).
Proof. split; try reflexivity. apply cle_i2d; lia. Qed.

Lemma base_scans_costed_witness :
  costs_ok enable_seqscan (cost_seqscan scan_path sample_rel None)
  /\ costs_ok true (cost_samplescan scan_path sample_rel None true)
  /\ costs_ok true (cost_functionscan scan_path sample_rel None sample_qual)
  /\ costs_ok true (cost_tablefuncscan scan_path sample_rel None sample_qual)
  /\ costs_ok true (cost_valuesscan scan_path sample_rel None)
  /\ costs_ok true (cost_ctescan scan_path sample_rel None)
  /\ costs_ok true (cost_namedtuplestorescan scan_path sample_rel None).
Proof.
  exact (base_scans_costed default_settings_ok scan_path sample_rel None true sample_qual
    sample_rel_ok I (sample_target_ok scan_path eq_refl) sample_qual_ok sample_qual_planned).
Defined.

Lemma upper_scans_costed_witness :
  let sub := sample_path (i2d 1) (i2d 10) (i2d 40) in
  costs_ok true (cost_subqueryscan scan_path sub sample_rel None)
  /\ costs_ok true (Ok (cost_gather scan_path sub sample_rel None (Some (i2d 100))))
  /\ costs_ok enable_gathermerge
       (Ok (cost_gather_merge scan_path 2 sample_rel None (startup_cost sub) (total_cost sub) (Some (i2d 100))))
  /\ costed (cost_recursive_union scan_path sub sub).
Proof.
  exact (upper_scans_costed default_settings_ok scan_path _ _ sample_rel None (Some (i2d 100)) 2
    sample_rel_ok I (sample_target_ok scan_path eq_refl) sample_costed sample_costed ltac:(lia) eq_refl).
Defined.

Definition sample_index : IndexFields :=
  mkIndexFields (mkIndexOptInfo 16384 sample_rel 30 (i2d 10000) []) [] [] (i2d 0) (i2d 0).

Lemma sample_index_ok : index_ok sample_index sample_root.
Proof.
  split; [exact sample_rel_ok|left; reflexivity|cbn; lia|vm_compute; reflexivity|split; constructor].
Qed.

Lemma cost_index_costed_witness :
  index_costs_ok scan_path true (cost_index scan_path sample_index sample_root (i2d 1) true).
Proof.
  exact (cost_index_costed default_settings_ok scan_path sample_index sample_root (i2d 1) true
    sample_index_ok I (sample_target_ok scan_path eq_refl)).
Defined.

(** A bitmap index path that selects a tenth of the table. *)
Definition sample_bitmap : Path :=
  {| pathtype := T_IndexScan; parent := sample_rel; pathtarget := sample_target; param_info := None;
     parallel_aware := false; parallel_safe := true; parallel_workers := 0;
     rows := i2d 1000; startup_cost := i2d 1; total_cost := i2d 10; io_cost := dzero; cpu_cost := dzero;
     power_cost := i2d 40; pathkeys := [];
     extra := XIndexPath (mkIndexFields (indexinfo sample_index) [] [] (i2d 10) (dlit 1 10)) |}.

Lemma sample_bitmap_ok : bitmap_ok sample_bitmap.
Proof. eapply bitmap_index; [reflexivity|vm_compute; congruence..]. Qed.

Lemma cost_bitmap_nodes_ok_witness :
  (exists p, cost_bitmap_or_node scan_path [sample_bitmap; sample_bitmap] = Ok p /\ bitmap_ok p)
  /\ (exists p c sel c1 sel1, cost_bitmap_and_node scan_path [sample_bitmap; sample_bitmap] = Ok p /\ bitmap_ok p
        /\ cost_bitmap_tree_node p = Ok (c, sel) /\ cost_bitmap_tree_node sample_bitmap = Ok (c1, sel1)
        /\ sel ⊑ sel1).
Proof.
  exact (cost_bitmap_nodes_ok default_settings_ok scan_path sample_bitmap [sample_bitmap]
    ltac:(repeat (constructor || apply sample_bitmap_ok))).
Defined.

Lemma cost_bitmap_heap_scan_costed_witness :
  exists p, cost_bitmap_heap_scan scan_path sample_root sample_rel None sample_bitmap (i2d 1) = Ok p /\ costed p
    /\ startup_ok enable_bitmapscan (startup_cost p)
    /\ (io_cost p >? table_pages (pages sample_rel)) = false.
Proof.
  exact (cost_bitmap_heap_scan_costed default_settings_ok scan_path sample_root sample_rel None sample_bitmap
    (i2d 1) 1 sample_rel_ok I (sample_target_ok scan_path eq_refl) sample_bitmap_ok eq_refl eq_refl).
Defined.
