(* ===== verification/CostNode.v ===== *)
(** Cost of the nodes above scans and joins (optimizer/path/costsize.c): Sort,
    MergeAppend, Material, Agg, WindowAgg, Group, SubPlan, and the cost of
    scanning a finished path again. *)
From S2P Require Import Prelude Float64 Double DoubleOrder DoubleDiv Bitmapset PlanTypes Samples PathCompare CostExpr CostBase CostScan CostScanSpec.
Open Scope double_scope.

(** The merge order of a sort (tuplesort.c), with the int64 division of C. *)
Definition MINORDER : Z := 6.
Definition MAXORDER : Z := 500.
Definition TAPE_BUFFER_OVERHEAD : Z := BLCKSZ.
Definition MERGE_BUFFER_SIZE : Z := BLCKSZ * 32.

Definition tuplesort_merge_order (allowedMem : Z) : Z :=
  let mOrder := Z.quot (allowedMem - TAPE_BUFFER_OVERHEAD) (MERGE_BUFFER_SIZE + TAPE_BUFFER_OVERHEAD) in
  let mOrder := Z.max mOrder MINORDER in
  Z.min mOrder MAXORDER.

Record AggClauseCosts := mkAggClauseCosts { transCost : QualCost; finalCost : Cost }.

(** The members of a WindowFunc that are costed. *)
Record WindowFuncNode := mkWindowFunc { winfnoid : Oid; wfargs : list Node; aggfilter : option Node }.

Inductive SubLinkType :=
  EXISTS_SUBLINK | ALL_SUBLINK | ANY_SUBLINK | ROWCOMPARE_SUBLINK | EXPR_SUBLINK | MULTIEXPR_SUBLINK
| ARRAY_SUBLINK | CTE_SUBLINK.

#[export] Instance SubLinkType_eq_dec : EqDecision SubLinkType.
Proof. solve_decision. Defined.

(** What cost_subplan reads of the SubPlan (its testexpr as the implicitly ANDed
    list) and of the Plan. *)
Record SubPlanInput := mkSubPlanInput {
  subLinkType : SubLinkType;
  testexpr : list Node;
  useHashTable : bool;
  parParam : list Z;
}.
Record PlanInput := mkPlanInput {
  plan_tag : PlanTag;
  plan_startup_cost : Cost;
  plan_total_cost : Cost;
  plan_rows : double;
}.

(** ExecMaterializesOutput (executor/execAmi.c). *)
Definition ExecMaterializesOutput (plantype : PlanTag) : bool :=
  match plantype with
  | T_Material | T_FunctionScan | T_TableFuncScan | T_CteScan | T_NamedTuplestoreScan
  | T_WorkTableScan | T_Sort => true
  | _ => false
  end.

Section node.
Context `{Libm, Settings, Catalog}.

(** [(startup, io_cost)] of the sort itself: disk merge, bounded heap or quicksort. *)
Definition sort_startup (startup_cost : Cost) (tuples output_tuples input_bytes output_bytes : double)
    (comparison_cost : Cost) (sort_mem_bytes : Z) : Cost * Cost :=
  if output_bytes >? i2d sort_mem_bytes then
    let npages := ceil (input_bytes / i2d BLCKSZ) in
    let nruns := input_bytes / i2d sort_mem_bytes in
    let mergeorder := i2d (tuplesort_merge_order sort_mem_bytes) in
    let startup_cost := startup_cost + comparison_cost * tuples * LOG2 tuples in
    let log_runs := if nruns >? mergeorder then ceil (log nruns / log mergeorder) else i2d 1 in
    let npageaccesses := i2d 2 * npages * log_runs in
    (startup_cost + npageaccesses * (seq_page_cost * dlit 75 100 + random_page_cost * dlit 25 100),
     npageaccesses)
  else if (tuples >? i2d 2 * output_tuples) || (input_bytes >? i2d sort_mem_bytes) then
    (startup_cost + comparison_cost * tuples * LOG2 (i2d 2 * output_tuples), i2d 0)
  else (startup_cost + comparison_cost * tuples * LOG2 tuples, i2d 0).

Definition cost_sort (path : Path) (input_cost : Cost) (tuples : double) (width : Z)
    (comparison_cost : Cost) (sort_mem : Z) (limit_tuples : double) : Path :=
  let startup_cost := input_cost in
  let input_bytes := relation_byte_size tuples width in
  let sort_mem_bytes := (sort_mem * 1024)%Z in
  let startup_cost := disabled enable_sort startup_cost in
  let rows := tuples in
  let tuples := if tuples <? i2d 2 then i2d 2 else tuples in
  let comparison_cost := comparison_cost + i2d 2 * cpu_operator_cost in
  let (output_tuples, output_bytes) :=
    if (limit_tuples >? i2d 0) && (limit_tuples <? tuples)
    then (limit_tuples, relation_byte_size limit_tuples width)
    else (tuples, input_bytes) in
  let (startup_cost, io_cost) :=
    sort_startup startup_cost tuples output_tuples input_bytes output_bytes comparison_cost sort_mem_bytes in
  let run_cost := i2d 0 + cpu_operator_cost * tuples in
  let cpu_cost := cpu_operator_cost * tuples in
  set_path_costs path rows startup_cost (startup_cost + run_cost) io_cost cpu_cost
    (count_power_cost io_cost cpu_cost run_cost 0).

(** The rows of a MergeAppend are set by its caller. *)
Definition cost_merge_append (path : Path) (n_streams : Z) (input_startup_cost input_total_cost : Cost)
    (tuples : double) : Path :=
  let N := if (n_streams <? 2)%Z then i2d 2 else i2d n_streams in
  let logN := LOG2 N in
  let comparison_cost := i2d 2 * cpu_operator_cost in
  let startup_cost := i2d 0 + comparison_cost * N * logN in
  let run_cost := i2d 0 + tuples * comparison_cost * logN in
  let cpu_cost := tuples * comparison_cost * logN in
  let run_cost := run_cost + cpu_operator_cost * tuples in
  let cpu_cost := cpu_cost + cpu_operator_cost * tuples in
  let io_cost := i2d 0 in
  set_path_costs path (rows path) (startup_cost + input_startup_cost) (startup_cost + run_cost + input_total_cost)
    io_cost cpu_cost (count_power_cost io_cost cpu_cost run_cost 0).

(** Page reads of a tuplestore that does not fit into work_mem: [(run_cost, pages)]. *)
Definition spill_cost (run_cost : Cost) (tuples : double) (width : Z) : Cost * double :=
  let nbytes := relation_byte_size tuples width in
  if nbytes >? i2d (work_mem * 1024) then
    let npages := ceil (nbytes / i2d BLCKSZ) in (run_cost + seq_page_cost * npages, npages)
  else (run_cost, i2d 0).

Definition cost_material (path : Path) (input_startup_cost input_total_cost : Cost) (tuples : double)
    (width : Z) : Path :=
  let startup_cost := input_startup_cost in
  let run_cost := input_total_cost - input_startup_cost in
  let run_cost := run_cost + i2d 2 * cpu_operator_cost * tuples in
  let (run_cost, io_cost) := spill_cost run_cost tuples width in
  let cpu_cost := run_cost in
  set_path_costs path tuples startup_cost (startup_cost + run_cost) io_cost cpu_cost
    (count_power_cost io_cost cpu_cost run_cost 0).

(** [aggcosts] is [None] for a NULL pointer. *)
Definition agg_clause_costs (aggcosts : option AggClauseCosts) : AggClauseCosts :=
  match aggcosts with Some c => c | None => mkAggClauseCosts (mkQualCost (i2d 0) (i2d 0)) (i2d 0) end.

Definition cost_agg (path : Path) (aggstrategy : AggStrategy) (aggcosts : option AggClauseCosts)
    (numGroupCols : Z) (numGroups : double) (input_startup_cost input_total_cost : Cost)
    (input_tuples : double) : Path :=
  let aggcosts := agg_clause_costs aggcosts in
  let '(startup_cost, total_cost, output_tuples, cpu_cost) :=
    match aggstrategy with
    | AGG_PLAIN =>
        let startup_cost := input_total_cost in
        let startup_cost := startup_cost + startup (transCost aggcosts) in
        let startup_cost := startup_cost + per_tuple (transCost aggcosts) * input_tuples in
        let startup_cost := startup_cost + finalCost aggcosts in
        (startup_cost, startup_cost + cpu_tuple_cost, i2d 1, per_tuple (transCost aggcosts) * input_tuples)
    | AGG_SORTED | AGG_MIXED =>
        let startup_cost := input_startup_cost in
        let total_cost := input_total_cost in
        let (startup_cost, total_cost) :=
          if bool_decide (aggstrategy = AGG_MIXED) && negb enable_hashagg
          then (startup_cost + disable_cost, total_cost + disable_cost)
          else (startup_cost, total_cost) in
        let total_cost := total_cost + startup (transCost aggcosts) in
        let total_cost := total_cost + per_tuple (transCost aggcosts) * input_tuples in
        let total_cost := total_cost + (cpu_operator_cost * i2d numGroupCols) * input_tuples in
        let total_cost := total_cost + finalCost aggcosts * numGroups in
        let total_cost := total_cost + cpu_tuple_cost * numGroups in
        (startup_cost, total_cost, numGroups,
         (cpu_operator_cost * i2d numGroupCols) * input_tuples + cpu_tuple_cost * numGroups)
    | AGG_HASHED =>
        let startup_cost := disabled enable_hashagg input_total_cost in
        let startup_cost := startup_cost + startup (transCost aggcosts) in
        let startup_cost := startup_cost + per_tuple (transCost aggcosts) * input_tuples in
        let startup_cost := startup_cost + (cpu_operator_cost * i2d numGroupCols) * input_tuples in
        let total_cost := startup_cost in
        let total_cost := total_cost + finalCost aggcosts * numGroups in
        let total_cost := total_cost + cpu_tuple_cost * numGroups in
        (startup_cost, total_cost, numGroups,
         (cpu_operator_cost * i2d numGroupCols) * input_tuples + cpu_tuple_cost * numGroups)
    end in
  let io_cost := i2d 0 in
  set_path_costs path output_tuples startup_cost total_cost io_cost cpu_cost
    (count_power_cost io_cost cpu_cost total_cost 0).

(** The loop over the window functions: [(startup_cost, total_cost)]. *)
Fixpoint windowagg_loop (windowFuncs : list WindowFuncNode) (input_tuples : double)
    (startup_cost total_cost : Cost) : result (Cost * Cost) :=
  match windowFuncs with
  | [] => Ok (startup_cost, total_cost)
  | wfunc :: l =>
      let wfunccost := get_func_cost (winfnoid wfunc) * cpu_operator_cost in
      let! (_, argcosts) := cost_qual_eval (wfargs wfunc) in
      let startup_cost := startup_cost + startup argcosts in
      let wfunccost := wfunccost + per_tuple argcosts in
      let! argcosts :=
        match aggfilter wfunc with
        | Some f => let! (_, c) := cost_qual_eval_node f in Ok c
        | None => Ok zero_qual_cost
        end in
      let startup_cost := startup_cost + startup argcosts in
      let wfunccost := wfunccost + per_tuple argcosts in
      windowagg_loop l input_tuples startup_cost (total_cost + wfunccost * input_tuples)
  end.

Definition cost_windowagg (path : Path) (windowFuncs : list WindowFuncNode) (numPartCols numOrderCols : Z)
    (input_startup_cost input_total_cost : Cost) (input_tuples : double) : result Path :=
  let! (startup_cost, total_cost) :=
    windowagg_loop windowFuncs input_tuples input_startup_cost input_total_cost in
  let total_cost := total_cost + cpu_operator_cost * i2d (numPartCols + numOrderCols) * input_tuples in
  let total_cost := total_cost + cpu_tuple_cost * input_tuples in
  let io_cost := i2d 0 in
  let cpu_cost := i2d 0 + (total_cost - input_total_cost) in
  Ok (set_path_costs path input_tuples startup_cost total_cost io_cost cpu_cost
        (count_power_cost io_cost cpu_cost total_cost 0)).

Definition cost_group (path : Path) (numGroupCols : Z) (numGroups : double)
    (input_startup_cost input_total_cost : Cost) (input_tuples : double) : Path :=
  let startup_cost := input_startup_cost in
  let total_cost := input_total_cost + cpu_operator_cost * input_tuples * i2d numGroupCols in
  let io_cost := i2d 0 in
  let cpu_cost := total_cost - input_startup_cost in
  set_path_costs path numGroups startup_cost total_cost io_cost cpu_cost
    (count_power_cost io_cost cpu_cost total_cost 0).

(** The cost of a SubPlan: startup_cost and per_call_cost. *)
Definition cost_subplan (subplan : SubPlanInput) (plan : PlanInput) : result QualCost :=
  let! (_, sp_cost) := cost_qual_eval (testexpr subplan) in
  if useHashTable subplan then
    Ok (mkQualCost (startup sp_cost + (plan_total_cost plan + cpu_operator_cost * plan_rows plan))
                   (per_tuple sp_cost))
  else
    let plan_run_cost := plan_total_cost plan - plan_startup_cost plan in
    let per_tuple' :=
      match subLinkType subplan with
      | EXISTS_SUBLINK => per_tuple sp_cost + plan_run_cost / clamp_row_est (plan_rows plan)
      | ALL_SUBLINK | ANY_SUBLINK =>
          per_tuple sp_cost + dlit 1 2 * plan_run_cost + dlit 1 2 * plan_rows plan * cpu_operator_cost
      | _ => per_tuple sp_cost + plan_run_cost
      end in
    if bool_decide (parParam subplan = []) && ExecMaterializesOutput (plan_tag plan)
    then Ok (mkQualCost (startup sp_cost + plan_startup_cost plan) per_tuple')
    else Ok (mkQualCost (startup sp_cost) (per_tuple' + plan_startup_cost plan)).

(** [(rescan_startup_cost, rescan_total_cost)] *)
Definition cost_rescan (path : Path) : Cost * Cost :=
  match pathtype path with
  | T_FunctionScan => (i2d 0, total_cost path - startup_cost path)
  | T_HashJoin =>
      match extra path with
      | XHashPath _ _ _ _ _ _ num_batches =>
          if (num_batches =? 1)%Z then (i2d 0, total_cost path - startup_cost path)
          else (startup_cost path, total_cost path)
      | _ => (startup_cost path, total_cost path)
      end
  | T_CteScan | T_WorkTableScan =>
      (i2d 0, (spill_cost (cpu_tuple_cost * rows path) (rows path) (width (pathtarget path))).1)
  | T_Material | T_Sort =>
      (i2d 0, (spill_cost (cpu_operator_cost * rows path) (rows path) (width (pathtarget path))).1)
  | _ => (startup_cost path, total_cost path)
  end.

(** ** What the costs guarantee *)

Context `{!CatalogLaws, !LibmOrder} (So : settings_ok).

Lemma seq_page_nonneg : nonneg seq_page_cost = true.
Proof. apply (seq_page_cost_ok So). Qed.
Lemma random_page_nonneg : nonneg random_page_cost = true.
Proof. apply (random_page_cost_ok So). Qed.
Lemma two_nonneg : nonneg (i2d 2) = true.
Proof. reflexivity. Qed.
#[local] Hint Resolve seq_page_nonneg random_page_nonneg two_nonneg : nneg.

Lemma MAXALIGN_nonneg n : 0 <= n -> 0 <= MAXALIGN n.
Proof. intros. unfold MAXALIGN. apply Z.land_nonneg. left. lia. Qed.

Lemma relation_byte_size_nonneg tuples width : nonneg tuples = true -> 0 <= width ->
  nonneg (relation_byte_size tuples width) = true.
Proof.
  intros Ht Hw. apply nonneg_mul; [exact Ht|]. apply nonneg_i2d.
  pose proof (MAXALIGN_nonneg width Hw). pose proof (MAXALIGN_nonneg SizeofHeapTupleHeader). unfold SizeofHeapTupleHeader in *.
  lia.
Qed.

Lemma merge_order_range mem : MINORDER <= tuplesort_merge_order mem <= MAXORDER.
Proof. unfold tuplesort_merge_order, MINORDER, MAXORDER. lia. Qed.

Lemma one_le_log x : (i2d 1 <=? x) = true -> nonneg (log x) = true.
Proof. apply log_ge_1. Qed.

(** [x] is a number not below [n]. *)
Lemma not_lt_le x n : 0 <= n -> isnan x = false -> (x <? i2d n) = false -> (i2d n <=? x) = true.
Proof.
  intros Hn Nx E. rewrite dlt_sval in E by (assumption || apply isnan_i2d).
  rewrite dle_sval by (assumption || apply isnan_i2d). lia.
Qed.

Lemma dle_trans_i2d x m n : 0 <= m <= n -> (i2d n <=? x) = true -> (i2d m <=? x) = true.
Proof.
  intros Hm E. assert (isnan x = false) as Nx by (destruct (isnan x) eqn:N; [rewrite dle_nan_r in E by exact N|]; done).
  rewrite dle_sval in * by (assumption || apply isnan_i2d).
  rewrite sval_nonneg in * by (apply nonneg_i2d; lia). pose proof (cle_i2d m n). unfold cle in *. lia.
Qed.

Lemma double_ge_one x : nonneg x = true -> (i2d 1 <=? x) = true -> (i2d 1 <=? i2d 2 * x) = true.
Proof.
  intros Hx Hle. apply dle_iff in Hle as [L Nx]; [|reflexivity|exact Hx]. rewrite dmul_comm.
  apply cle_dle; [reflexivity|auto with nneg| |].
  - apply isnan_mul_pos; [exact Hx|reflexivity|exact Nx|apply finite_i2d; lia|]. rewrite cmag_i2d by lia. lia.
  - transitivity x; [unfold cle; lia|].
    apply cle_scale; [exact Hx|reflexivity|apply finite_i2d; lia|apply cle_i2d; lia].
Qed.

Lemma dle_one_nonneg x : (i2d 1 <=? x) = true -> nonneg x = true.
Proof.
  intros E. destruct (nonneg x) eqn:N; [reflexivity|]. rewrite dle_sval in E by (reflexivity || apply neg_isnan, N).
  unfold sval in E. rewrite N in E. pose proof (cmag_range x). change (nonneg (i2d 1)) with true in E.
  cbv iota in E. rewrite cmag_one in E. lia.
Qed.

(** The steps of a sort only add to the cost of its input. *)
Lemma sort_startup_ok en s tuples out ib ob cmp mem : startup_ok en s ->
  (i2d 1 <=? tuples) = true -> (i2d 1 <=? out) = true -> nonneg ib = true -> nonneg cmp = true -> 0 < mem ->
  startup_ok en (sort_startup s tuples out ib ob cmp mem).1 /\ s ⊑ (sort_startup s tuples out ib ob cmp mem).1.
Proof.
  intros Hs Ht Ho Hib Hc Hm. pose proof (dle_one_nonneg _ Ht) as Nt. pose proof (dle_one_nonneg _ Ho) as No.
  pose proof (nonneg_LOG2 _ Ht) as HL. pose proof (nonneg_LOG2 _ (double_ge_one _ No Ho)) as HL2.
  assert (forall b, nonneg b = true -> startup_ok en (s + b) /\ s ⊑ s + b) as Add.
  { intros b Hb. split; [auto with nneg|]. apply cle_add_l; [apply Hs|exact Hb]. }
  unfold sort_startup. destruct (ob >? i2d mem).
  2:{ destruct (_ || _); apply Add; auto with nneg. }
  cbn [fst]. set (mo := i2d (tuplesort_merge_order mem)). pose proof (merge_order_range mem) as R. unfold MINORDER in R.
  assert (nonneg mo = true) as Hmo by (apply nonneg_i2d; lia).
  assert (nonneg (i2d mem) = true) as Hmem by (apply nonneg_i2d; lia).
  assert (nonneg (if ib / i2d mem >? mo then ceil (log (ib / i2d mem) / log mo) else i2d 1) = true) as Hlr.
  { destruct (ib / i2d mem >? mo) eqn:E; [|reflexivity].
    assert ((i2d 1 <=? mo) = true) as L1 by (apply cle_dle; [reflexivity|exact Hmo|apply isnan_i2d|apply cle_i2d; lia]).
    apply dlt_iff in E as [E1 E2]; [|auto with nneg..].
    assert (i2d 1 ⊑ mo) as L2 by (apply cle_i2d; lia).
    apply nonneg_ceil, nonneg_div; apply log_ge_1; [|exact L1].
    apply cle_dle; [reflexivity|auto with nneg|exact E2|]. unfold cle in *. lia. }
  destruct (Add (cmp * tuples * LOG2 tuples)) as [A1 A2]; [auto with nneg|]. split.
  - apply startup_add; [exact A1|]. assert (nonneg (i2d BLCKSZ) = true) by reflexivity.
    assert (nonneg (dlit 75 100) = true) by reflexivity. assert (nonneg (dlit 25 100) = true) by reflexivity.
    auto 14 with nneg.
  - etransitivity; [exact A2|]. apply cle_add_l; [apply A1|]. assert (nonneg (i2d BLCKSZ) = true) by reflexivity.
    assert (nonneg (dlit 75 100) = true) by reflexivity. assert (nonneg (dlit 25 100) = true) by reflexivity.
    auto 14 with nneg.
Qed.

Lemma cost_sort_ok path input_cost tuples width cmp sort_mem limit :
  nonneg input_cost = true -> nonneg tuples = true -> isnan tuples = false -> 0 <= width -> nonneg cmp = true ->
  0 < sort_mem -> (limit >? i2d 0) = false \/ (i2d 1 <=? limit) = true ->
  let p := cost_sort path input_cost tuples width cmp sort_mem limit in
  costed p /\ startup_ok enable_sort (startup_cost p) /\ input_cost ⊑ startup_cost p /\ rows p = tuples.
Proof.
  intros Hi Ht Nt Hw Hc Hm Hl p. unfold p, cost_sort. clear p.
  pose proof (relation_byte_size_nonneg tuples width Ht Hw) as Hib.
  set (t := if tuples <? i2d 2 then i2d 2 else tuples).
  assert ((i2d 1 <=? t) = true) as L1.
  { apply (dle_trans_i2d t 1 2); [lia|]. unfold t. destruct (tuples <? i2d 2) eqn:E; [reflexivity|].
    apply not_lt_le; [lia|assumption..]. }
  set (o := if (limit >? i2d 0) && (limit <? t) then (limit, relation_byte_size limit width)
            else (t, relation_byte_size tuples width)).
  assert ((i2d 1 <=? o.1) = true) as Lo.
  { unfold o. destruct (limit >? i2d 0); [|exact L1]. destruct (limit <? t); [|exact L1].
    destruct Hl as [Hl|Hl]; [discriminate|exact Hl]. }
  destruct o as [ot ob]. cbn [fst] in Lo.
  destruct (sort_startup_ok enable_sort (disabled enable_sort input_cost) t ot (relation_byte_size tuples width) ob
    (cmp + i2d 2 * cpu_operator_cost) (sort_mem * 1024)) as [S1 S2]; [auto with nneg..|lia|].
  destruct (sort_startup _ _ _ _ _ _ _) as [s io]. cbn [fst] in *. pose proof (dle_one_nonneg _ L1).
  edestruct costs_ok_run as (p & E & HP & HS); [..|injection E as <-; split_and!; [exact HP|exact HS| |reflexivity]].
  1-3: auto with nneg.
  cbn. etransitivity; [|exact S2]. unfold disabled. destruct enable_sort; [reflexivity|apply cle_add_l; auto with nneg].
Qed.

(** For a row count that is a number, sorting costs at least its input: cost_sort gives a
    costed path with the input's rows whose startup cost is at least the cost of the input,
    and at least disable_cost when sorting is disabled, whichever of the disk merge, bounded
    heap or quicksort estimates applies. *)
Theorem cost_sort_costed path input_cost tuples width cmp sort_mem limit :
  nonneg input_cost = true -> nonneg tuples = true -> isnan tuples = false -> 0 <= width -> nonneg cmp = true ->
  0 < sort_mem -> (limit >? i2d 0) = false \/ (i2d 1 <=? limit) = true ->
  let p := cost_sort path input_cost tuples width cmp sort_mem limit in
  costed p /\ startup_ok enable_sort (startup_cost p) /\ input_cost ⊑ startup_cost p /\ rows p = tuples.
Proof. apply cost_sort_ok. Qed.

(** ** Agg *)

(** As the note in cost_agg demands, sorted and hashed aggregation of the same input have
    bit for bit the same total cost (and rows, CPU and power cost), because both form the same
    sums in the same order; the sorted one has the lower startup cost.  So the tie is decided
    in favour of AGG_SORTED. *)
Theorem cost_agg_sorted_hashed path aggcosts cols groups istart itotal tuples :
  enable_hashagg = true -> 0 <= cols -> nonneg tuples = true -> nonneg istart = true -> nonneg itotal = true ->
  istart ⊑ itotal -> qual_cost_ok (transCost (agg_clause_costs aggcosts)) ->
  let sorted := cost_agg path AGG_SORTED aggcosts cols groups istart itotal tuples in
  let hashed := cost_agg path AGG_HASHED aggcosts cols groups istart itotal tuples in
  total_cost sorted = total_cost hashed /\ power_cost sorted = power_cost hashed
  /\ cpu_cost sorted = cpu_cost hashed /\ rows sorted = rows hashed
  /\ startup_cost sorted ⊑ startup_cost hashed.
Proof.
  intros He Hc Ht Hs Htot Hle [Q1 Q2]. unfold cost_agg, disabled. rewrite He. cbn.
  split_and!; try reflexivity. assert (nonneg (i2d cols) = true) by (apply nonneg_i2d, Hc).
  etransitivity; [exact Hle|]. etransitivity; [apply cle_add_l; [exact Htot|exact Q1]|].
  etransitivity; apply cle_add_l; auto 8 with nneg.
Qed.

Lemma cost_agg_ok path strategy aggcosts cols groups istart itotal tuples :
  0 <= cols -> nonneg tuples = true -> nonneg groups = true -> nonneg istart = true -> nonneg itotal = true ->
  istart ⊑ itotal -> qual_cost_ok (transCost (agg_clause_costs aggcosts)) ->
  nonneg (finalCost (agg_clause_costs aggcosts)) = true ->
  costed (cost_agg path strategy aggcosts cols groups istart itotal tuples).
Proof.
  intros Hc Ht Hg Hs Htot Hle [Q1 Q2] Hf. assert (nonneg (i2d cols) = true) by (apply nonneg_i2d, Hc).
  assert (nonneg (i2d 1) = true) by reflexivity. unfold cost_agg.
  assert (startup_ok true (istart + disable_cost)) as [Sd _] by auto with nneg.
  pose proof (startup_disabled So enable_hashagg itotal Htot) as [Sh _].
  destruct strategy; cbn [bool_decide andb]; try (destruct enable_hashagg); cbn [negb andb] in *;
    rewrite ?bool_decide_eq_true_2, ?bool_decide_eq_false_2 by (reflexivity || discriminate); cbn [negb andb].
  all: split; cbn [rows startup_cost total_cost power_cost set_path_costs];
    [auto 4 with nneg|auto 12 with nneg| |auto 14 with nneg|apply count_power_cost_bounded].
  all: repeat (reflexivity || exact Hle || (apply cle_add; [auto 12 with nneg..|exact Hle|reflexivity])
    || (etransitivity; [|apply cle_add_l; auto 14 with nneg])).
Qed.

(** ** MergeAppend, Group, Material, WindowAgg *)

Lemma streams_ge_one n : (i2d 1 <=? (if (n <? 2)%Z then i2d 2 else i2d n)) = true.
Proof.
  destruct (Z.ltb_spec n 2); [reflexivity|].
  apply cle_dle; [reflexivity|apply nonneg_i2d; lia|apply isnan_i2d|apply cle_i2d; lia].
Qed.

Lemma cost_merge_append_ok path n istart itotal tuples : nonneg (rows path) = true -> nonneg tuples = true ->
  nonneg istart = true -> nonneg itotal = true -> istart ⊑ itotal ->
  costed (cost_merge_append path n istart itotal tuples).
Proof.
  intros Hr Ht Hs Htot Hle. pose proof (nonneg_LOG2 _ (streams_ge_one n)) as HL.
  pose proof (dle_one_nonneg _ (streams_ge_one n)) as HN. unfold cost_merge_append.
  split; cbn [rows startup_cost total_cost power_cost set_path_costs];
    [exact Hr|auto 12 with nneg| |auto 14 with nneg|apply count_power_cost_bounded].
  apply cle_add; auto 14 with nneg. apply cle_add_l; auto 14 with nneg.
Qed.

Lemma spill_cost_ok run tuples width : nonneg run = true -> nonneg tuples = true -> 0 <= width ->
  nonneg (spill_cost run tuples width).1 = true /\ run ⊑ (spill_cost run tuples width).1.
Proof.
  intros Hr Ht Hw. pose proof (relation_byte_size_nonneg tuples width Ht Hw) as Hb.
  assert (nonneg (i2d BLCKSZ) = true) by reflexivity. unfold spill_cost.
  destruct (_ >? i2d (work_mem * 1024)); cbn [fst]; [|split; [exact Hr|reflexivity]].
  split; [auto 8 with nneg|apply cle_add_l; auto 8 with nneg].
Qed.

Lemma cost_material_ok path istart itotal tuples width : nonneg tuples = true -> 0 <= width ->
  nonneg istart = true -> nonneg itotal = true -> istart ⊑ itotal ->
  costed (cost_material path istart itotal tuples width).
Proof.
  intros Ht Hw Hs Htot Hle. pose proof (nonneg_sub _ _ Htot Hs Hle) as Hrun. unfold cost_material.
  destruct (spill_cost_ok (itotal - istart + i2d 2 * cpu_operator_cost * tuples) tuples width) as [S1 _];
    [auto 8 with nneg|assumption..|].
  destruct (spill_cost _ _ _) as [run io]. cbn [fst] in S1.
  split; cbn [rows startup_cost total_cost power_cost set_path_costs];
    [auto with nneg..|apply cle_add_l; assumption|auto with nneg|apply count_power_cost_bounded].
Qed.

Lemma cost_group_ok path cols groups istart itotal tuples : 0 <= cols -> nonneg tuples = true ->
  nonneg groups = true -> nonneg istart = true -> nonneg itotal = true -> istart ⊑ itotal ->
  costed (cost_group path cols groups istart itotal tuples).
Proof.
  intros Hc Ht Hg Hs Htot Hle. assert (nonneg (i2d cols) = true) by (apply nonneg_i2d, Hc).
  split; cbn [rows startup_cost total_cost power_cost set_path_costs cost_group];
    [auto with nneg..| |auto 8 with nneg|apply count_power_cost_bounded].
  etransitivity; [exact Hle|apply cle_add_l; auto 8 with nneg].
Qed.

Definition windowfunc_ok (wf : WindowFuncNode) : Prop :=
  Forall node_ok (wfargs wf) /\ Forall planned (wfargs wf)
  /\ match aggfilter wf with Some f => node_ok f /\ planned f | None => True end.

Lemma windowagg_loop_ok wfs tuples : Forall windowfunc_ok wfs -> nonneg tuples = true -> forall s t,
  nonneg s = true -> nonneg t = true ->
  exists s' t', windowagg_loop wfs tuples s t = Ok (s', t') /\ nonneg s' = true /\ nonneg t' = true
    /\ s ⊑ s' /\ t ⊑ t'.
Proof.
  intros Hw Ht. induction Hw as [|wf wfs [Hok [Hpl Hf]] _ IH]; intros s t Hs Htot; cbn [windowagg_loop].
  { eexists _, _. split_and!; reflexivity || assumption. }
  destruct (cost_qual_eval_total So _ Hok Hpl) as (q & c & -> & C1 & C2). cbn [rbind].
  assert (exists c', match aggfilter wf with
    | Some f => let! (_, c) := cost_qual_eval_node f in Ok c | None => Ok zero_qual_cost end = Ok c'
    /\ qual_cost_ok c') as (c' & -> & D1 & D2).
  { destruct (aggfilter wf) as [f|]; [|eexists; split; [reflexivity|apply zero_qual_cost_ok]].
    destruct (cost_qual_eval_node_ok So f (proj1 Hf) (proj2 Hf)) as (n' & c' & -> & Hc'). eexists; eauto. }
  cbn [rbind]. pose proof (op_cost_nonneg (walker_settings So) (winfnoid wf)) as Hop.
  match goal with |- context [windowagg_loop wfs tuples ?a ?b] =>
    destruct (IH a b) as (s' & t' & -> & S1 & T1 & S2 & T2) end; [auto 8 with nneg..|].
  eexists _, _. split_and!; [reflexivity|assumption..| |].
  - etransitivity; [|exact S2]. etransitivity; apply cle_add_l; auto with nneg.
  - etransitivity; [|exact T2]. apply cle_add_l; auto 8 with nneg.
Qed.

(** The nodes that merge, store, group and aggregate a costed input are costed: startup
    cost not negative and at most the total cost, power cost at most 80; and cost_windowagg
    returns for planned window functions with at least the cost of its input. *)
Theorem upper_nodes_costed path input width strategy aggcosts cols groups n wfs part order :
  costed input -> nonneg (rows path) = true -> 0 <= width -> 0 <= cols -> nonneg groups = true ->
  qual_cost_ok (transCost (agg_clause_costs aggcosts)) -> nonneg (finalCost (agg_clause_costs aggcosts)) = true ->
  Forall windowfunc_ok wfs -> 0 <= part -> 0 <= order ->
  let istart := startup_cost input in let itotal := total_cost input in let r := rows input in
  costed (cost_merge_append path n istart itotal r)
  /\ costed (cost_material path istart itotal r width)
  /\ costed (cost_group path cols groups istart itotal r)
  /\ costed (cost_agg path strategy aggcosts cols groups istart itotal r)
  /\ exists p, cost_windowagg path wfs part order istart itotal r = Ok p
       /\ istart ⊑ startup_cost p /\ itotal ⊑ total_cost p /\ (power_cost p >? i2d 80) = false.
Proof.
  intros [Hr Hs Hle Ht _] Hrp Hw Hc Hg Ha Hf Hwf Hpart Horder. cbv zeta. split_and!.
  - apply cost_merge_append_ok; assumption.
  - apply cost_material_ok; assumption.
  - apply cost_group_ok; assumption.
  - apply cost_agg_ok; assumption.
  - destruct (windowagg_loop_ok wfs (rows input) Hwf Hr _ _ Hs Ht) as (s' & t' & E & S1 & T1 & S2 & T2).
    unfold cost_windowagg. rewrite E. cbn [rbind].
    assert (nonneg (i2d (part + order)) = true) by (apply nonneg_i2d; lia).
    eexists. split; [reflexivity|]. cbn [startup_cost total_cost power_cost set_path_costs].
    split_and!; [exact S2| |apply count_power_cost_bounded].
    etransitivity; [exact T2|]. etransitivity; apply cle_add_l; auto 8 with nneg.
Qed.

(** ** Rescans *)

Lemma cost_rescan_ok path : costed path -> 0 <= PlanTypes.width (pathtarget path) ->
  nonneg (cost_rescan path).1 = true /\ nonneg (cost_rescan path).2 = true
  /\ (cost_rescan path).1 ⊑ (cost_rescan path).2.
Proof.
  intros [Hr Hs Hle Ht _] Hw. pose proof (nonneg_sub _ _ Ht Hs Hle) as Hrun.
  assert (forall x, nonneg x = true -> i2d 0 ⊑ x) as Z0.
  { intros x _. unfold cle. pose proof (cmag_range x). change (cmag (i2d 0)) with 0%Z. lia. }
  assert (forall c, nonneg c = true -> nonneg (spill_cost (c * rows path) (rows path) (PlanTypes.width (pathtarget path))).1 = true) as Hsp.
  { intros c Hc. apply spill_cost_ok; auto with nneg. }
  pose proof (Hsp _ (cpu_tuple_nonneg So)). pose proof (Hsp _ (cpu_operator_nonneg So)).
  unfold cost_rescan. destruct (pathtype path); cbn [fst snd]; auto with nneg.
  destruct (extra path); cbn [fst snd]; auto. destruct (num_batches =? 1)%Z; cbn [fst snd]; auto with nneg.
Qed.

(** Rescanning a materialized path never costs more than materializing it did, for any
    costed input and finite row count: cost_rescan charges cpu_operator_cost per row where
    cost_material charged twice that, and the same page reads when the rows spill to disk. *)
Theorem material_rescan_cheaper path input w :
  pathtype path = T_Material -> PlanTypes.width (pathtarget path) = w -> 0 <= w -> costed input -> finite (rows input) ->
  let p := cost_material path (startup_cost input) (total_cost input) (rows input) w in
  (cost_rescan p).2 ⊑ total_cost p /\ (cost_rescan p).1 = i2d 0.
Proof.
  intros Hty Hw Hw0 [Hr Hs Hle Ht _] Hf. pose proof (nonneg_sub _ _ Ht Hs Hle) as Hrun.
  unfold cost_material. set (run := total_cost input - startup_cost input + i2d 2 * cpu_operator_cost * rows input).
  assert (nonneg run = true) as Nrun by (unfold run; auto 8 with nneg).
  assert (cpu_operator_cost * rows input ⊑ run) as L.
  { unfold run. etransitivity; [|apply cle_add_r; auto 8 with nneg].
    apply cle_mul_r; [auto with nneg..|exact Hf|]. rewrite dmul_comm.
    apply cle_scale; [auto with nneg|reflexivity|apply finite_i2d; lia|apply cle_i2d; lia]. }
  pose proof (relation_byte_size_nonneg (rows input) w Hr Hw0). assert (nonneg (i2d BLCKSZ) = true) by reflexivity.
  unfold cost_rescan, spill_cost. destruct (relation_byte_size (rows input) w >? i2d (work_mem * 1024)) eqn:E;
    cbn [pathtype set_path_costs rows pathtarget total_cost]; rewrite Hty, Hw; cbn [fst snd]; rewrite E;
    (split; [|reflexivity]); cbn [fst].
  - etransitivity; [|apply cle_add_r; auto 10 with nneg]. apply cle_add; auto 10 with nneg. reflexivity.
  - etransitivity; [exact L|]. apply cle_add_r; auto with nneg.
Qed.

(** ** SubPlans *)

Lemma half_nneg : nonneg (dlit 1 2) = true.
Proof. reflexivity. Qed.
#[local] Hint Resolve half_nneg : nneg.

(** Costing a SubPlan with a planned test expression over a plan with ordered costs
    returns and neither cost is negative; with the same plan, an EXISTS subplan is charged at
    most as much per call as a subplan whose rows are all read. *)
Theorem cost_subplan_spec sp plan :
  Forall node_ok (testexpr sp) -> Forall planned (testexpr sp) ->
  nonneg (plan_startup_cost plan) = true -> nonneg (plan_total_cost plan) = true ->
  plan_startup_cost plan ⊑ plan_total_cost plan -> nonneg (plan_rows plan) = true ->
  finite (clamp_row_est (plan_rows plan)) -> useHashTable sp = false ->
  exists c e, cost_subplan sp plan = Ok c /\ qual_cost_ok c
    /\ cost_subplan (mkSubPlanInput EXISTS_SUBLINK (testexpr sp) false (parParam sp)) plan = Ok e
    /\ (subLinkType sp = EXPR_SUBLINK -> per_tuple e ⊑ per_tuple c).
Proof.
  intros Hn Hpl Hs Ht Hle Hr Hf Hh. destruct (cost_qual_eval_total So _ Hn Hpl) as (q & c & Ec & C1 & C2).
  pose proof (nonneg_sub _ _ Ht Hs Hle) as Hrun. destruct (clamp_row_est_ok (plan_rows plan)) as [K1 K2].
  assert (nonneg ((plan_total_cost plan - plan_startup_cost plan) / clamp_row_est (plan_rows plan)) = true) by auto with nneg.
  assert (per_tuple c + (plan_total_cost plan - plan_startup_cost plan) / clamp_row_est (plan_rows plan)
    ⊑ per_tuple c + (plan_total_cost plan - plan_startup_cost plan)) as L.
  { apply cle_add; try assumption; [reflexivity|]. apply cle_div; assumption. }
  unfold cost_subplan. cbn [testexpr useHashTable subLinkType parParam]. rewrite Ec, Hh. cbn [rbind].
  destruct (bool_decide (parParam sp = []) && ExecMaterializesOutput (plan_tag plan));
    (eexists _, _; split_and!; [reflexivity| |reflexivity|]).
  1,3: split; cbn [startup per_tuple]; destruct (subLinkType sp); auto 8 with nneg.
  - intros ->. exact L.
  - intros ->. cbn [per_tuple]. apply cle_add; auto with nneg. reflexivity.
Qed.

End node.

(** ** Concrete inputs *)

#[local] Existing Instance default_settings.

Lemma cost_sort_costed_witness :
  let p := cost_sort scan_path (i2d 100) (i2d 100000) 100 (i2d 0) 4096 (i2d (-1)) in
  costed p /\ startup_ok enable_sort (startup_cost p) /\ i2d 100 ⊑ startup_cost p /\ rows p = i2d 100000.
Proof.
  exact (cost_sort_costed default_settings_ok scan_path (i2d 100) (i2d 100000) 100 (i2d 0) 4096 (i2d (-1))
    eq_refl eq_refl eq_refl ltac:(lia) eq_refl ltac:(lia) (or_introl eq_refl)).
Defined.

Lemma cost_agg_sorted_hashed_witness :
  let sorted := cost_agg scan_path AGG_SORTED None 1 (i2d 10) (i2d 1) (i2d 10) (i2d 1000) in
  let hashed := cost_agg scan_path AGG_HASHED None 1 (i2d 10) (i2d 1) (i2d 10) (i2d 1000) in
  total_cost sorted = total_cost hashed /\ power_cost sorted = power_cost hashed
  /\ cpu_cost sorted = cpu_cost hashed /\ rows sorted = rows hashed
  /\ startup_cost sorted ⊑ startup_cost hashed.
Proof.
  exact (cost_agg_sorted_hashed default_settings_ok scan_path None 1 (i2d 10) (i2d 1) (i2d 10) (i2d 1000)
    eq_refl ltac:(lia) eq_refl eq_refl eq_refl (co_ordered _ sample_costed) (conj eq_refl eq_refl)).
Defined.

Definition sample_wfunc : WindowFuncNode := mkWindowFunc 3100 [Var 1 1] None.

Lemma sample_wfunc_ok : windowfunc_ok sample_wfunc.
Proof. split_and!; repeat (constructor || discriminate). Qed.

Lemma upper_nodes_costed_witness :
  let input := sample_path (i2d 1) (i2d 10) (i2d 40) in
  let istart := startup_cost input in let itotal := total_cost input in let r := rows input in
  costed (cost_merge_append scan_path 3 istart itotal r)
  /\ costed (cost_material scan_path istart itotal r 8)
  /\ costed (cost_group scan_path 1 (i2d 10) istart itotal r)
  /\ costed (cost_agg scan_path AGG_HASHED None 1 (i2d 10) istart itotal r)
  /\ exists p, cost_windowagg scan_path [sample_wfunc] 1 1 istart itotal r = Ok p
       /\ istart ⊑ startup_cost p /\ itotal ⊑ total_cost p /\ (power_cost p >? i2d 80) = false.
Proof.
  exact (upper_nodes_costed default_settings_ok scan_path _ 8 AGG_HASHED None 1 (i2d 10) 3 [sample_wfunc] 1 1
    sample_costed eq_refl ltac:(lia) ltac:(lia) eq_refl (conj eq_refl eq_refl) eq_refl
    (Forall_cons_2 _ _ _ sample_wfunc_ok (Forall_nil_2 _)) ltac:(lia) ltac:(lia)).
Defined.

(** A Material node over the sample relation. *)
Definition material_path : Path :=
  makePath T_Material sample_rel sample_target (XMaterialPath scan_path).

Lemma material_rescan_cheaper_witness :
  let input := sample_path (i2d 1) (i2d 10) (i2d 40) in
  let p := cost_material material_path (startup_cost input) (total_cost input) (rows input) 8 in
  (cost_rescan p).2 ⊑ total_cost p /\ (cost_rescan p).1 = i2d 0.
Proof.
  exact (material_rescan_cheaper default_settings_ok material_path _ 8 eq_refl eq_refl ltac:(lia)
    sample_costed (finite_i2d 10000 ltac:(lia) ltac:(lia))).
Defined.

Definition sample_subplan : SubPlanInput := mkSubPlanInput EXPR_SUBLINK [sample_qual] false [1].
Definition sample_plan : PlanInput := mkPlanInput T_SeqScan (i2d 1) (i2d 10) (i2d 100).

Lemma cost_subplan_spec_witness :
  exists c e, cost_subplan sample_subplan sample_plan = Ok c /\ qual_cost_ok c
    /\ cost_subplan (mkSubPlanInput EXISTS_SUBLINK (testexpr sample_subplan) false (parParam sample_subplan))
         sample_plan = Ok e
    /\ (subLinkType sample_subplan = EXPR_SUBLINK -> per_tuple e ⊑ per_tuple c).
Proof.
  exact (cost_subplan_spec default_settings_ok sample_subplan sample_plan
    (Forall_cons_2 _ _ _ sample_qual_ok (Forall_nil_2 _)) (Forall_cons_2 _ _ _ sample_qual_planned (Forall_nil_2 _))
    eq_refl eq_refl (co_ordered _ sample_costed) eq_refl
    (finite_i2d 100 ltac:(lia) ltac:(lia)) eq_refl).
Defined.

(** A window function over an argument with a startup cost of 1000 (a hashed SubPlan). *)
Definition costly_wfunc : WindowFuncNode := mkWindowFunc 3100 [SubPlan (i2d 1000) (i2d 0) (Const false true) []] None.

(** cost_windowagg adds the startup cost of the window functions' arguments to the startup
    cost but not to the total cost, so its startup cost can exceed its total cost: here 1001
    against less than 4. *)
Theorem cost_windowagg_startup_exceeds_total :
  exists p, cost_windowagg scan_path [costly_wfunc] 0 0 (i2d 1) (i2d 2) (i2d 100) = Ok p
    /\ startup_cost p = i2d 1001 /\ (total_cost p <? i2d 4) = true
    /\ (startup_cost p <=? total_cost p) = false.
Proof. eexists. split; [reflexivity|]. split_and!; vm_compute; reflexivity. Qed.
