(* ===== verification/HashSize.v ===== *)
(** The size of a hash join's table (executor/nodeHash.c,
    ExecChooseHashTableSize, and my_log2 of utils/hash/dynahash.c): numbers of
    buckets and batches, with the C integer types of a 64-bit platform. *)
From Stdlib Require SpecFloat.
From S2P Require Import Prelude Float64 Double DoubleOrder DoubleDiv Bitmapset PlanTypes Samples CostBase.
Open Scope double_scope.

Definition LONG_MAX : Z := 2 ^ 63 - 1.
Definition MaxAllocSize : Z := 1073741823.
Definition sizeof_pointer : Z := 8.
Definition HJTUPLE_OVERHEAD : Z := MAXALIGN 16.
Definition SizeofMinimalTupleHeader : Z := 15.
Definition SKEW_BUCKET_OVERHEAD : Z := MAXALIGN 16.
Definition SKEW_WORK_MEM_PERCENT : Z := 2.
Definition NTUP_PER_BUCKET : Z := 1.

(** The loop [for (i = 0, limit = 1; limit < num; i++, limit <<= 1)]; [num] is at
    most 2^62, so 63 rounds are enough. *)
Fixpoint my_log2_loop (fuel : nat) (i limit num : Z) : Z :=
  match fuel with
  | O => i
  | S fuel => if (limit <? num)%Z then my_log2_loop fuel (i + 1) (Z.shiftl limit 1) num else i
  end.

Definition my_log2 (num : Z) : Z :=
  let num := if (num >? LONG_MAX / 2)%Z then (LONG_MAX / 2)%Z else num in
  my_log2_loop 63 0 1 num.

(** The loop [while (nbatch < minbatch) nbatch <<= 1]; [None] when the shift
    leaves the range of int. *)
Fixpoint batch_loop (fuel : nat) (nbatch minbatch : Z) : option Z :=
  match fuel with
  | O => None
  | S fuel =>
      if (nbatch <? minbatch)%Z then
        let n := Z.shiftl nbatch 1 in
        if (n >? INT_MAX)%Z then None else batch_loop fuel n minbatch
      else Some nbatch
  end.

Section hash_size.
Context `{Settings}.

Definition hash_tupsize (tupwidth : Z) : Z :=
  (HJTUPLE_OVERHEAD + MAXALIGN SizeofMinimalTupleHeader + MAXALIGN tupwidth)%Z.

(** [(hash_table_bytes, num_skew_mcvs)]: the memory left after the skew table. *)
Definition skew_space (tupsize hash_table_bytes : Z) (useskew : bool) : Z * Z :=
  if useskew then
    let skew_table_bytes := Z.quot (hash_table_bytes * SKEW_WORK_MEM_PERCENT) 100 in
    let num_skew_mcvs := (skew_table_bytes / (tupsize + 8 * sizeof_pointer + 4 + SKEW_BUCKET_OVERHEAD))%Z in
    (if (num_skew_mcvs >? 0)%Z then hash_table_bytes - skew_table_bytes else hash_table_bytes, num_skew_mcvs)%Z
  else (hash_table_bytes, 0).

Definition max_pointers : Z :=
  let max_pointers := ((work_mem * 1024) / sizeof_pointer)%Z in
  let max_pointers := Z.min max_pointers (MaxAllocSize / sizeof_pointer) in
  let mppow2 := Z.shiftl 1 (my_log2 max_pointers) in
  let max_pointers := if negb (max_pointers =? mppow2)%Z then (mppow2 / 2)%Z else max_pointers in
  Z.min max_pointers (INT_MAX / 2).

(** The number of buckets when the table is filled in several batches. *)
Definition batch_buckets (tupsize hash_table_bytes : Z) : Z :=
  let bucket_size := (tupsize * NTUP_PER_BUCKET + sizeof_pointer)%Z in
  let lbuckets := Z.shiftl 1 (my_log2 (hash_table_bytes / bucket_size)) in
  let lbuckets := Z.min lbuckets max_pointers in
  Z.shiftl 1 (my_log2 lbuckets).

(** [(numbuckets, numbatches, num_skew_mcvs)]; [None] for a conversion or shift
    that C leaves undefined. *)
Definition ExecChooseHashTableSize (ntuples : double) (tupwidth : Z) (useskew : bool) : option (Z * Z * Z) :=
  let ntuples := if ntuples <=? i2d 0 then i2d 1000 else ntuples in
  let tupsize := hash_tupsize tupwidth in
  let inner_rel_bytes := ntuples * i2d tupsize in
  let hash_table_bytes := (work_mem * 1024)%Z in
  let (hash_table_bytes, num_skew_mcvs) := skew_space tupsize hash_table_bytes useskew in
  let dbuckets := ceil (ntuples / i2d NTUP_PER_BUCKET) in
  let dbuckets := dMin dbuckets (i2d max_pointers) in
  nbuckets ← d2int dbuckets;
  let nbuckets := Z.max nbuckets 1024 in
  let nbuckets := Z.shiftl 1 (my_log2 nbuckets) in
  let bucket_bytes := (sizeof_pointer * nbuckets)%Z in
  if inner_rel_bytes + i2d bucket_bytes >? i2d hash_table_bytes then
    let nbuckets := batch_buckets tupsize hash_table_bytes in
    let bucket_bytes := (nbuckets * sizeof_pointer)%Z in
    let dbatch := ceil (inner_rel_bytes / i2d (hash_table_bytes - bucket_bytes)) in
    let dbatch := dMin dbatch (i2d max_pointers) in
    minbatch ← d2int dbatch;
    nbatch ← batch_loop 32 2 minbatch;
    Some (nbuckets, nbatch, num_skew_mcvs)
  else Some (nbuckets, 1, num_skew_mcvs).

(** ** Powers of two *)

Lemma my_log2_loop_spec fuel i num : 0 <= i -> num <= 2 ^ (i + Z.of_nat fuel) ->
  let k := my_log2_loop fuel i (2 ^ i) num in
  i <= k /\ num <= 2 ^ k /\ (i < k -> 2 ^ (k - 1) < num).
Proof.
  revert i. induction fuel as [|fuel IH]; intros i Hi Hn; cbn [my_log2_loop]; cbv zeta.
  - rewrite Z.add_0_r in Hn. split_and!; lia.
  - destruct (Z.ltb_spec (2 ^ i) num) as [L|L]; [|split_and!; lia].
    replace (Z.shiftl (2 ^ i) 1) with (2 ^ (i + 1))%Z by (rewrite Z.shiftl_mul_pow2, pow2_split by lia; reflexivity).
    destruct (IH (i + 1)%Z ltac:(lia)) as (I1 & I2 & I3).
    { rewrite Nat2Z.inj_succ in Hn. replace (i + 1 + Z.of_nat fuel)%Z with (i + Z.succ (Z.of_nat fuel))%Z by lia. exact Hn. }
    split_and!; [lia|exact I2|]. intros _.
    destruct (decide (my_log2_loop fuel (i + 1) (2 ^ (i + 1)) num = i + 1)%Z) as [E|E].
    + rewrite E. replace (i + 1 - 1)%Z with i by lia. exact L.
    + apply I3. lia.
Qed.

(** [my_log2] is the ceiling of the binary logarithm. *)
Lemma my_log2_spec num : num <= 2 ^ 62 ->
  0 <= my_log2 num /\ num <= 2 ^ my_log2 num /\ (1 < num -> 2 ^ (my_log2 num - 1) < num)
  /\ (num <= 1 -> my_log2 num = 0).
Proof.
  intros Hn. unfold my_log2, LONG_MAX. replace ((2 ^ 63 - 1) / 2)%Z with (2 ^ 62 - 1)%Z by reflexivity.
  assert (forall n, n <= 2 ^ 62 -> let k := my_log2_loop 63 0 1 n in
    0 <= k /\ n <= 2 ^ k /\ (1 < n -> 2 ^ (k - 1) < n) /\ (n <= 1 -> k = 0)) as Spec.
  { intros n Hn'. destruct (my_log2_loop_spec 63 0 n) as (I1 & I2 & I3); [lia|apply (Z.le_trans _ _ _ Hn'); apply pow2_le; lia|].
    change (2 ^ 0)%Z with 1%Z in *. cbv zeta. split_and!; [exact I1|exact I2| |].
    - intros L. apply I3. destruct (decide (my_log2_loop 63 0 1 n = 0)) as [E|E]; [rewrite E in I2; lia|lia].
    - intros L. cbn [my_log2_loop]. destruct (Z.ltb_spec 1 n); [lia|reflexivity]. }
  destruct (Z.gtb_spec num (2 ^ 62 - 1)) as [G|G]; [|apply Spec; lia].
  assert (num = 2 ^ 62)%Z as -> by lia. vm_compute. split_and!; intros; congruence.
Qed.

Lemma my_log2_pow2 c : 0 <= c <= 62 -> my_log2 (2 ^ c) = c.
Proof.
  intros Hc. destruct (my_log2_spec (2 ^ c)) as (I1 & I2 & I3 & I4); [apply pow2_le; lia|].
  apply Z.pow_le_mono_r_iff in I2; [|lia..]. destruct (decide (c = 0)) as [->|]; [apply I4; reflexivity|].
  assert (1 < 2 ^ c)%Z as L by (apply Z.pow_gt_1; lia). specialize (I3 L).
  apply Z.pow_lt_mono_r_iff in I3; lia.
Qed.

(** A power of two. *)
Definition pow2 (k n : Z) : Prop := n = (2 ^ k)%Z.

Lemma max_pointers_pow2 : settings_ok -> exists k, pow2 k max_pointers /\ 13 <= k <= 26.
Proof.
  intros So. pose proof (work_mem_ok So) as Hw. unfold max_pointers, sizeof_pointer, MaxAllocSize, INT_MAX, pow2.
  replace (work_mem * 1024 / 8)%Z with (work_mem * 128)%Z
    by (apply Z.div_unique_exact; lia).
  change (1073741823 / 8)%Z with 134217727%Z. change (2147483647 / 2)%Z with 1073741823%Z.
  set (mp := Z.min (work_mem * 128) 134217727).
  destruct (my_log2_spec mp) as (I1 & I2 & I3 & _); [lia|]. specialize (I3 ltac:(lia)).
  set (k := my_log2 mp) in *. rewrite Z.shiftl_1_l.
  assert (k <= 27) as K1.
  { assert (2 ^ (k - 1) < 2 ^ 27)%Z as L by lia. apply Z.pow_lt_mono_r_iff in L; lia. }
  assert (13 <= k) as K2.
  { assert (2 ^ 13 <= 2 ^ k)%Z as L by lia. apply Z.pow_le_mono_r_iff in L; lia. }
  destruct (Z.eqb_spec mp (2 ^ k)) as [E|E]; cbn [negb].
  - exists k. assert (k <> 27) by (intros ->; change (2 ^ 27)%Z with 134217728%Z in E; lia).
    pose proof (pow2_le k 26 ltac:(lia)). change (2 ^ 26)%Z with 67108864%Z in *. split; lia.
  - exists (k - 1)%Z. assert (k <> 13) by (intros ->; change (2 ^ 13)%Z with 8192%Z in *; lia).
    replace (2 ^ k / 2)%Z with (2 ^ (k - 1))%Z.
    + pose proof (pow2_le (k - 1) 26 ltac:(lia)). change (2 ^ 26)%Z with 67108864%Z in *. split; lia.
    + apply Z.div_unique_exact; [lia|]. rewrite <- (Z.pow_succ_r 2 (k - 1)) by lia. f_equal. lia.
Qed.

Lemma batch_loop_spec fuel i minbatch : 1 <= i <= 26 -> minbatch <= 2 ^ 26 -> 27 <= i + Z.of_nat fuel ->
  exists j, batch_loop fuel (2 ^ i) minbatch = Some (2 ^ j)%Z /\ i <= j <= 26 /\ minbatch <= 2 ^ j.
Proof.
  revert i. induction fuel as [|fuel IH]; intros i Hi Hm Hf; [lia|]. cbn [batch_loop].
  destruct (Z.ltb_spec (2 ^ i) minbatch) as [L|L]; [|exists i; split_and!; [reflexivity|lia|lia|lia]].
  replace (Z.shiftl (2 ^ i) 1) with (2 ^ (i + 1))%Z by (rewrite Z.shiftl_mul_pow2, pow2_split by lia; reflexivity).
  assert (i < 26) as Hi' by (destruct (decide (i = 26)) as [->|]; lia).
  pose proof (pow2_le (i + 1) 26 ltac:(lia)) as P. destruct (Z.gtb_spec (2 ^ (i + 1)) INT_MAX) as [G|_].
  { unfold INT_MAX in G. change (2 ^ 26)%Z with 67108864%Z in P. lia. }
  destruct (IH (i + 1)%Z) as (j & E & Hj & Hmj); [lia..|]. exists j. split_and!; [exact E|lia|lia|exact Hmj].
Qed.

Lemma d2int_bounded x n : nonneg x = true -> 0 <= n <= INT_MAX -> x ⊑ i2d n ->
  exists v, d2int x = Some v /\ 0 <= v <= n.
Proof.
  unfold INT_MAX. intros Hx Hn L. unfold cle in L. rewrite cmag_i2d in L by lia. unfold d2int.
  assert (finite x) as Fx.
  { pose proof (finite_i2d n ltac:(lia) ltac:(lia)) as F. unfold finite in *. rewrite cmag_i2d in F by lia. lia. }
  unfold finite, cmag in *. destruct x as [[[]|[]| |[] m e] V]; try discriminate; cbn [SF fmag] in *; try lia.
  { exists 0. split; [reflexivity|lia]. }
  pose proof (bounded_range _ _ V) as [B M].
  assert (0 <= (if (e <? 0)%Z then (Zpos m / 2 ^ (- e))%Z else (Zpos m * 2 ^ e)%Z) <= n) as R.
  { destruct (Z.ltb_spec e 0).
    - pose proof (pow2_pos (- e) ltac:(lia)). split; [apply Z.div_pos; lia|].
      apply Z.div_le_upper_bound; [lia|]. apply (Z.mul_le_mono_pos_r _ _ (2 ^ (e + 1074))); [apply pow2_pos; lia|].
      replace (2 ^ (- e) * n * 2 ^ (e + 1074))%Z with (n * (2 ^ (- e) * 2 ^ (e + 1074)))%Z by lia.
      rewrite <- pow2_split by lia. replace (- e + (e + 1074))%Z with 1074%Z by lia. exact L.
    - pose proof (pow2_pos e ltac:(lia)). split; [lia|]. apply (Z.mul_le_mono_pos_r _ _ (2 ^ 1074)); [lia|].
      rewrite <- Z.mul_assoc, <- pow2_split by lia. exact L. }
  set (v := if (e <? 0)%Z then _ else _) in *.
  destruct (Z.leb_spec (- INT_MAX - 1) v), (Z.leb_spec v INT_MAX); unfold INT_MAX in *; try lia.
  eexists. split; [reflexivity|exact R].
Qed.

Lemma dMin_i2d x n : nonneg x = true -> 0 <= n -> nonneg (dMin x (i2d n)) = true /\ dMin x (i2d n) ⊑ i2d n.
Proof.
  intros Hx Hn. unfold dMin. destruct (x <? i2d n) eqn:E; (split; [auto with nneg|]); [|reflexivity].
  apply dlt_cle; auto with nneg.
Qed.

Lemma MAXALIGN_bounds n : 0 <= n -> n <= MAXALIGN n < n + 8 /\ MAXALIGN n mod 8 = 0.
Proof.
  intros Hn. unfold MAXALIGN. change (Z.lnot 7) with (Z.lnot (Z.ones 3)). rewrite <- Z.ldiff_land, Z.ldiff_ones_r by lia.
  rewrite Z.shiftr_div_pow2, Z.shiftl_mul_pow2 by lia. change (2 ^ 3)%Z with 8%Z.
  pose proof (Z.div_mod (n + 7) 8 ltac:(lia)). pose proof (Z.mod_pos_bound (n + 7) 8 ltac:(lia)).
  split; [lia|apply Z.mod_mul; lia].
Qed.

Lemma hash_tupsize_bounds w : 0 <= w < 2 ^ 30 -> 32 <= hash_tupsize w < 2 ^ 30 + 40.
Proof.
  intros Hw. unfold hash_tupsize, HJTUPLE_OVERHEAD, SizeofMinimalTupleHeader.
  change (MAXALIGN 16) with 16. change (MAXALIGN 15) with 16. pose proof (MAXALIGN_bounds w ltac:(lia)). lia.
Qed.

Lemma skew_space_bounds ts h useskew : 0 <= ts -> 65536 <= h -> 60000 <= (skew_space ts h useskew).1 <= h.
Proof.
  intros Hts Hh. unfold skew_space, SKEW_WORK_MEM_PERCENT. destruct useskew; cbn [fst]; [|lia].
  rewrite Z.quot_div_nonneg by lia.
  pose proof (Z.div_mod (h * 2) 100 ltac:(lia)). pose proof (Z.mod_pos_bound (h * 2) 100 ltac:(lia)).
  destruct (_ >? 0)%Z; lia.
Qed.

(** The bucket array of a batched join takes at most half of the memory. *)
Lemma batch_buckets_spec ts h : settings_ok -> 32 <= ts -> 60000 <= h <= 2 ^ 45 ->
  exists k, pow2 k (batch_buckets ts h) /\ 0 <= k <= 26 /\ batch_buckets ts h * sizeof_pointer <= h / 2.
Proof.
  intros So Hts Hh. destruct (max_pointers_pow2 So) as (j & Hj & Rj). unfold batch_buckets, pow2 in *. rewrite Hj.
  unfold NTUP_PER_BUCKET, sizeof_pointer. rewrite Z.mul_1_r, !Z.shiftl_1_l.
  set (n := (h / (ts + 8))%Z).
  assert (0 <= n /\ n * 40 <= h) as [N0 N1].
  { pose proof (Z.div_mod h (ts + 8) ltac:(lia)). pose proof (Z.mod_pos_bound h (ts + 8) ltac:(lia)).
    assert (0 <= n) as N by (apply Z.div_pos; lia). split; [exact N|]. revert N. unfold n. nia. }
  destruct (my_log2_spec n) as (I1 & I2 & I3 & I4); [lia|]. set (a := my_log2 n) in *.
  assert (2 ^ a * 16 <= h) as A.
  { destruct (Z.le_gt_cases n 1) as [L|L]; [rewrite (I4 L); change (2 ^ 0)%Z with 1%Z; lia|].
    specialize (I3 L). destruct (decide (a = 0)) as [->|]; [change (2 ^ 0)%Z with 1%Z; lia|].
    assert (2 ^ a = 2 * 2 ^ (a - 1))%Z by (rewrite <- Z.pow_succ_r by lia; f_equal; lia). lia. }
  assert (Z.min (2 ^ a) (2 ^ j) = 2 ^ Z.min a j)%Z as ->.
  { destruct (Z.min_spec a j) as [[L ->]|[L ->]]; pose proof (pow2_le a j); pose proof (pow2_le j a); lia. }
  rewrite my_log2_pow2 by lia. exists (Z.min a j). split_and!; [reflexivity|lia|lia|].
  pose proof (pow2_le (Z.min a j) a ltac:(lia)). apply Z.div_le_lower_bound; lia.
Qed.

Lemma choose_hash_table_size_ok ntuples width useskew :
  settings_ok -> 0 <= width < 2 ^ 30 ->
  exists k j skew, ExecChooseHashTableSize ntuples width useskew = Some (2 ^ k, 2 ^ j, skew)%Z
    /\ 0 <= k <= 26 /\ 0 <= j <= 26 /\ (j = 0 -> 10 <= k)
    /\ (0 < j -> 2 ^ k * sizeof_pointer
                 <= (skew_space (hash_tupsize width) (work_mem * 1024) useskew).1 / 2).
Proof.
  intros So Hw. pose proof (work_mem_ok So) as Hm. destruct (max_pointers_pow2 So) as (p & Hp & Rp).
  pose proof (hash_tupsize_bounds width Hw) as Hts. unfold ExecChooseHashTableSize.
  set (nt := if ntuples <=? i2d 0 then i2d 1000 else ntuples).
  assert (nonneg nt = true) as Hnt.
  { unfold nt. destruct (ntuples <=? i2d 0) eqn:E; [reflexivity|]. destruct (nonneg ntuples) eqn:N; [reflexivity|].
    rewrite dle_sval in E by (reflexivity || apply neg_isnan, N). unfold sval in E. rewrite N in E.
    pose proof (cmag_range ntuples). change (nonneg (i2d 0)) with true in E. cbv iota in E.
    change (cmag (i2d 0)) with 0%Z in E. lia. }
  pose proof (skew_space_bounds (hash_tupsize width) (work_mem * 1024) useskew) as Hsk.
  specialize (Hsk ltac:(lia) ltac:(lia)).
  destruct (skew_space (hash_tupsize width) (work_mem * 1024) useskew) as [h skew]. cbn [fst] in *.
  unfold pow2 in Hp. rewrite !Hp. pose proof (pow2_le p 26 ltac:(lia)) as P26. pose proof (pow2_pos p ltac:(lia)) as Pp.
  change (2 ^ 26)%Z with 67108864%Z in P26.
  destruct (dMin_i2d (ceil (nt / i2d NTUP_PER_BUCKET)) (2 ^ p)) as [M1 M2]; [|lia|].
  { apply nonneg_ceil, nonneg_div; [exact Hnt|reflexivity]. }
  destruct (d2int_bounded _ (2 ^ p) M1 ltac:(unfold INT_MAX; lia) M2) as (nb & -> & Hnb). cbn [mbind option_bind].
  set (nb' := Z.max nb 1024). destruct (my_log2_spec nb') as (I1 & I2 & I3 & _); [lia|].
  specialize (I3 ltac:(lia)). rewrite Z.shiftl_1_l. destruct (_ >? i2d h) eqn:G; cycle 1.
  { exists (my_log2 nb'), 0, skew. split_and!; [reflexivity|exact I1| |lia..| |lia].
    - assert (2 ^ (my_log2 nb' - 1) < 2 ^ 26)%Z as L by (change (2 ^ 26)%Z with 67108864%Z; lia).
      apply Z.pow_lt_mono_r_iff in L; lia.
    - intros _. assert (2 ^ 10 <= 2 ^ my_log2 nb')%Z as L by (change (2 ^ 10)%Z with 1024%Z; lia).
      apply Z.pow_le_mono_r_iff in L; lia. }
  destruct (batch_buckets_spec (hash_tupsize width) h So ltac:(lia)) as (k & Hk & Rk & Hbb);
    [change (2 ^ 45)%Z with 35184372088832%Z; change (2 ^ 31)%Z with 2147483648%Z in *; lia|].
  unfold pow2 in Hk. rewrite Hk in *. unfold sizeof_pointer in *.
  pose proof (Z.div_mod h 2 ltac:(lia)). pose proof (Z.mod_pos_bound h 2 ltac:(lia)).
  destruct (dMin_i2d (ceil (nt * i2d (hash_tupsize width) / i2d (h - 2 ^ k * 8))) (2 ^ p)) as [B1 B2]; [|lia|].
  { apply nonneg_ceil, nonneg_div; [apply nonneg_mul; [exact Hnt|]|]; apply nonneg_i2d; lia. }
  destruct (d2int_bounded _ (2 ^ p) B1 ltac:(unfold INT_MAX; lia) B2) as (mb & -> & Hmb). cbn [mbind option_bind].
  destruct (batch_loop_spec 32 1 mb) as (j & Ej & Rj & _); [lia|change (2 ^ 26)%Z with 67108864%Z; lia|lia|].
  change (2 ^ 1)%Z with 2%Z in Ej. rewrite Ej. cbn [mbind option_bind].
  exists k, j, skew. split_and!; [reflexivity|lia|lia|lia|lia|lia|]. intros _. exact Hbb.
Qed.

(** C38: for any row estimate (even NaN or a negative one) and any tuple width below 2^30,
    ExecChooseHashTableSize terminates without integer overflow; the numbers of buckets and
    batches are powers of two up to 2^26; a single-batch table has at least 1024 buckets; and
    in a batched table the bucket array takes at most half of the memory, as the function
    asserts. *)
Theorem choose_hash_table_size_spec ntuples width useskew :
  settings_ok -> 0 <= width < 2 ^ 30 ->
  exists k j skew, ExecChooseHashTableSize ntuples width useskew = Some (2 ^ k, 2 ^ j, skew)%Z
    /\ 0 <= k <= 26 /\ 0 <= j <= 26 /\ (j = 0 -> 10 <= k)
    /\ (0 < j -> 2 ^ k * sizeof_pointer
                 <= (skew_space (hash_tupsize width) (work_mem * 1024) useskew).1 / 2).
Proof. apply choose_hash_table_size_ok. Qed.

End hash_size.

#[local] Existing Instance default_settings.

Lemma choose_hash_table_size_spec_witness :
  exists k j skew, ExecChooseHashTableSize (i2d 1000000) 100 true = Some (2 ^ k, 2 ^ j, skew)%Z
    /\ 0 <= k <= 26 /\ 0 <= j <= 26 /\ (j = 0 -> 10 <= k)
    /\ (0 < j -> 2 ^ k * sizeof_pointer <= (skew_space (hash_tupsize 100) (work_mem * 1024) true).1 / 2).
Proof.
  exact (choose_hash_table_size_spec (i2d 1000000) 100 true default_settings_ok
    (conj (Zle_bool_imp_le 0 100 eq_refl) eq_refl)).
Defined.
