(* ===== verification/CostJoin.v ===== *)
(** Cost of joins (optimizer/path/costsize.c): the preliminary and final costs
    of nested loop, merge and hash joins, with the semi and anti join factors
    and the caches of selectivities. *)
From S2P Require Import Prelude Float64 Double DoubleOrder DoubleDiv Bitmapset PlanTypes Samples PathCompare CostExpr CostBase CostScan CostNode HashSize.
Open Scope double_scope.

(** The relations a selectivity is estimated for. *)
Record SpecialJoinInfo := mkSpecialJoinInfo {
  min_lefthand : Relids;
  min_righthand : Relids;
  syn_lefthand : Relids;
  syn_righthand : Relids;
  sj_jointype : JoinType;
  lhs_strict : bool;
}.

(** The statistics-based estimates of clausesel.c and selfuncs.c, and the
    collation of an equivalence class, which the cost model takes as given. *)
Class Estimator := {
  clause_selectivity : Node -> Z -> JoinType -> SpecialJoinInfo -> Selectivity;
  clauselist_selectivity : list RestrictInfo -> Z -> JoinType -> option SpecialJoinInfo -> Selectivity;
  mergejoinscansel : Node -> Oid -> Z -> bool -> Selectivity * Selectivity * Selectivity * Selectivity;
  estimate_hash_bucketsize : option Node -> double -> Selectivity;
  ec_collation : Z -> Oid;
}.

Record SemiAntiJoinFactors := mkSemiAntiJoinFactors {
  outer_match_frac : Selectivity;
  match_count : Selectivity;
}.

(** The members of JoinPathExtraData the cost functions read. *)
Record JoinPathExtraData := mkJoinPathExtraData {
  jextra_inner_unique : bool;
  semifactors : SemiAntiJoinFactors;
}.

Record JoinCostWorkspace := mkWorkspace {
  ws_startup_cost : Cost;
  ws_total_cost : Cost;
  ws_io_cost : Cost;
  ws_cpu_cost : Cost;
  ws_power_cost : Cost;
  ws_run_cost : Cost;
  ws_inner_run_cost : Cost;
  ws_inner_rescan_run_cost : Cost;
  ws_outer_rows : double;
  ws_inner_rows : double;
  ws_outer_skip_rows : double;
  ws_inner_skip_rows : double;
  ws_numbuckets : Z;
  ws_numbatches : Z;
}.

Record MergeScanSelCache := mkScanSel {
  sc_opfamily : Oid;
  sc_collation : Oid;
  sc_strategy : Z;
  sc_nulls_first : bool;
  leftstartsel : Selectivity;
  leftendsel : Selectivity;
  rightstartsel : Selectivity;
  rightendsel : Selectivity;
}.

Definition is_semi_anti (jointype : JoinType) (extra : JoinPathExtraData) : bool :=
  bool_decide (jointype = JOIN_SEMI) || bool_decide (jointype = JOIN_ANTI) || jextra_inner_unique extra.

(** "Protect some assumptions below that rowcounts aren't zero or NaN". *)
Definition protect_rows (rows : double) : double :=
  if (rows <=? i2d 0) || isnan rows then i2d 1 else rows.

(** get_leftop and get_rightop (clauses.c) of a binary operator clause. *)
Definition get_leftop (clause : Node) : option Node :=
  match clause with OpExpr _ _ args => nth_error args 0 | _ => None end.
Definition get_rightop (clause : Node) : option Node :=
  match clause with
  | OpExpr _ _ args => if (2 <=? length args)%nat then nth_error args 1 else None
  | _ => None
  end.

(** join_clause_is_movable_into (restrictinfo.c). *)
Definition join_clause_is_movable_into (rinfo : RestrictInfo) (currentrelids current_and_outer : Relids)
    : bool :=
  if negb (bms_is_subset (clause_relids rinfo) current_and_outer) then false
  else if negb (bms_overlap currentrelids (clause_relids rinfo)) then false
  else if bms_overlap currentrelids (outer_relids rinfo) then false
  else if bms_overlap currentrelids (nullable_relids rinfo) then false
  else true.

Definition CUSTOMPATH_SUPPORT_MARK_RESTORE : Z := 2.

(** ExecSupportsMarkRestore (executor/execAmi.c). *)
Fixpoint supports_mark_restore (pathtype' : PlanTag) (x : PathExtra) : bool :=
  match pathtype' with
  | T_IndexScan | T_IndexOnlyScan | T_Material | T_Sort => true
  | T_CustomScan =>
      match x with
      | XCustomPath flags _ => negb (Z.land flags CUSTOMPATH_SUPPORT_MARK_RESTORE =? 0)%Z
      | _ => false
      end
  | T_Result =>
      match x with
      | XProjectionPath subpath _ => supports_mark_restore (pathtype subpath) (extra subpath)
      | _ => false
      end
  | _ => false
  end.

Definition ExecSupportsMarkRestore (path : Path) : bool := supports_mark_restore (pathtype path) (extra path).

Definition IsUniquePath (path : Path) : bool :=
  match extra path with XUniquePath _ _ => true | _ => false end.

Section join.
Context `{Libm, Settings, Catalog, Estimator}.

(** ** Semi and anti joins *)

Definition compute_semi_anti_join_factors (outerrel innerrel : RelOptInfo) (jointype : JoinType)
    (sjinfo : SpecialJoinInfo) (restrictlist : list RestrictInfo) : SemiAntiJoinFactors :=
  let joinquals :=
    if IS_OUTER_JOIN jointype
    then List.filter (fun rinfo => negb (is_pushed_down rinfo)) restrictlist
    else restrictlist in
  let jselec :=
    clauselist_selectivity joinquals 0
      (if bool_decide (jointype = JOIN_ANTI) then JOIN_ANTI else JOIN_SEMI) (Some sjinfo) in
  let norm_sjinfo := mkSpecialJoinInfo (relids outerrel) (relids innerrel) (relids outerrel)
                       (relids innerrel) JOIN_INNER false in
  let nselec := clauselist_selectivity joinquals 0 JOIN_INNER (Some norm_sjinfo) in
  let avgmatch :=
    if jselec >? i2d 0 then dMax (i2d 1) (nselec * rel_rows innerrel / jselec) else i2d 1 in
  mkSemiAntiJoinFactors jselec avgmatch.

(** The loop over the inner path's clauses; [found_one] as in the source. *)
Fixpoint indexed_quals_loop (clauses indexclauses : list RestrictInfo) (innerrelids joinrelids : Relids)
    (found_one : bool) : bool :=
  match clauses with
  | [] => found_one
  | rinfo :: clauses =>
      if join_clause_is_movable_into rinfo innerrelids joinrelids then
        if negb (list_member_ptr indexclauses rinfo || is_redundant_derived_clause rinfo indexclauses)
        then false
        else indexed_quals_loop clauses indexclauses innerrelids joinrelids true
      else indexed_quals_loop clauses indexclauses innerrelids joinrelids found_one
  end.

(** The index clauses of a simple (bitmap) index scan. *)
Definition simple_indexclauses (innerpath : Path) : option (list RestrictInfo) :=
  match pathtype innerpath with
  | T_IndexScan | T_IndexOnlyScan =>
      match extra innerpath with XIndexPath f => Some (indexclauses f) | _ => None end
  | T_BitmapHeapScan =>
      match extra innerpath with
      | XBitmapHeapPath bmqual =>
          match extra bmqual with XIndexPath f => Some (indexclauses f) | _ => None end
      | _ => None
      end
  | _ => None
  end.

Definition has_indexed_join_quals (path innerpath : Path) (joinrestrictinfo : list RestrictInfo) : bool :=
  let joinrelids := relids (parent path) in
  match joinrestrictinfo, param_info innerpath, simple_indexclauses innerpath with
  | [], Some ppi, Some indexclauses =>
      indexed_quals_loop (ppi_clauses ppi) indexclauses (relids (parent innerpath)) joinrelids false
  | _, _, _ => false
  end.

Fixpoint quals_selectivity (quals : list RestrictInfo) (sjinfo : SpecialJoinInfo) (selec : Selectivity)
    : Selectivity :=
  match quals with
  | [] => selec
  | qual :: quals =>
      quals_selectivity quals sjinfo
        (selec * clause_selectivity (RestrictInfoNode qual) 0 JOIN_INNER sjinfo)
  end.

Definition approx_tuple_count (outer_path inner_path : Path) (quals : list RestrictInfo) : double :=
  let outer_tuples := rows outer_path in
  let inner_tuples := rows inner_path in
  let sjinfo := mkSpecialJoinInfo (relids (parent outer_path)) (relids (parent inner_path))
                  (relids (parent outer_path)) (relids (parent inner_path)) JOIN_INNER false in
  let selec := quals_selectivity quals sjinfo (i2d 1) in
  clamp_row_est (selec * outer_tuples * inner_tuples).

(** The row estimate of a join path, scaled for partial paths. *)
Definition join_path_rows (path : Path) : double :=
  let rows := row_estimate (parent path) (param_info path) in
  if (parallel_workers path >? 0)%Z
  then clamp_row_est (rows / get_parallel_divisor (parallel_workers path)) else rows.

(** ** Nested loops *)

Definition initial_cost_nestloop (workspace : JoinCostWorkspace) (jointype : JoinType)
    (outer_path inner_path : Path) (extra : JoinPathExtraData) : JoinCostWorkspace :=
  let outer_path_rows := rows outer_path in
  let (inner_rescan_start_cost, inner_rescan_total_cost) := cost_rescan inner_path in
  let startup_cost := i2d 0 + (startup_cost outer_path + startup_cost inner_path) in
  let run_cost := i2d 0 + (total_cost outer_path - PlanTypes.startup_cost outer_path) in
  let run_cost := if outer_path_rows >? i2d 1
                  then run_cost + (outer_path_rows - i2d 1) * inner_rescan_start_cost else run_cost in
  let inner_run_cost := total_cost inner_path - PlanTypes.startup_cost inner_path in
  let inner_rescan_run_cost := inner_rescan_total_cost - inner_rescan_start_cost in
  let '(run_cost, saved_run, saved_rescan) :=
    if is_semi_anti jointype extra then (run_cost, inner_run_cost, inner_rescan_run_cost)
    else
      let run_cost := run_cost + inner_run_cost in
      let run_cost := if outer_path_rows >? i2d 1
                      then run_cost + (outer_path_rows - i2d 1) * inner_rescan_run_cost else run_cost in
      (run_cost, ws_inner_run_cost workspace, ws_inner_rescan_run_cost workspace) in
  let io_cost := i2d 0 + ((outer_path_rows - i2d 1) + (rows inner_path - i2d 1)) in
  {| ws_startup_cost := startup_cost; ws_total_cost := startup_cost + run_cost;
     ws_io_cost := io_cost; ws_cpu_cost := i2d 0; ws_power_cost := i2d 0;
     ws_run_cost := run_cost; ws_inner_run_cost := saved_run; ws_inner_rescan_run_cost := saved_rescan;
     ws_outer_rows := ws_outer_rows workspace; ws_inner_rows := ws_inner_rows workspace;
     ws_outer_skip_rows := ws_outer_skip_rows workspace; ws_inner_skip_rows := ws_inner_skip_rows workspace;
     ws_numbuckets := ws_numbuckets workspace; ws_numbatches := ws_numbatches workspace |}.

(** The inner scans of a join that stops at the first match:
    [(run_cost, io_cost, ntuples)].  In the indexed case the statement
    [io_cost += outer_matched_rows - 1] follows the [if] and is not part of it. *)
Definition nestloop_semi_cost (indexed : bool) (run_cost io_cost inner_run_cost inner_rescan_run_cost : Cost)
    (outer_path_rows inner_path_rows : double) (factors : SemiAntiJoinFactors) : Cost * Cost * double :=
  let outer_matched_rows := rint (outer_path_rows * outer_match_frac factors) in
  let outer_unmatched_rows := outer_path_rows - outer_matched_rows in
  let inner_scan_frac := i2d 2 / (match_count factors + i2d 1) in
  let ntuples := outer_matched_rows * inner_path_rows * inner_scan_frac in
  if indexed then
    let run_cost := run_cost + inner_run_cost * inner_scan_frac in
    let run_cost := if outer_matched_rows >? i2d 1
                    then run_cost + (outer_matched_rows - i2d 1) * inner_rescan_run_cost * inner_scan_frac
                    else run_cost in
    let io_cost := io_cost + (outer_matched_rows - i2d 1) in
    let run_cost := run_cost + outer_unmatched_rows * inner_rescan_run_cost / inner_path_rows in
    let io_cost := io_cost + (outer_path_rows - outer_matched_rows) in
    (run_cost, io_cost, ntuples)
  else
    let ntuples := ntuples + outer_unmatched_rows * inner_path_rows in
    let run_cost := run_cost + inner_run_cost in
    let (outer_unmatched_rows, outer_matched_rows) :=
      if outer_unmatched_rows >=? i2d 1 then (outer_unmatched_rows - i2d 1, outer_matched_rows)
      else (outer_unmatched_rows, outer_matched_rows - i2d 1) in
    let (run_cost, io_cost) :=
      if outer_matched_rows >? i2d 0
      then (run_cost + outer_matched_rows * inner_rescan_run_cost * inner_scan_frac,
            io_cost + (outer_matched_rows - i2d 1))
      else (run_cost, io_cost) in
    let (run_cost, io_cost) :=
      if outer_unmatched_rows >? i2d 0
      then (run_cost + outer_unmatched_rows * inner_rescan_run_cost,
            io_cost + (outer_path_rows - outer_matched_rows))
      else (run_cost, io_cost) in
    (run_cost, io_cost, ntuples).

(** [jointype], [outer_path], [inner_path] and [joinrestrictinfo] are the members
    of the NestPath. *)
Definition final_cost_nestloop (path : Path) (jointype : JoinType) (outer_path inner_path : Path)
    (joinrestrictinfo : list RestrictInfo) (workspace : JoinCostWorkspace) (extra : JoinPathExtraData)
    : result Path :=
  let outer_path_rows := protect_rows (rows outer_path) in
  let inner_path_rows := protect_rows (rows inner_path) in
  let rows := join_path_rows path in
  let startup_cost := disabled enable_nestloop (ws_startup_cost workspace) in
  let run_cost := ws_run_cost workspace in
  let io_cost := ws_io_cost workspace in
  let '(run_cost, io_cost, ntuples) :=
    if is_semi_anti jointype extra then
      nestloop_semi_cost (has_indexed_join_quals path inner_path joinrestrictinfo) run_cost io_cost
        (ws_inner_run_cost workspace) (ws_inner_rescan_run_cost workspace) outer_path_rows inner_path_rows
        (semifactors extra)
    else (run_cost, io_cost, outer_path_rows * inner_path_rows) in
  let! (_, restrict_qual_cost) := cost_qual_eval (qual_nodes joinrestrictinfo) in
  let startup_cost := startup_cost + startup restrict_qual_cost in
  let cpu_per_tuple := cpu_tuple_cost + per_tuple restrict_qual_cost in
  let run_cost := run_cost + cpu_per_tuple * ntuples in
  let cpu_cost := ws_cpu_cost workspace + cpu_per_tuple * ntuples in
  let startup_cost := startup_cost + startup (target_cost (pathtarget path)) in
  let run_cost := run_cost + per_tuple (target_cost (pathtarget path)) * rows in
  Ok (set_path_costs path rows startup_cost (startup_cost + run_cost) io_cost cpu_cost
        (count_power_cost io_cost cpu_cost run_cost (parallel_workers path))).

(** ** Merge joins *)

Definition scansel_matches (pathkey : PathKey) (cache : MergeScanSelCache) : bool :=
  (sc_opfamily cache =? pk_opfamily pathkey)%Z
  && (sc_collation cache =? ec_collation (pk_eclass pathkey))%Z
  && (sc_strategy cache =? pk_strategy pathkey)%Z
  && eqb (sc_nulls_first cache) (pk_nulls_first pathkey).

(** The cached selectivities of a merge clause and the cache afterwards;
    [scansel_cache] is that list of the RestrictInfo. *)
Definition cached_scansel (scansel_cache : list MergeScanSelCache) (rinfo : RestrictInfo) (pathkey : PathKey)
    : MergeScanSelCache * list MergeScanSelCache :=
  match List.find (scansel_matches pathkey) scansel_cache with
  | Some cache => (cache, scansel_cache)
  | None =>
      let '(ls, le, rs, re) :=
        mergejoinscansel (clause rinfo) (pk_opfamily pathkey) (pk_strategy pathkey) (pk_nulls_first pathkey) in
      let cache := mkScanSel (pk_opfamily pathkey) (ec_collation (pk_eclass pathkey)) (pk_strategy pathkey)
                     (pk_nulls_first pathkey) ls le rs re in
      (cache, scansel_cache ++ [cache])
  end.

(** The fractions of the inputs that are skipped and scanned,
    [(outerstartsel, outerendsel, innerstartsel, innerendsel)], from the first
    merge clause, and that clause's cache. *)
Definition merge_scan_fractions (scansel_cache : list MergeScanSelCache) (jointype : JoinType)
    (mergeclauses : list RestrictInfo) (outer_path inner_path : Path) (outersortkeys innersortkeys : list PathKey)
    : result (Selectivity * Selectivity * Selectivity * Selectivity * list MergeScanSelCache) :=
  match mergeclauses with
  | firstclause :: _ =>
      if bool_decide (jointype = JOIN_FULL) then Ok (i2d 0, i2d 1, i2d 0, i2d 1, scansel_cache)
      else
        let opathkeys := match outersortkeys with [] => pathkeys outer_path | _ => outersortkeys end in
        let ipathkeys := match innersortkeys with [] => pathkeys inner_path | _ => innersortkeys end in
        match opathkeys, ipathkeys with
        | opathkey :: _, ipathkey :: _ =>
            if negb (pk_opfamily opathkey =? pk_opfamily ipathkey)%Z
               || negb (ec_collation (pk_eclass opathkey) =? ec_collation (pk_eclass ipathkey))%Z
               || negb (pk_strategy opathkey =? pk_strategy ipathkey)%Z
               || negb (eqb (pk_nulls_first opathkey) (pk_nulls_first ipathkey))
            then Error "left and right pathkeys do not match in mergejoin"
            else
              let (cache, scansel_cache) := cached_scansel scansel_cache firstclause opathkey in
              let '(os, oe, is', ie) :=
                if bms_is_subset (left_relids firstclause) (relids (parent outer_path))
                then (leftstartsel cache, leftendsel cache, rightstartsel cache, rightendsel cache)
                else (rightstartsel cache, rightendsel cache, leftstartsel cache, leftendsel cache) in
              match jointype with
              | JOIN_LEFT | JOIN_ANTI => Ok (i2d 0, i2d 1, is', ie, scansel_cache)
              | JOIN_RIGHT => Ok (os, oe, i2d 0, i2d 1, scansel_cache)
              | _ => Ok (os, oe, is', ie, scansel_cache)
              end
        | _, _ => Error "no pathkeys"
        end
  | [] => Ok (i2d 0, i2d 1, i2d 0, i2d 1, scansel_cache)
  end.

(** Cost of one input of a merge join, sorted first when [sortkeys] is not empty:
    [(startup, run)] with the fraction [startsel] skipped and [endsel] scanned. *)
Definition merge_input_cost (path : Path) (path_rows : double) (sortkeys : list PathKey)
    (startsel endsel : Selectivity) : Cost * Cost * Cost :=
  let src :=
    match sortkeys with
    | [] => path
    | _ => cost_sort path (total_cost path) path_rows (width (pathtarget path)) (i2d 0) work_mem (i2d (-1))
    end in
  (startup_cost src, (total_cost src - startup_cost src) * startsel,
   (total_cost src - startup_cost src) * (endsel - startsel)).

Definition initial_cost_mergejoin (workspace : JoinCostWorkspace) (scansel_cache : list MergeScanSelCache)
    (jointype : JoinType) (mergeclauses : list RestrictInfo) (outer_path inner_path : Path)
    (outersortkeys innersortkeys : list PathKey) : result (JoinCostWorkspace * list MergeScanSelCache) :=
  let outer_path_rows := protect_rows (rows outer_path) in
  let inner_path_rows := protect_rows (rows inner_path) in
  let! (outerstartsel, outerendsel, innerstartsel, innerendsel, scansel_cache) :=
    merge_scan_fractions scansel_cache jointype mergeclauses outer_path inner_path outersortkeys innersortkeys in
  let outer_skip_rows := rint (outer_path_rows * outerstartsel) in
  let inner_skip_rows := rint (inner_path_rows * innerstartsel) in
  let outer_rows := clamp_row_est (outer_path_rows * outerendsel) in
  let inner_rows := clamp_row_est (inner_path_rows * innerendsel) in
  let outerstartsel := outer_skip_rows / outer_path_rows in
  let innerstartsel := inner_skip_rows / inner_path_rows in
  let outerendsel := outer_rows / outer_path_rows in
  let innerendsel := inner_rows / inner_path_rows in
  let '(ostart, oskip, orun) := merge_input_cost outer_path outer_path_rows outersortkeys outerstartsel outerendsel in
  let startup_cost := i2d 0 + ostart in
  let startup_cost := startup_cost + oskip in
  let run_cost := i2d 0 + orun in
  let io_cost := i2d 0 + (outerendsel - outerstartsel) in
  let '(istart, iskip, inner_run_cost) :=
    merge_input_cost inner_path inner_path_rows innersortkeys innerstartsel innerendsel in
  let startup_cost := startup_cost + istart in
  let startup_cost := startup_cost + iskip in
  let io_cost := io_cost + (innerendsel - innerstartsel) in
  Ok ({| ws_startup_cost := startup_cost; ws_total_cost := startup_cost + run_cost + inner_run_cost;
         ws_io_cost := io_cost; ws_cpu_cost := i2d 0; ws_power_cost := i2d 0;
         ws_run_cost := run_cost; ws_inner_run_cost := inner_run_cost;
         ws_inner_rescan_run_cost := ws_inner_rescan_run_cost workspace;
         ws_outer_rows := outer_rows; ws_inner_rows := inner_rows;
         ws_outer_skip_rows := outer_skip_rows; ws_inner_skip_rows := inner_skip_rows;
         ws_numbuckets := ws_numbuckets workspace; ws_numbatches := ws_numbatches workspace |},
      scansel_cache).

(** Whether the inner input of a merge join is materialized. *)
Definition materialize_decision (skip_mark_restore : bool) (mat_inner_cost bare_inner_cost : Cost)
    (innersortkeys : list PathKey) (inner_path : Path) (inner_path_rows : double) : bool :=
  if skip_mark_restore then false
  else if enable_material && (mat_inner_cost <? bare_inner_cost) then true
  else if bool_decide (innersortkeys = []) && negb (ExecSupportsMarkRestore inner_path) then true
  else if enable_material && negb (bool_decide (innersortkeys = []))
          && (relation_byte_size inner_path_rows (width (pathtarget inner_path)) >? i2d (work_mem * 1024))
  then true
  else false.

(** The path with its costs and new members. *)
Definition set_extra (path : Path) (x : PathExtra) : Path :=
  {| pathtype := pathtype path; parent := parent path; pathtarget := pathtarget path;
     param_info := param_info path; parallel_aware := parallel_aware path;
     parallel_safe := parallel_safe path; parallel_workers := parallel_workers path;
     rows := rows path; startup_cost := startup_cost path; total_cost := total_cost path;
     io_cost := io_cost path; cpu_cost := cpu_cost path; power_cost := power_cost path;
     pathkeys := pathkeys path; extra := x |}.

Definition final_cost_mergejoin (path : Path) (jointype : JoinType) (inner_unique : bool)
    (outer_path inner_path : Path) (joinrestrictinfo mergeclauses : list RestrictInfo)
    (outersortkeys innersortkeys : list PathKey) (workspace : JoinCostWorkspace) (extra : JoinPathExtraData)
    : result Path :=
  let inner_path_rows := protect_rows (rows inner_path) in
  let startup_cost := ws_startup_cost workspace in
  let run_cost := ws_run_cost workspace in
  let inner_run_cost := ws_inner_run_cost workspace in
  let io_cost := ws_io_cost workspace in
  let rows := join_path_rows path in
  let startup_cost := disabled enable_mergejoin startup_cost in
  let! (_, merge_qual_cost) := cost_qual_eval (qual_nodes mergeclauses) in
  let! (_, qp_qual_cost) := cost_qual_eval (qual_nodes joinrestrictinfo) in
  let qp_qual_cost := mkQualCost (startup qp_qual_cost - startup merge_qual_cost)
                                 (per_tuple qp_qual_cost - per_tuple merge_qual_cost) in
  let skip_mark_restore :=
    is_semi_anti jointype extra && (length joinrestrictinfo =? length mergeclauses)%nat in
  let mergejointuples := approx_tuple_count outer_path inner_path mergeclauses in
  let rescannedtuples :=
    if IsUniquePath outer_path || skip_mark_restore then i2d 0
    else
      let rescannedtuples := mergejointuples - inner_path_rows in
      if rescannedtuples <? i2d 0 then i2d 0 else rescannedtuples in
  let rescanratio := i2d 1 + (rescannedtuples / inner_path_rows) in
  let bare_inner_cost := inner_run_cost * rescanratio in
  let mat_inner_cost := inner_run_cost + cpu_operator_cost * inner_path_rows * rescanratio in
  let materialize_inner :=
    materialize_decision skip_mark_restore mat_inner_cost bare_inner_cost innersortkeys inner_path
      inner_path_rows in
  let (run_cost, io_cost) :=
    if materialize_inner
    then (run_cost + mat_inner_cost, io_cost + inner_path_rows * rescanratio)
    else (run_cost + bare_inner_cost, io_cost + io_cost * rescanratio) in
  let startup_cost := startup_cost + startup merge_qual_cost in
  let startup_cost := startup_cost + per_tuple merge_qual_cost *
    (ws_outer_skip_rows workspace + ws_inner_skip_rows workspace * rescanratio) in
  let compared := per_tuple merge_qual_cost *
    ((ws_outer_rows workspace - ws_outer_skip_rows workspace)
     + (ws_inner_rows workspace - ws_inner_skip_rows workspace) * rescanratio) in
  let run_cost := run_cost + compared in
  let cpu_cost := ws_cpu_cost workspace + compared in
  let startup_cost := startup_cost + startup qp_qual_cost in
  let cpu_per_tuple := cpu_tuple_cost + per_tuple qp_qual_cost in
  let run_cost := run_cost + cpu_per_tuple * mergejointuples in
  let cpu_cost := cpu_cost + cpu_per_tuple * mergejointuples in
  let startup_cost := startup_cost + startup (target_cost (pathtarget path)) in
  let run_cost := run_cost + per_tuple (target_cost (pathtarget path)) * rows in
  let power_cost := ws_power_cost workspace + count_power_cost io_cost cpu_cost run_cost 0 in
  Ok (set_extra (set_path_costs path rows startup_cost (startup_cost + run_cost) io_cost cpu_cost power_cost)
        (XMergePath jointype inner_unique outer_path inner_path joinrestrictinfo mergeclauses
           outersortkeys innersortkeys skip_mark_restore materialize_inner)).

(** ** Hash joins *)

(** [None] when the hash table size is undefined. *)
Definition initial_cost_hashjoin (workspace : JoinCostWorkspace) (hashclauses : list RestrictInfo)
    (outer_path inner_path : Path) : option JoinCostWorkspace :=
  let outer_path_rows := rows outer_path in
  let inner_path_rows := rows inner_path in
  let num_hashclauses := Z.of_nat (length hashclauses) in
  let startup_cost := i2d 0 + startup_cost outer_path in
  let run_cost := i2d 0 + (total_cost outer_path - PlanTypes.startup_cost outer_path) in
  let startup_cost := startup_cost + total_cost inner_path in
  let startup_cost :=
    startup_cost + (cpu_operator_cost * i2d num_hashclauses + cpu_tuple_cost) * inner_path_rows in
  let run_cost := run_cost + cpu_operator_cost * i2d num_hashclauses * outer_path_rows in
  let cpu_cost := i2d 0 + cpu_operator_cost * i2d num_hashclauses * outer_path_rows in
  '(numbuckets, numbatches, _) ← ExecChooseHashTableSize inner_path_rows (width (pathtarget inner_path)) true;
  let '(startup_cost, run_cost, io_cost) :=
    if (numbatches >? 1)%Z then
      let outerpages := page_size outer_path_rows (width (pathtarget outer_path)) in
      let innerpages := page_size inner_path_rows (width (pathtarget inner_path)) in
      (startup_cost + seq_page_cost * innerpages,
       run_cost + seq_page_cost * (innerpages + i2d 2 * outerpages),
       i2d 0 + (innerpages + (innerpages + i2d 2 * outerpages)))
    else (startup_cost, run_cost, i2d 0) in
  Some {| ws_startup_cost := startup_cost; ws_total_cost := startup_cost + run_cost;
          ws_io_cost := io_cost; ws_cpu_cost := cpu_cost; ws_power_cost := i2d 0;
          ws_run_cost := run_cost; ws_inner_run_cost := ws_inner_run_cost workspace;
          ws_inner_rescan_run_cost := ws_inner_rescan_run_cost workspace;
          ws_outer_rows := ws_outer_rows workspace; ws_inner_rows := ws_inner_rows workspace;
          ws_outer_skip_rows := ws_outer_skip_rows workspace; ws_inner_skip_rows := ws_inner_skip_rows workspace;
          ws_numbuckets := numbuckets; ws_numbatches := numbatches |}.

(** A RestrictInfo with its bucket size caches set. *)
Definition set_bucketsizes (r : RestrictInfo) (l' r' : Selectivity) : RestrictInfo :=
  let (ptr, cl, pd, pc, cr, outr, nr, lr, rr, oc, ec, cost, _, _, jc) := r in
  mkRestrictInfo ptr cl pd pc cr outr nr lr rr oc ec cost l' r' jc.

(** The bucket size of one hash clause and the clause with its cache filled. *)
Definition clause_bucketsize (inner_path : Path) (virtualbuckets : double) (restrictinfo : RestrictInfo)
    : Selectivity * RestrictInfo :=
  if bms_is_subset (right_relids restrictinfo) (relids (parent inner_path)) then
    let thisbucketsize := right_bucketsize restrictinfo in
    if thisbucketsize <? i2d 0 then
      let thisbucketsize := estimate_hash_bucketsize (get_rightop (clause restrictinfo)) virtualbuckets in
      (thisbucketsize, set_bucketsizes restrictinfo (left_bucketsize restrictinfo) thisbucketsize)
    else (thisbucketsize, restrictinfo)
  else
    let thisbucketsize := left_bucketsize restrictinfo in
    if thisbucketsize <? i2d 0 then
      let thisbucketsize := estimate_hash_bucketsize (get_leftop (clause restrictinfo)) virtualbuckets in
      (thisbucketsize, set_bucketsizes restrictinfo thisbucketsize (right_bucketsize restrictinfo))
    else (thisbucketsize, restrictinfo).

(** The smallest bucket size of the hash clauses. *)
Fixpoint bucketsize_loop (inner_path : Path) (virtualbuckets : double) (hashclauses : list RestrictInfo)
    (innerbucketsize : Selectivity) : Selectivity * list RestrictInfo :=
  match hashclauses with
  | [] => (innerbucketsize, [])
  | restrictinfo :: hashclauses =>
      let (thisbucketsize, restrictinfo) := clause_bucketsize inner_path virtualbuckets restrictinfo in
      let innerbucketsize := if innerbucketsize >? thisbucketsize then thisbucketsize else innerbucketsize in
      let (innerbucketsize, hashclauses) :=
        bucketsize_loop inner_path virtualbuckets hashclauses innerbucketsize in
      (innerbucketsize, restrictinfo :: hashclauses)
  end.

(** [(startup_cost, run_cost, hashjointuples)]: the charge for probing the buckets. *)
Definition hash_probe_cost (jointype : JoinType) (extra : JoinPathExtraData) (startup_cost run_cost : Cost)
    (hash_qual_cost : QualCost) (outer_path inner_path : Path) (hashclauses : list RestrictInfo)
    (innerbucketsize virtualbuckets : double) : Cost * Cost * double :=
  let outer_path_rows := rows outer_path in
  let inner_path_rows := rows inner_path in
  if is_semi_anti jointype extra then
    let outer_matched_rows := rint (outer_path_rows * outer_match_frac (semifactors extra)) in
    let inner_scan_frac := i2d 2 / (match_count (semifactors extra) + i2d 1) in
    let startup_cost := startup_cost + startup hash_qual_cost in
    let run_cost := run_cost + per_tuple hash_qual_cost * outer_matched_rows *
      clamp_row_est (inner_path_rows * innerbucketsize * inner_scan_frac) * dlit 1 2 in
    let run_cost := run_cost + per_tuple hash_qual_cost * (outer_path_rows - outer_matched_rows) *
      clamp_row_est (inner_path_rows / virtualbuckets) * dlit 5 100 in
    (startup_cost, run_cost,
     if bool_decide (jointype = JOIN_SEMI) then outer_matched_rows else outer_path_rows - outer_matched_rows)
  else
    let startup_cost := startup_cost + startup hash_qual_cost in
    let run_cost := run_cost + per_tuple hash_qual_cost * outer_path_rows *
      clamp_row_est (inner_path_rows * innerbucketsize) * dlit 1 2 in
    (startup_cost, run_cost, approx_tuple_count outer_path inner_path hashclauses).

Definition final_cost_hashjoin (path : Path) (jointype : JoinType) (inner_unique : bool)
    (outer_path inner_path : Path) (joinrestrictinfo hashclauses : list RestrictInfo)
    (workspace : JoinCostWorkspace) (extra : JoinPathExtraData) : result Path :=
  let rows := join_path_rows path in
  let startup_cost := disabled enable_hashjoin (ws_startup_cost workspace) in
  let run_cost := ws_run_cost workspace in
  let numbatches := ws_numbatches workspace in
  let virtualbuckets := i2d (ws_numbuckets workspace) * i2d numbatches in
  let (innerbucketsize, hashclauses) :=
    if IsUniquePath inner_path then (i2d 1 / virtualbuckets, hashclauses)
    else bucketsize_loop inner_path virtualbuckets hashclauses (i2d 1) in
  let! (_, hash_qual_cost) := cost_qual_eval (qual_nodes hashclauses) in
  let! (_, qp_qual_cost) := cost_qual_eval (qual_nodes joinrestrictinfo) in
  let qp_qual_cost := mkQualCost (startup qp_qual_cost - startup hash_qual_cost)
                                 (per_tuple qp_qual_cost - per_tuple hash_qual_cost) in
  let '(startup_cost, run_cost, hashjointuples) :=
    hash_probe_cost jointype extra startup_cost run_cost hash_qual_cost outer_path inner_path hashclauses
      innerbucketsize virtualbuckets in
  let startup_cost := startup_cost + startup qp_qual_cost in
  let cpu_per_tuple := cpu_tuple_cost + per_tuple qp_qual_cost in
  let run_cost := run_cost + cpu_per_tuple * hashjointuples in
  let io_cost := ws_io_cost workspace in
  let cpu_cost := ws_cpu_cost workspace + (run_cost - ws_run_cost workspace) in
  let startup_cost := startup_cost + startup (target_cost (pathtarget path)) in
  let run_cost := run_cost + per_tuple (target_cost (pathtarget path)) * rows in
  Ok (set_extra (set_path_costs path rows startup_cost (startup_cost + run_cost) io_cost cpu_cost
                   (count_power_cost io_cost cpu_cost run_cost 0))
        (XHashPath jointype inner_unique outer_path inner_path joinrestrictinfo hashclauses numbatches)).

End join.
