(* ===== verification/ClauseSel.v ===== *)
(** Selectivities of clauses (optimizer/path/clausesel.c, with restriction_selectivity and
    join_selectivity of plancat.c and the tests of clauses.c they use): conjunctions with
    pairs of range bounds, disjunctions, negations, and the caches in RestrictInfos. *)
From stdpp Require Import gmap.
From S2P Require Import Prelude Float64 Double DoubleOrder Bitmapset PlanTypes CostJoin.
Open Scope Z_scope.
Open Scope double_scope.

(** utils/selfuncs.h, and the estimators of pg_proc.h clausesel.c knows by number. *)
Definition DEFAULT_INEQ_SEL : Selectivity := dlit 3333333333333333 10000000000000000.
Definition DEFAULT_RANGE_INEQ_SEL : Selectivity := dlit 5 1000.
Definition F_SCALARLTSEL : Oid := 103.
Definition F_SCALARGTSEL : Oid := 104.

(** The caches norm_selec and outer_selec of the RestrictInfos; a missing entry is -1,
    not computed yet. *)
Record SelCache := mkSelCache {
  norm_selecs : gmap Z Selectivity;
  outer_selecs : gmap Z Selectivity;
}.

Definition norm_selec (cache : SelCache) (rinfo : RestrictInfo) : Selectivity := default (i2d (-1)) (norm_selecs cache !! ri_ptr rinfo).
Definition outer_selec (cache : SelCache) (rinfo : RestrictInfo) : Selectivity := default (i2d (-1)) (outer_selecs cache !! ri_ptr rinfo).

(** The possible pair of bounds for one variable; a bound not found yet is [None]. *)
Record RangeQueryClause := mkRangeQuery {
  rq_var : Node;
  rq_lobound : option Selectivity;
  rq_hibound : option Selectivity;
}.

(** The statistics of selfuncs.c and of extended statistics (dependencies.c), the
    estimation procedures of operators, called by the function manager with the operator,
    the arguments and the collation of the clause, and questions about expressions
    (clauses.c, var.c, equalfuncs.c). *)
Class SelectivitySupport := {
  get_oprrest : Oid -> Oid;
  get_oprjoin : Oid -> Oid;
  call_oprrest : Oid -> Node -> Z -> double;
  call_oprjoin : Oid -> Node -> JoinType -> option SpecialJoinInfo -> double;
  boolvarsel : Node -> Z -> Selectivity;
  scalararraysel : Node -> bool -> Z -> JoinType -> option SpecialJoinInfo -> Selectivity;
  rowcomparesel : Node -> Z -> JoinType -> option SpecialJoinInfo -> Selectivity;
  nulltestsel : NullTestType -> Node -> Z -> JoinType -> option SpecialJoinInfo -> Selectivity;
  booltestsel : BoolTestType -> Node -> Z -> JoinType -> option SpecialJoinInfo -> Selectivity;
  estimate_expression_value : Node -> Node;
  contain_var_clause : Node -> bool;
  contain_volatile_functions : Node -> bool;
  pull_varnos : Node -> Relids;
  equal : Node -> Node -> bool;
  sel_simple_rels : Z -> option RelOptInfo;
  has_statlist : RelOptInfo -> bool;
  dependencies_clauselist_selectivity : list Node -> Z -> JoinType -> option SpecialJoinInfo -> RelOptInfo -> SelCache ->
    Selectivity * Bitmapset * SelCache;
}.

Section selectivity.
Context `{SelectivitySupport}.

(** ** Estimation procedures of operators (plancat.c) *)

Definition restriction_selectivity (operatorid : Oid) (clause : Node) (varRelid : Z) : result Selectivity :=
  let oprrest := get_oprrest operatorid in
  if (oprrest =? 0)%Z then Ok (dlit 1 2)
  else
    let res := call_oprrest oprrest clause varRelid in
    if (res <? i2d 0) || (res >? i2d 1) then Error "invalid restriction selectivity" else Ok res.

Definition join_selectivity (operatorid : Oid) (clause : Node) (jointype : JoinType) (sjinfo : option SpecialJoinInfo) : result Selectivity :=
  let oprjoin := get_oprjoin operatorid in
  if (oprjoin =? 0)%Z then Ok (dlit 1 2)
  else
    let res := call_oprjoin oprjoin clause jointype sjinfo in
    if (res <? i2d 0) || (res >? i2d 1) then Error "invalid join selectivity" else Ok res.

(** ** Questions about clauses (clauses.c) *)

Definition is_pseudo_constant_clause (clause : Node) : bool := negb (contain_var_clause clause) && negb (contain_volatile_functions clause).

Definition is_pseudo_constant_clause_relids (clause : Node) (relids : Relids) : bool :=
  bms_is_empty relids && negb (contain_volatile_functions clause).

Definition NumRelids (clause : Node) : Z := bms_num_members (pull_varnos clause).

Definition sel_base_rel (relid : Z) : result RelOptInfo :=
  match (if (0 <? relid)%Z then sel_simple_rels relid else None) with
  | Some rel => Ok rel
  | None => Error "no relation entry for relid"
  end.

(** [Some relid] if all clauses so far use this relation only, [Some 0] if none. *)
Fixpoint single_relid (clauses : list Node) (lastrelid : Z) : option Z :=
  match clauses with
  | [] => Some lastrelid
  | RestrictInfoNode rinfo :: clauses =>
      if bms_is_empty (clause_relids rinfo) then single_relid clauses lastrelid
      else match bms_get_singleton_member (clause_relids rinfo) with
           | None => None
           | Some relid =>
               if (lastrelid =? 0)%Z then single_relid clauses relid
               else if (relid =? lastrelid)%Z then single_relid clauses lastrelid else None
           end
  | _ :: _ => None
  end.

Definition find_single_rel_for_clauses (clauses : list Node) : result (option RelOptInfo) :=
  match single_relid clauses 0 with
  | Some relid => if (relid =? 0)%Z then Ok None else let! rel := sel_base_rel relid in Ok (Some rel)
  | None => Ok None
  end.

Definition bms_is_subset_singleton (s : Bitmapset) (x : Z) : result bool :=
  match bms_membership s with
  | BMS_EMPTY_SET => Ok true
  | BMS_SINGLETON => bms_is_member x s
  | BMS_MULTIPLE => Ok false
  end.

Section context.
Context (varRelid : Z) (jointype : JoinType) (sjinfo : option SpecialJoinInfo).

Definition treat_as_join_clause (clause : Node) (rinfo : option RestrictInfo) : bool :=
  if negb (varRelid =? 0)%Z then false
  else match sjinfo with
       | None => false
       | Some _ =>
           match rinfo with
           | Some rinfo => match bms_membership (clause_relids rinfo) with BMS_MULTIPLE => true | _ => false end
           | None => (1 <? NumRelids clause)%Z
           end
       end.

(** ** Pairs of range bounds *)

Definition dmin_bound (old : option Selectivity) (s2 : Selectivity) : option Selectivity :=
  match old with
  | None => Some s2
  | Some b => if b >? s2 then Some s2 else Some b
  end.

(** The tighter of two bounds on the same side is kept. *)
Fixpoint add_bound (rqlist : list RangeQueryClause) (var : Node) (is_lobound : bool) (s2 : Selectivity) : option (list RangeQueryClause) :=
  match rqlist with
  | [] => None
  | rqelem :: rest =>
      if equal var (rq_var rqelem) then
        Some ((if is_lobound then mkRangeQuery (rq_var rqelem) (dmin_bound (rq_lobound rqelem) s2) (rq_hibound rqelem)
               else mkRangeQuery (rq_var rqelem) (rq_lobound rqelem) (dmin_bound (rq_hibound rqelem) s2)) :: rest)
      else option_map (cons rqelem) (add_bound rest var is_lobound s2)
  end.

(** [leftop] and [rightop] are the operands of the clause. *)
Definition addRangeClause (rqlist : list RangeQueryClause) (leftop rightop : Node) (varonleft isLTsel : bool) (s2 : Selectivity)
    : list RangeQueryClause :=
  let (var, is_lobound) := if varonleft then (leftop, negb isLTsel) else (rightop, isLTsel) in
  match add_bound rqlist var is_lobound s2 with
  | Some rqlist => rqlist
  | None => mkRangeQuery var (if is_lobound then Some s2 else None) (if is_lobound then None else Some s2) :: rqlist
  end.

(** Which side of a binary operator clause is the variable, if the other one is a
    pseudoconstant. *)
Definition var_side (clause : Node) (rinfo : option RestrictInfo) (leftop rightop : Node) : option bool :=
  match rinfo with
  | Some rinfo =>
      match bms_membership (clause_relids rinfo) with
      | BMS_SINGLETON =>
          if is_pseudo_constant_clause_relids rightop (right_relids rinfo) then Some true
          else if is_pseudo_constant_clause_relids leftop (left_relids rinfo) then Some false else None
      | _ => None
      end
  | None =>
      if (NumRelids clause =? 1)%Z then
        if is_pseudo_constant_clause rightop then Some true
        else if is_pseudo_constant_clause leftop then Some false else None
      else None
  end.

(** A clause of selectivity [s2] joins the product or the list of range bounds. *)
Definition merge_clause (node : Node) (s2 s1 : Selectivity) (rqlist : list RangeQueryClause) : Selectivity * list RangeQueryClause :=
  let rinfo := match node with RestrictInfoNode rinfo => Some rinfo | _ => None end in
  let clause := match node with RestrictInfoNode rinfo => clause rinfo | _ => node end in
  if match rinfo with Some rinfo => pseudoconstant rinfo | None => false end then (s1 * s2, rqlist)
  else
    match clause with
    | OpExpr opno _ [leftop; rightop] =>
        match var_side clause rinfo leftop rightop with
        | Some varonleft =>
            if (get_oprrest opno =? F_SCALARLTSEL)%Z then (s1, addRangeClause rqlist leftop rightop varonleft true s2)
            else if (get_oprrest opno =? F_SCALARGTSEL)%Z then (s1, addRangeClause rqlist leftop rightop varonleft false s2)
            else (s1 * s2, rqlist)
        | None => (s1 * s2, rqlist)
        end
    | _ => (s1 * s2, rqlist)
    end.

(** The selectivity of a pair of bounds, or of the only bound. *)
Definition range_selectivity (rq : RangeQueryClause) : Selectivity :=
  match rq_lobound rq, rq_hibound rq with
  | Some lobound, Some hibound =>
      if deq hibound DEFAULT_INEQ_SEL || deq lobound DEFAULT_INEQ_SEL then DEFAULT_RANGE_INEQ_SEL
      else
        let s2 := hibound + lobound - i2d 1 in
        let s2 := s2 + nulltestsel IS_NULL (rq_var rq) varRelid jointype sjinfo in
        if s2 <=? i2d 0 then
          if s2 <? dlit (-1) 100 then DEFAULT_RANGE_INEQ_SEL else dlit 1 10000000000
        else s2
  | Some lobound, None => lobound
  | None, Some hibound => hibound
  | None, None => i2d 1
  end.

(** ** Lists of clauses *)

(** The loop over the clauses that extended statistics have not estimated. *)
Definition clauselist_loop (sel : Node -> SelCache -> result (Selectivity * SelCache)) (estimatedclauses : Bitmapset)
    : list Node -> Z -> Selectivity -> list RangeQueryClause -> SelCache -> result (Selectivity * list RangeQueryClause * SelCache) :=
  fix go clauses listidx s1 rqlist cache :=
    match clauses with
    | [] => Ok (s1, rqlist, cache)
    | node :: clauses =>
        let! skip := bms_is_member listidx estimatedclauses in
        if skip : bool then go clauses (listidx + 1)%Z s1 rqlist cache
        else
          let! (s2, cache) := sel node cache in
          let (s1, rqlist) := merge_clause node s2 s1 rqlist in
          go clauses (listidx + 1)%Z s1 rqlist cache
    end.

Definition clauselist_sel (sel : Node -> SelCache -> result (Selectivity * SelCache)) (clauses : list Node) (cache : SelCache)
    : result (Selectivity * SelCache) :=
  match clauses with
  | [node] => sel node cache
  | _ =>
      let! rel := find_single_rel_for_clauses clauses in
      let '(s1, estimatedclauses, cache) :=
        match rel with
        | Some rel =>
            if match rtekind rel with RTE_RELATION => has_statlist rel | _ => false end then
              let '(s, estimated, cache) := dependencies_clauselist_selectivity clauses varRelid jointype sjinfo rel cache in
              (i2d 1 * s, estimated, cache)
            else (i2d 1, None, cache)
        | None => (i2d 1, None, cache)
        end in
      let! (s1, rqlist, cache) := clauselist_loop sel estimatedclauses clauses 0 s1 [] cache in
      Ok (foldl (fun s1 rq => s1 * range_selectivity rq) s1 rqlist, cache)
  end.

(** [s1 + s2 - s1 * s2] over the arguments of an OR. *)
Definition or_loop (sel : Node -> SelCache -> result (Selectivity * SelCache))
    : list Node -> Selectivity -> SelCache -> result (Selectivity * SelCache) :=
  fix go args s1 cache :=
    match args with
    | [] => Ok (s1, cache)
    | arg :: args =>
        let! (s2, cache) := sel arg cache in
        go args (s1 + s2 - s1 * s2) cache
    end.

(** ** One clause *)

Definition const_selectivity (constisnull constvalue : bool) : Selectivity :=
  if constisnull then i2d 0 else if constvalue then i2d 1 else i2d 0.

Definition store_selec (cache : SelCache) (rinfo : RestrictInfo) (s1 : Selectivity) : SelCache :=
  if bool_decide (jointype = JOIN_INNER) then mkSelCache (<[ri_ptr rinfo := s1]> (norm_selecs cache)) (outer_selecs cache)
  else mkSelCache (norm_selecs cache) (<[ri_ptr rinfo := s1]> (outer_selecs cache)).

(** The selectivity of a clause: [examine] looks at the expression, which a RestrictInfo
    contains; the result is kept there where it may be used again. *)
Definition clause_sel (examine : option RestrictInfo -> Node -> SelCache -> result (Selectivity * SelCache)) (node : Node) (cache : SelCache)
    : result (Selectivity * SelCache) :=
  match node with
  | RestrictInfoNode (mkRestrictInfo _ clause _ pseudo crel _ _ _ _ orclause _ _ _ _ _ as rinfo) =>
      if pseudo && match clause with Const _ _ => false | _ => true end then Ok (i2d 1, cache)
      else if norm_selec cache rinfo >? i2d 1 then Ok (i2d 1, cache)
      else
        let! cacheable := if (varRelid =? 0)%Z then Ok true else bms_is_subset_singleton crel varRelid in
        let cached := if bool_decide (jointype = JOIN_INNER) then norm_selec cache rinfo else outer_selec cache rinfo in
        if cacheable && (cached >=? i2d 0) then Ok (cached, cache)
        else
          let! (s1, cache) := match orclause with
                              | Some o => examine (Some rinfo) o cache
                              | None => examine (Some rinfo) clause cache
                              end in
          Ok (s1, if cacheable : bool then store_selec cache rinfo s1 else cache)
  | _ => examine None node cache
  end.

(** By the kind of expression; [rinfo] is the RestrictInfo it was found in. *)
Fixpoint examine_clause (rinfo : option RestrictInfo) (clause : Node) (cache : SelCache) {struct clause} : result (Selectivity * SelCache) :=
  let recurse := clause_sel examine_clause in
  let operator opno :=
    if treat_as_join_clause clause rinfo then join_selectivity opno clause jointype sjinfo
    else restriction_selectivity opno clause varRelid in
  match clause with
  | Var varno _ =>
      Ok (if (varRelid =? 0)%Z || (varRelid =? varno)%Z then boolvarsel clause varRelid else dlit 1 2, cache)
  | Const constisnull constvalue => Ok (const_selectivity constisnull constvalue, cache)
  | Param =>
      Ok (match estimate_expression_value clause with
          | Const constisnull constvalue => const_selectivity constisnull constvalue
          | _ => dlit 1 2
          end, cache)
  | BoolExpr NOT_EXPR args =>
      match args with
      | arg :: _ => let! (s1, cache) := recurse arg cache in Ok (i2d 1 - s1, cache)
      | [] => Error "null pointer"
      end
  | BoolExpr AND_EXPR args => clauselist_sel recurse args cache
  | BoolExpr OR_EXPR args => or_loop recurse args (i2d 0) cache
  | OpExpr opno _ _ => let! s1 := operator opno in Ok (s1, cache)
  | DistinctExpr opno _ _ => let! s1 := operator opno in Ok (i2d 1 - s1, cache)
  | ScalarArrayOpExpr _ _ _ _ _ =>
      Ok (scalararraysel clause (treat_as_join_clause clause rinfo) varRelid jointype sjinfo, cache)
  | RowCompareExpr _ _ _ => Ok (rowcomparesel clause varRelid jointype sjinfo, cache)
  | NullTest nulltesttype arg => Ok (nulltestsel nulltesttype arg varRelid jointype sjinfo, cache)
  | BooleanTest booltesttype arg => Ok (booltestsel booltesttype arg varRelid jointype sjinfo, cache)
  | CurrentOfExpr cvarno =>
      let! crel := sel_base_rel cvarno in
      Ok (if tuples crel >? i2d 0 then i2d 1 / tuples crel else dlit 1 2, cache)
  | RelabelType arg => recurse arg cache
  | CoerceToDomain arg => recurse arg cache
  | _ => Ok (boolvarsel clause varRelid, cache)
  end.

(** The clause may be NULL. *)
Definition clause_selectivity (clause : option Node) (cache : SelCache) : result (Selectivity * SelCache) :=
  match clause with
  | None => Ok (dlit 1 2, cache)
  | Some clause => clause_sel examine_clause clause cache
  end.

Definition clauselist_selectivity : list Node -> SelCache -> result (Selectivity * SelCache) :=
  clauselist_sel (clause_sel examine_clause).

End context.
End selectivity.
