(* ===== verification/CostJoinSpec.v ===== *)
(** What the join costs guarantee: the preliminary estimates of each join method
    are lower bounds of the final ones, as add_path_precheck relies on, and the
    final costs are well formed. *)
From S2P Require Import Prelude Float64 Double DoubleOrder DoubleDiv DoubleRound Bitmapset PlanTypes Samples PathCompare CostExpr CostBase CostScan CostScanSpec CostNode HashSize CostJoin.
Open Scope double_scope.

(** An input path: costed, with a whole finite number of rows. *)
Record input_ok (p : Path) : Prop := {
  in_costed : costed p;
  in_integral : integral (rows p);
  in_finite : finite (rows p);
  in_width : 0 <= width (pathtarget p) < 2 ^ 30;
}.

Record factors_ok (f : SemiAntiJoinFactors) : Prop := {
  fa_frac : nonneg (outer_match_frac f) = true;
  fa_frac_le : outer_match_frac f ⊑ i2d 1;
  fa_count : nonneg (match_count f) = true;
}.

Lemma cle_eval x y : (cmag x <=? cmag y)%Z = true -> x ⊑ y.
Proof. unfold cle. lia. Qed.

(** A number above zero is not negative. *)
Lemma gt_zero_nonneg x : (x >? i2d 0) = true -> nonneg x = true.
Proof.
  intros E. destruct (nonneg x) eqn:N; [reflexivity|]. rewrite dlt_sval in E by (reflexivity || apply neg_isnan, N).
  unfold sval in E. rewrite N in E. pose proof (cmag_range x). change (nonneg (i2d 0)) with true in E.
  cbv iota in E. change (cmag (i2d 0)) with 0%Z in E. lia.
Qed.

Lemma gt_one_sub_nonneg x : nonneg x = true -> (x >? i2d 1) = true -> nonneg (x - i2d 1) = true.
Proof. intros Hx E. apply nonneg_sub_not_lt; [exact Hx|reflexivity|apply dlt_asym, E]. Qed.

Lemma ge_one_sub_nonneg x : nonneg x = true -> (x >=? i2d 1) = true -> nonneg (x - i2d 1) = true.
Proof. intros Hx E. apply nonneg_sub_not_lt; [exact Hx|reflexivity|apply dle_not_lt, E]. Qed.

Record row_count (x : double) : Prop := {
  rc_nonneg : nonneg x = true;
  rc_finite : finite x;
  rc_integral : integral x;
  rc_pos : (0 < cmag x)%Z;
}.

Lemma row_count_one : row_count (i2d 1).
Proof.
  split; [reflexivity|apply finite_i2d; lia|apply integral_i2d; lia|]. rewrite cmag_i2d by lia. lia.
Qed.

Lemma protect_rows_ok x : nonneg x = true -> integral x -> finite x -> row_count (protect_rows x).
Proof.
  intros Hx Ix Fx. unfold protect_rows. destruct (x <=? i2d 0) eqn:E; cbn [orb]; [apply row_count_one|].
  rewrite (finite_isnan x Fx). split; [assumption..|].
  rewrite dle_sval, !sval_nonneg in E by (assumption || reflexivity || apply finite_isnan, Fx).
  change (cmag (i2d 0)) with 0%Z in E. lia.
Qed.

Lemma input_rows p : input_ok p -> row_count (protect_rows (rows p)).
Proof. intros [[Hr _ _ _ _] Hi Hf _]. apply protect_rows_ok; assumption. Qed.

(** What the estimates promise: selectivities are fractions, a scan starts
    before it ends. *)
Definition fraction_ok (start stop : Selectivity) : Prop :=
  nonneg start = true /\ nonneg stop = true /\ start ⊑ stop /\ stop ⊑ i2d 1.

Class EstimatorLaws `{Estimator} := {
  bucketsize_ok : forall n v, nonneg (estimate_hash_bucketsize n v) = true;
  scansel_ok : forall n o st nf ls le rs re, mergejoinscansel n o st nf = (ls, le, rs, re) ->
    fraction_ok ls le /\ fraction_ok rs re;
  selectivity_ok : forall l z j s, nonneg (clauselist_selectivity l z j s) = true /\ clauselist_selectivity l z j s ⊑ i2d 1;
  selectivity_nil : forall z j s, clauselist_selectivity [] z j s = i2d 1;
}.

Section spec.
Context `{Libm, Settings, Catalog, Estimator}.
Context `{!CatalogLaws} (So : settings_ok).

(** A fraction of a row count, rounded, is at most the row count. *)
Lemma rint_fraction_le x f : nonneg x = true -> finite x -> integral x -> nonneg f = true -> f ⊑ i2d 1 ->
  nonneg (rint (x * f)) = true /\ rint (x * f) ⊑ x /\ nonneg (x - rint (x * f)) = true.
Proof.
  intros Hx Fx Ix Hf Lf. assert (nonneg (x * f) = true) as Hxf by auto with nneg.
  assert (x * f ⊑ x) as L by (rewrite dmul_comm; apply mul_le_factor; assumption).
  assert (rint (x * f) ⊑ x) as Lr by (apply rint_le_integral; assumption).
  split_and!; [auto with nneg|exact Lr|]. apply nonneg_sub; auto with nneg.
Qed.

(** ** Nested loops *)

Lemma nestloop_semi_cost_ok ix run io irun rescan o i f : row_count o -> row_count i -> factors_ok f ->
  nonneg run = true -> nonneg irun = true -> nonneg rescan = true ->
  let '(run', _, ntuples) := nestloop_semi_cost ix run io irun rescan o i f in
  nonneg run' = true /\ run ⊑ run' /\ nonneg ntuples = true.
Proof.
  intros Ho [Hi _ _ _] [Hf Lf Hm] Hrun Hir Hre. destruct Ho as [Ho Fo Io _].
  destruct (rint_fraction_le o _ Ho Fo Io Hf Lf) as (M1 & M2 & U1).
  unfold nestloop_semi_cost. set (m := rint (o * outer_match_frac f)) in *. set (u := o - m) in *.
  set (fr := i2d 2 / (match_count f + i2d 1)).
  assert (nonneg fr = true) as Hfr by (unfold fr; assert (nonneg (i2d 1) = true) by reflexivity; assert (nonneg (i2d 2) = true) by reflexivity; auto with nneg).
  destruct ix.
  - destruct (m >? i2d 1) eqn:G; try (pose proof (gt_one_sub_nonneg m M1 G)); split_and!; auto 12 with nneg.
    + etransitivity; [|apply cle_add_l; auto 12 with nneg]. etransitivity; apply cle_add_l; auto 12 with nneg.
    + etransitivity; apply cle_add_l; auto 12 with nneg.
  - assert (forall u m run0, nonneg u = true -> run ⊑ run0 -> nonneg run0 = true -> forall nt, nonneg nt = true ->
      let '(run', _, ntuples) :=
        let (run_cost, io_cost) := if m >? i2d 0 then (run0 + m * rescan * fr, io + (m - i2d 1)) else (run0, io) in
        let (run_cost, io_cost) := if u >? i2d 0 then (run_cost + u * rescan, io_cost + (o - m)) else (run_cost, io_cost) in
        (run_cost, io_cost, nt) in
      nonneg run' = true /\ run ⊑ run' /\ nonneg ntuples = true) as Step.
    { intros u' m' run0 Hu L0 Hr0 nt Hnt. destruct (m' >? i2d 0) eqn:Gm; try (apply gt_zero_nonneg in Gm);
        destruct (u' >? i2d 0); split_and!; auto 8 with nneg; (etransitivity; [exact L0|]);
        try reflexivity; try (apply cle_add_l; auto 8 with nneg).
      etransitivity; apply cle_add_l; auto 8 with nneg. }
    assert (run ⊑ run + irun) by (apply cle_add_l; assumption).
    destruct (u >=? i2d 1) eqn:G; [pose proof (ge_one_sub_nonneg u U1 G)|]; apply Step; auto 8 with nneg.
Qed.

(** What the parts of a join path satisfy. *)
Record join_ok (path outer inner : Path) (quals : list RestrictInfo) (extra : JoinPathExtraData) : Prop := {
  jo_rel : nonneg (rel_rows (parent path)) = true;
  jo_ppi : match param_info path with Some ppi => nonneg (ppi_rows ppi) = true | None => True end;
  jo_target : target_ok path;
  jo_outer : input_ok outer;
  jo_inner : input_ok inner;
  jo_quals : clauses_ok quals;
  jo_factors : factors_ok (semifactors extra);
}.

Lemma join_rows_ok path outer inner quals extra : join_ok path outer inner quals extra ->
  nonneg (join_path_rows path) = true.
Proof.
  intros [Hr Hp _ _ _ _ _]. unfold join_path_rows, row_estimate.
  destruct (parallel_workers path >? 0)%Z; [apply clamp_nonneg|]. destruct (param_info path); assumption.
Qed.

(** The final estimate [p] respects the preliminary one [ws]. *)
Definition lower_bound (ws : JoinCostWorkspace) (p : Path) : Prop :=
  ws_startup_cost ws ⊑ startup_cost p /\ ws_total_cost ws ⊑ total_cost p.

Lemma initial_cost_nestloop_ok ws0 jt outer inner extra : input_ok outer -> input_ok inner ->
  let ws := initial_cost_nestloop ws0 jt outer inner extra in
  nonneg (ws_startup_cost ws) = true /\ nonneg (ws_run_cost ws) = true
  /\ ws_total_cost ws = ws_startup_cost ws + ws_run_cost ws
  /\ (is_semi_anti jt extra = true ->
      nonneg (ws_inner_run_cost ws) = true /\ nonneg (ws_inner_rescan_run_cost ws) = true).
Proof.
  intros [[Or Os Ole Ot _] _ _ _] [Ic _ _ Iw]. pose proof Ic as [Ir Is Ile It _].
  destruct (cost_rescan_ok So inner Ic ltac:(lia)) as (R1 & R2 & R3). unfold initial_cost_nestloop.
  destruct (cost_rescan inner) as [rs rt]. cbn [fst snd] in *.
  pose proof (nonneg_sub _ _ Ot Os Ole). pose proof (nonneg_sub _ _ It Is Ile). pose proof (nonneg_sub _ _ R2 R1 R3).
  destruct (rows outer >? i2d 1) eqn:G; try (pose proof (gt_one_sub_nonneg _ Or G));
    destruct (is_semi_anti jt extra); cbn; split_and!; auto 10 with nneg; discriminate.
Qed.

Lemma nestloop_costs_ok ws0 path jt outer inner quals extra :
  join_ok path outer inner quals extra ->
  let ws := initial_cost_nestloop ws0 jt outer inner extra in
  exists p, final_cost_nestloop path jt outer inner quals ws extra = Ok p
    /\ costed p /\ startup_ok enable_nestloop (startup_cost p) /\ lower_bound ws p.
Proof.
  intros Hj ws. pose proof (join_rows_ok _ _ _ _ _ Hj) as Hrows. destruct Hj as [_ _ [T1 T2] Ho Hi [Q1 Q2] Hf].
  destruct (initial_cost_nestloop_ok ws0 jt outer inner extra Ho Hi) as (W1 & W2 & W3 & W4). fold ws in W1, W2, W3, W4.
  destruct (cost_qual_eval_total So _ Q1 Q2) as (q & c & Ec & C1 & C2). unfold final_cost_nestloop.
  pose proof (input_rows _ Ho) as RO. pose proof (input_rows _ Hi) as RI.
  destruct (if is_semi_anti jt extra then _ else _) as [[run io] nt] eqn:EX.
  assert (nonneg run = true /\ ws_run_cost ws ⊑ run /\ nonneg nt = true) as (S1 & S2 & S3).
  { destruct (is_semi_anti jt extra).
    - destruct (W4 eq_refl). pose proof (nestloop_semi_cost_ok
        (has_indexed_join_quals path inner quals) (ws_run_cost ws) (ws_io_cost ws) (ws_inner_run_cost ws)
        (ws_inner_rescan_run_cost ws) _ _ _ RO RI Hf) as S. rewrite EX in S. apply S; assumption.
    - injection EX as <- <- <-. destruct RO, RI. split_and!; [assumption|reflexivity|auto with nneg]. }
  rewrite Ec. cbn [rbind].
  match goal with |- context [set_path_costs _ _ ?s _ _ _ _] =>
    assert (startup_ok enable_nestloop s /\ ws_startup_cost ws ⊑ s) as [A1 A2] end.
  { split; [auto 8 with nneg|]. etransitivity; [|apply cle_add_l; auto 8 with nneg].
    - etransitivity; [|apply cle_add_l; auto 8 with nneg].
      + unfold disabled. destruct enable_nestloop; [reflexivity|apply cle_add_l; auto with nneg].
      + apply startup_disabled; assumption.
    - apply (startup_add enable_nestloop); auto with nneg. }
  edestruct costs_ok_run as (p & E & HP & HS); [..|exists p; split_and!; [exact E|exact HP|exact HS|]].
  4:{ injection E as <-. split; cbn; [exact A2|]. rewrite W3. destruct A1 as [A1 _].
      apply cle_add; auto 10 with nneg. etransitivity; [exact S2|].
      etransitivity; apply cle_add_l; auto 10 with nneg. }
  all: auto 10 with nneg.
Qed.

(** C5: initial_cost_nestloop is a lower bound: for inputs with whole row counts and any join
    type, final_cost_nestloop returns, and its startup and total costs are at least the
    preliminary ones that were checked against the path list; the final path is costed. *)
Theorem nestloop_lower_bound ws0 path jt outer inner quals extra :
  join_ok path outer inner quals extra ->
  let ws := initial_cost_nestloop ws0 jt outer inner extra in
  exists p, final_cost_nestloop path jt outer inner quals ws extra = Ok p
    /\ costed p /\ startup_ok enable_nestloop (startup_cost p) /\ lower_bound ws p.
Proof. apply nestloop_costs_ok. Qed.

(** ** Hash joins *)

Context `{!EstimatorLaws}.

(** The cached bucket sizes are unset (negative) or valid. *)
Definition buckets_ok (r : RestrictInfo) : Prop :=
  ((left_bucketsize r <? i2d 0) = true \/ nonneg (left_bucketsize r) = true)
  /\ ((right_bucketsize r <? i2d 0) = true \/ nonneg (right_bucketsize r) = true).

Definition same_but_buckets (r r' : RestrictInfo) : Prop := exists a b, r' = set_bucketsizes r a b.

Lemma clause_bucketsize_ok inner v r : buckets_ok r ->
  nonneg (clause_bucketsize inner v r).1 = true /\ same_but_buckets r (clause_bucketsize inner v r).2.
Proof.
  intros [B1 B2]. assert (r = set_bucketsizes r (left_bucketsize r) (right_bucketsize r)) as Er by (destruct r; reflexivity).
  unfold clause_bucketsize, same_but_buckets.
  destruct (bms_is_subset _ _);
    [destruct (right_bucketsize r <? i2d 0) eqn:E|destruct (left_bucketsize r <? i2d 0) eqn:E];
    cbn [fst snd]; (split; [|eauto]); try apply bucketsize_ok; destruct B1, B2; congruence.
Qed.

Lemma bucketsize_loop_ok inner v l b : Forall buckets_ok l -> nonneg b = true ->
  nonneg (bucketsize_loop inner v l b).1 = true /\ Forall2 same_but_buckets l (bucketsize_loop inner v l b).2.
Proof.
  intros Hl. revert b. induction Hl as [|r l Hr Hl IH]; intros b Hb; cbn [bucketsize_loop]; [split; [exact Hb|constructor]|].
  destruct (clause_bucketsize_ok inner v r Hr) as [C1 C2]. destruct (clause_bucketsize inner v r) as [t r'].
  cbn [fst snd] in *. set (b' := if b >? t then t else b). assert (nonneg b' = true) as Hb' by (unfold b'; case_match; assumption).
  specialize (IH b' Hb'). destruct (bucketsize_loop inner v l b') as [b'' l']. cbn [fst snd] in *. split; [tauto|].
  constructor; tauto.
Qed.

(** The caches do not change the cost of the quals. *)
Lemma cost_qual_eval_buckets l l' ctx : Forall2 same_but_buckets l l' ->
  match walk_list cost_qual_eval_walker (qual_nodes l) ctx, walk_list cost_qual_eval_walker (qual_nodes l') ctx with
  | Ok (_, c), Ok (_, c') => c = c'
  | Error _, Error _ => True
  | _, _ => False
  end.
Proof.
  intros Hl. revert ctx. induction Hl as [|r r' l l' [a [b ->]] Hl IH]; intros ctx; [reflexivity|].
  destruct r as [ptr cl pd pc cr outr nr lr rr oc ec cost lb rb jc].
  cbn [qual_nodes map set_bucketsizes walk_list cost_qual_eval_walker].
  destruct (startup cost <? i2d 0).
  - match goal with |- context [rbind (rbind ?x _)] => destruct x as [[[cl' oc'] tot]|err]; cbn [rbind]; [|exact I] end.
    specialize (IH (charge ctx (restrictinfo_cost pc tot))). unfold qual_nodes in IH.
    destruct (walk_list _ (map _ l) _) as [[? ?]|], (walk_list _ (map _ l') _) as [[? ?]|]; exact IH.
  - cbn [rbind]. specialize (IH (charge ctx cost)). unfold qual_nodes in IH.
    destruct (walk_list _ (map _ l) _) as [[? ?]|], (walk_list _ (map _ l') _) as [[? ?]|]; exact IH.
Qed.

Lemma page_size_nonneg t w : nonneg t = true -> 0 <= w -> nonneg (page_size t w) = true.
Proof.
  intros Ht Hw. apply nonneg_ceil, nonneg_div; [apply relation_byte_size_nonneg; assumption|reflexivity].
Qed.

Lemma initial_cost_hashjoin_ok ws0 hc outer inner : input_ok outer -> input_ok inner ->
  exists ws, initial_cost_hashjoin ws0 hc outer inner = Some ws
    /\ nonneg (ws_startup_cost ws) = true /\ nonneg (ws_run_cost ws) = true
    /\ ws_total_cost ws = ws_startup_cost ws + ws_run_cost ws
    /\ 0 <= ws_numbuckets ws /\ 0 <= ws_numbatches ws
    /\ total_cost inner ⊑ ws_startup_cost ws.
Proof.
  intros [[Or Os Ole Ot _] _ _ Ow] [[Ir Is Ile It _] _ _ Iw]. unfold initial_cost_hashjoin.
  destruct (choose_hash_table_size_ok (rows inner) (width (pathtarget inner)) true So Iw) as (k & j & sk & -> & Rk & Rj & _).
  cbn [mbind option_bind]. pose proof (pow2_pos k ltac:(lia)). pose proof (pow2_pos j ltac:(lia)).
  assert (nonneg (i2d (Z.of_nat (length hc))) = true) by (apply nonneg_i2d; lia).
  pose proof (nonneg_sub _ _ Ot Os Ole). pose proof (seq_page_nonneg So). pose proof two_nonneg.
  pose proof (page_size_nonneg (rows inner) (width (pathtarget inner)) Ir ltac:(lia)).
  pose proof (page_size_nonneg (rows outer) (width (pathtarget outer)) Or ltac:(lia)).
  destruct (2 ^ j >? 1)%Z; (eexists; split; [reflexivity|]); cbn; split_and!; auto 12 with nneg; try lia.
  - etransitivity; [|apply cle_add_l; auto 12 with nneg]. etransitivity; [|apply cle_add_l; auto 12 with nneg].
    apply cle_add_r; auto with nneg.
  - etransitivity; [|apply cle_add_l; auto 12 with nneg]. apply cle_add_r; auto with nneg.
Qed.

(** The quals [part], which are among [all], cost no more than [all]. *)
Definition quals_cover (part all : list RestrictInfo) : Prop :=
  forall q1 c1 q2 c2, cost_qual_eval (qual_nodes part) = Ok (q1, c1) ->
    cost_qual_eval (qual_nodes all) = Ok (q2, c2) -> startup c1 ⊑ startup c2 /\ per_tuple c1 ⊑ per_tuple c2.

Lemma five_pct_nonneg : nonneg (dlit 5 100) = true.
Proof. reflexivity. Qed.

Lemma hash_probe_cost_ok jt ex s run c outer inner hc b v en : input_ok outer -> input_ok inner ->
  factors_ok (semifactors ex) -> startup_ok en s -> nonneg run = true -> qual_cost_ok c ->
  let '(s', run', nt) := hash_probe_cost jt ex s run c outer inner hc b v in
  startup_ok en s' /\ s ⊑ s' /\ nonneg run' = true /\ run ⊑ run' /\ nonneg nt = true.
Proof.
  intros [[Or _ _ _ _] Oi Of _] _ [Hf Lf Hm] Hs Hrun [C1 C2]. pose proof Hs as [Hs' _].
  destruct (rint_fraction_le _ _ Or Of Oi Hf Lf) as (M1 & M2 & U1).
  pose proof half_nneg. pose proof five_pct_nonneg. unfold hash_probe_cost.
  destruct (is_semi_anti jt ex); split_and!; auto 14 with nneg.
  - apply cle_add_l; assumption.
  - etransitivity; apply cle_add_l; auto 14 with nneg.
  - case_match; assumption.
  - apply cle_add_l; assumption.
  - apply cle_add_l; auto 14 with nneg.
  - apply clamp_nonneg.
Qed.

Lemma hashjoin_costs_ok ws0 path jt iu outer inner quals hc extra :
  join_ok path outer inner quals extra -> clauses_ok hc -> Forall buckets_ok hc -> quals_cover hc quals ->
  exists ws p, initial_cost_hashjoin ws0 hc outer inner = Some ws
    /\ final_cost_hashjoin path jt iu outer inner quals hc ws extra = Ok p
    /\ costed p /\ startup_ok enable_hashjoin (startup_cost p) /\ lower_bound ws p
    /\ total_cost inner ⊑ startup_cost p
    /\ exists hc', PlanTypes.extra p = XHashPath jt iu outer inner quals hc' (ws_numbatches ws)
                   /\ Forall2 same_but_buckets hc hc'.
Proof.
  intros Hj [K1 K2] Hb Hcov. pose proof (join_rows_ok _ _ _ _ _ Hj) as Hrows.
  destruct Hj as [_ _ [T1 T2] Ho Hi [Q1 Q2] Hf].
  destruct (initial_cost_hashjoin_ok ws0 hc outer inner Ho Hi) as (ws & Ews & W1 & W2 & W3 & Wb & Wn & Wt).
  exists ws. destruct (cost_qual_eval_total So _ Q1 Q2) as (q & c & Ec & C1 & C2).
  destruct (cost_qual_eval_total So _ K1 K2) as (qh & ch & Eh & H1' & H2').
  unfold final_cost_hashjoin. set (vb := i2d (ws_numbuckets ws) * i2d (ws_numbatches ws)).
  destruct (if IsUniquePath inner then _ else _) as [ib hc'] eqn:Ehc.
  assert (Forall2 same_but_buckets hc hc') as Hsame.
  { destruct (IsUniquePath inner).
    - injection Ehc as _ <-. clear. induction hc as [|r hc IH]; constructor; [|exact IH].
      exists (left_bucketsize r), (right_bucketsize r). destruct r; reflexivity.
    - pose proof (bucketsize_loop_ok inner vb hc (i2d 1) Hb eq_refl) as [_ S]. rewrite Ehc in S. exact S. }
  pose proof (cost_qual_eval_buckets hc hc' zero_qual_cost Hsame) as Eb. unfold cost_qual_eval in Eh. rewrite Eh in Eb.
  unfold cost_qual_eval at 1. destruct (walk_list _ (qual_nodes hc') _) as [[qh' ch']|] eqn:Eh'; [subst ch'|contradiction].
  destruct (Hcov _ _ _ _ Eh Ec) as [Ls Lp]. cbn [rbind]. rewrite Ec. cbn [rbind].
  pose proof (nonneg_sub _ _ C1 H1' Ls) as D1. pose proof (nonneg_sub _ _ C2 H2' Lp) as D2.
  pose proof (startup_disabled So enable_hashjoin _ W1) as SD.
  pose proof (hash_probe_cost_ok jt extra _ (ws_run_cost ws) ch outer inner hc' ib vb _ Ho Hi Hf SD W2 (conj H1' H2')) as P.
  destruct (hash_probe_cost _ _ _ _ _ _ _ _ _ _) as [[s run] nt]. destruct P as (P1 & P2 & P3 & P4 & P5).
  assert (ws_startup_cost ws ⊑ s) as Ls'.
  { etransitivity; [|exact P2]. unfold disabled. destruct enable_hashjoin; [reflexivity|apply cle_add_l; auto with nneg]. }
  cbn [startup per_tuple].
  match goal with |- context [set_path_costs _ _ ?x _ _ _ _] =>
    assert (startup_ok enable_hashjoin x /\ ws_startup_cost ws ⊑ x) as [A1 A2] end.
  { split; [auto 8 with nneg|]. etransitivity; [exact Ls'|]. destruct P1 as [P1 _].
    etransitivity; apply cle_add_l; auto with nneg. }
  match goal with |- context [set_extra ?P _] =>
    assert (costs_ok enable_hashjoin (Ok P)) as (p & E & HP & HS) by (apply costs_ok_run; auto 10 with nneg);
    injection E as <- end.
  eexists. split; [exact Ews|]. split; [reflexivity|].
  split_and!; [destruct HP; split; assumption|exact HS| | |eexists; split; [reflexivity|exact Hsame]].
  - split; cbn; [exact A2|]. rewrite W3. destruct A1 as [A1 _]. apply cle_add; auto 10 with nneg.
    etransitivity; [exact P4|]. etransitivity; apply cle_add_l; auto 10 with nneg.
  - cbn. etransitivity; [exact Wt|exact A2].
Qed.

(** C6: initial_cost_hashjoin always chooses a hash table and is a lower bound:
    final_cost_hashjoin returns, its startup and total costs are at least the preliminary ones,
    it records the number of batches, and the startup cost covers reading the whole inner
    input.  (Hash clauses are among the join clauses, so subtracting their cost from that of
    all clauses leaves no negative charge.) *)
Theorem hashjoin_lower_bound ws0 path jt iu outer inner quals hc extra :
  join_ok path outer inner quals extra -> clauses_ok hc -> Forall buckets_ok hc -> quals_cover hc quals ->
  exists ws p, initial_cost_hashjoin ws0 hc outer inner = Some ws
    /\ final_cost_hashjoin path jt iu outer inner quals hc ws extra = Ok p
    /\ costed p /\ startup_ok enable_hashjoin (startup_cost p) /\ lower_bound ws p
    /\ total_cost inner ⊑ startup_cost p
    /\ exists hc', PlanTypes.extra p = XHashPath jt iu outer inner quals hc' (ws_numbatches ws)
                   /\ Forall2 same_but_buckets hc hc'.
Proof. apply hashjoin_costs_ok. Qed.

(** ** Merge joins *)

Lemma clamp_ge_rint x : nonneg x = true -> rint x ⊑ clamp_row_est x.
Proof.
  intros Hx. unfold clamp_row_est. destruct (x <=? i2d 1) eqn:E; [|reflexivity].
  apply rint_le_integral; [exact Hx|reflexivity|apply integral_i2d; lia|].
  apply dle_iff in E as [E _]; [exact E|exact Hx|reflexivity].
Qed.

Lemma clamp_fraction_le x f : row_count x -> nonneg f = true -> f ⊑ i2d 1 -> clamp_row_est (x * f) ⊑ x.
Proof.
  intros [Hx Fx Ix Px] Hf Lf. destruct (rint_fraction_le x f Hx Fx Ix Hf Lf) as (_ & L & _).
  unfold clamp_row_est. case_match; [|exact L]. destruct Ix as [I|[n En]]; [unfold finite in Fx; lia|].
  unfold cle. rewrite cmag_one, En. rewrite En in Px. pose proof (pow2_pos 1074 ltac:(lia)). nia.
Qed.

(** What initial_cost_mergejoin derives from one pair of selectivities: the
    asserted order of the row counts and of the adjusted fractions. *)
Lemma merge_fractions_ok x s e : row_count x -> fraction_ok s e ->
  let skip := rint (x * s) in let n := clamp_row_est (x * e) in
  nonneg skip = true /\ nonneg n = true /\ skip ⊑ n /\ nonneg (skip / x) = true /\ nonneg (n / x) = true
  /\ skip / x ⊑ n / x.
Proof.
  intros Hx (Hs & He & Lse & Le). assert (s ⊑ i2d 1) as Ls by (etransitivity; eassumption).
  pose proof Hx as [Nx Fx Ix Px]. cbv zeta.
  destruct (rint_fraction_le x s Nx Fx Ix Hs Ls) as (S1 & S2 & _).
  assert (rint (x * s) ⊑ clamp_row_est (x * e)) as L.
  { etransitivity; [|apply clamp_ge_rint; auto with nneg]. apply cle_rint; auto with nneg.
    apply cle_mul_l; assumption. }
  assert (rint (x * s) / x ⊑ i2d 1) as L1 by (apply div_le_one; assumption).
  split_and!; auto with nneg.
  apply cle_div_mono; auto with nneg.
  - pose proof (clamp_fraction_le x e Hx He Le). unfold finite, cle in *. lia.
  - pose proof (finite_i2d 1 ltac:(lia) ltac:(lia)). unfold finite, cle in *. lia.
Qed.

Context `{!LibmOrder}.

Lemma merge_input_cost_ok path x keys s e : costed path -> 0 <= width (pathtarget path) -> row_count x ->
  nonneg s = true -> nonneg e = true -> s ⊑ e ->
  let '(a, b, c) := merge_input_cost path x keys s e in nonneg a = true /\ nonneg b = true /\ nonneg c = true.
Proof.
  intros Hp Hw [Hx Fx _ _] Hs He L. pose proof Hp as [_ _ _ Ht _]. unfold merge_input_cost.
  assert (costed (match keys with [] => path
    | _ => cost_sort path (total_cost path) x (width (pathtarget path)) (i2d 0) work_mem (i2d (-1)) end)) as [_ C1 C2 C3 _].
  { destruct keys; [exact Hp|]. apply cost_sort_ok; try assumption; try reflexivity.
    - apply finite_isnan, Fx.
    - pose proof (work_mem_ok So). lia.
    - left. reflexivity. }
  pose proof (nonneg_sub _ _ C3 C1 C2). pose proof (nonneg_sub _ _ He Hs L). split_and!; auto with nneg.
Qed.

Definition cache_ok (cache : list MergeScanSelCache) : Prop :=
  Forall (fun c => fraction_ok (leftstartsel c) (leftendsel c) /\ fraction_ok (rightstartsel c) (rightendsel c)) cache.

Lemma cached_scansel_ok cache r k : cache_ok cache ->
  let (c, cache') := cached_scansel cache r k in
  (fraction_ok (leftstartsel c) (leftendsel c) /\ fraction_ok (rightstartsel c) (rightendsel c)) /\ cache_ok cache'.
Proof.
  intros Hc. unfold cached_scansel. destruct (List.find _ cache) as [c|] eqn:E.
  - split; [|exact Hc]. apply List.find_some in E as [Hin _]. unfold cache_ok in Hc. rewrite Forall_forall in Hc.
    apply Hc. apply list_elem_of_In, Hin.
  - destruct (mergejoinscansel _ _ _ _) as [[[ls le] rs] re] eqn:Es. pose proof (scansel_ok _ _ _ _ _ _ _ _ Es) as F.
    split; [exact F|]. apply Forall_app_2; [exact Hc|]. constructor; [exact F|constructor].
Qed.

(** The first path keys of the inputs agree, where merge clauses are used. *)
Definition merge_keys_ok (jt : JoinType) (mc : list RestrictInfo) (okeys ikeys : list PathKey) : Prop :=
  mc = [] \/ jt = JOIN_FULL \/ exists o ol i il, okeys = o :: ol /\ ikeys = i :: il
    /\ pk_opfamily o = pk_opfamily i /\ ec_collation (pk_eclass o) = ec_collation (pk_eclass i)
    /\ pk_strategy o = pk_strategy i /\ pk_nulls_first o = pk_nulls_first i.

Definition sort_or (keys : list PathKey) (path : Path) : list PathKey :=
  match keys with [] => pathkeys path | _ => keys end.

Lemma fraction_all : fraction_ok (i2d 0) (i2d 1).
Proof. split_and!; try reflexivity. apply cle_i2d; lia. Qed.

Lemma merge_scan_fractions_ok cache jt mc outer inner okeys ikeys : cache_ok cache ->
  merge_keys_ok jt mc (sort_or okeys outer) (sort_or ikeys inner) ->
  exists os oe is' ie cache', merge_scan_fractions cache jt mc outer inner okeys ikeys = Ok (os, oe, is', ie, cache')
    /\ fraction_ok os oe /\ fraction_ok is' ie /\ cache_ok cache'.
Proof.
  intros Hc Hk. pose proof fraction_all as FA. unfold merge_scan_fractions.
  destruct mc as [|r mc]; [do 5 eexists; split; [reflexivity|auto]|].
  destruct (bool_decide_reflect (jt = JOIN_FULL)) as [E|N]; [do 5 eexists; split; [reflexivity|auto]|].
  destruct Hk as [Hk|[Hk|(o & ol & i & il & Eo & Ei & E1 & E2 & E3 & E4)]]; [discriminate|contradiction|].
  unfold sort_or in *. rewrite Eo, Ei, E1, E2, E3, E4, !Z.eqb_refl, eqb_reflx. cbn [negb orb].
  pose proof (cached_scansel_ok cache r o Hc) as S. destruct (cached_scansel cache r o) as [c cache'].
  destruct S as [[F1 F2] S]. destruct (bms_is_subset _ _), jt; do 5 eexists; split; try reflexivity; auto.
Qed.

(** What final_cost_mergejoin relies on. *)
Record merge_ws_ok (ws : JoinCostWorkspace) : Prop := {
  mw_startup : nonneg (ws_startup_cost ws) = true;
  mw_run : nonneg (ws_run_cost ws) = true;
  mw_inner : nonneg (ws_inner_run_cost ws) = true;
  mw_total : ws_total_cost ws = ws_startup_cost ws + ws_run_cost ws + ws_inner_run_cost ws;
  mw_power : ws_power_cost ws = i2d 0;
  mw_oskip : nonneg (ws_outer_skip_rows ws) = true;
  mw_iskip : nonneg (ws_inner_skip_rows ws) = true;
  mw_outer : nonneg (ws_outer_rows ws - ws_outer_skip_rows ws) = true;
  mw_irows : nonneg (ws_inner_rows ws - ws_inner_skip_rows ws) = true;
}.

Lemma initial_cost_mergejoin_ok ws0 cache jt mc outer inner okeys ikeys : input_ok outer -> input_ok inner ->
  cache_ok cache -> merge_keys_ok jt mc (sort_or okeys outer) (sort_or ikeys inner) ->
  exists ws cache', initial_cost_mergejoin ws0 cache jt mc outer inner okeys ikeys = Ok (ws, cache')
    /\ merge_ws_ok ws /\ cache_ok cache'.
Proof.
  intros Ho Hi Hc Hk. pose proof (input_rows _ Ho) as Ro. pose proof (input_rows _ Hi) as Ri.
  destruct Ho as [Ho _ _ Ow], Hi as [Hi _ _ Iw].
  destruct (merge_scan_fractions_ok cache jt mc outer inner okeys ikeys Hc Hk)
    as (os & oe & is' & ie & cache' & E & Fo & Fi & Hc'). unfold initial_cost_mergejoin. rewrite E. cbn [rbind].
  destruct (merge_fractions_ok _ _ _ Ro Fo) as (A1 & A2 & A3 & A4 & A5 & A6).
  destruct (merge_fractions_ok _ _ _ Ri Fi) as (B1 & B2 & B3 & B4 & B5 & B6).
  pose proof (merge_input_cost_ok outer _ okeys _ _ Ho (proj1 Ow) Ro A4 A5 A6) as Mo.
  pose proof (merge_input_cost_ok inner _ ikeys _ _ Hi (proj1 Iw) Ri B4 B5 B6) as Mi.
  destruct (merge_input_cost outer _ _ _ _) as [[a1 a2] a3]. destruct (merge_input_cost inner _ _ _ _) as [[b1 b2] b3].
  destruct Mo as (? & ? & ?), Mi as (? & ? & ?).
  pose proof (nonneg_sub _ _ A2 A1 A3). pose proof (nonneg_sub _ _ B2 B1 B3).
  do 2 eexists. split; [reflexivity|]. split; [|exact Hc']. split; cbn; auto 10 with nneg.
Qed.

Lemma gt80_add_zero x : (x >? i2d 80) = false -> (i2d 0 + x >? i2d 80) = false.
Proof.
  intros E. rewrite dadd_comm. destruct (sval_add_zero x (i2d 0) eq_refl) as [Es En].
  destruct (isnan x) eqn:N; [apply dlt_nan_r; rewrite En; reflexivity|].
  rewrite dlt_sval in * by (assumption || reflexivity || (rewrite En; reflexivity)). rewrite Es. exact E.
Qed.

Lemma rescanned_nonneg m i : nonneg m = true -> nonneg i = true -> finite i ->
  nonneg (if m - i <? i2d 0 then i2d 0 else m - i) = true.
Proof.
  intros Hm Hi Fi. destruct (Z.le_gt_cases (cmag i) (cmag m)) as [L|L].
  { pose proof (nonneg_sub _ _ Hm Hi L). case_match; [reflexivity|assumption]. }
  assert (isnan m = false) as Nm by (apply isnan_cmag_false; unfold finite in Fi; lia).
  pose proof (sub_pos m i Hm Hi Nm Fi L) as P.
  assert (nonneg (i - m) = true) as Hn by (apply nonneg_sub; [assumption..|unfold cle; lia]).
  assert (isnan (i - m) = false) as Nn.
  { assert (i - m ⊑ i) as Lc by (apply cle_sub; [assumption..|unfold cle; lia]).
    apply isnan_cmag_false. unfold finite, cle in *. lia. }
  rewrite (dneg_sub m i Hm Hi Nm (finite_isnan i Fi) L).
  rewrite dlt_sval by (reflexivity || (rewrite isnan_dneg; exact Nn)). rewrite sval_dneg by assumption.
  change (sval (i2d 0)) with 0%Z. destruct (Z.ltb_spec (- cmag (i - m)) 0); [reflexivity|lia].
Qed.

(** The rescan ratio of a merge join is at least one. *)
Lemma rescanratio_ok b m i : nonneg m = true -> row_count i ->
  let r := if b : bool then i2d 0 else if m - i <? i2d 0 then i2d 0 else m - i in
  nonneg (i2d 1 + r / i) = true /\ i2d 1 ⊑ i2d 1 + r / i.
Proof.
  intros Hm [Hi Fi _ _]. cbv zeta. set (r := if b then _ else _).
  assert (nonneg r = true) as Hr by (unfold r; destruct b; [reflexivity|apply rescanned_nonneg; assumption]).
  split; [apply nonneg_add; [reflexivity|auto with nneg]|apply cle_add_l; [reflexivity|auto with nneg]].
Qed.

(** The final costs of a merge join are at least the preliminary ones. The preliminary total
    is the same sum in another order, which may differ in the last bit. *)
Definition merge_lower_bound (ws : JoinCostWorkspace) (p : Path) : Prop :=
  ws_total_cost ws = ws_startup_cost ws + ws_run_cost ws + ws_inner_run_cost ws
  /\ ws_startup_cost ws ⊑ startup_cost p
  /\ ws_startup_cost ws + (ws_run_cost ws + ws_inner_run_cost ws) ⊑ total_cost p.

Lemma mergejoin_costs_ok ws0 cache path jt iu outer inner quals mc okeys ikeys extra :
  join_ok path outer inner quals extra -> clauses_ok mc -> quals_cover mc quals -> cache_ok cache ->
  merge_keys_ok jt mc (sort_or okeys outer) (sort_or ikeys inner) ->
  exists ws cache' p run, initial_cost_mergejoin ws0 cache jt mc outer inner okeys ikeys = Ok (ws, cache')
    /\ cache_ok cache'
    /\ final_cost_mergejoin path jt iu outer inner quals mc okeys ikeys ws extra = Ok p
    /\ costed p /\ startup_ok enable_mergejoin (startup_cost p)
    /\ ws_startup_cost ws ⊑ startup_cost p
    /\ total_cost p = startup_cost p + run /\ ws_run_cost ws + ws_inner_run_cost ws ⊑ run
    /\ merge_lower_bound ws p
    /\ exists skip mat, PlanTypes.extra p = XMergePath jt iu outer inner quals mc okeys ikeys skip mat
         /\ (skip = true -> mat = false).
Proof.
  intros Hj [K1 K2] Hcov Hcache Hkeys. pose proof (join_rows_ok _ _ _ _ _ Hj) as Hrows.
  destruct Hj as [_ _ [T1 T2] Ho Hi [Q1 Q2] Hf].
  destruct (initial_cost_mergejoin_ok ws0 cache jt mc outer inner okeys ikeys Ho Hi Hcache Hkeys)
    as (ws & cache' & Ews & [W1 W2 W3 W4 W5 W6 W7 W8 W9] & Hc').
  exists ws, cache'. destruct (cost_qual_eval_total So _ Q1 Q2) as (q & c & Ec & C1 & C2).
  destruct (cost_qual_eval_total So _ K1 K2) as (qm & cm & Em & M1 & M2).
  destruct (Hcov _ _ _ _ Em Ec) as [Ls Lp].
  pose proof (nonneg_sub _ _ C1 M1 Ls) as D1. pose proof (nonneg_sub _ _ C2 M2 Lp) as D2.
  unfold final_cost_mergejoin. rewrite Em. cbn [rbind]. rewrite Ec. cbn [rbind startup per_tuple].
  pose proof (input_rows _ Hi) as Ri. pose proof Ri as [Ri1 _ _ _].
  assert (nonneg (approx_tuple_count outer inner mc) = true) as Htup by apply clamp_nonneg.
  set (smr := is_semi_anti jt extra && _).
  destruct (rescanratio_ok (IsUniquePath outer || smr) _ _ Htup Ri) as [R1 R2]. cbv zeta in R1, R2.
  set (ratio := i2d 1 + _ / _) in *. clearbody ratio.
  set (mat := materialize_decision _ _ _ _ _ _).
  assert (smr = true -> mat = false) as Hmat by (intros Es; unfold mat; rewrite Es; reflexivity). clearbody mat.
  set (x := if mat then (_, _) else (_, _)).
  assert (nonneg x.1 = true /\ ws_run_cost ws + ws_inner_run_cost ws ⊑ x.1) as [X1 X2].
  { unfold x. destruct mat; cbn [fst]; (split; [auto 8 with nneg|]); apply cle_add; auto 8 with nneg; try reflexivity.
    - apply cle_add_l; auto 8 with nneg.
    - apply cle_scale_any; assumption. }
  destruct x as [run io]. cbn [fst] in X1, X2.
  match goal with |- context [set_extra ?Q ?X] => match Q with set_path_costs _ _ ?s (_ + ?r) _ _ _ =>
    assert (startup_ok enable_mergejoin s /\ ws_startup_cost ws ⊑ s) as [A1 A2];
    [|assert (nonneg r = true /\ ws_run_cost ws + ws_inner_run_cost ws ⊑ r) as [B1 B2];
      [|exists (set_extra Q X), r]] end end.
  3:{ split; [exact Ews|]. split; [exact Hc'|]. split; [reflexivity|]. split; [|split; [exact A1|split; [exact A2|split; [reflexivity|split; [exact B2|split]]]]].
      - destruct A1 as [A1 _]. split; cbn; [exact Hrows|exact A1|apply cle_add_l; assumption|auto with nneg|].
        rewrite W5. apply gt80_add_zero, count_power_cost_bounded.
      - destruct A1 as [A1 _]. split_and!; [assumption|exact A2|]. apply cle_add; auto 8 with nneg.
      - exists smr, mat. split; [reflexivity|exact Hmat]. }
  - pose proof (startup_disabled So enable_mergejoin _ W1) as SD. split; [auto 14 with nneg|].
    transitivity (disabled enable_mergejoin (ws_startup_cost ws));
      [unfold disabled; destruct enable_mergejoin; [reflexivity|apply cle_add_l; auto with nneg]|]. destruct SD as [SD _].
    repeat (etransitivity; [|apply cle_add_l; auto 14 with nneg]). reflexivity.
  - split; [auto 14 with nneg|]. repeat (etransitivity; [|apply cle_add_l; auto 14 with nneg]). exact X2.
Qed.

(** C7: initial_cost_mergejoin succeeds when the first path keys of the inputs agree, keeps the
    selectivity cache valid, and its assertions on row counts and fractions hold;
    final_cost_mergejoin then returns a costed path that respects the preliminary estimate: its
    startup cost is at least the preliminary one, its run cost at least the preliminary run
    cost of both inputs, and its total cost at least the sum of the preliminary startup and
    run costs.  Marks are not used (and nothing is materialized) when mark/restore is
    skipped. *)
Theorem mergejoin_lower_bound ws0 cache path jt iu outer inner quals mc okeys ikeys extra :
  join_ok path outer inner quals extra -> clauses_ok mc -> quals_cover mc quals -> cache_ok cache ->
  merge_keys_ok jt mc (sort_or okeys outer) (sort_or ikeys inner) ->
  exists ws cache' p run, initial_cost_mergejoin ws0 cache jt mc outer inner okeys ikeys = Ok (ws, cache')
    /\ cache_ok cache'
    /\ final_cost_mergejoin path jt iu outer inner quals mc okeys ikeys ws extra = Ok p
    /\ costed p /\ startup_ok enable_mergejoin (startup_cost p)
    /\ ws_startup_cost ws ⊑ startup_cost p
    /\ total_cost p = startup_cost p + run /\ ws_run_cost ws + ws_inner_run_cost ws ⊑ run
    /\ merge_lower_bound ws p
    /\ exists skip mat, PlanTypes.extra p = XMergePath jt iu outer inner quals mc okeys ikeys skip mat
         /\ (skip = true -> mat = false).
Proof. apply mergejoin_costs_ok. Qed.

(** ** Caches and factors *)

(** Every entry holds what mergejoinscansel computes for its key. *)
Definition cache_coherent (r : RestrictInfo) (cache : list MergeScanSelCache) : Prop :=
  Forall (fun c => mergejoinscansel (clause r) (sc_opfamily c) (sc_strategy c) (sc_nulls_first c)
                   = (leftstartsel c, leftendsel c, rightstartsel c, rightendsel c)) cache.

(** The selectivity cache of a merge clause is transparent: cached_scansel returns what
    mergejoinscansel computes for the path key, keeps the cache coherent, and a second lookup
    with the same key finds the entry and leaves the cache alone. *)
Theorem cached_scansel_transparent cache r k : cache_coherent r cache ->
  let (c, cache') := cached_scansel cache r k in
  mergejoinscansel (clause r) (pk_opfamily k) (pk_strategy k) (pk_nulls_first k)
    = (leftstartsel c, leftendsel c, rightstartsel c, rightendsel c)
  /\ cache_coherent r cache' /\ cached_scansel cache' r k = (c, cache').
Proof.
  intros Hc. unfold cached_scansel. destruct (List.find (scansel_matches k) cache) as [c|] eqn:E.
  - rewrite E. split_and!; [|exact Hc|reflexivity]. apply List.find_some in E as [Hin Hm].
    unfold cache_coherent in Hc. rewrite Forall_forall in Hc. specialize (Hc c (proj2 (list_elem_of_In _ _) Hin)).
    unfold scansel_matches in Hm. rewrite !andb_true_iff, !Z.eqb_eq in Hm. destruct Hm as [[[E1 _] E3] E4].
    apply eqb_prop in E4. rewrite <- E1, <- E3, <- E4. exact Hc.
  - destruct (mergejoinscansel _ _ _ _) as [[[ls le] rs] re] eqn:Es.
    assert (forall c l, List.find (scansel_matches k) l = None -> scansel_matches k c = true ->
      List.find (scansel_matches k) (l ++ [c]) = Some c) as Fnd.
    { intros c l. induction l as [|x l IH]; simpl; [intros _ ->; reflexivity|].
      destruct (scansel_matches k x); [discriminate|exact IH]. }
    split_and!; [reflexivity| |].
    + apply Forall_app_2; [exact Hc|]. constructor; [exact Es|constructor].
    + rewrite Fnd; [reflexivity|exact E|]. unfold scansel_matches. cbn. rewrite !Z.eqb_refl, eqb_reflx. reflexivity.
Qed.

(** has_indexed_join_quals holds exactly when the join has no quals left to evaluate, the
    inner path is a parameterized simple (bitmap) index scan, every clause that can move into
    the inner scan is one of its index clauses or derived from the same equivalence class, and
    there is at least one such clause. *)
Theorem has_indexed_join_quals_spec path inner quals :
  has_indexed_join_quals path inner quals = true <->
  quals = [] /\ exists ppi ic, param_info inner = Some ppi /\ simple_indexclauses inner = Some ic
    /\ let movable r := join_clause_is_movable_into r (relids (parent inner)) (relids (parent path)) = true in
       Forall (fun r => movable r -> list_member_ptr ic r = true \/ is_redundant_derived_clause r ic = true)
         (ppi_clauses ppi)
       /\ Exists movable (ppi_clauses ppi).
Proof.
  unfold has_indexed_join_quals. destruct quals; [|split; [discriminate|intros [? _]; discriminate]].
  destruct (param_info inner) as [ppi|]; [|split; [discriminate|intros (_ & ? & ? & ? & _); discriminate]].
  destruct (simple_indexclauses inner) as [ic|]; [|split; [discriminate|intros (_ & ? & ? & _ & ? & _); discriminate]].
  set (mv := fun r => join_clause_is_movable_into r (relids (parent inner)) (relids (parent path))).
  assert (forall l b, indexed_quals_loop l ic (relids (parent inner)) (relids (parent path)) b = true <->
    Forall (fun r => mv r = true -> list_member_ptr ic r = true \/ is_redundant_derived_clause r ic = true) l
    /\ (b = true \/ Exists (fun r => mv r = true) l)) as Loop.
  { induction l as [|r l IH]; intros b; cbn [indexed_quals_loop].
    - rewrite Exists_nil. split; [intros ->; split; [constructor|left; reflexivity]|intros [_ [Hb|[]]]; exact Hb].
    - change (join_clause_is_movable_into r _ _) with (mv r). rewrite Forall_cons, Exists_cons.
      destruct (mv r) eqn:M; cycle 1; [rewrite IH; intuition discriminate|].
      destruct (list_member_ptr ic r) eqn:L1, (is_redundant_derived_clause r ic) eqn:L2; cbn [orb negb];
        rewrite ?IH; intuition discriminate. }
  rewrite Loop. split.
  - intros [A [B|B]]; [discriminate|]. split; [reflexivity|]. exists ppi, ic. auto.
  - intros (_ & ppi' & ic' & [= <-] & [= <-] & A & B). auto.
Qed.

Lemma isnan_div x y : nonneg x = true -> nonneg y = true -> isnan x = false -> finite y -> (0 < cmag y)%Z ->
  isnan (x / y) = false.
Proof.
  intros Hx Hy Nx Fy Py. unfold isnan, finite, cmag, ddiv in *. cbn [SF] in *.
  destruct y as [[[]|[]| |[] my ey] Vy]; try discriminate Hy; cbn [SF fmag] in *; try lia.
  destruct x as [[[]|[]| |[] mx ex] Vx]; try discriminate Hx; try discriminate Nx; try reflexivity.
  cbn [SF SpecFloat.SFdiv xorb]. destruct (SpecFloat.SFdiv_core_binary _ _ _ _ _ _) as [[q e] l] eqn:E.
  pose proof (div_core_texp mx ex my ey) as T. rewrite E in T. destruct T as [T1 T2].
  destruct (round_aux_fits false q e l T1 T2) as (n & -> & _). unfold norm. repeat case_match; simplify_eq; reflexivity.
Qed.

Lemma dMax_one x : nonneg x = true -> isnan x = false ->
  nonneg (dMax (i2d 1) x) = true /\ isnan (dMax (i2d 1) x) = false /\ i2d 1 ⊑ dMax (i2d 1) x.
Proof.
  intros Hx Nx. unfold dMax. destruct (i2d 1 >? x) eqn:E; [split_and!; reflexivity|]. split_and!; [assumption..|].
  rewrite dlt_sval, !sval_nonneg in E by (assumption || reflexivity). unfold cle. lia.
Qed.

(** A scan fraction [2 / (m + 1)] with [m] at least one is at most one. *)
Lemma scan_frac_le_one m : nonneg m = true -> isnan m = false -> i2d 1 ⊑ m -> i2d 2 / (m + i2d 1) ⊑ i2d 1.
Proof.
  intros Hm Nm Lm. assert (nonneg (m + i2d 1) = true) as Hs by (apply nonneg_add; [exact Hm|reflexivity]).
  assert (i2d 2 ⊑ m + i2d 1) as L.
  { replace (i2d 2) with (i2d 1 + i2d 1); [|apply cmag_inj; [reflexivity..|vm_compute; reflexivity]].
    apply cle_add; try reflexivity; assumption. }
  destruct (decide (finite (m + i2d 1))) as [F|F].
  - apply div_le_one; [reflexivity|exact Hs|exact F| |exact L].
    unfold cle in L. rewrite cmag_i2d in L by lia. lia.
  - assert (isnan (m + i2d 1) = false) as N by (rewrite isnan_add, Nm by (assumption || reflexivity); reflexivity).
    destruct (m + i2d 1) as [[[]|[]| |[] k e] V]; try discriminate Hs; try discriminate N.
    + exfalso. apply F. apply HUGE_pos.
    + apply cle_eval. vm_compute. reflexivity.
    + exfalso. apply F. unfold finite, cmag. cbn [SF fmag]. apply (finite_fmag_lt k e V).
Qed.

(** With selectivities that are fractions and a finite inner row count,
    compute_semi_anti_join_factors estimates at least one match per matched outer row, so the
    fraction 2/(match_count+1) of the inner rows that final_cost_nestloop and
    final_cost_hashjoin scan never exceeds one, as their comments claim. *)
Theorem semi_anti_factors_spec outerrel innerrel jt sj quals :
  (forall l z j s, nonneg (clauselist_selectivity l z j s) = true /\ clauselist_selectivity l z j s ⊑ i2d 1) ->
  nonneg (rel_rows innerrel) = true -> finite (rel_rows innerrel) ->
  let f := compute_semi_anti_join_factors outerrel innerrel jt sj quals in
  factors_ok f /\ i2d 1 ⊑ match_count f /\ i2d 2 / (match_count f + i2d 1) ⊑ i2d 1.
Proof.
  intros Hsel Hr Fr f. unfold f, compute_semi_anti_join_factors.
  set (j := clauselist_selectivity _ _ _ (Some sj)). set (n := clauselist_selectivity _ _ _ (Some (mkSpecialJoinInfo _ _ _ _ _ _))).
  destruct (Hsel _ _ _ _ : nonneg j = true /\ j ⊑ i2d 1) as [Hj Lj].
  destruct (Hsel _ _ _ _ : nonneg n = true /\ n ⊑ i2d 1) as [Hn Ln].
  assert (forall x, x ⊑ i2d 1 -> finite x) as Fin.
  { intros x L. pose proof (finite_i2d 1 ltac:(lia) ltac:(lia)). unfold finite, cle in *. lia. }
  set (avg := if j >? i2d 0 then _ else _).
  assert (nonneg avg = true /\ isnan avg = false /\ i2d 1 ⊑ avg) as (A1 & A2 & A3).
  { unfold avg. destruct (j >? i2d 0) eqn:E; [|split_and!; reflexivity]. apply dMax_one; [auto with nneg|].
    apply dlt_iff in E as [E _]; [|reflexivity|exact Hj]. change (cmag (i2d 0)) with 0%Z in E.
    apply isnan_div; [auto with nneg|exact Hj| |apply Fin, Lj|exact E].
    apply isnan_cmag_false. rewrite cmag_mul by (assumption || apply Fin, Ln). unfold sat. lia. }
  split; [split; assumption|]. split; [exact A3|]. apply scan_frac_le_one; assumption.
Qed.

End spec.

(** ** Witnesses *)

#[local] Existing Instance default_settings.

(** Estimates that are fractions. *)
#[export] Instance sample_estimator : Estimator := {|
  clause_selectivity := fun _ _ _ _ => dlit 1 100;
  clauselist_selectivity := fun l _ _ _ => match l with [] => i2d 1 | _ => dlit 1 10 end;
  mergejoinscansel := fun _ _ _ _ => (i2d 0, dlit 1 2, i2d 0, i2d 1);
  estimate_hash_bucketsize := fun _ _ => dlit 1 1000;
  ec_collation := fun _ => 0 |}.

#[export] Instance sample_estimator_laws : EstimatorLaws.
Proof.
  split; [reflexivity| | |].
  - intros n o st nf ls le rs re [= <- <- <- <-]. repeat split; try reflexivity; apply cle_eval; vm_compute; reflexivity.
  - intros [|r l] z j s; (split; [reflexivity|apply cle_eval; vm_compute; reflexivity]).
  - reflexivity.
Qed.

Definition join_input : Path := sample_path (i2d 1) (i2d 10) (i2d 40).

Lemma join_input_ok : input_ok join_input.
Proof.
  split; [exact sample_costed|apply integral_i2d; lia|apply finite_i2d; lia|cbn; lia].
Qed.

(** [x = 1] as a join clause. *)
Definition sample_rinfo : RestrictInfo :=
  mkRestrictInfo 1 (OpExpr 96 0 [Var 1 1; Const false true]) false false
    (Some [2]) None None None None None None (mkQualCost (i2d (-1)) (i2d 0)) (i2d (-1)) (i2d (-1)) no_join.

Lemma sample_clauses_ok : clauses_ok [sample_rinfo].
Proof.
  split; [exact (Forall_cons_2 _ _ _ sample_qual_ok (Forall_nil_2 _))
         |exact (Forall_cons_2 _ _ _ sample_qual_planned (Forall_nil_2 _))].
Qed.

Definition sample_jextra : JoinPathExtraData :=
  mkJoinPathExtraData false (mkSemiAntiJoinFactors (dlit 1 10) (i2d 1)).

Lemma sample_join_ok : join_ok scan_path join_input join_input [sample_rinfo] sample_jextra.
Proof.
  split; [reflexivity|exact I|apply sample_target_ok; reflexivity|exact join_input_ok|exact join_input_ok
         |exact sample_clauses_ok|].
  split; [reflexivity|apply cle_eval; vm_compute; reflexivity|reflexivity].
Qed.

Definition empty_workspace : JoinCostWorkspace :=
  mkWorkspace dzero dzero dzero dzero dzero dzero dzero dzero dzero dzero dzero dzero 0 0.

Lemma nestloop_lower_bound_witness :
  let ws := initial_cost_nestloop empty_workspace JOIN_SEMI join_input join_input sample_jextra in
  exists p, final_cost_nestloop scan_path JOIN_SEMI join_input join_input [sample_rinfo] ws sample_jextra = Ok p
    /\ costed p /\ startup_ok enable_nestloop (startup_cost p) /\ lower_bound ws p.
Proof.
  exact (nestloop_lower_bound default_settings_ok empty_workspace scan_path JOIN_SEMI join_input join_input
    [sample_rinfo] sample_jextra sample_join_ok).
Defined.

Lemma sample_cover : quals_cover [sample_rinfo] [sample_rinfo].
Proof. intros q1 c1 q2 c2 E1 E2. rewrite E1 in E2. injection E2 as <- <-. split; reflexivity. Qed.

Lemma sample_buckets_ok : Forall buckets_ok [sample_rinfo].
Proof. constructor; [split; left; reflexivity|constructor]. Qed.

Lemma hashjoin_lower_bound_witness :
  exists ws p, initial_cost_hashjoin empty_workspace [sample_rinfo] join_input join_input = Some ws
    /\ final_cost_hashjoin scan_path JOIN_INNER false join_input join_input [sample_rinfo] [sample_rinfo] ws
         sample_jextra = Ok p
    /\ costed p /\ startup_ok enable_hashjoin (startup_cost p) /\ lower_bound ws p
    /\ total_cost join_input ⊑ startup_cost p
    /\ exists hc', PlanTypes.extra p = XHashPath JOIN_INNER false join_input join_input [sample_rinfo] hc' (ws_numbatches ws)
                   /\ Forall2 same_but_buckets [sample_rinfo] hc'.
Proof.
  exact (hashjoin_lower_bound default_settings_ok empty_workspace scan_path JOIN_INNER false join_input join_input
    [sample_rinfo] [sample_rinfo] sample_jextra sample_join_ok sample_clauses_ok sample_buckets_ok sample_cover).
Defined.

Definition sample_key : PathKey := mkPathKey 1 1 1976 1 false.

Lemma mergejoin_lower_bound_witness :
  exists ws cache' p run, initial_cost_mergejoin empty_workspace [] JOIN_INNER [sample_rinfo] join_input join_input
      [sample_key] [sample_key] = Ok (ws, cache')
    /\ cache_ok cache'
    /\ final_cost_mergejoin scan_path JOIN_INNER false join_input join_input [sample_rinfo] [sample_rinfo]
         [sample_key] [sample_key] ws sample_jextra = Ok p
    /\ costed p /\ startup_ok enable_mergejoin (startup_cost p)
    /\ ws_startup_cost ws ⊑ startup_cost p
    /\ total_cost p = startup_cost p + run /\ ws_run_cost ws + ws_inner_run_cost ws ⊑ run
    /\ merge_lower_bound ws p
    /\ exists skip mat, PlanTypes.extra p = XMergePath JOIN_INNER false join_input join_input [sample_rinfo] [sample_rinfo]
           [sample_key] [sample_key] skip mat
         /\ (skip = true -> mat = false).
Proof.
  apply (mergejoin_lower_bound default_settings_ok empty_workspace [] scan_path JOIN_INNER false join_input join_input
    [sample_rinfo] [sample_rinfo] [sample_key] [sample_key] sample_jextra
    sample_join_ok sample_clauses_ok sample_cover (Forall_nil_2 _)).
  right. right. exists sample_key, [], sample_key, []. split_and!; reflexivity.
Defined.

Lemma cached_scansel_transparent_witness :
  let (c, cache') := cached_scansel [] sample_rinfo sample_key in
  mergejoinscansel (clause sample_rinfo) (pk_opfamily sample_key) (pk_strategy sample_key) (pk_nulls_first sample_key)
    = (leftstartsel c, leftendsel c, rightstartsel c, rightendsel c)
  /\ cache_coherent sample_rinfo cache' /\ cached_scansel cache' sample_rinfo sample_key = (c, cache').
Proof. exact (cached_scansel_transparent [] sample_rinfo sample_key (Forall_nil_2 _)). Defined.

Lemma semi_anti_factors_spec_witness :
  let f := compute_semi_anti_join_factors sample_rel sample_rel JOIN_ANTI
             (mkSpecialJoinInfo None None None None JOIN_ANTI false) [sample_rinfo] in
  factors_ok f /\ i2d 1 ⊑ match_count f /\ i2d 2 / (match_count f + i2d 1) ⊑ i2d 1.
Proof.
  apply (semi_anti_factors_spec sample_rel sample_rel JOIN_ANTI
    (mkSpecialJoinInfo None None None None JOIN_ANTI false) [sample_rinfo]).
  - intros [|? ?] ? ? ?; (split; [reflexivity|apply cle_eval; vm_compute; reflexivity]).
  - reflexivity.
  - apply finite_i2d; lia.
Defined.
