(* ===== verification/SizeEst.v ===== *)
(** Size estimates (optimizer/path/costsize.c): rows of base relations, of
    parameterized scans and of joins, with the clauses that foreign keys take
    over, and the width of relations and targets. *)
From S2P Require Import Prelude Float64 Double DoubleOrder DoubleDiv Bitmapset PlanTypes Samples PathCompare CostExpr CostBase CostScan CostNode HashSize CostJoin.
Open Scope double_scope.

(** A foreign key constraint matched to the query (nodes/relation.h); the
    arrays of its columns are lists of length nkeys. *)
Record ForeignKeyOptInfo := mkForeignKey {
  con_relid : Z;
  ref_relid : Z;
  fk_eclass : list (option Z);
  fk_rinfos : list (list RestrictInfo);
  nmatched_ec : Z;
  nmatched_ri : Z;
}.

(** A column of a table: is it dropped, and the width get_typavgwidth gives for its
    type. *)
Record Attribute := mkAttribute { attisdropped : bool; att_typwidth : Z }.

(** The catalog lookups of widths (lsyscache.c, plancat.c). *)
Class Widths := {
  get_attavgwidth : Oid -> Z -> Z;
  rd_att : Oid -> list Attribute;   (* the columns of a table *)
}.

(** The attribute cache of a RelOptInfo. *)
Record RelAttrs := mkRelAttrs { min_attr : Z; max_attr : Z; attr_widths : list Z }.

(** An expression of a relation's target as set_rel_width and
    set_pathtarget_cost_width see it: a column of the relation with the width
    get_typavgwidth gives for its type, a placeholder with the width in its
    PlaceHolderInfo, or another expression with the width of its type. *)
Inductive TargetExpr :=
| TVar (varattno typwidth : Z)
| TPlaceHolder (ph_width typwidth : Z) (phexpr : Node)
| TExpr (typwidth : Z) (node : Node).

(** The RelOptInfo fields the size estimates set. *)
Definition set_rel_sizes (rel : RelOptInfo) (rows' : double) (tuples' : double) (target : PathTarget)
    (quals : list RestrictInfo) (qcost : QualCost) : RelOptInfo :=
  {| reloptkind := reloptkind rel; relids := relids rel; rel_rows := rows';
     consider_startup := consider_startup rel; consider_param_startup := consider_param_startup rel;
     consider_parallel := consider_parallel rel; reltarget := target; relid := relid rel;
     reltablespace := reltablespace rel; rtekind := rtekind rel; pages := pages rel; tuples := tuples';
     allvisfrac := allvisfrac rel; rel_parallel_workers := rel_parallel_workers rel;
     baserestrictinfo := quals; baserestrictcost := qcost |}.

Definition set_tuples (rel : RelOptInfo) (tuples' : double) : RelOptInfo :=
  set_rel_sizes rel (rel_rows rel) tuples' (reltarget rel) (baserestrictinfo rel) (baserestrictcost rel).

(** The clauses of a list of RestrictInfo nodes after their caches were filled. *)
Fixpoint rinfo_nodes (l : list Node) : list RestrictInfo :=
  match l with
  | RestrictInfoNode r :: l => r :: rinfo_nodes l
  | _ :: l => rinfo_nodes l
  | [] => []
  end.

(** ** Widths *)

Section width.
Context `{Settings, Catalog, Widths}.

(** [attr_widths[ndx]]; an index outside the array fails an assertion. *)
Definition attr_at (ws : list Z) (ndx : Z) : result Z :=
  if (ndx <? 0)%Z then Error "attribute number out of range"
  else match ws !! Z.to_nat ndx with Some w => Ok w | None => Error "attribute number out of range" end.

(** State of the loop: widths, cost, tuple_width (an int32), have_wholerow_var. *)
Fixpoint rel_width_loop (reloid : Oid) (minattr : Z) (items : list TargetExpr) (ws : list Z) (cost : QualCost)
    (tuple_width : Z) (wholerow : bool) : result (list Z * QualCost * Z * bool) :=
  match items with
  | [] => Ok (ws, cost, tuple_width, wholerow)
  | TVar varattno typwidth :: items =>
      let ndx := (varattno - minattr)%Z in
      if (varattno =? 0)%Z then rel_width_loop reloid minattr items ws cost tuple_width true
      else
        let! w := attr_at ws ndx in
        if (w >? 0)%Z then rel_width_loop reloid minattr items ws cost (wrap32 (tuple_width + w)) wholerow
        else
          let item_width := if negb (reloid =? 0)%Z && (varattno >? 0)%Z then get_attavgwidth reloid varattno else 0%Z in
          let! item_width := if (item_width >? 0)%Z then Ok item_width
                             else let! _ := Assert (typwidth >? 0)%Z in Ok typwidth in
          rel_width_loop reloid minattr items (<[Z.to_nat ndx := item_width]> ws) cost (wrap32 (tuple_width + item_width)) wholerow
  | TPlaceHolder ph_width _ phexpr :: items =>
      let! (_, c) := cost_qual_eval_node phexpr in
      rel_width_loop reloid minattr items ws (charge cost c) (wrap32 (tuple_width + ph_width)) wholerow
  | TExpr typwidth node :: items =>
      let! _ := Assert (typwidth >? 0)%Z in
      let! (_, c) := cost_qual_eval_node node in
      rel_width_loop reloid minattr items ws (charge cost c) (wrap32 (tuple_width + typwidth)) wholerow
  end.

(** get_rel_data_width: the columns from number [i] on, with their cached widths and
    their sum. *)
Fixpoint rel_data_width_loop (reloid : Oid) (minattr i : Z) (atts : list Attribute) (ws : list Z) (tuple_width : Z)
    : result (list Z * Z) :=
  match atts with
  | [] => Ok (ws, tuple_width)
  | att :: atts =>
      if attisdropped att then rel_data_width_loop reloid minattr (i + 1) atts ws tuple_width
      else
        let! w := attr_at ws (i - minattr)%Z in
        if (w >? 0)%Z then rel_data_width_loop reloid minattr (i + 1) atts ws (wrap32 (tuple_width + w))
        else
          let! item_width := if (get_attavgwidth reloid i <=? 0)%Z
                             then let! _ := Assert (att_typwidth att >? 0)%Z in Ok (att_typwidth att)
                             else Ok (get_attavgwidth reloid i) in
          rel_data_width_loop reloid minattr (i + 1) atts (<[Z.to_nat (i - minattr) := item_width]> ws)
            (wrap32 (tuple_width + item_width))
  end.

Definition get_relation_data_width (reloid : Oid) (minattr : Z) (ws : list Z) : result (list Z * Z) :=
  rel_data_width_loop reloid minattr 1 (rd_att reloid) ws 0.

(** [for (i = 1; i <= rel->max_attr; i++)] over the cached widths. *)
Fixpoint sum_widths (n : nat) (i minattr : Z) (ws : list Z) (acc : Z) : result Z :=
  match n with
  | O => Ok acc
  | S n => let! w := attr_at ws (i - minattr)%Z in sum_widths n (i + 1) minattr ws (wrap32 (acc + w))
  end.

(** The target's cost and width, and the cached widths; [reloid] is 0 for a
    relation that is not a table. *)
Definition set_rel_width (reloid : Oid) (attrs : RelAttrs) (items : list TargetExpr) (target : PathTarget)
    : result (PathTarget * RelAttrs) :=
  let! (ws, cost, tuple_width, wholerow) :=
    rel_width_loop reloid (min_attr attrs) items (attr_widths attrs) zero_qual_cost 0 false in
  if wholerow then
    let wholerow_width := MAXALIGN SizeofHeapTupleHeader in
    let! (ws, wholerow_width) :=
      if negb (reloid =? 0)%Z
      then let! (ws, data_width) := get_relation_data_width reloid (min_attr attrs) ws in
           Ok (ws, wrap32 (wholerow_width + data_width))
      else let! w := sum_widths (Z.to_nat (max_attr attrs)) 1 (min_attr attrs) ws wholerow_width in Ok (ws, w) in
    let! _ := attr_at ws (0 - min_attr attrs)%Z in
    let tuple_width := wrap32 (tuple_width + wholerow_width) in
    let! _ := Assert (tuple_width >=? 0)%Z in
    Ok (mkPathTarget (exprs target) cost tuple_width,
        mkRelAttrs (min_attr attrs) (max_attr attrs) (<[Z.to_nat (0 - min_attr attrs) := wholerow_width]> ws))
  else
    let! _ := Assert (tuple_width >=? 0)%Z in
    Ok (mkPathTarget (exprs target) cost tuple_width, mkRelAttrs (min_attr attrs) (max_attr attrs) ws).

(** [cached] is the width in the RelOptInfo a Var belongs to, when there is one;
    here a Var comes with its attribute number in its relation. *)
Fixpoint pathtarget_loop (cached : Z -> option Z) (items : list TargetExpr) (cost : QualCost) (tuple_width : Z)
    : result (QualCost * Z) :=
  match items with
  | [] => Ok (cost, tuple_width)
  | TVar varattno typwidth :: items =>
      let cached_width := default 0%Z (cached varattno) in
      let! w := if (cached_width >? 0)%Z then Ok cached_width
                else let! _ := Assert (typwidth >? 0)%Z in Ok typwidth in
      pathtarget_loop cached items cost (wrap32 (tuple_width + w))
  | TPlaceHolder _ typwidth phexpr :: items =>
      let! _ := Assert (typwidth >? 0)%Z in
      let! (_, c) := cost_qual_eval_node (PlaceHolderVar phexpr) in
      pathtarget_loop cached items (charge cost c) (wrap32 (tuple_width + typwidth))
  | TExpr typwidth node :: items =>
      let! _ := Assert (typwidth >? 0)%Z in
      let! (_, c) := cost_qual_eval_node node in
      pathtarget_loop cached items (charge cost c) (wrap32 (tuple_width + typwidth))
  end.

Definition set_pathtarget_cost_width (cached : Z -> option Z) (items : list TargetExpr) (target : PathTarget)
    : result PathTarget :=
  let! (cost, tuple_width) := pathtarget_loop cached items zero_qual_cost 0 in
  let! _ := Assert (tuple_width >=? 0)%Z in
  Ok (mkPathTarget (exprs target) cost tuple_width).
End width.

(** ** Rows *)

(** The PlannerInfo members the join size estimates use. *)
Record JoinRoot := mkJoinRoot {
  fkey_list : list ForeignKeyOptInfo;
  simple_rel_array : Z -> option RelOptInfo;
}.

Section rows.
Context `{Settings, Catalog, Widths, Estimator}.

Definition set_baserel_size_estimates (reloid : Oid) (attrs : RelAttrs) (items : list TargetExpr) (rel : RelOptInfo)
    : result (RelOptInfo * RelAttrs) :=
  let nrows := tuples rel * clauselist_selectivity (baserestrictinfo rel) 0 JOIN_INNER None in
  let rows := clamp_row_est nrows in
  let! (quals, qcost) := cost_qual_eval (qual_nodes (baserestrictinfo rel)) in
  let! (target, attrs) := set_rel_width reloid attrs items (reltarget rel) in
  Ok (set_rel_sizes rel rows (tuples rel) target (rinfo_nodes quals) qcost, attrs).

Definition get_parameterized_baserel_size (rel : RelOptInfo) (param_clauses : list RestrictInfo) : double :=
  let allclauses := param_clauses ++ baserestrictinfo rel in
  let nrows := tuples rel * clauselist_selectivity allclauses (relid rel) JOIN_INNER None in
  let nrows := clamp_row_est nrows in
  if nrows >? rel_rows rel then rel_rows rel else nrows.

(** set_function_size_estimates: the largest function result. *)
Fixpoint function_rows (ntups : list double) (tuples : double) : double :=
  match ntups with
  | [] => tuples
  | ntup :: ntups => function_rows ntups (if ntup >? tuples then ntup else tuples)
  end.

(** [ntups] are the results of expression_returns_set_rows. *)
Definition set_function_size_estimates (reloid : Oid) (attrs : RelAttrs) (items : list TargetExpr)
    (ntups : list double) (rel : RelOptInfo) : result (RelOptInfo * RelAttrs) :=
  set_baserel_size_estimates reloid attrs items (set_tuples rel (function_rows ntups (i2d 0))).

Definition set_tablefunc_size_estimates (reloid : Oid) (attrs : RelAttrs) (items : list TargetExpr)
    (rel : RelOptInfo) : result (RelOptInfo * RelAttrs) :=
  set_baserel_size_estimates reloid attrs items (set_tuples rel (i2d 100)).

Definition set_values_size_estimates (reloid : Oid) (attrs : RelAttrs) (items : list TargetExpr)
    (nvalues : Z) (rel : RelOptInfo) : result (RelOptInfo * RelAttrs) :=
  set_baserel_size_estimates reloid attrs items (set_tuples rel (i2d nvalues)).

Definition set_cte_size_estimates (reloid : Oid) (attrs : RelAttrs) (items : list TargetExpr)
    (self_reference : bool) (cte_rows : double) (rel : RelOptInfo) : result (RelOptInfo * RelAttrs) :=
  set_baserel_size_estimates reloid attrs items
    (set_tuples rel (if self_reference then i2d 10 * cte_rows else cte_rows)).

Definition set_namedtuplestore_size_estimates (reloid : Oid) (attrs : RelAttrs) (items : list TargetExpr)
    (enrtuples : double) (rel : RelOptInfo) : result (RelOptInfo * RelAttrs) :=
  set_baserel_size_estimates reloid attrs items
    (set_tuples rel (if enrtuples <? i2d 0 then i2d 1000 else enrtuples)).

Definition set_foreign_size_estimates (reloid : Oid) (attrs : RelAttrs) (items : list TargetExpr) (rel : RelOptInfo)
    : result (RelOptInfo * RelAttrs) :=
  let! (quals, qcost) := cost_qual_eval (qual_nodes (baserestrictinfo rel)) in
  let! (target, attrs) := set_rel_width reloid attrs items (reltarget rel) in
  Ok (set_rel_sizes rel (i2d 1000) (tuples rel) target (rinfo_nodes quals) qcost, attrs).

(** A column of the subquery's target list: resjunk, resno, and the width cached
    for a plain Var of a subquery without set operations. *)
Record SubTarget := mkSubTarget { resjunk : bool; resno : Z; var_width : option Z }.

Fixpoint subquery_widths (tlist : list SubTarget) (attrs : RelAttrs) : result RelAttrs :=
  match tlist with
  | [] => Ok attrs
  | te :: tlist =>
      if resjunk te then subquery_widths tlist attrs
      else if (resno te <? min_attr attrs)%Z || (resno te >? max_attr attrs)%Z then subquery_widths tlist attrs
      else
        let item_width := default 0%Z (var_width te) in
        let ndx := (resno te - min_attr attrs)%Z in
        let! _ := attr_at (attr_widths attrs) ndx in
        subquery_widths tlist
          (mkRelAttrs (min_attr attrs) (max_attr attrs) (<[Z.to_nat ndx := item_width]> (attr_widths attrs)))
  end.

(** [sub_rows] is the row count of the subquery's cheapest path. *)
Definition set_subquery_size_estimates (reloid : Oid) (attrs : RelAttrs) (items : list TargetExpr)
    (sub_rows : double) (tlist : list SubTarget) (rel : RelOptInfo) : result (RelOptInfo * RelAttrs) :=
  let rel := set_tuples rel sub_rows in
  let! attrs := subquery_widths tlist attrs in
  set_baserel_size_estimates reloid attrs items rel.

(** ** Foreign keys *)

Definition find_base_rel (root : JoinRoot) (relid : Z) : result RelOptInfo :=
  match simple_rel_array root relid with
  | Some rel => Ok rel
  | None => Error "no relation entry for relid"
  end.

(** Does the clause match a column of the foreign key? *)
Definition matches_fk (fkinfo : ForeignKeyOptInfo) (rinfo : RestrictInfo) : bool :=
  match parent_ec rinfo with
  | Some ec => existsb (fun e => bool_decide (e = Some ec)) (fk_eclass fkinfo)
  | None => existsb (fun l => list_member_ptr l rinfo) (fk_rinfos fkinfo)
  end.

(** Which side of the join the foreign key refers to: None if it does not
    connect the two sides. *)
Definition fk_ref_is_outer (fkinfo : ForeignKeyOptInfo) (outer_relids inner_relids : Relids) : result (option bool) :=
  let! c_out := bms_is_member (con_relid fkinfo) outer_relids in
  let! r_in := if c_out : bool then bms_is_member (ref_relid fkinfo) inner_relids else Ok false in
  if (c_out && r_in) : bool then Ok (Some false)
  else
    let! r_out := bms_is_member (ref_relid fkinfo) outer_relids in
    let! c_in := if r_out : bool then bms_is_member (con_relid fkinfo) inner_relids else Ok false in
    if (r_out && c_in) : bool then Ok (Some true) else Ok None.

Definition semi_or_anti (jointype : JoinType) : bool :=
  bool_decide (jointype = JOIN_SEMI) || bool_decide (jointype = JOIN_ANTI).

Definition fk_selectivity (jointype : JoinType) (ref_rel : RelOptInfo) : Selectivity :=
  let ref_tuples := dMax (tuples ref_rel) (i2d 1) in
  if semi_or_anti jointype then rel_rows ref_rel / ref_tuples else i2d 1 / ref_tuples.

(** The selectivity of the clauses that match foreign keys, and the others. *)
Fixpoint fk_loop (root : JoinRoot) (fkeys : list ForeignKeyOptInfo) (outer_relids inner_relids : Relids)
    (jointype : JoinType) (worklist : list RestrictInfo) (fkselec : Selectivity)
    : result (Selectivity * list RestrictInfo) :=
  match fkeys with
  | [] => Ok (fkselec, worklist)
  | fkinfo :: fkeys =>
      let! side := fk_ref_is_outer fkinfo outer_relids inner_relids in
      match side with
      | None => fk_loop root fkeys outer_relids inner_relids jointype worklist fkselec
      | Some ref_is_outer =>
          if semi_or_anti jointype
             && (ref_is_outer || negb (match bms_membership inner_relids with BMS_SINGLETON => true | _ => false end))
          then fk_loop root fkeys outer_relids inner_relids jointype worklist fkselec
          else
            let removedlist := List.filter (matches_fk fkinfo) worklist in
            let kept := List.filter (fun r => negb (matches_fk fkinfo r)) worklist in
            if negb (Z.of_nat (length removedlist) =? nmatched_ec fkinfo + nmatched_ri fkinfo)%Z
            then fk_loop root fkeys outer_relids inner_relids jointype (kept ++ removedlist) fkselec
            else
              let! ref_rel := find_base_rel root (ref_relid fkinfo) in
              fk_loop root fkeys outer_relids inner_relids jointype kept (fkselec * fk_selectivity jointype ref_rel)
      end
  end.

Definition get_foreign_key_join_selectivity (root : JoinRoot) (outer_relids inner_relids : Relids)
    (sjinfo : SpecialJoinInfo) (restrictlist : list RestrictInfo) : result (Selectivity * list RestrictInfo) :=
  fk_loop root (fkey_list root) outer_relids inner_relids (sj_jointype sjinfo) restrictlist (i2d 1).

(** ** Joins *)

Definition calc_joinrel_size_estimate (root : JoinRoot) (outer_rel inner_rel : RelOptInfo)
    (outer_rows inner_rows : double) (sjinfo : SpecialJoinInfo) (restrictlist : list RestrictInfo) : result double :=
  let jointype := sj_jointype sjinfo in
  let! (fkselec, restrictlist) :=
    get_foreign_key_join_selectivity root (relids outer_rel) (relids inner_rel) sjinfo restrictlist in
  let (jselec, pselec) :=
    if IS_OUTER_JOIN jointype then
      let pushedquals := List.filter is_pushed_down restrictlist in
      let joinquals := List.filter (fun r => negb (is_pushed_down r)) restrictlist in
      (clauselist_selectivity joinquals 0 jointype (Some sjinfo), clauselist_selectivity pushedquals 0 jointype (Some sjinfo))
    else (clauselist_selectivity restrictlist 0 jointype (Some sjinfo), i2d 0) in
  let! nrows :=
    match jointype with
    | JOIN_INNER => Ok (outer_rows * inner_rows * fkselec * jselec)
    | JOIN_LEFT =>
        let nrows := outer_rows * inner_rows * fkselec * jselec in
        let nrows := if nrows <? outer_rows then outer_rows else nrows in
        Ok (nrows * pselec)
    | JOIN_FULL =>
        let nrows := outer_rows * inner_rows * fkselec * jselec in
        let nrows := if nrows <? outer_rows then outer_rows else nrows in
        let nrows := if nrows <? inner_rows then inner_rows else nrows in
        Ok (nrows * pselec)
    | JOIN_SEMI => Ok (outer_rows * fkselec * jselec)
    | JOIN_ANTI => Ok (outer_rows * (i2d 1 - fkselec * jselec) * pselec)
    | _ => Error "unrecognized join type"
    end in
  Ok (clamp_row_est nrows).

Definition set_joinrel_size_estimates (root : JoinRoot) (rel outer_rel inner_rel : RelOptInfo)
    (sjinfo : SpecialJoinInfo) (restrictlist : list RestrictInfo) : result RelOptInfo :=
  let! rows := calc_joinrel_size_estimate root outer_rel inner_rel (rel_rows outer_rel) (rel_rows inner_rel)
                 sjinfo restrictlist in
  Ok (set_rel_sizes rel rows (tuples rel) (reltarget rel) (baserestrictinfo rel) (baserestrictcost rel)).

Definition get_parameterized_joinrel_size (root : JoinRoot) (rel : RelOptInfo) (outer_path inner_path : Path)
    (sjinfo : SpecialJoinInfo) (restrict_clauses : list RestrictInfo) : result double :=
  let! nrows := calc_joinrel_size_estimate root (parent outer_path) (parent inner_path) (rows outer_path)
                  (rows inner_path) sjinfo restrict_clauses in
  Ok (if nrows >? rel_rows rel then rel_rows rel else nrows).
End rows.
