(* ===== verification/SizeEstSpec.v ===== *)
(** What the size estimates guarantee: base relations get the well-formed row
    counts and costs the scan costs rely on, parameterization never raises a row
    count, foreign keys partition the join clauses, and join sizes stay within
    the bounds of their join types. *)
From S2P Require Import Prelude Float64 Double DoubleOrder DoubleDiv DoubleRound DoubleUnit Bitmapset PlanTypes Samples PathCompare CostExpr CostBase CostScan CostScanSpec CostNode HashSize CostJoin CostJoinSpec SizeEst.
From Stdlib Require Import Permutation.
Open Scope double_scope.

(** ** Fractions and row counts *)

(** A fraction of [x] is at most [x]. *)
Lemma scale_le x f : nonneg x = true -> finite x -> fraction f -> nonneg (x * f) = true /\ x * f ⊑ x.
Proof. intros Hx Fx [Hf Lf]. split; [auto with nneg|]. rewrite dmul_comm. apply mul_le_factor; assumption. Qed.

Lemma finite_le x y : finite y -> x ⊑ y -> finite x.
Proof. unfold finite, cle. lia. Qed.

Lemma scale_finite x f : nonneg x = true -> finite x -> fraction f -> finite (x * f).
Proof. intros Hx Fx Hf. eapply finite_le; [exact Fx|]. apply scale_le; assumption. Qed.

Lemma one_le_count x : row_count x -> i2d 1 ⊑ x.
Proof.
  intros [Hx Fx [I|[n En]] Px]; unfold finite, cle in *; [lia|]. rewrite cmag_one, En. rewrite En in Px.
  pose proof (pow2_pos 1074 ltac:(lia)). nia.
Qed.

Lemma clamp_le_count x y : row_count x -> nonneg y = true -> y ⊑ x -> clamp_row_est y ⊑ x.
Proof.
  intros Hx Hy L. pose proof (one_le_count x Hx). destruct Hx as [Hx _ Ix _]. unfold clamp_row_est.
  case_match; [assumption|]. apply rint_le_integral; assumption.
Qed.

Lemma count_le_clamp x y : row_count x -> nonneg y = true -> x ⊑ y -> x ⊑ clamp_row_est y.
Proof.
  intros [Hx Fx Ix Px] Hy L. etransitivity; [|apply clamp_ge_rint, Hy].
  rewrite <- (rint_of_integral x Hx Ix). apply cle_rint; assumption.
Qed.

Lemma clamp_finite x : nonneg x = true -> finite x -> finite (clamp_row_est x).
Proof.
  intros Hx Fx. unfold clamp_row_est. case_match; [apply finite_i2d; lia|apply finite_rint; assumption].
Qed.

(** clamp_row_est makes a row count of every finite estimate. *)
Lemma clamp_count x : nonneg x = true -> finite x -> row_count (clamp_row_est x).
Proof.
  intros Hx Fx. destruct (clamp_row_est_ok x) as [Hn L]. split; [exact Hn|apply clamp_finite; assumption|apply clamp_row_est_integral|].
  unfold cle in L. rewrite cmag_one in L. pose proof (pow2_pos 1074 ltac:(lia)). lia.
Qed.

Lemma clamp_mono x y : nonneg x = true -> nonneg y = true -> x ⊑ y -> clamp_row_est x ⊑ clamp_row_est y.
Proof.
  intros Hx Hy L. unfold clamp_row_est at 1. case_match; [apply clamp_row_est_ok|].
  etransitivity; [|apply clamp_ge_rint, Hy]. apply cle_rint; assumption.
Qed.

(** ** Widths *)

(** The width array has a slot for every attribute from min_attr to max_attr,
    the whole row (attribute 0) among them. *)
Definition attrs_ok (attrs : RelAttrs) : Prop :=
  (min_attr attrs <= 0 <= max_attr attrs)%Z
  /\ Z.of_nat (length (attr_widths attrs)) = (max_attr attrs - min_attr attrs + 1)%Z.

Definition item_ok (attrs : RelAttrs) (e : TargetExpr) : Prop :=
  match e with
  | TVar a _ => (min_attr attrs <= a <= max_attr attrs)%Z
  | TPlaceHolder _ _ n | TExpr _ n => node_ok n /\ planned n
  end.

Lemma attr_at_lookup ws ndx : (0 <= ndx < Z.of_nat (length ws))%Z ->
  exists w, ws !! Z.to_nat ndx = Some w /\ attr_at ws ndx = Ok w.
Proof.
  intros Hn. unfold attr_at. rewrite (proj2 (Z.ltb_ge ndx 0)) by lia.
  destruct (lookup_lt_is_Some_2 ws (Z.to_nat ndx) ltac:(lia)) as [w Hw]. rewrite Hw. eauto.
Qed.

Lemma attr_at_ok ws ndx : (0 <= ndx < Z.of_nat (length ws))%Z -> exists w, attr_at ws ndx = Ok w.
Proof. intros Hn. destruct (attr_at_lookup ws ndx Hn) as (w & _ & ->). eauto. Qed.

(** The width of a column in the array. *)
Definition column_width (minattr : Z) (ws : list Z) (a : Z) : Z := default 0%Z (ws !! Z.to_nat (a - minattr)).

(** Filling the array: widths that are known stay. *)
Record widened (ws ws' : list Z) : Prop := {
  wd_length : length ws' = length ws;
  wd_kept : forall i w, ws !! i = Some w -> (0 < w)%Z -> ws' !! i = Some w;
}.

#[export] Instance widened_preorder : PreOrder widened.
Proof.
  split; [intros ws; split; auto|]. intros a b c [L1 K1] [L2 K2]. split; [congruence|eauto].
Qed.

Lemma widened_insert ws k w w' : ws !! k = Some w -> (w <= 0)%Z -> widened ws (<[k := w']> ws).
Proof.
  intros Hk Hw. split; [apply length_insert|]. intros i x Hi Hx. rewrite list_lookup_insert_ne; [exact Hi|]. intros <-. simplify_eq. lia.
Qed.

Lemma widened_column minattr ws ws' a : widened ws ws' -> (0 < column_width minattr ws a)%Z ->
  column_width minattr ws' a = column_width minattr ws a.
Proof.
  intros [_ K] P. unfold column_width in *. destruct (ws !! _) as [w|] eqn:E; cbn in P; [|lia]. rewrite (K _ _ E P). reflexivity.
Qed.

(** The width of the whole row has a place of its own. *)
Lemma column_width_row minattr ws a w : (minattr <= 0)%Z -> (minattr <= a)%Z -> a <> 0%Z ->
  column_width minattr (<[Z.to_nat (0 - minattr) := w]> ws) a = column_width minattr ws a.
Proof. intros M Ha Na. unfold column_width. rewrite list_lookup_insert_ne by lia. reflexivity. Qed.

(** The parts of a tuple's width, read from the filled array: the items of the target
    but whole rows, the columns of a table, and those of another relation. *)
Definition item_width (minattr : Z) (ws : list Z) (e : TargetExpr) : Z :=
  match e with
  | TVar a _ => if (a =? 0)%Z then 0%Z else column_width minattr ws a
  | TPlaceHolder w _ _ | TExpr w _ => w
  end.
Definition items_width (minattr : Z) (ws : list Z) (items : list TargetExpr) : Z :=
  fold_right (fun e s => (item_width minattr ws e + s)%Z) 0%Z items.
Definition whole_row (e : TargetExpr) : bool := match e with TVar a _ => (a =? 0)%Z | _ => false end.
Fixpoint table_width (minattr : Z) (ws : list Z) (i : Z) (atts : list Attribute) : Z :=
  match atts with
  | [] => 0%Z
  | att :: atts => ((if attisdropped att then 0 else column_width minattr ws i) + table_width minattr ws (i + 1) atts)%Z
  end.
Fixpoint columns_width (minattr : Z) (ws : list Z) (i : Z) (n : nat) : Z :=
  match n with O => 0%Z | S n => (column_width minattr ws i + columns_width minattr ws (i + 1) n)%Z end.

Lemma items_width_ext minattr ws ws' items :
  Forall (fun e => item_width minattr ws' e = item_width minattr ws e) items -> items_width minattr ws' items = items_width minattr ws items.
Proof. induction 1 as [|e items E _ IH]; [reflexivity|]. cbn [items_width fold_right]. unfold items_width in IH. congruence. Qed.

Lemma table_width_ext minattr ws ws' atts : forall i, (forall a, (i <= a)%Z -> column_width minattr ws' a = column_width minattr ws a) ->
  table_width minattr ws' i atts = table_width minattr ws i atts.
Proof. induction atts as [|att atts IH]; intros i E; [reflexivity|]. cbn [table_width]. rewrite (E i), IH; [reflexivity|intros; apply E; lia|lia]. Qed.

Lemma columns_width_ext minattr ws ws' n : forall i, (forall a, (i <= a)%Z -> column_width minattr ws' a = column_width minattr ws a) ->
  columns_width minattr ws' i n = columns_width minattr ws i n.
Proof. induction n as [|n IH]; intros i E; [reflexivity|]. cbn [columns_width]. rewrite (E i), IH; [reflexivity|intros; apply E; lia|lia]. Qed.

(** A column of the target has a width. *)
Definition has_width (minattr : Z) (ws : list Z) (e : TargetExpr) : Prop :=
  match e with TVar a _ => a <> 0%Z -> (0 < column_width minattr ws a)%Z | _ => True end.

Lemma has_width_widened minattr ws ws' e : widened ws ws' -> has_width minattr ws e -> has_width minattr ws' e.
Proof. intros Wd. destruct e; cbn; auto. intros P Na. rewrite (widened_column _ _ _ _ Wd (P Na)). auto. Qed.

Lemma item_width_widened minattr ws ws' e : widened ws ws' -> has_width minattr ws e -> item_width minattr ws' e = item_width minattr ws e.
Proof. intros Wd. destruct e; cbn; auto. destruct (Z.eqb_spec varattno 0); auto. intros P. apply widened_column; auto. Qed.

Section spec.
Context `{Settings, Catalog, Widths, Estimator}.
Context `{!CatalogLaws, !EstimatorLaws} (So : settings_ok).

Abbreviation in_range wmax := (Forall (fun w => 0 <= w <= wmax)%Z).

(** The widths from the catalogs and the caches are at most [wmax] bytes, those of types
    at least one, and a tuple of all of them fits into an int32. *)
Record widths_ok (wmax : Z) (reloid : Oid) (attrs : RelAttrs) (items : list TargetExpr) : Prop := {
  wo_cached : in_range wmax (attr_widths attrs);
  wo_stats : forall a, (get_attavgwidth reloid a <= wmax)%Z;
  wo_items : Forall (fun e => match e with
               | TVar a w => a <> 0%Z -> (0 < w <= wmax)%Z
               | TPlaceHolder w _ _ => (0 <= w <= wmax)%Z
               | TExpr w _ => (0 < w <= wmax)%Z
               end) items;
  wo_types : Forall (fun att => 0 < att_typwidth att <= wmax)%Z (rd_att reloid);
  wo_columns : reloid <> 0%Z -> (Z.of_nat (length (rd_att reloid)) <= max_attr attrs)%Z;
  wo_fit : (0 <= wmax < 2 ^ 31 /\ 24 + wmax * (Z.of_nat (length items) + max_attr attrs) < 2 ^ 31)%Z;
}.

(** The column's width is taken from the array or found. *)
Lemma column_step wmax minattr (ws : list Z) a w (found : result Z) : ws !! Z.to_nat (a - minattr) = Some w -> (w <= 0)%Z ->
  in_range wmax ws -> (exists iw, found = Ok iw /\ 0 < iw <= wmax)%Z ->
  exists iw, found = Ok iw /\ (0 < iw <= wmax)%Z /\ in_range wmax (<[Z.to_nat (a - minattr) := iw]> ws)
    /\ widened ws (<[Z.to_nat (a - minattr) := iw]> ws) /\ column_width minattr (<[Z.to_nat (a - minattr) := iw]> ws) a = iw.
Proof.
  intros Hw Nw Fw (iw & -> & Bw). exists iw. split_and!; [reflexivity|lia|lia| | |].
  - apply Forall_insert; [exact Fw|lia].
  - apply (widened_insert ws _ w iw); assumption.
  - unfold column_width. rewrite list_lookup_insert_eq by (eapply lookup_lt_Some, Hw). reflexivity.
Qed.

Lemma rel_width_loop_ok wmax reloid attrs items : (0 <= wmax)%Z -> attrs_ok attrs -> (forall a, (get_attavgwidth reloid a <= wmax)%Z) ->
  Forall (item_ok attrs) items ->
  Forall (fun e => match e with
            | TVar a w => a <> 0%Z -> (0 < w <= wmax)%Z | TPlaceHolder w _ _ => (0 <= w <= wmax)%Z | TExpr w _ => (0 < w <= wmax)%Z end) items ->
  forall ws cost tw wr, length ws = length (attr_widths attrs) -> in_range wmax ws -> qual_cost_ok cost ->
  (0 <= tw)%Z -> (tw + wmax * Z.of_nat (length items) < 2 ^ 31)%Z ->
  exists ws' cost', rel_width_loop reloid (min_attr attrs) items ws cost tw wr
      = Ok (ws', cost', (tw + items_width (min_attr attrs) ws' items)%Z, existsb whole_row items || wr)
    /\ widened ws ws' /\ in_range wmax ws' /\ qual_cost_ok cost' /\ Forall (has_width (min_attr attrs) ws') items
    /\ (0 <= items_width (min_attr attrs) ws' items <= wmax * Z.of_nat (length items))%Z.
Proof.
  intros Wm [Ha Hl] St Hi Hw. induction items as [|e items IH]; intros ws cost tw wr Lw Fw Hc T0 T1; cbn [rel_width_loop length existsb].
  { exists ws, cost. cbn [items_width fold_right]. rewrite Z.add_0_r. split_and!; auto; try reflexivity; lia. }
  apply Forall_cons in Hi as [He Hi], Hw as [Hwe Hw]. specialize (IH Hi Hw). cbn [length] in T1. rewrite Nat2Z.inj_succ, Z.mul_succ_r in *.
  pose proof (Z.mul_nonneg_nonneg wmax (Z.of_nat (length items)) Wm ltac:(lia)).
  assert (forall ws1 cost1 iw, length ws1 = length (attr_widths attrs) -> in_range wmax ws1 -> widened ws ws1 -> qual_cost_ok cost1 ->
    has_width (min_attr attrs) ws1 e -> item_width (min_attr attrs) ws1 e = iw -> whole_row e = false -> (0 <= iw <= wmax)%Z ->
    exists ws' cost', rel_width_loop reloid (min_attr attrs) items ws1 cost1 (wrap32 (tw + iw)) wr
      = Ok (ws', cost', (tw + items_width (min_attr attrs) ws' (e :: items))%Z, whole_row e || existsb whole_row items || wr)
    /\ widened ws ws' /\ in_range wmax ws' /\ qual_cost_ok cost' /\ Forall (has_width (min_attr attrs) ws') (e :: items)
    /\ (0 <= items_width (min_attr attrs) ws' (e :: items) <= wmax * Z.of_nat (length items) + wmax)%Z) as Step.
  { intros ws1 cost1 iw L1 F1 W1 C1 H1' E1 Nr B1. rewrite wrap32_small by lia.
    destruct (IH ws1 cost1 (tw + iw)%Z wr L1 F1 C1 ltac:(lia) ltac:(lia)) as (ws' & cost' & -> & W' & F' & C' & H' & B').
    exists ws', cost'. pose proof (item_width_widened _ _ _ e W' H1') as Ei. cbn [items_width fold_right]. fold (items_width (min_attr attrs) ws' items).
    rewrite Ei, E1, Nr. cbn [orb]. rewrite Z.add_assoc. split_and!; [reflexivity|etransitivity; eassumption|exact F'|exact C'| |lia..].
    constructor; [eapply has_width_widened; eassumption|exact H']. }
  destruct e as [a tyw|phw tyw n|tyw n]; cbn [item_ok] in He; cbn [whole_row].
  - destruct (Z.eqb_spec a 0) as [->|Na].
    { destruct (IH ws cost tw true Lw Fw Hc ltac:(lia) ltac:(lia)) as (ws' & cost' & -> & W' & F' & C' & H' & B').
      exists ws', cost'. cbn [items_width fold_right item_width Z.eqb]. fold (items_width (min_attr attrs) ws' items). cbn [orb]. rewrite orb_true_r, Z.add_0_l.
      split_and!; auto; try lia. constructor; [cbn; congruence|exact H']. }
    destruct (attr_at_lookup ws (a - min_attr attrs) ltac:(lia)) as (w & Hx & ->). cbn [rbind].
    assert (0 <= w <= wmax)%Z as Bw by (rewrite Forall_forall in Fw; apply Fw; eapply list_elem_of_lookup_2, Hx).
    assert (column_width (min_attr attrs) ws a = w) as Cw by (unfold column_width; rewrite Hx; reflexivity).
    pose proof (proj2 (Z.eqb_neq a 0) Na) as Ea. destruct (Z.gtb_spec w 0).
    + refine (_ (Step ws cost w Lw Fw _ Hc _ _ _ Bw)); [|reflexivity|cbn; lia|cbn; rewrite Ea; exact Cw|exact Ea]. cbn [whole_row]. rewrite Ea. auto.
    + specialize (Hwe Na). set (st := (if negb _ && _ then _ else _)).
      destruct (column_step wmax (min_attr attrs) ws a w
        (if (st >? 0)%Z then Ok st else let! _ := Assert (tyw >? 0)%Z in Ok tyw) Hx ltac:(lia) Fw) as (iw & -> & Bi & F1 & W1 & E1).
      { destruct (Z.gtb_spec st 0) as [G|G]; [exists st; split; [reflexivity|split; [lia|]]|].
        - unfold st in *. destruct (negb _ && _); [apply St|lia].
        - exists tyw. unfold Assert. destruct (Z.gtb_spec tyw 0); [|lia]. auto. }
      cbn [rbind]. refine (_ (Step _ cost iw _ F1 W1 Hc _ _ _ _)); [|rewrite length_insert; exact Lw|cbn; lia|cbn; rewrite Ea; exact E1|exact Ea|lia].
      cbn [whole_row]. rewrite Ea. auto.
  - destruct (cost_qual_eval_node_ok So n) as (n' & c & -> & Hc'); [tauto..|]. cbn [rbind].
    apply (Step ws (charge cost c) phw Lw Fw ltac:(reflexivity) ltac:(apply (grows_charge cost c Hc'), Hc) I eq_refl eq_refl Hwe).
  - unfold Assert. destruct (Z.gtb_spec tyw 0); [|lia]. cbn [rbind].
    destruct (cost_qual_eval_node_ok So n) as (n' & c & -> & Hc'); [tauto..|]. cbn [rbind].
    apply (Step ws (charge cost c) tyw Lw Fw ltac:(reflexivity) ltac:(apply (grows_charge cost c Hc'), Hc) I eq_refl eq_refl). lia.
Qed.

Lemma sum_widths_ok wmax n minattr ws : in_range wmax ws -> forall i acc, (minattr <= i)%Z ->
  (i + Z.of_nat n - minattr <= Z.of_nat (length ws))%Z -> (0 <= wmax)%Z -> (0 <= acc)%Z -> (acc + wmax * Z.of_nat n < 2 ^ 31)%Z ->
  sum_widths n i minattr ws acc = Ok (acc + columns_width minattr ws i n)%Z
  /\ (0 <= columns_width minattr ws i n <= wmax * Z.of_nat n)%Z.
Proof.
  intros Fw. induction n as [|n IH]; intros i acc Hi Hn Wm A0 A1; cbn [sum_widths columns_width]; [rewrite Z.add_0_r; split; [reflexivity|lia]|].
  destruct (attr_at_lookup ws (i - minattr) ltac:(lia)) as (w & Hw & ->). cbn [rbind].
  assert (0 <= w <= wmax)%Z as Bw by (rewrite Forall_forall in Fw; apply Fw; eapply list_elem_of_lookup_2, Hw).
  rewrite Nat2Z.inj_succ, Z.mul_succ_r in *. pose proof (Z.mul_nonneg_nonneg wmax (Z.of_nat n) Wm ltac:(lia)).
  rewrite wrap32_small by lia. destruct (IH (i + 1)%Z (acc + w)%Z) as [-> B]; [lia..|].
  assert (column_width minattr ws i = w) as -> by (unfold column_width; rewrite Hw; reflexivity). rewrite Z.add_assoc. split; [reflexivity|lia].
Qed.

Lemma rel_data_width_ok wmax reloid minattr atts : (0 <= wmax)%Z -> (forall a, (get_attavgwidth reloid a <= wmax)%Z) ->
  Forall (fun att => 0 < att_typwidth att <= wmax)%Z atts ->
  forall i ws tw, (minattr <= i)%Z -> (i + Z.of_nat (length atts) - minattr <= Z.of_nat (length ws))%Z -> in_range wmax ws ->
  (0 <= tw)%Z -> (tw + wmax * Z.of_nat (length atts) < 2 ^ 31)%Z ->
  exists ws', rel_data_width_loop reloid minattr i atts ws tw = Ok (ws', tw + table_width minattr ws' i atts)%Z
    /\ widened ws ws' /\ in_range wmax ws' /\ (0 <= table_width minattr ws' i atts <= wmax * Z.of_nat (length atts))%Z.
Proof.
  intros Wm St. induction 1 as [|att atts Ht _ IH]; intros i ws tw Hi Hn Fw T0 T1; cbn [rel_data_width_loop table_width length] in *.
  { exists ws. rewrite Z.add_0_r. split_and!; auto; reflexivity || lia. }
  rewrite Nat2Z.inj_succ, Z.mul_succ_r in *. pose proof (Z.mul_nonneg_nonneg wmax (Z.of_nat (length atts)) Wm ltac:(lia)).
  destruct (attisdropped att).
  { destruct (IH (i + 1)%Z ws tw) as (ws' & -> & W' & F' & B'); [lia..|exact Fw|lia|lia|]. exists ws'. split_and!; auto; lia. }
  assert (forall ws1 w, in_range wmax ws1 -> widened ws ws1 -> column_width minattr ws1 i = w -> (0 < w <= wmax)%Z ->
    exists ws', rel_data_width_loop reloid minattr (i + 1) atts ws1 (wrap32 (tw + w))
      = Ok (ws', tw + (column_width minattr ws' i + table_width minattr ws' (i + 1) atts))%Z
    /\ widened ws ws' /\ in_range wmax ws'
    /\ (0 <= column_width minattr ws' i + table_width minattr ws' (i + 1) atts <= wmax * Z.of_nat (length atts) + wmax)%Z) as Step.
  { intros ws1 w F1 W1 E1 B1. rewrite wrap32_small by lia. pose proof (wd_length _ _ W1) as L1.
    destruct (IH (i + 1)%Z ws1 (tw + w)%Z) as (ws' & -> & W' & F' & B'); [lia..|exact F1|lia|lia|]. exists ws'.
    rewrite (widened_column minattr ws1 ws' i W') by lia. rewrite E1, Z.add_assoc.
    split_and!; [reflexivity|etransitivity; eassumption|exact F'|lia..]. }
  destruct (attr_at_lookup ws (i - minattr) ltac:(lia)) as (w & Hw & ->). cbn [rbind].
  assert (0 <= w <= wmax)%Z as Bw by (rewrite Forall_forall in Fw; apply Fw; eapply list_elem_of_lookup_2, Hw).
  destruct (Z.gtb_spec w 0).
  { apply Step; [exact Fw|reflexivity|unfold column_width; rewrite Hw; reflexivity|lia]. }
  match goal with |- context [rbind ?x _] => destruct (column_step wmax minattr ws i w x Hw ltac:(lia) Fw) as (iw & -> & Bi & F1 & W1 & E1) end.
  { destruct (Z.leb_spec (get_attavgwidth reloid i) 0); [exists (att_typwidth att)|exists (get_attavgwidth reloid i); split; [reflexivity|split; [lia|apply St]]].
    unfold Assert. destruct (Z.gtb_spec (att_typwidth att) 0); [|lia]. auto. }
  cbn [rbind]. exact (Step _ iw F1 W1 E1 Bi).
Qed.

(** The widths of a sized relation: the target is as wide as the sum of its items, a whole
    row as its columns and the header of a tuple, every column of the target has a
    width, and the widths that were known stay. *)
Record widths_right (reloid : Oid) (attrs : RelAttrs) (items : list TargetExpr) (target : PathTarget) (attrs' : RelAttrs) : Prop := {
  wr_min : min_attr attrs' = min_attr attrs;
  wr_max : max_attr attrs' = max_attr attrs;
  wr_sum : width target = (items_width (min_attr attrs) (attr_widths attrs') items
             + (if existsb whole_row items then column_width (min_attr attrs) (attr_widths attrs') 0 else 0))%Z;
  wr_row : existsb whole_row items = true -> column_width (min_attr attrs) (attr_widths attrs') 0
             = (24 + (if (reloid =? 0)%Z then columns_width (min_attr attrs) (attr_widths attrs') 1 (Z.to_nat (max_attr attrs))
                      else table_width (min_attr attrs) (attr_widths attrs') 1 (rd_att reloid)))%Z;
  wr_columns : Forall (has_width (min_attr attrs) (attr_widths attrs')) items;
  wr_known : forall a, a <> 0%Z -> (min_attr attrs <= a)%Z -> (0 < column_width (min_attr attrs) (attr_widths attrs) a)%Z ->
             column_width (min_attr attrs) (attr_widths attrs') a = column_width (min_attr attrs) (attr_widths attrs) a;
  wr_range : (0 <= width target < 2 ^ 31)%Z;
  wr_nonneg : Forall (fun w => 0 <= w < 2 ^ 31)%Z (attr_widths attrs');
}.

(** The width of the whole row, and the columns it looked up. *)
Lemma whole_row_ok wmax reloid attrs items ws : widths_ok wmax reloid attrs items -> attrs_ok attrs ->
  length ws = length (attr_widths attrs) -> in_range wmax ws ->
  exists ws' w, (if negb (reloid =? 0)%Z
      then let! (ws, data_width) := get_relation_data_width reloid (min_attr attrs) ws in
           Ok (ws, wrap32 (MAXALIGN SizeofHeapTupleHeader + data_width))
      else let! w := sum_widths (Z.to_nat (max_attr attrs)) 1 (min_attr attrs) ws (MAXALIGN SizeofHeapTupleHeader) in Ok (ws, w)) = Ok (ws', w)
    /\ widened ws ws' /\ in_range wmax ws'
    /\ w = (24 + (if (reloid =? 0)%Z then columns_width (min_attr attrs) ws' 1 (Z.to_nat (max_attr attrs))
                  else table_width (min_attr attrs) ws' 1 (rd_att reloid)))%Z
    /\ (24 <= w <= 24 + wmax * max_attr attrs)%Z.
Proof.
  intros [Wc St Wi Wt Wn [Wm Fit]] [Ha Hl] L Fw. pose proof (Z.mul_nonneg_nonneg wmax (Z.of_nat (length items)) (proj1 Wm) ltac:(lia)).
  rewrite Z.mul_add_distr_l in Fit. change (MAXALIGN SizeofHeapTupleHeader) with 24%Z.
  destruct (Z.eqb_spec reloid 0) as [->|N]; cbn [negb].
  - destruct (sum_widths_ok wmax (Z.to_nat (max_attr attrs)) (min_attr attrs) ws Fw 1 24) as [-> B]; [lia..|rewrite Z2Nat.id by lia; lia|].
    cbn [rbind]. eexists ws, _. rewrite Z2Nat.id in B by lia. split_and!; [reflexivity|reflexivity|exact Fw|reflexivity|lia..].
  - specialize (Wn N). assert (wmax * Z.of_nat (length (rd_att reloid)) <= wmax * max_attr attrs)%Z by (apply Z.mul_le_mono_nonneg_l; lia).
    destruct (rel_data_width_ok wmax reloid (min_attr attrs) (rd_att reloid) (proj1 Wm) St Wt 1 ws 0) as (ws' & E & W' & F' & B'); [lia..|exact Fw|lia|lia|].
    unfold get_relation_data_width. rewrite E. cbn [rbind]. rewrite Z.add_0_l, wrap32_small by lia.
    eexists ws', _. split_and!; [reflexivity|exact W'|exact F'|reflexivity|lia..].
Qed.

Lemma set_rel_width_ok wmax reloid attrs items target : attrs_ok attrs -> Forall (item_ok attrs) items -> widths_ok wmax reloid attrs items ->
  exists target' attrs', set_rel_width reloid attrs items target = Ok (target', attrs')
    /\ exprs target' = exprs target /\ qual_cost_ok (target_cost target') /\ attrs_ok attrs'
    /\ widths_right reloid attrs items target' attrs'.
Proof.
  intros Ha Hi Hw. pose proof Ha as [Hr Hl]. pose proof Hw as [Wc St Wi Wt Wn [Wm Fit]]. unfold set_rel_width.
  rewrite Z.mul_add_distr_l in Fit. pose proof (Z.mul_nonneg_nonneg wmax (max_attr attrs) (proj1 Wm) ltac:(lia)).
  pose proof (Z.mul_nonneg_nonneg wmax (Z.of_nat (length items)) (proj1 Wm) ltac:(lia)).
  destruct (rel_width_loop_ok wmax reloid attrs items (proj1 Wm) Ha St Hi Wi (attr_widths attrs) zero_qual_cost 0 false eq_refl Wc zero_qual_cost_ok)
    as (ws & cost & -> & Wd & Fw & Hc & Hh & B); [lia..|]. pose proof (wd_length _ _ Wd) as L.
  cbn [rbind]. rewrite orb_false_r, Z.add_0_l. destruct (existsb whole_row items) eqn:Er.
  - destruct (whole_row_ok wmax reloid attrs items ws Hw Ha L Fw) as (ws' & w & -> & W' & F' & Ew & Bw). cbn [rbind]. pose proof (wd_length _ _ W') as L'.
    destruct (attr_at_ok ws' (0 - min_attr attrs) ltac:(lia)) as [w0 ->]. cbn [rbind]. rewrite wrap32_small by lia.
    unfold Assert. destruct (Z.geb_spec (items_width (min_attr attrs) ws items + w) 0); [|lia]. cbn [rbind].
    do 2 eexists. split; [reflexivity|]. cbn [exprs target_cost]. split_and!; [reflexivity|exact Hc|split; cbn; [exact Hr|rewrite length_insert; lia]|].
    assert (forall a, a <> 0%Z -> (min_attr attrs <= a)%Z -> column_width (min_attr attrs) (<[Z.to_nat (0 - min_attr attrs) := w]> ws') a
      = column_width (min_attr attrs) ws' a) as Er'. { intros a Na Ma. apply column_width_row; lia. }
    assert (column_width (min_attr attrs) (<[Z.to_nat (0 - min_attr attrs) := w]> ws') 0 = w) as E0.
    { unfold column_width. rewrite list_lookup_insert_eq by lia. reflexivity. }
    split; cbn [min_attr max_attr attr_widths width]; try reflexivity.
    + rewrite Er, E0. f_equal. symmetry. apply items_width_ext. apply Forall_forall. intros e He.
      rewrite Forall_forall in Hi, Hh. specialize (Hi e He). specialize (Hh e He).
      rewrite <- (item_width_widened _ _ _ e W' Hh). destruct e; cbn in Hi |- *; try reflexivity. destruct (Z.eqb_spec varattno 0); [reflexivity|apply Er'; lia].
    + intros _. rewrite E0. etransitivity; [exact Ew|]. f_equal.
      destruct (reloid =? 0)%Z; symmetry; [apply columns_width_ext|apply table_width_ext]; intros a Ga; apply Er'; lia.
    + apply Forall_forall. intros e He. rewrite Forall_forall in Hi, Hh. specialize (Hi e He). pose proof (has_width_widened _ _ _ e W' (Hh e He)) as Hx.
      destruct e; cbn in Hi, Hx |- *; auto. intros Na. rewrite Er' by lia. auto.
    + intros a Na Ma P. rewrite Er' by lia. rewrite (widened_column _ ws ws' a W'); rewrite (widened_column _ _ ws a Wd P); auto.
    + lia.
    + apply Forall_insert; [|lia]. eapply Forall_impl; [exact F'|]. cbn. intros x Bx. lia.
  - unfold Assert. destruct (Z.geb_spec (items_width (min_attr attrs) ws items) 0); [|lia]. cbn [rbind].
    do 2 eexists. split; [reflexivity|]. cbn [exprs target_cost]. split_and!; [reflexivity|exact Hc|split; cbn; [exact Hr|lia]|].
    split; cbn [min_attr max_attr attr_widths width]; try reflexivity.
    + rewrite Er. lia.
    + congruence.
    + exact Hh.
    + intros a Na Ma P. exact (widened_column _ _ ws a Wd P).
    + lia.
    + eapply Forall_impl; [exact Fw|]. cbn. intros x Bx. lia.
Qed.

(** ** Base relations *)

Lemma selectivity_fraction l z j s : fraction (clauselist_selectivity l z j s).
Proof. destruct (selectivity_ok l z j s). split; assumption. Qed.

Lemma rinfo_walk ctx (r : RestrictInfo) n' ctx' :
  cost_qual_eval_walker (RestrictInfoNode r) ctx = Ok (n', ctx') -> exists r', n' = RestrictInfoNode r'.
Proof.
  destruct r as [ptr c pd pc cr outr nr lr rr oc ec cost lb rb jc]. cbn [cost_qual_eval_walker].
  destruct (startup cost <? i2d 0); [|intros [= <- _]; eauto].
  intros ([[? ?] ?] & _ & [= <- _])%rbind_ok. eauto.
Qed.

(** The evaluated clauses are RestrictInfo nodes again. *)
Lemma walk_rinfos clauses ctx quals ctx' :
  walk_list cost_qual_eval_walker (qual_nodes clauses) ctx = Ok (quals, ctx') -> qual_nodes (rinfo_nodes quals) = quals.
Proof.
  revert ctx quals ctx'. induction clauses as [|r clauses IH]; intros ctx quals ctx'; cbn [qual_nodes map walk_list];
    [intros [= <- _]; reflexivity|].
  intros ([n c] & E & ([l c'] & El & [= <- _])%rbind_ok)%rbind_ok. apply rinfo_walk in E as [r' ->].
  cbn [rinfo_nodes]. unfold qual_nodes in *. cbn [map]. rewrite (IH _ _ _ El). reflexivity.
Qed.

Record baserel_ok (wmax : Z) (reloid : Oid) (rel : RelOptInfo) (attrs : RelAttrs) (items : list TargetExpr) : Prop := {
  br_tuples : nonneg (tuples rel) = true /\ finite (tuples rel);
  br_pages : 0 <= pages rel < 2 ^ 32;
  br_visible : nonneg (allvisfrac rel) = true /\ allvisfrac rel ⊑ i2d 1;
  br_clauses : clauses_ok (baserestrictinfo rel);
  br_attrs : attrs_ok attrs;
  br_items : Forall (item_ok attrs) items;
  br_widths : widths_ok wmax reloid attrs items;
}.

Lemma dMax_one_count x : nonneg x = true -> finite x -> integral x -> row_count (dMax x (i2d 1)).
Proof.
  intros Hx Fx Ix. unfold dMax. destruct (x >? i2d 1) eqn:E; [|apply row_count_one].
  split; [assumption..|]. apply dlt_iff in E as [E _]; [|reflexivity|exact Hx].
  pose proof (cmag_range (i2d 1)). lia.
Qed.

Lemma le_dMax x y : nonneg x = true -> nonneg y = true -> finite x -> finite y -> x ⊑ dMax x y.
Proof.
  intros Hx Hy Fx Fy. unfold dMax. destruct (x >? y) eqn:E; [reflexivity|].
  rewrite dlt_sval, !sval_nonneg in E by (assumption || apply finite_isnan; assumption). unfold cle. lia.
Qed.

Lemma le_dMax_r x y : nonneg x = true -> nonneg y = true -> y ⊑ dMax x y.
Proof.
  intros Hx Hy. unfold dMax. destruct (x >? y) eqn:E; [|reflexivity]. apply dlt_iff in E; [|assumption..].
  unfold cle. lia.
Qed.

Lemma clamp_tuples_ok t f : nonneg t = true -> finite t -> fraction f ->
  row_count (clamp_row_est (t * f)) /\ (integral t -> clamp_row_est (t * f) ⊑ dMax t (i2d 1)).
Proof.
  intros Ht Ft Hf. destruct (scale_le t f Ht Ft Hf) as [S1 S2]. split.
  - apply clamp_count; [exact S1|apply scale_finite; assumption].
  - intros It. apply clamp_le_count; [apply dMax_one_count; assumption|exact S1|].
    etransitivity; [exact S2|]. apply le_dMax; [assumption|reflexivity|assumption|apply finite_i2d; lia].
Qed.

(** What the cost functions may rely on once a relation is sized. *)
Record sized (rel : RelOptInfo) (attrs : RelAttrs) : Prop := {
  sz_rel : rel_ok rel;
  sz_rows : row_count (rel_rows rel);
  sz_target : qual_cost_ok (target_cost (reltarget rel));
  sz_attrs : attrs_ok attrs;
  sz_quals : cost_qual_eval (qual_nodes (baserestrictinfo rel)) = Ok (qual_nodes (baserestrictinfo rel), baserestrictcost rel);
}.

(** A size estimate succeeds for a relation of [t] tuples: its row count is at most the
    tuple count, rounded to a whole number of at least one, and its widths are right. *)
Definition sizes_as (reloid : Oid) (attrs : RelAttrs) (items : list TargetExpr) (t : double) (r : result (RelOptInfo * RelAttrs)) : Prop :=
  exists rel' attrs', r = Ok (rel', attrs') /\ sized rel' attrs' /\ widths_right reloid attrs items (reltarget rel') attrs'
    /\ tuples rel' = t /\ rel_rows rel' ⊑ clamp_row_est t.

(** The clause costs, the target and the widths of a base relation. *)
Lemma sized_parts wmax reloid attrs items rel : clauses_ok (baserestrictinfo rel) -> attrs_ok attrs -> Forall (item_ok attrs) items ->
  widths_ok wmax reloid attrs items ->
  exists quals c target attrs', cost_qual_eval (qual_nodes (baserestrictinfo rel)) = Ok (quals, c)
    /\ set_rel_width reloid attrs items (reltarget rel) = Ok (target, attrs')
    /\ qual_cost_ok c /\ qual_cost_ok (target_cost target) /\ attrs_ok attrs' /\ widths_right reloid attrs items target attrs'
    /\ cost_qual_eval (qual_nodes (rinfo_nodes quals)) = Ok (qual_nodes (rinfo_nodes quals), c).
Proof.
  intros [Hn Hpl] Ha Hi Hw. destruct (cost_qual_eval_total So _ Hn Hpl) as (quals & c & Ec & Hc).
  destruct (set_rel_width_ok wmax reloid attrs items (reltarget rel) Ha Hi Hw) as (tg & attrs' & Et & _ & Htc & Ha' & Wr).
  exists quals, c, tg, attrs'. split_and!; try assumption. rewrite (walk_rinfos _ _ _ _ Ec).
  apply (walk_list_idem (qual_nodes (baserestrictinfo rel))); [|exact Hn|exact Ec].
  apply Forall_forall. intros n _. apply (cost_qual_eval_walker_idem (walker_settings So)).
Qed.

Lemma set_baserel_size_estimates_ok wmax reloid attrs items rel : baserel_ok wmax reloid rel attrs items ->
  sizes_as reloid attrs items (tuples rel) (set_baserel_size_estimates reloid attrs items rel).
Proof.
  intros [[Ht Ft] Hp Hv Hcl Ha Hi Hw]. unfold set_baserel_size_estimates.
  destruct (sized_parts wmax reloid attrs items rel Hcl Ha Hi Hw) as (quals & c & tg & attrs' & -> & Et & Hc & Htc & Ha' & Wr & Hq).
  cbn [rbind]. rewrite Et. cbn [rbind]. do 2 eexists. split; [reflexivity|].
  pose proof (selectivity_fraction (baserestrictinfo rel) 0 JOIN_INNER None) as Sf.
  destruct (clamp_tuples_ok (tuples rel) _ Ht Ft Sf) as [C1 _]. destruct (scale_le (tuples rel) _ Ht Ft Sf) as [S1 S2].
  split_and!; [|exact Wr|reflexivity|apply clamp_mono; assumption]. split; try assumption. split; try assumption. apply C1.
Qed.

Lemma set_tuples_ok wmax reloid rel attrs items t : baserel_ok wmax reloid rel attrs items -> nonneg t = true -> finite t ->
  baserel_ok wmax reloid (set_tuples rel t) attrs items.
Proof. intros [_ ? ? ? ? ? ?] Ht Ft. split; try assumption. split; assumption. Qed.

Lemma function_rows_ok ntups t : Forall (fun n => nonneg n = true /\ finite n) ntups -> nonneg t = true -> finite t ->
  nonneg (function_rows ntups t) = true /\ finite (function_rows ntups t)
  /\ t ⊑ function_rows ntups t /\ Forall (fun n => n ⊑ function_rows ntups t) ntups.
Proof.
  intros Hl. revert t. induction Hl as [|n ntups [Hn Fn] _ IH]; intros t Ht Ft; cbn [function_rows];
    [split_and!; auto; reflexivity|].
  assert (t ⊑ (if n >? t then n else t) /\ n ⊑ (if n >? t then n else t)) as [L1 L2].
  { destruct (n >? t) eqn:E; (split; [|]); try reflexivity; rewrite dlt_sval, !sval_nonneg in E
      by (assumption || apply finite_isnan; assumption); unfold cle; lia. }
  destruct (IH (if n >? t then n else t)) as (I1 & I2 & I3 & I4); [case_match; assumption..|].
  split_and!; [exact I1|exact I2|etransitivity; eassumption|constructor; [etransitivity; eassumption|exact I4]].
Qed.

Lemma subquery_widths_ok wmax tlist attrs : attrs_ok attrs -> in_range wmax (attr_widths attrs) ->
  Forall (fun te => 0 <= default 0 (var_width te) <= wmax)%Z tlist -> exists attrs', subquery_widths tlist attrs = Ok attrs'
  /\ attrs_ok attrs' /\ min_attr attrs' = min_attr attrs /\ max_attr attrs' = max_attr attrs /\ in_range wmax (attr_widths attrs').
Proof.
  revert attrs. induction tlist as [|te tlist IH]; intros attrs Ha Fw Ft; cbn [subquery_widths]; [eauto 6|].
  apply Forall_cons in Ft as [Bt Ft]. destruct (resjunk te); [auto|]. destruct ((resno te <? _) || _)%Z eqn:E; [auto|].
  pose proof Ha as [Hr Hl]. destruct (attr_at_ok (attr_widths attrs) (resno te - min_attr attrs) ltac:(lia)) as [w ->].
  cbn [rbind]. match goal with |- context [subquery_widths tlist ?a] => destruct (IH a) as (a' & E' & H1' & H2' & H3' & H4') end.
  { split; [exact Hr|]. cbn [attr_widths min_attr max_attr]. rewrite length_insert. exact Hl. }
  { apply Forall_insert; [exact Fw|exact Bt]. }
  { exact Ft. }
  eauto 6.
Qed.

Lemma foreign_sizes wmax reloid attrs items rel : baserel_ok wmax reloid rel attrs items ->
  exists rel' attrs', set_foreign_size_estimates reloid attrs items rel = Ok (rel', attrs') /\ sized rel' attrs'
    /\ widths_right reloid attrs items (reltarget rel') attrs' /\ tuples rel' = tuples rel /\ rel_rows rel' = i2d 1000.
Proof.
  intros [[Ht Ft] Hp Hv [Hn Hpl] Ha Hi Hw]. unfold set_foreign_size_estimates.
  destruct (sized_parts wmax reloid attrs items rel (conj Hn Hpl) Ha Hi Hw) as (quals & c & tg & attrs' & Ec & Et & Hc & Htc & Ha' & Wr & Hq).
  rewrite Ec. cbn [rbind]. rewrite Et. cbn [rbind]. do 2 eexists. split; [reflexivity|]. split_and!; [|exact Wr|reflexivity..]. split; try assumption.
  - split; try assumption. reflexivity.
  - split; [reflexivity|apply finite_i2d; lia|apply integral_i2d; lia|]. cbn [rel_rows set_rel_sizes].
    rewrite cmag_i2d by lia. lia.
Qed.

(** C35: Every kind of base relation is sized, if its columns have widths of at most
    [wmax] bytes and a tuple fits into an int32: tables, functions (by their largest
    result), table functions, VALUES lists, CTEs, tuplestores and subqueries get a
    whole row count of at least one and at most the number of tuples, rounded; foreign
    tables get 1000 rows. The clause costs are cached and a second evaluation confirms
    them. The width of the target is exactly the sum of the widths of its items, a whole
    row being as wide as the columns of the relation and a tuple header; each column of
    the target has its width in the array, and columns known before keep theirs; the
    assertions on widths hold and no sum overflows. *)
Theorem base_size_estimates wmax reloid attrs items rel ntups n (self : bool) cte_rows enr sub_rows tlist :
  baserel_ok wmax reloid rel attrs items -> Forall (fun x => nonneg x = true /\ finite x) ntups -> (0 <= n < 2 ^ 31)%Z ->
  nonneg cte_rows = true -> finite (i2d 10 * cte_rows) -> finite cte_rows ->
  (enr <? i2d 0) = true \/ (nonneg enr = true /\ finite enr) ->
  nonneg sub_rows = true -> finite sub_rows -> Forall (fun te => 0 <= default 0 (var_width te) <= wmax)%Z tlist ->
  sizes_as reloid attrs items (tuples rel) (set_baserel_size_estimates reloid attrs items rel)
  /\ (exists t, sizes_as reloid attrs items t (set_function_size_estimates reloid attrs items ntups rel) /\ Forall (fun x => x ⊑ t) ntups)
  /\ sizes_as reloid attrs items (i2d 100) (set_tablefunc_size_estimates reloid attrs items rel)
  /\ sizes_as reloid attrs items (i2d n) (set_values_size_estimates reloid attrs items n rel)
  /\ sizes_as reloid attrs items (if self then i2d 10 * cte_rows else cte_rows)
       (set_cte_size_estimates reloid attrs items self cte_rows rel)
  /\ sizes_as reloid attrs items (if enr <? i2d 0 then i2d 1000 else enr) (set_namedtuplestore_size_estimates reloid attrs items enr rel)
  /\ (exists attrs1, subquery_widths tlist attrs = Ok attrs1
      /\ sizes_as reloid attrs1 items sub_rows (set_subquery_size_estimates reloid attrs items sub_rows tlist rel))
  /\ exists rel' attrs', set_foreign_size_estimates reloid attrs items rel = Ok (rel', attrs') /\ sized rel' attrs'
       /\ widths_right reloid attrs items (reltarget rel') attrs' /\ tuples rel' = tuples rel /\ rel_rows rel' = i2d 1000.
Proof.
  intros Hb Hn Hv Hc Fc10 Fc Fe Hs Fs Ft.
  assert (forall t, nonneg t = true -> finite t ->
    sizes_as reloid attrs items t (set_baserel_size_estimates reloid attrs items (set_tuples rel t))) as T.
  { intros t Ht Ft'. apply (set_baserel_size_estimates_ok wmax reloid attrs items (set_tuples rel t)), set_tuples_ok; assumption. }
  split_and!; try (apply T; (reflexivity || apply finite_i2d; lia)).
  - apply (set_baserel_size_estimates_ok wmax), Hb.
  - destruct (function_rows_ok ntups (i2d 0) Hn eq_refl (finite_i2d 0 ltac:(lia) ltac:(lia))) as (F1 & F2 & _ & F4).
    eexists. split; [apply T; eassumption|exact F4].
  - apply T; [apply nonneg_i2d; lia|apply finite_i2d; lia].
  - apply T; destruct self; auto with nneg.
  - apply T; destruct (enr <? i2d 0) eqn:E; try reflexivity; try (apply finite_i2d; lia);
      destruct Fe as [?|[? ?]]; assumption || discriminate.
  - unfold set_subquery_size_estimates. destruct Hb as [Ht Hp Hvi Hcl Ha Hi [Wc Ws Wi Wt Wn Wf]].
    destruct (subquery_widths_ok wmax tlist attrs Ha Wc Ft) as (attrs' & -> & Ha' & E1 & E2 & F'). cbn [rbind]. exists attrs'. split; [reflexivity|].
    apply (set_baserel_size_estimates_ok wmax reloid attrs' items (set_tuples rel sub_rows)). split; try assumption.
    + split; assumption.
    + eapply Forall_impl; [exact Hi|]. intros [] E; unfold item_ok in *; rewrite ?E1, ?E2; exact E.
    + split; rewrite ?E2; assumption.
  - destruct (foreign_sizes wmax reloid attrs items rel Hb) as (rel' & attrs' & E & S). eauto.
Qed.

(** ** Parameterized scans *)

Lemma cap_rows n r : nonneg n = true -> nonneg r = true -> finite n -> finite r ->
  (if n >? r then r else n) ⊑ r /\ (if n >? r then r else n) ⊑ n.
Proof.
  intros Hn Hr Fn Fr. destruct (n >? r) eqn:E; (split; [|]); try reflexivity;
    rewrite dlt_sval, !sval_nonneg in E by (assumption || apply finite_isnan; assumption); unfold cle; lia.
Qed.

Lemma parameterized_size_ok rel param_clauses :
  nonneg (tuples rel) = true -> finite (tuples rel) -> row_count (rel_rows rel) ->
  let n := get_parameterized_baserel_size rel param_clauses in
  row_count n /\ n ⊑ rel_rows rel /\ (integral (tuples rel) -> n ⊑ dMax (tuples rel) (i2d 1)).
Proof.
  intros Ht Ft Hr. unfold get_parameterized_baserel_size. cbv zeta.
  destruct (clamp_tuples_ok (tuples rel) _ Ht Ft (selectivity_fraction (param_clauses ++ baserestrictinfo rel) (relid rel) JOIN_INNER None)) as [C1 C2].
  destruct (cap_rows _ _ (rc_nonneg _ C1) (rc_nonneg _ Hr) (rc_finite _ C1) (rc_finite _ Hr)) as [L1 L2].
  split_and!; [case_match; assumption|exact L1|]. intros It. etransitivity; [exact L2|]. apply C2, It.
Qed.

(** Applying join clauses to a base relation never raises its row count: the
    parameterized size is a row count, at most the relation's own rows and at most
    its tuples. *)
Theorem parameterized_baserel_size_spec rel param_clauses :
  nonneg (tuples rel) = true -> finite (tuples rel) -> row_count (rel_rows rel) ->
  let n := get_parameterized_baserel_size rel param_clauses in
  row_count n /\ n ⊑ rel_rows rel /\ (integral (tuples rel) -> n ⊑ dMax (tuples rel) (i2d 1)).
Proof. apply parameterized_size_ok. Qed.

(** ** Foreign keys *)

Record fkey_ok (root : JoinRoot) (fk : ForeignKeyOptInfo) : Prop := {
  fk_con : (0 <= con_relid fk)%Z;
  fk_ref : (0 <= ref_relid fk)%Z;
  fk_rel : exists rel, simple_rel_array root (ref_relid fk) = Some rel
             /\ nonneg (tuples rel) = true /\ finite (tuples rel)
             /\ nonneg (rel_rows rel) = true /\ rel_rows rel ⊑ dMax (tuples rel) (i2d 1);
}.

Lemma bms_is_member_ok x a : (0 <= x)%Z -> exists b, bms_is_member x a = Ok b.
Proof. intros Hx. unfold bms_is_member. rewrite (proj2 (Z.ltb_ge x 0)) by lia. destruct a; [|eauto]. case_match; eauto. Qed.

Lemma fk_ref_is_outer_ok root fk outer inner : fkey_ok root fk -> exists b, fk_ref_is_outer fk outer inner = Ok b.
Proof.
  intros [Hc Hr _]. unfold fk_ref_is_outer.
  destruct (bms_is_member_ok (con_relid fk) outer Hc) as [b1 ->], (bms_is_member_ok (ref_relid fk) inner Hr) as [b2 ->],
    (bms_is_member_ok (ref_relid fk) outer Hr) as [b3 ->], (bms_is_member_ok (con_relid fk) inner Hc) as [b4 ->].
  destruct b1, b2, b3, b4; cbn; eauto.
Qed.

Lemma fk_selectivity_fraction jt rel : nonneg (tuples rel) = true -> finite (tuples rel) ->
  nonneg (rel_rows rel) = true -> rel_rows rel ⊑ dMax (tuples rel) (i2d 1) -> fraction (fk_selectivity jt rel).
Proof.
  intros Ht Ft Hr Lr. unfold fk_selectivity.
  assert (nonneg (dMax (tuples rel) (i2d 1)) = true) as Hm by (apply nonneg_dMax; [exact Ht|reflexivity]).
  pose proof (le_dMax_r (tuples rel) (i2d 1) Ht eq_refl) as L1.
  assert (finite (dMax (tuples rel) (i2d 1))) as Fm by (unfold dMax; case_match; [exact Ft|apply finite_i2d; lia]).
  assert (0 < cmag (dMax (tuples rel) (i2d 1)))%Z as Pm.
  { unfold cle in L1. rewrite cmag_one in L1. pose proof (pow2_pos 1074 ltac:(lia)). lia. }
  destruct (semi_or_anti jt); (split; [apply nonneg_div; assumption || reflexivity|]);
    apply div_le_one; assumption || reflexivity.
Qed.
(** What one foreign key takes over: the clauses it matches, all of them, as many
    as its columns that were matched to clauses. *)
Definition fk_takes (fk : ForeignKeyOptInfo) (taken : list RestrictInfo) : Prop :=
  Forall (fun r => matches_fk fk r = true) taken
  /\ Z.of_nat (length taken) = (nmatched_ec fk + nmatched_ri fk)%Z.

(** The selectivity of the foreign keys that were used. *)
Definition fk_product (root : JoinRoot) (jt : JoinType) (sel : Selectivity) (used : list ForeignKeyOptInfo) : Selectivity :=
  fold_left (fun s fk => match simple_rel_array root (ref_relid fk) with
                         | Some rel => s * fk_selectivity jt rel
                         | None => s
                         end) used sel.

Lemma filter_negb_perm (f : RestrictInfo -> bool) l :
  Permutation (List.filter (fun r => negb (f r)) l ++ List.filter f l) l.
Proof.
  induction l as [|r l IH]; [reflexivity|]. cbn [List.filter]. destruct (f r); cbn [negb].
  - rewrite <- Permutation_middle. constructor. exact IH.
  - cbn. constructor. exact IH.
Qed.

Lemma filter_all (f : RestrictInfo -> bool) l : Forall (fun r => f r = true) (List.filter f l).
Proof. apply Forall_forall. intros r Hr. apply list_elem_of_In, List.filter_In in Hr. tauto. Qed.

Lemma fk_loop_ok root fkeys outer inner jt worklist sel : Forall (fkey_ok root) fkeys -> fraction sel ->
  exists sel' kept used, fk_loop root fkeys outer inner jt worklist sel = Ok (sel', kept)
    /\ fraction sel'
    /\ sublist (map fst used) fkeys
    /\ Forall (fun u => fk_takes u.1 u.2) used
    /\ Permutation (kept ++ concat (map snd used)) worklist
    /\ Forall (fun u => Forall (fun r => matches_fk u.1 r = false) kept) used
    /\ sel' = fk_product root jt sel (map fst used).
Proof.
  intros Hf. revert worklist sel. induction Hf as [|fk fkeys Hfk _ IH]; intros worklist sel Hs; cbn [fk_loop].
  { exists sel, worklist, []. cbn. rewrite app_nil_r. split_and!; auto. }
  assert (forall w, Permutation w worklist -> exists sel' kept used, fk_loop root fkeys outer inner jt w sel = Ok (sel', kept)
    /\ fraction sel' /\ sublist (map fst used) (fk :: fkeys) /\ Forall (fun u => fk_takes u.1 u.2) used
    /\ Permutation (kept ++ concat (map snd used)) worklist
    /\ Forall (fun u => Forall (fun r => matches_fk u.1 r = false) kept) used
    /\ sel' = fk_product root jt sel (map fst used)) as Skip.
  { intros w Hw. destruct (IH w sel Hs) as (sel' & kept & used & E & I1 & I2 & I3 & I4 & I5 & I6).
    exists sel', kept, used.
    split_and!; [exact E|exact I1|constructor; exact I2|exact I3|etransitivity; eassumption|exact I5|exact I6]. }
  destruct (fk_ref_is_outer_ok root fk outer inner Hfk) as [[ref|] ->]; cbn [rbind]; [|apply Skip; reflexivity].
  destruct (semi_or_anti jt && _); [apply Skip; reflexivity|].
  destruct (negb _) eqn:E; [apply Skip, filter_negb_perm|].
  destruct Hfk as [_ _ (rel & Er & Ht & Ft & Hr & Lr)]. unfold find_base_rel. rewrite Er. cbn [rbind].
  destruct (IH (List.filter (fun r => negb (matches_fk fk r)) worklist) (sel * fk_selectivity jt rel))
    as (sel' & kept & used & -> & I1 & I2 & I3 & I4 & I5 & I6).
  { apply fraction_mul; [exact Hs|apply fk_selectivity_fraction; assumption]. }
  exists sel', kept, ((fk, List.filter (matches_fk fk) worklist) :: used).
  split_and!; [reflexivity|exact I1|constructor; exact I2| | | |].
  - constructor; [|exact I3]. split; [apply filter_all|]. cbn [fst snd]. lia.
  - cbn [map concat snd]. rewrite Permutation_app_swap_app, (Permutation_app_comm _ (kept ++ _)), I4. apply filter_negb_perm.
  - constructor; [|exact I5]. apply Forall_forall. intros r Hk. cbn [fst].
    assert (r ∈ List.filter (fun r => negb (matches_fk fk r)) worklist) as Hin by (rewrite <- I4, elem_of_app; auto).
    apply list_elem_of_In, List.filter_In in Hin as [_ Hin]. destruct (matches_fk fk r); done.
  - cbn [map fst]. unfold fk_product in *. cbn [fold_left]. rewrite Er. exact I6.
Qed.

(** get_foreign_key_join_selectivity never loses or duplicates a clause: the
    clauses it returns and those taken over by the foreign keys it used partition
    the restriction list; a foreign key is used only when it matches as many clauses as
    columns were matched to it, no clause left matches a used key, and the
    selectivity is the product of the used keys' selectivities, a fraction. *)
Theorem fk_join_selectivity_partition root outer inner sj restrictlist :
  Forall (fkey_ok root) (fkey_list root) ->
  exists sel kept used, get_foreign_key_join_selectivity root outer inner sj restrictlist = Ok (sel, kept)
    /\ fraction sel
    /\ sublist (map fst used) (fkey_list root)
    /\ Forall (fun u => fk_takes u.1 u.2) used
    /\ Permutation (kept ++ concat (map snd used)) restrictlist
    /\ Forall (fun u => Forall (fun r => matches_fk u.1 r = false) kept) used
    /\ sel = fk_product root (sj_jointype sj) (i2d 1) (map fst used).
Proof. intros Hf. apply fk_loop_ok; [exact Hf|apply fraction_one]. Qed.

(** ** Joins *)

(** What the join type promises of the estimated number [n] of rows. *)
Definition size_bound (jt : JoinType) (o i n : double) (pushed : list RestrictInfo) : Prop :=
  match jt with
  | JOIN_INNER => finite (o * i) -> n ⊑ clamp_row_est (o * i)
  | JOIN_LEFT => pushed = [] -> o ⊑ n
  | JOIN_FULL => pushed = [] -> o ⊑ n /\ i ⊑ n
  | JOIN_SEMI | JOIN_ANTI => n ⊑ o
  | _ => False
  end.

Lemma at_least x y : nonneg x = true -> nonneg y = true -> isnan y = false ->
  let z := if x <? y then y else x in nonneg z = true /\ x ⊑ z /\ y ⊑ z /\ (finite x -> finite y -> finite z).
Proof.
  intros Hx Hy Ny z. unfold z. destruct (x <? y) eqn:E.
  - apply dlt_iff in E; [|assumption..]. split_and!; auto; [unfold cle; lia|reflexivity].
  - split_and!; auto; [reflexivity|]. destruct (isnan x) eqn:Nx.
    + apply isnan_cmag in Nx. pose proof (cmag_range y). unfold cle. lia.
    + rewrite dlt_sval, !sval_nonneg in E by assumption. unfold cle. lia.
Qed.

Lemma join_product_ok o i f j : nonneg o = true -> nonneg i = true -> fraction f -> fraction j ->
  nonneg (o * i * f * j) = true /\ (finite (o * i) -> o * i * f * j ⊑ o * i).
Proof.
  intros Ho Hi Hf Hj. pose proof (fr_nonneg _ Hf). pose proof (fr_nonneg _ Hj). split; [auto with nneg|]. intros F.
  etransitivity; [apply scale_le; [auto with nneg|apply scale_finite; auto with nneg|exact Hj]|].
  apply scale_le; auto with nneg.
Qed.

Lemma cle_mul_one x : nonneg x = true -> x ⊑ x * i2d 1.
Proof. intros Hx. unfold cle. rewrite cmag_mul_one by exact Hx. lia. Qed.

(** The rows before the quals pushed down to the join apply, and after them. *)
Lemma outer_join_rows y p : nonneg y = true -> fraction p ->
  nonneg (y * p) = true /\ (finite y -> finite (y * p)) /\ (p = i2d 1 -> y ⊑ y * p).
Proof.
  intros Hy Hp. pose proof (fr_nonneg _ Hp). split_and!; [auto with nneg|intros; apply scale_finite; assumption|].
  intros ->. apply cle_mul_one, Hy.
Qed.

(** The clauses a foreign key takes over are not missed among the pushed-down quals. *)
Lemma pushed_kept kept taken (l : list RestrictInfo) : Permutation (kept ++ taken) l ->
  List.filter is_pushed_down l = [] -> List.filter is_pushed_down kept = [].
Proof.
  intros P E. destruct (List.filter is_pushed_down kept) as [|r rest] eqn:F; [reflexivity|].
  assert (r ∈ List.filter is_pushed_down kept) as Hr by (rewrite F; left).
  apply list_elem_of_In, List.filter_In in Hr as [H1' H2'].
  assert (In r (List.filter is_pushed_down l)) as Hin.
  { apply List.filter_In. split; [|exact H2']. apply (Permutation_in _ P), in_or_app. auto. }
  rewrite E in Hin. destruct Hin.
Qed.

(** The estimate [y] that is clamped to the size of a join. *)
Definition estimate_ok (jt : JoinType) (o i y : double) (pushed : list RestrictInfo) : Prop :=
  nonneg y = true /\ (finite (o * i) -> finite y) /\ size_bound jt o i (clamp_row_est y) pushed.

Section sizes.
Context (o i f j p : double) (pushed : list RestrictInfo).
Context (Ho : row_count o) (Hi : row_count i) (Ff : fraction f) (Fj : fraction j) (Fp : fraction p).
Context (Ep : pushed = [] -> p = i2d 1).

Lemma inner_size_ok : estimate_ok JOIN_INNER o i (o * i * f * j) pushed.
Proof.
  destruct (join_product_ok o i f j (rc_nonneg _ Ho) (rc_nonneg _ Hi) Ff Fj) as [P1 P2].
  pose proof (rc_nonneg _ Ho). pose proof (rc_nonneg _ Hi).
  split_and!; [exact P1|intros F; eapply finite_le; [exact F|auto]|]. intros F. apply clamp_mono; auto with nneg.
Qed.

Let outer_part : double := if o * i * f * j <? o then o else o * i * f * j.

Lemma outer_part_ok : nonneg outer_part = true /\ o ⊑ outer_part /\ (finite (o * i) -> finite outer_part).
Proof.
  destruct (join_product_ok o i f j (rc_nonneg _ Ho) (rc_nonneg _ Hi) Ff Fj) as [P1 P2].
  destruct (at_least _ o P1 (rc_nonneg _ Ho) (finite_isnan _ (rc_finite _ Ho))) as (A1 & _ & A3 & A4).
  split_and!; [exact A1|exact A3|]. intros F. apply A4; [eapply finite_le; [exact F|auto]|apply (rc_finite _ Ho)].
Qed.

Lemma left_size_ok : estimate_ok JOIN_LEFT o i (outer_part * p) pushed.
Proof.
  destruct outer_part_ok as (A1 & A2 & A3). destruct (outer_join_rows _ _ A1 Fp) as (O1 & O2 & O3).
  split_and!; [exact O1|auto|]. intros E. apply count_le_clamp; [exact Ho|exact O1|].
  etransitivity; [exact A2|]. apply O3, Ep, E.
Qed.

Lemma full_size_ok : estimate_ok JOIN_FULL o i ((if outer_part <? i then i else outer_part) * p) pushed.
Proof.
  destruct outer_part_ok as (A1 & A2 & A3).
  destruct (at_least _ i A1 (rc_nonneg _ Hi) (finite_isnan _ (rc_finite _ Hi))) as (B1 & B2 & B3 & B4).
  destruct (outer_join_rows _ _ B1 Fp) as (O1 & O2 & O3). pose proof (rc_finite _ Hi).
  split_and!; [exact O1|auto|]. intros E. specialize (O3 (Ep E)).
  split; apply count_le_clamp; try assumption; (etransitivity; [|exact O3]); [etransitivity; eassumption|assumption].
Qed.

Lemma semi_size_ok : estimate_ok JOIN_SEMI o i (o * f * j) pushed.
Proof.
  pose proof Ho as [No Fo _ _]. destruct (scale_le o f No Fo Ff) as [P1 P2].
  destruct (scale_le _ j P1 (scale_finite o f No Fo Ff) Fj) as [P3 P4].
  assert (o * f * j ⊑ o) as L by (etransitivity; eassumption).
  split_and!; [exact P3|intros _; exact (finite_le _ _ Fo L)|apply clamp_le_count; assumption].
Qed.

Lemma anti_size_ok : estimate_ok JOIN_ANTI o i (o * (i2d 1 - f * j) * p) pushed.
Proof.
  pose proof Ho as [No Fo _ _]. pose proof (fraction_not _ (fraction_mul f j Ff Fj)) as Fc.
  destruct (scale_le o _ No Fo Fc) as [P1 P2]. destruct (scale_le _ p P1 (scale_finite o _ No Fo Fc) Fp) as [P3 P4].
  assert (o * (i2d 1 - f * j) * p ⊑ o) as L by (etransitivity; eassumption).
  split_and!; [exact P3|intros _; exact (finite_le _ _ Fo L)|apply clamp_le_count; assumption].
Qed.
End sizes.

Lemma calc_joinrel_size_ok root outer_rel inner_rel o i sj restrictlist :
  Forall (fkey_ok root) (fkey_list root) -> row_count o -> row_count i ->
  match sj_jointype sj with
  | JOIN_INNER | JOIN_LEFT | JOIN_FULL | JOIN_SEMI | JOIN_ANTI =>
      exists y, calc_joinrel_size_estimate root outer_rel inner_rel o i sj restrictlist = Ok (clamp_row_est y)
        /\ estimate_ok (sj_jointype sj) o i y (List.filter is_pushed_down restrictlist)
  | _ => calc_joinrel_size_estimate root outer_rel inner_rel o i sj restrictlist = Error "unrecognized join type"
  end.
Proof.
  intros Hf Ho Hi. unfold calc_joinrel_size_estimate, get_foreign_key_join_selectivity.
  destruct (fk_loop_ok root (fkey_list root) (relids outer_rel) (relids inner_rel) (sj_jointype sj) restrictlist _ Hf fraction_one)
    as (f & kept & used & -> & Ff & _ & _ & P & _). cbn [rbind].
  pose proof (fun l => selectivity_fraction l 0 (sj_jointype sj) (Some sj)) as S.
  assert (List.filter is_pushed_down restrictlist = [] ->
    clauselist_selectivity (List.filter is_pushed_down kept) 0 (sj_jointype sj) (Some sj) = i2d 1) as PK.
  { intros E. rewrite (pushed_kept _ _ _ P E). apply selectivity_nil. }
  destruct (sj_jointype sj); cbn [IS_OUTER_JOIN rbind]; try reflexivity; (eexists; split; [reflexivity|]).
  - apply inner_size_ok; auto.
  - apply left_size_ok; auto.
  - apply full_size_ok; auto.
  - apply semi_size_ok; auto.
  - apply anti_size_ok; auto.
Qed.

Lemma estimate_count jt o i y pushed : estimate_ok jt o i y pushed -> finite (o * i) -> row_count (clamp_row_est y).
Proof. intros (Hy & Hf & _) F. apply clamp_count; auto. Qed.

(** C32: The size of a join relation is an estimate for the five join types the planner
    builds relations for and an error for the others: a whole number of at least one
    row; an inner join has at most as many rows as the cross product, a left or full
    join without quals above the join at least as many as its outer (and inner) side,
    a semi or anti join at most as many as its outer side. *)
Theorem joinrel_size_spec root rel outer_rel inner_rel sj restrictlist :
  Forall (fkey_ok root) (fkey_list root) -> row_count (rel_rows outer_rel) -> row_count (rel_rows inner_rel) ->
  finite (rel_rows outer_rel * rel_rows inner_rel) ->
  match sj_jointype sj with
  | JOIN_INNER | JOIN_LEFT | JOIN_FULL | JOIN_SEMI | JOIN_ANTI =>
      exists rel', set_joinrel_size_estimates root rel outer_rel inner_rel sj restrictlist = Ok rel'
        /\ row_count (rel_rows rel')
        /\ size_bound (sj_jointype sj) (rel_rows outer_rel) (rel_rows inner_rel) (rel_rows rel')
             (List.filter is_pushed_down restrictlist)
        /\ tuples rel' = tuples rel /\ baserestrictinfo rel' = baserestrictinfo rel /\ reltarget rel' = reltarget rel
  | _ => set_joinrel_size_estimates root rel outer_rel inner_rel sj restrictlist = Error "unrecognized join type"
  end.
Proof.
  intros Hf Ho Hi F. pose proof (calc_joinrel_size_ok root outer_rel inner_rel _ _ sj restrictlist Hf Ho Hi) as C.
  unfold set_joinrel_size_estimates.
  destruct (sj_jointype sj); try (rewrite C; reflexivity); destruct C as (y & -> & E); cbn [rbind];
    (eexists; split; [reflexivity|]); pose proof (estimate_count _ _ _ _ _ E F); destruct E as (_ & _ & E);
    split_and!; assumption || reflexivity.
Qed.

(** A parameterized join path never produces more rows than the join relation. *)
Theorem parameterized_joinrel_size_spec root rel outer_path inner_path sj clauses n :
  Forall (fkey_ok root) (fkey_list root) -> row_count (rel_rows rel) ->
  row_count (rows outer_path) -> row_count (rows inner_path) -> finite (rows outer_path * rows inner_path) ->
  get_parameterized_joinrel_size root rel outer_path inner_path sj clauses = Ok n ->
  row_count n /\ n ⊑ rel_rows rel.
Proof.
  intros Hf Hr Ho Hi F. unfold get_parameterized_joinrel_size.
  pose proof (calc_joinrel_size_ok root (parent outer_path) (parent inner_path) _ _ sj clauses Hf Ho Hi) as C.
  destruct (sj_jointype sj); try (rewrite C; discriminate); destruct C as (y & -> & E); cbn [rbind]; intros [= <-];
    pose proof (estimate_count _ _ _ _ _ E F) as Cy; (split; [case_match; assumption|]);
    apply cap_rows; apply Cy || apply Hr.
Qed.
End spec.

(** ** Witnesses *)

#[local] Existing Instance default_settings.

#[export] Instance sample_widths : Widths := {|
  get_attavgwidth := fun _ attno => (if attno =? 1 then 4 else 0)%Z;
  rd_att := fun _ => [mkAttribute false 4; mkAttribute false 32] |}.

(** A table with a clause and the columns 1 and 2, and its whole row. *)
Definition unsized_rel : RelOptInfo :=
  set_rel_sizes sample_rel dzero (i2d 10000) sample_target [sample_rinfo] no_cost.
Definition sample_attrs : RelAttrs := mkRelAttrs (-7) 2 (replicate 10 0%Z).
Definition sample_items : list TargetExpr := [TVar 1 4; TExpr 8 (OpExpr 96 0 [Var 1 1; Const false true]); TVar 0 0].

Lemma sample_widths_ok : widths_ok 32 1 sample_attrs sample_items.
Proof.
  split; try (repeat constructor; cbn; lia). intros a. cbn. destruct (a =? 1)%Z; lia.
Qed.

Lemma unsized_rel_ok : baserel_ok 32 1 unsized_rel sample_attrs sample_items.
Proof.
  split; [split; [reflexivity|apply finite_i2d; lia]|cbn; lia|split; [reflexivity|apply cle_eval; vm_compute; reflexivity]
         |exact sample_clauses_ok|split; [cbn; lia|reflexivity]| |exact sample_widths_ok].
  apply Forall_cons_2; [cbn; lia|]. apply Forall_cons_2; [split; repeat (discriminate || constructor)|].
  apply Forall_cons_2; [cbn; lia|constructor].
Qed.

(** Column 1 has 4 bytes from the statistics, the expression 8, and the whole row
    24 + 4 + 32. *)
Lemma base_size_estimates_witness : exists rel' attrs',
  set_baserel_size_estimates 1 sample_attrs sample_items unsized_rel = Ok (rel', attrs')
  /\ width (reltarget rel') = (4 + 8 + (24 + 4 + 32))%Z /\ attr_widths attrs' = [0; 0; 0; 0; 0; 0; 0; 60; 4; 32]%Z
  /\ widths_right 1 sample_attrs sample_items (reltarget rel') attrs' /\ rel_rows rel' ⊑ clamp_row_est (i2d 10000).
Proof.
  destruct (base_size_estimates default_settings_ok 32 1 sample_attrs sample_items unsized_rel [i2d 3; i2d 7] 5 true (i2d 20)
    (i2d (-1)) (i2d 9) [mkSubTarget false 1 (Some 4%Z)]) as [(rel' & attrs' & E & _ & Wr & _ & Lt) _]; try reflexivity; try (apply finite_i2d; lia).
  - exact unsized_rel_ok.
  - repeat constructor; apply finite_i2d; lia.
  - lia.
  - left. reflexivity.
  - repeat constructor; cbn; lia.
  - exists rel', attrs'. split; [exact E|]. split; [|split; [|split; [exact Wr|exact Lt]]].
    + assert (exists a, set_baserel_size_estimates 1 sample_attrs sample_items unsized_rel = Ok a /\ width (reltarget a.1) = 72%Z) as (a & Ea & Ew)
        by (eexists; split; [vm_compute; reflexivity|reflexivity]).
      rewrite Ea in E. injection E as ->. exact Ew.
    + assert (exists a, set_baserel_size_estimates 1 sample_attrs sample_items unsized_rel = Ok a /\ attr_widths a.2 = [0; 0; 0; 0; 0; 0; 0; 60; 4; 32]%Z) as (a & Ea & Ew)
        by (eexists; split; [vm_compute; reflexivity|reflexivity]).
      rewrite Ea in E. injection E as ->. exact Ew.
Defined.

Lemma sized_sample_rows : row_count (i2d 10000).
Proof. split; [reflexivity|apply finite_i2d; lia|apply integral_i2d; lia|rewrite cmag_i2d by lia; lia]. Qed.

Lemma parameterized_baserel_size_spec_witness :
  let n := get_parameterized_baserel_size sample_rel [sample_rinfo] in
  row_count n /\ n ⊑ rel_rows sample_rel /\ (integral (tuples sample_rel) -> n ⊑ dMax (tuples sample_rel) (i2d 1)).
Proof.
  apply (parameterized_baserel_size_spec sample_rel [sample_rinfo]);
    [reflexivity|apply finite_i2d; lia|exact sized_sample_rows].
Defined.

(** The relation 1 refers to the relation 2 by a key of one column, which an
    equivalence class matches. *)
Definition sample_fkey : ForeignKeyOptInfo := mkForeignKey 1 2 [Some 7%Z] [[]] 1 0.
Definition fk_root : JoinRoot := mkJoinRoot [sample_fkey] (fun _ => Some sample_rel).
Definition fk_clause : RestrictInfo :=
  mkRestrictInfo 2 (OpExpr 96 0 [Var 1 1; Var 2 1]) false false
    (Some [6]) None None (Some [2]) (Some [4]) None (Some 7%Z) (mkQualCost (i2d (-1)) (i2d 0)) (i2d (-1)) (i2d (-1))
    (mkJoinClause true [1976] 96 7 7 false (Some [6])).

Definition other_rel : RelOptInfo :=
  {| reloptkind := RELOPT_BASEREL; relids := Some [4]; rel_rows := i2d 10000;
     consider_startup := true; consider_param_startup := false; consider_parallel := true;
     reltarget := sample_target; relid := 2; reltablespace := 0; rtekind := RTE_RELATION;
     pages := 100; tuples := i2d 10000; allvisfrac := dzero; rel_parallel_workers := -1;
     baserestrictinfo := []; baserestrictcost := mkQualCost dzero (dlit 25 10000) |}.

Lemma sample_fkeys_ok : Forall (fkey_ok fk_root) (fkey_list fk_root).
Proof.
  constructor; [|constructor]. split; [cbn; lia|cbn; lia|]. exists sample_rel.
  split_and!; reflexivity || (apply cle_eval; vm_compute; reflexivity).
Qed.

(** The key takes the clause of its column and leaves the other clause. *)
Lemma fk_join_selectivity_partition_witness :
  exists sel kept used,
    get_foreign_key_join_selectivity fk_root (Some [2]) (Some [4]) (mkSpecialJoinInfo None None None None JOIN_INNER false)
      [sample_rinfo; fk_clause] = Ok (sel, kept)
    /\ kept = [sample_rinfo]
    /\ fraction sel /\ sublist (map fst used) (fkey_list fk_root)
    /\ Forall (fun u => fk_takes u.1 u.2) used /\ Permutation (kept ++ concat (map snd used)) [sample_rinfo; fk_clause].
Proof.
  destruct (fk_join_selectivity_partition fk_root (Some [2]) (Some [4]) (mkSpecialJoinInfo None None None None JOIN_INNER false)
    [sample_rinfo; fk_clause] sample_fkeys_ok) as (sel & kept & used & E & F & S & T & P & _ & _).
  exists sel, kept, used. split_and!; try assumption.
  vm_compute in E. injection E as _ <-. reflexivity.
Defined.

Lemma sample_product_finite : finite (i2d 10000 * i2d 10000).
Proof. rewrite i2d_mul by lia. apply finite_i2d; lia. Qed.

Lemma joinrel_size_spec_witness :
  exists rel', set_joinrel_size_estimates fk_root sample_rel sample_rel other_rel
      (mkSpecialJoinInfo None None None None JOIN_LEFT false) [sample_rinfo; fk_clause] = Ok rel'
    /\ row_count (rel_rows rel')
    /\ size_bound JOIN_LEFT (i2d 10000) (i2d 10000) (rel_rows rel') (List.filter is_pushed_down [sample_rinfo; fk_clause])
    /\ tuples rel' = tuples sample_rel /\ baserestrictinfo rel' = baserestrictinfo sample_rel
    /\ reltarget rel' = reltarget sample_rel.
Proof.
  exact (joinrel_size_spec fk_root sample_rel sample_rel other_rel (mkSpecialJoinInfo None None None None JOIN_LEFT false)
    [sample_rinfo; fk_clause] sample_fkeys_ok sized_sample_rows sized_sample_rows sample_product_finite).
Defined.

Lemma parameterized_joinrel_size_spec_witness :
  exists n, get_parameterized_joinrel_size fk_root sample_rel join_input join_input
      (mkSpecialJoinInfo None None None None JOIN_SEMI false) [sample_rinfo] = Ok n
    /\ row_count n /\ n ⊑ rel_rows sample_rel.
Proof.
  eexists. split; [cbv; reflexivity|].
  apply (parameterized_joinrel_size_spec fk_root sample_rel join_input join_input
    (mkSpecialJoinInfo None None None None JOIN_SEMI false) [sample_rinfo] _ sample_fkeys_ok sized_sample_rows
    sized_sample_rows sized_sample_rows sample_product_finite). cbv. reflexivity.
Defined.
