(* ===== verification/ClauseSelSpec.v ===== *)
(** Selectivities are fractions, and the caches in the RestrictInfos never change an
    answer; clausesel.c provides the estimates the cost model asks for. *)
From stdpp Require Import gmap.
From S2P Require Import Prelude Float64 Double DoubleOrder DoubleDiv DoubleRound DoubleUnit Bitmapset BitmapsetSpec PlanTypes Samples CostExpr CostBase CostScan CostNode CostJoin ClauseSel CostJoinSpec SizeEst SizeEstSpec.
Open Scope Z_scope.
Open Scope double_scope.

(** The selectivity of an inequality over an expression of which the fraction [nulls] is
    null: the default, if the other side is not known or there are no statistics;
    otherwise the values and the nulls in a sample do not exceed it, up to the rounding of
    the stored frequencies, which are single precision numbers ([cmag] counts units of
    2^-1074, so [2^1051] is 2^-23). *)
Definition inequality_estimate (sel nulls : Selectivity) : Prop :=
  deq sel DEFAULT_INEQ_SEL = true \/ (cmag sel + cmag nulls <= 2 ^ 1074 + 2 ^ 1051)%Z.

(** What the estimation procedures promise: selectivities are fractions. scalarltsel and
    scalargtsel (selfuncs.c) return DEFAULT_INEQ_SEL unless one side is an expression with
    statistics and the other a constant; then they are estimates from the values that are not null.
    The fraction of nulls is zero or that of at least one of the at most three million
    rows ANALYZE samples, or a default of 0.005 without statistics: never between 0 and 2^-22.
    Relations have a whole number of tuples; equal expressions are null equally often. *)
Class SelectivityLaws `{SelectivitySupport} := {
  oprrest_fraction : forall proc clause v, fraction (call_oprrest proc clause v);
  oprjoin_fraction : forall proc clause j s, fraction (call_oprjoin proc clause j s);
  boolvarsel_fraction : forall n v, fraction (boolvarsel n v);
  scalararraysel_fraction : forall n b v j s, fraction (scalararraysel n b v j s);
  rowcomparesel_fraction : forall n v j s, fraction (rowcomparesel n v j s);
  nulltestsel_fraction : forall t n v j s, fraction (nulltestsel t n v j s);
  booltestsel_fraction : forall t n v j s, fraction (booltestsel t n v j s);
  inequality_nulls : forall opno f l r v j s, get_oprrest opno = F_SCALARLTSEL \/ get_oprrest opno = F_SCALARGTSEL ->
    let sel := call_oprrest (get_oprrest opno) (OpExpr opno f [l; r]) v in
    (contain_var_clause r = false -> inequality_estimate sel (nulltestsel IS_NULL l v j s))
    /\ (contain_var_clause l = false -> inequality_estimate sel (nulltestsel IS_NULL r v j s));
  null_fraction : forall n v j s, cmag (nulltestsel IS_NULL n v j s) = 0%Z \/ (2 ^ 1052 <= cmag (nulltestsel IS_NULL n v j s))%Z;
  equal_nulls : forall a b v j s, equal a b = true -> nulltestsel IS_NULL a v j s = nulltestsel IS_NULL b v j s;
  tuples_whole : forall rti rel, sel_simple_rels rti = Some rel -> nonneg (tuples rel) = true /\ finite (tuples rel)
    /\ (cmag (tuples rel) = 0%Z \/ i2d 1 ⊑ tuples rel);
}.

(** ** Caches *)

(** Only new fractions are added. *)
Record extends (c c' : SelCache) : Prop := {
  ex_norm : norm_selecs c ⊆ norm_selecs c';
  ex_outer : outer_selecs c ⊆ outer_selecs c';
  ex_new : forall p v, norm_selecs c' !! p = Some v -> norm_selecs c !! p = Some v \/ fraction v;
}.

#[export] Instance extends_preorder : PreOrder extends.
Proof.
  split; [intros c; split; eauto|]. intros a b c [N1 O1 W1] [N2 O2 W2]. split; [etransitivity; eassumption..|].
  intros p v E. destruct (W2 p v E) as [E'|F]; auto.
Qed.

(** A redundant clause, marked by a selectivity above one, stays one; no other becomes one. *)
Lemma extends_redundant c c' r : extends c c' -> (norm_selec c' r >? i2d 1) = (norm_selec c r >? i2d 1).
Proof.
  intros [N _ W]. unfold norm_selec. destruct (norm_selecs c !! ri_ptr r) as [v|] eqn:E.
  { rewrite (lookup_weaken _ _ _ _ E N). reflexivity. }
  destruct (norm_selecs c' !! ri_ptr r) as [v|] eqn:E'; [|reflexivity]. destruct (W _ _ E') as [?|[Hv Lv]]; [congruence|].
  cbn [from_option id]. rewrite cle_not_lt by (assumption || reflexivity). reflexivity.
Qed.

Section spec.
Context `{SelectivitySupport, !SelectivityLaws}.
Context (varRelid : Z) (jointype : JoinType) (sjinfo : option SpecialJoinInfo) (Hv : 0 <= varRelid).
Abbreviation nulls var := (nulltestsel IS_NULL var varRelid jointype sjinfo).

(** ** Clauses *)

Definition range_op (opno : Oid) : Prop := get_oprrest opno = F_SCALARLTSEL \/ get_oprrest opno = F_SCALARGTSEL.

(** [s] is an estimate for the side of the clause that is not constant. *)
Definition not_null (clause : Node) (s : Selectivity) : Prop :=
  forall opno f l r, clause = OpExpr opno f [l; r] -> range_op opno ->
    (contain_var_clause r = false -> inequality_estimate s (nulls l))
    /\ (contain_var_clause l = false -> inequality_estimate s (nulls r)).

(** The RestrictInfos of the query, which their addresses distinguish. *)
Context (query : RestrictInfo -> Prop).
Context (by_address : forall r r', query r -> query r' -> ri_ptr r = ri_ptr r' -> r = r').

Definition one_rel (r : RestrictInfo) : Prop := bms_membership (clause_relids r) = BMS_SINGLETON.

(** A selectivity of the clause in [r]. *)
Definition rinfo_fits (r : RestrictInfo) (s : Selectivity) : Prop := fraction s /\ (one_rel r -> pseudoconstant r = false -> not_null (clause r) s).

(** The cached values are selectivities, or mark a clause that is no inequality as
    redundant. *)
Record cache_ok (cache : SelCache) : Prop := {
  co_norm : forall r v, query r -> norm_selecs cache !! ri_ptr r = Some v ->
    rinfo_fits r v \/ ((v >? i2d 1) = true /\ forall opno f args, clause r = OpExpr opno f args -> ~ range_op opno);
  co_outer : forall r v, query r -> outer_selecs cache !! ri_ptr r = Some v -> rinfo_fits r v;
}.

Definition known_rel (rti : Z) : Prop := 0 < rti /\ is_Some (sel_simple_rels rti).

(** Every NOT has an argument; relations exist; only disjunctions have an orclause; a side
    of an operator that uses no relation has no variables, as make_restrictinfo records. *)
Definition clause_ok (node : Node) : Prop :=
  match node with
  | RestrictInfoNode r => query r /\ (forall rti, bms_get_singleton_member (clause_relids r) = Some rti -> known_rel rti)
                          /\ (orclause r <> None -> exists args, clause r = BoolExpr OR_EXPR args)
                          /\ (forall opno f left right, clause r = OpExpr opno f [left; right] ->
                              (bms_is_empty (left_relids r) = true -> contain_var_clause left = false)
                              /\ (bms_is_empty (right_relids r) = true -> contain_var_clause right = false))
  | BoolExpr NOT_EXPR args => args <> []
  | CurrentOfExpr cvarno => known_rel cvarno
  | _ => True
  end.

Inductive query_clause : Node -> Prop :=
| query_clause_intro node : clause_ok node -> Forall query_clause (children node) -> query_clause node.

(** What the selectivity of a node means for the pairs of bounds. *)
Definition node_fits (node : Node) (s : Selectivity) : Prop :=
  match node with
  | RestrictInfoNode r => rinfo_fits r s
  | _ => fraction s /\ (NumRelids node = 1%Z -> not_null node s)
  end.

(** ** Runs that end well *)

(** From a good cache: a result, a good cache that extends the old one, and the same result
    from any later cache, which then does not change. *)
Definition settles {A} (Q : A -> Prop) (run : SelCache -> result (A * SelCache)) : Prop :=
  forall cache, cache_ok cache -> exists a cache', run cache = Ok (a, cache') /\ Q a /\ cache_ok cache' /\ extends cache cache'
    /\ forall later, cache_ok later -> extends cache' later -> run later = Ok (a, later).

Lemma settles_ret {A} (Q : A -> Prop) a : Q a -> settles Q (fun cache => Ok (a, cache)).
Proof. intros Hq cache C. exists a, cache. split_and!; [reflexivity|assumption..|reflexivity|reflexivity]. Qed.

Lemma settles_bind {A B} (Q : A -> Prop) (R : B -> Prop) (run : SelCache -> result (A * SelCache)) k :
  settles Q run -> (forall a, Q a -> settles R (k a)) -> settles R (fun cache => let! (a, cache) := run cache in k a cache).
Proof.
  intros S K cache C. destruct (S cache C) as (a & c1 & E1 & Qa & C1 & X1 & L1). destruct (K a Qa c1 C1) as (b & c2 & E2 & Rb & C2 & X2 & L2).
  exists b, c2. rewrite E1. cbn [rbind]. split_and!; [exact E2|exact Rb|exact C2|etransitivity; eassumption|].
  intros later Cl X. rewrite L1 by (assumption || etransitivity; eassumption). cbn [rbind]. apply L2; assumption.
Qed.

Lemma settles_weaken {A} (Q R : A -> Prop) run : settles Q run -> (forall a, Q a -> R a) -> settles R run.
Proof. intros S W cache C. destruct (S cache C) as (a & c' & E & Qa & C' & X & L). exists a, c'. split_and!; auto. Qed.

Lemma settles_ext {A} (Q : A -> Prop) run run' : (forall cache, run cache = run' cache) -> settles Q run -> settles Q run'.
Proof.
  intros E S cache C. destruct (S cache C) as (a & c' & Ea & Qa & C' & X & L). exists a, c'. rewrite <- E. split_and!; try assumption.
  intros later Cl Xl. rewrite <- E. auto.
Qed.

(** ** Operators *)

Lemma half_fraction : fraction (dlit 1 2).
Proof. split; [reflexivity|apply cle_eval; reflexivity]. Qed.

Lemma range_error s : fraction s -> (s <? i2d 0) || (s >? i2d 1) = false.
Proof.
  intros [Hs Ls]. apply orb_false_iff. split; apply cle_not_lt; try assumption; try reflexivity.
  unfold cle. change (cmag (i2d 0)) with 0. apply cmag_range.
Qed.

Lemma restriction_ok opno clause : exists s, restriction_selectivity opno clause varRelid = Ok s /\ fraction s
  /\ (range_op opno -> s = call_oprrest (get_oprrest opno) clause varRelid).
Proof.
  unfold restriction_selectivity. destruct (get_oprrest opno =? 0)%Z eqn:E.
  - apply Z.eqb_eq in E. eexists. split_and!; [reflexivity|apply half_fraction|]. intros [R|R]; rewrite E in R; discriminate.
  - rewrite range_error by apply oprrest_fraction. eexists. split_and!; [reflexivity|apply oprrest_fraction|reflexivity].
Qed.

Lemma join_selectivity_ok opno clause : exists s, join_selectivity opno clause jointype sjinfo = Ok s /\ fraction s.
Proof.
  unfold join_selectivity. destruct (get_oprjoin opno =? 0)%Z.
  - eexists. split; [reflexivity|apply half_fraction].
  - rewrite range_error by apply oprjoin_fraction. eexists. split; [reflexivity|apply oprjoin_fraction].
Qed.

(** Where the clause is found: the RestrictInfo says how many relations it uses. *)
Definition single_use (rinfo : option RestrictInfo) (clause : Node) : Prop :=
  match rinfo with Some r => one_rel r | None => NumRelids clause = 1%Z end.

Lemma single_restriction rinfo clause : single_use rinfo clause -> treat_as_join_clause varRelid sjinfo clause rinfo = false.
Proof.
  unfold treat_as_join_clause, single_use, one_rel. intros S. destruct (negb _); [reflexivity|]. destruct sjinfo; [|reflexivity].
  destruct rinfo; rewrite S; reflexivity.
Qed.

(** The operator's estimate, for an expression found in [rinfo]. *)
Definition found_fits (rinfo : option RestrictInfo) (clause : Node) (s : Selectivity) : Prop :=
  fraction s /\ (single_use rinfo clause -> not_null clause s).

Lemma operator_ok rinfo opno clause : exists s,
  (if treat_as_join_clause varRelid sjinfo clause rinfo then join_selectivity opno clause jointype sjinfo
   else restriction_selectivity opno clause varRelid) = Ok s
  /\ fraction s /\ (forall f args, clause = OpExpr opno f args -> single_use rinfo clause -> not_null clause s).
Proof.
  destruct (treat_as_join_clause varRelid sjinfo clause rinfo) eqn:T.
  - destruct (join_selectivity_ok opno clause) as (s & E & F). exists s. split_and!; [exact E|exact F|].
    intros f args _ S. rewrite single_restriction in T by exact S. discriminate.
  - destruct (restriction_ok opno clause) as (s & E & F & R). exists s. split_and!; [exact E|exact F|].
    intros f args -> _ opno' f' l r [= -> -> ->] Ro. rewrite R by exact Ro. apply inequality_nulls, Ro.
Qed.

(** ** Pairs of range bounds *)

Definition bound_ok (var : Node) (b : Selectivity) : Prop := fraction b /\ inequality_estimate b (nulls var).

Definition ranges_ok (rqlist : list RangeQueryClause) : Prop :=
  Forall (fun rq => (forall b, rq_lobound rq = Some b -> bound_ok (rq_var rq) b) /\ (forall b, rq_hibound rq = Some b -> bound_ok (rq_var rq) b)) rqlist.

Lemma dmin_bound_ok var old s b : (forall b, old = Some b -> bound_ok var b) -> bound_ok var s -> dmin_bound old s = Some b -> bound_ok var b.
Proof. intros O S. destruct old as [o|]; cbn; [case_match|]; intros [= <-]; auto. Qed.

Lemma add_bound_ok rqlist var lo s rqlist' : ranges_ok rqlist -> bound_ok var s -> add_bound rqlist var lo s = Some rqlist' -> ranges_ok rqlist'.
Proof.
  intros R S. revert rqlist'. induction R as [|rq rest [Rl Rh] Rr IH]; intros rqlist'; cbn [add_bound]; [discriminate|].
  destruct (equal var (rq_var rq)) eqn:Eq.
  - assert (bound_ok (rq_var rq) s) as S' by (unfold bound_ok in *; rewrite <- (equal_nulls _ _ varRelid jointype sjinfo Eq); exact S).
    intros [= <-]. constructor; [|assumption]. destruct lo; cbn; split; intros b Eb; eauto using dmin_bound_ok.
  - destruct (add_bound rest var lo s) as [l|]; cbn; [|discriminate]. intros [= <-]. constructor; [split; assumption|apply IH; reflexivity].
Qed.

Lemma addRangeClause_ok rqlist l r (vl lt : bool) s : ranges_ok rqlist -> bound_ok (if vl then l else r) s ->
  ranges_ok (addRangeClause rqlist l r vl lt s).
Proof.
  intros R Hs. unfold addRangeClause. destruct (if vl then (_, _) else _) as [var lo] eqn:Ev.
  assert (bound_ok var s) as S by (destruct vl; injection Ev as <- _; exact Hs).
  destruct (add_bound rqlist var lo s) as [l'|] eqn:E; [eapply add_bound_ok; eassumption|].
  constructor; [|exact R]. cbn. split; intros b; destruct lo; intros [= <-]; exact S.
Qed.

(** Two estimates for the same expression. *)
Lemma two_bounds hi lo var : fraction hi -> fraction lo -> (cmag hi + cmag (nulls var) <= 2 ^ 1074 + 2 ^ 1051)%Z ->
  (cmag lo + cmag (nulls var) <= 2 ^ 1074 + 2 ^ 1051)%Z -> (cmag hi + cmag lo + cmag (nulls var) <= 2 ^ 1075)%Z.
Proof.
  intros Fh Fl Nh Nl. pose proof (fraction_cmag hi Fh). pose proof (fraction_cmag lo Fl). pose proof (null_fraction var varRelid jointype sjinfo).
  replace (2 ^ 1075)%Z with (2 * 2 ^ 1074)%Z by reflexivity. replace (2 ^ 1052)%Z with (2 * 2 ^ 1051)%Z in * by reflexivity. lia.
Qed.

Lemma range_selectivity_ok rq : (forall b, rq_lobound rq = Some b -> bound_ok (rq_var rq) b) -> (forall b, rq_hibound rq = Some b -> bound_ok (rq_var rq) b) ->
  fraction (range_selectivity varRelid jointype sjinfo rq).
Proof.
  intros L Hi. assert (fraction DEFAULT_RANGE_INEQ_SEL) as Fd by (split; [reflexivity|apply cle_eval; reflexivity]).
  assert (fraction (dlit 1 10000000000)) as Fs by (split; [reflexivity|apply cle_eval; reflexivity]).
  unfold range_selectivity. destruct (rq_lobound rq) as [lo|], (rq_hibound rq) as [hi|];
    [|apply (L _ eq_refl)|apply (Hi _ eq_refl)|apply fraction_one].
  destruct (deq _ _ || deq _ _) eqn:D; [exact Fd|]. apply orb_false_iff in D as [Dh Dl].
  destruct (L _ eq_refl) as [Fl [Nl|Nl]], (Hi _ eq_refl) as [Fh [Nh|Nh]]; try congruence.
  pose proof (two_bounds hi lo (rq_var rq) Fh Fl Nh Nl) as Sum.
  destruct (fraction_range hi lo (nulls (rq_var rq)) Fh Fl (nulltestsel_fraction _ _ _ _ _) Sum) as [E|F].
  - rewrite E. destruct (_ <? _); assumption.
  - destruct (_ <=? _); [destruct (_ <? _); assumption|exact F].
Qed.

(** A clause whose selectivity fits may become a bound. *)
Lemma merge_clause_ok node s2 s1 rqlist : query_clause node -> node_fits node s2 -> fraction s1 -> ranges_ok rqlist ->
  fraction (merge_clause node s2 s1 rqlist).1 /\ ranges_ok (merge_clause node s2 s1 rqlist).2.
Proof.
  intros Qc N F1 R. assert (fraction s2) as F2 by (destruct node; apply N).
  assert (fraction (s1 * s2, rqlist).1 /\ ranges_ok (s1 * s2, rqlist).2) as Mul by (split; [apply fraction_mul; assumption|exact R]).
  assert (forall opno f l r rinfo (b : bool), not_null (OpExpr opno f [l; r]) s2 -> contain_var_clause (if b then r else l) = false ->
    (if (get_oprrest opno =? F_SCALARLTSEL)%Z then (s1, addRangeClause rqlist l r b true s2)
     else if (get_oprrest opno =? F_SCALARGTSEL)%Z then (s1, addRangeClause rqlist l r b false s2) else (s1 * s2, rqlist)) = rinfo ->
    fraction rinfo.1 /\ ranges_ok rinfo.2) as Bound.
  { intros opno f l r res b Nn Cn <-. assert (range_op opno -> bound_ok (if b then l else r) s2) as B
      by (intros Ro; destruct (Nn opno f l r eq_refl Ro) as [N1 N2]; split; [exact F2|]; destruct b; auto).
    destruct (get_oprrest opno =? F_SCALARLTSEL)%Z eqn:E1; [|destruct (get_oprrest opno =? F_SCALARGTSEL)%Z eqn:E2; [|exact Mul]];
      (split; [exact F1|apply addRangeClause_ok; [exact R|apply B; unfold range_op; lia]]). }
  unfold merge_clause. destruct node as [| | | |opno f args| | | | | | | | | | | | | | | | | | | | | | | | |rinfo]; try exact Mul.
  - destruct args as [|l [|r [|]]]; try exact Mul. unfold var_side. destruct N as [_ Nn].
    destruct (NumRelids (OpExpr opno f [l; r]) =? 1)%Z eqn:En; [|exact Mul]. apply Z.eqb_eq in En. specialize (Nn En).
    unfold is_pseudo_constant_clause. destruct (contain_var_clause r) eqn:Cr; cbn [negb andb].
    + destruct (contain_var_clause l) eqn:Cl; cbn [negb andb]; [exact Mul|].
      destruct (negb _); [apply (Bound opno f l r _ false Nn Cl eq_refl)|exact Mul].
    + destruct (negb _); [apply (Bound opno f l r _ true Nn Cr eq_refl)|]. destruct (contain_var_clause l) eqn:Cl; cbn [negb andb]; [exact Mul|].
      destruct (negb _); [apply (Bound opno f l r _ false Nn Cl eq_refl)|exact Mul].
  - destruct (pseudoconstant rinfo) eqn:Ep; [exact Mul|]. destruct N as [_ Nn].
    destruct (clause rinfo) as [| | | |opno f args| | | | | | | | | | | | | | | | | | | | | | | | |] eqn:Ec; try exact Mul.
    destruct args as [|l [|r [|]]]; try exact Mul. unfold var_side. destruct (bms_membership (clause_relids rinfo)) eqn:Em; try exact Mul.
    specialize (Nn Em Ep). inversion Qc as [? Ck _]; subst. destruct Ck as (_ & _ & _ & Sides). destruct (Sides _ _ _ _ Ec) as [Sl Sr].
    unfold is_pseudo_constant_clause_relids. destruct (bms_is_empty (right_relids rinfo)) eqn:Er; cbn [andb].
    + destruct (negb _); [apply (Bound opno f l r _ true Nn (Sr eq_refl) eq_refl)|].
      destruct (bms_is_empty (left_relids rinfo)) eqn:El; cbn [andb]; [|exact Mul].
      destruct (negb _); [apply (Bound opno f l r _ false Nn (Sl eq_refl) eq_refl)|exact Mul].
    + destruct (bms_is_empty (left_relids rinfo)) eqn:El; cbn [andb]; [|exact Mul].
      destruct (negb _); [apply (Bound opno f l r _ false Nn (Sl eq_refl) eq_refl)|exact Mul].
Qed.

(** ** Lists of clauses *)

(** Extended statistics estimate some of the clauses. *)
Definition statistics_settle : Prop := forall clauses rel,
  settles (fun r : Selectivity * Bitmapset => fraction r.1)
    (fun cache => let '(s, estimated, cache) := dependencies_clauselist_selectivity clauses varRelid jointype sjinfo rel cache in
       Ok ((s, estimated), cache)).
Context (Stats : statistics_settle).

Lemma loop_settles sel estimated clauses : Forall (fun n => query_clause n /\ settles (node_fits n) (sel n)) clauses ->
  forall idx s1 rqlist, 0 <= idx -> fraction s1 -> ranges_ok rqlist ->
  settles (fun r : Selectivity * list RangeQueryClause => fraction r.1 /\ ranges_ok r.2)
    (clauselist_loop sel estimated clauses idx s1 rqlist).
Proof.
  induction 1 as [|n clauses [Qn Sn] _ IH]; intros idx s1 rqlist Hi F R; cbn [clauselist_loop]; [apply settles_ret; auto|].
  destruct (bms_is_member_ok idx estimated Hi) as [skip Ek]. destruct skip.
  - eapply settles_ext; [|apply (IH (idx + 1)%Z s1 rqlist); [lia|assumption..]]. intros cache. rewrite Ek. reflexivity.
  - eapply settles_ext; [|eapply (settles_bind _ _ _ (fun s2 cache => let (s1, rqlist) := merge_clause n s2 s1 rqlist in
      clauselist_loop sel estimated clauses (idx + 1)%Z s1 rqlist cache) Sn)].
    + intros cache. rewrite Ek. reflexivity.
    + intros s2 F2. pose proof (merge_clause_ok n s2 s1 rqlist Qn F2 F R) as [F' R']. destruct (merge_clause n s2 s1 rqlist) as [s1' rq'].
      apply IH; [lia|exact F'|exact R'].
Qed.

Lemma ranges_product rqlist : ranges_ok rqlist -> forall s1, fraction s1 ->
  fraction (foldl (fun s1 rq => s1 * range_selectivity varRelid jointype sjinfo rq) s1 rqlist).
Proof. induction 1 as [|rq rest [L Hi] _ IH]; intros s1 F; cbn; [exact F|]. apply IH, fraction_mul; [exact F|apply range_selectivity_ok; assumption]. Qed.

Lemma find_single_rel_ok clauses : Forall query_clause clauses -> exists r, find_single_rel_for_clauses clauses = Ok r.
Proof.
  intros Q. assert (forall last, last = 0%Z \/ known_rel last -> forall rti, single_relid clauses last = Some rti -> rti = 0%Z \/ known_rel rti) as K.
  { induction Q as [|n clauses Qn _ IH]; intros last Hl rti; cbn [single_relid]; [intros [= <-]; exact Hl|].
    destruct n; try discriminate. inversion Qn as [? Ck _]. destruct Ck as (_ & Kr & _ & _). destruct (bms_is_empty _); [apply IH, Hl|].
    destruct (bms_get_singleton_member (clause_relids rinfo)) as [x|]; [|discriminate]. specialize (Kr x eq_refl).
    destruct (last =? 0)%Z; [apply IH; auto|]. destruct (x =? last)%Z; [apply IH, Hl|discriminate]. }
  unfold find_single_rel_for_clauses. destruct (single_relid clauses 0) as [rti|] eqn:E; [|eauto].
  destruct (rti =? 0)%Z eqn:Ez; [eauto|]. destruct (K 0%Z (or_introl eq_refl) rti E) as [->|[Hr [rel Er]]]; [discriminate|].
  unfold sel_base_rel. rewrite (proj2 (Z.ltb_lt _ _) Hr), Er. cbn. eauto.
Qed.

(** The list as a conjunction. *)
Lemma clauselist_settles sel clauses : Forall (fun n => query_clause n /\ settles (node_fits n) (sel n)) clauses ->
  settles fraction (clauselist_sel varRelid jointype sjinfo sel clauses).
Proof.
  intros Fc. assert (Forall query_clause clauses) as Fq by (eapply Forall_impl; [exact Fc|intros ? [? _]; assumption]).
  assert (forall s1 est, fraction s1 -> settles fraction (fun cache => let! (s1, rqlist, cache) := clauselist_loop sel est clauses 0 s1 [] cache in
      Ok (foldl (fun s1 rq => s1 * range_selectivity varRelid jointype sjinfo rq) s1 rqlist, cache))) as Loop.
  { intros s1 est F1. apply (settles_ext _ (fun cache => let! (r, cache) := clauselist_loop sel est clauses 0 s1 [] cache in
      Ok (foldl (fun s1 rq => s1 * range_selectivity varRelid jointype sjinfo rq) r.1 r.2, cache))).
    - intros cache. destruct (clauselist_loop sel est clauses 0 s1 [] cache) as [[[? ?] ?]|]; reflexivity.
    - eapply settles_bind; [apply loop_settles; [exact Fc|lia|exact F1|constructor]|]. intros [s rq] [F R]. apply settles_ret, ranges_product; assumption. }
  destruct (find_single_rel_ok clauses Fq) as [rel Er].
  assert (settles fraction (fun cache => let! rel := find_single_rel_for_clauses clauses in
      let '(s1, estimatedclauses, cache) :=
        match rel with
        | Some rel =>
            if match rtekind rel with RTE_RELATION => has_statlist rel | _ => false end then
              let '(s, estimated, cache) := dependencies_clauselist_selectivity clauses varRelid jointype sjinfo rel cache in
              (i2d 1 * s, estimated, cache)
            else (i2d 1, None, cache)
        | None => (i2d 1, None, cache)
        end in
      let! (s1, rqlist, cache) := clauselist_loop sel estimatedclauses clauses 0 s1 [] cache in
      Ok (foldl (fun s1 rq => s1 * range_selectivity varRelid jointype sjinfo rq) s1 rqlist, cache))) as G.
  { rewrite Er. cbn [rbind]. destruct rel as [rel|]; [|apply Loop, fraction_one].
    destruct (match rtekind rel with RTE_RELATION => has_statlist rel | _ => false end); [|apply Loop, fraction_one].
    pose proof (settles_bind _ fraction _ (fun r cache => let! (s1, rqlist, cache) := clauselist_loop sel r.2 clauses 0 (i2d 1 * r.1) [] cache in
      Ok (foldl (fun s1 rq => s1 * range_selectivity varRelid jointype sjinfo rq) s1 rqlist, cache)) (Stats clauses rel)) as B.
    eapply settles_ext; [|apply B; intros [s est] F; apply Loop, fraction_mul; [apply fraction_one|exact F]].
    intros cache. cbn beta. destruct (dependencies_clauselist_selectivity _ _ _ _ _ _) as [[s est] c]. reflexivity. }
  unfold clauselist_sel. destruct clauses as [|n [|n' clauses]]; try exact G.
  apply Forall_cons in Fc as [[_ S] _]. eapply settles_weaken; [exact S|]. intros s N. destruct n; apply N.
Qed.

Lemma or_settles sel args : Forall (fun n => settles (node_fits n) (sel n)) args ->
  forall s1, fraction s1 -> settles fraction (or_loop sel args s1).
Proof.
  induction 1 as [|n args S _ IH]; intros s1 F; cbn [or_loop]; [apply settles_ret, F|].
  eapply settles_bind; [exact S|]. intros s2 N. apply IH, fraction_or; [exact F|destruct n; apply N].
Qed.

(** ** The cache of a RestrictInfo *)

Lemma cache_ok_store cache r s : cache_ok cache -> query r -> rinfo_fits r s -> cache_ok (store_selec jointype cache r s).
Proof.
  intros [N O] Q F. unfold store_selec. destruct (bool_decide _); split; cbn; try assumption; intros r' v Q'.
  - destruct (decide (ri_ptr r = ri_ptr r')) as [E|E]; [|rewrite lookup_insert_ne by exact E; apply N, Q'].
    rewrite E, lookup_insert_eq. intros [= <-]. left. rewrite <- (by_address r r' Q Q' E). exact F.
  - destruct (decide (ri_ptr r = ri_ptr r')) as [E|E]; [|rewrite lookup_insert_ne by exact E; apply O, Q'].
    rewrite E, lookup_insert_eq. intros [= <-]. rewrite <- (by_address r r' Q Q' E). exact F.
Qed.

Abbreviation cached cache r := (if bool_decide (jointype = JOIN_INNER) then norm_selec cache r else outer_selec cache r).

Lemma fraction_not_negative s : fraction s -> (s >=? i2d 0) = true.
Proof.
  intros F. apply cle_dle; [reflexivity|apply F|apply fraction_isnan, F|]. unfold cle. change (cmag (i2d 0)) with 0. apply cmag_range.
Qed.

(** A cached value that is not negative is a selectivity of the clause. *)
Lemma cached_fits cache r : cache_ok cache -> query r -> (norm_selec cache r >? i2d 1) = false -> (cached cache r >=? i2d 0) = true ->
  rinfo_fits r (cached cache r)
  /\ exists v, (if bool_decide (jointype = JOIN_INNER) then norm_selecs cache else outer_selecs cache) !! ri_ptr r = Some v /\ v = cached cache r.
Proof.
  intros [N O] Q R P. unfold norm_selec, outer_selec in *. destruct (bool_decide _).
  - destruct (norm_selecs cache !! ri_ptr r) as [v|] eqn:E; [|discriminate P]. cbn [from_option id] in *.
    destruct (N r v Q E) as [F|[G _]]; [eauto|]. congruence.
  - destruct (outer_selecs cache !! ri_ptr r) as [v|] eqn:E; [|discriminate P]. cbn [from_option id] in *. eauto.
Qed.

(** A stored value is found again. *)
Lemma cached_later cache later r s : extends (store_selec jointype cache r s) later -> cached later r = s.
Proof.
  intros [N O _]. unfold store_selec, norm_selec, outer_selec in *. destruct (bool_decide _); cbn in *.
  - rewrite (lookup_weaken _ _ _ _ (lookup_insert_eq _ _ _) N). reflexivity.
  - rewrite (lookup_weaken _ _ _ _ (lookup_insert_eq _ _ _) O). reflexivity.
Qed.

(** A clause without a cached value may get one. *)
Lemma extends_store cache cache' r s : cache_ok cache -> extends cache cache' -> query r -> fraction s ->
  (norm_selec cache r >? i2d 1) = false -> (cached cache r >=? i2d 0) = false -> extends cache (store_selec jointype cache' r s).
Proof.
  intros [N O] [Xn Xo Xw] Q F R E. unfold store_selec, norm_selec, outer_selec in *. destruct (bool_decide _); split; cbn; try assumption.
  - destruct (norm_selecs cache !! ri_ptr r) as [v|] eqn:Ev; [|apply insert_subseteq_r; [exact Ev|exact Xn]].
    destruct (N r v Q Ev) as [Fv|[G _]]; cbn in *; [rewrite fraction_not_negative in E by apply Fv|]; congruence.
  - intros p v. destruct (decide (p = ri_ptr r)) as [->|Np]; [rewrite lookup_insert_eq; intros [= <-]; auto|].
    rewrite lookup_insert_ne by congruence. auto.
  - destruct (outer_selecs cache !! ri_ptr r) as [v|] eqn:Ev; [|apply insert_subseteq_r; [exact Ev|exact Xo]].
    cbn in *. rewrite fraction_not_negative in E by apply (O r v Q Ev). discriminate.
Qed.

(** ** One clause *)

Lemma subset_singleton_ok r : exists b, (if (varRelid =? 0)%Z then Ok true else bms_is_subset_singleton (clause_relids r) varRelid) = Ok b.
Proof.
  destruct (varRelid =? 0)%Z; [eauto|]. unfold bms_is_subset_singleton. destruct (bms_membership _); eauto. apply bms_is_member_ok, Hv.
Qed.

(** The expression of a RestrictInfo, whose selectivity is that of the clause. *)
Lemma found_rinfo r s : clause_ok (RestrictInfoNode r) ->
  match orclause r with Some o => found_fits (Some r) o s | None => found_fits (Some r) (clause r) s end -> rinfo_fits r s.
Proof.
  intros (_ & _ & Oc & _). destruct (orclause r) as [o|] eqn:Eo; intros [F N]; split; try exact F; intros S P; [|apply N, S].
  destruct Oc as [args Ec]; [discriminate|]. intros opno f l r' E. congruence.
Qed.

Definition examined (clause : Node) : Prop := forall rinfo, settles (found_fits rinfo clause) (examine_clause varRelid jointype sjinfo rinfo clause).

Abbreviation sel_of := (clause_sel varRelid jointype (examine_clause varRelid jointype sjinfo)).

Lemma rinfo_settles r : query_clause (RestrictInfoNode r) -> Forall examined (children (RestrictInfoNode r)) ->
  settles (rinfo_fits r) (sel_of (RestrictInfoNode r)).
Proof.
  intros Qc Fe. inversion Qc as [? Ck _]; subst. pose proof Ck as (Qr & _ & _ & _).
  assert (settles (rinfo_fits r) (fun cache => match orclause r with
            | Some o => examine_clause varRelid jointype sjinfo (Some r) o cache
            | None => examine_clause varRelid jointype sjinfo (Some r) (clause r) cache
            end)) as Inner.
  { pose proof (found_rinfo r) as Fr. destruct r as [p c pd ps cr orr nr lr rr [o|] pe ec lb rb jc]; cbn [children orclause clause] in *;
      rewrite ?Forall_cons in Fe; (eapply settles_weaken; [apply Fe|]); intros s Hs; apply Fr; assumption. }
  destruct (subset_singleton_ok r) as [cacheable Ec].
  assert (forall cache, sel_of (RestrictInfoNode r) cache =
    if pseudoconstant r && match clause r with Const _ _ => false | _ => true end then Ok (i2d 1, cache)
    else if norm_selec cache r >? i2d 1 then Ok (i2d 1, cache)
    else if cacheable && (cached cache r >=? i2d 0) then Ok (cached cache r, cache)
    else let! (s1, cache) := match orclause r with
                             | Some o => examine_clause varRelid jointype sjinfo (Some r) o cache
                             | None => examine_clause varRelid jointype sjinfo (Some r) (clause r) cache
                             end in
         Ok (s1, if cacheable then store_selec jointype cache r s1 else cache)) as Eq.
  { intros cache. destruct r as [p c pd ps cr orr nr lr rr oc pe ec lb rb jc]. cbn [clause_sel pseudoconstant clause orclause clause_relids] in *. rewrite Ec. reflexivity. }
  eapply settles_ext; [intros cache; symmetry; apply Eq|]. clear Eq.
  destruct (pseudoconstant r && _) eqn:Ep.
  { apply settles_ret. apply andb_true_iff in Ep as [Ep _]. split; [apply fraction_one|congruence]. }
  intros cache C. destruct (norm_selec cache r >? i2d 1) eqn:Er.
  { exists (i2d 1), cache. split_and!; [reflexivity| |exact C|reflexivity|].
    - split; [apply fraction_one|]. intros _ _ opno f l r' E Ro. exfalso. unfold norm_selec in Er.
      destruct (norm_selecs cache !! ri_ptr r) as [v|] eqn:Ev; [|discriminate Er]. cbn in Er.
      destruct (co_norm _ C r v Qr Ev) as [[[Hv' Lv] _]|[_ Nr]]; [|exact (Nr _ _ _ E Ro)].
      rewrite cle_not_lt in Er by (assumption || reflexivity). discriminate.
    - intros later _ X. rewrite (extends_redundant _ _ _ X), Er. reflexivity. }
  destruct (cacheable && (cached cache r >=? i2d 0)) eqn:Ek.
  { apply andb_true_iff in Ek as [-> Ek]. destruct (cached_fits cache r C Qr Er Ek) as (F & v & Ev & Evc).
    exists (cached cache r), cache. split_and!; [reflexivity|exact F|exact C|reflexivity|]. intros later _ X.
    rewrite (extends_redundant _ _ _ X), Er. assert (cached later r = cached cache r) as E.
    { unfold norm_selec, outer_selec in *. destruct X as [N O _], (bool_decide _).
      - rewrite Ev, (lookup_weaken _ _ _ _ Ev N). reflexivity.
      - rewrite Ev, (lookup_weaken _ _ _ _ Ev O). reflexivity. }
    rewrite E, Ek. reflexivity. }
  destruct (Inner cache C) as (s & c1 & -> & F & C1 & X1 & L1). cbn [rbind]. destruct cacheable.
  - cbn in Ek. exists s, (store_selec jointype c1 r s). split_and!; [reflexivity|exact F|apply cache_ok_store; assumption|apply extends_store; try assumption; apply F|].
    intros later _ X. rewrite (extends_redundant cache later) by (etransitivity; [apply extends_store; try eassumption; apply F|exact X]).
    rewrite Er, (cached_later _ _ _ _ X). rewrite fraction_not_negative by apply F. reflexivity.
  - exists s, c1. split_and!; [reflexivity|exact F|exact C1|exact X1|]. intros later Cl X.
    rewrite (extends_redundant cache later) by (etransitivity; eassumption). rewrite Er. cbn [andb]. rewrite L1 by assumption. reflexivity.
Qed.

Definition clause_settles (n : Node) : Prop := query_clause n -> examined n /\ settles (node_fits n) (sel_of n).

Lemma plain_fits rinfo clause s : match clause with OpExpr _ _ _ => False | _ => True end -> fraction s -> found_fits rinfo clause s.
Proof. intros N F. split; [exact F|]. intros _ opno f l r ->. destruct N. Qed.

Lemma const_fraction a b : fraction (const_selectivity a b).
Proof. destruct a, b; (apply fraction_zero || apply fraction_one). Qed.

Lemma children_settle l : Forall clause_settles l -> Forall query_clause l ->
  Forall (fun n => query_clause n /\ settles (node_fits n) (sel_of n)) l.
Proof. intros S Q. induction S as [|n l Sn _ IH]; constructor; apply Forall_cons in Q as [Qn Q]; [split; [exact Qn|apply Sn, Qn]|apply IH, Q]. Qed.

Lemma node_fits_fraction n s : node_fits n s -> fraction s.
Proof. destruct n; intros [F _]; exact F. Qed.

(** An expression, once its parts are known to settle. *)
Lemma examine_settles n : query_clause n -> Forall (fun c => query_clause c /\ settles (node_fits c) (sel_of c)) (children n) -> examined n.
Proof.
  intros Qn Sc rinfo. inversion Qn as [? Ck _]; subst.
  assert (forall s, match n with OpExpr _ _ _ => False | _ => True end -> fraction s -> settles (found_fits rinfo n) (fun cache => Ok (s, cache))) as Ret
    by (intros s N F; apply settles_ret, plain_fits; assumption).
  assert (forall run, match n with OpExpr _ _ _ => False | _ => True end -> settles fraction run -> settles (found_fits rinfo n) run) as Run
    by (intros run N S; eapply settles_weaken; [exact S|intros s; apply plain_fits, N]).
  destruct n as [v a|a b| |? args|opno f args|opno f args|? ? args|? ? a b ?|args|args|? a ?|? a ?
    |? l r|args| |l r|a| |cv| |? ? a args|a args|a|op args|t a|t a|a|args| |r]; cbn [children] in Sc; cbn [examine_clause];
    try (apply Ret; [exact I|auto using boolvarsel_fraction, const_fraction, scalararraysel_fraction, rowcomparesel_fraction, nulltestsel_fraction, booltestsel_fraction; fail]).
  - apply Ret; [exact I|]. destruct (_ || _); [apply boolvarsel_fraction|apply half_fraction].
  - apply Ret; [exact I|]. destruct (estimate_expression_value Param); try apply half_fraction. apply const_fraction.
  - destruct (operator_ok rinfo opno (OpExpr opno f args)) as (s & -> & F & N). cbn [rbind]. apply settles_ret. split; [exact F|]. exact (N f args eq_refl).
  - destruct (operator_ok rinfo opno (DistinctExpr opno f args)) as (s & -> & F & _). cbn [rbind]. apply Ret; [exact I|apply fraction_not, F].
  - apply Forall_cons in Sc as [[_ Sa] _]. apply Run; [exact I|]. eapply settles_weaken; [exact Sa|intros s; apply node_fits_fraction].
  - destruct Ck as [Hc [rel Er]]. unfold sel_base_rel. rewrite (proj2 (Z.ltb_lt _ _) Hc), Er. cbn [rbind]. apply Ret; [exact I|].
    destruct (tuples_whole cv rel Er) as (Ht & Ft & T). destruct (tuples rel >? i2d 0) eqn:G; [|apply half_fraction].
    apply dlt_iff in G as [G _]; [|reflexivity|exact Ht]. change (cmag (i2d 0)) with 0 in G. destruct T as [T|T]; [lia|].
    split; [auto with nneg|]. apply cle_div; [reflexivity|assumption..].
  - apply Run; [exact I|]. destruct op.
    + apply clauselist_settles, Sc.
    + apply or_settles; [|apply fraction_zero]. eapply Forall_impl; [exact Sc|intros ? [_ S]; exact S].
    + destruct args as [|a args]; [done|]. apply Forall_cons in Sc as [[_ Sa] _]. eapply settles_bind; [exact Sa|].
      intros s N. apply settles_ret, fraction_not, (node_fits_fraction a), N.
  - apply Forall_cons in Sc as [[_ Sa] _]. apply Run; [exact I|]. eapply settles_weaken; [exact Sa|intros s; apply node_fits_fraction].
Qed.

Lemma clause_settles_all n : clause_settles n.
Proof.
  induction n as [n IH] using Node_children_ind. intros Qn. inversion Qn as [? Ck Qs]; subst.
  pose proof (examine_settles n Qn (children_settle _ IH Qs)) as E. split; [exact E|].
  destruct n; try exact (E None). apply rinfo_settles; [exact Qn|].
  clear - IH Qs. induction IH as [|c l Hc _ IHl]; constructor; apply Forall_cons in Qs as [Qc Qs]; [apply Hc, Qc|apply IHl, Qs].
Qed.
End spec.

(** C33: The selectivity of a conjunction is always found and is a fraction between zero
    and one, whatever the clauses: operators, NOT, OR, nested AND, pairs of range bounds,
    cached and redundant clauses, in exact floating point; no clause at all selects
    everything. The procedures of selfuncs.c and the extended statistics are taken to
    return fractions and to keep the laws of [SelectivityLaws]; a range operator with the
    default estimate may be combined with any fraction of nulls. *)
Theorem clauselist_selectivity_fraction `{SelectivitySupport, !SelectivityLaws} varRelid jointype sjinfo query clauses cache :
  0 <= varRelid -> (forall r r', query r -> query r' -> ri_ptr r = ri_ptr r' -> r = r') ->
  statistics_settle varRelid jointype sjinfo query ->
  Forall (query_clause query) clauses -> cache_ok varRelid jointype sjinfo query cache ->
  exists s cache', clauselist_selectivity varRelid jointype sjinfo clauses cache = Ok (s, cache')
    /\ nonneg s = true /\ s ⊑ i2d 1 /\ cache_ok varRelid jointype sjinfo query cache' /\ (clauses = [] -> s = i2d 1).
Proof.
  intros Hv Ba St Q C.
  destruct (clauselist_settles varRelid jointype sjinfo query St (clause_sel varRelid jointype (examine_clause varRelid jointype sjinfo)) clauses) with (cache := cache)
    as (s & cache' & E & F & C' & _); [|exact C|].
  - apply children_settle; [|exact Q]. apply Forall_forall. intros n _. apply clause_settles_all; assumption.
  - exists s, cache'. split_and!; [exact E|apply F|apply F|exact C'|]. intros ->. unfold clauselist_selectivity, clauselist_sel in E. cbn [find_single_rel_for_clauses single_relid rbind Z.eqb clauselist_loop foldl] in E. congruence.
Qed.

(** C34: The caches in the RestrictInfos are transparent: a clause evaluated again, with any
    cache that later evaluations have filled further, gives the same selectivity to the
    bit, and leaves the cache as it is; a clause marked as redundant stays so. The
    assumptions on the estimation procedures are those of the theorem above. *)
Theorem clause_selectivity_cached `{SelectivitySupport, !SelectivityLaws} varRelid jointype sjinfo query node cache :
  0 <= varRelid -> (forall r r', query r -> query r' -> ri_ptr r = ri_ptr r' -> r = r') ->
  statistics_settle varRelid jointype sjinfo query ->
  query_clause query node -> cache_ok varRelid jointype sjinfo query cache ->
  exists s cache', clause_selectivity varRelid jointype sjinfo (Some node) cache = Ok (s, cache') /\ fraction s /\ extends cache cache'
    /\ forall later, cache_ok varRelid jointype sjinfo query later -> extends cache' later ->
         clause_selectivity varRelid jointype sjinfo (Some node) later = Ok (s, later)
         /\ forall r, (norm_selec later r >? i2d 1) = (norm_selec cache r >? i2d 1).
Proof.
  intros Hv Ba St Q C. destruct (clause_settles_all varRelid jointype sjinfo Hv query Ba St node Q) as [_ S].
  destruct (S cache C) as (s & cache' & E & F & _ & X & L). exists s, cache'.
  split_and!; [exact E|exact (node_fits_fraction varRelid jointype sjinfo node s F)|exact X|].
  intros later Cl Xl. split; [apply L; assumption|]. intros r. apply extends_redundant. etransitivity; eassumption.
Qed.

(** restriction_selectivity rejects an estimate below zero or above one, but not NaN,
    which fails neither comparison. *)
Lemma restriction_selectivity_range `{SelectivitySupport} opno clause v : get_oprrest opno <> 0%Z ->
  let res := call_oprrest (get_oprrest opno) clause v in
  restriction_selectivity opno clause v = (if isnan res || ((0 <=? sval res) && (sval res <=? 2 ^ 1074))%Z then Ok res else Error "invalid restriction selectivity").
Proof.
  intros N res. unfold restriction_selectivity. rewrite (proj2 (Z.eqb_neq _ _) N). fold res. destruct (isnan res) eqn:En.
  - rewrite dlt_nan_l, dlt_nan_r by exact En. reflexivity.
  - rewrite !dlt_sval by (assumption || reflexivity). rewrite (sval_nonneg (i2d 0)), (sval_nonneg (i2d 1)) by reflexivity. rewrite cmag_one. change (cmag (i2d 0)) with 0%Z. cbn [orb].
    destruct (Z.ltb_spec (sval res) 0), (Z.ltb_spec (2 ^ 1074) (sval res)), (Z.leb_spec 0 (sval res)), (Z.leb_spec (sval res) (2 ^ 1074)); try lia; reflexivity.
Qed.

(** ** Witnesses *)

(** Six tenths of the rows pass any inequality, a tenth are null. *)
#[local] Instance sample_selectivities : SelectivitySupport := {|
  get_oprrest := fun opno => if (opno =? 97)%Z then F_SCALARLTSEL else if (opno =? 521)%Z then F_SCALARGTSEL else 101;
  get_oprjoin := fun _ => 105;
  call_oprrest := fun _ _ _ => dlit 6 10;
  call_oprjoin := fun _ _ _ _ => dlit 1 10;
  boolvarsel := fun _ _ => dlit 1 2;
  scalararraysel := fun _ _ _ _ _ => dlit 1 2;
  rowcomparesel := fun _ _ _ _ => dlit 1 3;
  nulltestsel := fun _ _ _ _ _ => dlit 1 10;
  booltestsel := fun _ _ _ _ _ => dlit 1 2;
  estimate_expression_value := fun n => n;
  contain_var_clause := fun n => match n with Const _ _ => false | _ => true end;
  contain_volatile_functions := fun _ => false;
  pull_varnos := fun _ => Some [2];
  equal := fun a b => match a, b with Var v x, Var v' x' => ((v =? v') && (x =? x'))%Z | _, _ => false end;
  sel_simple_rels := fun rti => if (rti =? 1)%Z then Some sample_rel else None;
  has_statlist := fun _ => false;
  dependencies_clauselist_selectivity := fun _ _ _ _ _ cache => (i2d 1, None, cache) |}.

#[local] Instance sample_selectivity_laws : SelectivityLaws.
Proof.
  assert (forall n d, nonneg (dlit n d) = true -> (cmag (dlit n d) <=? cmag (i2d 1))%Z = true -> fraction (dlit n d)) as Lit
    by (intros n d Hn L; split; [exact Hn|apply cle_eval, L]).
  split; intros; try (apply Lit; reflexivity); try reflexivity.
  - split; intros _; right; apply Z.leb_le; vm_compute; reflexivity.
  - right. apply Z.leb_le. vm_compute. reflexivity.
  - cbn in *. destruct (rti =? 1)%Z; [|discriminate]. simplify_eq. split_and!; [reflexivity|apply finite_i2d; lia|right; apply cle_eval; reflexivity].
Qed.

Definition range_clause (ptr opno : Z) : RestrictInfo :=
  mkRestrictInfo ptr (OpExpr opno 0 [Var 1 1; Const false true]) true false (Some [2]) None None (Some [2]) None None None
    (mkQualCost (i2d (-1)) (i2d 0)) (i2d (-1)) (i2d (-1)) no_join.

(** [x > 10 AND x < 20 AND (x = 5 OR NOT b)] *)
Definition range_clauses : list Node :=
  [RestrictInfoNode (range_clause 1 521); RestrictInfoNode (range_clause 2 97);
   BoolExpr OR_EXPR [OpExpr 96 0 [Var 1 1; Const false true]; BoolExpr NOT_EXPR [Var 1 2]]].

Definition range_query (r : RestrictInfo) : Prop := r = range_clause 1 521 \/ r = range_clause 2 97.
Definition fresh_cache : SelCache := mkSelCache ∅ ∅.

Lemma range_by_address r r' : range_query r -> range_query r' -> ri_ptr r = ri_ptr r' -> r = r'.
Proof. intros [-> | ->] [-> | ->] E; try reflexivity; discriminate E. Qed.

Lemma range_statistics : statistics_settle 0 JOIN_INNER None range_query.
Proof. intros clauses rel. apply settles_ret, fraction_one. Qed.

Lemma fresh_cache_ok : cache_ok 0 JOIN_INNER None range_query fresh_cache.
Proof. split; intros r v _ E; cbn in E; rewrite lookup_empty in E; discriminate. Qed.

Lemma range_clauses_known : Forall (query_clause range_query) range_clauses.
Proof.
  assert (known_rel 1) as K by (split; [lia|exists sample_rel; reflexivity]).
  assert (forall r, range_query r -> query_clause range_query (RestrictInfoNode r)) as R.
  { intros r Q. constructor; [|destruct Q as [-> | ->]; repeat constructor].
    split; [exact Q|split; [|split; [destruct Q as [-> | ->]; done|
      destruct Q as [-> | ->]; intros opno f left right [= <- <- <- <-]; (split; [discriminate|reflexivity])]]].
    intros rti E. destruct Q as [-> | ->]; vm_compute in E; injection E as <-; exact K. }
  constructor; [apply R; left; reflexivity|]. constructor; [apply R; right; reflexivity|]. constructor; [|constructor].
  constructor; [exact I|]. repeat (constructor || discriminate).
Qed.

(** The bounds select [0.6 + 0.6 - 1 + 0.1], the disjunction [0.6 + 0.5 - 0.6 * 0.5]. *)
Lemma clauselist_selectivity_fraction_witness : exists s cache',
  clauselist_selectivity 0 JOIN_INNER None range_clauses fresh_cache = Ok (s, cache')
  /\ nonneg s = true /\ s ⊑ i2d 1 /\ (dlit 239 1000 <? s) = true /\ (s <? dlit 241 1000) = true.
Proof.
  destruct (clauselist_selectivity_fraction 0 JOIN_INNER None range_query range_clauses fresh_cache ltac:(lia)
    range_by_address range_statistics range_clauses_known fresh_cache_ok) as (s & cache' & E & Hs & Ls & _).
  exists s, cache'. split_and!; [exact E|exact Hs|exact Ls| |]; vm_compute in E; injection E as <- _; vm_compute; reflexivity.
Defined.

Lemma clause_selectivity_cached_witness : exists cache',
  clause_selectivity 0 JOIN_INNER None (Some (RestrictInfoNode (range_clause 1 521))) fresh_cache = Ok (dlit 6 10, cache')
  /\ clause_selectivity 0 JOIN_INNER None (Some (RestrictInfoNode (range_clause 1 521))) cache' = Ok (dlit 6 10, cache').
Proof.
  pose proof range_clauses_known as K. apply Forall_cons in K as [K _].
  destruct (clause_selectivity_cached 0 JOIN_INNER None range_query _ fresh_cache ltac:(lia) range_by_address range_statistics K fresh_cache_ok)
    as (s & cache' & E & _ & X & L).
  assert (s = dlit 6 10 /\ cache' = mkSelCache {[1%Z := dlit 6 10]} ∅) as [-> ->] by (split; vm_compute in E; injection E as <- <-; reflexivity).
  exists (mkSelCache {[1%Z := dlit 6 10]} ∅). split; [exact E|]. apply L; [|reflexivity].
  split; intros r v Q; cbn; [|rewrite lookup_empty; discriminate].
  intros [Ep <-]%lookup_singleton_Some. left. split; [exact (oprrest_fraction 0 Param 0)|].
  intros _ _ opno f l r' _ _. split; intros _; right; apply Z.leb_le; vm_compute; reflexivity.
Defined.
