(* ===== verification/ParamInfo.v ===== *)
(** Parameterizations of paths (optimizer/util/relnode.c): the join clauses that
    move into a parameterized path, its row count, and the per-relation list that
    keeps one ParamPathInfo per set of required outer relations. *)
From stdpp Require Import relations.
From S2P Require Import Prelude Float64 Double DoubleOrder DoubleDiv Bitmapset BitmapsetSpec PlanTypes Samples PathCompare CostExpr CostBase CostScan CostScanSpec CostNode HashSize CostJoin CostJoinSpec SizeEst SizeEstSpec.
Open Scope double_scope.

(** The members of a RelOptInfo that parameterization reads and extends. *)
Record RelParams := mkRelParams {
  joininfo : list RestrictInfo;
  ppilist : list ParamPathInfo;
}.

(** The clauses derived from equivalence classes (equivclass.c). *)
Class Equivalences := {
  generate_join_implied_equalities : Relids -> Relids -> RelOptInfo -> list RestrictInfo;
  generate_join_implied_equalities_for_ecs : list Z -> Relids -> Relids -> RelOptInfo -> list RestrictInfo;
}.

(** If we already have a PPI for this parameterization, just return it. *)
Definition find_ppi (required_outer : Relids) (ppis : list ParamPathInfo) : option ParamPathInfo :=
  List.find (fun ppi => bms_equal (ppi_req_outer ppi) required_outer) ppis.

Definition add_ppi (params : RelParams) (ppi : ParamPathInfo) : RelParams :=
  mkRelParams (joininfo params) (ppilist params ++ [ppi]).

Section parampathinfo.
Context `{Estimator, Equivalences}.

Definition get_baserel_parampathinfo (baserel : RelOptInfo) (params : RelParams) (required_outer : Relids)
    : option ParamPathInfo * RelParams :=
  if bms_is_empty required_outer then (None, params)
  else
    match find_ppi required_outer (ppilist params) with
    | Some ppi => (Some ppi, params)
    | None =>
        let joinrelids := bms_union (relids baserel) required_outer in
        let pclauses := List.filter (fun rinfo => join_clause_is_movable_into rinfo (relids baserel) joinrelids)
                          (joininfo params) in
        let pclauses := pclauses ++ generate_join_implied_equalities joinrelids required_outer baserel in
        let rows := get_parameterized_baserel_size baserel pclauses in
        let ppi := mkParamPathInfo required_outer rows pclauses in
        (Some ppi, add_ppi params ppi)
    end.

(** The relations whose clauses an input path can accept. *)
Definition path_and_req (path : Path) : Relids :=
  match param_info path with
  | Some _ => bms_union (relids (parent path)) (PATH_REQ_OUTER path)
  | None => None
  end.

Definition movable_into_path (rinfo : RestrictInfo) (path : Path) : bool :=
  join_clause_is_movable_into rinfo (relids (parent path)) (path_and_req path).

(** The clauses derived from equivalence classes that stay at the join, and the
    classes of those that move into the inner path. *)
Fixpoint sort_eclauses (outer_path inner_path : Path) (eclauses pclauses : list RestrictInfo) (dropped_ecs : list Z)
    : list RestrictInfo * list Z :=
  match eclauses with
  | [] => (pclauses, dropped_ecs)
  | rinfo :: eclauses =>
      if movable_into_path rinfo outer_path then sort_eclauses outer_path inner_path eclauses pclauses dropped_ecs
      else if movable_into_path rinfo inner_path
      then sort_eclauses outer_path inner_path eclauses pclauses (dropped_ecs ++ [left_ec rinfo])
      else sort_eclauses outer_path inner_path eclauses (pclauses ++ [rinfo]) dropped_ecs
  end.

(** The clauses to be enforced at the join because of its parameterization. *)
Definition joinrel_pclauses (joinrel : RelOptInfo) (params : RelParams) (outer_path inner_path : Path)
    (required_outer : Relids) : list RestrictInfo :=
  let join_and_req := bms_union (relids joinrel) required_outer in
  let pclauses := List.filter (fun rinfo =>
      join_clause_is_movable_into rinfo (relids joinrel) join_and_req
      && negb (movable_into_path rinfo outer_path) && negb (movable_into_path rinfo inner_path)) (joininfo params) in
  let eclauses := generate_join_implied_equalities join_and_req required_outer joinrel in
  let (pclauses, dropped_ecs) := sort_eclauses outer_path inner_path eclauses pclauses [] in
  match dropped_ecs with
  | [] => pclauses
  | _ =>
      let real_outer_and_req := bms_union (relids (parent outer_path)) required_outer in
      let eclauses := generate_join_implied_equalities_for_ecs dropped_ecs real_outer_and_req required_outer
                        (parent outer_path) in
      pclauses ++ List.filter (fun rinfo => negb (movable_into_path rinfo outer_path)) eclauses
  end.

(** Returns the ParamPathInfo, the restriction clauses with the moved-down ones in
    front, and the relation. *)
Definition get_joinrel_parampathinfo (root : JoinRoot) (joinrel : RelOptInfo) (params : RelParams)
    (outer_path inner_path : Path) (sjinfo : SpecialJoinInfo) (required_outer : Relids)
    (restrict_clauses : list RestrictInfo) : result (option ParamPathInfo * list RestrictInfo * RelParams) :=
  if bms_is_empty required_outer then Ok (None, restrict_clauses, params)
  else
    let pclauses := joinrel_pclauses joinrel params outer_path inner_path required_outer in
    let restrict_clauses := pclauses ++ restrict_clauses in
    match find_ppi required_outer (ppilist params) with
    | Some ppi => Ok (Some ppi, restrict_clauses, params)
    | None =>
        let! rows := get_parameterized_joinrel_size root joinrel outer_path inner_path sjinfo restrict_clauses in
        let ppi := mkParamPathInfo required_outer rows [] in
        Ok (Some ppi, restrict_clauses, add_ppi params ppi)
    end.

Definition get_appendrel_parampathinfo (params : RelParams) (required_outer : Relids)
    : option ParamPathInfo * RelParams :=
  if bms_is_empty required_outer then (None, params)
  else
    match find_ppi required_outer (ppilist params) with
    | Some ppi => (Some ppi, params)
    | None =>
        let ppi := mkParamPathInfo required_outer (i2d 0) [] in
        (Some ppi, add_ppi params ppi)
    end.
End parampathinfo.

(** ** One ParamPathInfo per parameterization *)

Definition ppi_key (ppi : ParamPathInfo) : Z := bms_val (ppi_req_outer ppi).

(** The parameterizations of a relation are well formed, not empty and pairwise
    different as sets. *)
Record params_wf (params : RelParams) : Prop := {
  pw_wf : Forall (fun ppi => bms_wf (ppi_req_outer ppi)) (ppilist params);
  pw_nonempty : Forall (fun ppi => ppi_key ppi <> 0) (ppilist params);
  pw_nodup : NoDup (map ppi_key (ppilist params));
}.

Lemma find_ppi_none req l : Forall (fun ppi => bms_wf (ppi_req_outer ppi)) l -> bms_wf req ->
  find_ppi req l = None -> bms_val req ∉ map ppi_key l.
Proof.
  intros Hl Hr. unfold find_ppi. induction Hl as [|p l Hp _ IH]; cbn [List.find map]; intros E; [inversion 1|].
  rewrite bms_equal_val in E by assumption. destruct (Z.eqb_spec (bms_val (ppi_req_outer p)) (bms_val req)) as [|N]; [done|].
  rewrite not_elem_of_cons. split; [unfold ppi_key; congruence|auto].
Qed.

Lemma find_ppi_some req l p : Forall (fun ppi => bms_wf (ppi_req_outer ppi)) l -> NoDup (map ppi_key l) -> bms_wf req ->
  find_ppi req l = Some p <-> p ∈ l /\ ppi_key p = bms_val req.
Proof.
  intros Hl Hd Hr. unfold find_ppi. induction Hl as [|q l Hq _ IH]; cbn [List.find map] in *.
  { split; [done|]. intros [Hin _]. inversion Hin. }
  apply NoDup_cons in Hd as [Hq' Hd]. rewrite bms_equal_val by assumption.
  destruct (Z.eqb_spec (bms_val (ppi_req_outer q)) (bms_val req)) as [E|N].
  - split; [intros [= <-]; split; [left|exact E]|]. intros [Hin K]. apply elem_of_cons in Hin as [->|Hin]; [reflexivity|].
    exfalso. apply Hq'. apply list_elem_of_fmap. exists p. split; [unfold ppi_key in *; congruence|exact Hin].
  - rewrite (IH Hd), elem_of_cons. split; [tauto|]. intros [[->|Hin] K]; [unfold ppi_key in *; congruence|auto].
Qed.

Lemma add_ppi_wf params req r cl : params_wf params -> bms_wf req -> bms_is_empty req = false ->
  find_ppi req (ppilist params) = None -> params_wf (add_ppi params (mkParamPathInfo req r cl)).
Proof.
  intros [W1 W2 W3] Hr He Hf. pose proof (find_ppi_none req _ W1 Hr Hf) as Hn.
  rewrite bms_is_empty_spec, Z.eqb_neq in He by exact Hr.
  split; cbn [ppilist add_ppi]; rewrite ?map_app, ?Forall_app; cbn [map].
  - split; [exact W1|]. constructor; [exact Hr|constructor].
  - split; [exact W2|]. constructor; [exact He|constructor].
  - apply NoDup_app. split_and!; [exact W3| |apply NoDup_singleton].
    intros x Hx ->%list_elem_of_singleton. apply Hn, Hx.
Qed.

Section spec.
Context `{Estimator, Equivalences}.
Context (root : JoinRoot) (rel : RelOptInfo).

(** A call that asks [rel] for the parameterization [req] and gets [ppi]. *)
Inductive ppi_call : RelParams -> Relids -> option ParamPathInfo -> RelParams -> Prop :=
| base_call params req ppi params' :
    get_baserel_parampathinfo rel params req = (ppi, params') -> ppi_call params req ppi params'
| append_call params req ppi params' :
    get_appendrel_parampathinfo params req = (ppi, params') -> ppi_call params req ppi params'
| join_call params outer inner sj req clauses ppi clauses' params' :
    get_joinrel_parampathinfo root rel params outer inner sj req clauses = Ok (ppi, clauses', params') ->
    ppi_call params req ppi params'.

Definition ppi_step (params params' : RelParams) : Prop :=
  exists req ppi, bms_wf req /\ ppi_call params req ppi params'.

(** What every call does: nothing for an empty set, else look up the
    parameterization and append a new one when there is none. *)
Lemma ppi_call_cases params req ppi params' : ppi_call params req ppi params' ->
  if bms_is_empty req then ppi = None /\ params' = params
  else match find_ppi req (ppilist params) with
       | Some p => ppi = Some p /\ params' = params
       | None => exists r cl, ppi = Some (mkParamPathInfo req r cl) /\ params' = add_ppi params (mkParamPathInfo req r cl)
       end.
Proof.
  destruct 1 as [params req ppi params' E|params req ppi params' E|params o i sj req clauses ppi clauses' params' E];
    unfold get_baserel_parampathinfo, get_appendrel_parampathinfo, get_joinrel_parampathinfo in E;
    destruct (bms_is_empty req); try (injection E as <- <-; auto; fail); try (injection E as <- <- <-; auto; fail);
    destruct (find_ppi req (ppilist params)); try (injection E as <- <-; eauto; fail); try (injection E as <- <- <-; auto; fail).
  apply rbind_ok in E as (n & _ & E). injection E as <- <- <-. eauto.
Qed.

Lemma ppi_call_wf params req ppi params' : params_wf params -> bms_wf req -> ppi_call params req ppi params' ->
  params_wf params' /\ (exists more, ppilist params' = ppilist params ++ more)
  /\ (bms_is_empty req = false -> exists p, ppi = Some p /\ find_ppi req (ppilist params') = Some p).
Proof.
  intros W Hr C. apply ppi_call_cases in C. destruct (bms_is_empty req) eqn:Ee.
  - destruct C as [-> ->]. split_and!; [exact W|exists []; rewrite app_nil_r; reflexivity|discriminate].
  - destruct (find_ppi req (ppilist params)) as [p|] eqn:Ef.
    + destruct C as [-> ->]. split_and!; [exact W|exists []; rewrite app_nil_r; reflexivity|eauto].
    + destruct C as (r & cl & -> & ->). pose proof (add_ppi_wf params req r cl W Hr Ee Ef) as W'.
      split_and!; [exact W'|eexists; reflexivity|]. intros _. eexists. split; [reflexivity|].
      apply find_ppi_some; [apply W'|apply W'|exact Hr|]. split; [|reflexivity].
      cbn [ppilist add_ppi]. apply elem_of_app. right. left.
Qed.

(** A parameterization once in the list stays there. *)
Lemma ppi_steps_keep params params' : rtc ppi_step params params' -> params_wf params ->
  params_wf params' /\ forall p, p ∈ ppilist params -> p ∈ ppilist params'.
Proof.
  induction 1 as [params|params params1 params2 (req & ppi & Hr & C) _ IH]; intros W; [auto|].
  destruct (ppi_call_wf _ _ _ _ W Hr C) as (W1 & [more E] & _). destruct (IH W1) as [W2 K]. split; [exact W2|].
  intros p Hp. apply K. rewrite E. apply elem_of_app. auto.
Qed.

(** C31: Paths of a relation with the same parameterization share one ParamPathInfo and
    so one row count: after a call for the set [req], any sequence of calls for base,
    append or join paths of the relation, in any order, keeps the parameterizations
    pairwise different, and a later call for an equal set of relations returns the very
    ParamPathInfo of the first call and changes nothing. *)
Theorem parameterization_stable params req ppi params1 params2 req' ppi' params3 :
  params_wf params -> bms_wf req -> bms_wf req' -> bms_equal req req' = true ->
  ppi_call params req ppi params1 -> rtc ppi_step params1 params2 -> ppi_call params2 req' ppi' params3 ->
  params_wf params2 /\ ppi' = ppi /\ params3 = params2.
Proof.
  intros W Hr Hr' E C1 S C2. rewrite bms_equal_val, Z.eqb_eq in E by assumption.
  destruct (ppi_call_wf _ _ _ _ W Hr C1) as (W1 & _ & F1). destruct (ppi_steps_keep _ _ S W1) as [W2 K].
  split; [exact W2|]. apply ppi_call_cases in C2.
  assert (bms_is_empty req' = bms_is_empty req) as Ee by (rewrite !bms_is_empty_spec, E by assumption; reflexivity).
  rewrite Ee in C2. destruct (bms_is_empty req) eqn:Er.
  - destruct C2 as [-> ->]. apply ppi_call_cases in C1. rewrite Er in C1. split; [symmetry; apply C1|reflexivity].
  - destruct (F1 eq_refl) as (p & -> & Fp). apply find_ppi_some in Fp as [Hp Kp]; [|apply W1..|exact Hr].
    assert (find_ppi req' (ppilist params2) = Some p) as F2.
    { apply find_ppi_some; [apply W2..|exact Hr'|]. split; [auto|congruence]. }
    rewrite F2 in C2. destruct C2 as [-> ->]. split; reflexivity.
Qed.
End spec.

(** ** Witness *)

#[export] Instance sample_equivalences : Equivalences := {|
  generate_join_implied_equalities := fun _ _ _ => [fk_clause];
  generate_join_implied_equalities_for_ecs := fun _ _ _ _ => [] |}.

Definition no_params : RelParams := mkRelParams [sample_rinfo] [].

Lemma no_params_wf : params_wf no_params.
Proof. split; constructor. Qed.

(** The relation is asked for the parameterization {2}, then for {3}, then again
    for {2}, now written with a trailing zero word. *)
Definition ask (req : Relids) (params : RelParams) : option ParamPathInfo * RelParams :=
  get_baserel_parampathinfo sample_rel params req.

Lemma parameterization_stable_witness :
  let s1 := (ask (Some [4]) no_params).2 in let s2 := (ask (Some [8]) s1).2 in
  params_wf s2 /\ (ask (Some [4; 0]) s2).1 = (ask (Some [4]) no_params).1 /\ (ask (Some [4; 0]) s2).2 = s2.
Proof.
  cbv zeta. assert (forall w, word_ok w -> bms_wf (Some [w])) as Hw by (intros; constructor; [assumption|constructor]).
  apply (parameterization_stable fk_root sample_rel no_params (Some [4]) (ask (Some [4]) no_params).1
    (ask (Some [4]) no_params).2 (ask (Some [8]) (ask (Some [4]) no_params).2).2 (Some [4; 0])
    (ask (Some [4; 0]) (ask (Some [8]) (ask (Some [4]) no_params).2).2).1
    (ask (Some [4; 0]) (ask (Some [8]) (ask (Some [4]) no_params).2).2).2 no_params_wf).
  - apply Hw. unfold word_ok. lia.
  - constructor; [unfold word_ok; lia|]. apply Hw. unfold word_ok. lia.
  - reflexivity.
  - apply base_call. symmetry. apply surjective_pairing.
  - apply rtc_once. exists (Some [8]), (ask (Some [8]) (ask (Some [4]) no_params).2).1. split.
    + apply Hw. unfold word_ok. lia.
    + apply base_call. symmetry. apply surjective_pairing.
  - apply base_call. symmetry. apply surjective_pairing.
Defined.
