(* ===== verification/CreatePath.v ===== *)
(** The path constructors (optimizer/util/pathnode.c): each create_*_path routine
    fills a zeroed node, asks for its parameterization and costs it.  A routine
    that extends the relation's list of parameterizations returns the relation's
    [RelParams] beside the path. *)
From S2P Require Import Prelude Float64 Double DoubleOrder DoubleDiv Bitmapset PlanTypes Samples Pathkeys PathCompare CostExpr CostBase CostScan CostNode HashSize CostJoin SizeEst ParamInfo.
Open Scope double_scope.

(** Answers the constructors take from the rest of the planner: clauses.c
    ([is_parallel_safe], [expression_returns_set_rows]), equalfuncs.c ([equal] on
    target lists), indxpath.c, analyzejoins.c and selfuncs.c. *)
Class PathSupport := {
  is_parallel_safe : list Node -> bool;
  expression_returns_set_rows : Node -> double;
  equal_exprs : list Node -> list Node -> bool;
  expand_indexqual_conditions : IndexOptInfo -> list RestrictInfo -> list RestrictInfo;
  relation_has_unique_index_for : RelOptInfo -> list Node -> list Oid -> bool;
  query_supports_distinctness : Z -> bool;               (* the subquery of a range table index *)
  query_is_distinct_for : Z -> list Z -> list Oid -> bool;
  estimate_num_groups : list Node -> double -> double;
  next_sample_block : RelOptInfo -> bool;                (* the tablesample method has a NextSampleBlock routine *)
}.

(** [makeNode] and the assignments of the header members. *)
Definition make_path (tag : PlanTag) (rel : RelOptInfo) (target : PathTarget) (ppi : option ParamPathInfo)
    (aware safe : bool) (workers : Z) (keys : list PathKey) (x : PathExtra) : Path :=
  {| pathtype := tag; parent := rel; pathtarget := target; param_info := ppi;
     parallel_aware := aware; parallel_safe := safe; parallel_workers := workers;
     rows := dzero; startup_cost := dzero; total_cost := dzero;
     io_cost := dzero; cpu_cost := dzero; power_cost := dzero;
     pathkeys := keys; extra := x |}.

(** The members rows, startup_cost and total_cost alone. *)
Definition set_rows_costs (path : Path) (rows' : double) (startup' total' : Cost) : Path :=
  set_path_costs path rows' startup' total' (io_cost path) (cpu_cost path) (power_cost path).

(** [pathnode->path.startup_cost += s; pathnode->path.total_cost += t]. *)
Definition add_costs (path : Path) (s t : Cost) : Path :=
  set_rows_costs path (rows path) (startup_cost path + s) (total_cost path + t).

(** add tlist eval cost for each output row *)
Definition add_tlist_cost (path : Path) (target : PathTarget) : Path :=
  add_costs path (startup (target_cost target))
    (startup (target_cost target) + per_tuple (target_cost target) * rows path).

Section create.
Context `{Libm, Settings, Catalog, Tablespaces, IndexAM, Estimator, Equivalences, PathSupport}.

(** ** Scans of base relations *)

Definition create_seqscan_path (rel : RelOptInfo) (params : RelParams) (required_outer : Relids)
    (parallel_workers : Z) : result (Path * RelParams) :=
  let (ppi, params) := get_baserel_parampathinfo rel params required_outer in
  let pathnode := make_path T_SeqScan rel (reltarget rel) ppi (parallel_workers >? 0)%Z (consider_parallel rel)
                    parallel_workers [] XPath in
  let! p := cost_seqscan pathnode rel ppi in
  Ok (p, params).

Definition create_samplescan_path (rel : RelOptInfo) (params : RelParams)
    (required_outer : Relids) : result (Path * RelParams) :=
  let (ppi, params) := get_baserel_parampathinfo rel params required_outer in
  let pathnode := make_path T_SampleScan rel (reltarget rel) ppi false (consider_parallel rel) 0 [] XPath in
  let! p := cost_samplescan pathnode rel ppi (next_sample_block rel) in
  Ok (p, params).

Definition create_index_path (root : PlannerInfo) (index : IndexOptInfo) (params : RelParams)
    (indexclauses : list RestrictInfo) (pathkeys : list PathKey) (indexonly : bool) (required_outer : Relids)
    (loop_count : double) (partial_path : bool) : result (Path * RelParams) :=
  let rel := index_rel index in
  let (ppi, params) := get_baserel_parampathinfo rel params required_outer in
  let indexquals := expand_indexqual_conditions index indexclauses in
  let f := mkIndexFields index indexclauses indexquals dzero dzero in
  let pathnode := make_path (if indexonly then T_IndexOnlyScan else T_IndexScan) rel (reltarget rel) ppi false
                    (consider_parallel rel) 0 pathkeys (XIndexPath f) in
  let! p := cost_index pathnode f root loop_count partial_path in
  Ok (p, params).

Definition create_bitmap_heap_path (root : PlannerInfo) (rel : RelOptInfo) (params : RelParams) (bitmapqual : Path)
    (required_outer : Relids) (loop_count : double) (parallel_degree : Z) : result (Path * RelParams) :=
  let (ppi, params) := get_baserel_parampathinfo rel params required_outer in
  let pathnode := make_path T_BitmapHeapScan rel (reltarget rel) ppi (parallel_degree >? 0)%Z (consider_parallel rel)
                    parallel_degree [] (XBitmapHeapPath bitmapqual) in
  let! p := cost_bitmap_heap_scan pathnode root rel ppi bitmapqual loop_count in
  Ok (p, params).

Definition create_bitmap_and_path (rel : RelOptInfo) (bitmapquals : list Path) : result Path :=
  cost_bitmap_and_node
    (make_path T_BitmapAnd rel (reltarget rel) None false (consider_parallel rel) 0 [] (XBitmapAndPath bitmapquals dzero))
    bitmapquals.

Definition create_bitmap_or_path (rel : RelOptInfo) (bitmapquals : list Path) : result Path :=
  cost_bitmap_or_node
    (make_path T_BitmapOr rel (reltarget rel) None false (consider_parallel rel) 0 [] (XBitmapOrPath bitmapquals dzero))
    bitmapquals.

Definition create_tidscan_path (rel : RelOptInfo) (params : RelParams) (tidquals : list Node) (required_outer : Relids)
    : result (Path * RelParams) :=
  let (ppi, params) := get_baserel_parampathinfo rel params required_outer in
  let pathnode := make_path T_TidScan rel (reltarget rel) ppi false (consider_parallel rel) 0 [] (XTidPath tidquals) in
  let! p := cost_tidscan pathnode rel tidquals ppi in
  Ok (p, params).

Definition create_subqueryscan_path (rel : RelOptInfo) (params : RelParams) (subpath : Path) (pathkeys : list PathKey)
    (required_outer : Relids) : result (Path * RelParams) :=
  let (ppi, params) := get_baserel_parampathinfo rel params required_outer in
  let pathnode := make_path T_SubqueryScan rel (reltarget rel) ppi false (consider_parallel rel && parallel_safe subpath)
                    (parallel_workers subpath) pathkeys (XSubqueryScanPath subpath) in
  let! p := cost_subqueryscan pathnode subpath rel ppi in
  Ok (p, params).

(** [functions] is the function list of the range table entry. *)
Definition create_functionscan_path (functions : Node) (rel : RelOptInfo) (params : RelParams) (pathkeys : list PathKey)
    (required_outer : Relids) : result (Path * RelParams) :=
  let (ppi, params) := get_baserel_parampathinfo rel params required_outer in
  let pathnode := make_path T_FunctionScan rel (reltarget rel) ppi false (consider_parallel rel) 0 pathkeys XPath in
  let! p := cost_functionscan pathnode rel ppi functions in
  Ok (p, params).

Definition create_tablefuncscan_path (tablefunc : Node) (rel : RelOptInfo) (params : RelParams) (required_outer : Relids)
    : result (Path * RelParams) :=
  let (ppi, params) := get_baserel_parampathinfo rel params required_outer in
  let pathnode := make_path T_TableFuncScan rel (reltarget rel) ppi false (consider_parallel rel) 0 [] XPath in
  let! p := cost_tablefuncscan pathnode rel ppi tablefunc in
  Ok (p, params).

Definition create_valuesscan_path (rel : RelOptInfo) (params : RelParams) (required_outer : Relids)
    : result (Path * RelParams) :=
  let (ppi, params) := get_baserel_parampathinfo rel params required_outer in
  let pathnode := make_path T_ValuesScan rel (reltarget rel) ppi false (consider_parallel rel) 0 [] XPath in
  let! p := cost_valuesscan pathnode rel ppi in
  Ok (p, params).

Definition create_ctescan_path (rel : RelOptInfo) (params : RelParams) (required_outer : Relids)
    : result (Path * RelParams) :=
  let (ppi, params) := get_baserel_parampathinfo rel params required_outer in
  let pathnode := make_path T_CteScan rel (reltarget rel) ppi false (consider_parallel rel) 0 [] XPath in
  let! p := cost_ctescan pathnode rel ppi in
  Ok (p, params).

Definition create_namedtuplestorescan_path (rel : RelOptInfo) (params : RelParams) (required_outer : Relids)
    : result (Path * RelParams) :=
  let (ppi, params) := get_baserel_parampathinfo rel params required_outer in
  let pathnode := make_path T_NamedTuplestoreScan rel (reltarget rel) ppi false (consider_parallel rel) 0 [] XPath in
  let! p := cost_namedtuplestorescan pathnode rel ppi in
  Ok (p, params).

Definition create_worktablescan_path (rel : RelOptInfo) (params : RelParams) (required_outer : Relids)
    : result (Path * RelParams) :=
  let (ppi, params) := get_baserel_parampathinfo rel params required_outer in
  let pathnode := make_path T_WorkTableScan rel (reltarget rel) ppi false (consider_parallel rel) 0 [] XPath in
  let! p := cost_ctescan pathnode rel ppi in
  Ok (p, params).

(** The foreign data wrapper supplies rows and costs; the energy costs stay zero. *)
Definition create_foreignscan_path (rel : RelOptInfo) (params : RelParams) (target : option PathTarget)
    (rows : double) (startup_cost total_cost : Cost) (pathkeys : list PathKey) (required_outer : Relids)
    (fdw_outerpath : option Path) : Path * RelParams :=
  let (ppi, params) := get_baserel_parampathinfo rel params required_outer in
  (set_rows_costs (make_path T_ForeignScan rel (default (reltarget rel) target) ppi false (consider_parallel rel) 0
                     pathkeys (XForeignPath fdw_outerpath)) rows startup_cost total_cost, params).

(** ** Appends, Result, Material and Gather *)

(** The sums create_append_path forms over the subpaths. *)
Fixpoint append_loop (first : bool) (subpaths : list Path) (path : Path) : Path :=
  match subpaths with
  | [] => path
  | subpath :: subpaths =>
      let startup := if first then startup_cost subpath else startup_cost path in
      let p := set_path_costs path (rows path + rows subpath) startup (total_cost path + total_cost subpath)
                 (io_cost path + io_cost subpath) (cpu_cost path + cpu_cost subpath)
                 (power_cost path + power_cost subpath) in
      append_loop false subpaths
        {| pathtype := pathtype p; parent := parent p; pathtarget := pathtarget p; param_info := param_info p;
           parallel_aware := parallel_aware p; parallel_safe := parallel_safe p && parallel_safe subpath;
           parallel_workers := parallel_workers p; rows := rows p; startup_cost := startup_cost p;
           total_cost := total_cost p; io_cost := io_cost p; cpu_cost := cpu_cost p; power_cost := power_cost p;
           pathkeys := pathkeys p; extra := extra p |}
  end.

Definition create_append_path (rel : RelOptInfo) (params : RelParams) (subpaths : list Path) (required_outer : Relids)
    (parallel_workers : Z) : Path * RelParams :=
  let (ppi, params) := get_appendrel_parampathinfo params required_outer in
  let pathnode := make_path T_Append rel (reltarget rel) ppi false (consider_parallel rel) parallel_workers []
                    (XAppendPath subpaths) in
  (append_loop true subpaths (set_path_costs pathnode (i2d 0) (i2d 0) (i2d 0) (i2d 0) (i2d 0) (i2d 0)), params).

(** The sums of create_merge_append_path: rows, parallel_safe, input_startup_cost
    and input_total_cost; a subpath that is not ordered is sorted first. *)
Fixpoint merge_append_loop (keys : list PathKey) (limit : double) (subpaths : list Path) (rows' : double) (safe : bool)
    (input_startup_cost input_total_cost : Cost) : double * bool * Cost * Cost :=
  match subpaths with
  | [] => (rows', safe, input_startup_cost, input_total_cost)
  | subpath :: subpaths =>
      let input := if pathkeys_contained_in keys (pathkeys subpath) then subpath
                   else cost_sort subpath (total_cost subpath) (tuples (parent subpath)) (width (pathtarget subpath))
                          (i2d 0) work_mem limit in
      merge_append_loop keys limit subpaths (rows' + rows subpath) (safe && parallel_safe subpath)
        (input_startup_cost + startup_cost input) (input_total_cost + total_cost input)
  end.

Definition create_merge_append_path (root : PlannerInfo) (rel : RelOptInfo) (params : RelParams) (subpaths : list Path)
    (pathkeys : list PathKey) (required_outer : Relids) : Path * RelParams :=
  let (ppi, params) := get_appendrel_parampathinfo params required_outer in
  let limit := if bms_equal (relids rel) (all_baserels root) then limit_tuples root else i2d (-1) in
  let '(rows', safe, input_startup_cost, input_total_cost) :=
    merge_append_loop pathkeys limit subpaths (i2d 0) (consider_parallel rel) (i2d 0) (i2d 0) in
  let pathnode := make_path T_MergeAppend rel (reltarget rel) ppi false safe 0 pathkeys (XMergeAppendPath subpaths limit) in
  (cost_merge_append (set_rows_costs pathnode rows' dzero dzero) (Z.of_nat (length subpaths))
     input_startup_cost input_total_cost rows', params).

Definition create_result_path (rel : RelOptInfo) (target : PathTarget) (resconstantqual : list Node) : result Path :=
  let pathnode := make_path T_Result rel target None false (consider_parallel rel) 0 [] (XResultPath resconstantqual) in
  let pathnode := set_path_costs pathnode (i2d 1) (startup (target_cost target))
                    (startup (target_cost target) + cpu_tuple_cost + per_tuple (target_cost target))
                    (i2d 0) (i2d 0) (i2d 0) in
  match resconstantqual with
  | [] => Ok pathnode
  | _ =>
      let! (_, qual_cost) := cost_qual_eval resconstantqual in
      Ok (add_costs pathnode (startup qual_cost + per_tuple qual_cost) (startup qual_cost + per_tuple qual_cost))
  end.

Definition create_material_path (rel : RelOptInfo) (subpath : Path) : Path :=
  cost_material
    (make_path T_Material rel (reltarget rel) (param_info subpath) false (consider_parallel rel && parallel_safe subpath)
       (parallel_workers subpath) (pathkeys subpath) (XMaterialPath subpath))
    (startup_cost subpath) (total_cost subpath) (rows subpath) (width (pathtarget subpath)).

(** [rows] may be set to override the row estimates. *)
Definition create_gather_merge_path (rel : RelOptInfo) (params : RelParams) (subpath : Path) (target : option PathTarget)
    (keys : list PathKey) (required_outer : Relids) (rows' : option double) : Path * RelParams :=
  let (ppi, params) := get_baserel_parampathinfo rel params required_outer in
  let num_workers := parallel_workers subpath in
  let pathnode := make_path T_GatherMerge rel (default (reltarget rel) target) ppi false false 0 keys
                    (XGatherMergePath subpath num_workers) in
  let input := if pathkeys_contained_in keys (pathkeys subpath) then subpath
               else cost_sort subpath (total_cost subpath) (rows subpath) (width (pathtarget subpath)) (i2d 0) work_mem
                      (i2d (-1)) in
  (cost_gather_merge pathnode num_workers rel ppi (i2d 0 + startup_cost input) (i2d 0 + total_cost input) rows', params).

Definition create_gather_path (rel : RelOptInfo) (params : RelParams) (subpath : Path) (target : PathTarget)
    (required_outer : Relids) (rows' : option double) : Path * RelParams :=
  let (ppi, params) := get_baserel_parampathinfo rel params required_outer in
  let single_copy := (parallel_workers subpath =? 0)%Z in
  let num_workers := if single_copy then 1%Z else parallel_workers subpath in
  let keys := if single_copy then pathkeys subpath else [] in
  let pathnode := make_path T_Gather rel target ppi false false 0 keys (XGatherPath subpath single_copy num_workers) in
  (cost_gather pathnode subpath rel ppi rows', params).

(** ** Unique paths of semijoins *)

(** An expression of the semijoin's right-hand side: a Var with its varno and
    varattno, or another expression. *)
Inductive RhsExpr :=
| RVar (varno varattno : Z)
| RExpr (node : Node).

Definition rhs_node (e : RhsExpr) : Node := match e with RVar varno varattno => Var varno varattno | RExpr n => n end.

(** The members of SpecialJoinInfo that describe how to unique-ify. *)
Record SemiInfo := mkSemiInfo {
  semi_can_btree : bool;
  semi_can_hash : bool;
  semi_operators : list Oid;
  semi_rhs_exprs : list RhsExpr;
}.

(** NIL when an expression is not a Var of the relation. *)
Fixpoint translate_sub_tlist (tlist : list RhsExpr) (relid : Z) (res : list Z) : list Z :=
  match tlist with
  | [] => res
  | RVar varno varattno :: tlist =>
      if (varno =? relid)%Z then translate_sub_tlist tlist relid (res ++ [varattno]) else []
  | RExpr _ :: _ => []
  end.

(** Is the input unique already? *)
Definition rel_is_unique (rel : RelOptInfo) (semi : SemiInfo) : bool :=
  match rtekind rel with
  | RTE_RELATION =>
      semi_can_btree semi
      && relation_has_unique_index_for rel (map rhs_node (semi_rhs_exprs semi)) (semi_operators semi)
  | RTE_SUBQUERY =>
      query_supports_distinctness (relid rel)
      && match translate_sub_tlist (semi_rhs_exprs semi) (relid rel) [] with
         | [] => false
         | colnos => query_is_distinct_for (relid rel) colnos (semi_operators semi)
         end
  | _ => false
  end.

Definition copy_costs (path src : Path) (rows' : double) : Path :=
  set_path_costs path rows' (startup_cost src) (total_cost src) (io_cost src) (cpu_cost src) (power_cost src).

Definition unique_node (rel : RelOptInfo) (subpath : Path) (keys : list PathKey) (umethod : UniquePathMethod) : Path :=
  make_path T_Unique rel (reltarget rel) (param_info subpath) false (consider_parallel rel && parallel_safe subpath)
    (parallel_workers subpath) keys (XUniquePath subpath umethod).

(** The sort of the input, with one comparison per column and tuple. *)
Definition unique_sort_path (rel : RelOptInfo) (subpath : Path) (numCols : Z) : Path :=
  let p := cost_sort subpath (total_cost subpath) (rel_rows rel) (width (pathtarget subpath)) (i2d 0) work_mem (i2d (-1)) in
  set_path_costs p (rows p) (startup_cost p) (total_cost p + cpu_operator_cost * rel_rows rel * i2d numCols)
    (io_cost p) (cpu_cost p + cpu_operator_cost * rel_rows rel * i2d numCols)
    (power_cost p + count_power_cost (i2d 0) (cpu_operator_cost * rel_rows rel) (i2d 0) 0).

Definition unique_hash_path (rel : RelOptInfo) (subpath : Path) (numCols : Z) (groups : double) : Path :=
  cost_agg subpath AGG_HASHED None numCols groups (startup_cost subpath) (total_cost subpath) (rel_rows rel).

(** The relation's cache and the semijoin's info are updated; the result is NULL
    when there is no way to unique-ify. *)
Definition create_unique_path (rel : RelOptInfo) (cached : option Path) (subpath : Path) (semi : SemiInfo)
    : option Path * option Path * SemiInfo :=
  match cached with
  | Some p => (Some p, cached, semi)
  | None =>
      if negb (semi_can_btree semi || semi_can_hash semi) then (None, None, semi)
      else if rel_is_unique rel semi then
        let pathnode := copy_costs (unique_node rel subpath (pathkeys subpath) UNIQUE_PATH_NOOP) subpath (rel_rows rel) in
        (Some pathnode, Some pathnode, semi)
      else
        let groups := estimate_num_groups (map rhs_node (semi_rhs_exprs semi)) (rel_rows rel) in
        let numCols := Z.of_nat (length (semi_rhs_exprs semi)) in
        let hashentrysize := (width (pathtarget subpath) + 64)%Z in
        let can_hash := semi_can_hash semi && negb (i2d hashentrysize * groups >? i2d (work_mem * 1024)) in
        let semi := mkSemiInfo (semi_can_btree semi) can_hash (semi_operators semi) (semi_rhs_exprs semi) in
        let sort_path := unique_sort_path rel subpath numCols in
        let agg_path := unique_hash_path rel subpath numCols groups in
        let umethod :=
          if semi_can_btree semi && can_hash
          then Some (if total_cost agg_path <? total_cost sort_path then UNIQUE_PATH_HASH else UNIQUE_PATH_SORT)
          else if semi_can_btree semi then Some UNIQUE_PATH_SORT
          else if can_hash then Some UNIQUE_PATH_HASH
          else None in
        match umethod with
        | None => (None, None, semi)
        | Some umethod =>
            let src := if decide (umethod = UNIQUE_PATH_HASH) then agg_path else sort_path in
            let pathnode := copy_costs (unique_node rel subpath [] umethod) src groups in
            (Some pathnode, Some pathnode, semi)
        end
  end.

(** ** Joins *)

Definition calc_nestloop_required_outer (outer_path inner_path : Path) : Relids :=
  let outer_paramrels := PATH_REQ_OUTER outer_path in
  let inner_paramrels := PATH_REQ_OUTER inner_path in
  match inner_paramrels with
  | None => bms_copy outer_paramrels
  | Some _ =>
      let required_outer := bms_union outer_paramrels inner_paramrels in
      let required_outer := bms_del_members required_outer (relids (parent outer_path)) in
      if bms_is_empty required_outer then None else required_outer
  end.

Definition calc_non_nestloop_required_outer (outer_path inner_path : Path) : Relids :=
  bms_union (PATH_REQ_OUTER outer_path) (PATH_REQ_OUTER inner_path).

(** The restriction clauses a nestloop evaluates itself: those that move into a
    parameterized inner path are dropped. *)
Definition nestloop_clauses (outer_path inner_path : Path) (restrict_clauses : list RestrictInfo) : list RestrictInfo :=
  let inner_req_outer := PATH_REQ_OUTER inner_path in
  if bms_overlap inner_req_outer (relids (parent outer_path)) then
    let inner_and_outer := bms_union (relids (parent inner_path)) inner_req_outer in
    List.filter (fun rinfo => negb (join_clause_is_movable_into rinfo (relids (parent inner_path)) inner_and_outer))
      restrict_clauses
  else restrict_clauses.

Definition join_safe (joinrel : RelOptInfo) (outer_path inner_path : Path) : bool :=
  consider_parallel joinrel && parallel_safe outer_path && parallel_safe inner_path.

Definition create_nestloop_path (root : JoinRoot) (joinrel : RelOptInfo) (params : RelParams) (jointype : JoinType)
    (workspace : JoinCostWorkspace) (extra : JoinPathExtraData) (sjinfo : SpecialJoinInfo)
    (outer_path inner_path : Path) (restrict_clauses : list RestrictInfo) (pathkeys : list PathKey)
    (required_outer : Relids) : result (Path * RelParams) :=
  let restrict_clauses := nestloop_clauses outer_path inner_path restrict_clauses in
  let! (ppi, restrict_clauses, params) :=
    get_joinrel_parampathinfo root joinrel params outer_path inner_path sjinfo required_outer restrict_clauses in
  let pathnode := make_path T_NestLoop joinrel (reltarget joinrel) ppi false (join_safe joinrel outer_path inner_path)
                    (parallel_workers outer_path) pathkeys
                    (XNestPath jointype (jextra_inner_unique extra) outer_path inner_path restrict_clauses) in
  let! p := final_cost_nestloop pathnode jointype outer_path inner_path restrict_clauses workspace extra in
  Ok (p, params).

Definition create_mergejoin_path (root : JoinRoot) (joinrel : RelOptInfo) (params : RelParams) (jointype : JoinType)
    (workspace : JoinCostWorkspace) (extra : JoinPathExtraData) (sjinfo : SpecialJoinInfo)
    (outer_path inner_path : Path) (restrict_clauses : list RestrictInfo) (pathkeys : list PathKey)
    (required_outer : Relids) (mergeclauses : list RestrictInfo) (outersortkeys innersortkeys : list PathKey)
    : result (Path * RelParams) :=
  let! (ppi, restrict_clauses, params) :=
    get_joinrel_parampathinfo root joinrel params outer_path inner_path sjinfo required_outer restrict_clauses in
  let pathnode := make_path T_MergeJoin joinrel (reltarget joinrel) ppi false (join_safe joinrel outer_path inner_path)
                    (parallel_workers outer_path) pathkeys
                    (XMergePath jointype (jextra_inner_unique extra) outer_path inner_path restrict_clauses mergeclauses
                       outersortkeys innersortkeys false false) in
  let! p := final_cost_mergejoin pathnode jointype (jextra_inner_unique extra) outer_path inner_path restrict_clauses
              mergeclauses outersortkeys innersortkeys workspace extra in
  Ok (p, params).

Definition create_hashjoin_path (root : JoinRoot) (joinrel : RelOptInfo) (params : RelParams) (jointype : JoinType)
    (workspace : JoinCostWorkspace) (extra : JoinPathExtraData) (sjinfo : SpecialJoinInfo)
    (outer_path inner_path : Path) (restrict_clauses : list RestrictInfo) (required_outer : Relids)
    (hashclauses : list RestrictInfo) : result (Path * RelParams) :=
  let! (ppi, restrict_clauses, params) :=
    get_joinrel_parampathinfo root joinrel params outer_path inner_path sjinfo required_outer restrict_clauses in
  let pathnode := make_path T_HashJoin joinrel (reltarget joinrel) ppi false (join_safe joinrel outer_path inner_path)
                    (parallel_workers outer_path) []
                    (XHashPath jointype (jextra_inner_unique extra) outer_path inner_path restrict_clauses hashclauses 0) in
  let! p := final_cost_hashjoin pathnode jointype (jextra_inner_unique extra) outer_path inner_path restrict_clauses
              hashclauses workspace extra in
  Ok (p, params).

(** ** Projections *)

(** is_projection_capable_path (optimizer/plan/createplan.c); a dummy path is an
    AppendPath without subpaths. *)
Definition is_projection_capable_path (path : Path) : bool :=
  match pathtype path with
  | T_Hash | T_Material | T_Sort | T_Unique | T_SetOp | T_LockRows | T_Limit | T_ModifyTable | T_MergeAppend
  | T_RecursiveUnion => false
  | T_Append => match PlanTypes.extra path with XAppendPath [] => true | _ => false end
  | T_ProjectSet => false
  | _ => true
  end.

Definition create_projection_path (rel : RelOptInfo) (subpath : Path) (target : PathTarget) : Path :=
  let oldtarget := pathtarget subpath in
  let dummypp := is_projection_capable_path subpath || equal_exprs (exprs oldtarget) (exprs target) in
  let pathnode := make_path T_Result rel target None false
                    (consider_parallel rel && parallel_safe subpath && is_parallel_safe (exprs target))
                    (parallel_workers subpath) (pathkeys subpath) (XProjectionPath subpath dummypp) in
  let cost := target_cost target in
  let oldcost := target_cost oldtarget in
  if dummypp then
    set_rows_costs pathnode (rows subpath) (startup_cost subpath + (startup cost - startup oldcost))
      (total_cost subpath + (startup cost - startup oldcost) + (per_tuple cost - per_tuple oldcost) * rows subpath)
  else
    set_rows_costs pathnode (rows subpath) (startup_cost subpath + startup cost)
      (total_cost subpath + startup cost + (cpu_tuple_cost + per_tuple cost) * rows subpath).

(** The assignments of apply_projection_to_path to a path it keeps. *)
Definition retarget (path : Path) (target : PathTarget) (safe : bool) (x : PathExtra) : Path :=
  let oldcost := target_cost (pathtarget path) in
  let cost := target_cost target in
  {| pathtype := pathtype path; parent := parent path; pathtarget := target; param_info := param_info path;
     parallel_aware := parallel_aware path; parallel_safe := safe; parallel_workers := parallel_workers path;
     rows := rows path;
     startup_cost := startup_cost path + (startup cost - startup oldcost);
     total_cost := total_cost path + ((startup cost - startup oldcost)
                                      + (per_tuple cost - per_tuple oldcost) * rows path);
     io_cost := io_cost path; cpu_cost := cpu_cost path; power_cost := power_cost path;
     pathkeys := pathkeys path; extra := x |}.

Definition apply_projection_to_path (rel : RelOptInfo) (path : Path) (target : PathTarget) : Path :=
  if negb (is_projection_capable_path path) then create_projection_path rel path target
  else
    match PlanTypes.extra path with
    | XGatherPath subpath single_copy num_workers =>
        if is_parallel_safe (exprs target) then
          retarget path target (parallel_safe path)
            (XGatherPath (create_projection_path (parent subpath) subpath target) single_copy num_workers)
        else retarget path target false (PlanTypes.extra path)
    | x => retarget path target (parallel_safe path && is_parallel_safe (exprs target)) x
    end.

(** The largest number of rows a set-returning expression of the target yields. *)
Fixpoint tlist_rows_loop (items : list Node) (tlist_rows : double) : double :=
  match items with
  | [] => tlist_rows
  | node :: items =>
      let itemrows := expression_returns_set_rows node in
      tlist_rows_loop items (if tlist_rows <? itemrows then itemrows else tlist_rows)
  end.

Definition create_set_projection_path (rel : RelOptInfo) (subpath : Path) (target : PathTarget) : Path :=
  let pathnode := make_path T_ProjectSet rel target None false
                    (consider_parallel rel && parallel_safe subpath && is_parallel_safe (exprs target))
                    (parallel_workers subpath) (pathkeys subpath) (XProjectSetPath subpath) in
  let tlist_rows := tlist_rows_loop (exprs target) (i2d 1) in
  let cost := target_cost target in
  let rows' := rows subpath * tlist_rows in
  set_rows_costs pathnode rows' (startup_cost subpath + startup cost)
    (total_cost subpath + startup cost + (cpu_tuple_cost + per_tuple cost) * rows subpath
     + (rows' - rows subpath) * cpu_tuple_cost / i2d 2).

(** ** Upper paths *)

(** The header of a node over one subpath above the joins. *)
Definition upper_path (tag : PlanTag) (rel : RelOptInfo) (target : PathTarget) (subpath : Path) (keys : list PathKey)
    (x : PathExtra) : Path :=
  make_path tag rel target None false (consider_parallel rel && parallel_safe subpath) (parallel_workers subpath) keys x.

Definition create_sort_path (rel : RelOptInfo) (subpath : Path) (pathkeys : list PathKey) (limit : double) : Path :=
  cost_sort (upper_path T_Sort rel (pathtarget subpath) subpath pathkeys (XSortPath subpath))
    (total_cost subpath) (rows subpath) (width (pathtarget subpath)) (i2d 0) work_mem limit.

Definition create_group_path (rel : RelOptInfo) (subpath : Path) (target : PathTarget) (numGroupCols : Z)
    (qual : list Node) (numGroups : double) : Path :=
  add_tlist_cost
    (cost_group (upper_path T_Group rel target subpath (pathkeys subpath) (XGroupPath subpath qual))
       numGroupCols numGroups (startup_cost subpath) (total_cost subpath) (rows subpath)) target.

Definition create_upper_unique_path (rel : RelOptInfo) (subpath : Path) (numCols : Z) (numGroups : double) : Path :=
  set_rows_costs (upper_path T_Unique rel (pathtarget subpath) subpath (pathkeys subpath) (XUpperUniquePath subpath numCols))
    numGroups (startup_cost subpath) (total_cost subpath + cpu_operator_cost * rows subpath * i2d numCols).

Definition create_agg_path (rel : RelOptInfo) (subpath : Path) (target : PathTarget) (aggstrategy : AggStrategy)
    (numGroupCols : Z) (qual : list Node) (aggcosts : option AggClauseCosts) (numGroups : double) : Path :=
  let keys := match aggstrategy with AGG_SORTED => pathkeys subpath | _ => [] end in
  add_tlist_cost
    (cost_agg (upper_path T_Agg rel target subpath keys (XAggPath subpath aggstrategy numGroups qual))
       aggstrategy aggcosts numGroupCols numGroups (startup_cost subpath) (total_cost subpath) (rows subpath)) target.

(** A RollupData: whether its groupClause is empty, the columns of its first
    grouping set, its groups, whether it is hashed. *)
Record RollupData := mkRollup {
  ru_no_groupClause : bool;
  ru_numGroupCols : Z;
  ru_numGroups : double;
  is_hashed : bool;
}.

(** Downgrade AGG_SORTED to AGG_PLAIN and AGG_MIXED to AGG_HASHED where possible. *)
Definition downgrade_strategy (aggstrategy : AggStrategy) (rollups : list RollupData) : AggStrategy :=
  match aggstrategy, rollups with
  | AGG_SORTED, [r] => if ru_no_groupClause r then AGG_PLAIN else AGG_SORTED
  | AGG_MIXED, [_] => AGG_HASHED
  | s, _ => s
  end.

(** The rollups after the first: [total_cost] and [rows] of the path grow. *)
Fixpoint rollup_loop (subpath : Path) (agg_costs : option AggClauseCosts) (rollups : list RollupData)
    (is_first_sort : bool) (path : Path) : Path :=
  match rollups with
  | [] => path
  | r :: rollups =>
      let (agg_path, is_first_sort) :=
        if is_hashed r || is_first_sort then
          (cost_agg subpath (if is_hashed r then AGG_HASHED else AGG_SORTED) agg_costs (ru_numGroupCols r)
             (ru_numGroups r) (i2d 0) (i2d 0) (rows subpath),
           if is_hashed r then is_first_sort else false)
        else
          let sort_path := cost_sort subpath (i2d 0) (rows subpath) (width (pathtarget subpath)) (i2d 0) work_mem (i2d (-1)) in
          (cost_agg subpath AGG_SORTED agg_costs (ru_numGroupCols r) (ru_numGroups r) (startup_cost sort_path)
             (total_cost sort_path) (rows sort_path), is_first_sort) in
      rollup_loop subpath agg_costs rollups is_first_sort
        (set_rows_costs path (rows path + rows agg_path) (startup_cost path) (total_cost path + total_cost agg_path))
  end.

(** An empty list of rollups fails an assertion. *)
Definition create_groupingsets_path (root : PlannerInfo) (rel : RelOptInfo) (subpath : Path) (target : PathTarget)
    (aggstrategy : AggStrategy) (rollups : list RollupData) (agg_costs : option AggClauseCosts) : option Path :=
  let aggstrategy := downgrade_strategy aggstrategy rollups in
  let keys := match aggstrategy, rollups with AGG_SORTED, [_] => group_pathkeys root | _, _ => [] end in
  match rollups with
  | [] => None
  | r :: rollups =>
      let pathnode := make_path T_Agg rel target (param_info subpath) false (consider_parallel rel && parallel_safe subpath)
                        (parallel_workers subpath) keys (XGroupingSetsPath subpath aggstrategy) in
      let pathnode := cost_agg pathnode aggstrategy agg_costs (ru_numGroupCols r) (ru_numGroups r) (startup_cost subpath)
                        (total_cost subpath) (rows subpath) in
      Some (add_tlist_cost (rollup_loop subpath agg_costs rollups (is_hashed r) pathnode) target)
  end.

(** [pathcosts] are the costs of the initplans. *)
Definition create_minmaxagg_path (rel : RelOptInfo) (target : PathTarget) (pathcosts : list Cost) : Path :=
  let initplan_cost := fold_left dadd pathcosts (i2d 0) in
  let cost := target_cost target in
  set_rows_costs (make_path T_Result rel target None false false 0 [] XMinMaxAggPath) (i2d 1)
    (initplan_cost + startup cost) (initplan_cost + startup cost + per_tuple cost + cpu_tuple_cost).

Definition create_windowagg_path (rel : RelOptInfo) (subpath : Path) (target : PathTarget)
    (windowFuncs : list WindowFuncNode) (numPartCols numOrderCols : Z) : result Path :=
  let! p := cost_windowagg (upper_path T_WindowAgg rel target subpath (pathkeys subpath) (XWindowAggPath subpath))
              windowFuncs numPartCols numOrderCols (startup_cost subpath) (total_cost subpath) (rows subpath) in
  Ok (add_tlist_cost p target).

Definition create_setop_path (rel : RelOptInfo) (subpath : Path) (sorted : bool) (numDistinctCols : Z)
    (numGroups outputRows : double) : Path :=
  set_rows_costs
    (upper_path T_SetOp rel (pathtarget subpath) subpath (if sorted then pathkeys subpath else []) (XSetOpPath subpath numGroups))
    outputRows (startup_cost subpath) (total_cost subpath + cpu_operator_cost * rows subpath * i2d numDistinctCols).

Definition create_recursiveunion_path (rel : RelOptInfo) (leftpath rightpath : Path) (target : PathTarget)
    (numGroups : double) : Path :=
  cost_recursive_union
    (make_path T_RecursiveUnion rel target None false
       (consider_parallel rel && parallel_safe leftpath && parallel_safe rightpath) (parallel_workers leftpath) []
       (XRecursiveUnionPath leftpath rightpath numGroups)) leftpath rightpath.

Definition create_lockrows_path (rel : RelOptInfo) (subpath : Path) : Path :=
  set_rows_costs (make_path T_LockRows rel (pathtarget subpath) None false false 0 [] (XLockRowsPath subpath))
    (rows subpath) (startup_cost subpath) (total_cost subpath + cpu_tuple_cost * rows subpath).

(** The sums over the subpaths: startup_cost, total_cost, rows, total_size. *)
Fixpoint modifytable_loop (first : bool) (subpaths : list Path) (startup' total' : Cost) (rows' total_size : double)
    : Cost * Cost * double * double :=
  match subpaths with
  | [] => (startup', total', rows', total_size)
  | subpath :: subpaths =>
      modifytable_loop false subpaths (if first then startup_cost subpath else startup') (total' + total_cost subpath)
        (rows' + rows subpath) (total_size + i2d (width (pathtarget subpath)) * rows subpath)
  end.

(** Sets the width of the target it shares with the relation: both are returned
    with it.  None where the conversion of the average width to int is undefined. *)
Definition create_modifytable_path (rel : RelOptInfo) (subpaths : list Path) : option Path :=
  let '(startup', total', rows', total_size) := modifytable_loop true subpaths (i2d 0) (i2d 0) (i2d 0) (i2d 0) in
  let total_size := if rows' >? i2d 0 then total_size / rows' else total_size in
  width' ← d2int (rint total_size);
  let target := mkPathTarget (exprs (reltarget rel)) (target_cost (reltarget rel)) width' in
  let rel := set_rel_sizes rel (rel_rows rel) (tuples rel) target (baserestrictinfo rel) (baserestrictcost rel) in
  Some (set_rows_costs (make_path T_ModifyTable rel target None false false 0 [] (XModifyTablePath subpaths))
          rows' startup' total').

(** The rows an OFFSET or LIMIT estimate stands for, at most [rows']. *)
Definition limit_rows (est : Z) (subpath_rows rows' : double) : double :=
  let n := if (est >? 0)%Z then i2d est else clamp_row_est (subpath_rows * dlit 1 10) in
  if n >? rows' then rows' else n.

Definition at_least_one (rows' : double) : double := if rows' <? i2d 1 then i2d 1 else rows'.

Definition limit_share (subpath : Path) (n : double) : Cost :=
  (total_cost subpath - startup_cost subpath) * n / rows subpath.

Definition create_limit_path (rel : RelOptInfo) (subpath : Path) (limitOffset limitCount : option Node)
    (offset_est count_est : Z) : Path :=
  let pathnode := upper_path T_Limit rel (pathtarget subpath) subpath (pathkeys subpath)
                    (XLimitPath subpath limitOffset limitCount) in
  let '(rows', startup') :=
    if negb (offset_est =? 0)%Z then
      let offset_rows := limit_rows offset_est (rows subpath) (rows subpath) in
      (at_least_one (rows subpath - offset_rows),
       if rows subpath >? i2d 0 then startup_cost subpath + limit_share subpath offset_rows else startup_cost subpath)
    else (rows subpath, startup_cost subpath) in
  let '(rows', total') :=
    if negb (count_est =? 0)%Z then
      let count_rows := limit_rows count_est (rows subpath) rows' in
      (at_least_one count_rows,
       if rows subpath >? i2d 0 then startup' + limit_share subpath count_rows else total_cost subpath)
    else (rows', total_cost subpath) in
  set_rows_costs pathnode rows' startup' total'.

(** ** Reparameterization *)

(** The parameterizations of all relations, by relation index. *)
Definition ParamStore : Type := Z -> RelParams.

Definition set_params (store : ParamStore) (rel : RelOptInfo) (params : RelParams) : ParamStore :=
  fun i => if (i =? relid rel)%Z then params else store i.

(** Run a constructor on the parameterizations of [rel]. *)
Definition with_params (rel : RelOptInfo) (store : ParamStore) (f : RelParams -> result (Path * RelParams))
    : result (option Path * ParamStore) :=
  let! (p, params) := f (store (relid rel)) in
  Ok (Some p, set_params store rel params).

Definition set_param_info (path : Path) (ppi : option ParamPathInfo) : Path :=
  {| pathtype := pathtype path; parent := parent path; pathtarget := pathtarget path; param_info := ppi;
     parallel_aware := parallel_aware path; parallel_safe := parallel_safe path;
     parallel_workers := parallel_workers path; rows := rows path; startup_cost := startup_cost path;
     total_cost := total_cost path; io_cost := io_cost path; cpu_cost := cpu_cost path;
     power_cost := power_cost path; pathkeys := pathkeys path; extra := PlanTypes.extra path |}.

(** [x] is the extra part of [path], on which the recursion goes; NULL when the
    path cannot be reparameterized. *)
Fixpoint reparameterize (x : PathExtra) (root : PlannerInfo) (path : Path) (required_outer : Relids)
    (loop_count : double) (store : ParamStore) {struct x} : result (option Path * ParamStore) :=
  let children := fix children (l : list Path) (store : ParamStore) : result (option (list Path) * ParamStore) :=
    match l with
    | [] => Ok (Some [], store)
    | spath :: l =>
        let! (p, store) := reparameterize (PlanTypes.extra spath) root spath required_outer loop_count store in
        match p with
        | None => Ok (None, store)
        | Some p =>
            let! (ps, store) := children l store in
            Ok (option_map (cons p) ps, store)
        end
    end in
  let rel := parent path in
  if negb (bms_is_subset (PATH_REQ_OUTER path) required_outer) then Ok (None, store)
  else
    match pathtype path, x with
    | T_SeqScan, _ => with_params rel store (fun params => create_seqscan_path rel params required_outer 0)
    | T_SampleScan, _ => with_params rel store (fun params => create_samplescan_path rel params required_outer)
    | T_IndexScan, XIndexPath f | T_IndexOnlyScan, XIndexPath f =>
        with_params rel store (fun params =>
          let (ppi, params) := get_baserel_parampathinfo rel params required_outer in
          let! p := cost_index (set_param_info path ppi) f root loop_count false in
          Ok (p, params))
    | T_BitmapHeapScan, XBitmapHeapPath bitmapqual =>
        with_params rel store (fun params => create_bitmap_heap_path root rel params bitmapqual required_outer loop_count 0)
    | T_SubqueryScan, XSubqueryScanPath subpath =>
        with_params rel store (fun params => create_subqueryscan_path rel params subpath (pathkeys path) required_outer)
    | T_Append, XAppendPath subpaths =>
        let! (ps, store) := children subpaths store in
        match ps with
        | None => Ok (None, store)
        | Some childpaths =>
            with_params rel store (fun params =>
              Ok (create_append_path rel params childpaths required_outer (parallel_workers path)))
        end
    | _, _ => Ok (None, store)
    end.

Definition reparameterize_path (root : PlannerInfo) (path : Path) (required_outer : Relids) (loop_count : double)
    (store : ParamStore) : result (option Path * ParamStore) :=
  reparameterize (PlanTypes.extra path) root path required_outer loop_count store.
End create.
