(* ===== verification/CreatePathSpec.v ===== *)
(** What the path constructors guarantee: costed paths over well-formed inputs,
    the parameterization asked for, and parallel safety inherited from the inputs. *)
From stdpp Require Import relations.
From S2P Require Import Prelude Float64 Double DoubleOrder DoubleDiv DoubleRound Bitmapset BitmapsetSpec PlanTypes Samples Pathkeys PathCompare CostExpr CostBase CostScan CostScanSpec CostNode HashSize CostJoin CostJoinSpec SizeEst SizeEstSpec ParamInfo CreatePath.
Open Scope double_scope.

(** ** Costing fills in the costs and leaves the rest of the header alone *)

Record same_header (p q : Path) : Prop := {
  sh_type : pathtype q = pathtype p;
  sh_parent : parent q = parent p;
  sh_target : pathtarget q = pathtarget p;
  sh_ppi : param_info q = param_info p;
  sh_safe : parallel_safe q = parallel_safe p;
  sh_keys : pathkeys q = pathkeys p;
}.

Lemma set_path_costs_header p r s t i c w : same_header p (set_path_costs p r s t i c w).
Proof. split; reflexivity. Qed.

Create HintDb header.
#[export] Hint Resolve set_path_costs_header : header.

(** Open the binds of a cost function that returned. *)
Ltac costed_by H :=
  repeat match type of H with
  | rbind _ _ = Ok _ => let E := fresh "E" in apply rbind_ok in H as (? & E & H)
  | (let (_, _) := ?x in _) = Ok _ => destruct x
  | match ?x with _ => _ end = Ok _ => destruct x
  end;
  injection H as <-; auto with header.

Section headers.
Context `{Libm, Settings, Catalog, Tablespaces, IndexAM, Estimator}.

Lemma seqscan_header path rel ppi p : cost_seqscan path rel ppi = Ok p -> same_header path p.
Proof. unfold cost_seqscan. intros E. costed_by E. Qed.
Lemma samplescan_header path rel ppi b p : cost_samplescan path rel ppi b = Ok p -> same_header path p.
Proof. unfold cost_samplescan. intros E. costed_by E. Qed.
Lemma functionscan_header path rel ppi n p : cost_functionscan path rel ppi n = Ok p -> same_header path p.
Proof. unfold cost_functionscan. intros E. costed_by E. Qed.
Lemma listscan_header b path rel ppi p : cost_listscan b path rel ppi = Ok p -> same_header path p.
Proof. unfold cost_listscan. intros E. costed_by E. Qed.
Lemma namedtuplestorescan_header path rel ppi p : cost_namedtuplestorescan path rel ppi = Ok p -> same_header path p.
Proof. unfold cost_namedtuplestorescan. intros E. costed_by E. Qed.
Lemma subqueryscan_header path sub rel ppi p : cost_subqueryscan path sub rel ppi = Ok p -> same_header path p.
Proof. unfold cost_subqueryscan. intros E. costed_by E. Qed.
Lemma tidscan_header path rel quals ppi p : cost_tidscan path rel quals ppi = Ok p -> same_header path p.
Proof. unfold cost_tidscan. intros E. costed_by E. Qed.
Lemma bitmap_heap_header path root rel ppi bq n p : cost_bitmap_heap_scan path root rel ppi bq n = Ok p -> same_header path p.
Proof. unfold cost_bitmap_heap_scan. intros E. costed_by E. Qed.
Lemma index_header path f root n b p : cost_index path f root n b = Ok p -> same_header path p.
Proof. unfold cost_index. intros E. costed_by E; split; reflexivity. Qed.
Lemma nestloop_header path jt o i q ws ex p : final_cost_nestloop path jt o i q ws ex = Ok p -> same_header path p.
Proof. unfold final_cost_nestloop. intros E. costed_by E. Qed.
Lemma mergejoin_header path jt u o i q mc ok ik ws ex p :
  final_cost_mergejoin path jt u o i q mc ok ik ws ex = Ok p -> same_header path p.
Proof. unfold final_cost_mergejoin. intros E. costed_by E; split; reflexivity. Qed.
Lemma hashjoin_header path jt u o i q hc ws ex p :
  final_cost_hashjoin path jt u o i q hc ws ex = Ok p -> same_header path p.
Proof. unfold final_cost_hashjoin. intros E. costed_by E; split; reflexivity. Qed.

(** The rows the costing of a join sets; the workers stay. *)
Lemma nestloop_rows path jt o i q ws ex p : final_cost_nestloop path jt o i q ws ex = Ok p ->
  rows p = join_path_rows path /\ parallel_workers p = parallel_workers path.
Proof. unfold final_cost_nestloop. intros E. costed_by E; split; reflexivity. Qed.
Lemma mergejoin_rows path jt u o i q mc ok ik ws ex p :
  final_cost_mergejoin path jt u o i q mc ok ik ws ex = Ok p ->
  rows p = join_path_rows path /\ parallel_workers p = parallel_workers path.
Proof. unfold final_cost_mergejoin. intros E. costed_by E; split; reflexivity. Qed.
Lemma hashjoin_rows path jt u o i q hc ws ex p :
  final_cost_hashjoin path jt u o i q hc ws ex = Ok p ->
  rows p = join_path_rows path /\ parallel_workers p = parallel_workers path.
Proof. unfold final_cost_hashjoin. intros E. costed_by E; split; reflexivity. Qed.
End headers.

(** ** Parameterizations of well-formed relations *)

Class EquivalenceLaws `{Equivalences} := {
  equalities_ok : forall a b rel, clauses_ok (generate_join_implied_equalities a b rel);
  equalities_for_ecs_ok : forall l a b rel, clauses_ok (generate_join_implied_equalities_for_ecs l a b rel);
}.

Lemma clauses_ok_filter f l : clauses_ok l -> clauses_ok (List.filter f l).
Proof.
  unfold clauses_ok, qual_nodes. rewrite !Forall_map. intros [H1 H2].
  split; [clear H2|clear H1; rename H2 into H1]; induction H1 as [|r l Hr _ IH]; cbn [List.filter];
    [constructor|destruct (f r); auto|constructor|destruct (f r); auto].
Qed.

Lemma clauses_ok_cons r l : clauses_ok [r] -> clauses_ok l -> clauses_ok (r :: l).
Proof. apply (clauses_ok_app [r] l). Qed.

(** The parameterizations of [rel]: well formed, none with more rows than [rel]. *)
Record params_ok (rel : RelOptInfo) (params : RelParams) : Prop := {
  pk_wf : params_wf params;
  pk_ppis : Forall (fun ppi => ppi_ok (Some ppi) /\ ppi_rows ppi ⊑ rel_rows rel) (ppilist params);
  pk_join : clauses_ok (joininfo params);
}.

(** The parameterizations of a join relation, whose rows are whole numbers. *)
Record join_params (rel : RelOptInfo) (params : RelParams) : Prop := {
  jk_ok : params_ok rel params;
  jk_counts : Forall (fun ppi => row_count (ppi_rows ppi)) (ppilist params);
}.

Lemma find_ppi_in req l p : find_ppi req l = Some p -> p ∈ l /\ bms_equal (ppi_req_outer p) req = true.
Proof. intros E. apply List.find_some in E as [Hin E]. split; [apply list_elem_of_In, Hin|exact E]. Qed.

(** A parameterization [ppi] of [rel] by the relations [req]. *)
Record ppi_for (rel : RelOptInfo) (req : Relids) (ppi : option ParamPathInfo) : Prop := {
  pf_ok : ppi_ok ppi;
  pf_req : bms_equal (match ppi with Some p => ppi_req_outer p | None => None end) req = true;
  pf_rows : row_estimate rel ppi ⊑ rel_rows rel;
  pf_wf : match ppi with Some p => bms_wf (ppi_req_outer p) | None => True end;
  pf_null : bms_is_empty req = true -> ppi = None;
}.

Lemma ppi_for_none rel req : bms_is_empty req = true -> ppi_for rel req None.
Proof. intros E. split; [exact I|destruct req; [exact E|reflexivity]|reflexivity|exact I|reflexivity]. Qed.

Lemma ppi_for_found rel req params p : params_ok rel params -> bms_is_empty req = false -> find_ppi req (ppilist params) = Some p -> ppi_for rel req (Some p).
Proof.
  intros [[Hw _ _] Hp _] He [Hin E]%find_ppi_in. rewrite Forall_forall in Hp, Hw. destruct (Hp p Hin) as [O L].
  split; [exact O|exact E|exact L|exact (Hw p Hin)|congruence].
Qed.

Lemma bms_equal_refl a : bms_wf a -> bms_equal a a = true.
Proof. intros Ha. rewrite bms_equal_val by assumption. apply Z.eqb_refl. Qed.

(** A new parameterization with well-formed clauses and no more rows than the relation. *)
Lemma ppi_for_new rel req params r cl : params_ok rel params -> bms_wf req -> bms_is_empty req = false ->
  find_ppi req (ppilist params) = None -> nonneg r = true -> clauses_ok cl -> r ⊑ rel_rows rel ->
  ppi_for rel req (Some (mkParamPathInfo req r cl)) /\ params_ok rel (add_ppi params (mkParamPathInfo req r cl)).
Proof.
  intros [W P J] Hr He Hf Hn Hc L. split.
  - split; [split; assumption|apply bms_equal_refl, Hr|exact L|exact Hr|congruence].
  - split; [apply add_ppi_wf; assumption| |exact J]. cbn [ppilist add_ppi]. apply Forall_app.
    split; [exact P|]. constructor; [split; [split; assumption|exact L]|constructor].
Qed.

Section params.
Context `{Estimator, Equivalences}.
Context `{!EstimatorLaws, !EquivalenceLaws}.

Lemma baserel_parampathinfo_ok rel params req :
  params_ok rel params -> bms_wf req -> nonneg (tuples rel) = true -> finite (tuples rel) -> row_count (rel_rows rel) ->
  let (ppi, params') := get_baserel_parampathinfo rel params req in ppi_for rel req ppi /\ params_ok rel params'.
Proof.
  intros Hp Hr Ht Ft Rc. unfold get_baserel_parampathinfo. destruct (bms_is_empty req) eqn:Ee.
  { split; [apply ppi_for_none, Ee|exact Hp]. }
  destruct (find_ppi req (ppilist params)) as [p|] eqn:Ef; [split; [eapply ppi_for_found; eassumption|exact Hp]|].
  match goal with |- context [get_parameterized_baserel_size rel ?cl] =>
    destruct (parameterized_size_ok rel cl Ht Ft Rc) as (C1 & C2 & _) end.
  apply ppi_for_new; try assumption; [apply C1|].
  apply clauses_ok_app; [apply clauses_ok_filter, Hp|apply equalities_ok].
Qed.

Lemma appendrel_parampathinfo_ok rel params req : params_ok rel params -> bms_wf req ->
  let (ppi, params') := get_appendrel_parampathinfo params req in ppi_for rel req ppi /\ params_ok rel params'.
Proof.
  intros Hp Hr. unfold get_appendrel_parampathinfo. destruct (bms_is_empty req) eqn:Ee.
  { split; [apply ppi_for_none, Ee|exact Hp]. }
  destruct (find_ppi req (ppilist params)) as [p|] eqn:Ef; [split; [eapply ppi_for_found; eassumption|exact Hp]|].
  apply ppi_for_new; try assumption; [reflexivity|split; constructor|].
  unfold cle. change (cmag (i2d 0)) with 0%Z. apply cmag_range.
Qed.
End params.

(** ** Scans of base relations *)

(** A relation that can be scanned: sized, with a finite number of tuples. *)
Record scan_rel (rel : RelOptInfo) : Prop := {
  sr_ok : rel_ok rel;
  sr_rows : row_count (rel_rows rel);
  sr_tuples : finite (tuples rel);
  sr_target : qual_cost_ok (target_cost (reltarget rel));
}.

Section built.
Context `{Libm, Settings, Catalog, Tablespaces, IndexAM, Estimator, Equivalences, PathSupport}.

Lemma sized_scan_rel rel attrs : sized rel attrs -> finite (tuples rel) -> scan_rel rel.
Proof. intros [? ? ? ? ?] ?. split; assumption. Qed.

(** A path of [rel] parameterized by [req]. *)
Record built_path (en : bool) (rel : RelOptInfo) (req : Relids) (safe : bool) (p : Path) : Prop := {
  bp_costed : costed p;
  bp_startup : startup_ok en (startup_cost p);
  bp_parent : parent p = rel;
  bp_target : pathtarget p = reltarget rel;
  bp_ppi : ppi_for rel req (param_info p);
  bp_safe : parallel_safe p = safe;
}.

Definition built (en : bool) (rel : RelOptInfo) (req : Relids) (safe : bool) (r : result (Path * RelParams)) : Prop :=
  exists p params', r = Ok (p, params') /\ built_path en rel req safe p /\ params_ok rel params'.

Context `{!CatalogLaws, !TablespaceLaws, !EstimatorLaws, !EquivalenceLaws} (So : settings_ok).

(** The pattern of the constructors: find the parameterization, fill the header, cost. *)
Lemma base_build en rel req safe params (mk : option ParamPathInfo -> Path) 
    (cost : Path -> option ParamPathInfo -> result Path) :
  scan_rel rel -> params_ok rel params -> bms_wf req ->
  (forall ppi, parent (mk ppi) = rel /\ pathtarget (mk ppi) = reltarget rel /\ param_info (mk ppi) = ppi
               /\ parallel_safe (mk ppi) = safe) ->
  (forall ppi, ppi_ok ppi -> target_ok (mk ppi) -> costs_ok en (cost (mk ppi) ppi)) ->
  (forall path ppi p, cost path ppi = Ok p -> same_header path p) ->
  built en rel req safe
    (let (ppi, params) := get_baserel_parampathinfo rel params req in let! p := cost (mk ppi) ppi in Ok (p, params)).
Proof.
  intros [Ro Rr Rt Rg] Hp Hq Hm Hc Hh.
  pose proof (baserel_parampathinfo_ok rel params req Hp Hq (ro_tuples _ Ro) Rt Rr) as B.
  destruct (get_baserel_parampathinfo rel params req) as [ppi params']. destruct B as [Bp Bk].
  destruct (Hm ppi) as (M1 & M2 & M3 & M4).
  destruct (Hc ppi (pf_ok _ _ _ Bp)) as (p & E & Cp & Sp); [unfold target_ok; rewrite M2; exact Rg|].
  pose proof (Hh _ ppi p E) as [_ H2' H3' H4' H5' _]. rewrite E. cbn [rbind]. exists p, params'.
  split_and!; [reflexivity| |exact Bk]. split; try assumption; congruence.
Qed.

Ltac base_path tag cost header :=
  match goal with |- built _ ?rel _ _ _ =>
    apply (base_build _ _ _ _ _ (fun ppi => make_path tag rel (reltarget rel) ppi _ _ _ _ _) cost); try assumption;
    [intros; split_and!; reflexivity|intros ? ? ?|intros ? ? ?; apply header] end.

(** Every scan constructor over a sized base relation returns: its path is costed,
    belongs to the relation, has the requested parameterization with at most the rows of
    the relation, is parallel-safe as the relation (and its input) allow, and the list
    of parameterizations stays well formed. *)
Theorem base_paths_built root rel params req workers sub keys functions bq loops degree n :
  scan_rel rel -> params_ok rel params -> bms_wf req -> costed sub -> node_ok functions -> planned functions ->
  bitmap_ok bq -> nonneg (total_table_pages root) = true -> d2int loops = Some n ->
  built enable_seqscan rel req (consider_parallel rel) (create_seqscan_path rel params req workers)
  /\ built true rel req (consider_parallel rel) (create_samplescan_path rel params req)
  /\ built enable_bitmapscan rel req (consider_parallel rel) (create_bitmap_heap_path root rel params bq req loops degree)
  /\ built true rel req (consider_parallel rel && parallel_safe sub) (create_subqueryscan_path rel params sub keys req)
  /\ built true rel req (consider_parallel rel) (create_functionscan_path functions rel params keys req)
  /\ built true rel req (consider_parallel rel) (create_tablefuncscan_path functions rel params req)
  /\ built true rel req (consider_parallel rel) (create_valuesscan_path rel params req)
  /\ built true rel req (consider_parallel rel) (create_ctescan_path rel params req)
  /\ built true rel req (consider_parallel rel) (create_namedtuplestorescan_path rel params req)
  /\ built true rel req (consider_parallel rel) (create_worktablescan_path rel params req).
Proof.
  intros Hrel Hp Hr Hs Hn Hpl Hb Hroot Hl. pose proof (sr_ok _ Hrel) as Ro. split_and!.
  - base_path T_SeqScan (fun path ppi => cost_seqscan path rel ppi) seqscan_header.
    apply cost_seqscan_ok; assumption.
  - base_path T_SampleScan (fun path ppi => cost_samplescan path rel ppi (next_sample_block rel)) samplescan_header.
    apply cost_samplescan_ok; assumption.
  - base_path T_BitmapHeapScan (fun path ppi => cost_bitmap_heap_scan path root rel ppi bq loops) bitmap_heap_header.
    edestruct (cost_bitmap_heap_scan_ok So) as (p & E & C & S & _); [eassumption..|exists p; auto].
  - base_path T_SubqueryScan (fun path ppi => cost_subqueryscan path sub rel ppi) subqueryscan_header.
    apply cost_subqueryscan_ok; assumption.
  - base_path T_FunctionScan (fun path ppi => cost_functionscan path rel ppi functions) functionscan_header.
    apply cost_functionscan_ok; assumption.
  - base_path T_TableFuncScan (fun path ppi => cost_tablefuncscan path rel ppi functions) functionscan_header.
    apply cost_functionscan_ok; assumption.
  - base_path T_ValuesScan (fun path ppi => cost_valuesscan path rel ppi) listscan_header.
    apply cost_listscan_ok; auto with nneg.
  - base_path T_CteScan (fun path ppi => cost_ctescan path rel ppi) listscan_header.
    apply cost_listscan_ok; auto with nneg.
  - base_path T_NamedTuplestoreScan (fun path ppi => cost_namedtuplestorescan path rel ppi) namedtuplestorescan_header.
    apply cost_namedtuplestorescan_ok; assumption.
  - base_path T_WorkTableScan (fun path ppi => cost_ctescan path rel ppi) listscan_header.
    apply cost_listscan_ok; auto with nneg.
Qed.

(** ** Joins *)

(** The join types a join relation has. *)
Definition estimable (jt : JoinType) : bool :=
  match jt with JOIN_INNER | JOIN_LEFT | JOIN_FULL | JOIN_SEMI | JOIN_ANTI => true | _ => false end.

(** The inputs of a join: costed paths with finite row counts. *)
Record join_inputs (outer inner : Path) : Prop := {
  ji_outer : input_ok outer;
  ji_inner : input_ok inner;
  ji_rows_outer : row_count (rows outer);
  ji_rows_inner : row_count (rows inner);
  ji_product : finite (rows outer * rows inner);
}.

Lemma sort_eclauses_ok outer inner el : forall pl ecs, clauses_ok el -> clauses_ok pl ->
  clauses_ok (sort_eclauses outer inner el pl ecs).1.
Proof.
  induction el as [|r el IH]; intros pl ecs He Hp; cbn [sort_eclauses]; [exact Hp|].
  rewrite clauses_ok_forall, Forall_cons, <- clauses_ok_forall in He. destruct He as [Hr He].
  repeat case_match; auto. apply IH; [exact He|]. apply clauses_ok_app; [exact Hp|].
  rewrite clauses_ok_forall. constructor; [exact Hr|constructor].
Qed.

Lemma joinrel_pclauses_ok joinrel params outer inner req : clauses_ok (joininfo params) ->
  clauses_ok (joinrel_pclauses joinrel params outer inner req).
Proof.
  intros Hj. unfold joinrel_pclauses.
  match goal with |- context [sort_eclauses outer inner ?el ?pl ?ecs] =>
    pose proof (sort_eclauses_ok outer inner el pl ecs (equalities_ok _ _ _) (clauses_ok_filter _ _ Hj)) as S;
    destruct (sort_eclauses outer inner el pl ecs) as [pl' [|ec ecs']] end; cbn [fst] in S; [exact S|].
  apply clauses_ok_app; [exact S|apply clauses_ok_filter, equalities_for_ecs_ok].
Qed.

(** The clauses a parameterized join evaluates. *)
Definition join_quals (joinrel : RelOptInfo) (params : RelParams) (outer inner : Path) (req : Relids)
    (clauses : list RestrictInfo) : list RestrictInfo :=
  if bms_is_empty req then clauses else joinrel_pclauses joinrel params outer inner req ++ clauses.

Lemma joinrel_parampathinfo_ok root joinrel params outer inner sj req clauses :
  join_params joinrel params -> bms_wf req -> Forall (fkey_ok root) (fkey_list root) -> row_count (rel_rows joinrel) ->
  join_inputs outer inner -> estimable (sj_jointype sj) = true -> clauses_ok clauses ->
  exists ppi params', get_joinrel_parampathinfo root joinrel params outer inner sj req clauses
      = Ok (ppi, join_quals joinrel params outer inner req clauses, params')
    /\ ppi_for joinrel req ppi /\ row_count (row_estimate joinrel ppi) /\ join_params joinrel params'
    /\ clauses_ok (join_quals joinrel params outer inner req clauses).
Proof.
  intros Hjp Hr Hf Rc [_ _ Ro Ri Fp] Hj Hc. pose proof Hjp as [Hp Hcnt]. unfold get_joinrel_parampathinfo, join_quals.
  destruct (bms_is_empty req) eqn:Ee; [do 2 eexists; split_and!; [reflexivity|apply ppi_for_none, Ee|assumption..]|].
  pose proof (joinrel_pclauses_ok joinrel params outer inner req (pk_join _ _ Hp)) as Hpc.
  pose proof (clauses_ok_app _ _ Hpc Hc) as Hall.
  destruct (find_ppi req (ppilist params)) as [p|] eqn:Ef.
  { do 2 eexists. split_and!; [reflexivity|eapply ppi_for_found; eassumption| |assumption..].
    rewrite Forall_forall in Hcnt. apply Hcnt, (find_ppi_in _ _ _ Ef). }
  unfold get_parameterized_joinrel_size.
  match goal with |- context [calc_joinrel_size_estimate root _ _ _ _ sj ?cl] =>
    pose proof (calc_joinrel_size_ok root (parent outer) (parent inner) _ _ sj cl Hf Ro Ri) as C end.
  destruct (sj_jointype sj); try discriminate Hj; destruct C as (y & -> & E); cbn [rbind];
    pose proof (estimate_count _ _ _ _ _ E Fp) as Cy;
    destruct (cap_rows _ _ (rc_nonneg _ Cy) (rc_nonneg _ Rc) (rc_finite _ Cy) (rc_finite _ Rc)) as [L _];
    (eexists _, _; split; [reflexivity|]);
    (match goal with |- ppi_for _ _ (Some (mkParamPathInfo _ ?r _)) /\ _ =>
      destruct (ppi_for_new joinrel req params r [] Hp Hr Ee Ef) as [N1 N2] end;
     [case_match; apply Cy || apply Rc|split; constructor|exact L|]);
    match goal with |- context [mkParamPathInfo req ?r []] => assert (row_count r) as Cr by (case_match; assumption) end;
    (split_and!; [exact N1|exact Cr|split; [exact N2|]|exact Hall]);
    cbn [ppilist add_ppi]; (apply Forall_app; split; [exact Hcnt|]); (constructor; [exact Cr|constructor]).
Qed.

(** A share of the rows for each worker. *)
Lemma join_rows_count path : row_count (row_estimate (parent path) (param_info path)) ->
  row_count (join_path_rows path) /\ join_path_rows path ⊑ row_estimate (parent path) (param_info path).
Proof.
  intros C. unfold join_path_rows. destruct (parallel_workers path >? 0)%Z eqn:W; [|split; [exact C|reflexivity]].
  destruct (get_parallel_divisor_ok (parallel_workers path) ltac:(lia)) as [Dn D1].
  pose proof (get_parallel_divisor_number (parallel_workers path) ltac:(lia)) as Dd. pose proof C as [Cn Cf _ _].
  pose proof (cle_div_number _ _ Cn Cf Dn Dd D1) as L. pose proof (nonneg_div _ _ Cn Dn) as N.
  split; [apply clamp_count; [exact N|exact (finite_le _ _ Cf L)]|apply clamp_le_count; assumption].
Qed.

Record join_built (en : bool) (joinrel : RelOptInfo) (req : Relids) (outer inner : Path) (p : Path) : Prop := {
  jb_costed : costed p;
  jb_startup : startup_ok en (startup_cost p);
  jb_parent : parent p = joinrel;
  jb_ppi : ppi_for joinrel req (param_info p);
  jb_safe : parallel_safe p = join_safe joinrel outer inner;
  jb_target : pathtarget p = reltarget joinrel;
  jb_count : row_count (rows p);
  jb_rows : rows p ⊑ rel_rows joinrel;
  jb_workers : parallel_workers p = parallel_workers outer;
}.

Record joinrel_ok (root : JoinRoot) (joinrel : RelOptInfo) (params : RelParams) (req : Relids) (sj : SpecialJoinInfo) : Prop := {
  jr_rows : row_count (rel_rows joinrel);
  jr_target : qual_cost_ok (target_cost (reltarget joinrel));
  jr_params : join_params joinrel params;
  jr_req : bms_wf req;
  jr_fkeys : Forall (fkey_ok root) (fkey_list root);
  jr_type : estimable (sj_jointype sj) = true;
}.

Lemma join_header_ok joinrel req outer inner ppi tag safe w keys x quals extra :
  row_count (rel_rows joinrel) -> qual_cost_ok (target_cost (reltarget joinrel)) -> ppi_for joinrel req ppi ->
  join_inputs outer inner -> clauses_ok quals -> factors_ok (semifactors extra) ->
  join_ok (make_path tag joinrel (reltarget joinrel) ppi false safe w keys x) outer inner quals extra.
Proof.
  intros Rc Ht [Po _ _ _ _] [Io Ii _ _ _] Hq Hf. split; try assumption; [apply Rc|].
  cbn [param_info make_path]. destruct ppi; [apply Po|exact I].
Qed.

Lemma join_built_intro en joinrel req outer inner ppi tag keys x p :
  costed p -> startup_ok en (startup_cost p) -> ppi_for joinrel req ppi -> row_count (row_estimate joinrel ppi) ->
  let path := make_path tag joinrel (reltarget joinrel) ppi false (join_safe joinrel outer inner)
                (parallel_workers outer) keys x in
  same_header path p -> rows p = join_path_rows path /\ parallel_workers p = parallel_workers path -> join_built en joinrel req outer inner p /\ pathkeys p = keys.
Proof.
  intros C S Pf Cr path [_ Hp Ht Hi Hs Hk] [Hr Hw]. destruct (join_rows_count path Cr) as [Rc Rl]. cbn in *. split; [|exact Hk].
  split; try assumption.
  - rewrite Hi. exact Pf.
  - rewrite Hr. exact Rc.
  - rewrite Hr. etransitivity; [exact Rl|apply Pf].
Qed.

Lemma join_paths_ok `{!LibmOrder} root joinrel params req sj jt extra outer inner clauses keys ws0 cache hc mc okeys ikeys :
  joinrel_ok root joinrel params req sj -> join_inputs outer inner -> clauses_ok clauses -> factors_ok (semifactors extra) ->
  clauses_ok hc -> Forall buckets_ok hc -> quals_cover hc (join_quals joinrel params outer inner req clauses) ->
  clauses_ok mc -> quals_cover mc (join_quals joinrel params outer inner req clauses) -> cache_ok cache ->
  merge_keys_ok jt mc (sort_or okeys outer) (sort_or ikeys inner) ->
  (exists p params', let ws := initial_cost_nestloop ws0 jt outer inner extra in
     create_nestloop_path root joinrel params jt ws extra sj outer inner clauses keys req = Ok (p, params')
     /\ join_built enable_nestloop joinrel req outer inner p /\ join_params joinrel params' /\ lower_bound ws p
     /\ pathkeys p = keys)
  /\ (exists ws p params', initial_cost_hashjoin ws0 hc outer inner = Some ws
      /\ create_hashjoin_path root joinrel params jt ws extra sj outer inner clauses req hc = Ok (p, params')
      /\ join_built enable_hashjoin joinrel req outer inner p /\ join_params joinrel params' /\ lower_bound ws p
      /\ pathkeys p = [])
  /\ (exists ws cache' p params', initial_cost_mergejoin ws0 cache jt mc outer inner okeys ikeys = Ok (ws, cache')
      /\ create_mergejoin_path root joinrel params jt ws extra sj outer inner clauses keys req mc okeys ikeys = Ok (p, params')
      /\ join_built enable_mergejoin joinrel req outer inner p /\ join_params joinrel params'
      /\ merge_lower_bound ws p /\ pathkeys p = keys).
Proof.
  intros [Rc Ht Hp Hr Hf Hj] Hi Hc Hsf Hh Hb Hcov Hm Hmcov Hca Hk.
  destruct (joinrel_parampathinfo_ok root joinrel params outer inner sj req clauses Hp Hr Hf Rc Hi Hj Hc)
    as (ppi & params' & E & Pf & Cr & Pk & Hq).
  pose proof (clauses_ok_filter (fun r => negb (join_clause_is_movable_into r (relids (parent inner))
    (bms_union (relids (parent inner)) (PATH_REQ_OUTER inner)))) clauses Hc) as Hc'.
  split_and!.
  - assert (clauses_ok (nestloop_clauses outer inner clauses)) as Hn by (unfold nestloop_clauses; case_match; assumption).
    destruct (joinrel_parampathinfo_ok root joinrel params outer inner sj req _ Hp Hr Hf Rc Hi Hj Hn)
      as (ppi1 & params1 & E1 & Pf1 & Cr1 & Pk1 & Hq1).
    unfold create_nestloop_path. rewrite E1. cbn [rbind].
    match goal with |- context [final_cost_nestloop ?pn _ _ _ ?q _ _] =>
      destruct (nestloop_costs_ok So ws0 pn jt outer inner q extra) as (p & Ep & C & S & L);
      [apply (join_header_ok joinrel req); assumption|] end.
    rewrite Ep. cbn [rbind]. exists p, params1.
    destruct (join_built_intro _ _ _ _ _ _ _ _ _ _ C S Pf1 Cr1 (nestloop_header _ _ _ _ _ _ _ _ Ep) (nestloop_rows _ _ _ _ _ _ _ _ Ep)). auto.
  - unfold create_hashjoin_path. rewrite E. cbn [rbind].
    match goal with |- context [final_cost_hashjoin ?pn _ ?u _ _ ?q _ _ _] =>
      destruct (hashjoin_costs_ok So ws0 pn jt u outer inner q hc extra) as (ws & p & Ew & Ep & C & S & L & _);
      [apply (join_header_ok joinrel req); assumption|assumption..|] end.
    exists ws, p, params'. rewrite Ep. cbn [rbind].
    destruct (join_built_intro _ _ _ _ _ _ _ _ _ _ C S Pf Cr (hashjoin_header _ _ _ _ _ _ _ _ _ _ Ep) (hashjoin_rows _ _ _ _ _ _ _ _ _ _ Ep)). auto 8.
  - unfold create_mergejoin_path. rewrite E. cbn [rbind].
    match goal with |- context [final_cost_mergejoin ?pn _ ?u _ _ ?q _ _ _ _ _] =>
      destruct (mergejoin_costs_ok So ws0 cache pn jt u outer inner q mc okeys ikeys extra)
        as (ws & cache' & p & run & Ew & _ & Ep & C & S & _ & _ & _ & L & _);
      [apply (join_header_ok joinrel req); assumption|assumption..|] end.
    exists ws, cache', p, params'. rewrite Ep. cbn [rbind].
    destruct (join_built_intro _ _ _ _ _ _ _ _ _ _ C S Pf Cr (mergejoin_header _ _ _ _ _ _ _ _ _ _ _ _ Ep)
      (mergejoin_rows _ _ _ _ _ _ _ _ _ _ _ _ Ep)). auto 8.
Qed.

(** C28: Over costed inputs with finite row counts the three join constructors
    return: the path of the join relation is costed no cheaper than the preliminary
    startup and total estimates that were checked before (for merge joins up to the order
    in which the parts of the total are added), has the requested parameterization and
    sort order and a whole number of rows, at least one and at most those of the join
    relation, and is parallel-safe only if the relation and both inputs are. *)
Theorem join_paths_built `{!LibmOrder} root joinrel params req sj jt extra outer inner clauses keys ws0 cache hc mc okeys ikeys :
  joinrel_ok root joinrel params req sj -> join_inputs outer inner -> clauses_ok clauses -> factors_ok (semifactors extra) ->
  clauses_ok hc -> Forall buckets_ok hc -> quals_cover hc (join_quals joinrel params outer inner req clauses) ->
  clauses_ok mc -> quals_cover mc (join_quals joinrel params outer inner req clauses) -> cache_ok cache ->
  merge_keys_ok jt mc (sort_or okeys outer) (sort_or ikeys inner) ->
  (exists p params', let ws := initial_cost_nestloop ws0 jt outer inner extra in
     create_nestloop_path root joinrel params jt ws extra sj outer inner clauses keys req = Ok (p, params')
     /\ join_built enable_nestloop joinrel req outer inner p /\ join_params joinrel params' /\ lower_bound ws p
     /\ pathkeys p = keys)
  /\ (exists ws p params', initial_cost_hashjoin ws0 hc outer inner = Some ws
      /\ create_hashjoin_path root joinrel params jt ws extra sj outer inner clauses req hc = Ok (p, params')
      /\ join_built enable_hashjoin joinrel req outer inner p /\ join_params joinrel params' /\ lower_bound ws p
      /\ pathkeys p = [])
  /\ (exists ws cache' p params', initial_cost_mergejoin ws0 cache jt mc outer inner okeys ikeys = Ok (ws, cache')
      /\ create_mergejoin_path root joinrel params jt ws extra sj outer inner clauses keys req mc okeys ikeys = Ok (p, params')
      /\ join_built enable_mergejoin joinrel req outer inner p /\ join_params joinrel params'
      /\ merge_lower_bound ws p /\ pathkeys p = keys).
Proof. apply join_paths_ok. Qed.
End built.

(** ** Witnesses *)

#[local] Existing Instance default_settings.

Lemma fk_clause_ok : clauses_ok [fk_clause].
Proof.
  split; (constructor; [|constructor]).
  - constructor; [left; reflexivity|]. cbn. repeat constructor.
  - repeat (discriminate || constructor).
Qed.

#[export] Instance sample_equivalence_laws : EquivalenceLaws.
Proof. split; intros; [exact fk_clause_ok|split; constructor]. Qed.

#[export] Instance sample_support : PathSupport := {|
  is_parallel_safe := fun _ => true;
  expression_returns_set_rows := fun _ => i2d 3;
  equal_exprs := fun _ _ => false;
  expand_indexqual_conditions := fun _ clauses => clauses;
  relation_has_unique_index_for := fun _ _ _ => false;
  query_supports_distinctness := fun _ => false;
  query_is_distinct_for := fun _ _ _ => false;
  estimate_num_groups := fun _ _ => i2d 50;
  next_sample_block := fun _ => true |}.

Lemma sample_scan_rel : scan_rel sample_rel.
Proof. split; [exact sample_rel_ok|exact sized_sample_rows|apply finite_i2d; lia|split; reflexivity]. Qed.

Lemma no_params_ok : params_ok sample_rel no_params.
Proof. split; [exact no_params_wf|constructor|exact sample_clauses_ok]. Qed.

Lemma single_wf w : word_ok w -> bms_wf (Some [w]).
Proof. intros Hw. constructor; [exact Hw|constructor]. Qed.

Lemma four_wf : bms_wf (Some [4]).
Proof. apply single_wf. unfold word_ok. lia. Qed.

Lemma base_paths_built_witness :
  built enable_seqscan sample_rel (Some [4]) true (create_seqscan_path sample_rel no_params (Some [4]) 0)
  /\ built enable_bitmapscan sample_rel (Some [4]) true
       (create_bitmap_heap_path sample_root sample_rel no_params sample_bitmap (Some [4]) (i2d 1) 0).
Proof.
  pose proof (base_paths_built default_settings_ok sample_root sample_rel no_params (Some [4]) 0 join_input [] sample_qual
    sample_bitmap (i2d 1) 0 1 sample_scan_rel no_params_ok four_wf sample_costed sample_qual_ok sample_qual_planned
    sample_bitmap_ok eq_refl eq_refl) as B.
  destruct B as (B1 & _ & B3 & _). split; [exact B1|exact B3].
Defined.

Definition inner_join : SpecialJoinInfo := mkSpecialJoinInfo None None None None JOIN_INNER false.

Lemma sample_join_inputs : join_inputs join_input join_input.
Proof. split; [exact join_input_ok|exact join_input_ok|exact sized_sample_rows|exact sized_sample_rows|exact sample_product_finite]. Qed.

Lemma sample_joinrel_ok : joinrel_ok fk_root sample_rel no_params None inner_join.
Proof. split; [exact sized_sample_rows|split; reflexivity|split; [exact no_params_ok|constructor]|exact I|exact sample_fkeys_ok|reflexivity]. Qed.

Lemma join_paths_built_witness :
  exists p params', let ws := initial_cost_nestloop empty_workspace JOIN_INNER join_input join_input sample_jextra in
    create_nestloop_path fk_root sample_rel no_params JOIN_INNER ws sample_jextra inner_join join_input join_input
      [sample_rinfo] [] None = Ok (p, params')
    /\ join_built enable_nestloop sample_rel None join_input join_input p /\ join_params sample_rel params' /\ lower_bound ws p
    /\ pathkeys p = [].
Proof.
  refine (proj1 (join_paths_built default_settings_ok fk_root sample_rel no_params None inner_join JOIN_INNER sample_jextra
    join_input join_input [sample_rinfo] [] empty_workspace [] [sample_rinfo] [sample_rinfo] [sample_key] [sample_key]
    sample_joinrel_ok sample_join_inputs sample_clauses_ok _ sample_clauses_ok sample_buckets_ok sample_cover
    sample_clauses_ok sample_cover (Forall_nil_2 _) _)).
  - apply sample_join_ok.
  - right. right. exists sample_key, [], sample_key, []. split_and!; reflexivity.
Defined.
