(* ===== verification/UpperPathSpec.v ===== *)
(** What the constructors above the scans guarantee: the outer relations a join
    requires, unique paths, appends, the nodes of upper relations, and the paths
    that carry no energy estimate. *)
From S2P Require Import Prelude Float64 Double DoubleOrder DoubleDiv DoubleRound Bitmapset BitmapsetSpec PlanTypes Samples Pathkeys PathCompare CostExpr CostBase CostScan CostScanSpec CostNode HashSize CostJoin CostJoinSpec SizeEst SizeEstSpec ParamInfo CreatePath CreatePathSpec.
Open Scope double_scope.

(** ** The parameterization of joins *)

Lemma bms_is_empty_members a : bms_wf a -> bms_is_empty a = true <-> forall x, ~ member x a.
Proof.
  intros Ha. rewrite bms_is_empty_spec, Z.eqb_eq by exact Ha. unfold member. split.
  - intros -> x [_ Hx]. rewrite Z.bits_0 in Hx. discriminate.
  - intros Hx. apply Z.bits_inj'. intros x Hn. rewrite Z.bits_0. destruct (Z.testbit (bms_val a) x) eqn:E; [|reflexivity].
    destruct (Hx x). auto.
Qed.

Lemma not_member_none x : ~ member x None.
Proof. intros [_ E]. rewrite Z.bits_0 in E. discriminate. Qed.

Lemma bms_copy_id a : bms_copy a = a.
Proof. destruct a; reflexivity. Qed.

Lemma represents_weaken r (S T : Z -> Prop) : represents r S -> (forall x, S x <-> T x) -> represents r T.
Proof. intros [W R] E. split; [exact W|]. intros x. rewrite R. apply E. Qed.

Lemma nestloop_set_ok a b r : bms_wf a -> bms_wf b -> bms_wf r ->
  represents (bms_del_members (bms_union a b) r) (fun x => (member x a \/ member x b) /\ ~ member x r)
  /\ (bms_is_empty (bms_del_members (bms_union a b) r) = true <-> forall x, ~ member x (bms_del_members (bms_union a b) r)).
Proof.
  intros Wa Wb Wr. pose proof (bms_union_spec a b Wa Wb) as U. pose proof (represents_lor _ a b U) as [_ RU]. destruct U as [WU _].
  pose proof (bms_del_members_spec _ r WU Wr) as D. split; [|apply bms_is_empty_members, D].
  apply (represents_weaken _ _ _ (represents_ldiff _ _ _ D)). intros x. rewrite RU. reflexivity.
Qed.

(** What a nestloop still requires. *)
Definition still_required (outer inner : Path) (x : Z) : Prop :=
  (member x (PATH_REQ_OUTER outer) \/ member x (PATH_REQ_OUTER inner)) /\ ~ member x (relids (parent outer)).

Lemma required_outer_ok outer inner :
  bms_wf (PATH_REQ_OUTER outer) -> bms_wf (PATH_REQ_OUTER inner) -> bms_wf (relids (parent outer)) ->
  (forall x, member x (PATH_REQ_OUTER outer) -> ~ member x (relids (parent outer))) ->
  ((forall x, ~ member x (PATH_REQ_OUTER outer)) -> PATH_REQ_OUTER outer = None) ->
  represents (calc_nestloop_required_outer outer inner) (still_required outer inner)
  /\ (calc_nestloop_required_outer outer inner = None <-> forall x, ~ still_required outer inner x)
  /\ represents (calc_non_nestloop_required_outer outer inner)
       (fun x => member x (PATH_REQ_OUTER outer) \/ member x (PATH_REQ_OUTER inner)).
Proof.
  intros Wo Wi Wr Hd Hn. split; [|split; [|apply represents_lor, bms_union_spec; assumption]];
    unfold calc_nestloop_required_outer, still_required; destruct (PATH_REQ_OUTER inner) as [ws|] eqn:Ei.
  - destruct (nestloop_set_ok (PATH_REQ_OUTER outer) (Some ws) (relids (parent outer)) Wo Wi Wr) as [R E].
    destruct (bms_is_empty _); [split; [exact I|]|exact R]. intros x. rewrite <- (proj2 R x).
    split; [intros M; destruct (not_member_none x M)|]. intros M. destruct (proj1 E eq_refl x M).
  - rewrite bms_copy_id. split; [assumption|]. intros x. split; [intros M; split; [left; exact M|apply Hd, M]|].
    intros [[M|M] _]; [exact M|destruct (not_member_none x M)].
  - destruct (nestloop_set_ok (PATH_REQ_OUTER outer) (Some ws) (relids (parent outer)) Wo Wi Wr) as [R E].
    destruct (bms_is_empty _) eqn:Ee; [split; [|reflexivity]|split].
    + intros _ x M. apply (proj1 E eq_refl x), R, M.
    + intros Z x M. apply R in M. rewrite Z in M. exact (not_member_none x M).
    + intros Hx. assert (false = true); [|discriminate]. apply E. intros x M. apply (Hx x), R, M.
  - rewrite bms_copy_id. split; [intros Z x [[M|M] _]; [rewrite Z in M|]; exact (not_member_none x M)|].
    intros Hx. apply Hn. intros x M. apply (Hx x). split; [left; exact M|apply Hd, M].
Qed.

(** calc_nestloop_required_outer computes the relations that either input requires,
    less those of the outer side, which supplies them, and keeps the invariant that the
    set is NULL exactly when it is empty.  Merge and hash joins require what either input
    requires. *)
Theorem required_outer_spec outer inner :
  bms_wf (PATH_REQ_OUTER outer) -> bms_wf (PATH_REQ_OUTER inner) -> bms_wf (relids (parent outer)) ->
  (forall x, member x (PATH_REQ_OUTER outer) -> ~ member x (relids (parent outer))) ->
  ((forall x, ~ member x (PATH_REQ_OUTER outer)) -> PATH_REQ_OUTER outer = None) ->
  represents (calc_nestloop_required_outer outer inner) (still_required outer inner)
  /\ (calc_nestloop_required_outer outer inner = None <-> forall x, ~ still_required outer inner x)
  /\ represents (calc_non_nestloop_required_outer outer inner)
       (fun x => member x (PATH_REQ_OUTER outer) \/ member x (PATH_REQ_OUTER inner)).
Proof. apply required_outer_ok. Qed.

Section upper.
Context `{Libm, Settings, Catalog, Tablespaces, IndexAM, Estimator, Equivalences, PathSupport}.

(** ** Appends *)

Definition sum_costs (f : Path -> double) (init : double) (l : list Path) : double :=
  fold_left (fun acc p => acc + f p) l init.

Lemma append_loop_sums first l p :
  let q := append_loop first l p in
  rows q = sum_costs rows (rows p) l /\ total_cost q = sum_costs total_cost (total_cost p) l
  /\ io_cost q = sum_costs io_cost (io_cost p) l /\ cpu_cost q = sum_costs cpu_cost (cpu_cost p) l
  /\ power_cost q = sum_costs power_cost (power_cost p) l
  /\ startup_cost q = (match l with [] => startup_cost p | s :: _ => if first then startup_cost s else startup_cost p end).
Proof.
  revert first p. induction l as [|s l IH]; intros first p; cbn [append_loop]; [split_and!; reflexivity|].
  match goal with |- context [append_loop false l ?p'] => destruct (IH false p') as (-> & -> & -> & -> & -> & ->) end.
  split_and!; try reflexivity. destruct l; reflexivity.
Qed.

Lemma sum_costs_ok f l : Forall (fun p => nonneg (f p) = true) l -> forall init, nonneg init = true ->
  nonneg (sum_costs f init l) = true /\ init ⊑ sum_costs f init l.
Proof.
  induction 1 as [|p l Hp _ IH]; intros init Hi; cbn [sum_costs fold_left]; [split; [exact Hi|reflexivity]|].
  destruct (IH (init + f p)) as [I1 I2]; [auto with nneg|]. split; [exact I1|].
  etransitivity; [|exact I2]. apply cle_add_l; assumption.
Qed.

(** An Append path adds up its subpaths, in order: rows, total, I/O, CPU and power
    costs are the sums from zero, the startup cost is that of the first subpath, an empty
    Append (a dummy path) costs nothing; over costed subpaths the startup cost is at
    most the total cost.  The path has the parameterization asked for. *)
Theorem append_path_sums rel params subs req w :
  let p := (create_append_path rel params subs req w).1 in
  (rows p = sum_costs rows (i2d 0) subs /\ total_cost p = sum_costs total_cost (i2d 0) subs
   /\ io_cost p = sum_costs io_cost (i2d 0) subs /\ cpu_cost p = sum_costs cpu_cost (i2d 0) subs
   /\ power_cost p = sum_costs power_cost (i2d 0) subs
   /\ startup_cost p = (match subs with [] => i2d 0 | s :: _ => startup_cost s end))
  /\ (Forall costed subs -> nonneg (startup_cost p) = true /\ startup_cost p ⊑ total_cost p).
Proof.
  unfold create_append_path. destruct (get_appendrel_parampathinfo params req) as [ppi params']. cbn [fst].
  match goal with |- context [append_loop true subs ?p0] => pose proof (append_loop_sums true subs p0) as S end.
  cbv zeta in S |- *. split; [exact S|]. destruct S as (_ & -> & _ & _ & _ & ->). cbn [total_cost set_path_costs].
  intros C. destruct subs as [|s l]; [split; reflexivity|]. apply Forall_cons in C as [[_ Cs Cl Ct _] C].
  split; [exact Cs|]. cbn [sum_costs fold_left].
  destruct (sum_costs_ok total_cost l) with (init := i2d 0 + total_cost s) as [_ L].
  - eapply Forall_impl; [exact C|]. intros q [_ _ _ Hq _]. exact Hq.
  - auto with nneg.
  - etransitivity; [exact Cl|]. etransitivity; [|exact L]. apply cle_add_r; [exact Ct|reflexivity].
Qed.

(** ** Unique paths *)

(** How the rows of a unique path are made distinct. *)
Definition unique_method (p : Path) : option UniquePathMethod :=
  match PlanTypes.extra p with XUniquePath _ m => Some m | _ => None end.

(** Does the hash table of the groups fit into work_mem? *)
Definition hash_fits (rel : RelOptInfo) (sub : Path) (semi : SemiInfo) : bool :=
  negb (i2d (width (pathtarget sub) + 64) * estimate_num_groups (map rhs_node (semi_rhs_exprs semi)) (rel_rows rel)
        >? i2d (work_mem * 1024)).

(** create_unique_path caches its result in the relation; a later call returns it.
    It finds no path exactly when the input is not known to be unique, cannot be sorted,
    and cannot be hashed or would overflow work_mem, and then hashing is ruled out for
    good.  A unique input is passed on with its costs; else the rows are sorted or
    hashed, hashed only if the table fits, and whichever of the two is cheaper. *)
Theorem unique_path_spec rel sub semi r cache semi' :
  create_unique_path rel None sub semi = (r, cache, semi') ->
  cache = r
  /\ (forall sub' semi0, r <> None -> create_unique_path rel cache sub' semi0 = (r, cache, semi0))
  /\ (r = None <-> semi_can_btree semi = false /\ (semi_can_hash semi = false
                   \/ rel_is_unique rel semi = false /\ hash_fits rel sub semi = false))
  /\ (semi_can_hash semi' = true -> semi_can_hash semi = true)
  /\ forall p, r = Some p ->
       parallel_safe p = consider_parallel rel && parallel_safe sub
       /\ match unique_method p with
          | Some UNIQUE_PATH_NOOP => rel_is_unique rel semi = true /\ rows p = rel_rows rel /\ total_cost p = total_cost sub
          | Some UNIQUE_PATH_HASH => hash_fits rel sub semi = true /\ semi_can_hash semi = true
              /\ (semi_can_btree semi = true ->
                  (total_cost p <? total_cost (unique_sort_path rel sub (Z.of_nat (length (semi_rhs_exprs semi))))) = true)
          | Some UNIQUE_PATH_SORT => semi_can_btree semi = true
              /\ total_cost p = total_cost (unique_sort_path rel sub (Z.of_nat (length (semi_rhs_exprs semi))))
          | None => False
          end.
Proof.
  unfold create_unique_path. set (groups := estimate_num_groups _ _).
  set (cols := Z.of_nat (length (semi_rhs_exprs semi))).
  change (negb (i2d (width (pathtarget sub) + 64) * groups >? i2d (work_mem * 1024))) with (hash_fits rel sub semi).
  set (agg := unique_hash_path rel sub cols groups). set (srt := unique_sort_path rel sub cols).
  destruct (semi_can_btree semi) eqn:B, (semi_can_hash semi) eqn:Hh, (rel_is_unique rel semi) eqn:U,
    (hash_fits rel sub semi) eqn:F; cbn [negb orb andb semi_can_btree];
    try destruct (total_cost agg <? total_cost srt) eqn:L; cbn [decide]; intros [= <- <- <-];
    (split; [reflexivity|]); (split; [intros ? ? N; reflexivity || destruct (N eq_refl)|]);
    (split; [split; [discriminate || tauto|intros [? [?|[? ?]]]; discriminate || reflexivity]|]);
    (split; [cbn; congruence|]); intros p [= <-]; (split; [reflexivity|]); cbn; auto.
  split_and!; [reflexivity..|discriminate].
Qed.

(** ** Upper paths *)

Context `{!CatalogLaws, !LibmOrder} (So : settings_ok).

Lemma add_tlist_costed p target : costed p -> qual_cost_ok (target_cost target) -> costed (add_tlist_cost p target).
Proof.
  intros [Hr Hs Hle Ht Hp] [T1 T2].
  split; cbn [rows startup_cost total_cost power_cost add_tlist_cost add_costs set_rows_costs set_path_costs]; auto with nneg.
  apply cle_add; auto with nneg. apply cle_add_l; auto with nneg.
Qed.

(** A node that sets rows, startup and total cost and leaves the energy costs at zero. *)
Lemma zero_energy_costed path r s t : power_cost path = dzero -> nonneg r = true -> nonneg s = true -> nonneg t = true ->
  s ⊑ t -> costed (set_rows_costs path r s t).
Proof. intros Hp Hr Hs Ht L. split; cbn; try assumption. rewrite Hp. reflexivity. Qed.

Lemma at_least_one_nonneg x : nonneg (at_least_one x) = true.
Proof.
  unfold at_least_one. destruct (x <? i2d 1) eqn:E; [reflexivity|]. destruct (nonneg x) eqn:N; [reflexivity|].
  rewrite dlt_sval in E by (apply neg_isnan, N || apply isnan_i2d). unfold sval in E. rewrite N in E.
  pose proof (cmag_range x). pose proof cmag_one as C. change (nonneg (i2d 1)) with true in E. cbv iota in E. rewrite C in E.
  pose proof (pow2_pos 1074 ltac:(lia)). lia.
Qed.

Lemma limit_rows_nonneg est sr r : nonneg r = true -> nonneg (limit_rows est sr r) = true.
Proof.
  intros Hr. unfold limit_rows. destruct (est >? 0)%Z eqn:E; case_match; try exact Hr; [apply nonneg_i2d; lia|apply clamp_nonneg].
Qed.

Lemma limit_share_nonneg sub n : costed sub -> nonneg n = true -> nonneg (limit_share sub n) = true.
Proof.
  intros [Hr Hs Hle Ht _] Hn. pose proof (nonneg_sub _ _ Ht Hs Hle). unfold limit_share. auto with nneg.
Qed.

Lemma limit_path_costed rel sub loff lcnt offest cntest : costed sub -> (cntest <> 0 \/ offest = 0)%Z ->
  costed (create_limit_path rel sub loff lcnt offest cntest).
Proof.
  intros Hs Hc. pose proof Hs as [Hr Hst Hle Ht _]. unfold create_limit_path.
  assert (forall r', nonneg r' = true -> nonneg (limit_share sub (limit_rows cntest (rows sub) r')) = true) as Sc
    by (intros; apply limit_share_nonneg, limit_rows_nonneg; assumption).
  assert (nonneg (limit_share sub (limit_rows offest (rows sub) (rows sub))) = true) as So'
    by (apply limit_share_nonneg, limit_rows_nonneg; assumption).
  pose proof at_least_one_nonneg as A. destruct (Z.eqb_spec offest 0), (Z.eqb_spec cntest 0); cbn [negb]; try lia;
    destruct (rows sub >? i2d 0); (apply zero_energy_costed; [reflexivity|auto 6 with nneg..|]);
    try exact Hle; try (apply cle_add_l; auto 6 with nneg).
Qed.

Lemma tlist_rows_ok items r : Forall (fun n => nonneg (expression_returns_set_rows n) = true) items ->
  nonneg r = true -> i2d 1 ⊑ r -> isnan r = false ->
  nonneg (tlist_rows_loop items r) = true /\ i2d 1 ⊑ tlist_rows_loop items r.
Proof.
  intros Hi. revert r. induction Hi as [|n items Hn _ IH]; intros r Hr L N; cbn [tlist_rows_loop]; [auto|].
  destruct (r <? expression_returns_set_rows n) eqn:E; [|auto].
  apply dlt_iff in E as [E N']; [|assumption..]. apply IH; [assumption| |exact N'].
  unfold cle in *. lia.
Qed.

Lemma set_projection_costed rel sub target : costed sub -> qual_cost_ok (target_cost target) ->
  Forall (fun n => nonneg (expression_returns_set_rows n) = true) (exprs target) ->
  costed (create_set_projection_path rel sub target).
Proof.
  intros [Hr Hs Hle Ht _] [T1 T2] Hx.
  destruct (tlist_rows_ok (exprs target) (i2d 1) Hx eq_refl (reflexivity _) eq_refl) as [R1 R2].
  assert (rows sub ⊑ rows sub * tlist_rows_loop (exprs target) (i2d 1)) as L by (apply cle_scale_any; assumption).
  pose proof (nonneg_sub _ _ (nonneg_mul _ _ Hr R1) Hr L) as D. pose proof (cpu_tuple_nonneg So) as Cc.
  assert (nonneg (i2d 2) = true) as H2' by reflexivity. unfold create_set_projection_path.
  apply zero_energy_costed; [reflexivity|auto 12 with nneg..|].
  etransitivity; [|apply cle_add_l; auto 12 with nneg]. etransitivity; [|apply cle_add_l; auto 12 with nneg].
  apply cle_add; auto with nneg. reflexivity.
Qed.

Lemma sum_nonneg l init : Forall (fun c => nonneg c = true) l -> nonneg init = true -> nonneg (fold_left dadd l init) = true.
Proof. intros Hl. revert init. induction Hl as [|c l Hc _ IH]; intros init Hi; cbn [fold_left]; [exact Hi|auto with nneg]. Qed.

Lemma result_path_costed rel target quals : qual_cost_ok (target_cost target) -> Forall node_ok quals -> Forall planned quals ->
  exists p, create_result_path rel target quals = Ok p /\ costed p.
Proof.
  intros [T1 T2] Hn Hp. pose proof (cpu_tuple_nonneg So). unfold create_result_path.
  assert (startup (target_cost target) ⊑ startup (target_cost target) + cpu_tuple_cost + per_tuple (target_cost target)) as L
    by (etransitivity; apply cle_add_l; auto with nneg).
  destruct quals as [|q quals]; [eexists; split; [reflexivity|]; split; cbn; auto with nneg|].
  destruct (cost_qual_eval_total So _ Hn Hp) as (q' & c & -> & [C1 C2]). cbn [rbind]. eexists. split; [reflexivity|].
  split; cbn; auto 6 with nneg. apply cle_add; auto 6 with nneg. reflexivity.
Qed.

(** The inputs of an upper node. *)
Record upper_input (sub : Path) (target : PathTarget) (cols : Z) (groups : double) : Prop := {
  ui_costed : costed sub;
  ui_rows : isnan (rows sub) = false;
  ui_width : 0 <= width (pathtarget sub);
  ui_target : qual_cost_ok (target_cost target);
  ui_srf : Forall (fun n => nonneg (expression_returns_set_rows n) = true) (exprs target);
  ui_cols : 0 <= cols;
  ui_groups : nonneg groups = true;
}.

(** The nodes above the joins keep costs well formed: for a costed input, Sort,
    Group, Unique, Agg, SetOp, ProjectSet, LockRows, Limit (with a count, or no offset),
    Material, MinMaxAgg, RecursiveUnion and Result have a startup cost that is not
    negative and at most the total cost, and those that read their whole input cost at
    least as much as it. *)
Theorem upper_paths_costed rel sub sub2 target cols groups keys limit qual strategy aggcosts orows loff lcnt offest cntest costs quals :
  upper_input sub target cols groups -> costed sub2 ->
  ((limit >? i2d 0) = false \/ (i2d 1 <=? limit) = true) ->
  qual_cost_ok (transCost (agg_clause_costs aggcosts)) -> nonneg (finalCost (agg_clause_costs aggcosts)) = true ->
  nonneg orows = true -> (cntest <> 0 \/ offest = 0)%Z -> Forall (fun c => nonneg c = true) costs ->
  Forall node_ok quals -> Forall planned quals ->
  (costed (create_sort_path rel sub keys limit) /\ total_cost sub ⊑ startup_cost (create_sort_path rel sub keys limit))
  /\ costed (create_group_path rel sub target cols qual groups)
  /\ (costed (create_upper_unique_path rel sub cols groups) /\ total_cost sub ⊑ total_cost (create_upper_unique_path rel sub cols groups))
  /\ costed (create_agg_path rel sub target strategy cols qual aggcosts groups)
  /\ (costed (create_setop_path rel sub true cols groups orows)
      /\ total_cost sub ⊑ total_cost (create_setop_path rel sub true cols groups orows))
  /\ costed (create_set_projection_path rel sub target)
  /\ costed (create_lockrows_path rel sub)
  /\ costed (create_limit_path rel sub loff lcnt offest cntest)
  /\ costed (create_material_path rel sub)
  /\ costed (create_minmaxagg_path rel target costs)
  /\ costed (create_recursiveunion_path rel sub sub2 target groups)
  /\ exists p, create_result_path rel target quals = Ok p /\ costed p.
Proof.
  intros [Hs Nr Hw Ht Hx Hc Hg] Hs2 Hl Ha Hf Ho Hlim Hcosts Hqn Hqp. pose proof Hs as [Sr Ss Sle St _].
  pose proof (cpu_tuple_nonneg So). pose proof (cpu_operator_nonneg So).
  assert (nonneg (i2d cols) = true) by (apply nonneg_i2d, Hc).
  assert (total_cost sub ⊑ total_cost sub + cpu_operator_cost * rows sub * i2d cols) by (apply cle_add_l; auto with nneg).
  pose proof (work_mem_ok So). split_and!.
  - apply cost_sort_ok; auto with nneg; lia.
  - apply cost_sort_ok; auto with nneg; lia.
  - apply add_tlist_costed; [apply cost_group_ok; assumption|exact Ht].
  - apply zero_energy_costed; auto with nneg. etransitivity; eassumption.
  - assumption.
  - apply add_tlist_costed; [apply cost_agg_ok; assumption|exact Ht].
  - apply zero_energy_costed; auto with nneg. etransitivity; eassumption.
  - assumption.
  - apply set_projection_costed; assumption.
  - apply zero_energy_costed; auto with nneg. etransitivity; [exact Sle|]. apply cle_add_l; auto with nneg.
  - apply limit_path_costed; assumption.
  - apply cost_material_ok; assumption.
  - pose proof (sum_nonneg costs (i2d 0) Hcosts eq_refl). destruct Ht as [T1 T2].
    apply zero_energy_costed; auto 8 with nneg. etransitivity; apply cle_add_l; auto 8 with nneg.
  - apply cost_recursive_union_ok; assumption.
  - apply result_path_costed; assumption.
Qed.

(** ** Paths without an energy estimate *)

Lemma mul_neg_inf w : (w >? i2d 0) = true -> w * dinf true = dinf true.
Proof. destruct w as [[[]|[]| |[] m e] V]; try discriminate; intros _; apply double_eq; reflexivity. Qed.

Lemma finite_cases (P : double -> Prop) x : finite x ->
  (forall s V, P (mkD (SpecFloat.S754_zero s) V)) -> (forall s m e V, P (mkD (SpecFloat.S754_finite s m e) V)) -> P x.
Proof.
  intros F Hz Hf. destruct x as [[s|s| |s m e] V]; [apply Hz| | |apply Hf].
  - unfold finite, cmag in F. cbn in F. lia.
  - apply finite_isnan in F. discriminate.
Qed.

Lemma add_neg_inf x : finite x -> x + dinf true = dinf true.
Proof. intros F. apply (finite_cases (fun x => x + dinf true = dinf true) x F); intros; apply double_eq; reflexivity. Qed.

Lemma neg_inf_lt x : finite x -> (dinf true <? x) = true /\ (x <? dinf true) = false.
Proof.
  intros F. apply (finite_cases (fun x => (dinf true <? x) = true /\ (x <? dinf true) = false) x F);
    intros s; intros; destruct s; split; reflexivity.
Qed.

(** The paths without an energy estimate: eight constructors leave the power as makeNode
    zeroed it, as does that of foreign scans; create_result_path sets it to zero. *)
Inductive unpowered : Path -> Prop :=
| unpowered_projection rel sub target : unpowered (create_projection_path rel sub target)
| unpowered_set_projection rel sub target : unpowered (create_set_projection_path rel sub target)
| unpowered_unique rel sub cols groups : unpowered (create_upper_unique_path rel sub cols groups)
| unpowered_setop rel sub sorted cols groups orows : unpowered (create_setop_path rel sub sorted cols groups orows)
| unpowered_lockrows rel sub : unpowered (create_lockrows_path rel sub)
| unpowered_limit rel sub loff lcnt offest cntest : unpowered (create_limit_path rel sub loff lcnt offest cntest)
| unpowered_minmaxagg rel target costs : unpowered (create_minmaxagg_path rel target costs)
| unpowered_modifytable rel subs p : create_modifytable_path rel subs = Some p -> unpowered p
| unpowered_foreignscan rel params target r s t keys req outerp :
    unpowered (create_foreignscan_path rel params target r s t keys req outerp).1
| unpowered_result rel target quals p : create_result_path rel target quals = Ok p -> unpowered p.

Lemma unpowered_zero p : unpowered p -> power_cost p = dzero.
Proof.
  destruct 1 as [| | | | | | |rel subs p Hp| |rel target quals p Hp]; try reflexivity.
  - unfold create_projection_path. case_match; reflexivity.
  - unfold create_limit_path. repeat case_match; reflexivity.
  - unfold create_modifytable_path in Hp. destruct (modifytable_loop _ _ _ _ _ _) as [[[? ?] ?] ?].
    destruct (d2int _); cbn [mbind option_bind] in Hp; [|discriminate]. injection Hp as <-. reflexivity.
  - unfold create_foreignscan_path. destruct (get_baserel_parampathinfo rel params req). reflexivity.
  - unfold create_result_path in Hp. destruct quals; [injection Hp as <-; reflexivity|].
    apply rbind_ok in Hp as ([q c] & _ & Hp). injection Hp as <-. reflexivity.
Qed.

Lemma zero_power_minus_infinity `{!LibmLaws} p : (power_weight >? i2d 0) = true -> power_cost p = dzero ->
  finite (time_weight * log (total_cost p)) -> weighted_cost p = dinf true.
Proof.
  intros Hw Z Ft. unfold weighted_cost. rewrite Z, (log_zero dzero eq_refl), mul_neg_inf by exact Hw. apply add_neg_inf, Ft.
Qed.

(** C26: Projections, ProjectSet, Unique over sorted input, SetOp, LockRows, Limit,
    MinMaxAgg, ModifyTable, foreign scans and Results have a power of zero, whose
    logarithm is minus infinity. As soon as power has a positive weight, such a path whose
    weighted time is finite beats every path with a finite weighted cost, however
    expensive it is and whatever its input costs; between two such paths only the startup
    costs decide, whatever their total costs. *)
Theorem zero_energy_paths_win `{!LibmLaws} p q :
  (power_weight >? i2d 0) = true -> unpowered p -> finite (time_weight * log (total_cost p)) ->
  power_cost p = dzero
  /\ (finite (weighted_cost q) -> compare_path_costs p q TOTAL_COST = -1 /\ compare_path_costs q p TOTAL_COST = 1)
  /\ (unpowered q -> finite (time_weight * log (total_cost q)) ->
      compare_path_costs p q TOTAL_COST
        = (if startup_cost p <? startup_cost q then -1 else if startup_cost q <? startup_cost p then 1 else 0)).
Proof.
  intros Hw Up Ft. pose proof (zero_power_minus_infinity p Hw (unpowered_zero p Up) Ft) as W.
  split; [exact (unpowered_zero p Up)|]. unfold compare_path_costs. split.
  - intros Fq. destruct (neg_inf_lt _ Fq) as [L1 L2]. rewrite W, L1, L2. split; reflexivity.
  - intros Uq Fq. rewrite W, (zero_power_minus_infinity q Hw (unpowered_zero q Uq) Fq). reflexivity.
Qed.

(** ** Reparameterization *)

(** Induction over path trees as far as Append nodes reach. *)
Fixpoint append_tree_ind (P : PathExtra -> Prop)
    (Happ : forall l, Forall (fun p => P (PlanTypes.extra p)) l -> P (XAppendPath l))
    (Hother : forall x, (forall l, x <> XAppendPath l) -> P x) (x : PathExtra) {struct x} : P x.
Proof.
  destruct x as [| | | | | | | | | | | |subpaths| | | | | | | | | | | | | | | | | | | |];
    try (apply Hother; intros l; discriminate).
  apply Happ. induction subpaths as [|p l IH]; [constructor|]. constructor; [|exact IH].
  apply append_tree_ind; assumption.
Qed.

Definition store_wf (store : ParamStore) : Prop := forall i, params_wf (store i).

Lemma set_params_wf store rel params : store_wf store -> params_wf params -> store_wf (set_params store rel params).
Proof. intros Hs Hp i. unfold set_params. case_match; auto. Qed.

(** The parameterization a call returns is equal to the one asked for. *)
Lemma ppi_call_req root rel params req ppi params' : params_wf params -> bms_wf req -> ppi_call root rel params req ppi params' ->
  params_wf params' /\ bms_equal (match ppi with Some p => ppi_req_outer p | None => None end) req = true.
Proof.
  intros W Hr C. destruct (ppi_call_wf root rel _ _ _ _ W Hr C) as (W' & _ & F). split; [exact W'|].
  destruct (bms_is_empty req) eqn:E.
  - apply ppi_call_cases in C. rewrite E in C. destruct C as [-> _]. destruct req; [exact E|reflexivity].
  - destruct (F eq_refl) as (p & -> & Fp). apply find_ppi_in in Fp. apply Fp.
Qed.

(** What a successful reparameterization returns; the children of an Append have the
    same parameterization, as create_append_path asserts. *)
Record reparameterized (req : Relids) (path p : Path) : Prop := {
  rp_req : bms_equal (PATH_REQ_OUTER p) req = true;
  rp_type : pathtype p = pathtype path;
  rp_parent : parent p = parent path;
  rp_children : forall l, pathtype path = T_Append -> PlanTypes.extra path = XAppendPath l ->
    exists l', PlanTypes.extra p = XAppendPath l'
      /\ Forall2 (fun s c => bms_equal (PATH_REQ_OUTER c) req = true /\ pathtype c = pathtype s /\ parent c = parent s) l l';
}.

Definition no_fkeys : JoinRoot := mkJoinRoot [] (fun _ => None).

Lemma with_params_ok rel store f path req r store' : store_wf store -> bms_wf req -> pathtype path <> T_Append ->
  (forall params p params', f params = Ok (p, params') ->
     ppi_call no_fkeys rel params req (param_info p) params' /\ pathtype p = pathtype path /\ parent p = parent path) ->
  with_params rel store f = Ok (r, store') ->
  store_wf store' /\ forall p, r = Some p -> reparameterized req path p.
Proof.
  intros Hs Hr Ha Hf E. unfold with_params in E. apply rbind_ok in E as ([p params] & E & [= <- <-]).
  destruct (Hf _ _ _ E) as (C & Ht & Hp). destruct (ppi_call_req _ _ _ _ _ _ (Hs _) Hr C) as [W Eq].
  split; [apply set_params_wf; assumption|]. intros p' [= <-]. split; try assumption. intros l A. destruct (Ha A).
Qed.

(** The scans found by [get_baserel_parampathinfo]. *)
Lemma base_call_ok rel params req (mk : option ParamPathInfo -> Path) (cost : Path -> option ParamPathInfo -> result Path)
    p params' (path : Path) :
  (forall q ppi p, cost q ppi = Ok p -> same_header q p) ->
  (forall ppi, param_info (mk ppi) = ppi /\ pathtype (mk ppi) = pathtype path /\ parent (mk ppi) = parent path) ->
  (let (ppi, params) := get_baserel_parampathinfo rel params req in let! p := cost (mk ppi) ppi in Ok (p, params)) = Ok (p, params') ->
  ppi_call no_fkeys rel params req (param_info p) params' /\ pathtype p = pathtype path /\ parent p = parent path.
Proof.
  intros Hh Hm. destruct (get_baserel_parampathinfo rel params req) as [ppi params1] eqn:G.
  intros E. apply rbind_ok in E as (q & E & [= <- <-]). destruct (Hh _ _ _ E) as [T1 T2 _ T4 _ _]. destruct (Hm ppi) as (M1 & M2 & M3).
  rewrite T1, T2, T4, M1, M2, M3. split; [apply base_call, G|split; reflexivity].
Qed.

Lemma append_loop_header first l p : let q := append_loop first l p in
  pathtype q = pathtype p /\ parent q = parent p /\ param_info q = param_info p /\ PlanTypes.extra q = PlanTypes.extra p.
Proof.
  revert first p. induction l as [|s l IH]; intros first p; cbn [append_loop]; [split_and!; reflexivity|].
  match goal with |- context [append_loop false l ?p'] => destruct (IH false p') as (-> & -> & -> & ->) end.
  split_and!; reflexivity.
Qed.

Section reparameterize.
Context (root : PlannerInfo) (req : Relids) (loops : double) (Hr : bms_wf req).

Definition reparam_ok (x : PathExtra) : Prop := forall path store r store',
  PlanTypes.extra path = x -> store_wf store -> reparameterize x root path req loops store = Ok (r, store') ->
  store_wf store' /\ forall p, r = Some p -> reparameterized req path p.

(** The loop over the children of an Append. *)
Fixpoint reparam_children (l : list Path) (store : ParamStore) : result (option (list Path) * ParamStore) :=
  match l with
  | [] => Ok (Some [], store)
  | spath :: l =>
      let! (p, store) := reparameterize_path root spath req loops store in
      match p with
      | None => Ok (None, store)
      | Some p => let! (ps, store) := reparam_children l store in Ok (option_map (cons p) ps, store)
      end
  end.

Lemma reparam_children_ok l : Forall (fun p => reparam_ok (PlanTypes.extra p)) l -> forall store r store',
  store_wf store -> reparam_children l store = Ok (r, store') ->
  store_wf store' /\ forall l', r = Some l' -> Forall2 (reparameterized req) l l'.
Proof.
  induction 1 as [|s l Hs _ IH]; intros store r store' W; cbn [reparam_children].
  { intros [= <- <-]. split; [exact W|]. intros l' [= <-]. constructor. }
  intros E. apply rbind_ok in E as ([p store1] & E1 & E). destruct (Hs _ _ _ _ eq_refl W E1) as [W1 R1].
  destruct p as [p|]; [|injection E as <- <-; split; [exact W1|discriminate]].
  apply rbind_ok in E as ([ps store2] & E2 & [= <- <-]). destruct (IH _ _ _ W1 E2) as [W2 R2].
  split; [exact W2|]. intros l' El. destruct ps as [ps|]; [|discriminate]. injection El as <-. constructor; auto.
Qed.

Lemma reparam_seqscan path store r store' : store_wf store -> pathtype path = T_SeqScan ->
  with_params (parent path) store (fun params => create_seqscan_path (parent path) params req 0) = Ok (r, store') ->
  store_wf store' /\ forall p, r = Some p -> reparameterized req path p.
Proof.
  intros W T. apply with_params_ok; [exact W|exact Hr|congruence|]. intros params p params'.
  apply (base_call_ok (parent path) params req (fun ppi => make_path T_SeqScan (parent path) (reltarget (parent path)) ppi _ _ _ _ _)
    (fun q ppi => cost_seqscan q (parent path) ppi)).
  - intros q ppi. apply seqscan_header.
  - intros ppi. rewrite T. split_and!; reflexivity.
Qed.

Lemma reparam_samplescan path store r store' : store_wf store -> pathtype path = T_SampleScan ->
  with_params (parent path) store (fun params => create_samplescan_path (parent path) params req) = Ok (r, store') ->
  store_wf store' /\ forall p, r = Some p -> reparameterized req path p.
Proof.
  intros W T. apply with_params_ok; [exact W|exact Hr|congruence|]. intros params p params'.
  apply (base_call_ok (parent path) params req (fun ppi => make_path T_SampleScan (parent path) (reltarget (parent path)) ppi _ _ _ _ _)
    (fun q ppi => cost_samplescan q (parent path) ppi _)).
  - intros q ppi. apply samplescan_header.
  - intros ppi. rewrite T. split_and!; reflexivity.
Qed.

Lemma reparam_append l : Forall (fun p => reparam_ok (PlanTypes.extra p)) l -> reparam_ok (XAppendPath l).
Proof.
  intros Hl path store r store' Ex W E. cbn [reparameterize] in E.
  destruct (negb _); [injection E as <- <-; split; [exact W|discriminate]|].
  destruct (pathtype path) eqn:T; try (injection E as <- <-; split; [exact W|discriminate]).
  - match type of E with rbind ?c _ = _ => change c with (reparam_children l store) in E end.
    apply rbind_ok in E as ([ps store1] & E1 & E). destruct (reparam_children_ok l Hl _ _ _ W E1) as [W1 R1].
    destruct ps as [ps|]; [|injection E as <- <-; split; [exact W1|discriminate]].
    unfold with_params in E. apply rbind_ok in E as ([p params] & E & [= <- <-]). injection E as E.
    unfold create_append_path in E. destruct (get_appendrel_parampathinfo _ req) as [ppi params1] eqn:G.
    injection E as <- <-. destruct (ppi_call_req no_fkeys (parent path) _ _ _ _ (W1 _) Hr (append_call _ _ _ _ _ _ G)) as [Wp Eq].
    split; [apply set_params_wf; assumption|]. intros p [= <-].
    match goal with |- context [append_loop true ps ?p0] => destruct (append_loop_header true ps p0) as (Q1 & Q2 & Q3 & Q4) end.
    split; [unfold PATH_REQ_OUTER; rewrite Q3; exact Eq|rewrite Q1, T; reflexivity|rewrite Q2; reflexivity|].
    intros l' _ Ex'. rewrite Ex in Ex'. injection Ex' as <-. exists ps. split; [rewrite Q4; reflexivity|].
    eapply Forall2_impl; [apply R1; reflexivity|]. intros s c [C1 C2 C3 _]. auto.
  - apply (reparam_seqscan path store); assumption.
  - apply (reparam_samplescan path store); assumption.
Qed.

Lemma reparam_other x : (forall l, x <> XAppendPath l) -> reparam_ok x.
Proof.
  intros Hx path store r store' Ex W E.
  assert (reparameterize x root path req loops store
    = if negb (bms_is_subset (PATH_REQ_OUTER path) req) then Ok (None, store)
      else match pathtype path, x with
      | T_SeqScan, _ => with_params (parent path) store (fun params => create_seqscan_path (parent path) params req 0)
      | T_SampleScan, _ => with_params (parent path) store (fun params => create_samplescan_path (parent path) params req)
      | T_IndexScan, XIndexPath f | T_IndexOnlyScan, XIndexPath f =>
          with_params (parent path) store (fun params =>
            let (ppi, params) := get_baserel_parampathinfo (parent path) params req in
            let! p := cost_index (set_param_info path ppi) f root loops false in
            Ok (p, params))
      | T_BitmapHeapScan, XBitmapHeapPath bitmapqual =>
          with_params (parent path) store (fun params => create_bitmap_heap_path root (parent path) params bitmapqual req loops 0)
      | T_SubqueryScan, XSubqueryScanPath subpath =>
          with_params (parent path) store (fun params => create_subqueryscan_path (parent path) params subpath (pathkeys path) req)
      | _, _ => Ok (None, store)
      end) as Eq.
  { destruct x; try reflexivity. destruct (Hx subpaths eq_refl). }
  rewrite Eq in E. clear Eq. destruct (negb _); [injection E as <- <-; split; [exact W|discriminate]|].
  destruct (pathtype path) eqn:T; try (injection E as <- <-; split; [exact W|discriminate]).
  1: apply (reparam_seqscan path store); assumption.
  1: apply (reparam_samplescan path store); assumption.
  all: destruct x; try (injection E as <- <-; split; [exact W|discriminate]); revert E;
    (apply with_params_ok; [exact W|exact Hr|congruence|]); intros params p params'.
  - apply (base_call_ok (parent path) params req (set_param_info path) (fun q ppi => cost_index q f root loops false));
      [intros q ppi; apply index_header|intros ppi; split_and!; reflexivity].
  - apply (base_call_ok (parent path) params req (set_param_info path) (fun q ppi => cost_index q f root loops false));
      [intros q ppi; apply index_header|intros ppi; split_and!; reflexivity].
  - apply (base_call_ok (parent path) params req
      (fun ppi => make_path T_BitmapHeapScan (parent path) (reltarget (parent path)) ppi _ _ _ _ _)
      (fun q ppi => cost_bitmap_heap_scan q root (parent path) ppi bitmapqual loops));
      [intros q ppi; apply bitmap_heap_header|intros ppi; rewrite T; split_and!; reflexivity].
  - apply (base_call_ok (parent path) params req
      (fun ppi => make_path T_SubqueryScan (parent path) (reltarget (parent path)) ppi _ _ _ _ _)
      (fun q ppi => cost_subqueryscan q subpath (parent path) ppi));
      [intros q ppi; apply subqueryscan_header|intros ppi; rewrite T; split_and!; reflexivity].
Qed.

(** reparameterize_path fails (NULL) on a path that requires relations outside the
    wanted set; if it returns a path, that path belongs to the same relation, is of the
    same type and requires exactly the wanted relations; an Append gets one child per
    old child, in order, each with that very parameterization, so the assertion of
    create_append_path holds.  The lists of parameterizations of all relations stay well
    formed, also when it gives up half way. *)
Theorem reparameterize_path_spec path store r store' :
  store_wf store -> reparameterize_path root path req loops store = Ok (r, store') ->
  (bms_is_subset (PATH_REQ_OUTER path) req = false -> r = None /\ store' = store)
  /\ store_wf store' /\ forall p, r = Some p -> reparameterized req path p.
Proof.
  intros W E. split.
  - intros S. unfold reparameterize_path in E. destruct (PlanTypes.extra path); cbn [reparameterize] in E; rewrite S in E;
      injection E as <- <-; auto.
  - revert W E. apply (append_tree_ind reparam_ok reparam_append reparam_other (PlanTypes.extra path)). reflexivity.
Qed.
End reparameterize.
End upper.

(** ** Witnesses *)

#[local] Existing Instance default_settings.

(** An inner path that requires relation 1, over an outer path of relation 1. *)
Definition inner_of_1 : Path := set_param_info join_input (Some (mkParamPathInfo (Some [2; 0]) (i2d 1) [])).

Lemma two_zero_wf : bms_wf (Some [2; 0]).
Proof. constructor; [unfold word_ok; lia|]. apply single_wf. unfold word_ok. lia. Qed.

Lemma required_outer_spec_witness :
  calc_nestloop_required_outer join_input inner_of_1 = None
  /\ represents (calc_non_nestloop_required_outer join_input inner_of_1)
       (fun x => member x (PATH_REQ_OUTER join_input) \/ member x (Some [2; 0])).
Proof.
  split; [reflexivity|].
  apply (required_outer_spec join_input inner_of_1 I two_zero_wf (single_wf 2 ltac:(unfold word_ok; lia))).
  - intros x M. destruct (not_member_none x M).
  - reflexivity.
Defined.

Definition sample_semi : SemiInfo := mkSemiInfo true true [96] [RVar 1 1].

Lemma unique_path_spec_witness :
  exists p semi', create_unique_path sample_rel None join_input sample_semi = (Some p, Some p, semi')
    /\ parallel_safe p = true
    /\ forall sub' semi0, create_unique_path sample_rel (Some p) sub' semi0 = (Some p, Some p, semi0).
Proof.
  destruct (create_unique_path sample_rel None join_input sample_semi) as [[r cache] semi'] eqn:E.
  destruct (unique_path_spec sample_rel join_input sample_semi _ _ _ E) as (-> & K & N & _ & U).
  destruct r as [p|]; [|exfalso; destruct (proj1 N eq_refl) as [B _]; discriminate B].
  exists p, semi'. split; [reflexivity|]. split; [apply U; reflexivity|]. intros. apply K. discriminate.
Defined.

Lemma sample_upper_input : upper_input join_input sample_target 1 (i2d 10).
Proof.
  split; [exact sample_costed|reflexivity|cbn; lia|split; reflexivity|repeat constructor|lia|reflexivity].
Qed.

Lemma upper_paths_costed_witness :
  costed (create_sort_path sample_rel join_input [] (i2d (-1)))
  /\ costed (create_agg_path sample_rel join_input sample_target AGG_HASHED 1 [] None (i2d 10))
  /\ costed (create_limit_path sample_rel join_input None None 5 20).
Proof.
  edestruct (upper_paths_costed default_settings_ok sample_rel join_input join_input sample_target 1 (i2d 10) [] (i2d (-1))
    [] AGG_HASHED None (i2d 10) None None 5 20 [] []) as ([U1 _] & _ & _ & U4 & _ & _ & _ & U8 & _).
  - exact sample_upper_input.
  - exact sample_costed.
  - left. reflexivity.
  - split; reflexivity.
  - reflexivity.
  - reflexivity.
  - left. discriminate.
  - constructor.
  - constructor.
  - constructor.
  - split; [exact U1|]. split; [exact U4|exact U8].
Defined.

Definition empty_store : ParamStore := fun _ => no_params.

Lemma reparameterize_path_spec_witness :
  exists p store', reparameterize_path sample_root (sample_path (i2d 1) (i2d 10) (i2d 40)) (Some [4]) (i2d 1) empty_store
      = Ok (Some p, store')
    /\ store_wf store' /\ reparameterized (Some [4]) (sample_path (i2d 1) (i2d 10) (i2d 40)) p.
Proof.
  destruct (reparameterize_path sample_root (sample_path (i2d 1) (i2d 10) (i2d 40)) (Some [4]) (i2d 1) empty_store)
    as [[[p|] store']|] eqn:E; try (vm_compute in E; discriminate E).
  exists p, store'. split; [reflexivity|].
  destruct (reparameterize_path_spec sample_root (Some [4]) (i2d 1) four_wf _ empty_store _ store' (fun _ => no_params_wf) E)
    as (_ & W & R). auto.
Defined.

(** Power counts half. *)
Definition power_settings : Settings := {|
  seq_page_cost := seq_page_cost; random_page_cost := random_page_cost; cpu_tuple_cost := cpu_tuple_cost;
  cpu_index_tuple_cost := cpu_index_tuple_cost; cpu_operator_cost := cpu_operator_cost;
  parallel_tuple_cost := parallel_tuple_cost; parallel_setup_cost := parallel_setup_cost;
  effective_cache_size := effective_cache_size; disable_cost := disable_cost;
  max_parallel_workers_per_gather := max_parallel_workers_per_gather;
  min_parallel_table_scan_size := min_parallel_table_scan_size;
  min_parallel_index_scan_size := min_parallel_index_scan_size; work_mem := work_mem;
  enable_seqscan := true; enable_indexscan := true; enable_indexonlyscan := true; enable_bitmapscan := true;
  enable_tidscan := true; enable_sort := true; enable_hashagg := true; enable_nestloop := true;
  enable_material := true; enable_mergejoin := true; enable_hashjoin := true; enable_gathermerge := true;
  time_weight := dlit 1 2; power_weight := dlit 1 2 |}.

#[local] Existing Instance power_settings.

(** A LIMIT over a path that costs ten billion beats a path of cost ten. *)
Definition dear_path : Path := sample_path (i2d 1) (i2d (10 ^ 10)) (i2d 79).

Lemma zero_energy_paths_win_witness :
  compare_path_costs (create_limit_path sample_rel dear_path None None 0 0) join_input TOTAL_COST = -1
  /\ compare_path_costs (create_limit_path sample_rel dear_path None None 0 0) (create_limit_path sample_rel join_input None None 0 0) TOTAL_COST = 0.
Proof.
  pose proof (unpowered_limit sample_rel dear_path None None 0 0) as U1. pose proof (unpowered_limit sample_rel join_input None None 0 0) as U2.
  destruct (zero_energy_paths_win (create_limit_path sample_rel dear_path None None 0 0) join_input) as (_ & W & _);
    [vm_compute; reflexivity|exact U1|vm_compute; reflexivity|].
  destruct (zero_energy_paths_win (create_limit_path sample_rel dear_path None None 0 0) (create_limit_path sample_rel join_input None None 0 0))
    as (_ & _ & T); [vm_compute; reflexivity|exact U1|vm_compute; reflexivity|].
  split.
  - exact (proj1 (W ltac:(vm_compute; reflexivity))).
  - rewrite (T U2 ltac:(vm_compute; reflexivity)). vm_compute. reflexivity.
Defined.
