(* ===== verification/PlanCosts.v ===== *)
(** The costs of finished plans (optimizer/plan/createplan.c, subselect.c): how the plan
    nodes are labelled with the costs and the power of their paths, and how the paths of
    a query are charged for its initplans. *)
From stdpp Require Import sorting.
From S2P Require Import Prelude Float64 Double DoubleOrder DoubleDiv Bitmapset PlanTypes Samples Pathkeys PathCompare AddPath CostExpr CostBase CostScan CostScanSpec CostNode.
Open Scope Z_scope.

(** ** Plans *)

(** A SubPlan that runs once, before the plan starts. *)
Record InitPlan := mkInitPlan { ip_startup_cost : Cost; ip_per_call_cost : Cost }.

(** The members of struct Plan that the planner estimates, and its initplans. *)
Record Plan := mkPlan {
  plan_startup_cost : Cost;
  plan_total_cost : Cost;
  plan_io_cost : Cost;
  plan_cpu_cost : Cost;
  plan_power_cost : Cost;
  plan_rows : double;
  plan_width : Z;
  plan_parallel_aware : bool;
  plan_parallel_safe : bool;
  initPlan : list InitPlan;
}.

Section labels.
Context `{Libm, Settings}.

(** The plan node of a path. *)
Definition copy_generic_path_info (src : Path) : Plan :=
  mkPlan (startup_cost src) (total_cost src) (io_cost src) (cpu_cost src) (power_cost src) (rows src) (width (pathtarget src))
    (parallel_aware src) (parallel_safe src) [].

(** A node inserted above another. *)
Definition copy_plan_costsize (src : Plan) : Plan :=
  mkPlan (plan_startup_cost src) (plan_total_cost src) (plan_io_cost src) (plan_cpu_cost src) (plan_power_cost src)
    (plan_rows src) (plan_width src) false (plan_parallel_safe src) [].

(** The cost members of a path, over a plan of the size of [lefttree]. *)
Definition label_from_path (p : Path) (lefttree : Plan) : Plan :=
  mkPlan (startup_cost p) (total_cost p) (io_cost p) (cpu_cost p) (power_cost p) (plan_rows lefttree) (plan_width lefttree)
    false (plan_parallel_safe lefttree) [].

(** [sort_path] is the uninitialized local variable. *)
Definition label_sort_with_costsize (sort_path : Path) (lefttree : Plan) (limit_tuples : double) : Plan :=
  label_from_path (cost_sort sort_path (plan_total_cost lefttree) (plan_rows lefttree) (plan_width lefttree) (i2d 0) work_mem
                     limit_tuples) lefttree.

(** The input of a merge join: a Sort node if it has to be sorted, and for the inner one
    a Material node to shield it from mark and restore. *)
Definition sort_merge_input (sort_path : Path) (sortkeys : list PathKey) (plan : Plan) : Plan :=
  match sortkeys with [] => plan | _ => label_sort_with_costsize sort_path plan (i2d (-1)) end.

Definition materialize_merge_input (materialize_inner : bool) (inner_plan : Plan) : Plan :=
  if materialize_inner then
    let matplan := copy_plan_costsize inner_plan in
    let cost := (cpu_operator_cost * plan_rows matplan)%D in
    let cpu_cost := (plan_cpu_cost matplan + cost)%D in
    mkPlan (plan_startup_cost matplan) (plan_total_cost matplan + cost)%D (plan_io_cost matplan) cpu_cost
      (plan_power_cost matplan + count_power_cost (i2d 0) cpu_cost (i2d 0) 0)%D (plan_rows matplan) (plan_width matplan)
      (plan_parallel_aware matplan) (plan_parallel_safe matplan) (initPlan matplan)
  else inner_plan.

(** The costs make_subqueryscan gives the node before its caller overwrites them. *)
Definition make_subqueryscan_costs (subplan : Plan) : Plan :=
  let plan := copy_plan_costsize subplan in
  let cost := (cpu_tuple_cost * plan_rows subplan)%D in
  mkPlan (plan_startup_cost plan) (plan_total_cost plan + cost)%D (plan_io_cost plan) (plan_cpu_cost plan + cost)%D
    (plan_power_cost plan + count_power_cost (i2d 0) cost (i2d 0) 0)%D (plan_rows plan) (plan_width plan)
    (plan_parallel_aware plan) (plan_parallel_safe plan) (initPlan plan).

(** The Material node takes over the initplans of the finished plan. *)
Definition materialize_finished_plan (matpath : Path) (subplan : Plan) : Plan * Plan :=
  let p := cost_material matpath (plan_startup_cost subplan) (plan_total_cost subplan) (plan_rows subplan) (plan_width subplan) in
  (mkPlan (startup_cost p) (total_cost p) (io_cost p) (cpu_cost p) (power_cost p) (plan_rows subplan) (plan_width subplan)
     false (plan_parallel_safe subplan) (initPlan subplan),
   mkPlan (plan_startup_cost subplan) (plan_total_cost subplan) (plan_io_cost subplan) (plan_cpu_cost subplan) (plan_power_cost subplan)
     (plan_rows subplan) (plan_width subplan) (plan_parallel_aware subplan) (plan_parallel_safe subplan) []).

(** create_bitmap_subplan: the nodes of a BitmapAnd or BitmapOr and of an index. *)
Definition bitmap_combine_plan (path : Path) (bitmapselectivity : Selectivity) : Plan :=
  mkPlan (startup_cost path) (total_cost path) (io_cost path) (cpu_cost path) (power_cost path)
    (clamp_row_est (bitmapselectivity * tuples (parent path))%D) 0 false (parallel_safe path) [].

Definition bitmap_index_plan (path : Path) (indextotalcost : Cost) (indexselectivity : Selectivity) : Plan :=
  mkPlan (i2d 0) indextotalcost (i2d 0) (i2d 0) (i2d 0)
    (clamp_row_est (indexselectivity * tuples (parent path))%D) 0 false (parallel_safe path) [].

(** ** Initplans *)

Definition initplan_cost (init_plans : list InitPlan) : Cost :=
  foldl (fun c sp => (c + (ip_startup_cost sp + ip_per_call_cost sp))%D) (i2d 0) init_plans.

(** One path of the final relation. *)
Definition charge_path (c : Cost) (path : Path) : Path :=
  {| pathtype := pathtype path; parent := parent path; pathtarget := pathtarget path; param_info := param_info path;
     parallel_aware := parallel_aware path; parallel_safe := false; parallel_workers := parallel_workers path; rows := rows path;
     startup_cost := (startup_cost path + c)%D; total_cost := (total_cost path + c)%D;
     io_cost := (io_cost path + c)%D; cpu_cost := (cpu_cost path + c)%D; power_cost := (power_cost path + c)%D;
     pathkeys := pathkeys path; extra := extra path |}.

Definition SS_charge_for_initplans (init_plans : list InitPlan) (final_rel : RelPaths) : RelPaths :=
  match init_plans with
  | [] => final_rel
  | _ => set_pathlist final_rel (map (charge_path (initplan_cost init_plans)) (pathlist final_rel))
  end.

End labels.

(** ** Properties *)

Section spec.
Context `{Libm, Settings} (So : settings_ok).

(** The costs of a plan: not negative, and the startup cost within the total cost. *)
Record plan_costed (p : Plan) : Prop := {
  pc_startup : nonneg (plan_startup_cost p) = true;
  pc_ordered : plan_startup_cost p ⊑ plan_total_cost p;
  pc_total : nonneg (plan_total_cost p) = true;
  pc_rows : nonneg (plan_rows p) = true;
  pc_count : isnan (plan_rows p) = false;
  pc_width : 0 <= plan_width p;
}.

Lemma path_plan_costed p : costed p -> isnan (rows p) = false -> 0 <= width (pathtarget p) -> plan_costed (copy_generic_path_info p).
Proof. intros [R S O T _] N W. split; assumption. Qed.

(** The nodes that createplan.c inserts below a merge join keep the size and the parallel
    safety of their input, cost at least as much, and have ordered costs; what a plan is
    labelled with never contradicts the path it was made from. *)
Lemma merge_input_labels `{!LibmOrder} sp keys mat plan : plan_costed plan ->
  let plan' := materialize_merge_input mat (sort_merge_input sp keys plan) in
  plan_costed plan' /\ plan_total_cost plan ⊑ plan_total_cost plan'
  /\ plan_rows plan' = plan_rows plan /\ plan_width plan' = plan_width plan /\ plan_parallel_safe plan' = plan_parallel_safe plan.
Proof.
  intros C. assert (let s := sort_merge_input sp keys plan in plan_costed s /\ plan_total_cost plan ⊑ plan_total_cost s
    /\ plan_rows s = plan_rows plan /\ plan_width s = plan_width plan /\ plan_parallel_safe s = plan_parallel_safe plan) as Hs.
  { unfold sort_merge_input. destruct keys; [split_and!; (exact C || reflexivity)|]. destruct C as [S O T R N W].
    destruct (cost_sort_ok So sp (plan_total_cost plan) (plan_rows plan) (plan_width plan) (i2d 0) work_mem (i2d (-1)))
      as ([_ S' O' T' _] & _ & L & _); try assumption; [reflexivity|pose proof (work_mem_ok So); lia|left; reflexivity|].
    split_and!; try reflexivity; [split; assumption|]. cbn. etransitivity; [exact L|exact O']. }
  cbv zeta in Hs. destruct Hs as ([S O T R N W] & L & Er & Ew & Es). unfold materialize_merge_input.
  destruct mat; [|split_and!; try assumption; split; assumption]. set (s := sort_merge_input sp keys plan) in *.
  assert (nonneg (cpu_operator_cost * plan_rows s)%D = true) as Hc by (pose proof (proj1 (cpu_operator_cost_ok So)); auto with nneg).
  split_and!; [|cbn; etransitivity; [exact L|apply cle_add_l; assumption]|assumption..]. split; cbn; try assumption.
  - etransitivity; [exact O|apply cle_add_l; assumption].
  - auto with nneg.
Qed.

(** ** Initplans *)

Lemma initplan_cost_nonneg l : Forall (fun sp => nonneg (ip_startup_cost sp) = true /\ nonneg (ip_per_call_cost sp) = true) l ->
  nonneg (initplan_cost l) = true.
Proof.
  unfold initplan_cost. assert (nonneg (i2d 0) = true) as Z0 by reflexivity. revert Z0. generalize (i2d 0).
  induction l as [|sp l IH]; intros c Hc F; [exact Hc|]. apply Forall_cons in F as [[H1 H2] F]. cbn [foldl]. apply IH; [auto with nneg|exact F].
Qed.

(** C27: SS_charge_for_initplans adds the cost of the initplans to every path of the final
    relation: the list has the same paths in the same order and is still sorted by total
    cost, startup costs stay within total costs, and no path may run in a worker any more.
    But the sum is also added to the power of the path, which is in watts: initplans of
    cost more than 80 take every path over the 80 W no single node exceeds. *)
Theorem initplan_charge_spec init_plans rel : init_plans <> [] ->
  Forall (fun sp => nonneg (ip_startup_cost sp) = true /\ nonneg (ip_per_call_cost sp) = true) init_plans ->
  Forall costed (pathlist rel) -> key_sorted total_key (pathlist rel) ->
  let c := initplan_cost init_plans in
  let l := pathlist (SS_charge_for_initplans init_plans rel) in
  length l = length (pathlist rel) /\ key_sorted total_key l
  /\ (forall i p, pathlist rel !! i = Some p -> exists p', l !! i = Some p'
       /\ parallel_safe p' = false /\ rows p' = rows p /\ pathkeys p' = pathkeys p
       /\ nonneg (startup_cost p') = true /\ startup_cost p' ⊑ total_cost p' /\ total_cost p ⊑ total_cost p'
       /\ (nonneg (power_cost p) = true -> isnan (power_cost p) = false -> isnan c = false ->
           (c >? i2d 80)%D = true -> (power_cost p' >? i2d 80)%D = true)).
Proof.
  intros Ne Hi Hc Hs c l. pose proof (initplan_cost_nonneg init_plans Hi) as Cn. fold c in Cn.
  assert (l = map (charge_path c) (pathlist rel)) as -> by (subst l c; destruct init_plans; [done|reflexivity]).
  split; [apply length_map|]. split; [|intros i p Hp; exists (charge_path c p); split; [apply list_lookup_fmap_Some; eauto|]].
  - clear -Hc Hs Cn. unfold key_sorted in *. induction Hs as [|p l Hs IH Hp]; cbn [map]; [constructor|].
    apply Forall_cons in Hc as [Cp Cl]. constructor; [exact (IH Cl)|]. apply Forall_forall. intros q' Hq. apply list_elem_of_fmap in Hq as (q & -> & Hq).
    rewrite Forall_forall in Cl, Hp. specialize (Hp q Hq). destruct (Cl q Hq) as [_ _ _ Tq _], Cp as [_ _ _ Tp _].
    unfold total_key in *. cbn. rewrite !sval_nonneg in * by (auto with nneg). apply cle_add; auto; reflexivity.
  - rewrite Forall_forall in Hc. destruct (Hc p (list_elem_of_lookup_2 _ _ _ Hp)) as [_ S O T _]. cbn. split_and!; try reflexivity.
    + auto with nneg.
    + apply cle_add; auto; reflexivity.
    + apply cle_add_l; assumption.
    + intros Pn Np Nc G. rewrite dlt_iff in * by (auto with nneg). destruct G as [G _]. split.
      * pose proof (cle_add_r c (power_cost p) Cn Pn) as L. unfold cle in L. lia.
      * rewrite isnan_add, Np, Nc by assumption. reflexivity.
Qed.

End spec.

(** ** Concrete inputs *)

#[local] Existing Instance default_settings.

(** A query with one initplan of cost 100. *)
Lemma initplan_charge_spec_witness :
  let rel := mkRelPaths [sample_path (i2d 0) (i2d 10) (i2d 40)] [] None None None [] in
  map total_cost (pathlist (SS_charge_for_initplans [mkInitPlan (i2d 40) (i2d 60)] rel)) = [i2d 110]
  /\ exists p, pathlist (SS_charge_for_initplans [mkInitPlan (i2d 40) (i2d 60)] rel) !! 0%nat = Some p
     /\ (power_cost p >? i2d 80)%D = true.
Proof.
  set (p := sample_path (i2d 0) (i2d 10) (i2d 40)). intros rel. split.
  { assert (initplan_cost [mkInitPlan (i2d 40) (i2d 60)] = i2d 100) as E by (apply double_eq; vm_compute; reflexivity).
    cbn [SS_charge_for_initplans pathlist set_pathlist rel map]. rewrite E. reflexivity. }
  destruct (initplan_charge_spec [mkInitPlan (i2d 40) (i2d 60)] rel) as (_ & _ & F).
  - discriminate.
  - repeat constructor.
  - constructor; [|constructor]. split; cbn; try reflexivity. apply cle_i2d; lia.
  - repeat constructor.
  - destruct (F 0%nat p eq_refl) as (p' & Hp' & _ & _ & _ & _ & _ & _ & G). exists p'. split; [exact Hp'|].
    apply G; vm_compute; reflexivity.
Defined.

(** A Material node below a merge join adds its watts to those of its input: above an
    input of 60 W the label exceeds the cap of 80 W that count_power_cost keeps. *)
Lemma material_power_exceeds_cap :
  let plan := mkPlan (i2d 0) (i2d 10) (i2d 0) (i2d 10) (i2d 60) (i2d 1000) 8 false true [] in
  (plan_power_cost (materialize_merge_input true plan) >? i2d 80)%D = true.
Proof. vm_compute. reflexivity. Qed.
