(* ===== verification/MergeKeys.v ===== *)
(** Path keys and merge clauses (optimizer/path/pathkeys.c): canonical path keys,
    the merge clauses an ordering allows, the orderings a merge join asks of its
    inputs, and the path keys that are worth keeping. *)
From stdpp Require Import gmap.
From S2P Require Import Prelude Double Bitmapset PlanTypes Pathkeys.
Open Scope Z_scope.

(** ** Equivalence classes *)

Record EquivalenceMember := mkMember {
  em_relids : Relids;
  em_is_const : bool;
  em_is_child : bool;
}.

Record EquivalenceClass := mkEClass {
  ec_opfamilies : list Oid;
  ec_members : list EquivalenceMember;
  ec_relids : Relids;
  ec_has_const : bool;
  ec_below_outer_join : bool;
  ec_merged : option Z;
}.

(** The equivalence classes of the query, by address; they are frozen when paths
    are built. *)
Class EClasses := { eclasses : gmap Z EquivalenceClass }.

Definition null_eclass : EquivalenceClass := mkEClass [] [] None false false None.

(** The members of a RelOptInfo the merge routines read. *)
Record RelMerge := mkRelMerge {
  has_eclass_joins : bool;
  top_parent_relids : Relids;
}.

Definition BTLessStrategyNumber : Z := 1.

(** The clause with its cached links and its side set. *)
Definition set_join (r : RestrictInfo) (jc : JoinClause) : RestrictInfo :=
  let (ptr, cl, pd, pc, cr, outr, nr, lr, rr, oc, ec, cost, lb, rb, _) := r in
  mkRestrictInfo ptr cl pd pc cr outr nr lr rr oc ec cost lb rb jc.

Section merge.
Context `{EClasses}.

Definition eclass (ec : Z) : EquivalenceClass := default null_eclass (eclasses !! ec).

Definition EC_MUST_BE_REDUNDANT (ec : Z) : bool :=
  ec_has_const (eclass ec) && negb (ec_below_outer_join (eclass ec)).

(** [while (ec->ec_merged) ec = ec->ec_merged]. *)
Fixpoint chase_merged (fuel : nat) (ec : Z) : Z :=
  match fuel with
  | O => ec
  | S fuel => match ec_merged (eclass ec) with Some ec' => chase_merged fuel ec' | None => ec end
  end.

(** No chain of merged classes is longer than the number of classes. *)
Definition canonical_ec (ec : Z) : Z := chase_merged (size eclasses) ec.

(** ** Canonical path keys *)

(** An address no canonical path key has. *)
Definition fresh_ptr (canon_pathkeys : list PathKey) : Z := 1 + foldr Z.max 0 (map pk_ptr canon_pathkeys).

Definition pathkey_matches (ec opfamily strategy : Z) (nulls_first : bool) (pk : PathKey) : bool :=
  (ec =? pk_eclass pk) && (opfamily =? pk_opfamily pk) && (strategy =? pk_strategy pk)
  && eqb nulls_first (pk_nulls_first pk).

(** The path key and root->canon_pathkeys. *)
Definition make_canonical_pathkey (canon_pathkeys : list PathKey) (ec opfamily strategy : Z) (nulls_first : bool)
    : PathKey * list PathKey :=
  let ec := canonical_ec ec in
  match List.find (pathkey_matches ec opfamily strategy nulls_first) canon_pathkeys with
  | Some pk => (pk, canon_pathkeys)
  | None =>
      let pk := mkPathKey (fresh_ptr canon_pathkeys) ec opfamily strategy nulls_first in
      (pk, canon_pathkeys ++ [pk])
  end.

Definition pathkey_is_redundant (new_pathkey : PathKey) (pathkeys : list PathKey) : bool :=
  let new_ec := pk_eclass new_pathkey in
  if EC_MUST_BE_REDUNDANT new_ec then true
  else existsb (fun old_pathkey => new_ec =? pk_eclass old_pathkey) pathkeys.

(** ** Merge clauses *)

Definition update_mergeclause_eclasses (r : RestrictInfo) : RestrictInfo :=
  let jc := ri_join r in
  set_join r (mkJoinClause (jc_can_join jc) (jc_mergeopfamilies jc) (jc_hashjoinoperator jc)
                (canonical_ec (jc_left_ec jc)) (canonical_ec (jc_right_ec jc)) (jc_outer_is_left jc)
                (jc_required_relids jc)).

Definition outer_ec (rinfo : RestrictInfo) : Z := if outer_is_left rinfo then left_ec rinfo else right_ec rinfo.
Definition inner_ec (rinfo : RestrictInfo) : Z := if outer_is_left rinfo then right_ec rinfo else left_ec rinfo.

(** The clauses that match a path key, all of them. *)
Definition matched_restrictinfos (pathkey : PathKey) (restrictinfos : list RestrictInfo) : list RestrictInfo :=
  List.filter (fun rinfo => outer_ec rinfo =? pk_eclass pathkey) restrictinfos.

(** The loop over the path keys, which ends at one without clauses. *)
Fixpoint mergeclauses_loop (pathkeys : list PathKey) (restrictinfos mergeclauses : list RestrictInfo)
    : list RestrictInfo :=
  match pathkeys with
  | [] => mergeclauses
  | pathkey :: pathkeys =>
      match matched_restrictinfos pathkey restrictinfos with
      | [] => mergeclauses
      | matched => mergeclauses_loop pathkeys restrictinfos (mergeclauses ++ matched)
      end
  end.

Definition find_mergeclauses_for_outer_pathkeys (pathkeys : list PathKey) (restrictinfos : list RestrictInfo)
    : list RestrictInfo :=
  mergeclauses_loop pathkeys (map update_mergeclause_eclasses restrictinfos) [].

(** Members that may be joined to later. *)
Definition popularity (joinrelids : Relids) (ec : Z) : Z :=
  Z.of_nat (length (List.filter (fun em => negb (em_is_const em) && negb (em_is_child em)
                                           && negb (bms_overlap (em_relids em) joinrelids))
                      (ec_members (eclass ec)))).

(** The arrays [ecs] and [scores], without duplicates. *)
Fixpoint scored_ecs (joinrelids : Relids) (mergeclauses : list RestrictInfo) (ecs : list (Z * Z)) : list (Z * Z) :=
  match mergeclauses with
  | [] => ecs
  | rinfo :: mergeclauses =>
      let oeclass := outer_ec (update_mergeclause_eclasses rinfo) in
      if existsb (fun e => e.1 =? oeclass) ecs then scored_ecs joinrelids mergeclauses ecs
      else scored_ecs joinrelids mergeclauses (ecs ++ [(oeclass, popularity joinrelids oeclass)])
  end.

(** [scores[j] = -1] for the first entry of the class. *)
Fixpoint mark_emitted (ec : Z) (ecs : list (Z * Z)) : list (Z * Z) :=
  match ecs with
  | [] => []
  | (e, s) :: ecs => if e =? ec then (e, -1) :: ecs else (e, s) :: mark_emitted ec ecs
  end.

(** The first position of the largest score, from the position [j] on. *)
Fixpoint best_from (j best_j : nat) (best_score : Z) (ecs : list (Z * Z)) : nat * Z :=
  match ecs with
  | [] => (best_j, best_score)
  | (_, s) :: ecs => if (s >? best_score)%Z then best_from (S j) j s ecs else best_from (S j) best_j best_score ecs
  end.

(** The remaining classes in the order of their popularity. *)
Fixpoint popularity_loop (fuel : nat) (ecs : list (Z * Z)) (canon pathkeys : list PathKey)
    : result (list PathKey * list PathKey) :=
  match fuel, ecs with
  | S fuel, (_, score) :: rest =>
      let (best_j, best_score) := best_from 1 0 score rest in
      if best_score <? 0 then Ok (pathkeys, canon)
      else
        match ecs !! best_j with
        | Some (ec, _) =>
            let (pathkey, canon) :=
              make_canonical_pathkey canon ec (hd 0 (ec_opfamilies (eclass ec))) BTLessStrategyNumber false in
            let! _ := Assert (negb (pathkey_is_redundant pathkey pathkeys)) in
            popularity_loop fuel (<[best_j := (ec, -1)]> ecs) canon (pathkeys ++ [pathkey])
        | None => Ok (pathkeys, canon)
        end
  | _, _ => Ok (pathkeys, canon)
  end.

(** The path keys and root->canon_pathkeys; every round of the last loop emits a class. *)
Definition select_outer_pathkeys_for_merge (query_pathkeys : list PathKey) (canon : list PathKey)
    (mergeclauses : list RestrictInfo) (joinrelids : Relids) : result (list PathKey * list PathKey) :=
  match mergeclauses with
  | [] => Ok ([], canon)
  | _ =>
      let ecs := scored_ecs joinrelids mergeclauses [] in
      let (pathkeys, ecs) :=
        if forallb (fun pk => existsb (fun e => e.1 =? pk_eclass pk) ecs) query_pathkeys
        then (query_pathkeys, foldl (fun ecs pk => mark_emitted (pk_eclass pk) ecs) ecs query_pathkeys)
        else ([], ecs) in
      popularity_loop (S (length ecs)) ecs canon pathkeys
  end.

(** The outer path key of a clause: the last one or the next of the outer path keys. *)
Definition next_opathkey (oeclass : Z) (opathkey : option PathKey) (lop : list PathKey)
    : result (PathKey * list PathKey) :=
  let next :=
    match lop with
    | [] => Error "too few pathkeys for mergeclauses"
    | pk :: lop => if oeclass =? pk_eclass pk then Ok (pk, lop)
                   else Error "outer pathkeys do not match mergeclause"
    end in
  match opathkey with
  | Some pk => if oeclass =? pk_eclass pk then Ok (pk, lop) else next
  | None => next
  end.

(** The loop over the merge clauses: [opathkey] is the path key of the last clause and
    [lop] the outer path keys still to come. *)
Fixpoint inner_pathkeys_loop (mergeclauses : list RestrictInfo) (opathkey : option PathKey) (lop canon pathkeys : list PathKey)
    : result (list PathKey * list PathKey) :=
  match mergeclauses with
  | [] => Ok (pathkeys, canon)
  | rinfo :: mergeclauses =>
      let rinfo := update_mergeclause_eclasses rinfo in
      let oeclass := outer_ec rinfo in
      let ieclass := inner_ec rinfo in
      let! (opathkey, lop) := next_opathkey oeclass opathkey lop in
      let (pathkey, canon) :=
        if ieclass =? oeclass then (opathkey, canon)
        else make_canonical_pathkey canon ieclass (pk_opfamily opathkey) (pk_strategy opathkey)
               (pk_nulls_first opathkey) in
      inner_pathkeys_loop mergeclauses (Some opathkey) lop canon
        (if pathkey_is_redundant pathkey pathkeys then pathkeys else pathkeys ++ [pathkey])
  end.

Definition make_inner_pathkeys_for_merge (canon : list PathKey) (mergeclauses : list RestrictInfo)
    (outer_pathkeys : list PathKey) : result (list PathKey * list PathKey) :=
  inner_pathkeys_loop mergeclauses None outer_pathkeys canon [].

(** [matched] tells whether a clause matched the current path key. *)
Fixpoint trim_loop (mergeclauses : list RestrictInfo) (pathkey_ec : Z) (lip : list PathKey) (matched : bool)
    (new_mergeclauses : list RestrictInfo) : list RestrictInfo :=
  match mergeclauses with
  | [] => new_mergeclauses
  | rinfo :: mergeclauses =>
      let clause_ec := inner_ec rinfo in
      if clause_ec =? pathkey_ec then trim_loop mergeclauses pathkey_ec lip true (new_mergeclauses ++ [rinfo])
      else if negb matched then new_mergeclauses
      else match lip with
           | [] => new_mergeclauses
           | pathkey :: lip =>
               if clause_ec =? pk_eclass pathkey
               then trim_loop mergeclauses (pk_eclass pathkey) lip true (new_mergeclauses ++ [rinfo])
               else new_mergeclauses
           end
  end.

Definition trim_mergeclauses_for_inner_pathkeys (mergeclauses : list RestrictInfo) (pathkeys : list PathKey)
    : list RestrictInfo :=
  match pathkeys with
  | [] => []
  | pathkey :: lip => trim_loop mergeclauses (pk_eclass pathkey) lip false []
  end.

(** ** Useful path keys *)

(** eclass_useful_for_merging (optimizer/path/equivclass.c). *)
Definition eclass_useful_for_merging (ec : Z) (rel : RelOptInfo) (rm : RelMerge) : bool :=
  if ec_has_const (eclass ec) || (length (ec_members (eclass ec)) <=? 1)%nat then false
  else
    let relids := if bool_decide (reloptkind rel = RELOPT_OTHER_MEMBER_REL) then top_parent_relids rm else relids rel in
    if bms_is_subset (ec_relids (eclass ec)) relids then false
    else existsb (fun em => negb (em_is_child em) && negb (bms_overlap (em_relids em) relids)) (ec_members (eclass ec)).

Definition right_merge_direction (query_pathkeys : list PathKey) (pathkey : PathKey) : bool :=
  match List.find (fun q => (pk_eclass pathkey =? pk_eclass q) && (pk_opfamily pathkey =? pk_opfamily q)) query_pathkeys with
  | Some query_pathkey => pk_strategy pathkey =? pk_strategy query_pathkey
  | None => pk_strategy pathkey =? BTLessStrategyNumber
  end.

(** A join clause of the relation has the path key's class on one side. *)
Definition joininfo_matches (joininfo : list RestrictInfo) (pathkey : PathKey) : bool :=
  existsb (fun r => negb (bool_decide (mergeopfamilies r = []))
                    && (let r := update_mergeclause_eclasses r in
                        (pk_eclass pathkey =? left_ec r) || (pk_eclass pathkey =? right_ec r))) joininfo.

Fixpoint pathkeys_useful_for_merging (query_pathkeys : list PathKey) (rel : RelOptInfo) (rm : RelMerge)
    (joininfo : list RestrictInfo) (pathkeys : list PathKey) : nat :=
  match pathkeys with
  | [] => O
  | pathkey :: pathkeys =>
      if negb (right_merge_direction query_pathkeys pathkey) then O
      else if (has_eclass_joins rm && eclass_useful_for_merging (pk_eclass pathkey) rel rm)
              || joininfo_matches joininfo pathkey
      then S (pathkeys_useful_for_merging query_pathkeys rel rm joininfo pathkeys)
      else O
  end.

Definition pathkeys_useful_for_ordering (query_pathkeys pathkeys : list PathKey) : nat :=
  match query_pathkeys, pathkeys with
  | [], _ | _, [] => O
  | _, _ => if pathkeys_contained_in query_pathkeys pathkeys then length query_pathkeys else O
  end.

Definition truncate_useless_pathkeys (query_pathkeys : list PathKey) (rel : RelOptInfo) (rm : RelMerge)
    (joininfo : list RestrictInfo) (pathkeys : list PathKey) : list PathKey :=
  let nuseful := pathkeys_useful_for_merging query_pathkeys rel rm joininfo pathkeys in
  let nuseful2 := pathkeys_useful_for_ordering query_pathkeys pathkeys in
  take (Nat.max nuseful nuseful2) pathkeys.

Definition has_useful_pathkeys (query_pathkeys : list PathKey) (rm : RelMerge) (joininfo : list RestrictInfo) : bool :=
  negb (bool_decide (joininfo = [])) || has_eclass_joins rm || negb (bool_decide (query_pathkeys = [])).

Definition build_join_pathkeys (query_pathkeys : list PathKey) (joinrel : RelOptInfo) (rm : RelMerge)
    (joininfo : list RestrictInfo) (jointype : JoinType) (outer_pathkeys : list PathKey) : list PathKey :=
  match jointype with
  | JOIN_FULL | JOIN_RIGHT => []
  | _ => truncate_useless_pathkeys query_pathkeys joinrel rm joininfo outer_pathkeys
  end.

End merge.
