(* ===== verification/MergeKeysSpec.v ===== *)
(** What the path key routines of merge joins guarantee: canonical path keys are
    compared by address, the clauses chosen for an ordering follow it, the inner
    ordering can always be made for them, and no clause is lost. *)
From stdpp Require Import gmap sorting.
From S2P Require Import Prelude Double Bitmapset PlanTypes Pathkeys MergeKeys.
Open Scope Z_scope.

Section spec.
Context `{EClasses}.

(** ** Merged equivalence classes *)

(** The links of merged classes do not form cycles. *)
Definition ec_forest : Prop := exists rank : Z -> nat,
  forall ec ec', ec_merged (eclass ec) = Some ec' -> (rank ec' < rank ec <= size eclasses)%nat.

Lemma chase_unmerged fuel ec : ec_merged (eclass ec) = None -> chase_merged fuel ec = ec.
Proof. intros E. destruct fuel; cbn [chase_merged]; [|rewrite E]; reflexivity. Qed.

Lemma chase_merged_top (rank : Z -> nat) :
  (forall ec ec', ec_merged (eclass ec) = Some ec' -> (rank ec' < rank ec)%nat) ->
  forall fuel ec, (rank ec <= fuel)%nat -> ec_merged (eclass (chase_merged fuel ec)) = None.
Proof.
  intros Hr fuel. induction fuel as [|fuel IH]; intros ec Hf; cbn [chase_merged].
  - destruct (ec_merged (eclass ec)) as [ec'|] eqn:E; [apply Hr in E; lia|reflexivity].
  - destruct (ec_merged (eclass ec)) as [ec'|] eqn:E; [|exact E]. apply IH. apply Hr in E. lia.
Qed.

Lemma canonical_unmerged ec : ec_forest -> ec_merged (eclass (canonical_ec ec)) = None.
Proof.
  intros [rank Hr]. unfold canonical_ec. destruct (ec_merged (eclass ec)) as [ec'|] eqn:E.
  - apply (chase_merged_top rank); [|apply Hr in E; lia]. intros e e' M. apply Hr in M. lia.
  - rewrite chase_unmerged by exact E. exact E.
Qed.

Lemma canonical_idem ec : ec_forest -> canonical_ec (canonical_ec ec) = canonical_ec ec.
Proof. intros F. apply chase_unmerged, canonical_unmerged, F. Qed.

(** A clause whose links are up to date. *)
Definition linked (r : RestrictInfo) : Prop := update_mergeclause_eclasses r = r.

Lemma set_join_join r jc : ri_join (set_join r jc) = jc.
Proof. destruct r; reflexivity. Qed.

Lemma set_join_twice r jc jc' : set_join (set_join r jc) jc' = set_join r jc'.
Proof. destruct r; reflexivity. Qed.

Lemma update_linked r : ec_forest -> linked (update_mergeclause_eclasses r).
Proof.
  intros F. unfold linked, update_mergeclause_eclasses at 1. unfold update_mergeclause_eclasses.
  rewrite set_join_twice, set_join_join. cbn [jc_can_join jc_mergeopfamilies jc_hashjoinoperator jc_left_ec jc_right_ec jc_outer_is_left].
  rewrite !canonical_idem by exact F. reflexivity.
Qed.

Lemma map_linked l : Forall linked l -> map update_mergeclause_eclasses l = l.
Proof. induction 1 as [|r l Hr _ IH]; cbn [map]; [reflexivity|]. rewrite Hr, IH. reflexivity. Qed.

Lemma linked_ecs r : linked r -> canonical_ec (outer_ec r) = outer_ec r /\ canonical_ec (inner_ec r) = inner_ec r.
Proof.
  intros L. assert (canonical_ec (left_ec r) = left_ec r /\ canonical_ec (right_ec r) = right_ec r) as [L1 L2].
  { unfold linked, update_mergeclause_eclasses in L. apply (f_equal ri_join) in L. rewrite set_join_join in L.
    unfold left_ec, right_ec. destruct (ri_join r). injection L. auto. }
  unfold outer_ec, inner_ec. destruct (outer_is_left r); auto.
Qed.

(** ** Canonical path keys *)

Definition pk_fields (pk : PathKey) : Z * Z * Z * bool :=
  (pk_eclass pk, pk_opfamily pk, pk_strategy pk, pk_nulls_first pk).

(** No address and no combination of members occurs twice; classes are not merged. *)
Record canon_ok (canon : list PathKey) : Prop := {
  ck_ptrs : NoDup (map pk_ptr canon);
  ck_fields : NoDup (map pk_fields canon);
}.

Lemma fresh_ptr_notin canon : fresh_ptr canon ∉ map pk_ptr canon.
Proof.
  intros Hin. assert (forall l x, x ∈ l -> x <= foldr Z.max 0 l) as M.
  { induction 1 as [x l|x y l _ IH]; cbn [foldr]; lia. }
  specialize (M _ _ Hin). unfold fresh_ptr in M. lia.
Qed.

Lemma pathkey_matches_spec ec f s n pk : pathkey_matches ec f s n pk = true <-> pk_fields pk = (ec, f, s, n).
Proof.
  unfold pathkey_matches, pk_fields. rewrite !andb_true_iff, !Z.eqb_eq, eqb_true_iff.
  split; [intros [[[-> ->] ->] ->]; reflexivity|intros [= -> -> -> ->]; auto].
Qed.

Lemma make_canonical_ok canon ec f s n : canon_ok canon ->
  let (pk, canon') := make_canonical_pathkey canon ec f s n in
  canon_ok canon' /\ canon `prefix_of` canon' /\ pk ∈ canon' /\ pk_fields pk = (canonical_ec ec, f, s, n).
Proof.
  intros [Hp Hf]. unfold make_canonical_pathkey.
  destruct (List.find _ canon) as [pk|] eqn:E.
  - apply List.find_some in E as [Hin E]. apply pathkey_matches_spec in E.
    split_and!; [split; assumption|reflexivity|apply list_elem_of_In, Hin|exact E].
  - split_and!; [|eexists; reflexivity|apply elem_of_app; right; left|reflexivity].
    split; rewrite map_app; cbn [map]; apply NoDup_app; (split_and!; [assumption| |apply NoDup_singleton]);
      intros x Hx ->%list_elem_of_singleton; [exact (fresh_ptr_notin canon Hx)|].
    apply list_elem_of_fmap in Hx as (pk & Ef & Hin). apply list_elem_of_In in Hin.
    pose proof (List.find_none _ _ E pk Hin) as N. apply not_true_iff_false in N. apply N.
    apply pathkey_matches_spec. symmetry. exact Ef.
Qed.

Lemma canon_ptr_inj canon p q : canon_ok canon -> p ∈ canon -> q ∈ canon -> pk_ptr p = pk_ptr q -> p = q.
Proof.
  intros [Hp _] Hi Hj E. induction canon as [|k canon IH]; [inversion Hi|].
  cbn [map] in Hp. apply NoDup_cons in Hp as [Hk Hp].
  apply elem_of_cons in Hi as [->|Hi], Hj as [->|Hj]; auto.
  - exfalso. apply Hk. rewrite E. apply list_elem_of_fmap_2, Hj.
  - exfalso. apply Hk. rewrite <- E. apply list_elem_of_fmap_2, Hi.
Qed.

Lemma canon_fields_inj canon p q : canon_ok canon -> p ∈ canon -> q ∈ canon -> pk_fields p = pk_fields q -> p = q.
Proof.
  intros [_ Hp] Hi Hj E. induction canon as [|k canon IH]; [inversion Hi|].
  cbn [map] in Hp. apply NoDup_cons in Hp as [Hk Hp].
  apply elem_of_cons in Hi as [->|Hi], Hj as [->|Hj]; auto.
  - exfalso. apply Hk. rewrite E. apply list_elem_of_fmap_2, Hj.
  - exfalso. apply Hk. rewrite <- E. apply list_elem_of_fmap_2, Hi.
Qed.

(** All keys of a list are canonical. *)
Definition known (canon keys : list PathKey) : Prop := Forall (fun k => k ∈ canon) keys.

Lemma known_prefix canon canon' keys : canon `prefix_of` canon' -> known canon keys -> known canon' keys.
Proof. intros [l ->] K. eapply Forall_impl; [exact K|]. intros k Hk. apply elem_of_app. auto. Qed.

(** On canonical keys the comparison by address is the comparison of the keys. *)
Lemma known_keys_prefix canon k1 k2 : canon_ok canon -> known canon k1 -> known canon k2 ->
  keys_prefix k1 k2 <-> k1 `prefix_of` k2.
Proof.
  intros Hc. unfold keys_prefix. revert k2. induction k1 as [|a k1 IH]; intros k2 K1 K2.
  { split; intros _; apply prefix_nil. }
  destruct k2 as [|b k2].
  { split; intros P; exfalso; apply prefix_nil_not in P; done. }
  apply Forall_cons in K1 as [Ha K1], K2 as [Hb K2]. cbn [map]. split; intros P.
  - pose proof (prefix_cons_inv_1 _ _ _ _ P) as E. apply (canon_ptr_inj canon) in E; [|assumption..]. subst b.
    apply prefix_cons, IH; [assumption..|]. eapply prefix_cons_inv_2, P.
  - pose proof (prefix_cons_inv_1 _ _ _ _ P) as ->. apply prefix_cons, IH; [assumption..|].
    eapply prefix_cons_inv_2, P.
Qed.

(** ** The merge clauses of an ordering *)

(** The longest prefix of the path keys that all have clauses. *)
Fixpoint usable_keys (clauses : list RestrictInfo) (keys : list PathKey) : list PathKey :=
  match keys with
  | [] => []
  | k :: keys =>
      match matched_restrictinfos k clauses with [] => [] | _ => k :: usable_keys clauses keys end
  end.

Definition groups (clauses : list RestrictInfo) (keys : list PathKey) : list RestrictInfo :=
  concat (map (fun k => matched_restrictinfos k clauses) keys).

Lemma mergeclauses_loop_spec clauses keys : forall acc,
  mergeclauses_loop keys clauses acc = acc ++ groups clauses (usable_keys clauses keys).
Proof.
  induction keys as [|k keys IH]; intros acc; cbn [mergeclauses_loop usable_keys].
  - symmetry. apply app_nil_r.
  - destruct (matched_restrictinfos k clauses) as [|r l] eqn:E; [symmetry; apply app_nil_r|].
    rewrite IH. unfold groups. cbn [map concat]. rewrite E, app_assoc. reflexivity.
Qed.

Lemma find_mergeclauses_groups keys clauses : Forall linked clauses ->
  find_mergeclauses_for_outer_pathkeys keys clauses = groups clauses (usable_keys clauses keys).
Proof.
  intros L. unfold find_mergeclauses_for_outer_pathkeys. rewrite map_linked by exact L. apply mergeclauses_loop_spec.
Qed.

Lemma usable_keys_split clauses keys : exists rest, keys = usable_keys clauses keys ++ rest
  /\ Forall (fun k => matched_restrictinfos k clauses <> []) (usable_keys clauses keys)
  /\ match rest with [] => True | k :: _ => matched_restrictinfos k clauses = [] end.
Proof.
  induction keys as [|k keys (rest & E & F & R)]; cbn [usable_keys]; [exists []; auto|].
  destruct (matched_restrictinfos k clauses) as [|r l] eqn:M; [exists (k :: keys); auto|].
  exists rest. split_and!; [cbn [app]; congruence| |exact R]. constructor; [congruence|exact F].
Qed.

Lemma matched_in k clauses r : r ∈ matched_restrictinfos k clauses <-> r ∈ clauses /\ outer_ec r = pk_eclass k.
Proof.
  unfold matched_restrictinfos. rewrite list_elem_of_In, filter_In, <- list_elem_of_In, Z.eqb_eq. reflexivity.
Qed.

Lemma groups_in clauses keys r : r ∈ groups clauses keys <-> r ∈ clauses /\ outer_ec r ∈ map pk_eclass keys.
Proof.
  unfold groups. rewrite list_elem_of_In, in_concat. split.
  - intros (g & Hg & Hr). apply in_map_iff in Hg as (k & <- & Hk). apply list_elem_of_In, matched_in in Hr as [Hr E].
    split; [exact Hr|]. rewrite E. apply list_elem_of_fmap_2, list_elem_of_In, Hk.
  - intros [Hr Hk]. apply list_elem_of_fmap in Hk as (k & E & Hk). exists (matched_restrictinfos k clauses).
    split; [exact (in_map (fun k => matched_restrictinfos k clauses) _ _ (proj1 (list_elem_of_In _ _) Hk))|]. apply list_elem_of_In, matched_in. auto.
Qed.

(** With distinct classes every clause of one of the classes is taken once. *)
Lemma groups_perm clauses keys : NoDup (map pk_eclass keys) ->
  groups clauses keys ≡ₚ filter (fun r => outer_ec r ∈ map pk_eclass keys) clauses.
Proof.
  unfold groups. induction keys as [|k keys IH]; intros N; cbn [map concat].
  { clear. induction clauses as [|r l IHl]; [reflexivity|]. rewrite filter_cons, decide_False by apply not_elem_of_nil. exact IHl. }
  cbn [map] in N. apply NoDup_cons in N as [Nk N]. rewrite (IH N). clear IH. unfold matched_restrictinfos.
  induction clauses as [|r l IHl]; [reflexivity|]. cbn [List.filter]. rewrite !filter_cons.
  destruct (Z.eqb_spec (outer_ec r) (pk_eclass k)) as [E|D].
  - rewrite (decide_False (P := outer_ec r ∈ map pk_eclass keys)) by congruence.
    rewrite decide_True by (rewrite E; left). cbn [app]. f_equiv. exact IHl.
  - destruct (decide (outer_ec r ∈ map pk_eclass keys)) as [I|O].
    + rewrite decide_True by (right; exact I). rewrite <- Permutation_middle. f_equiv. exact IHl.
    + rewrite decide_False by (rewrite elem_of_cons; tauto). exact IHl.
Qed.

Lemma groups_all clauses keys : NoDup (map pk_eclass keys) -> (forall r, r ∈ clauses -> outer_ec r ∈ map pk_eclass keys) ->
  groups clauses keys ≡ₚ clauses.
Proof.
  intros N A. rewrite groups_perm by exact N. clear N. induction clauses as [|r l IH]; [reflexivity|].
  rewrite filter_cons, decide_True by (apply A; left). f_equiv. apply IH. intros x Hx. apply A. right. exact Hx.
Qed.

Lemma usable_all clauses keys : Forall (fun k => pk_eclass k ∈ map outer_ec clauses) keys -> usable_keys clauses keys = keys.
Proof.
  induction 1 as [|k keys Hk _ IH]; cbn [usable_keys]; [reflexivity|]. apply list_elem_of_fmap in Hk as (r & E & Hr).
  assert (r ∈ matched_restrictinfos k clauses) as M by (apply matched_in; auto).
  destruct (matched_restrictinfos k clauses); [inversion M|]. rewrite IH. reflexivity.
Qed.

(** ** The ordering of the inner input *)

(** The clauses follow the outer path keys: a clause belongs to the path key of the
    clause before it, or to the next one. *)
Inductive aligned : option PathKey -> list PathKey -> list RestrictInfo -> Prop :=
| aligned_nil o lop : aligned o lop []
| aligned_same pk lop r mc :
    outer_ec r = pk_eclass pk -> aligned (Some pk) lop mc -> aligned (Some pk) lop (r :: mc)
| aligned_next o pk lop r mc :
    match o with Some p => pk_eclass p <> outer_ec r | None => True end ->
    outer_ec r = pk_eclass pk -> aligned (Some pk) lop mc -> aligned o (pk :: lop) (r :: mc).

Lemma aligned_same_app pk lop g mc : Forall (fun r => outer_ec r = pk_eclass pk) g -> aligned (Some pk) lop mc ->
  aligned (Some pk) lop (g ++ mc).
Proof. induction 1 as [|r g Hr _ IH]; intros A; cbn [app]; [exact A|]. apply aligned_same; auto. Qed.

Lemma groups_aligned clauses rest used : forall o,
  Forall (fun k => matched_restrictinfos k clauses <> []) used ->
  match o with Some p => NoDup (map pk_eclass (p :: used)) | None => NoDup (map pk_eclass used) end ->
  aligned o (used ++ rest) (groups clauses used).
Proof.
  induction used as [|k used IH]; intros o F N; [constructor|]. unfold groups. cbn [map concat app].
  apply Forall_cons in F as [Fk F]. assert (NoDup (map pk_eclass (k :: used))) as Nk.
  { destruct o; [|exact N]. cbn [map] in N. apply NoDup_cons in N as [_ N]. exact N. }
  assert (Forall (fun r => outer_ec r = pk_eclass k) (matched_restrictinfos k clauses)) as G.
  { apply Forall_forall. intros r Hr. apply matched_in in Hr. tauto. }
  destruct (matched_restrictinfos k clauses) as [|r g]; [done|]. apply Forall_cons in G as [Gr G]. cbn [app].
  apply aligned_next; [|exact Gr|apply aligned_same_app; [exact G|exact (IH (Some k) F Nk)]].
  destruct o as [p|]; [|exact I]. cbn [map] in N. apply NoDup_cons in N as [N _]. rewrite Gr. intros E. apply N.
  rewrite E. left.
Qed.

Lemma aligned_prefix o lop mc mc' : aligned o lop mc -> mc' `prefix_of` mc -> aligned o lop mc'.
Proof.
  intros A. revert mc'. induction A as [o lop|pk lop r mc E A IH|o pk lop r mc N E A IH]; intros mc' P.
  - apply prefix_nil_inv in P as ->. constructor.
  - destruct mc' as [|r' mc']; [constructor|]. pose proof (prefix_cons_inv_1 _ _ _ _ P) as ->.
    apply aligned_same; [exact E|]. apply IH. eapply prefix_cons_inv_2, P.
  - destruct mc' as [|r' mc']; [constructor|]. pose proof (prefix_cons_inv_1 _ _ _ _ P) as ->.
    apply aligned_next; [exact N|exact E|]. apply IH. eapply prefix_cons_inv_2, P.
Qed.

(** What the loop keeps: canonical, distinct keys of classes that matter, one for
    every clause seen. *)
Record inner_inv (canon0 : list PathKey) (seen : list RestrictInfo) (canon keys : list PathKey) : Prop := {
  ii_canon : canon_ok canon;
  ii_grow : canon0 `prefix_of` canon;
  ii_known : known canon keys;
  ii_nodup : NoDup (map pk_eclass keys);
  ii_matter : Forall (fun k => EC_MUST_BE_REDUNDANT (pk_eclass k) = false) keys;
  ii_cover : Forall (fun r => EC_MUST_BE_REDUNDANT (inner_ec r) = true \/ inner_ec r ∈ map pk_eclass keys) seen;
}.

Lemma redundant_spec pk keys : pathkey_is_redundant pk keys = true <->
  EC_MUST_BE_REDUNDANT (pk_eclass pk) = true \/ pk_eclass pk ∈ map pk_eclass keys.
Proof.
  unfold pathkey_is_redundant. destruct (EC_MUST_BE_REDUNDANT (pk_eclass pk)); [tauto|].
  rewrite existsb_exists, list_elem_of_fmap. split.
  - intros (k & Hk & E%Z.eqb_eq). right. exists k. split; [exact E|apply list_elem_of_In, Hk].
  - intros [?|(k & E & Hk)]; [done|]. exists k. split; [apply list_elem_of_In, Hk|apply Z.eqb_eq, E].
Qed.

Lemma inner_step canon0 seen canon keys r pk : inner_inv canon0 seen canon keys -> pk ∈ canon -> pk_eclass pk = inner_ec r ->
  inner_inv canon0 (seen ++ [r]) canon (if pathkey_is_redundant pk keys then keys else keys ++ [pk]).
Proof.
  intros [C G K N M S] Hpk Ek. destruct (pathkey_is_redundant pk keys) eqn:R.
  - split; try assumption. apply Forall_app. split; [exact S|]. constructor; [|constructor].
    apply redundant_spec in R. rewrite <- Ek. exact R.
  - apply not_true_iff_false in R. rewrite redundant_spec in R.
    assert (EC_MUST_BE_REDUNDANT (pk_eclass pk) = false) as Rf by (apply not_true_iff_false; tauto).
    split; try assumption; rewrite ?map_app; cbn [map].
    + apply Forall_app. split; [exact K|]. constructor; [exact Hpk|constructor].
    + apply NoDup_app. split_and!; [exact N| |apply NoDup_singleton]. intros x Hx ->%list_elem_of_singleton. tauto.
    + apply Forall_app. split; [exact M|]. constructor; [exact Rf|constructor].
    + apply Forall_app. split.
      * eapply Forall_impl; [exact S|]. cbn. intros x [?|?]; [auto|]. right. apply elem_of_app. auto.
      * constructor; [|constructor]. right. rewrite <- Ek. apply elem_of_app. right. left.
Qed.

(** The path key a clause asks of the inner input. *)
Definition inner_key_of (r : RestrictInfo) (ok pk : PathKey) : Prop :=
  pk_fields pk = (inner_ec r, pk_opfamily ok, pk_strategy ok, pk_nulls_first ok).

Lemma inner_key_ok canon r ok : canon_ok canon -> ok ∈ canon -> linked r -> outer_ec r = pk_eclass ok ->
  let (pk, canon') := if inner_ec r =? outer_ec r then (ok, canon)
                      else make_canonical_pathkey canon (inner_ec r) (pk_opfamily ok) (pk_strategy ok) (pk_nulls_first ok) in
  canon_ok canon' /\ canon `prefix_of` canon' /\ pk ∈ canon' /\ inner_key_of r ok pk.
Proof.
  intros C Ho L E. destruct (Z.eqb_spec (inner_ec r) (outer_ec r)) as [Ei|].
  - split_and!; [exact C|reflexivity|exact Ho|]. unfold inner_key_of, pk_fields. congruence.
  - pose proof (make_canonical_ok canon (inner_ec r) (pk_opfamily ok) (pk_strategy ok) (pk_nulls_first ok) C) as M.
    destruct (make_canonical_pathkey _ _ _ _ _) as [pk canon']. destruct (linked_ecs r L) as [_ Li].
    rewrite Li in M. exact M.
Qed.

Lemma inner_inv_grow canon0 seen canon canon' keys : inner_inv canon0 seen canon keys -> canon_ok canon' ->
  canon `prefix_of` canon' -> inner_inv canon0 seen canon' keys.
Proof.
  intros [C G K N M S] C' P. split; try assumption; [etransitivity; eassumption|]. eapply known_prefix; eassumption.
Qed.

Lemma next_opathkey_ok o lop r mc : aligned o lop (r :: mc) -> exists ok lop', next_opathkey (outer_ec r) o lop = Ok (ok, lop')
  /\ outer_ec r = pk_eclass ok /\ aligned (Some ok) lop' mc
  /\ (forall canon, known canon lop -> match o with Some p => p ∈ canon | None => True end -> ok ∈ canon /\ known canon lop')
  /\ (o = None -> exists l, lop = ok :: l).
Proof.
  intros A. inversion A as [|pk lop' r' mc' E A'|o' pk lop' r' mc' N E A']; subst; unfold next_opathkey.
  - rewrite E, Z.eqb_refl. exists pk, lop. split_and!; try done; congruence.
  - assert ((match o with
             | Some pk0 => if outer_ec r =? pk_eclass pk0 then Ok (pk0, pk :: lop')
                           else if outer_ec r =? pk_eclass pk then Ok (pk, lop') else Error "outer pathkeys do not match mergeclause"
             | None => if outer_ec r =? pk_eclass pk then Ok (pk, lop') else Error "outer pathkeys do not match mergeclause"
             end) = Ok (pk, lop')) as ->.
    { apply Z.eqb_eq in E. rewrite E. destruct o as [p|]; [|reflexivity].
      destruct (Z.eqb_spec (outer_ec r) (pk_eclass p)); [congruence|reflexivity]. }
    exists pk, lop'. split_and!; [reflexivity|exact E|exact A'| |eauto].
    intros canon [K1 K2]%Forall_cons _. auto.
Qed.

(** The clauses that lead to a path key: of each class of the inner sides the first clause. *)
Fixpoint leaders (seen : list Z) (mc : list RestrictInfo) : list RestrictInfo :=
  match mc with
  | [] => []
  | r :: mc => if decide (EC_MUST_BE_REDUNDANT (inner_ec r) = true \/ inner_ec r ∈ seen) then leaders seen mc
               else r :: leaders (seen ++ [inner_ec r]) mc
  end.

(** The inner path key has the operator family and the direction of the outer one of the
    same clause. *)
Definition follows (outer : list PathKey) (r : RestrictInfo) (ik : PathKey) : Prop :=
  exists ok, ok ∈ outer /\ outer_ec r = pk_eclass ok /\ inner_key_of r ok ik.

Lemma inner_pathkeys_loop_ok canon0 outer mc : forall seen o lop canon keys, inner_inv canon0 seen canon keys -> aligned o lop mc ->
  Forall linked mc -> known canon lop -> match o with Some p => p ∈ canon | None => True end ->
  known outer lop -> match o with Some p => p ∈ outer | None => True end ->
  exists keys' canon' new, inner_pathkeys_loop mc o lop canon keys = Ok (keys', canon')
    /\ inner_inv canon0 (seen ++ mc) canon' keys' /\ keys' = keys ++ new /\ Forall2 (follows outer) (leaders (map pk_eclass keys) mc) new.
Proof.
  induction mc as [|r mc IH]; intros seen o lop canon keys I A L K Ko Ku Ou; cbn [inner_pathkeys_loop leaders].
  { exists keys, canon, []. rewrite !app_nil_r. auto. }
  apply Forall_cons in L as [Lr L]. rewrite Lr.
  destruct (next_opathkey_ok _ _ _ _ A) as (ok & lop' & -> & Eo & A' & Kn & _). cbn [rbind].
  destruct (Kn canon K Ko) as [Hok K']. destruct (Kn outer Ku Ou) as [Hou Ku']. pose proof (inner_key_ok canon r ok (ii_canon _ _ _ _ I) Hok Lr Eo) as P.
  destruct (if inner_ec r =? outer_ec r then _ else _) as [pk canon1]. destruct P as (C1 & P1 & Hpk & F).
  assert (pk_eclass pk = inner_ec r) as Ep by (unfold inner_key_of, pk_fields in F; congruence).
  pose proof (inner_step _ _ _ _ r pk (inner_inv_grow _ _ _ _ _ I C1 P1) Hpk Ep) as I1.
  destruct (IH (seen ++ [r]) (Some ok) lop' canon1 _ I1 A' L) as (keys' & canon' & new & E & I' & En & Fn);
    [eapply known_prefix; eassumption|destruct P1 as [l ->]; apply elem_of_app; auto|exact Ku'|exact Hou|].
  rewrite <- app_assoc in I'. pose proof (redundant_spec pk keys) as R. rewrite Ep in R. destruct (pathkey_is_redundant pk keys).
  - exists keys', canon', new. rewrite decide_True by (apply R; reflexivity). auto.
  - exists keys', canon', (pk :: new). rewrite decide_False by (rewrite <- R; discriminate). rewrite map_app in Fn. cbn [map] in Fn. rewrite Ep in Fn.
    split_and!; [exact E|exact I'|rewrite En, <- app_assoc; reflexivity|]. constructor; [exists ok; auto|exact Fn].
Qed.

Lemma inner_inv_start canon : canon_ok canon -> inner_inv canon [] canon [].
Proof. intros C. split; [exact C|reflexivity|constructor|constructor|constructor|constructor]. Qed.

Lemma make_inner_pathkeys_ok canon keys mc : canon_ok canon -> known canon keys -> aligned None keys mc -> Forall linked mc ->
  exists ikeys canon', make_inner_pathkeys_for_merge canon mc keys = Ok (ikeys, canon')
    /\ inner_inv canon mc canon' ikeys
    /\ match mc with
       | [] => ikeys = []
       | r :: _ => EC_MUST_BE_REDUNDANT (inner_ec r) = false ->
                   exists k ks i il, keys = k :: ks /\ ikeys = i :: il /\ outer_ec r = pk_eclass k /\ inner_key_of r k i
       end
    /\ Forall2 (follows keys) (leaders [] mc) ikeys.
Proof.
  intros C K A L. pose proof (inner_inv_start canon C) as I0. unfold make_inner_pathkeys_for_merge.
  destruct mc as [|r mc]; [exists [], canon; split_and!; auto; constructor|].
  assert (known keys keys) as Kk by (apply Forall_forall; auto).
  destruct (inner_pathkeys_loop_ok canon keys (r :: mc) [] None keys canon [] I0 A L K I Kk I) as (ikeys & canon' & new & E & I' & -> & Fn).
  exists new, canon'. split_and!; [exact E|exact I'| |exact Fn]. intros R. cbn [inner_pathkeys_loop] in E.
  apply Forall_cons in L as [Lr L]. rewrite Lr in E.
  destruct (next_opathkey_ok _ _ _ _ A) as (ok & lop' & En & Eo & A' & Kn & Hl). rewrite En in E. cbn [rbind] in E.
  destruct (Hl eq_refl) as [l ->]. destruct (Kn canon K Logic.I) as [Hok K'].
  pose proof (inner_key_ok canon r ok C Hok Lr Eo) as P.
  destruct (if inner_ec r =? outer_ec r then _ else _) as [pk canon1]. destruct P as (C1 & P1 & Hpk & F).
  assert (pk_eclass pk = inner_ec r) as Ep by (unfold inner_key_of, pk_fields in F; congruence).
  unfold pathkey_is_redundant in E. rewrite Ep, R in E. cbn [existsb app] in E.
  pose proof (inner_step canon [] canon1 [] r pk (inner_inv_grow _ _ _ _ _ I0 C1 P1) Hpk Ep) as I1.
  unfold pathkey_is_redundant in I1. rewrite Ep, R in I1. cbn [existsb app] in I1.
  destruct (inner_pathkeys_loop_ok canon (ok :: l) mc [r] (Some ok) lop' canon1 [pk] I1 A' L) as (keys' & canon2 & il & E2 & _ & -> & _).
  { eapply known_prefix; eassumption. }
  { destruct P1 as [l' ->]. apply elem_of_app. auto. }
  { apply (Kn (ok :: l) Kk Logic.I). }
  { left. }
  rewrite E2 in E. injection E as <- <-. exists ok, l, pk, il. auto.
Qed.

(** ** Trimming *)

Lemma trim_loop_spec mc : forall ec lip m acc, exists used rest, mc = used ++ rest
  /\ trim_loop mc ec lip m acc = acc ++ used
  /\ Forall (fun r => inner_ec r = ec \/ inner_ec r ∈ map pk_eclass lip) used.
Proof.
  induction mc as [|r mc IH]; intros ec lip m acc; cbn [trim_loop].
  { exists [], []. split_and!; [reflexivity|symmetry; apply app_nil_r|constructor]. }
  assert (exists used rest, r :: mc = used ++ rest /\ acc = acc ++ used
    /\ Forall (fun r => inner_ec r = ec \/ inner_ec r ∈ map pk_eclass lip) used) as Stop.
  { exists [], (r :: mc). split_and!; [reflexivity|symmetry; apply app_nil_r|constructor]. }
  destruct (Z.eqb_spec (inner_ec r) ec) as [E|N].
  - destruct (IH ec lip true (acc ++ [r])) as (used & rest & -> & -> & F).
    exists (r :: used), rest. split_and!; [reflexivity|rewrite <- app_assoc; reflexivity|]. constructor; auto.
  - destruct m; cbn [negb]; [|exact Stop]. destruct lip as [|pk lip]; [exact Stop|].
    destruct (Z.eqb_spec (inner_ec r) (pk_eclass pk)) as [E|N']; [|exact Stop].
    destruct (IH (pk_eclass pk) lip true (acc ++ [r])) as (used & rest & -> & -> & F).
    exists (r :: used), rest. split_and!; [reflexivity|rewrite <- app_assoc; reflexivity|].
    constructor; [right; rewrite E; left|]. eapply Forall_impl; [exact F|]. cbn [map].
    intros x [->|Hx]; right; [left|right; exact Hx].
Qed.

Lemma trim_ok mc keys : trim_mergeclauses_for_inner_pathkeys mc keys `prefix_of` mc
  /\ Forall (fun r => inner_ec r ∈ map pk_eclass keys) (trim_mergeclauses_for_inner_pathkeys mc keys)
  /\ (forall r mc' k keys', mc = r :: mc' -> keys = k :: keys' -> inner_ec r = pk_eclass k ->
        trim_mergeclauses_for_inner_pathkeys mc keys <> []).
Proof.
  unfold trim_mergeclauses_for_inner_pathkeys. destruct keys as [|k keys].
  { split_and!; [apply prefix_nil|constructor|discriminate]. }
  destruct (trim_loop_spec mc (pk_eclass k) keys false []) as (used & rest & E & T & F).
  split_and!.
  - rewrite T, E. eexists. reflexivity.
  - rewrite T. cbn [app]. eapply Forall_impl; [exact F|]. cbn [map]. intros x [->|Hx]; [left|right; exact Hx].
  - intros r mc' k' keys' -> [= <- <-] Er. cbn [trim_loop app]. rewrite Er, Z.eqb_refl.
    destruct (trim_loop_spec mc' (pk_eclass k) keys true [r]) as (used' & rest' & _ & -> & _). discriminate.
Qed.

(** ** The ordering of the outer input *)

Lemma existsb_ec ec (ecs : list (Z * Z)) : existsb (fun e => e.1 =? ec) ecs = true <-> ec ∈ ecs.*1.
Proof.
  rewrite existsb_exists, list_elem_of_fmap. split.
  - intros (e & Hin & <-%Z.eqb_eq). exists e. split; [reflexivity|apply list_elem_of_In, Hin].
  - intros (e & -> & Hin). exists e. split; [apply list_elem_of_In, Hin|apply Z.eqb_refl].
Qed.

(** Every class of a clause is in the arrays once, with its popularity. *)
Record scored (joinrelids : Relids) (ecs : list (Z * Z)) : Prop := {
  sc_nodup : NoDup ecs.*1;
  sc_score : Forall (fun e => e.2 = popularity joinrelids e.1) ecs;
}.

Lemma scored_ecs_spec joinrelids clauses : Forall linked clauses -> forall ecs, scored joinrelids ecs ->
  scored joinrelids (scored_ecs joinrelids clauses ecs)
  /\ (forall ec, ec ∈ (scored_ecs joinrelids clauses ecs).*1 <-> ec ∈ ecs.*1 \/ ec ∈ map outer_ec clauses).
Proof.
  induction 1 as [|r clauses Lr _ IH]; intros ecs S; cbn [scored_ecs map].
  { split; [exact S|]. intros ec. rewrite elem_of_nil. tauto. }
  rewrite Lr. destruct (existsb _ ecs) eqn:E.
  - destruct (IH ecs S) as [S' I']. split; [exact S'|]. intros ec. rewrite I', elem_of_cons.
    apply existsb_ec in E. split; [tauto|]. intros [?|[->|?]]; tauto.
  - apply not_true_iff_false in E. rewrite existsb_ec in E. destruct S as [N P].
    destruct (IH (ecs ++ [(outer_ec r, popularity joinrelids (outer_ec r))])) as [S' I'].
    + split; rewrite ?fmap_app.
      * apply NoDup_app. split_and!; [exact N| |apply NoDup_singleton]. intros x Hx ->%list_elem_of_singleton. done.
      * apply Forall_app. split; [exact P|]. constructor; [reflexivity|constructor].
    + split; [exact S'|]. intros ec. rewrite I', fmap_app, elem_of_app, elem_of_cons. cbn [fmap list_fmap].
      rewrite list_elem_of_singleton. tauto.
Qed.

(** The entries that are not emitted yet. *)
Definition pending (ecs : list (Z * Z)) : list (Z * Z) := filter (fun e => 0 <= e.2) ecs.

Lemma best_from_spec ecs : forall j bj bs, let (bj', bs') := best_from j bj bs ecs in
  bs <= bs' /\ Forall (fun e => e.2 <= bs') ecs
  /\ ((bj' = bj /\ bs' = bs) \/ exists i e, ecs !! i = Some (e, bs') /\ bj' = (j + i)%nat).
Proof.
  induction ecs as [|[e s] ecs IH]; intros j bj bs; cbn [best_from]; [split_and!; [lia|constructor|auto]|].
  destruct (Z.gtb_spec s bs) as [G|G].
  - specialize (IH (S j) j s). destruct (best_from (S j) j s ecs) as [bj' bs']. destruct IH as (L & F & [[-> ->]|(i & e' & E & ->)]).
    + split_and!; [lia|constructor; [cbn; lia|exact F]|]. right. exists 0%nat, e. split; [reflexivity|lia].
    + split_and!; [lia|constructor; [cbn; lia|exact F]|]. right. exists (S i), e'. split; [exact E|lia].
  - specialize (IH (S j) bj bs). destruct (best_from (S j) bj bs ecs) as [bj' bs']. destruct IH as (L & F & [[-> ->]|(i & e' & E & ->)]).
    + split_and!; [lia|constructor; [cbn; lia|exact F]|]. auto.
    + split_and!; [lia|constructor; [cbn; lia|exact F]|]. right. exists (S i), e'. split; [exact E|lia].
Qed.

Lemma best_entry e0 s0 rest : let (j, s) := best_from 1 0 s0 rest in
  Forall (fun e => e.2 <= s) ((e0, s0) :: rest) /\ exists e, ((e0, s0) :: rest) !! j = Some (e, s).
Proof.
  pose proof (best_from_spec rest 1 0 s0) as B. destruct (best_from 1 0 s0 rest) as [j s].
  destruct B as (L & F & D). split; [constructor; [exact L|exact F]|].
  destruct D as [[-> ->]|(i & e & E & ->)]; [exists e0; reflexivity|exists e; exact E].
Qed.

Lemma pending_emit ecs j e s : ecs !! j = Some (e, s) -> 0 <= s ->
  pending ecs ≡ₚ (e, s) :: pending (<[j := (e, -1)]> ecs) /\ (<[j := (e, -1)]> ecs).*1 = ecs.*1.
Proof.
  intros E Hs. pose proof (lookup_lt_Some _ _ _ E) as Hj. split.
  - rewrite insert_take_drop by exact Hj. rewrite <- (take_drop_middle ecs j _ E) at 1. unfold pending.
    rewrite !filter_app, !filter_cons. cbn [snd]. rewrite (decide_True (P := 0 <= s)) by lia.
    rewrite (decide_False (P := 0 <= -1)) by lia. symmetry. apply Permutation_middle.
  - rewrite list_fmap_insert. apply list_insert_id. rewrite list_lookup_fmap, E. reflexivity.
Qed.

(** Emitted in the order of falling popularity. *)
Definition popular_first (l : list (Z * Z)) : Prop := StronglySorted (fun a b => b.2 <= a.2) l.

(** The entries still to come are distinct classes without a path key, and no constants. *)
Record to_emit (ecs : list (Z * Z)) (keys : list PathKey) : Prop := {
  te_nodup : NoDup (pending ecs).*1;
  te_new : Forall (fun e => e.1 ∉ map pk_eclass keys) (pending ecs);
  te_matter : Forall (fun e => canonical_ec e.1 = e.1 /\ EC_MUST_BE_REDUNDANT e.1 = false) (pending ecs);
}.

Lemma to_emit_step ecs ecs' e s keys pk : pending ecs ≡ₚ (e, s) :: pending ecs' -> pk_eclass pk = e -> to_emit ecs keys ->
  pathkey_is_redundant pk keys = false /\ to_emit ecs' (keys ++ [pk]).
Proof.
  intros P E [N F M]. rewrite P in N, F, M. cbn [fmap list_fmap fst] in N. apply NoDup_cons in N as [Ne N].
  apply Forall_cons in F as [Fe F], M as [[_ Me] M]. cbn [fst] in *. split.
  - apply not_true_iff_false. rewrite redundant_spec, E, Me. intros [?|?]; [discriminate|done].
  - split; [exact N| |exact M]. rewrite Forall_forall in *. intros x Hx. rewrite map_app, elem_of_app. cbn [map].
    rewrite list_elem_of_singleton, E. intros [H'|H']; [exact (F x Hx H')|]. apply Ne. rewrite <- H'. apply list_elem_of_fmap_2, Hx.
Qed.

Lemma popularity_loop_spec fuel : forall ecs canon keys, (length (pending ecs) < fuel)%nat -> canon_ok canon -> known canon keys ->
  to_emit ecs keys ->
  exists keys' canon', popularity_loop fuel ecs canon keys = Ok (keys', canon')
  /\ canon_ok canon' /\ canon `prefix_of` canon' /\ known canon' keys'
  /\ exists new order, keys' = keys ++ new /\ order ≡ₚ pending ecs /\ popular_first order
     /\ map pk_eclass new = map canonical_ec order.*1
     /\ Forall (fun k => pk_strategy k = BTLessStrategyNumber /\ pk_nulls_first k = false) new.
Proof.
  induction fuel as [|fuel IH]; intros ecs canon keys Hf C K Te; [lia|].
  assert (forall ecs, pending ecs = [] -> exists keys' canon', Ok (keys, canon) = Ok (keys', canon')
    /\ canon_ok canon' /\ canon `prefix_of` canon' /\ known canon' keys'
    /\ exists new order, keys' = keys ++ new /\ order ≡ₚ pending ecs /\ popular_first order
       /\ map pk_eclass new = map canonical_ec order.*1
       /\ Forall (fun k => pk_strategy k = BTLessStrategyNumber /\ pk_nulls_first k = false) new) as Stop.
  { intros ecs' ->. exists keys, canon. split_and!; [reflexivity|exact C|reflexivity|exact K|]. exists [], [].
    split_and!; [symmetry; apply app_nil_r|reflexivity|constructor|reflexivity|constructor]. }
  cbn [popularity_loop]. destruct ecs as [|[e0 s0] rest]; [apply (Stop []); reflexivity|].
  pose proof (best_entry e0 s0 rest) as B. set (ecs := (e0, s0) :: rest) in *.
  destruct (best_from 1 0 s0 rest) as [j s]. destruct B as (F & e & E). destruct (Z.ltb_spec s 0) as [Ls|Gs].
  { apply (Stop ecs). unfold pending. clear -F Ls. induction F as [|[x y] l Hx _ IHl]; [reflexivity|]. cbn [snd] in Hx.
    rewrite filter_cons, decide_False by (cbn; lia). exact IHl. }
  rewrite E. destruct (pending_emit ecs j e s E Gs) as [P1 P2].
  pose proof (make_canonical_ok canon e (hd 0 (ec_opfamilies (eclass e))) BTLessStrategyNumber false C) as M.
  destruct (make_canonical_pathkey _ _ _ _ _) as [pk canon1]. destruct M as (C1 & G1 & Hpk & Ff).
  assert (pk_eclass pk = e) as Ee.
  { pose proof (te_matter _ _ Te) as Tm. rewrite P1 in Tm. apply Forall_cons in Tm as [[Tc _] _]. cbn [fst] in Tc. unfold pk_fields in Ff. congruence. }
  destruct (to_emit_step ecs _ e s keys pk P1 Ee Te) as [-> Te']. cbn [negb Assert rbind].
  assert (known canon1 (keys ++ [pk])) as K1.
  { apply Forall_app. split; [eapply known_prefix; eassumption|]. constructor; [exact Hpk|constructor]. }
  assert (length (pending (<[j:=(e, (-1)%Z)]> ecs)) < fuel)%nat as Hf1.
  { apply Permutation_length in P1. cbn [length] in P1. lia. }
  destruct (IH (<[j:=(e, -1)]> ecs) canon1 (keys ++ [pk]) Hf1 C1 K1 Te') as (keys' & canon' & -> & C' & G' & K' & new & order & -> & Po & So & En & Fn).
  eexists _, canon'. split_and!; [reflexivity|exact C'|etransitivity; eassumption|exact K'|]. exists (pk :: new), ((e, s) :: order).
  split_and!.
  - rewrite <- app_assoc. reflexivity.
  - rewrite P1, Po. reflexivity.
  - constructor; [exact So|]. rewrite Po. apply Forall_forall. intros x Hx.
    assert (x ∈ pending ecs) as Hx' by (rewrite P1; right; exact Hx).
    apply list_elem_of_filter in Hx' as [_ Hx']. rewrite Forall_forall in F. apply F, Hx'.
  - cbn [map fmap list_fmap fst]. rewrite En. unfold pk_fields in Ff. f_equal. congruence.
  - constructor; [|exact Fn]. unfold pk_fields in Ff. split; congruence.
Qed.

Lemma mark_emitted_fst ec ecs : (mark_emitted ec ecs).*1 = ecs.*1.
Proof.
  induction ecs as [|[e s] ecs IH]; cbn [mark_emitted fmap list_fmap]; [reflexivity|].
  destruct (e =? ec); cbn [fmap list_fmap fst]; congruence.
Qed.

Lemma pending_mark ec ecs : NoDup ecs.*1 -> pending (mark_emitted ec ecs) = filter (fun e => e.1 <> ec) (pending ecs).
Proof.
  unfold pending. induction ecs as [|[e s] ecs IH]; intros N; cbn [mark_emitted]; [reflexivity|].
  cbn [fmap list_fmap fst] in N. apply NoDup_cons in N as [Ne N]. destruct (Z.eqb_spec e ec) as [->|D].
  - rewrite !filter_cons. rewrite decide_False by (cbn; lia).
    assert (filter (fun e => e.1 <> ec) (filter (fun e => 0 <= e.2) ecs) = filter (fun e => 0 <= e.2) ecs) as Ef.
    { clear -Ne. induction ecs as [|[x y] ecs IH]; [reflexivity|]. cbn [fmap list_fmap fst] in Ne.
      rewrite not_elem_of_cons in Ne. destruct Ne as [N1 N2]. rewrite !filter_cons.
      destruct (decide (0 <= (x, y).2)); [|exact (IH N2)].
      rewrite filter_cons, decide_True by (cbn; congruence). f_equal. exact (IH N2). }
    case_decide; [rewrite filter_cons, decide_False by (cbn; tauto)|]; symmetry; exact Ef.
  - rewrite !filter_cons. case_decide.
    + rewrite filter_cons, decide_True by (cbn; congruence). f_equal. exact (IH N).
    + exact (IH N).
Qed.

Lemma pending_marks qk : forall ecs, NoDup ecs.*1 ->
  pending (foldl (fun ecs pk => mark_emitted (pk_eclass pk) ecs) ecs qk)
  = filter (fun e => e.1 ∉ map pk_eclass qk) (pending ecs).
Proof.
  induction qk as [|k qk IH]; intros ecs N; cbn [foldl map].
  - symmetry. induction (pending ecs) as [|e l IHl]; [reflexivity|].
    rewrite filter_cons, decide_True by apply not_elem_of_nil. f_equal. exact IHl.
  - rewrite IH by (rewrite mark_emitted_fst; exact N). rewrite pending_mark by exact N. rewrite list_filter_filter.
    apply list_filter_iff. intros e. rewrite not_elem_of_cons. tauto.
Qed.

Lemma scored_pending joinrelids ecs : scored joinrelids ecs -> pending ecs = ecs.
Proof.
  intros [_ P]. unfold pending. induction P as [|e l E _ IH]; [reflexivity|].
  rewrite filter_cons, decide_True; [f_equal; exact IH|]. rewrite E. unfold popularity. lia.
Qed.

(** What sort_inner_and_outer relies on: canonical keys, one for each class of a
    clause, starting with the path keys the query asks for when all of them occur. *)
Record outer_keys_ok (qk : list PathKey) (clauses : list RestrictInfo) (canon canon' keys : list PathKey) : Prop := {
  ok_canon : canon_ok canon';
  ok_grow : canon `prefix_of` canon';
  ok_known : known canon' keys;
  ok_nodup : NoDup (map pk_eclass keys);
  ok_classes : forall ec, ec ∈ map pk_eclass keys <-> ec ∈ map outer_ec clauses;
  ok_query : clauses <> [] -> (forall k, k ∈ qk -> pk_eclass k ∈ map outer_ec clauses) -> qk `prefix_of` keys;
}.

Lemma outer_keys_intro qk clauses canon canon' keys new (ecs order : list (Z * Z)) :
  canon_ok canon' -> canon `prefix_of` canon' -> known canon' (keys ++ new) -> order ≡ₚ ecs ->
  Forall linked clauses -> NoDup (map pk_eclass keys) -> NoDup ecs.*1 ->
  (forall ec, ec ∈ ecs.*1 -> ec ∉ map pk_eclass keys) ->
  (forall ec, ec ∈ map pk_eclass keys \/ ec ∈ ecs.*1 <-> ec ∈ map outer_ec clauses) ->
  map pk_eclass new = map canonical_ec order.*1 ->
  (clauses <> [] -> (forall k, k ∈ qk -> pk_eclass k ∈ map outer_ec clauses) -> qk `prefix_of` keys) ->
  outer_keys_ok qk clauses canon canon' (keys ++ new).
Proof.
  intros C G K Po L Nk Ne D Cl En Q.
  assert (map pk_eclass new ≡ₚ ecs.*1) as P.
  { rewrite En. transitivity (map canonical_ec ecs.*1); [rewrite Po; reflexivity|].
    assert (Forall (fun ec => canonical_ec ec = ec) ecs.*1) as F.
    { apply Forall_forall. intros ec Hec. assert (ec ∈ map outer_ec clauses) as H' by (apply Cl; auto).
      apply list_elem_of_fmap in H' as (r & -> & Hr). rewrite Forall_forall in L. apply linked_ecs, L, Hr. }
    clear -F. induction F as [|x l Hx _ IH]; cbn [map]; [reflexivity|]. rewrite Hx. f_equiv. exact IH. }
  split; try assumption.
  - rewrite map_app, P. apply NoDup_app. split_and!; [exact Nk| |exact Ne]. intros x Hx Hx'. exact (D x Hx' Hx).
  - intros ec. rewrite map_app, elem_of_app, P. apply Cl.
  - intros Hn Hq. destruct (Q Hn Hq) as [l ->]. rewrite <- app_assoc. eexists. reflexivity.
Qed.

Lemma select_outer_pathkeys_ok qk canon clauses joinrelids :
  canon_ok canon -> known canon qk -> NoDup (map pk_eclass qk) -> Forall linked clauses ->
  Forall (fun r => EC_MUST_BE_REDUNDANT (outer_ec r) = false) clauses ->
  exists keys canon', select_outer_pathkeys_for_merge qk canon clauses joinrelids = Ok (keys, canon')
    /\ outer_keys_ok qk clauses canon canon' keys.
Proof.
  intros C K N L R. unfold select_outer_pathkeys_for_merge.
  destruct clauses as [|r0 clauses0] eqn:Ecl; [exists [], canon; split; [reflexivity|split; [exact C|reflexivity|constructor|constructor|reflexivity|done]]|].
  rewrite <- Ecl in *. clear Ecl r0 clauses0.
  destruct (scored_ecs_spec joinrelids clauses L []) as [Sc I]; [split; constructor|].
  set (ecs := scored_ecs joinrelids clauses []) in *. pose proof (scored_pending _ _ Sc) as Pe. pose proof (sc_nodup _ _ Sc) as Ne.
  assert (forall ec, ec ∈ ecs.*1 <-> ec ∈ map outer_ec clauses) as I'.
  { intros ec. rewrite I, elem_of_nil. tauto. }
  assert (forall e, e ∈ ecs -> canonical_ec e.1 = e.1 /\ EC_MUST_BE_REDUNDANT e.1 = false) as Mt.
  { intros e He. assert (e.1 ∈ map outer_ec clauses) as Hin by (apply I', list_elem_of_fmap_2, He).
    apply list_elem_of_fmap in Hin as (r & -> & Hr). rewrite Forall_forall in L, R. split; [apply linked_ecs, L, Hr|apply R, Hr]. }
  destruct (forallb _ qk) eqn:E.
  - rewrite forallb_forall in E.
    assert (forall ec, ec ∈ map pk_eclass qk -> ec ∈ ecs.*1) as Sub.
    { intros ec (k & -> & Hk)%list_elem_of_fmap. apply existsb_ec, E, list_elem_of_In, Hk. }
    set (ecs' := foldl _ ecs qk). pose proof (pending_marks qk ecs Ne) as Pm. fold ecs' in Pm. rewrite Pe in Pm.
    assert (length (pending ecs') < S (length ecs'))%nat as Hf by (unfold pending; pose proof (length_filter (fun e : Z * Z => 0 <= e.2) ecs'); lia).
    assert (to_emit ecs' qk) as Te.
    { split; rewrite Pm.
      - eapply sublist_NoDup; [exact Ne|]. apply fmap_sublist, sublist_filter.
      - apply Forall_forall. intros e He. apply list_elem_of_filter in He as [He _]. exact He.
      - apply Forall_forall. intros e He. apply list_elem_of_filter in He as [_ He]. apply Mt, He. }
    destruct (popularity_loop_spec _ ecs' canon qk Hf C K Te) as (keys & canon' & -> & C' & G & K' & new & order & -> & Po & _ & En & _).
    eexists _, canon'. split; [reflexivity|]. rewrite Pm in Po. eapply outer_keys_intro; try eassumption.
    + eapply sublist_NoDup; [exact Ne|]. apply fmap_sublist, sublist_filter.
    + intros ec ((e & s) & -> & Hin)%list_elem_of_fmap. apply list_elem_of_filter in Hin as [Hn _]. exact Hn.
    + intros ec. rewrite <- I'. split.
      * intros [Hq|((e & s) & -> & Hin)%list_elem_of_fmap]; [apply Sub, Hq|]. apply list_elem_of_filter in Hin as [_ Hin].
        apply list_elem_of_fmap_2, Hin.
      * intros ((e & s) & -> & Hin)%list_elem_of_fmap. destruct (decide (e ∈ map pk_eclass qk)) as [?|No]; [auto|].
        right. apply list_elem_of_fmap. exists (e, s). split; [reflexivity|]. apply list_elem_of_filter. auto.
    + intros _ _. reflexivity.
  - assert (length (pending ecs) < S (length ecs))%nat as Hf by (rewrite Pe; lia).
    assert (to_emit ecs []) as Te.
    { split; rewrite Pe; [exact Ne|apply Forall_forall; intros e _; apply not_elem_of_nil|apply Forall_forall; exact Mt]. }
    destruct (popularity_loop_spec _ ecs canon [] Hf C (Forall_nil_2 _) Te) as (keys & canon' & -> & C' & G & K' & new & order & -> & Po & _ & En & _).
    eexists _, canon'. split; [reflexivity|]. rewrite Pe in Po. eapply outer_keys_intro; try eassumption.
    + constructor.
    + intros ec _. apply not_elem_of_nil.
    + intros ec. rewrite <- I'. cbn [map]. rewrite elem_of_nil. tauto.
    + intros _ Q. exfalso. apply not_true_iff_false in E. apply E. apply forallb_forall. intros k Hk.
      apply existsb_ec, I', Q, list_elem_of_In, Hk.
Qed.

(** Any order of the chosen path keys uses all clauses, grouped by the keys in turn. *)
Lemma ordering_clauses qk clauses canon canon' keys outer : outer_keys_ok qk clauses canon canon' keys -> Forall linked clauses ->
  outer ≡ₚ keys -> find_mergeclauses_for_outer_pathkeys outer clauses = groups clauses outer
  /\ groups clauses outer ≡ₚ clauses /\ aligned None outer (groups clauses outer).
Proof.
  intros [_ _ _ N1 Cl _] L P. assert (NoDup (map pk_eclass outer)) as No by (rewrite P; exact N1).
  assert (usable_keys clauses outer = outer) as U.
  { apply usable_all, Forall_forall. intros k Hk. apply Cl. rewrite <- P. apply list_elem_of_fmap_2, Hk. }
  split_and!.
  - rewrite find_mergeclauses_groups, U by exact L. reflexivity.
  - apply groups_all; [exact No|]. intros r Hr. rewrite P. apply Cl, list_elem_of_fmap_2, Hr.
  - rewrite <- (app_nil_r outer) at 1. destruct (usable_keys_split clauses outer) as (rest & _ & F & _). rewrite U in F.
    apply groups_aligned; assumption.
Qed.

(** ** The theorems *)

(** C25: For merge clauses without constant classes, as select_mergejoin_clauses leaves
    them, select_outer_pathkeys_for_merge chooses path keys, and its assertion that none is
    redundant holds. The path keys of the query come first when every one of them belongs
    to a clause. Whatever order of them sort_inner_and_outer tries, all merge
    clauses are used, each once and in the order of the keys, as its assertion says;
    the inner path keys can be built, so that neither internal error of
    make_inner_pathkeys_for_merge occurs; they are canonical and not redundant: exactly
    one for each class of the inner sides, in the order of the clauses, with the operator
    family, the direction and the place of nulls of the outer path key of the clause. *)
Theorem sort_orderings_complete qk canon clauses joinrelids :
  canon_ok canon -> known canon qk -> NoDup (map pk_eclass qk) -> Forall linked clauses ->
  Forall (fun r => EC_MUST_BE_REDUNDANT (outer_ec r) = false /\ EC_MUST_BE_REDUNDANT (inner_ec r) = false) clauses ->
  exists keys canon1, select_outer_pathkeys_for_merge qk canon clauses joinrelids = Ok (keys, canon1)
    /\ (clauses <> [] -> (forall k, k ∈ qk -> pk_eclass k ∈ map outer_ec clauses) -> qk `prefix_of` keys)
    /\ forall outer, outer ≡ₚ keys ->
       let mc := find_mergeclauses_for_outer_pathkeys outer clauses in
       mc ≡ₚ clauses /\ mc = concat (map (fun k => matched_restrictinfos k clauses) outer)
       /\ exists ikeys canon2, make_inner_pathkeys_for_merge canon1 mc outer = Ok (ikeys, canon2)
            /\ inner_inv canon1 mc canon2 ikeys /\ Forall2 (follows outer) (leaders [] mc) ikeys
            /\ Forall (fun r => inner_ec r ∈ map pk_eclass ikeys) mc.
Proof.
  intros C K N L R. assert (Forall (fun r => EC_MUST_BE_REDUNDANT (outer_ec r) = false) clauses) as Ro by (eapply Forall_impl; [exact R|]; intros r [? _]; assumption).
  destruct (select_outer_pathkeys_ok qk canon clauses joinrelids C K N L Ro) as (keys & canon1 & E & O).
  exists keys, canon1. split_and!; [exact E|apply O|]. intros outer P mc. destruct (ordering_clauses _ _ _ _ _ outer O L P) as (Em & Pm & A).
  fold mc in Em. rewrite Em. split_and!; [exact Pm|reflexivity|].
  destruct (make_inner_pathkeys_ok canon1 outer (groups clauses outer)) as (ikeys & canon2 & Ei & Ii & _ & Fl);
    [apply O|unfold known; rewrite P; apply O|exact A|rewrite Pm; exact L|].
  exists ikeys, canon2. split_and!; [exact Ei|exact Ii|exact Fl|]. pose proof (ii_cover _ _ _ _ Ii) as Cv.
  rewrite Forall_forall in *. intros r Hr. destruct (Cv r Hr) as [Rd|Hin]; [|exact Hin]. rewrite Pm in Hr. destruct (R r Hr). congruence.
Qed.

(** For an outer path that is sorted already, find_mergeclauses_for_outer_pathkeys
    takes all clauses of the longest prefix of the path keys that have any, in the order of
    the keys and none twice; the inner path keys exist; and for every truncation of
    them to at least one key the trimmed clauses are a non-empty prefix whose
    inner sides are all ordered by the remaining keys. *)
Theorem presorted_orderings canon keys clauses :
  canon_ok canon -> known canon keys -> NoDup (map pk_eclass keys) -> Forall linked clauses ->
  Forall (fun r => EC_MUST_BE_REDUNDANT (inner_ec r) = false) clauses ->
  let mc := find_mergeclauses_for_outer_pathkeys keys clauses in
  (exists used rest, keys = used ++ rest /\ mc = groups clauses used /\ mc ⊆+ clauses
     /\ Forall (fun k => matched_restrictinfos k clauses <> []) used
     /\ match rest with [] => True | k :: _ => matched_restrictinfos k clauses = [] end)
  /\ exists ikeys canon', make_inner_pathkeys_for_merge canon mc keys = Ok (ikeys, canon')
     /\ inner_inv canon mc canon' ikeys
     /\ forall n, let trimmed := trim_mergeclauses_for_inner_pathkeys mc (take (S n) ikeys) in
          trimmed `prefix_of` mc /\ (mc <> [] -> trimmed <> [])
          /\ Forall (fun r => inner_ec r ∈ map pk_eclass (take (S n) ikeys)) trimmed.
Proof.
  intros C K N L R mc. destruct (usable_keys_split clauses keys) as (rest & Ek & F & Hr).
  assert (mc = groups clauses (usable_keys clauses keys)) as Em by (apply find_mergeclauses_groups, L).
  assert (NoDup (map pk_eclass (usable_keys clauses keys))) as Nu.
  { rewrite Ek, map_app in N. apply NoDup_app in N. apply N. }
  assert (mc ⊆+ clauses) as Sub.
  { rewrite Em, groups_perm by exact Nu. apply sublist_submseteq, sublist_filter. }
  assert (forall P : RestrictInfo -> Prop, Forall P clauses -> Forall P mc) as Fm.
  { intros P HP. rewrite Forall_forall in *. intros r Hin. apply HP. rewrite Em in Hin. apply groups_in in Hin. tauto. }
  split; [exists (usable_keys clauses keys), rest; auto|].
  destruct (make_inner_pathkeys_ok canon keys mc C K) as (ikeys & canon' & Ei & Ii & Hd & _); [|auto|].
  { rewrite Em. rewrite Ek at 1. apply groups_aligned; assumption. }
  exists ikeys, canon'. split_and!; [exact Ei|exact Ii|]. intros n trimmed.
  destruct (trim_ok mc (take (S n) ikeys)) as (T1 & T2 & T3). split_and!; [exact T1| |exact T2].
  intros Hm. destruct mc as [|r mc'] eqn:Emc; [done|]. pose proof (Fm _ R) as Rm. apply Forall_cons in Rm as [Rr _].
  destruct (Hd Rr) as (k & ks & i & il & _ & -> & _ & Hi).
  apply (T3 r mc' i (take n il) eq_refl eq_refl). unfold inner_key_of, pk_fields in Hi. congruence.
Qed.

End spec.

(** ** Witnesses *)

(** Two classes, and a third one that was merged into the first. *)
#[export] Instance sample_eclasses : EClasses := {|
  eclasses := {[ 1 := mkEClass [1976] [mkMember (Some [2]) false false; mkMember (Some [4]) false false] (Some [6]) false false None;
                 2 := mkEClass [1976] [mkMember (Some [2]) false false; mkMember (Some [4]) false false] (Some [6]) false false None;
                 3 := mkEClass [] [] None false false (Some 1) ]} |}.

(** [a.x = b.x] with the link of its left side not up to date, and [a.y = b.y]. *)
Definition merge_clause (ptr l r : Z) : RestrictInfo :=
  mkRestrictInfo ptr (OpExpr 96 96 [Var 1 1; Var 2 1]) false false (Some [6]) None None (Some [2]) (Some [4]) None None
    (mkQualCost (i2d 0) (dlit 25 10000)) (i2d (-1)) (i2d (-1)) (mkJoinClause true [1976] 96 l r true (Some [6])).

Definition merge_clauses : list RestrictInfo := map update_mergeclause_eclasses [merge_clause 1 3 1; merge_clause 2 2 2].

Lemma merge_clauses_linked : Forall linked merge_clauses.
Proof. repeat constructor. Qed.

Lemma canon_nil : canon_ok [].
Proof. split; constructor. Qed.

Lemma sort_orderings_complete_witness : exists keys canon1,
  select_outer_pathkeys_for_merge [] [] merge_clauses (Some [6]) = Ok (keys, canon1)
  /\ length keys = 2%nat /\ find_mergeclauses_for_outer_pathkeys (reverse keys) merge_clauses ≡ₚ merge_clauses
  /\ exists ikeys canon2,
       make_inner_pathkeys_for_merge canon1 (find_mergeclauses_for_outer_pathkeys (reverse keys) merge_clauses) (reverse keys) = Ok (ikeys, canon2)
       /\ Forall2 (follows (reverse keys)) (leaders [] (find_mergeclauses_for_outer_pathkeys (reverse keys) merge_clauses)) ikeys.
Proof.
  destruct (sort_orderings_complete [] [] merge_clauses (Some [6]) canon_nil (Forall_nil_2 _) (NoDup_nil_2) merge_clauses_linked
    ltac:(repeat constructor)) as (keys & canon1 & E & _ & A).
  destruct (A (reverse keys) (reverse_Permutation keys)) as (P & _ & ikeys & canon2 & Ei & _ & Fl & _).
  exists keys, canon1. split; [exact E|split; [|split; [exact P|exists ikeys, canon2; auto]]].
  vm_compute in E. injection E as <- _. reflexivity.
Defined.

Definition sample_keys : list PathKey := [mkPathKey 1 2 1976 1 false; mkPathKey 2 1 1976 1 false].

Lemma sample_keys_canon : canon_ok sample_keys.
Proof. split; apply (bool_decide_unpack _); vm_compute; exact I. Qed.

Lemma sample_keys_known : known sample_keys sample_keys.
Proof. apply Forall_forall. auto. Qed.

Lemma presorted_orderings_witness :
  let mc := find_mergeclauses_for_outer_pathkeys sample_keys merge_clauses in
  length mc = 2%nat
  /\ exists ikeys canon', make_inner_pathkeys_for_merge sample_keys mc sample_keys = Ok (ikeys, canon')
     /\ trim_mergeclauses_for_inner_pathkeys mc (take 1 ikeys) <> [].
Proof.
  split; [vm_compute; reflexivity|].
  destruct (presorted_orderings sample_keys sample_keys merge_clauses) as (_ & ikeys & canon' & E & _ & T).
  - exact sample_keys_canon.
  - exact sample_keys_known.
  - apply (bool_decide_unpack _). vm_compute. exact I.
  - exact merge_clauses_linked.
  - repeat constructor.
  - exists ikeys, canon'. split; [exact E|]. apply (T 0%nat). vm_compute. discriminate.
Defined.
