(* ===== verification/JoinPath.v ===== *)
(** Search for join paths (optimizer/path/joinpath.c): which paths of two relations
    are joined, in which way, and offered to the join relation. *)
From stdpp Require Import gmap.
From S2P Require Import Prelude Float64 Double Bitmapset PlanTypes Pathkeys PathCompare AddPath Cheapest CostExpr CostBase CostScan CostNode HashSize CostJoin SizeEst ParamInfo CreatePath MergeKeys.
Open Scope Z_scope.

(** ** Data *)

(** The members of PlannerInfo the search reads; of a PlaceHolderInfo only
    ph_eval_at matters here. *)
Record JoinPlanner := mkJoinPlanner {
  jp_info : PlannerInfo;
  jp_root : JoinRoot;
  query_pathkeys : list PathKey;
  join_info_list : list SpecialJoinInfo;
  placeholder_list : list Relids;
}.

(** The join relation: the members that do not change. *)
Record JoinRel := mkJoinRel {
  jrel : RelOptInfo;
  lateral_relids : Relids;
  jrel_merge : RelMerge;
}.

(** struct JoinPathExtraData. *)
Record JoinExtra := mkJoinExtra {
  restrictlist : list RestrictInfo;
  mergeclause_list : list RestrictInfo;
  jextra : JoinPathExtraData;
  ex_sjinfo : SpecialJoinInfo;
  param_source_rels : Relids;
}.

(** What the search changes: the paths and parameterizations of the join relation,
    the caches of unique paths of its inputs and of the semijoin, the canonical
    path keys, and the caches of the clauses (scan selectivities and bucket sizes,
    by the address of the clause). *)
Record JoinState := mkJoinState {
  js_paths : RelPaths;
  js_params : RelParams;
  js_outer : RelPaths;
  js_inner : RelPaths;
  js_semi : SemiInfo;
  js_canon : list PathKey;
  js_scansel : gmap Z (list MergeScanSelCache);
  js_buckets : gmap Z (Selectivity * Selectivity);
}.

(** Answers from outside this file: the identity of path nodes (pointer comparison),
    analyzejoins.c, the foreign data wrapper and the extension hook. *)
Class JoinSupport := {
  same_path : Path -> Path -> bool;
  innerrel_is_unique : Relids -> RelOptInfo -> JoinType -> list RestrictInfo -> bool;
  GetForeignJoinPaths : option (RelPaths -> RelPaths);
  set_join_pathlist_hook : option (RelPaths -> RelPaths);
}.

(** Pointers to one node see one value. *)
Class JoinSupportLaws `{JoinSupport} := { same_path_eq : forall p q, same_path p q = true -> p = q }.

Definition set_paths (st : JoinState) (paths : RelPaths) : JoinState :=
  mkJoinState paths (js_params st) (js_outer st) (js_inner st) (js_semi st) (js_canon st) (js_scansel st) (js_buckets st).
Definition set_params (st : JoinState) (params : RelParams) : JoinState :=
  mkJoinState (js_paths st) params (js_outer st) (js_inner st) (js_semi st) (js_canon st) (js_scansel st) (js_buckets st).
Definition set_canon (st : JoinState) (canon : list PathKey) : JoinState :=
  mkJoinState (js_paths st) (js_params st) (js_outer st) (js_inner st) (js_semi st) canon (js_scansel st) (js_buckets st).

(** ** Steps *)

(** A routine that changes the state, or raises an error. *)
Abbreviation step := (JoinState -> result JoinState) (only parsing).

Definition skip {S} : S -> result S := fun st => Ok st.
Definition andthen {S} (f g : S -> result S) : S -> result S := fun st => let! st := f st in g st.
Definition when {S} (b : bool) (f : S -> result S) : S -> result S := if b then f else skip.

(** [foreach]. *)
Fixpoint for_each {S A} (l : list A) (body : A -> S -> result S) : S -> result S :=
  match l with
  | [] => skip
  | x :: l => andthen (body x) (for_each l body)
  end.

Declare Scope step_scope.
Delimit Scope step_scope with step.
Notation "f ;; g" := (andthen f g) (at level 100, g at level 200, right associativity) : step_scope.
Open Scope step_scope.

(** A pointer that must not be null. *)
Definition deref {A} (p : option A) : result A :=
  match p with Some a => Ok a | None => Error "null pointer" end.

(** A computation whose behaviour is defined. *)
Definition defined {A} (p : option A) : result A :=
  match p with Some a => Ok a | None => Error "undefined behaviour" end.

(** ** Tests *)

Definition PATH_PARAM_BY_REL (path : Path) (rel : RelOptInfo) : bool :=
  match param_info path with Some _ => bms_overlap (PATH_REQ_OUTER path) (relids rel) | None => false end.

Definition allow_star_schema_join (outer_path inner_path : Path) : bool :=
  let innerparams := PATH_REQ_OUTER inner_path in
  let outerrelids := relids (parent outer_path) in
  bms_overlap innerparams outerrelids && bms_nonempty_difference innerparams outerrelids.

(** have_dangerous_phv (optimizer/path/joinrels.c). *)
Definition have_dangerous_phv (placeholder_list : list Relids) (outer_relids inner_params : Relids) : bool :=
  existsb (fun ph_eval_at => bms_is_subset ph_eval_at inner_params && bms_overlap ph_eval_at outer_relids
                             && negb (bms_is_subset ph_eval_at outer_relids)) placeholder_list.

(** The clause with outer_is_left set, if it can be used in this join. *)
Definition clause_sides_match_join (rinfo : RestrictInfo) (outerrel innerrel : RelOptInfo) : option RestrictInfo :=
  let jc := ri_join rinfo in
  let mark left := set_join rinfo (mkJoinClause (jc_can_join jc) (jc_mergeopfamilies jc) (jc_hashjoinoperator jc)
                                     (jc_left_ec jc) (jc_right_ec jc) left (jc_required_relids jc)) in
  if bms_is_subset (left_relids rinfo) (relids outerrel) && bms_is_subset (right_relids rinfo) (relids innerrel)
  then Some (mark true)
  else if bms_is_subset (left_relids rinfo) (relids innerrel) && bms_is_subset (right_relids rinfo) (relids outerrel)
  then Some (mark false)
  else None.

(** The join types that can produce false null-extended rows in a worker, or whose
    outer side must be unique. *)
Definition partial_join_allowed (save_jointype : JoinType) : bool :=
  match save_jointype with JOIN_UNIQUE_OUTER | JOIN_FULL | JOIN_RIGHT => false | _ => true end.

(** ** Caches of the clauses *)

(** The workspace before the preliminary estimate fills it. *)
Definition new_workspace : JoinCostWorkspace :=
  mkWorkspace dzero dzero dzero dzero dzero dzero dzero dzero dzero dzero dzero dzero 0 0.

Definition load_bucketsizes (buckets : gmap Z (Selectivity * Selectivity)) (r : RestrictInfo) : RestrictInfo :=
  match buckets !! ri_ptr r with Some (l', r') => set_bucketsizes r l' r' | None => r end.

(** The bucket sizes final_cost_hashjoin left in the clauses of the path. *)
Definition save_bucketsizes (p : Path) (buckets : gmap Z (Selectivity * Selectivity)) : gmap Z (Selectivity * Selectivity) :=
  match extra p with
  | XHashPath _ _ _ _ _ hashclauses _ =>
      foldl (fun m r => <[ri_ptr r := (left_bucketsize r, right_bucketsize r)]> m) buckets hashclauses
  | _ => buckets
  end.

Definition scansel_of (st : JoinState) (mergeclauses : list RestrictInfo) : list MergeScanSelCache :=
  match mergeclauses with r :: _ => default [] (js_scansel st !! ri_ptr r) | [] => [] end.

Definition set_scansel (st : JoinState) (mergeclauses : list RestrictInfo) (cache : list MergeScanSelCache) : JoinState :=
  match mergeclauses with
  | r :: _ => mkJoinState (js_paths st) (js_params st) (js_outer st) (js_inner st) (js_semi st) (js_canon st)
                (<[ri_ptr r := cache]> (js_scansel st)) (js_buckets st)
  | [] => st
  end.

Section joinpath.
Context `{Libm, Settings, Catalog, Estimator, Equivalences, PathSupport, EClasses, JoinSupport}.

Definition offer_path (p : Path) (params : RelParams) (st : JoinState) : JoinState :=
  set_params (set_paths st (add_path (js_paths st) p).1) params.
Definition offer_partial_path (p : Path) (params : RelParams) (st : JoinState) : JoinState :=
  set_params (set_paths st (add_partial_path (js_paths st) p).1) params.

(** The query, the join relation and its inputs, the same for the whole search. *)
Context (root : JoinPlanner) (joinrel : JoinRel) (outerrel innerrel : RelOptInfo).

(** ** One path *)

Definition try_nestloop_path (outer_path inner_path : Path) (pathkeys : list PathKey) (jointype : JoinType)
    (extra : JoinExtra) : step := fun st =>
  let required_outer := calc_nestloop_required_outer outer_path inner_path in
  if bool_decide (required_outer <> None)
     && ((negb (bms_overlap required_outer (param_source_rels extra)) && negb (allow_star_schema_join outer_path inner_path))
         || have_dangerous_phv (placeholder_list root) (relids (parent outer_path)) (PATH_REQ_OUTER inner_path))
  then Ok st
  else
    let workspace := initial_cost_nestloop new_workspace jointype outer_path inner_path (jextra extra) in
    if add_path_precheck (jrel joinrel) (js_paths st) (ws_startup_cost workspace) (ws_total_cost workspace) pathkeys
         required_outer
    then
      let! (p, params) :=
        create_nestloop_path (jp_root root) (jrel joinrel) (js_params st) jointype workspace (jextra extra)
          (ex_sjinfo extra) outer_path inner_path (restrictlist extra) pathkeys required_outer in
      Ok (offer_path p params st)
    else Ok st.

Definition try_partial_nestloop_path (outer_path inner_path : Path) (pathkeys : list PathKey) (jointype : JoinType)
    (extra : JoinExtra) : step := fun st =>
  if match param_info inner_path with
     | Some ppi => negb (bms_is_subset (ppi_req_outer ppi) (relids (parent outer_path)))
     | None => false
     end
  then Ok st
  else
    let workspace := initial_cost_nestloop new_workspace jointype outer_path inner_path (jextra extra) in
    if negb (add_partial_path_precheck (jrel joinrel) (js_paths st) (ws_total_cost workspace) pathkeys) then Ok st
    else
      let! (p, params) :=
        create_nestloop_path (jp_root root) (jrel joinrel) (js_params st) jointype workspace (jextra extra)
          (ex_sjinfo extra) outer_path inner_path (restrictlist extra) pathkeys None in
      Ok (offer_partial_path p params st).

(** A sort that the path does not need is dropped. *)
Definition needed_sort (sortkeys : list PathKey) (path : Path) : list PathKey :=
  if pathkeys_contained_in sortkeys (pathkeys path) then [] else sortkeys.

Definition try_partial_mergejoin_path (outer_path inner_path : Path) (pathkeys : list PathKey)
    (mergeclauses : list RestrictInfo) (outersortkeys innersortkeys : list PathKey) (jointype : JoinType)
    (extra : JoinExtra) : step := fun st =>
  if match param_info inner_path with Some ppi => negb (bms_is_empty (ppi_req_outer ppi)) | None => false end then Ok st
  else
    let outersortkeys := needed_sort outersortkeys outer_path in
    let innersortkeys := needed_sort innersortkeys inner_path in
    let! (workspace, cache) :=
      initial_cost_mergejoin new_workspace (scansel_of st mergeclauses) jointype mergeclauses outer_path inner_path
        outersortkeys innersortkeys in
    let st := set_scansel st mergeclauses cache in
    if negb (add_partial_path_precheck (jrel joinrel) (js_paths st) (ws_total_cost workspace) pathkeys) then Ok st
    else
      let! (p, params) :=
        create_mergejoin_path (jp_root root) (jrel joinrel) (js_params st) jointype workspace (jextra extra)
          (ex_sjinfo extra) outer_path inner_path (restrictlist extra) pathkeys None mergeclauses outersortkeys
          innersortkeys in
      Ok (offer_partial_path p params st).

Definition try_mergejoin_path (outer_path inner_path : Path) (pathkeys : list PathKey)
    (mergeclauses : list RestrictInfo) (outersortkeys innersortkeys : list PathKey) (jointype : JoinType)
    (extra : JoinExtra) (is_partial : bool) : step := fun st =>
  if is_partial
  then try_partial_mergejoin_path outer_path inner_path pathkeys mergeclauses outersortkeys innersortkeys jointype extra st
  else
    let required_outer := calc_non_nestloop_required_outer outer_path inner_path in
    if bool_decide (required_outer <> None) && negb (bms_overlap required_outer (param_source_rels extra)) then Ok st
    else
      let outersortkeys := needed_sort outersortkeys outer_path in
      let innersortkeys := needed_sort innersortkeys inner_path in
      let! (workspace, cache) :=
        initial_cost_mergejoin new_workspace (scansel_of st mergeclauses) jointype mergeclauses outer_path inner_path
          outersortkeys innersortkeys in
      let st := set_scansel st mergeclauses cache in
      if add_path_precheck (jrel joinrel) (js_paths st) (ws_startup_cost workspace) (ws_total_cost workspace) pathkeys
           required_outer
      then
        let! (p, params) :=
          create_mergejoin_path (jp_root root) (jrel joinrel) (js_params st) jointype workspace (jextra extra)
            (ex_sjinfo extra) outer_path inner_path (restrictlist extra) pathkeys required_outer mergeclauses
            outersortkeys innersortkeys in
        Ok (offer_path p params st)
      else Ok st.

(** The path with the bucket sizes it computed kept for later paths. *)
Definition set_buckets (st : JoinState) (p : Path) : JoinState :=
  mkJoinState (js_paths st) (js_params st) (js_outer st) (js_inner st) (js_semi st) (js_canon st) (js_scansel st)
    (save_bucketsizes p (js_buckets st)).

Definition try_hashjoin_path (outer_path inner_path : Path) (hashclauses : list RestrictInfo) (jointype : JoinType)
    (extra : JoinExtra) : step := fun st =>
  let required_outer := calc_non_nestloop_required_outer outer_path inner_path in
  if bool_decide (required_outer <> None) && negb (bms_overlap required_outer (param_source_rels extra)) then Ok st
  else
    let hashclauses := map (load_bucketsizes (js_buckets st)) hashclauses in
    let! workspace := defined (initial_cost_hashjoin new_workspace hashclauses outer_path inner_path) in
    if add_path_precheck (jrel joinrel) (js_paths st) (ws_startup_cost workspace) (ws_total_cost workspace) []
         required_outer
    then
      let! (p, params) :=
        create_hashjoin_path (jp_root root) (jrel joinrel) (js_params st) jointype workspace (jextra extra)
          (ex_sjinfo extra) outer_path inner_path (restrictlist extra) required_outer hashclauses in
      Ok (offer_path p params (set_buckets st p))
    else Ok st.

Definition try_partial_hashjoin_path (outer_path inner_path : Path) (hashclauses : list RestrictInfo)
    (jointype : JoinType) (extra : JoinExtra) : step := fun st =>
  if match param_info inner_path with Some ppi => negb (bms_is_empty (ppi_req_outer ppi)) | None => false end then Ok st
  else
    let hashclauses := map (load_bucketsizes (js_buckets st)) hashclauses in
    let! workspace := defined (initial_cost_hashjoin new_workspace hashclauses outer_path inner_path) in
    if negb (add_partial_path_precheck (jrel joinrel) (js_paths st) (ws_total_cost workspace) []) then Ok st
    else
      let! (p, params) :=
        create_hashjoin_path (jp_root root) (jrel joinrel) (js_params st) jointype workspace (jextra extra)
          (ex_sjinfo extra) outer_path inner_path (restrictlist extra) None hashclauses in
      Ok (offer_partial_path p params (set_buckets st p)).

(** ** Sorting both inputs *)

Definition set_unique (rel : RelPaths) (p : option Path) : RelPaths :=
  mkRelPaths (pathlist rel) (partial_pathlist rel) (cheapest_startup_path rel) (cheapest_total_path rel) p
    (cheapest_parameterized_paths rel).

(** create_unique_path for an input, with the caches it fills. *)
Definition unique_outer (path : Path) (st : JoinState) : result (Path * JoinState) :=
  let '(p, cached, semi) := create_unique_path outerrel (cheapest_unique_path (js_outer st)) path (js_semi st) in
  let! p := deref p in
  Ok (p, mkJoinState (js_paths st) (js_params st) (set_unique (js_outer st) cached) (js_inner st) semi (js_canon st)
           (js_scansel st) (js_buckets st)).
Definition unique_inner (path : Path) (st : JoinState) : result (Path * JoinState) :=
  let '(p, cached, semi) := create_unique_path innerrel (cheapest_unique_path (js_inner st)) path (js_semi st) in
  let! p := deref p in
  Ok (p, mkJoinState (js_paths st) (js_params st) (js_outer st) (set_unique (js_inner st) cached) semi (js_canon st)
           (js_scansel st) (js_buckets st)).

(** Unique-ify one input if need be, and then handle as a plain inner join. *)
Definition uniquify (jointype : JoinType) (outer_path inner_path : Path) (st : JoinState)
    : result (Path * Path * JoinType * JoinState) :=
  match jointype with
  | JOIN_UNIQUE_OUTER => let! (p, st) := unique_outer outer_path st in Ok (p, inner_path, JOIN_INNER, st)
  | JOIN_UNIQUE_INNER => let! (p, st) := unique_inner inner_path st in Ok (outer_path, p, JOIN_INNER, st)
  | _ => Ok (outer_path, inner_path, jointype, st)
  end.

(** Partial join paths can be considered. *)
Definition partial_ok (save_jointype : JoinType) (st : JoinState) : bool :=
  consider_parallel (jrel joinrel) && partial_join_allowed save_jointype
  && negb (bool_decide (partial_pathlist (js_outer st) = [])) && bms_is_empty (lateral_relids joinrel).

(** The cheapest partial outer path and the cheapest parallel-safe inner path. *)
Definition partial_inputs (save_jointype : JoinType) (inner_path : Path) (st : JoinState) : option (Path * Path) :=
  if partial_ok save_jointype st then
    o ← head (partial_pathlist (js_outer st));
    i ← (if parallel_safe inner_path then Some inner_path
         else if bool_decide (save_jointype = JOIN_UNIQUE_INNER) then None
         else get_cheapest_parallel_safe_total_inner (pathlist (js_inner st)));
    Some (o, i)
  else None.

Fixpoint list_delete_ptr (l : list PathKey) (key : PathKey) : list PathKey :=
  match l with
  | [] => []
  | k :: l => if pk_ptr k =? pk_ptr key then l else k :: list_delete_ptr l key
  end.

(** All path keys as they are, and each of the others brought to the front. *)
Definition orderings (all_pathkeys : list PathKey) : list (list PathKey) :=
  match all_pathkeys with
  | [] => []
  | _ :: others => all_pathkeys :: map (fun k => k :: list_delete_ptr all_pathkeys k) others
  end.

Definition join_pathkeys (jointype : JoinType) (keys : list PathKey) (st : JoinState) : list PathKey :=
  build_join_pathkeys (query_pathkeys root) (jrel joinrel) (jrel_merge joinrel) (joininfo (js_params st)) jointype keys.

(** One round of the loop of sort_inner_and_outer. *)
Definition sort_both (outer_path inner_path : Path) (partial : option (Path * Path)) (jointype : JoinType)
    (extra : JoinExtra) (outerkeys : list PathKey) : step := fun st =>
  let cur_mergeclauses := find_mergeclauses_for_outer_pathkeys outerkeys (mergeclause_list extra) in
  let! _ := Assert (length cur_mergeclauses =? length (mergeclause_list extra))%nat in
  let! (innerkeys, canon) := make_inner_pathkeys_for_merge (js_canon st) cur_mergeclauses outerkeys in
  let st := set_canon st canon in
  let merge_pathkeys := join_pathkeys jointype outerkeys st in
  (try_mergejoin_path outer_path inner_path merge_pathkeys cur_mergeclauses outerkeys innerkeys jointype extra false;;
   match partial with
   | Some (cheapest_partial_outer, cheapest_safe_inner) =>
       try_partial_mergejoin_path cheapest_partial_outer cheapest_safe_inner merge_pathkeys cur_mergeclauses outerkeys
         innerkeys jointype extra
   | None => skip
   end) st.

Definition sort_inner_and_outer (jointype : JoinType) (extra : JoinExtra) : step := fun st =>
  let save_jointype := jointype in
  let! outer_path := deref (cheapest_total_path (js_outer st)) in
  let! inner_path := deref (cheapest_total_path (js_inner st)) in
  if PATH_PARAM_BY_REL outer_path innerrel || PATH_PARAM_BY_REL inner_path outerrel then Ok st
  else
    let! (outer_path, inner_path, jointype, st) := uniquify jointype outer_path inner_path st in
    let partial := partial_inputs save_jointype inner_path st in
    let! (all_pathkeys, canon) :=
      select_outer_pathkeys_for_merge (query_pathkeys root) (js_canon st) (mergeclause_list extra)
        (relids (jrel joinrel)) in
    for_each (orderings all_pathkeys) (sort_both outer_path inner_path partial jointype extra) (set_canon st canon).

(** ** Merge joins over a sorted outer path *)

(** [innerpath] is strictly cheaper than the one found in an earlier round. *)
Definition cheaper_inner (innerpath : Path) (found : option Path) (criterion : CostSelector) : bool :=
  match found with
  | Some p => (compare_path_costs innerpath p criterion <? 0)%Z
  | None => true
  end.

(** The merge clauses for the first [sortkeycnt] sort keys. *)
Definition clauses_for (sortkeycnt : nat) (innersortkeys : list PathKey) (mergeclauses : list RestrictInfo) : list RestrictInfo :=
  if (sortkeycnt <? length innersortkeys)%nat
  then trim_mergeclauses_for_inner_pathkeys mergeclauses (take sortkeycnt innersortkeys)
  else mergeclauses.

(** The loop over truncations of the inner sort keys, from [sortkeycnt] keys on. *)
Fixpoint presorted_loop (sortkeycnt : nat) (outerpath : Path) (mergeclauses : list RestrictInfo)
    (innersortkeys merge_pathkeys : list PathKey) (cheapest_startup_inner cheapest_total_inner : option Path)
    (jointype : JoinType) (extra : JoinExtra) (useallclauses is_partial : bool) (st : JoinState) : result JoinState :=
  match sortkeycnt with
  | O => Ok st
  | S n =>
      let trialsortkeys := take sortkeycnt innersortkeys in
      let try_inner innerpath newclauses :=
        try_mergejoin_path outerpath innerpath merge_pathkeys newclauses [] [] jointype extra is_partial in
      let! (newclauses, cheapest_total_inner, st) :=
        match get_cheapest_path_for_pathkeys (pathlist (js_inner st)) trialsortkeys None TOTAL_COST is_partial with
        | Some innerpath =>
            if cheaper_inner innerpath cheapest_total_inner TOTAL_COST then
              let newclauses := clauses_for sortkeycnt innersortkeys mergeclauses in
              let! st := try_inner innerpath newclauses st in
              Ok (newclauses, Some innerpath, st)
            else Ok ([], cheapest_total_inner, st)
        | None => Ok ([], cheapest_total_inner, st)
        end in
      let! (cheapest_startup_inner, st) :=
        match get_cheapest_path_for_pathkeys (pathlist (js_inner st)) trialsortkeys None STARTUP_COST is_partial with
        | Some innerpath =>
            if cheaper_inner innerpath cheapest_startup_inner STARTUP_COST then
              if match cheapest_total_inner with Some p => same_path innerpath p | None => false end
              then Ok (Some innerpath, st)
              else
                let newclauses := match newclauses with
                                  | [] => clauses_for sortkeycnt innersortkeys mergeclauses
                                  | _ => newclauses
                                  end in
                let! st := try_inner innerpath newclauses st in
                Ok (Some innerpath, st)
            else Ok (cheapest_startup_inner, st)
        | None => Ok (cheapest_startup_inner, st)
        end in
      if useallclauses then Ok st
      else presorted_loop n outerpath mergeclauses innersortkeys merge_pathkeys cheapest_startup_inner
             cheapest_total_inner jointype extra useallclauses is_partial st
  end.

Definition generate_mergejoin_paths (outerpath : Path) (jointype : JoinType) (extra : JoinExtra) (useallclauses : bool)
    (inner_cheapest_total : Path) (merge_pathkeys : list PathKey) (is_partial : bool) : step := fun st =>
  let save_jointype := jointype in
  let jointype := match jointype with JOIN_UNIQUE_OUTER | JOIN_UNIQUE_INNER => JOIN_INNER | jt => jt end in
  let mergeclauses := find_mergeclauses_for_outer_pathkeys (pathkeys outerpath) (mergeclause_list extra) in
  if bool_decide (mergeclauses = []) && negb (bool_decide (jointype = JOIN_FULL)) then Ok st
  else if useallclauses && negb (length mergeclauses =? length (mergeclause_list extra))%nat then Ok st
  else
    let! (innersortkeys, canon) := make_inner_pathkeys_for_merge (js_canon st) mergeclauses (pathkeys outerpath) in
    let st := set_canon st canon in
    let! st := try_mergejoin_path outerpath inner_cheapest_total merge_pathkeys mergeclauses [] innersortkeys jointype
                 extra is_partial st in
    if bool_decide (save_jointype = JOIN_UNIQUE_INNER) then Ok st
    else
      let found := if pathkeys_contained_in innersortkeys (pathkeys inner_cheapest_total)
                   then Some inner_cheapest_total else None in
      presorted_loop (length innersortkeys) outerpath mergeclauses innersortkeys merge_pathkeys found found jointype
        extra useallclauses is_partial st.

(** ** Nested loops and merge joins over the outer paths as they are *)

Definition consider_parallel_mergejoin (jointype : JoinType) (extra : JoinExtra) (inner_cheapest_total : Path) : step :=
  fun st =>
  for_each (partial_pathlist (js_outer st)) (fun outerpath st =>
    generate_mergejoin_paths outerpath jointype extra false inner_cheapest_total
      (join_pathkeys jointype (pathkeys outerpath) st) true st) st.

(** One inner path of consider_parallel_nestloop. *)
Definition partial_nestloop_with (save_jointype jointype : JoinType) (extra : JoinExtra) (outerpath : Path)
    (keys : list PathKey) (innerpath : Path) : step := fun st =>
  if negb (parallel_safe innerpath) then Ok st
  else if bool_decide (save_jointype = JOIN_UNIQUE_INNER) then
    let! total := deref (cheapest_total_path (js_inner st)) in
    if negb (same_path innerpath total) then Ok st
    else
      let! (innerpath, st) := unique_inner innerpath st in
      try_partial_nestloop_path outerpath innerpath keys jointype extra st
  else try_partial_nestloop_path outerpath innerpath keys jointype extra st.

Definition consider_parallel_nestloop (jointype : JoinType) (extra : JoinExtra) : step := fun st =>
  let save_jointype := jointype in
  let jointype := match jointype with JOIN_UNIQUE_INNER => JOIN_INNER | jt => jt end in
  for_each (partial_pathlist (js_outer st)) (fun outerpath st =>
    for_each (cheapest_parameterized_paths (js_inner st))
      (partial_nestloop_with save_jointype jointype extra outerpath (join_pathkeys jointype (pathkeys outerpath) st)) st) st.

(** [(jointype, nestjoinOK, useallclauses)]. *)
Definition nestloop_support (jointype : JoinType) : JoinType * bool * bool :=
  match jointype with
  | JOIN_INNER | JOIN_LEFT | JOIN_SEMI | JOIN_ANTI => (jointype, true, false)
  | JOIN_RIGHT | JOIN_FULL => (jointype, false, true)
  | JOIN_UNIQUE_OUTER | JOIN_UNIQUE_INNER => (JOIN_INNER, true, false)
  end.

(** If the outer path must be unique-ified, only the cheapest one is considered. *)
Definition outer_candidate (save_jointype : JoinType) (outerpath : Path) (st : JoinState)
    : result (option (Path * JoinState)) :=
  if bool_decide (save_jointype = JOIN_UNIQUE_OUTER) then
    let! total := deref (cheapest_total_path (js_outer st)) in
    if negb (same_path outerpath total) then Ok None
    else let! chosen := unique_outer outerpath st in Ok (Some chosen)
  else Ok (Some (outerpath, st)).

(** One outer path of match_unsorted_outer. *)
Definition match_outer_path (save_jointype jointype : JoinType) (nestjoinOK useallclauses : bool) (extra : JoinExtra)
    (inner_cheapest_total matpath : option Path) (outerpath : Path) : step := fun st =>
  if PATH_PARAM_BY_REL outerpath innerrel then Ok st
  else
    let! chosen := outer_candidate save_jointype outerpath st in
    match chosen with
    | None => Ok st
    | Some (outerpath, st) =>
        let merge_pathkeys := join_pathkeys jointype (pathkeys outerpath) st in
        let nestloop innerpath := try_nestloop_path outerpath innerpath merge_pathkeys jointype extra in
        let! st :=
          if bool_decide (save_jointype = JOIN_UNIQUE_INNER) then
            let! inner_path := deref inner_cheapest_total in nestloop inner_path st
          else if nestjoinOK then
            (for_each (cheapest_parameterized_paths (js_inner st)) nestloop;;
             match matpath with Some m => nestloop m | None => skip end) st
          else Ok st in
        if bool_decide (save_jointype = JOIN_UNIQUE_OUTER) then Ok st
        else
          match inner_cheapest_total with
          | None => Ok st
          | Some inner_path =>
              generate_mergejoin_paths outerpath save_jointype extra useallclauses inner_path merge_pathkeys false st
          end
    end.

(** The partial paths at the end of match_unsorted_outer. *)
Definition match_partial (save_jointype : JoinType) (nestjoinOK : bool) (extra : JoinExtra)
    (inner_cheapest_total : option Path) : step := fun st =>
  if partial_ok save_jointype st then
    let! st := when nestjoinOK (consider_parallel_nestloop save_jointype extra) st in
    let safe := match inner_cheapest_total with
                | Some p => if parallel_safe p then Some p else None
                | None => None
                end in
    let inner :=
      match safe with
      | Some p => Some p
      | None => if bool_decide (save_jointype = JOIN_UNIQUE_INNER) then None
                else get_cheapest_parallel_safe_total_inner (pathlist (js_inner st))
      end in
    match inner with
    | Some p => consider_parallel_mergejoin save_jointype extra p st
    | None => Ok st
    end
  else Ok st.

Definition match_unsorted_outer (jointype : JoinType) (extra : JoinExtra) : step := fun st =>
  let save_jointype := jointype in
  let '(jointype, nestjoinOK, useallclauses) := nestloop_support jointype in
  let! inner_total := deref (cheapest_total_path (js_inner st)) in
  let inner_cheapest_total := if PATH_PARAM_BY_REL inner_total outerrel then None else Some inner_total in
  if bool_decide (save_jointype = JOIN_UNIQUE_INNER) && bool_decide (inner_cheapest_total = None) then Ok st
  else
    let! (inner_cheapest_total, st) :=
      if bool_decide (save_jointype = JOIN_UNIQUE_INNER) then
        let! (p, st) := unique_inner inner_total st in Ok (Some p, st)
      else Ok (inner_cheapest_total, st) in
    let matpath :=
      if negb (bool_decide (save_jointype = JOIN_UNIQUE_INNER)) && nestjoinOK && enable_material then
        p ← inner_cheapest_total;
        if ExecMaterializesOutput (pathtype p) then None else Some (create_material_path innerrel p)
      else None in
    (for_each (pathlist (js_outer st))
       (match_outer_path save_jointype jointype nestjoinOK useallclauses extra inner_cheapest_total matpath);;
     match_partial save_jointype nestjoinOK extra inner_cheapest_total) st.

(** ** Hash joins *)

(** The hash clauses usable with these inputs. *)
Fixpoint hashable_clauses (isouterjoin : bool) (clauses : list RestrictInfo) : list RestrictInfo :=
  match clauses with
  | [] => []
  | r :: clauses =>
      if (isouterjoin && is_pushed_down r) || negb (can_join r) || (hashjoinoperator r =? 0)
      then hashable_clauses isouterjoin clauses
      else match clause_sides_match_join r outerrel innerrel with
           | Some r => r :: hashable_clauses isouterjoin clauses
           | None => hashable_clauses isouterjoin clauses
           end
  end.

(** Pairings of the cheapest paths of each parameterization. *)
Definition hash_pairs (cheapest_startup_outer : option Path) (cheapest_total_inner : Path) (hashclauses : list RestrictInfo)
    (jointype : JoinType) (extra : JoinExtra) : step := fun st =>
  for_each (cheapest_parameterized_paths (js_outer st)) (fun outerpath st =>
    if PATH_PARAM_BY_REL outerpath innerrel then Ok st
    else for_each (cheapest_parameterized_paths (js_inner st)) (fun innerpath st =>
      if PATH_PARAM_BY_REL innerpath outerrel then Ok st
      else if match cheapest_startup_outer with Some p => same_path outerpath p | None => false end
              && same_path innerpath cheapest_total_inner
      then Ok st
      else try_hashjoin_path outerpath innerpath hashclauses jointype extra st) st) st.

Definition hash_inner_and_outer (jointype : JoinType) (extra : JoinExtra) : step := fun st =>
  let save_jointype := jointype in
  match hashable_clauses (IS_OUTER_JOIN jointype) (restrictlist extra) with
  | [] => Ok st
  | hashclauses =>
      let cheapest_startup_outer := cheapest_startup_path (js_outer st) in
      let! cheapest_total_outer := deref (cheapest_total_path (js_outer st)) in
      let! cheapest_total_inner := deref (cheapest_total_path (js_inner st)) in
      if PATH_PARAM_BY_REL cheapest_total_outer innerrel || PATH_PARAM_BY_REL cheapest_total_inner outerrel then Ok st
      else
        let! (cheapest_total_outer, cheapest_total_inner, jointype, st) :=
          uniquify jointype cheapest_total_outer cheapest_total_inner st in
        let try outer := try_hashjoin_path outer cheapest_total_inner hashclauses jointype extra in
        let! st :=
          match save_jointype with
          | JOIN_UNIQUE_OUTER => try cheapest_total_outer st
          | JOIN_UNIQUE_INNER =>
              (try cheapest_total_outer;;
               match cheapest_startup_outer with
               | Some p => when (negb (same_path p cheapest_total_outer)) (try p)
               | None => skip
               end) st
          | _ =>
              (match cheapest_startup_outer with Some p => try p | None => skip end;;
               hash_pairs cheapest_startup_outer cheapest_total_inner hashclauses jointype extra) st
          end in
        match partial_inputs save_jointype cheapest_total_inner st with
        | Some (cheapest_partial_outer, cheapest_safe_inner) =>
            try_partial_hashjoin_path cheapest_partial_outer cheapest_safe_inner hashclauses jointype extra st
        | None => Ok st
        end
  end.

(** ** The whole search *)

(** The merge clauses of the join, and whether a clause cannot be merged. *)
Fixpoint mergejoin_clauses_loop (isouterjoin : bool) (clauses : list RestrictInfo) : list RestrictInfo * bool :=
  match clauses with
  | [] => ([], false)
  | r :: clauses =>
      let (result_list, have_nonmergeable) := mergejoin_clauses_loop isouterjoin clauses in
      if isouterjoin && is_pushed_down r then (result_list, have_nonmergeable)
      else if negb (can_join r) || bool_decide (mergeopfamilies r = [])
      then (result_list, match clause r with Const _ _ => have_nonmergeable | _ => true end)
      else match clause_sides_match_join r outerrel innerrel with
           | None => (result_list, true)
           | Some r =>
               let r := update_mergeclause_eclasses r in
               if EC_MUST_BE_REDUNDANT (left_ec r) || EC_MUST_BE_REDUNDANT (right_ec r) then (result_list, true)
               else (r :: result_list, have_nonmergeable)
           end
  end.

(** The clauses and mergejoin_allowed. *)
Definition select_mergejoin_clauses (restrictlist : list RestrictInfo) (jointype : JoinType) : list RestrictInfo * bool :=
  let (result_list, have_nonmergeable_joinclause) := mergejoin_clauses_loop (IS_OUTER_JOIN jointype) restrictlist in
  (result_list, match jointype with JOIN_RIGHT | JOIN_FULL => negb have_nonmergeable_joinclause | _ => true end).

Definition prove_inner_unique (jointype : JoinType) (sjinfo : SpecialJoinInfo) (restrictlist : list RestrictInfo) : bool :=
  match jointype with
  | JOIN_SEMI | JOIN_ANTI => false
  | JOIN_UNIQUE_INNER => bms_is_subset (min_lefthand sjinfo) (relids outerrel)
  | JOIN_UNIQUE_OUTER => innerrel_is_unique (relids outerrel) innerrel JOIN_INNER restrictlist
  | _ => innerrel_is_unique (relids outerrel) innerrel jointype restrictlist
  end.

(** The relations that may supply parameters, from the join order restrictions. *)
Fixpoint source_rels (joinrelids all_baserels : Relids) (join_info_list : list SpecialJoinInfo) (rels : Relids) : Relids :=
  match join_info_list with
  | [] => rels
  | sj :: join_info_list =>
      let rels := if bms_overlap joinrelids (min_righthand sj) && negb (bms_overlap joinrelids (min_lefthand sj))
                  then bms_join rels (bms_difference all_baserels (min_righthand sj)) else rels in
      let rels := if bool_decide (sj_jointype sj = JOIN_FULL) && bms_overlap joinrelids (min_lefthand sj)
                     && negb (bms_overlap joinrelids (min_righthand sj))
                  then bms_join rels (bms_difference all_baserels (min_lefthand sj)) else rels in
      source_rels joinrelids all_baserels join_info_list rels
  end.

Definition run_hook (hook : option (RelPaths -> RelPaths)) : step := fun st =>
  match hook with Some f => Ok (set_paths st (f (js_paths st))) | None => Ok st end.

(** The fields of [extra] that are set before paths are made, and mergejoin_allowed;
    the factors stay unset where no correction is needed. *)
Definition make_extra (jointype : JoinType) (sjinfo : SpecialJoinInfo) (restrictlist : list RestrictInfo) : JoinExtra * bool :=
  let inner_unique := prove_inner_unique jointype sjinfo restrictlist in
  let (mergeclause_list, mergejoin_allowed) :=
    if enable_mergejoin || bool_decide (jointype = JOIN_FULL)
    then select_mergejoin_clauses restrictlist jointype else ([], true) in
  let factors :=
    if bool_decide (jointype = JOIN_SEMI) || bool_decide (jointype = JOIN_ANTI) || inner_unique
    then compute_semi_anti_join_factors outerrel innerrel jointype sjinfo restrictlist
    else mkSemiAntiJoinFactors dzero dzero in
  let rels := source_rels (relids (jrel joinrel)) (all_baserels (jp_info root)) (join_info_list root) None in
  (mkJoinExtra restrictlist mergeclause_list (mkJoinPathExtraData inner_unique factors) sjinfo
     (bms_add_members rels (lateral_relids joinrel)), mergejoin_allowed).

Definition add_paths_to_joinrel (jointype : JoinType) (sjinfo : SpecialJoinInfo) (restrictlist : list RestrictInfo) : step :=
  let (extra, mergejoin_allowed) := make_extra jointype sjinfo restrictlist in
  when mergejoin_allowed (sort_inner_and_outer jointype extra);;
  when mergejoin_allowed (match_unsorted_outer jointype extra);;
  when (enable_hashjoin || bool_decide (jointype = JOIN_FULL)) (hash_inner_and_outer jointype extra);;
  run_hook GetForeignJoinPaths;;
  run_hook set_join_pathlist_hook.

End joinpath.
