(* ===== verification/QualCover.v ===== *)
(** Costs of sublists of clauses: the clauses a hash or merge join evaluates itself
    cost no more than all clauses of the join, whatever the caches and links in them. *)
From stdpp Require Import gmap.
From S2P Require Import Prelude Float64 Double DoubleOrder DoubleDiv Bitmapset PlanTypes CostExpr CostBase CostScan CostScanSpec CostNode CostJoin CostJoinSpec MergeKeys.
Open Scope double_scope.

(** Two clauses that differ in their caches and links only. *)
Definition same_clause (r r' : RestrictInfo) : Prop :=
  exists lb rb jc, r' = set_join (set_bucketsizes r lb rb) jc.

#[export] Instance same_clause_preorder : PreOrder same_clause.
Proof.
  split.
  - intros r. exists (left_bucketsize r), (right_bucketsize r), (ri_join r). destruct r; reflexivity.
  - intros r ? ? (lb & rb & jc & ->) (lb' & rb' & jc' & ->). exists lb', rb', jc'. destruct r; reflexivity.
Qed.

Lemma same_clause_join r jc : same_clause r (set_join r jc).
Proof. exists (left_bucketsize r), (right_bucketsize r), jc. destruct r; reflexivity. Qed.

Lemma same_clause_buckets r lb rb : same_clause r (set_bucketsizes r lb rb).
Proof. exists lb, rb, (ri_join r). destruct r; reflexivity. Qed.

Lemma same_clause_node r r' : same_clause r r' -> clauses_ok [r] -> clauses_ok [r'].
Proof.
  intros (lb & rb & jc & ->). rewrite !clauses_ok_forall, !Forall_singleton. intros [N P].
  inversion N as [n1 S1 C1]; inversion P as [n2 S2 S3 C2]; subst. destruct r.
  split; constructor; cbn; try discriminate; assumption.
Qed.

Lemma same_clauses_ok l l' : Forall2 same_clause l l' -> clauses_ok l -> clauses_ok l'.
Proof.
  rewrite !clauses_ok_forall. induction 1 as [|r r' l l' Hr _ IH]; intros Hl; [constructor|].
  apply Forall_cons in Hl as [H1 H2]. constructor; [|exact (IH H2)].
  pose proof (same_clause_node r r' Hr) as S. rewrite !clauses_ok_forall, !Forall_singleton in S. exact (S H1).
Qed.

Section cover.
Context `{Libm, Settings, Catalog, Estimator, !CatalogLaws, !EstimatorLaws} (So : settings_ok).

(** Evaluating the clause [r] adds the cost [c]. *)
Definition charges (r : RestrictInfo) (c : QualCost) : Prop :=
  qual_cost_ok c /\ forall ctx, exists n, cost_qual_eval_walker (RestrictInfoNode r) ctx = Ok (n, charge ctx c).

Lemma clause_charges r : clauses_ok [r] -> exists c, charges r c.
Proof.
  intros Hr. pose proof Hr as [N P]. destruct (cost_qual_eval_total So _ N P) as (q & c0 & E & C0).
  rewrite clauses_ok_forall, Forall_singleton in Hr. destruct Hr as [Nr _]. inversion Nr as [n S Ch]; subst. clear Nr.
  unfold cost_qual_eval in E. cbn [qual_nodes map walk_list] in E. apply rbind_ok in E as ([n c] & E & _). revert E.
  destruct r as [ptr cl pd pc cr outr nr lr rr oc ec cost lb rb jc]. cbn [stored_costs_ok eval_cost] in S.
  cbn [cost_qual_eval_walker]. destruct (startup cost <? i2d 0) eqn:Es.
  - intros E. apply rbind_ok in E as ([[cl' oc'] tot] & E & E'). injection E' as <- <-.
    exists (restrictinfo_cost pc tot). split.
    + apply restrictinfo_cost_ok. cbn [children] in Ch.
      destruct oc as [o|]; apply rbind_ok in E as ([x t] & Ex & Et); injection Et as <- <- <-.
      * apply Forall_cons in Ch as [_ Ch]. apply Forall_cons in Ch as [Ch _].
        apply (cost_qual_eval_walker_grows (walker_settings So) _ _ _ _ Ch Ex), zero_qual_cost_ok.
      * apply Forall_cons in Ch as [Ch _].
        apply (cost_qual_eval_walker_grows (walker_settings So) _ _ _ _ Ch Ex), zero_qual_cost_ok.
    + intros ctx. cbn [cost_qual_eval_walker]. rewrite Es, E. cbn [rbind]. eauto.
  - intros _. exists cost. split; [destruct S as [S|S]; [congruence|exact S]|].
    intros ctx. cbn [cost_qual_eval_walker]. rewrite Es. eauto.
Qed.

Lemma same_charges r r' c : same_clause r r' -> charges r c -> charges r' c.
Proof.
  intros (lb & rb & jc & ->) [C W]. split; [exact C|]. intros ctx. destruct (W ctx) as [n E].
  destruct r as [ptr cl pd pc cr outr nr lr rr oc ec cost lb0 rb0 jc0].
  cbn [set_join set_bucketsizes cost_qual_eval_walker] in *. destruct (startup cost <? i2d 0).
  - apply rbind_ok in E as ([[cl' oc'] tot] & E & E'). rewrite E. cbn [rbind].
    assert (charge ctx (restrictinfo_cost pc tot) = charge ctx c) as -> by congruence. eauto.
  - assert (charge ctx cost = charge ctx c) as -> by congruence. eauto.
Qed.

(** [part] is a sublist of [all], up to caches and links. *)
Inductive within : list RestrictInfo -> list RestrictInfo -> Prop :=
| within_nil l : within [] l
| within_keep r r' part all : same_clause r r' -> within part all -> within (r' :: part) (r :: all)
| within_skip r part all : within part all -> within part (r :: all).

Lemma within_refl l : within l l.
Proof. induction l; constructor; [reflexivity|assumption]. Qed.

Lemma charge_mono a b c : qual_cost_ok a -> qual_cost_ok b -> qual_cost_ok c -> qual_cost_le a b ->
  qual_cost_le (charge a c) (charge b c).
Proof. intros [A1 A2] [B1 B2] [C1 C2] [L1 L2]. split; cbn; apply cle_add; auto; reflexivity. Qed.

Lemma walk_within part all : within part all -> clauses_ok all -> forall a b,
  qual_cost_ok a -> qual_cost_ok b -> qual_cost_le a b ->
  exists qp cp qa ca, walk_list cost_qual_eval_walker (qual_nodes part) a = Ok (qp, cp)
    /\ walk_list cost_qual_eval_walker (qual_nodes all) b = Ok (qa, ca)
    /\ qual_cost_ok cp /\ qual_cost_ok ca /\ qual_cost_le cp ca.
Proof.
  intros W. induction W as [l|r r' part all Sr W IH|r part all W IH]; intros Hc a b Ha Hb L.
  - induction l as [|r l IHl] in b, Hb, L, Hc |- *; [do 4 eexists; split_and!; try reflexivity; assumption|].
    rewrite clauses_ok_forall, Forall_cons, <- clauses_ok_forall in Hc. destruct Hc as [Hr Hl].
    destruct (clause_charges r) as (c & C & Wr); [rewrite clauses_ok_forall, Forall_singleton; exact Hr|].
    destruct (grows_charge b c C Hb) as [Hb' L']. destruct (Wr b) as [n En].
    destruct (IHl Hl (charge b c) Hb') as (qp & cp & qa & ca & E1 & E2 & K1 & K2 & K3).
    { destruct L, L'. split; etransitivity; eassumption. }
    cbn [qual_nodes map walk_list]. rewrite En. cbn [rbind]. unfold qual_nodes in E2. rewrite E2. cbn [rbind].
    do 4 eexists. split_and!; [exact E1|reflexivity|assumption..].
  - rewrite clauses_ok_forall, Forall_cons, <- clauses_ok_forall in Hc. destruct Hc as [Hr Hl].
    destruct (clause_charges r) as (c & C & Wr); [rewrite clauses_ok_forall, Forall_singleton; exact Hr|].
    pose proof (same_charges r r' c Sr (conj C Wr)) as [_ Wr'].
    destruct (grows_charge a c C Ha) as [Ha' _]. destruct (grows_charge b c C Hb) as [Hb' _].
    destruct (Wr b) as [n En]. destruct (Wr' a) as [n' En'].
    destruct (IH Hl _ _ Ha' Hb' (charge_mono a b c Ha Hb C L)) as (qp & cp & qa & ca & E1 & E2 & K).
    cbn [qual_nodes map walk_list]. rewrite En, En'. cbn [rbind]. unfold qual_nodes in E1, E2. rewrite E1, E2. cbn [rbind].
    do 4 eexists. split_and!; [reflexivity|reflexivity|apply K..].
  - rewrite clauses_ok_forall, Forall_cons, <- clauses_ok_forall in Hc. destruct Hc as [Hr Hl].
    destruct (clause_charges r) as (c & C & Wr); [rewrite clauses_ok_forall, Forall_singleton; exact Hr|].
    destruct (grows_charge b c C Hb) as [Hb' L']. destruct (Wr b) as [n En].
    destruct (IH Hl a (charge b c) Ha Hb') as (qp & cp & qa & ca & E1 & E2 & K).
    { destruct L, L'. split; etransitivity; eassumption. }
    cbn [qual_nodes map walk_list]. rewrite En. cbn [rbind]. unfold qual_nodes in E2. rewrite E2. cbn [rbind].
    do 4 eexists. split_and!; [exact E1|reflexivity|apply K..].
Qed.

Lemma within_cover part all : within part all -> clauses_ok all -> quals_cover part all.
Proof.
  intros W Hc q1 c1 q2 c2 E1 E2. unfold cost_qual_eval in *.
  destruct (walk_within part all W Hc zero_qual_cost zero_qual_cost zero_qual_cost_ok zero_qual_cost_ok)
    as (qp & cp & qa & ca & F1 & F2 & _ & _ & K); [split; reflexivity|].
  rewrite E1 in F1. rewrite E2 in F2. injection F1 as <- <-. injection F2 as <- <-. exact K.
Qed.

(** More clauses in front cost more. *)
Lemma cover_app part all pre : quals_cover part all -> clauses_ok pre -> clauses_ok all -> quals_cover part (pre ++ all).
Proof.
  intros Hc Hp Ha q1 c1 q2 c2 E1 E2. unfold cost_qual_eval in *.
  destruct (walk_within [] pre (within_nil pre) Hp zero_qual_cost zero_qual_cost zero_qual_cost_ok zero_qual_cost_ok)
    as (q0 & c0 & qa & ca & F1 & F2 & _ & K2 & K3); [split; reflexivity|]. injection F1 as <- <-.
  destruct (walk_within all all (within_refl all) Ha zero_qual_cost ca zero_qual_cost_ok K2 K3)
    as (qb & cb & qd & cd & F3 & F4 & _ & _ & K).
  unfold qual_nodes in *. rewrite map_app, walk_list_app, F2 in E2. cbn [rbind] in E2. rewrite F4 in E2.
  injection E2 as <- <-. destruct (Hc q1 c1 qb cb E1 F3) as [L1 L2], K as [K4 K5]. split; etransitivity; eassumption.
Qed.

End cover.
