(* ===== verification/JoinPathSpec.v ===== *)
(** What the search for join paths guarantees: over well-formed inputs it raises no
    error, its only effect on the join relation is to offer it well-formed join
    paths, and it finds a path for every join that nested loops support. *)
From stdpp Require Import gmap relations.
From S2P Require Import Prelude Float64 Double DoubleOrder DoubleDiv DoubleRound Bitmapset BitmapsetSpec PlanTypes Samples Pathkeys PathCompare AddPath Cheapest CostExpr CostBase CostScan CostScanSpec CostNode HashSize CostJoin CostJoinSpec SizeEst SizeEstSpec ParamInfo CreatePath CreatePathSpec UpperPathSpec MergeKeys MergeKeysSpec JoinPath QualCover.
Open Scope Z_scope.

(** ** Inputs *)

(** The parameters of a path: relations outside its own, NULL if there are none. *)
Record param_ok (rel : RelOptInfo) (p : Path) : Prop := {
  pa_wf : bms_wf (PATH_REQ_OUTER p);
  pa_apart : forall x, member x (PATH_REQ_OUTER p) -> ~ member x (relids rel);
  pa_null : (forall x, ~ member x (PATH_REQ_OUTER p)) -> PATH_REQ_OUTER p = None;
  pa_info : PATH_REQ_OUTER p = None -> param_info p = None;
}.

(** A path of one of the inputs: costed, with no more rows than its relation and a
    canonical sort order. *)
Record side_path (rel : RelOptInfo) (canon : list PathKey) (p : Path) : Prop := {
  sp_input : input_ok p;
  sp_count : row_count (rows p);
  sp_rows : rows p ⊑ rel_rows rel;
  sp_parent : parent p = rel;
  sp_param : param_ok rel p;
  sp_known : known canon (pathkeys p);
  sp_order : NoDup (map pk_eclass (pathkeys p));
  sp_workers : 0 <= parallel_workers p;
}.

(** An input relation after set_cheapest. *)
Record side_ok (rel : RelOptInfo) (canon : list PathKey) (r : RelPaths) : Prop := {
  sd_paths : Forall (side_path rel canon) (pathlist r);
  sd_partial : Forall (fun p => side_path rel canon p /\ PATH_REQ_OUTER p = None /\ parallel_safe p = true) (partial_pathlist r);
  sd_total : exists p, cheapest_total_path r = Some p /\ side_path rel canon p;
  sd_startup : match cheapest_startup_path r with Some p => side_path rel canon p /\ PATH_REQ_OUTER p = None | None => True end;
  sd_unique : match cheapest_unique_path r with
              | Some u => side_path rel canon u
                  /\ forall p, cheapest_total_path r = Some p -> param_info u = param_info p /\ parallel_safe u = parallel_safe p
              | None => True
              end;
  sd_cheapest : Forall (side_path rel canon) (cheapest_parameterized_paths r);
}.

Lemma side_path_grow rel canon canon' p : canon `prefix_of` canon' -> side_path rel canon p -> side_path rel canon' p.
Proof. intros G [? ? ? ? ? K ? ?]. split; try assumption. eapply known_prefix; eassumption. Qed.

Lemma side_ok_grow rel canon canon' r : canon `prefix_of` canon' -> side_ok rel canon r -> side_ok rel canon' r.
Proof.
  intros G [P1 P2 (p & E & P3) P4 P5 P6]. pose proof (fun q => side_path_grow rel canon canon' q G) as M. split.
  - eapply Forall_impl; [exact P1|exact M].
  - eapply Forall_impl; [exact P2|]. cbn. intros q (S & ?). auto.
  - eauto.
  - destruct (cheapest_startup_path r); [destruct P4; auto|exact I].
  - destruct (cheapest_unique_path r); [destruct P5; auto|exact I].
  - eapply Forall_impl; [exact P6|exact M].
Qed.

Lemma finite_product a b a' b' : nonneg a = true -> nonneg b = true -> nonneg a' = true -> nonneg b' = true ->
  finite a -> finite b' -> finite (a' * b')%D -> a ⊑ a' -> b ⊑ b' -> finite a' -> finite (a * b)%D.
Proof.
  intros Ha Hb Ha' Hb' Fa Fb' F La Lb Fa'. eapply finite_le; [exact F|].
  transitivity (a * b')%D; [apply cle_mul_l|apply cle_mul_r]; assumption.
Qed.

Section spec.
Context `{Libm, Settings, Catalog, Estimator, Equivalences, PathSupport, EClasses, JoinSupport}.
Context `{!CatalogLaws, !EstimatorLaws, !EquivalenceLaws, !LibmOrder, !JoinSupportLaws} (So : settings_ok).
Context (root : JoinPlanner) (joinrel : JoinRel) (outerrel innerrel : RelOptInfo) (extra : JoinExtra).

(** The fixed data of the search. *)
Record search_ok : Prop := {
  se_rows : row_count (rel_rows (jrel joinrel));
  se_target : qual_cost_ok (target_cost (reltarget (jrel joinrel)));
  se_width : 0 <= width (reltarget (jrel joinrel)) < 2 ^ 30;
  se_fkeys : Forall (fkey_ok (jp_root root)) (fkey_list (jp_root root));
  se_type : estimable (sj_jointype (ex_sjinfo extra)) = true;
  se_clauses : clauses_ok (restrictlist extra);
  se_buckets : Forall buckets_ok (restrictlist extra);
  se_factors : factors_ok (semifactors (jextra extra));
  se_outer : bms_wf (relids outerrel);
  se_inner : bms_wf (relids innerrel);
  se_join : represents (relids (jrel joinrel)) (fun x => member x (relids outerrel) \/ member x (relids innerrel));
  se_outer_rows : row_count (rel_rows outerrel);
  se_inner_rows : row_count (rel_rows innerrel);
  se_inner_target : 0 <= width (reltarget innerrel) < 2 ^ 30;
  se_product : finite (rel_rows outerrel * rel_rows innerrel)%D;
  se_query : NoDup (map pk_eclass (query_pathkeys root));
  se_linked : Forall linked (mergeclause_list extra);
  se_matter : Forall (fun r => EC_MUST_BE_REDUNDANT (inner_ec r) = false) (mergeclause_list extra);
  se_matter_outer : Forall (fun r => EC_MUST_BE_REDUNDANT (outer_ec r) = false) (mergeclause_list extra);
  se_collation : Forall (fun r => ec_collation (outer_ec r) = ec_collation (inner_ec r)) (mergeclause_list extra);
  se_merge_ok : clauses_ok (mergeclause_list extra);
  se_merge : forall mc, mc ⊆+ mergeclause_list extra -> quals_cover mc (restrictlist extra);
}.
Context (Se : search_ok).

Definition bucket_ok (b : Selectivity) : Prop := (b <? i2d 0)%D = true \/ nonneg b = true.

(** ** Offers *)

(** A path of the join relation as the search builds them: fit to be the input of a join
    above, and parallel-safe only if the relation is. *)
Record join_path (canon : list PathKey) (p : Path) : Prop := {
  jp_side : side_path (jrel joinrel) canon p;
  jp_safe : parallel_safe p = true -> consider_parallel (jrel joinrel) = true;
}.

(** A partial path needs no parameters and runs in a worker. *)
Definition partial_join_path (canon : list PathKey) (p : Path) : Prop :=
  join_path canon p /\ PATH_REQ_OUTER p = None /\ parallel_safe p = true.

(** The paths of the join relation so far. *)
Record joinrel_paths (canon : list PathKey) (r : RelPaths) : Prop := {
  jr_full : Forall (join_path canon) (pathlist r);
  jr_partial : Forall (partial_join_path canon) (partial_pathlist r);
}.

Lemma join_path_grow canon canon' p : canon `prefix_of` canon' -> join_path canon p -> join_path canon' p.
Proof. intros G [S P]. split; [eapply side_path_grow; eassumption|exact P]. Qed.

Lemma partial_path_grow canon canon' p : canon `prefix_of` canon' -> partial_join_path canon p -> partial_join_path canon' p.
Proof. intros G (J & ?). split; [eapply join_path_grow; eassumption|assumption]. Qed.

Lemma joinrel_paths_grow canon canon' r : canon `prefix_of` canon' -> joinrel_paths canon r -> joinrel_paths canon' r.
Proof.
  intros G [F P]. split; (eapply Forall_impl; [eassumption|]); intros p; [apply join_path_grow, G|apply partial_path_grow, G].
Qed.

Record search_inv (st : JoinState) : Prop := {
  iv_canon : canon_ok (js_canon st);
  iv_query : known (js_canon st) (query_pathkeys root);
  iv_params : join_params (jrel joinrel) (js_params st);
  iv_outer : side_ok outerrel (js_canon st) (js_outer st);
  iv_inner : side_ok innerrel (js_canon st) (js_inner st);
  iv_scansel : map_Forall (fun _ c => cache_ok c) (js_scansel st);
  iv_buckets : map_Forall (fun _ b => bucket_ok b.1 /\ bucket_ok b.2) (js_buckets st);
  iv_paths : joinrel_paths (js_canon st) (js_paths st);
}.

Inductive offered (canon : list PathKey) : RelPaths -> RelPaths -> Prop :=
| offered_path rel p : join_path canon p -> offered canon rel (add_path rel p).1
| offered_partial rel p : partial_join_path canon p -> offered canon rel (add_partial_path rel p).1.

Lemma offered_grow canon canon' a b : canon `prefix_of` canon' -> rtc (offered canon) a b -> rtc (offered canon') a b.
Proof.
  intros G. apply rtc_subrel. intros x y []; constructor; [eapply join_path_grow|eapply partial_path_grow]; eassumption.
Qed.

(** What a routine of the search may do to the state. *)
Record progress (st st' : JoinState) : Prop := {
  pg_paths : rtc (offered (js_canon st')) (js_paths st) (js_paths st');
  pg_outer : js_outer st' = js_outer st;
  pg_inner : js_inner st' = js_inner st;
  pg_canon : js_canon st `prefix_of` js_canon st';
  pg_joininfo : joininfo (js_params st') = joininfo (js_params st);
}.

#[export] Instance progress_preorder : PreOrder progress.
Proof.
  split.
  - intros st. split; reflexivity.
  - intros a b c [P1 P2 P3 P4 P5] [Q1 Q2 Q3 Q4 Q5]. split; try congruence; [|etransitivity; eassumption].
    etransitivity; [eapply offered_grow; eassumption|exact Q1].
Qed.

(** The routine returns with the invariant, having made progress, in a state with [Q]. *)
Definition returns (st : JoinState) (r : result JoinState) (Q : JoinState -> Prop) : Prop :=
  exists st', r = Ok st' /\ search_inv st' /\ progress st st' /\ Q st'.

Abbreviation ok st r := (returns st r (fun _ => True)).

Lemma ok_skip st : search_inv st -> ok st (Ok st).
Proof. intros I. exists st. split_and!; [reflexivity|exact I|reflexivity|exact Logic.I]. Qed.

Lemma returns_bind st r (g : JoinState -> result JoinState) Q R : returns st r Q ->
  (forall st', search_inv st' -> progress st st' -> Q st' -> returns st' (g st') R) -> returns st (rbind r g) R.
Proof.
  intros (st1 & -> & I1 & P1 & Q1) G. destruct (G st1 I1 P1 Q1) as (st2 & E & I2 & P2 & R2).
  exists st2. split_and!; [exact E|exact I2|etransitivity; eassumption|exact R2].
Qed.

Lemma returns_weaken st r (Q R : JoinState -> Prop) : returns st r Q -> (forall st', Q st' -> R st') -> returns st r R.
Proof. intros (st' & E & I & P & HQ) W. exists st'. auto. Qed.

Lemma returns_from st0 st r Q : progress st0 st -> returns st r Q -> returns st0 r Q.
Proof.
  intros P (st' & E & I & P' & HQ). exists st'. split_and!; [exact E|exact I|etransitivity; eassumption|exact HQ].
Qed.

Lemma ok_each {A} (l : list A) body st : search_inv st ->
  (forall x st', x ∈ l -> search_inv st' -> progress st st' -> ok st' (body x st')) -> ok st (for_each l body st).
Proof.
  revert st. induction l as [|x l IH]; intros st I B; cbn [for_each]; [apply ok_skip, I|].
  eapply returns_bind; [apply (B x st); [left|exact I|reflexivity]|].
  intros st' I' P _. apply IH; [exact I'|]. intros y st2 Hy I2 P2. apply B; [right; exact Hy|exact I2|].
  etransitivity; eassumption.
Qed.

(** A path that needs no parameters. *)
Definition alive (r : RelPaths) : Prop := exists p, p ∈ pathlist r /\ PATH_REQ_OUTER p = None.

(** What add_path makes of a list. *)
Lemma add_path_cases canon rel p : join_path canon p -> joinrel_paths canon rel ->
  joinrel_paths canon (add_path rel p).1
  /\ (alive rel \/ PATH_REQ_OUTER p = None -> alive (add_path rel p).1).
Proof.
  intros Hp [F P]. assert (forall q, join_path canon q -> param_ok (jrel joinrel) q) as Pa by (intros q [Sq _]; apply Sq).
  assert (forall c q r, dominates c q r -> join_path canon q -> PATH_REQ_OUTER r = None -> PATH_REQ_OUTER q = None) as Dom.
  { intros c q r D Jq E. apply (pa_null _ _ (Pa q Jq)). intros x M. apply (dom_outer _ _ _ D) in M. rewrite E in M. exact (not_member_none x M). }
  unfold add_path. destruct (run_tournament add_path_verdict cost_after p (pathlist rel)) as [l d] eqn:T.
  pose proof (run_tournament_perm _ _ add_path_verdict_exclusive _ _ _ _ T) as HP. rewrite Forall_forall in F.
  pose proof (run_tournament_accepted _ _ add_path_verdict_exclusive _ _ _ _ T)
    as [(kept & Hl & Hk & _ & Hd)|(Hk & (q & Hq & Hr) & d' & -> & Hd)]; cbn [fst]; unfold alive; cbn [pathlist set_pathlist].
  - split; [split; [|exact P]|].
    + apply Forall_forall. intros x Hx. cbn in Hx. rewrite Hl in Hx. apply elem_of_cons in Hx as [->|Hx]; [exact Hp|].
      apply F. eapply elem_of_submseteq; eassumption.
    + assert (p ∈ l) as Pl by (rewrite Hl; left). intros [(x & Hx & Ex)|Ex]; [|eauto].
      assert (x ∈ l ++ d) as Xl by (rewrite HP; right; exact Hx). apply elem_of_app in Xl as [Xl|Xd]; [eauto|]. exists p. split; [exact Pl|].
      rewrite Hd in Xd. apply list_elem_of_filter in Xd as [R _].
      eapply Dom; [|exact Hp|exact Ex]. apply removes_dominates; [apply Pa, Hp|apply Pa, F, Hx|exact R].
  - split; [split; [|exact P]|].
    + apply Forall_forall. intros x Hx. apply F. eapply elem_of_submseteq; eassumption.
    + assert (q ∈ pathlist rel) as Ql by (eapply elem_of_submseteq; eassumption).
      assert (PATH_REQ_OUTER p = None -> PATH_REQ_OUTER q = None) as Eq.
      { intros Ep. eapply Dom; [|exact (F q Ql)|exact Ep]. apply rejects_dominates; [apply Pa, Hp|apply Pa, F, Ql|exact Hr]. }
      intros [(x & Hx & Ex)|Ex]; [|eauto].
      assert (x ∈ l ++ d' ++ [p]) as Xl by (rewrite HP; right; exact Hx).
      apply elem_of_app in Xl as [Xl|Xd]; [eauto|]. apply elem_of_app in Xd as [Xd|Xp].
      * rewrite Forall_forall in Hd. assert (PATH_REQ_OUTER p = None) as Ep.
        { eapply Dom; [|exact Hp|exact Ex]. apply removes_dominates; [apply Pa, Hp|apply Pa, F, Hx|exact (Hd x Xd)]. }
        eauto.
      * apply list_elem_of_singleton in Xp as ->. eauto.
Qed.

Lemma add_partial_path_cases canon rel p : partial_join_path canon p -> joinrel_paths canon rel ->
  joinrel_paths canon (add_partial_path rel p).1 /\ pathlist (add_partial_path rel p).1 = pathlist rel.
Proof.
  intros Hp [F P]. unfold add_partial_path. destruct (run_tournament _ _ _ (partial_pathlist rel)) as [l d] eqn:T. cbn.
  split; [|reflexivity]. split; [exact F|]. apply Forall_forall. intros x Hx. rewrite Forall_forall in P.
  pose proof (run_tournament_accepted _ _ add_partial_path_verdict_exclusive _ _ _ _ T) as [(kept & Hl & Hk & _)|(Hk & _)].
  - cbn in Hx. rewrite Hl in Hx. apply elem_of_cons in Hx as [->|Hx]; [exact Hp|]. apply P. eapply elem_of_submseteq; eassumption.
  - apply P. eapply elem_of_submseteq; eassumption.
Qed.

Lemma offered_ok canon a b : rtc (offered canon) a b -> joinrel_paths canon a ->
  joinrel_paths canon b /\ (alive a -> alive b).
Proof.
  induction 1 as [a|a b c O _ IH]; [auto|]. intros Ha.
  assert (joinrel_paths canon b /\ (alive a -> alive b)) as [Hb Ab].
  { destruct O as [rel p Hp|rel p Hp].
    - destruct (add_path_cases canon rel p Hp Ha) as [J A]. auto.
    - destruct (add_partial_path_cases canon rel p Hp Ha) as [J A]. split; [exact J|]. unfold alive. rewrite A. auto. }
  destruct (IH Hb). auto.
Qed.

Lemma progress_alive st st' : search_inv st -> progress st st' -> alive (js_paths st) -> alive (js_paths st').
Proof.
  intros I P. apply (offered_ok _ _ _ (pg_paths _ _ P)). eapply joinrel_paths_grow; [apply P|apply I].
Qed.

(** ** Building one join path *)

Lemma pair_inputs canon o i : side_path outerrel canon o -> side_path innerrel canon i -> join_inputs o i.
Proof.
  intros [Io Co Lo _ _ _ _ _] [Ii Ci Li _ _ _ _ _]. split; try assumption.
  destruct (se_outer_rows Se), (se_inner_rows Se).
  apply (finite_product _ _ (rel_rows outerrel) (rel_rows innerrel)); try assumption; try apply Co; try apply Ci.
  exact (se_product Se).
Qed.

Lemma search_joinrel_ok st req : search_inv st -> bms_wf req ->
  joinrel_ok (jp_root root) (jrel joinrel) (js_params st) req (ex_sjinfo extra).
Proof. intros I Hr. destruct Se. split; try assumption. apply I. Qed.

Lemma no_members_none x : ~ member x None.
Proof. intros M. exact (not_member_none x M). Qed.

Lemma not_param_by p rel rel' : param_ok rel p -> bms_wf (relids rel') -> PATH_PARAM_BY_REL p rel' = false ->
  forall x, member x (PATH_REQ_OUTER p) -> ~ member x (relids rel').
Proof.
  intros [W _ _ _] Hr E x M M'. unfold PATH_PARAM_BY_REL in E. destruct (param_info p) as [ppi|] eqn:Ep.
  - apply not_true_iff_false in E. apply E. apply bms_overlap_spec; eauto.
  - unfold PATH_REQ_OUTER in M. rewrite Ep in M. exact (no_members_none x M).
Qed.

(** A canonical sort order, no class twice. *)
Definition good_keys (canon keys : list PathKey) : Prop := known canon keys /\ NoDup (map pk_eclass keys).

Lemma good_keys_nil canon : good_keys canon [].
Proof. split; [constructor|constructor]. Qed.

Lemma good_keys_grow canon canon' keys : canon `prefix_of` canon' -> good_keys canon keys -> good_keys canon' keys.
Proof. intros G [K N]. split; [eapply known_prefix; eassumption|exact N]. Qed.

Lemma built_join_path canon en req outer inner p : join_built en (jrel joinrel) req outer inner p -> bms_wf req ->
  0 <= parallel_workers outer -> good_keys canon (pathkeys p) -> (forall x, member x req -> ~ member x (relids (jrel joinrel))) ->
  join_path canon p /\ (bms_is_empty req = true -> PATH_REQ_OUTER p = None).
Proof.
  intros [C _ Hp [_ Er _ Wp Np] Hs Ht Hc Hr Hw] Wr Hk [Kn Nd] Ha. rewrite <- Hw in Hk.
  assert (forall x, member x (PATH_REQ_OUTER p) <-> member x req) as M.
  { unfold PATH_REQ_OUTER. intros x. assert (bms_wf (match param_info p with Some ppi => ppi_req_outer ppi | None => None end)) as W.
    { destruct (param_info p); [exact Wp|exact I]. }
    rewrite bms_equal_val in Er by assumption. apply Z.eqb_eq in Er. unfold member. rewrite Er. reflexivity. }
  assert (bms_is_empty req = true -> PATH_REQ_OUTER p = None) as Nu by (intros E; unfold PATH_REQ_OUTER; rewrite (Np E); reflexivity).
  split; [|exact Nu]. split.
  - split; try assumption.
    + split; [exact C|apply Hc|apply Hc|rewrite Ht; apply Se].
    + split.
      * unfold PATH_REQ_OUTER. destruct (param_info p); [exact Wp|exact I].
      * intros x Hx. apply Ha, M, Hx.
      * intros Em. apply Nu. apply bms_is_empty_spec in Wr. rewrite Wr. apply Z.eqb_eq, Z.bits_inj_0. intros n.
        destruct (Z.testbit _ n) eqn:T; [|reflexivity]. destruct (Z.ltb_spec n 0); [rewrite Z.testbit_neg_r in T by assumption; discriminate|].
        destruct (Em n). apply M. split; assumption.
      * intros E. apply Np. unfold PATH_REQ_OUTER in E. destruct (param_info p) as [ppi|]; [|destruct req; [exact Er|reflexivity]].
        rewrite E in Er. destruct req; [exact Er|reflexivity].
  - rewrite Hs. unfold join_safe. intros E. apply andb_true_iff in E as [E _]. apply andb_true_iff in E as [E _]. exact E.
Qed.

(** The join of two partial inputs. *)
Lemma built_partial_path canon en outer inner p : join_built en (jrel joinrel) None outer inner p ->
  0 <= parallel_workers outer -> good_keys canon (pathkeys p) -> consider_parallel (jrel joinrel) = true ->
  parallel_safe outer = true -> parallel_safe inner = true -> partial_join_path canon p.
Proof.
  intros B Wk G Cp Po Pi. destruct (built_join_path canon _ None outer inner p B Logic.I Wk G) as [J N].
  { intros x Mx. destruct (not_member_none x Mx). }
  split_and!; [exact J|exact (N eq_refl)|]. rewrite (jb_safe _ _ _ _ _ _ B). unfold join_safe. rewrite Cp, Po, Pi. reflexivity.
Qed.

Lemma parampathinfo_joininfo rt rel params outer inner sj req clauses ppi cl params' :
  get_joinrel_parampathinfo rt rel params outer inner sj req clauses = Ok (ppi, cl, params') -> joininfo params' = joininfo params.
Proof.
  unfold get_joinrel_parampathinfo. intros E. destruct (bms_is_empty req); [injection E as _ _ <-; reflexivity|].
  destruct (find_ppi req (ppilist params)); [injection E as _ _ <-; reflexivity|].
  apply rbind_ok in E as (r & _ & E). injection E as _ _ <-. reflexivity.
Qed.

Lemma nestloop_joininfo rt rel params jt ws ex sj o i cl keys req p params' :
  create_nestloop_path rt rel params jt ws ex sj o i cl keys req = Ok (p, params') -> joininfo params' = joininfo params.
Proof.
  unfold create_nestloop_path. intros E. apply rbind_ok in E as ([[ppi cl'] params1] & E1 & E).
  apply rbind_ok in E as (q & _ & E). injection E as _ <-. exact (parampathinfo_joininfo _ _ _ _ _ _ _ _ _ _ _ E1).
Qed.

Lemma mergejoin_joininfo rt rel params jt ws ex sj o i cl keys req mc ok ik p params' :
  create_mergejoin_path rt rel params jt ws ex sj o i cl keys req mc ok ik = Ok (p, params') -> joininfo params' = joininfo params.
Proof.
  unfold create_mergejoin_path. intros E. apply rbind_ok in E as ([[ppi cl'] params1] & E1 & E).
  apply rbind_ok in E as (q & _ & E). injection E as _ <-. exact (parampathinfo_joininfo _ _ _ _ _ _ _ _ _ _ _ E1).
Qed.

Lemma hashjoin_joininfo rt rel params jt ws ex sj o i cl req hc p params' :
  create_hashjoin_path rt rel params jt ws ex sj o i cl req hc = Ok (p, params') -> joininfo params' = joininfo params.
Proof.
  unfold create_hashjoin_path. intros E. apply rbind_ok in E as ([[ppi cl'] params1] & E1 & E).
  apply rbind_ok in E as (q & _ & E). injection E as _ <-. exact (parampathinfo_joininfo _ _ _ _ _ _ _ _ _ _ _ E1).
Qed.

Lemma offer_ok st p params : search_inv st -> join_path (js_canon st) p -> join_params (jrel joinrel) params ->
  joininfo params = joininfo (js_params st) ->
  returns st (Ok (offer_path p params st)) (fun st' => PATH_REQ_OUTER p = None -> alive (js_paths st')).
Proof.
  intros [I1 I2 I3 I4 I5 I6 I7 I8] Hp Hk Hj. destruct (add_path_cases _ _ p Hp I8) as [J A].
  eexists. split_and!; [reflexivity|split; assumption| |intros E; apply A; right; exact E].
  split; try reflexivity; [|exact Hj]. apply rtc_once. constructor. exact Hp.
Qed.

Lemma offer_partial_ok st p params : search_inv st -> partial_join_path (js_canon st) p -> join_params (jrel joinrel) params ->
  joininfo params = joininfo (js_params st) -> ok st (Ok (offer_partial_path p params st)).
Proof.
  intros [I1 I2 I3 I4 I5 I6 I7 I8] Hp Hk Hj. destruct (add_partial_path_cases _ _ p Hp I8) as [J _].
  eexists. split_and!; [reflexivity|split; assumption| |exact I].
  split; try reflexivity; [|exact Hj]. apply rtc_once. constructor. exact Hp.
Qed.

(** ** Nested loops *)

(** What no cost of a clause can spoil: a list of clauses that is part of the join's. *)
Record part_ok (part : list RestrictInfo) : Prop := {
  po_ok : clauses_ok part;
  po_cover : quals_cover part (restrictlist extra);
}.

Lemma part_nil : part_ok [].
Proof. split; [split; constructor|]. apply (within_cover So); [constructor|apply Se]. Qed.

Lemma part_join_quals st part outer inner req : search_inv st -> part_ok part ->
  quals_cover part (join_quals (jrel joinrel) (js_params st) outer inner req (restrictlist extra)).
Proof.
  intros I [Hk Hc]. unfold join_quals. destruct (bms_is_empty req); [exact Hc|].
  apply (cover_app So); [exact Hc| |apply Se]. apply joinrel_pclauses_ok, I.
Qed.

Lemma nestloop_built st req jt o i keys : search_inv st -> bms_wf req -> join_inputs o i ->
  exists p params', let ws := initial_cost_nestloop new_workspace jt o i (jextra extra) in
    create_nestloop_path (jp_root root) (jrel joinrel) (js_params st) jt ws (jextra extra) (ex_sjinfo extra) o i
      (restrictlist extra) keys req = Ok (p, params')
    /\ join_built enable_nestloop (jrel joinrel) req o i p /\ join_params (jrel joinrel) params' /\ lower_bound ws p
    /\ pathkeys p = keys.
Proof.
  intros I Hr Hi. pose proof (part_join_quals st [] o i req I part_nil) as Hq. destruct part_nil as [Hn _].
  apply (join_paths_ok So (jp_root root) (jrel joinrel) (js_params st) req (ex_sjinfo extra) jt (jextra extra) o i
    (restrictlist extra) keys new_workspace [] [] [] [] []);
    first [assumption|apply Se|apply Forall_nil_2|left; reflexivity|apply search_joinrel_ok; assumption].
Qed.

Lemma hashjoin_built st req jt o i hc : search_inv st -> bms_wf req -> join_inputs o i -> part_ok hc -> Forall buckets_ok hc ->
  exists ws p params', initial_cost_hashjoin new_workspace hc o i = Some ws
    /\ create_hashjoin_path (jp_root root) (jrel joinrel) (js_params st) jt ws (jextra extra) (ex_sjinfo extra) o i
         (restrictlist extra) req hc = Ok (p, params')
    /\ join_built enable_hashjoin (jrel joinrel) req o i p /\ join_params (jrel joinrel) params' /\ lower_bound ws p
    /\ pathkeys p = [].
Proof.
  intros I Hr Hi Hp Hb. pose proof (part_join_quals st [] o i req I part_nil) as Hq. destruct part_nil as [Hn _].
  pose proof (part_join_quals st hc o i req I Hp) as Hh. destruct Hp as [Hp _].
  apply (join_paths_ok So (jp_root root) (jrel joinrel) (js_params st) req (ex_sjinfo extra) jt (jextra extra) o i
    (restrictlist extra) [] new_workspace [] hc [] [] []);
    first [assumption|apply Se|apply Forall_nil_2|left; reflexivity|apply search_joinrel_ok; assumption].
Qed.

Lemma mergejoin_built st req jt o i keys mc cache okeys ikeys : search_inv st -> bms_wf req -> join_inputs o i -> part_ok mc ->
  cache_ok cache -> merge_keys_ok jt mc (sort_or okeys o) (sort_or ikeys i) ->
  exists ws cache' p params', initial_cost_mergejoin new_workspace cache jt mc o i okeys ikeys = Ok (ws, cache')
    /\ create_mergejoin_path (jp_root root) (jrel joinrel) (js_params st) jt ws (jextra extra) (ex_sjinfo extra) o i
         (restrictlist extra) keys req mc okeys ikeys = Ok (p, params')
    /\ join_built enable_mergejoin (jrel joinrel) req o i p /\ join_params (jrel joinrel) params' /\ cache_ok cache'
    /\ pathkeys p = keys.
Proof.
  intros I Hr Hi Hp Hc Hk. pose proof (part_join_quals st [] o i req I part_nil) as Hq. destruct part_nil as [Hn _].
  pose proof (part_join_quals st mc o i req I Hp) as Hm. destruct Hp as [Hp _].
  destruct (join_paths_ok So (jp_root root) (jrel joinrel) (js_params st) req (ex_sjinfo extra) jt (jextra extra) o i
    (restrictlist extra) keys new_workspace cache [] mc okeys ikeys) as (_ & _ & ws & cache' & p & params' & E1 & E2 & B & K & _ & Kp);
    [first [assumption|apply Se|apply Forall_nil_2|apply search_joinrel_ok; assumption]..|].
  exists ws, cache', p, params'. split_and!; try assumption. destruct (initial_cost_mergejoin_ok So new_workspace cache jt mc o i okeys ikeys)
    as (ws' & cache2 & E & _ & Hc'); [apply Hi|apply Hi|assumption..|]. rewrite E in E1. injection E1 as _ <-. exact Hc'.
Qed.

Lemma nestloop_apart canon o i : side_path outerrel canon o -> side_path innerrel canon i ->
  PATH_PARAM_BY_REL o innerrel = false ->
  bms_wf (calc_nestloop_required_outer o i)
  /\ (forall x, member x (calc_nestloop_required_outer o i) -> ~ member x (relids (jrel joinrel)))
  /\ (PATH_REQ_OUTER o = None -> PATH_REQ_OUTER i = None -> calc_nestloop_required_outer o i = None).
Proof.
  intros So' Si N. pose proof (sp_param _ _ _ So') as Po. pose proof (sp_param _ _ _ Si) as Pi.
  pose proof (sp_parent _ _ _ So') as Ep.
  destruct (required_outer_ok o i) as (R & Rn & _).
  - apply Po.
  - apply Pi.
  - rewrite Ep. apply Se.
  - rewrite Ep. apply Po.
  - apply Po.
  - split_and!.
    + apply R.
    + intros x Mx Mj. apply R in Mx. apply (se_join Se) in Mj. unfold still_required in Mx. rewrite Ep in Mx.
      destruct Mx as [[Mx|Mx] Nx], Mj as [Mj|Mj]; try (apply Nx, Mj).
      * exact (not_param_by o outerrel innerrel Po (se_inner Se) N x Mx Mj).
      * exact (pa_apart _ _ Pi x Mx Mj).
    + intros Eo Ei. apply Rn. intros x Mx. unfold still_required in Mx. rewrite Eo, Ei in Mx.
      destruct Mx as [[Mx|Mx] _]; exact (no_members_none x Mx).
Qed.

(** The test before a path is made turns no path away for want of a better one with the
    same parameters. *)
Lemma precheck_alive st s t keys : search_inv st -> add_path_precheck (jrel joinrel) (js_paths st) s t keys None = false ->
  alive (js_paths st).
Proof.
  intros I. pose proof (jr_full _ _ (iv_paths _ I)) as F. unfold add_path_precheck, alive.
  induction F as [|q l [Hq _] _ IH]; cbn [add_path_precheck_loop]; [discriminate|].
  destruct (t >? _)%D; [|discriminate]. destruct (_ && bms_equal None (PATH_REQ_OUTER q)) eqn:E.
  - intros _. exists q. split; [left|]. apply andb_true_iff in E as [_ E]. destruct (sp_param _ _ _ Hq) as [Wq _ Nq _]. apply Nq. intros x M.
    apply bms_equal_subset in E as [_ E]; [|exact Logic.I|exact Wq]. exact (not_member_none x (E x M)).
  - intros R. destruct (IH R) as (x & Hx & Ex). exists x. split; [right; exact Hx|exact Ex].
Qed.

Lemma try_nestloop_ok st o i keys jt : search_inv st -> side_path outerrel (js_canon st) o -> side_path innerrel (js_canon st) i ->
  PATH_PARAM_BY_REL o innerrel = false -> good_keys (js_canon st) keys ->
  returns st (try_nestloop_path root joinrel o i keys jt extra st)
    (fun st' => PATH_REQ_OUTER o = None -> PATH_REQ_OUTER i = None -> alive (js_paths st')).
Proof.
  intros I Hso Hsi N Gk. destruct (nestloop_apart _ o i Hso Hsi N) as (Wr & Ap & Rn). unfold try_nestloop_path.
  destruct (bool_decide (calc_nestloop_required_outer o i <> None) && _) eqn:Er.
  { exists st. split_and!; [reflexivity|exact I|reflexivity|]. intros Eo Ei. apply andb_true_iff in Er as [Er _].
    apply bool_decide_eq_true in Er. destruct (Er (Rn Eo Ei)). }
  destruct (add_path_precheck _ _ _ _ _ _) eqn:Ec.
  2: { exists st. split_and!; [reflexivity|exact I|reflexivity|]. intros Eo Ei. rewrite (Rn Eo Ei) in Ec. eapply precheck_alive; eassumption. }
  destruct (nestloop_built st _ jt o i keys I Wr (pair_inputs _ o i Hso Hsi)) as (p & params' & E & B & Pk & _ & Ek).
  destruct (built_join_path (js_canon st) _ _ o i p B Wr (sp_workers _ _ _ Hso)) as [Jp Np]; [rewrite Ek; exact Gk|exact Ap|].
  cbv zeta in E. rewrite E. cbn [rbind]. eapply returns_weaken; [apply offer_ok|]; [exact I|exact Jp|exact Pk| |].
  - eapply nestloop_joininfo, E.
  - cbn beta. intros st' A Eo Ei. apply A, Np. rewrite (Rn Eo Ei). reflexivity.
Qed.

Lemma try_partial_nestloop_ok st o i keys jt : search_inv st -> side_path outerrel (js_canon st) o ->
  side_path innerrel (js_canon st) i -> good_keys (js_canon st) keys ->
  consider_parallel (jrel joinrel) = true -> parallel_safe o = true -> parallel_safe i = true ->
  ok st (try_partial_nestloop_path root joinrel o i keys jt extra st).
Proof.
  intros I Hso Hsi Gk Cp Po Pi. unfold try_partial_nestloop_path. case_match; [apply ok_skip, I|].
  destruct (negb _); [apply ok_skip, I|].
  destruct (nestloop_built st None jt o i keys I Logic.I (pair_inputs _ o i Hso Hsi)) as (p & params' & E & B & Pk & _ & Ek).
  cbv zeta in E. rewrite E. cbn [rbind]. apply offer_partial_ok; [exact I| |exact Pk|eapply nestloop_joininfo, E].
  eapply built_partial_path; try eassumption; [apply Hso|]. rewrite Ek. exact Gk.
Qed.

(** ** Merge joins *)

(** Leaving out a sort does not change the first key of the order. *)
Lemma needed_sort_head canon keys p k l : canon_ok canon -> known canon keys -> known canon (pathkeys p) ->
  sort_or keys p = k :: l -> exists l', sort_or (needed_sort keys p) p = k :: l'.
Proof.
  intros C Kk Kp E. unfold needed_sort. destruct (pathkeys_contained_in keys (pathkeys p)) eqn:Ec; [|eauto].
  apply pathkeys_contained_in_prefix, (known_keys_prefix canon) in Ec; [|assumption..]. destruct Ec as [l' Ep].
  cbn [sort_or]. destruct keys as [|k' keys]; cbn [sort_or] in E; [rewrite E; eauto|]. injection E as -> ->. rewrite Ep. eexists. reflexivity.
Qed.

Lemma needed_merge_keys canon jt mc okeys ikeys o i : canon_ok canon -> known canon okeys -> known canon ikeys ->
  known canon (pathkeys o) -> known canon (pathkeys i) -> merge_keys_ok jt mc (sort_or okeys o) (sort_or ikeys i) ->
  merge_keys_ok jt mc (sort_or (needed_sort okeys o) o) (sort_or (needed_sort ikeys i) i).
Proof.
  intros C K1 K2 K3 K4 [M|[M|(k & kl & k' & kl' & E & E' & M)]]; [left; exact M|right; left; exact M|].
  destruct (needed_sort_head canon okeys o k kl C K1 K3 E) as [l ->].
  destruct (needed_sort_head canon ikeys i k' kl' C K2 K4 E') as [l' ->]. right. right. exists k, l, k', l'. auto.
Qed.

Lemma non_nestloop_apart canon o i : side_path outerrel canon o -> side_path innerrel canon i ->
  PATH_PARAM_BY_REL o innerrel = false -> PATH_PARAM_BY_REL i outerrel = false ->
  bms_wf (calc_non_nestloop_required_outer o i)
  /\ (forall x, member x (calc_non_nestloop_required_outer o i) -> ~ member x (relids (jrel joinrel))).
Proof.
  intros Hso Hsi No Ni. pose proof (sp_param _ _ _ Hso) as Po. pose proof (sp_param _ _ _ Hsi) as Pi.
  destruct (represents_lor _ _ _ (bms_union_spec (PATH_REQ_OUTER o) (PATH_REQ_OUTER i) (pa_wf _ _ Po) (pa_wf _ _ Pi))) as [W M].
  split; [exact W|]. intros x Mx Mj. apply M in Mx. apply (se_join Se) in Mj. destruct Mx as [Mx|Mx], Mj as [Mj|Mj].
  - exact (pa_apart _ _ Po x Mx Mj).
  - exact (not_param_by o outerrel innerrel Po (se_inner Se) No x Mx Mj).
  - exact (not_param_by i innerrel outerrel Pi (se_outer Se) Ni x Mx Mj).
  - exact (pa_apart _ _ Pi x Mx Mj).
Qed.

Lemma scansel_of_ok st mc : search_inv st -> cache_ok (scansel_of st mc).
Proof.
  intros I. unfold scansel_of. destruct mc as [|r mc]; [constructor|].
  destruct (js_scansel st !! ri_ptr r) as [c|] eqn:E; [exact (iv_scansel _ I _ _ E)|constructor].
Qed.

Lemma set_scansel_ok st mc cache : search_inv st -> cache_ok cache ->
  search_inv (set_scansel st mc cache) /\ progress st (set_scansel st mc cache).
Proof.
  intros I Hc. unfold set_scansel. destruct mc as [|r mc]; [split; [exact I|reflexivity]|].
  destruct I as [I1 I2 I3 I4 I5 I6 I7]. split; [split; try assumption|split; reflexivity].
  cbn [js_scansel]. apply map_Forall_insert_2; assumption.
Qed.

(** The order a merge join asks for. *)
Record merge_order (canon : list PathKey) (jt : JoinType) (mc : list RestrictInfo) (okeys ikeys : list PathKey) (o i : Path) : Prop := {
  mo_part : part_ok mc;
  mo_outer : known canon okeys;
  mo_inner : known canon ikeys;
  mo_keys : merge_keys_ok jt mc (sort_or okeys o) (sort_or ikeys i);
}.

Lemma try_partial_mergejoin_ok st o i keys mc okeys ikeys jt : search_inv st -> side_path outerrel (js_canon st) o ->
  side_path innerrel (js_canon st) i -> merge_order (js_canon st) jt mc okeys ikeys o i -> good_keys (js_canon st) keys ->
  consider_parallel (jrel joinrel) = true -> parallel_safe o = true -> parallel_safe i = true ->
  ok st (try_partial_mergejoin_path root joinrel o i keys mc okeys ikeys jt extra st).
Proof.
  intros I Hso Hsi [Pm Ko Ki Mk] Gk Cp Po Pi. unfold try_partial_mergejoin_path. case_match; [apply ok_skip, I|].
  destruct (mergejoin_built st None jt o i keys mc (scansel_of st mc) (needed_sort okeys o) (needed_sort ikeys i) I Logic.I
    (pair_inputs _ o i Hso Hsi) Pm (scansel_of_ok st mc I)) as (ws & cache' & p & params' & E1 & E2 & B & Pk & Hc & Ek).
  { eapply needed_merge_keys; try eassumption; [apply I|apply Hso|apply Hsi]. }
  rewrite E1. cbn [rbind]. destruct (set_scansel_ok st mc cache' I Hc) as [I' P'].
  apply (returns_from _ _ _ _ P'). destruct (negb _); [apply ok_skip, I'|].
  assert (js_params (set_scansel st mc cache') = js_params st) as Ep by (destruct mc; reflexivity). rewrite Ep, E2. cbn [rbind].
  apply offer_partial_ok; [exact I'| |exact Pk|rewrite Ep; eapply mergejoin_joininfo, E2].
  eapply built_partial_path; try eassumption; [apply Hso|]. rewrite Ek. eapply good_keys_grow; [apply P'|exact Gk].
Qed.

Lemma try_mergejoin_ok st o i keys mc okeys ikeys jt (is_partial : bool) : search_inv st -> side_path outerrel (js_canon st) o ->
  side_path innerrel (js_canon st) i -> merge_order (js_canon st) jt mc okeys ikeys o i -> good_keys (js_canon st) keys ->
  (if is_partial then consider_parallel (jrel joinrel) = true /\ parallel_safe o = true /\ parallel_safe i = true
   else PATH_PARAM_BY_REL o innerrel = false /\ PATH_PARAM_BY_REL i outerrel = false) ->
  ok st (try_mergejoin_path root joinrel o i keys mc okeys ikeys jt extra is_partial st).
Proof.
  intros I Hso Hsi Mo Gk Hm. unfold try_mergejoin_path. destruct is_partial.
  { destruct Hm as (Cp & Po & Pi). apply try_partial_mergejoin_ok; assumption. }
  destruct Hm as [No Ni]. destruct (non_nestloop_apart _ o i Hso Hsi No Ni) as [Wr Ap]. destruct Mo as [Pm Ko Ki Mk].
  case_match; [apply ok_skip, I|].
  destruct (mergejoin_built st _ jt o i keys mc (scansel_of st mc) (needed_sort okeys o) (needed_sort ikeys i) I Wr
    (pair_inputs _ o i Hso Hsi) Pm (scansel_of_ok st mc I)) as (ws & cache' & p & params' & E1 & E2 & B & Pk & Hc & Ek).
  { eapply needed_merge_keys; try eassumption; [apply I|apply Hso|apply Hsi]. }
  rewrite E1. cbn [rbind]. destruct (set_scansel_ok st mc cache' I Hc) as [I' P'].
  apply (returns_from _ _ _ _ P'). destruct (add_path_precheck _ _ _ _ _ _); [|apply ok_skip, I'].
  assert (js_params (set_scansel st mc cache') = js_params st) as Ep by (destruct mc; reflexivity). rewrite Ep, E2. cbn [rbind].
  eapply returns_weaken; [apply offer_ok|auto]; [exact I'| |exact Pk|rewrite Ep; eapply mergejoin_joininfo, E2].
  eapply built_join_path; try eassumption; [apply Hso|]. rewrite Ek. eapply good_keys_grow; [apply P'|exact Gk].
Qed.

(** ** Hash joins *)

Record hash_clauses_ok (hc : list RestrictInfo) : Prop := {
  hk_within : within hc (restrictlist extra);
  hk_buckets : Forall buckets_ok hc;
}.

Lemma within_ok part all : within part all -> clauses_ok all -> clauses_ok part.
Proof.
  rewrite !clauses_ok_forall. induction 1 as [l|r r' part all Sr W IH|r part all W IH]; intros Hl; [constructor| |].
  - apply Forall_cons in Hl as [Hr Hl]. constructor; [|exact (IH Hl)].
    pose proof (same_clause_node r r' Sr) as S. rewrite !clauses_ok_forall, !Forall_singleton in S. exact (S Hr).
  - apply Forall_cons in Hl as [_ Hl]. exact (IH Hl).
Qed.

Lemma within_trans part part' all : within part all -> Forall2 same_clause part part' -> within part' all.
Proof.
  intros W. revert part'. induction W as [l|r r' part all Sr W IH|r part all W IH]; intros part' F.
  - inversion F; subst. constructor.
  - inversion F as [|? r2 ? part2 Hr F']; subst. apply within_keep; [etransitivity; eassumption|exact (IH _ F')].
  - apply within_skip, IH, F.
Qed.

Lemma load_same m r : same_clause r (load_bucketsizes m r).
Proof. unfold load_bucketsizes. destruct (m !! ri_ptr r) as [[l' r']|]; [apply same_clause_buckets|reflexivity]. Qed.

Lemma load_buckets_ok m r : map_Forall (fun _ b => bucket_ok b.1 /\ bucket_ok b.2) m -> buckets_ok r ->
  buckets_ok (load_bucketsizes m r).
Proof.
  intros Hm Hr. unfold load_bucketsizes. destruct (m !! ri_ptr r) as [[l' r']|] eqn:E; [|exact Hr].
  destruct (Hm _ _ E) as [B1 B2]. destruct r. split; assumption.
Qed.

Lemma load_clauses_ok st hc : search_inv st -> hash_clauses_ok hc -> hash_clauses_ok (map (load_bucketsizes (js_buckets st)) hc).
Proof.
  intros I [W B]. split.
  - apply (within_trans hc); [exact W|]. clear. induction hc; constructor; [apply load_same|assumption].
  - apply Forall_map. eapply Forall_impl; [exact B|]. intros r. apply load_buckets_ok, I.
Qed.

Lemma hash_part hc : hash_clauses_ok hc -> part_ok hc.
Proof. intros [W B]. split; [eapply within_ok; [exact W|apply Se]|apply (within_cover So); [exact W|apply Se]]. Qed.

Lemma bucketsize_loop_buckets inner v : forall hc b, Forall buckets_ok hc -> Forall buckets_ok (bucketsize_loop inner v hc b).2.
Proof.
  induction hc as [|r hc IH]; intros b Hb; cbn [bucketsize_loop]; [constructor|]. apply Forall_cons in Hb as [Hr Hb].
  destruct (clause_bucketsize inner v r) as [tb r'] eqn:E.
  specialize (IH (if (b >? tb)%D then tb else b) Hb). destruct (bucketsize_loop _ _ _ _) as [ib hc']. cbn [snd] in *.
  constructor; [|exact IH]. unfold clause_bucketsize in E. destruct Hr as [B1 B2].
  repeat case_match; injection E as <- <-; destruct r; split; cbn;
    first [assumption|right; apply bucketsize_ok|right; destruct B1 as [|B1]; [discriminate|exact B1]
          |right; destruct B2 as [|B2]; [discriminate|exact B2]].
Qed.

Lemma hashjoin_saved rt rel params jt ws ex sj o i cl req hc p params' :
  create_hashjoin_path rt rel params jt ws ex sj o i cl req hc = Ok (p, params') -> Forall buckets_ok hc ->
  exists jt' u o' i' q hc' n, PlanTypes.extra p = XHashPath jt' u o' i' q hc' n /\ Forall buckets_ok hc'.
Proof.
  unfold create_hashjoin_path. intros E Hb. apply rbind_ok in E as ([[ppi cl'] params1] & _ & E).
  apply rbind_ok in E as (q & E & E'). injection E' as <- <-. unfold final_cost_hashjoin in E.
  destruct (if IsUniquePath i then _ else _) as [ib hc'] eqn:Eh.
  assert (Forall buckets_ok hc') as Hb'.
  { destruct (IsUniquePath i); [injection Eh as _ <-; exact Hb|].
    match type of Eh with bucketsize_loop ?a ?b ?c ?d = _ => pose proof (bucketsize_loop_buckets a b c d Hb) as L end.
    rewrite Eh in L. exact L. }
  apply rbind_ok in E as ([? hq] & _ & E). apply rbind_ok in E as ([? qq] & _ & E).
  destruct (hash_probe_cost _ _ _ _ _ _ _ _ _ _) as [[? ?] ?]. injection E as <-. cbn. eauto 10.
Qed.

Lemma save_buckets_ok p m : map_Forall (fun _ b => bucket_ok b.1 /\ bucket_ok b.2) m ->
  (exists jt' u o' i' q hc' n, PlanTypes.extra p = XHashPath jt' u o' i' q hc' n /\ Forall buckets_ok hc') ->
  map_Forall (fun _ b => bucket_ok b.1 /\ bucket_ok b.2) (save_bucketsizes p m).
Proof.
  intros Hm (jt' & u & o' & i' & q & hc' & n & E & F). unfold save_bucketsizes. rewrite E. clear E. revert m Hm.
  induction F as [|r hc Hr _ IH]; intros m Hm; cbn [foldl]; [exact Hm|]. apply IH, map_Forall_insert_2; [exact Hr|exact Hm].
Qed.

Lemma set_buckets_ok st p : search_inv st ->
  (exists jt' u o' i' q hc' n, PlanTypes.extra p = XHashPath jt' u o' i' q hc' n /\ Forall buckets_ok hc') ->
  search_inv (set_buckets st p) /\ progress st (set_buckets st p).
Proof.
  intros [I1 I2 I3 I4 I5 I6 I7 I8] Hp. split; [split; try assumption|split; reflexivity]. apply save_buckets_ok; assumption.
Qed.

Lemma try_hashjoin_ok st o i hc jt : search_inv st -> side_path outerrel (js_canon st) o -> side_path innerrel (js_canon st) i ->
  PATH_PARAM_BY_REL o innerrel = false -> PATH_PARAM_BY_REL i outerrel = false -> hash_clauses_ok hc ->
  ok st (try_hashjoin_path root joinrel o i hc jt extra st).
Proof.
  intros I Hso Hsi No Ni Hh. unfold try_hashjoin_path. destruct (non_nestloop_apart _ o i Hso Hsi No Ni) as [Wr Ap].
  case_match; [apply ok_skip, I|]. pose proof (load_clauses_ok st hc I Hh) as Hl.
  destruct (hashjoin_built st _ jt o i _ I Wr (pair_inputs _ o i Hso Hsi) (hash_part _ Hl) (hk_buckets _ Hl))
    as (ws & p & params' & E1 & E2 & B & Pk & _ & Ek).
  rewrite E1. cbn [defined rbind]. destruct (add_path_precheck _ _ _ _ _ _); [|apply ok_skip, I]. rewrite E2. cbn [rbind].
  destruct (set_buckets_ok st p I (hashjoin_saved _ _ _ _ _ _ _ _ _ _ _ _ _ _ E2 (hk_buckets _ Hl))) as [I' P'].
  apply (returns_from _ _ _ _ P'). eapply returns_weaken; [apply offer_ok|auto]; [exact I'| |exact Pk|eapply hashjoin_joininfo, E2].
  eapply built_join_path; try eassumption; [apply Hso|]. rewrite Ek. apply good_keys_nil.
Qed.

Lemma try_partial_hashjoin_ok st o i hc jt : search_inv st -> side_path outerrel (js_canon st) o ->
  side_path innerrel (js_canon st) i -> hash_clauses_ok hc ->
  consider_parallel (jrel joinrel) = true -> parallel_safe o = true -> parallel_safe i = true ->
  ok st (try_partial_hashjoin_path root joinrel o i hc jt extra st).
Proof.
  intros I Hso Hsi Hh Cp Po Pi. unfold try_partial_hashjoin_path. case_match; [apply ok_skip, I|].
  pose proof (load_clauses_ok st hc I Hh) as Hl.
  destruct (hashjoin_built st None jt o i _ I Logic.I (pair_inputs _ o i Hso Hsi) (hash_part _ Hl) (hk_buckets _ Hl))
    as (ws & p & params' & E1 & E2 & B & Pk & _ & Ek).
  rewrite E1. cbn [defined rbind]. destruct (negb _); [apply ok_skip, I|]. rewrite E2. cbn [rbind].
  destruct (set_buckets_ok st p I (hashjoin_saved _ _ _ _ _ _ _ _ _ _ _ _ _ _ E2 (hk_buckets _ Hl))) as [I' P'].
  apply (returns_from _ _ _ _ P'). apply offer_partial_ok; [exact I'| |exact Pk|eapply hashjoin_joininfo, E2].
  eapply built_partial_path; try eassumption; [apply Hso|]. rewrite Ek. apply good_keys_nil.
Qed.

(** ** Orders for merge joins *)

Lemma set_canon_ok st canon' : search_inv st -> canon_ok canon' -> js_canon st `prefix_of` canon' ->
  search_inv (set_canon st canon') /\ progress st (set_canon st canon').
Proof.
  intros [I1 I2 I3 I4 I5 I6 I7 I8] C G. split; [|split; try reflexivity; exact G].
  split; try assumption; cbn [js_canon js_outer js_inner js_paths set_canon].
  - eapply known_prefix; eassumption.
  - eapply side_ok_grow; eassumption.
  - eapply side_ok_grow; eassumption.
  - eapply joinrel_paths_grow; eassumption.
Qed.

Lemma progress_side rel st st' p : progress st st' -> side_path rel (js_canon st) p -> side_path rel (js_canon st') p.
Proof. intros P. apply side_path_grow, P. Qed.

Lemma merge_part mc : mc ⊆+ mergeclause_list extra -> part_ok mc.
Proof.
  intros Sub. split; [|apply (se_merge Se), Sub]. pose proof (se_merge_ok Se) as Hm. rewrite clauses_ok_forall in *.
  rewrite Forall_forall in *. intros r Hr. apply Hm. eapply elem_of_submseteq; eassumption.
Qed.

(** The first keys of the two orders, where there are clauses. *)
Definition heads_agree (mc : list RestrictInfo) (okeys ikeys : list PathKey) : Prop :=
  mc = [] \/ exists o ol i il, okeys = o :: ol /\ ikeys = i :: il
    /\ pk_opfamily o = pk_opfamily i /\ ec_collation (pk_eclass o) = ec_collation (pk_eclass i)
    /\ pk_strategy o = pk_strategy i /\ pk_nulls_first o = pk_nulls_first i.

(** For any canonical order of the outer input the inner order can be made. *)
Lemma inner_order_ok canon keys : canon_ok canon -> known canon keys -> NoDup (map pk_eclass keys) ->
  let mc := find_mergeclauses_for_outer_pathkeys keys (mergeclause_list extra) in
  mc ⊆+ mergeclause_list extra
  /\ exists ikeys canon', make_inner_pathkeys_for_merge canon mc keys = Ok (ikeys, canon')
       /\ canon_ok canon' /\ canon `prefix_of` canon' /\ known canon' ikeys /\ heads_agree mc keys ikeys.
Proof.
  intros C K N mc. pose proof (se_linked Se) as L. set (clauses := mergeclause_list extra) in *.
  destruct (usable_keys_split clauses keys) as (rest & Ek & F & _).
  assert (mc = groups clauses (usable_keys clauses keys)) as Em by (apply find_mergeclauses_groups, L).
  assert (NoDup (map pk_eclass (usable_keys clauses keys))) as Nu.
  { rewrite Ek, map_app in N. apply NoDup_app in N. apply N. }
  assert (mc ⊆+ clauses) as Sub by (rewrite Em, groups_perm by exact Nu; apply sublist_submseteq, sublist_filter).
  split; [exact Sub|].
  assert (forall P : RestrictInfo -> Prop, Forall P clauses -> Forall P mc) as Fm.
  { intros P HP. rewrite Forall_forall in *. intros r Hr. apply HP. eapply elem_of_submseteq; eassumption. }
  destruct (make_inner_pathkeys_ok canon keys mc C K) as (ikeys & canon' & E & [C' G K' _ _ _] & Hd & _); [|auto|].
  { rewrite Em. rewrite Ek at 1. apply groups_aligned; assumption. }
  exists ikeys, canon'. split_and!; [exact E|exact C'|exact G|exact K'|].
  destruct mc as [|r mc'] eqn:Emc; [left; reflexivity|right].
  pose proof (Fm _ (se_matter Se)) as Hr. apply Forall_cons in Hr as [Hr _]. destruct (Hd Hr) as (k & ks & i & il & -> & -> & Eo & Hi).
  exists k, ks, i, il. unfold inner_key_of, pk_fields in Hi. injection Hi as H1' H2' H3' H4'.
  pose proof (Fm _ (se_collation Se)) as Hc. apply Forall_cons in Hc as [Hc _]. split_and!; congruence.
Qed.

Lemma heads_merge_keys jt mc mc' okeys ikeys okeys' ikeys' : heads_agree mc okeys ikeys -> (mc = [] -> mc' = []) ->
  (forall k l, okeys = k :: l -> exists l', okeys' = k :: l') -> (forall k l, ikeys = k :: l -> exists l', ikeys' = k :: l') ->
  merge_keys_ok jt mc' okeys' ikeys'.
Proof.
  intros [E|(o & ol & i & il & Eo & Ei & M)] Hn Ho Hi; [left; auto|]. right. right.
  destruct (Ho o ol Eo) as [l ->]. destruct (Hi i il Ei) as [l' ->]. exists o, l, i, l'. auto.
Qed.

Lemma sort_or_head keys p k l : keys = k :: l -> exists l', sort_or keys p = k :: l'.
Proof. intros ->. eauto. Qed.

(** ** Sorting both inputs *)

Definition usable (is_partial : bool) (o i : Path) : Prop :=
  if is_partial then consider_parallel (jrel joinrel) = true /\ parallel_safe o = true /\ parallel_safe i = true
  else PATH_PARAM_BY_REL o innerrel = false /\ PATH_PARAM_BY_REL i outerrel = false.

Definition partial_pair (canon : list PathKey) (partial : option (Path * Path)) : Prop :=
  match partial with
  | Some (o, i) => side_path outerrel canon o /\ side_path innerrel canon i /\ usable true o i
  | None => True
  end.

(** The order of a join is a prefix of its outer order, or none. *)
Lemma join_keys_good canon jt keys st : good_keys canon keys -> good_keys canon (join_pathkeys root joinrel jt keys st).
Proof.
  intros [K N]. unfold join_pathkeys, build_join_pathkeys, truncate_useless_pathkeys.
  assert (forall n, good_keys canon (take n keys)) as T.
  { intros n. split; [apply Forall_take, K|]. rewrite <- firstn_map. rewrite <- (take_drop n (map pk_eclass keys)) in N. apply NoDup_app in N. apply N. }
  destruct jt; try apply T; apply good_keys_nil.
Qed.

Lemma path_keys_good rel canon jt p st : side_path rel canon p -> good_keys canon (join_pathkeys root joinrel jt (pathkeys p) st).
Proof. intros [_ _ _ _ _ K N _]. apply join_keys_good. split; assumption. Qed.

Lemma sort_both_ok st o i partial jt keys : search_inv st -> side_path outerrel (js_canon st) o -> side_path innerrel (js_canon st) i ->
  usable false o i -> partial_pair (js_canon st) partial -> known (js_canon st) keys -> NoDup (map pk_eclass keys) ->
  find_mergeclauses_for_outer_pathkeys keys (mergeclause_list extra) ≡ₚ mergeclause_list extra ->
  ok st (sort_both root joinrel o i partial jt extra keys st).
Proof.
  intros I Hso Hsi U Pp K N All. unfold sort_both. rewrite All, Nat.eqb_refl. cbn [Assert rbind]. destruct (inner_order_ok _ keys (iv_canon _ I) K N) as (Sub & ikeys & canon' & -> & C' & G & K' & Hh).
  cbn [rbind]. destruct (set_canon_ok st canon' I C' G) as [I' P']. apply (returns_from _ _ _ _ P').
  set (mc := find_mergeclauses_for_outer_pathkeys keys (mergeclause_list extra)) in *.
  assert (forall canon2 o' i', canon' `prefix_of` canon2 -> merge_order canon2 jt mc keys ikeys o' i') as Mo.
  { intros canon2 o' i' G2. split; [apply merge_part, Sub| | |].
    - eapply known_prefix; [|exact K]. etransitivity; eassumption.
    - eapply known_prefix; eassumption.
    - eapply heads_merge_keys; [exact Hh|auto|..]; intros k l E; apply (sort_or_head _ _ k l E). }
  assert (good_keys canon' (join_pathkeys root joinrel jt keys (set_canon st canon'))) as Gk.
  { apply join_keys_good. split; [eapply known_prefix; eassumption|exact N]. }
  eapply returns_bind.
  - apply try_mergejoin_ok; [exact I'|eapply progress_side; eassumption|eapply progress_side; eassumption|apply Mo; reflexivity|exact Gk|exact U].
  - intros st2 I2 P2 _. destruct partial as [[o' i']|]; [|apply ok_skip, I2]. destruct Pp as (So' & Si' & Cp & Po & Pi).
    apply try_partial_mergejoin_ok; try assumption.
    + eapply progress_side; [exact P2|]. eapply progress_side; eassumption.
    + eapply progress_side; [exact P2|]. eapply progress_side; eassumption.
    + apply Mo. apply P2.
    + eapply good_keys_grow; [apply P2|exact Gk].
Qed.

(** The unique paths were made when the join was found legal. *)
Definition unique_cached (jt : JoinType) (st : JoinState) : Prop :=
  match jt with
  | JOIN_UNIQUE_OUTER => cheapest_unique_path (js_outer st) <> None
  | JOIN_UNIQUE_INNER => cheapest_unique_path (js_inner st) <> None
  | _ => True
  end.

Lemma unique_cached_progress jt st st' : progress st st' -> unique_cached jt st -> unique_cached jt st'.
Proof. intros [_ E1 E2 _ _]. unfold unique_cached. rewrite E1, E2. auto. Qed.

Lemma unique_outer_cached p u st : cheapest_unique_path (js_outer st) = Some u -> unique_outer outerrel p st = Ok (u, st).
Proof.
  intros E. unfold unique_outer, create_unique_path. rewrite E. cbn [deref rbind]. unfold set_unique. rewrite <- E.
  destruct st as [? ? []]. reflexivity.
Qed.

Lemma unique_inner_cached p u st : cheapest_unique_path (js_inner st) = Some u -> unique_inner innerrel p st = Ok (u, st).
Proof.
  intros E. unfold unique_inner, create_unique_path. rewrite E. cbn [deref rbind]. unfold set_unique. rewrite <- E.
  destruct st as [? ? ? []]. reflexivity.
Qed.

Lemma param_by_same p q rel : param_info p = param_info q -> PATH_PARAM_BY_REL p rel = PATH_PARAM_BY_REL q rel.
Proof. intros E. unfold PATH_PARAM_BY_REL, PATH_REQ_OUTER. rewrite E. reflexivity. Qed.

Lemma unique_outer_ok st p : search_inv st -> unique_cached JOIN_UNIQUE_OUTER st -> cheapest_total_path (js_outer st) = Some p ->
  exists u, unique_outer outerrel p st = Ok (u, st) /\ side_path outerrel (js_canon st) u /\ param_info u = param_info p.
Proof.
  intros I Uc E. destruct (iv_outer _ I) as [_ _ _ _ Qu _]. cbn [unique_cached] in Uc.
  destruct (cheapest_unique_path (js_outer st)) as [u|] eqn:Eu; [|done]. destruct Qu as [Su Hu]. exists u.
  split_and!; [apply unique_outer_cached, Eu|exact Su|apply Hu, E].
Qed.

Lemma unique_inner_ok st p : search_inv st -> unique_cached JOIN_UNIQUE_INNER st -> cheapest_total_path (js_inner st) = Some p ->
  exists u, unique_inner innerrel p st = Ok (u, st) /\ side_path innerrel (js_canon st) u /\ param_info u = param_info p
    /\ parallel_safe u = parallel_safe p.
Proof.
  intros I Uc E. destruct (iv_inner _ I) as [_ _ _ _ Qu _]. cbn [unique_cached] in Uc.
  destruct (cheapest_unique_path (js_inner st)) as [u|] eqn:Eu; [|done]. destruct Qu as [Su Hu]. exists u.
  split_and!; [apply unique_inner_cached, Eu|exact Su|apply Hu, E..].
Qed.

Lemma total_path rel canon r p : side_ok rel canon r -> cheapest_total_path r = Some p -> side_path rel canon p.
Proof. intros [_ _ (q & Eq & Sq) _ _ _] E. congruence. Qed.

Lemma uniquify_ok st jt o i : search_inv st -> unique_cached jt st -> cheapest_total_path (js_outer st) = Some o ->
  cheapest_total_path (js_inner st) = Some i -> usable false o i ->
  exists o' i' jt', uniquify outerrel innerrel jt o i st = Ok (o', i', jt', st)
    /\ side_path outerrel (js_canon st) o' /\ side_path innerrel (js_canon st) i' /\ usable false o' i'.
Proof.
  intros I Uc Eo Ei [Uo Ui]. pose proof (total_path _ _ _ _ (iv_outer _ I) Eo). pose proof (total_path _ _ _ _ (iv_inner _ I) Ei).
  destruct jt; cbn [uniquify] in *; try (do 3 eexists; split_and!; [reflexivity|assumption|assumption|split; assumption]).
  - destruct (unique_outer_ok st o I Uc Eo) as (u & -> & Su & Ep). cbn [rbind].
    do 3 eexists. split_and!; [reflexivity|exact Su|assumption|]. split; [rewrite (param_by_same u o); assumption|exact Ui].
  - destruct (unique_inner_ok st i I Uc Ei) as (u & -> & Su & Ep & _). cbn [rbind].
    do 3 eexists. split_and!; [reflexivity|assumption|exact Su|]. split; [exact Uo|rewrite (param_by_same u i); assumption].
Qed.

Lemma safe_total_inner_ok canon l i : Forall (side_path innerrel canon) l -> get_cheapest_parallel_safe_total_inner l = Some i ->
  side_path innerrel canon i /\ parallel_safe i = true.
Proof.
  induction 1 as [|p l Hp _ IH]; cbn [get_cheapest_parallel_safe_total_inner]; [discriminate|].
  destruct (parallel_safe p) eqn:E; cbn [andb]; [|exact IH]. destruct (bms_is_empty _); [intros [= <-]; auto|exact IH].
Qed.

Lemma partial_ok_outer st jt o : search_inv st -> partial_ok joinrel jt st = true -> o ∈ partial_pathlist (js_outer st) ->
  side_path outerrel (js_canon st) o /\ PATH_REQ_OUTER o = None /\ consider_parallel (jrel joinrel) = true /\ parallel_safe o = true.
Proof.
  intros I P Ho. pose proof (sd_partial _ _ _ (iv_outer _ I)) as F. rewrite Forall_forall in F. destruct (F o Ho) as (S & R & Ps).
  unfold partial_ok in P. apply andb_true_iff in P as [P _]. apply andb_true_iff in P as [P _]. apply andb_true_iff in P as [P _]. auto.
Qed.

Lemma partial_inputs_ok st jt i : search_inv st -> side_path innerrel (js_canon st) i ->
  partial_pair (js_canon st) (partial_inputs joinrel jt i st).
Proof.
  intros I Hi. unfold partial_inputs. destruct (partial_ok joinrel jt st) eqn:P; [|exact Logic.I].
  destruct (partial_pathlist (js_outer st)) as [|o l] eqn:El; cbn [head mbind option_bind]; [exact Logic.I|].
  destruct (partial_ok_outer st jt o I P) as (S & _ & Cp & Ps); [rewrite El; left|].
  destruct (parallel_safe i) eqn:Pi; cbn [mbind option_bind partial_pair usable]; [split_and!; assumption|].
  destruct (bool_decide _); cbn [mbind option_bind partial_pair]; [exact Logic.I|].
  destruct (get_cheapest_parallel_safe_total_inner (pathlist (js_inner st))) as [i'|] eqn:E; cbn [mbind option_bind partial_pair usable]; [|exact Logic.I].
  destruct (safe_total_inner_ok _ _ _ (sd_paths _ _ _ (iv_inner _ I)) E). split_and!; assumption.
Qed.

Lemma list_delete_ptr_perm canon k l : canon_ok canon -> known canon l -> k ∈ l -> k :: list_delete_ptr l k ≡ₚ l.
Proof.
  intros C K Hk. induction l as [|x l IH]; [inversion Hk|]. pose proof K as K0. apply Forall_cons in K as [Hx K]. cbn [list_delete_ptr].
  destruct (Z.eqb_spec (pk_ptr x) (pk_ptr k)) as [E|D].
  - unfold known in K0. rewrite Forall_forall in K0. rewrite (canon_ptr_inj canon x k C Hx (K0 k Hk) E). reflexivity.
  - apply elem_of_cons in Hk as [->|Hk]; [done|]. rewrite perm_swap. f_equiv. exact (IH K Hk).
Qed.

Lemma orderings_perm canon all keys : canon_ok canon -> known canon all -> keys ∈ orderings all -> keys ≡ₚ all.
Proof.
  intros C K Hk. destruct all as [|k0 all]; [inversion Hk|]. cbn [orderings] in Hk. apply elem_of_cons in Hk as [->|Hk]; [reflexivity|].
  apply list_elem_of_fmap in Hk as (k & -> & Hk). apply (list_delete_ptr_perm canon); [assumption..|right; exact Hk].
Qed.

Lemma sort_inner_and_outer_ok st jt : search_inv st -> unique_cached jt st ->
  ok st (sort_inner_and_outer root joinrel outerrel innerrel jt extra st).
Proof.
  intros I Uc. unfold sort_inner_and_outer. destruct (sd_total _ _ _ (iv_outer _ I)) as (o & Eo & _).
  destruct (sd_total _ _ _ (iv_inner _ I)) as (i & Ei & _). rewrite Eo, Ei. cbn [deref rbind].
  destruct (PATH_PARAM_BY_REL o innerrel || PATH_PARAM_BY_REL i outerrel) eqn:U; [apply ok_skip, I|].
  apply orb_false_iff in U. destruct (uniquify_ok st jt o i I Uc Eo Ei U) as (o' & i' & jt' & -> & Hso & Hsi & U'). cbn [rbind].
  destruct (select_outer_pathkeys_ok (query_pathkeys root) (js_canon st) (mergeclause_list extra) (relids (jrel joinrel))
    (iv_canon _ I) (iv_query _ I) (se_query Se) (se_linked Se) (se_matter_outer Se)) as (keys & canon' & -> & B). cbn [rbind].
  pose proof B as [C G K N _ _].
  pose proof (partial_inputs_ok st jt i' I Hsi) as Pp. destruct (set_canon_ok st canon' I C G) as [I' P'].
  apply (returns_from _ _ _ _ P'). apply ok_each; [exact I'|]. intros keys' st' Hk I2 P2.
  apply (orderings_perm canon' keys keys' C K) in Hk. assert (progress st st') as P3 by (etransitivity; eassumption).
  apply sort_both_ok; [exact I2|eapply progress_side; eassumption..|exact U'| | | |].
  - destruct (partial_inputs joinrel jt i' st) as [[po pi]|]; [|exact Logic.I]. destruct Pp as (P4 & P5 & P6).
    split_and!; [eapply progress_side; eassumption..|exact P6].
  - unfold known. rewrite Hk. eapply known_prefix; [|exact K]. apply P2.
  - rewrite Hk. exact N.
  - destruct (ordering_clauses _ _ _ _ _ keys' B (se_linked Se) Hk) as (-> & Pm & _). exact Pm.
Qed.

(** ** Merge joins over sorted outer paths *)

Lemma pick_found cmp acceptable l : forall m p, foldl (pick cmp acceptable) m l = Some p ->
  m = Some p \/ p ∈ l /\ acceptable p = true.
Proof.
  induction l as [|x l IH]; intros m p E; cbn [foldl] in E; [left; exact E|].
  destruct (IH _ _ E) as [Em|[Hp Ha]]; [|right; split; [right|]; assumption].
  unfold pick in Em. destruct m as [m|]; repeat case_match; try discriminate;
    first [left; exact Em|injection Em as ->; right; split; [left|assumption]].
Qed.

Lemma unparameterized p rel : PATH_REQ_OUTER p = None -> PATH_PARAM_BY_REL p rel = false.
Proof. intros E. unfold PATH_PARAM_BY_REL. rewrite E. destruct (param_info p); reflexivity. Qed.

Lemma subset_none rel p : param_ok rel p -> bms_is_subset (PATH_REQ_OUTER p) None = true -> PATH_REQ_OUTER p = None.
Proof.
  intros [W _ N] E. apply N. intros x M. apply bms_is_subset_spec in E; [|exact W|exact Logic.I].
  exact (no_members_none x (E x M)).
Qed.

(** The inner path a round of the loop takes. *)
Lemma inner_found st keys criterion safe i : search_inv st ->
  get_cheapest_path_for_pathkeys (pathlist (js_inner st)) keys None criterion safe = Some i ->
  side_path innerrel (js_canon st) i /\ PATH_REQ_OUTER i = None /\ keys_prefix keys (pathkeys i)
  /\ (safe = true -> parallel_safe i = true).
Proof.
  intros I E. apply pick_found in E as [E|[Hi Ha]]; [discriminate|].
  pose proof (sd_paths _ _ _ (iv_inner _ I)) as F. rewrite Forall_forall in F. pose proof (F i Hi) as Si.
  destruct (safe && negb (parallel_safe i)) eqn:Es; [discriminate|]. apply andb_true_iff in Ha as [Hk Hr].
  split_and!; [exact Si|exact (subset_none _ _ (sp_param _ _ _ Si) Hr)|apply pathkeys_contained_in_prefix, Hk|].
  intros ->. destruct (parallel_safe i); [reflexivity|discriminate].
Qed.

Definition outer_usable (is_partial : bool) (o : Path) : Prop :=
  if is_partial then consider_parallel (jrel joinrel) = true /\ parallel_safe o = true else PATH_PARAM_BY_REL o innerrel = false.

Lemma clauses_for_prefix n ikeys mc : clauses_for n ikeys mc `prefix_of` mc.
Proof. unfold clauses_for. case_match; [apply trim_ok|reflexivity]. Qed.

(** The data of the loop that does not change. *)
Record presorted (canon : list PathKey) (o : Path) (mc : list RestrictInfo) (ikeys : list PathKey) : Prop := {
  ps_clauses : mc ⊆+ mergeclause_list extra;
  ps_inner : known canon ikeys;
  ps_heads : heads_agree mc (pathkeys o) ikeys;
}.

Lemma presorted_grow canon canon' o mc ikeys : canon `prefix_of` canon' -> presorted canon o mc ikeys -> presorted canon' o mc ikeys.
Proof. intros G [P1 P2 P3]. split; [exact P1|eapply known_prefix; eassumption|exact P3]. Qed.

Lemma try_presorted_ok st o i mc mc' ikeys n keys jt (is_partial : bool) : search_inv st -> side_path outerrel (js_canon st) o ->
  outer_usable is_partial o -> presorted (js_canon st) o mc ikeys -> mc' `prefix_of` mc ->
  side_path innerrel (js_canon st) i -> PATH_REQ_OUTER i = None -> keys_prefix (take (S n) ikeys) (pathkeys i) ->
  (is_partial = true -> parallel_safe i = true) -> good_keys (js_canon st) keys ->
  ok st (try_mergejoin_path root joinrel o i keys mc' [] [] jt extra is_partial st).
Proof.
  intros I Hso U [Sub Ki Hh] Pf Hsi Ri Kp Ps Gk. apply try_mergejoin_ok; try assumption.
  - split; [apply merge_part|constructor|constructor|].
    + transitivity mc; [|exact Sub]. destruct Pf as [l ->]. apply submseteq_inserts_r. reflexivity.
    + apply (heads_merge_keys jt mc mc' (pathkeys o) ikeys); [exact Hh| |eauto|].
      * intros ->. apply prefix_nil_inv, Pf.
      * intros k l ->. apply (known_keys_prefix (js_canon st)) in Kp; [|apply I| |apply Hsi].
        -- destruct Kp as [l' E]. cbn [sort_or]. rewrite E. eexists. reflexivity.
        -- apply Forall_take, Ki.
  - destruct is_partial; cbn [outer_usable] in U; [destruct U; auto|]. split; [exact U|apply unparameterized, Ri].
Qed.

Lemma presorted_loop_ok mc ikeys o keys jt useall (is_partial : bool) n : forall st startup total, search_inv st ->
  side_path outerrel (js_canon st) o -> outer_usable is_partial o -> presorted (js_canon st) o mc ikeys ->
  good_keys (js_canon st) keys ->
  ok st (presorted_loop root joinrel n o mc ikeys keys startup total jt extra useall is_partial st).
Proof.
  induction n as [|n IH]; intros st startup total I Hso U Pr Gk; cbn [presorted_loop]; [apply ok_skip, I|].
  assert (forall st1 i criterion mc', search_inv st1 -> progress st st1 -> mc' `prefix_of` mc ->
    get_cheapest_path_for_pathkeys (pathlist (js_inner st1)) (take (S n) ikeys) None criterion is_partial = Some i ->
    ok st1 (try_mergejoin_path root joinrel o i keys mc' [] [] jt extra is_partial st1)) as Try.
  { intros st1 i criterion mc' I1 P1 Pf E. destruct (inner_found _ _ _ _ _ I1 E) as (Si & Ri & Kp & Ps).
    apply (try_presorted_ok st1 o i mc mc' ikeys n); try assumption.
    - eapply progress_side; eassumption.
    - eapply presorted_grow; [apply P1|exact Pr].
    - eapply good_keys_grow; [apply P1|exact Gk]. }
  match goal with |- ok st (rbind ?m ?k) => set (first := m); set (rest := k) end.
  assert (exists nc total' st1, first = Ok (nc, total', st1) /\ search_inv st1 /\ progress st st1 /\ nc `prefix_of` mc)
    as (nc & total' & st1 & -> & I1 & P1 & Pn).
  { unfold first. destruct (get_cheapest_path_for_pathkeys _ _ _ TOTAL_COST _) as [i|] eqn:Ei; [destruct (cheaper_inner _ _ _)|].
    - destruct (Try st i _ (clauses_for (S n) ikeys mc) I ltac:(reflexivity) (clauses_for_prefix _ _ _) Ei) as (st1 & -> & I1 & P1 & _).
      cbn [rbind]. do 3 eexists. split_and!; [reflexivity|exact I1|exact P1|apply clauses_for_prefix].
    - do 3 eexists. split_and!; [reflexivity|exact I|reflexivity|apply prefix_nil].
    - do 3 eexists. split_and!; [reflexivity|exact I|reflexivity|apply prefix_nil]. }
  cbn [rbind]. unfold rest. clear rest. apply (returns_from _ _ _ _ P1).
  match goal with |- ok st1 (rbind ?m ?k) => set (second := m); set (rest := k) end.
  assert (exists startup' st2, second = Ok (startup', st2) /\ search_inv st2 /\ progress st1 st2) as (startup' & st2 & -> & I2 & P2).
  { unfold second. destruct (get_cheapest_path_for_pathkeys _ _ _ STARTUP_COST _) as [i|] eqn:Ei;
      [destruct (cheaper_inner _ _ _); [case_match|]|];
      try (do 2 eexists; split_and!; [reflexivity|exact I1|reflexivity]).
    match goal with |- context [try_mergejoin_path _ _ _ _ _ ?c] => set (mc' := c) end.
    assert (mc' `prefix_of` mc) as Pm by (unfold mc'; destruct nc; [apply clauses_for_prefix|exact Pn]).
    destruct (Try st1 i _ mc' I1 P1 Pm Ei) as (st2 & -> & I2 & P2 & _). cbn [rbind]. eauto. }
  cbn [rbind]. unfold rest. clear rest. apply (returns_from _ _ _ _ P2). destruct useall; [apply ok_skip, I2|].
  assert (progress st st2) as P3 by (etransitivity; eassumption).
  apply IH; [exact I2|eapply progress_side; eassumption|exact U|eapply presorted_grow; [apply P3|exact Pr]|].
  eapply good_keys_grow; [apply P3|exact Gk].
Qed.

Lemma generate_mergejoin_ok st o i keys jt useall (is_partial : bool) : search_inv st -> side_path outerrel (js_canon st) o ->
  side_path innerrel (js_canon st) i -> good_keys (js_canon st) keys -> usable is_partial o i ->
  ok st (generate_mergejoin_paths root joinrel o jt extra useall i keys is_partial st).
Proof.
  intros I Hso Hsi Gk U. unfold generate_mergejoin_paths. destruct (_ && _); [apply ok_skip, I|]. destruct (_ && _); [apply ok_skip, I|].
  destruct (inner_order_ok _ (pathkeys o) (iv_canon _ I) (sp_known _ _ _ Hso) (sp_order _ _ _ Hso))
    as (Sub & ikeys & canon' & -> & C & G & K & Hh).
  cbn [rbind]. destruct (set_canon_ok st canon' I C G) as [I' P']. apply (returns_from _ _ _ _ P'). eapply returns_bind.
  - apply try_mergejoin_ok; [exact I'|eapply progress_side; eassumption|eapply progress_side; eassumption| |eapply good_keys_grow; eassumption|exact U].
    split; [apply merge_part, Sub|constructor|exact K|].
    eapply heads_merge_keys; [exact Hh|auto|eauto|intros k l E; apply (sort_or_head _ _ k l E)].
  - intros st2 I2 P2 _. destruct (bool_decide _); [apply ok_skip, I2|].
    apply presorted_loop_ok; [exact I2|eapply progress_side; [exact P2|eapply progress_side; eassumption]| | |].
    + destruct is_partial; cbn [outer_usable usable] in *; tauto.
    + split; [exact Sub|eapply known_prefix; [apply P2|exact K]|exact Hh].
    + eapply good_keys_grow; [apply P2|]. eapply good_keys_grow; eassumption.
Qed.

(** ** Nested loops over the outer paths as they are *)

(** A loop with a round that makes a path makes a path. *)
Lemma each_reaches {A} (good : A -> Prop) (l : list A) body st : search_inv st ->
  (forall x st', x ∈ l -> search_inv st' -> progress st st' -> returns st' (body x st') (fun st2 => good x -> alive (js_paths st2))) ->
  returns st (for_each l body st) (fun st' => (exists x, x ∈ l /\ good x) -> alive (js_paths st')).
Proof.
  revert st. induction l as [|x l IH]; intros st I B; cbn [for_each].
  { exists st. split_and!; [reflexivity|exact I|reflexivity|]. intros (x & Hx & _). inversion Hx. }
  destruct (B x st) as (st1 & E & I1 & P1 & Q1); [left|exact I|reflexivity|]. unfold andthen. rewrite E. cbn [rbind].
  apply (returns_from _ _ _ _ P1). destruct (IH st1 I1) as (st2 & E2 & I2 & P2 & Q2).
  { intros y st' Hy I' P'. apply B; [right; exact Hy|exact I'|]. etransitivity; eassumption. }
  exists st2. split_and!; [exact E2|exact I2|exact P2|]. intros (y & Hy & G). apply elem_of_cons in Hy as [->|Hy]; [|eauto].
  exact (progress_alive _ _ I1 P2 (Q1 G)).
Qed.

Lemma returns_then st r (g : JoinState -> result JoinState) Q : returns st r (fun st' => Q -> alive (js_paths st')) ->
  (forall st', search_inv st' -> progress st st' -> ok st' (g st')) -> returns st (rbind r g) (fun st' => Q -> alive (js_paths st')).
Proof.
  intros R G. eapply returns_bind; [exact R|]. intros st1 I1 P1 Q1. destruct (G st1 I1 P1) as (st2 & E & I2 & P2 & _).
  exists st2. split_and!; [exact E|exact I2|exact P2|]. intros HQ. exact (progress_alive _ _ I1 P2 (Q1 HQ)).
Qed.

(** The inner path for merge joins, and the materialized inner path. *)
Definition total_ok (canon : list PathKey) (i : option Path) : Prop :=
  match i with Some i => side_path innerrel canon i /\ PATH_PARAM_BY_REL i outerrel = false | None => True end.
Definition mat_ok (canon : list PathKey) (m : option Path) : Prop :=
  match m with Some m => side_path innerrel canon m | None => True end.

Lemma material_fields i : let m := create_material_path innerrel i in
  rows m = rows i /\ parent m = innerrel /\ PATH_REQ_OUTER m = PATH_REQ_OUTER i /\ pathkeys m = pathkeys i
  /\ pathtarget m = reltarget innerrel /\ param_info m = param_info i /\ parallel_workers m = parallel_workers i.
Proof. unfold create_material_path, cost_material. destruct (spill_cost _ _ _). split_and!; reflexivity. Qed.

Lemma material_ok canon i : side_path innerrel canon i -> side_path innerrel canon (create_material_path innerrel i).
Proof.
  intros [[[] Ig F []] Rc Rl Hp [Pw Pa Pn Pi] Kn Nd Wk]. destruct (material_fields i) as (E1 & E2 & E3 & E4 & E5 & E6 & E7).
  split; rewrite ?E1, ?E4, ?E7; try assumption; [|split; rewrite ?E6, E3; assumption].
  split; rewrite ?E1, ?E5; [|assumption..|apply Se]. apply cost_material_ok; assumption.
Qed.

Lemma outer_candidate_ok st jt o : search_inv st -> unique_cached jt st -> side_path outerrel (js_canon st) o ->
  PATH_PARAM_BY_REL o innerrel = false ->
  outer_candidate outerrel jt o st = Ok None /\ jt = JOIN_UNIQUE_OUTER
    /\ (forall t, cheapest_total_path (js_outer st) = Some t -> same_path o t = false)
  \/ exists o', outer_candidate outerrel jt o st = Ok (Some (o', st)) /\ side_path outerrel (js_canon st) o'
       /\ param_info o' = param_info o.
Proof.
  intros I Uc Hso N. unfold outer_candidate. case_bool_decide as Ej; [|right; exists o; auto].
  destruct (sd_total _ _ _ (iv_outer _ I)) as (t & Et & St). rewrite Et. cbn [deref rbind].
  destruct (same_path o t) eqn:Es; cbn [negb]; [|left; split_and!; [reflexivity|exact Ej|congruence]]. apply same_path_eq in Es as ->.
  rewrite Ej in Uc. destruct (unique_outer_ok st t I Uc Et) as (u & -> & Su & Ep). cbn [rbind]. right. exists u. auto.
Qed.

(** What makes a nested loop over unparameterized inputs possible. *)
Definition inner_feasible (jt : JoinType) (ict : option Path) (inner : RelPaths) : Prop :=
  match jt with
  | JOIN_UNIQUE_INNER => exists i, ict = Some i /\ PATH_REQ_OUTER i = None
  | JOIN_INNER | JOIN_LEFT | JOIN_SEMI | JOIN_ANTI | JOIN_UNIQUE_OUTER =>
      exists i, i ∈ cheapest_parameterized_paths inner /\ PATH_REQ_OUTER i = None
  | JOIN_RIGHT | JOIN_FULL => False
  end.

(** An outer path with no parameters; of an outer side to be made unique only the
    cheapest path is taken. *)
Definition outer_feasible (jt : JoinType) (outer : RelPaths) (o : Path) : Prop :=
  PATH_REQ_OUTER o = None
  /\ (jt = JOIN_UNIQUE_OUTER -> exists t, cheapest_total_path outer = Some t /\ same_path o t = true).

Lemma req_outer_same p q : param_info p = param_info q -> PATH_REQ_OUTER p = PATH_REQ_OUTER q.
Proof. intros E. unfold PATH_REQ_OUTER. rewrite E. reflexivity. Qed.

Lemma inner_loops_ok st jt jt' (nestok : bool) o ict mat keys : search_inv st -> side_path outerrel (js_canon st) o ->
  PATH_PARAM_BY_REL o innerrel = false -> total_ok (js_canon st) ict -> mat_ok (js_canon st) mat -> good_keys (js_canon st) keys ->
  (jt = JOIN_UNIQUE_INNER -> ict <> None) -> nestloop_support jt = (jt', nestok, negb nestok) ->
  returns st
    (if bool_decide (jt = JOIN_UNIQUE_INNER) then
       let! i := deref ict in try_nestloop_path root joinrel o i keys jt' extra st
     else if nestok then
       (for_each (cheapest_parameterized_paths (js_inner st)) (fun i => try_nestloop_path root joinrel o i keys jt' extra);;
        match mat with Some m => try_nestloop_path root joinrel o m keys jt' extra | None => skip end) st
     else Ok st)
    (fun st' => PATH_REQ_OUTER o = None /\ inner_feasible jt ict (js_inner st) -> alive (js_paths st')).
Proof.
  intros I Hso N Ti Mi Gk Hu Hn. case_bool_decide as Ej.
  - destruct ict as [i|]; [|destruct (Hu Ej eq_refl)]. cbn [deref rbind]. destruct Ti as [Si _].
    eapply returns_weaken; [apply try_nestloop_ok; assumption|]. cbn beta. intros st' W [Eo Fi]. rewrite Ej in Fi.
    destruct Fi as (i' & [= <-] & Ei). auto.
  - destruct nestok.
    + unfold andthen. apply returns_then.
      * eapply returns_weaken; [apply (each_reaches (fun i => PATH_REQ_OUTER o = None /\ PATH_REQ_OUTER i = None)); [exact I|]|].
        -- intros i st' Hi I' P'. eapply returns_weaken; [apply try_nestloop_ok; [exact I'|eapply progress_side; eassumption| |exact N|]|].
           ++ eapply progress_side; [exact P'|]. pose proof (sd_cheapest _ _ _ (iv_inner _ I)) as F. rewrite Forall_forall in F. exact (F i Hi).
           ++ eapply good_keys_grow; [apply P'|exact Gk].
           ++ cbn beta. tauto.
        -- cbn beta. intros st' W [Eo Fi]. apply W. destruct jt; try done; destruct Fi as (i & Hi & Ei); eauto.
      * intros st' I' P'. destruct mat as [m|]; [|apply ok_skip, I'].
        eapply returns_weaken; [apply try_nestloop_ok; [exact I'|eapply progress_side; eassumption|eapply progress_side; eassumption|exact N|]|auto].
        eapply good_keys_grow; [apply P'|exact Gk].
    + exists st. split_and!; [reflexivity|exact I|reflexivity|]. intros [_ Fi]. destruct jt; done.
Qed.

Lemma match_outer_path_ok st jt jt' (nestok : bool) o ict mat : search_inv st -> unique_cached jt st ->
  side_path outerrel (js_canon st) o -> total_ok (js_canon st) ict -> mat_ok (js_canon st) mat ->
  (jt = JOIN_UNIQUE_INNER -> ict <> None) -> nestloop_support jt = (jt', nestok, negb nestok) ->
  returns st (match_outer_path root joinrel outerrel innerrel jt jt' nestok (negb nestok) extra ict mat o st)
    (fun st' => outer_feasible jt (js_outer st) o /\ inner_feasible jt ict (js_inner st) -> alive (js_paths st')).
Proof.
  intros I Uc Hso Ti Mi Hu Hn. unfold match_outer_path. destruct (PATH_PARAM_BY_REL o innerrel) eqn:N.
  { exists st. split_and!; [reflexivity|exact I|reflexivity|]. intros [[Eo _] _]. rewrite (unparameterized _ _ Eo) in N. discriminate. }
  destruct (outer_candidate_ok st jt o I Uc Hso N) as [(-> & -> & Ns)|(o' & -> & So' & Ep)]; cbn [rbind].
  { exists st. split_and!; [reflexivity|exact I|reflexivity|]. intros [[_ T] _]. destruct (T eq_refl) as (t & Et & Es). rewrite (Ns t Et) in Es. discriminate. }
  eapply returns_weaken with (Q := fun st' => PATH_REQ_OUTER o = None /\ inner_feasible jt ict (js_inner st) -> alive (js_paths st'));
    [|cbn beta; intros st' A [[Eo _] Fi]; auto].
  rewrite <- (param_by_same o' o innerrel Ep) in N. rewrite <- (req_outer_same o' o Ep).
  apply returns_then; [apply inner_loops_ok; try assumption; eapply path_keys_good; eassumption|]. intros st' I' P'. destruct (bool_decide _); [apply ok_skip, I'|].
  destruct ict as [i|]; [|apply ok_skip, I']. destruct Ti as [Si Ni].
  apply generate_mergejoin_ok; [exact I'|eapply progress_side; eassumption|eapply progress_side; eassumption| |split; assumption].
  eapply path_keys_good, progress_side; eassumption.
Qed.

(** ** Partial paths *)

Lemma consider_parallel_mergejoin_ok st save jt i : search_inv st -> partial_ok joinrel save st = true ->
  side_path innerrel (js_canon st) i -> parallel_safe i = true ->
  ok st (consider_parallel_mergejoin root joinrel jt extra i st).
Proof.
  intros I P Hsi Pi. unfold consider_parallel_mergejoin. apply ok_each; [exact I|]. intros o st' Ho I' P'.
  destruct (partial_ok_outer st save o I P Ho) as (Hso & _ & Cp & Po).
  apply generate_mergejoin_ok; [exact I'|eapply progress_side; eassumption|eapply progress_side; eassumption| |split_and!; assumption].
  eapply path_keys_good, progress_side; eassumption.
Qed.

Lemma partial_nestloop_with_ok st save jt o keys i : search_inv st -> unique_cached save st -> side_path outerrel (js_canon st) o ->
  consider_parallel (jrel joinrel) = true -> parallel_safe o = true -> side_path innerrel (js_canon st) i ->
  good_keys (js_canon st) keys ->
  ok st (partial_nestloop_with root joinrel innerrel save jt extra o keys i st).
Proof.
  intros I Uc Hso Cp Po Hsi Gk. unfold partial_nestloop_with. destruct (parallel_safe i) eqn:Pi; cbn [negb]; [|apply ok_skip, I].
  case_bool_decide as Ej; [|apply try_partial_nestloop_ok; assumption].
  destruct (sd_total _ _ _ (iv_inner _ I)) as (t & Et & St). rewrite Et. cbn [deref rbind].
  destruct (same_path i t) eqn:Es; cbn [negb]; [|apply ok_skip, I]. apply same_path_eq in Es as ->.
  rewrite Ej in Uc. destruct (unique_inner_ok st t I Uc Et) as (u & -> & Su & _ & Ps). cbn [rbind].
  apply try_partial_nestloop_ok; try assumption. congruence.
Qed.

Lemma consider_parallel_nestloop_ok st jt : search_inv st -> unique_cached jt st -> partial_ok joinrel jt st = true ->
  ok st (consider_parallel_nestloop root joinrel innerrel jt extra st).
Proof.
  intros I Uc P. unfold consider_parallel_nestloop. apply ok_each; [exact I|]. intros o st1 Ho I1 P1.
  destruct (partial_ok_outer st jt o I P Ho) as (Hso & _ & Cp & Po). apply ok_each; [exact I1|]. intros i st2 Hi I2 P2.
  assert (progress st st2) as P3 by (etransitivity; eassumption).
  apply partial_nestloop_with_ok; try assumption; [eapply unique_cached_progress; eassumption|eapply progress_side; eassumption| |].
  2: { eapply path_keys_good, progress_side; eassumption. }
  eapply progress_side; [exact P2|]. pose proof (sd_cheapest _ _ _ (iv_inner _ I1)) as F. rewrite Forall_forall in F. exact (F i Hi).
Qed.

Lemma partial_ok_progress jt st st' : progress st st' -> partial_ok joinrel jt st' = partial_ok joinrel jt st.
Proof. intros [_ E _ _ _]. unfold partial_ok. rewrite E. reflexivity. Qed.

Lemma match_partial_ok st jt nestok ict : search_inv st -> unique_cached jt st -> total_ok (js_canon st) ict ->
  ok st (match_partial root joinrel innerrel jt nestok extra ict st).
Proof.
  intros I Uc Ti. unfold match_partial. destruct (partial_ok joinrel jt st) eqn:P; [|apply ok_skip, I].
  eapply returns_bind.
  { unfold when. destruct nestok; [apply consider_parallel_nestloop_ok; assumption|apply ok_skip, I]. }
  intros st1 I1 P1 _. match goal with |- ok st1 (match ?m with _ => _ end) => destruct m as [i|] eqn:Ei; [|apply ok_skip, I1] end.
  rewrite <- (partial_ok_progress jt st st1 P1) in P.
  assert (side_path innerrel (js_canon st1) i /\ parallel_safe i = true) as [Si Ps]
    by (repeat case_match; simplify_eq; first [eapply safe_total_inner_ok; [apply I1|eassumption]
        |destruct Ti; split; [eapply progress_side; eassumption|assumption]]).
  eapply consider_parallel_mergejoin_ok; eassumption.
Qed.

(** ** match_unsorted_outer *)

(** Both inputs have a path with no parameters where a nested loop wants it. *)
Definition nestloop_feasible (jt : JoinType) (st : JoinState) : Prop :=
  (exists o, o ∈ pathlist (js_outer st) /\ outer_feasible jt (js_outer st) o)
  /\ inner_feasible jt (cheapest_total_path (js_inner st)) (js_inner st).

(** The inner path the merge joins use: the cheapest one, made unique if need be. *)
Definition usable_total (t : Path) : option Path := if PATH_PARAM_BY_REL t outerrel then None else Some t.

Lemma inner_total_ok st jt t : search_inv st -> unique_cached jt st -> cheapest_total_path (js_inner st) = Some t ->
  (jt = JOIN_UNIQUE_INNER -> usable_total t <> None) ->
  exists ict, (if bool_decide (jt = JOIN_UNIQUE_INNER) then let! (p, st') := unique_inner innerrel t st in Ok (Some p, st')
               else Ok (usable_total t, st)) = Ok (ict, st)
    /\ total_ok (js_canon st) ict /\ (jt = JOIN_UNIQUE_INNER -> ict <> None)
    /\ (inner_feasible jt (Some t) (js_inner st) -> inner_feasible jt ict (js_inner st)).
Proof.
  intros I Uc Et Hu. unfold usable_total in *. pose proof (total_path _ _ _ _ (iv_inner _ I) Et) as St. case_bool_decide as Ej.
  - rewrite Ej in *. specialize (Hu eq_refl). destruct (unique_inner_ok st t I Uc Et) as (u & -> & Su & Ep & _). cbn [rbind].
    exists (Some u). split_and!; [reflexivity| |done|].
    + split; [exact Su|]. rewrite (param_by_same u t outerrel Ep). destruct (PATH_PARAM_BY_REL t outerrel); [done|reflexivity].
    + intros (i & [= <-] & Ei). exists u. split; [reflexivity|]. rewrite (req_outer_same u t Ep). exact Ei.
  - eexists. split_and!; [reflexivity| |done|destruct jt; done].
    destruct (PATH_PARAM_BY_REL t outerrel) eqn:N; [exact Logic.I|split; assumption].
Qed.

Lemma match_unsorted_outer_ok st jt : search_inv st -> unique_cached jt st ->
  returns st (match_unsorted_outer root joinrel outerrel innerrel jt extra st) (fun st' => nestloop_feasible jt st -> alive (js_paths st')).
Proof.
  intros I Uc. unfold match_unsorted_outer. assert (exists jt' nestok, nestloop_support jt = (jt', nestok, negb nestok)) as (jt' & nestok & En)
    by (destruct jt; first [eexists _, true; reflexivity|eexists _, false; reflexivity]).
  rewrite En. destruct (sd_total _ _ _ (iv_inner _ I)) as (t & Et & St). rewrite Et. cbn [deref rbind].
  change (if PATH_PARAM_BY_REL t outerrel then None else Some t) with (usable_total t).
  destruct (bool_decide (jt = JOIN_UNIQUE_INNER) && bool_decide (usable_total t = None)) eqn:Eskip.
  { exists st. split_and!; [reflexivity|exact I|reflexivity|]. intros [_ Fi]. apply andb_true_iff in Eskip as [Ej Ec].
    apply bool_decide_eq_true in Ej, Ec. rewrite Ej, Et in Fi. destruct Fi as (i & [= <-] & Ei).
    unfold usable_total in Ec. rewrite (unparameterized _ _ Ei) in Ec. discriminate. }
  destruct (inner_total_ok st jt t I Uc Et) as (ict & -> & Ti & Hu & Hf).
  { intros Ej. rewrite bool_decide_true in Eskip by exact Ej. apply bool_decide_eq_false in Eskip. exact Eskip. }
  cbn [rbind]. match goal with |- context [match_outer_path _ _ _ _ _ _ _ _ _ _ ?m] => set (mat := m) end.
  assert (mat_ok (js_canon st) mat) as Mi.
  { unfold mat. destruct (_ && enable_material); [|exact Logic.I]. destruct ict as [i|]; cbn [mbind option_bind]; [|exact Logic.I].
    destruct (ExecMaterializesOutput _); [exact Logic.I|]. apply material_ok, Ti. }
  assert (forall st', progress st st' -> total_ok (js_canon st') ict) as Ti'.
  { intros st' P'. destruct ict as [i|]; [|exact Logic.I]. destruct Ti. split; [eapply progress_side|]; eassumption. }
  unfold andthen. apply returns_then.
  - eapply returns_weaken; [apply (each_reaches (fun o => outer_feasible jt (js_outer st) o /\ inner_feasible jt ict (js_inner st))); [exact I|]|].
    + intros o st' Ho I' P'. rewrite <- (pg_inner _ _ P'), <- (pg_outer _ _ P'). apply match_outer_path_ok; auto.
      * eapply unique_cached_progress; eassumption.
      * eapply progress_side; [exact P'|]. pose proof (sd_paths _ _ _ (iv_outer _ I)) as F. rewrite Forall_forall in F. exact (F o Ho).
      * destruct mat as [m|]; [|exact Logic.I]. eapply progress_side; eassumption.
    + cbn beta. intros st' W [(o & Ho & Eo) Fi]. rewrite Et in Fi. apply W. exists o. auto.
  - intros st' I' P'. apply match_partial_ok; [exact I'|eapply unique_cached_progress; eassumption|auto].
Qed.

(** ** hash_inner_and_outer *)

Lemma clause_sides_same r r' o i : clause_sides_match_join r o i = Some r' -> same_clause r r'.
Proof. unfold clause_sides_match_join. intros E. repeat case_match; simplify_eq; apply same_clause_join. Qed.

Lemma same_clause_buckets_ok r r' o i : clause_sides_match_join r o i = Some r' -> buckets_ok r -> buckets_ok r'.
Proof. unfold clause_sides_match_join. intros E [B1 B2]. repeat case_match; simplify_eq; destruct r; split; assumption. Qed.

Lemma hashable_ok isouter : hash_clauses_ok (hashable_clauses outerrel innerrel isouter (restrictlist extra)).
Proof.
  pose proof (se_buckets Se) as B. enough (forall l, Forall buckets_ok l ->
    within (hashable_clauses outerrel innerrel isouter l) l /\ Forall buckets_ok (hashable_clauses outerrel innerrel isouter l))
    as W by (destruct (W _ B); split; assumption).
  induction l as [|r l IH]; intros F; cbn [hashable_clauses]; [split; constructor|]. apply Forall_cons in F as [Hr F].
  destruct (IH F) as [W F']. destruct (_ || _); [split; [constructor|]; assumption|].
  destruct (clause_sides_match_join r outerrel innerrel) as [r'|] eqn:E; [|split; [constructor|]; assumption].
  split; constructor; try assumption; [eapply clause_sides_same|eapply same_clause_buckets_ok]; eassumption.
Qed.

Lemma hash_pairs_ok st startup total hc jt : search_inv st -> hash_clauses_ok hc ->
  ok st (hash_pairs root joinrel outerrel innerrel startup total hc jt extra st).
Proof.
  intros I Hh. unfold hash_pairs. apply ok_each; [exact I|]. intros o st1 Ho I1 P1.
  destruct (PATH_PARAM_BY_REL o innerrel) eqn:No; [apply ok_skip, I1|]. apply ok_each; [exact I1|]. intros i st2 Hi I2 P2.
  destruct (PATH_PARAM_BY_REL i outerrel) eqn:Ni; [apply ok_skip, I2|]. destruct (_ && _); [apply ok_skip, I2|].
  pose proof (sd_cheapest _ _ _ (iv_outer _ I)) as Fo. pose proof (sd_cheapest _ _ _ (iv_inner _ I1)) as Fi.
  rewrite Forall_forall in Fo, Fi.
  apply try_hashjoin_ok; try assumption; eapply progress_side; [|exact (Fo o Ho)|exact P2|exact (Fi i Hi)].
  etransitivity; eassumption.
Qed.

Lemma hash_full_ok st save jt hc o i : search_inv st -> hash_clauses_ok hc -> side_path outerrel (js_canon st) o ->
  side_path innerrel (js_canon st) i -> usable false o i ->
  let try outer := try_hashjoin_path root joinrel outer i hc jt extra in
  let startup := cheapest_startup_path (js_outer st) in
  ok st match save with
        | JOIN_UNIQUE_OUTER => try o st
        | JOIN_UNIQUE_INNER =>
            (try o;; match startup with Some p => when (negb (same_path p o)) (try p) | None => skip end) st
        | _ => (match startup with Some p => try p | None => skip end;;
                hash_pairs root joinrel outerrel innerrel startup i hc jt extra) st
        end.
Proof.
  intros I Hh Hso Hsi [Uo Ui] try startup.
  assert (forall st' p, search_inv st' -> progress st st' -> startup = Some p -> ok st' (try p st')) as Ts.
  { intros st' p I' P' E. pose proof (sd_startup _ _ _ (iv_outer _ I)) as S. fold startup in S. rewrite E in S. destruct S as [Sp Rp].
    apply try_hashjoin_ok; try assumption; [eapply progress_side; eassumption..|apply unparameterized, Rp]. }
  assert (ok st (try o st)) as To by (apply try_hashjoin_ok; assumption).
  assert (ok st ((match startup with Some p => try p | None => skip end;;
                  hash_pairs root joinrel outerrel innerrel startup i hc jt extra) st)) as Tp.
  { unfold andthen. eapply returns_bind; [|intros st' I' P' _; apply hash_pairs_ok; assumption].
    destruct startup as [p|]; [apply Ts; [exact I|reflexivity|reflexivity]|apply ok_skip, I]. }
  destruct save; try assumption. unfold andthen. eapply returns_bind; [exact To|]. intros st' I' P' _.
  destruct startup as [p|]; [|apply ok_skip, I']. unfold when. destruct (negb _); [apply Ts; auto|apply ok_skip, I'].
Qed.

Lemma hash_inner_and_outer_ok st jt : search_inv st -> unique_cached jt st ->
  ok st (hash_inner_and_outer root joinrel outerrel innerrel jt extra st).
Proof.
  intros I Uc. unfold hash_inner_and_outer. pose proof (hashable_ok (IS_OUTER_JOIN jt)) as Hh.
  destruct (hashable_clauses _ _ _ _) as [|r hc]; [apply ok_skip, I|].
  destruct (sd_total _ _ _ (iv_outer _ I)) as (o & Eo & _). destruct (sd_total _ _ _ (iv_inner _ I)) as (i & Ei & _).
  rewrite Eo, Ei. cbn [deref rbind]. destruct (PATH_PARAM_BY_REL o innerrel || PATH_PARAM_BY_REL i outerrel) eqn:U; [apply ok_skip, I|].
  apply orb_false_iff in U. destruct (uniquify_ok st jt o i I Uc Eo Ei U) as (o' & i' & jt' & -> & Hso & Hsi & U'). cbn [rbind].
  eapply returns_bind; [apply (hash_full_ok st jt jt' (r :: hc) o' i'); assumption|]. intros st' I' P' _.
  pose proof (partial_inputs_ok st' jt i' I' (progress_side _ _ _ _ P' Hsi)) as Pp.
  destruct (partial_inputs joinrel jt i' st') as [[po pi]|]; [|apply ok_skip, I']. destruct Pp as (S1 & S2 & Cp & Po & Pi).
  apply try_partial_hashjoin_ok; assumption.
Qed.

End spec.
