(* ===== verification/JoinSearchSpec.v ===== *)
(** The whole search for join paths: add_paths_to_joinrel is safe and makes only
    well-formed paths, and rejecting a join on its preliminary cost loses nothing. *)
From stdpp Require Import gmap relations.
From S2P Require Import Prelude Float64 Double DoubleOrder DoubleDiv DoubleRound Bitmapset BitmapsetSpec PlanTypes Samples Pathkeys PathCompare AddPath Cheapest CostExpr CostBase CostScan CostScanSpec CostNode HashSize CostJoin CostJoinSpec SizeEst SizeEstSpec ParamInfo CreatePath CreatePathSpec UpperPathSpec MergeKeys MergeKeysSpec JoinPath QualCover JoinPathSpec.
Open Scope Z_scope.

(** ** Early rejection *)

(** A larger cost is above whatever the smaller one is above. *)
Lemma dlt_cle_trans c a b : nonneg c = true -> nonneg a = true -> nonneg b = true -> a ⊑ b -> isnan b = false ->
  (a >? c)%D = true -> (b >? c)%D = true.
Proof. unfold cle. intros Hc Ha Hb L Nb. rewrite !dlt_iff by assumption. intros [? _]. split; [lia|exact Nb]. Qed.

Lemma precheck_loop_mono cs s t s' t' keys req l : Forall costed l -> nonneg s = true -> nonneg t = true -> nonneg s' = true ->
  nonneg t' = true -> s ⊑ s' -> t ⊑ t' -> isnan s' = false -> isnan t' = false ->
  add_path_precheck_loop cs s t keys req l = false -> add_path_precheck_loop cs s' t' keys req l = false.
Proof.
  intros F Hs Ht Hs' Ht' Ls Lt Ns Nt. destruct STD_FUZZ_FACTOR_ok as (Hf & _).
  induction F as [|q l Hq _ IH]; cbn [add_path_precheck_loop]; [discriminate|].
  assert (nonneg (total_cost q * STD_FUZZ_FACTOR)%D = true) by (destruct Hq; auto with nneg).
  assert (nonneg (startup_cost q * STD_FUZZ_FACTOR)%D = true) by (destruct Hq; auto with nneg).
  destruct (t >? total_cost q * STD_FUZZ_FACTOR)%D eqn:Et; [|discriminate].
  rewrite (dlt_cle_trans _ t t') by assumption. intros E.
  destruct ((s >? startup_cost q * STD_FUZZ_FACTOR)%D) eqn:Es.
  - rewrite (dlt_cle_trans _ s s') by assumption. cbn [orb] in *. destruct (_ && _); [reflexivity|exact (IH E)].
  - cbn [orb] in E. destruct (negb cs); cbn [andb] in E; [rewrite orb_true_r; cbn [andb]; destruct (_ && _); [reflexivity|exact (IH E)]|].
    destruct (_ && _ && _); [reflexivity|exact (IH E)].
Qed.

Section rejection.
Context `{Libm, Settings, Catalog, Estimator, Equivalences, PathSupport, EClasses, JoinSupport}.
Context `{!CatalogLaws, !EstimatorLaws, !EquivalenceLaws, !LibmOrder} (So : settings_ok).

Lemma precheck_final rel paths ws p keys req : Forall costed (pathlist paths) -> costed p -> lower_bound ws p ->
  nonneg (ws_startup_cost ws) = true -> nonneg (ws_total_cost ws) = true ->
  add_path_precheck rel paths (ws_startup_cost ws) (ws_total_cost ws) keys req = false ->
  isnan (startup_cost p) = false -> isnan (total_cost p) = false ->
  add_path_precheck rel paths (startup_cost p) (total_cost p) keys req = false.
Proof.
  intros F [? ? ? ? ?] [Ls Lt] Hs Ht E Ns Nt. unfold add_path_precheck in *.
  destruct (match req with Some _ => _ | None => _ end). revert E. apply precheck_loop_mono; assumption.
Qed.

(** C19: a nested loop or hash join that try_nestloop_path or try_hashjoin_path turns away
    on its preliminary costs, before the path is made, would not have passed the same
    test with its final costs: the path could be made without error, and as long as its
    costs are not NaN add_path_precheck rejects them against the same list of paths. The
    outer path is not parameterized by the inner relation; the inner path of a nested loop
    may be parameterized by the outer one, that of a hash join is not. *)
Theorem early_rejection root joinrel outerrel innerrel extra st outer inner hc0 jt keys :
  search_ok root joinrel outerrel innerrel extra -> search_inv root joinrel outerrel innerrel st ->
  side_path outerrel (js_canon st) outer -> side_path innerrel (js_canon st) inner ->
  PATH_PARAM_BY_REL outer innerrel = false -> hash_clauses_ok extra hc0 ->
  let accepts s t k req := add_path_precheck (jrel joinrel) (js_paths st) s t k req in
  (let req := calc_nestloop_required_outer outer inner in
   let ws := initial_cost_nestloop new_workspace jt outer inner (jextra extra) in
   accepts (ws_startup_cost ws) (ws_total_cost ws) keys req = false ->
   try_nestloop_path root joinrel outer inner keys jt extra st = Ok st
   /\ exists p params, create_nestloop_path (jp_root root) (jrel joinrel) (js_params st) jt ws (jextra extra) (ex_sjinfo extra)
        outer inner (restrictlist extra) keys req = Ok (p, params)
      /\ (isnan (startup_cost p) = false -> isnan (total_cost p) = false ->
          accepts (startup_cost p) (total_cost p) keys req = false))
  /\ (PATH_PARAM_BY_REL inner outerrel = false ->
      let req := calc_non_nestloop_required_outer outer inner in
      let hc := map (load_bucketsizes (js_buckets st)) hc0 in
      exists ws, initial_cost_hashjoin new_workspace hc outer inner = Some ws
      /\ (accepts (ws_startup_cost ws) (ws_total_cost ws) [] req = false ->
          try_hashjoin_path root joinrel outer inner hc0 jt extra st = Ok st
          /\ exists p params, create_hashjoin_path (jp_root root) (jrel joinrel) (js_params st) jt ws (jextra extra)
            (ex_sjinfo extra) outer inner (restrictlist extra) req hc = Ok (p, params)
          /\ (isnan (startup_cost p) = false -> isnan (total_cost p) = false ->
              accepts (startup_cost p) (total_cost p) [] req = false))).
Proof.
  intros Se I Hso Hsi No Hh accepts.
  assert (Forall costed (pathlist (js_paths st))) as F.
  { eapply Forall_impl; [apply (jr_full _ _ _ (iv_paths _ _ _ _ _ I))|]. intros q [Sq _]. apply Sq. }
  pose proof (pair_inputs _ _ _ _ _ Se _ outer inner Hso Hsi) as Hi. split.
  - intros req ws E. destruct (nestloop_apart _ _ _ _ _ Se _ outer inner Hso Hsi No) as (Wr & _).
    split; [unfold try_nestloop_path; case_match; [reflexivity|]; subst accepts ws req; cbn beta in E; rewrite E; reflexivity|].
    destruct (nestloop_built So _ _ _ _ _ Se st req jt outer inner keys I Wr Hi) as (p & params & E2 & [C _ _ _ _ _ _ _ _] & _ & L & _).
    exists p, params. split; [exact E2|]. intros Ns Nt.
    destruct (initial_cost_nestloop_ok So new_workspace jt outer inner (jextra extra)) as (S1 & S2 & S3 & _); [apply Hi..|].
    eapply precheck_final; try eassumption. rewrite S3. auto with nneg.
  - intros Ni req hc'. destruct (non_nestloop_apart _ _ _ _ _ Se _ outer inner Hso Hsi No Ni) as [Wr _].
    pose proof (load_clauses_ok _ _ _ _ _ st hc0 I Hh) as Hl.
    destruct (hashjoin_built So _ _ _ _ _ Se st req jt outer inner hc' I Wr Hi (hash_part So _ _ _ _ _ Se _ Hl) (hk_buckets _ _ Hl))
      as (ws & p & params & E1 & E2 & [C _ _ _ _ _ _ _ _] & _ & L & _).
    exists ws. split; [exact E1|]. intros E.
    split; [unfold try_hashjoin_path; case_match; [reflexivity|]; fold hc'; rewrite E1; cbn [defined rbind];
      unfold accepts, req in E; rewrite E; reflexivity|].
    exists p, params. split; [exact E2|]. intros Ns Nt.
    destruct (initial_cost_hashjoin_ok So new_workspace hc' outer inner) as (ws' & E3 & S1 & S2 & S3 & _); [apply Hi..|].
    assert (ws' = ws) as -> by congruence. eapply precheck_final; try eassumption. rewrite S3. auto with nneg.
Qed.
End rejection.

(** ** The merge clauses and the extra data *)

Section search.
Context `{Libm, Settings, Catalog, Estimator, Equivalences, PathSupport, EClasses, JoinSupport}.
Context `{!CatalogLaws, !EstimatorLaws, !EquivalenceLaws, !LibmOrder, !JoinSupportLaws} (So : settings_ok).
Context (root : JoinPlanner) (joinrel : JoinRel) (outerrel innerrel : RelOptInfo).

(** The clauses select_mergejoin_clauses may choose. *)
Definition merge_candidates (jt : JoinType) (clauses : list RestrictInfo) : list RestrictInfo :=
  (mergejoin_clauses_loop outerrel innerrel (IS_OUTER_JOIN jt) clauses).1.

Lemma same_clause_eclasses r : same_clause r (update_mergeclause_eclasses r).
Proof. apply same_clause_join. Qed.

Lemma merge_clauses_selected isouter l : ec_forest ->
  let mc := (mergejoin_clauses_loop outerrel innerrel isouter l).1 in
  within mc l /\ Forall linked mc /\ Forall (fun r => EC_MUST_BE_REDUNDANT (inner_ec r) = false) mc
  /\ Forall (fun r => EC_MUST_BE_REDUNDANT (outer_ec r) = false) mc.
Proof.
  intros Ef. induction l as [|r l IH]; cbn [mergejoin_clauses_loop]; [split_and!; constructor|].
  destruct (mergejoin_clauses_loop outerrel innerrel isouter l) as [mc nm]. destruct IH as (W & L & M & Mo). cbn [fst] in *.
  destruct (isouter && _); [split_and!; [constructor|..]; assumption|].
  destruct (negb _ || _); [split_and!; [constructor|..]; assumption|].
  destruct (clause_sides_match_join r outerrel innerrel) as [r'|] eqn:E; [|split_and!; [constructor|..]; assumption].
  destruct (EC_MUST_BE_REDUNDANT (left_ec _) || _) eqn:Er; [split_and!; [constructor|..]; assumption|].
  apply orb_false_iff in Er as [El Er]. cbn [fst]. split_and!.
  - constructor; [|exact W]. etransitivity; [eapply clause_sides_same, E|apply same_clause_eclasses].
  - constructor; [apply update_linked, Ef|exact L].
  - constructor; [|exact M]. unfold inner_ec. destruct (outer_is_left _); assumption.
  - constructor; [|exact Mo]. unfold outer_ec. destruct (outer_is_left _); assumption.
Qed.

(** What the search is given: the relations and their sizes, and the clauses of the
    join, which order the inputs the same way on both sides. *)
Record search_input (jt : JoinType) (sj : SpecialJoinInfo) (clauses : list RestrictInfo) : Prop := {
  si_rows : row_count (rel_rows (jrel joinrel));
  si_target : qual_cost_ok (target_cost (reltarget (jrel joinrel)));
  si_width : 0 <= width (reltarget (jrel joinrel)) < 2 ^ 30;
  si_fkeys : Forall (fkey_ok (jp_root root)) (fkey_list (jp_root root));
  si_type : estimable (sj_jointype sj) = true;
  si_clauses : clauses_ok clauses;
  si_buckets : Forall buckets_ok clauses;
  si_outer : bms_wf (relids outerrel);
  si_inner : bms_wf (relids innerrel);
  si_join : represents (relids (jrel joinrel)) (fun x => member x (relids outerrel) \/ member x (relids innerrel));
  si_outer_rows : row_count (rel_rows outerrel);
  si_inner_rows : row_count (rel_rows innerrel);
  si_inner_target : 0 <= width (reltarget innerrel) < 2 ^ 30;
  si_product : finite (rel_rows outerrel * rel_rows innerrel)%D;
  si_query : NoDup (map pk_eclass (query_pathkeys root));
  si_forest : ec_forest;
  si_collation : Forall (fun r => ec_collation (outer_ec r) = ec_collation (inner_ec r)) (merge_candidates jt clauses);
  si_merge : forall mc, mc ⊆+ merge_candidates jt clauses -> quals_cover mc clauses;
}.

Lemma make_extra_ok jt sj clauses : search_input jt sj clauses ->
  search_ok root joinrel outerrel innerrel (make_extra root joinrel outerrel innerrel jt sj clauses).1.
Proof.
  intros []. destruct (merge_clauses_selected (IS_OUTER_JOIN jt) clauses si_forest0) as (W & L & M & Mo).
  pose proof (within_ok _ _ W si_clauses0) as Hm. unfold make_extra, select_mergejoin_clauses, merge_candidates in *.
  destruct (mergejoin_clauses_loop outerrel innerrel (IS_OUTER_JOIN jt) clauses) as [mc nm]. cbn [fst] in *.
  match goal with |- context [mkJoinPathExtraData _ ?f] => set (factors := f) end.
  assert (factors_ok factors) as Hf.
  { unfold factors. destruct (_ || prove_inner_unique _ _ _ _ _); [|split; (reflexivity || (apply cle_eval; reflexivity))].
    apply semi_anti_factors_spec; [exact selectivity_ok|apply si_inner_rows0..]. }
  destruct (enable_mergejoin || _); cbn [fst]; split; cbn; try assumption.
  - constructor.
  - constructor.
  - constructor.
  - constructor.
  - split; constructor.
  - intros mc' Sub. apply submseteq_nil_r in Sub as ->. apply (within_cover So); [constructor|assumption].
Qed.

(** ** The paths the search leaves *)

(** Join types that the code handles with merge joins only if every clause allows it. *)
Lemma merge_always_allowed jt sj clauses : jt <> JOIN_RIGHT -> jt <> JOIN_FULL ->
  (make_extra root joinrel outerrel innerrel jt sj clauses).2 = true.
Proof.
  intros N1 N2. unfold make_extra, select_mergejoin_clauses. destruct (mergejoin_clauses_loop _ _ _ _).
  destruct (enable_mergejoin || _); [|reflexivity]. destruct jt; done.
Qed.

Lemma join_search_ok jt sj clauses st : search_input jt sj clauses -> search_inv root joinrel outerrel innerrel st ->
  unique_cached jt st -> GetForeignJoinPaths = None -> set_join_pathlist_hook = None ->
  returns root joinrel outerrel innerrel st (add_paths_to_joinrel root joinrel outerrel innerrel jt sj clauses st)
    (fun st' => nestloop_feasible jt st -> alive (js_paths st')).
Proof.
  intros Si I Uc Hf Hh. pose proof (make_extra_ok jt sj clauses Si) as Se. unfold add_paths_to_joinrel.
  assert (nestloop_feasible jt st -> (make_extra root joinrel outerrel innerrel jt sj clauses).2 = true) as Al.
  { intros [_ F]. apply merge_always_allowed; intros ->; destruct F. }
  destruct (make_extra _ _ _ _ _ _ _) as [extra allowed]. cbn [fst snd] in *. rewrite Hf, Hh. unfold andthen, when, run_hook, skip.
  eapply returns_bind; [destruct allowed; [apply (sort_inner_and_outer_ok So _ _ _ _ _ Se); assumption|apply ok_skip, I]|].
  intros st1 I1 P1 _. apply (unique_cached_progress _ _ _ _ P1) in Uc.
  apply returns_then.
  - destruct allowed.
    + eapply returns_weaken; [apply (match_unsorted_outer_ok So _ _ _ _ _ Se); assumption|]. cbn beta.
      unfold nestloop_feasible. rewrite (pg_outer _ _ _ P1), (pg_inner _ _ _ P1). auto.
    + exists st1. split_and!; [reflexivity|exact I1|reflexivity|]. intros F. specialize (Al F). discriminate.
  - intros st2 I2 P2. apply (unique_cached_progress _ _ _ _ P2) in Uc. eapply returns_bind.
    + destruct (enable_hashjoin || _); [apply (hash_inner_and_outer_ok So _ _ _ _ _ Se); assumption|apply ok_skip, I2].
    + intros st3 I3 P3 _. cbn [rbind]. apply ok_skip, I3.
Qed.

(** C17: over inputs that set_cheapest has processed, with the cached unique paths a
    semijoin needs, add_paths_to_joinrel raises no error for any join type (no broken
    merge order, no null pointer, no arithmetic failure), leaves the inputs and the
    canonical path keys it found as they are, and keeps the caches it fills well-formed.
    All it does to the join relation is to offer it paths, and every path of the relation
    is then one that a join above can take as input: with ordered non-negative costs, a
    whole number of rows that does not exceed the relation's, a canonical sort order,
    parameters that lie outside the join, and parallel-safe only if the relation is; the
    partial paths need no parameters and are parallel-safe. *)
Theorem join_search_safe jt sj clauses st : search_input jt sj clauses -> search_inv root joinrel outerrel innerrel st ->
  unique_cached jt st -> GetForeignJoinPaths = None -> set_join_pathlist_hook = None ->
  exists st', add_paths_to_joinrel root joinrel outerrel innerrel jt sj clauses st = Ok st'
    /\ search_inv root joinrel outerrel innerrel st'
    /\ js_outer st' = js_outer st /\ js_inner st' = js_inner st /\ js_canon st `prefix_of` js_canon st'
    /\ rtc (offered joinrel (js_canon st')) (js_paths st) (js_paths st')
    /\ (forall p, p ∈ pathlist (js_paths st') -> join_path joinrel (js_canon st') p)
    /\ (forall p, p ∈ partial_pathlist (js_paths st') -> partial_join_path joinrel (js_canon st') p).
Proof.
  intros Si I Uc Hf Hh. destruct (join_search_ok jt sj clauses st Si I Uc Hf Hh) as (st' & E & I' & [P1 P2 P3 P4 _] & _).
  exists st'. pose proof (iv_paths _ _ _ _ _ I') as [F P]. rewrite Forall_forall in F, P. auto 10.
Qed.

(** C18: the search never leaves a feasible join without a path: if both inputs have an
    unparameterized path where a nested loop looks for it (for an outer side to be made
    unique, its cheapest path) and the join is not a right or full join, which nested
    loops cannot do, the join relation has an unparameterized path afterwards, and a
    relation that had one still has one. So set_cheapest on it cannot fail with 'could not
    devise a query plan', and the relation can be joined further. As for the search as a
    whole, there is no foreign-join callback and no hook. *)
Theorem join_search_finds_path jt sj clauses st : search_input jt sj clauses -> search_inv root joinrel outerrel innerrel st ->
  unique_cached jt st -> GetForeignJoinPaths = None -> set_join_pathlist_hook = None ->
  nestloop_feasible jt st \/ alive (js_paths st) ->
  exists st' rel, add_paths_to_joinrel root joinrel outerrel innerrel jt sj clauses st = Ok st'
    /\ alive (js_paths st') /\ set_cheapest (js_paths st') = Ok rel.
Proof.
  intros Si I Uc Hf Hh F. destruct (join_search_ok jt sj clauses st Si I Uc Hf Hh) as (st' & E & _ & P & A).
  assert (alive (js_paths st')) as N by (destruct F as [F|F]; [exact (A F)|exact (progress_alive _ _ _ _ _ _ I P F)]).
  exists st'. unfold set_cheapest. destruct (pathlist (js_paths st')) eqn:El; [|eauto].
  destruct N as (p & Hp & _). rewrite El in Hp. inversion Hp.
Qed.

End search.

(** ** Witnesses *)

#[local] Existing Instance default_settings.

#[export] Instance sample_join_support : JoinSupport := {|
  same_path := fun _ _ => false;
  innerrel_is_unique := fun _ _ _ _ => true;
  GetForeignJoinPaths := None;
  set_join_pathlist_hook := None |}.

#[export] Instance sample_join_support_laws : JoinSupportLaws.
Proof. split. discriminate. Qed.

(** Two tables joined on [a.x = b.x]; the path of the outer one is sorted by [a.x]. *)
Definition search_rel : RelOptInfo := {|
  reloptkind := RELOPT_JOINREL; relids := Some [6]; rel_rows := i2d 10000;
  consider_startup := true; consider_param_startup := false; consider_parallel := true;
  reltarget := sample_target; relid := 0; reltablespace := 0; rtekind := RTE_JOIN;
  pages := 0; tuples := dzero; allvisfrac := dzero; rel_parallel_workers := -1;
  baserestrictinfo := []; baserestrictcost := no_cost |}.
Definition search_joinrel : JoinRel := mkJoinRel search_rel None (mkRelMerge false None).
Definition search_root : JoinPlanner := mkJoinPlanner sample_root fk_root [] [] [].
Definition search_clauses : list RestrictInfo := [merge_clause 1 3 1].

Definition search_path (rel : RelOptInfo) (total : Cost) (keys : list PathKey) : Path :=
  {| pathtype := T_SeqScan; parent := rel; pathtarget := sample_target; param_info := None;
     parallel_aware := false; parallel_safe := true; parallel_workers := 0;
     rows := i2d 10000; startup_cost := i2d 1; total_cost := total;
     io_cost := dzero; cpu_cost := dzero; power_cost := i2d 40; pathkeys := keys; extra := XPath |}.
Definition search_outer : Path := search_path sample_rel (i2d 10) [mkPathKey 2 1 1976 1 false].
Definition search_inner : Path := search_path other_rel (i2d 20) [].
Definition only_path (p : Path) : RelPaths := mkRelPaths [p] [p] (Some p) (Some p) None [p].

Definition search_state : JoinState :=
  mkJoinState (mkRelPaths [] [] None None None []) (mkRelParams search_clauses []) (only_path search_outer) (only_path search_inner)
    (mkSemiInfo false false [] []) sample_keys ∅ ∅.

Lemma search_side rel total keys : input_ok (search_path rel total keys) -> rel_rows rel = i2d 10000 -> known sample_keys keys ->
  NoDup (map pk_eclass keys) -> side_path rel sample_keys (search_path rel total keys).
Proof.
  intros Hi Hr Hk Hn. split; try assumption.
  - exact sized_sample_rows.
  - rewrite Hr. reflexivity.
  - reflexivity.
  - split; [exact Logic.I|intros x M; destruct (no_members_none x M)|reflexivity|reflexivity].
  - cbn. lia.
Qed.

Lemma only_side rel p : side_path rel sample_keys p -> PATH_REQ_OUTER p = None -> parallel_safe p = true ->
  side_ok rel sample_keys (only_path p).
Proof.
  intros S R P. split; cbn; try (constructor; [auto|constructor]); [eauto|auto|exact Logic.I].
Qed.

Lemma search_path_input rel n keys : 1 <= n < 2 ^ 52 -> input_ok (search_path rel (i2d n) keys).
Proof.
  intros Hn. split; [|apply integral_i2d; lia|apply finite_i2d; lia|cbn; lia].
  split; cbn; try reflexivity; [apply cle_i2d; lia|apply nonneg_i2d; lia].
Qed.

Lemma search_clauses_ok : clauses_ok search_clauses.
Proof.
  split; (constructor; [|constructor]).
  - constructor; [right; split; reflexivity|]. cbn. repeat constructor.
  - repeat (discriminate || constructor).
Qed.

Lemma search_outer_side : side_path sample_rel sample_keys search_outer.
Proof.
  apply search_side; [apply search_path_input; lia|reflexivity| |apply (bool_decide_unpack _); vm_compute; exact Logic.I].
  repeat constructor.
Qed.

Lemma search_inner_side : side_path other_rel sample_keys search_inner.
Proof. apply search_side; [apply search_path_input; lia|reflexivity|constructor|constructor]. Qed.

Lemma search_state_ok : search_inv search_root search_joinrel sample_rel other_rel search_state.
Proof.
  split; cbn.
  - exact sample_keys_canon.
  - constructor.
  - split; [split; [split; constructor|constructor|exact search_clauses_ok]|constructor].
  - apply only_side; [exact search_outer_side|reflexivity..].
  - apply only_side; [exact search_inner_side|reflexivity..].
  - apply map_Forall_empty.
  - apply map_Forall_empty.
  - split; constructor.
Qed.

Lemma sample_forest : ec_forest.
Proof.
  exists (fun ec => if (ec =? 3)%Z then 1%nat else 0%nat). intros ec ec'. unfold eclass. cbn [eclasses sample_eclasses].
  destruct (Z.eqb_spec ec 3) as [->|N]; [vm_compute; intros [= <-]; split; repeat constructor|].
  intros E. exfalso. destruct (decide (ec = 1)) as [->|N1]; [vm_compute in E; discriminate|].
  destruct (decide (ec = 2)) as [->|N2]; [vm_compute in E; discriminate|].
  rewrite !lookup_insert_ne, lookup_singleton_ne in E by congruence. discriminate.
Qed.

Lemma search_candidates jt : merge_candidates sample_rel other_rel jt search_clauses = map update_mergeclause_eclasses search_clauses.
Proof. destruct jt; vm_compute; reflexivity. Qed.

Lemma search_input_ok jt : search_input search_root search_joinrel sample_rel other_rel jt inner_join search_clauses.
Proof.
  split; rewrite ?search_candidates; cbn [query_pathkeys jp_root search_root jrel search_joinrel].
  - exact sized_sample_rows.
  - split; reflexivity.
  - cbn. lia.
  - exact sample_fkeys_ok.
  - reflexivity.
  - exact search_clauses_ok.
  - constructor; [|constructor]. split; left; reflexivity.
  - apply single_wf. unfold word_ok. lia.
  - exact four_wf.
  - apply represents_lor. split; [apply single_wf; unfold word_ok; lia|reflexivity].
  - exact sized_sample_rows.
  - exact sized_sample_rows.
  - cbn. lia.
  - exact sample_product_finite.
  - constructor.
  - exact sample_forest.
  - repeat constructor.
  - intros mc Sub. apply (within_cover default_settings_ok); [|exact search_clauses_ok]. cbn [map search_clauses] in Sub.
    destruct mc as [|r [|r' mc]]; [constructor| |apply submseteq_length in Sub; cbn in Sub; lia].
    assert (r = update_mergeclause_eclasses (merge_clause 1 3 1)) as ->.
    { apply list_elem_of_singleton. eapply elem_of_submseteq; [|exact Sub]. left. }
    constructor; [apply same_clause_join|constructor].
Qed.

(** The search makes a join of each kind. *)
Lemma join_search_safe_witness : exists st',
  add_paths_to_joinrel search_root search_joinrel sample_rel other_rel JOIN_INNER inner_join search_clauses search_state = Ok st'
  /\ map pathtype (pathlist (js_paths st')) = [T_HashJoin; T_MergeJoin; T_NestLoop]
  /\ forall p, p ∈ pathlist (js_paths st') -> join_path search_joinrel (js_canon st') p.
Proof.
  destruct (join_search_safe (H6 := sample_join_support) default_settings_ok search_root search_joinrel sample_rel other_rel JOIN_INNER inner_join
    search_clauses search_state (search_input_ok _) search_state_ok Logic.I eq_refl eq_refl) as (st' & E & _ & _ & _ & _ & _ & M & _).
  exists st'. split_and!; [exact E| |].
  - assert (match add_paths_to_joinrel search_root search_joinrel sample_rel other_rel JOIN_INNER inner_join search_clauses
                    search_state with Ok st => map pathtype (pathlist (js_paths st)) | Error _ => [] end
            = [T_HashJoin; T_MergeJoin; T_NestLoop]) as T by (vm_compute; reflexivity).
    rewrite E in T. exact T.
  - exact M.
Defined.

Lemma join_search_finds_path_witness : exists st' rel,
  add_paths_to_joinrel search_root search_joinrel sample_rel other_rel JOIN_ANTI inner_join search_clauses search_state = Ok st'
  /\ alive (js_paths st') /\ set_cheapest (js_paths st') = Ok rel.
Proof.
  apply (join_search_finds_path (H6 := sample_join_support) default_settings_ok search_root search_joinrel sample_rel other_rel JOIN_ANTI inner_join
    search_clauses search_state (search_input_ok _) search_state_ok Logic.I eq_refl eq_refl).
  left. split; [exists search_outer; (split; [left|split; [reflexivity|discriminate]])|exists search_inner; split; [left|reflexivity]].
Defined.

(** A cheap path of the join keeps the nested loop and the hash join out. *)
Definition rival_path : Path := search_path search_rel (i2d 1) [mkPathKey 2 1 1976 1 false].
Definition rival_state : JoinState := set_paths search_state (only_path rival_path).
Definition search_extra : JoinExtra :=
  (make_extra search_root search_joinrel sample_rel other_rel JOIN_INNER inner_join search_clauses).1.

Lemma early_rejection_witness :
  try_nestloop_path search_root search_joinrel search_outer search_inner [] JOIN_INNER search_extra rival_state = Ok rival_state
  /\ try_hashjoin_path search_root search_joinrel search_outer search_inner
       (hashable_clauses sample_rel other_rel false search_clauses) JOIN_INNER search_extra rival_state = Ok rival_state.
Proof.
  pose proof (make_extra_ok (H6 := sample_join_support) default_settings_ok search_root search_joinrel sample_rel other_rel JOIN_INNER
    inner_join search_clauses (search_input_ok _)) as Se. fold search_extra in Se.
  assert (join_path search_joinrel sample_keys rival_path) as Jp.
  { split; [|reflexivity]. apply search_side; [apply search_path_input; lia|reflexivity|repeat constructor|].
    apply (bool_decide_unpack _). vm_compute. exact Logic.I. }
  assert (search_inv search_root search_joinrel sample_rel other_rel rival_state) as I.
  { destruct search_state_ok. split; try assumption. split; (constructor; [|constructor]); [exact Jp|split_and!; [exact Jp|reflexivity..]]. }
  destruct (early_rejection default_settings_ok search_root search_joinrel sample_rel other_rel search_extra rival_state
    search_outer search_inner (hashable_clauses sample_rel other_rel false search_clauses) JOIN_INNER [] Se I
    search_outer_side search_inner_side eq_refl) as [N Hh].
  - exact (hashable_ok _ _ _ _ _ Se false).
  - destruct (Hh eq_refl) as (ws & E & Hj). split; [apply N; vm_compute; reflexivity|]. apply Hj. revert E. vm_compute. intros [= <-]. reflexivity.
Defined.
