(* ===== verification/JoinLegal.v ===== *)
(** Which relations may be joined (optimizer/path/joinrels.c): the order constraints
    of outer joins, semijoins and LATERAL references; joininfo.c's and equivclass.c's
    tests for join clauses. *)
From stdpp Require Import gmap.
From S2P Require Import Prelude Double Bitmapset PlanTypes CostExpr CostScan CostJoin SizeEst ParamInfo CreatePath MergeKeys JoinPath.
Open Scope Z_scope.

(** ** Data *)

(** The members of a RelOptInfo that concern foreign tables; a routine is named by its
    address, 0 for NULL. *)
Record ForeignRel := mkForeignRel {
  serverid : Oid;
  userid : Oid;
  useridiscurrent : bool;
  fdwroutine : Z;
}.

(** A RelOptInfo of the join search: the members paths refer to, its paths and
    parameterizations, its LATERAL references, the attributes of a base relation
    (attr_needed has the indexes of attr_widths), and the foreign server. *)
Record RelNode := mkRelNode {
  rn_rel : RelOptInfo;
  rn_paths : RelPaths;
  rn_params : RelParams;
  rn_merge : RelMerge;
  rn_lateral_relids : Relids;
  rn_direct_lateral_relids : Relids;
  rn_lateral_referencers : Relids;
  rn_attrs : RelAttrs;
  attr_needed : list Relids;
  rn_foreign : ForeignRel;
}.

Abbreviation rn_relids rel := (relids (rn_rel rel)).

Definition set_rn_paths (rel : RelNode) (paths : RelPaths) : RelNode :=
  mkRelNode (rn_rel rel) paths (rn_params rel) (rn_merge rel) (rn_lateral_relids rel) (rn_direct_lateral_relids rel)
    (rn_lateral_referencers rel) (rn_attrs rel) (attr_needed rel) (rn_foreign rel).

(** An entry of join_info_list. *)
Record SpecialJoin := mkSpecialJoin {
  sj_info : SpecialJoinInfo;
  sj_semi : SemiInfo;
}.

(** ** Join clauses *)

Section clauses.
Context `{EClasses}.

(** root->eq_classes: the classes that were not merged into others. *)
Definition eq_classes : list EquivalenceClass :=
  List.filter (fun ec => bool_decide (ec_merged ec = None)) (map_to_list eclasses).*2.

(** equivclass.c *)
Definition have_relevant_eclass_joinclause (rel1 rel2 : RelNode) : bool :=
  existsb (fun ec => negb (length (ec_members ec) <=? 1)%nat
                     && (bms_overlap (rn_relids rel1) (ec_relids ec) && bms_overlap (rn_relids rel2) (ec_relids ec)))
    eq_classes.

Definition has_relevant_eclass_joinclause (relids1 : Relids) : bool :=
  existsb (fun ec => negb (length (ec_members ec) <=? 1)%nat
                     && (bms_overlap relids1 (ec_relids ec) && negb (bms_is_subset (ec_relids ec) relids1)))
    eq_classes.

(** joininfo.c *)
Definition have_relevant_joinclause (rel1 rel2 : RelNode) : bool :=
  let (clauses, other_relids) :=
    if (length (joininfo (rn_params rel1)) <=? length (joininfo (rn_params rel2)))%nat
    then (joininfo (rn_params rel1), rn_relids rel2)
    else (joininfo (rn_params rel2), rn_relids rel1) in
  if existsb (fun rinfo => bms_overlap other_relids (required_relids rinfo)) clauses then true
  else if has_eclass_joins (rn_merge rel1) && has_eclass_joins (rn_merge rel2)
  then have_relevant_eclass_joinclause rel1 rel2
  else false.

End clauses.

(** ** Join order restrictions *)

(** [sj] is done within the relation. *)
Definition sj_within (sj : SpecialJoinInfo) (relids : Relids) : bool :=
  bms_is_subset (min_lefthand sj) relids && bms_is_subset (min_righthand sj) relids.

(** One side contains the left hand of [sj], the other its right hand. *)
Definition sj_sides (sj : SpecialJoinInfo) (left right : Relids) : bool :=
  bms_is_subset (min_lefthand sj) left && bms_is_subset (min_righthand sj) right.

Definition has_join_restriction (placeholder_list : list Relids) (infos : list SpecialJoin) (rel : RelNode) : bool :=
  bool_decide (rn_lateral_relids rel <> None) || bool_decide (rn_lateral_referencers rel <> None)
  || existsb (fun ph_eval_at => bms_is_subset (rn_relids rel) ph_eval_at && negb (bms_equal (rn_relids rel) ph_eval_at))
       placeholder_list
  || existsb (fun sj => negb (bool_decide (sj_jointype (sj_info sj) = JOIN_FULL)) && negb (sj_within (sj_info sj) (rn_relids rel))
                        && (bms_overlap (min_lefthand (sj_info sj)) (rn_relids rel)
                            || bms_overlap (min_righthand (sj_info sj)) (rn_relids rel))) infos.

(** relnode.c: NULL if empty. *)
Definition min_join_parameterization (joinrelids : Relids) (outer_rel inner_rel : RelNode) : Relids :=
  let result := bms_union (rn_lateral_relids outer_rel) (rn_lateral_relids inner_rel) in
  let result := bms_del_members result joinrelids in
  if bms_is_empty result then None else result.

(** ** join_is_legal *)

(** The special join does not constrain this join: it is outside it, contains it on
    its right hand, is done already, or is a semijoin whose right hand was made unique
    and joined before. *)
Definition sj_irrelevant (joinrelids relids1 relids2 : Relids) (sj : SpecialJoinInfo) : bool :=
  negb (bms_overlap (min_righthand sj) joinrelids)
  || bms_is_subset joinrelids (min_righthand sj)
  || sj_within sj relids1 || sj_within sj relids2
  || (bool_decide (sj_jointype sj = JOIN_SEMI)
      && ((bms_is_subset (syn_righthand sj) relids1 && negb (bms_equal (syn_righthand sj) relids1))
          || (bms_is_subset (syn_righthand sj) relids2 && negb (bms_equal (syn_righthand sj) relids2)))).

(** The local variables of join_is_legal, and the relations, whose cached unique paths
    it may set; match_sjinfo is a position of join_info_list. *)
Record LegalState := mkLegalState {
  lg_rel1 : RelNode;
  lg_rel2 : RelNode;
  match_sjinfo : option nat;
  reversed : bool;
  unique_ified : bool;
  must_be_leftjoin : bool;
}.

(** Match the special join at position [i], unless one was matched already. *)
Definition match_sj (i : nat) (rev uniq : bool) (st : LegalState) : bool * LegalState :=
  match match_sjinfo st with
  | Some _ => (false, st)
  | None => (true, mkLegalState (lg_rel1 st) (lg_rel2 st) (Some i) rev (if uniq then true else unique_ified st)
                     (must_be_leftjoin st))
  end.

Definition require_leftjoin (st : LegalState) : LegalState :=
  mkLegalState (lg_rel1 st) (lg_rel2 st) (match_sjinfo st) (reversed st) (unique_ified st) true.

Definition set_lg_rels (st : LegalState) (rel1 rel2 : RelNode) : LegalState :=
  mkLegalState rel1 rel2 (match_sjinfo st) (reversed st) (unique_ified st) (must_be_leftjoin st).

Section legal.
Context `{Libm, Settings, PathSupport}.

(** create_unique_path on the cheapest path of the relation; is the result not NULL? *)
Definition make_unique (rel : RelNode) (sj : SpecialJoin) : result (bool * RelNode * SpecialJoin) :=
  let! subpath := deref (cheapest_total_path (rn_paths rel)) in
  let '(p, cached, semi) := create_unique_path (rn_rel rel) (cheapest_unique_path (rn_paths rel)) subpath (sj_semi sj) in
  Ok (match p with Some _ => true | None => false end, set_rn_paths rel (set_unique (rn_paths rel) cached),
      mkSpecialJoin (sj_info sj) semi).

(** Can the relation be the unique-ified right hand of the semijoin? *)
Definition unique_rhs (rel : RelNode) (sj : SpecialJoin) : result (bool * RelNode * SpecialJoin) :=
  if bool_decide (sj_jointype (sj_info sj) = JOIN_SEMI) && bms_equal (syn_righthand (sj_info sj)) (rn_relids rel)
  then make_unique rel sj
  else Ok (false, rel, sj).

(** The join overlaps the right hand but does not do the special join: both inputs may
    have been joined to it before, or the join must be a left join. *)
Definition legal_rest (joinrelids : Relids) (info : SpecialJoinInfo) (st : LegalState) : bool * LegalState :=
  if bms_overlap (rn_relids (lg_rel1 st)) (min_righthand info) && bms_overlap (rn_relids (lg_rel2 st)) (min_righthand info)
  then (true, st)
  else if negb (bool_decide (sj_jointype info = JOIN_LEFT)) || bms_overlap joinrelids (min_lefthand info) then (false, st)
  else (true, require_leftjoin st).

(** One round of the loop; [false] for an invalid join path. *)
Definition legal_step (joinrelids : Relids) (i : nat) (sj : SpecialJoin) (st : LegalState)
    : result (bool * LegalState * SpecialJoin) :=
  let info := sj_info sj in
  let relids1 := rn_relids (lg_rel1 st) in
  let relids2 := rn_relids (lg_rel2 st) in
  if sj_irrelevant joinrelids relids1 relids2 info then Ok (true, st, sj)
  else if sj_sides info relids1 relids2 then Ok (match_sj i false false st, sj)
  else if sj_sides info relids2 relids1 then Ok (match_sj i true false st, sj)
  else
    let! (uniq, rel2, sj) := unique_rhs (lg_rel2 st) sj in
    let st := set_lg_rels st (lg_rel1 st) rel2 in
    if uniq then Ok (match_sj i false true st, sj)
    else
      let! (uniq, rel1, sj) := unique_rhs (lg_rel1 st) sj in
      let st := set_lg_rels st rel1 (lg_rel2 st) in
      if uniq then Ok (match_sj i true true st, sj) else Ok (legal_rest joinrelids info st, sj).

Fixpoint legal_loop (joinrelids : Relids) (i : nat) (infos : list SpecialJoin) (st : LegalState)
    : result (bool * LegalState * list SpecialJoin) :=
  match infos with
  | [] => Ok (true, st, [])
  | sj :: infos =>
      let! (valid, st, sj) := legal_step joinrelids i sj st in
      if valid then
        let! (valid, st, infos) := legal_loop joinrelids (S i) infos st in Ok (valid, st, sj :: infos)
      else Ok (false, st, sj :: infos)
  end.

End legal.

(** The special join the loop matched. *)
Definition matched (infos : list SpecialJoin) (st : LegalState) : option SpecialJoinInfo :=
  i ← match_sjinfo st; sj ← infos !! i; Some (sj_info sj).

(** A join that goes into the right hand of a left join is a strict left join. *)
Definition leftjoin_ok (infos : list SpecialJoin) (st : LegalState) : bool :=
  if must_be_leftjoin st then
    match matched infos st with
    | Some sj => bool_decide (sj_jointype sj = JOIN_LEFT) && lhs_strict sj
    | None => false
    end
  else true.

(** A nestloop with [outer] on the left can supply the LATERAL references of [inner];
    [swapped] if the special join wants [inner] on the left. *)
Definition lateral_nestloop_ok (placeholder_list : list Relids) (sj : option SpecialJoinInfo) (swapped uniq : bool)
    (outer inner : RelNode) : bool :=
  negb (match sj with
        | Some sj => swapped || uniq || bool_decide (sj_jointype sj = JOIN_FULL)
        | None => false
        end)
  && bms_overlap (rn_relids outer) (rn_direct_lateral_relids inner)
  && negb (have_dangerous_phv placeholder_list (rn_relids outer) (rn_lateral_relids inner)).

(** One pass of the do-while loop: relations that end up on the inside of an outer join
    with the ones found so far; [true] if there are more. *)
Fixpoint rhs_pass (infos : list SpecialJoin) (join_plus_rhs : Relids) (more : bool) : Relids * bool :=
  match infos with
  | [] => (join_plus_rhs, more)
  | sj :: infos =>
      let sjinfo := sj_info sj in
      let (join_plus_rhs, more) :=
        if bms_overlap (min_lefthand sjinfo) join_plus_rhs && negb (bms_is_subset (min_righthand sjinfo) join_plus_rhs)
        then (bms_add_members join_plus_rhs (min_righthand sjinfo), true) else (join_plus_rhs, more) in
      let (join_plus_rhs, more) :=
        if bool_decide (sj_jointype sjinfo = JOIN_FULL) && bms_overlap (min_righthand sjinfo) join_plus_rhs
           && negb (bms_is_subset (min_lefthand sjinfo) join_plus_rhs)
        then (bms_add_members join_plus_rhs (min_lefthand sjinfo), true) else (join_plus_rhs, more) in
      rhs_pass infos join_plus_rhs more
  end.

Fixpoint rhs_loop (fuel : nat) (infos : list SpecialJoin) (join_plus_rhs : Relids) : Relids :=
  match fuel with
  | O => join_plus_rhs
  | S fuel =>
      let (join_plus_rhs, more) := rhs_pass infos join_plus_rhs false in
      if more then rhs_loop fuel infos join_plus_rhs else join_plus_rhs
  end.

(** Every pass but the last takes up a side of a special join. *)
Definition join_plus_rhs (infos : list SpecialJoin) (joinrelids : Relids) : Relids :=
  rhs_loop (S (2 * length infos)) infos (bms_copy joinrelids).

(** The constraints of LATERAL references. *)
Definition lateral_ok (placeholder_list : list Relids) (infos : list SpecialJoin) (joinrelids : Relids) (st : LegalState) : bool :=
  let rel1 := lg_rel1 st in
  let rel2 := lg_rel2 st in
  let lateral_fwd := bms_overlap (rn_relids rel1) (rn_lateral_relids rel2) in
  let lateral_rev := bms_overlap (rn_relids rel2) (rn_lateral_relids rel1) in
  let sj := matched infos st in
  if lateral_fwd && lateral_rev then false
  else if lateral_fwd && negb (lateral_nestloop_ok placeholder_list sj (reversed st) (unique_ified st) rel1 rel2) then false
  else if lateral_rev && negb (lateral_nestloop_ok placeholder_list sj (negb (reversed st)) (unique_ified st) rel2 rel1) then false
  else
    match min_join_parameterization joinrelids rel1 rel2 with
    | Some _ as join_lateral_rels => negb (bms_overlap (join_plus_rhs infos joinrelids) join_lateral_rels)
    | None => true
    end.

(** [None] for an illegal join, else the special join (NULL for a plain inner join) and
    whether the relations have to be swapped; with the relations and join_info_list, in
    which unique paths were tried. *)
Definition join_is_legal `{Libm, Settings, PathSupport} (hasLateralRTEs : bool) (placeholder_list : list Relids)
    (infos : list SpecialJoin) (rel1 rel2 : RelNode) (joinrelids : Relids)
    : result (option (option nat * bool) * RelNode * RelNode * list SpecialJoin) :=
  let! (valid, st, infos) := legal_loop joinrelids 0 infos (mkLegalState rel1 rel2 None false false false) in
  let legal := valid && leftjoin_ok infos st && (negb hasLateralRTEs || lateral_ok placeholder_list infos joinrelids st) in
  Ok (if legal then Some (match_sjinfo st, reversed st) else None, lg_rel1 st, lg_rel2 st, infos).
