(* ===== verification/JoinLegalSpec.v ===== *)
(** What join_is_legal guarantees: the closure it computes for LATERAL references is the
    least one, its verdict does not depend on the order of its arguments, and a legal
    join breaks no special join. *)
From stdpp Require Import gmap.
From S2P Require Import Prelude Float64 Double DoubleOrder Bitmapset BitmapsetSpec PlanTypes Samples CostExpr CostScan CostJoin CostJoinSpec SizeEst SizeEstSpec ParamInfo CreatePath CreatePathSpec UpperPathSpec MergeKeys MergeKeysSpec JoinPath JoinSearchSpec JoinLegal.
Open Scope Z_scope.

(** The sets of a special join are well-formed. *)
Record sj_wf (sj : SpecialJoinInfo) : Prop := {
  sw_min_left : bms_wf (min_lefthand sj);
  sw_min_right : bms_wf (min_righthand sj);
  sw_syn_right : bms_wf (syn_righthand sj);
}.

Abbreviation infos_wf infos := (Forall (fun sj => sj_wf (sj_info sj)) infos).

#[export] Instance member_dec x a : Decision (member x a).
Proof. unfold member. apply _. Defined.

(** ** The closure over outer joins *)

(** Where the first set is touched the second one follows. *)
Abbreviation rule := (Relids * Relids)%type (only parsing).

Definition sj_rules (sj : SpecialJoinInfo) : list rule :=
  (min_lefthand sj, min_righthand sj)
  :: if bool_decide (sj_jointype sj = JOIN_FULL) then [(min_righthand sj, min_lefthand sj)] else [].

Definition rules (infos : list SpecialJoin) : list rule := infos ≫= fun sj => sj_rules (sj_info sj).

Definition absorb (acc : Relids * bool) (r : rule) : Relids * bool :=
  if bms_overlap r.1 acc.1 && negb (bms_is_subset r.2 acc.1) then (bms_add_members acc.1 r.2, true) else acc.

Lemma rhs_pass_absorb infos : forall s more, rhs_pass infos s more = foldl absorb (s, more) (rules infos).
Proof.
  induction infos as [|sj infos IH]; intros s more; [reflexivity|].
  cbn [rhs_pass]. change (rules (sj :: infos)) with (sj_rules (sj_info sj) ++ rules infos). rewrite foldl_app.
  unfold sj_rules. cbn [foldl]. unfold absorb at 3. cbn [fst snd].
  destruct (bms_overlap _ s && negb _); case_bool_decide; cbn [foldl andb]; unfold absorb; cbn [fst snd]; rewrite ?IH; try reflexivity.
  - destruct (bms_overlap _ _ && negb _); rewrite IH; reflexivity.
  - destruct (bms_overlap _ _ && negb _); rewrite IH; reflexivity.
Qed.

Lemma rules_length infos : (length (rules infos) <= 2 * length infos)%nat.
Proof.
  induction infos as [|sj infos IH]; [reflexivity|]. change (rules (sj :: infos)) with (sj_rules (sj_info sj) ++ rules infos).
  rewrite length_app. unfold sj_rules. case_bool_decide; cbn; lia.
Qed.

Lemma rules_wf infos : infos_wf infos -> Forall (fun r => bms_wf r.1 /\ bms_wf r.2) (rules infos).
Proof.
  induction 1 as [|sj infos [L R _] _ IH]; [constructor|]. change (rules (sj :: infos)) with (sj_rules (sj_info sj) ++ rules infos).
  apply Forall_app. split; [|exact IH]. unfold sj_rules. case_bool_decide; repeat constructor; assumption.
Qed.

(** The set follows every rule. *)
Definition closed (rs : list rule) (S : Z -> Prop) : Prop :=
  Forall (fun r => (exists x, member x r.1 /\ S x) -> forall y, member y r.2 -> S y) rs.

Abbreviation rules_ok rs := (Forall (fun r : rule => bms_wf r.1 /\ bms_wf r.2) rs).

(** How many rules are not used up. *)
Definition pending_rules (rs : list rule) (s : Relids) : nat := length (List.filter (fun r => negb (bms_is_subset r.2 s)) rs).

Lemma add_members_members s t : bms_wf s -> bms_wf t ->
  bms_wf (bms_add_members s t) /\ forall x, member x (bms_add_members s t) <-> member x s \/ member x t.
Proof. intros Hs Ht. exact (represents_lor _ _ _ (bms_add_members_spec s t Hs Ht)). Qed.

Lemma pending_mono rs s t : rules_ok rs -> bms_wf s -> bms_wf t -> subset s t -> (pending_rules rs t <= pending_rules rs s)%nat.
Proof.
  intros Hrs Hs Ht L. unfold pending_rules. induction Hrs as [|r l [_ W] _ IH]; cbn [List.filter]; [reflexivity|].
  destruct (bms_is_subset r.2 s) eqn:Es; cbn [negb].
  - apply bms_is_subset_spec in Es; [|assumption..]. assert (bms_is_subset r.2 t = true) as ->; [|exact IH].
    apply bms_is_subset_spec; [assumption..|]. intros x Hx. apply L, Es, Hx.
  - destruct (bms_is_subset r.2 t); cbn [negb length]; lia.
Qed.

Lemma pending_strict rs s t r : rules_ok rs -> bms_wf s -> bms_wf t -> subset s t -> r ∈ rs ->
  bms_is_subset r.2 s = false -> bms_is_subset r.2 t = true -> (pending_rules rs t < pending_rules rs s)%nat.
Proof.
  intros Hrs Hs Ht L Hr Es Et. apply list_elem_of_split in Hr as (l1 & l2 & ->). apply Forall_app in Hrs as [H1 H2].
  apply Forall_cons in H2 as [_ H2]. pose proof (pending_mono l1 s t H1 Hs Ht L). pose proof (pending_mono l2 s t H2 Hs Ht L).
  unfold pending_rules in *. rewrite !List.filter_app, !length_app. cbn [List.filter]. rewrite Es, Et. cbn [negb length]. lia.
Qed.

(** One pass over some of the rules: the set grows no further than any closed set, and
    if it did not grow the rules hold of it. *)
Lemma absorb_pass rs l : forall s more, rules_ok rs -> bms_wf s -> l ⊆ rs ->
  let (s', more') := foldl absorb (s, more) l in
  bms_wf s' /\ subset s s'
  /\ (forall S, closed rs S -> (forall x, member x s -> S x) -> forall x, member x s' -> S x)
  /\ (more = true -> more' = true)
  /\ (more' = false -> s' = s /\ closed l (fun x => member x s))
  /\ (more = false -> more' = true -> (pending_rules rs s' < pending_rules rs s)%nat).
Proof.
  induction l as [|r l IH]; intros s more Hrs Hs Sub; cbn [foldl].
  { split_and!; [exact Hs|intros x Hx; exact Hx|auto|auto|intros _; split; [reflexivity|constructor]|congruence]. }
  assert (r ∈ rs) as Hr by (apply Sub; left). assert (l ⊆ rs) as Sub' by (intros x Hx; apply Sub; right; exact Hx).
  assert (bms_wf r.1 /\ bms_wf r.2) as [W1 W2] by (rewrite Forall_forall in Hrs; exact (Hrs r Hr)).
  unfold absorb at 2. cbn [fst snd]. destruct (bms_overlap r.1 s && negb (bms_is_subset r.2 s)) eqn:E.
  - apply andb_true_iff in E as [Eo Es]. apply negb_true_iff in Es. destruct (add_members_members s r.2 Hs W2) as [Wa Ma].
    specialize (IH (bms_add_members s r.2) true Hrs Wa Sub'). destruct (foldl absorb _ l) as [s' more'].
    destruct IH as (W & G & Le & Mo & _ & _). assert (subset s (bms_add_members s r.2)) as G0 by (intros x Hx; apply Ma; auto).
    split_and!; auto.
    + intros x Hx. apply G, G0, Hx.
    + intros S Cl HS. apply Le; [exact Cl|]. intros x Hx. apply Ma in Hx as [Hx|Hx]; [auto|].
      unfold closed in Cl. rewrite Forall_forall in Cl. apply (Cl r Hr); [|exact Hx].
      apply bms_overlap_spec in Eo as (y & Y1 & Y2); [|assumption..]. eauto.
    + rewrite Mo by reflexivity. discriminate.
    + intros _ _. apply (pending_strict rs s s' r); try assumption.
      * intros x Hx. apply G, G0, Hx.
      * apply bms_is_subset_spec; [assumption..|]. intros x Hx. apply G, Ma. auto.
  - specialize (IH s more Hrs Hs Sub'). destruct (foldl absorb (s, more) l) as [s' more'].
    destruct IH as (W & G & Le & Mo & Cl & Pe). split_and!; try assumption.
    intros Em. destruct (Cl Em) as [-> C]. split; [reflexivity|]. constructor; [|exact C]. intros (x & X1 & X2) y Hy.
    assert (bms_overlap r.1 s = true) as Eo by (apply bms_overlap_spec; eauto). rewrite Eo in E. cbn [andb] in E.
    apply negb_false_iff, bms_is_subset_spec in E; [|assumption..]. apply E, Hy.
Qed.

Lemma rhs_loop_spec infos : infos_wf infos -> forall fuel s, bms_wf s -> (pending_rules (rules infos) s < fuel)%nat ->
  let s' := rhs_loop fuel infos s in
  bms_wf s' /\ subset s s' /\ closed (rules infos) (fun x => member x s')
  /\ forall S, closed (rules infos) S -> (forall x, member x s -> S x) -> forall x, member x s' -> S x.
Proof.
  intros Hi. pose proof (rules_wf infos Hi) as Hr. induction fuel as [|fuel IH]; intros s Hs L; [lia|].
  cbn [rhs_loop]. rewrite rhs_pass_absorb. pose proof (absorb_pass (rules infos) (rules infos) s false Hr Hs ltac:(reflexivity)) as A.
  destruct (foldl absorb (s, false) (rules infos)) as [s1 more]. destruct A as (W & G & Le & _ & Cl & Pe). destruct more.
  - specialize (Pe eq_refl eq_refl). destruct (IH s1 W ltac:(lia)) as (W' & G' & C' & L'). cbv zeta. split_and!; [exact W'| |exact C'|].
    + intros x Hx. apply G', G, Hx.
    + intros S CS HS. apply L'; [exact CS|]. apply Le; assumption.
  - destruct (Cl eq_refl) as [-> C]. cbv zeta. split_and!; [exact Hs|intros x Hx; exact Hx|exact C|auto].
Qed.

Lemma join_plus_rhs_ok infos joinrelids : infos_wf infos -> bms_wf joinrelids ->
  let s := join_plus_rhs infos joinrelids in
  bms_wf s /\ subset joinrelids s /\ closed (rules infos) (fun x => member x s)
  /\ forall S, closed (rules infos) S -> (forall x, member x joinrelids -> S x) -> forall x, member x s -> S x.
Proof.
  intros Hi Hj. unfold join_plus_rhs. assert (bms_copy joinrelids = joinrelids) as -> by (destruct joinrelids; reflexivity).
  apply rhs_loop_spec; [exact Hi|exact Hj|]. pose proof (rules_length infos). unfold pending_rules.
  pose proof (List.filter_length_le (fun r => negb (bms_is_subset r.2 joinrelids)) (rules infos)). lia.
Qed.

(** C21: the do-while loop of join_is_legal ends, and finds exactly the relations that are
    inside an outer join with the proposed join, directly or through others: the least
    set that contains the join and, whenever it meets the left hand of a special join
    (or either hand of a full join), contains the other hand. *)
Theorem join_plus_rhs_least infos joinrelids : infos_wf infos -> bms_wf joinrelids ->
  let s := join_plus_rhs infos joinrelids in
  bms_wf s /\ subset joinrelids s /\ closed (rules infos) (fun x => member x s)
  /\ forall S, closed (rules infos) S -> (forall x, member x joinrelids -> S x) -> forall x, member x s -> S x.
Proof. apply join_plus_rhs_ok. Qed.

(** ** Soundness *)

(** The relation is the same but for its cached unique path, which is kept if set. *)
Record same_rel (rel rel' : RelNode) : Prop := {
  sr_paths : exists u, rel' = set_rn_paths rel (set_unique (rn_paths rel) u);
  sr_unique : forall p, cheapest_unique_path (rn_paths rel) = Some p -> cheapest_unique_path (rn_paths rel') = Some p;
}.

#[export] Instance same_rel_preorder : PreOrder same_rel.
Proof.
  split.
  - intros rel. split; [|auto]. exists (cheapest_unique_path (rn_paths rel)). destruct rel as [? [] ? ? ? ? ? ? ? ?]. reflexivity.
  - intros a b c [[u ->] U1] [[u' ->] U2]. split; [|auto]. exists u'. destruct a as [? [] ? ? ? ? ? ? ? ?]. reflexivity.
Qed.

Lemma same_rel_relids rel rel' : same_rel rel rel' -> rn_relids rel' = rn_relids rel.
Proof. intros [[u ->] _]. reflexivity. Qed.

Definition unique_is_cached (rel : RelNode) : Prop := cheapest_unique_path (rn_paths rel) <> None.

Lemma same_rel_cached rel rel' : same_rel rel rel' -> unique_is_cached rel -> unique_is_cached rel'.
Proof. intros [_ U] C. unfold unique_is_cached in *. destruct (cheapest_unique_path (rn_paths rel)); [|done]. rewrite (U _ eq_refl). done. Qed.

Section sound.
Context `{Libm, Settings, PathSupport}.

Lemma create_unique_path_cache rel cached subpath semi p cached' semi' :
  create_unique_path rel cached subpath semi = (p, cached', semi') -> cached' = p /\ forall q, cached = Some q -> cached' = Some q.
Proof.
  unfold create_unique_path. destruct cached as [c|]; [intros [= <- <- <-]; auto|].
  intros E. split; [|discriminate]. repeat case_match; simplify_eq; reflexivity.
Qed.

Lemma make_unique_ok rel sj b rel' sj' : make_unique rel sj = Ok (b, rel', sj') ->
  sj_info sj' = sj_info sj /\ same_rel rel rel' /\ (b = true -> unique_is_cached rel').
Proof.
  unfold make_unique. intros E. apply rbind_ok in E as (p & _ & E).
  destruct (create_unique_path _ _ _ _) as [[u cached] semi] eqn:Eu. injection E as <- <- <-.
  apply create_unique_path_cache in Eu as [-> Hc]. split_and!; [reflexivity| |].
  - split; [eauto|]. intros q Hq. cbn. auto.
  - destruct u; [|discriminate]. intros _. unfold unique_is_cached. cbn. discriminate.
Qed.

Lemma unique_rhs_ok rel sj b rel' sj' : unique_rhs rel sj = Ok (b, rel', sj') ->
  sj_info sj' = sj_info sj /\ same_rel rel rel'
  /\ (b = true -> sj_jointype (sj_info sj) = JOIN_SEMI /\ bms_equal (syn_righthand (sj_info sj)) (rn_relids rel) = true
                  /\ unique_is_cached rel').
Proof.
  unfold unique_rhs. destruct (bool_decide _ && _) eqn:E.
  - intros Eu. apply make_unique_ok in Eu as (E1 & E2 & E3). apply andb_true_iff in E as [Ej Eb].
    apply bool_decide_eq_true in Ej. auto 8.
  - intros [= <- <- <-]. split_and!; [reflexivity|reflexivity|discriminate].
Qed.

(** The tests that let a special join pass: the join has nothing to do with it, or its
    right hand was broken up before. *)
Definition spared (joinrelids relids1 relids2 : Relids) (sj : SpecialJoinInfo) : Prop :=
  sj_irrelevant joinrelids relids1 relids2 sj = true
  \/ bms_overlap relids1 (min_righthand sj) = true /\ bms_overlap relids2 (min_righthand sj) = true.

(** The join goes into the right hand of the left join [sj]. *)
Definition goes_inside (joinrelids : Relids) (sj : SpecialJoinInfo) : Prop :=
  sj_jointype sj = JOIN_LEFT /\ bms_overlap joinrelids (min_lefthand sj) = false.

(** The join does the special join: either directly, or it is a join with the right hand of
    a semijoin, for which a unique path was found. *)
Definition performs (sj : SpecialJoinInfo) (uniq : bool) (left right : RelNode) : Prop :=
  if uniq then sj_jointype sj = JOIN_SEMI /\ bms_equal (syn_righthand sj) (rn_relids right) = true /\ unique_is_cached right
  else sj_sides sj (rn_relids left) (rn_relids right) = true.

Definition performed (sj : SpecialJoinInfo) (st : LegalState) : Prop :=
  if reversed st then performs sj (unique_ified st) (lg_rel2 st) (lg_rel1 st)
  else performs sj (unique_ified st) (lg_rel1 st) (lg_rel2 st).

(** How the variables may change: a match stays, as does the need for a left join. *)
Record legal_steps (st st' : LegalState) : Prop := {
  lt_rel1 : same_rel (lg_rel1 st) (lg_rel1 st');
  lt_rel2 : same_rel (lg_rel2 st) (lg_rel2 st');
  lt_match : match_sjinfo st <> None ->
             match_sjinfo st' = match_sjinfo st /\ reversed st' = reversed st /\ unique_ified st' = unique_ified st;
  lt_must : must_be_leftjoin st = true -> must_be_leftjoin st' = true;
}.

#[export] Instance legal_steps_preorder : PreOrder legal_steps.
Proof.
  split.
  - intros st. split; auto; reflexivity.
  - intros a b c [A1 A2 A3 A4] [B1 B2 B3 B4]. split; [etransitivity; eassumption..| |auto].
    intros N. destruct (A3 N) as (E1 & E2 & E3). rewrite <- E1 in N. destruct (B3 N) as (F1 & F2 & F3). split_and!; congruence.
Qed.

Lemma performs_grow sj uniq l r l' r' : same_rel l l' -> same_rel r r' -> performs sj uniq l r -> performs sj uniq l' r'.
Proof.
  intros Sl Sr. unfold performs. rewrite (same_rel_relids _ _ Sl), (same_rel_relids _ _ Sr). destruct uniq; [|auto].
  intros (? & ? & ?). eauto using same_rel_cached.
Qed.

Lemma performed_grow sj st st' : legal_steps st st' -> match_sjinfo st <> None -> performed sj st -> performed sj st'.
Proof.
  intros [R1 R2 M _] N. destruct (M N) as (_ & Er & Eu). unfold performed. rewrite Er, Eu.
  destruct (reversed st); apply performs_grow; assumption.
Qed.

(** What one round says of its special join. *)
Definition handled (joinrelids relids1 relids2 : Relids) (i : nat) (sj : SpecialJoinInfo) (st' : LegalState) : Prop :=
  spared joinrelids relids1 relids2 sj
  \/ (match_sjinfo st' = Some i /\ performed sj st')
  \/ (goes_inside joinrelids sj /\ must_be_leftjoin st' = true).

Lemma handled_grow j r1 r2 i sj st st' : legal_steps st st' -> handled j r1 r2 i sj st -> handled j r1 r2 i sj st'.
Proof.
  intros L [Hu|[[Em Hi]|[Ha Hm]]]; [left; exact Hu| |right; right; split; [exact Ha|apply L, Hm]].
  right. left. assert (match_sjinfo st <> None) as N by congruence. destruct (lt_match _ _ L N) as (E & _).
  split; [congruence|eapply performed_grow; eassumption].
Qed.

(** A match is the one of this round, or an earlier one. *)
Definition match_from (i : nat) (sj : SpecialJoinInfo) (st st' : LegalState) : Prop :=
  match_sjinfo st' = match_sjinfo st \/ match_sjinfo st = None /\ match_sjinfo st' = Some i /\ performed sj st'.

Lemma match_sj_ok i rev uniq st st' : match_sj i rev uniq st = (true, st') -> unique_ified st = false ->
  legal_steps st st' /\ match_sjinfo st = None /\ match_sjinfo st' = Some i /\ reversed st' = rev /\ unique_ified st' = uniq
  /\ lg_rel1 st' = lg_rel1 st /\ lg_rel2 st' = lg_rel2 st.
Proof.
  unfold match_sj. intros E U. destruct (match_sjinfo st) eqn:Em; [discriminate|]. injection E as <-. cbn.
  rewrite U. split_and!; try reflexivity; [|destruct uniq; reflexivity]. split; cbn; [reflexivity..|congruence|auto].
Qed.

(** No match, no unique-ified side and nothing to swap. *)
Definition flags_ok (st : LegalState) : Prop := match_sjinfo st = None -> unique_ified st = false /\ reversed st = false.

Lemma set_rels_steps st rel1 rel2 : same_rel (lg_rel1 st) rel1 -> same_rel (lg_rel2 st) rel2 -> legal_steps st (set_lg_rels st rel1 rel2).
Proof. intros S1 S2. split; cbn; auto. Qed.

Record step_ok (joinrelids : Relids) (i : nat) (sj sj' : SpecialJoin) (st st' : LegalState) : Prop := {
  so_info : sj_info sj' = sj_info sj;
  so_steps : legal_steps st st';
  so_handled : handled joinrelids (rn_relids (lg_rel1 st)) (rn_relids (lg_rel2 st)) i (sj_info sj) st';
  so_match : match_from i (sj_info sj) st st';
  so_flags : flags_ok st';
}.

(** The round matched the special join. *)
Lemma matched_step_ok j i sj sj' st st1 rev uniq st' : sj_info sj' = sj_info sj -> legal_steps st st1 -> flags_ok st1 ->
  match_sjinfo st1 = match_sjinfo st -> match_sj i rev uniq st1 = (true, st') ->
  (if rev then performs (sj_info sj) uniq (lg_rel2 st1) (lg_rel1 st1) else performs (sj_info sj) uniq (lg_rel1 st1) (lg_rel2 st1)) ->
  step_ok j i sj sj' st st'.
Proof.
  intros Es L F Em E Hi. assert (unique_ified st1 = false) as U.
  { apply (F : _ -> _ /\ _). unfold match_sj in E. destruct (match_sjinfo st1); [discriminate|reflexivity]. }
  destruct (match_sj_ok i rev uniq st1 st' E U) as (L' & E1 & E2 & E3 & E4 & E5 & E6).
  assert (performed (sj_info sj) st') as Hm by (unfold performed; rewrite E3, E4, E5, E6; exact Hi).
  split; [exact Es| | | |].
  - etransitivity; eassumption.
  - right. left. auto.
  - right. split_and!; [congruence|exact E2|exact Hm].
  - intros N. congruence.
Qed.

Lemma legal_step_ok j i sj st st' sj' : legal_step j i sj st = Ok (true, st', sj') -> flags_ok st -> step_ok j i sj sj' st st'.
Proof.
  intros E F. unfold legal_step in E. destruct (sj_irrelevant _ _ _ _) eqn:Ei.
  { injection E as <- <-. split; [reflexivity|reflexivity|left; left; exact Ei|left; reflexivity|exact F]. }
  destruct (sj_sides _ (rn_relids (lg_rel1 st)) _) eqn:E1.
  { injection E as E <-. eapply matched_step_ok; try eassumption; reflexivity. }
  destruct (sj_sides _ (rn_relids (lg_rel2 st)) _) eqn:E2.
  { injection E as E <-. eapply matched_step_ok; try eassumption; reflexivity. }
  apply rbind_ok in E as ([[u2 rel2] sj2] & U2 & E). destruct (unique_rhs_ok _ _ _ _ _ U2) as (I2 & S2 & C2).
  pose proof (set_rels_steps st (lg_rel1 st) rel2 ltac:(reflexivity) S2) as L2.
  set (st2 := set_lg_rels st (lg_rel1 st) rel2) in *. destruct u2.
  { injection E as E <-. destruct (C2 eq_refl) as (J & B & C). eapply (matched_step_ok j i sj sj2 st st2); try eassumption; [reflexivity|].
    cbn. rewrite (same_rel_relids _ _ S2). auto. }
  apply rbind_ok in E as ([[u1 rel1] sj1] & U1 & E). destruct (unique_rhs_ok _ _ _ _ _ U1) as (I1 & S1 & C1).
  assert (legal_steps st (set_lg_rels st2 rel1 (lg_rel2 st2))) as L1.
  { etransitivity; [exact L2|]. apply set_rels_steps; [exact S1|reflexivity]. }
  set (st1 := set_lg_rels st2 rel1 (lg_rel2 st2)) in *. rewrite I2 in *. destruct u1.
  { injection E as E <-. destruct (C1 eq_refl) as (J & B & C). eapply (matched_step_ok j i sj sj1 st st1); try eassumption; [reflexivity|].
    cbn. rewrite (same_rel_relids _ _ S1). auto. }
  injection E as E <-. unfold legal_rest in E. destruct (bms_overlap _ _ && _) eqn:Eo.
  { injection E as <-. rewrite (same_rel_relids _ _ (lt_rel1 _ _ L1)), (same_rel_relids _ _ (lt_rel2 _ _ L1)), andb_true_iff in Eo.
    split; [exact I1|exact L1|left; right; exact Eo|left; reflexivity|exact F]. }
  destruct (negb _ || _) eqn:Er; [discriminate|]. injection E as <-. apply orb_false_iff in Er as [Ej Ea].
  apply negb_false_iff, bool_decide_eq_true in Ej. split; [exact I1| | |left; reflexivity|exact F].
  - etransitivity; [exact L1|]. split; cbn; auto; reflexivity.
  - right. right. split; [split; assumption|reflexivity].
Qed.

Lemma legal_loop_ok j infos : forall i st st' infos', legal_loop j i infos st = Ok (true, st', infos') -> flags_ok st ->
  map sj_info infos' = map sj_info infos /\ legal_steps st st' /\ flags_ok st'
  /\ (forall k sj, infos !! k = Some sj ->
        handled j (rn_relids (lg_rel1 st)) (rn_relids (lg_rel2 st)) (i + k) (sj_info sj) st')
  /\ (match_sjinfo st' = match_sjinfo st
      \/ match_sjinfo st = None
        /\ exists k sj, infos !! k = Some sj /\ match_sjinfo st' = Some (i + k)%nat /\ performed (sj_info sj) st').
Proof.
  induction infos as [|sj infos IH]; intros i st st' infos' E F; cbn [legal_loop] in E.
  { injection E as <- <-. split_and!; [reflexivity|reflexivity|exact F|intros k sj Hk; discriminate|left; reflexivity]. }
  apply rbind_ok in E as ([[valid st1] sj1] & E1 & E). destruct valid; [|discriminate].
  apply rbind_ok in E as ([[valid st2] infos2] & E2 & E). injection E as -> <- <-.
  destruct (legal_step_ok _ _ _ _ _ _ E1 F) as [I1 L1 H1' M1 F1]. destruct (IH _ _ _ _ E2 F1) as (I2 & L2 & F2 & H2 & M2).
  split_and!; [cbn [map]; congruence|etransitivity; eassumption|exact F2| |].
  - intros [|k] sj' Hk; cbn in Hk.
    + injection Hk as <-. rewrite Nat.add_0_r. eapply handled_grow; eassumption.
    + specialize (H2 k sj' Hk). rewrite (same_rel_relids _ _ (lt_rel1 _ _ L1)), (same_rel_relids _ _ (lt_rel2 _ _ L1)) in H2.
      rewrite <- Nat.add_succ_comm. exact H2.
  - destruct M1 as [M1|(M1 & M1' & D1)], M2 as [M2|(M2 & k & sj2 & Hk & M2' & D2)].
    + left. congruence.
    + right. split; [congruence|]. exists (S k), sj2. rewrite <- Nat.add_succ_comm. auto.
    + right. split; [exact M1|]. exists 0%nat, sj. rewrite Nat.add_0_r. split_and!; [reflexivity|congruence|].
      eapply performed_grow; [exact L2|congruence|exact D1].
    + congruence.
Qed.

Lemma matched_info infos infos' st i sj : map sj_info infos' = map sj_info infos -> match_sjinfo st = Some i -> infos !! i = Some sj ->
  matched infos' st = Some (sj_info sj).
Proof.
  intros E Em Hi. unfold matched. rewrite Em. cbn [mbind option_bind].
  assert ((map sj_info infos') !! i = Some (sj_info sj)) as L by (rewrite E, list_lookup_fmap, Hi; reflexivity).
  rewrite list_lookup_fmap in L. destruct (infos' !! i) as [sj'|]; [|discriminate]. cbn in *. congruence.
Qed.

(** A strict left join. *)
Definition strict_left (sj : SpecialJoinInfo) : Prop := sj_jointype sj = JOIN_LEFT /\ lhs_strict sj = true.

(** What the verdict on the join of [left] and [right] means for the other special joins:
    [sj] is the one it does, if any. *)
Definition others_spared (joinrelids relids1 relids2 : Relids) (infos : list SpecialJoin) (m : option (nat * SpecialJoinInfo)) : Prop :=
  forall k sj', infos !! k = Some sj' -> match m with Some (i, _) => k <> i | None => True end ->
    spared joinrelids relids1 relids2 (sj_info sj')
    \/ goes_inside joinrelids (sj_info sj') /\ match m with Some (_, sj) => strict_left sj | None => False end.

(** LATERAL references go from the inner to the outer side only, in a join a nestloop can do,
    and to no relation that has to be joined later inside of this join. *)
Record lateral_tests (infos : list SpecialJoin) (joinrelids : Relids) (m : option SpecialJoinInfo) (uniq : bool)
    (left right : RelNode) : Prop := {
  lt_left_test : bms_overlap (rn_relids right) (rn_lateral_relids left) = true ->
            m = None /\ bms_overlap (rn_relids left) (rn_lateral_relids right) = false;
  lt_direct_test : bms_overlap (rn_relids left) (rn_lateral_relids right) = true ->
              bms_overlap (rn_relids left) (rn_direct_lateral_relids right) = true
              /\ match m with Some sj => uniq = false /\ sj_jointype sj <> JOIN_FULL | None => True end;
  lt_later_test : forall x, member x (join_plus_rhs infos joinrelids) ->
             ~ member x (min_join_parameterization joinrelids left right);
}.

Lemma infos_wf_info infos infos' : map sj_info infos' = map sj_info infos -> infos_wf infos -> infos_wf infos'.
Proof. intros E W. apply Forall_fmap. change (sj_info <$> infos') with (map sj_info infos'). rewrite E. apply Forall_fmap, W. Qed.

Lemma join_plus_rhs_info infos infos' j : map sj_info infos' = map sj_info infos -> join_plus_rhs infos' j = join_plus_rhs infos j.
Proof.
  intros E. assert (length infos' = length infos) as El by (rewrite <- (length_map sj_info infos), <- E, length_map; reflexivity).
  assert (rules infos' = rules infos) as Er.
  { clear El. revert infos E. induction infos' as [|a l IH]; intros [|b l'] E; try discriminate; [reflexivity|]. injection E as E1 E2.
    change (rules (a :: l)) with (sj_rules (sj_info a) ++ rules l). change (rules (b :: l')) with (sj_rules (sj_info b) ++ rules l').
    rewrite E1, (IH l' E2). reflexivity. }
  unfold join_plus_rhs. rewrite El. generalize (bms_copy j). generalize (S (2 * length infos)).
  induction n as [|n IH]; intros s; cbn [rhs_loop]; [reflexivity|]. rewrite !rhs_pass_absorb, Er.
  destruct (foldl absorb _ _) as [s' []]; [apply IH|reflexivity].
Qed.

Record node_wf (rel : RelNode) : Prop := {
  nw_relids : bms_wf (rn_relids rel);
  nw_lateral : bms_wf (rn_lateral_relids rel);
  nw_direct : bms_wf (rn_direct_lateral_relids rel);
}.

Lemma same_rel_wf rel rel' : same_rel rel rel' -> node_wf rel -> node_wf rel'.
Proof. intros [[u ->] _] [? ? ?]. split; assumption. Qed.

Lemma min_parameterization_spec j rel1 rel2 : bms_wf j -> node_wf rel1 -> node_wf rel2 ->
  represents (min_join_parameterization j rel1 rel2)
    (fun x => (member x (rn_lateral_relids rel1) \/ member x (rn_lateral_relids rel2)) /\ ~ member x j)
  /\ (min_join_parameterization j rel1 rel2 = None <->
      forall x, member x (rn_lateral_relids rel1) \/ member x (rn_lateral_relids rel2) -> member x j).
Proof.
  intros Wj [_ W1 _] [_ W2 _]. unfold min_join_parameterization.
  destruct (represents_lor _ _ _ (bms_union_spec _ _ W1 W2)) as [Wu Mu].
  destruct (represents_ldiff _ _ _ (bms_del_members_spec _ _ Wu Wj)) as [Wd Md].
  rewrite bms_is_empty_spec by exact Wd. destruct (Z.eqb_spec (bms_val (bms_del_members (bms_union (rn_lateral_relids rel1) (rn_lateral_relids rel2)) j)) 0) as [E|N].
  - assert (forall x, ~ member x (bms_del_members (bms_union (rn_lateral_relids rel1) (rn_lateral_relids rel2)) j)) as Em.
    { intros x [_ T]. rewrite E, Z.bits_0 in T. discriminate. }
    split; [split; [exact Logic.I|]|split; [intros _|reflexivity]].
    + intros x. split; [intros M; destruct (not_member_none x M)|]. intros [M Nj]. destruct (Em x). apply Md. split; [apply Mu, M|exact Nj].
    + intros x M. destruct (decide (member x j)) as [|Nj]; [assumption|]. destruct (Em x). apply Md. split; [apply Mu, M|exact Nj].
  - split; [split; [exact Wd|intros x; rewrite Md, Mu; reflexivity]|]. split.
    + intros E. rewrite E in N. done.
    + intros A. destruct N. apply Z.bits_inj_0. intros n. destruct (Z.testbit _ n) eqn:T; [|reflexivity].
      destruct (Z.ltb_spec n 0); [rewrite Z.testbit_neg_r in T by assumption; discriminate|].
      assert (member n (bms_del_members (bms_union (rn_lateral_relids rel1) (rn_lateral_relids rel2)) j)) as M by (split; assumption).
      apply Md in M as [M Nj]. destruct Nj. apply A, Mu, M.
Qed.

Lemma overlap_sym a b : bms_wf a -> bms_wf b -> bms_overlap a b = bms_overlap b a.
Proof. intros Ha Hb. apply eq_true_iff_eq. rewrite !bms_overlap_spec by assumption. split; intros (x & ? & ?); eauto. Qed.

Lemma lateral_nestloop_spec ph sj swapped uniq outer inner : lateral_nestloop_ok ph sj swapped uniq outer inner = true ->
  bms_overlap (rn_relids outer) (rn_direct_lateral_relids inner) = true
  /\ match sj with Some sj => swapped = false /\ uniq = false /\ sj_jointype sj <> JOIN_FULL | None => True end.
Proof.
  unfold lateral_nestloop_ok. intros E. apply andb_true_iff in E as [E _]. apply andb_true_iff in E as [E Ed]. split; [exact Ed|].
  destruct sj as [sj|]; [|exact Logic.I]. apply negb_true_iff in E. apply orb_false_iff in E as [E Ej]. apply orb_false_iff in E as [E1 E2].
  apply bool_decide_eq_false in Ej. auto.
Qed.

Lemma lateral_ok_cases ph infos j st : lateral_ok ph infos j st = true ->
  let rel1 := lg_rel1 st in let rel2 := lg_rel2 st in
  let fwd := bms_overlap (rn_relids rel1) (rn_lateral_relids rel2) in
  let rev := bms_overlap (rn_relids rel2) (rn_lateral_relids rel1) in
  fwd && rev = false
  /\ (fwd = true -> lateral_nestloop_ok ph (matched infos st) (reversed st) (unique_ified st) rel1 rel2 = true)
  /\ (rev = true -> lateral_nestloop_ok ph (matched infos st) (negb (reversed st)) (unique_ified st) rel2 rel1 = true)
  /\ match min_join_parameterization j rel1 rel2 with
     | Some _ as l => bms_overlap (join_plus_rhs infos j) l = false
     | None => True
     end.
Proof.
  intros E rel1 rel2 fwd rev. unfold lateral_ok in E. fold rel1 rel2 fwd rev in E. destruct (fwd && rev) eqn:Eb; [discriminate|].
  destruct (fwd && negb _) eqn:Ef; [discriminate|]. destruct (rev && negb _) eqn:Er; [discriminate|]. split_and!; [reflexivity|..].
  - intros ->. apply negb_false_iff in Ef. exact Ef.
  - intros ->. apply negb_false_iff in Er. exact Er.
  - destruct (min_join_parameterization j rel1 rel2); [|exact Logic.I]. apply negb_true_iff, E.
Qed.

(** The constraints the end of join_is_legal checks, seen from the sides of the join. *)
Lemma lateral_ok_spec ph infos j st : infos_wf infos -> bms_wf j -> node_wf (lg_rel1 st) -> node_wf (lg_rel2 st) ->
  lateral_ok ph infos j st = true ->
  lateral_tests infos j (matched infos st) (unique_ified st) (if reversed st then lg_rel2 st else lg_rel1 st)
    (if reversed st then lg_rel1 st else lg_rel2 st).
Proof.
  intros Wi Wj W1 W2 E. destruct (lateral_ok_cases ph infos j st E) as (Eb & Ef & Er & El).
  assert (forall x, member x (join_plus_rhs infos j) ->
    ~ ((member x (rn_lateral_relids (lg_rel1 st)) \/ member x (rn_lateral_relids (lg_rel2 st))) /\ ~ member x j)) as Later.
  { destruct (join_plus_rhs_ok infos j Wi Wj) as (Wp & _). destruct (min_parameterization_spec j _ _ Wj W1 W2) as [[Wm Mm] _].
    intros x Mp Ml. apply Mm in Ml. destruct (min_join_parameterization j (lg_rel1 st) (lg_rel2 st)) as [w|];
      [|exact (not_member_none x Ml)]. apply not_true_iff_false in El. apply El, bms_overlap_spec; eauto. }
  apply andb_false_iff in Eb. destruct (reversed st); cbn [negb] in *; split.
  - intros Et. destruct (lateral_nestloop_spec _ _ _ _ _ _ (Ef Et)) as [_ M].
    destruct (matched infos st); [destruct M; discriminate|]. split; [reflexivity|]. destruct Eb as [Eb|Eb]; [congruence|exact Eb].
  - intros Et. destruct (lateral_nestloop_spec _ _ _ _ _ _ (Er Et)) as [D M]. split; [exact D|]. destruct (matched infos st); tauto.
  - intros x Mx Ml. apply (min_parameterization_spec j _ _ Wj W2 W1) in Ml. apply (Later x Mx). tauto.
  - intros Et. destruct (lateral_nestloop_spec _ _ _ _ _ _ (Er Et)) as [_ M].
    destruct (matched infos st); [destruct M; discriminate|]. split; [reflexivity|]. destruct Eb as [Eb|Eb]; [exact Eb|congruence].
  - intros Et. destruct (lateral_nestloop_spec _ _ _ _ _ _ (Ef Et)) as [D M]. split; [exact D|]. destruct (matched infos st); tauto.
  - intros x Mx Ml. apply (min_parameterization_spec j _ _ Wj W1 W2) in Ml. exact (Later x Mx Ml).
Qed.

(** The verdict in terms of the tests of the code. *)
Lemma join_is_legal_tests hasLateral ph infos rel1 rel2 j m rev rel1' rel2' infos' :
  join_is_legal hasLateral ph infos rel1 rel2 j = Ok (Some (m, rev), rel1', rel2', infos') ->
  infos_wf infos -> bms_wf j -> node_wf rel1 -> node_wf rel2 ->
  let left := if rev then rel2' else rel1' in
  let right := if rev then rel1' else rel2' in
  map sj_info infos' = map sj_info infos /\ same_rel rel1 rel1' /\ same_rel rel2 rel2'
  /\ exists uniq,
     match m with
     | Some i => exists sj, infos !! i = Some sj /\ performs (sj_info sj) uniq left right
                   /\ others_spared j (rn_relids rel1) (rn_relids rel2) infos (Some (i, sj_info sj))
     | None => rev = false /\ uniq = false /\ others_spared j (rn_relids rel1) (rn_relids rel2) infos None
     end
     /\ (hasLateral = true ->
         lateral_tests infos j (i ← m; sj ← infos !! i; Some (sj_info sj)) uniq left right).
Proof.
  intros E Wi Wj W1 W2 left right. unfold join_is_legal in E. apply rbind_ok in E as ([[valid st] infos2] & El & E).
  destruct (valid && _ && _) eqn:Ev; [|discriminate]. injection E as <- <- <- <- <-.
  apply andb_true_iff in Ev as [Ev Elat]. apply andb_true_iff in Ev as [-> Elj].
  destruct (legal_loop_ok j infos 0 _ _ _ El) as (Ei & [S1 S2 _ _] & F & Hh & Hm); [split; reflexivity|]. cbn [lg_rel1 lg_rel2] in *.
  assert (infos_wf infos2) as Wi2 by (apply (infos_wf_info infos); assumption).
  assert (hasLateral = true -> lateral_tests infos j (matched infos2 st) (unique_ified st) left right) as Lat.
  { intros ->. cbn [negb orb] in Elat.
    pose proof (lateral_ok_spec ph infos2 j st Wi2 Wj (same_rel_wf _ _ S1 W1) (same_rel_wf _ _ S2 W2) Elat) as [L1 L2 L3].
    rewrite (join_plus_rhs_info infos infos2 j Ei) in L3. split; assumption. }
  split_and!; [exact Ei|exact S1|exact S2|]. exists (unique_ified st). unfold leftjoin_ok in Elj.
  destruct Hm as [Em|(_ & i & sj & Hi & Em & Hd)]; cbn [match_sjinfo] in Em.
  - rewrite Em in *. destruct (F Em) as [Eu Er]. rewrite Eu, Er in *. assert (matched infos2 st = None) as Ed by (unfold matched; rewrite Em; reflexivity).
    rewrite Ed in *. split; [|exact Lat]. split_and!; [reflexivity..|]. intros k sj' Hk _.
    destruct (Hh k sj' Hk) as [Hu|[[Ek _]|[_ Ek]]]; [left; exact Hu|congruence|]. rewrite Ek in Elj. discriminate.
  - cbn [Nat.add] in Em. rewrite Em in *. pose proof (matched_info infos infos2 st i sj Ei Em Hi) as Ed. rewrite Ed in *.
    split; [|cbn [mbind option_bind]; rewrite Hi; exact Lat]. exists sj. split_and!; [exact Hi|unfold performed in Hd; subst left right; destruct (reversed st); exact Hd|].
    intros k sj' Hk Nk. destruct (Hh k sj' Hk) as [Hu|[[Ek _]|[Ha Ek]]]; [left; exact Hu|cbn in Ek; congruence|]. right. split; [exact Ha|].
    rewrite Ek in Elj. apply andb_true_iff in Elj as [Ej Es]. apply bool_decide_eq_true in Ej. split; assumption.
Qed.

(** *** The verdict in terms of the sets of relations *)

Definition within (a b : Relids) : Prop := forall x, member x a -> member x b.
Definition touches (a b : Relids) : Prop := exists x, member x a /\ member x b.

(** The special join is done inside of the relation: both hands are there, or it is a
    semijoin whose whole right hand was joined to more. *)
Definition done_in (sj : SpecialJoinInfo) (relids : Relids) : Prop :=
  within (min_lefthand sj) relids /\ within (min_righthand sj) relids
  \/ sj_jointype sj = JOIN_SEMI /\ within (syn_righthand sj) relids /\ ~ within relids (syn_righthand sj).

(** The join cuts through the special join: it brings relations of the right hand
    together with others, while the special join was not done before, and only one of the
    inputs has a part of the right hand. *)
Record cuts (joinrelids relids1 relids2 : Relids) (sj : SpecialJoinInfo) : Prop := {
  cut_part : touches (min_righthand sj) joinrelids;
  cut_others : ~ within joinrelids (min_righthand sj);
  cut_not_done1 : ~ done_in sj relids1;
  cut_not_done2 : ~ done_in sj relids2;
  cut_first : ~ (touches relids1 (min_righthand sj) /\ touches relids2 (min_righthand sj));
}.

(** The join does the special join: the hands are on the two sides, or the right side is
    exactly the right hand of a semijoin and has a path without duplicates. *)
Definition does (sj : SpecialJoinInfo) (uniq : bool) (left right : RelNode) : Prop :=
  if uniq then sj_jointype sj = JOIN_SEMI
    /\ (forall x, member x (syn_righthand sj) <-> member x (rn_relids right)) /\ unique_is_cached right
  else within (min_lefthand sj) (rn_relids left) /\ within (min_righthand sj) (rn_relids right).

(** A special join that the join cuts through is a left join without its left hand here,
    and the join does a strict left join, with which it associates. *)
Definition others_intact (joinrelids relids1 relids2 : Relids) (infos : list SpecialJoin) (m : option (nat * SpecialJoinInfo)) : Prop :=
  forall k sj', infos !! k = Some sj' -> match m with Some (i, _) => k <> i | None => True end ->
    cuts joinrelids relids1 relids2 (sj_info sj') ->
    sj_jointype (sj_info sj') = JOIN_LEFT /\ ~ touches joinrelids (min_lefthand (sj_info sj'))
    /\ match m with Some (_, sj) => strict_left sj | None => False end.

(** LATERAL references go from the inner to the outer side only, in a join a nestloop can do,
    and to no relation that has to be joined later inside of this join. *)
Record lateral_legal (infos : list SpecialJoin) (joinrelids : Relids) (m : option SpecialJoinInfo) (uniq : bool)
    (left right : RelNode) : Prop := {
  ll_left : touches (rn_relids right) (rn_lateral_relids left) -> m = None /\ ~ touches (rn_relids left) (rn_lateral_relids right);
  ll_direct : touches (rn_relids left) (rn_lateral_relids right) -> touches (rn_relids left) (rn_direct_lateral_relids right)
              /\ match m with Some sj => uniq = false /\ sj_jointype sj <> JOIN_FULL | None => True end;
  ll_later : forall x, member x (join_plus_rhs infos joinrelids) ->
             member x (rn_lateral_relids left) \/ member x (rn_lateral_relids right) -> member x joinrelids;
}.

Lemma within_spec a b : bms_wf a -> bms_wf b -> bms_is_subset a b = true <-> within a b.
Proof. apply bms_is_subset_spec. Qed.

Lemma touches_spec a b : bms_wf a -> bms_wf b -> bms_overlap a b = true <-> touches a b.
Proof. apply bms_overlap_spec. Qed.

Lemma equal_spec a b : bms_wf a -> bms_wf b -> bms_equal a b = true <-> (forall x, member x a <-> member x b).
Proof.
  intros Wa Wb. rewrite bms_equal_subset by assumption. split; [intros [A B] x; split; auto|intros M; split; intros x; apply M].
Qed.

Lemma done_in_tests sj relids : sj_wf sj -> bms_wf relids ->
  sj_within sj relids || (bool_decide (sj_jointype sj = JOIN_SEMI)
    && (bms_is_subset (syn_righthand sj) relids && negb (bms_equal (syn_righthand sj) relids))) = true -> done_in sj relids.
Proof.
  intros [Wl Wr Ws] W E. apply orb_true_iff in E as [E|E].
  - left. apply andb_true_iff in E as [E1 E2]. rewrite !within_spec in * by assumption. auto.
  - right. apply andb_true_iff in E as [Ej E]. apply andb_true_iff in E as [E1 E2]. apply bool_decide_eq_true in Ej.
    rewrite within_spec in E1 by assumption. split_and!; [exact Ej|exact E1|]. intros W2. apply negb_true_iff, not_true_iff_false in E2.
    apply E2, equal_spec; [assumption..|]. intros x. split; auto.
Qed.

Lemma spared_not_cut j r1 r2 sj : sj_wf sj -> bms_wf j -> bms_wf r1 -> bms_wf r2 -> spared j r1 r2 sj -> ~ cuts j r1 r2 sj.
Proof.
  intros Wsj Wj W1 W2 U [Cp Co Cd1 Cd2 Cf]. pose proof Wsj as [Wl Wr Ws]. destruct U as [U|[U1 U2]].
  - unfold sj_irrelevant in U. rewrite !orb_true_iff, andb_true_iff, orb_true_iff in U.
    destruct U as [[[[U|U]|U]|U]|[Uj [U|U]]].
    + apply negb_true_iff, not_true_iff_false in U. apply U, touches_spec; assumption.
    + apply Co, within_spec; assumption.
    + apply Cd1, done_in_tests; [assumption..|]. rewrite U. reflexivity.
    + apply Cd2, done_in_tests; [assumption..|]. rewrite U. reflexivity.
    + apply Cd1, done_in_tests; [assumption..|]. rewrite Uj, U. apply orb_true_r.
    + apply Cd2, done_in_tests; [assumption..|]. rewrite Uj, U. apply orb_true_r.
  - apply Cf. rewrite !touches_spec in * by assumption. auto.
Qed.

Lemma performs_does sj uniq left right : sj_wf sj -> node_wf left -> node_wf right -> performs sj uniq left right -> does sj uniq left right.
Proof.
  intros [Wl Wr Ws] [L _ _] [R _ _]. unfold performs, does. destruct uniq.
  - rewrite equal_spec by assumption. auto.
  - unfold sj_sides. rewrite andb_true_iff, !within_spec by assumption. auto.
Qed.

Lemma others_spared_intact j r1 r2 infos m : infos_wf infos -> bms_wf j -> bms_wf r1 -> bms_wf r2 ->
  others_spared j r1 r2 infos m -> others_intact j r1 r2 infos m.
Proof.
  intros Wi Wj W1 W2 O k sj' Hk Nk C. assert (sj_wf (sj_info sj')) as Ws by (rewrite Forall_forall in Wi; eapply Wi, list_elem_of_lookup_2, Hk).
  destruct (O k sj' Hk Nk) as [U|[[Ej Eo] S]]; [destruct (spared_not_cut _ _ _ _ Ws Wj W1 W2 U C)|].
  split_and!; [exact Ej| |exact S]. rewrite <- touches_spec by (assumption || apply Ws). congruence.
Qed.

Lemma lateral_tests_legal infos j m uniq left right : bms_wf j -> node_wf left -> node_wf right ->
  lateral_tests infos j m uniq left right -> lateral_legal infos j m uniq left right.
Proof.
  intros Wj Wl Wr [L1 L2 L3]. pose proof Wl as [l1 l2 l3]. pose proof Wr as [r1 r2 r3]. split.
  - rewrite <- !touches_spec by assumption. intros T. destruct (L1 T) as [-> E]. split; [reflexivity|congruence].
  - rewrite <- !touches_spec by assumption. exact L2.
  - intros x Mx Ml. destruct (decide (member x j)) as [|N]; [assumption|]. destruct (L3 x Mx).
    apply (min_parameterization_spec j _ _ Wj Wl Wr). auto.
Qed.

(** C20: when join_is_legal accepts a join, no special join is broken by it. If it names a
    special join, the two relations (swapped where it says so) contain its two hands, or
    the inner one is exactly the right hand of a semijoin and has a unique path; the join
    cuts through no other special join, in that it would join a part of the right hand to
    other relations before the special join is done, except for a left join with which this
    strict left join associates. LATERAL references go from the inner to the outer
    side, through a join a nestloop can do, and never to a relation that would have to
    be joined inside of this join later. Only the caches of unique paths change. *)
Theorem join_is_legal_sound hasLateral ph infos rel1 rel2 j m rev rel1' rel2' infos' :
  join_is_legal hasLateral ph infos rel1 rel2 j = Ok (Some (m, rev), rel1', rel2', infos') ->
  infos_wf infos -> bms_wf j -> node_wf rel1 -> node_wf rel2 ->
  let left := if rev then rel2' else rel1' in
  let right := if rev then rel1' else rel2' in
  map sj_info infos' = map sj_info infos /\ same_rel rel1 rel1' /\ same_rel rel2 rel2'
  /\ exists uniq,
     match m with
     | Some i => exists sj, infos !! i = Some sj /\ does (sj_info sj) uniq left right
                   /\ others_intact j (rn_relids rel1) (rn_relids rel2) infos (Some (i, sj_info sj))
     | None => rev = false /\ uniq = false /\ others_intact j (rn_relids rel1) (rn_relids rel2) infos None
     end
     /\ (hasLateral = true ->
         lateral_legal infos j (i ← m; sj ← infos !! i; Some (sj_info sj)) uniq left right).
Proof.
  intros E Wi Wj W1 W2 left right. destruct (join_is_legal_tests _ _ _ _ _ _ _ _ _ _ _ E Wi Wj W1 W2) as (Ei & S1 & S2 & uniq & M & L).
  pose proof (same_rel_wf _ _ S1 W1) as W1'. pose proof (same_rel_wf _ _ S2 W2) as W2'.
  assert (node_wf left /\ node_wf right) as [Wl Wr] by (subst left right; destruct rev; auto).
  split_and!; [exact Ei|exact S1|exact S2|]. exists uniq. split; [|intros T; apply lateral_tests_legal; auto].
  destruct m as [i|].
  - destruct M as (sj & Hi & P & O). exists sj. split_and!; [exact Hi| |apply others_spared_intact; [assumption..|apply W1|apply W2|exact O]].
    apply performs_does; [rewrite Forall_forall in Wi; eapply Wi, list_elem_of_lookup_2, Hi|exact Wl|exact Wr|exact P].
  - destruct M as (-> & -> & O). split_and!; [reflexivity..|]. apply others_spared_intact; [assumption..|apply W1|apply W2|exact O].
Qed.

End sound.

(** ** Symmetry *)

(** The variables as the call with the relations exchanged has them. *)
Definition swap_legal (st : LegalState) : LegalState :=
  mkLegalState (lg_rel2 st) (lg_rel1 st) (match_sjinfo st)
    (match match_sjinfo st with Some _ => negb (reversed st) | None => reversed st end)
    (unique_ified st) (must_be_leftjoin st).

Lemma sj_irrelevant_swap j r1 r2 sj : sj_irrelevant j r2 r1 sj = sj_irrelevant j r1 r2 sj.
Proof.
  unfold sj_irrelevant. rewrite <- !orb_assoc. do 2 f_equal. rewrite !orb_assoc. rewrite (orb_comm (sj_within sj r2)). f_equal. f_equal.
  apply orb_comm.
Qed.

Lemma match_sj_swap i rev uniq st :
  match_sj i (negb rev) uniq (swap_legal st) = (let (v, st') := match_sj i rev uniq st in (v, swap_legal st')).
Proof. unfold match_sj, swap_legal. cbn. destruct (match_sjinfo st) eqn:E; cbn; rewrite ?E; reflexivity. Qed.

Section swap.
Context `{Libm, Settings, PathSupport} (j r1 r2 : Relids).
Context (W1 : bms_wf r1) (W2 : bms_wf r2) (Apart : bms_overlap r1 r2 = false).
Context (N1 : exists x, member x r1) (N2 : exists x, member x r2).

Lemma apart x : member x r1 -> member x r2 -> False.
Proof. intros M1 M2. apply not_true_iff_false in Apart. apply Apart, bms_overlap_spec; eauto. Qed.

(** A special join the join concerns cannot be done both ways. *)
Lemma sides_exclusive sj : sj_wf sj -> bms_wf j -> sj_irrelevant j r1 r2 sj = false -> sj_sides sj r1 r2 = true ->
  sj_sides sj r2 r1 = true -> False.
Proof.
  intros [_ Wr _] Wj E S1 S2. unfold sj_irrelevant in E. repeat (apply orb_false_iff in E as [E _]). apply negb_false_iff in E.
  apply bms_overlap_spec in E as (x & X & _); [|assumption..]. apply andb_true_iff in S1 as [_ S1], S2 as [_ S2].
  apply bms_is_subset_spec in S1, S2; [|assumption..]. exact (apart x (S2 x X) (S1 x X)).
Qed.

Lemma rhs_exclusive sj : sj_wf sj -> bms_equal (syn_righthand sj) r1 = true -> bms_equal (syn_righthand sj) r2 = true -> False.
Proof.
  intros [_ _ Ws] E1 E2. apply bms_equal_subset in E1 as [_ E1], E2 as [E2 _]; [|assumption..].
  destruct N1 as [x X]. exact (apart x X (E2 x (E1 x X))).
Qed.

(** The relation is the right hand of the semijoin. *)
Definition is_rhs (sj : SpecialJoin) (rel : RelNode) : bool :=
  bool_decide (sj_jointype (sj_info sj) = JOIN_SEMI) && bms_equal (syn_righthand (sj_info sj)) (rn_relids rel).

Lemma not_rhs sj sj' rel : is_rhs sj rel = false -> sj_info sj' = sj_info sj -> unique_rhs rel sj' = Ok (false, rel, sj').
Proof. unfold is_rhs, unique_rhs. intros E ->. rewrite E. reflexivity. Qed.

(** At most one of the two relations is looked at for a unique path. *)
Lemma rhs_one rel1 rel2 sj : sj_wf (sj_info sj) -> rn_relids rel1 = r1 -> rn_relids rel2 = r2 ->
  is_rhs sj rel1 = false \/ is_rhs sj rel2 = false.
Proof.
  intros Ws E1 E2. unfold is_rhs. rewrite E1, E2. destruct (bool_decide _); cbn [andb]; [|left; reflexivity].
  destruct (bms_equal _ r1) eqn:B1; [|left; reflexivity]. destruct (bms_equal _ r2) eqn:B2; [|right; reflexivity].
  destruct (rhs_exclusive _ Ws B1 B2).
Qed.

Definition swap_step {A} (o : bool * LegalState * A) : bool * LegalState * A := let '(v, st, sj) := o in (v, swap_legal st, sj).

Lemma legal_rest_swap info st : legal_rest j info (swap_legal st) = (let (v, st') := legal_rest j info st in (v, swap_legal st')).
Proof.
  unfold legal_rest. cbn [lg_rel1 lg_rel2 swap_legal]. rewrite andb_comm. destruct (_ && _); [reflexivity|].
  destruct (_ || _); reflexivity.
Qed.

Lemma set_rels_same st : set_lg_rels st (lg_rel1 st) (lg_rel2 st) = st.
Proof. destruct st. reflexivity. Qed.

(** A round for a special join that is not done directly, with one relation as the only
    candidate for its right hand. *)
Definition step_with (left : bool) (i : nat) (sj : SpecialJoin) (st : LegalState) : result (bool * LegalState * SpecialJoin) :=
  let! (uniq, rel, sj') := unique_rhs (if left then lg_rel1 st else lg_rel2 st) sj in
  let st := if left then set_lg_rels st rel (lg_rel2 st) else set_lg_rels st (lg_rel1 st) rel in
  if uniq then Ok (match_sj i left true st, sj') else Ok (legal_rest j (sj_info sj) st, sj').

Lemma step_with_swap left i sj st : step_with left i sj (swap_legal st) = let! o := step_with (negb left) i sj st in Ok (swap_step o).
Proof.
  unfold step_with. destruct left; cbn [negb lg_rel1 lg_rel2 swap_legal].
  all: destruct (unique_rhs _ sj) as [[[uniq rel] sj']|e]; cbn [rbind]; [|reflexivity].
  - change (set_lg_rels (swap_legal st) rel (lg_rel1 st)) with (swap_legal (set_lg_rels st (lg_rel1 st) rel)).
    set (st' := set_lg_rels _ _ _). destruct uniq.
    + rewrite (match_sj_swap i false true st' : match_sj i true true _ = _). destruct (match_sj i false true st'). reflexivity.
    + rewrite legal_rest_swap. destruct (legal_rest j (sj_info sj) st'). reflexivity.
  - change (set_lg_rels (swap_legal st) (lg_rel2 st) rel) with (swap_legal (set_lg_rels st rel (lg_rel2 st))).
    set (st' := set_lg_rels _ _ _). destruct uniq.
    + rewrite (match_sj_swap i true true st' : match_sj i false true _ = _). destruct (match_sj i true true st'). reflexivity.
    + rewrite legal_rest_swap. destruct (legal_rest j (sj_info sj) st'). reflexivity.
Qed.

Lemma legal_step_with (left : bool) i sj st : sj_irrelevant j (rn_relids (lg_rel1 st)) (rn_relids (lg_rel2 st)) (sj_info sj) = false ->
  sj_sides (sj_info sj) (rn_relids (lg_rel1 st)) (rn_relids (lg_rel2 st)) = false ->
  sj_sides (sj_info sj) (rn_relids (lg_rel2 st)) (rn_relids (lg_rel1 st)) = false ->
  is_rhs sj (if left then lg_rel2 st else lg_rel1 st) = false -> legal_step j i sj st = step_with left i sj st.
Proof.
  intros Ei E1 E2 R. unfold legal_step, step_with. rewrite Ei, E1, E2. destruct left.
  - rewrite (not_rhs sj sj _ R eq_refl). cbn [rbind]. rewrite set_rels_same. reflexivity.
  - destruct (unique_rhs (lg_rel2 st) sj) as [[[uniq rel] sj']|e] eqn:U; cbn [rbind]; [|reflexivity]. destruct uniq; [reflexivity|].
    destruct (unique_rhs_ok _ _ _ _ _ U) as (I2 & _). cbn [lg_rel1 lg_rel2 set_lg_rels]. rewrite (not_rhs sj sj' _ R I2). reflexivity.
Qed.

Lemma legal_step_swap i sj st : sj_wf (sj_info sj) -> bms_wf j -> rn_relids (lg_rel1 st) = r1 -> rn_relids (lg_rel2 st) = r2 ->
  legal_step j i sj (swap_legal st) = let! o := legal_step j i sj st in Ok (swap_step o).
Proof.
  intros Ws Wj E1 E2. destruct (sj_irrelevant j r1 r2 (sj_info sj)) eqn:Ei.
  { unfold legal_step. cbn [lg_rel1 lg_rel2 swap_legal]. rewrite E1, E2, sj_irrelevant_swap, Ei. reflexivity. }
  pose proof (sides_exclusive (sj_info sj) Ws Wj Ei) as Ex.
  destruct (sj_sides (sj_info sj) r1 r2) eqn:S1, (sj_sides (sj_info sj) r2 r1) eqn:S2; [destruct (Ex eq_refl eq_refl)|..].
  - unfold legal_step. cbn [lg_rel1 lg_rel2 swap_legal]. rewrite E1, E2, sj_irrelevant_swap, Ei, S1, S2.
    rewrite (match_sj_swap i false false st : match_sj i true false (swap_legal st) = _). destruct (match_sj i false false st). reflexivity.
  - unfold legal_step. cbn [lg_rel1 lg_rel2 swap_legal]. rewrite E1, E2, sj_irrelevant_swap, Ei, S1, S2.
    rewrite (match_sj_swap i true false st : match_sj i false false (swap_legal st) = _). destruct (match_sj i true false st). reflexivity.
  - destruct (rhs_one (lg_rel1 st) (lg_rel2 st) sj Ws E1 E2) as [R|R].
    + rewrite (legal_step_with false i sj st); [|rewrite E1, E2; exact Ei|rewrite E1, E2; exact S1|rewrite E1, E2; exact S2|exact R].
      rewrite (legal_step_with true i sj (swap_legal st)); [exact (step_with_swap true i sj st)|..]; cbn [lg_rel1 lg_rel2 swap_legal];
        [rewrite E1, E2, sj_irrelevant_swap; exact Ei|rewrite E1, E2; exact S2|rewrite E1, E2; exact S1|exact R].
    + rewrite (legal_step_with true i sj st); [|rewrite E1, E2; exact Ei|rewrite E1, E2; exact S1|rewrite E1, E2; exact S2|exact R].
      rewrite (legal_step_with false i sj (swap_legal st)); [exact (step_with_swap false i sj st)|..]; cbn [lg_rel1 lg_rel2 swap_legal];
        [rewrite E1, E2, sj_irrelevant_swap; exact Ei|rewrite E1, E2; exact S2|rewrite E1, E2; exact S1|exact R].
Qed.

(** Whatever the verdict, a round leaves the relations and the special join as they are. *)
Lemma legal_step_same i sj st v st' sj' : legal_step j i sj st = Ok (v, st', sj') ->
  same_rel (lg_rel1 st) (lg_rel1 st') /\ same_rel (lg_rel2 st) (lg_rel2 st') /\ sj_info sj' = sj_info sj.
Proof.
  assert (forall rev uniq st1, lg_rel1 (match_sj i rev uniq st1).2 = lg_rel1 st1 /\ lg_rel2 (match_sj i rev uniq st1).2 = lg_rel2 st1) as M.
  { intros rev uniq st1. unfold match_sj. destruct (match_sjinfo st1); split; reflexivity. }
  assert (forall st1, lg_rel1 (legal_rest j (sj_info sj) st1).2 = lg_rel1 st1 /\ lg_rel2 (legal_rest j (sj_info sj) st1).2 = lg_rel2 st1) as L.
  { intros st1. unfold legal_rest. destruct (_ && _); [split; reflexivity|]. destruct (_ || _); split; reflexivity. }
  assert (forall (o : bool * LegalState) st1, (lg_rel1 o.2 = lg_rel1 st1 /\ lg_rel2 o.2 = lg_rel2 st1) -> o = (v, st') ->
    same_rel (lg_rel1 st) (lg_rel1 st1) -> same_rel (lg_rel2 st) (lg_rel2 st1) ->
    same_rel (lg_rel1 st) (lg_rel1 st') /\ same_rel (lg_rel2 st) (lg_rel2 st')) as Done.
  { intros o st1 [E1 E2] -> S1 S2. cbn in *. rewrite E1, E2. auto. }
  unfold legal_step. intros E. destruct (sj_irrelevant _ _ _ _); [injection E as <- <- <-; split_and!; reflexivity|].
  destruct (sj_sides _ _ _); [|destruct (sj_sides _ _ _)].
  1, 2: injection E as E <-; destruct (Done _ st (M _ _ st) E ltac:(reflexivity) ltac:(reflexivity)); auto.
  apply rbind_ok in E as ([[u2 rel2] sj2] & U2 & E). destruct (unique_rhs_ok _ _ _ _ _ U2) as (I2 & S2 & _). destruct u2.
  { injection E as E <-. destruct (Done _ _ (M _ _ _) E ltac:(reflexivity) S2). auto. }
  apply rbind_ok in E as ([[u1 rel1] sj1] & U1 & E). destruct (unique_rhs_ok _ _ _ _ _ U1) as (I1 & S1 & _).
  destruct u1; injection E as E <-; rewrite I1, I2.
  - destruct (Done _ _ (M _ _ _) E S1 S2). auto.
  - destruct (Done _ _ (L _) E S1 S2). auto.
Qed.

Lemma legal_loop_swap infos : infos_wf infos -> bms_wf j -> forall i st, rn_relids (lg_rel1 st) = r1 -> rn_relids (lg_rel2 st) = r2 ->
  legal_loop j i infos (swap_legal st) = let! o := legal_loop j i infos st in Ok (swap_step o).
Proof.
  intros Wi Wj. induction Wi as [|sj infos Ws _ IH]; intros i st E1 E2; cbn [legal_loop]; [reflexivity|].
  rewrite (legal_step_swap i sj st Ws Wj E1 E2). destruct (legal_step j i sj st) as [[[v st'] sj']|e] eqn:Es; cbn [rbind swap_step]; [|reflexivity].
  destruct (legal_step_same _ _ _ _ _ _ Es) as (S1 & S2 & _). destruct v; [|reflexivity]. rewrite IH.
  - destruct (legal_loop j (S i) infos st') as [[[v2 st2] infos2]|e]; reflexivity.
  - rewrite (same_rel_relids _ _ S1). exact E1.
  - rewrite (same_rel_relids _ _ S2). exact E2.
Qed.

Lemma legal_loop_same infos : forall i st v st' infos', legal_loop j i infos st = Ok (v, st', infos') ->
  same_rel (lg_rel1 st) (lg_rel1 st') /\ same_rel (lg_rel2 st) (lg_rel2 st') /\ map sj_info infos' = map sj_info infos.
Proof.
  induction infos as [|sj infos IH]; intros i st v st' infos' E; cbn [legal_loop] in E.
  { injection E as <- <- <-. split_and!; reflexivity. }
  apply rbind_ok in E as ([[v1 st1] sj1] & E1 & E). destruct (legal_step_same _ _ _ _ _ _ E1) as (S1 & S2 & Is). destruct v1.
  - apply rbind_ok in E as ([[v2 st2] infos2] & E2 & E). injection E as <- <- <-. destruct (IH _ _ _ _ _ E2) as (T1 & T2 & It).
    split_and!; [etransitivity; eassumption..|]. cbn [map]. congruence.
  - injection E as <- <- <-. cbn [map]. rewrite Is. auto.
Qed.

(** The relations that must not be joined later, in either order of the inputs. *)
Lemma parameterization_swap infos rel1 rel2 : infos_wf infos -> bms_wf j -> node_wf rel1 -> node_wf rel2 ->
  let later rel1 rel2 := match min_join_parameterization j rel1 rel2 with
                         | Some _ as l => negb (bms_overlap (join_plus_rhs infos j) l)
                         | None => true
                         end in
  later rel2 rel1 = later rel1 rel2.
Proof.
  intros Wi Wj Wn1 Wn2 later. unfold later. clear later. destruct (join_plus_rhs_ok infos j Wi Wj) as (Wp & _).
  destruct (min_parameterization_spec j _ _ Wj Wn1 Wn2) as [[Wa Ma] Na], (min_parameterization_spec j _ _ Wj Wn2 Wn1) as [[Wb Mb] Nb].
  destruct (min_join_parameterization j rel1 rel2) as [a|], (min_join_parameterization j rel2 rel1) as [b|].
  - f_equal. apply eq_true_iff_eq. rewrite !bms_overlap_spec by assumption.
    split; intros (x & X1 & X2); exists x; (split; [exact X1|]); [apply Ma; apply Mb in X2|apply Mb; apply Ma in X2]; tauto.
  - destruct Nb as [Nb _]. destruct Na as [_ Na]. discriminate Na. intros x X. apply Nb; [reflexivity|tauto].
  - destruct Na as [Na _]. destruct Nb as [_ Nb]. discriminate Nb. intros x X. apply Na; [reflexivity|tauto].
  - reflexivity.
Qed.

Lemma nestloop_swapped ph infos st (outer inner : RelNode) b : (match_sjinfo st <> None -> b = negb (reversed st)) ->
  lateral_nestloop_ok ph (matched infos st) b (unique_ified st) outer inner
  = lateral_nestloop_ok ph (matched infos st) (negb (reversed st)) (unique_ified st) outer inner.
Proof. intros E. unfold matched. destruct (match_sjinfo st); [rewrite E by discriminate; reflexivity|reflexivity]. Qed.

Lemma lateral_ok_swap ph infos st : infos_wf infos -> bms_wf j -> node_wf (lg_rel1 st) -> node_wf (lg_rel2 st) ->
  lateral_ok ph infos j (swap_legal st) = lateral_ok ph infos j st.
Proof.
  intros Wi Wj Wn1 Wn2. pose proof (parameterization_swap infos _ _ Wi Wj Wn1 Wn2) as P. cbv beta zeta in P.
  unfold lateral_ok. cbn [lg_rel1 lg_rel2 swap_legal]. change (matched infos (swap_legal st)) with (matched infos st).
  cbn [unique_ified reversed swap_legal]. rewrite andb_comm. destruct (_ && _) eqn:Eb; [reflexivity|].
  rewrite (nestloop_swapped ph infos st (lg_rel2 st) (lg_rel1 st)) by (intros N; destruct (match_sjinfo st); [reflexivity|congruence]).
  assert (lateral_nestloop_ok ph (matched infos st) (negb (match match_sjinfo st with Some _ => negb (reversed st) | None => reversed st end))
            (unique_ified st) (lg_rel1 st) (lg_rel2 st)
          = lateral_nestloop_ok ph (matched infos st) (reversed st) (unique_ified st) (lg_rel1 st) (lg_rel2 st)) as ->.
  { unfold matched. destruct (match_sjinfo st); [rewrite negb_involutive|]; reflexivity. }
  rewrite P. clear Eb P. destruct (bms_overlap (rn_relids (lg_rel1 st)) _), (bms_overlap (rn_relids (lg_rel2 st)) _),
    (lateral_nestloop_ok ph _ (reversed st) _ _ _), (lateral_nestloop_ok ph _ (negb (reversed st)) _ _ _); reflexivity.
Qed.

End swap.

(** C24: join_is_legal gives the same verdict for two relations in either order: it accepts
    both or neither, names the same special join, and asks for a swap in exactly one of
    the two calls if there is one. So make_join_rel has to be called only once for each
    pair, as its callers do. *)
Theorem join_is_legal_symmetric `{Libm, Settings, PathSupport} hasLateral ph infos rel1 rel2 j :
  infos_wf infos -> bms_wf j -> node_wf rel1 -> node_wf rel2 -> bms_overlap (rn_relids rel1) (rn_relids rel2) = false ->
  (exists x, member x (rn_relids rel1)) -> (exists x, member x (rn_relids rel2)) ->
  join_is_legal hasLateral ph infos rel2 rel1 j =
    let! (verdict, rel1', rel2', infos') := join_is_legal hasLateral ph infos rel1 rel2 j in
    Ok (match verdict with
        | Some (Some i, rev) => Some (Some i, negb rev)
        | _ => verdict
        end, rel2', rel1', infos').
Proof.
  intros Wi Wj Wn1 Wn2 Ap N1 N2. unfold join_is_legal.
  change (mkLegalState rel2 rel1 None false false false) with (swap_legal (mkLegalState rel1 rel2 None false false false)).
  rewrite (legal_loop_swap j (rn_relids rel1) (rn_relids rel2) (nw_relids _ Wn1) (nw_relids _ Wn2) Ap N1); [|assumption|assumption|reflexivity..].
  destruct (legal_loop j 0 infos _) as [[[v st] infos']|e] eqn:El; cbn [rbind swap_step]; [|reflexivity].
  destruct (legal_loop_same j infos _ _ _ _ _ El) as (S1 & S2 & Is). cbn [lg_rel1 lg_rel2] in *.
  rewrite lateral_ok_swap; [|eapply infos_wf_info; eassumption|exact Wj|eapply same_rel_wf; eassumption..].
  change (leftjoin_ok infos' (swap_legal st)) with (leftjoin_ok infos' st). f_equal. unfold swap_legal. cbn [lg_rel1 lg_rel2 match_sjinfo reversed].
  destruct (v && _ && _); [|reflexivity]. destruct (match_sjinfo st); reflexivity.
Qed.

(** ** Witnesses *)

(** [a LEFT JOIN LATERAL b LEFT JOIN c], [b] with a reference to [a]. *)
Definition legal_infos : list SpecialJoin :=
  [mkSpecialJoin (mkSpecialJoinInfo (Some [4]) (Some [8]) (Some [4]) (Some [8]) JOIN_LEFT true) (mkSemiInfo false false [] []);
   mkSpecialJoin (mkSpecialJoinInfo (Some [2]) (Some [4]) (Some [2]) (Some [4]) JOIN_LEFT true) (mkSemiInfo false false [] [])].
Definition legal_a : RelNode :=
  mkRelNode sample_rel (only_path search_outer) no_params (mkRelMerge false None) None None (Some [4]) (mkRelAttrs 1 1 [4])
    [Some [1]] (mkForeignRel 0 0 false 0).
Definition legal_b : RelNode :=
  mkRelNode other_rel (only_path search_inner) no_params (mkRelMerge false None) (Some [2]) (Some [2]) None
    (mkRelAttrs 1 1 [4]) [Some [1]] (mkForeignRel 0 0 false 0).

#[local] Existing Instance default_settings.

Ltac words := repeat constructor; cbn; unfold word_ok; lia.

Lemma legal_infos_wf : infos_wf legal_infos.
Proof. words. Qed.

Lemma legal_a_wf : node_wf legal_a.
Proof. words. Qed.

Lemma legal_b_wf : node_wf legal_b.
Proof. words. Qed.

Lemma join_plus_rhs_least_witness :
  join_plus_rhs legal_infos (Some [2]) = Some [14] /\ closed (rules legal_infos) (fun x => member x (Some [14])).
Proof.
  split; [reflexivity|].
  exact (proj1 (proj2 (proj2 (join_plus_rhs_least legal_infos (Some [2]) legal_infos_wf ltac:(words))))).
Defined.

Lemma join_is_legal_sound_witness : exists uniq,
  does (mkSpecialJoinInfo (Some [2]) (Some [4]) (Some [2]) (Some [4]) JOIN_LEFT true) uniq legal_a legal_b
  /\ others_intact (Some [6]) (Some [4]) (Some [2]) legal_infos
       (Some (1%nat, mkSpecialJoinInfo (Some [2]) (Some [4]) (Some [2]) (Some [4]) JOIN_LEFT true)).
Proof.
  destruct (join_is_legal_sound true [] legal_infos legal_b legal_a (Some [6]) (Some 1%nat) true legal_b legal_a legal_infos
    ltac:(vm_compute; reflexivity) legal_infos_wf ltac:(words) legal_b_wf legal_a_wf) as (_ & _ & _ & uniq & (sj & Hi & Hm & Ho) & _).
  exists uniq. injection Hi as <-. split; [exact Hm|exact Ho].
Defined.

Lemma join_is_legal_symmetric_witness :
  join_is_legal true [] legal_infos legal_a legal_b (Some [6]) = Ok (Some (Some 1%nat, false), legal_a, legal_b, legal_infos)
  /\ join_is_legal true [] legal_infos legal_b legal_a (Some [6]) = Ok (Some (Some 1%nat, true), legal_b, legal_a, legal_infos).
Proof.
  assert (join_is_legal true [] legal_infos legal_a legal_b (Some [6]) = Ok (Some (Some 1%nat, false), legal_a, legal_b, legal_infos)) as E
    by (vm_compute; reflexivity).
  split; [exact E|].
  rewrite (join_is_legal_symmetric true [] legal_infos legal_a legal_b (Some [6]) legal_infos_wf ltac:(words) legal_a_wf legal_b_wf eq_refl).
  - rewrite E. reflexivity.
  - exists 1. split; [lia|reflexivity].
  - exists 2. split; [lia|reflexivity].
Defined.
