(* ===== verification/BuildRel.v ===== *)
(** Join relations (optimizer/util/relnode.c, placeholder.c): the table of the join
    relations built so far, and how a new one is made from its inputs. *)
From stdpp Require Import gmap.
From S2P Require Import Prelude Float64 Double Bitmapset BitmapsetSpec PlanTypes CostExpr CostScan CostJoin SizeEst ParamInfo CreatePath MergeKeys JoinPath JoinLegal.
Open Scope Z_scope.

(** ** Data *)

(** Of its ph_var, the expression. *)
Record PlaceHolderInfo := mkPlaceHolderInfo {
  ph_expr : Node;
  ph_eval_at : Relids;
  ph_lateral : Relids;
  ph_needed : Relids;
  ph_width : Z;
}.

(** The members of PlannerInfo that the search over join orders does not change;
    simple_rel_array gives the base relations as positions in the store. *)
Record SearchRoot := mkSearchRoot {
  sr_info : PlannerInfo;
  sr_fkeys : list ForeignKeyOptInfo;
  sr_query_pathkeys : list PathKey;
  sr_placeholders : list PlaceHolderInfo;
  hasLateralRTEs : bool;
  sr_simple_rels : Z -> option nat;
}.

(** The hash table of join relations: by hash value, the entries in order. *)
Abbreviation JoinHash := (gmap Z (list (Relids * nat))) (only parsing).

(** What the search changes: the relations (a pointer is a position in the list), the
    special joins, the list and the hash table of join relations, the lists by level of
    the dynamic programming, the relations of the current problem, and the caches of
    the routines of joinpath.c. *)
Record SearchState := mkSearchState {
  ss_rels : list RelNode;
  ss_infos : list SpecialJoin;
  join_rel_list : list nat;
  join_rel_hash : option JoinHash;
  join_rel_level : option (list (list nat));
  join_cur_level : nat;
  initial_rels : list nat;
  ss_canon : list PathKey;
  ss_scansel : gmap Z (list MergeScanSelCache);
  ss_buckets : gmap Z (Selectivity * Selectivity);
}.

Definition set_rels (st : SearchState) (rels : list RelNode) : SearchState :=
  mkSearchState rels (ss_infos st) (join_rel_list st) (join_rel_hash st) (join_rel_level st) (join_cur_level st)
    (initial_rels st) (ss_canon st) (ss_scansel st) (ss_buckets st).
Definition set_infos (st : SearchState) (infos : list SpecialJoin) : SearchState :=
  mkSearchState (ss_rels st) infos (join_rel_list st) (join_rel_hash st) (join_rel_level st) (join_cur_level st)
    (initial_rels st) (ss_canon st) (ss_scansel st) (ss_buckets st).
Definition set_join_rels (st : SearchState) (l : list nat) (hash : option JoinHash) : SearchState :=
  mkSearchState (ss_rels st) (ss_infos st) l hash (join_rel_level st) (join_cur_level st)
    (initial_rels st) (ss_canon st) (ss_scansel st) (ss_buckets st).
Definition set_levels (st : SearchState) (levels : option (list (list nat))) (cur : nat) : SearchState :=
  mkSearchState (ss_rels st) (ss_infos st) (join_rel_list st) (join_rel_hash st) levels cur
    (initial_rels st) (ss_canon st) (ss_scansel st) (ss_buckets st).
Definition set_initial (st : SearchState) (l : list nat) : SearchState :=
  mkSearchState (ss_rels st) (ss_infos st) (join_rel_list st) (join_rel_hash st) (join_rel_level st) (join_cur_level st)
    l (ss_canon st) (ss_scansel st) (ss_buckets st).
Definition set_caches (st : SearchState) (canon : list PathKey) (scansel : gmap Z (list MergeScanSelCache))
    (buckets : gmap Z (Selectivity * Selectivity)) : SearchState :=
  mkSearchState (ss_rels st) (ss_infos st) (join_rel_list st) (join_rel_hash st) (join_rel_level st) (join_cur_level st)
    (initial_rels st) canon scansel buckets.

(** Load and store through a pointer. *)
Definition rel_at (st : SearchState) (i : nat) : result RelNode := deref (ss_rels st !! i).
Definition set_rel (st : SearchState) (i : nat) (rel : RelNode) : SearchState := set_rels st (<[i := rel]> (ss_rels st)).

Definition set_rn_rel (rel : RelNode) (info : RelOptInfo) : RelNode :=
  mkRelNode info (rn_paths rel) (rn_params rel) (rn_merge rel) (rn_lateral_relids rel) (rn_direct_lateral_relids rel)
    (rn_lateral_referencers rel) (rn_attrs rel) (attr_needed rel) (rn_foreign rel).
Definition set_rn_params (rel : RelNode) (params : RelParams) : RelNode :=
  mkRelNode (rn_rel rel) (rn_paths rel) params (rn_merge rel) (rn_lateral_relids rel) (rn_direct_lateral_relids rel)
    (rn_lateral_referencers rel) (rn_attrs rel) (attr_needed rel) (rn_foreign rel).

(** The array element; an index outside fails an assertion or is undefined. *)
Definition array_at {A} (l : list A) (ndx : Z) : result A :=
  if ndx <? 0 then Error "index out of range"
  else match l !! Z.to_nat ndx with Some x => Ok x | None => Error "index out of range" end.

(** find_base_rel, as a pointer. *)
Definition base_rel (root : SearchRoot) (relid : Z) : result nat :=
  match sr_simple_rels root relid with Some n => Ok n | None => Error "no relation entry for relid" end.

(** The members of PlannerInfo the routines of costsize.c and joinpath.c read. *)
Definition join_root (root : SearchRoot) (st : SearchState) : JoinRoot :=
  mkJoinRoot (sr_fkeys root) (fun relid => n ← sr_simple_rels root relid; rel ← ss_rels st !! n; Some (rn_rel rel)).

Definition eval_sets (root : SearchRoot) : list Relids := map ph_eval_at (sr_placeholders root).

Definition join_planner (root : SearchRoot) (st : SearchState) : JoinPlanner :=
  mkJoinPlanner (sr_info root) (join_root root st) (sr_query_pathkeys root) (map sj_info (ss_infos st)) (eval_sets root).

(** ** The join relations built so far *)

(** The hash function of the table (bitmap_hash) and the current user. *)
Class SearchSupport := {
  hash_any : list Z -> Z;
  GetUserId : Oid;
  fdw_GetForeignJoinPaths : Z -> option (RelPaths -> RelPaths);
}.

Section joinrels.
Context `{SearchSupport}.

(** hash_search with bitmap_hash and bitmap_match: HASH_FIND. *)
Definition hash_find (hash : JoinHash) (relids : Relids) : option nat :=
  snd <$> List.find (fun e => bms_equal e.1 relids) (default [] (hash !! bms_hash_value hash_any relids)).

(** HASH_ENTER, and the assignment to the entry's join_rel. *)
Definition hash_enter (hash : JoinHash) (relids : Relids) (rel : nat) : JoinHash :=
  let h := bms_hash_value hash_any relids in
  let chain := default [] (hash !! h) in
  let set_entry e := if bms_equal e.1 relids then (e.1, rel) else e in
  <[h := if existsb (fun e => bms_equal e.1 relids) chain then map set_entry chain else chain ++ [(relids, rel)]]> hash.

Fixpoint hash_all (st : SearchState) (l : list nat) (hash : JoinHash) : result JoinHash :=
  match l with
  | [] => Ok hash
  | r :: l => let! rel := rel_at st r in hash_all st l (hash_enter hash (rn_relids rel) r)
  end.

Definition build_join_rel_hash (st : SearchState) : result SearchState :=
  let! hash := hash_all st (join_rel_list st) ∅ in
  Ok (set_join_rels st (join_rel_list st) (Some hash)).

Fixpoint find_in_list (st : SearchState) (l : list nat) (relids : Relids) : result (option nat) :=
  match l with
  | [] => Ok None
  | r :: l => let! rel := rel_at st r in if bms_equal (rn_relids rel) relids then Ok (Some r) else find_in_list st l relids
  end.

Definition find_join_rel (relids : Relids) (st : SearchState) : result (SearchState * option nat) :=
  let! st := if bool_decide (join_rel_hash st = None) && (32 <? length (join_rel_list st))%nat then build_join_rel_hash st
             else Ok st in
  match join_rel_hash st with
  | Some hash => Ok (st, hash_find hash relids)
  | None => let! r := find_in_list st (join_rel_list st) relids in Ok (st, r)
  end.

Definition add_join_rel (joinrel : nat) (st : SearchState) : result SearchState :=
  let! rel := rel_at st joinrel in
  Ok (set_join_rels st (join_rel_list st ++ [joinrel])
        ((fun hash => hash_enter hash (rn_relids rel) joinrel) <$> join_rel_hash st)).

(** The foreign-join members of a new join relation. *)
Definition set_foreign_rel_properties (outer inner : ForeignRel) : ForeignRel :=
  if negb (serverid outer =? 0) && (serverid inner =? serverid outer) then
    if userid inner =? userid outer
    then mkForeignRel (serverid outer) (userid outer) (useridiscurrent outer || useridiscurrent inner) (fdwroutine outer)
    else if (userid inner =? 0) && (userid outer =? GetUserId)
    then mkForeignRel (serverid outer) (userid outer) true (fdwroutine outer)
    else if (userid outer =? 0) && (userid inner =? GetUserId)
    then mkForeignRel (serverid outer) (userid inner) true (fdwroutine outer)
    else mkForeignRel 0 0 false 0
  else mkForeignRel 0 0 false 0.

End joinrels.

(** ** Clauses *)

(** list.c: list_append_unique_ptr. *)
Definition list_append_unique_ptr (l : list RestrictInfo) (r : RestrictInfo) : list RestrictInfo :=
  if list_member_ptr l r then l else l ++ [r].

(** subbuild_joinrel_restrictlist and subbuild_joinrel_joinlist. *)
Definition subbuild_joinrel_restrictlist (relids : Relids) (joininfo_list new_restrictlist : list RestrictInfo) : list RestrictInfo :=
  foldl (fun l r => if bms_is_subset (required_relids r) relids then list_append_unique_ptr l r else l) new_restrictlist joininfo_list.

Definition subbuild_joinrel_joinlist (relids : Relids) (joininfo_list new_joininfo : list RestrictInfo) : list RestrictInfo :=
  foldl (fun l r => if bms_is_subset (required_relids r) relids then l else list_append_unique_ptr l r) new_joininfo joininfo_list.

Definition build_joinrel_joinlist (relids : Relids) (outer_rel inner_rel : RelNode) : list RestrictInfo :=
  let result := subbuild_joinrel_joinlist relids (joininfo (rn_params outer_rel)) [] in
  subbuild_joinrel_joinlist relids (joininfo (rn_params inner_rel)) result.

Definition build_joinrel_restrictlist `{Equivalences} (relids : Relids) (outer_rel inner_rel : RelNode) : list RestrictInfo :=
  let result := subbuild_joinrel_restrictlist relids (joininfo (rn_params outer_rel)) [] in
  let result := subbuild_joinrel_restrictlist relids (joininfo (rn_params inner_rel)) result in
  result ++ generate_join_implied_equalities relids (rn_relids outer_rel) (rn_rel inner_rel).

(** ** The target list *)

Definition create_empty_pathtarget : PathTarget := mkPathTarget [] zero_qual_cost 0.

(** The loop of build_joinrel_tlist: the columns still needed above the join. *)
Fixpoint build_joinrel_tlist (root : SearchRoot) (st : SearchState) (relids : Relids) (vars : list Node) (target : PathTarget)
    : result PathTarget :=
  match vars with
  | [] => Ok target
  | PlaceHolderVar _ :: vars => build_joinrel_tlist root st relids vars target
  | Var varno varattno :: vars =>
      let! n := base_rel root varno in
      let! baserel := rel_at st n in
      let ndx := varattno - min_attr (rn_attrs baserel) in
      let! needed := array_at (attr_needed baserel) ndx in
      if bms_nonempty_difference needed relids then
        let! w := array_at (attr_widths (rn_attrs baserel)) ndx in
        build_joinrel_tlist root st relids vars
          (mkPathTarget (exprs target ++ [Var varno varattno]) (target_cost target) (wrap32 (width target + w)))
      else build_joinrel_tlist root st relids vars target
  | _ :: _ => Error "unexpected node type in rel targetlist"
  end.

(** placeholder.c: the target and direct_lateral_relids of the join relation. *)
Fixpoint add_placeholders_to_joinrel `{Settings, Catalog} (relids outer_relids inner_relids : Relids) (infos : list PlaceHolderInfo)
    (target : PathTarget) (direct_lateral_relids : Relids) : result (PathTarget * Relids) :=
  match infos with
  | [] => Ok (target, direct_lateral_relids)
  | phinfo :: infos =>
      if bms_nonempty_difference (ph_needed phinfo) relids && bms_is_subset (ph_eval_at phinfo) relids then
        let! cost :=
          if negb (bms_is_subset (ph_eval_at phinfo) outer_relids) && negb (bms_is_subset (ph_eval_at phinfo) inner_relids)
          then let! (_, cost) := cost_qual_eval_node (ph_expr phinfo) in Ok (charge (target_cost target) cost)
          else Ok (target_cost target) in
        add_placeholders_to_joinrel relids outer_relids inner_relids infos
          (mkPathTarget (exprs target ++ [PlaceHolderVar (ph_expr phinfo)]) cost (wrap32 (width target + ph_width phinfo)))
          (bms_add_members direct_lateral_relids (ph_lateral phinfo))
      else add_placeholders_to_joinrel relids outer_relids inner_relids infos target direct_lateral_relids
  end.

(** ** build_join_rel *)

Definition new_rel_paths : RelPaths := mkRelPaths [] [] None None None [].

(** The RelOptInfo before its size is estimated. *)
Definition new_join_rel (root : SearchRoot) (joinrelids : Relids) (target : PathTarget) : RelOptInfo :=
  {| reloptkind := RELOPT_JOINREL; relids := joinrelids; rel_rows := i2d 0;
     consider_startup := (tuple_fraction (sr_info root) >? i2d 0)%D; consider_param_startup := false;
     consider_parallel := false; reltarget := target; relid := 0; reltablespace := 0; rtekind := RTE_JOIN;
     pages := 0; tuples := i2d 0; allvisfrac := i2d 0; rel_parallel_workers := -1;
     baserestrictinfo := []; baserestrictcost := zero_qual_cost |}.

Definition set_consider_parallel (rel : RelOptInfo) (b : bool) : RelOptInfo :=
  {| reloptkind := reloptkind rel; relids := relids rel; rel_rows := rel_rows rel;
     consider_startup := consider_startup rel; consider_param_startup := consider_param_startup rel;
     consider_parallel := b; reltarget := reltarget rel; relid := relid rel;
     reltablespace := reltablespace rel; rtekind := rtekind rel; pages := pages rel; tuples := tuples rel;
     allvisfrac := allvisfrac rel; rel_parallel_workers := rel_parallel_workers rel;
     baserestrictinfo := baserestrictinfo rel; baserestrictcost := baserestrictcost rel |}.

Section build.
Context `{Settings, Catalog, Estimator, Equivalences, PathSupport, EClasses, SearchSupport}.

(** The node of a join that is not there yet, and its restriction clauses. *)
Definition make_join_node (root : SearchRoot) (joinrelids : Relids) (outer_rel inner_rel : RelNode) (sjinfo : SpecialJoinInfo)
    (st : SearchState) : result (RelNode * list RestrictInfo) :=
  let relids := bms_copy joinrelids in
  let direct_lateral := bms_union (rn_direct_lateral_relids outer_rel) (rn_direct_lateral_relids inner_rel) in
  let lateral := min_join_parameterization relids outer_rel inner_rel in
  let! target := build_joinrel_tlist root st relids (exprs (reltarget (rn_rel outer_rel))) create_empty_pathtarget in
  let! target := build_joinrel_tlist root st relids (exprs (reltarget (rn_rel inner_rel))) target in
  let! (target, direct_lateral) := add_placeholders_to_joinrel relids (rn_relids outer_rel) (rn_relids inner_rel)
                                     (sr_placeholders root) target direct_lateral in
  let direct_lateral := bms_del_members direct_lateral relids in
  let direct_lateral := if bms_is_empty direct_lateral then None else direct_lateral in
  let restrictlist := build_joinrel_restrictlist relids outer_rel inner_rel in
  let joinlist := build_joinrel_joinlist relids outer_rel inner_rel in
  let eclass_joins := has_relevant_eclass_joinclause relids in
  let! rel := set_joinrel_size_estimates (join_root root st) (new_join_rel root relids target) (rn_rel outer_rel)
                (rn_rel inner_rel) sjinfo restrictlist in
  let parallel := consider_parallel (rn_rel inner_rel) && consider_parallel (rn_rel outer_rel)
                  && is_parallel_safe (qual_nodes restrictlist) && is_parallel_safe (exprs (reltarget rel)) in
  Ok (mkRelNode (set_consider_parallel rel parallel) new_rel_paths (mkRelParams joinlist []) (mkRelMerge eclass_joins None)
        lateral direct_lateral None (mkRelAttrs 0 0 []) [] (set_foreign_rel_properties (rn_foreign outer_rel) (rn_foreign inner_rel)),
      restrictlist).

(** The new relation goes to the list of the current level, if there are levels. *)
Definition add_to_level (joinrel : nat) (st : SearchState) : result SearchState :=
  match join_rel_level st with
  | None => Ok st
  | Some levels =>
      let! rels := defined (levels !! join_cur_level st) in
      Ok (set_levels st (Some (<[join_cur_level st := rels ++ [joinrel]]> levels)) (join_cur_level st))
  end.

(** The relation of the join, and the restriction clauses of this pair of inputs. *)
Definition build_join_rel (root : SearchRoot) (joinrelids : Relids) (outer_rel inner_rel : nat) (sjinfo : SpecialJoinInfo)
    (st : SearchState) : result (SearchState * nat * list RestrictInfo) :=
  let! outer := rel_at st outer_rel in
  let! inner := rel_at st inner_rel in
  let! (st, found) := find_join_rel joinrelids st in
  match found with
  | Some joinrel =>
      let! rel := rel_at st joinrel in
      Ok (st, joinrel, build_joinrel_restrictlist (rn_relids rel) outer inner)
  | None =>
      let! (rel, restrictlist) := make_join_node root joinrelids outer inner sjinfo st in
      let joinrel := length (ss_rels st) in
      let st := set_rels st (ss_rels st ++ [rel]) in
      let! st := add_join_rel joinrel st in
      let! st := add_to_level joinrel st in
      Ok (st, joinrel, restrictlist)
  end.

End build.
