(* ===== verification/BuildRelSpec.v ===== *)
(** What the table of join relations and build_join_rel guarantee: lookups by hash and by
    list agree, and the clauses of a join are distributed over its restriction list and
    its join list without loss. *)
From stdpp Require Import gmap.
From S2P Require Import Prelude Float64 Double Bitmapset BitmapsetSpec PlanTypes Samples CostExpr CostScan CostJoin SizeEst ParamInfo CreatePath MergeKeys MergeKeysSpec JoinPath JoinSearchSpec JoinLegal JoinLegalSpec BuildRel.
Open Scope Z_scope.

(** ** Lookup of join relations *)

Section lookup.
Context `{SearchSupport}.

(** The join relations with their sets. *)
Definition entry (st : SearchState) (r : nat) (e : Relids * nat) : Prop :=
  exists rel, ss_rels st !! r = Some rel /\ e = (rn_relids rel, r).

(** The hash table holds the entries, each under its hash value. *)
Definition hash_holds (hash : JoinHash) (entries : list (Relids * nat)) : Prop :=
  forall h, default [] (hash !! h) = List.filter (fun e => (bms_hash_value hash_any e.1 =? h)%Z) entries.

(** The list has no relation twice, and the hash table is in step with it. *)
Record table_ok (st : SearchState) (entries : list (Relids * nat)) : Prop := {
  tb_entries : Forall2 (entry st) (join_rel_list st) entries;
  tb_wf : Forall (fun e => bms_wf e.1) entries;
  tb_distinct : forall i j e e', entries !! i = Some e -> entries !! j = Some e' -> bms_equal e.1 e'.1 = true -> i = j;
  tb_hash : match join_rel_hash st with Some hash => hash_holds hash entries | None => True end;
}.

(** The reference: the entry with the set. *)
Definition find_entry (entries : list (Relids * nat)) (relids : Relids) : option nat :=
  snd <$> List.find (fun e => bms_equal e.1 relids) entries.

Lemma find_filter {A} (f g : A -> bool) l : (forall x, x ∈ l -> f x = true -> g x = true) ->
  List.find f (List.filter g l) = List.find f l.
Proof.
  induction l as [|x l IH]; intros I; [reflexivity|]. cbn [List.filter List.find].
  assert (List.find f (List.filter g l) = List.find f l) as E by (apply IH; intros y Hy; apply I; right; exact Hy).
  destruct (f x) eqn:F; [rewrite (I x (list_elem_of_here x l) F); cbn [List.find]; rewrite F; reflexivity|].
  destruct (g x); cbn [List.find]; [rewrite F|]; exact E.
Qed.

Lemma hash_find_entry hash entries relids : hash_holds hash entries -> Forall (fun e => bms_wf e.1) entries -> bms_wf relids ->
  hash_find hash relids = find_entry entries relids.
Proof.
  intros Hh Hw Hr. unfold hash_find, find_entry. rewrite Hh. f_equal. apply find_filter. intros e He E.
  rewrite Forall_forall in Hw. apply Z.eqb_eq, bms_hash_equal; [exact (Hw e He)|exact Hr|exact E].
Qed.

Lemma hash_enter_new hash entries relids r : hash_holds hash entries -> Forall (fun e => bms_wf e.1) entries -> bms_wf relids ->
  find_entry entries relids = None -> hash_holds (hash_enter hash relids r) (entries ++ [(relids, r)]).
Proof.
  intros Hh Hw Hr Hn h. unfold hash_enter. set (h0 := bms_hash_value hash_any relids).
  assert (existsb (fun e => bms_equal e.1 relids) (default [] (hash !! h0)) = false) as ->.
  { rewrite Hh. apply not_true_iff_false. intros E. apply existsb_exists in E as (e & He & E). apply filter_In in He as [He _].
    unfold find_entry in Hn. destruct (List.find _ entries) eqn:F; [discriminate|]. rewrite (List.find_none _ _ F e He) in E. discriminate. }
  rewrite List.filter_app. cbn [List.filter fst]. fold h0. destruct (Z.eqb_spec h0 h) as [<-|N].
  - rewrite lookup_insert_eq. cbn [default]. rewrite Hh. reflexivity.
  - rewrite lookup_insert_ne by exact N. rewrite Hh, app_nil_r. reflexivity.
Qed.

Lemma find_entry_app l l' relids :
  find_entry (l ++ l') relids = match find_entry l relids with Some r => Some r | None => find_entry l' relids end.
Proof.
  unfold find_entry. induction l as [|e l IH]; [reflexivity|]. cbn [app List.find]. destruct (bms_equal e.1 relids); [reflexivity|exact IH].
Qed.

Lemma find_entry_some entries relids r : find_entry entries relids = Some r ->
  exists i e, entries !! i = Some e /\ e.2 = r /\ bms_equal e.1 relids = true.
Proof.
  unfold find_entry. destruct (List.find _ entries) as [e|] eqn:F; [|discriminate]. intros [= <-].
  apply List.find_some in F as [Hin E]. apply list_elem_of_In, list_elem_of_lookup in Hin as [i Hi]. eauto.
Qed.

Lemma find_entry_none entries relids i e : find_entry entries relids = None -> entries !! i = Some e -> bms_equal e.1 relids = false.
Proof.
  unfold find_entry. destruct (List.find _ entries) eqn:F; [discriminate|]. intros _ Hi.
  apply (List.find_none _ _ F). apply list_elem_of_In. eapply list_elem_of_lookup_2, Hi.
Qed.

Lemma list_find_entry st l entries relids : Forall2 (entry st) l entries ->
  find_in_list st l relids = Ok (find_entry entries relids).
Proof.
  induction 1 as [|r e l entries (rel & Hr & ->) _ IH]; [reflexivity|].
  cbn [find_in_list]. unfold rel_at. rewrite Hr. cbn [deref rbind]. unfold find_entry. cbn [List.find fst].
  destruct (bms_equal _ relids); [reflexivity|exact IH].
Qed.

(** Filling the table from the list. *)
Lemma hash_all_holds st l done hash entries : Forall2 (entry st) l entries -> Forall (fun e => bms_wf e.1) (done ++ entries) ->
  (forall i j e e', (done ++ entries) !! i = Some e -> (done ++ entries) !! j = Some e' -> bms_equal e.1 e'.1 = true -> i = j) ->
  hash_holds hash done -> exists hash', hash_all st l hash = Ok hash' /\ hash_holds hash' (done ++ entries).
Proof.
  intros F. revert done hash. induction F as [|r e l entries (rel & Hr & ->) F IH]; intros done hash Hw Hd Hh; cbn [hash_all].
  { rewrite app_nil_r. eauto. }
  unfold rel_at. rewrite Hr. cbn [deref rbind]. rewrite cons_middle, app_assoc in *.
  apply IH; [exact Hw|exact Hd|]. apply Forall_app in Hw as [Hw _]. apply Forall_app in Hw as [Hw Hr'].
  rewrite Forall_singleton in Hr'. apply hash_enter_new; [exact Hh|exact Hw|exact Hr'|].
  destruct (find_entry done (rn_relids rel)) eqn:Fe; [|reflexivity]. apply find_entry_some in Fe as (i & e & Hi & _ & E).
  enough (i = length done) by (apply lookup_lt_Some in Hi; lia).
  apply (Hd i (length done) e (rn_relids rel, r)); [..|exact E].
  - apply lookup_app_l_Some, lookup_app_l_Some, Hi.
  - apply lookup_app_l_Some. rewrite lookup_app_r, Nat.sub_diag by reflexivity. reflexivity.
Qed.

(** The state with another hash table. *)
Definition with_hash (st : SearchState) (hash : option JoinHash) : SearchState := set_join_rels st (join_rel_list st) hash.

Lemma with_hash_table st entries hash : table_ok st entries -> hash_holds hash entries -> table_ok (with_hash st (Some hash)) entries.
Proof. intros [E W D _] Hh. split; assumption. Qed.

Lemma find_join_rel_ok st entries relids : table_ok st entries -> bms_wf relids ->
  exists hash, find_join_rel relids st = Ok (with_hash st hash, find_entry entries relids) /\ table_ok (with_hash st hash) entries.
Proof.
  intros T Hr. pose proof T as [Te Tw Td Th]. unfold find_join_rel.
  destruct (bool_decide (join_rel_hash st = None) && _) eqn:B.
  - destruct (hash_all_holds st (join_rel_list st) [] ∅ entries Te Tw Td) as (hash & E & Hh); [intros h; rewrite lookup_empty; reflexivity|].
    unfold build_join_rel_hash. rewrite E. cbn [rbind join_rel_hash set_join_rels]. exists (Some hash).
    rewrite (hash_find_entry hash entries relids Hh Tw Hr). split; [reflexivity|apply with_hash_table; assumption].
  - cbn [rbind]. exists (join_rel_hash st). assert (with_hash st (join_rel_hash st) = st) as -> by (destruct st; reflexivity).
    destruct (join_rel_hash st) as [hash|].
    + rewrite (hash_find_entry hash entries relids Th Tw Hr). split; [reflexivity|exact T].
    + rewrite (list_find_entry st _ entries relids Te). split; [reflexivity|exact T].
Qed.

Lemma add_join_rel_ok st entries r rel : table_ok st entries -> ss_rels st !! r = Some rel -> bms_wf (rn_relids rel) ->
  find_entry entries (rn_relids rel) = None ->
  exists hash, add_join_rel r st = Ok (set_join_rels st (join_rel_list st ++ [r]) hash)
    /\ table_ok (set_join_rels st (join_rel_list st ++ [r]) hash) (entries ++ [(rn_relids rel, r)]).
Proof.
  intros [Te Tw Td Th] Hr Wr Hn. unfold add_join_rel, rel_at. rewrite Hr. cbn [deref rbind]. eexists. split; [reflexivity|].
  split; cbn [join_rel_list join_rel_hash set_join_rels ss_rels].
  - apply Forall2_app; [exact Te|]. constructor; [|constructor]. exists rel. auto.
  - apply Forall_app. split; [exact Tw|]. constructor; [exact Wr|constructor].
  - intros i j e e' Hi Hj E.
    apply lookup_app_Some in Hi as [Hi|[Hi1 Hi]], Hj as [Hj|[Hj1 Hj]].
    + eauto.
    + apply list_lookup_singleton_Some in Hj as [_ <-]. pose proof (find_entry_none _ _ _ _ Hn Hi) as N. cbn [fst] in E. congruence.
    + apply list_lookup_singleton_Some in Hi as [_ <-]. pose proof (find_entry_none _ _ _ _ Hn Hj) as N. cbn [fst] in E.
      rewrite Forall_forall in Tw. assert (bms_wf e'.1) as We by (eapply Tw, list_elem_of_lookup_2, Hj).
      rewrite bms_equal_val in E, N by assumption. rewrite Z.eqb_sym in E. congruence.
    + apply list_lookup_singleton_Some in Hi as [Hi _], Hj as [Hj _]. lia.
  - destruct (join_rel_hash st); [|exact I]. cbn [fmap option_fmap option_map]. apply hash_enter_new; assumption.
Qed.


(** Work between the calls: relations may be added and their members change, but not
    their sets of relations, nor the list and the hash table. *)
Record other_work (st st' : SearchState) : Prop := {
  ow_list : join_rel_list st' = join_rel_list st;
  ow_hash : join_rel_hash st' = join_rel_hash st;
  ow_sets : forall r rel, ss_rels st !! r = Some rel -> exists rel', ss_rels st' !! r = Some rel' /\ rn_relids rel' = rn_relids rel;
}.

(** The states a search reaches from an empty list without a hash table, by looking up
    sets and by adding, as build_join_rel does, a relation for a set that was not found. *)
Inductive searched : SearchState -> Prop :=
| searched_start st : join_rel_list st = [] -> join_rel_hash st = None -> searched st
| searched_work st st' : searched st -> other_work st st' -> searched st'
| searched_find st relids st' r : searched st -> bms_wf relids -> find_join_rel relids st = Ok (st', r) -> searched st'
| searched_add st st1 st2 st3 r rel : searched st -> bms_wf (rn_relids rel) ->
    find_join_rel (rn_relids rel) st = Ok (st1, None) -> other_work st1 st2 -> ss_rels st2 !! r = Some rel ->
    add_join_rel r st2 = Ok st3 -> searched st3.

Lemma work_table st st' entries : table_ok st entries -> other_work st st' -> table_ok st' entries.
Proof.
  intros [Te Tw Td Th] [Wl Wh Ws]. split; [rewrite Wl|exact Tw|exact Td|rewrite Wh; exact Th].
  eapply Forall2_impl; [exact Te|]. intros r e (rel & Hr & ->). destruct (Ws r rel Hr) as (rel' & Hr' & <-). exists rel'. auto.
Qed.

Lemma searched_table st : searched st -> exists entries, table_ok st entries.
Proof.
  induction 1 as [st L Hh|st st' _ [entries T] W|st relids st' r _ [entries T] Wr E|st st1 st2 st3 r rel _ [entries T] Wr E W Hr Ea].
  - exists []. split; [rewrite L; constructor|constructor|intros i j e e' Hi; discriminate|rewrite Hh; exact I].
  - exists entries. exact (work_table _ _ _ T W).
  - destruct (find_join_rel_ok st entries relids T Wr) as (hash & E' & T'). rewrite E' in E. injection E as <- _. eauto.
  - destruct (find_join_rel_ok st entries _ T Wr) as (hash & E' & T'). rewrite E' in E. injection E as <- Fe.
    destruct (add_join_rel_ok st2 entries r rel (work_table _ _ _ T' W) Hr Wr Fe) as (hash' & Ea' & T2).
    rewrite Ea' in Ea. injection Ea as <-. eauto.
Qed.

(** A long list has a hash table after a lookup. *)
Lemma find_join_rel_hashed st relids hash r : find_join_rel relids st = Ok (with_hash st hash, r) ->
  (32 < length (join_rel_list st))%nat -> hash <> None.
Proof.
  intros E L ->. unfold find_join_rel in E. apply Nat.ltb_lt in L. rewrite L, andb_true_r in E.
  destruct (join_rel_hash st) as [h|] eqn:Eh; cbn [bool_decide decide] in E.
  - rewrite bool_decide_false in E by discriminate. cbn [rbind] in E. rewrite Eh in E. injection E as E _.
    apply (f_equal join_rel_hash) in E. rewrite Eh in E. discriminate.
  - rewrite bool_decide_true in E by reflexivity. apply rbind_ok in E as (st1 & E1 & E). unfold build_join_rel_hash in E1.
    apply rbind_ok in E1 as (h & _ & E1). injection E1 as <-. cbn [join_rel_hash set_join_rels] in E. injection E as E _.
    discriminate.
Qed.

(** The relation at a place of the list has the set. *)
Definition has_set (st : SearchState) (i : nat) (relids : Relids) : Prop :=
  exists r rel, join_rel_list st !! i = Some r /\ ss_rels st !! r = Some rel /\ bms_equal (rn_relids rel) relids = true.

Lemma table_sets_distinct st entries i j relids : table_ok st entries -> bms_wf relids ->
  has_set st i relids -> has_set st j relids -> i = j.
Proof.
  intros [Te Tw Td _] Wr (r & rel & Hi & Hr & E) (r' & rel' & Hj & Hr' & E').
  destruct (Forall2_lookup_l _ _ _ _ _ Te Hi) as (e & Hie & x & Hx & ->), (Forall2_lookup_l _ _ _ _ _ Te Hj) as (e' & Hje & y & Hy & ->).
  simplify_eq. apply (Td i j _ _ Hie Hje). cbn [fst]. rewrite Forall_forall in Tw.
  pose proof (Tw _ (list_elem_of_lookup_2 _ _ _ Hie)) as Wi. pose proof (Tw _ (list_elem_of_lookup_2 _ _ _ Hje)) as Wj. cbn [fst] in Wi, Wj.
  rewrite bms_equal_val in * by assumption. apply Z.eqb_eq in E, E'. apply Z.eqb_eq. congruence.
Qed.

(** The answer: the relation at the place that has the set, or none. *)
Definition answer (st : SearchState) (relids : Relids) (r : option nat) : Prop :=
  match r with
  | Some r => exists i, join_rel_list st !! i = Some r /\ has_set st i relids
  | None => forall i, ~ has_set st i relids
  end.

Lemma find_entry_answer st entries relids : table_ok st entries -> answer st relids (find_entry entries relids).
Proof.
  intros [F _ _ _]. unfold answer. destruct (find_entry entries relids) as [r|] eqn:Fe.
  - apply find_entry_some in Fe as (i & e & Hi & <- & Eq). destruct (Forall2_lookup_r _ _ _ _ _ F Hi) as (r & Hl & rel & Hrel & ->).
    exists i. split; [exact Hl|]. exists r, rel. auto.
  - intros i (r & rel & Hl & Hrel & E). destruct (Forall2_lookup_l _ _ _ _ _ F Hl) as (e & Hi & rel' & Hrel' & ->).
    simplify_eq. pose proof (find_entry_none _ _ _ _ Fe Hi) as N. cbn [fst] in N. congruence.
Qed.

(** C22: The table of join relations, after any sequence of lookups and additions that
    starts with an empty list: no set of relations has two join relations; find_join_rel
    succeeds and returns the one that has the set or none, the same as a search in the
    list, although it builds the hash table when the list has more than 32 members and
    then looks into the table only; and a relation that is added for a set that was not
    found is found by the next lookup of that set. *)
Theorem find_join_rel_spec st relids : searched st -> bms_wf relids ->
  (forall i j s, bms_wf s -> has_set st i s -> has_set st j s -> i = j)
  /\ exists hash r, find_join_rel relids st = Ok (with_hash st hash, r)
    /\ ((32 < length (join_rel_list st))%nat -> hash <> None)
    /\ find_in_list st (join_rel_list st) relids = Ok r
    /\ answer st relids r
    /\ (r = None -> forall st1 new rel, other_work (with_hash st hash) st1 -> ss_rels st1 !! new = Some rel -> rn_relids rel = relids ->
        exists st2 hash2, add_join_rel new st1 = Ok st2 /\ join_rel_list st2 = join_rel_list st ++ [new]
          /\ find_join_rel relids st2 = Ok (with_hash st2 hash2, Some new)).
Proof.
  intros S Hr. destruct (searched_table st S) as [entries T].
  split; [intros i j s Ws; exact (table_sets_distinct st entries i j s T Ws)|].
  destruct (find_join_rel_ok st entries relids T Hr) as (hash & E & T'). exists hash, (find_entry entries relids).
  split_and!; [exact E|exact (find_join_rel_hashed _ _ _ _ E)|apply list_find_entry, T|exact (find_entry_answer _ _ _ T)|].
  intros Fe st1 new rel W Hnew <-.
  destruct (add_join_rel_ok st1 entries new rel (work_table _ _ _ T' W) Hnew Hr Fe) as (hash2 & Ea & T2).
  destruct (find_join_rel_ok _ _ (rn_relids rel) T2 Hr) as (hash3 & E3 & _).
  eexists _, hash3. split_and!; [exact Ea|cbn [join_rel_list set_join_rels]; rewrite (ow_list _ _ W); reflexivity|].
  rewrite E3, find_entry_app, Fe. unfold find_entry. cbn [List.find fst]. rewrite bms_equal_val, Z.eqb_refl by assumption. reflexivity.
Qed.

(** Looking up and adding each relation in turn. *)
Fixpoint enter_all (rs : list nat) (st : SearchState) : result SearchState :=
  match rs with
  | [] => Ok st
  | r :: rs =>
      let! rel := rel_at st r in
      let! p := find_join_rel (rn_relids rel) st in
      match p.2 with
      | Some _ => Error "the set has a relation"
      | None => let! st := add_join_rel r p.1 in enter_all rs st
      end
  end.

Lemma enter_all_searched rs st st' : (forall r rel, ss_rels st !! r = Some rel -> bms_wf (rn_relids rel)) -> searched st ->
  enter_all rs st = Ok st' -> searched st'.
Proof.
  revert st. induction rs as [|r rs IH]; intros st Ws S E; cbn [enter_all] in E; [congruence|].
  apply rbind_ok in E as (rel & Er & E). unfold rel_at in Er. destruct (ss_rels st !! r) as [x|] eqn:Hr; [injection Er as ->|discriminate].
  apply rbind_ok in E as ([st1 q] & Ef & E). cbn [fst snd] in E. destruct q; [discriminate|]. apply rbind_ok in E as (st2 & Ea & E).
  destruct (searched_table st S) as [entries T]. destruct (find_join_rel_ok st entries _ T (Ws r rel Hr)) as (hash & Ef' & _).
  pose proof Ef as Ef0. rewrite Ef' in Ef0. injection Ef0 as <- _.
  assert (ss_rels st2 = ss_rels st) as Es.
  { unfold add_join_rel in Ea. apply rbind_ok in Ea as (y & _ & Ea). injection Ea as <-. reflexivity. }
  apply (IH st2); [rewrite Es; exact Ws| |exact E].
  apply (searched_add st (with_hash st hash) (with_hash st hash) st2 r rel S (Ws r rel Hr) Ef); [|exact Hr|exact Ea].
  split; [reflexivity..|eauto].
Qed.

End lookup.

(** ** The clauses of a join *)

Section clauses.
Context (query : list RestrictInfo).

(** No clause twice. *)
Definition distinct (l : list RestrictInfo) : Prop := NoDup (map ri_ptr l).

(** The clauses of the query: a pointer stands for one clause. *)
Record query_clauses : Prop := {
  qc_ptr : forall a b, a ∈ query -> b ∈ query -> ri_ptr a = ri_ptr b -> a = b;
  qc_wf : forall c, c ∈ query -> bms_wf (required_relids c);
}.
Context (Qc : query_clauses).

Lemma list_append_unique_spec l r : l ⊆ query -> r ∈ query -> distinct l ->
  distinct (list_append_unique_ptr l r) /\ forall x, x ∈ list_append_unique_ptr l r <-> x ∈ l \/ x = r.
Proof.
  intros Hl Hr Hd. unfold list_append_unique_ptr. destruct (list_member_ptr l r) eqn:M.
  - split; [exact Hd|]. intros x. split; [auto|]. intros [Hx| ->]; [exact Hx|].
    apply existsb_exists in M as (y & Hy & E). apply list_elem_of_In in Hy. apply Z.eqb_eq in E.
    rewrite <- (qc_ptr Qc y r (Hl y Hy) Hr E). exact Hy.
  - split.
    + unfold distinct. rewrite map_app. cbn [map]. apply NoDup_app. split_and!; [exact Hd| |apply NoDup_singleton].
      intros p Hp E. apply list_elem_of_singleton in E as ->. apply list_elem_of_In, in_map_iff in Hp as (y & E & Hy).
      apply not_true_iff_false in M. apply M, existsb_exists. exists y. split; [exact Hy|apply Z.eqb_eq, E].
    + intros x. rewrite elem_of_app, list_elem_of_singleton. reflexivity.
Qed.

(** Collecting the clauses of a list that pass a test. *)
Lemma collect_spec (f : RestrictInfo -> bool) infos : forall l, l ⊆ query -> infos ⊆ query -> distinct l ->
  let l' := foldl (fun l r => if f r then list_append_unique_ptr l r else l) l infos in
  distinct l' /\ forall x, x ∈ l' <-> x ∈ l \/ (x ∈ infos /\ f x = true).
Proof.
  induction infos as [|r infos IH]; intros l Hl Hi Hd; cbn [foldl].
  { split; [exact Hd|]. intros x. split; [auto|]. intros [Hx|[Hx _]]; [exact Hx|inversion Hx]. }
  assert (r ∈ query) as Hr by (apply Hi; left). assert (infos ⊆ query) as Hi' by (intros y Hy; apply Hi; right; exact Hy).
  destruct (f r) eqn:F.
  - destruct (list_append_unique_spec l r Hl Hr Hd) as [Hd' Hx'].
    destruct (IH (list_append_unique_ptr l r)) as [D E]; [|exact Hi'|exact Hd'|].
    { intros y Hy. apply Hx' in Hy as [Hy| ->]; auto. }
    split; [exact D|]. intros x. rewrite E, Hx', elem_of_cons. split; [|tauto]. intros [[?| ->]|?]; tauto.
  - destruct (IH l Hl Hi' Hd) as [D E]. split; [exact D|]. intros x. rewrite E, elem_of_cons. split; [tauto|].
    intros [?|[[-> |?] ?]]; [tauto|congruence|tauto].
Qed.

Lemma collect_within (f : RestrictInfo -> bool) infos l : l ⊆ query -> infos ⊆ query -> distinct l ->
  let l' := foldl (fun l r => if f r then list_append_unique_ptr l r else l) l infos in l' ⊆ query /\ distinct l'.
Proof.
  intros Hl Hi Hd. destruct (collect_spec f infos l Hl Hi Hd) as [D E]. split; [|exact D].
  intros c Hc. apply E in Hc as [Hc|[Hc _]]; auto.
Qed.

Lemma subbuild_joinlist_collect relids infos l :
  subbuild_joinrel_joinlist relids infos l
  = foldl (fun l r => if negb (bms_is_subset (required_relids r) relids) then list_append_unique_ptr l r else l) l infos.
Proof.
  revert l. induction infos as [|r infos IH]; intros l; [reflexivity|]. cbn [foldl]. rewrite <- IH.
  unfold subbuild_joinrel_joinlist. cbn [foldl]. destruct (bms_is_subset _ _); reflexivity.
Qed.

(** The join clauses of a set of relations: those that mention it and others. *)
Definition join_clauses_of (relids : Relids) (l : list RestrictInfo) : Prop :=
  distinct l /\ forall c, c ∈ l <-> c ∈ query /\ bms_overlap (required_relids c) relids = true
                                   /\ bms_is_subset (required_relids c) relids = false.

Context (outer inner joinrelids : Relids) (Wo : bms_wf outer) (Wi : bms_wf inner).
Context (Uj : represents joinrelids (fun x => member x outer \/ member x inner)).
Context (Ap : bms_overlap outer inner = false).

Lemma overlap_union c : bms_wf c -> bms_overlap c joinrelids = bms_overlap c outer || bms_overlap c inner.
Proof.
  intros Wc. destruct Uj as [Wj Mj]. apply eq_true_iff_eq. rewrite orb_true_iff, !bms_overlap_spec by assumption. split.
  - intros (x & X1 & X2). apply Mj in X2 as [X2|X2]; eauto.
  - intros [(x & X1 & X2)|(x & X1 & X2)]; exists x; rewrite Mj; auto.
Qed.

Lemma subset_union c : bms_wf c -> bms_is_subset c outer = true \/ bms_is_subset c inner = true -> bms_is_subset c joinrelids = true.
Proof.
  intros Wc. destruct Uj as [Wj Mj]. rewrite !bms_is_subset_spec by assumption. unfold subset.
  intros [S|S] x X; apply Mj; auto.
Qed.

(** A set within the join that is in neither input meets both. *)
Lemma crosses c : bms_wf c -> bms_is_subset c joinrelids = true ->
  bms_is_subset c outer = false /\ bms_is_subset c inner = false <->
  bms_overlap c outer = true /\ bms_is_subset c outer = false \/ bms_overlap c inner = true /\ bms_is_subset c inner = false.
Proof.
  intros Wc Sj. destruct Uj as [Wj Mj]. apply bms_is_subset_spec in Sj; [|assumption..].
  assert (forall a b, bms_wf a -> bms_wf b -> bms_is_subset c a = false -> (forall x, member x c -> member x a \/ member x b) ->
    bms_overlap c b = true) as Meet.
  { intros a b Wa Wb N C. apply bms_overlap_spec; [assumption..|].
    destruct (bms_overlap c b) eqn:O; [apply bms_overlap_spec in O; assumption|]. exfalso. apply not_true_iff_false in N. apply N, bms_is_subset_spec; [assumption..|].
    intros x X. destruct (C x X) as [?|M]; [assumption|]. apply not_true_iff_false in O. destruct O. apply bms_overlap_spec; eauto. }
  assert (forall x, member x c -> member x outer -> member x inner -> False) as No.
  { intros x _ X1 X2. apply not_true_iff_false in Ap. apply Ap, bms_overlap_spec; eauto. }
  split.
  - intros [N1 N2]. left. split; [|exact N1]. apply (Meet inner outer); [assumption..|]. intros x X. apply Sj, Mj in X. tauto.
  - intros [[O N]|[O N]]; (split; [try exact N|try exact N]).
    + apply not_true_iff_false. intros S. apply bms_is_subset_spec in S; [|assumption..].
      apply bms_overlap_spec in O as (x & X1 & X2); [|assumption..]. exact (No x X1 X2 (S x X1)).
    + apply not_true_iff_false. intros S. apply bms_is_subset_spec in S; [|assumption..].
      apply bms_overlap_spec in O as (x & X1 & X2); [|assumption..]. exact (No x X1 (S x X1) X2).
Qed.

(** The lists made from the join clauses of the inputs. *)
Lemma joinlist_spec lo li : join_clauses_of outer lo -> join_clauses_of inner li ->
  join_clauses_of joinrelids (subbuild_joinrel_joinlist joinrelids li (subbuild_joinrel_joinlist joinrelids lo [])).
Proof.
  intros [Do Eo] [Di Ei]. assert (lo ⊆ query) as So by (intros c Hc; apply Eo, Hc). assert (li ⊆ query) as Si by (intros c Hc; apply Ei, Hc).
  rewrite !subbuild_joinlist_collect.
  destruct (collect_spec (fun r => negb (bms_is_subset (required_relids r) joinrelids)) lo []) as [D1 E1];
    [intros c Hc; inversion Hc|exact So|constructor|].
  set (l1 := foldl _ [] lo) in *.
  destruct (collect_spec (fun r => negb (bms_is_subset (required_relids r) joinrelids)) li l1) as [D2 E2];
    [|exact Si|exact D1|].
  { intros c Hc. apply E1 in Hc as [Hc|[Hc _]]; [inversion Hc|auto]. }
  split; [exact D2|]. intros c. rewrite E2, E1, Eo, Ei, !negb_true_iff, elem_of_nil. split.
  - intros [[[]|[(Hq & O & N) S]]|[(Hq & O & N) S]]; (split_and!; [exact Hq| |exact S]);
      rewrite (overlap_union _ (qc_wf Qc c Hq)), O, ?orb_true_r; reflexivity.
  - intros (Hq & O & S). rewrite (overlap_union _ (qc_wf Qc c Hq)) in O. pose proof (subset_union _ (qc_wf Qc c Hq)) as U.
    rewrite S in U. apply orb_true_iff in O as [O|O]; [left; right|right]; (split_and!; [exact Hq|exact O| |exact S]);
      apply not_true_iff_false; intros T; [specialize (U (or_introl T))|specialize (U (or_intror T))]; discriminate.
Qed.

Lemma restrictlist_spec lo li : join_clauses_of outer lo -> join_clauses_of inner li ->
  let l := subbuild_joinrel_restrictlist joinrelids li (subbuild_joinrel_restrictlist joinrelids lo []) in
  distinct l /\ forall c, c ∈ l <-> c ∈ query /\ bms_is_subset (required_relids c) joinrelids = true
                                   /\ bms_is_subset (required_relids c) outer = false /\ bms_is_subset (required_relids c) inner = false.
Proof.
  intros [Do Eo] [Di Ei]. assert (lo ⊆ query) as So by (intros c Hc; apply Eo, Hc). assert (li ⊆ query) as Si by (intros c Hc; apply Ei, Hc).
  unfold subbuild_joinrel_restrictlist.
  destruct (collect_spec (fun r => bms_is_subset (required_relids r) joinrelids) lo []) as [D1 E1];
    [intros c Hc; inversion Hc|exact So|constructor|].
  set (l1 := foldl _ [] lo) in *.
  destruct (collect_spec (fun r => bms_is_subset (required_relids r) joinrelids) li l1) as [D2 E2]; [|exact Si|exact D1|].
  { intros c Hc. apply E1 in Hc as [Hc|[Hc _]]; [inversion Hc|auto]. }
  split; [exact D2|]. intros c. rewrite E2, E1, Eo, Ei, elem_of_nil. split.
  - intros [[[]|[(Hq & O & N) S]]|[(Hq & O & N) S]]; (split_and!; [exact Hq|exact S|..]);
      destruct (proj2 (crosses _ (qc_wf Qc c Hq) S)); auto.
  - intros (Hq & S & N). apply (crosses _ (qc_wf Qc c Hq) S) in N as [[O N]|[O N]]; [left; right|right]; auto.
Qed.

End clauses.

(** C23: the clauses of a join do not get lost, and are evaluated once on the way up: if
    the join lists of the two inputs hold exactly the query's clauses that mention them
    and relations outside of them, the join list of the join is again of this kind (so it
    does not depend on the pair of inputs it was made from), and the restriction list
    holds, each once and followed by those derived from equivalence classes, exactly the
    clauses that can be evaluated at the join and in neither input. *)
Theorem joinrel_clauses_spec `{Equivalences} query outer inner joinrelids :
  query_clauses query -> bms_wf (rn_relids outer) -> bms_wf (rn_relids inner) ->
  represents joinrelids (fun x => member x (rn_relids outer) \/ member x (rn_relids inner)) ->
  bms_overlap (rn_relids outer) (rn_relids inner) = false ->
  join_clauses_of query (rn_relids outer) (joininfo (rn_params outer)) ->
  join_clauses_of query (rn_relids inner) (joininfo (rn_params inner)) ->
  join_clauses_of query joinrelids (build_joinrel_joinlist joinrelids outer inner)
  /\ exists l, build_joinrel_restrictlist joinrelids outer inner
               = l ++ generate_join_implied_equalities joinrelids (rn_relids outer) (rn_rel inner)
       /\ distinct l
       /\ forall c, c ∈ l <-> c ∈ query /\ bms_is_subset (required_relids c) joinrelids = true
            /\ bms_is_subset (required_relids c) (rn_relids outer) = false
            /\ bms_is_subset (required_relids c) (rn_relids inner) = false.
Proof.
  intros Qc Wo Wi Uj Ap Co Ci. split; [exact (joinlist_spec query Qc _ _ _ Wo Wi Uj _ _ Co Ci)|].
  eexists. split; [reflexivity|]. exact (restrictlist_spec query Qc _ _ _ Wo Wi Uj Ap _ _ Co Ci).
Qed.

(** ** Concrete inputs *)

#[export] Instance sample_search_support : SearchSupport := {|
  hash_any := fold_right Z.add 7; GetUserId := 10; fdw_GetForeignJoinPaths := fun _ => None |}.

(** A table of one column. *)
Definition table_info (word : Z) (rti : Z) : RelOptInfo := {|
  reloptkind := RELOPT_BASEREL; relids := Some [word]; rel_rows := i2d 10000;
  consider_startup := true; consider_param_startup := false; consider_parallel := true;
  reltarget := mkPathTarget [Var rti 1] no_cost 4; relid := rti; reltablespace := 0; rtekind := RTE_RELATION;
  pages := 100; tuples := i2d 10000; allvisfrac := dzero; rel_parallel_workers := -1;
  baserestrictinfo := []; baserestrictcost := mkQualCost dzero (dlit 25 10000) |}.

Definition table_node (word rti : Z) (clauses : list RestrictInfo) : RelNode :=
  mkRelNode (table_info word rti) (only_path (search_path (table_info word rti) (i2d (10 * rti)) [])) (mkRelParams clauses [])
    (mkRelMerge false None) None None None (mkRelAttrs 1 1 [4]) [Some [1]] (mkForeignRel 0 0 false 0).

(** Forty tables, entered one by one; the hash table is built at the 34th. *)
Definition many_tables : list RelNode := (fun k => table_node (2 ^ (k mod 20 + 1) + 2 ^ (k / 20 + 25)) 1 []) <$> seqZ 0 40.
Definition many_start : SearchState := mkSearchState many_tables [] [] None None 0 [] [] ∅ ∅.
Definition many_state : SearchState :=
  match enter_all (seq 0 39) many_start with Ok st => st | Error _ => many_start end.

Lemma many_tables_wf r rel : ss_rels many_start !! r = Some rel -> bms_wf (rn_relids rel).
Proof.
  intros Hr. apply list_lookup_fmap_Some in Hr as (k & -> & Hk). apply lookup_seqZ in Hk as [-> Hk]. cbn.
  constructor; [|constructor]. unfold word_ok.
  assert (0 < 2 ^ ((0 + Z.of_nat r) mod 20 + 1) <= 2 ^ 20) by (split; [apply Z.pow_pos_nonneg; [lia|]|apply Z.pow_le_mono_r; [lia|]];
    pose proof (Z.mod_pos_bound (0 + Z.of_nat r) 20 ltac:(lia)); lia).
  assert (0 < 2 ^ ((0 + Z.of_nat r) / 20 + 25) <= 2 ^ 26) by (assert (0 <= (0 + Z.of_nat r) / 20 <= 1) by (split; [apply Z.div_pos; lia|];
    apply Z.lt_succ_r, Z.div_lt_upper_bound; lia); split; [apply Z.pow_pos_nonneg; lia|apply Z.pow_le_mono_r; lia]).
  cbn in *. lia.
Qed.

Lemma many_state_searched : searched many_state.
Proof.
  apply (enter_all_searched (seq 0 39) many_start); [exact many_tables_wf|apply searched_start; reflexivity|vm_compute; reflexivity].
Qed.

(** The 37th table is found through the hash table; the set of the last table is not
    found until it is added. *)
Lemma find_join_rel_spec_witness : join_rel_hash many_state <> None
  /\ find_in_list many_state (seq 0 39) (Some [2 ^ 17 + 2 ^ 26]) = Ok (Some 36%nat)
  /\ exists st hash, add_join_rel 39 many_state = Ok st /\ find_join_rel (Some [2 ^ 20 + 2 ^ 26]) st = Ok (with_hash st hash, Some 39%nat).
Proof.
  split; [vm_compute; discriminate|].
  split.
  - destruct (find_join_rel_spec many_state (Some [2 ^ 17 + 2 ^ 26]) many_state_searched ltac:(words)) as (_ & hash & r & E & _ & F & _).
    apply (f_equal (fun x => match x with Ok p => p.2 | Error _ => None end)) in E. cbn [snd] in E.
    assert (r = Some 36%nat) as -> by (rewrite <- E; vm_compute; reflexivity). exact F.
  - destruct (find_join_rel_spec many_state (Some [2 ^ 20 + 2 ^ 26]) many_state_searched ltac:(words)) as (_ & hash & r & E & _ & _ & _ & A).
    pose proof E as E0. apply (f_equal (fun x => match x with Ok p => p.2 | Error _ => None end)) in E0. cbn [snd] in E0.
    assert (r = None) as -> by (rewrite <- E0; vm_compute; reflexivity).
    destruct (A eq_refl (with_hash many_state hash) 39%nat (table_node (2 ^ 20 + 2 ^ 26) 1 [])) as (st2 & hash2 & Ea & _ & F).
    + split; [reflexivity..|eauto].
    + vm_compute. reflexivity.
    + reflexivity.
    + exists st2, hash2. split; [|exact F].
      apply (f_equal (fun x => match x with Ok p => p.1 | Error _ => many_start end)) in E. cbn [fst] in E.
      assert (with_hash many_state hash = many_state) as Em by (rewrite <- E; vm_compute; reflexivity).
      rewrite Em in Ea. exact Ea.
Defined.

Lemma search_query : query_clauses search_clauses.
Proof.
  split; intros a.
  - intros b Ha Hb _. apply list_elem_of_singleton in Ha as ->, Hb as ->. reflexivity.
  - intros Ha. apply list_elem_of_singleton in Ha as ->. words.
Qed.

Lemma search_join_clauses word : word = 2 \/ word = 4 -> join_clauses_of search_clauses (Some [word]) search_clauses.
Proof.
  intros Hw. split; [repeat constructor; set_solver|]. intros c. split; [|intros [Hc _]; exact Hc].
  intros Hc. split; [exact Hc|]. apply list_elem_of_singleton in Hc as ->. destruct Hw as [-> | ->]; split; reflexivity.
Qed.

Lemma joinrel_clauses_spec_witness :
  build_joinrel_joinlist (Some [6]) (table_node 2 1 search_clauses) (table_node 4 2 search_clauses) = []
  /\ join_clauses_of search_clauses (Some [6]) []
  /\ merge_clause 1 3 1 ∈ build_joinrel_restrictlist (Some [6]) (table_node 2 1 search_clauses) (table_node 4 2 search_clauses).
Proof.
  assert (represents (Some [6]) (fun x => member x (Some [2]) \/ member x (Some [4]))) as R
    by exact (represents_lor _ _ _ (bms_union_spec (Some [2]) (Some [4]) ltac:(words) ltac:(words))).
  destruct (joinrel_clauses_spec search_clauses (table_node 2 1 search_clauses) (table_node 4 2 search_clauses) (Some [6]) search_query
    ltac:(words) ltac:(words) R eq_refl (search_join_clauses 2 (or_introl eq_refl)) (search_join_clauses 4 (or_intror eq_refl)))
    as (J & l & -> & _ & El).
  split; [reflexivity|]. split; [exact J|]. apply elem_of_app. left. apply El. split_and!; [left|reflexivity..].
Defined.
