(* ===== verification/JoinOrder.v ===== *)
(** The search over join orders (optimizer/path/joinrels.c and allpaths.c): which pairs
    of relations are joined at each level, and how a join relation gets its paths. *)
From stdpp Require Import gmap.
From S2P Require Import Prelude Float64 Double Bitmapset BitmapsetSpec PlanTypes AddPath Cheapest CostExpr CostScan CostJoin SizeEst ParamInfo CreatePath MergeKeys JoinPath JoinLegal BuildRel.
Open Scope Z_scope.

(** ** Relations proven empty *)

Definition IS_DUMMY_PATH (p : Path) : bool :=
  match extra p with XAppendPath [] => true | _ => false end.

Definition is_dummy_rel (rel : RelNode) : bool :=
  match cheapest_total_path (rn_paths rel) with Some p => IS_DUMMY_PATH p | None => false end.

Definition set_rows (rel : RelOptInfo) (rows' : double) : RelOptInfo :=
  set_rel_sizes rel rows' (tuples rel) (reltarget rel) (baserestrictinfo rel) (baserestrictcost rel).

Definition mark_dummy_rel `{Libm, Settings} (rel : RelNode) : result RelNode :=
  if is_dummy_rel rel then Ok rel
  else
    let info := set_rows (rn_rel rel) (i2d 0) in
    let paths := rn_paths rel in
    let paths := mkRelPaths [] [] (cheapest_startup_path paths) (cheapest_total_path paths) (cheapest_unique_path paths)
                   (cheapest_parameterized_paths paths) in
    let (path, params) := create_append_path info (rn_params rel) [] None 0 in
    let! paths := set_cheapest (add_path paths path).1 in
    Ok (set_rn_params (set_rn_paths (set_rn_rel rel info) paths) params).

(** A constant NULL is as good as FALSE. *)
Definition restriction_is_constant_false (restrictlist : list RestrictInfo) (only_pushed_down : bool) : bool :=
  existsb (fun rinfo => negb (only_pushed_down && negb (is_pushed_down rinfo))
                        && match clause rinfo with Const constisnull constvalue => constisnull || negb constvalue | _ => false end)
    restrictlist.

(** ** Gather paths (allpaths.c) *)

Section gather.
Context `{Libm, Settings, Estimator, Equivalences}.

(** add_path for a path and the parameterizations its constructor left. *)
Definition offer_path (rel : RelNode) (offer : Path * RelParams) : RelNode :=
  set_rn_params (set_rn_paths rel (add_path (rn_paths rel) offer.1).1) offer.2.

Definition generate_gather_paths (rel : RelNode) : RelNode :=
  let partial := partial_pathlist (rn_paths rel) in
  let target := reltarget (rn_rel rel) in
  match partial with
  | [] => rel
  | cheapest_partial_path :: _ =>
      let rel := offer_path rel (create_gather_path (rn_rel rel) (rn_params rel) cheapest_partial_path target None None) in
      foldl (fun rel subpath =>
        match pathkeys subpath with
        | [] => rel
        | keys => offer_path rel (create_gather_merge_path (rn_rel rel) (rn_params rel) subpath (Some target) keys None None)
        end) rel partial
  end.
End gather.

(** ** Paths of a join relation (joinrels.c) *)

Section order.
Context `{Libm, Settings, Catalog, Estimator, Equivalences, PathSupport, EClasses, JoinSupport, SearchSupport}.
Context (root : SearchRoot).

(** A special join of the query, by its position, or one made up for an inner join. *)
Definition SjRef : Type := option nat * SpecialJoin.

(** add_paths_to_joinrel asks the wrapper that the join relation belongs to. *)
Definition rel_support (rel : RelNode) : JoinSupport := {|
  same_path := same_path;
  innerrel_is_unique := innerrel_is_unique;
  GetForeignJoinPaths := if fdwroutine (rn_foreign rel) =? 0 then None else fdw_GetForeignJoinPaths (fdwroutine (rn_foreign rel));
  set_join_pathlist_hook := set_join_pathlist_hook |}.

(** The semijoin's flags are those of join_info_list. *)
Definition semi_of (sj : SjRef) (st : SearchState) : SemiInfo :=
  match sj.1 with
  | Some i => match ss_infos st !! i with Some info => sj_semi info | None => sj_semi sj.2 end
  | None => sj_semi sj.2
  end.

Definition set_semi (sj : SjRef) (semi : SemiInfo) (st : SearchState) : SearchState :=
  match sj.1 with
  | Some i => set_infos st (<[i := mkSpecialJoin (sj_info sj.2) semi]> (ss_infos st))
  | None => st
  end.

(** add_paths_to_joinrel on relations of the store. *)
Definition add_paths (joinrel outerrel innerrel : nat) (jointype : JoinType) (sj : SjRef) (restrictlist : list RestrictInfo)
    (st : SearchState) : result SearchState :=
  let! rel := rel_at st joinrel in
  let! outer := rel_at st outerrel in
  let! inner := rel_at st innerrel in
  let! js := add_paths_to_joinrel (H6 := rel_support rel) (join_planner root st)
               (mkJoinRel (rn_rel rel) (rn_lateral_relids rel) (rn_merge rel)) (rn_rel outer) (rn_rel inner)
               jointype (sj_info sj.2) restrictlist
               (mkJoinState (rn_paths rel) (rn_params rel) (rn_paths outer) (rn_paths inner) (semi_of sj st) (ss_canon st)
                  (ss_scansel st) (ss_buckets st)) in
  let st := set_rel st joinrel (set_rn_params (set_rn_paths rel (js_paths js)) (js_params js)) in
  let st := set_rel st outerrel (set_rn_paths outer (js_outer js)) in
  let st := set_rel st innerrel (set_rn_paths inner (js_inner js)) in
  Ok (set_caches (set_semi sj (js_semi js) st) (js_canon js) (js_scansel js) (js_buckets js)).

Definition mark_dummy (rel : nat) (st : SearchState) : result SearchState :=
  let! node := rel_at st rel in
  let! node := mark_dummy_rel node in
  Ok (set_rel st rel node).

(** create_unique_path(root, rel, rel->cheapest_total_path, sjinfo) != NULL *)
Definition unique_path_exists (rel : nat) (sj : SjRef) (st : SearchState) : result (bool * SearchState) :=
  let! node := rel_at st rel in
  let! (found, node, info) := make_unique node (mkSpecialJoin (sj_info sj.2) (semi_of sj st)) in
  Ok (found, set_semi sj (sj_semi info) (set_rel st rel node)).

Definition populate_joinrel_with_paths (rel1 rel2 joinrel : nat) (sj : SjRef) (restrictlist : list RestrictInfo)
    (st : SearchState) : result SearchState :=
  let! node1 := rel_at st rel1 in
  let! node2 := rel_at st rel2 in
  let info := sj_info sj.2 in
  let const_false := restriction_is_constant_false restrictlist in
  let empty_inner :=
    when (const_false false && bms_is_subset (rn_relids node2) (syn_righthand info)) (mark_dummy rel2) in
  match sj_jointype info with
  | JOIN_INNER =>
      if is_dummy_rel node1 || is_dummy_rel node2 || const_false false then mark_dummy joinrel st
      else (add_paths joinrel rel1 rel2 JOIN_INNER sj restrictlist;;
            add_paths joinrel rel2 rel1 JOIN_INNER sj restrictlist) st
  | JOIN_LEFT =>
      if is_dummy_rel node1 || const_false true then mark_dummy joinrel st
      else (empty_inner;;
            add_paths joinrel rel1 rel2 JOIN_LEFT sj restrictlist;;
            add_paths joinrel rel2 rel1 JOIN_RIGHT sj restrictlist) st
  | JOIN_FULL =>
      if is_dummy_rel node1 && is_dummy_rel node2 || const_false true then mark_dummy joinrel st
      else
        let! st := (add_paths joinrel rel1 rel2 JOIN_FULL sj restrictlist;;
                    add_paths joinrel rel2 rel1 JOIN_FULL sj restrictlist) st in
        let! rel := rel_at st joinrel in
        match pathlist (rn_paths rel) with
        | [] => Error "FULL JOIN is only supported with merge-joinable or hash-joinable join conditions"
        | _ => Ok st
        end
  | JOIN_SEMI =>
      let empty := is_dummy_rel node1 || is_dummy_rel node2 || const_false false in
      let direct := sj_sides info (rn_relids node1) (rn_relids node2) in
      if direct && empty then mark_dummy joinrel st
      else
        let! st := when direct (add_paths joinrel rel1 rel2 JOIN_SEMI sj restrictlist) st in
        if bms_equal (syn_righthand info) (rn_relids node2) then
          let! (found, st) := unique_path_exists rel2 sj st in
          if found : bool then
            if empty then mark_dummy joinrel st
            else (add_paths joinrel rel1 rel2 JOIN_UNIQUE_INNER sj restrictlist;;
                  add_paths joinrel rel2 rel1 JOIN_UNIQUE_OUTER sj restrictlist) st
          else Ok st
        else Ok st
  | JOIN_ANTI =>
      if is_dummy_rel node1 || const_false true then mark_dummy joinrel st
      else (empty_inner;; add_paths joinrel rel1 rel2 JOIN_ANTI sj restrictlist) st
  | _ => Error "unrecognized join type"
  end.

(** join_is_legal on relations of the store. *)
Definition check_legal (rel1 rel2 : nat) (joinrelids : Relids) (st : SearchState)
    : result (SearchState * option (option nat * bool)) :=
  let! node1 := rel_at st rel1 in
  let! node2 := rel_at st rel2 in
  let! (verdict, node1, node2, infos) :=
    join_is_legal (hasLateralRTEs root) (eval_sets root) (ss_infos st) node1 node2 joinrelids in
  Ok (set_infos (set_rel (set_rel st rel1 node1) rel2 node2) infos, verdict).

(** The SpecialJoinInfo made up for a plain inner join. *)
Definition inner_sjinfo (rel1 rel2 : RelNode) : SpecialJoin :=
  mkSpecialJoin (mkSpecialJoinInfo (rn_relids rel1) (rn_relids rel2) (rn_relids rel1) (rn_relids rel2) JOIN_INNER false)
    (mkSemiInfo false false [] []).

(** The join relation, [None] if the join is not valid. *)
Definition make_join_rel (rel1 rel2 : nat) (st : SearchState) : result (SearchState * option nat) :=
  let! node1 := rel_at st rel1 in
  let! node2 := rel_at st rel2 in
  let joinrelids := bms_union (rn_relids node1) (rn_relids node2) in
  let! (st, verdict) := check_legal rel1 rel2 joinrelids st in
  match verdict with
  | None => Ok (st, None)
  | Some (sjinfo, reversed) =>
      let '(rel1, rel2, node1, node2) := if reversed : bool then (rel2, rel1, node2, node1) else (rel1, rel2, node1, node2) in
      let! sj := match sjinfo with
                 | Some i => defined (info ← ss_infos st !! i; Some (Some i, info))
                 | None => Ok (None, inner_sjinfo node1 node2)
                 end in
      let! (st, joinrel, restrictlist) := build_join_rel root joinrelids rel1 rel2 (sj_info sj.2) st in
      let! rel := rel_at st joinrel in
      if is_dummy_rel rel then Ok (st, Some joinrel)
      else
        let! st := populate_joinrel_with_paths rel1 rel2 joinrel sj restrictlist st in
        Ok (st, Some joinrel)
  end.

(** ** Join order heuristics *)

(** The loop over the initial relations. *)
Fixpoint legal_joinclause_loop (rel : nat) (initial : list nat) (st : SearchState) : result (SearchState * bool) :=
  match initial with
  | [] => Ok (st, false)
  | rel2 :: initial =>
      let! node := rel_at st rel in
      let! node2 := rel_at st rel2 in
      if negb (bms_overlap (rn_relids node) (rn_relids node2)) && have_relevant_joinclause node node2 then
        let! (st, verdict) := check_legal rel rel2 (bms_union (rn_relids node) (rn_relids node2)) st in
        match verdict with
        | Some _ => Ok (st, true)
        | None => legal_joinclause_loop rel initial st
        end
      else legal_joinclause_loop rel initial st
  end.

Definition has_legal_joinclause (rel : nat) (st : SearchState) : result (SearchState * bool) :=
  legal_joinclause_loop rel (initial_rels st) st.

(** The special joins ask for a join of the two relations. *)
Definition sj_asks_for_join (infos : list SpecialJoin) (relids1 relids2 : Relids) : bool :=
  existsb (fun sj =>
    let info := sj_info sj in
    negb (bool_decide (sj_jointype info = JOIN_FULL))
    && (sj_sides info relids1 relids2 || sj_sides info relids2 relids1
        || (bms_overlap (min_righthand info) relids1 && bms_overlap (min_righthand info) relids2)
        || (bms_overlap (min_lefthand info) relids1 && bms_overlap (min_lefthand info) relids2))) infos.

Definition have_join_order_restriction (rel1 rel2 : nat) (st : SearchState) : result (SearchState * bool) :=
  let! node1 := rel_at st rel1 in
  let! node2 := rel_at st rel2 in
  let relids1 := rn_relids node1 in
  let relids2 := rn_relids node2 in
  if bms_overlap relids1 (rn_direct_lateral_relids node2) || bms_overlap relids2 (rn_direct_lateral_relids node1) then Ok (st, true)
  else if existsb (fun ph_eval_at => bms_is_subset relids1 ph_eval_at && bms_is_subset relids2 ph_eval_at) (eval_sets root)
  then Ok (st, true)
  else if sj_asks_for_join (ss_infos st) relids1 relids2 then
    let! (st, legal1) := has_legal_joinclause rel1 st in
    if legal1 : bool then Ok (st, false)
    else
      let! (st, legal2) := has_legal_joinclause rel2 st in
      Ok (st, negb legal2)
  else Ok (st, false).

(** Joins with the relations of [others] that share a clause or a restriction. *)
Definition make_rels_by_clause_joins (old_rel : nat) (others : list nat) : SearchState -> result SearchState :=
  for_each others (fun other_rel st =>
    let! old := rel_at st old_rel in
    let! other := rel_at st other_rel in
    if bms_overlap (rn_relids old) (rn_relids other) then Ok st
    else
      let! (st, wanted) :=
        if have_relevant_joinclause old other then Ok (st, true) else have_join_order_restriction old_rel other_rel st in
      if wanted : bool then let! (st, _) := make_join_rel old_rel other_rel st in Ok st else Ok st).

Definition make_rels_by_clauseless_joins (old_rel : nat) (others : list nat) : SearchState -> result SearchState :=
  for_each others (fun other_rel st =>
    let! old := rel_at st old_rel in
    let! other := rel_at st other_rel in
    if bms_overlap (rn_relids other) (rn_relids old) then Ok st
    else let! (st, _) := make_join_rel old_rel other_rel st in Ok st).

(** ** One level of the search *)

(** [foreach] with the cells that follow. *)
Fixpoint for_each_rest {S A} (l : list A) (body : A -> list A -> S -> result S) : S -> result S :=
  match l with
  | [] => skip
  | x :: l => body x l;; for_each_rest l body
  end.

(** root->join_rel_level[k] *)
Definition level_at (st : SearchState) (k : nat) : result (list nat) :=
  let! levels := deref (join_rel_level st) in defined (levels !! k).

(** The relation has join clauses or takes part in a join order restriction. *)
Definition has_joins (rel : nat) (st : SearchState) : result bool :=
  let! node := rel_at st rel in
  Ok (negb (bool_decide (joininfo (rn_params node) = [])) || has_eclass_joins (rn_merge node)
      || has_join_restriction (eval_sets root) (ss_infos st) node).

(** Relations of [level - 1] items with single items. *)
Definition linear_joins (level : nat) (st : SearchState) : result SearchState :=
  let! previous := level_at st (level - 1) in
  for_each_rest previous (fun old_rel rest st =>
    let! initial := level_at st 1 in
    let! linked := has_joins old_rel st in
    if linked : bool then make_rels_by_clause_joins old_rel (if (level =? 2)%nat then rest else initial) st
    else make_rels_by_clauseless_joins old_rel initial st) st.

(** Relations of [k] items with relations of [level - k]. *)
Definition bushy_joins (level k : nat) (st : SearchState) : result SearchState :=
  let! rels := level_at st k in
  for_each_rest rels (fun old_rel rest st =>
    let! linked := has_joins old_rel st in
    if linked : bool then
      let! others := if (k =? level - k)%nat then Ok rest else level_at st (level - k) in
      make_rels_by_clause_joins old_rel others st
    else Ok st) st.

(** Cartesian products, when nothing else was found. *)
Definition last_ditch_joins (level : nat) (st : SearchState) : result SearchState :=
  let! found := level_at st level in
  match found with
  | [] =>
      let! previous := level_at st (level - 1) in
      let! st := for_each previous (fun old_rel st =>
        let! initial := level_at st 1 in make_rels_by_clauseless_joins old_rel initial st) st in
      let! found := level_at st level in
      if bool_decide (found = []) && bool_decide (ss_infos st = []) && negb (hasLateralRTEs root)
      then Error "failed to build any N-way joins" else Ok st
  | _ => Ok st
  end.

(** The loop over [k] goes from 2 while [k <= level - k]. *)
Definition join_search_one_level (level : nat) : SearchState -> result SearchState :=
  (fun st => Ok (set_levels st (join_rel_level st) level));;
  linear_joins level;;
  for_each (seq 2 (level / 2 - 1)) (bushy_joins level);;
  last_ditch_joins level.

(** ** The whole search *)

(** Gather paths and set_cheapest for the relations of a level. *)
Definition finish_rel (rel : nat) (st : SearchState) : result SearchState :=
  let! node := rel_at st rel in
  let node := generate_gather_paths node in
  let! paths := set_cheapest (rn_paths node) in
  Ok (set_rel st rel (set_rn_paths node paths)).

Definition standard_join_search (levels_needed : nat) (initial : list nat) (st : SearchState) : result (SearchState * nat) :=
  let st := set_levels st (Some (<[1%nat := initial]> (replicate (levels_needed + 1) []))) (join_cur_level st) in
  let! st := for_each (seq 2 (levels_needed - 1)) (fun lev =>
    join_search_one_level lev;;
    (fun st => let! rels := level_at st lev in for_each rels finish_rel st)) st in
  let! found := level_at st levels_needed in
  match found with
  | [] => Error "failed to build any N-way joins"
  | rel :: _ => Ok (set_levels st None (join_cur_level st), rel)
  end.

End order.
