(* ===== verification/Qsort.v ===== *)
(** The backend's qsort (port/qsort.c): Bentley and McIlroy's quicksort with a check for
    sorted input. An array is the list of its elements; pointers into it are positions. *)
From stdpp Require Import list.
From S2P Require Import Prelude Float64 Double PlanTypes MergeKeys JoinPath.
Open Scope Z_scope.

Section qsort.
Context {A : Type} (cmp : A -> A -> Z).

Definition cmp_at (l : list A) (i j : nat) : result Z :=
  let! x := defined (l !! i) in let! y := defined (l !! j) in Ok (cmp x y).

Definition swap_at (i j : nat) (l : list A) : result (list A) :=
  let! x := defined (l !! i) in let! y := defined (l !! j) in Ok (<[i := y]> (<[j := x]> l)).

(** Swaps [n] elements. *)
Definition vecswap (i j n : nat) (l : list A) : result (list A) :=
  for_each (seq 0 n) (fun k => swap_at (i + k) (j + k)) l.

Definition med3 (l : list A) (a b c : nat) : result nat :=
  let! ab := cmp_at l a b in
  if ab <? 0 then
    let! bc := cmp_at l b c in
    if bc <? 0 then Ok b else let! ac := cmp_at l a c in Ok (if ac <? 0 then c else a)
  else
    let! bc := cmp_at l b c in
    if 0 <? bc then Ok b else let! ac := cmp_at l a c in Ok (if ac <? 0 then a else c).

(** The inner loop of the insertion sort. *)
Fixpoint insert_down (pl : nat) (l : list A) : result (list A) :=
  match pl with
  | O => Ok l
  | S p => let! r := cmp_at l p pl in if 0 <? r then let! l := swap_at pl p l in insert_down p l else Ok l
  end.

Definition insertion_sort (l : list A) : result (list A) := for_each (seq 1 (length l - 1)) insert_down l.

(** The check for sorted input, from [pm] on. *)
Fixpoint presorted (n pm : nat) (l : list A) : result bool :=
  match n with
  | O => Ok true
  | S n => let! r := cmp_at l (pm - 1) pm in if 0 <? r then Ok false else presorted n (pm + 1) l
  end.

(** The position of the element to partition by. *)
Definition choose_pivot (l : list A) : result nat :=
  let n := length l in
  let pm := (n / 2)%nat in
  if (7 <? n)%nat then
    let pl := O in
    let pn := (n - 1)%nat in
    let! (pl, pm, pn) :=
      if (40 <? n)%nat then
        let d := (n / 8)%nat in
        let! pl := med3 l pl (pl + d) (pl + 2 * d) in
        let! pm := med3 l (pm - d) pm (pm + d) in
        let! pn := med3 l (pn - 2 * d) (pn - d) pn in
        Ok (pl, pm, pn)
      else Ok (pl, pm, pn) in
    med3 l pl pm pn
  else Ok pm.

(** while (pb <= pc && (r = cmp(pb, a)) <= 0) *)
Fixpoint scan_up (fuel : nat) (l : list A) (pa pb pc : nat) : result (list A * nat * nat) :=
  match fuel with
  | O => Error "out of fuel"
  | S fuel =>
      if (pb <=? pc)%nat then
        let! r := cmp_at l pb 0 in
        if r <=? 0 then
          let! (l, pa) := if r =? 0 then let! l := swap_at pa pb l in Ok (l, (pa + 1)%nat) else Ok (l, pa) in
          scan_up fuel l pa (pb + 1) pc
        else Ok (l, pa, pb)
      else Ok (l, pa, pb)
  end.

(** while (pb <= pc && (r = cmp(pc, a)) >= 0) *)
Fixpoint scan_down (fuel : nat) (l : list A) (pb pc pd : nat) : result (list A * nat * nat) :=
  match fuel with
  | O => Error "out of fuel"
  | S fuel =>
      if (pb <=? pc)%nat then
        let! r := cmp_at l pc 0 in
        if 0 <=? r then
          let! (l, pd) := if r =? 0 then let! l := swap_at pc pd l in Ok (l, (pd - 1)%nat) else Ok (l, pd) in
          scan_down fuel l pb (pc - 1) pd
        else Ok (l, pc, pd)
      else Ok (l, pc, pd)
  end.

(** The loop that collects the elements below, equal to and above the first one. *)
Fixpoint partition (fuel : nat) (l : list A) (pa pb pc pd : nat) : result (list A * nat * nat * nat * nat) :=
  match fuel with
  | O => Error "out of fuel"
  | S fuel =>
      let! (l, pa, pb) := scan_up (S (length l)) l pa pb pc in
      let! (l, pc, pd) := scan_down (S (length l)) l pb pc pd in
      if (pc <? pb)%nat then Ok (l, pa, pb, pc, pd)
      else
        let! l := swap_at pb pc l in
        partition fuel l pa (pb + 1) (pc - 1) pd
  end.

(** A call on the [n] elements from [a] on. *)
Definition on_range (f : list A -> result (list A)) (a n : nat) (l : list A) : result (list A) :=
  let! part := f (take n (drop a l)) in Ok (take a l ++ part ++ drop (a + n) l).

(** The smaller part is sorted by a recursive call, the larger one by starting over. *)
Fixpoint pg_qsort (fuel : nat) (l : list A) : result (list A) :=
  match fuel with
  | O => Error "out of fuel"
  | S fuel =>
      let n := length l in
      if (n <? 7)%nat then insertion_sort l
      else
        let! sorted := presorted (n - 1) 1 l in
        if sorted : bool then Ok l
        else
          let! pm := choose_pivot l in
          let! l := swap_at 0 pm l in
          let! (l, pa, pb, pc, pd) := partition (S n) l 1 1 (n - 1) (n - 1) in
          let d1 := Nat.min pa (pb - pa) in
          let! l := vecswap 0 (pb - d1) d1 l in
          let d1 := Nat.min (pd - pc) (n - pd - 1) in
          let! l := vecswap pb (n - d1) d1 l in
          let d1 := (pb - pa)%nat in
          let d2 := (pd - pc)%nat in
          let left := when (1 <? d1)%nat (on_range (pg_qsort fuel) 0 d1) in
          let right := when (1 <? d2)%nat (on_range (pg_qsort fuel) (n - d2) d2) in
          if (d1 <=? d2)%nat then (left;; right) l else (right;; left) l
  end.

(** ** Correctness *)

(** The comparison is that of a total preorder on the elements in question. *)
Record comparator (valid : A -> Prop) : Prop := {
  cp_refl : forall x, valid x -> cmp x x = 0;
  cp_sym : forall x y, valid x -> valid y -> (0 < cmp x y <-> cmp y x < 0);
  cp_trans : forall x y z, valid x -> valid y -> valid z -> cmp x y <= 0 -> cmp y z <= 0 -> cmp x z <= 0;
}.

Definition sorted (l : list A) : Prop := forall i j x y, (i < j)%nat -> l !! i = Some x -> l !! j = Some y -> cmp x y <= 0.

Lemma cmp_at_ok l i j : (i < length l)%nat -> (j < length l)%nat ->
  exists x y, l !! i = Some x /\ l !! j = Some y /\ cmp_at l i j = Ok (cmp x y).
Proof.
  intros Hi Hj. destruct (lookup_lt_is_Some_2 l i Hi) as [x Ex], (lookup_lt_is_Some_2 l j Hj) as [y Ey].
  exists x, y. unfold cmp_at. rewrite Ex, Ey. auto.
Qed.

(** Where an element of the array is after two have changed places. *)
Definition transpose (i j k : nat) : nat := if decide (k = i) then j else if decide (k = j) then i else k.

Lemma swap_at_ok i j l : (i < length l)%nat -> (j < length l)%nat ->
  exists l', swap_at i j l = Ok l' /\ l' ≡ₚ l /\ forall k, l' !! k = l !! transpose i j k.
Proof.
  intros Hi Hj. destruct (lookup_lt_is_Some_2 l i Hi) as [x Ex], (lookup_lt_is_Some_2 l j Hj) as [y Ey].
  unfold swap_at. rewrite Ex, Ey. cbn [defined rbind]. eexists. split; [reflexivity|].
  assert (forall k, <[i := y]> (<[j := x]> l) !! k = l !! transpose i j k) as Lk.
  { intros k. unfold transpose. destruct (decide (k = i)) as [-> |Ni]; [rewrite list_lookup_insert_eq by (rewrite length_insert; exact Hi); congruence|].
    rewrite list_lookup_insert_ne by congruence. destruct (decide (k = j)) as [-> |Nj]; [rewrite list_lookup_insert_eq by exact Hj; congruence|].
    rewrite list_lookup_insert_ne by congruence. reflexivity. }
  split; [|exact Lk]. apply Permutation_inj. split; [rewrite !length_insert; reflexivity|]. exists (transpose i j). split; [|exact Lk].
  intros a b. unfold transpose. repeat destruct decide; congruence.
Qed.

Lemma transpose_lt i j k n : (i < n)%nat -> (j < n)%nat -> (k < n)%nat -> (transpose i j k < n)%nat.
Proof. intros. unfold transpose. repeat destruct decide; assumption. Qed.

Lemma med3_ok l a b c : (a < length l)%nat -> (b < length l)%nat -> (c < length l)%nat -> exists m, med3 l a b c = Ok m /\ (m < length l)%nat.
Proof.
  intros Ha Hb Hc. unfold med3. destruct (cmp_at_ok l a b Ha Hb) as (? & ? & _ & _ & ->), (cmp_at_ok l b c Hb Hc) as (? & ? & _ & _ & ->),
    (cmp_at_ok l a c Ha Hc) as (? & ? & _ & _ & ->). cbn [rbind]. repeat case_match; eauto.
Qed.

Lemma choose_pivot_ok l : (0 < length l)%nat -> exists m, choose_pivot l = Ok m /\ (m < length l)%nat.
Proof.
  intros L. unfold choose_pivot. set (n := length l) in *. assert (n / 2 < n)%nat as L2 by (apply Nat.div_lt; lia).
  destruct (Nat.ltb_spec 7 n) as [L7|_]; [|eauto]. destruct (Nat.ltb_spec 40 n) as [L40|_]; cbn [rbind]; [|apply med3_ok; fold n; lia].
  assert (8 * (n / 8) <= n)%nat as L8 by (apply Nat.Div0.mul_div_le). pose proof (Nat.div_mod_eq n 2). pose proof (Nat.mod_upper_bound n 2).
  assert (n / 8 <= n / 2)%nat by (apply Nat.div_le_compat_l; lia).
  destruct (med3_ok l 0 (0 + n / 8) (0 + 2 * (n / 8))) as (m1 & -> & M1); [fold n; lia..|]. cbn [rbind].
  destruct (med3_ok l (n / 2 - n / 8) (n / 2) (n / 2 + n / 8)) as (m2 & -> & M2); [fold n; lia..|]. cbn [rbind].
  destruct (med3_ok l (n - 1 - 2 * (n / 8)) (n - 1 - n / 8) (n - 1)) as (m3 & -> & M3); [fold n; lia..|]. cbn [rbind].
  apply med3_ok; assumption.
Qed.

Context (valid : A -> Prop) (Cp : comparator valid).

Lemma flip x y : valid x -> valid y -> 0 < cmp x y -> cmp y x <= 0.
Proof. intros Vx Vy L. apply (cp_sym _ Cp x y Vx Vy) in L. lia. Qed.

Lemma valid_lookup l i x : Forall valid l -> l !! i = Some x -> valid x.
Proof. intros F E. exact (Forall_lookup_1 _ _ _ _ F E). Qed.

(** *** Insertion sort *)

(** The elements up to [m] are in order, but for the one at [p], which may be too far right. *)
Definition almost_sorted (m p : nat) (l : list A) : Prop :=
  forall i j x y, (i < j)%nat -> (j <= m)%nat -> j <> p -> l !! i = Some x -> l !! j = Some y -> cmp x y <= 0.

Lemma insert_down_ok m p : forall l, Forall valid l -> (p <= m)%nat -> (m < length l)%nat -> almost_sorted m p l ->
  exists l', insert_down p l = Ok l' /\ l' ≡ₚ l /\ almost_sorted m (S m) l' /\ forall k, (m < k)%nat -> l' !! k = l !! k.
Proof.
  induction p as [|p IH]; intros l F Hp Hm So; cbn [insert_down].
  { exists l. split_and!; [reflexivity..| |reflexivity]. intros i j x y Hij Hj _. apply So; lia. }
  destruct (cmp_at_ok l p (S p)) as (x & y & Ex & Ey & ->); [lia|lia|]. cbn [rbind].
  pose proof (valid_lookup l p x F Ex) as Vx. pose proof (valid_lookup l (S p) y F Ey) as Vy.
  destruct (Z.ltb_spec 0 (cmp x y)) as [G|L].
  - destruct (swap_at_ok (S p) p l) as (l1 & -> & P1 & L1); [lia|lia|]. cbn [rbind]. pose proof (Permutation_length P1) as Ln.
    destruct (IH l1) as (l' & -> & P' & S' & K'); [rewrite P1; exact F|lia|lia| |].
    + intros i j a b Hij Hj Nj. rewrite !L1. unfold transpose. destruct (decide (j = S p)) as [-> |Nj'].
      * destruct (decide (i = S p)) as [|_]; [lia|]. destruct (decide (i = p)) as [-> |Ni]; intros Ea Eb; simplify_eq; [apply flip; assumption|].
        apply (So i p); auto; lia.
      * destruct (decide (j = p)) as [|_]; [done|]. intros Ea Eb.
        destruct (decide (i = S p)) as [-> |_]; [apply (So p j)|destruct (decide (i = p)) as [-> |_]; [apply (So (S p) j)|apply (So i j)]]; (assumption || lia).
    + exists l'. split_and!; [reflexivity|rewrite P', P1; reflexivity|exact S'|]. intros k Hk. rewrite K', L1 by exact Hk. unfold transpose.
      repeat destruct decide; (lia || reflexivity).
  - exists l. split_and!; [reflexivity..| |reflexivity]. intros i j a b Hij Hj _ Ea Eb. destruct (decide (j = S p)) as [-> |Nj].
    + assert (b = y) as -> by congruence. destruct (decide (i = p)) as [-> |Ni]; [simplify_eq; exact L|]. apply (cp_trans _ Cp a x y); auto; [exact (valid_lookup l i a F Ea)|].
      apply (So i p); auto; lia.
    + apply (So i j); auto.
Qed.

Lemma insertion_sort_ok l : Forall valid l -> exists l', insertion_sort l = Ok l' /\ l' ≡ₚ l /\ sorted l'.
Proof.
  intros F. unfold insertion_sort.
  assert (forall c m l1, l1 ≡ₚ l -> (S m + c = length l)%nat -> almost_sorted m (S m) l1 ->
    exists l', for_each (seq (S m) c) insert_down l1 = Ok l' /\ l' ≡ₚ l /\ almost_sorted (m + c) (S (m + c)) l') as Loop.
  { induction c as [|c IH]; intros m l1 P1 Lc S1; cbn [seq for_each]; [exists l1; rewrite Nat.add_0_r; auto|].
    pose proof (Permutation_length P1). destruct (insert_down_ok (S m) (S m) l1) as (l2 & E2 & P2 & S2 & _); [rewrite P1; exact F|lia|lia| |].
    - intros i j x y Hij Hj Nj. apply S1; lia.
    - unfold andthen. rewrite E2. cbn [rbind]. replace (m + S c)%nat with (S m + c)%nat by lia. apply IH; [rewrite P2; exact P1|lia|exact S2]. }
  destruct l as [|x l]; [exists []; split_and!; [reflexivity..|]; intros i j a b _ E; inversion E|].
  destruct (Loop (length l) 0%nat (x :: l)) as (l' & E & P & S'); [reflexivity|cbn; lia|intros i j; lia|].
  exists l'. cbn [length Nat.sub]. rewrite Nat.sub_0_r. split_and!; [exact E|exact P|]. intros i j a b Hij Ea Eb.
  pose proof (lookup_lt_Some _ _ _ Eb) as Lj. rewrite (Permutation_length P) in Lj. cbn [length] in Lj. apply (S' i j); auto; lia.
Qed.

(** *** Sorted input *)

Lemma presorted_ok n : forall pm l, (pm + n = length l)%nat -> (1 <= pm)%nat ->
  exists b, presorted n pm l = Ok b
    /\ (b = true -> forall i x y, (pm <= i < pm + n)%nat -> l !! (i - 1)%nat = Some x -> l !! i = Some y -> cmp x y <= 0).
Proof.
  induction n as [|n IH]; intros pm l L P; cbn [presorted]; [exists true; split; [reflexivity|]; lia|].
  destruct (cmp_at_ok l (pm - 1) pm) as (x & y & Ex & Ey & ->); [lia|lia|]. cbn [rbind]. destruct (Z.ltb_spec 0 (cmp x y)) as [G|Le]; [exists false; split; [reflexivity|discriminate]|].
  destruct (IH (pm + 1)%nat l) as (b & -> & Hb); [lia|lia|]. exists b. split; [reflexivity|]. intros Eb i a c Hi Ea Ec.
  destruct (decide (i = pm)) as [-> |N]; [simplify_eq; exact Le|]. apply (Hb Eb i a c); auto; lia.
Qed.

Lemma adjacent_sorted l : Forall valid l -> (forall i x y, (1 <= i < length l)%nat -> l !! (i - 1)%nat = Some x -> l !! i = Some y -> cmp x y <= 0) -> sorted l.
Proof.
  intros F Ad i j x y Hij Ex Ey. revert y Ey. induction Hij as [|j Hij IH]; intros y Ey; pose proof (lookup_lt_Some _ _ _ Ey).
  - apply (Ad (S i)); [lia|rewrite Nat.sub_1_r; exact Ex|exact Ey].
  - destruct (lookup_lt_is_Some_2 l j) as [z Ez]; [lia|]. apply (cp_trans _ Cp x z y); try (eapply valid_lookup; eassumption); [exact (IH z Ez)|].
    apply (Ad (S j)); [lia|rewrite Nat.sub_1_r; exact Ez|exact Ey].
Qed.

(** *** Partitioning *)

(** The elements equal to [v] at both ends, those below it after the left ones, those
    above it before the right ones. *)
Record parts (v : A) (l : list A) (pa pb pc pd : nat) : Prop := {
  pt_order : (1 <= pa <= pb /\ pb <= pc + 1 /\ pc <= pd < length l)%nat;
  pt_pivot : l !! 0%nat = Some v;
  pt_equal : forall i x, l !! i = Some x -> (i < pa \/ pd < i)%nat -> cmp x v = 0;
  pt_below : forall i x, l !! i = Some x -> (pa <= i < pb)%nat -> cmp x v < 0;
  pt_above : forall i x, l !! i = Some x -> (pc < i <= pd)%nat -> 0 < cmp x v;
}.

(** The element at [i] is [x] after a swap. *)
Ltac swapped L := rewrite ?L; unfold transpose; repeat destruct decide; intros; simplify_eq; try lia.

Lemma scan_up_ok v pc pd : forall fuel l pa pb, parts v l pa pb pc pd -> (pc + 1 - pb < fuel)%nat ->
  exists l' pa' pb', scan_up fuel l pa pb pc = Ok (l', pa', pb') /\ l' ≡ₚ l /\ parts v l' pa' pb' pc pd /\ (pb <= pb')%nat
    /\ ((pc < pb')%nat \/ exists x, l' !! pb' = Some x /\ 0 < cmp x v).
Proof.
  induction fuel as [|fuel IH]; intros l pa pb P Hf; [lia|]. cbn [scan_up]. pose proof P as [(O1 & O2 & O3) Pv Pe Pb Pa].
  destruct (Nat.leb_spec pb pc) as [Le|Gt]; [|exists l, pa, pb; split_and!; auto].
  destruct (cmp_at_ok l pb 0) as (x & v' & Ex & Ev & ->); [lia|lia|]. cbn [rbind]. assert (v' = v) as -> by congruence.
  destruct (Z.leb_spec (cmp x v) 0) as [L0|G0]; [|exists l, pa, pb; split_and!; eauto].
  destruct (Z.eqb_spec (cmp x v) 0) as [E0|N0]; cbn [rbind].
  - destruct (swap_at_ok pa pb l) as (l1 & -> & P1 & L1); [lia|lia|]. cbn [rbind]. pose proof (Permutation_length P1) as Ln.
    destruct (IH l1 (pa + 1)%nat (pb + 1)%nat) as (l' & pa' & pb' & -> & P' & Q' & Hb & D).
    + split.
      * lia.
      * swapped L1. exact Pv.
      * intros i y. swapped L1; first [exact E0|apply (Pe i); [assumption|lia]].
      * intros i y. swapped L1; first [apply (Pb pa); [assumption|lia]|apply (Pb i); [assumption|lia]].
      * intros i y. swapped L1; apply (Pa i); [assumption|lia].
    + lia.
    + exists l', pa', pb'. split_and!; [reflexivity|rewrite P', P1; reflexivity|exact Q'|lia|exact D].
  - destruct (IH l pa (pb + 1)%nat) as (l' & pa' & pb' & -> & P' & Q' & Hb & D); [|lia|exists l', pa', pb'; split_and!; auto; lia].
    split; [lia|exact Pv|exact Pe| |exact Pa]. intros i y Ei Hi. destruct (decide (i = pb)) as [-> |N]; [simplify_eq; lia|apply (Pb i); [exact Ei|lia]].
Qed.

Lemma scan_down_ok v pa pb : forall fuel l pc pd, parts v l pa pb pc pd -> (pc + 1 - pb < fuel)%nat ->
  ((pc < pb)%nat \/ exists x, l !! pb = Some x /\ 0 < cmp x v) ->
  exists l' pc' pd', scan_down fuel l pb pc pd = Ok (l', pc', pd') /\ l' ≡ₚ l /\ parts v l' pa pb pc' pd' /\ (pc' <= pc)%nat
    /\ ((pc' < pb)%nat \/ exists x y, l' !! pb = Some x /\ 0 < cmp x v /\ l' !! pc' = Some y /\ cmp y v < 0 /\ (pb < pc')%nat).
Proof.
  induction fuel as [|fuel IH]; intros l pc pd P Hf Hb; [lia|]. cbn [scan_down]. pose proof P as [(O1 & O2 & O3) Pv Pe Pb Pa].
  destruct (Nat.leb_spec pb pc) as [Le|Gt]; [|exists l, pc, pd; split_and!; auto].
  destruct Hb as [?|(z & Ez & Gz)]; [lia|].
  destruct (cmp_at_ok l pc 0) as (x & v' & Ex & Ev & ->); [lia|lia|]. cbn [rbind]. assert (v' = v) as -> by congruence.
  destruct (Z.leb_spec 0 (cmp x v)) as [G0|L0].
  2:{ exists l, pc, pd. split_and!; auto. right. exists z, x. split_and!; auto. destruct (decide (pb = pc)) as [-> |]; [simplify_eq; lia|lia]. }
  destruct (Z.eqb_spec (cmp x v) 0) as [E0|N0]; cbn [rbind].
  - assert (pb < pc)%nat as Lt by (destruct (decide (pb = pc)) as [-> |]; [simplify_eq; lia|lia]).
    destruct (swap_at_ok pc pd l) as (l1 & -> & P1 & L1); [lia|lia|]. cbn [rbind]. pose proof (Permutation_length P1) as Ln.
    destruct (IH l1 (pc - 1)%nat (pd - 1)%nat) as (l' & pc' & pd' & -> & P' & Q' & Hc & D).
    + split.
      * lia.
      * swapped L1. exact Pv.
      * intros i y. swapped L1; first [exact E0|apply (Pe i); [assumption|lia]|assert (pc = pd) as -> by lia; congruence].
      * intros i y. swapped L1; apply (Pb i); [assumption|lia].
      * intros i y. swapped L1; first [apply (Pa pd); [assumption|lia]|apply (Pa i); [assumption|lia]].
    + lia.
    + right. exists z. split; [|exact Gz]. swapped L1. exact Ez.
    + exists l', pc', pd'. split_and!; [reflexivity|rewrite P', P1; reflexivity|exact Q'|lia|exact D].
  - destruct (IH l (pc - 1)%nat pd) as (l' & pc' & pd' & -> & P' & Q' & Hc & D).
    + split; [lia|exact Pv|exact Pe|exact Pb|]. intros i y Ei Hi. destruct (decide (i = pc)) as [-> |N]; [simplify_eq; lia|apply (Pa i); [exact Ei|lia]].
    + lia.
    + right. exists z. auto.
    + exists l', pc', pd'. split_and!; auto; lia.
Qed.

Lemma partition_ok v : forall fuel l pa pb pc pd, parts v l pa pb pc pd -> (pc + 1 - pb < fuel)%nat ->
  exists l' pa' pb' pc' pd', partition fuel l pa pb pc pd = Ok (l', pa', pb', pc', pd') /\ l' ≡ₚ l /\ parts v l' pa' pb' pc' pd' /\ pb' = S pc'.
Proof.
  induction fuel as [|fuel IH]; intros l pa pb pc pd P Hf; [lia|]. cbn [partition]. pose proof (pt_order _ _ _ _ _ _ P) as O.
  destruct (scan_up_ok v pc pd (S (length l)) l pa pb P) as (l1 & pa1 & pb1 & -> & P1 & Q1 & Hb & D1); [lia|]. cbn [rbind].
  pose proof (Permutation_length P1) as L1. pose proof (pt_order _ _ _ _ _ _ Q1) as O1.
  destruct (scan_down_ok v pa1 pb1 (S (length l1)) l1 pc pd Q1) as (l2 & pc2 & pd2 & -> & P2 & Q2 & Hc & D2); [lia|exact D1|]. cbn [rbind].
  pose proof (Permutation_length P2) as L2. pose proof Q2 as [(O2 & O3 & O4) Pv Pe Pb Pa].
  destruct (Nat.ltb_spec pc2 pb1) as [Lt|Ge].
  { exists l2, pa1, pb1, pc2, pd2. split_and!; [reflexivity|rewrite P2, P1; reflexivity|exact Q2|lia]. }
  destruct D2 as [?|(x & y & Ex & Gx & Ey & Ly & Lt)]; [lia|].
  destruct (swap_at_ok pb1 pc2 l2) as (l3 & -> & P3 & L3); [lia|lia|]. cbn [rbind]. pose proof (Permutation_length P3) as Ln.
  destruct (IH l3 pa1 (pb1 + 1)%nat (pc2 - 1)%nat pd2) as (l' & pa' & pb' & pc' & pd' & -> & P' & Q' & E').
  - split.
    + lia.
    + swapped L3. exact Pv.
    + intros i z. swapped L3; apply (Pe i); [assumption|lia].
    + intros i z. swapped L3; first [exact Ly|apply (Pb i); [assumption|lia]].
    + intros i z. swapped L3; first [exact Gx|apply (Pa i); [assumption|lia]].
  - lia.
  - exists l', pa', pb', pc', pd'. split_and!; [reflexivity|rewrite P', P3, P2, P1; reflexivity|exact Q'|exact E'].
Qed.

(** *** Putting the parts together *)

(** Where an element is after two blocks of [n] elements have changed places. *)
Definition block_swap (i j n k : nat) : nat :=
  if decide (i <= k < i + n)%nat then (k - i + j)%nat else if decide (j <= k < j + n)%nat then (k - j + i)%nat else k.

Lemma vecswap_ok i j : forall n l, (i + n <= j)%nat -> (j + n <= length l)%nat ->
  exists l', vecswap i j n l = Ok l' /\ l' ≡ₚ l /\ forall k, l' !! k = l !! block_swap i j n k.
Proof.
  assert (forall c m l, (i + (m + c) <= j)%nat -> (j + (m + c) <= length l)%nat ->
    exists l', for_each (seq m c) (fun k => swap_at (i + k) (j + k)) l = Ok l' /\ l' ≡ₚ l
      /\ forall k, l' !! k = l !! block_swap (i + m) (j + m) c k) as Loop.
  { induction c as [|c IH]; intros m l Hi Hj; cbn [seq for_each].
    - exists l. split_and!; [reflexivity..|]. intros k. unfold block_swap. repeat destruct decide; (lia || reflexivity).
    - destruct (swap_at_ok (i + m) (j + m) l) as (l1 & E1 & P1 & L1); [lia|lia|]. unfold andthen. rewrite E1. cbn [rbind].
      pose proof (Permutation_length P1). destruct (IH (S m) l1) as (l' & -> & P' & L'); [lia|lia|]. exists l'.
      split_and!; [reflexivity|rewrite P'; exact P1|]. intros k. rewrite L', L1. f_equal. unfold transpose, block_swap. repeat destruct decide; lia. }
  intros n l Hi Hj. destruct (Loop n 0%nat l) as (l' & E & P & L'); [lia|lia|]. exists l'. split_and!; [exact E|exact P|].
  rewrite !Nat.add_0_r in L'. exact L'.
Qed.

Lemma sorted_app l1 l2 : sorted l1 -> sorted l2 -> (forall x y, x ∈ l1 -> y ∈ l2 -> cmp x y <= 0) -> sorted (l1 ++ l2).
Proof.
  intros S1 S2 X i j x y Hij Ex Ey. apply lookup_app_Some in Ex as [Ex|[Li Ex]]; apply lookup_app_Some in Ey as [Ey|[Lj Ey]].
  - exact (S1 i j x y Hij Ex Ey).
  - apply X; eapply list_elem_of_lookup_2; eassumption.
  - apply lookup_lt_Some in Ey. lia.
  - apply (S2 (i - length l1)%nat (j - length l1)%nat); [lia|assumption..].
Qed.

(** Parts below, equal to and above [v]. *)
Lemma three_parts v lo mid hi : valid v -> Forall valid (lo ++ mid ++ hi) -> sorted lo -> sorted hi ->
  Forall (fun x => cmp x v < 0) lo -> Forall (fun x => cmp x v = 0) mid -> Forall (fun x => 0 < cmp x v) hi -> sorted (lo ++ mid ++ hi).
Proof.
  intros Vv F Sl Sh Fl Fm Fh. apply Forall_app in F as [Vl F]. apply Forall_app in F as [Vm Vh]. rewrite Forall_forall in *.
  assert (forall y, y ∈ mid ++ hi -> valid y /\ cmp v y <= 0) as Up.
  { intros y Hy. apply elem_of_app in Hy as [Hy|Hy].
    - split; [auto|]. specialize (Fm y Hy). pose proof (cp_sym _ Cp v y Vv (Vm y Hy)). lia.
    - split; [auto|]. apply flip; auto. }
  apply sorted_app; [exact Sl|apply sorted_app; [|exact Sh|]|].
  - intros i j x y _ Ex Ey. apply list_elem_of_lookup_2 in Ex, Ey. apply (cp_trans _ Cp x v y); auto; [rewrite Fm by exact Ex; lia|].
    apply Up, elem_of_app. auto.
  - intros x y Hx Hy. apply (cp_trans _ Cp x v y); auto; [rewrite Fm by exact Hx; lia|]. apply Up, elem_of_app. auto.
  - intros x y Hx Hy. destruct (Up y Hy). apply (cp_trans _ Cp x v y); auto. specialize (Fl x Hx). lia.
Qed.

(** A recursive call on a part. *)
Lemma on_range_ok f (pre part post : list A) a n : (forall l, Forall valid l -> (length l <= n)%nat -> exists l', f l = Ok l' /\ l' ≡ₚ l /\ sorted l') ->
  Forall valid part -> a = length pre -> n = length part ->
  exists part', when (1 <? n)%nat (on_range f a n) (pre ++ part ++ post) = Ok (pre ++ part' ++ post) /\ part' ≡ₚ part /\ sorted part'.
Proof.
  intros Hf F -> ->. destruct (Nat.ltb_spec 1 (length part)) as [L|L]; cbn [when].
  - unfold on_range. rewrite drop_app_length, take_app_length. destruct (Hf part F) as (part' & -> & P & S'); [lia|]. cbn [rbind].
    rewrite take_app_length. rewrite (app_assoc pre part post), drop_app_length' by (rewrite length_app; reflexivity). eauto.
  - exists part. split_and!; [reflexivity|reflexivity|]. intros i j x y Hij _ Ey. apply lookup_lt_Some in Ey. lia.
Qed.

Lemma split_three (l : list A) a b : (a <= b)%nat -> (b <= length l)%nat ->
  exists lo mid hi, l = lo ++ mid ++ hi /\ length lo = a /\ length hi = (length l - b)%nat
    /\ (forall x, x ∈ lo -> exists i, (i < a)%nat /\ l !! i = Some x)
    /\ (forall x, x ∈ mid -> exists i, (a <= i < b)%nat /\ l !! i = Some x)
    /\ (forall x, x ∈ hi -> exists i, (b <= i)%nat /\ l !! i = Some x).
Proof.
  intros Ha Hb. exists (take a l), (take (b - a) (drop a l)), (drop b l). split_and!.
  - rewrite <- (take_drop a l) at 1. f_equal. rewrite <- (take_drop (b - a) (drop a l)) at 1. f_equal. rewrite drop_drop. f_equal. lia.
  - rewrite length_take. lia.
  - apply length_drop.
  - intros x Hx. apply list_elem_of_lookup in Hx as [i Hi]. apply lookup_take_Some in Hi as [Hi Li]. eauto.
  - intros x Hx. apply list_elem_of_lookup in Hx as [i Hi]. apply lookup_take_Some in Hi as [Hi Li]. rewrite lookup_drop in Hi. exists (a + i)%nat. split; [lia|exact Hi].
  - intros x Hx. apply list_elem_of_lookup in Hx as [i Hi]. rewrite lookup_drop in Hi. exists (b + i)%nat. split; [lia|exact Hi].
Qed.

(** Where the elements come from when a block of [e] elements and one of [b] after it
    have changed sides, from position [p] on. *)
Lemma sides_swapped p e b i : let k := block_swap p (p + e + b - Nat.min e b) (Nat.min e b) i in
  ((i < p \/ p + e + b <= i)%nat -> k = i) /\ ((p <= i < p + b)%nat -> (p + e <= k < p + e + b)%nat)
  /\ ((p + b <= i < p + e + b)%nat -> (p <= k < p + e)%nat).
Proof.
  destruct (Nat.le_ge_cases e b) as [L|L]; [rewrite Nat.min_l by exact L; replace (p + e + b - e)%nat with (p + b)%nat by lia
    |rewrite Nat.min_r by exact L; replace (p + e + b - b)%nat with (p + e)%nat by lia];
    intros k; subst k; unfold block_swap; repeat destruct decide; lia.
Qed.

(** The blocks of equal elements go to the middle. *)
Lemma gather_parts v l pa pb pc pd : parts v l pa pb pc pd -> pb = S pc ->
  let n := length l in
  exists l1 l2, vecswap 0 (pb - Nat.min pa (pb - pa)) (Nat.min pa (pb - pa)) l = Ok l1
    /\ vecswap pb (n - Nat.min (pd - pc) (n - pd - 1)) (Nat.min (pd - pc) (n - pd - 1)) l1 = Ok l2 /\ l2 ≡ₚ l
    /\ forall i x, l2 !! i = Some x -> ((i < pb - pa)%nat -> cmp x v < 0)
         /\ ((pb - pa <= i < n - (pd - pc))%nat -> cmp x v = 0) /\ ((n - (pd - pc) <= i)%nat -> 0 < cmp x v).
Proof.
  intros [(O1 & O2 & O3) Pv Pe Pb Pa] Ep n. subst n.
  destruct (vecswap_ok 0 (pb - Nat.min pa (pb - pa)) (Nat.min pa (pb - pa)) l) as (l1 & -> & P1 & L1); [lia|lia|].
  pose proof (Permutation_length P1) as Ln.
  destruct (vecswap_ok pb (length l - Nat.min (pd - pc) (length l - pd - 1)) (Nat.min (pd - pc) (length l - pd - 1)) l1) as (l2 & E2 & P2 & L2); [lia|lia|].
  exists l1, l2. split_and!; [reflexivity|exact E2|rewrite P2; exact P1|]. intros i x. rewrite L2, L1. intros Ex.
  destruct (decide (i < length l)%nat) as [Li|Ni].
  - set (k2 := block_swap pb _ _ i) in *. set (k1 := block_swap 0 _ _ k2) in *.
    pose proof (sides_swapped 0 pa (pb - pa) k2) as S1. pose proof (sides_swapped pb (pd - pc) (length l - pd - 1) i) as S2. cbv zeta in S1, S2.
    replace (0 + pa + (pb - pa))%nat with pb in S1 by lia. replace (pb + (pd - pc) + (length l - pd - 1))%nat with (length l) in S2 by lia.
    fold k1 in S1. fold k2 in S2. destruct S1 as (A1 & A2 & A3), S2 as (B1 & B2 & B3). clearbody k1 k2.
    split_and!; intros Hi; [apply (Pb k1 x Ex)|apply (Pe k1 x Ex)|apply (Pa k1 x Ex)].
    + rewrite B1 in * by lia. lia.
    + destruct (decide (i < pb)%nat); [rewrite B1 in * by lia|rewrite A1 in * by lia]; lia.
    + rewrite A1 by lia. lia.
  - rewrite <- L1, <- L2 in Ex. apply lookup_lt_Some in Ex. rewrite (Permutation_length P2) in Ex. lia.
Qed.

(** Sorting the parts below and above [v], in either order. *)
Lemma sort_parts_ok f v l d1 d2 : let n := length l in
  (forall l', Forall valid l' -> (length l' < n)%nat -> exists l'', f l' = Ok l'' /\ l'' ≡ₚ l' /\ sorted l'') ->
  Forall valid l -> valid v -> (d1 + d2 < n)%nat ->
  (forall i x, l !! i = Some x -> ((i < d1)%nat -> cmp x v < 0) /\ ((d1 <= i < n - d2)%nat -> cmp x v = 0) /\ ((n - d2 <= i)%nat -> 0 < cmp x v)) ->
  let left := when (1 <? d1)%nat (on_range f 0 d1) in
  let right := when (1 <? d2)%nat (on_range f (n - d2) d2) in
  exists l', (if (d1 <=? d2)%nat then (left;; right) l else (right;; left) l) = Ok l' /\ l' ≡ₚ l /\ sorted l'.
Proof.
  intros n Rec F Vv Hd Sg left right. destruct (split_three l d1 (n - d2)) as (lo & mid & hi & E & Llo & Lhi & Flo & Fmid & Fhi); [lia|fold n; lia|].
  pose proof F as F'. rewrite E in F'. apply Forall_app in F' as [Vlo F']. apply Forall_app in F' as [_ Vhi]. fold n in Lhi.
  assert (length lo + length mid + length hi = n)%nat as Ls by (subst n; rewrite E, !length_app; lia).
  assert (forall X, exists lo', left (lo ++ X) = Ok (lo' ++ X) /\ lo' ≡ₚ lo /\ sorted lo') as Left.
  { intros X. apply (on_range_ok f [] lo X 0 d1); [intros l' F2 L2; apply Rec; [exact F2|lia]|exact Vlo|reflexivity|lia]. }
  assert (forall X, length X = (n - d2)%nat -> exists hi', right (X ++ hi) = Ok (X ++ hi') /\ hi' ≡ₚ hi /\ sorted hi') as Right.
  { intros X LX. destruct (on_range_ok f X hi [] (n - d2) d2) as (hi' & E' & ? & ?); [intros l' F2 L2; apply Rec; [exact F2|lia]|exact Vhi|lia|lia|].
    rewrite !app_nil_r in E'. eauto. }
  assert (exists lo' hi', (if (d1 <=? d2)%nat then (left;; right) l else (right;; left) l) = Ok (lo' ++ mid ++ hi')
    /\ lo' ≡ₚ lo /\ hi' ≡ₚ hi /\ sorted lo' /\ sorted hi') as (lo' & hi' & -> & Pl & Ph & Sl & Sh).
  { rewrite E. unfold andthen. destruct (d1 <=? d2)%nat.
    - destruct (Left (mid ++ hi)) as (lo' & -> & Pl & Sl). cbn [rbind].
      destruct (Right (lo' ++ mid)) as (hi' & Er & Ph & Sh); [rewrite length_app, (Permutation_length Pl); lia|]. rewrite <- !app_assoc in Er. rewrite Er. eauto 10.
    - destruct (Right (lo ++ mid)) as (hi' & Er & Ph & Sh); [rewrite length_app; lia|]. rewrite <- !app_assoc in Er. rewrite Er. cbn [rbind].
      destruct (Left (mid ++ hi')) as (lo' & -> & Pl & Sl). eauto 10. }
  assert (lo' ++ mid ++ hi' ≡ₚ l) as Pf by (rewrite E, Pl, Ph; reflexivity). eexists. split_and!; [reflexivity|exact Pf|].
  apply (three_parts v); [exact Vv|rewrite Pf; exact F|exact Sl|exact Sh|rewrite Pl|..|rewrite Ph]; apply Forall_forall; intros x Hx.
  - destruct (Flo x Hx) as (i & Hi & Ei). apply (Sg i x Ei), Hi.
  - destruct (Fmid x Hx) as (i & Hi & Ei). apply (Sg i x Ei), Hi.
  - destruct (Fhi x Hx) as (i & Hi & Ei). apply (Sg i x Ei), Hi.
Qed.

Lemma pg_qsort_ok : forall fuel l, Forall valid l -> (length l < fuel)%nat -> exists l', pg_qsort fuel l = Ok l' /\ l' ≡ₚ l /\ sorted l'.
Proof.
  induction fuel as [|fuel IH]; intros l F Hf; [lia|]. cbn [pg_qsort]. destruct (Nat.ltb_spec (length l) 7) as [L7|L7]; [exact (insertion_sort_ok l F)|].
  destruct (presorted_ok (length l - 1) 1 l) as (b & -> & Hb); [lia|lia|]. cbn [rbind]. destruct b.
  { exists l. split_and!; [reflexivity..|]. apply (adjacent_sorted l F). intros i x y Hi. apply (Hb eq_refl). lia. }
  destruct (choose_pivot_ok l) as (pm & -> & Lm); [lia|]. cbn [rbind].
  destruct (swap_at_ok 0 pm l) as (l0 & -> & P0 & _); [lia|lia|]. cbn [rbind]. pose proof (Permutation_length P0) as L0.
  destruct (lookup_lt_is_Some_2 l0 0) as [v Ev]; [lia|]. assert (Forall valid l0) as F0 by (rewrite P0; exact F).
  pose proof (valid_lookup l0 0 v F0 Ev) as Vv.
  destruct (partition_ok v (S (length l)) l0 1 1 (length l - 1) (length l - 1)) as (l1 & pa & pb & pc & pd & -> & P1 & Q1 & Eb).
  { split; [lia|exact Ev| |intros; lia|intros; lia]. intros i x Ex Hi. pose proof (lookup_lt_Some _ _ _ Ex). assert (i = 0%nat) as -> by lia.
    simplify_eq. exact (cp_refl _ Cp v Vv). }
  { lia. }
  cbn [rbind]. pose proof (pt_order _ _ _ _ _ _ Q1) as O. destruct (gather_parts v l1 pa pb pc pd Q1 Eb) as (l2 & l3 & E2 & E3 & P3 & Sg).
  assert (length l1 = length l) as Ln by (rewrite (Permutation_length P1); exact L0). assert (l3 ≡ₚ l) as Pl by (rewrite P3, P1; exact P0).
  assert (length l3 = length l) as Ln3 by exact (Permutation_length Pl). rewrite Ln in *. rewrite E2. cbn [rbind]. rewrite E3. cbn [rbind]. rewrite <- Ln3.
  destruct (sort_parts_ok (pg_qsort fuel) v l3 (pb - pa) (pd - pc)) as (l' & -> & P' & S').
  - intros l' F' L'. apply IH; [exact F'|lia].
  - rewrite Pl. exact F.
  - exact Vv.
  - lia.
  - rewrite Ln3. exact Sg.
  - exists l'. split_and!; [reflexivity|rewrite P'; exact Pl|exact S'].
Qed.
End qsort.

(** C16: qsort sorts: if the comparison function is that of a total preorder on the
    elements of the array, pg_qsort ends (with recursion no deeper than the number of
    elements), stays within the array, and leaves a permutation of the elements in
    which each compares at most equal to every later one. *)
Theorem qsort_sorts {A} (cmp : A -> A -> Z) (valid : A -> Prop) l : comparator cmp valid -> Forall valid l ->
  exists l', pg_qsort cmp (S (length l)) l = Ok l' /\ l' ≡ₚ l
    /\ forall i j x y, (i < j)%nat -> l' !! i = Some x -> l' !! j = Some y -> cmp x y <= 0.
Proof. intros Cp F. apply (pg_qsort_ok cmp valid Cp); [exact F|lia]. Qed.

(** Fifty numbers with duplicates: quicksort with medians of nine and insertion sort. *)
Definition qsort_sample : list Z := map (fun i => (i * 37) mod 17) (seqZ 0 50).

Lemma qsort_sorts_witness : exists l', pg_qsort Z.sub 51 qsort_sample = Ok l' /\ l' ≡ₚ qsort_sample /\ l' !! 0%nat = Some 0 /\ l' !! 49%nat = Some 16.
Proof.
  destruct (qsort_sorts Z.sub (fun _ => True) qsort_sample) as (l' & E & P & _).
  - split; intros; lia.
  - apply Forall_forall. auto.
  - exists l'. split_and!; [exact E|exact P| |];
      (assert (match pg_qsort Z.sub 51 qsort_sample with Ok l => bool_decide (l !! 0%nat = Some 0 /\ l !! 49%nat = Some 16) | Error _ => false end = true) as C
         by (vm_compute; reflexivity); change (S (length qsort_sample)) with 51%nat in E; rewrite E in C; apply bool_decide_eq_true in C; tauto).
Defined.
