(* ===== verification/GeqoRandom.v ===== *)
(** The random numbers of the genetic join search: the 48-bit generator of port/erand48.c
    and its use in optimizer/geqo/geqo_random.c and geqo_random.h. *)
From Stdlib Require Import SpecFloat.
From S2P Require Import Prelude Float64 Double DoubleOrder DoubleDiv DoubleRound DoubleUnit Bitmapset PlanTypes Samples PathCompare CostBase HashSize MergeKeys JoinPath.
Open Scope Z_scope.

(** ** Conversions *)

(** To unsigned short, unsigned long (64 bits) and int (with wrap-around: the backend is
    compiled with -fwrapv). *)
Definition ushort (n : Z) : Z := n mod 2 ^ 16.
Definition ulong (n : Z) : Z := n mod 2 ^ 64.
Definition wrap_int (n : Z) : Z := (n + 2 ^ 31) mod 2 ^ 32 - 2 ^ 31.

Lemma SFldexp_valid x n : valid64 x = true -> valid64 (SFldexp prec emax x n) = true.
Proof. destruct x; cbn; auto using binary_round_valid. Qed.

Definition ldexp (x : double) (n : Z) : double := mkD (SFldexp prec emax (SF x) n) (checked _ (SFldexp_valid _ n (SF_valid x))).

Definition SFfloor (x : spec_float) : spec_float :=
  match x with
  | S754_finite s m e =>
      if e <? 0 then
        let q := Zpos m / 2 ^ (- e) in
        let down := s && negb (Zpos m mod 2 ^ (- e) =? 0) in
        binary_normalize prec emax (cond_Zopp s (if down then q + 1 else q)) 0 s
      else x
  | _ => x
  end.

Lemma SFfloor_valid x : valid64 x = true -> valid64 (SFfloor x) = true.
Proof. destruct x; cbn; auto. intros. case_match; [apply binary_normalize_valid|assumption]. Qed.

Definition floor (x : double) : double := mkD (SFfloor (SF x)) (checked _ (SFfloor_valid _ (SF_valid x))).

(** ** The generator (erand48.c) *)

(** unsigned short xseed[3] *)
Record RandState := mkRandState { xseed0 : Z; xseed1 : Z; xseed2 : Z }.

Definition RAND48_MULT_0 : Z := 0xe66d.
Definition RAND48_MULT_1 : Z := 0xdeec.
Definition RAND48_MULT_2 : Z := 0x0005.
Definition RAND48_ADD : Z := 0x000b.

(** The last sum is computed in int: its operands are promoted unsigned shorts. *)
Definition _dorand48 (xseed : RandState) : RandState :=
  let accu := ulong (RAND48_MULT_0 * xseed0 xseed + RAND48_ADD) in
  let temp0 := ushort accu in
  let accu := Z.shiftr accu 16 in
  let accu := ulong (accu + ulong (RAND48_MULT_0 * xseed1 xseed + RAND48_MULT_1 * xseed0 xseed)) in
  let temp1 := ushort accu in
  let accu := Z.shiftr accu 16 in
  let product a b := wrap_int (a * b) in
  let sum := wrap_int (wrap_int (product RAND48_MULT_0 (xseed2 xseed) + product RAND48_MULT_1 (xseed1 xseed))
                       + product RAND48_MULT_2 (xseed0 xseed)) in
  let accu := ulong (accu + ulong sum) in
  mkRandState temp0 temp1 (ushort accu).

Definition pg_erand48 (xseed : RandState) : double * RandState :=
  let xseed := _dorand48 xseed in
  ((ldexp (i2d (xseed0 xseed)) (-48) + ldexp (i2d (xseed1 xseed)) (-32) + ldexp (i2d (xseed2 xseed)) (-16))%D, xseed).

(** The generators with integer results; _rand48_seed is the state of pg_lrand48. *)
Definition pg_lrand48 (_rand48_seed : RandState) : Z * RandState :=
  let s := _dorand48 _rand48_seed in (Z.shiftl (xseed2 s) 15 + Z.shiftr (xseed1 s) 1, s).

Definition pg_jrand48 (xseed : RandState) : Z * RandState :=
  let s := _dorand48 xseed in (Z.shiftl (xseed2 s) 16 + xseed1 s, s).

Definition RAND48_SEED_0 : Z := 0x330e.

Definition pg_srand48 (seed : Z) : RandState := mkRandState RAND48_SEED_0 (ushort seed) (ushort (Z.shiftr seed 16)).

(** ** geqo_random.c *)

(** The first six bytes of the seed's representation (little endian). *)
Definition geqo_set_seed (seed : double) : RandState :=
  let m := match SF seed with S754_finite _ m _ => Zpos m | _ => 0 end in
  mkRandState (ushort m) (ushort (Z.shiftr m 16)) (ushort (Z.shiftr m 32)).

Definition geqo_rand (rand : RandState) : double * RandState := pg_erand48 rand.

(** (int) floor(geqo_rand(root) * ((upper - lower) + 0.999999)) + lower *)
Definition geqo_randint (upper lower : Z) (rand : RandState) : result (Z * RandState) :=
  let (r, rand) := geqo_rand rand in
  let! n := defined (d2int (floor (r * (i2d (upper - lower) + dlit 999999 1000000))%D)) in
  Ok (n + lower, rand).

(** ** The generator is a linear congruence modulo 2^48 *)

Record rand_ok (s : RandState) : Prop := {
  ro_0 : 0 <= xseed0 s < 2 ^ 16;
  ro_1 : 0 <= xseed1 s < 2 ^ 16;
  ro_2 : 0 <= xseed2 s < 2 ^ 16;
}.

(** The state as one number, and its successor. *)
Definition state48 (s : RandState) : Z := xseed0 s + 2 ^ 16 * xseed1 s + 2 ^ 32 * xseed2 s.
Definition lcg (x : Z) : Z := (0x5deece66d * x + 0xb) mod 2 ^ 48.

Lemma state48_range s : rand_ok s -> 0 <= state48 s < 2 ^ 48.
Proof. intros [? ? ?]. unfold state48. lia. Qed.

Lemma state48_inj s t : rand_ok s -> rand_ok t -> state48 s = state48 t -> s = t.
Proof. destruct s, t. intros [? ? ?] [? ? ?]. unfold state48. cbn in *. intros. f_equal; lia. Qed.

Lemma ushort_range n : 0 <= ushort n < 2 ^ 16.
Proof. apply Z.mod_pos_bound. lia. Qed.

(** Every state reached is in range. *)
Lemma dorand48_ok s : rand_ok (_dorand48 s).
Proof. split; apply ushort_range. Qed.

Lemma set_seed_ok seed : rand_ok (geqo_set_seed seed).
Proof. split; apply ushort_range. Qed.

(** Wrap-around does not change the low bits. *)
Lemma ushort_ulong n : ushort (ulong n) = ushort n.
Proof. unfold ushort, ulong. apply Z.mod_mod_divide. exists (2 ^ 48). lia. Qed.

Lemma wrap_int_eq n : exists k, wrap_int n = n + k * 2 ^ 32.
Proof. exists (- ((n + 2 ^ 31) / 2 ^ 32)). unfold wrap_int. rewrite Z.mod_eq by lia. lia. Qed.

Lemma ushort_add_mul n k : ushort (n + k * 2 ^ 16) = ushort n.
Proof. apply Z_mod_plus_full. Qed.

Lemma ushort_eq n : ushort n = n - 2 ^ 16 * (n / 2 ^ 16).
Proof. apply Z.mod_eq. lia. Qed.

Lemma dorand48_lcg s : rand_ok s -> state48 (_dorand48 s) = lcg (state48 s).
Proof.
  intros [R0 R1 R2]. unfold _dorand48, RAND48_MULT_0, RAND48_MULT_1, RAND48_MULT_2, RAND48_ADD.
  set (x0 := xseed0 s) in *. set (x1 := xseed1 s) in *. set (x2 := xseed2 s) in *.
  set (a0 := 0xe66d * x0 + 0xb). assert (ulong a0 = a0) as -> by (apply Z.mod_small; lia).
  assert (ulong (0xe66d * x1 + 0xdeec * x0) = 0xe66d * x1 + 0xdeec * x0) as -> by (apply Z.mod_small; lia).
  rewrite Z.shiftr_div_pow2 by lia. set (a1 := a0 / 2 ^ 16 + (0xe66d * x1 + 0xdeec * x0)).
  assert (0 <= a0 / 2 ^ 16 < 2 ^ 16) as B0 by (split; [apply Z.div_pos; lia|apply Z.div_lt_upper_bound; lia]).
  assert (ulong a1 = a1) as -> by (apply Z.mod_small; lia). rewrite Z.shiftr_div_pow2 by lia.
  assert (0 <= a1 / 2 ^ 16 < 2 ^ 32) as B1 by (split; [apply Z.div_pos; lia|apply Z.div_lt_upper_bound; lia]).
  set (s0 := 0xe66d * x2 + 0xdeec * x1 + 0x5 * x0).
  match goal with |- context [ulong (a1 / 2 ^ 16 + ulong ?w)] => assert (exists k, w = s0 + k * 2 ^ 16) as (k & ->) end.
  { destruct (wrap_int_eq (0xe66d * x2)) as [k1 ->], (wrap_int_eq (0xdeec * x1)) as [k2 ->], (wrap_int_eq (0x5 * x0)) as [k3 ->].
    match goal with |- context [wrap_int (wrap_int ?a + _)] => destruct (wrap_int_eq a) as [k4 ->] end.
    match goal with |- context [wrap_int ?a] => destruct (wrap_int_eq a) as [k5 ->] end.
    exists ((k1 + k2 + k3 + k4 + k5) * 2 ^ 16). subst s0. lia. }
  rewrite ushort_ulong. assert (ushort (a1 / 2 ^ 16 + ulong (s0 + k * 2 ^ 16)) = ushort (a1 / 2 ^ 16 + s0)) as E.
  { unfold ulong. rewrite Z.mod_eq by lia. set (q := (s0 + k * 2 ^ 16) / 2 ^ 64).
    rewrite <- (ushort_add_mul (a1 / 2 ^ 16 + s0) (k - 2 ^ 48 * q)). f_equal. lia. }
  rewrite E. unfold state48, lcg. cbn [xseed0 xseed1 xseed2]. fold x0 x1 x2.
  set (a2 := a1 / 2 ^ 16 + s0). rewrite !ushort_eq. rewrite Z.mod_eq by lia.
  assert (0x5deece66d * (x0 + 2 ^ 16 * x1 + 2 ^ 32 * x2) + 0xb
    = (a0 - 2 ^ 16 * (a0 / 2 ^ 16)) + 2 ^ 16 * (a1 - 2 ^ 16 * (a1 / 2 ^ 16)) + 2 ^ 32 * (a2 - 2 ^ 16 * (a2 / 2 ^ 16))
      + 2 ^ 48 * (a2 / 2 ^ 16 + 0xdeec * x2 + 0x5 * x1 + 0x5 * 2 ^ 16 * x2)) as D by (subst a2 s0 a1 a0; lia).
  rewrite D. set (c := a2 / 2 ^ 16 + _ + _ + _) in *.
  assert (forall a q, 0 <= a < 2 ^ 48 -> (a + 2 ^ 48 * q) - 2 ^ 48 * ((a + 2 ^ 48 * q) / 2 ^ 48) = a) as S.
  { intros a q Ha. rewrite <- Z.mod_eq by lia. rewrite Z.mul_comm, Z_mod_plus_full. apply Z.mod_small, Ha. }
  rewrite S; [reflexivity|]. pose proof (ushort_range a0). pose proof (ushort_range a1). pose proof (ushort_range a2).
  rewrite ushort_eq in *. lia.
Qed.

(** ** Every state is reached from every other *)

(** The multiplier is 1 modulo 4 and the increment is odd. The sum of the first powers
    decides how far [2^k] steps go. *)
Section orbit.
Context (a c : Z).

Definition step (x : Z) : Z := a * x + c.

(** Sum of the first [n] powers of [a]. *)
Fixpoint powers (n : nat) : Z :=
  match n with O => 0 | S n => a ^ Z.of_nat n + powers n end.

Lemma iter_step n x : Nat.iter n step x = a ^ Z.of_nat n * x + c * powers n.
Proof.
  induction n as [|n IH]; [cbn; lia|]. rewrite Nat.iter_succ, IH. cbn [powers]. unfold step at 1. rewrite Nat2Z.inj_succ, Z.pow_succ_r by lia.
  assert (forall m, a * powers m + 1 = a ^ Z.of_nat m + powers m) as P.
  { clear. induction m as [|m IH]; cbn [powers]; [rewrite Z.pow_0_r; lia|].
    rewrite Nat2Z.inj_succ, Z.pow_succ_r by lia. lia. }
  specialize (P n). nia.
Qed.

Lemma powers_double n : powers (n + n) = powers n * (1 + a ^ Z.of_nat n).
Proof.
  assert (forall m, powers (m + n) = a ^ Z.of_nat n * powers m + powers n) as P.
  { clear. induction m as [|m IH]; cbn [Nat.add powers]; [lia|]. rewrite IH, Nat2Z.inj_add, Z.pow_add_r by lia. lia. }
  rewrite P. lia.
Qed.

Context (Ha : exists q, a = 1 + 4 * q) (Hc : Z.odd c = true).

(** After [2^k] steps. *)
Lemma double_steps k : (exists q, a ^ Z.of_nat (2 ^ k) = 1 + 2 ^ (Z.of_nat k + 2) * q)
  /\ exists q, powers (2 ^ k) = 2 ^ Z.of_nat k * (1 + 2 * q).
Proof.
  induction k as [|k ((q & Eq) & (r & Er))].
  { destruct Ha as [q Eq]. split; [exists q; cbn; lia|exists 0; cbn; lia]. }
  replace (2 ^ S k)%nat with (2 ^ k + 2 ^ k)%nat by (cbn; lia). rewrite Nat2Z.inj_add, Z.pow_add_r, powers_double, Eq, Er by lia.
  rewrite Nat2Z.inj_succ. set (K := Z.of_nat k) in *. unfold Z.succ. rewrite !Z.pow_add_r by lia.
  pose proof (pow2_pos K ltac:(lia)). change (2 ^ 2) with 4. change (2 ^ 1) with 2. split.
  - exists (q + 2 * 2 ^ K * q * q). ring.
  - exists (r + 2 ^ K * q * (1 + 2 * r)). ring.
Qed.

Lemma orbit k x y : exists j, (j < 2 ^ k)%nat /\ (2 ^ Z.of_nat k | Nat.iter j step x - y).
Proof.
  induction k as [|k (j & Lj & (d & Ed))]; [exists 0%nat; split; [cbn; lia|apply Z.divide_1_l]|].
  rewrite Nat2Z.inj_succ. set (K := Z.of_nat k) in *. rewrite Z.pow_succ_r by lia. cbn [Nat.pow].
  destruct (Z.even d) eqn:Ev.
  { apply Z.even_spec in Ev as (d' & ->). exists j. split; [lia|]. exists d'. lia. }
  exists (2 ^ k + j)%nat. split; [lia|]. rewrite Nat.iter_add, (iter_step (2 ^ k)).
  destruct (double_steps k) as ((q & ->) & (r & ->)). fold K. rewrite Z.pow_add_r by lia. change (2 ^ 2) with 4.
  apply Z.odd_spec in Hc as (c' & ->). rewrite <- Z.negb_odd, negb_false_iff in Ev. apply Z.odd_spec in Ev as (d' & ->).
  set (z := Nat.iter j step x) in *. assert (z = y + (2 * d' + 1) * 2 ^ K) as -> by lia.
  exists (d' + 1 + 2 * q * (y + (2 * d' + 1) * 2 ^ K) + c' + r + 2 * c' * r). ring.
Qed.
End orbit.

Lemma lcg_iter j x : 0 <= x < 2 ^ 48 -> Nat.iter j lcg x = Nat.iter j (step 0x5deece66d 0xb) x mod 2 ^ 48.
Proof.
  intros Hx. induction j as [|j IH]; [symmetry; apply Z.mod_small, Hx|].
  rewrite !Nat.iter_succ, IH. unfold lcg, step at 2. rewrite <- (Z.add_mod_idemp_l (_ * (_ mod _))), Z.mul_mod_idemp_r by lia.
  rewrite Z.add_mod_idemp_l by lia. reflexivity.
Qed.

(** From every state the generator comes to every state in less than [2^48] steps. *)
Lemma generator_reaches s t : rand_ok s -> rand_ok t ->
  exists j, Z.of_nat j < 2 ^ 48 /\ Nat.iter j _dorand48 s = t.
Proof.
  intros Hs Ht. destruct (orbit 0x5deece66d 0xb ltac:(exists 6303725979; reflexivity) eq_refl 48 (state48 s) (state48 t)) as (j & Lj & D).
  exists j. split.
  { apply Nat2Z.inj_lt in Lj. rewrite Nat2Z.inj_pow in Lj. exact Lj. }
  assert (rand_ok (Nat.iter j _dorand48 s) /\ state48 (Nat.iter j _dorand48 s) = Nat.iter j lcg (state48 s)) as [R E].
  { clear D Lj. induction j as [|j [R E]]; [auto|]. rewrite !Nat.iter_succ. split; [apply dorand48_ok|]. rewrite dorand48_lcg by exact R. f_equal. exact E. }
  apply state48_inj; [assumption..|]. rewrite E, lcg_iter by (apply state48_range, Hs).
  destruct D as [d D]. replace (Nat.iter j _ _) with (state48 t + d * 2 ^ 48) by (change (Z.of_nat 48) with 48 in D; lia).
  rewrite Z_mod_plus_full. apply Z.mod_small, state48_range, Ht.
Qed.

(** ** The random numbers *)

Lemma nonneg_ldexp x n : nonneg x = true -> nonneg (ldexp x n) = true.
Proof.
  destruct x as [[[]|[]| |[] m e] V]; unfold nonneg; cbn; intros; try done. destruct (binary_round_fits false m (e + n)) as (q & -> & _).
  unfold norm. repeat case_match; simplify_eq; reflexivity.
Qed.

(** [ldexp] of a small integer is exact. *)
Lemma cmag_ldexp n k : 0 <= n < 2 ^ 16 -> 0 <= k <= 48 -> cmag (ldexp (i2d n) (- k)) = n * 2 ^ (1074 - k).
Proof.
  intros Hn Hk. pose proof (cmag_i2d n ltac:(lia) ltac:(lia)) as E. pose proof (nonneg_i2d n ltac:(lia)) as P.
  pose proof (finite_i2d n ltac:(lia) ltac:(lia)) as F. unfold finite, cmag, ldexp in *. cbn [SF] in *. pose proof HUGE_pos.
  destruct (i2d n) as [[[]|[]| |[] m e] V]; try discriminate P; cbn [SF fmag SFldexp] in *; try lia.
  pose proof (bounded_range _ _ V) as [B M].
  assert (-53 <= e) as He.
  { destruct (Z.le_gt_cases (-53) e) as [|L]; [assumption|]. pose proof (pow2_le (e + 1074) 1020 ltac:(lia)) as P2.
    pose proof (pow2_pos (e + 1074) ltac:(lia)). assert (Zpos m * 2 ^ (e + 1074) < 2 ^ 1074) as L2.
    { change (2 ^ 1074) with (2 ^ 54 * 2 ^ 1020). nia. }
    assert (n = 0) as -> by (pose proof (pow2_pos 1074 ltac:(lia)); nia). lia. }
  rewrite fmag_binary_round by lia. replace (e + - k + 1074) with (e + 1074 - k) by lia.
  assert (Zpos m * 2 ^ (e + 1074 - k) = n * 2 ^ (1074 - k)) as ->.
  { apply (Z.mul_reg_r _ _ (2 ^ k)); [pose proof (pow2_pos k); lia|]. rewrite <- !Z.mul_assoc, <- !pow2_split by lia.
    replace (e + 1074 - k + k) with (e + 1074) by lia. replace (1074 - k + k) with 1074 by lia. exact E. }
  rewrite Rnd_exact, Z.sub_0_r by lia. apply Z.min_l. pose proof (pow2_le (1074 - k) 1074 ltac:(lia)).
  pose proof (pow2_pos (1074 - k) ltac:(lia)). change HUGE with (2 ^ 1024 * 2 ^ 1074). nia.
Qed.

(** Sums of multiples of [2^-48] below one are exact. *)
Lemma cmag_add_48 x y a b : nonneg x = true -> nonneg y = true -> 0 <= a -> 0 <= b -> a + b < 2 ^ 48 ->
  cmag x = a * 2 ^ 1026 -> cmag y = b * 2 ^ 1026 -> cmag (x + y)%D = (a + b) * 2 ^ 1026.
Proof.
  intros Hx Hy Ha Hb L Ex Ey. assert (forall c, 0 <= c -> c < 2 ^ 48 -> c * 2 ^ 1026 < HUGE) as S.
  { intros c H0 Hc. change HUGE with (2 ^ 1072 * 2 ^ 1026). apply Z.mul_lt_mono_pos_r; [apply pow2_pos; lia|]. pose proof (pow2_le 48 1072). lia. }
  rewrite cmag_add; [|assumption|assumption|apply finite_isnan; unfold finite; rewrite ?Ex, ?Ey; apply S; lia..].
  rewrite Ex, Ey, <- Z.mul_add_distr_r, Rnd_exact by lia. rewrite Z.sub_0_r. apply Z.min_l. specialize (S (a + b)). lia.
Qed.

(** The number drawn is the new state over [2^48], exactly: at least zero, below one. *)
Lemma erand48_value s : nonneg (pg_erand48 s).1 = true
  /\ cmag (pg_erand48 s).1 = state48 (pg_erand48 s).2 * 2 ^ 1026 /\ rand_ok (pg_erand48 s).2.
Proof.
  unfold pg_erand48. cbn [fst snd]. destruct (dorand48_ok s) as [R0 R1 R2]. set (t := _dorand48 s) in *.
  assert (forall n k, 0 <= n < 2 ^ 16 -> nonneg (ldexp (i2d n) k) = true) as Nn by (intros; apply nonneg_ldexp, nonneg_i2d; lia).
  pose proof (cmag_ldexp (xseed0 t) 48 R0 ltac:(lia)) as E0. pose proof (cmag_ldexp (xseed1 t) 32 R1 ltac:(lia)) as E1.
  pose proof (cmag_ldexp (xseed2 t) 16 R2 ltac:(lia)) as E2.
  replace (xseed1 t * 2 ^ (1074 - 32)) with (xseed1 t * 2 ^ 16 * 2 ^ 1026) in E1 by (rewrite <- Z.mul_assoc, <- pow2_split by lia; reflexivity).
  replace (xseed2 t * 2 ^ (1074 - 16)) with (xseed2 t * 2 ^ 32 * 2 ^ 1026) in E2 by (rewrite <- Z.mul_assoc, <- pow2_split by lia; reflexivity).
  split_and!; [|unfold state48|split; assumption].
  - apply nonneg_add; [apply nonneg_add|]; auto.
  - rewrite (cmag_add_48 _ _ (xseed0 t + xseed1 t * 2 ^ 16) (xseed2 t * 2 ^ 32)); [f_equal; lia|auto with nneg|auto|lia..| |exact E2].
    apply cmag_add_48; auto; try lia.
Qed.

(** The integer generators return the high bits of the new state: 31 of them, and 32. *)
Lemma lrand48_value s : (pg_lrand48 s).1 = state48 (pg_lrand48 s).2 / 2 ^ 17 /\ 0 <= (pg_lrand48 s).1 < 2 ^ 31.
Proof.
  unfold pg_lrand48. cbn [fst snd]. destruct (dorand48_ok s) as [R0 R1 R2]. set (t := _dorand48 s) in *.
  rewrite Z.shiftl_mul_pow2, Z.shiftr_div_pow2 by lia. unfold state48. change (2 ^ 1) with 2.
  pose proof (Z.div_mod (xseed1 t) 2 ltac:(lia)). pose proof (Z.mod_pos_bound (xseed1 t) 2 ltac:(lia)). split; [|lia].
  apply Z.div_unique with (r := xseed0 t + 2 ^ 16 * (xseed1 t mod 2)); lia.
Qed.

Lemma jrand48_value s : (pg_jrand48 s).1 = state48 (pg_jrand48 s).2 / 2 ^ 16 /\ 0 <= (pg_jrand48 s).1 < 2 ^ 32.
Proof.
  unfold pg_jrand48. cbn [fst snd]. destruct (dorand48_ok s) as [R0 R1 R2]. set (t := _dorand48 s) in *.
  rewrite Z.shiftl_mul_pow2 by lia. unfold state48. split; [|lia]. apply Z.div_unique with (r := xseed0 t); lia.
Qed.

Lemma rand_fraction s : fraction (geqo_rand s).1.
Proof.
  destruct (erand48_value s) as (N & E & R). split; [exact N|]. unfold cle, geqo_rand. rewrite E, cmag_one.
  pose proof (state48_range _ R). change (2 ^ 1074) with (2 ^ 48 * 2 ^ 1026). apply mul_pow2_le; lia.
Qed.

Lemma floor_below x n : nonneg x = true -> 0 <= n < 2 ^ 52 -> cmag x < (n + 1) * 2 ^ 1074 ->
  nonneg (floor x) = true /\ cmag (floor x) <= n * 2 ^ 1074.
Proof.
  intros Hx Hn L. unfold cmag, floor, nonneg in *. cbn [SF] in *. pose proof (pow2_pos 1074 ltac:(lia)) as P1.
  assert ((n + 1) * 2 ^ 1074 < HUGE) as Lh by (change HUGE with (2 ^ 1024 * 2 ^ 1074); apply Z.mul_lt_mono_pos_r; [exact P1|pose proof (pow2_le 53 1024); lia]).
  destruct x as [[[]|[]| |[] m e] V]; try discriminate Hx; cbn [SF SFfloor fmag andb cond_Zopp] in *; try (split; [reflexivity|lia]).
  pose proof (bounded_range _ _ V) as [B M]. destruct (Z.ltb_spec e 0) as [He|He].
  - pose proof (pow2_pos (- e) ltac:(lia)) as Hp. pose proof (pow2_pos (e + 1074) ltac:(lia)) as Hq.
    assert (0 <= Zpos m / 2 ^ (- e)) as Q0 by (apply Z.div_pos; lia).
    assert (Zpos m / 2 ^ (- e) <= n) as Q1.
    { assert (Zpos m / 2 ^ (- e) < n + 1); [|lia]. apply Z.div_lt_upper_bound; [exact Hp|].
      apply (Z.mul_lt_mono_pos_r (2 ^ (e + 1074))); [exact Hq|]. rewrite (Z.mul_comm (2 ^ (- e))), <- Z.mul_assoc, <- pow2_split by lia.
      replace (- e + (e + 1074)) with 1074 by lia. exact L. }
    split; [apply binary_normalize_nonneg; lia|]. change (cmag (i2d (Zpos m / 2 ^ (- e))) <= n * 2 ^ 1074).
    rewrite cmag_i2d by lia. apply mul_pow2_le; lia.
  - split; [reflexivity|]. cbn [fmag]. rewrite pow2_split in * by lia. rewrite Z.mul_assoc in *. pose proof (pow2_pos e He). nia.
Qed.

(** geqo_randint(upper, lower) lies between [lower] and [upper], whatever the state. *)
Lemma randint_range upper lower s : lower <= upper -> upper - lower < 2 ^ 31 ->
  exists n s', geqo_randint upper lower s = Ok (n, s') /\ lower <= n <= upper /\ rand_ok s'.
Proof.
  intros L1 L2. unfold geqo_randint. pose proof (rand_fraction s) as Fr. destruct (erand48_value s) as (_ & _ & Ro).
  unfold geqo_rand in *. destruct (pg_erand48 s) as [r s'] eqn:Es. cbn [fst snd] in *.
  set (d := upper - lower) in *. assert (0 <= d) as Hd by lia. set (c := dlit 999999 1000000).
  set (b := (i2d d + c)%D). pose proof (nonneg_i2d d Hd) as Nd.
  assert (nonneg c = true) as Nc by reflexivity.
  assert (cmag c <= (2 ^ 20 - 1) * 2 ^ 1054) as Lc by (apply Z.leb_le; vm_compute; reflexivity).
  assert (nonneg b = true) as Nb by (apply nonneg_add; assumption).
  assert (cmag b <= (d * 2 ^ 20 + 2 ^ 20 - 1) * 2 ^ 1054) as Lb.
  { unfold b. rewrite cmag_add; [|assumption|assumption|apply isnan_i2d|reflexivity]. rewrite cmag_i2d by lia.
    transitivity (Rnd 0 ((d * 2 ^ 20 + 2 ^ 20 - 1) * 2 ^ 1054)).
    - etransitivity; [apply Z.le_min_l|]. apply Rnd_mono; [lia|pose proof (cmag_range c); pose proof (pow2_pos 1074); nia|].
      change (2 ^ 1074) with (2 ^ 20 * 2 ^ 1054). lia.
    - rewrite Rnd_exact by lia. reflexivity. }
  assert ((d * 2 ^ 20 + 2 ^ 20 - 1) * 2 ^ 1054 < (d + 1) * 2 ^ 1074) as Lt
    by (change (2 ^ 1074) with (2 ^ 20 * 2 ^ 1054); pose proof (pow2_pos 1054); nia).
  assert ((d + 1) * 2 ^ 1074 < HUGE) as Lh
    by (change HUGE with (2 ^ 1024 * 2 ^ 1074); apply Z.mul_lt_mono_pos_r; [apply pow2_pos; lia|pose proof (pow2_le 32 1024); lia]).
  pose proof (mul_le_factor r b (fr_nonneg r Fr) Nb ltac:(unfold finite; lia) (fr_le r Fr)) as Lp. unfold cle in Lp.
  destruct (floor_below (r * b)%D d) as [Nf Lf]; [apply nonneg_mul; [apply Fr|exact Nb]|lia|lia|].
  destruct (d2int_bounded (floor (r * b)%D) d Nf) as (v & -> & Hv); [unfold INT_MAX; lia|unfold cle; rewrite cmag_i2d by lia; exact Lf|].
  cbn [defined rbind]. exists (v + lower), s'. split_and!; [reflexivity|lia|lia|exact Ro].
Qed.

(** C29: pg_erand48, which computes with 16-bit words, is the linear congruence
    x' = (0x5deece66d x + 11) mod 2^48 on the state read as one number, and the double it
    returns is x' / 2^48 exactly, so at least zero and below one. From every state the
    generator reaches every other state in less than 2^48 calls: no value is missing from
    its cycle. *)
Theorem erand48_spec s t : rand_ok s -> rand_ok t ->
  state48 (pg_erand48 s).2 = (0x5deece66d * state48 s + 11) mod 2 ^ 48
  /\ nonneg (pg_erand48 s).1 = true /\ cmag (pg_erand48 s).1 = state48 (pg_erand48 s).2 * 2 ^ 1026
  /\ ((pg_erand48 s).1 <? i2d 1)%D = true
  /\ exists j, Z.of_nat j < 2 ^ 48 /\ Nat.iter j (fun s => (pg_erand48 s).2) s = t.
Proof.
  intros Hs Ht. destruct (erand48_value s) as (N & E & R). split_and!; [exact (dorand48_lcg s Hs)|exact N|exact E| |exact (generator_reaches s t Hs Ht)].
  apply dlt_iff; [exact N|reflexivity|]. rewrite E, cmag_one. pose proof (state48_range _ R). pose proof (pow2_pos 1026 ltac:(lia)).
  change (2 ^ 1074) with (2 ^ 48 * 2 ^ 1026). split; [apply Z.mul_lt_mono_pos_r; lia|apply isnan_i2d].
Qed.

(** The first draw after the seed 0.5. *)
Lemma erand48_spec_witness : let s := geqo_set_seed (dlit 1 2) in
  state48 (pg_erand48 s).2 = 11 /\ exists j, Z.of_nat j < 2 ^ 48 /\ Nat.iter j (fun s => (pg_erand48 s).2) s = mkRandState 1 2 3.
Proof.
  intros s. assert (rand_ok (mkRandState 1 2 3)) as Ht by (split; cbn; lia).
  destruct (erand48_spec s (mkRandState 1 2 3) (set_seed_ok _) Ht) as (E & _ & _ & _ & R). split; [|exact R].
  rewrite E. vm_compute. reflexivity.
Defined.
