(* ===== verification/GeqoTour.v ===== *)
(** The tours of the genetic join search: the random tours of geqo_recombination.c and the
    edge recombination crossover of geqo_erx.c. A tour lists the numbers 1 .. num_gene of
    the relations in the order they are to be joined. *)
From stdpp Require Import list.
From S2P Require Import Prelude Float64 Double PlanTypes MergeKeys JoinPath BuildRel GeqoRandom.
Open Scope Z_scope.

(** typedef int Gene *)
Abbreviation Gene := Z (only parsing).

(** The assignment to an array element; outside of the array it is undefined. *)
Definition array_put {A} (l : list A) (ndx : Z) (x : A) : result (list A) :=
  let! _ := array_at l ndx in Ok (<[Z.to_nat ndx := x]> l).

(** ** Loops with a return *)

(** for (i = lo; i < lo + n; i++) if (test(i)) return i; *)
Fixpoint first_index (n : nat) (i : Z) (test : Z -> result bool) : result (option Z) :=
  match n with
  | O => Ok None
  | S n => let! b := test i in if b : bool then Ok (Some i) else first_index n (i + 1) test
  end.

(** for (i = lo; i < lo + n; i++) if (test(i)) { count--; if (count == decision) return i; } *)
Fixpoint counted_index (n : nat) (i : Z) (test : Z -> result bool) (count decision : Z) : result (option Z) :=
  match n with
  | O => Ok None
  | S n =>
      let! b := test i in
      if b : bool then
        if count - 1 =? decision then Ok (Some i) else counted_index n (i + 1) test (count - 1) decision
      else counted_index n (i + 1) test count decision
  end.

(** ** Random tours (geqo_recombination.c) *)

Definition init_tour (tour : list Gene) (num_gene : Z) (rand : RandState) : result (list Gene * RandState) :=
  let! tour := if 0 <? num_gene then array_put tour 0 1 else Ok tour in
  for_each (seqZ 1 (num_gene - 1)) (fun i '(tour, rand) =>
    let! (j, rand) := geqo_randint i 0 rand in
    let! tour := if negb (i =? j) then let! g := array_at tour j in array_put tour i g else Ok tour in
    let! tour := array_put tour j (i + 1) in
    Ok (tour, rand)) (tour, rand).

(** ** The edge table (geqo_erx.c, geqo_recombination.h) *)

(** The edges of a city: the first [total_edges] of edge_list[4] were registered, the
    first [unused_edges] are left; a shared edge is negative. *)
Record Edge := mkEdge { edge_list : list Gene; total_edges : Z; unused_edges : Z }.

Definition set_edge_list (e : Edge) (l : list Gene) : Edge := mkEdge l (total_edges e) (unused_edges e).
Definition set_unused (e : Edge) (n : Z) : Edge := mkEdge (edge_list e) (total_edges e) n.

(** Registers the edge; 1 if it is new, 0 if it was there. *)
Definition gimme_edge (city1 city2 : Gene) (edge_table : list Edge) : result (list Edge * Z) :=
  let! e := array_at edge_table city1 in
  let edges := total_edges e in
  let! found := first_index (Z.to_nat edges) 0 (fun i => let! g := array_at (edge_list e) i in Ok (Z.abs g =? city2)) in
  match found with
  | Some i =>
      let! l := array_put (edge_list e) i (0 - city2) in
      let! edge_table := array_put edge_table city1 (set_edge_list e l) in
      Ok (edge_table, 0)
  | None =>
      let! l := array_put (edge_list e) edges city2 in
      let! edge_table := array_put edge_table city1 (mkEdge l (edges + 1) (unused_edges e + 1)) in
      Ok (edge_table, 1)
  end.

(** The table, and the number of different edges, of which the average per city is
    returned. *)
Definition gimme_edge_table (tour1 tour2 : list Gene) (num_gene : Z) (edge_table : list Edge) : result (list Edge * Z) :=
  let! edge_table := for_each (seqZ 1 num_gene) (fun i edge_table =>
    let! e := array_at edge_table i in array_put edge_table i (mkEdge (edge_list e) 0 0)) edge_table in
  for_each (seqZ 0 num_gene) (fun index1 '(edge_table, edge_total) =>
    let index2 := Z.rem (index1 + 1) num_gene in
    let! a := array_at tour1 index1 in
    let! b := array_at tour1 index2 in
    let! (edge_table, new1) := gimme_edge a b edge_table in
    let! (edge_table, _) := gimme_edge b a edge_table in
    let! a := array_at tour2 index1 in
    let! b := array_at tour2 index2 in
    let! (edge_table, new2) := gimme_edge a b edge_table in
    let! (edge_table, _) := gimme_edge b a edge_table in
    Ok (edge_table, edge_total + new1 + new2)) (edge_table, 0).

(** Deletes the gene from the lists of the cities [edge] leads to. *)
Definition remove_gene (gene : Gene) (edge : Edge) (edge_table : list Edge) : result (list Edge) :=
  for_each (seqZ 0 (unused_edges edge)) (fun i edge_table =>
    let! g := array_at (edge_list edge) i in
    let possess_edge := Z.abs g in
    let! e := array_at edge_table possess_edge in
    let genes_remaining := unused_edges e in
    let! found := first_index (Z.to_nat genes_remaining) 0
      (fun j => let! g := array_at (edge_list e) j in Ok (Z.abs g =? gene)) in
    match found with
    | Some j =>
        let! last := array_at (edge_list e) (genes_remaining - 1) in
        let! l := array_put (edge_list e) j last in
        array_put edge_table possess_edge (mkEdge l (total_edges e) (genes_remaining - 1))
    | None => Ok edge_table
    end) edge_table.

(** The first loop of gimme_gene: a shared edge is taken at once ([inl]), else the fewest
    unused edges of a candidate and how many candidates have that many. *)
Fixpoint scan_candidates (n : nat) (i : Z) (edge : Edge) (edge_table : list Edge) (minimum_edges minimum_count : Z)
    : result (Gene + Z * Z) :=
  match n with
  | O => Ok (inr (minimum_edges, minimum_count))
  | S n =>
      let! friend := array_at (edge_list edge) i in
      if friend <? 0 then Ok (inl (Z.abs friend))
      else
        let! e := array_at edge_table friend in
        if unused_edges e <? minimum_edges then scan_candidates n (i + 1) edge edge_table (unused_edges e) 1
        else if minimum_count =? -1 then Error "minimum_count not set"
        else if unused_edges e =? minimum_edges then scan_candidates n (i + 1) edge edge_table minimum_edges (minimum_count + 1)
        else scan_candidates n (i + 1) edge edge_table minimum_edges minimum_count
  end.

Definition gimme_gene (edge : Edge) (edge_table : list Edge) (rand : RandState) : result (Gene * RandState) :=
  let n := Z.to_nat (unused_edges edge) in
  let! scan := scan_candidates n 0 edge edge_table 5 (-1) in
  match scan with
  | inl gene => Ok (gene, rand)
  | inr (minimum_edges, minimum_count) =>
      let! (rand_decision, rand) := geqo_randint (minimum_count - 1) 0 rand in
      let! found := counted_index n 0 (fun i =>
        let! friend := array_at (edge_list edge) i in
        let! e := array_at edge_table friend in
        Ok (unused_edges e =? minimum_edges)) minimum_count rand_decision in
      match found with
      | Some i => let! friend := array_at (edge_list edge) i in Ok (friend, rand)
      | None => Error "neither shared nor minimum number nor random edge found"
      end
  end.

(** A city that is not in the tour yet. *)
Definition remains (fail_gene : Gene) (edge_table : list Edge) (i : Z) : result bool :=
  let! e := array_at edge_table i in Ok (negb (unused_edges e =? -1) && negb (i =? fail_gene)).
Definition remains_four (fail_gene : Gene) (edge_table : list Edge) (i : Z) : result bool :=
  let! b := remains fail_gene edge_table i in
  let! e := array_at edge_table i in Ok (b && (total_edges e =? 4)).

(** How many i pass the test. *)
Fixpoint count_index (n : nat) (i : Z) (test : Z -> result bool) (count : Z) : result Z :=
  match n with
  | O => Ok count
  | S n => let! b := test i in count_index n (i + 1) test (if b : bool then count + 1 else count)
  end.

Definition edge_failure (gene : list Gene) (index : Z) (edge_table : list Edge) (num_gene : Z) (rand : RandState)
    : result (Gene * RandState) :=
  let n := Z.to_nat num_gene in
  let! fail_gene := array_at gene index in
  let! remaining_edges := count_index n 1 (remains fail_gene edge_table) 0 in
  let! four_count := count_index n 1 (remains_four fail_gene edge_table) 0 in
  let! (found, rand) :=
    if negb (four_count =? 0) then
      let! (rand_decision, rand) := geqo_randint (four_count - 1) 0 rand in
      let! found := counted_index n 1 (remains_four fail_gene edge_table) four_count rand_decision in
      Ok (found, rand)
    else if negb (remaining_edges =? 0) then
      let! (rand_decision, rand) := geqo_randint (remaining_edges - 1) 0 rand in
      let! found := counted_index n 1 (remains fail_gene edge_table) remaining_edges rand_decision in
      Ok (found, rand)
    else
      let! found := first_index n 1 (fun i => let! e := array_at edge_table i in Ok (0 <=? unused_edges e)) in
      Ok (found, rand) in
  match found with
  | Some i => Ok (i, rand)
  | None => Error "no edge found"
  end.

(** One gene after the other; the number of edge failures is returned as well. *)
Definition gimme_tour (edge_table : list Edge) (new_gene : list Gene) (num_gene : Z) (rand : RandState)
    : result (list Gene * list Edge * Z * RandState) :=
  let! (g0, rand) := geqo_randint num_gene 1 rand in
  let! new_gene := array_put new_gene 0 g0 in
  for_each (seqZ 1 (num_gene - 1)) (fun i '(new_gene, edge_table, edge_failures, rand) =>
    let! previous := array_at new_gene (i - 1) in
    let! edge := array_at edge_table previous in
    let! edge_table := remove_gene previous edge edge_table in
    let! edge := array_at edge_table previous in
    let! (next, edge_failures, rand) :=
      if 0 <? unused_edges edge then
        let! (next, rand) := gimme_gene edge edge_table rand in Ok (next, edge_failures, rand)
      else
        let! (next, rand) := edge_failure new_gene (i - 1) edge_table num_gene rand in Ok (next, edge_failures + 1, rand) in
    let! new_gene := array_put new_gene i next in
    let! edge := array_at edge_table previous in
    let! edge_table := array_put edge_table previous (set_unused edge (-1)) in
    Ok (new_gene, edge_table, edge_failures, rand)) (new_gene, edge_table, 0, rand).

Definition alloc_edge_table (num_gene : Z) (junk : Edge) : list Edge := replicate (Z.to_nat (num_gene + 1)) junk.
