(* ===== verification/GeqoPool.v ===== *)
(** The pool of the genetic join search (geqo_pool.c, geqo_copy.c) and the choice of the
    parents (geqo_selection.c). *)
From stdpp Require Import list.
From S2P Require Import Prelude Float64 Double PlanTypes CostBase MergeKeys JoinPath BuildRel Qsort GeqoRandom GeqoTour.
Open Scope Z_scope.

(** An individual of the population and its cost (geqo_gene.h). The strings of a pool are
    separate arrays, also while spread_chromo moves the pointers to them. *)
Record Chromosome := mkChromosome { string : list Gene; worth : Cost }.

(** ** Copying (geqo_copy.c) *)

(** The new contents of [chromo1]. *)
Definition geqo_copy (chromo1 chromo2 : Chromosome) (string_length : Z) : result Chromosome :=
  let! s := for_each (seqZ 0 string_length) (fun i s => let! g := array_at (string chromo2) i in array_put s i g) (string chromo1) in
  Ok (mkChromosome s (worth chromo2)).

(** ** The pool (geqo_pool.c) *)

Definition compare (chromo1 chromo2 : Chromosome) : Z :=
  if deq (worth chromo1) (worth chromo2) then 0
  else if (worth chromo1 >? worth chromo2)%D then 1
  else -1.

Definition sort_pool (data : list Chromosome) : result (list Chromosome) := pg_qsort compare (S (length data)) data.

(** The binary search of spread_chromo; every round shortens the range. *)
Fixpoint spread_search (fuel : nat) (w : Cost) (data : list Chromosome) (top mid bot : Z) : result Z :=
  match fuel with
  | O => Error "out of fuel"
  | S fuel =>
      let! t := array_at data top in
      let! m := array_at data mid in
      let! b := array_at data bot in
      if (w <=? worth t)%D then Ok top
      else if deq w (worth m) then Ok mid
      else if deq w (worth b) then Ok bot
      else if bot - top <=? 1 then Ok bot
      else if (w <? worth m)%D then
        let bot := mid in
        let mid := top + Z.quot (bot - top) 2 in
        spread_search fuel w data top mid bot
      else
        let top := mid in
        let mid := top + Z.quot (bot - top) 2 in
        spread_search fuel w data top mid bot
  end.

(** The loop that moves the elements from [index] on down by one. *)
Definition shift_down (index size : Z) (data : list Chromosome) (swap_chromo : Chromosome) : result (list Chromosome * Chromosome) :=
  for_each (seqZ index (size - index)) (fun i '(data, swap_chromo) =>
    let! tmp_chromo := array_at data i in
    let! data := array_put data i swap_chromo in
    Ok (data, tmp_chromo)) (data, swap_chromo).

Definition spread_chromo (chromo : Chromosome) (data : list Chromosome) (string_length : Z) : result (list Chromosome) :=
  let size := Z.of_nat (length data) in
  let! last := array_at data (size - 1) in
  if (worth chromo >? worth last)%D then Ok data
  else
    let! index := spread_search (length data) (worth chromo) data 0 (Z.quot size 2) (size - 1) in
    let! copy := geqo_copy last chromo string_length in
    let! data := array_put data (size - 1) copy in
    let! (data, _) := shift_down index size data copy in
    Ok data.

(** ** Selection (geqo_selection.c) *)

(** The random draws are repeated until one is in range. *)
Fixpoint linear_rand (fuel : nat) (pool_size : Z) (bias : double) (rand : RandState) : result (Z * RandState) :=
  match fuel with
  | O => Error "out of fuel"
  | S fuel =>
      let max := i2d pool_size in
      let (r, rand) := geqo_rand rand in
      let sqrtval := (bias * bias - i2d 4 * (bias - i2d 1) * r)%D in
      let sqrtval := if (sqrtval >? i2d 0)%D then dsqrt sqrtval else sqrtval in
      let index := (max * (bias - sqrtval) / i2d 2 / (bias - i2d 1))%D in
      if (index <? i2d 0)%D || (index >=? max)%D then linear_rand fuel pool_size bias rand
      else let! n := defined (d2int index) in Ok (n, rand)
  end.

(** while (first == second) second = linear_rand(...) *)
Fixpoint draw_other (fuel rounds : nat) (first second pool_size : Z) (bias : double) (rand : RandState) : result (Z * RandState) :=
  if first =? second then
    match rounds with
    | O => Error "out of fuel"
    | S rounds =>
        let! (second, rand) := linear_rand fuel pool_size bias rand in
        draw_other fuel rounds first second pool_size bias rand
    end
  else Ok (second, rand).

(** The positions of the parents. *)
Definition select_parents (fuel : nat) (pool_size : Z) (bias : double) (rand : RandState) : result (Z * Z * RandState) :=
  let! (first, rand) := linear_rand fuel pool_size bias rand in
  let! (second, rand) := linear_rand fuel pool_size bias rand in
  let! (second, rand) := if 1 <? pool_size then draw_other fuel fuel first second pool_size bias rand else Ok (second, rand) in
  Ok (first, second, rand).

Definition geqo_selection (fuel : nat) (momma daddy : Chromosome) (data : list Chromosome) (string_length : Z) (bias : double)
    (rand : RandState) : result (Chromosome * Chromosome * RandState) :=
  let! (first, second, rand) := select_parents fuel (Z.of_nat (length data)) bias rand in
  let! a := array_at data first in
  let! momma := geqo_copy momma a string_length in
  let! b := array_at data second in
  let! daddy := geqo_copy daddy b string_length in
  Ok (momma, daddy, rand).
