(* ===== verification/Geqo.v ===== *)
(** The genetic join search (optimizer/geqo/geqo_eval.c, geqo_pool.c, geqo_main.c): tours
    are turned into join trees and judged by the cost of their cheapest path. *)
From stdpp Require Import gmap.
From S2P Require Import Prelude Float64 Double Bitmapset PlanTypes AddPath Cheapest CostExpr CostScan CostBase HashSize CostJoin SizeEst ParamInfo CreatePath MergeKeys JoinPath JoinLegal BuildRel JoinOrder Qsort GeqoRandom GeqoTour GeqoPool.
Open Scope Z_scope.

(** The configuration variables of geqo_main.c. *)
Class GeqoSettings := {
  Geqo_effort : Z;
  Geqo_pool_size : Z;
  Geqo_generations : Z;
  Geqo_selection_bias : double;
  Geqo_seed : double;
}.

(** What palloc leaves in new memory. *)
Class OldMemory := {
  old_gene : Gene;
  old_worth : Cost;
  old_edge : Edge;
  old_edge_list : length (edge_list old_edge) = 4%nat;
}.

Definition DBL_MAX : double := i2d ((2 ^ 53 - 1) * 2 ^ 971).

(** ** Join trees (geqo_eval.c) *)

(** A set of relations joined so far, and how many there are. *)
Record Clump := mkClump { clump_joinrel : nat; clump_size : Z }.

(** A clump that joins no other goes to its place in the list, larger clumps first. *)
Fixpoint insert_after (clump : Clump) (rest : list Clump) : list Clump :=
  match rest with
  | [] => [clump]
  | nxt :: rest' => if clump_size clump >? clump_size nxt then clump :: rest else nxt :: insert_after clump rest'
  end.

Definition insert_clump (clumps : list Clump) (new_clump : Clump) : list Clump :=
  match clumps with
  | [] => [new_clump]
  | lc :: rest =>
      if clump_size new_clump =? 1 then clumps ++ [new_clump]
      else if clump_size new_clump >? clump_size lc then new_clump :: clumps
      else lc :: insert_after new_clump rest
  end.

Section geqo.
Context `{Libm, Settings, Catalog, Estimator, Equivalences, PathSupport, EClasses, JoinSupport, SearchSupport, GeqoSettings, OldMemory}.
Context (root : SearchRoot).

Definition desirable_join (outer_rel inner_rel : nat) (st : SearchState) : result (SearchState * bool) :=
  let! outer := rel_at st outer_rel in
  let! inner := rel_at st inner_rel in
  if have_relevant_joinclause outer inner then Ok (st, true) else have_join_order_restriction root outer_rel inner_rel st.

(** The loop over the clumps: the first that can be joined with [new_clump] is taken out
    of the list ([before] are the clumps already seen) and enlarged. *)
Fixpoint absorb_clump (before after : list Clump) (new_clump : Clump) (force : bool) (st : SearchState)
    : result (SearchState * option (list Clump * Clump)) :=
  match after with
  | [] => Ok (st, None)
  | old_clump :: after =>
      let! (st, wanted) :=
        if force then Ok (st, true) else desirable_join (clump_joinrel old_clump) (clump_joinrel new_clump) st in
      let! (st, joinrel) :=
        if wanted : bool then make_join_rel root (clump_joinrel old_clump) (clump_joinrel new_clump) st else Ok (st, None) in
      match joinrel with
      | Some joinrel =>
          let! st := finish_rel joinrel st in
          Ok (st, Some (before ++ after, mkClump joinrel (clump_size old_clump + clump_size new_clump)))
      | None => absorb_clump (before ++ [old_clump]) after new_clump force st
      end
  end.

(** Every recursive call has one clump less. *)
Fixpoint merge_loop (fuel : nat) (clumps : list Clump) (new_clump : Clump) (force : bool) (st : SearchState)
    : result (SearchState * list Clump) :=
  match fuel with
  | O => Error "out of fuel"
  | S fuel =>
      let! (st, found) := absorb_clump [] clumps new_clump force st in
      match found with
      | Some (clumps, old_clump) => merge_loop fuel clumps old_clump force st
      | None => Ok (st, insert_clump clumps new_clump)
      end
  end.

Definition merge_clump (clumps : list Clump) (new_clump : Clump) (force : bool) (st : SearchState) : result (SearchState * list Clump) :=
  merge_loop (S (length clumps)) clumps new_clump force st.

(** [None] if the tour has no valid join order. [initial] is private->initial_rels. *)
Definition gimme_tree (initial : list nat) (tour : list Gene) (num_gene : Z) (st : SearchState) : result (SearchState * option nat) :=
  let! (st, clumps) := for_each (seqZ 0 num_gene) (fun rel_count '(st, clumps) =>
    let! cur_rel_index := array_at tour rel_count in
    let! cur_rel := array_at initial (cur_rel_index - 1) in
    merge_clump clumps (mkClump cur_rel 1) false st) (st, []) in
  let! (st, clumps) :=
    if (1 <? length clumps)%nat then for_each clumps (fun clump '(st, fclumps) => merge_clump fclumps clump true st) (st, [])
    else Ok (st, clumps) in
  match clumps with
  | [clump] => Ok (st, Some (clump_joinrel clump))
  | _ => Ok (st, None)
  end.

(** The join relations that gimme_tree makes are forgotten again. *)
Definition geqo_eval (initial : list nat) (tour : list Gene) (num_gene : Z) (st : SearchState) : result (Cost * SearchState) :=
  let savelength := length (join_rel_list st) in
  let savehash := join_rel_hash st in
  let st := set_join_rels st (join_rel_list st) None in
  let! (st, joinrel) := gimme_tree initial tour num_gene st in
  let! fitness :=
    match joinrel with
    | Some joinrel =>
        let! node := rel_at st joinrel in
        let! best_path := deref (cheapest_total_path (rn_paths node)) in
        Ok (total_cost best_path)
    | None => Ok DBL_MAX
    end in
  Ok (fitness, set_join_rels st (take savelength (join_rel_list st)) savehash).

(** ** The first population (geqo_pool.c) *)

Definition alloc_chromo (string_length : Z) : Chromosome := mkChromosome (replicate (Z.to_nat (string_length + 1)) old_gene) old_worth.

Definition alloc_pool (pool_size string_length : Z) : list Chromosome := replicate (Z.to_nat pool_size) (alloc_chromo string_length).

(** Tours without a valid plan are thrown away; the fuel bounds how many are tried. *)
Fixpoint random_init_pool (fuel : nat) (initial : list nat) (string_length i bad : Z) (data : list Chromosome) (rand : RandState)
    (st : SearchState) : result (list Chromosome * RandState * SearchState) :=
  if i <? Z.of_nat (length data) then
    match fuel with
    | O => Error "out of fuel"
    | S fuel =>
        let! chromo := array_at data i in
        let! (tour, rand) := init_tour (string chromo) string_length rand in
        let! (fitness, st) := geqo_eval initial tour string_length st in
        let! data := array_put data i (mkChromosome tour fitness) in
        if (fitness <? DBL_MAX)%D then random_init_pool fuel initial string_length (i + 1) bad data rand st
        else
          let bad := bad + 1 in
          if (i =? 0) && (10000 <=? bad) then Error "geqo failed to make a valid plan"
          else random_init_pool fuel initial string_length i bad data rand st
    end
  else Ok (data, rand, st).

(** ** The search (geqo_main.c) *)

Definition gimme_pool_size (nr_rel : Z) : result Z :=
  if 2 <=? Geqo_pool_size then Ok Geqo_pool_size
  else
    let size := pow (i2d 2) (i2d nr_rel + i2d 1)%D in
    let maxsize := 50 * Geqo_effort in
    if (size >? i2d maxsize)%D then Ok maxsize
    else
      let minsize := 10 * Geqo_effort in
      if (size <? i2d minsize)%D then Ok minsize
      else defined (d2int (ceil size)).

Definition gimme_number_generations (pool_size : Z) : Z :=
  if 0 <? Geqo_generations then Geqo_generations else pool_size.

(** The variables of the main loop. *)
Record GeqoState := mkGeqoState {
  gs_momma : Chromosome;
  gs_daddy : Chromosome;
  gs_edge_table : list Edge;
  gs_pool : list Chromosome;
  gs_rand : RandState;
  gs_search : SearchState;
}.

(** One round of the loop (ERX): the child is made in the memory of momma. *)
Definition geqo_generation (draws : nat) (initial : list nat) (string_length : Z) (gs : GeqoState) : result GeqoState :=
  let! (momma, daddy, rand) :=
    geqo_selection draws (gs_momma gs) (gs_daddy gs) (gs_pool gs) string_length Geqo_selection_bias (gs_rand gs) in
  let! (edge_table, _) := gimme_edge_table (string momma) (string daddy) string_length (gs_edge_table gs) in
  let! (tour, edge_table, _, rand) := gimme_tour edge_table (string momma) string_length rand in
  let! (fitness, st) := geqo_eval initial tour string_length (gs_search gs) in
  let kid := mkChromosome tour fitness in
  let! pool := spread_chromo kid (gs_pool gs) string_length in
  Ok (mkGeqoState kid daddy edge_table pool rand st).

(** [tries] bounds the tours tried for the first population, [draws] the random numbers
    drawn for a parent. *)
Definition geqo (tries draws : nat) (number_of_rels : nat) (initial : list nat) (st : SearchState) : result (SearchState * nat) :=
  let string_length := Z.of_nat number_of_rels in
  let rand := geqo_set_seed Geqo_seed in
  let! pool_size := gimme_pool_size string_length in
  let number_generations := gimme_number_generations pool_size in
  let! (pool, rand, st) := random_init_pool tries initial string_length 0 0 (alloc_pool pool_size string_length) rand st in
  let! pool := sort_pool pool in
  let gs := mkGeqoState (alloc_chromo string_length) (alloc_chromo string_length) (alloc_edge_table string_length old_edge) pool rand st in
  let! gs := for_each (seqZ 0 number_generations) (fun _ => geqo_generation draws initial string_length) gs in
  let! best := array_at (gs_pool gs) 0 in
  let! (st, best_rel) := gimme_tree initial (string best) string_length (gs_search gs) in
  match best_rel with
  | Some rel => Ok (st, rel)
  | None => Error "geqo failed to make a valid plan"
  end.
End geqo.
