(* ===== verification/JoinList.v ===== *)
(** Join lists (optimizer/path/allpaths.c): which search finds the order of their
    relations. *)
From stdpp Require Import gmap.
From S2P Require Import Prelude Float64 Double Bitmapset PlanTypes AddPath Cheapest CostExpr CostScan CostJoin SizeEst ParamInfo CreatePath MergeKeys JoinPath JoinLegal BuildRel JoinOrder Geqo.
Open Scope Z_scope.

(** The extension hook, when the genetic search is used, and the fuel of its loops. *)
Class OrderSearch := {
  join_search_hook : option (nat -> list nat -> SearchState -> result (SearchState * nat));
  enable_geqo : bool;
  geqo_threshold : Z;
  geqo_tries : nat;
  geqo_draws : nat;
}.

(** A RangeTblRef or a sub-joinlist. *)
Inductive JoinListNode :=
| JLRef (rtindex : Z)
| JLList (joinlist : list JoinListNode).

Section joinlist.
Context `{Libm, Settings, Catalog, Estimator, Equivalences, PathSupport, EClasses, JoinSupport, SearchSupport, GeqoSettings, OldMemory, OrderSearch}.
Context (root : SearchRoot).

(** The search over the orders of the collected relations; a NULL among several would be
    dereferenced. *)
Definition search_joinlist (rels : list (option nat)) (st : SearchState) : result (SearchState * option nat) :=
  match rels with
  | [] => Ok (st, None)
  | [rel] => Ok (st, rel)
  | _ =>
      let levels_needed := length rels in
      let! initial := deref (mapM id rels) in
      let st := set_initial st initial in
      let! (st, rel) :=
        match join_search_hook with
        | Some hook => hook levels_needed initial st
        | None => if enable_geqo && (geqo_threshold <=? Z.of_nat levels_needed) then geqo root geqo_tries geqo_draws levels_needed initial st
                  else standard_join_search root levels_needed initial st
        end in
      Ok (st, Some rel)
  end.

(** The relation of a node of a joinlist, [None] for NULL. *)
Fixpoint make_rel (node : JoinListNode) (st : SearchState) : result (SearchState * option nat) :=
  match node with
  | JLRef rtindex => let! n := base_rel root rtindex in Ok (st, Some n)
  | JLList joinlist =>
      let! (st, rels) :=
        (fix collect (l : list JoinListNode) (st : SearchState) : result (SearchState * list (option nat)) :=
           match l with
           | [] => Ok (st, [])
           | jlnode :: l =>
               let! (st, thisrel) := make_rel jlnode st in
               let! (st, rels) := collect l st in
               Ok (st, thisrel :: rels)
           end) joinlist st in
      search_joinlist rels st
  end.

Definition make_rel_from_joinlist (joinlist : list JoinListNode) : SearchState -> result (SearchState * option nat) :=
  make_rel (JLList joinlist).

End joinlist.
