(* ===== verification/JoinParts.v ===== *)
(** The inputs of a search over join orders: how many rows the joins of some of them can
    have, and join relations as sets of inputs. *)
From stdpp Require Import gmap relations.
From S2P Require Import Prelude Float64 Double DoubleOrder DoubleDiv DoubleRound DoubleUnit Bitmapset BitmapsetSpec PlanTypes CostExpr CostBase CostScan CostScanSpec CostNode HashSize CostJoin CostJoinSpec SizeEst SizeEstSpec.
Open Scope Z_scope.

(** ** Row counts of joins *)

(** [2^m] rows. *)
Definition row_cap (m : Z) : double := i2d (2 ^ m).

Lemma cmag_cap m : 0 <= m <= 1000 -> cmag (row_cap m) = 2 ^ (1074 + m).
Proof.
  intros Hm. unfold row_cap, cmag, i2d. cbn [SF]. rewrite fmag_normalize_int by (apply Z.pow_nonneg; lia).
  rewrite <- Z.pow_add_r by lia. rewrite <- (Z.mul_1_l (2 ^ (m + 1074))), Rnd_exact by lia.
  unfold sat, HUGE. rewrite Z.mul_1_l, Z.min_l; [f_equal; lia|]. apply Z.pow_le_mono_r; lia.
Qed.

Lemma nonneg_cap m : 0 <= m -> nonneg (row_cap m) = true.
Proof. intros Hm. apply nonneg_i2d. apply Z.pow_nonneg. lia. Qed.

Lemma cap_count m : 0 <= m <= 1000 -> row_count (row_cap m).
Proof.
  intros Hm. pose proof (cmag_cap m Hm) as E. split; [apply nonneg_cap; lia| | |].
  - unfold finite, HUGE. rewrite E. apply Z.pow_lt_mono_r; lia.
  - right. exists (2 ^ m). rewrite E, Z.pow_add_r by lia. ring.
  - rewrite E. apply Z.pow_pos_nonneg; lia.
Qed.

Lemma cap_mul x y a b : nonneg x = true -> nonneg y = true -> 0 <= a -> 0 <= b -> a + b <= 1000 ->
  x ⊑ row_cap a -> y ⊑ row_cap b -> (x * y)%D ⊑ row_cap (a + b).
Proof.
  intros Hx Hy Ha Hb Hab Lx Ly. pose proof (cap_count a ltac:(lia)) as [_ Fa _ _]. pose proof (cap_count b ltac:(lia)) as [_ Fb _ _].
  pose proof (finite_le _ _ Fa Lx) as Fx. pose proof (finite_le _ _ Fb Ly) as Fy. unfold cle in *.
  rewrite cmag_mul by assumption. rewrite cmag_cap in * by lia. pose proof (cmag_range x). pose proof (cmag_range y).
  assert (Rnd 1074 (cmag x * cmag y) <= Rnd 1074 (1 * 2 ^ (2148 + (a + b)))) as R.
  { apply Rnd_mono; [lia|nia|]. replace (2148 + (a + b)) with ((1074 + a) + (1074 + b)) by lia. rewrite Z.mul_1_l, Z.pow_add_r by lia.
    apply Z.mul_le_mono_nonneg; lia. }
  rewrite Rnd_exact in R by lia. rewrite Z.mul_1_l in R. replace (2148 + (a + b) - 1074) with (1074 + (a + b)) in R by lia.
  unfold sat. lia.
Qed.

(** The rows of a relation, also of one that was proven empty. *)
Record rows_within (x : double) (m : Z) : Prop := {
  rw_nonneg : nonneg x = true;
  rw_cap : x ⊑ row_cap m;
}.

Lemma within_product x y a b : 0 <= a -> 0 <= b -> a + b <= 1000 -> rows_within x a -> rows_within y b ->
  finite (x * y)%D /\ (x * y)%D ⊑ row_cap (a + b).
Proof.
  intros Ha Hb Hab [Hx Lx] [Hy Ly]. pose proof (cap_mul x y a b Hx Hy Ha Hb Hab Lx Ly) as L. split; [|exact L].
  eapply finite_le; [|exact L]. apply cap_count. lia.
Qed.

Section size.
Context `{Settings, Catalog, Estimator, !EstimatorLaws}.

(** The size of an inner join, also over an empty input. *)
Lemma inner_join_size root outer inner sj clauses a b : Forall (fkey_ok root) (fkey_list root) -> sj_jointype sj = JOIN_INNER ->
  0 <= a -> 0 <= b -> a + b <= 1000 -> rows_within (rel_rows outer) a -> rows_within (rel_rows inner) b ->
  exists n, calc_joinrel_size_estimate root outer inner (rel_rows outer) (rel_rows inner) sj clauses = Ok n
    /\ row_count n /\ rows_within n (a + b).
Proof.
  intros Hf Hj Ha Hb Hab Ho Hi. destruct (within_product _ _ a b Ha Hb Hab Ho Hi) as [Fp Lp].
  unfold calc_joinrel_size_estimate, get_foreign_key_join_selectivity. rewrite Hj.
  destruct (fk_loop_ok root (fkey_list root) (relids outer) (relids inner) JOIN_INNER clauses _ Hf fraction_one)
    as (f & kept & used & -> & Ff & _). cbn [rbind IS_OUTER_JOIN].
  pose proof (selectivity_fraction kept 0 JOIN_INNER (Some sj)) as Fj.
  destruct (join_product_ok _ _ f _ (rw_nonneg _ _ Ho) (rw_nonneg _ _ Hi) Ff Fj) as [P1 P2]. specialize (P2 Fp).
  eexists. split; [reflexivity|]. pose proof (clamp_count _ P1 (finite_le _ _ Fp P2)) as C. split; [exact C|].
  split; [apply C|]. apply clamp_le_count; [apply cap_count; lia|exact P1|]. etransitivity; eassumption.
Qed.
End size.

(** ** Relations as sets of inputs *)

Section parts.
Context (initial : list Relids).

(** The inputs have relations of their own. *)
Record inputs_apart : Prop := {
  ia_wf : Forall bms_wf initial;
  ia_some : forall i r, initial !! i = Some r -> exists x, member x r;
  ia_apart : forall i j r r' x, initial !! i = Some r -> initial !! j = Some r' -> member x r -> member x r' -> i = j;
}.
Context (Ia : inputs_apart).

(** The set is the union of the inputs in [parts]. *)
Record composed (parts : gset nat) (relids : Relids) : Prop := {
  cs_wf : bms_wf relids;
  cs_bound : forall i, i ∈ parts -> (i < length initial)%nat;
  cs_members : forall x, member x relids <-> exists i r, i ∈ parts /\ initial !! i = Some r /\ member x r;
}.

Lemma composed_part parts relids i r x : composed parts relids -> initial !! i = Some r -> member x r -> member x relids -> i ∈ parts.
Proof.
  intros [_ _ M] Hi Hx Hr. apply M in Hr as (j & r' & Hj & Hr' & Hx'). rewrite (ia_apart Ia i j r r' x Hi Hr' Hx Hx'). exact Hj.
Qed.

Lemma composed_input i r : initial !! i = Some r -> composed {[i]} r.
Proof.
  intros Hi. split.
  - pose proof (ia_wf Ia) as W. rewrite Forall_forall in W. eapply W, list_elem_of_lookup_2, Hi.
  - intros j Hj. apply elem_of_singleton in Hj as ->. eapply lookup_lt_Some, Hi.
  - intros x. split; [intros Hx; exists i, r; split_and!; [set_solver|exact Hi|exact Hx]|].
    intros (j & r' & Hj & Hr' & Hx). apply elem_of_singleton in Hj as ->. simplify_eq. exact Hx.
Qed.

Lemma composed_overlap p q a b : composed p a -> composed q b -> bms_overlap a b = false <-> p ## q.
Proof.
  intros A B. pose proof A as [Wa Ba Ma]. pose proof B as [Wb _ Mb]. rewrite <- not_true_iff_false, bms_overlap_spec by assumption. split.
  - intros N i Hp Hq. apply N. destruct (lookup_lt_is_Some_2 initial i (Ba i Hp)) as [r Hr]. destruct (ia_some Ia i r Hr) as [x Hx].
    exists x. split; [apply Ma|apply Mb]; eauto.
  - intros D (x & Xa & Xb). apply Ma in Xa as (i & r & Hi & Hr & Hx).
    exact (D i Hi (composed_part q b i r x B Hr Hx Xb)).
Qed.

Lemma composed_equal p q a b : composed p a -> composed q b -> bms_equal a b = true <-> p = q.
Proof.
  intros A B. pose proof A as [Wa Ba Ma]. pose proof B as [Wb Bb Mb]. rewrite bms_equal_subset by assumption. unfold subset. split.
  - intros [S1 S2]. apply set_eq. intros i. split; intros Hi.
    + destruct (lookup_lt_is_Some_2 initial i (Ba i Hi)) as [r Hr]. destruct (ia_some Ia i r Hr) as [x Hx].
      apply (composed_part q b i r x B Hr Hx), S1, Ma. eauto.
    + destruct (lookup_lt_is_Some_2 initial i (Bb i Hi)) as [r Hr]. destruct (ia_some Ia i r Hr) as [x Hx].
      apply (composed_part p a i r x A Hr Hx), S2, Mb. eauto.
  - intros ->. split; intros x Hx; [apply Mb, Ma, Hx|apply Ma, Mb, Hx].
Qed.

Lemma composed_union p q a b : composed p a -> composed q b ->
  composed (p ∪ q) (bms_union a b) /\ represents (bms_union a b) (fun x => member x a \/ member x b).
Proof.
  intros [Wa Ba Ma] [Wb Bb Mb]. pose proof (represents_lor _ _ _ (bms_union_spec a b Wa Wb)) as U. split; [|exact U].
  destruct U as [Wu Mu]. split; [exact Wu| |].
  - intros i Hi. apply elem_of_union in Hi as [Hi|Hi]; auto.
  - intros x. rewrite Mu, Ma, Mb. split.
    + intros [(i & r & Hi & ?)|(i & r & Hi & ?)]; exists i, r; rewrite elem_of_union; auto.
    + intros (i & r & Hi & ?). apply elem_of_union in Hi as [Hi|Hi]; [left|right]; eauto.
Qed.

Lemma composed_size p a : composed p a -> (size p <= length initial)%nat.
Proof.
  intros [_ B _]. transitivity (size (set_seq (C := gset nat) 0 (length initial))); [|rewrite size_set_seq; reflexivity].
  apply subseteq_size. intros i Hi. apply elem_of_set_seq. specialize (B i Hi). lia.
Qed.

(** A set that lacks an input, and one that lacks none. *)
Lemma composed_missing p a : composed p a -> (size p < length initial)%nat -> exists i, (i < length initial)%nat /\ i ∉ p.
Proof.
  intros A L. destruct (decide (set_seq (C := gset nat) 0 (length initial) ⊆ p)) as [S|N].
  - apply subseteq_size in S. rewrite size_set_seq in S. lia.
  - assert (exists i, i ∈ set_seq (C := gset nat) 0 (length initial) /\ i ∉ p) as (i & Hi & Hp).
    { destruct (set_choose_or_empty (set_seq (C := gset nat) 0 (length initial) ∖ p)) as [[i Hi]|E]; [exists i; set_solver|].
      destruct N. intros j Hj. destruct (decide (j ∈ p)) as [|Nj]; [assumption|].
      destruct (not_elem_of_empty (C := gset nat) j). rewrite <- E. apply elem_of_difference. auto. }
    exists i. split; [apply elem_of_set_seq in Hi; lia|exact Hp].
Qed.

Lemma composed_all p a : composed p a -> size p = length initial -> forall i, (i < length initial)%nat -> i ∈ p.
Proof.
  intros A E i Hi. assert (p = set_seq (C := gset nat) 0 (length initial)) as ->; [|apply elem_of_set_seq; lia].
  apply set_subseteq_size_eq; [|rewrite size_set_seq; lia]. intros j Hj. apply elem_of_set_seq. pose proof (cs_bound _ _ A j Hj). lia.
Qed.
End parts.
