(* ===== verification/JoinNodeSpec.v ===== *)
(** Single relations in the search over join orders: set_cheapest and the gather paths
    make a finished relation of one whose paths were collected, an empty relation stays
    one, and a new join relation has a target list its inputs provide. *)
From stdpp Require Import gmap relations.
From S2P Require Import Prelude Float64 Double DoubleOrder DoubleDiv DoubleRound DoubleUnit Bitmapset BitmapsetSpec PlanTypes Pathkeys PathCompare AddPath Cheapest CostExpr CostBase CostScan CostScanSpec CostNode HashSize CostJoin CostJoinSpec SizeEst SizeEstSpec ParamInfo CreatePath CreatePathSpec UpperPathSpec MergeKeys MergeKeysSpec JoinPath QualCover JoinPathSpec JoinSearchSpec JoinLegal BuildRel BuildRelSpec JoinOrder JoinParts.
Open Scope Z_scope.

(** ** set_cheapest *)

Section cheapest.
Context `{Libm, Settings}.

(** What the loop of set_cheapest has found in the paths [seen]. *)
Record found_in (seen : list Path) (st : CheapestState) : Prop := {
  fi_startup : forall p, st_startup st = Some p -> p ∈ seen /\ param_info p = None;
  fi_total : forall p, st_total st = Some p -> p ∈ seen /\ param_info p = None;
  fi_best : forall p, st_best_param st = Some p -> p ∈ seen;
  fi_params : st_parameterized st ⊆ seen;
  fi_plain : forall p, p ∈ seen -> param_info p = None -> st_total st <> None /\ st_startup st <> None;
  fi_some : seen <> [] -> st_total st <> None \/ st_best_param st <> None;
}.

Lemma better_in c p q l : p ∈ l -> param_info p = None -> param_info q = None ->
  better_path p q c ∈ l ++ [q] /\ param_info (better_path p q c) = None.
Proof.
  intros Hp Ep Eq. assert (better_path p q c = p \/ better_path p q c = q) as [-> | ->] by (unfold better_path; case_match; auto);
    (split; [apply elem_of_app|assumption]); [left; exact Hp|right; left].
Qed.

Lemma better_param_in p q l : p ∈ l -> better_param_path q p ∈ l ++ [q].
Proof.
  intros Hp. assert (better_param_path q p = p \/ better_param_path q p = q) as [-> | ->] by (unfold better_param_path; repeat case_match; auto);
    apply elem_of_app; [left; exact Hp|right; left].
Qed.

Lemma set_cheapest_step_found seen st q : found_in seen st -> found_in (seen ++ [q]) (set_cheapest_step st q).
Proof.
  intros [Fs Ft Fb Fp Fn Fe]. assert (forall p, p ∈ seen -> p ∈ seen ++ [q]) as In by (intros p Hp; apply elem_of_app; auto).
  assert (q ∈ seen ++ [q]) as Iq by (apply elem_of_app; right; left).
  assert (forall p, p ∈ seen ++ [q] -> p ∈ seen \/ p = q) as Cs by (intros p Hp; apply elem_of_app in Hp as [?|Hp]; [auto|apply list_elem_of_singleton in Hp; auto]).
  unfold set_cheapest_step. destruct (param_info q) as [ppi|] eqn:Eq.
  - assert (st_parameterized st ++ [q] ⊆ seen ++ [q]) as Sub.
    { intros p Hp. apply elem_of_app in Hp as [Hp|Hp]; apply elem_of_app; auto. }
    assert (forall p, p ∈ seen ++ [q] -> param_info p = None -> p ∈ seen) as Old by (intros p Hp E; apply Cs in Hp as [?| ->]; [assumption|congruence]).
    destruct (st_total st) as [t|] eqn:Et; split; cbn [st_startup st_total st_best_param st_parameterized]; try exact Sub.
    + intros p Hp. destruct (Fs p Hp). auto.
    + intros p Hp. destruct (Ft p Hp). auto.
    + intros p Hp. auto.
    + intros p Hp E. destruct (Fn p (Old p Hp E) E). split; [discriminate|assumption].
    + left. discriminate.
    + intros p Hp. destruct (Fs p Hp). auto.
    + discriminate.
    + intros p [= <-]. destruct (st_best_param st) as [b|]; [apply better_param_in; auto|exact Iq].
    + intros p Hp E. destruct (Fn p (Old p Hp E) E). done.
    + right. discriminate.
  - destruct (st_startup st) as [s|] eqn:Es, (st_total st) as [t|] eqn:Et;
      split; cbn [st_startup st_total st_best_param st_parameterized]; try (intros p Hp; auto; done); try (left; discriminate);
      try (intros p [= <-]; first [apply better_in; [apply Fs|apply Fs|]; reflexivity || assumption
        |apply better_in; [apply Ft|apply Ft|]; reflexivity || assumption|split; assumption]).
Qed.

Lemma set_cheapest_found l : forall seen st, found_in seen st -> found_in (seen ++ l) (foldl set_cheapest_step st l).
Proof.
  induction l as [|q l IH]; intros seen st F; cbn [foldl]; [rewrite app_nil_r; exact F|].
  rewrite cons_middle, app_assoc. apply IH, set_cheapest_step_found, F.
Qed.

(** The paths set_cheapest picks are paths of the relation, without parameters if the
    relation has such a path. *)
Lemma set_cheapest_picks r : pathlist r <> [] -> exists r', set_cheapest r = Ok r'
  /\ pathlist r' = pathlist r /\ partial_pathlist r' = partial_pathlist r /\ cheapest_unique_path r' = None
  /\ (forall p, cheapest_startup_path r' = Some p -> p ∈ pathlist r /\ param_info p = None)
  /\ (exists t, cheapest_total_path r' = Some t /\ t ∈ pathlist r
       /\ ((exists p, p ∈ pathlist r /\ param_info p = None) -> param_info t = None /\ t ∈ cheapest_parameterized_paths r'))
  /\ cheapest_parameterized_paths r' ⊆ pathlist r.
Proof.
  intros N. unfold set_cheapest. assert (found_in (pathlist r) (foldl set_cheapest_step (mkCheapest None None None []) (pathlist r))) as F.
  { apply (set_cheapest_found (pathlist r) []). split; try discriminate; try done; intros p Hp; inversion Hp. }
  destruct (pathlist r) as [|p l] eqn:El; [done|]. rewrite <- El in *. destruct F as [Fs Ft Fb Fp Fn Fe].
  set (st := foldl set_cheapest_step _ _) in *. eexists. split; [reflexivity|]. cbn.
  split_and!; [reflexivity..|exact Fs| |].
  - destruct (st_total st) as [t|] eqn:Et.
    + exists t. destruct (Ft t eq_refl). split_and!; [reflexivity|assumption|]. intros _. split; [assumption|left].
    + destruct (Fe N) as [?|Hb]; [done|]. destruct (st_best_param st) as [b|] eqn:Eb; [|done]. exists b.
      split_and!; [reflexivity|auto|]. intros (q & Hq & E). destruct (Fn q Hq E). done.
  - destruct (st_total st) as [t|] eqn:Et; [|exact Fp]. intros q Hq. apply elem_of_cons in Hq as [->|Hq]; [apply Ft; reflexivity|auto].
Qed.
End cheapest.

(** ** Gather paths *)

(** The join relation of a node, as the routines of joinpath.c see it. *)
Definition node_join (node : RelNode) : JoinRel := mkJoinRel (rn_rel node) (rn_lateral_relids node) (rn_merge node).

(** A relation whose size was estimated. *)
Record rel_sized (rel : RelOptInfo) : Prop := {
  rz_ok : rel_ok rel;
  rz_rows : row_count (rel_rows rel);
  rz_target : qual_cost_ok (target_cost (reltarget rel));
  rz_width : 0 <= width (reltarget rel) < 2 ^ 30;
}.

Lemma plain_param_ok rel p : param_info p = None -> param_ok rel p.
Proof.
  intros E. assert (PATH_REQ_OUTER p = None) as R by (unfold PATH_REQ_OUTER; rewrite E; reflexivity).
  split; rewrite ?R; [exact I| |reflexivity|intros _; exact E]. intros x M. destruct (not_member_none x M).
Qed.

Section gather.
Context `{Libm, Settings, Estimator, Equivalences, !LibmOrder} (So : settings_ok).

(** A path without parameters over the whole relation that does not run in workers. *)
Lemma plain_join_path joinrel canon p : rel_sized (jrel joinrel) -> costed p -> rows p = rel_rows (jrel joinrel) ->
  parent p = jrel joinrel -> pathtarget p = reltarget (jrel joinrel) -> param_info p = None -> good_keys canon (pathkeys p) ->
  parallel_workers p = 0 -> parallel_safe p = false -> join_path joinrel canon p.
Proof.
  intros [_ Hr _ Hw] Hc Er Ep Et Ei [Hk Hn] Ew Es. split; [|rewrite Es; discriminate]. split; try assumption.
  - split; [exact Hc|rewrite Er; apply Hr..|rewrite Et; exact Hw].
  - rewrite Er. exact Hr.
  - rewrite Er. reflexivity.
  - apply plain_param_ok, Ei.
  - rewrite Ew. reflexivity.
Qed.

Lemma gather_join_path joinrel canon params sub : rel_sized (jrel joinrel) -> side_path (jrel joinrel) canon sub ->
  exists p, create_gather_path (jrel joinrel) params sub (reltarget (jrel joinrel)) None None = (p, params)
    /\ join_path joinrel canon p /\ PATH_REQ_OUTER p = None.
Proof.
  intros Rz Sp. unfold create_gather_path, get_baserel_parampathinfo. cbn [bms_is_empty].
  eexists. split; [reflexivity|]. split; [|reflexivity]. apply plain_join_path; try assumption; try reflexivity.
  - destruct (cost_gather_ok So (make_path T_Gather (jrel joinrel) (reltarget (jrel joinrel)) None false false 0
      (if parallel_workers sub =? 0 then pathkeys sub else []) (XGatherPath sub (parallel_workers sub =? 0)
        (if parallel_workers sub =? 0 then 1 else parallel_workers sub))) sub (jrel joinrel) None None) as (p & E & C & _).
    + apply Rz.
    + exact I.
    + apply Sp.
    + exact I.
    + injection E as <-. exact C.
  - cbn. destruct (parallel_workers sub =? 0); [split; apply Sp|apply good_keys_nil].
Qed.

Lemma gather_merge_join_path joinrel canon params sub : rel_sized (jrel joinrel) -> side_path (jrel joinrel) canon sub ->
  exists p, create_gather_merge_path (jrel joinrel) params sub (Some (reltarget (jrel joinrel))) (pathkeys sub) None None = (p, params)
    /\ join_path joinrel canon p /\ PATH_REQ_OUTER p = None.
Proof.
  intros Rz Sp. unfold create_gather_merge_path, get_baserel_parampathinfo. cbn [bms_is_empty].
  assert (pathkeys_contained_in (pathkeys sub) (pathkeys sub) = true) as -> by (apply pathkeys_contained_in_prefix; exists []; rewrite app_nil_r; reflexivity).
  eexists. split; [reflexivity|]. split; [|reflexivity]. destruct (in_costed _ (sp_input _ _ _ Sp)) as [_ Cs Co Ct _].
  apply plain_join_path; try assumption; try reflexivity; [|split; apply Sp].
  destruct (cost_gather_merge_ok So (make_path T_GatherMerge (jrel joinrel) (reltarget (jrel joinrel)) None false false 0
      (pathkeys sub) (XGatherMergePath sub (parallel_workers sub))) (parallel_workers sub) (jrel joinrel) None
      (i2d 0 + startup_cost sub)%D (i2d 0 + total_cost sub)%D None) as (p & E & C & _).
  - apply Rz.
  - exact I.
  - apply Sp.
  - auto with nneg.
  - auto with nneg.
  - apply cle_add; auto with nneg; reflexivity.
  - exact I.
  - injection E as <-. exact C.
Qed.
End gather.

(** ** Relations on their way through the search *)

(** A join relation that collects paths. *)
Record growing (canon : list PathKey) (node : RelNode) : Prop := {
  gr_sized : rel_sized (rn_rel node);
  gr_paths : joinrel_paths (node_join node) canon (rn_paths node);
  gr_params : join_params (rn_rel node) (rn_params node);
}.

(** A relation a join can be made of: set_cheapest has processed its paths, and it has
    paths without parameters where nested loops look for them. *)
Record joinable (canon : list PathKey) (node : RelNode) : Prop := {
  jn_rows : row_count (rel_rows (rn_rel node));
  jn_side : side_ok (rn_rel node) canon (rn_paths node);
  jn_alive : alive (rn_paths node);
  jn_total : exists p, cheapest_total_path (rn_paths node) = Some p /\ param_info p = None /\ p ∈ cheapest_parameterized_paths (rn_paths node);
}.

(** A relation proven empty. *)
Definition empty_rel (node : RelNode) : Prop :=
  exists d, pathlist (rn_paths node) = [d] /\ partial_pathlist (rn_paths node) = []
    /\ cheapest_total_path (rn_paths node) = Some d /\ IS_DUMMY_PATH d = true.

Lemma empty_rel_dummy node : empty_rel node -> is_dummy_rel node = true.
Proof. intros (d & _ & _ & E & D). unfold is_dummy_rel. rewrite E. exact D. Qed.

Lemma growing_grow canon canon' node : canon `prefix_of` canon' -> growing canon node -> growing canon' node.
Proof. intros G [S P Q]. split; [exact S|eapply joinrel_paths_grow; eassumption|exact Q]. Qed.

Lemma joinable_grow canon canon' node : canon `prefix_of` canon' -> joinable canon node -> joinable canon' node.
Proof. intros G [R S A T]. split; [exact R|eapply side_ok_grow; eassumption|exact A|exact T]. Qed.

Section nodes.
Context `{Libm, Settings, Estimator, Equivalences, !LibmOrder} (So : settings_ok).

(** Joinrel paths stay so when gather paths are offered. *)
Lemma gather_merge_offers canon node : rel_sized (rn_rel node) -> forall l paths,
  Forall (partial_join_path (node_join node) canon) l -> joinrel_paths (node_join node) canon paths ->
  exists paths', foldl (fun rel subpath =>
        match pathkeys subpath with
        | [] => rel
        | keys => offer_path rel (create_gather_merge_path (rn_rel rel) (rn_params rel) subpath (Some (reltarget (rn_rel node))) keys None None)
        end) (set_rn_paths node paths) l = set_rn_paths node paths'
    /\ joinrel_paths (node_join node) canon paths' /\ (alive paths -> alive paths').
Proof.
  intros Rz l. induction l as [|sub l IH]; intros paths F J; [exists paths; auto|]. apply Forall_cons in F as [[[Sp _] _] F].
  cbn [foldl]. destruct (gather_merge_join_path So (node_join node) canon (rn_params node) sub Rz Sp) as (p & E & Jp & Ep).
  destruct (add_path_cases (node_join node) canon paths p Jp J) as [J' A].
  destruct (pathkeys sub) as [|k ks] eqn:Ek; [exact (IH paths F J)|].
  cbn [rn_rel rn_params set_rn_paths]. cbn [node_join jrel] in E. rewrite E.
  destruct (IH (add_path paths p).1 F J') as (paths' & E' & J2 & A2). exists paths'. split_and!; [exact E'|exact J2|auto].
Qed.

Lemma generate_gather_ok canon node : growing canon node ->
  exists paths, generate_gather_paths node = set_rn_paths node paths
    /\ joinrel_paths (node_join node) canon paths /\ (alive (rn_paths node) -> alive paths).
Proof.
  intros [Rz J _]. unfold generate_gather_paths. pose proof (jr_partial _ _ _ J) as F.
  destruct (partial_pathlist (rn_paths node)) as [|sub l]; [exists (rn_paths node); split_and!; [destruct node; reflexivity|exact J|auto]|].
  pose proof F as F'. apply Forall_cons in F' as [[[Sp _] _] _].
  destruct (gather_join_path So (node_join node) canon (rn_params node) sub Rz Sp) as (p & E & Jp & Ep). cbn [node_join jrel] in E. rewrite E.
  destruct (add_path_cases (node_join node) canon (rn_paths node) p Jp J) as [J' A].
  destruct (gather_merge_offers canon node Rz (sub :: l) _ F J') as (paths & E' & J2 & A2).
  exists paths. split_and!; [exact E'|exact J2|auto].
Qed.

(** finish_rel on a relation with a path that needs no parameters. *)
Lemma finish_growing canon node : growing canon node -> alive (rn_paths node) ->
  exists paths, set_cheapest (rn_paths (generate_gather_paths node)) = Ok paths
    /\ set_rn_paths (generate_gather_paths node) paths = set_rn_paths node paths
    /\ growing canon (set_rn_paths node paths) /\ joinable canon (set_rn_paths node paths).
Proof.
  intros G A. destruct (generate_gather_ok canon node G) as (paths & -> & J & Al). specialize (Al A).
  destruct Al as (q & Hq & Rq). cbn [rn_paths set_rn_paths]. destruct (set_cheapest_picks paths) as (r & E & E1 & E2 & E3 & Es & (t & Et & Ht & Hn) & Hp).
  { intros Nil. rewrite Nil in Hq. inversion Hq. }
  destruct J as [F P]. rewrite Forall_forall in F, P.
  assert (forall p, p ∈ pathlist paths -> side_path (rn_rel node) canon p) as Sp by (intros p I; apply (F p I)).
  destruct Hn as [Nt It]; [exists q; split; [exact Hq|apply (pa_info _ _ (sp_param _ _ _ (Sp q Hq))), Rq]|].
  exists r. split_and!; [exact E|reflexivity| |].
  - destruct G as [Rz _ Q]. split; cbn; [exact Rz| |exact Q]. split; apply Forall_forall; rewrite ?E1, ?E2; [exact F|exact P].
  - split; cbn.
    + apply G.
    + split; rewrite ?E1, ?E2, ?E3.
      * apply Forall_forall, Sp.
      * apply Forall_forall. intros p I. destruct (P p I) as ([S _] & ? & ?). auto.
      * exists t. auto.
      * destruct (cheapest_startup_path r) as [s|]; [|exact I]. destruct (Es s eq_refl) as [Is Ns]. split; [apply Sp, Is|].
        unfold PATH_REQ_OUTER. rewrite Ns. reflexivity.
      * exact I.
      * apply Forall_forall. intros p I. apply Sp, Hp, I.
    + exists q. rewrite E1. auto.
    + exists t. auto.
Qed.

(** finish_rel on an empty relation. *)
Lemma finish_empty node : empty_rel node ->
  exists paths, set_cheapest (rn_paths (generate_gather_paths node)) = Ok paths
    /\ set_rn_paths (generate_gather_paths node) paths = set_rn_paths node paths /\ empty_rel (set_rn_paths node paths).
Proof.
  intros (d & El & Ep & _ & D). assert (generate_gather_paths node = node) as -> by (unfold generate_gather_paths; rewrite Ep; reflexivity).
  destruct (set_cheapest_picks (rn_paths node)) as (r & E & E1 & E2 & _ & _ & (t & Et & Ht & _) & _); [rewrite El; discriminate|].
  exists r. split_and!; [exact E|reflexivity|]. exists d. cbn. rewrite E1, E2, Et. rewrite El in Ht. apply list_elem_of_singleton in Ht as ->. auto.
Qed.

(** mark_dummy_rel leaves an empty relation of no rows. *)
Lemma mark_dummy_rel_ok node : is_dummy_rel node = false ->
  exists paths params, mark_dummy_rel node = Ok (set_rn_params (set_rn_paths (set_rn_rel node (set_rows (rn_rel node) (i2d 0))) paths) params)
    /\ params = rn_params node /\ empty_rel (set_rn_params (set_rn_paths (set_rn_rel node (set_rows (rn_rel node) (i2d 0))) paths) params).
Proof.
  intros D. unfold mark_dummy_rel. rewrite D. unfold create_append_path, get_appendrel_parampathinfo. cbn [bms_is_empty append_loop].
  match goal with |- context [add_path ?r ?q] => set (d := q); set (r0 := r); assert (pathlist (add_path r0 d).1 = [d] /\ partial_pathlist (add_path r0 d).1 = []) as [El Ep] end.
  { split; reflexivity. }
  destruct (set_cheapest_picks (add_path r0 d).1) as (r & E & E1 & E2 & _ & _ & (t & Et & Ht & _) & _); [rewrite El; discriminate|].
  rewrite E. cbn [rbind]. eexists r, _. split_and!; [reflexivity|reflexivity|]. exists d. cbn.
  rewrite E1, E2, Et. rewrite El in Ht. apply list_elem_of_singleton in Ht as ->. auto.
Qed.
End nodes.

(** ** New join relations *)

Section targets.
Context (root : SearchRoot) (base : list RelNode).

(** The width of a column of a base relation. *)
Definition var_width (e : Node) : option Z :=
  match e with
  | Var varno varattno =>
      n ← sr_simple_rels root varno;
      rel ← base !! n;
      match array_at (attr_needed rel) (varattno - min_attr (rn_attrs rel)),
            array_at (attr_widths (rn_attrs rel)) (varattno - min_attr (rn_attrs rel)) with
      | Ok _, Ok w => Some w
      | _, _ => None
      end
  | _ => None
  end.

(** Columns that are at most [m] bytes wide together. *)
Inductive columns : list Node -> Z -> Prop :=
| columns_nil m : 0 <= m -> columns [] m
| columns_cons e w l m : var_width e = Some w -> 0 <= w -> columns l m -> columns (e :: l) (w + m).

Lemma columns_nonneg l m : columns l m -> 0 <= m.
Proof. induction 1; lia. Qed.

Lemma columns_weaken l m m' : columns l m -> m <= m' -> columns l m'.
Proof.
  intros C. revert m'. induction C as [m|e w l m E Hw _ IH]; intros m' L; [constructor; lia|].
  replace m' with (w + (m' - w)) by lia. constructor; [assumption..|]. apply IH. lia.
Qed.

Lemma columns_app a b m m' : columns a m -> columns b m' -> columns (a ++ b) (m + m').
Proof.
  induction 1 as [m|e w l m E Hw _ IH]; intros C; cbn [app]; [eapply columns_weaken; [exact C|lia]|].
  rewrite <- Z.add_assoc. constructor; auto.
Qed.

Context (st : SearchState) (Hst : base `prefix_of` ss_rels st).

Lemma build_joinrel_tlist_ok relids vars m : columns vars m -> forall target, 0 <= width target -> width target + m < 2 ^ 31 ->
  exists kept w, build_joinrel_tlist root st relids vars target
      = Ok (mkPathTarget (exprs target ++ kept) (target_cost target) (width target + w))
    /\ columns kept m /\ 0 <= w <= m.
Proof.
  induction 1 as [m|e w l m E Hw C IH]; intros target T0 T1; cbn [build_joinrel_tlist].
  { exists [], 0. rewrite app_nil_r, Z.add_0_r. destruct target. split_and!; [reflexivity|constructor; lia|lia..]. }
  pose proof (columns_nonneg _ _ C) as Hm. pose proof E as Ev. destruct e as [varno varattno| | | | | | | | | | | | | | | | | | | | | | | | | | | | |]; try discriminate E.
  cbn [var_width] in E. apply bind_Some in E as (n & En & E). apply bind_Some in E as (rel & Er & E).
  unfold base_rel, rel_at. rewrite En. cbn [rbind]. rewrite (prefix_lookup_Some _ _ _ _ Er Hst). cbn [deref rbind].
  destruct (array_at (attr_needed rel) _) as [needed|]; [|discriminate]. cbn [rbind].
  destruct (array_at (attr_widths _) _) as [w'|]; [|discriminate]. injection E as ->.
  destruct (bms_nonempty_difference needed relids); cbn [rbind].
  - rewrite wrap32_small by lia.
    destruct (IH (mkPathTarget (exprs target ++ [Var varno varattno]) (target_cost target) (width target + w))) as (kept & w2 & -> & K & W); [cbn; lia..|].
    cbn [exprs target_cost width]. exists (Var varno varattno :: kept), (w + w2). rewrite <- app_assoc, Z.add_assoc. split_and!; [reflexivity| |lia..].
    constructor; [exact Ev|exact Hw|exact K].
  - destruct (IH target) as (kept & w2 & -> & K & W); [lia..|]. exists kept, w2. split_and!; [reflexivity| |lia..]. eapply columns_weaken; [exact K|lia].
Qed.

Lemma fkeys_grow fk : fkey_ok (mkJoinRoot (sr_fkeys root) (fun relid => n ← sr_simple_rels root relid; rel ← base !! n; Some (rn_rel rel))) fk ->
  fkey_ok (join_root root st) fk.
Proof.
  intros [C R (rel & E & F)]. split; [exact C|exact R|]. exists rel. split; [|exact F]. cbn in *.
  apply bind_Some in E as (n & -> & E). cbn. apply bind_Some in E as (node & En & E). rewrite (prefix_lookup_Some _ _ _ _ En Hst). exact E.
Qed.
End targets.

(** What is known of a relation of the search before its paths: its set of inputs, its
    size, its columns and its join clauses; an input has at most [2^e] rows and columns
    of [w] bytes. *)
Section described.
Context (root : SearchRoot) (base : list RelNode) (initial : list Relids) (query : list RestrictInfo) (e w : Z).

Record described (parts : gset nat) (node : RelNode) : Prop := {
  ds_composed : composed initial parts (rn_relids node);
  ds_rows : rows_within (rel_rows (rn_rel node)) (e * Z.of_nat (size parts));
  ds_columns : columns root base (exprs (reltarget (rn_rel node))) (w * Z.of_nat (size parts));
  ds_width : 0 <= width (reltarget (rn_rel node)) < 2 ^ 30;
  ds_clauses : joininfo (rn_params node) ⊆ query;
}.

Context `{Settings, Catalog, Estimator, Equivalences, PathSupport, EClasses, SearchSupport, !EstimatorLaws}.
Context (Ia : inputs_apart initial) (Qc : query_clauses query) (Qk : clauses_ok query).
Context (He : 0 <= e) (Hw : 0 <= w) (Cap : e * Z.of_nat (length initial) <= 1000) (Wcap : w * Z.of_nat (length initial) < 2 ^ 30).

(** The clauses a pair of relations is joined by, and those left for later. *)
Lemma restrictlist_of relids outer inner : joininfo (rn_params outer) ⊆ query -> joininfo (rn_params inner) ⊆ query ->
  exists l, build_joinrel_restrictlist relids outer inner = l ++ generate_join_implied_equalities relids (rn_relids outer) (rn_rel inner)
    /\ l ⊆ query /\ distinct l.
Proof.
  intros So Si. eexists. split; [reflexivity|]. unfold subbuild_joinrel_restrictlist.
  destruct (collect_within query Qc (fun r => bms_is_subset (required_relids r) relids) (joininfo (rn_params outer)) []) as [S1 D1];
    [intros c Hc; inversion Hc|exact So|constructor|].
  apply collect_within; assumption.
Qed.

Lemma joinlist_within relids outer inner : joininfo (rn_params outer) ⊆ query -> joininfo (rn_params inner) ⊆ query ->
  build_joinrel_joinlist relids outer inner ⊆ query.
Proof.
  intros So Si. unfold build_joinrel_joinlist. rewrite !subbuild_joinlist_collect.
  destruct (collect_within query Qc (fun r => negb (bms_is_subset (required_relids r) relids)) (joininfo (rn_params outer)) []) as [S1 D1];
    [intros c Hc; inversion Hc|exact So|constructor|].
  apply collect_within; assumption.
Qed.

Lemma clauses_within l : l ⊆ query -> clauses_ok l.
Proof. intros S. rewrite clauses_ok_forall in *. rewrite Forall_forall in *. auto. Qed.

Lemma make_join_node_ok st sj p q outer inner : base `prefix_of` ss_rels st -> sr_placeholders root = [] ->
  Forall (fkey_ok (join_root root st)) (sr_fkeys root) -> sj_jointype sj = JOIN_INNER ->
  described p outer -> described q inner -> p ## q ->
  let joinrelids := bms_union (rn_relids outer) (rn_relids inner) in
  exists node, make_join_node root joinrelids outer inner sj st = Ok (node, build_joinrel_restrictlist joinrelids outer inner)
    /\ described (p ∪ q) node /\ growing (ss_canon st) node /\ rn_relids node = joinrelids /\ rn_paths node = new_rel_paths.
Proof.
  intros Hst Ph Fk Sj [Co Ro Vo Wo Jo] [Ci Ri Vi Wi Ji] Ap joinrelids.
  destruct (composed_union initial p q _ _ Co Ci) as [Cu _]. pose proof (composed_size initial _ _ Cu) as Sz.
  rewrite size_union in Sz by exact Ap. unfold make_join_node.
  assert (bms_copy joinrelids = joinrelids) as -> by (destruct joinrelids; reflexivity).
  destruct (build_joinrel_tlist_ok root base st Hst joinrelids _ _ Vo create_empty_pathtarget) as (k1 & w1 & -> & K1 & W1);
    [cbn; nia..|].
  cbn [rbind].
  destruct (build_joinrel_tlist_ok root base st Hst joinrelids _ _ Vi
    (mkPathTarget (exprs create_empty_pathtarget ++ k1) (target_cost create_empty_pathtarget) (width create_empty_pathtarget + w1)))
    as (k2 & w2 & -> & K2 & W2); [cbn; nia..|]. cbn [rbind]. rewrite Ph. cbn [add_placeholders_to_joinrel rbind].
  unfold set_joinrel_size_estimates.
  destruct (inner_join_size (join_root root st) (rn_rel outer) (rn_rel inner) sj (build_joinrel_restrictlist joinrelids outer inner)
    (e * Z.of_nat (size p)) (e * Z.of_nat (size q)) Fk Sj) as (n & -> & Cn & Rn); [nia|nia|nia|assumption..|]. cbn [rbind].
  pose proof (joinlist_within joinrelids outer inner Jo Ji) as Jl.
  eexists. split; [reflexivity|]. split_and!; [| |reflexivity..].
  - split; cbn.
    + exact Cu.
    + rewrite size_union by exact Ap. replace (e * _) with (e * Z.of_nat (size p) + e * Z.of_nat (size q)) by lia. exact Rn.
    + rewrite size_union by exact Ap. replace (w * _) with (w * Z.of_nat (size p) + w * Z.of_nat (size q)) by lia.
      apply columns_app; assumption.
    + nia.
    + exact Jl.
  - split; cbn.
    + split; cbn; [|exact Cn|split; reflexivity|nia]. split; cbn; [apply Cn|reflexivity|lia|split; [reflexivity|apply cle_eval; reflexivity]|split; reflexivity].
    + split; constructor.
    + split; [|constructor]. split; [|constructor|apply clauses_within, Jl]. split; constructor.
Qed.
End described.
