(* ===== verification/JoinOrderSpec.v ===== *)
(** The search over join orders as a whole: for a query of inner joins it never fails, it
    makes a join relation at every level up to the join of all inputs, and that relation
    has a plan or is proven empty. *)
From stdpp Require Import gmap relations.
From S2P Require Import Prelude Float64 Double DoubleOrder DoubleDiv DoubleRound DoubleUnit Bitmapset BitmapsetSpec PlanTypes Samples Pathkeys PathCompare AddPath Cheapest CostExpr CostBase CostScan CostScanSpec CostNode HashSize CostJoin CostJoinSpec SizeEst SizeEstSpec ParamInfo CreatePath CreatePathSpec UpperPathSpec MergeKeys MergeKeysSpec JoinPath QualCover JoinPathSpec JoinSearchSpec JoinLegal JoinLegalSpec BuildRel BuildRelSpec JoinOrder JoinParts JoinNodeSpec.
Open Scope Z_scope.

(** ** States *)

Lemma set_rel_same st i node : ss_rels st !! i = Some node -> set_rel st i node = st.
Proof. intros E. unfold set_rel, set_rels. rewrite list_insert_id by exact E. destruct st; reflexivity. Qed.

Lemma set_infos_same st : set_infos st (ss_infos st) = st.
Proof. destruct st; reflexivity. Qed.

(** Loops that keep [Inv], and reach [Goal] with an element that is [good]. *)
Lemma for_each_reaches {S A} (Inv Goal : S -> Prop) (good : A -> Prop) (l : list A) (body : A -> S -> result S) :
  (forall x st, x ∈ l -> Inv st -> exists st', body x st = Ok st' /\ Inv st' /\ (Goal st -> Goal st') /\ (good x -> Goal st')) ->
  forall st, Inv st -> exists st', for_each l body st = Ok st' /\ Inv st' /\ (Goal st -> Goal st') /\ ((exists x, x ∈ l /\ good x) -> Goal st').
Proof.
  intros B. induction l as [|x l IH]; intros st I; cbn [for_each].
  { exists st. split_and!; [reflexivity|exact I|auto|]. intros (x & Hx & _). inversion Hx. }
  destruct (B x st) as (st1 & E1 & I1 & M1 & G1); [left|exact I|]. unfold andthen. rewrite E1. cbn [rbind].
  destruct (IH (fun y st' Hy => B y st' (list_elem_of_further _ _ _ Hy)) st1 I1) as (st2 & E2 & I2 & M2 & G2).
  exists st2. split_and!; [exact E2|exact I2|auto|]. intros (y & Hy & Gy). apply elem_of_cons in Hy as [->|Hy]; [auto|]. apply G2. eauto.
Qed.

Lemma for_each_keeps {S A} (Inv : S -> Prop) (l : list A) (body : A -> S -> result S) :
  (forall x st, x ∈ l -> Inv st -> exists st', body x st = Ok st' /\ Inv st') ->
  forall st, Inv st -> exists st', for_each l body st = Ok st' /\ Inv st'.
Proof.
  intros B st I. destruct (for_each_reaches Inv (fun _ => False) (fun _ => False) l body) with (st := st) as (st' & E & I' & _); [|exact I|eauto].
  intros x st1 Hx I1. destruct (B x st1 Hx I1) as (st2 & E & I2). exists st2. auto.
Qed.

Lemma for_each_rest_keeps {S A} (Inv : S -> Prop) (l : list A) (body : A -> list A -> S -> result S) :
  (forall x rest st, x ∈ l -> rest ⊆ l -> Inv st -> exists st', body x rest st = Ok st' /\ Inv st') ->
  forall st, Inv st -> exists st', for_each_rest l body st = Ok st' /\ Inv st'.
Proof.
  induction l as [|x l IH]; intros B st I; cbn [for_each_rest]; [exists st; auto|].
  destruct (B x l st) as (st1 & E1 & I1); [left|intros y Hy; right; exact Hy|exact I|]. unfold andthen. rewrite E1. cbn [rbind].
  apply IH; [|exact I1]. intros y rest st2 Hy Hr. apply B; [right; exact Hy|]. intros z Hz. right. exact (Hr z Hz).
Qed.

(** ** The invariant *)

Section order.
Context `{Libm, Settings, Catalog, Estimator, Equivalences, PathSupport, EClasses, JoinSupport, SearchSupport}.
Context `{!CatalogLaws, !EstimatorLaws, !EquivalenceLaws, !LibmOrder, !JoinSupportLaws} (So : settings_ok).
Context (root : SearchRoot) (base : list RelNode) (inputs old_joins : list nat) (initial : list Relids).
Context (query : list RestrictInfo) (e w : Z).

Abbreviation described := (described root base initial query e w).

(** The clauses of the join of [o] with [i]: well-formed caches, and merge clauses that
    sort both sides by the same collation and cost no more than all clauses. *)
Record clauses_fit (o i : RelOptInfo) (clauses : list RestrictInfo) : Prop := {
  cf_buckets : Forall buckets_ok clauses;
  cf_collation : Forall (fun r => ec_collation (outer_ec r) = ec_collation (inner_ec r)) (merge_candidates o i JOIN_INNER clauses);
  cf_merge : forall mc, mc ⊆+ merge_candidates o i JOIN_INNER clauses -> quals_cover mc clauses;
}.

(** A query of inner joins without LATERAL references and placeholders. [base] are the
    relations before the search, at [inputs] those to be joined; [initial] are their
    sets, and no older join relation is a join of several of them. *)
Record inner_query : Prop := {
  iq_lateral : hasLateralRTEs root = false;
  iq_placeholders : sr_placeholders root = [];
  iq_fkeys : Forall (fkey_ok (mkJoinRoot (sr_fkeys root)
               (fun relid => n ← sr_simple_rels root relid; rel ← base !! n; Some (rn_rel rel)))) (sr_fkeys root);
  iq_order : NoDup (map pk_eclass (sr_query_pathkeys root));
  iq_forest : ec_forest;
  iq_clauses : query_clauses query;
  iq_clauses_ok : clauses_ok query;
  iq_fit : forall o i rids l, l ⊆ query -> distinct l ->
             let clauses := l ++ generate_join_implied_equalities rids (relids o) i in
             clauses_fit o i clauses /\ clauses_fit i o clauses;
  iq_apart : inputs_apart initial;
  iq_inputs : forall i r, inputs !! i = Some r ->
                exists node, base !! r = Some node /\ initial !! i = Some (rn_relids node) /\ described {[i]} node;
  iq_length : length initial = length inputs;
  iq_old : forall r, r ∈ old_joins -> exists node, base !! r = Some node
             /\ forall parts, composed initial parts (rn_relids node) -> (size parts <= 1)%nat;
  iq_rows : 0 <= e /\ e * Z.of_nat (length initial) <= 1000;
  iq_width : 0 <= w /\ w * Z.of_nat (length initial) < 2 ^ 30;
  iq_foreign : forall routine, fdw_GetForeignJoinPaths routine = None;
  iq_hook : set_join_pathlist_hook = None;
}.
Context (Iq : inner_query).

(** A relation of an earlier level. *)
Definition ready (canon : list PathKey) (node : RelNode) : Prop := is_dummy_rel node = true \/ joinable canon node.

(** A relation of the current level, without and with a path. *)
Definition pending (canon : list PathKey) (node : RelNode) : Prop :=
  empty_rel node \/ (growing canon node /\ cheapest_total_path (rn_paths node) = None).
Definition filled (node : RelNode) : Prop := empty_rel node \/ alive (rn_paths node).

Record caches_ok (canon : list PathKey) (scansel : gmap Z (list MergeScanSelCache)) (buckets : gmap Z (Selectivity * Selectivity)) : Prop := {
  ca_canon : canon_ok canon;
  ca_query : known canon (sr_query_pathkeys root);
  ca_scansel : map_Forall (fun _ c => cache_ok c) scansel;
  ca_buckets : map_Forall (fun _ b => bucket_ok b.1 /\ bucket_ok b.2) buckets;
}.

Section store.
Context (store : list RelNode).

(** At level [lev]: [store] are the relations before it, which do not change any more,
    [levels] their lists, [cur] the list of this level, in which the relation [hole] may
    not have a path yet. *)
Record order_inv (lev : nat) (levels : list (list nat)) (cur : list nat) (hole : option nat) (st : SearchState) : Prop := {
  oi_inputs : base `prefix_of` store;
  oi_store : store `prefix_of` ss_rels st;
  oi_infos : ss_infos st = [];
  oi_table : exists entries, table_ok st entries;
  oi_caches : caches_ok (ss_canon st) (ss_scansel st) (ss_buckets st);
  oi_levels : join_rel_level st = Some (<[lev := cur]> levels);
  oi_level : join_cur_level st = lev;
  oi_length : length levels = S (length inputs);
  oi_done : forall k l r, (k < lev)%nat -> levels !! k = Some l -> r ∈ l ->
              exists parts node, store !! r = Some node /\ described parts node /\ size parts = k /\ ready (ss_canon st) node;
  oi_current : forall r, r ∈ cur ->
              exists parts node, ss_rels st !! r = Some node /\ described parts node /\ size parts = lev
                /\ pending (ss_canon st) node /\ (hole <> Some r -> filled node) /\ (length store <= r)%nat;
  oi_joins : forall r, r ∈ join_rel_list st -> r ∈ old_joins \/ r ∈ cur \/ exists k l, (k < lev)%nat /\ levels !! k = Some l /\ r ∈ l;
}.

Lemma pending_grow canon canon' node : canon `prefix_of` canon' -> pending canon node -> pending canon' node.
Proof. intros G [?|[? ?]]; [left; assumption|right; split; [eapply growing_grow; eassumption|assumption]]. Qed.

Lemma ready_grow canon canon' node : canon `prefix_of` canon' -> ready canon node -> ready canon' node.
Proof. intros G [?|?]; [left; assumption|right; eapply joinable_grow; eassumption]. Qed.

Lemma pending_dummy canon node : pending canon node -> is_dummy_rel node = true -> empty_rel node.
Proof. intros [?|[_ E]]; [auto|]. unfold is_dummy_rel. rewrite E. discriminate. Qed.

(** A relation is the join of one set of inputs. *)
Lemma described_parts p q node : described p node -> described q node -> p = q.
Proof.
  intros [Cp _ _ _ _] [Cq _ _ _ _]. apply (composed_equal initial (iq_apart Iq) p q _ _ Cp Cq).
  apply bms_equal_subset; [apply Cp|apply Cp|]. split; intros x; auto.
Qed.

Lemma oi_base lev levels cur hole st : order_inv lev levels cur hole st -> base `prefix_of` ss_rels st.
Proof. intros Oi. transitivity store; apply Oi. Qed.

(** ** Changing a relation of the level *)

Lemma table_update st entries j node node' canon scansel buckets : table_ok st entries -> ss_rels st !! j = Some node ->
  rn_relids node' = rn_relids node -> table_ok (set_caches (set_rel st j node') canon scansel buckets) entries.
Proof.
  intros [Te Tw Td Th] Hj Er. split; [|exact Tw|exact Td|exact Th]. cbn.
  eapply Forall2_impl; [exact Te|]. intros r en (rel & Hr & ->). unfold entry. cbn. destruct (decide (r = j)) as [-> |N].
  - exists node'. rewrite list_lookup_insert_eq by (eapply lookup_lt_Some, Hj). rewrite Er. simplify_eq. auto.
  - exists rel. rewrite list_lookup_insert_ne by congruence. auto.
Qed.

Lemma prefix_insert {A} (l l' : list A) j x : l `prefix_of` l' -> (length l <= j)%nat -> l `prefix_of` <[j := x]> l'.
Proof. intros [k ->] L. exists (<[(j - length l)%nat := x]> k). apply insert_app_r_alt, L. Qed.

Lemma update_ok lev levels cur hole hole' st j node node' parts canon scansel buckets :
  order_inv lev levels cur hole st -> hole = None \/ hole = Some j -> hole' = None \/ hole' = Some j ->
  j ∈ cur -> ss_rels st !! j = Some node -> described parts node -> size parts = lev ->
  rn_relids node' = rn_relids node -> described parts node' -> pending canon node' -> (hole' = None -> filled node') ->
  ss_canon st `prefix_of` canon -> caches_ok canon scansel buckets ->
  order_inv lev levels cur hole' (set_caches (set_rel st j node') canon scansel buckets).
Proof.
  intros Oi Hh Hh' Ij Hj Dj Sj Er Dn Pn Fn G Co. pose proof (lookup_lt_Some _ _ _ Hj) as Lj.
  destruct (oi_current _ _ _ _ _ Oi j Ij) as (_ & _ & _ & _ & _ & _ & _ & Bj). split; cbn.
  - apply Oi.
  - apply prefix_insert; [apply Oi|exact Bj].
  - apply Oi.
  - destruct (oi_table _ _ _ _ _ Oi) as [en T]. exists en. eapply table_update; eassumption.
  - exact Co.
  - apply Oi.
  - apply Oi.
  - apply Oi.
  - intros k l r Lk Hl Hr. destruct (oi_done _ _ _ _ _ Oi k l r Lk Hl Hr) as (p & n & Hn & Dp & Sp & R).
    exists p, n. split_and!; [exact Hn|exact Dp|exact Sp|eapply ready_grow; eassumption].
  - intros r Hr. destruct (decide (r = j)) as [-> |N].
    + exists parts, node'. rewrite list_lookup_insert_eq by exact Lj. split_and!; try assumption; [reflexivity|].
      destruct Hh' as [-> | ->]; [auto|congruence].
    + destruct (oi_current _ _ _ _ _ Oi r Hr) as (p & n & Hn & Dp & Sp & Pp & Fp & Bp). exists p, n.
      rewrite list_lookup_insert_ne by congruence. split_and!; try assumption; [eapply pending_grow; eassumption|].
      intros _. apply Fp. destruct Hh as [-> | ->]; congruence.
  - apply Oi.
Qed.

(** ** Paths of a join relation *)

Lemma offered_total joinrel canon a b : rtc (offered joinrel canon) a b -> cheapest_total_path b = cheapest_total_path a.
Proof.
  induction 1 as [|a b c O _ IH]; [reflexivity|]. rewrite IH. destruct O as [rel p _|rel p _]; unfold add_path, add_partial_path;
    destruct (run_tournament _ _ _ _); reflexivity.
Qed.

Lemma rel_support_laws node : JoinSupportLaws (H := rel_support node).
Proof. split. exact (@same_path_eq H6 _). Qed.

Lemma fkeys_st st : base `prefix_of` ss_rels st -> Forall (fkey_ok (join_root root st)) (sr_fkeys root).
Proof. intros Hb. eapply Forall_impl; [apply (iq_fkeys Iq)|]. intros fk. apply fkeys_grow, Hb. Qed.

(** The clauses of a pair fit the search in both directions. *)
Lemma pair_clauses rids p q n1 n2 : described p n1 -> described q n2 ->
  let clauses := build_joinrel_restrictlist rids n1 n2 in
  clauses_ok clauses /\ clauses_fit (rn_rel n1) (rn_rel n2) clauses /\ clauses_fit (rn_rel n2) (rn_rel n1) clauses.
Proof.
  intros [_ _ _ _ J1] [_ _ _ _ J2] clauses. subst clauses.
  destruct (restrictlist_of query (iq_clauses Iq) rids n1 n2 J1 J2) as (l & -> & Sl & Dl).
  split; [|exact (iq_fit Iq (rn_rel n1) (rn_rel n2) rids l Sl Dl)].
  apply clauses_ok_app; [apply (clauses_within query (iq_clauses_ok Iq)), Sl|apply equalities_ok].
Qed.

(** The two inputs [n1] and [n2] of the join relation [node]. *)
Record join_of (p q : gset nat) (n1 n2 node : RelNode) : Prop := {
  jo_left : described p n1;
  jo_right : described q n2;
  jo_apart : p ## q;
  jo_join : described (p ∪ q) node;
}.

Lemma join_of_sym p q n1 n2 node : join_of p q n1 n2 node -> join_of q p n2 n1 node.
Proof. intros [D1 D2 A D]. split; try assumption; [set_solver|]. rewrite (union_comm_L q p). exact D. Qed.

Lemma join_of_members p q n1 n2 node : join_of p q n1 n2 node ->
  represents (rn_relids node) (fun x => member x (rn_relids n1) \/ member x (rn_relids n2)).
Proof.
  intros [[C1 _ _ _ _] [C2 _ _ _ _] _ [C _ _ _ _]]. split; [apply C|]. intros x.
  rewrite (cs_members _ _ _ C x), (cs_members _ _ _ C1 x), (cs_members _ _ _ C2 x). split.
  - intros (i & r & Hi & ?). apply elem_of_union in Hi as [Hi|Hi]; eauto.
  - intros [(i & r & Hi & ?)|(i & r & Hi & ?)]; exists i, r; rewrite elem_of_union; auto.
Qed.

Lemma join_product p q n1 n2 node : join_of p q n1 n2 node -> finite (rel_rows (rn_rel n1) * rel_rows (rn_rel n2))%D.
Proof.
  intros [[C1 R1 _ _ _] [C2 R2 _ _ _] A [C _ _ _ _]]. destruct (iq_rows Iq) as [He Hc].
  pose proof (composed_size initial _ _ C) as Sz. rewrite size_union in Sz by exact A.
  apply (within_product _ _ (e * Z.of_nat (size p)) (e * Z.of_nat (size q))); try assumption; nia.
Qed.

Lemma pair_search_input st p q n1 n2 node sj clauses : base `prefix_of` ss_rels st -> join_of p q n1 n2 node ->
  rel_sized (rn_rel node) -> row_count (rel_rows (rn_rel n1)) -> row_count (rel_rows (rn_rel n2)) ->
  clauses_ok clauses -> clauses_fit (rn_rel n1) (rn_rel n2) clauses -> sj_jointype sj = JOIN_INNER ->
  search_input (join_planner root st) (node_join node) (rn_rel n1) (rn_rel n2) JOIN_INNER sj clauses.
Proof.
  intros Hb J [_ Rr Rt Rw] R1 R2 Ck [Cb Cc Cm] Sj. pose proof (join_of_members _ _ _ _ _ J) as Um. pose proof (join_product _ _ _ _ _ J) as Fp.
  destruct J as [[C1 _ _ _ _] [C2 _ _ W2 _] _ _].
  split; cbn; try assumption; try apply Iq; try apply C1; try apply C2; [apply fkeys_st, Hb|rewrite Sj; reflexivity].
Qed.

(** add_paths_to_joinrel for one direction of a join. *)
Lemma add_join_paths_ok st j r1 r2 p q n1 n2 node sj clauses : base `prefix_of` ss_rels st ->
  caches_ok (ss_canon st) (ss_scansel st) (ss_buckets st) ->
  ss_rels st !! j = Some node -> ss_rels st !! r1 = Some n1 -> ss_rels st !! r2 = Some n2 -> j <> r1 -> j <> r2 ->
  join_of p q n1 n2 node -> growing (ss_canon st) node -> joinable (ss_canon st) n1 -> joinable (ss_canon st) n2 ->
  clauses_ok clauses -> clauses_fit (rn_rel n1) (rn_rel n2) clauses -> sj_jointype (sj_info sj) = JOIN_INNER ->
  exists paths params canon scansel buckets, let node' := set_rn_params (set_rn_paths node paths) params in
    add_paths root j r1 r2 JOIN_INNER (None, sj) clauses st = Ok (set_caches (set_rel st j node') canon scansel buckets)
    /\ growing canon node' /\ alive paths /\ joininfo params = joininfo (rn_params node)
    /\ cheapest_total_path paths = cheapest_total_path (rn_paths node)
    /\ ss_canon st `prefix_of` canon /\ caches_ok canon scansel buckets.
Proof.
  intros Hb [K1 K2 K3 K4] Hj Hr1 Hr2 N1 N2 Jo [Gz Gp Gq] [R1 S1 A1 T1] [R2 S2 A2 T2] Ck Cf Sj. unfold add_paths, rel_at.
  rewrite Hj, Hr1, Hr2. cbn [deref rbind snd fst semi_of].
  pose proof (pair_search_input st p q n1 n2 node (sj_info sj) clauses Hb Jo Gz R1 R2 Ck Cf Sj) as Si.
  set (js := mkJoinState (rn_paths node) (rn_params node) (rn_paths n1) (rn_paths n2) (sj_semi sj) (ss_canon st) (ss_scansel st) (ss_buckets st)).
  assert (search_inv (join_planner root st) (node_join node) (rn_rel n1) (rn_rel n2) js) as Iv by (split; assumption).
  pose proof (rel_support_laws node) as Ls.
  destruct (join_search_ok (H6 := rel_support node) So (join_planner root st) (node_join node) (rn_rel n1) (rn_rel n2) JOIN_INNER (sj_info sj)
    clauses js Si Iv Logic.I) as (js' & E & [V1 V2 V3 V4 V5 V6 V7 V8] & [P1 P2 P3 P4 P5] & Al).
  { cbn. case_match; [reflexivity|apply (iq_foreign Iq)]. }
  { exact (iq_hook Iq). }
  unfold node_join in E. rewrite E. cbn [rbind]. cbn in P1, P2, P3, P4, P5.
  eexists (js_paths js'), (js_params js'), (js_canon js'), (js_scansel js'), (js_buckets js'). cbn [set_semi fst].
  rewrite P2, P3. split; [|split_and!].
  - rewrite (set_rel_same _ r1), (set_rel_same _ r2); [reflexivity|..].
    + cbn. rewrite list_lookup_insert_ne by exact N2. destruct n2; exact Hr2.
    + cbn. rewrite list_lookup_insert_ne by exact N1. destruct n1; exact Hr1.
  - split; assumption.
  - apply Al. destruct T2 as (t & _ & Et & It). split; [destruct A1 as (o & Ho & Ro); exists o; split; [exact Ho|split; [exact Ro|discriminate]]|]. exists t. split; [exact It|]. unfold PATH_REQ_OUTER. rewrite Et. reflexivity.
  - exact P5.
  - exact (offered_total _ _ _ _ P1).
  - exact P4.
  - split; assumption.
Qed.

(** A join relation is none of its inputs. *)
Lemma join_not_input p q n1 n2 node st j r : join_of p q n1 n2 node -> (0 < size q)%nat -> ss_rels st !! j = Some node ->
  ss_rels st !! r = Some n1 -> j <> r.
Proof.
  intros [D1 _ A D] Hq Hj Hr ->. simplify_eq. pose proof (described_parts _ _ _ D1 D) as E.
  apply (f_equal size) in E. rewrite size_union in E by exact A. lia.
Qed.

Lemma described_paths parts node paths params : described parts node -> joininfo params = joininfo (rn_params node) ->
  described parts (set_rn_params (set_rn_paths node paths) params).
Proof. intros [C R V W J] E. split; cbn; try assumption. rewrite E. exact J. Qed.

(** A relation made of [node] that has a path. *)
Record filled_from (parts : gset nat) (canon : list PathKey) (node node' : RelNode) : Prop := {
  ff_relids : rn_relids node' = rn_relids node;
  ff_described : described parts node';
  ff_pending : pending canon node';
  ff_filled : filled node';
}.

Lemma mark_dummy_node st j node parts canon : ss_rels st !! j = Some node -> described parts node -> is_dummy_rel node = false ->
  exists node', mark_dummy j st = Ok (set_rel st j node') /\ filled_from parts canon node node'.
Proof.
  intros Hj D N. unfold mark_dummy, rel_at. rewrite Hj. cbn [deref rbind].
  destruct (mark_dummy_rel_ok node N) as (paths & params & -> & -> & Em). cbn [rbind]. eexists. split; [reflexivity|].
  split; [reflexivity| |left; exact Em|left; exact Em].
  destruct D as [C _ V W J]. split; try assumption. split; [reflexivity|]. unfold cle. cbn. pose proof (cmag_range (row_cap (e * Z.of_nat (size parts)))). lia.
Qed.

Lemma set_rel_twice st j a b canon sc bk canon2 sc2 bk2 :
  set_caches (set_rel (set_caches (set_rel st j a) canon sc bk) j b) canon2 sc2 bk2 = set_caches (set_rel st j b) canon2 sc2 bk2.
Proof. unfold set_caches, set_rel, set_rels. cbn. rewrite list_insert_insert_eq. reflexivity. Qed.

(** The paths of the join of [n1] and [n2], in both directions. *)
Lemma populate_node st j r1 r2 p q n1 n2 node rids : base `prefix_of` ss_rels st -> (length base <= j)%nat ->
  caches_ok (ss_canon st) (ss_scansel st) (ss_buckets st) ->
  ss_rels st !! j = Some node -> ss_rels st !! r1 = Some n1 -> ss_rels st !! r2 = Some n2 -> join_of p q n1 n2 node ->
  (0 < size p)%nat -> (0 < size q)%nat -> pending (ss_canon st) node -> is_dummy_rel node = false ->
  ready (ss_canon st) n1 -> ready (ss_canon st) n2 ->
  exists node' canon scansel buckets,
    populate_joinrel_with_paths root r1 r2 j (None, inner_sjinfo n1 n2) (build_joinrel_restrictlist rids n1 n2) st
      = Ok (set_caches (set_rel st j node') canon scansel buckets)
    /\ filled_from (p ∪ q) canon node node' /\ ss_canon st `prefix_of` canon /\ caches_ok canon scansel buckets.
Proof.
  intros Hb Lj Ca Hj Hr1 Hr2 Jo Sp Sq Pn Nd Rd1 Rd2.
  destruct (pair_clauses rids p q n1 n2 (jo_left _ _ _ _ _ Jo) (jo_right _ _ _ _ _ Jo)) as (Ck & Cf & Cf').
  pose proof (join_not_input p q n1 n2 node st j r1 Jo Sq Hj Hr1) as N1.
  pose proof (join_not_input q p n2 n1 node st j r2 (join_of_sym _ _ _ _ _ Jo) Sp Hj Hr2) as N2.
  unfold populate_joinrel_with_paths, rel_at. rewrite Hr1, Hr2. cbn [deref rbind inner_sjinfo sj_info snd sj_jointype].
  destruct (is_dummy_rel n1 || is_dummy_rel n2 || restriction_is_constant_false _ false) eqn:Em.
  { destruct (mark_dummy_node st j node (p ∪ q) (ss_canon st) Hj (jo_join _ _ _ _ _ Jo) Nd) as (node' & -> & F).
    exists node', (ss_canon st), (ss_scansel st), (ss_buckets st). auto. }
  apply orb_false_iff in Em as [Em _]. apply orb_false_iff in Em as [M1 M2].
  destruct Rd1 as [Rd1|Rd1]; [congruence|]. destruct Rd2 as [Rd2|Rd2]; [congruence|].
  assert (growing (ss_canon st) node /\ cheapest_total_path (rn_paths node) = None) as [Gn Tn].
  { destruct Pn as [Em|Gn]; [|exact Gn]. apply empty_rel_dummy in Em. congruence. }
  destruct (add_join_paths_ok st j r1 r2 p q n1 n2 node (inner_sjinfo n1 n2) _ Hb Ca Hj Hr1 Hr2 N1 N2
    Jo Gn Rd1 Rd2 Ck Cf eq_refl) as (paths & params & canon & sc & bk & E & G1 & A1 & J1 & T1 & P1 & K1).
  unfold andthen. rewrite E. cbn [rbind]. set (node1 := set_rn_params (set_rn_paths node paths) params) in *.
  pose proof (described_paths (p ∪ q) node paths params (jo_join _ _ _ _ _ Jo) J1) as D1. fold node1 in D1.
  set (st1 := set_caches _ _ _ _) in *.
  assert (base `prefix_of` ss_rels st1) as Hb1 by (apply prefix_insert; assumption).
  assert (ss_rels st1 !! j = Some node1) as Hj1 by (cbn; apply list_lookup_insert_eq; eapply lookup_lt_Some, Hj).
  assert (ss_rels st1 !! r1 = Some n1) as Hr11 by (cbn; rewrite list_lookup_insert_ne by congruence; exact Hr1).
  assert (ss_rels st1 !! r2 = Some n2) as Hr21 by (cbn; rewrite list_lookup_insert_ne by congruence; exact Hr2).
  assert (join_of q p n2 n1 node1) as Jo1 by (apply join_of_sym; split; [apply Jo..|exact D1]).
  destruct (add_join_paths_ok st1 j r2 r1 q p n2 n1 node1 (inner_sjinfo n1 n2) _ Hb1 K1 Hj1 Hr21 Hr11 N2 N1 Jo1 G1
    (joinable_grow _ _ _ P1 Rd2) (joinable_grow _ _ _ P1 Rd1) Ck Cf' eq_refl)
    as (paths2 & params2 & canon2 & sc2 & bk2 & E2 & G2 & A2 & J2 & T2 & P2 & K2).
  rewrite E2. unfold st1. rewrite set_rel_twice. eexists _, canon2, sc2, bk2. split; [reflexivity|]. split_and!; [split|etransitivity; eassumption|exact K2].
  - reflexivity.
  - exact (described_paths (p ∪ q) node1 paths2 params2 D1 J2).
  - right. split; [exact G2|]. cbn. rewrite T2. cbn. rewrite T1. exact Tn.
  - right. exact A2.
Qed.

Lemma populate_ok lev levels cur st j r1 r2 p q n1 n2 node rids : order_inv lev levels cur (Some j) st -> j ∈ cur ->
  ss_rels st !! j = Some node -> ss_rels st !! r1 = Some n1 -> ss_rels st !! r2 = Some n2 -> join_of p q n1 n2 node ->
  (0 < size p)%nat -> (0 < size q)%nat -> size (p ∪ q) = lev -> pending (ss_canon st) node -> is_dummy_rel node = false ->
  ready (ss_canon st) n1 -> ready (ss_canon st) n2 ->
  exists st', populate_joinrel_with_paths root r1 r2 j (None, inner_sjinfo n1 n2) (build_joinrel_restrictlist rids n1 n2) st = Ok st'
    /\ order_inv lev levels cur None st'.
Proof.
  intros Oi Ij Hj Hr1 Hr2 Jo Sp Sq Sz Pn Nd Rd1 Rd2. destruct (oi_current _ _ _ _ _ Oi j Ij) as (_ & _ & _ & _ & _ & _ & _ & Bj).
  pose proof (prefix_length _ _ (oi_inputs _ _ _ _ _ Oi)) as Lb.
  destruct (populate_node st j r1 r2 p q n1 n2 node rids (oi_base _ _ _ _ _ Oi) ltac:(lia) (oi_caches _ _ _ _ _ Oi) Hj Hr1 Hr2 Jo Sp Sq Pn Nd Rd1 Rd2)
    as (node' & canon & sc & bk & -> & [Fr Fd Fp Ff] & G & K). eexists. split; [reflexivity|].
  apply (update_ok lev levels cur (Some j) None st j node node' (p ∪ q)); auto; [exact (jo_join _ _ _ _ _ Jo)].
Qed.

(** ** Join relations *)

(** Without special joins and LATERAL every join is legal. *)
Lemma check_legal_ok st r1 r2 n1 n2 rids : ss_infos st = [] -> ss_rels st !! r1 = Some n1 -> ss_rels st !! r2 = Some n2 ->
  check_legal root r1 r2 rids st = Ok (st, Some (None, false)).
Proof.
  intros Ei Hr1 Hr2. unfold check_legal, rel_at. rewrite Hr1, Hr2. cbn [deref rbind]. rewrite Ei, (iq_lateral Iq).
  cbn [join_is_legal legal_loop rbind leftjoin_ok must_be_leftjoin negb orb andb lg_rel1 lg_rel2 match_sjinfo reversed].
  rewrite (set_rel_same st r1 n1 Hr1), (set_rel_same st r2 n2 Hr2), <- Ei, set_infos_same. reflexivity.
Qed.

Lemma order_inv_hash lev levels cur hole st hash entries : order_inv lev levels cur hole st -> table_ok (with_hash st hash) entries ->
  order_inv lev levels cur hole (with_hash st hash).
Proof. intros [B0 B I _ C L Le Ln D Cu J] T. split; try assumption. exists entries. exact T. Qed.

Lemma order_inv_hole lev levels cur j st : order_inv lev levels cur None st -> order_inv lev levels cur (Some j) st.
Proof.
  intros [B0 B I T C L Le Ln D Cu J]. split; try assumption. intros r Hr. destruct (Cu r Hr) as (p & n & Hn & Dp & Sp & Pp & Fp & Bp).
  exists p, n. split_and!; auto.
Qed.

(** A join relation that is there already belongs to the current level. *)
Lemma found_join lev levels cur st r node parts : order_inv lev levels cur None st -> r ∈ join_rel_list st -> ss_rels st !! r = Some node ->
  composed initial parts (rn_relids node) -> size parts = lev -> (2 <= lev)%nat ->
  r ∈ cur /\ described parts node /\ pending (ss_canon st) node.
Proof.
  intros Oi Hin Hr Cp Sz L2.
  assert (forall p n, ss_rels st !! r = Some n -> described p n -> n = node /\ p = parts) as Same.
  { intros p n Hn [C _ _ _ _]. simplify_eq. split; [reflexivity|]. apply (composed_equal initial (iq_apart Iq) p parts _ _ C Cp).
    apply bms_equal_subset; [apply C|apply C|]. split; intros x; auto. }
  destruct (oi_joins _ _ _ _ _ Oi r Hin) as [Old|[Hc|(k & l & Lk & Hl & Hk)]].
  - destruct (iq_old Iq r Old) as (n & Hn & Small). pose proof (prefix_lookup_Some _ _ _ _ Hn (oi_base _ _ _ _ _ Oi)) as Hn'.
    simplify_eq. specialize (Small parts Cp). lia.
  - destruct (oi_current _ _ _ _ _ Oi r Hc) as (p & n & Hn & Dp & Sp & Pp & _). destruct (Same p n Hn Dp) as [-> ->]. auto.
  - destruct (oi_done _ _ _ _ _ Oi k l r Lk Hl Hk) as (p & n & Hn & Dp & Sp & _).
    pose proof (prefix_lookup_Some _ _ _ _ Hn (oi_store _ _ _ _ _ Oi)) as Hs. destruct (Same p n Hs Dp) as [-> ->]. lia.
Qed.

Lemma composed_bms_equal p a b : composed initial p a -> bms_wf b -> bms_equal b a = true -> composed initial p b.
Proof.
  intros [Wa Ba Ma] Wb E. apply bms_equal_subset in E as [S1 S2]; [|assumption..]. split; [exact Wb|exact Ba|].
  intros x. rewrite <- Ma. split; [apply S1|apply S2].
Qed.

(** A new relation at the end of the store, in the table and in the list of the level. *)
Lemma new_join lev levels cur st entries node parts : order_inv lev levels cur None st -> table_ok st entries ->
  find_entry entries (rn_relids node) = None -> described parts node -> size parts = lev -> pending (ss_canon st) node ->
  (lev < length levels)%nat ->
  exists st', (let! st1 := add_join_rel (length (ss_rels st)) (set_rels st (ss_rels st ++ [node])) in
               add_to_level (length (ss_rels st)) st1) = Ok st'
    /\ order_inv lev levels (cur ++ [length (ss_rels st)]) (Some (length (ss_rels st))) st'
    /\ ss_rels st' = ss_rels st ++ [node] /\ ss_canon st' = ss_canon st.
Proof.
  intros Oi T Fe D Sz Pn Ll. set (j := length (ss_rels st)) in *. pose proof (ds_composed _ _ _ _ _ _ _ _ D) as Cp.
  assert (table_ok (set_rels st (ss_rels st ++ [node])) entries) as T1.
  { destruct T as [Te Tw Td Th]. split; try assumption. cbn. eapply Forall2_impl; [exact Te|]. intros r en (rel & Hr & ->).
    exists rel. split; [apply lookup_app_l_Some, Hr|reflexivity]. }
  assert (ss_rels (set_rels st (ss_rels st ++ [node])) !! j = Some node) as Hj by (cbn; apply list_lookup_middle; reflexivity).
  destruct (add_join_rel_ok _ entries j node T1 Hj (cs_wf _ _ _ Cp) Fe) as (hash & E & T2). rewrite E. cbn [rbind].
  unfold add_to_level. cbn [join_rel_level set_join_rels set_rels join_cur_level ss_rels]. rewrite (oi_levels _ _ _ _ _ Oi), (oi_level _ _ _ _ _ Oi).
  rewrite list_lookup_insert_eq by exact Ll. cbn [defined rbind]. rewrite list_insert_insert_eq. eexists. split; [reflexivity|].
  assert (forall r n, ss_rels st !! r = Some n -> (ss_rels st ++ [node]) !! r = Some n) as Up by (intros r n Hn; apply lookup_app_l_Some, Hn).
  split; [|split; reflexivity]. split; cbn.
  - apply Oi.
  - eapply prefix_app_r, Oi.
  - apply Oi.
  - eexists. destruct T2 as [Te Tw Td Th]. split; [exact Te|exact Tw|exact Td|exact Th].
  - apply Oi.
  - reflexivity.
  - reflexivity.
  - apply Oi.
  - apply Oi.
  - intros r Hr. apply elem_of_app in Hr as [Hr|Hr].
    + destruct (oi_current _ _ _ _ _ Oi r Hr) as (p & n & Hn & Dp & Sp & Pp & Fp & Bp). exists p, n. split_and!; auto.
    + apply list_elem_of_singleton in Hr as ->. exists parts, node. split_and!; auto; [congruence|].
      apply prefix_length, Oi.
  - intros r Hr. apply elem_of_app in Hr as [Hr|Hr].
    + destruct (oi_joins _ _ _ _ _ Oi r Hr) as [?|[?|?]]; [auto|right; left; apply elem_of_app; auto|auto].
    + right. left. apply elem_of_app. auto.
Qed.

Lemma level_bound lev levels cur hole st parts rids : order_inv lev levels cur hole st -> composed initial parts rids -> size parts = lev ->
  (lev < length levels)%nat.
Proof.
  intros Oi C Sz. rewrite (oi_length _ _ _ _ _ Oi), <- (iq_length Iq). pose proof (composed_size initial _ _ C). lia.
Qed.

Lemma build_join_rel_ok lev levels cur st r1 r2 p q n1 n2 : order_inv lev levels cur None st ->
  ss_rels st !! r1 = Some n1 -> ss_rels st !! r2 = Some n2 -> described p n1 -> described q n2 -> p ## q -> size (p ∪ q) = lev ->
  (2 <= lev)%nat ->
  exists st' j node rids cur', build_join_rel root (bms_union (rn_relids n1) (rn_relids n2)) r1 r2 (sj_info (inner_sjinfo n1 n2)) st
      = Ok (st', j, build_joinrel_restrictlist rids n1 n2)
    /\ order_inv lev levels cur' (Some j) st' /\ j ∈ cur' /\ ss_rels st' !! j = Some node /\ join_of p q n1 n2 node
    /\ pending (ss_canon st') node /\ ss_rels st' !! r1 = Some n1 /\ ss_rels st' !! r2 = Some n2 /\ ss_canon st' = ss_canon st.
Proof.
  intros Oi Hr1 Hr2 D1 D2 Ap Sz L2. pose proof (ds_composed _ _ _ _ _ _ _ _ D1) as C1. pose proof (ds_composed _ _ _ _ _ _ _ _ D2) as C2.
  destruct (composed_union initial p q _ _ C1 C2) as [Cu _]. set (rids := bms_union _ _) in *.
  unfold build_join_rel, rel_at. rewrite Hr1, Hr2. cbn [deref rbind]. destruct (oi_table _ _ _ _ _ Oi) as [entries T].
  destruct (find_join_rel_ok st entries rids T (cs_wf _ _ _ Cu)) as (hash & -> & T'). cbn [rbind].
  pose proof (order_inv_hash _ _ _ _ _ _ _ Oi T') as Oi'. destruct (find_entry entries rids) as [j|] eqn:Fe.
  - apply find_entry_some in Fe as (i & en & Hi & <- & Eq).
    destruct (Forall2_lookup_r _ _ _ _ _ (tb_entries _ _ T') Hi) as (r & Hl & node & Hn & ->). cbn [fst snd] in *. rewrite Hn. cbn [deref rbind].
    assert (bms_wf (rn_relids node)) as Wn by (pose proof (tb_wf _ _ T) as W; rewrite Forall_forall in W; apply (W _ (list_elem_of_lookup_2 _ _ _ Hi))).
    destruct (found_join lev levels cur _ r node (p ∪ q) Oi' (list_elem_of_lookup_2 _ _ _ Hl) Hn (composed_bms_equal _ _ _ Cu Wn Eq) Sz L2)
      as (Hc & Dn & Pn).
    exists (with_hash st hash), r, node, (rn_relids node), cur. split_and!; try assumption; [reflexivity|apply order_inv_hole, Oi'| |reflexivity].
    split; assumption.
  - destruct (iq_rows Iq) as [He Hc], (iq_width Iq) as [Hw Wc].
    destruct (make_join_node_ok root base initial query e w (iq_clauses Iq) (iq_clauses_ok Iq) He Hw Hc Wc (with_hash st hash)
      (sj_info (inner_sjinfo n1 n2)) p q n1 n2 (oi_base _ _ _ _ _ Oi') (iq_placeholders Iq) (fkeys_st _ (oi_base _ _ _ _ _ Oi')) eq_refl D1 D2 Ap)
      as (node & E & Dn & Gn & Er & Ep). fold rids in E, Er. rewrite E. cbn [rbind].
    assert (pending (ss_canon (with_hash st hash)) node) as Pn by (right; split; [exact Gn|rewrite Ep; reflexivity]).
    rewrite <- Er in Fe. destruct (new_join lev levels cur _ entries node (p ∪ q) Oi' T' Fe Dn Sz Pn (level_bound _ _ _ _ _ _ _ Oi Cu Sz))
      as (st' & E' & Oi2 & Es & Ec).
    apply rbind_ok in E' as (st1 & E1 & E2). rewrite E1. cbn [rbind]. rewrite E2. cbn [rbind].
    exists st', (length (ss_rels (with_hash st hash))), node, rids, (cur ++ [length (ss_rels (with_hash st hash))]).
    split_and!; [reflexivity|exact Oi2| | |split; assumption|rewrite Ec; exact Pn|..|exact Ec].
    + apply elem_of_app. right. left.
    + rewrite Es. apply list_lookup_middle. reflexivity.
    + rewrite Es. apply lookup_app_l_Some, Hr1.
    + rewrite Es. apply lookup_app_l_Some, Hr2.
Qed.

Lemma not_dummy_hole lev levels cur st j node : order_inv lev levels cur (Some j) st -> ss_rels st !! j = Some node -> empty_rel node ->
  order_inv lev levels cur None st.
Proof.
  intros [B0 B I T C L Le Ln D Cu J] Hj Em. split; try assumption. intros r Hr. destruct (Cu r Hr) as (p & n & Hn & Dp & Sp & Pp & Fp & Bp).
  exists p, n. split_and!; auto. intros _. destruct (decide (r = j)) as [-> |N]; [simplify_eq; left; exact Em|apply Fp; congruence].
Qed.

(** make_join_rel adds a relation to the level, or more paths to one that is there. *)
Lemma make_join_rel_ok lev levels cur st r1 r2 p q n1 n2 : order_inv lev levels cur None st ->
  ss_rels st !! r1 = Some n1 -> ss_rels st !! r2 = Some n2 -> described p n1 -> described q n2 -> p ## q -> size (p ∪ q) = lev ->
  (0 < size p)%nat -> (0 < size q)%nat -> ready (ss_canon st) n1 -> ready (ss_canon st) n2 ->
  exists st' j cur', make_join_rel root r1 r2 st = Ok (st', Some j) /\ order_inv lev levels cur' None st' /\ j ∈ cur'.
Proof.
  intros Oi Hr1 Hr2 D1 D2 Ap Sz S1 S2 Rd1 Rd2. assert (2 <= lev)%nat as L2 by (rewrite size_union in Sz by exact Ap; lia).
  unfold make_join_rel, rel_at. rewrite Hr1, Hr2. cbn [deref rbind].
  rewrite (check_legal_ok st r1 r2 n1 n2 _ (oi_infos _ _ _ _ _ Oi) Hr1 Hr2). cbn [rbind snd].
  destruct (build_join_rel_ok lev levels cur st r1 r2 p q n1 n2 Oi Hr1 Hr2 D1 D2 Ap Sz L2)
    as (st1 & j & node & rids & cur' & E & Oi1 & Ij & Hj & Jo & Pn & Hr11 & Hr21 & Ec). rewrite E. cbn [rbind]. rewrite Hj. cbn [deref rbind].
  destruct (is_dummy_rel node) eqn:Dm.
  - exists st1, j, cur'. split_and!; [reflexivity| |exact Ij]. eapply not_dummy_hole; [exact Oi1|exact Hj|eapply pending_dummy; eassumption].
  - rewrite <- Ec in Rd1, Rd2.
    destruct (populate_ok lev levels cur' st1 j r1 r2 p q n1 n2 node rids Oi1 Ij Hj Hr11 Hr21 Jo S1 S2 Sz Pn Dm Rd1 Rd2) as (st2 & E2 & Oi2).
    rewrite E2. cbn [rbind]. exists st2, j, cur'. auto.
Qed.

(** ** One level *)

Section level.
Context (lev : nat) (levels : list (list nat)).

(** The invariant of the loops, and that the level has a relation. *)
Definition level_inv (st : SearchState) : Prop := exists cur, order_inv lev levels cur None st.
Definition level_found (st : SearchState) : Prop := exists cur, order_inv lev levels cur None st /\ cur <> [].

Lemma level_at_done st k l : level_inv st -> (k < lev)%nat -> levels !! k = Some l -> level_at st k = Ok l.
Proof.
  intros [cur Oi] Lk Hl. unfold level_at. rewrite (oi_levels _ _ _ _ _ Oi). cbn [deref rbind].
  rewrite list_lookup_insert_ne by lia. rewrite Hl. reflexivity.
Qed.

Lemma level_at_current st cur : order_inv lev levels cur None st -> (lev <= length inputs)%nat -> level_at st lev = Ok cur.
Proof.
  intros Oi Ll. unfold level_at. rewrite (oi_levels _ _ _ _ _ Oi). cbn [deref rbind].
  rewrite list_lookup_insert_eq by (rewrite (oi_length _ _ _ _ _ Oi); lia). reflexivity.
Qed.

(** Relations without a common input. *)
Definition disjoint_rels (r1 r2 : nat) : Prop :=
  exists n1 n2, store !! r1 = Some n1 /\ store !! r2 = Some n2 /\ bms_overlap (rn_relids n2) (rn_relids n1) = false.

(** Relations of the levels [k] and [k'] whose join belongs to this level. *)
Section pairs.
Context (k k' : nat) (l l' : list nat).
Context (Sum : (k + k' = lev)%nat) (Hk : (0 < k)%nat) (Hk' : (0 < k')%nat) (Hl : levels !! k = Some l) (Hl' : levels !! k' = Some l').

Lemma pair_step st r1 r2 : level_inv st -> r1 ∈ l -> r2 ∈ l' ->
  exists p q n1 n2, store !! r1 = Some n1 /\ store !! r2 = Some n2 /\ ss_rels st !! r1 = Some n1 /\ ss_rels st !! r2 = Some n2
    /\ composed initial p (rn_relids n1) /\ composed initial q (rn_relids n2)
    /\ (p ## q -> exists st' j, make_join_rel root r1 r2 st = Ok (st', Some j) /\ level_found st').
Proof.
  intros [cur Oi] I1 I2. destruct (oi_done _ _ _ _ _ Oi k l r1 ltac:(lia) Hl I1) as (p & n1 & Hn1 & D1 & S1 & R1).
  destruct (oi_done _ _ _ _ _ Oi k' l' r2 ltac:(lia) Hl' I2) as (q & n2 & Hn2 & D2 & S2 & R2).
  pose proof (prefix_lookup_Some _ _ _ _ Hn1 (oi_store _ _ _ _ _ Oi)) as Hs1. pose proof (prefix_lookup_Some _ _ _ _ Hn2 (oi_store _ _ _ _ _ Oi)) as Hs2.
  exists p, q, n1, n2. split_and!; [exact Hn1|exact Hn2|exact Hs1|exact Hs2|apply D1|apply D2|]. intros Ap.
  destruct (make_join_rel_ok lev levels cur st r1 r2 p q n1 n2 Oi Hs1 Hs2 D1 D2 Ap) as (st' & j & cur' & E & Oi' & Ij);
    [rewrite size_union by exact Ap; lia|lia|lia|exact R1|exact R2|].
  exists st', j. split; [exact E|]. exists cur'. split; [exact Oi'|]. intros ->. inversion Ij.
Qed.

Lemma found_inv st : level_found st -> level_inv st.
Proof. intros (cur & Oi & _). exists cur. exact Oi. Qed.

(** Without special joins there is no lookup of legal join clauses. *)
Lemma order_restriction_ok st r1 r2 n1 n2 : level_inv st -> ss_rels st !! r1 = Some n1 -> ss_rels st !! r2 = Some n2 ->
  exists b, have_join_order_restriction root r1 r2 st = Ok (st, b).
Proof.
  intros [cur Oi] H1' H2'. unfold have_join_order_restriction, rel_at. rewrite H1', H2', (oi_infos _ _ _ _ _ Oi). cbn [deref rbind].
  case_match; [eauto|]. case_match; eauto.
Qed.

Lemma clause_joins_ok st old others : old ∈ l -> others ⊆ l' -> level_inv st ->
  exists st', make_rels_by_clause_joins root old others st = Ok st' /\ level_inv st'.
Proof.
  intros Io Is Iv. apply for_each_keeps; [|exact Iv]. clear st Iv. intros other st Hr Iv.
  destruct (pair_step st old other Iv Io (Is other Hr)) as (p & q & n1 & n2 & _ & _ & Hn1 & Hn2 & C1 & C2 & Step).
  unfold rel_at. rewrite Hn1, Hn2. cbn [deref rbind]. destruct (bms_overlap _ _) eqn:Ov; [eauto|].
  destruct (Step (proj1 (composed_overlap initial (iq_apart Iq) p q _ _ C1 C2) Ov)) as (st' & j & E & F).
  assert (exists b, (if have_relevant_joinclause n1 n2 then Ok (st, true) else have_join_order_restriction root old other st) = Ok (st, b)) as [b ->].
  { destruct (have_relevant_joinclause n1 n2); [eauto|]. eapply order_restriction_ok; eassumption. }
  cbn [rbind]. destruct b; [|eauto]. rewrite E. cbn [rbind]. eauto using found_inv.
Qed.

Lemma clauseless_joins_ok st old others : old ∈ l -> others ⊆ l' -> level_inv st ->
  exists st', make_rels_by_clauseless_joins root old others st = Ok st' /\ level_inv st' /\ (level_found st -> level_found st')
    /\ ((exists r, r ∈ others /\ disjoint_rels old r) -> level_found st').
Proof.
  intros Io Is Iv. apply (for_each_reaches level_inv level_found (disjoint_rels old)); [|exact Iv]. clear st Iv. intros other st Hr Iv.
  destruct (pair_step st old other Iv Io (Is other Hr)) as (p & q & n1 & n2 & Hs1 & Hs2 & Hn1 & Hn2 & C1 & C2 & Step).
  unfold rel_at. rewrite Hn1, Hn2. cbn [deref rbind]. pose proof (composed_overlap initial (iq_apart Iq) q p _ _ C2 C1) as Ov.
  destruct (bms_overlap _ _) eqn:E.
  - exists st. split_and!; [reflexivity|exact Iv|auto|]. intros (n1' & n2' & Hs1' & Hs2' & N). simplify_eq. congruence.
  - destruct Step as (st' & j & -> & F); [symmetry; apply Ov; reflexivity|]. cbn [rbind]. exists st'. eauto using found_inv.
Qed.
End pairs.

Context (L2 : (2 <= lev)%nat) (Ll : (lev <= length inputs)%nat) (First : levels !! 1%nat = Some inputs).

Lemma has_joins_ok st k l r : level_inv st -> (k < lev)%nat -> levels !! k = Some l -> r ∈ l ->
  exists b, has_joins root r st = Ok b.
Proof.
  intros [cur Oi] Lk Hl Hr. destruct (oi_done _ _ _ _ _ Oi k l r Lk Hl Hr) as (p & n & Hn & _). unfold has_joins, rel_at.
  rewrite (prefix_lookup_Some _ _ _ _ Hn (oi_store _ _ _ _ _ Oi)). cbn [deref rbind]. eauto.
Qed.

Lemma level_exists st k : level_inv st -> (k < lev)%nat -> exists l, levels !! k = Some l.
Proof. intros [cur Oi] Lk. apply lookup_lt_is_Some_2. rewrite (oi_length _ _ _ _ _ Oi). lia. Qed.

Lemma linear_joins_ok st : level_inv st -> exists st', linear_joins root lev st = Ok st' /\ level_inv st'.
Proof.
  intros Iv. destruct (level_exists st (lev - 1) Iv) as [l Hl]; [lia|]. unfold linear_joins.
  rewrite (level_at_done st (lev - 1) l Iv) by (lia || exact Hl). cbn [rbind]. apply for_each_rest_keeps; [|exact Iv].
  clear st Iv. intros old rest st Ho Hr Iv. rewrite (level_at_done st 1 inputs Iv) by (lia || exact First). cbn [rbind].
  destruct (has_joins_ok st (lev - 1) l old Iv ltac:(lia) Hl Ho) as [b ->]. cbn [rbind].
  assert (lev - 1 + 1 = lev)%nat as Sum by lia. destruct b.
  - apply (clause_joins_ok (lev - 1) 1 l inputs); try assumption; try lia. destruct (Nat.eqb_spec lev 2) as [E|_]; [|auto].
    pose proof Hl as Hi. rewrite E in Hi. cbn [Nat.sub] in Hi. rewrite First in Hi. injection Hi as ->. exact Hr.
  - destruct (clauseless_joins_ok (lev - 1) 1 l inputs Sum ltac:(lia) ltac:(lia) Hl First st old inputs Ho ltac:(auto) Iv) as (st' & E & Iv' & _). eauto.
Qed.

Lemma bushy_joins_ok st k : level_inv st -> (2 <= k)%nat -> (k <= lev - k)%nat -> exists st', bushy_joins root lev k st = Ok st' /\ level_inv st'.
Proof.
  intros Iv K2 Kl. destruct (level_exists st k Iv) as [l Hl]; [lia|]. unfold bushy_joins.
  rewrite (level_at_done st k l Iv) by (lia || exact Hl). cbn [rbind]. apply for_each_rest_keeps; [|exact Iv].
  clear st Iv. intros old rest st Ho Hr Iv. destruct (has_joins_ok st k l old Iv ltac:(lia) Hl Ho) as [b ->]. cbn [rbind].
  destruct b; [|eauto]. destruct (level_exists st (lev - k) Iv) as [l' Hl']; [lia|].
  assert (exists others, (if (k =? lev - k)%nat then Ok rest else level_at st (lev - k)) = Ok others /\ others ⊆ l') as (others & -> & Is).
  { destruct (Nat.eqb_spec k (lev - k)) as [E|_].
    - rewrite <- E in Hl'. simplify_eq. eauto.
    - rewrite (level_at_done st (lev - k) l' Iv) by (lia || exact Hl'). eauto. }
  cbn [rbind]. apply (clause_joins_ok k (lev - k) l l'); try assumption; lia.
Qed.

(** A relation that lacks an input can be joined with it. *)
Lemma missing_input st r l : level_inv st -> levels !! (lev - 1)%nat = Some l -> r ∈ l -> exists i, i ∈ inputs /\ disjoint_rels r i.
Proof.
  intros [cur Oi] Hl Hr. destruct (oi_done _ _ _ _ _ Oi (lev - 1)%nat l r ltac:(lia) Hl Hr) as (p & n & Hn & D & Sz & _).
  pose proof (ds_composed _ _ _ _ _ _ _ _ D) as C.
  destruct (composed_missing initial (iq_apart Iq) p _ C) as (i & Li & Ni); [rewrite (iq_length Iq); lia|]. rewrite (iq_length Iq) in Li.
  destruct (lookup_lt_is_Some_2 inputs i Li) as [r2 Hr2]. destruct (iq_inputs Iq i r2 Hr2) as (n2 & Hn2 & Hi & D2).
  exists r2. split; [eapply list_elem_of_lookup_2, Hr2|]. exists n, n2. split_and!; [exact Hn|exact (prefix_lookup_Some _ _ _ _ Hn2 (oi_inputs _ _ _ _ _ Oi))|].
  apply (composed_overlap initial (iq_apart Iq) {[i]} p _ _ (ds_composed _ _ _ _ _ _ _ _ D2) C). set_solver.
Qed.

Lemma last_ditch_joins_ok st l : level_inv st -> levels !! (lev - 1)%nat = Some l -> l <> [] ->
  exists st', last_ditch_joins root lev st = Ok st' /\ level_found st'.
Proof.
  intros Iv Hl Nl. pose proof Iv as [cur Oi]. unfold last_ditch_joins. rewrite (level_at_current st cur Oi Ll). cbn [rbind].
  destruct cur as [|r0 cur]; [|exists st; split; [reflexivity|exists (r0 :: cur); split; [exact Oi|discriminate]]].
  rewrite (level_at_done st (lev - 1) l Iv) by (lia || exact Hl). cbn [rbind].
  destruct (for_each_reaches level_inv level_found (fun _ => True) l
    (fun old_rel st => let! initial := level_at st 1 in make_rels_by_clauseless_joins root old_rel initial st)) with (st := st)
    as (st' & E & _ & _ & F); [|exact Iv|].
  - intros old st1 Ho Iv1. rewrite (level_at_done st1 1 inputs Iv1) by (lia || exact First). cbn [rbind].
    assert (lev - 1 + 1 = lev)%nat as Sum by lia.
    destruct (clauseless_joins_ok (lev - 1) 1 l inputs Sum ltac:(lia) ltac:(lia) Hl First st1 old inputs Ho ltac:(auto) Iv1)
      as (st2 & E & Iv2 & M & G).
    exists st2. split_and!; [exact E|exact Iv2|exact M|]. intros _. apply G, (missing_input st1 old l Iv1 Hl Ho).
  - rewrite E. cbn [rbind]. destruct l as [|r l]; [done|]. destruct F as (cur & Oi' & Nc); [exists r; split; [left|exact Logic.I]|].
    rewrite (level_at_current st' cur Oi' Ll). cbn [rbind]. rewrite bool_decide_false by exact Nc. cbn [andb].
    exists st'. split; [reflexivity|]. exists cur. auto.
Qed.

(** join_search_one_level finds a relation at every level. *)
Lemma join_search_one_level_ok st l : level_inv (set_levels st (join_rel_level st) lev) -> levels !! (lev - 1)%nat = Some l -> l <> [] ->
  exists st', join_search_one_level root lev st = Ok st' /\ level_found st'.
Proof.
  intros Iv Hl Nl. unfold join_search_one_level, andthen. cbn [rbind].
  destruct (linear_joins_ok _ Iv) as (st1 & -> & Iv1). cbn [rbind].
  destruct (for_each_keeps level_inv (seq 2 (lev / 2 - 1)) (bushy_joins root lev)) with (st := st1) as (st2 & -> & Iv2); [|exact Iv1|].
  - intros k st2 Hk Iv2. apply elem_of_seq in Hk. apply bushy_joins_ok; [exact Iv2|lia|]. pose proof (Nat.Div0.mul_div_le lev 2). lia.
  - cbn [rbind]. exact (last_ditch_joins_ok st2 l Iv2 Hl Nl).
Qed.
End level.

(** ** The end of a level *)

(** The relations [rels] when those in [finished] have been through set_cheapest. *)
Record level_end (lev : nat) (cur : list nat) (st : SearchState) (finished : list nat) (rels : list RelNode) : Prop := {
  le_store : store `prefix_of` rels;
  le_relids : forall r node, ss_rels st !! r = Some node -> exists node', rels !! r = Some node' /\ rn_relids node' = rn_relids node;
  le_current : forall r, r ∈ cur ->
    exists parts node, rels !! r = Some node /\ described parts node /\ size parts = lev /\ (length store <= r)%nat
      /\ (empty_rel node \/ (growing (ss_canon st) node /\ alive (rn_paths node)))
      /\ (r ∈ finished -> ready (ss_canon st) node);
}.

Lemma level_end_start lev levels cur st : order_inv lev levels cur None st -> level_end lev cur st [] (ss_rels st).
Proof.
  intros Oi. split; [apply Oi|eauto|]. intros r Hr. destruct (oi_current _ _ _ _ _ Oi r Hr) as (p & n & Hn & D & Sz & Pn & Fn & L).
  specialize (Fn ltac:(discriminate)). exists p, n. split_and!; auto; [|intros Hx; inversion Hx].
  destruct Pn as [?|[Gn _]]; [auto|]. destruct Fn as [?|?]; auto.
Qed.

Lemma finish_node canon node : empty_rel node \/ (growing canon node /\ alive (rn_paths node)) ->
  exists paths, set_cheapest (rn_paths (generate_gather_paths node)) = Ok paths
    /\ set_rn_paths (generate_gather_paths node) paths = set_rn_paths node paths
    /\ (empty_rel (set_rn_paths node paths) \/ (growing canon (set_rn_paths node paths) /\ alive paths))
    /\ ready canon (set_rn_paths node paths).
Proof.
  intros [Em|[G A]].
  - destruct (finish_empty node Em) as (paths & E1 & E2 & Em'). exists paths. split_and!; auto. left. apply empty_rel_dummy, Em'.
  - destruct (finish_growing So canon node G A) as (paths & E1 & E2 & G' & J'). exists paths. split_and!; auto; [|right; exact J'].
    right. split; [exact G'|apply J'].
Qed.

Lemma finish_rel_ok lev cur st finished rels r : level_end lev cur st finished rels -> r ∈ cur ->
  exists rels', finish_rel r (set_rels st rels) = Ok (set_rels st rels') /\ level_end lev cur st (r :: finished) rels'.
Proof.
  intros [Ls Lr Lc] Hr. destruct (Lc r Hr) as (p & n & Hn & D & Sz & L & Pn & _).
  destruct (finish_node (ss_canon st) n Pn) as (paths & E1 & E2 & Pn' & Rd).
  unfold finish_rel, rel_at. cbn [ss_rels set_rels]. rewrite Hn. cbn [deref rbind]. rewrite E1. cbn [rbind]. rewrite E2.
  exists (<[r := set_rn_paths n paths]> rels). split; [reflexivity|]. pose proof (lookup_lt_Some _ _ _ Hn) as Lt. split.
  - apply prefix_insert; assumption.
  - intros r' node Hr'. destruct (Lr r' node Hr') as (node' & Hn' & Er). destruct (decide (r' = r)) as [-> |N].
    + assert (node' = n) as -> by congruence. exists (set_rn_paths n paths). rewrite list_lookup_insert_eq by exact Lt. auto.
    + exists node'. rewrite list_lookup_insert_ne by congruence. auto.
  - intros r' Hr'. destruct (decide (r' = r)) as [-> |N].
    + exists p, (set_rn_paths n paths). rewrite list_lookup_insert_eq by exact Lt. split_and!; auto.
      destruct D as [C R V W J]. split; assumption.
    + destruct (Lc r' Hr') as (p' & n' & Hn' & D' & Sz' & L' & Pp & Rp). exists p', n'. rewrite list_lookup_insert_ne by congruence.
      split_and!; auto. intros I. apply elem_of_cons in I as [I|I]; [congruence|auto].
Qed.

Lemma finish_level_ok lev cur st l : forall finished rels, level_end lev cur st finished rels -> l ⊆ cur ->
  exists rels', for_each l finish_rel (set_rels st rels) = Ok (set_rels st rels')
    /\ exists finished', level_end lev cur st finished' rels' /\ finished ⊆ finished' /\ l ⊆ finished'.
Proof.
  induction l as [|r l IH]; intros finished rels Le Sub; cbn [for_each].
  { exists rels. split; [reflexivity|]. exists finished. split_and!; [exact Le|auto|intros x Hx; inversion Hx]. }
  destruct (finish_rel_ok lev cur st finished rels r Le) as (rels1 & E1 & Le1); [apply Sub; left|]. unfold andthen. rewrite E1. cbn [rbind].
  destruct (IH (r :: finished) rels1 Le1) as (rels2 & E2 & fin & Le2 & F1 & F2); [intros x Hx; apply Sub; right; exact Hx|].
  exists rels2. split; [exact E2|]. exists fin. split_and!; [exact Le2| |].
  - intros x Hx. apply F1. right. exact Hx.
  - intros x Hx. apply elem_of_cons in Hx as [->|Hx]; [apply F1; left|apply F2, Hx].
Qed.

End store.

(** The next level starts with all relations of this one ready. *)
Lemma next_level store lev levels cur st rels finished : order_inv store lev levels cur None st ->
  level_end store lev cur st finished rels -> cur ⊆ finished -> (lev < length levels)%nat ->
  (forall l, levels !! S lev = Some l -> l = []) ->
  order_inv rels (S lev) (<[lev := cur]> levels) [] None (set_levels (set_rels st rels) (join_rel_level st) (S lev)).
Proof.
  intros Oi [Ls Lr Lc] Fin Ll Later. split; cbn.
  - transitivity store; [apply Oi|exact Ls].
  - reflexivity.
  - apply Oi.
  - destruct (oi_table _ _ _ _ _ _ Oi) as [entries [Te Tw Td Th]]. exists entries. split; [|exact Tw|exact Td|exact Th]. cbn.
    eapply Forall2_impl; [exact Te|]. intros r en (rel & Hr & ->). destruct (Lr r rel Hr) as (rel' & Hr' & Er). exists rel'. rewrite Er. auto.
  - apply Oi.
  - rewrite (oi_levels _ _ _ _ _ _ Oi). f_equal. symmetry. destruct (decide (S lev < length levels)%nat) as [L|L].
    + apply list_insert_id. rewrite list_lookup_insert_ne by lia. destruct (lookup_lt_is_Some_2 levels _ L) as [l Hl].
      rewrite Hl, (Later l Hl). reflexivity.
    + apply list_insert_ge. rewrite length_insert. lia.
  - reflexivity.
  - rewrite length_insert. apply Oi.
  - intros k l r Lk Hl Hr. destruct (decide (k = lev)) as [-> |N].
    + rewrite list_lookup_insert_eq in Hl by exact Ll. injection Hl as <-.
      destruct (Lc r Hr) as (p & n & Hn & D & Sz & _ & _ & Rd). exists p, n. split_and!; auto.
    + rewrite list_lookup_insert_ne in Hl by congruence. destruct (oi_done _ _ _ _ _ _ Oi k l r ltac:(lia) Hl Hr) as (p & n & Hn & D & Sz & Rd).
      exists p, n. split_and!; auto. exact (prefix_lookup_Some _ _ _ _ Hn Ls).
  - intros r Hr. inversion Hr.
  - intros r Hr. destruct (oi_joins _ _ _ _ _ _ Oi r Hr) as [?|[Hc|(k & l & Lk & Hl & Hk)]]; [auto|right; right..].
    + exists lev, cur. rewrite list_lookup_insert_eq by exact Ll. auto.
    + exists k, l. rewrite list_lookup_insert_ne by lia. auto.
Qed.

(** ** The whole search *)

(** All levels up to [m] are done, and each has a relation. *)
Definition levels_done (m : nat) (st : SearchState) : Prop :=
  exists store levels, order_inv store (S m) levels [] None (set_levels st (join_rel_level st) (S m))
    /\ levels !! 1%nat = Some inputs /\ (exists r l, levels !! m = Some (r :: l))
    /\ forall k l, (m < k)%nat -> levels !! k = Some l -> l = [].

Lemma level_step m st : levels_done m st -> (1 <= m)%nat -> (S m <= length inputs)%nat ->
  exists st', (join_search_one_level root (S m);; (fun st => let! rels := level_at st (S m) in for_each rels finish_rel st)) st = Ok st'
    /\ levels_done (S m) st'.
Proof.
  intros (store & levels & Oi & First & (r & l & Hl) & Later) M1 Ml. unfold andthen.
  destruct (join_search_one_level_ok store (S m) levels ltac:(lia) Ml First st (r :: l)) as (st1 & -> & cur & Oi1 & Nc);
    [exists []; exact Oi|rewrite Nat.sub_1_r; exact Hl|discriminate|]. cbn [rbind].
  rewrite (level_at_current store (S m) levels st1 cur Oi1 Ml). cbn [rbind].
  assert (S m < length levels)%nat as Lm by (rewrite (oi_length _ _ _ _ _ _ Oi1); lia).
  destruct (finish_level_ok store (S m) cur st1 cur [] (ss_rels st1) (level_end_start _ _ _ _ _ Oi1)) as (rels & E & fin & Le & _ & Fin); [auto|].
  assert (set_rels st1 (ss_rels st1) = st1) as Es by (destruct st1; reflexivity). rewrite Es in E. rewrite E.
  eexists. split; [reflexivity|]. exists rels, (<[S m := cur]> levels). split_and!.
  - apply (next_level store (S m) levels cur st1 rels fin Oi1 Le Fin Lm). intros l2 Hl2. apply (Later (S (S m)) l2); [lia|exact Hl2].
  - rewrite list_lookup_insert_ne by lia. exact First.
  - destruct cur as [|r' cur]; [done|]. exists r', cur. apply list_lookup_insert_eq, Lm.
  - intros k l' Lk Hl'. rewrite list_lookup_insert_ne in Hl' by lia. apply (Later k l'); [lia|exact Hl'].
Qed.

Lemma levels_ok c : forall m st, levels_done m st -> (1 <= m)%nat -> (m + c <= length inputs)%nat ->
  exists st', for_each (seq (S m) c) (fun lev => join_search_one_level root lev;;
      (fun st => let! rels := level_at st lev in for_each rels finish_rel st)) st = Ok st'
    /\ levels_done (m + c) st'.
Proof.
  induction c as [|c IH]; intros m st Ld M1 Ml; cbn [seq for_each].
  { exists st. rewrite Nat.add_0_r. auto. }
  destruct (level_step m st Ld M1) as (st1 & E1 & Ld1); [lia|].
  match goal with |- context [(?a;; ?b) st] => change ((a;; b) st) with (let! s := a st in b s) end. rewrite E1. cbn [rbind].
  destruct (IH (S m) st1 Ld1) as (st2 & E2 & Ld2); [lia|lia|]. exists st2. split; [exact E2|].
  replace (m + S c)%nat with (S m + c)%nat by lia. exact Ld2.
Qed.

Lemma order_inv_start st levels entries : ss_rels st = base -> join_rel_list st = old_joins -> ss_infos st = [] -> table_ok st entries ->
  caches_ok (ss_canon st) (ss_scansel st) (ss_buckets st) ->
  (forall r node, r ∈ inputs -> base !! r = Some node -> ready (ss_canon st) node) ->
  length levels = S (length inputs) -> levels !! 0%nat = Some [] -> levels !! 1%nat = Some inputs ->
  (forall k l, (1 < k)%nat -> levels !! k = Some l -> l = []) ->
  order_inv base 2 levels [] None (set_levels st (Some levels) 2).
Proof.
  intros Eb Ej Ei [Te Tw Td Th] Ca Rd Ln L0 L1 Later. split; cbn.
  - reflexivity.
  - rewrite Eb. reflexivity.
  - exact Ei.
  - exists entries. split; [exact Te|exact Tw|exact Td|exact Th].
  - exact Ca.
  - f_equal. symmetry. destruct (levels !! 2%nat) as [l|] eqn:E2.
    + apply list_insert_id. rewrite E2. f_equal. apply (Later 2%nat); [lia|exact E2].
    + apply list_insert_ge. apply lookup_ge_None. exact E2.
  - reflexivity.
  - exact Ln.
  - intros [|[|k]] l r Lk Hl Hr.
    + rewrite L0 in Hl. injection Hl as <-. inversion Hr.
    + rewrite L1 in Hl. injection Hl as <-. apply list_elem_of_lookup in Hr as [i Hi]. destruct (iq_inputs Iq i r Hi) as (node & Hn & _ & D).
      exists {[i]}, node. split_and!; [exact Hn|exact D|apply size_singleton|]. apply (Rd r node); [eapply list_elem_of_lookup_2, Hi|exact Hn].
    + lia.
  - intros r Hr. inversion Hr.
  - intros r Hr. left. rewrite <- Ej. exact Hr.
Qed.

Lemma first_levels n l : (1 <= n)%nat -> let levels := <[1%nat := l]> (replicate (n + 1) []) in
  length levels = S n /\ levels !! 0%nat = Some [] /\ levels !! 1%nat = Some (l : list nat)
  /\ forall k l', (1 < k)%nat -> levels !! k = Some l' -> l' = [].
Proof.
  intros Hn levels. subst levels. split_and!.
  - rewrite length_insert, length_replicate. lia.
  - rewrite list_lookup_insert_ne by lia. apply lookup_replicate_2. lia.
  - apply list_lookup_insert_eq. rewrite length_replicate. lia.
  - intros k l' Hk Hl. rewrite list_lookup_insert_ne in Hl by lia. apply lookup_replicate in Hl as [-> _]. reflexivity.
Qed.
End order.

(** What the search finds: the special joins, the caches and the join relations made so
    far are in order, and every input has a plan or is empty. *)
Record search_start `{Libm, Settings, SearchSupport} (root : SearchRoot) (inputs : list nat) (st : SearchState) : Prop := {
  sa_infos : ss_infos st = [];
  sa_table : exists entries, table_ok st entries;
  sa_caches : caches_ok root (ss_canon st) (ss_scansel st) (ss_buckets st);
  sa_ready : forall r node, r ∈ inputs -> ss_rels st !! r = Some node -> ready (ss_canon st) node;
}.

(** A set composed of as many inputs as there are has the members of all of them. *)
Lemma composed_everything initial parts rids : composed initial parts rids -> size parts = length initial ->
  represents rids (fun x => exists r, r ∈ initial /\ member x r).
Proof.
  intros C Sz. split; [apply C|]. intros x. rewrite (cs_members _ _ _ C x). split.
  - intros (i & r & _ & Hi & Hx). exists r. split; [eapply list_elem_of_lookup_2, Hi|exact Hx].
  - intros (r & Hi & Hx). apply list_elem_of_lookup in Hi as [i Hi]. exists i, r. split_and!; [|exact Hi|exact Hx].
    apply (composed_all initial parts _ C Sz). eapply lookup_lt_Some, Hi.
Qed.

Lemma ready_plan canon node : ready canon node -> is_dummy_rel node = true
  \/ exists p, cheapest_total_path (rn_paths node) = Some p /\ param_info p = None /\ side_path (rn_rel node) canon p.
Proof. intros [?|[_ Sd _ (t & Et & Pt & _)]]; [auto|right]. exists t. split_and!; [exact Et|exact Pt|exact (total_path _ _ _ _ Sd Et)]. Qed.

Lemma standard_join_search_ok
    `{Libm, Settings, Catalog, Estimator, Equivalences, PathSupport, EClasses, JoinSupport, SearchSupport}
    `{!CatalogLaws, !EstimatorLaws, !EquivalenceLaws, !LibmOrder, !JoinSupportLaws} root inputs initial query e w st :
  settings_ok -> inner_query root (ss_rels st) inputs (join_rel_list st) initial query e w -> search_start root inputs st ->
  (1 <= length inputs)%nat ->
  exists st' r node, standard_join_search root (length inputs) inputs st = Ok (st', r)
    /\ ss_rels st' !! r = Some node
    /\ represents (rn_relids node) (fun x => exists rids, rids ∈ initial /\ member x rids)
    /\ ss_rels st `prefix_of` ss_rels st'
    /\ (is_dummy_rel node = true
        \/ exists p, cheapest_total_path (rn_paths node) = Some p /\ param_info p = None /\ side_path (rn_rel node) (ss_canon st') p).
Proof.
  intros So Iq [Ei (entries & T) Ca Rd] Hn. unfold standard_join_search.
  destruct (first_levels (length inputs) inputs Hn) as (Ln & L0 & L1 & Later). set (levels := <[1%nat := inputs]> _) in *.
  assert (levels_done root (ss_rels st) inputs (join_rel_list st) initial query e w 1 (set_levels st (Some levels) (join_cur_level st))) as Ld.
  { exists (ss_rels st), levels. split_and!; [|exact L1| |exact Later].
    - exact (order_inv_start root (ss_rels st) inputs (join_rel_list st) initial query e w Iq st levels entries eq_refl eq_refl Ei T Ca Rd Ln L0 L1 Later).
    - destruct inputs as [|r l]; [cbn in Hn; lia|]. exists r, l. exact L1. }
  destruct (levels_ok So root (ss_rels st) inputs (join_rel_list st) initial query e w Iq (length inputs - 1) 1 _ Ld ltac:(lia) ltac:(lia))
    as (st1 & -> & store & levels' & Oi & _ & (r & l & Hl) & _). cbn [rbind]. replace (1 + (length inputs - 1))%nat with (length inputs) in * by lia.
  assert (level_at st1 (length inputs) = Ok (r :: l)) as ->.
  { unfold level_at. pose proof (oi_levels _ _ _ _ _ _ _ _ _ _ _ _ _ _ Oi) as E. cbn in E. rewrite E. cbn [deref rbind].
    rewrite list_lookup_insert_ne by lia. rewrite Hl. reflexivity. }
  cbn [rbind]. destruct (oi_done _ _ _ _ _ _ _ _ _ _ _ _ _ _ Oi (length inputs) (r :: l) r ltac:(lia) Hl ltac:(left)) as (p & node & Hs & D & Sz & Rdy).
  eexists _, r, node. split; [reflexivity|]. cbn in Rdy |- *. split_and!.
  - exact (prefix_lookup_Some _ _ _ _ Hs (oi_store _ _ _ _ _ _ _ _ _ _ _ _ _ _ Oi)).
  - rewrite <- (iq_length _ _ _ _ _ _ _ _ Iq) in Sz. exact (composed_everything _ _ _ (ds_composed _ _ _ _ _ _ _ _ D) Sz).
  - exact (oi_base _ _ _ _ _ _ _ _ _ _ _ _ _ _ Oi).
  - exact (ready_plan _ _ Rdy).
Qed.

(** C12: for a query of inner joins with no LATERAL references, no placeholders, no
    foreign-join paths and no join-path hook, and sizes that keep the row products at most
    2^1000 and the widths below 2^30, the search over join orders succeeds: no routine on
    the way raises an error, the one for a level without any join included (the Cartesian
    products of last resort are always enough), and the relation returned is the join of
    exactly all the inputs. It is proven empty,
    or its cheapest path needs no parameters and has ordered costs, a whole number of
    rows not above the relation's and a canonical sort order. The input relations and all
    relations there were before are as before. *)
Theorem standard_join_search_complete
    `{Libm, Settings, Catalog, Estimator, Equivalences, PathSupport, EClasses, JoinSupport, SearchSupport}
    `{!CatalogLaws, !EstimatorLaws, !EquivalenceLaws, !LibmOrder, !JoinSupportLaws} root inputs initial query e w st :
  settings_ok -> inner_query root (ss_rels st) inputs (join_rel_list st) initial query e w -> search_start root inputs st ->
  (1 <= length inputs)%nat ->
  exists st' r node, standard_join_search root (length inputs) inputs st = Ok (st', r)
    /\ ss_rels st' !! r = Some node
    /\ represents (rn_relids node) (fun x => exists rids, rids ∈ initial /\ member x rids)
    /\ ss_rels st `prefix_of` ss_rels st'
    /\ (is_dummy_rel node = true
        \/ exists p, cheapest_total_path (rn_paths node) = Some p /\ param_info p = None /\ side_path (rn_rel node) (ss_canon st') p).
Proof. apply standard_join_search_ok. Qed.

(** ** Witness *)

#[local] Existing Instance default_settings.

Definition no_equivalences : Equivalences := {|
  generate_join_implied_equalities := fun _ _ _ => [];
  generate_join_implied_equalities_for_ecs := fun _ _ _ _ => [] |}.
#[local] Existing Instance no_equivalences.

Lemma no_equivalence_laws : EquivalenceLaws.
Proof. split; intros; split; constructor. Qed.

(** A query over the three tables: the first two have a join clause, the third has to be
    joined by a Cartesian product. *)
Definition tables : list RelNode := [table_node 2 1 search_clauses; table_node 4 2 search_clauses; table_node 8 3 []].
Definition order_root : SearchRoot :=
  mkSearchRoot sample_root [] [] [] false (fun rti => if (1 <=? rti) && (rti <=? 3) then Some (Z.to_nat (rti - 1)) else None).

Definition order_inputs : list nat := [0; 1; 2]%nat.
Definition order_sets : list Relids := [Some [2]; Some [4]; Some [8]].
Definition order_state : SearchState := mkSearchState tables [] [] None None 0 order_inputs sample_keys ∅ ∅.

(** The merge clause, with the side the outer relation is on. *)
Definition sided_clause (b : bool) : RestrictInfo :=
  update_mergeclause_eclasses (set_join (merge_clause 1 3 1) (mkJoinClause true [1976] 96 3 1 b (Some [6]))).

Lemma order_candidates o i l : l = [] \/ l = search_clauses ->
  merge_candidates o i JOIN_INNER l = [] \/ l = search_clauses /\ exists b, merge_candidates o i JOIN_INNER l = [sided_clause b].
Proof.
  intros [-> | ->]; [left; reflexivity|]. unfold merge_candidates, search_clauses. cbn [mergejoin_clauses_loop IS_OUTER_JOIN andb].
  unfold clause_sides_match_join. destruct (bms_is_subset _ _ && _).
  - right. split; [reflexivity|]. exists true. reflexivity.
  - destruct (bms_is_subset _ _ && _); [right; split; [reflexivity|]; exists false; reflexivity|left; reflexivity].
Qed.

Lemma order_fit o i l : l = [] \/ l = search_clauses -> clauses_fit o i l.
Proof.
  intros Hl. assert (clauses_ok l) as Ck by (destruct Hl as [-> | ->]; [split; constructor|exact search_clauses_ok]).
  destruct (order_candidates o i l Hl) as [E|(-> & b & E)]; split; rewrite ?E.
  - destruct Hl as [-> | ->]; repeat constructor; left; reflexivity.
  - constructor.
  - intros mc Sub. apply submseteq_nil_r in Sub as ->. apply (within_cover default_settings_ok); [constructor|exact Ck].
  - repeat constructor; left; reflexivity.
  - constructor; [|constructor]. destruct b; reflexivity.
  - intros mc Sub. apply (within_cover default_settings_ok); [|exact Ck].
    destruct mc as [|r [|r' mc]]; [constructor| |apply submseteq_length in Sub; cbn in Sub; lia].
    assert (r = sided_clause b) as -> by (apply list_elem_of_singleton; eapply elem_of_submseteq; [|exact Sub]; left).
    constructor; [|constructor]. etransitivity; [apply same_clause_join|apply same_clause_join].
Qed.

Lemma distinct_single l : l ⊆ search_clauses -> distinct l -> l = [] \/ l = search_clauses.
Proof.
  intros Sub D. assert (forall r, r ∈ l -> r = merge_clause 1 3 1) as Only by (intros r Hr; apply list_elem_of_singleton, Sub, Hr).
  destruct l as [|r [|r' l]]; [auto|right; rewrite (Only r ltac:(left)); reflexivity|].
  exfalso. unfold distinct in D. cbn [map] in D. apply NoDup_cons in D as [N _]. apply N.
  rewrite (Only r ltac:(left)), (Only r' ltac:(right; left)). left.
Qed.

Lemma order_apart : inputs_apart order_sets.
Proof.
  assert (Forall bms_wf order_sets) as W by words. split; [exact W| |].
  - intros [|[|[|i]]] r Hr; cbn in Hr; simplify_eq; [exists 1|exists 2|exists 3]; (split; [lia|reflexivity]).
  - intros i j r r' x Hi Hj Hx Hx'. destruct (decide (i = j)) as [|N]; [assumption|exfalso].
    rewrite Forall_forall in W. assert (bms_overlap r r' = true) as O
      by (apply bms_overlap_spec; [eapply W, list_elem_of_lookup_2, Hi|eapply W, list_elem_of_lookup_2, Hj|eauto]).
    destruct i as [|[|[|i]]], j as [|[|[|j]]]; cbn in Hi, Hj; simplify_eq; vm_compute in O; discriminate.
Qed.

Lemma table_described i word rti clauses : order_sets !! i = Some (Some [word]) -> 1 <= rti <= 3 ->
  var_width order_root tables (Var rti 1) = Some 4 -> clauses ⊆ search_clauses ->
  described order_root tables order_sets search_clauses 14 4 {[i]} (table_node word rti clauses).
Proof.
  intros Hi Hr Hw Hc. split; rewrite ?size_singleton.
  - apply composed_input; [exact order_apart|exact Hi].
  - split; [reflexivity|]. apply cle_i2d; cbn; lia.
  - apply (columns_cons _ _ _ 4 [] 0); [exact Hw|lia|constructor; lia].
  - cbn. lia.
  - exact Hc.
Qed.

Lemma order_query : inner_query order_root tables order_inputs [] order_sets search_clauses 14 4.
Proof.
  split; try reflexivity; try (vm_compute; intuition congruence).
  - constructor.
  - constructor.
  - exact sample_forest.
  - exact search_query.
  - exact search_clauses_ok.
  - intros o i rids l Sub D. cbn [generate_join_implied_equalities no_equivalences]. rewrite app_nil_r.
    split; apply order_fit, distinct_single; assumption.
  - exact order_apart.
  - intros [|[|[|i]]] r Hr; cbn in Hr; simplify_eq; eexists; (split; [reflexivity|split; [reflexivity|]]);
      apply table_described; try reflexivity; try lia; auto; intros c Hx; inversion Hx.
  - intros r Hr. inversion Hr.
Qed.

Lemma order_start : search_start order_root order_inputs order_state.
Proof.
  split; [reflexivity| | |].
  - exists []. split; try constructor. intros i j en en' Hi. inversion Hi.
  - split; [exact sample_keys_canon|constructor|apply map_Forall_empty|apply map_Forall_empty].
  - intros r node Hr Hn. right. assert (exists word rti clauses, node = table_node word rti clauses /\ 1 <= rti <= 3) as (word & rti & cl & -> & Hi).
    { destruct r as [|[|[|r]]]; cbn in Hn; simplify_eq; [exists 2, 1, search_clauses|exists 4, 2, search_clauses|exists 8, 3, []];
        (split; [reflexivity|lia]). }
    assert (side_path (table_info word rti) sample_keys (search_path (table_info word rti) (i2d (10 * rti)) [])) as Sp
      by (apply search_side; [apply search_path_input; lia|reflexivity|constructor|constructor]).
    split; cbn.
    + exact sized_sample_rows.
    + apply only_side; [exact Sp|reflexivity..].
    + eexists. split; [left|reflexivity].
    + eexists. split_and!; [reflexivity..|left].
Qed.

(** The search joins the first two tables by their clause and the third by a Cartesian
    product, makes the other two pairs as well, and returns the last relation of the
    store. *)
Lemma standard_join_search_complete_witness : exists st' node,
  standard_join_search order_root 3 order_inputs order_state = Ok (st', 6%nat)
  /\ ss_rels st' !! 6%nat = Some node /\ rn_relids node = Some [14]
  /\ exists p, cheapest_total_path (rn_paths node) = Some p /\ param_info p = None /\ side_path (rn_rel node) (ss_canon st') p.
Proof.
  pose proof no_equivalence_laws as Le.
  destruct (standard_join_search_complete (H6 := sample_join_support) order_root order_inputs order_sets search_clauses 14 4 order_state
    default_settings_ok order_query order_start ltac:(cbn; lia)) as (st' & r & node & E & Hn & _ & _ & D).
  assert (match standard_join_search order_root 3 order_inputs order_state with
          | Ok (st', r) => match ss_rels st' !! 6%nat with
                           | Some node => (r =? 6)%nat && negb (is_dummy_rel node) && bool_decide (rn_relids node = Some [14])
                           | None => false
                           end
          | Error _ => false
          end = true) as C by (vm_compute; reflexivity).
  cbn [length order_inputs] in E. rewrite E in C. destruct (ss_rels st' !! 6%nat) as [n|] eqn:H6n; [|discriminate].
  apply andb_true_iff in C as [C C3]. apply andb_true_iff in C as [C1 C2]. apply Nat.eqb_eq in C1. subst r.
  rewrite H6n in Hn. injection Hn as <-. apply bool_decide_eq_true in C3.
  exists st', n. split_and!; [exact E|exact H6n|exact C3|]. destruct D as [D|D]; [rewrite D in C2; discriminate|exact D].
Defined.
