(* ===== verification/BasePaths.v ===== *)
(** Sizes and paths of base relations (optimizer/path/allpaths.c, with
    check_index_predicates of indxpath.c and join_clause_is_movable_to of restrictinfo.c):
    from the relations as the query names them to the relation that joins them all. *)
From Stdlib Require Import Ascii.
From stdpp Require Import gmap strings.
From S2P Require Import Prelude Float64 Double Bitmapset BitmapsetSpec PlanTypes AddPath Cheapest CostExpr CostBase CostScan CostJoin SizeEst ParamInfo CreatePath PlanCosts MergeKeys JoinPath JoinLegal BuildRel JoinOrder Geqo JoinList.
Open Scope Z_scope.

(** ** Data *)

Record TableSampleClause := mkTableSample { tsmhandler : Oid; tsc_args : list Node }.

(** Range table entries (nodes/parsenodes.h); of the functions, their expressions. *)
Record RangeTblEntry := mkRangeTblEntry {
  rte_kind : RTEKind;
  rte_relid : Oid;
  relkind : ascii;
  tablesample : option TableSampleClause;
  functions : list Node;
  funcordinality : bool;
  tablefunc : Node;
  values_lists : list (list Node);
  ctename : string;
  ctelevelsup : nat;
  self_reference : bool;
  enrtuples : double;
  inh : bool;
}.

(** pg_class.h and pg_proc.h *)
Definition RELKIND_FOREIGN_TABLE : ascii := "f".
Definition RELKIND_PARTITIONED_TABLE : ascii := "p".
Definition RELPERSISTENCE_TEMP : ascii := "t".
Definition PROPARALLEL_SAFE : ascii := "s".
(** pg_operator.h *)
Definition Int8LessOperator : Oid := 412.

(** An index with its predicate. *)
Record RelIndex := mkRelIndex {
  ri_info : IndexOptInfo;
  indpred : list Node;
  predOK : bool;
}.

(** A query level, as a reference to a CTE of it needs it: the names of its WITH list,
    the plans made for them so far, and the path of the non-recursive term of a
    recursive union. *)
Record QueryLevel := mkQueryLevel {
  cteList : list string;
  cte_plan_ids : list Z;
  non_recursive_path : option Path;
}.

(** The parts of the query that need all its rows. *)
Record QueryParts := mkQueryParts {
  hasAggs : bool;
  hasGroupClause : bool;
  hasGroupingSets : bool;
  hasHavingQual : bool;
  hasDistinctClause : bool;
  hasSortClause : bool;
}.

(** The members of PlannerInfo and of its PlannerGlobal that make_one_rel reads; the
    levels are this one and its parents. *)
Record PlanRoot := mkPlanRoot {
  pr_search : SearchRoot;
  simple_rel_array_size : Z;
  simple_rte_array : Z -> option RangeTblEntry;
  parallelModeOK : bool;
  query_level : Z;
  resultRelation : Z;
  rowMarks : list Z;
  pr_parts : QueryParts;
  levels : list QueryLevel;
  subplans : list Plan;
}.

(** A base relation on its way: its node, its indexes, and the canonical path keys. *)
Record BaseState := mkBaseState {
  bs_node : RelNode;
  bs_indexes : list RelIndex;
  bs_canon : list PathKey;
}.

(** What make_one_rel changes: the state of the search, and the indexes by relation. *)
Record PlanState := mkPlanState {
  ps_search : SearchState;
  ps_indexes : gmap nat (list RelIndex);
}.

(** Sampling methods (access/tsmapi.h) and foreign data wrappers (foreign/fdwapi.h). *)
Record TsmRoutine := mkTsmRoutine {
  SampleScanGetSampleSize : RelNode -> list Node -> BlockNumber * double;
  repeatable_across_scans : bool;
}.
Record FdwRoutine := mkFdwRoutine {
  IsForeignScanParallelSafe : option (RelNode -> RangeTblEntry -> bool);
  GetForeignRelSize : RelNode -> Oid -> RelNode;
  GetForeignPaths : BaseState -> Oid -> BaseState;
}.

(** The final relation of a planned subquery, and the columns of its target list. *)
Record SubqueryPlan := mkSubqueryPlan {
  sub_final_rel : RelPaths;
  sub_tlist : list SubTarget;
}.

(** The rest of the planner and of the catalogs: constraint exclusion (plancat.c),
    lookups (lsyscache.c), sampling methods and foreign data wrappers, predicate proofs
    (predtest.c), index and TID paths (indxpath.c, tidpath.c), path keys (pathkeys.c),
    subqueries (planner.c) and the extension hook. *)
Class BaseSupport := {
  relation_excluded_by_constraints : RelNode -> RangeTblEntry -> bool;
  get_rel_persistence : Oid -> ascii;
  func_parallel : Oid -> ascii;
  get_typavgwidth : Node -> Z;                              (* of exprType and exprTypmod *)
  find_placeholder_width : Node -> Z;                       (* ph_width of its PlaceHolderInfo *)
  GetTsmRoutine : Oid -> TsmRoutine;
  fdw_routine : Z -> FdwRoutine;
  predicate_implied_by : list Node -> list Node -> bool;
  contain_mutable_functions : Node -> bool;
  find_childrel_parents : Z -> Relids;
  create_index_paths : BaseState -> BaseState;
  create_tidscan_paths : BaseState -> BaseState;
  build_expression_pathkey : Node -> Oid -> Relids -> list PathKey -> list PathKey * list PathKey;
  convert_subquery_pathkeys : RelNode -> Path -> list PathKey -> list PathKey * list PathKey;
  subquery_is_pushdown_safe : RangeTblEntry -> bool;
  qual_is_pushdown_safe : RangeTblEntry -> Z -> Node -> bool;
  subquery_planner : RangeTblEntry -> list Node -> RelNode -> double -> result SubqueryPlan;
  set_rel_pathlist_hook : option (BaseState -> Z -> RangeTblEntry -> BaseState);
}.

(** ** Setters *)

Definition set_bs_node (st : BaseState) (node : RelNode) : BaseState := mkBaseState node (bs_indexes st) (bs_canon st).
Definition set_bs_canon (st : BaseState) (canon : list PathKey) : BaseState := mkBaseState (bs_node st) (bs_indexes st) canon.
Definition bs_rel (st : BaseState) : RelOptInfo := rn_rel (bs_node st).

Definition set_bs_rel (st : BaseState) (info : RelOptInfo) : BaseState := set_bs_node st (set_rn_rel (bs_node st) info).

Definition set_rn_attrs (rel : RelNode) (attrs : RelAttrs) : RelNode :=
  mkRelNode (rn_rel rel) (rn_paths rel) (rn_params rel) (rn_merge rel) (rn_lateral_relids rel) (rn_direct_lateral_relids rel)
    (rn_lateral_referencers rel) attrs (attr_needed rel) (rn_foreign rel).

Definition set_param_startup (rel : RelOptInfo) : RelOptInfo :=
  {| reloptkind := reloptkind rel; relids := relids rel; rel_rows := rel_rows rel;
     consider_startup := consider_startup rel; consider_param_startup := true;
     consider_parallel := consider_parallel rel; reltarget := reltarget rel; relid := relid rel;
     reltablespace := reltablespace rel; rtekind := rtekind rel; pages := pages rel; tuples := tuples rel;
     allvisfrac := allvisfrac rel; rel_parallel_workers := rel_parallel_workers rel;
     baserestrictinfo := baserestrictinfo rel; baserestrictcost := baserestrictcost rel |}.

Definition set_pages (rel : RelOptInfo) (pages' : BlockNumber) : RelOptInfo :=
  {| reloptkind := reloptkind rel; relids := relids rel; rel_rows := rel_rows rel;
     consider_startup := consider_startup rel; consider_param_startup := consider_param_startup rel;
     consider_parallel := consider_parallel rel; reltarget := reltarget rel; relid := relid rel;
     reltablespace := reltablespace rel; rtekind := rtekind rel; pages := pages'; tuples := tuples rel;
     allvisfrac := allvisfrac rel; rel_parallel_workers := rel_parallel_workers rel;
     baserestrictinfo := baserestrictinfo rel; baserestrictcost := baserestrictcost rel |}.

Definition set_width (rel : RelOptInfo) (w : Z) : RelOptInfo :=
  set_rel_sizes rel (rel_rows rel) (tuples rel) (mkPathTarget (exprs (reltarget rel)) (target_cost (reltarget rel)) w)
    (baserestrictinfo rel) (baserestrictcost rel).

Definition set_quals (rel : RelOptInfo) (quals : list RestrictInfo) : RelOptInfo :=
  set_rel_sizes rel (rel_rows rel) (tuples rel) (reltarget rel) quals (baserestrictcost rel).

Definition set_search (st : PlanState) (search : SearchState) : PlanState := mkPlanState search (ps_indexes st).

Definition set_all_baserels (root : PlanRoot) (rids : Relids) : PlanRoot :=
  let s := pr_search root in
  let i := sr_info s in
  mkPlanRoot (mkSearchRoot (mkPlannerInfo (total_table_pages i) (tuple_fraction i) rids (limit_tuples i) (group_pathkeys i))
                (sr_fkeys s) (sr_query_pathkeys s) (sr_placeholders s) (hasLateralRTEs s) (sr_simple_rels s))
    (simple_rel_array_size root) (simple_rte_array root) (parallelModeOK root) (query_level root) (resultRelation root)
    (rowMarks root) (pr_parts root) (levels root) (subplans root).

(** ** Sizes *)

Section base.
Context `{Libm, Settings, Catalog, Tablespaces, Widths, Estimator, Equivalences, PathSupport, BaseSupport}.
Context (root : PlanRoot).

(** An expression of a target as set_rel_width sees it. *)
Definition target_item (varno : Z) (e : Node) : TargetExpr :=
  match e with
  | Var no attno => if no =? varno then TVar attno (get_typavgwidth e) else TExpr (get_typavgwidth e) e
  | PlaceHolderVar phexpr => TPlaceHolder (find_placeholder_width e) (get_typavgwidth e) phexpr
  | _ => TExpr (get_typavgwidth e) e
  end.

Definition target_items (rel : RelOptInfo) : list TargetExpr := map (target_item (relid rel)) (exprs (reltarget rel)).

(** A size estimate stored in the relation. *)
Definition set_sizes (r : result (RelOptInfo * RelAttrs)) (st : BaseState) : result BaseState :=
  let! (rel, attrs) := r in Ok (set_bs_node st (set_rn_attrs (set_rn_rel (bs_node st) rel) attrs)).

(** The arguments the estimates of costsize.c take from the relation. *)
Definition with_sizes (f : Oid -> RelAttrs -> list TargetExpr -> RelOptInfo -> result (RelOptInfo * RelAttrs)) (rte : RangeTblEntry)
    (st : BaseState) : result BaseState :=
  set_sizes (f (rte_relid rte) (rn_attrs (bs_node st)) (target_items (bs_rel st)) (bs_rel st)) st.

(** An empty Append stands for no rows; the old paths are dropped. *)
Definition set_dummy_rel_pathlist (st : BaseState) : result BaseState :=
  let info := set_width (set_rows (bs_rel st) (i2d 0)) 0 in
  let node := set_rn_rel (bs_node st) info in
  let paths := rn_paths node in
  let node := set_rn_paths node (mkRelPaths [] [] (cheapest_startup_path paths) (cheapest_total_path paths)
                (cheapest_unique_path paths) (cheapest_parameterized_paths paths)) in
  let node := offer_path node (create_append_path info (rn_params node) [] None 0) in
  let! paths := set_cheapest (rn_paths node) in
  Ok (set_bs_node st (set_rn_paths node paths)).

(** restrictinfo.c *)
Definition join_clause_is_movable_to (rinfo : RestrictInfo) (baserel : RelNode) : result bool :=
  let id := relid (rn_rel baserel) in
  let! refers := bms_is_member id (clause_relids rinfo) in
  let! outer := bms_is_member id (outer_relids rinfo) in
  let! nullable := bms_is_member id (nullable_relids rinfo) in
  Ok (refers && negb outer && negb nullable && negb (bms_overlap (rn_lateral_referencers baserel) (clause_relids rinfo))).

Fixpoint movable_clauses (rel : RelNode) (clauses : list RestrictInfo) : result (list RestrictInfo) :=
  match clauses with
  | [] => Ok []
  | rinfo :: clauses =>
      let! movable := join_clause_is_movable_to rinfo rel in
      let! rest := movable_clauses rel clauses in
      Ok (if movable : bool then rinfo :: rest else rest)
  end.

Definition set_indrestrictinfo (ix : RelIndex) (quals : list RestrictInfo) : RelIndex :=
  let i := ri_info ix in
  mkRelIndex (mkIndexOptInfo (indexoid i) (index_rel i) (index_pages i) (index_tuples i) quals) (indpred ix) (predOK ix).

(** One partial index: can it be used, and which clauses its predicate does not imply. *)
Definition check_index (clauselist : list RestrictInfo) (is_target_rel : bool) (quals : list RestrictInfo) (ix : RelIndex) : RelIndex :=
  match indpred ix with
  | [] => ix
  | pred =>
      let ix := mkRelIndex (ri_info ix) pred (predOK ix || predicate_implied_by pred (qual_nodes clauselist)) in
      if is_target_rel then ix
      else set_indrestrictinfo ix (List.filter (fun rinfo =>
             contain_mutable_functions (clause rinfo) || negb (predicate_implied_by [clause rinfo] pred)) quals)
  end.

(** indxpath.c *)
Definition check_index_predicates (st : BaseState) : result BaseState :=
  let rel := bs_rel st in
  let node := bs_node st in
  let indexes := map (fun ix => set_indrestrictinfo ix (baserestrictinfo rel)) (bs_indexes st) in
  if forallb (fun ix => bool_decide (length (indpred ix) = 0%nat)) indexes then Ok (mkBaseState node indexes (bs_canon st))
  else
    let! movable := movable_clauses node (joininfo (rn_params node)) in
    let clauselist := baserestrictinfo rel ++ movable in
    let otherrels :=
      bms_difference (all_baserels (sr_info (pr_search root)))
        (if bool_decide (reloptkind rel = RELOPT_OTHER_MEMBER_REL) then find_childrel_parents (relid rel) else relids rel) in
    let clauselist :=
      if bms_is_empty otherrels then clauselist
      else clauselist ++ generate_join_implied_equalities (bms_union (relids rel) otherrels) otherrels rel in
    let is_target_rel := (relid rel =? resultRelation root) || existsb (Z.eqb (relid rel)) (rowMarks root) in
    Ok (mkBaseState node (map (check_index clauselist is_target_rel (baserestrictinfo rel)) indexes) (bs_canon st)).

Definition set_plain_rel_size (rte : RangeTblEntry) : BaseState -> result BaseState :=
  check_index_predicates;; with_sizes set_baserel_size_estimates rte.

(** The sampling method gives pages and tuples. *)
Definition set_tablesample_rel_size (rte : RangeTblEntry) (tsc : TableSampleClause) : BaseState -> result BaseState :=
  check_index_predicates;;
  (fun st =>
     let (pages', tuples') := SampleScanGetSampleSize (GetTsmRoutine (tsmhandler tsc)) (bs_node st) (tsc_args tsc) in
     Ok (set_bs_rel st (set_tuples (set_pages (bs_rel st) pages') tuples')));;
  with_sizes set_baserel_size_estimates rte.

Definition set_foreign_size (rte : RangeTblEntry) : BaseState -> result BaseState :=
  with_sizes set_foreign_size_estimates rte;;
  (fun st =>
     let node := GetForeignRelSize (fdw_routine (fdwroutine (rn_foreign (bs_node st)))) (bs_node st) (rte_relid rte) in
     Ok (set_bs_node st (set_rn_rel node (set_rows (rn_rel node) (clamp_row_est (rel_rows (rn_rel node))))))).

(** Whether workers may scan the relation, by the kind of range table entry. *)
Definition rte_parallel_ok (rte : RangeTblEntry) (rel : RelNode) : bool :=
  match rte_kind rte with
  | RTE_RELATION =>
      negb (bool_decide (get_rel_persistence (rte_relid rte) = RELPERSISTENCE_TEMP))
      && match tablesample rte with
         | Some tsc => bool_decide (func_parallel (tsmhandler tsc) = PROPARALLEL_SAFE) && is_parallel_safe (tsc_args tsc)
         | None => true
         end
      && (negb (bool_decide (relkind rte = RELKIND_FOREIGN_TABLE))
          || match IsForeignScanParallelSafe (fdw_routine (fdwroutine (rn_foreign rel))) with
             | Some f => f rel rte
             | None => false
             end)
  | RTE_SUBQUERY => true
  | RTE_FUNCTION => is_parallel_safe (functions rte)
  | RTE_VALUES => is_parallel_safe (map OtherExpr (values_lists rte))
  | RTE_JOIN | RTE_TABLEFUNC | RTE_CTE | RTE_NAMEDTUPLESTORE => false
  end.

Definition set_rel_consider_parallel (rte : RangeTblEntry) (st : BaseState) : result BaseState :=
  let rel := bs_rel st in
  if rte_parallel_ok rte (bs_node st) && is_parallel_safe (qual_nodes (baserestrictinfo rel)) && is_parallel_safe (exprs (reltarget rel))
  then Ok (set_bs_rel st (set_consider_parallel rel true)) else Ok st.

(** ** Paths *)

(** add_path for a path its constructor returned. *)
Definition offer (make : RelOptInfo -> RelParams -> Relids -> result (Path * RelParams)) (st : BaseState) : result BaseState :=
  let node := bs_node st in
  let! o := make (rn_rel node) (rn_params node) (rn_lateral_relids node) in
  Ok (set_bs_node st (offer_path node o)).

(** A parallel sequential scan, for as many workers as the table is worth. *)
Definition create_plain_partial_paths (st : BaseState) : result BaseState :=
  let node := bs_node st in
  let rel := rn_rel node in
  match compute_parallel_worker rel (i2d (pages rel)) (i2d (-1)) with
  | None => Error "integer overflow in compute_parallel_worker"
  | Some parallel_workers =>
      if parallel_workers <=? 0 then Ok st
      else
        let! (path, params) := create_seqscan_path rel (rn_params node) None parallel_workers in
        Ok (set_bs_node st (set_rn_params (set_rn_paths node (add_partial_path (rn_paths node) path).1) params))
  end.

Definition set_plain_rel_pathlist : BaseState -> result BaseState :=
  offer (fun rel params required_outer => create_seqscan_path rel params required_outer 0);;
  (fun st => when (consider_parallel (bs_rel st) && bool_decide (rn_lateral_relids (bs_node st) = None)) create_plain_partial_paths st);;
  (fun st => Ok (create_index_paths st));;
  (fun st => Ok (create_tidscan_paths st)).

(** A scan that cannot be repeated is materialized where a join may repeat it. *)
Definition set_tablesample_rel_pathlist (tsc : TableSampleClause) : BaseState -> result BaseState :=
  offer (fun rel params required_outer =>
    let! (path, params) := create_samplescan_path rel params required_outer in
    let risky := (query_level root >? 1)
                 || negb (match bms_membership (all_baserels (sr_info (pr_search root))) with BMS_SINGLETON => true | _ => false end) in
    Ok (if risky && negb (repeatable_across_scans (GetTsmRoutine (tsmhandler tsc))) then create_material_path rel path else path, params)).

Definition set_foreign_pathlist (rte : RangeTblEntry) (st : BaseState) : result BaseState :=
  Ok (GetForeignPaths (fdw_routine (fdwroutine (rn_foreign (bs_node st)))) st (rte_relid rte)).

(** The column of the row numbers, if the query uses it. *)
Definition ordinality_var (rel : RelNode) : option Node :=
  List.find (fun node => match node with
                         | Var varno varattno => (varattno =? max_attr (rn_attrs rel)) && (varno =? relid (rn_rel rel))
                         | _ => false
                         end) (exprs (reltarget (rn_rel rel))).

Definition set_function_pathlist (rte : RangeTblEntry) (st : BaseState) : result BaseState :=
  let (keys, canon) :=
    match (if funcordinality rte then ordinality_var (bs_node st) else None) with
    | Some var => build_expression_pathkey var Int8LessOperator (relids (bs_rel st)) (bs_canon st)
    | None => ([], bs_canon st)
    end in
  offer (fun rel params required_outer => create_functionscan_path (OtherExpr (functions rte)) rel params keys required_outer)
    (set_bs_canon st canon).

Definition set_values_pathlist : BaseState -> result BaseState := offer create_valuesscan_path.

Definition set_tablefunc_pathlist (rte : RangeTblEntry) : BaseState -> result BaseState := offer (create_tablefuncscan_path (tablefunc rte)).

(** The query level [levelsup] levels above this one. *)
Definition level_above (levelsup : nat) : result QueryLevel :=
  match levels root !! levelsup with Some l => Ok l | None => Error "bad levelsup for CTE" end.

(** The rows of the plan made for a CTE. *)
Definition cte_rows (rte : RangeTblEntry) : result double :=
  let! level := level_above (ctelevelsup rte) in
  match list_find (fun name => name = ctename rte) (cteList level) with
  | None => Error "could not find CTE"
  | Some (ndx, _) =>
      match cte_plan_ids level !! ndx with
      | None => Error "could not find plan for CTE"
      | Some plan_id =>
          let! plan := if 0 <? plan_id then defined (subplans root !! Z.to_nat (plan_id - 1)) else Error "no plan" in
          Ok (plan_rows plan)
      end
  end.

Definition set_cte_pathlist (rte : RangeTblEntry) (st : BaseState) : result BaseState :=
  let! rows := cte_rows rte in
  (with_sizes (fun reloid attrs items => set_cte_size_estimates reloid attrs items (self_reference rte) rows) rte;;
   offer create_ctescan_path) st.

Definition set_namedtuplestore_pathlist (rte : RangeTblEntry) : BaseState -> result BaseState :=
  with_sizes (fun reloid attrs items => set_namedtuplestore_size_estimates reloid attrs items (enrtuples rte)) rte;;
  offer create_namedtuplestorescan_path;;
  (fun st => let! paths := set_cheapest (rn_paths (bs_node st)) in Ok (set_bs_node st (set_rn_paths (bs_node st) paths))).

(** The rows of the non-recursive term, one level below the CTE. *)
Definition worktable_rows (rte : RangeTblEntry) : result double :=
  match ctelevelsup rte with
  | O => Error "bad levelsup for CTE"
  | S levelsup =>
      let! level := level_above levelsup in
      match non_recursive_path level with
      | None => Error "could not find path for CTE"
      | Some path => Ok (rows path)
      end
  end.

Definition set_worktable_pathlist (rte : RangeTblEntry) (st : BaseState) : result BaseState :=
  let! rows := worktable_rows rte in
  (with_sizes (fun reloid attrs items => set_cte_size_estimates reloid attrs items (self_reference rte) rows) rte;;
   offer create_worktablescan_path) st.

(** ** Subqueries *)

(** The restriction clauses that stay in the upper query, and those pushed down. *)
Definition push_quals (rte : RangeTblEntry) (rti : Z) (quals : list RestrictInfo) : list RestrictInfo * list Node :=
  let pushed rinfo := negb (pseudoconstant rinfo) && qual_is_pushdown_safe rte rti (clause rinfo) in
  if negb (bool_decide (length quals = 0%nat)) && subquery_is_pushdown_safe rte
  then (List.filter (fun rinfo => negb (pushed rinfo)) quals, map clause (List.filter pushed quals))
  else (quals, []).

(** Does the outer query need all rows of the subquery? *)
Definition needs_all_rows (parts : QueryParts) (multiple_baserels : bool) : bool :=
  hasAggs parts || hasGroupClause parts || hasGroupingSets parts || hasHavingQual parts || hasDistinctClause parts
  || hasSortClause parts || multiple_baserels.

(** A scan over each path of the subquery. *)
Definition subquery_scans (paths : list Path) : BaseState -> result BaseState :=
  for_each paths (fun subpath st =>
    let (keys, canon) := convert_subquery_pathkeys (bs_node st) subpath (bs_canon st) in
    offer (fun rel params required_outer => create_subqueryscan_path rel params subpath keys required_outer) (set_bs_canon st canon)).

Definition set_subquery_pathlist (rti : Z) (rte : RangeTblEntry) (multiple_baserels : bool) (st : BaseState) : result BaseState :=
  let (upper, pushed) := push_quals rte rti (baserestrictinfo (bs_rel st)) in
  let st := set_bs_rel st (set_quals (bs_rel st) upper) in
  let fraction := if needs_all_rows (pr_parts root) multiple_baserels then i2d 0 else tuple_fraction (sr_info (pr_search root)) in
  let! sub := subquery_planner rte pushed (bs_node st) fraction in
  let! cheapest := deref (cheapest_total_path (sub_final_rel sub)) in
  if IS_DUMMY_PATH cheapest then set_dummy_rel_pathlist st
  else
    (with_sizes (fun reloid attrs items => set_subquery_size_estimates reloid attrs items (rows cheapest) (sub_tlist sub)) rte;;
     subquery_scans (pathlist (sub_final_rel sub))) st.

(** ** Relations of the planner's arrays *)

(** A step on one relation. *)
Definition on_rel (n : nat) (f : BaseState -> result BaseState) (st : PlanState) : result PlanState :=
  let search := ps_search st in
  let! node := rel_at search n in
  let! b := f (mkBaseState node (default [] (ps_indexes st !! n)) (ss_canon search)) in
  Ok (mkPlanState (set_caches (set_rel search n (bs_node b)) (bs_canon b) (ss_scansel search) (ss_buckets search))
        (<[n := bs_indexes b]> (ps_indexes st))).

(** [for (rti = 1; rti < root->simple_rel_array_size; rti++)] over the entries with a
    base relation. *)
Definition for_base_rels (body : nat -> Z -> PlanState -> result PlanState) : PlanState -> result PlanState :=
  for_each (seqZ 1 (simple_rel_array_size root - 1)) (fun rti st =>
    match sr_simple_rels (pr_search root) rti with
    | None => Ok st
    | Some n =>
        let! node := rel_at (ps_search st) n in
        if bool_decide (reloptkind (rn_rel node) = RELOPT_BASEREL) then body n rti st else Ok st
    end).

(** Several base relations have to be joined. *)
Definition has_multiple_baserels (st : PlanState) : bool :=
  let baserel rti := match n ← sr_simple_rels (pr_search root) rti; ss_rels (ps_search st) !! n with
                     | Some node => bool_decide (reloptkind (rn_rel node) = RELOPT_BASEREL)
                     | None => false
                     end in
  (1 <? length (List.filter baserel (seqZ 1 (simple_rel_array_size root - 1))))%nat.

(** A relation on the right of a semijoin or antijoin may be asked for one row only. *)
Definition set_base_rel_consider_startup (st : PlanState) : result PlanState :=
  for_each (ss_infos (ps_search st)) (fun sj st =>
    match sj_jointype (sj_info sj), bms_get_singleton_member (syn_righthand (sj_info sj)) with
    | JOIN_SEMI, Some varno | JOIN_ANTI, Some varno =>
        let! n := base_rel (pr_search root) varno in
        on_rel n (fun b => Ok (set_bs_rel b (set_param_startup (bs_rel b)))) st
    | _, _ => Ok st
    end) st.

(** Inheritance and UNION ALL parents. *)
Context (set_append_rel_size set_append_rel_pathlist : nat -> Z -> RangeTblEntry -> PlanState -> result PlanState).

(** The size of a table of any kind. *)
Definition set_relation_size (rte : RangeTblEntry) : BaseState -> result BaseState :=
  if bool_decide (relkind rte = RELKIND_FOREIGN_TABLE) then set_foreign_size rte
  else if bool_decide (relkind rte = RELKIND_PARTITIONED_TABLE) then set_dummy_rel_pathlist
  else match tablesample rte with
       | Some tsc => set_tablesample_rel_size rte tsc
       | None => set_plain_rel_size rte
       end.

(** The size of a relation that is no parent; subqueries, CTEs and tuplestores get their
    paths at once. *)
Definition set_leaf_size (rti : Z) (rte : RangeTblEntry) (multiple_baserels : bool) (st : BaseState) : result BaseState :=
  match rtekind (bs_rel st) with
  | RTE_RELATION => set_relation_size rte st
  | RTE_SUBQUERY => set_subquery_pathlist rti rte multiple_baserels st
  | RTE_FUNCTION =>
      with_sizes (fun reloid attrs items =>
        set_function_size_estimates reloid attrs items (map expression_returns_set_rows (functions rte))) rte st
  | RTE_TABLEFUNC => with_sizes set_tablefunc_size_estimates rte st
  | RTE_VALUES =>
      with_sizes (fun reloid attrs items =>
        set_values_size_estimates reloid attrs items (Z.of_nat (length (values_lists rte)))) rte st
  | RTE_CTE => if self_reference rte then set_worktable_pathlist rte st else set_cte_pathlist rte st
  | RTE_NAMEDTUPLESTORE => set_namedtuplestore_pathlist rte st
  | RTE_JOIN => Error "unexpected rtekind"
  end.

Definition set_rel_size (n : nat) (rti : Z) (rte : RangeTblEntry) (st : PlanState) : result PlanState :=
  let! node := rel_at (ps_search st) n in
  if bool_decide (reloptkind (rn_rel node) = RELOPT_BASEREL) && relation_excluded_by_constraints node rte
  then on_rel n set_dummy_rel_pathlist st
  else if inh rte then set_append_rel_size n rti rte st
  else on_rel n (set_leaf_size rti rte (has_multiple_baserels st)) st.

(** The paths of a relation that is no parent. *)
Definition set_leaf_pathlist (rte : RangeTblEntry) (st : BaseState) : result BaseState :=
  match rtekind (bs_rel st) with
  | RTE_RELATION =>
      if bool_decide (relkind rte = RELKIND_FOREIGN_TABLE) then set_foreign_pathlist rte st
      else match tablesample rte with
           | Some tsc => set_tablesample_rel_pathlist tsc st
           | None => set_plain_rel_pathlist st
           end
  | RTE_SUBQUERY | RTE_CTE | RTE_NAMEDTUPLESTORE => Ok st
  | RTE_FUNCTION => set_function_pathlist rte st
  | RTE_TABLEFUNC => set_tablefunc_pathlist rte st
  | RTE_VALUES => set_values_pathlist st
  | RTE_JOIN => Error "unexpected rtekind"
  end.

(** The end of set_rel_pathlist: gather paths, the hook, the cheapest paths. *)
Definition finish_base_rel (rti : Z) (rte : RangeTblEntry) (st : BaseState) : result BaseState :=
  let node := bs_node st in
  let st := if bool_decide (reloptkind (rn_rel node) = RELOPT_BASEREL) then set_bs_node st (generate_gather_paths node) else st in
  let st := match set_rel_pathlist_hook with Some hook => hook st rti rte | None => st end in
  let! paths := set_cheapest (rn_paths (bs_node st)) in
  Ok (set_bs_node st (set_rn_paths (bs_node st) paths)).

Definition set_rel_pathlist (n : nat) (rti : Z) (rte : RangeTblEntry) (st : PlanState) : result PlanState :=
  let! node := rel_at (ps_search st) n in
  let! st := if is_dummy_rel node then Ok st
             else if inh rte then set_append_rel_pathlist n rti rte st
             else on_rel n (set_leaf_pathlist rte) st in
  on_rel n (finish_base_rel rti rte) st.

Definition set_base_rel_sizes : PlanState -> result PlanState :=
  for_base_rels (fun n rti st =>
    let! rte := deref (simple_rte_array root rti) in
    (when (parallelModeOK root) (on_rel n (set_rel_consider_parallel rte));; set_rel_size n rti rte) st).

Definition set_base_rel_pathlists : PlanState -> result PlanState :=
  for_base_rels (fun n rti st => let! rte := deref (simple_rte_array root rti) in set_rel_pathlist n rti rte st).

End base.

(** ** All base relations and their joins *)

Section one_rel.
Context `{Libm, Settings, Catalog, Tablespaces, Widths, Estimator, Equivalences, PathSupport, BaseSupport}.
Context `{EClasses, JoinSupport, SearchSupport, GeqoSettings, OldMemory, OrderSearch}.
Context (set_append_rel_size set_append_rel_pathlist : PlanRoot -> nat -> Z -> RangeTblEntry -> PlanState -> result PlanState).

(** The relids of the base relations. *)
Fixpoint collect_baserels (root : PlanRoot) (st : PlanState) (rtis : list Z) (rids : Relids) : result Relids :=
  match rtis with
  | [] => Ok rids
  | rti :: rtis =>
      match sr_simple_rels (pr_search root) rti with
      | None => collect_baserels root st rtis rids
      | Some n =>
          let! node := rel_at (ps_search st) n in
          if bool_decide (reloptkind (rn_rel node) = RELOPT_BASEREL)
          then let! rids := bms_add_member rids (relid (rn_rel node)) in collect_baserels root st rtis rids
          else collect_baserels root st rtis rids
      end
  end.

Definition make_one_rel (root : PlanRoot) (joinlist : list JoinListNode) (st : PlanState) : result (PlanRoot * PlanState * option nat) :=
  let! rids := collect_baserels root st (seqZ 1 (simple_rel_array_size root - 1)) None in
  let root := set_all_baserels root rids in
  let! st := (set_base_rel_consider_startup root;;
              set_base_rel_sizes root (set_append_rel_size root);;
              set_base_rel_pathlists root (set_append_rel_pathlist root)) st in
  let! (search, rel) := make_rel_from_joinlist (pr_search root) joinlist (ps_search st) in
  Ok (root, set_search st search, rel).

End one_rel.
