(* ===== verification/BasePathsSpec.v ===== *)
(** Base relations are ready for the search over join orders: every relation that is
    no inheritance parent gets a size, paths and a cheapest path, or is marked as
    empty. *)
From Stdlib Require Import Ascii.
From stdpp Require Import gmap relations strings.
From S2P Require Import Prelude Float64 Double DoubleOrder DoubleDiv DoubleRound DoubleUnit Bitmapset BitmapsetSpec PlanTypes Samples Pathkeys PathCompare AddPath Cheapest CostExpr CostBase CostScan CostScanSpec CostNode HashSize CostJoin CostJoinSpec SizeEst SizeEstSpec ParamInfo CreatePath CreatePathSpec UpperPathSpec PlanCosts MergeKeys MergeKeysSpec JoinPath QualCover JoinPathSpec JoinSearchSpec JoinLegal BuildRel BuildRelSpec JoinOrder JoinParts JoinNodeSpec JoinOrderSpec BasePaths.
Open Scope Z_scope.

(** ** Steps that succeed *)

(** From a state with [P] the step ends, in a state with [Q]. *)
Definition ensures {S} (P : S -> Prop) (f : S -> result S) (Q : S -> Prop) : Prop :=
  forall st, P st -> exists st', f st = Ok st' /\ Q st'.

Lemma ensures_seq {S} (P Q R : S -> Prop) f g : ensures P f Q -> ensures Q g R -> ensures P (f;; g) R.
Proof.
  intros F G st Hp. destruct (F st Hp) as (st1 & E1 & Hq). destruct (G st1 Hq) as (st2 & E2 & Hr).
  exists st2. unfold andthen. rewrite E1. auto.
Qed.

Lemma ensures_weaken {S} (P P' Q Q' : S -> Prop) f : ensures P f Q -> (forall st, P' st -> P st) -> (forall st, Q st -> Q' st) ->
  ensures P' f Q'.
Proof. intros F Hp Hq st H. destruct (F st (Hp st H)) as (st' & E & H'). eauto. Qed.

(** ** Scans *)

Section scans.
Context `{Libm, Settings, Catalog, Tablespaces, Estimator, Equivalences, PathSupport, !CatalogLaws, !TablespaceLaws} (So : settings_ok).

(** The rows a scan without parameters returns; the workers stay. *)
Definition scan_rows (rel : RelOptInfo) (path p : Path) : Prop :=
  rows p = rel_rows rel /\ parallel_workers p = parallel_workers path.

Lemma samplescan_rows path rel b p : cost_samplescan path rel None b = Ok p -> scan_rows rel path p.
Proof. unfold cost_samplescan. intros E. costed_by E; split; reflexivity. Qed.
Lemma functionscan_rows path rel n p : cost_functionscan path rel None n = Ok p -> scan_rows rel path p.
Proof. unfold cost_functionscan. intros E. costed_by E; split; reflexivity. Qed.
Lemma listscan_rows c path rel p : cost_listscan c path rel None = Ok p -> scan_rows rel path p.
Proof. unfold cost_listscan. intros E. costed_by E; split; reflexivity. Qed.
Lemma namedtuplestorescan_rows path rel p : cost_namedtuplestorescan path rel None = Ok p -> scan_rows rel path p.
Proof. unfold cost_namedtuplestorescan. intros E. costed_by E; split; reflexivity. Qed.
Lemma subqueryscan_rows path sub rel p : cost_subqueryscan path sub rel None = Ok p -> scan_rows rel path p.
Proof. unfold cost_subqueryscan. intros E. costed_by E; split; reflexivity. Qed.

Lemma seqscan_rows path rel p : cost_seqscan path rel None = Ok p -> parent path = rel -> param_info path = None ->
  rows p = join_path_rows path /\ parallel_workers p = parallel_workers path.
Proof.
  unfold cost_seqscan, join_path_rows. intros E <- ->. apply rbind_ok in E as (q & _ & E).
  destruct (parallel_workers path >? 0)%Z; injection E as <-; split; reflexivity.
Qed.

(** A scan of the whole relation is a path of it. *)
Record whole_scan (rel : RelOptInfo) (keys : list PathKey) (path : Path) : Prop := {
  ws_parent : parent path = rel;
  ws_target : pathtarget path = reltarget rel;
  ws_param : param_info path = None;
  ws_keys : pathkeys path = keys;
  ws_safe : parallel_safe path = true -> consider_parallel rel = true;
  ws_workers : 0 <= parallel_workers path;
}.

Lemma whole_scan_path node canon keys path p : rel_sized (rn_rel node) -> whole_scan (rn_rel node) keys path -> costed p ->
  same_header path p -> row_count (rows p) -> rows p ⊑ rel_rows (rn_rel node) -> parallel_workers p = parallel_workers path ->
  good_keys canon keys -> join_path (node_join node) canon p /\ PATH_REQ_OUTER p = None.
Proof.
  intros [_ _ _ Hw] [Wp Wt Wn Wk Ws Ww] C [_ Hp Ht Hn Hs Hk] Rc Rl Ew [Kn Nd].
  assert (param_info p = None) as Np by congruence. split; [|unfold PATH_REQ_OUTER; rewrite Np; reflexivity].
  split; cbn; [|rewrite Hs; exact Ws]. split; try assumption.
  - split; [exact C|apply Rc..|rewrite Ht, Wt; exact Hw].
  - congruence.
  - apply plain_param_ok, Np.
  - rewrite Hk, Wk. exact Kn.
  - rewrite Hk, Wk. exact Nd.
  - lia.
Qed.

(** The constructors of scans, when no parameters are asked for. *)
Definition offers_scan (node : RelNode) (canon : list PathKey) (make : RelOptInfo -> RelParams -> Relids -> result (Path * RelParams)) : Prop :=
  exists p, make (rn_rel node) (rn_params node) None = Ok (p, rn_params node)
    /\ join_path (node_join node) canon p /\ PATH_REQ_OUTER p = None.

Lemma scan_offer node canon keys path cost en : rel_sized (rn_rel node) -> whole_scan (rn_rel node) keys path -> good_keys canon keys ->
  costs_ok en (cost path) -> (forall p, cost path = Ok p -> same_header path p) -> (forall p, cost path = Ok p -> scan_rows (rn_rel node) path p) ->
  exists p, cost path = Ok p /\ join_path (node_join node) canon p /\ PATH_REQ_OUTER p = None.
Proof.
  intros Rz Ws Gk (p & E & C & _) Hh Hr. exists p. split; [exact E|]. destruct (Hr p E) as [Er Ew]. destruct Rz as [Ro Rc Rt Rw].
  eapply whole_scan_path; try eassumption; [split; assumption|auto|rewrite Er; exact Rc|rewrite Er; reflexivity].
Qed.

Lemma seqscan_offer node canon workers : rel_sized (rn_rel node) -> 0 <= workers ->
  exists p, create_seqscan_path (rn_rel node) (rn_params node) None workers = Ok (p, rn_params node)
    /\ join_path (node_join node) canon p /\ PATH_REQ_OUTER p = None /\ parallel_safe p = consider_parallel (rn_rel node).
Proof.
  intros Rz Hw. unfold create_seqscan_path, get_baserel_parampathinfo. cbn [bms_is_empty].
  match goal with |- context [cost_seqscan ?n _ _] => set (path := n) end.
  destruct (cost_seqscan_ok So path (rn_rel node) None) as (p & E & C & _); [apply Rz|exact I|apply Rz|]. rewrite E. cbn [rbind].
  pose proof (seqscan_header _ _ _ _ E) as Sh. destruct (seqscan_rows _ _ _ E eq_refl eq_refl) as [Er Ew].
  assert (row_count (join_path_rows path) /\ join_path_rows path ⊑ rel_rows (rn_rel node)) as [Rc Rl]
    by (apply join_rows_count, Rz).
  exists p. split; [reflexivity|].
  destruct (whole_scan_path node canon [] path p Rz) as [J N]; [split; auto|exact C|exact Sh|rewrite Er; assumption..|exact Ew|apply good_keys_nil|].
  split_and!; [exact J|exact N|apply Sh].
Qed.

Ltac scan_by cost header rows :=
  match goal with
  | Rz : rel_sized (rn_rel ?node) |- offers_scan ?node ?canon _ =>
      hnf; unfold get_baserel_parampathinfo; cbn [bms_is_empty];
      match goal with |- context [rbind (?c) _] =>
        match c with context [make_path ?t ?r ?tg ?pp ?aw ?sf ?wk ?ks ?x] =>
          destruct (scan_offer node canon ks (make_path t r tg pp aw sf wk ks x) cost true Rz) as (p & E & J);
          [split; cbn; auto with arith; try lia|auto using good_keys_nil| |intros ?; apply header|intros ?; apply rows
          |exists p; cbn beta in E; rewrite E; exact (conj eq_refl J)]
        end
      end
  end.

Lemma samplescan_offer node canon : rel_sized (rn_rel node) ->
  offers_scan node canon create_samplescan_path.
Proof.
  intros Rz. unfold create_samplescan_path.
  scan_by (fun path => cost_samplescan path (rn_rel node) None (next_sample_block (rn_rel node))) samplescan_header samplescan_rows.
  apply (cost_samplescan_ok So); [apply Rz|exact I|apply Rz].
Qed.

Lemma functionscan_offer node canon fns keys : rel_sized (rn_rel node) -> node_ok fns -> planned fns -> good_keys canon keys ->
  offers_scan node canon (fun rel params req => create_functionscan_path fns rel params keys req).
Proof.
  intros Rz Fo Fp Gk. unfold create_functionscan_path.
  scan_by (fun path => cost_functionscan path (rn_rel node) None fns) functionscan_header functionscan_rows.
  apply (cost_functionscan_ok So); [apply Rz|exact I|apply Rz|assumption..].
Qed.

Lemma tablefuncscan_offer node canon fn : rel_sized (rn_rel node) -> node_ok fn -> planned fn ->
  offers_scan node canon (create_tablefuncscan_path fn).
Proof.
  intros Rz Fo Fp. unfold create_tablefuncscan_path, cost_tablefuncscan.
  scan_by (fun path => cost_functionscan path (rn_rel node) None fn) functionscan_header functionscan_rows.
  apply (cost_functionscan_ok So); [apply Rz|exact I|apply Rz|assumption..].
Qed.

Lemma valuesscan_offer node canon : rel_sized (rn_rel node) -> offers_scan node canon create_valuesscan_path.
Proof.
  intros Rz. unfold create_valuesscan_path, cost_valuesscan.
  scan_by (fun path => cost_listscan cpu_operator_cost path (rn_rel node) None) listscan_header listscan_rows.
  apply (cost_listscan_ok So); [apply So|apply Rz|exact I|apply Rz].
Qed.

Lemma ctescan_offer node canon : rel_sized (rn_rel node) -> offers_scan node canon create_ctescan_path.
Proof.
  intros Rz. unfold create_ctescan_path, cost_ctescan.
  scan_by (fun path => cost_listscan cpu_tuple_cost path (rn_rel node) None) listscan_header listscan_rows.
  apply (cost_listscan_ok So); [apply So|apply Rz|exact I|apply Rz].
Qed.

Lemma worktablescan_offer node canon : rel_sized (rn_rel node) -> offers_scan node canon create_worktablescan_path.
Proof.
  intros Rz. unfold create_worktablescan_path, cost_ctescan.
  scan_by (fun path => cost_listscan cpu_tuple_cost path (rn_rel node) None) listscan_header listscan_rows.
  apply (cost_listscan_ok So); [apply So|apply Rz|exact I|apply Rz].
Qed.

Lemma namedtuplestorescan_offer node canon : rel_sized (rn_rel node) -> offers_scan node canon create_namedtuplestorescan_path.
Proof.
  intros Rz. unfold create_namedtuplestorescan_path.
  scan_by (fun path => cost_namedtuplestorescan path (rn_rel node) None) namedtuplestorescan_header namedtuplestorescan_rows.
  apply (cost_namedtuplestorescan_ok So); [apply Rz|exact I|apply Rz].
Qed.

Lemma subqueryscan_offer node canon sub keys : rel_sized (rn_rel node) -> costed sub -> 0 <= parallel_workers sub -> good_keys canon keys ->
  offers_scan node canon (fun rel params req => create_subqueryscan_path rel params sub keys req).
Proof.
  intros Rz Cs Hw Gk. unfold create_subqueryscan_path.
  scan_by (fun path => cost_subqueryscan path sub (rn_rel node) None) subqueryscan_header subqueryscan_rows.
  - intros B. apply andb_true_iff in B. apply B.
  - apply (cost_subqueryscan_ok So); [apply Rz|exact I|apply Rz|assumption].
Qed.

(** Materialized, a path is still one of the relation. *)
Lemma material_join_path node canon p : rel_sized (rn_rel node) -> join_path (node_join node) canon p -> PATH_REQ_OUTER p = None ->
  join_path (node_join node) canon (create_material_path (rn_rel node) p) /\ PATH_REQ_OUTER (create_material_path (rn_rel node) p) = None.
Proof.
  intros Rz [[[C Ci Cf [W0 W1]] Rc Rl Hp Pa Kn Nd Hk] Js] N. destruct C as [? ? ? ? ?].
  destruct Rz as [Ro Rr Rt Rw].
  set (m := make_path T_Material (rn_rel node) (reltarget (rn_rel node)) (param_info p) false
    (consider_parallel (rn_rel node) && parallel_safe p) (parallel_workers p) (pathkeys p) (XMaterialPath p)).
  assert (same_header m (create_material_path (rn_rel node) p) /\ rows (create_material_path (rn_rel node) p) = rows p
    /\ parallel_workers (create_material_path (rn_rel node) p) = parallel_workers m) as (Sh & Er & Ew).
  { unfold create_material_path, cost_material. destruct (spill_cost _ _ _). split_and!; [split|..]; reflexivity. }
  apply (whole_scan_path node canon (pathkeys p) m); [split; assumption| | |exact Sh|rewrite Er; assumption..|exact Ew|split; assumption].
  - split; try reflexivity; [apply Pa, N| |exact Hk]. cbn. intros B. apply andb_true_iff in B. apply B.
  - apply cost_material_ok; assumption.
Qed.
End scans.

(** ** Sizes *)

Section sizes.
Context `{Libm, Settings, Catalog, Tablespaces, Widths, Estimator, Equivalences, PathSupport, BaseSupport}.
Context `{!CatalogLaws, !TablespaceLaws, !EstimatorLaws} (So : settings_ok).
Context (wmax : Z).

(** No column is estimated wider than [wmax] bytes, and no type has no width. *)
Record widths_fit : Prop := {
  wf_type : forall e, 0 < get_typavgwidth e <= wmax;
  wf_column : forall oid att, get_attavgwidth oid att <= wmax;
}.
Context (Wf : widths_fit).

(** The relation's output are columns of it, whose widths have places in the arrays. *)
Record column_target (rel : RelOptInfo) (attrs : RelAttrs) (needed : list Relids) : Prop := {
  ct_columns : Forall (fun e => exists a, e = Var (relid rel) a /\ a <> 0 /\ min_attr attrs <= a <= max_attr attrs) (exprs (reltarget rel));
  ct_attrs : attrs_ok attrs;
  ct_needed : length needed = length (attr_widths attrs);
  ct_widths : Forall (fun w => 0 <= w <= wmax) (attr_widths attrs);
}.

(** The width found for a column that has none in the cache. *)
Lemma item_width_ok aw e : aw <= wmax -> exists iw,
  (if aw >? 0 then Ok aw else let! _ := Assert (get_typavgwidth e >? 0) in Ok (get_typavgwidth e)) = Ok iw /\ 0 < iw <= wmax.
Proof.
  intros Ha. pose proof (wf_type Wf e) as T. destruct (Z.gtb_spec aw 0) as [G|G]; [eauto|].
  unfold Assert. rewrite (proj2 (Z.gtb_lt _ 0)) by lia. cbn. eauto.
Qed.

Lemma width_loop_columns reloid id minattr es : forall ws cost tw,
  Forall (fun e => exists a, e = Var id a /\ a <> 0 /\ 0 <= a - minattr < Z.of_nat (length ws)) es ->
  Forall (fun w => 0 <= w <= wmax) ws -> 0 <= tw -> tw + wmax * Z.of_nat (length es) < 2 ^ 31 ->
  exists ws' tw', rel_width_loop reloid minattr (map (target_item id) es) ws cost tw false = Ok (ws', cost, tw', false)
    /\ length ws' = length ws /\ Forall (fun w => 0 <= w <= wmax) ws' /\ tw <= tw' <= tw + wmax * Z.of_nat (length es).
Proof.
  induction es as [|e es IH]; intros ws cost tw Fe Fw T0 T1; cbn [map rel_width_loop length] in *.
  { exists ws, tw. split_and!; auto; lia. }
  apply Forall_cons in Fe as [(a & -> & Na & Ha) Fe]. cbn [target_item]. rewrite Z.eqb_refl.
  rewrite (proj2 (Z.eqb_neq a 0) Na). unfold attr_at. rewrite (proj2 (Z.ltb_ge _ 0)) by lia.
  destruct (lookup_lt_is_Some_2 ws (Z.to_nat (a - minattr)) ltac:(lia)) as [w Hw]. rewrite Hw. cbn [rbind].
  assert (0 <= w <= wmax) as Rw by (rewrite Forall_forall in Fw; apply Fw; eapply list_elem_of_lookup_2, Hw).
  assert (0 <= wmax * Z.of_nat (length es)) as Bm by nia.
  destruct (w >? 0) eqn:Ew.
  - rewrite wrap32_small by lia. destruct (IH ws cost (tw + w) Fe Fw) as (ws' & tw' & E & L & F & B); [lia..|]. exists ws', tw'. split_and!; [exact E|exact L|exact F|lia..].
  - destruct (item_width_ok (if negb (reloid =? 0) && (a >? 0) then get_attavgwidth reloid a else 0) (Var id a)) as (iw & -> & Ri).
    { destruct (negb (reloid =? 0) && (a >? 0)); [apply Wf|lia]. }
    cbn [rbind]. rewrite wrap32_small by lia.
    destruct (IH (<[Z.to_nat (a - minattr) := iw]> ws) cost (tw + iw)) as (ws' & tw' & E & L & F & B); [| |lia..|].
    + rewrite length_insert. exact Fe.
    + apply Forall_insert; [assumption|lia].
    + exists ws', tw'. rewrite length_insert in L. split_and!; [exact E|exact L|exact F|lia..].
Qed.

(** What a relation has after its size was estimated: [t] tuples. *)
Record resized (t : double) (rel : RelOptInfo) (attrs : RelAttrs) (needed : list Relids) (rel' : RelOptInfo) (attrs' : RelAttrs) : Prop := {
  rs_shape : exists r tg q c, rel' = set_rel_sizes rel r t tg q c /\ exprs tg = exprs (reltarget rel);
  rs_rows : row_count (rel_rows rel');
  rs_tuples : rel_rows rel' ⊑ dMax t (i2d 1);
  rs_quals : qual_cost_ok (baserestrictcost rel');
  rs_cost : qual_cost_ok (target_cost (reltarget rel'));
  rs_width : 0 <= width (reltarget rel') <= wmax * Z.of_nat (length (exprs (reltarget rel)));
  rs_min : min_attr attrs' = min_attr attrs;
  rs_max : max_attr attrs' = max_attr attrs;
  rs_target : column_target rel' attrs' needed;
}.

Lemma rel_width_columns reloid rel attrs needed : column_target rel attrs needed ->
  wmax * Z.of_nat (length (exprs (reltarget rel))) < 2 ^ 31 ->
  exists tg attrs', set_rel_width reloid attrs (target_items rel) (reltarget rel) = Ok (tg, attrs')
    /\ exprs tg = exprs (reltarget rel) /\ target_cost tg = zero_qual_cost
    /\ 0 <= width tg <= wmax * Z.of_nat (length (exprs (reltarget rel)))
    /\ min_attr attrs' = min_attr attrs /\ max_attr attrs' = max_attr attrs
    /\ attrs_ok attrs' /\ length needed = length (attr_widths attrs') /\ Forall (fun w => 0 <= w <= wmax) (attr_widths attrs').
Proof.
  intros [Cc [Ca Cl] Cn Cw] Bt. unfold set_rel_width, target_items.
  destruct (width_loop_columns reloid (relid rel) (min_attr attrs) (exprs (reltarget rel)) (attr_widths attrs) zero_qual_cost 0)
    as (ws & tw & -> & L & F & B); [|exact Cw|lia..|].
  - eapply Forall_impl; [exact Cc|]. intros e (a & -> & Na & Ha). exists a. split_and!; [reflexivity|exact Na|lia..].
  - cbn [rbind]. unfold Assert. rewrite (proj2 (Z.geb_le _ 0)) by lia. cbn [rbind].
    do 2 eexists. split; [reflexivity|]. cbn. unfold attrs_ok. cbn. rewrite L. split_and!; auto; lia.
Qed.

Lemma baserel_resized reloid attrs needed rel t : nonneg t = true -> finite t -> integral t ->
  clauses_ok (baserestrictinfo rel) -> column_target rel attrs needed -> wmax * Z.of_nat (length (exprs (reltarget rel))) < 2 ^ 31 ->
  exists rel' attrs', set_baserel_size_estimates reloid attrs (target_items rel) (set_tuples rel t) = Ok (rel', attrs')
    /\ resized t rel attrs needed rel' attrs'.
Proof.
  intros Ht Ft It [Hn Hp] Ct Bt. unfold set_baserel_size_estimates. cbn [tuples baserestrictinfo reltarget set_tuples set_rel_sizes].
  destruct (cost_qual_eval_total So _ Hn Hp) as (quals & c & -> & Hc). cbn [rbind].
  destruct (rel_width_columns reloid rel attrs needed Ct Bt) as (tg & attrs' & -> & E1 & E2 & Bw & E3 & E4 & Ao & Ln & Fw). cbn [rbind].
  do 2 eexists. split; [reflexivity|].
  destruct (clamp_tuples_ok t _ Ht Ft (selectivity_fraction (baserestrictinfo rel) 0 JOIN_INNER None)) as [C1 C2].
  split; cbn; try assumption; auto.
  - eexists _, _, _, _. split; [reflexivity|exact E1].
  - rewrite E2. apply zero_qual_cost_ok.
  - split; cbn; auto. rewrite E1, E3, E4. apply Ct.
Qed.
End sizes.

(** ** Relations on their way *)

(** A number of tuples: whole, and at most [2^e]. *)
Record tuples_fit (e : Z) (t : double) : Prop := {
  tf_nonneg : nonneg t = true;
  tf_finite : finite t;
  tf_integral : integral t;
  tf_cap : t ⊑ row_cap e;
}.

(** What the routines of allpaths.c leave alone. *)
Record kept (node node' : RelNode) : Prop := {
  kp_relids : rn_relids node' = rn_relids node;
  kp_relid : relid (rn_rel node') = relid (rn_rel node);
  kp_kind : reloptkind (rn_rel node') = reloptkind (rn_rel node);
  kp_rte : rtekind (rn_rel node') = rtekind (rn_rel node);
  kp_target : exprs (reltarget (rn_rel node')) = exprs (reltarget (rn_rel node));
  kp_clauses : joininfo (rn_params node') = joininfo (rn_params node);
  kp_lateral : rn_lateral_relids node' = rn_lateral_relids node;
  kp_needed : attr_needed node' = attr_needed node;
  kp_min : min_attr (rn_attrs node') = min_attr (rn_attrs node);
}.

#[export] Instance kept_preorder : PreOrder kept.
Proof. split; [split; reflexivity|]. intros a b c [] []. split; congruence. Qed.

(** The path keys a routine returns are canonical, and the old ones stay. *)
Record keys_from (canon : list PathKey) (r : list PathKey * list PathKey) : Prop := {
  kf_grow : canon `prefix_of` r.2;
  kf_canon : canon_ok r.2;
  kf_keys : good_keys r.2 r.1;
}.

(** A routine that adds paths to a relation does so by add_path and add_partial_path. *)
Record offers_paths `{Settings} (st st' : BaseState) : Prop := {
  op_grow : bs_canon st `prefix_of` bs_canon st';
  op_canon : canon_ok (bs_canon st');
  op_node : exists paths params, bs_node st' = set_rn_params (set_rn_paths (bs_node st) paths) params
    /\ rtc (offered (node_join (bs_node st)) (bs_canon st')) (rn_paths (bs_node st)) paths
    /\ join_params (rn_rel (bs_node st)) params /\ joininfo params = joininfo (rn_params (bs_node st));
}.

Class BasePathLaws `{Libm, Settings, BaseSupport} := {
  index_paths_offered : forall st, growing (bs_canon st) (bs_node st) -> canon_ok (bs_canon st) -> offers_paths st (create_index_paths st);
  tid_paths_offered : forall st, growing (bs_canon st) (bs_node st) -> canon_ok (bs_canon st) -> offers_paths st (create_tidscan_paths st);
  expression_keys : forall var op rids canon, canon_ok canon -> keys_from canon (build_expression_pathkey var op rids canon);
  subquery_keys : forall node path canon, canon_ok canon -> keys_from canon (convert_subquery_pathkeys node path canon);
}.

Section stages.
Context (wmax e w : Z).

(** A base relation before its size is estimated, without LATERAL references. *)
Record unsized (node : RelNode) : Prop := {
  us_paths : rn_paths node = new_rel_paths;
  us_lateral : rn_lateral_relids node = None;
  us_ppis : ppilist (rn_params node) = [];
  us_join : clauses_ok (joininfo (rn_params node));
  us_clauses : clauses_ok (baserestrictinfo (rn_rel node));
  us_tuples : tuples_fit e (tuples (rn_rel node));
  us_relid : 0 <= relid (rn_rel node);
  us_pages : 0 <= pages (rn_rel node) < 2 ^ 32;
  us_visible : nonneg (allvisfrac (rn_rel node)) = true /\ allvisfrac (rn_rel node) ⊑ i2d 1;
  us_workers : rel_parallel_workers (rn_rel node) = -1 \/ 0 <= rel_parallel_workers (rn_rel node);
  us_target : column_target wmax (rn_rel node) (rn_attrs node) (attr_needed node);
  us_width : 0 <= wmax * Z.of_nat (length (exprs (reltarget (rn_rel node)))) <= w;
}.

(** A relation with a size: what holds also of an empty one. *)
Record has_size (node : RelNode) : Prop := {
  hs_tuples : nonneg (tuples (rn_rel node)) = true /\ finite (tuples (rn_rel node));
  hs_rows : rows_within (rel_rows (rn_rel node)) e;
  hs_fraction : rel_rows (rn_rel node) ⊑ dMax (tuples (rn_rel node)) (i2d 1);
  hs_target : column_target wmax (rn_rel node) (rn_attrs node) (attr_needed node);
  hs_width : 0 <= width (reltarget (rn_rel node)) <= w;
  hs_workers : rel_parallel_workers (rn_rel node) = -1 \/ 0 <= rel_parallel_workers (rn_rel node);
}.

(** [node0] and [canon0] are the relation and the path keys at the start. *)
Context (node0 : RelNode) (canon0 : list PathKey).

Record keys_grow (st : BaseState) : Prop := {
  kg_canon : canon_ok (bs_canon st);
  kg_prefix : canon0 `prefix_of` bs_canon st;
}.

Record starts (st : BaseState) : Prop := {
  st_unsized : unsized (bs_node st);
  st_kept : kept node0 (bs_node st);
  st_keys : keys_grow st;
}.

(** The relation collects paths. *)
Record collects (st : BaseState) : Prop := {
  cl_size : has_size (bs_node st);
  cl_kept : kept node0 (bs_node st);
  cl_keys : keys_grow st;
  cl_growing : growing (bs_canon st) (bs_node st);
  cl_lateral : rn_lateral_relids (bs_node st) = None;
}.

Definition collected (st : BaseState) : Prop := collects st /\ alive (rn_paths (bs_node st)).

(** The relation is proven empty. *)
Record emptied (st : BaseState) : Prop := {
  em_size : has_size (bs_node st);
  em_kept : kept node0 (bs_node st);
  em_keys : keys_grow st;
  em_empty : empty_rel (bs_node st);
}.

Definition no_cheapest (st : BaseState) : Prop := cheapest_total_path (rn_paths (bs_node st)) = None.

(** Adding paths changes nothing else. *)
Lemma collects_paths st paths : collects st -> joinrel_paths (node_join (bs_node st)) (bs_canon st) paths ->
  collects (set_bs_node st (set_rn_paths (bs_node st) paths)).
Proof.
  intros [S K G [Rz _ Pm] L] J. split; cbn; [destruct S; split; assumption|destruct K; split; assumption|destruct G; split; assumption| |exact L].
  split; [exact Rz|exact J|exact Pm].
Qed.

(** So does finding more canonical path keys. *)
Lemma collects_keys st canon : collects st -> bs_canon st `prefix_of` canon -> canon_ok canon -> collects (set_bs_canon st canon).
Proof.
  intros [S K [_ Gp] Gr L] P C. split; cbn; [exact S|exact K| |eapply growing_grow; eassumption|exact L].
  split; [exact C|]. cbn. etransitivity; eassumption.
Qed.

Section steps.
Context `{Libm, Settings, Catalog, Tablespaces, Widths, Estimator, Equivalences, PathSupport, BaseSupport}.

Lemma offer_collects make st : collects st -> offers_scan (bs_node st) (bs_canon st) make ->
  exists st', offer make st = Ok st' /\ collected st'.
Proof.
  intros C (p & E & J & N). unfold offer. rewrite (cl_lateral _ C), E. cbn [rbind].
  eexists. split; [reflexivity|]. destruct (add_path_cases _ _ (rn_paths (bs_node st)) p J (gr_paths _ _ (cl_growing _ C))) as [Jp A].
  split; [exact (collects_paths st _ C Jp)|]. apply A. right. exact N.
Qed.

Lemma offer_no_cheapest make st st' : offer make st = Ok st' -> no_cheapest st -> no_cheapest st'.
Proof.
  unfold offer, no_cheapest. intros E N. apply rbind_ok in E as ([p params] & _ & E). injection E as <-. cbn.
  unfold add_path. destruct (run_tournament _ _ _ _). exact N.
Qed.

Context `{!CatalogLaws, !TablespaceLaws, !EstimatorLaws, !LibmOrder, !BasePathLaws} (So : settings_ok) (Wf : widths_fit wmax).
Context (He : 0 <= e <= 1000) (Hw : w < 2 ^ 30).

Lemma cap_one : i2d 1 ⊑ row_cap e.
Proof. apply one_le_count, cap_count, He. Qed.

Lemma dMax_cap t : tuples_fit e t -> dMax t (i2d 1) ⊑ row_cap e.
Proof. intros [_ _ _ L]. unfold dMax. destruct (t >? i2d 1)%D; [exact L|apply cap_one]. Qed.

(** The node with a new size. *)
Lemma resized_collects st rel' attrs' t : starts st -> tuples_fit e t ->
  resized wmax t (bs_rel st) (rn_attrs (bs_node st)) (attr_needed (bs_node st)) rel' attrs' ->
  collects (set_bs_node st (set_rn_attrs (set_rn_rel (bs_node st) rel') attrs'))
  /\ no_cheapest (set_bs_node st (set_rn_attrs (set_rn_rel (bs_node st) rel') attrs')).
Proof.
  intros [[Up Ul Ui Uj Uc Ut Ud Ug Uv Uw Ua Un] K G] Tf [(r & tg & q & c & -> & Et) Rr Rt Rq Rc Rw Rmin Rmax Rtg].
  unfold bs_rel in *. split; [|unfold no_cheapest; cbn; rewrite Up; reflexivity]. destruct Tf as [Tn Tfin Ti Tc].
  split; cbn; [| |destruct G; split; assumption| |exact Ul].
  - split; cbn; auto.
    + split; [apply Rr|]. etransitivity; [exact Rt|]. apply dMax_cap. split; assumption.
    + cbn in Rw. lia.
  - destruct K. split; cbn; try assumption; congruence.
  - split; cbn.
    + split; cbn; [|exact Rr|exact Rc|cbn in Rw; lia]. split; cbn; auto. apply Rr.
    + unfold node_join. cbn. rewrite Up. split; constructor.
    + split; [|rewrite Ui; constructor]. split; [|rewrite Ui; constructor|exact Uj]. split; rewrite Ui; constructor.
Qed.

(** A size estimate that counts [t] tuples. *)
Lemma sizes_collect f rte t : tuples_fit e t ->
  (forall reloid attrs items rel, f reloid attrs items rel = set_baserel_size_estimates reloid attrs items (set_tuples rel t)) ->
  ensures (starts) (with_sizes f rte) (fun st => collects st /\ no_cheapest st).
Proof.
  intros Tf Hf st S. unfold with_sizes. rewrite Hf.
  destruct (baserel_resized So wmax Wf (rte_relid rte) (rn_attrs (bs_node st)) (attr_needed (bs_node st)) (bs_rel st) t)
    as (rel' & attrs' & E & R); try apply Tf; try apply S; [pose proof (us_width _ (st_unsized _ S)); unfold bs_rel in *; lia|].
  unfold set_sizes. rewrite E. cbn [rbind]. eexists. split; [reflexivity|]. eapply resized_collects; eassumption.
Qed.

(** set_dummy_rel_pathlist leaves an empty relation. *)
Lemma dummy_emptied st : starts st -> exists st', set_dummy_rel_pathlist st = Ok st' /\ emptied st'.
Proof.
  intros [[Up Ul Ui Uj Uc Ut Ud Ug Uv Uw Ua Un] K G]. unfold set_dummy_rel_pathlist, create_append_path, get_appendrel_parampathinfo.
  cbn [bms_is_empty append_loop]. unfold offer_path. cbn [fst snd].
  match goal with |- context [add_path ?r ?q] => set (d := q); set (r0 := r); assert (pathlist (add_path r0 d).1 = [d] /\ partial_pathlist (add_path r0 d).1 = []) as [El Ep] by (split; reflexivity) end.
  cbn [rn_paths set_rn_params set_rn_paths].
  destruct (set_cheapest_picks (add_path r0 d).1) as (r & E & E1 & E2 & _ & _ & (t & Et & Ht & _) & _); [rewrite El; discriminate|].
  rewrite E. cbn [rbind]. eexists. split; [reflexivity|]. split; cbn.
  - split; cbn; auto.
    + split; apply Ut.
    + split; [reflexivity|]. etransitivity; [|apply cap_one]. apply cle_eval. reflexivity.
    + unfold cle. change (cmag (i2d 0)) with 0. apply cmag_range.
    + destruct Ua. split; assumption.
    + lia.
  - destruct K. split; cbn; assumption.
  - destruct G; split; assumption.
  - exists d. cbn. rewrite E1, E2, Et. rewrite El in Ht. apply list_elem_of_singleton in Ht as ->. auto.
Qed.

(** *** Tables *)

Lemma movable_clauses_ok node clauses : 0 <= relid (rn_rel node) -> exists l, movable_clauses node clauses = Ok l.
Proof.
  intros Hr. induction clauses as [|c clauses [l IH]]; cbn [movable_clauses]; [eauto|]. unfold join_clause_is_movable_to.
  destruct (bms_is_member_ok _ (clause_relids c) Hr) as [b1 ->]. destruct (bms_is_member_ok _ (outer_relids c) Hr) as [b2 ->].
  destruct (bms_is_member_ok _ (nullable_relids c) Hr) as [b3 ->]. cbn [rbind]. rewrite IH. cbn [rbind]. eauto.
Qed.

(** check_index_predicates changes the indexes only. *)
Lemma index_predicates_start root : ensures starts (check_index_predicates root) starts.
Proof.
  intros st [U K [Gc Gp]]. unfold check_index_predicates. destruct (forallb _ _).
  - eexists. split; [reflexivity|]. split; [exact U|exact K|split; assumption].
  - destruct (movable_clauses_ok (bs_node st) (joininfo (rn_params (bs_node st))) (us_relid _ U)) as [l ->]. cbn [rbind].
    eexists. split; [reflexivity|]. split; [exact U|exact K|split; assumption].
Qed.

Lemma set_tuples_same rel : set_tuples rel (tuples rel) = rel.
Proof. destruct rel; reflexivity. Qed.

(** The table's own number of tuples. *)
Lemma baserel_collect rte : ensures starts (with_sizes set_baserel_size_estimates rte) (fun st => collects st /\ no_cheapest st).
Proof.
  intros st S. pose proof (us_tuples _ (st_unsized _ S)) as Tf. unfold with_sizes.
  destruct (baserel_resized So wmax Wf (rte_relid rte) (rn_attrs (bs_node st)) (attr_needed (bs_node st)) (bs_rel st) (tuples (bs_rel st)))
    as (rel' & attrs' & E & R); try apply Tf; try apply S; [pose proof (us_width _ (st_unsized _ S)); unfold bs_rel in *; lia|].
  rewrite set_tuples_same in E. unfold set_sizes. rewrite E. cbn [rbind]. eexists. split; [reflexivity|]. eapply resized_collects; eassumption.
Qed.

(** The sampling method gives a number of pages and of tuples. *)
Definition sample_fits (tsc : TableSampleClause) : Prop :=
  forall node, 0 <= (SampleScanGetSampleSize (GetTsmRoutine (tsmhandler tsc)) node (tsc_args tsc)).1 < 2 ^ 32
    /\ tuples_fit e (SampleScanGetSampleSize (GetTsmRoutine (tsmhandler tsc)) node (tsc_args tsc)).2.

Lemma plain_size_ok root rte : ensures starts (set_plain_rel_size root rte) (fun st => collects st /\ no_cheapest st).
Proof. eapply ensures_seq; [apply index_predicates_start|apply baserel_collect]. Qed.

Lemma tablesample_size_ok root rte tsc : sample_fits tsc ->
  ensures starts (set_tablesample_rel_size root rte tsc) (fun st => collects st /\ no_cheapest st).
Proof.
  intros Sf. eapply ensures_seq; [apply index_predicates_start|]. eapply ensures_seq; [|apply baserel_collect].
  intros st S. destruct (Sf (bs_node st)) as [Hp Ht].
  destruct (SampleScanGetSampleSize _ _ _) as [pg tp]. cbn [fst snd] in Hp, Ht. eexists. split; [reflexivity|].
  destruct S as [[Up Ul Ui Uj Uc Ut Ud Ug Uv Uw [] Un] K G]. split; cbn; [split; cbn; auto; split; assumption|destruct K; split; assumption|destruct G; split; assumption].
Qed.

(** *** Subqueries *)

(** What a planned subquery offers. *)
Record subplan_fits (sub : SubqueryPlan) (cheapest : Path) : Prop := {
  sf_cheapest : cheapest_total_path (sub_final_rel sub) = Some cheapest;
  sf_tuples : tuples_fit e (rows cheapest);
  sf_some : pathlist (sub_final_rel sub) <> [];
  sf_paths : Forall (fun p => costed p /\ 0 <= parallel_workers p) (pathlist (sub_final_rel sub));
  sf_widths : Forall (fun te => 0 <= default 0 (SizeEst.var_width te) <= wmax) (sub_tlist sub);
}.

Definition subquery_fits (rte : RangeTblEntry) : Prop :=
  forall pushed node frac, exists sub cheapest, subquery_planner rte pushed node frac = Ok sub /\ subplan_fits sub cheapest.

Lemma subquery_widths_columns rel needed tlist : Forall (fun te => 0 <= default 0 (SizeEst.var_width te) <= wmax) tlist ->
  forall attrs, column_target wmax rel attrs needed ->
  exists attrs', subquery_widths tlist attrs = Ok attrs' /\ column_target wmax rel attrs' needed
    /\ min_attr attrs' = min_attr attrs /\ max_attr attrs' = max_attr attrs.
Proof.
  induction 1 as [|te tlist Ht _ IH]; intros attrs C; cbn [subquery_widths]; [eauto|]. destruct (resjunk te); [auto|].
  destruct ((resno te <? min_attr attrs) || (resno te >? max_attr attrs)) eqn:E; [auto|]. apply orb_false_iff in E as [E1 E2].
  pose proof C as [Cc Ca Cn Cw]. pose proof Ca as [Cr Cl]. destruct (attr_at_ok (attr_widths attrs) (resno te - min_attr attrs)) as [x ->]; [lia|].
  cbn [rbind]. destruct (IH (mkRelAttrs (min_attr attrs) (max_attr attrs) (<[Z.to_nat (resno te - min_attr attrs) := default 0 (SizeEst.var_width te)]> (attr_widths attrs))))
    as (attrs' & E' & C' & M1 & M2); [|eauto].
  split; cbn; [exact Cc| |rewrite length_insert; exact Cn|apply Forall_insert; assumption].
  unfold attrs_ok. cbn. rewrite length_insert. exact Ca.
Qed.

Definition sized_stage (st : BaseState) : Prop := emptied st \/ (collects st /\ no_cheapest st).

Lemma subquery_scans_ok paths : Forall (fun p => costed p /\ 0 <= parallel_workers p) paths ->
  forall st, collects st -> no_cheapest st ->
  exists st', subquery_scans paths st = Ok st' /\ collects st' /\ no_cheapest st'
    /\ (paths <> [] \/ alive (rn_paths (bs_node st)) -> alive (rn_paths (bs_node st'))).
Proof.
  induction 1 as [|p paths [Cp Wp] _ IH]; intros st C N; [exists st; split_and!; [reflexivity|assumption..|intros [?|?]; done]|].
  unfold subquery_scans. cbn [for_each]. unfold andthen at 1.
  pose proof (subquery_keys (bs_node st) p (bs_canon st) (kg_canon _ (cl_keys _ C))) as [Kg Kc Kk].
  destruct (convert_subquery_pathkeys _ _ _) as [keys canon]. cbn [fst snd] in *.
  pose proof (collects_keys st canon C Kg Kc) as C1.
  destruct (offer_collects (fun rel params req => create_subqueryscan_path rel params p keys req) (set_bs_canon st canon) C1)
    as (st1 & E1 & C2 & A2); [apply (subqueryscan_offer So); try assumption; apply C|]. rewrite E1. cbn [rbind].
  destruct (IH st1 C2 (offer_no_cheapest _ _ _ E1 N)) as (st2 & E2 & C3 & N3 & A3). exists st2. split_and!; auto.
Qed.

Lemma set_quals_start st quals : starts st -> clauses_ok quals -> starts (set_bs_rel st (set_quals (bs_rel st) quals)).
Proof.
  intros [[Up Ul Ui Uj Uc Ut Ud Ug Uv Uw [] Un] K G] Q.
  split; cbn; [split; cbn; auto; split; assumption|destruct K; split; assumption|destruct G; split; assumption].
Qed.

Lemma push_quals_ok rte rti quals : clauses_ok quals -> clauses_ok (push_quals rte rti quals).1.
Proof. intros Q. unfold push_quals. destruct (_ && _); cbn [fst]; [apply clauses_ok_filter, Q|exact Q]. Qed.

Lemma subquery_collect rte sub cheapest : subplan_fits sub cheapest ->
  ensures starts (with_sizes (fun reloid attrs items => set_subquery_size_estimates reloid attrs items (rows cheapest) (sub_tlist sub)) rte)
    (fun st => collects st /\ no_cheapest st).
Proof.
  intros [_ Tf _ _ Sw] st S. unfold with_sizes, set_subquery_size_estimates.
  destruct (subquery_widths_columns (bs_rel st) (attr_needed (bs_node st)) (sub_tlist sub) Sw (rn_attrs (bs_node st)) (us_target _ (st_unsized _ S)))
    as (attrs & -> & Ct & M1 & M2). cbn [rbind].
  destruct (baserel_resized So wmax Wf (rte_relid rte) attrs (attr_needed (bs_node st)) (bs_rel st) (rows cheapest))
    as (rel' & attrs' & E & R); try apply Tf; try apply S; [exact Ct|pose proof (us_width _ (st_unsized _ S)); unfold bs_rel in *; lia|]. rewrite E. unfold set_sizes. cbn [rbind].
  eexists. split; [reflexivity|]. eapply resized_collects; [exact S|exact Tf|]. destruct R; split; try assumption; congruence.
Qed.

Lemma subquery_ok root rti rte multiple : subquery_fits rte ->
  ensures starts (set_subquery_pathlist root rti rte multiple) (fun st => emptied st \/ (collected st /\ no_cheapest st)).
Proof.
  intros Sf st S. unfold set_subquery_pathlist.
  pose proof (push_quals_ok rte rti (baserestrictinfo (bs_rel st)) (us_clauses _ (st_unsized _ S))) as Q.
  destruct (push_quals rte rti (baserestrictinfo (bs_rel st))) as [upper pushed]. cbn [fst] in Q.
  pose proof (set_quals_start st upper S Q) as S1. set (st1 := set_bs_rel st _) in *.
  match goal with |- context [subquery_planner rte pushed ?n ?f] => destruct (Sf pushed n f) as (sub & cheapest & -> & F) end.
  cbn [rbind]. rewrite (sf_cheapest _ _ F). cbn [deref rbind]. destruct (IS_DUMMY_PATH cheapest).
  { destruct (dummy_emptied st1 S1) as (st2 & E & Em). eauto. }
  unfold andthen. destruct (subquery_collect rte sub cheapest F st1 S1) as (st2 & -> & C2 & N2). cbn [rbind].
  destruct (subquery_scans_ok _ (sf_paths _ _ F) st2 C2 N2) as (st3 & -> & C3 & N3 & A3). exists st3. split; [reflexivity|].
  right. split; [split; [exact C3|apply A3; left; apply F]|exact N3].
Qed.

(** *** Other kinds of relations *)

Lemma int_fits n : 0 <= n <= 2 ^ e -> n < 2 ^ 31 -> tuples_fit e (i2d n).
Proof.
  intros Hn H31. split; [apply nonneg_i2d; lia|apply finite_i2d; lia|apply integral_i2d; lia|].
  unfold cle. rewrite cmag_i2d, cmag_cap by lia. rewrite Z.pow_add_r by lia. nia.
Qed.

Lemma function_rows_fit ntups : Forall (tuples_fit e) ntups -> forall t, tuples_fit e t -> tuples_fit e (function_rows ntups t).
Proof. induction 1 as [|n ntups Hn _ IH]; intros t Ht; cbn [function_rows]; [exact Ht|]. apply IH. case_match; assumption. Qed.

(** What the kind of a relation needs: estimates of tuples within the bound, expressions
    the cost model knows, and a plan for the CTE or subquery. *)
Definition leaf_fits (root : PlanRoot) (rte : RangeTblEntry) (kind : RTEKind) : Prop :=
  match kind with
  | RTE_RELATION => relkind rte <> RELKIND_FOREIGN_TABLE /\ match tablesample rte with Some tsc => sample_fits tsc | None => True end
  | RTE_SUBQUERY => subquery_fits rte
  | RTE_FUNCTION => Forall (tuples_fit e) (map expression_returns_set_rows (functions rte))
                    /\ node_ok (OtherExpr (functions rte)) /\ planned (OtherExpr (functions rte))
  | RTE_TABLEFUNC => node_ok (tablefunc rte) /\ planned (tablefunc rte)
  | RTE_VALUES => Z.of_nat (length (values_lists rte)) <= 2 ^ e /\ Z.of_nat (length (values_lists rte)) < 2 ^ 31
  | RTE_CTE => exists n, (if self_reference rte then worktable_rows root rte else cte_rows root rte) = Ok n
                 /\ tuples_fit e (if self_reference rte then i2d 10 * n else n)%D
  | RTE_NAMEDTUPLESTORE => (enrtuples rte <? i2d 0)%D = true \/ tuples_fit e (enrtuples rte)
  | RTE_JOIN => False
  end.

(** Relations that get their paths together with their size. *)
Definition at_once (kind : RTEKind) : bool :=
  match kind with RTE_SUBQUERY | RTE_CTE | RTE_NAMEDTUPLESTORE => true | _ => false end.

(** After set_leaf_size. *)
Definition leaf_sized (kind : RTEKind) (st : BaseState) : Prop :=
  emptied st
  \/ collects st /\ (at_once kind = true -> alive (rn_paths (bs_node st))) /\ (at_once kind = false -> no_cheapest st).

Context (E10 : 10 <= e).

Lemma offer_ensures make Q : (forall st, collects st -> offers_scan (bs_node st) (bs_canon st) make) ->
  (forall st, collected st -> Q st) -> ensures (fun st => collects st /\ no_cheapest st) (offer make) Q.
Proof. intros Hm Hq st [C N]. destruct (offer_collects make st C (Hm st C)) as (st' & E & C'). eauto. Qed.

Lemma collected_sized kind st : collected st -> at_once kind = true -> leaf_sized kind st.
Proof. intros [C A] K. right. split_and!; [exact C|auto|congruence]. Qed.

Lemma set_cheapest_collects st : collected st ->
  exists paths, set_cheapest (rn_paths (bs_node st)) = Ok paths /\ collected (set_bs_node st (set_rn_paths (bs_node st) paths)).
Proof.
  intros [C (p & Hp & Np)]. destruct (set_cheapest_picks (rn_paths (bs_node st))) as (r & E & E1 & E2 & _).
  { intros N. rewrite N in Hp. inversion Hp. }
  exists r. split; [exact E|]. split; [|exists p; cbn; rewrite E1; auto]. apply collects_paths; [exact C|].
  destruct (gr_paths _ _ (cl_growing _ C)) as [F P]. split; rewrite ?E1, ?E2; assumption.
Qed.

Lemma leaf_size_ok root rti rte multiple kind : leaf_fits root rte kind ->
  ensures (fun st => starts st /\ rtekind (bs_rel st) = kind) (set_leaf_size root rti rte multiple) (leaf_sized kind).
Proof.
  assert (forall f t, tuples_fit e t ->
    (forall reloid attrs items rel, f reloid attrs items rel = set_baserel_size_estimates reloid attrs items (set_tuples rel t)) ->
    at_once kind = false -> ensures starts (with_sizes f rte) (leaf_sized kind)) as Later.
  { intros f t Tf Hf K. eapply ensures_weaken; [eapply sizes_collect; eassumption|auto|]. intros st [C N]. right. split_and!; [exact C|congruence|auto]. }
  intros F st [S Ek]. unfold set_leaf_size. rewrite Ek. destruct kind; cbn [leaf_fits] in F.
  - destruct F as [Nf Sf]. unfold set_relation_size. rewrite bool_decide_false by exact Nf.
    destruct (bool_decide _); [destruct (dummy_emptied st S) as (st' & E & Em); exists st'; split; [exact E|left; exact Em]|].
    assert (forall st', collects st' /\ no_cheapest st' -> leaf_sized RTE_RELATION st') as Q by (intros st' [C N]; right; split_and!; [exact C|discriminate|auto]).
    destruct (tablesample rte) as [tsc|].
    + destruct (tablesample_size_ok root rte tsc Sf st S) as (st' & E & C). eauto.
    + destruct (plain_size_ok root rte st S) as (st' & E & C). eauto.
  - destruct (subquery_ok root rti rte multiple F st S) as (st' & E & [Em|[C N]]); exists st'; (split; [exact E|]); [left; exact Em|].
    apply collected_sized; [exact C|reflexivity].
  - destruct F.
  - destruct F as [Fr _]. eapply Later; [apply function_rows_fit; [exact Fr|apply (int_fits 0); lia]|reflexivity|reflexivity|exact S].
  - apply (Later _ (i2d 100)); [apply int_fits; [|lia]|reflexivity|reflexivity|exact S].
    split; [lia|]. transitivity (2 ^ 10); [lia|apply Z.pow_le_mono_r; lia].
  - apply (Later _ (i2d (Z.of_nat (length (values_lists rte))))); [apply int_fits; lia|reflexivity|reflexivity|exact S].
  - destruct F as (n & En & Tf). destruct (self_reference rte) eqn:Es.
    + unfold set_worktable_pathlist. rewrite En, Es. cbn [rbind].
      apply (ensures_seq _ _ _ _ _ (sizes_collect _ rte _ Tf (fun _ _ _ _ => eq_refl)) (offer_ensures _ _ (fun st' C => worktablescan_offer So _ _ (gr_sized _ _ (cl_growing _ C)))
        (fun st' C => collected_sized RTE_CTE st' C eq_refl)) st S).
    + unfold set_cte_pathlist. rewrite En, Es. cbn [rbind].
      apply (ensures_seq _ _ _ _ _ (sizes_collect _ rte _ Tf (fun _ _ _ _ => eq_refl)) (offer_ensures _ _ (fun st' C => ctescan_offer So _ _ (gr_sized _ _ (cl_growing _ C)))
        (fun st' C => collected_sized RTE_CTE st' C eq_refl)) st S).
  - unfold set_namedtuplestore_pathlist.
    assert (tuples_fit e (if enrtuples rte <? i2d 0 then i2d 1000 else enrtuples rte)%D) as Tf.
    { destruct (enrtuples rte <? i2d 0)%D; [|destruct F as [?|F]; [discriminate|exact F]]. apply int_fits; [|lia].
      split; [lia|]. transitivity (2 ^ 10); [lia|apply Z.pow_le_mono_r; lia]. }
    refine (ensures_seq _ _ _ _ _ (sizes_collect _ rte _ Tf (fun _ _ _ _ => eq_refl)) (ensures_seq _ _ _ _ _
      (offer_ensures _ _ (fun st' C => namedtuplestorescan_offer So _ _ (gr_sized _ _ (cl_growing _ C))) (fun st' C => C)) _) st S).
    intros st' C. destruct (set_cheapest_collects st' C) as (paths & -> & C'). eexists. split; [reflexivity|].
    apply collected_sized; [exact C'|reflexivity].
Qed.

(** *** Paths *)

Lemma offers_collects st st' : offers_paths st st' -> collected st -> collected st'.
Proof.
  intros [Og Oc (paths & params & En & O & Jp & Ej)] [C A].
  pose proof (collects_keys st _ C Og Oc) as C1. destruct (offered_ok _ _ _ _ O (gr_paths _ _ (cl_growing _ C1))) as [J A'].
  specialize (A' A). destruct (collects_paths _ paths C1 J) as [S K [G1 G2] [Rz Jr _] L]. cbn in *. destruct st' as [n ix canon]. cbn in *. subst n.
  split; [|exact A']. split; cbn.
  - destruct S; split; assumption.
  - destruct K; split; cbn in *; try assumption; congruence.
  - split; assumption.
  - split; assumption.
  - exact L.
Qed.

Lemma partial_paths_ok st : collected st -> consider_parallel (bs_rel st) = true ->
  exists st', create_plain_partial_paths st = Ok st' /\ collected st'.
Proof.
  intros [C A] Cp. unfold create_plain_partial_paths.
  destruct (compute_parallel_worker_ok (rn_rel (bs_node st)) (i2d (pages (rn_rel (bs_node st)))) (i2d (-1)) So (hs_workers _ (cl_size _ C))) as (n & -> & Hn & _).
  destruct (n <=? 0) eqn:En; [exists st; split; [reflexivity|split; assumption]|].
  destruct (seqscan_offer So (bs_node st) (bs_canon st) n (gr_sized _ _ (cl_growing _ C))) as (p & -> & J & N & Sf); [lia|]. cbn [rbind].
  eexists. split; [reflexivity|].
  destruct (add_partial_path_cases _ _ (rn_paths (bs_node st)) p (conj J (conj N (eq_trans Sf Cp))) (gr_paths _ _ (cl_growing _ C))) as [Jp Ep].
  split; [exact (collects_paths st _ C Jp)|]. unfold alive. cbn. rewrite Ep. exact A.
Qed.

Lemma plain_pathlist_ok : ensures collects set_plain_rel_pathlist collected.
Proof.
  unfold set_plain_rel_pathlist. eapply (ensures_seq _ collected); [|eapply (ensures_seq _ collected); [|eapply (ensures_seq _ collected)]].
  - intros st C. apply offer_collects; [exact C|]. destruct (seqscan_offer So (bs_node st) (bs_canon st) 0 (gr_sized _ _ (cl_growing _ C))) as (p & E & J & N & _); [lia|].
    exists p. auto.
  - intros st C. destruct (consider_parallel (bs_rel st)) eqn:Cp; [|exists st; auto].
    destruct (bool_decide _); [|exists st; auto]. cbn [andb when]. apply partial_paths_ok; assumption.
  - intros st C. eexists. split; [reflexivity|]. eapply offers_collects; [|exact C]. apply index_paths_offered; apply C.
  - intros st C. eexists. split; [reflexivity|]. eapply offers_collects; [|exact C]. apply tid_paths_offered; apply C.
Qed.

Lemma tablesample_pathlist_ok root tsc : ensures collects (set_tablesample_rel_pathlist root tsc) collected.
Proof.
  intros st C. pose proof (gr_sized _ _ (cl_growing _ C)) as Rz. apply offer_collects; [exact C|].
  destruct (samplescan_offer So (bs_node st) (bs_canon st) Rz) as (p & E & J & N). unfold offers_scan. rewrite E. cbn [rbind].
  destruct (_ && _); [|exists p; auto].
  destruct (material_join_path So (bs_node st) (bs_canon st) p Rz J N) as [J' N']. eauto.
Qed.

Lemma function_pathlist_ok rte : node_ok (OtherExpr (functions rte)) -> planned (OtherExpr (functions rte)) ->
  ensures collects (set_function_pathlist rte) collected.
Proof.
  intros Fo Fp st C. unfold set_function_pathlist.
  match goal with |- context [let (_, _) := ?x in _] => assert (keys_from (bs_canon st) x) as [Kg Kc Kk]; [|destruct x as [keys canon]] end.
  { pose proof (kg_canon _ (cl_keys _ C)) as Cc. destruct (if funcordinality rte then _ else _); [apply expression_keys, Cc|].
    split; cbn; [reflexivity|exact Cc|apply good_keys_nil]. }
  cbn [fst snd] in *. apply offer_collects; [apply collects_keys; assumption|].
  apply (functionscan_offer So); try assumption. apply C.
Qed.

Lemma leaf_pathlist_ok root rte kind : leaf_fits root rte kind ->
  ensures (fun st => collects st /\ rtekind (bs_rel st) = kind /\ (at_once kind = true -> alive (rn_paths (bs_node st))))
    (set_leaf_pathlist root rte) collected.
Proof.
  intros F st (C & Ek & A). unfold set_leaf_pathlist. rewrite Ek. destruct kind; cbn [leaf_fits at_once] in *;
    try (exists st; split; [reflexivity|split; auto]; fail).
  - destruct F as [Nf _]. rewrite bool_decide_false by exact Nf.
    destruct (tablesample rte); [apply tablesample_pathlist_ok, C|apply plain_pathlist_ok, C].
  - destruct F.
  - apply function_pathlist_ok; [apply F|apply F|exact C].
  - apply offer_collects; [exact C|]. apply (tablefuncscan_offer So); [apply C|apply F|apply F].
  - apply offer_collects; [exact C|]. apply (valuesscan_offer So). apply C.
Qed.

(** *** The cheapest paths *)

(** A base relation the search over join orders can use. *)
Record planned_rel (canon : list PathKey) (node : RelNode) : Prop := {
  pl_size : has_size node;
  pl_kept : kept node0 node;
  pl_ready : ready canon node;
}.

Context (Hook : set_rel_pathlist_hook = None).

Lemma finish_base_ok rti rte st : reloptkind (bs_rel st) = RELOPT_BASEREL -> emptied st \/ collected st ->
  exists st', finish_base_rel rti rte st = Ok st' /\ planned_rel (bs_canon st') (bs_node st') /\ keys_grow st' /\ bs_canon st' = bs_canon st.
Proof.
  intros Hk D. unfold finish_base_rel, bs_rel in *. rewrite Hook, bool_decide_true by exact Hk. cbn [bs_node set_bs_node].
  assert (has_size (bs_node st) /\ kept node0 (bs_node st) /\ keys_grow st) as ([S1 S2 S3 S4 S5 S6] & [] & [G1 G2]).
  { destruct D as [[S K G _]|[[S K G _ _] _]]; auto. }
  destruct D as [[_ _ _ Em]|[[_ _ _ Gr _] A]].
  - destruct (finish_empty (bs_node st) Em) as (paths & -> & E & Em'). cbn [rbind]. rewrite E. eexists. split; [reflexivity|].
    split_and!; [|split; assumption|reflexivity]. cbn. split; [split; assumption|split; assumption|left; apply empty_rel_dummy, Em'].
  - destruct (finish_growing So (bs_canon st) (bs_node st) Gr A) as (paths & -> & E & _ & J). cbn [rbind]. rewrite E. eexists. split; [reflexivity|].
    split_and!; [|split; assumption|reflexivity]. cbn. split; [split; assumption|split; assumption|right; exact J].
Qed.

(** The stages do not depend on the indexes. *)
Lemma starts_reindex ix node canon ix' : starts (mkBaseState node ix canon) -> starts (mkBaseState node ix' canon).
Proof. intros [? ? [? ?]]. split; [assumption..|split; assumption]. Qed.

Lemma collects_reindex ix node canon ix' : collects (mkBaseState node ix canon) -> collects (mkBaseState node ix' canon).
Proof. intros [? ? [? ?] ? ?]. split; [assumption..|split; assumption|assumption|assumption]. Qed.

Lemma leaf_sized_reindex kind ix node canon ix' : leaf_sized kind (mkBaseState node ix canon) -> leaf_sized kind (mkBaseState node ix' canon).
Proof.
  intros [[? ? [? ?] ?]|(C & A & N)]; [left; split; [assumption..|split; assumption|assumption]|right].
  split_and!; [eapply collects_reindex, C|exact A|exact N].
Qed.

Lemma starts_grow node ix canon canon' : canon `prefix_of` canon' -> canon_ok canon' -> starts (mkBaseState node ix canon) -> starts (mkBaseState node ix canon').
Proof. intros P C [U K [_ G]]. split; [exact U|exact K|split; [exact C|]]. cbn in *. etransitivity; eassumption. Qed.

Lemma leaf_sized_grow kind node ix canon canon' : canon `prefix_of` canon' -> canon_ok canon' ->
  leaf_sized kind (mkBaseState node ix canon) -> leaf_sized kind (mkBaseState node ix canon').
Proof.
  intros P C [[S K [_ G] Em]|(Co & A & N)]; [left|right].
  - split; [exact S|exact K|split; [exact C|cbn in *; etransitivity; eassumption]|exact Em].
  - split_and!; [exact (collects_keys _ _ Co P C)|exact A|exact N].
Qed.
End steps.
End stages.

(** The path keys at the start may be taken from any later state. *)
Lemma starts_here wmax e w node0 canon0 node ix canon : starts wmax e w node0 canon0 (mkBaseState node ix canon) ->
  starts wmax e w node0 canon (mkBaseState node ix canon).
Proof. intros [U K [C _]]. split; [exact U|exact K|split; [exact C|reflexivity]]. Qed.

Lemma leaf_sized_here wmax e w node0 canon0 kind node ix canon : leaf_sized wmax e w node0 canon0 kind (mkBaseState node ix canon) ->
  leaf_sized wmax e w node0 canon kind (mkBaseState node ix canon).
Proof.
  intros [[S K [C _] Em]|([S K [C _] G L] & A & N)]; [left|right].
  - split; [exact S|exact K|split; [exact C|reflexivity]|exact Em].
  - split_and!; [split; [exact S|exact K|split; [exact C|reflexivity]|exact G|exact L]|exact A|exact N].
Qed.
