(* ===== verification/OneRelSpec.v ===== *)
(** make_one_rel as a whole: for a query of inner joins all base relations get sizes and
    paths, and the result is the join of exactly the query's base relations, with a plan
    or proven empty. *)
From Stdlib Require Import Ascii.
From stdpp Require Import gmap relations strings.
From S2P Require Import Prelude Float64 Double DoubleOrder DoubleDiv DoubleRound DoubleUnit Bitmapset BitmapsetSpec PlanTypes Samples Pathkeys PathCompare AddPath Cheapest CostExpr CostBase CostScan CostScanSpec CostNode HashSize CostJoin CostJoinSpec SizeEst SizeEstSpec ParamInfo CreatePath CreatePathSpec UpperPathSpec PlanCosts MergeKeys MergeKeysSpec JoinPath QualCover JoinPathSpec JoinSearchSpec JoinLegal BuildRel BuildRelSpec JoinOrder GeqoTour Geqo JoinList JoinParts JoinNodeSpec JoinOrderSpec BasePaths BasePathsSpec.
Open Scope Z_scope.

(** ** Loops over the base relations *)

(** One relation of the store and the path keys changed. *)
Record updates (n : nat) (node' : RelNode) (st st' : PlanState) : Prop := {
  up_search : exists canon', ps_search st' = set_caches (set_rel (ps_search st) n node') canon' (ss_scansel (ps_search st)) (ss_buckets (ps_search st))
    /\ ss_canon (ps_search st) `prefix_of` canon' /\ canon_ok canon';
}.

Lemma updates_trans n a b st st' st'' : updates n a st st' -> updates n b st' st'' -> updates n b st st''.
Proof.
  intros [(c & E & P & _)] [(c' & E' & P' & C')]. split. exists c'. rewrite E in E', P'. cbn in *. split_and!; [|etransitivity; eassumption|exact C'].
  rewrite E'. unfold set_rel, set_rels, set_caches. cbn. rewrite list_insert_insert_eq. reflexivity.
Qed.

Lemma on_rel_ok n f st node (Q : BaseState -> Prop) : ss_rels (ps_search st) !! n = Some node ->
  (exists b, f (mkBaseState node (default [] (ps_indexes st !! n)) (ss_canon (ps_search st))) = Ok b
    /\ Q b /\ ss_canon (ps_search st) `prefix_of` bs_canon b /\ canon_ok (bs_canon b)) ->
  exists b st', on_rel n f st = Ok st' /\ updates n (bs_node b) st st' /\ Q b
    /\ ss_rels (ps_search st') !! n = Some (bs_node b) /\ ss_canon (ps_search st') = bs_canon b.
Proof.
  intros Hn (b & E & Hq & P & C). exists b. unfold on_rel, rel_at. rewrite Hn. cbn [deref rbind]. rewrite E. cbn [rbind].
  eexists. split; [reflexivity|]. split_and!; [split; cbn; eauto|exact Hq| |reflexivity].
  cbn. apply list_lookup_insert_eq. eapply lookup_lt_Some, Hn.
Qed.

(** The members of the search's state that planning base relations leaves alone. *)
Record same_search (s s' : SearchState) : Prop := {
  ss_same_infos : ss_infos s' = ss_infos s;
  ss_same_joins : join_rel_list s' = join_rel_list s;
  ss_same_hash : join_rel_hash s' = join_rel_hash s;
  ss_same_scansel : ss_scansel s' = ss_scansel s;
  ss_same_buckets : ss_buckets s' = ss_buckets s;
}.

Section loop.
Context (root : PlanRoot) (st0 : SearchState).
Abbreviation simple := (sr_simple_rels (pr_search root)).
Context (Range : forall rti n, simple rti = Some n -> 1 <= rti < simple_rel_array_size root).
Context (Inj : forall rti rti' n, simple rti = Some n -> simple rti' = Some n -> rti = rti').

(** [Pre] and [Post] relate the relation at the start to the one before and after the
    body of the loop; both survive new path keys. *)
Context (Pre Post : list PathKey -> Z -> RelNode -> RelNode -> Prop).
Context (PreGrow : forall canon canon' rti a b, canon `prefix_of` canon' -> canon_ok canon' -> Pre canon rti a b -> Pre canon' rti a b).
Context (PostGrow : forall canon canon' rti a b, canon `prefix_of` canon' -> canon_ok canon' -> Post canon rti a b -> Post canon' rti a b).
Context (PreBase : forall canon rti a b, Pre canon rti a b -> reloptkind (rn_rel b) = RELOPT_BASEREL).

(** The relations in [done] have been through the body. *)
Record loop_inv (done : list Z) (st : PlanState) : Prop := {
  li_same : same_search st0 (ps_search st);
  li_canon : canon_ok (ss_canon (ps_search st));
  li_prefix : ss_canon st0 `prefix_of` ss_canon (ps_search st);
  li_rels : forall rti n a, simple rti = Some n -> ss_rels st0 !! n = Some a ->
    exists b, ss_rels (ps_search st) !! n = Some b
      /\ (if decide (rti ∈ done) then Post (ss_canon (ps_search st)) rti a b else Pre (ss_canon (ps_search st)) rti a b);
}.

Lemma loop_inv_update done st st' rti n a b : loop_inv done st -> simple rti = Some n -> ss_rels st0 !! n = Some a ->
  updates n b st st' -> Post (ss_canon (ps_search st')) rti a b -> loop_inv (rti :: done) st'.
Proof.
  intros [S C P R] Hs Ha [(canon & E & Pc & Cc)] Q. destruct (R rti n a Hs Ha) as (b0 & Hb0 & _).
  rewrite E in Q. cbn in Q. split; rewrite E; cbn.
  - destruct S; split; assumption.
  - exact Cc.
  - etransitivity; eassumption.
  - intros rti' n' a' Hs' Ha'. destruct (decide (n' = n)) as [-> |N].
    + pose proof (Inj _ _ _ Hs Hs') as <-. assert (a' = a) as -> by congruence. exists b.
      rewrite list_lookup_insert_eq by (eapply lookup_lt_Some, Hb0). rewrite decide_True by left. auto.
    + destruct (R rti' n' a' Hs' Ha') as (b' & Hb' & Hd). exists b'. rewrite list_lookup_insert_ne by congruence. split; [exact Hb'|].
      assert (rti' <> rti) as Nr by congruence. destruct (decide (rti' ∈ done)) as [I|I].
      * rewrite decide_True by (right; exact I). eapply PostGrow; eassumption.
      * rewrite decide_False by (intros Hx; apply elem_of_cons in Hx as [?|?]; auto). eapply PreGrow; eassumption.
Qed.

Context (body : nat -> Z -> PlanState -> result PlanState) (Wf : forall rti n, simple rti = Some n -> is_Some (ss_rels st0 !! n)).
Context (Body : forall rti n a b st, simple rti = Some n -> ss_rels st0 !! n = Some a -> ss_rels (ps_search st) !! n = Some b ->
  canon_ok (ss_canon (ps_search st)) -> ss_canon st0 `prefix_of` ss_canon (ps_search st) -> Pre (ss_canon (ps_search st)) rti a b ->
  exists b' st', body n rti st = Ok st' /\ updates n b' st st' /\ Post (ss_canon (ps_search st')) rti a b').

Lemma loop_ok l : NoDup l -> forall done st, (forall rti, rti ∈ l -> rti ∉ done) -> loop_inv done st ->
  exists st', for_each l (fun rti st =>
    match simple rti with
    | None => Ok st
    | Some n => let! node := rel_at (ps_search st) n in
        if bool_decide (reloptkind (rn_rel node) = RELOPT_BASEREL) then body n rti st else Ok st
    end) st = Ok st' /\ exists done', loop_inv done' st' /\ forall rti n, simple rti = Some n -> rti ∈ l \/ rti ∈ done -> rti ∈ done'.
Proof.
  induction 1 as [|rti l Nl _ IH]; intros done st Fresh Iv; cbn [for_each].
  { exists st. split; [reflexivity|]. exists done. split; [exact Iv|]. intros rti n _ [Hx|?]; [inversion Hx|assumption]. }
  unfold andthen. destruct (simple rti) as [n|] eqn:Hs.
  - destruct (Wf rti n Hs) as [a Ha]. destruct (li_rels _ _ Iv rti n a Hs Ha) as (b & Hb & Hd).
    rewrite decide_False in Hd by (apply Fresh; left). unfold rel_at. rewrite Hb. cbn [deref rbind].
    rewrite bool_decide_true by (eapply PreBase, Hd).
    destruct (Body rti n a b st Hs Ha Hb (li_canon _ _ Iv) (li_prefix _ _ Iv) Hd) as (b' & st1 & E1 & U & Q). rewrite E1. cbn [rbind].
    destruct (IH (rti :: done) st1) as (st2 & E2 & done' & Iv2 & D2).
    + intros x Hx I. apply elem_of_cons in I as [->|I]; [contradiction|]. apply (Fresh x); [right; exact Hx|exact I].
    + eapply loop_inv_update; eassumption.
    + exists st2. split; [exact E2|]. exists done'. split; [exact Iv2|]. intros x m Hx Hi. apply (D2 x m Hx).
      destruct Hi as [Hi|Hi]; [apply elem_of_cons in Hi as [->|Hi]; [right; left|left; exact Hi]|right; right; exact Hi].
  - destruct (IH done st) as (st2 & E2 & done' & Iv2 & D2); [intros x Hx; apply Fresh; right; exact Hx|exact Iv|].
    exists st2. cbn [rbind]. split; [exact E2|]. exists done'. split; [exact Iv2|]. intros x m Hx Hi. apply (D2 x m Hx).
    destruct Hi as [Hi|Hi]; [apply elem_of_cons in Hi as [->|Hi]; [congruence|left; exact Hi]|right; exact Hi].
Qed.

(** All base relations have been through the body. *)
Lemma for_base_rels_ok st : loop_inv [] st ->
  exists st', for_base_rels root body st = Ok st' /\ same_search st0 (ps_search st') /\ canon_ok (ss_canon (ps_search st'))
    /\ ss_canon st0 `prefix_of` ss_canon (ps_search st')
    /\ forall rti n a, simple rti = Some n -> ss_rels st0 !! n = Some a ->
         exists b, ss_rels (ps_search st') !! n = Some b /\ Post (ss_canon (ps_search st')) rti a b.
Proof.
  intros Iv. destruct (loop_ok (seqZ 1 (simple_rel_array_size root - 1)) (NoDup_seqZ _ _) [] st) as (st' & E & done & [S C P R] & D);
    [intros rti _ Hx; inversion Hx|exact Iv|].
  exists st'. split_and!; [exact E|exact S|exact C|exact P|]. intros rti n a Hs Ha. destruct (R rti n a Hs Ha) as (b & Hb & Hd).
  rewrite decide_True in Hd; [eauto|]. apply (D rti n Hs). left. apply elem_of_seqZ. specialize (Range rti n Hs). lia.
Qed.
End loop.

(** ** Sizes and paths of all base relations *)

Section base_rels.
Context `{Libm, Settings, Catalog, Tablespaces, Widths, Estimator, Equivalences, PathSupport, BaseSupport}.
Context `{!CatalogLaws, !TablespaceLaws, !EstimatorLaws, !LibmOrder, !BasePathLaws} (So : settings_ok).
Context (root : PlanRoot) (set_append_rel_size set_append_rel_pathlist : nat -> Z -> RangeTblEntry -> PlanState -> result PlanState).
Context (wmax e w : Z) (Wf : widths_fit wmax) (He : 10 <= e <= 1000) (Hw : w < 2 ^ 30) (Hook : set_rel_pathlist_hook = None).

(** A base relation as build_simple_rel leaves it, that is no inheritance parent. *)
Record base_entry (rti : Z) (node : RelNode) : Prop := {
  en_relid : relid (rn_rel node) = rti;
  en_relids : bms_make_singleton rti = Ok (rn_relids node);
  en_kind : reloptkind (rn_rel node) = RELOPT_BASEREL;
  en_unsized : unsized wmax e w node;
  en_rte : exists rte, simple_rte_array root rti = Some rte /\ inh rte = false /\ leaf_fits wmax e root rte (rtekind (rn_rel node));
}.

(** Before and after the two loops. *)
Definition to_size (canon : list PathKey) (rti : Z) (a b : RelNode) : Prop :=
  base_entry rti a /\ starts wmax e w a canon (mkBaseState b [] canon).
Definition to_plan (canon : list PathKey) (rti : Z) (a b : RelNode) : Prop :=
  base_entry rti a /\ leaf_sized wmax e w a canon (rtekind (rn_rel a)) (mkBaseState b [] canon).
Definition is_planned (canon : list PathKey) (rti : Z) (a b : RelNode) : Prop :=
  base_entry rti a /\ planned_rel wmax e w a canon b.

Lemma to_size_grow canon canon' rti a b : canon `prefix_of` canon' -> canon_ok canon' -> to_size canon rti a b -> to_size canon' rti a b.
Proof. intros P C [E S]. split; [exact E|]. eapply starts_here, starts_grow; eassumption. Qed.
Lemma to_plan_grow canon canon' rti a b : canon `prefix_of` canon' -> canon_ok canon' -> to_plan canon rti a b -> to_plan canon' rti a b.
Proof. intros P C [E S]. split; [exact E|]. eapply leaf_sized_here, leaf_sized_grow; eassumption. Qed.
Lemma planned_grow canon canon' rti a b : canon `prefix_of` canon' -> canon_ok canon' -> is_planned canon rti a b -> is_planned canon' rti a b.
Proof. intros P _ [E [S K R]]. split; [exact E|]. split; [exact S|exact K|eapply ready_grow; eassumption]. Qed.

Lemma leaf_kept a c kind st : leaf_sized wmax e w a c kind st -> kept a (bs_node st) /\ keys_grow c st.
Proof. intros [[_ K G _]|[[_ K G _ _] _]]; auto. Qed.

Lemma to_size_base canon rti a b : to_size canon rti a b -> reloptkind (rn_rel b) = RELOPT_BASEREL.
Proof. intros [E S]. pose proof (kp_kind _ _ (st_kept _ _ _ _ _ _ S)) as K. cbn in K. rewrite K. apply E. Qed.
Lemma to_plan_base canon rti a b : to_plan canon rti a b -> reloptkind (rn_rel b) = RELOPT_BASEREL.
Proof. intros [E S]. destruct (leaf_kept _ _ _ _ S) as [K _]. apply kp_kind in K. cbn in K. rewrite K. apply E. Qed.

Lemma consider_parallel_start a c rte : ensures (starts wmax e w a c) (set_rel_consider_parallel rte) (starts wmax e w a c).
Proof.
  intros st S. unfold set_rel_consider_parallel. destruct (_ && _ && _); [|eauto]. eexists. split; [reflexivity|].
  destruct S as [[Up Ul Ui Uj Uc Ut Ud Ug Uv Uw [] Un] K G].
  split; cbn; [split; cbn; auto; split; assumption|destruct K; split; assumption|destruct G; split; assumption].
Qed.

(** A step on a relation, from one stage to another. *)
Lemma on_rel_stage (P Q : list PathKey -> BaseState -> Prop) n f st b :
  (forall c, ensures (P c) f (Q c)) -> (forall c bs, Q c bs -> keys_grow c bs) ->
  (forall c ix ix', P c (mkBaseState b ix c) -> P c (mkBaseState b ix' c)) ->
  ss_rels (ps_search st) !! n = Some b -> P (ss_canon (ps_search st)) (mkBaseState b [] (ss_canon (ps_search st))) ->
  exists bs st', on_rel n f st = Ok st' /\ updates n (bs_node bs) st st' /\ Q (ss_canon (ps_search st)) bs
    /\ ss_rels (ps_search st') !! n = Some (bs_node bs) /\ ss_canon (ps_search st') = bs_canon bs.
Proof.
  intros F Kg Ri Hb S. apply (on_rel_ok n f st b _ Hb).
  destruct (F (ss_canon (ps_search st)) _ (Ri _ _ (default [] (ps_indexes st !! n)) S)) as (bs & E & Hq).
  exists bs. destruct (Kg _ _ Hq). auto.
Qed.

Lemma no_update n b st : ss_rels (ps_search st) !! n = Some b -> canon_ok (ss_canon (ps_search st)) -> updates n b st st.
Proof.
  intros Hb C. split. exists (ss_canon (ps_search st)). split_and!; [|reflexivity|exact C].
  unfold set_rel, set_rels, set_caches. rewrite list_insert_id by exact Hb. cbn. destruct (ps_search st); reflexivity.
Qed.

(** The step of set_rel_consider_parallel. *)
Lemma parallel_step rte n a b st : ss_rels (ps_search st) !! n = Some b ->
  starts wmax e w a (ss_canon (ps_search st)) (mkBaseState b [] (ss_canon (ps_search st))) ->
  exists b1 st1, when (parallelModeOK root) (on_rel n (set_rel_consider_parallel rte)) st = Ok st1 /\ updates n b1 st st1
    /\ ss_rels (ps_search st1) !! n = Some b1
    /\ starts wmax e w a (ss_canon (ps_search st1)) (mkBaseState b1 [] (ss_canon (ps_search st1))).
Proof.
  intros Hb S. destruct (parallelModeOK root); cbn [when].
  - destruct (on_rel_stage (starts wmax e w a) (starts wmax e w a) n (set_rel_consider_parallel rte) st b) as (bs & st1 & E & U & S1 & Hb1 & Ec); try assumption.
    + intros c. apply consider_parallel_start.
    + intros c bs [_ _ G]. exact G.
    + intros c ix ix'. apply starts_reindex.
    + exists (bs_node bs), st1. split_and!; try assumption. rewrite Ec. destruct bs. eapply starts_here, starts_reindex, S1.
  - exists b, st. split_and!; [reflexivity|apply no_update; [exact Hb|apply S]|exact Hb|exact S].
Qed.

(** The body of set_base_rel_sizes. *)
Lemma size_body n rti a b st : ss_rels (ps_search st) !! n = Some b -> to_size (ss_canon (ps_search st)) rti a b ->
  exists b' st', (let! rte := deref (simple_rte_array root rti) in
      (when (parallelModeOK root) (on_rel n (set_rel_consider_parallel rte));; set_rel_size root set_append_rel_size n rti rte) st) = Ok st'
    /\ updates n b' st st' /\ to_plan (ss_canon (ps_search st')) rti a b'.
Proof.
  intros Hb [En S]. pose proof En as [Er Es Ek Eu (rte & Hr & Hi & F)]. rewrite Hr. cbn [deref rbind].
  destruct (parallel_step rte n a b st Hb S) as (b1 & st1 & E1 & U1 & Hb1 & S1).
  unfold andthen. rewrite E1. cbn [rbind]. unfold set_rel_size, rel_at. rewrite Hb1. cbn [deref rbind].
  set (P := fun c bs => starts wmax e w a c bs /\ rtekind (bs_rel bs) = rtekind (rn_rel a)).
  set (Q := fun c => leaf_sized wmax e w a c (rtekind (rn_rel a))).
  assert (forall f, (forall c, ensures (P c) f (Q c)) -> exists b' st', on_rel n f st1 = Ok st' /\ updates n b' st st' /\ to_plan (ss_canon (ps_search st')) rti a b') as Step.
  { intros f Hf. destruct (on_rel_stage P Q n f st1 b1 Hf) as (bs & st2 & E2 & U2 & L2 & Hb2 & Ec); try assumption.
    - intros c bs L. apply (leaf_kept _ _ _ _ L).
    - intros c ix ix' [Sx Kx]. split; [eapply starts_reindex, Sx|exact Kx].
    - split; [exact S1|]. apply (kp_rte _ _ (st_kept _ _ _ _ _ _ S1)).
    - exists (bs_node bs), st2. split_and!; [exact E2|eapply updates_trans; eassumption|]. split; [exact En|]. rewrite Ec.
      destruct bs. eapply leaf_sized_here, leaf_sized_reindex, L2. }
  destruct (_ && _); [|rewrite Hi]; apply Step; intros c st2 [S2 K2].
  - destruct (dummy_emptied wmax e w a c ltac:(lia) st2 S2) as (st3 & E3 & Em). exists st3. split; [exact E3|left; exact Em].
  - eapply (leaf_size_ok wmax e w a c So Wf); try eassumption; try lia. split; assumption.
Qed.

(** The body of set_base_rel_pathlists. *)
Lemma pathlist_body n rti a b st : ss_rels (ps_search st) !! n = Some b -> to_plan (ss_canon (ps_search st)) rti a b ->
  exists b' st', (let! rte := deref (simple_rte_array root rti) in set_rel_pathlist root set_append_rel_pathlist n rti rte st) = Ok st'
    /\ updates n b' st st' /\ is_planned (ss_canon (ps_search st')) rti a b'.
Proof.
  intros Hb [En S]. pose proof En as [Er Es Ek Eu (rte & Hr & Hi & F)]. rewrite Hr. cbn [deref rbind].
  unfold set_rel_pathlist, rel_at. rewrite Hb. cbn [deref rbind].
  set (Q := fun c => leaf_sized wmax e w a c RTE_CTE). pose proof (leaf_kept _ _ _ _ S) as [Kb [Cb _]].
  assert (exists b1 st1, (if is_dummy_rel b then Ok st else if inh rte then set_append_rel_pathlist n rti rte st else on_rel n (set_leaf_pathlist root rte) st) = Ok st1
    /\ updates n b1 st st1 /\ ss_rels (ps_search st1) !! n = Some b1 /\ Q (ss_canon (ps_search st1)) (mkBaseState b1 [] (ss_canon (ps_search st1)))) as (b1 & st1 & -> & U1 & Hb1 & Q1).
  { destruct S as [Em|(C & A & N)].
    - assert (is_dummy_rel b = true) as -> by (apply empty_rel_dummy, Em). exists b, st.
      split_and!; [reflexivity|apply no_update; assumption|exact Hb|left; exact Em].
    - destruct (is_dummy_rel b) eqn:Ed; [|rewrite Hi].
      + exists b, st. split_and!; [reflexivity|apply no_update; assumption|exact Hb|]. apply collected_sized; [|reflexivity]. split; [exact C|]. apply A.
        destruct (at_once _); [reflexivity|]. specialize (N eq_refl). unfold no_cheapest in N. unfold is_dummy_rel in Ed. cbn in N. rewrite N in Ed. discriminate.
      + destruct (on_rel_stage (fun c bs => collects wmax e w a c bs /\ rtekind (bs_rel bs) = rtekind (rn_rel a) /\ (at_once (rtekind (rn_rel a)) = true -> alive (rn_paths (bs_node bs))))
          (collected wmax e w a) n (set_leaf_pathlist root rte) st b) as (bs & st1 & E & U & Co & Hb1 & Ec); try assumption.
        * intros c. apply leaf_pathlist_ok; assumption.
        * intros c bs [Cx _]. apply Cx.
        * intros c ix ix' (Cx & Kx & Ax). split_and!; [eapply collects_reindex, Cx|exact Kx|exact Ax].
        * split_and!; [exact C|apply (kp_rte _ _ Kb)|exact A].
        * exists (bs_node bs), st1. split_and!; [exact E|exact U|exact Hb1|]. rewrite Ec. destruct bs. eapply leaf_sized_here, leaf_sized_reindex.
          apply collected_sized; [exact Co|reflexivity]. }
  cbn [rbind]. pose proof (leaf_kept _ _ _ _ Q1) as [Kb1 _].
  destruct (on_rel_stage (fun c bs => Q c bs /\ reloptkind (bs_rel bs) = RELOPT_BASEREL)
    (fun c bs => planned_rel wmax e w a (bs_canon bs) (bs_node bs) /\ keys_grow c bs) n (finish_base_rel rti rte) st1 b1) as (bs & st2 & E & U & [Pl _] & _ & Ec); try assumption.
  - intros c bs [Qx Kx]. destruct (finish_base_ok wmax e w a c So Hook rti rte bs Kx) as (bs' & E & Pl & Kg & _); [|eauto].
    destruct Qx as [Em|(C & A & _)]; [left; exact Em|right; split; [exact C|apply A; reflexivity]].
  - intros c bs [_ Kg]. exact Kg.
  - intros c ix ix' [Qx Kx]. split; [eapply leaf_sized_reindex, Qx|exact Kx].
  - split; [exact Q1|]. unfold bs_rel. cbn. pose proof (kp_kind _ _ Kb1) as K. cbn in K. rewrite K. exact Ek.
  - exists (bs_node bs), st2. split_and!; [exact E|eapply updates_trans; eassumption|]. split; [exact En|]. rewrite Ec. exact Pl.
Qed.
End base_rels.

(** ** The whole *)

Lemma singleton_members rti rids : 0 <= rti -> bms_make_singleton rti = Ok rids -> bms_wf rids /\ forall x, member x rids <-> x = rti.
Proof.
  intros Hr E. destruct (represents_add None rti I Hr) as (r & E' & R). unfold bms_add_member in E'.
  rewrite (proj2 (Z.ltb_ge rti 0) Hr) in E'. rewrite E in E'. injection E' as <-. destruct R as [W M]. split; [exact W|].
  intros x. rewrite M. split; [intros [?|Hx]; [assumption|destruct (not_member_none x Hx)]|auto].
Qed.

(** The relations of a list of references. *)
Lemma joinlist_refs `{Libm, Settings, Catalog, Estimator, Equivalences, PathSupport, EClasses, JoinSupport, SearchSupport, GeqoSettings, OldMemory, OrderSearch} (r : SearchRoot) st l ns : Forall2 (fun rti n => sr_simple_rels r rti = Some n) l ns ->
  make_rel r (JLList (map JLRef l)) st = search_joinlist r (map Some ns) st.
Proof.
  intros F. cbn [make_rel].
  match goal with |- context [rbind (?c (map JLRef l) st) _] => assert (c (map JLRef l) st = Ok (st, map Some ns)) as -> end; [|reflexivity].
  induction F as [|rti n l ns Hs _ IH]; cbn [map make_rel]; [reflexivity|]. unfold base_rel. rewrite Hs. cbn [rbind]. rewrite IH. reflexivity.
Qed.

Lemma list_cases {A} (l : list A) : l = [] \/ (exists x, l = [x]) \/ (exists x y l', l = x :: y :: l').
Proof. destruct l as [|x [|y l]]; eauto 6. Qed.

Lemma mapM_some {A} (l : list A) : mapM id (map Some l) = Some l.
Proof. induction l as [|x l IH]; cbn; [reflexivity|]. cbn in IH. rewrite IH. reflexivity. Qed.
Section one_rel.
Context `{Libm, Settings, Catalog, Tablespaces, Widths, Estimator, Equivalences, PathSupport, BaseSupport}.
Context `{EClasses, JoinSupport, SearchSupport, GeqoSettings, OldMemory, OrderSearch}.
Context `{!CatalogLaws, !TablespaceLaws, !EstimatorLaws, !EquivalenceLaws, !LibmOrder, !JoinSupportLaws, !BasePathLaws} (So : settings_ok).

(** A query of inner joins over the range table entries [rtis], none of them an
    inheritance parent, without LATERAL references and placeholders; [query] are its join
    clauses, a base relation has at most [2^e] tuples and columns of [w] bytes, [wmax] at
    most for each. *)
Record base_query (root : PlanRoot) (rtis : list Z) (query : list RestrictInfo) (wmax e w : Z) (st : SearchState) : Prop := {
  bq_some : rtis <> [];
  bq_distinct : NoDup rtis;
  bq_rtis : forall rti, rti ∈ rtis <-> is_Some (sr_simple_rels (pr_search root) rti);
  bq_range : Forall (fun rti => 1 <= rti < simple_rel_array_size root) rtis;
  bq_entries : forall rti n, sr_simple_rels (pr_search root) rti = Some n ->
    exists node, ss_rels st !! n = Some node /\ base_entry root wmax e w rti node /\ joininfo (rn_params node) ⊆ query;
  bq_lateral : hasLateralRTEs (pr_search root) = false;
  bq_placeholders : sr_placeholders (pr_search root) = [];
  bq_fkeys : Forall (fun fk => 0 <= con_relid fk /\ ref_relid fk ∈ rtis) (sr_fkeys (pr_search root));
  bq_order : NoDup (map pk_eclass (sr_query_pathkeys (pr_search root)));
  bq_forest : ec_forest;
  bq_clauses : query_clauses query;
  bq_clauses_ok : clauses_ok query;
  bq_fit : forall o i rids l, l ⊆ query -> distinct l ->
             let clauses := l ++ generate_join_implied_equalities rids (relids o) i in
             clauses_fit o i clauses /\ clauses_fit i o clauses;
  bq_infos : ss_infos st = [];
  bq_joins : join_rel_list st = [] /\ join_rel_hash st = None;
  bq_caches : caches_ok (pr_search root) (ss_canon st) (ss_scansel st) (ss_buckets st);
  bq_rows : 10 <= e /\ e * Z.of_nat (length rtis) <= 1000;
  bq_width : 0 <= w /\ w * Z.of_nat (length rtis) < 2 ^ 30;
  bq_widths : widths_fit wmax;
  bq_foreign : forall routine, fdw_GetForeignJoinPaths routine = None;
  bq_hooks : set_join_pathlist_hook = None /\ set_rel_pathlist_hook = None /\ join_search_hook = None;
  bq_geqo : enable_geqo && (geqo_threshold <=? Z.of_nat (length rtis)) = false;
}.

Context (root : PlanRoot) (rtis : list Z) (query : list RestrictInfo) (wmax e w : Z) (st0 : PlanState).
Context (Bq : base_query root rtis query wmax e w (ps_search st0)).
Abbreviation simple := (sr_simple_rels (pr_search root)).

Lemma entry_root rids rti node : base_entry root wmax e w rti node -> base_entry (set_all_baserels root rids) wmax e w rti node.
Proof. intros [? ? ? ? (rte & ? & ? & ?)]. split; try assumption. exists rte. split_and!; assumption. Qed.

Lemma rtis_length : 1 <= Z.of_nat (length rtis).
Proof. pose proof (bq_some _ _ _ _ _ _ _ Bq). destruct rtis; [done|cbn; lia]. Qed.

Lemma bounds : 10 <= e <= 1000 /\ w < 2 ^ 30.
Proof. pose proof rtis_length. destruct (bq_rows _ _ _ _ _ _ _ Bq), (bq_width _ _ _ _ _ _ _ Bq). split; nia. Qed.

Lemma simple_range rti n : simple rti = Some n -> 1 <= rti < simple_rel_array_size root.
Proof.
  intros E. pose proof (bq_range _ _ _ _ _ _ _ Bq) as F. rewrite Forall_forall in F. apply F, (bq_rtis _ _ _ _ _ _ _ Bq). eauto.
Qed.

Lemma simple_inj rti rti' n : simple rti = Some n -> simple rti' = Some n -> rti = rti'.
Proof.
  intros E E'. destruct (bq_entries _ _ _ _ _ _ _ Bq rti n E) as (a & Ha & [Ra _ _ _ _] & _).
  destruct (bq_entries _ _ _ _ _ _ _ Bq rti' n E') as (a' & Ha' & [Ra' _ _ _ _] & _). congruence.
Qed.

(** *** All base relations are planned *)

Lemma base_rels_planned set_append_rel_size set_append_rel_pathlist rids : let root' := set_all_baserels root rids in
  exists st', (set_base_rel_consider_startup root';;
               set_base_rel_sizes root' (set_append_rel_size root');;
               set_base_rel_pathlists root' (set_append_rel_pathlist root')) st0 = Ok st'
    /\ same_search (ps_search st0) (ps_search st') /\ canon_ok (ss_canon (ps_search st'))
    /\ ss_canon (ps_search st0) `prefix_of` ss_canon (ps_search st')
    /\ forall rti n a, simple rti = Some n -> ss_rels (ps_search st0) !! n = Some a ->
         exists b, ss_rels (ps_search st') !! n = Some b /\ is_planned root' wmax e w (ss_canon (ps_search st')) rti a b.
Proof.
  intros root'. destruct bounds as [Be Bw]. pose proof (ca_canon _ _ _ _ (bq_caches _ _ _ _ _ _ _ Bq)) as Cc.
  unfold andthen. unfold set_base_rel_consider_startup. rewrite (bq_infos _ _ _ _ _ _ _ Bq). cbn [for_each skip rbind].
  assert (forall rti n, sr_simple_rels (pr_search root') rti = Some n -> is_Some (ss_rels (ps_search st0) !! n)) as Some0.
  { intros rti n Hs. destruct (bq_entries _ _ _ _ _ _ _ Bq rti n Hs) as (a & Ha & _). eauto. }
  destruct (for_base_rels_ok root' (ps_search st0) simple_range simple_inj (to_size root' wmax e w) (to_plan root' wmax e w)
    (to_size_grow root' wmax e w) (to_plan_grow root' wmax e w) (to_size_base root' wmax e w)
    (fun n rti st => let! rte := deref (simple_rte_array root' rti) in
      (when (parallelModeOK root') (on_rel n (set_rel_consider_parallel rte));; set_rel_size root' (set_append_rel_size root') n rti rte) st) Some0)
    with (st := st0) as (st1 & E1 & S1 & C1 & P1 & R1).
  - intros rti n a b st _ _ Hb _ _ Hp. apply (size_body So root' (set_append_rel_size root') wmax e w (bq_widths _ _ _ _ _ _ _ Bq) Be Bw n rti a b st Hb Hp).
  - split; [split; reflexivity|exact Cc|reflexivity|]. intros rti n a Hs Ha. exists a. split; [exact Ha|]. rewrite decide_False by (intros Hx; inversion Hx).
    destruct (bq_entries _ _ _ _ _ _ _ Bq rti n Hs) as (a' & Ha' & En & _). assert (a' = a) as -> by congruence.
    split; [apply entry_root, En|]. split; [apply En|reflexivity|split; [exact Cc|reflexivity]].
  - unfold set_base_rel_sizes. rewrite E1. cbn [rbind].
    destruct (for_base_rels_ok root' (ps_search st0) simple_range simple_inj (to_plan root' wmax e w) (is_planned root' wmax e w)
      (to_plan_grow root' wmax e w) (planned_grow root' wmax e w) (to_plan_base root' wmax e w)
      (fun n rti st => let! rte := deref (simple_rte_array root' rti) in set_rel_pathlist root' (set_append_rel_pathlist root') n rti rte st) Some0)
      with (st := st1) as (st2 & E2 & S2 & C2 & P2 & R2).
    + intros rti n a b st _ _ Hb _ _ Hp.
      apply (pathlist_body So root' (set_append_rel_pathlist root') wmax e w (proj1 (proj2 (bq_hooks _ _ _ _ _ _ _ Bq))) n rti a b st Hb Hp).
    + split; [exact S1|exact C1|exact P1|]. intros rti n a Hs Ha. destruct (R1 rti n a Hs Ha) as (b & Hb & Q). exists b.
      rewrite decide_False by (intros Hx; inversion Hx). auto.
    + exists st2. unfold set_base_rel_pathlists. auto.
Qed.

(** *** The set of all base relations *)

Lemma collect_ok l rids : bms_wf rids -> exists r, collect_baserels root st0 l rids = Ok r
  /\ represents r (fun x => (x ∈ l /\ is_Some (simple x)) \/ member x rids).
Proof.
  revert rids. induction l as [|rti l IH]; intros rids W; cbn [collect_baserels].
  { exists rids. split; [reflexivity|]. split; [exact W|]. intros x. split; [auto|]. intros [[Hx _]|?]; [inversion Hx|assumption]. }
  destruct (simple rti) as [n|] eqn:Hs.
  - destruct (bq_entries _ _ _ _ _ _ _ Bq rti n Hs) as (a & Ha & [Er _ Ek _ _] & _). unfold rel_at. rewrite Ha. cbn [deref rbind].
    rewrite bool_decide_true by exact Ek. pose proof (simple_range rti n Hs) as Hr.
    destruct (represents_add rids (relid (rn_rel a)) W) as (r & -> & Wr & Mr); [lia|]. cbn [rbind].
    destruct (IH r Wr) as (r2 & -> & W2 & M2). exists r2. split; [reflexivity|]. split; [exact W2|]. intros x. rewrite M2, Mr, Er, elem_of_cons.
    split; [intros [[? ?]|[->|?]]|intros [[[->|?] ?]|?]]; eauto.
  - destruct (IH rids W) as (r2 & E2 & W2 & M2). exists r2. split; [exact E2|]. split; [exact W2|]. intros x. rewrite M2, elem_of_cons.
    split; [intros [[? ?]|?]|intros [[[->|?] [? ?]]|?]]; eauto. congruence.
Qed.

Lemma all_baserels_ok : exists r, collect_baserels root st0 (seqZ 1 (simple_rel_array_size root - 1)) None = Ok r
  /\ represents r (fun x => x ∈ rtis).
Proof.
  destruct (collect_ok (seqZ 1 (simple_rel_array_size root - 1)) None I) as (r & E & W & M). exists r. split; [exact E|]. split; [exact W|].
  intros x. rewrite M, (bq_rtis _ _ _ _ _ _ _ Bq). split; [intros [[_ ?]|Hx]; [assumption|destruct (not_member_none x Hx)]|].
  intros [n Hn]. left. split; [|eauto]. apply elem_of_seqZ. pose proof (simple_range x n Hn). lia.
Qed.

(** *** The join of all base relations *)

Section joined.
Context (rids : Relids) (st : SearchState).
Context (Same : same_search (ps_search st0) st) (Canon : canon_ok (ss_canon st)) (Grow : ss_canon (ps_search st0) `prefix_of` ss_canon st).
Context (Planned : forall rti n a, simple rti = Some n -> ss_rels (ps_search st0) !! n = Some a ->
  exists b, ss_rels st !! n = Some b /\ is_planned (set_all_baserels root rids) wmax e w (ss_canon st) rti a b).
Context (ns : list nat) (Positions : Forall2 (fun rti n => simple rti = Some n) rtis ns).
Abbreviation rels := (ss_rels st).

Definition set_at (n : nat) : Relids := default None ((fun node => rn_relids node) <$> rels !! n).
Abbreviation initial := (map set_at ns).

(** A relation of the list. *)
Lemma input_at i n : ns !! i = Some n -> exists rti b, rtis !! i = Some rti /\ simple rti = Some n /\ rels !! n = Some b
  /\ has_size wmax e w b /\ ready (ss_canon st) b /\ relid (rn_rel b) = rti /\ joininfo (rn_params b) ⊆ query
  /\ wmax * Z.of_nat (length (exprs (reltarget (rn_rel b)))) <= w
  /\ bms_wf (rn_relids b) /\ forall x, member x (rn_relids b) <-> x = rti.
Proof.
  intros Hn. destruct (Forall2_lookup_r _ _ _ _ _ Positions Hn) as (rti & Hr & Hs).
  destruct (bq_entries _ _ _ _ _ _ _ Bq rti n Hs) as (a & Ha & En & Hq). destruct (Planned rti n a Hs Ha) as (b & Hb & _ & [Sz K Rd]).
  exists rti, b. pose proof (simple_range rti n Hs) as Hx. destruct (singleton_members rti _ ltac:(lia) (en_relids _ _ _ _ _ _ En)) as [W M].
  rewrite (kp_relids _ _ K), (kp_relid _ _ K), (kp_clauses _ _ K), (kp_target _ _ K). split_and!; try assumption; [apply En|].
  apply (us_width _ _ _ _ (en_unsized _ _ _ _ _ _ En)).
Qed.

Lemma initial_at i rids' : initial !! i = Some rids' -> exists n rti, ns !! i = Some n /\ rtis !! i = Some rti
  /\ bms_wf rids' /\ forall x, member x rids' <-> x = rti.
Proof.
  intros E. rewrite list_lookup_fmap in E. destruct (ns !! i) as [n|] eqn:Hn; [|discriminate]. injection E as <-.
  destruct (input_at i n Hn) as (rti & b & Hr & _ & Hb & _ & _ & _ & _ & _ & W & M). exists n, rti. unfold set_at. rewrite Hb. cbn. auto.
Qed.

Lemma initial_apart : inputs_apart initial.
Proof.
  split.
  - apply Forall_forall. intros r Hr. apply list_elem_of_lookup in Hr as [i Hi]. destruct (initial_at i r Hi) as (? & ? & _ & _ & W & _). exact W.
  - intros i r Hi. destruct (initial_at i r Hi) as (? & rti & _ & _ & _ & M). exists rti. apply M. reflexivity.
  - intros i j r r' x Hi Hj Hx Hx'. destruct (initial_at i r Hi) as (? & rti & _ & Ri & _ & M). destruct (initial_at j r' Hj) as (? & rti' & _ & Rj & _ & M').
    apply M in Hx as ->. apply M' in Hx' as ->. eapply NoDup_lookup; [apply Bq|eassumption..].
Qed.

(** The columns of a base relation have widths. *)
Lemma base_columns n b : rels !! n = Some b -> simple (relid (rn_rel b)) = Some n -> has_size wmax e w b ->
  columns (pr_search (set_all_baserels root rids)) rels (exprs (reltarget (rn_rel b))) (wmax * Z.of_nat (length (exprs (reltarget (rn_rel b))))).
Proof.
  intros Hb Hs [_ _ _ [Cc [Ca Cl] Cn Cw] _ _]. induction Cc as [|e' l (a & -> & Na & Ha) _ IH]; cbn [length]; [constructor; lia|].
  destruct (lookup_lt_is_Some_2 (attr_widths (rn_attrs b)) (Z.to_nat (a - min_attr (rn_attrs b)))) as [x Hx]; [lia|].
  destruct (lookup_lt_is_Some_2 (attr_needed b) (Z.to_nat (a - min_attr (rn_attrs b)))) as [y Hy]; [lia|].
  assert (0 <= x <= wmax) as Bx by (rewrite Forall_forall in Cw; apply Cw; eapply list_elem_of_lookup_2, Hx).
  eapply columns_weaken; [apply (columns_cons _ _ _ x); [|lia|exact IH]|lia].
  unfold var_width. cbn [set_all_baserels pr_search sr_simple_rels]. rewrite Hs. cbn [mbind option_bind]. rewrite Hb. cbn [mbind option_bind]. unfold array_at.
  rewrite (proj2 (Z.ltb_ge _ 0)) by lia. rewrite Hx, Hy. reflexivity.
Qed.

Lemma joined_query : inner_query (pr_search (set_all_baserels root rids)) rels ns [] initial query e w.
Proof.
  pose proof Bq as [B1 B2 B3 B4 B5 B6 B7 B8 B9 B10 B11 B12 B13 B14 B15 B16 B17 B18 B19 B20 B21 B22].
  assert (length initial = length rtis) as Ln by (rewrite length_map; symmetry; eapply Forall2_length, Positions).
  split; try assumption; rewrite ?Ln; try tauto; try lia.
  - eapply Forall_impl; [exact B8|]. intros fk [Hc Hr]. apply B3 in Hr as [n Hn].
    destruct (B5 _ _ Hn) as (a & Ha & En & _). destruct (Planned _ _ _ Hn Ha) as (b & Hb & _ & [[[St Sf] [Sn _] Sr _ _ _] _ _]).
    split; [exact Hc|pose proof (simple_range _ _ Hn); lia|]. exists (rn_rel b). cbn. rewrite Hn. cbn. rewrite Hb. cbn. auto.
  - exact initial_apart.
  - intros i n Hn. destruct (input_at i n Hn) as (rti & b & Hr & Hs & Hb & Sz & Rd & Er & Hq & Lw & W & M). exists b.
    assert (initial !! i = Some (rn_relids b)) as Hi by (rewrite list_lookup_fmap, Hn; cbn; unfold set_at; rewrite Hb; reflexivity).
    split_and!; [exact Hb|exact Hi|]. split; rewrite ?size_singleton, ?Z.mul_1_r.
    + apply composed_input; [exact initial_apart|exact Hi].
    + apply Sz.
    + eapply columns_weaken; [apply (base_columns n); [exact Hb|congruence|exact Sz]|exact Lw].
    + pose proof (hs_width _ _ _ _ Sz). destruct bounds. lia.
    + exact Hq.
  - eapply Forall2_length, Positions.
  - intros r Hr. inversion Hr.
Qed.

Lemma joined_start : search_start (pr_search (set_all_baserels root rids)) ns (set_initial st ns).
Proof.
  destruct Same as [S1 S2 S3 S4 S5]. pose proof (bq_joins _ _ _ _ _ _ _ Bq) as [J1 J2]. split; cbn.
  - rewrite S1. apply Bq.
  - exists []. split; cbn; rewrite ?S2, ?S3, ?J1, ?J2; try constructor. intros i j en en' Hi. inversion Hi.
  - destruct (bq_caches _ _ _ _ _ _ _ Bq) as [C1 C2 C3 C4]. split; rewrite ?S4, ?S5; [exact Canon|eapply known_prefix; eassumption|assumption..].
  - intros r node Hr Hn. apply list_elem_of_lookup in Hr as [i Hi]. destruct (input_at i r Hi) as (rti & b & _ & _ & Hb & _ & Rd & _).
    assert (node = b) as -> by congruence. exact Rd.
Qed.

(** The sets of the inputs have all the query's relations together. *)
Lemma initial_members x : (exists s, s ∈ initial /\ member x s) <-> x ∈ rtis.
Proof.
  split.
  - intros (s & Hs & Hx). apply list_elem_of_lookup in Hs as [i Hi]. destruct (initial_at i s Hi) as (n & rti & _ & Hr & _ & M).
    apply M in Hx as ->. eapply list_elem_of_lookup_2, Hr.
  - intros Hx. apply list_elem_of_lookup in Hx as [i Hi]. destruct (Forall2_lookup_l _ _ _ _ _ Positions Hi) as (n & Hn & _).
    assert (initial !! i = Some (set_at n)) as Hs by (rewrite list_lookup_fmap, Hn; reflexivity).
    destruct (initial_at i _ Hs) as (n' & rti & _ & Hr & _ & M). exists (set_at n). split; [eapply list_elem_of_lookup_2, Hs|]. apply M. congruence.
Qed.

(** The search over the orders of all inputs, or the only input. *)
Lemma joined_ok : exists st' r node, search_joinlist (pr_search (set_all_baserels root rids)) (map Some ns) st = Ok (st', Some r)
  /\ ss_rels st' !! r = Some node /\ represents (rn_relids node) (fun x => x ∈ rtis)
  /\ (is_dummy_rel node = true
      \/ exists p, cheapest_total_path (rn_paths node) = Some p /\ param_info p = None /\ side_path (rn_rel node) (ss_canon st') p).
Proof.
  assert (length ns = length rtis) as Ln by (symmetry; eapply Forall2_length, Positions).
  pose proof rtis_length as L1. destruct (list_cases ns) as [En|[[n En]|(n & n2 & ns' & En)]].
  - rewrite En in Ln. cbn in Ln. lia.
  - destruct (input_at 0 n ltac:(rewrite En; reflexivity)) as (rti & b & Hr & _ & Hb & _ & Rd & _ & _ & _ & W & M).
    exists st, n, b. rewrite En in Ln. split_and!; [rewrite En; reflexivity|exact Hb| |].
    + split; [exact W|]. intros x. rewrite M. destruct (list_cases rtis) as [E|[[y E]|(? & ? & ? & E)]]; rewrite E in Ln, Hr; try discriminate Ln.
      cbn in Hr. injection Hr as ->. rewrite E, list_elem_of_singleton. reflexivity.
    + destruct Rd as [?|[_ [_ _ (p & Ep & Sp) _ _ _] _ (t & Et & Nt & _)]]; [auto|right]. exists t. split_and!; [exact Et|exact Nt|congruence].
  - assert (search_joinlist (pr_search (set_all_baserels root rids)) (map Some ns) st
      = let! (st', rel) := standard_join_search (pr_search (set_all_baserels root rids)) (length ns) ns (set_initial st ns) in Ok (st', Some rel)) as ->.
    { unfold search_joinlist. rewrite En. cbn [map]. rewrite <- !En.
      change (Some n :: Some n2 :: map Some ns') with (map Some (n :: n2 :: ns')). rewrite <- En, mapM_some. cbn [deref rbind]. rewrite length_map.
      rewrite (proj2 (proj2 (bq_hooks _ _ _ _ _ _ _ Bq))), Ln, (bq_geqo _ _ _ _ _ _ _ Bq). reflexivity. }
    destruct (standard_join_search_ok (pr_search (set_all_baserels root rids)) ns initial query e w (set_initial st ns) So) as (st' & r & node & E & Hn & [W M] & _ & D).
    + cbn. rewrite (ss_same_joins _ _ Same), (proj1 (bq_joins _ _ _ _ _ _ _ Bq)). exact joined_query.
    + exact joined_start.
    + lia.
    + rewrite E. cbn [rbind]. exists st', r, node. split_and!; [reflexivity|exact Hn| |exact D]. split; [exact W|]. intros x. rewrite M. apply initial_members.
Qed.
End joined.

End one_rel.


(** ** Witness *)

#[local] Existing Instance default_settings.
#[local] Existing Instance no_equivalences.

(** Indexes and TIDs offer no paths; the answers of the catalogs are constants. *)
#[local] Instance sample_base_support : BaseSupport := {|
  relation_excluded_by_constraints := fun _ _ => false;
  get_rel_persistence := fun _ => "p"%char;
  func_parallel := fun _ => "s"%char;
  get_typavgwidth := fun _ => 4;
  find_placeholder_width := fun _ => 4;
  GetTsmRoutine := fun _ => mkTsmRoutine (fun _ _ => (10, i2d 100)) false;
  fdw_routine := fun _ => mkFdwRoutine None (fun node _ => node) (fun st _ => st);
  predicate_implied_by := fun _ _ => false;
  contain_mutable_functions := fun _ => false;
  find_childrel_parents := fun _ => None;
  create_index_paths := fun st => st;
  create_tidscan_paths := fun st => st;
  build_expression_pathkey := fun _ _ _ canon => ([], canon);
  convert_subquery_pathkeys := fun _ _ canon => ([], canon);
  subquery_is_pushdown_safe := fun _ => false;
  qual_is_pushdown_safe := fun _ _ _ => false;
  subquery_planner := fun _ _ _ _ => Error "no subqueries here";
  set_rel_pathlist_hook := None |}.

#[local] Instance short_widths : Widths := {| get_attavgwidth := fun _ _ => 8; rd_att := fun _ => [] |}.

#[local] Instance sample_base_laws : BasePathLaws.
Proof.
  assert (forall canon, canon_ok canon -> keys_from canon ([], canon)) as Nil by (intros canon C; split; [reflexivity|exact C|apply good_keys_nil]).
  assert (forall st, growing (bs_canon st) (bs_node st) -> canon_ok (bs_canon st) -> offers_paths st st) as Same.
  { intros st G C. split; [reflexivity|exact C|]. exists (rn_paths (bs_node st)), (rn_params (bs_node st)).
    split_and!; [destruct (bs_node st); reflexivity|reflexivity|apply G|reflexivity]. }
  split; intros; [apply Same|apply Same|apply Nil|apply Nil]; assumption.
Qed.

#[local] Instance sample_geqo_settings : GeqoSettings := {|
  Geqo_effort := 5; Geqo_pool_size := 0; Geqo_generations := 0; Geqo_selection_bias := i2d 2; Geqo_seed := i2d 0 |}.

#[local] Instance sample_old_memory : OldMemory := {|
  old_gene := 0; old_worth := dzero; old_edge := mkEdge [0; 0; 0; 0] 0 0; old_edge_list := eq_refl |}.

#[local] Instance sample_order_search : OrderSearch := {|
  join_search_hook := None; enable_geqo := true; geqo_threshold := 12; geqo_tries := 0; geqo_draws := 0 |}.

(** A table, a function and a tuplestore, as build_simple_rel leaves them. *)
Definition base_info (word rti : Z) (kind : RTEKind) (pages' : Z) (tuples' : double) : RelOptInfo := {|
  reloptkind := RELOPT_BASEREL; relids := Some [word]; rel_rows := i2d 0;
  consider_startup := true; consider_param_startup := false; consider_parallel := false;
  reltarget := mkPathTarget [Var rti 1] no_cost 0; relid := rti; reltablespace := 0; rtekind := kind;
  pages := pages'; tuples := tuples'; allvisfrac := dzero; rel_parallel_workers := -1;
  baserestrictinfo := []; baserestrictcost := no_cost |}.

Definition base_node (info : RelOptInfo) (clauses : list RestrictInfo) : RelNode :=
  mkRelNode info new_rel_paths (mkRelParams clauses []) (mkRelMerge false None) None None None (mkRelAttrs (-1) 1 [0; 0; 0])
    [None; None; Some [1]] (mkForeignRel 0 0 false 0).

Definition base_nodes : list RelNode :=
  [base_node (base_info 2 1 RTE_RELATION 2000 (i2d 10000)) search_clauses; base_node (base_info 4 2 RTE_FUNCTION 0 (i2d 0)) search_clauses;
   base_node (base_info 8 3 RTE_NAMEDTUPLESTORE 0 (i2d 0)) []].

Definition sample_rte (kind : RTEKind) : RangeTblEntry :=
  mkRangeTblEntry kind (match kind with RTE_RELATION => 16384 | _ => 0 end) "r"%char None [FuncExpr 1 []] false (FuncExpr 1 []) []
    "cte"%string 0 false (i2d (-1)) false.

Definition base_rtes (rti : Z) : option RangeTblEntry :=
  match rti with
  | 1 => Some (sample_rte RTE_RELATION)
  | 2 => Some (sample_rte RTE_FUNCTION)
  | 3 => Some (sample_rte RTE_NAMEDTUPLESTORE)
  | _ => None
  end.

Definition base_root : PlanRoot :=
  mkPlanRoot order_root 4 base_rtes true 1 0 [] (mkQueryParts false false false false false false) [] [].

Definition base_state : PlanState := mkPlanState (mkSearchState base_nodes [] [] None None 0 [] sample_keys ∅ ∅) ∅.

Lemma base_node_unsized word rti kind pg tp clauses : 0 <= rti -> 0 <= pg < 2 ^ 32 -> tuples_fit 14 tp -> clauses_ok clauses ->
  unsized 8 14 8 (base_node (base_info word rti kind pg tp) clauses).
Proof.
  intros Hr Hp Ht Hc. split; cbn; try assumption; try reflexivity; try lia.
  - split; constructor.
  - split; [reflexivity|apply cle_eval; reflexivity].
  - split; cbn; [|split; cbn; lia|reflexivity|repeat (constructor; [lia|]); constructor].
    constructor; [|constructor]. exists 1. split_and!; [reflexivity|lia..].
Qed.

Lemma base_clauses_ok clauses : clauses = [] \/ clauses = search_clauses -> clauses_ok clauses /\ clauses ⊆ search_clauses.
Proof. intros [-> | ->]; (split; [|auto]); [split; constructor|intros c Hc; inversion Hc|exact search_clauses_ok]. Qed.

Lemma sample_leaf_fits kind : kind = RTE_RELATION \/ kind = RTE_FUNCTION \/ kind = RTE_NAMEDTUPLESTORE ->
  leaf_fits 8 14 base_root (sample_rte kind) kind.
Proof.
  intros [->|[->| ->]]; cbn.
  - split; [discriminate|exact I].
  - split_and!; [constructor; [apply int_fits; lia|constructor]|repeat constructor|repeat (discriminate || constructor)].
  - left. reflexivity.
Qed.

Lemma base_entries_ok rti n : sr_simple_rels (pr_search base_root) rti = Some n ->
  exists node, base_nodes !! n = Some node /\ base_entry base_root 8 14 8 rti node /\ joininfo (rn_params node) ⊆ search_clauses.
Proof.
  intros E. assert (rti = 1 \/ rti = 2 \/ rti = 3) as Cs.
  { cbn in E. destruct ((1 <=? rti) && (rti <=? 3)) eqn:B; [|discriminate]. apply andb_true_iff in B as [B1 B2]. lia. }
  destruct (base_clauses_ok [] (or_introl eq_refl)) as [N1 N2]. destruct (base_clauses_ok search_clauses (or_intror eq_refl)) as [C1 C2].
  destruct Cs as [->|[->| ->]]; injection E as <-; eexists; (split; [reflexivity|]); (split; [|assumption]);
    (split; [reflexivity|reflexivity|reflexivity|apply base_node_unsized; try assumption; try lia; apply int_fits; lia|]);
    eexists; (split; [reflexivity|]); (split; [reflexivity|]); apply sample_leaf_fits; auto.
Qed.

Lemma base_query_ok : base_query base_root [1; 2; 3] search_clauses 8 14 8 (ps_search base_state).
Proof.
  pose proof order_query as Oq. pose proof order_start as Os. split; try reflexivity; try (cbn; lia).
  - discriminate.
  - apply (bool_decide_unpack _). vm_compute. exact I.
  - intros rti. cbn. rewrite !elem_of_cons. destruct ((1 <=? rti) && (rti <=? 3)) eqn:B.
    + apply andb_true_iff in B as [B1 B2]. split; [eauto|]. intros _. assert (rti = 1 \/ rti = 2 \/ rti = 3) as [?|[?|?]] by lia; auto.
    + split; [intros [->|[->|[->|Hx]]]; [discriminate B..|inversion Hx]|intros [? ?]; discriminate].
  - repeat (constructor; [cbn; lia|]). constructor.
  - exact base_entries_ok.
  - constructor.
  - constructor.
  - exact sample_forest.
  - exact search_query.
  - exact search_clauses_ok.
  - apply Oq.
  - split; reflexivity.
  - apply Os.
  - split; intros; cbn; lia.
  - split_and!; reflexivity.
Qed.

