(* ===== verification/DoubleSqrt.v ===== *)
(** Square roots of doubles against exact squares, the relative error of a rounding, and
    operations on finite doubles of either sign that are not NaN. *)
From Stdlib Require Import SpecFloat.
From S2P Require Import Prelude Float64 Double DoubleOrder DoubleDiv DoubleRound DoubleUnit.
Open Scope Z_scope.

(** ** Relative error *)

Lemma Rnd_error kmin v : 0 <= kmin -> 0 < v -> kmin <= nbits v - 53 -> Z.abs (Rnd kmin v * 2 ^ kmin - v) * 2 ^ 53 <= v.
Proof.
  intros Hk Hv Hn. unfold Rnd, rnd_shift. rewrite Z.max_l by lia. set (k := nbits v - 53) in *.
  rewrite <- Z.mul_assoc, <- pow2_split by lia. replace (k - kmin + kmin) with k by lia.
  pose proof (nbits_spec v Hv) as [Lo _]. replace (nbits v - 1) with (k + 52) in Lo by lia. rewrite pow2_split in Lo by lia.
  pose proof (pow2_pos k ltac:(lia)) as Pk. pose proof (Z.div_mod v (2 ^ k) ltac:(lia)) as D. pose proof (Z.mod_pos_bound v (2 ^ k) Pk) as M.
  destruct (rne_near v k ltac:(lia)) as [[-> H]|[-> H]]; cbv zeta in *; set (F := v / 2 ^ k) in *; change (2 ^ 53) with (2 * 2 ^ 52).
  - rewrite Z.abs_neq by nia. nia.
  - rewrite Z.abs_eq by nia. nia.
Qed.

(** ** Square roots *)

Section sqrt.
Context (x z : double) (Hx : nonneg x = true) (Fx : finite x) (Fz : finite z).

Lemma sqrt_le : cmag x * 2 ^ 1074 <= cmag z * cmag z -> cmag (dsqrt x) <= cmag z.
Proof.
  intros L. pose proof (pow2_pos 1074 ltac:(lia)) as P1. pose proof HUGE_pos. pose proof (cmag_range z) as Rz.
  destruct x as [[[]|[]| |[] m e] V]; try discriminate Hx; unfold finite, cmag in Fx; cbn [SF fmag] in Fx; try lia.
  { unfold cmag at 1, dsqrt. cbn [SF SFsqrt fmag]. lia. }
  pose proof (bounded_range _ _ V) as [B _]. unfold cmag at 1, dsqrt. cbn [SF SFsqrt]. unfold cmag at 1 in L. cbn [SF fmag] in L.
  destruct (sqrt_core_spec m e B) as (q & e' & r & l & -> & (Hq & Ht & He & Hr & H2) & Hd & Hl).
  assert (forall a, 0 <= a -> a * 2 ^ (e' + 1074) * (a * 2 ^ (e' + 1074)) = a * a * 2 ^ (2 * e' + 2148)) as Ea.
  { intros a Ha. replace (2 * e' + 2148) with ((e' + 1074) + (e' + 1074)) by lia. rewrite (pow2_split (e' + 1074) (e' + 1074)) by lia. ring. }
  assert ((q * q + r) * 2 ^ (2 * e' + 2148) = Zpos m * 2 ^ (e + 1074) * 2 ^ 1074) as G.
  { rewrite <- Hd, <- !Z.mul_assoc, <- !pow2_split by lia. do 2 f_equal. lia. }
  pose proof (pow2_pos (2 * e' + 2148) ltac:(lia)). pose proof (pow2_pos (e' + 1074) ltac:(lia)).
  assert (q * 2 ^ (e' + 2148) = q * 2 ^ (e' + 1074) * 2 ^ 1074) as Eq.
  { rewrite <- Z.mul_assoc, <- pow2_split by lia. do 2 f_equal. lia. }
  apply (round_aux_le q e' ltac:(lia) Ht ltac:(lia) l z Fz).
  - rewrite Eq. apply mul_pow2_le; [lia|]. apply Z.square_le_simpl_nonneg; [lia|]. rewrite Ea by lia. nia.
  - intros Hr0%Hl. rewrite Eq. apply Z.mul_lt_mono_pos_r; [lia|]. apply Z.square_lt_simpl_nonneg; [lia|]. rewrite Ea by lia. nia.
Qed.

Lemma sqrt_ge : cmag z * cmag z <= cmag x * 2 ^ 1074 -> cmag z <= cmag (dsqrt x).
Proof.
  intros L. pose proof (pow2_pos 1074 ltac:(lia)) as P1. pose proof HUGE_pos. pose proof (cmag_range z) as Rz.
  destruct x as [[[]|[]| |[] m e] V]; try discriminate Hx; unfold finite, cmag in Fx; cbn [SF fmag] in Fx; try lia.
  { unfold cmag at 3 in L. cbn [SF fmag] in L. assert (cmag z = 0) by nia. pose proof (cmag_range (dsqrt (mkD (S754_zero false) V))). lia. }
  pose proof (bounded_range _ _ V) as [B _]. unfold cmag at 2, dsqrt. cbn [SF SFsqrt]. unfold cmag at 3 in L. cbn [SF fmag] in L.
  destruct (sqrt_core_spec m e B) as (q & e' & r & l & -> & (Hq & Ht & He & Hr & H2) & Hd & Hl).
  assert ((q * q + r) * 2 ^ (2 * e' + 2148) = Zpos m * 2 ^ (e + 1074) * 2 ^ 1074) as G.
  { rewrite <- Hd, <- !Z.mul_assoc, <- !pow2_split by lia. do 2 f_equal. lia. }
  pose proof (pow2_pos (2 * e' + 2148) ltac:(lia)). pose proof (pow2_pos (e' + 1074) ltac:(lia)).
  apply (round_aux_ge q e' ltac:(lia) Ht ltac:(lia) l z Fz).
  replace ((q + 1) * 2 ^ (e' + 2148)) with ((q + 1) * 2 ^ (e' + 1074) * 2 ^ 1074) by (rewrite <- Z.mul_assoc, <- pow2_split by lia; do 2 f_equal; lia).
  apply Z.mul_lt_mono_pos_r; [lia|]. apply Z.square_lt_simpl_nonneg; [nia|].
  replace ((q + 1) * 2 ^ (e' + 1074) * ((q + 1) * 2 ^ (e' + 1074))) with ((q + 1) * (q + 1) * 2 ^ (2 * e' + 2148))
    by (replace (2 * e' + 2148) with ((e' + 1074) + (e' + 1074)) by lia; rewrite (pow2_split (e' + 1074) (e' + 1074)) by lia; ring).
  nia.
Qed.
End sqrt.

(** ** Numbers *)

Lemma isnan_sub x y : finite x -> finite y -> isnan (x - y)%D = false.
Proof.
  unfold finite, cmag, isnan, dsub. cbn [SF]. pose proof HUGE_pos. intros Fx Fy.
  destruct x as [[[]|[]| |sx mx ex] Vx], y as [[[]|[]| |sy my ey] Vy]; cbn [SF fmag SFsub] in *; try lia; try reflexivity.
  destruct (_ - _) as [|p|p]; cbn [binary_normalize]; [reflexivity| |];
    match goal with |- context [binary_round prec emax ?s ?m ?e] => destruct (binary_round_fits s m e) as (q & -> & _) end;
    unfold norm; repeat case_match; simplify_eq; reflexivity.
Qed.

Lemma isnan_mul x y : finite x -> finite y -> isnan (x * y)%D = false.
Proof.
  unfold finite, cmag, isnan, dmul. cbn [SF]. pose proof HUGE_pos. intros Fx Fy.
  destruct x as [[[]|[]| |sx mx ex] Vx], y as [[[]|[]| |sy my ey] Vy]; cbn [SF fmag SFmul] in *; try lia; try reflexivity.
  destruct (round_aux_fits (xorb sx sy) (Zpos (mx * my)) (ex + ey) loc_Exact) as (q & -> & _); [lia|apply mul_texp; assumption|].
  unfold norm. repeat case_match; simplify_eq; reflexivity.
Qed.

Lemma number_div x y : isnan x = false -> finite y -> 0 < cmag y -> isnan (x / y)%D = false.
Proof.
  unfold finite, cmag, isnan, ddiv. cbn [SF]. pose proof HUGE_pos. intros Nx Fy Py.
  destruct x as [[[]|[]| |sx mx ex] Vx], y as [[[]|[]| |sy my ey] Vy]; cbn [SF fmag SFdiv] in *; try lia; try reflexivity; try discriminate.
  pose proof (div_core_texp mx ex my ey) as T. destruct (SFdiv_core_binary _ _ _ _ _ _) as [[q e] l]. destruct T as [T1 T2].
  destruct (round_aux_fits (xorb sx sy) q e l T1 T2) as (q' & -> & _). unfold norm. repeat case_match; simplify_eq; reflexivity.
Qed.

Lemma finite_sub x y : nonneg x = true -> nonneg y = true -> finite x -> finite y -> finite (x - y)%D.
Proof.
  intros Hx Hy Fx Fy. destruct (Z.le_gt_cases (cmag y) (cmag x)) as [L|L].
  - eapply Z.le_lt_trans; [exact (cle_sub x y Hx Hy Fx L)|exact Fx].
  - unfold finite. rewrite dneg_sub, cmag_dneg by (assumption || (apply finite_isnan; assumption)).
    eapply Z.le_lt_trans; [apply (cle_sub y x Hy Hx Fy); unfold cle; lia|exact Fy].
Qed.

Lemma sqrt_finite x : nonneg x = true -> finite x -> finite (dsqrt x).
Proof.
  intros Hx Fx. assert (cmag (i2d (2 ^ 512)) = 2 ^ 1586) as E by (vm_compute; reflexivity). unfold finite.
  eapply Z.le_lt_trans; [apply (sqrt_le x (i2d (2 ^ 512)) Hx Fx)|]; rewrite ?E.
  - unfold finite. rewrite E. apply Z.pow_lt_mono_r; lia.
  - rewrite <- pow2_split by lia. change (1586 + 1586) with (2098 + 1074). rewrite (pow2_split 2098 1074) by lia. apply mul_pow2_le; [lia|].
    unfold finite, HUGE in Fx. lia.
  - apply Z.pow_lt_mono_r; lia.
Qed.
