(* ===== verification/GeqoTourSpec.v ===== *)
(** Tours stay tours: the random initial tours and the children of the edge recombination
    crossover visit every relation exactly once, no index leaves its array and none of
    the errors of geqo_erx.c is raised. *)
From stdpp Require Import list.
From S2P Require Import Prelude Float64 Double PlanTypes MergeKeys JoinPath BuildRel GeqoRandom GeqoTour.
Open Scope Z_scope.

(** ** Arrays and loops *)

Lemma array_at_ok {A} (l : list A) (i : Z) x : 0 <= i -> l !! Z.to_nat i = Some x -> array_at l i = Ok x.
Proof. intros Hi E. unfold array_at. rewrite (proj2 (Z.ltb_ge i 0) Hi), E. reflexivity. Qed.

Lemma array_put_ok {A} (l : list A) (i : Z) x : 0 <= i -> (Z.to_nat i < length l)%nat -> array_put l i x = Ok (<[Z.to_nat i := x]> l).
Proof. intros Hi L. unfold array_put. destruct (lookup_lt_is_Some_2 l _ L) as [y E]. rewrite (array_at_ok l i y Hi E). reflexivity. Qed.

(** A loop over consecutive numbers that keeps an invariant. *)
Lemma for_each_seqZ {S} (Inv : Z -> S -> Prop) (body : Z -> S -> result S) lo n :
  (forall i st, lo <= i < lo + n -> Inv i st -> exists st', body i st = Ok st' /\ Inv (i + 1) st') ->
  forall st, 0 <= n -> Inv lo st -> exists st', for_each (seqZ lo n) body st = Ok st' /\ Inv (lo + n) st'.
Proof.
  intros B st Hn. revert lo st B. pattern n. apply natlike_ind; [|clear n Hn; intros n Hn IH|exact Hn]; intros lo st B I.
  { exists st. rewrite seqZ_nil by lia. split; [reflexivity|]. replace (lo + 0) with lo by lia. exact I. }
  rewrite seqZ_cons by lia. cbn [for_each]. destruct (B lo st ltac:(lia) I) as (st1 & E & I1). unfold andthen. rewrite E. cbn [rbind].
  replace (Z.pred (Z.succ n)) with n by lia. replace (Z.succ lo) with (lo + 1) by lia.
  destruct (IH (lo + 1) st1) as (st2 & E2 & I2); [intros i st' Hi; apply B; lia|exact I1|]. exists st2. split; [exact E2|].
  replace (lo + Z.succ n) with (lo + 1 + n) by lia. exact I2.
Qed.

(** How many of the numbers from [i] on pass the test. *)
Fixpoint hits (n : nat) (i : Z) (P : Z -> bool) : Z :=
  match n with O => 0 | S n => (if P i then 1 else 0) + hits n (i + 1) P end.

Lemma hits_snoc n : forall i P, hits (S n) i P = hits n i P + (if P (i + Z.of_nat n)%Z then 1 else 0).
Proof.
  induction n as [|n IH]; intros i P; [cbn [hits]; replace (i + Z.of_nat 0) with i by lia; lia|].
  change (hits (S (S n)) i P) with ((if P i then 1 else 0) + hits (S n) (i + 1) P). rewrite IH. cbn [hits].
  replace (i + Z.of_nat (S n)) with (i + 1 + Z.of_nat n) by lia. lia.
Qed.

Lemma hits_none n i P : (forall j, i <= j < i + Z.of_nat n -> P j = false) -> hits n i P = 0.
Proof.
  revert i. induction n as [|n IH]; intros i N; cbn [hits]; [reflexivity|]. rewrite (N i) by lia. rewrite IH; [reflexivity|]. intros j Hj. apply N. lia.
Qed.

Lemma hits_range n i P : 0 <= hits n i P <= Z.of_nat n.
Proof. revert i. induction n as [|n IH]; intros i; cbn [hits]; [lia|]. specialize (IH (i + 1)). case_match; lia. Qed.

Lemma hits_pos n i P : (exists j, i <= j < i + Z.of_nat n /\ P j = true) -> 0 < hits n i P.
Proof.
  revert i. induction n as [|n IH]; intros i (j & Hj & Ej); cbn [hits]; [lia|]. pose proof (hits_range n (i + 1) P).
  destruct (decide (j = i)) as [-> |N]; [rewrite Ej; lia|]. assert (0 < hits n (i + 1) P) by (apply IH; exists j; split; [lia|exact Ej]). case_match; lia.
Qed.

Section loops.
Context (test : Z -> result bool) (P : Z -> bool).

Lemma first_index_ok n : forall i, (forall j, i <= j < i + Z.of_nat n -> test j = Ok (P j)) ->
  (exists j, first_index n i test = Ok (Some j) /\ i <= j < i + Z.of_nat n /\ P j = true)
  \/ (first_index n i test = Ok None /\ forall j, i <= j < i + Z.of_nat n -> P j = false).
Proof.
  induction n as [|n IH]; intros i T; cbn [first_index]; [right; split; [reflexivity|lia]|]. rewrite (T i) by lia. cbn [rbind].
  destruct (P i) eqn:Pi; [left; exists i; split_and!; [reflexivity|lia|lia|exact Pi]|].
  destruct (IH (i + 1)) as [(j & E & Hj & Pj)|[E N]]; [intros j Hj; apply T; lia|left; exists j; split_and!; [exact E|lia|lia|exact Pj]|].
  right. split; [exact E|]. intros j Hj. destruct (decide (j = i)) as [-> |]; [exact Pi|apply N; lia].
Qed.

Lemma count_index_ok n : forall i c, (forall j, i <= j < i + Z.of_nat n -> test j = Ok (P j)) -> count_index n i test c = Ok (c + hits n i P).
Proof.
  induction n as [|n IH]; intros i c T; cbn [count_index hits]; [f_equal; lia|]. rewrite (T i) by lia. cbn [rbind].
  rewrite IH by (intros j Hj; apply T; lia). f_equal. destruct (P i); lia.
Qed.

(** The loop finds a number if [decision] is below the number of candidates. *)
Lemma counted_index_ok n : forall i count decision, (forall j, i <= j < i + Z.of_nat n -> test j = Ok (P j)) ->
  count = hits n i P -> 0 <= decision < count ->
  exists j, counted_index n i test count decision = Ok (Some j) /\ i <= j < i + Z.of_nat n /\ P j = true.
Proof.
  induction n as [|n IH]; intros i count decision T Ec Hd; cbn [counted_index hits] in *; [lia|]. rewrite (T i) by lia. cbn [rbind].
  destruct (P i) eqn:Pi.
  - destruct (Z.eqb_spec (count - 1) decision) as [E|N]; [exists i; split_and!; [reflexivity|lia|lia|exact Pi]|].
    destruct (IH (i + 1) (count - 1) decision) as (j & E & Hj & Pj); [intros j Hj; apply T; lia|lia|lia|]. exists j. split_and!; [exact E|lia|lia|exact Pj].
  - destruct (IH (i + 1) count decision) as (j & E & Hj & Pj); [intros j Hj; apply T; lia|lia|lia|]. exists j. split_and!; [exact E|lia|lia|exact Pj].
Qed.
End loops.

(** ** Tours *)

(** The first [n] elements of the array are the numbers from 1 to [n] in some order. *)
Definition is_tour (n : Z) (t : list Gene) : Prop := take (Z.to_nat n) t ≡ₚ seqZ 1 n.

Lemma tour_of_nodup n t : 0 <= n -> (Z.to_nat n <= length t)%nat -> NoDup (take (Z.to_nat n) t) ->
  (forall x, x ∈ take (Z.to_nat n) t -> 1 <= x <= n) -> is_tour n t.
Proof.
  intros Hn L N R. apply submseteq_length_Permutation.
  - apply NoDup_submseteq; [exact N|]. intros x Hx. apply elem_of_seqZ. specialize (R x Hx). lia.
  - rewrite length_take, length_seqZ. lia.
Qed.

Section tour.
Context (n : Z) (t : list Gene) (Ht : is_tour n t).

Lemma tour_length : (Z.to_nat n <= length t)%nat.
Proof. pose proof (Permutation_length Ht) as E. rewrite length_take, length_seqZ in E. lia. Qed.

Lemma tour_nodup : NoDup (take (Z.to_nat n) t).
Proof. rewrite Ht. apply NoDup_seqZ. Qed.

Lemma in_tour i c : 0 <= i < n -> t !! Z.to_nat i = Some c -> c ∈ take (Z.to_nat n) t.
Proof. intros Hi E. apply (list_elem_of_lookup_2 _ (Z.to_nat i)). rewrite lookup_take_lt by lia. exact E. Qed.

Lemma tour_lookup i : 0 <= i < n -> exists c, t !! Z.to_nat i = Some c /\ 1 <= c <= n.
Proof.
  intros Hi. pose proof tour_length as L. destruct (lookup_lt_is_Some_2 t (Z.to_nat i)) as [c E]; [lia|]. exists c. split; [exact E|].
  assert (c ∈ seqZ 1 n) as I; [|apply elem_of_seqZ in I; lia]. rewrite <- Ht. exact (in_tour i c Hi E).
Qed.

Lemma tour_inj i j c : 0 <= i < n -> 0 <= j < n -> t !! Z.to_nat i = Some c -> t !! Z.to_nat j = Some c -> i = j.
Proof.
  intros Hi Hj Ei Ej. apply Z2Nat.inj; [lia..|]. eapply (NoDup_lookup _ _ _ c tour_nodup); rewrite lookup_take_lt by lia; assumption.
Qed.

(** Neighbours in the circular tour. *)
Definition linked (a b : Gene) : Prop :=
  exists i, 0 <= i < n /\ t !! Z.to_nat i = Some a /\ t !! Z.to_nat (Z.rem (i + 1) n) = Some b.

Lemma linked_ne a b : 2 <= n -> linked a b -> a <> b.
Proof.
  intros N2 (i & Hi & Ea & Eb) ->. rewrite Z.rem_mod_nonneg in Eb by lia. pose proof (Z.mod_pos_bound (i + 1) n ltac:(lia)).
  pose proof (tour_inj i ((i + 1) mod n) b Hi ltac:(lia) Ea Eb) as E. destruct (decide (i + 1 = n)) as [En|Nn].
  - rewrite En, Z.mod_same in E by lia. lia.
  - rewrite Z.mod_small in E by lia. lia.
Qed.

(** A city has at most two neighbours. *)
Lemma linked_two c : exists l, (length l <= 2)%nat /\ forall x, linked c x \/ linked x c -> x ∈ l.
Proof.
  assert (forall c, exists l, (length l <= 1)%nat /\ forall x, linked c x -> x ∈ l) as F.
  { intros c0. destruct (decide (c0 ∈ take (Z.to_nat n) t)) as [I|N].
    - apply list_elem_of_lookup in I as [i Ei]. rewrite lookup_take_Some in Ei. destruct Ei as [Ei Li].
      exists (match t !! Z.to_nat (Z.rem (Z.of_nat i + 1) n) with Some x => [x] | None => [] end). split; [case_match; cbn; lia|].
      intros x (j & Hj & Ec & Ex). assert (j = Z.of_nat i) as -> by (apply (tour_inj j (Z.of_nat i) c0); [lia|lia|exact Ec|rewrite Nat2Z.id; exact Ei]).
      rewrite Ex. left.
    - exists []. split; [cbn; lia|]. intros x (j & Hj & Ec & _). destruct N. exact (in_tour j c0 Hj Ec). }
  assert (exists l, (length l <= 1)%nat /\ forall x, linked x c -> x ∈ l) as (l2 & L2 & F2).
  { destruct (decide (c ∈ take (Z.to_nat n) t)) as [I|N].
    - apply list_elem_of_lookup in I as [i Ei]. rewrite lookup_take_Some in Ei. destruct Ei as [Ei Li].
      exists (match t !! Z.to_nat ((Z.of_nat i - 1) mod n) with Some x => [x] | None => [] end). split; [case_match; cbn; lia|].
      intros x (j & Hj & Ex & Ec). rewrite Z.rem_mod_nonneg in Ec by lia. pose proof (Z.mod_pos_bound (j + 1) n ltac:(lia)).
      assert ((j + 1) mod n = Z.of_nat i) as E by (apply (tour_inj _ (Z.of_nat i) c); [lia|lia|exact Ec|rewrite Nat2Z.id; exact Ei]).
      assert ((Z.of_nat i - 1) mod n = j) as ->; [|rewrite Ex; left].
      rewrite <- E, Zminus_mod_idemp_l. replace (j + 1 - 1) with j by lia. apply Z.mod_small. lia.
    - exists []. split; [cbn; lia|]. intros x (j & Hj & _ & Ec). rewrite Z.rem_mod_nonneg in Ec by lia. pose proof (Z.mod_pos_bound (j + 1) n ltac:(lia)).
      destruct N. apply (in_tour _ c) in Ec; [exact Ec|lia]. }
  destruct (F c) as (l1 & L1 & F1). exists (l1 ++ l2). split; [rewrite length_app; lia|].
  intros x [L|L]; apply elem_of_app; [left; apply F1, L|right; apply F2, L].
Qed.
End tour.

(** ** Random tours *)

(** An element is replaced by another and appended. *)
Lemma insert_snoc {A} (l : list A) j x g : l !! j = Some g -> <[j := x]> l ++ [g] ≡ₚ x :: l.
Proof.
  intros E. rewrite <- (take_drop_middle l j g E) at 1. rewrite insert_app_r_alt by (rewrite length_take; lia).
  rewrite length_take_le by (apply lookup_lt_Some in E; lia). rewrite Nat.sub_diag. cbn [insert list_insert].
  rewrite <- (take_drop_middle l j g E) at 3. solve_Permutation.
Qed.

Lemma take_S_insert {A} (l : list A) i x : (i < length l)%nat -> take (S i) (<[i := x]> l) = take i l ++ [x].
Proof.
  intros L. rewrite (take_S_r _ _ x) by (apply list_lookup_insert_eq, L). rewrite take_insert_ge by lia. reflexivity.
Qed.

Lemma init_tour_ok tour n s : 1 <= n < 2 ^ 31 -> (Z.to_nat n <= length tour)%nat -> rand_ok s ->
  exists tour' s', init_tour tour n s = Ok (tour', s') /\ is_tour n tour' /\ length tour' = length tour /\ rand_ok s'.
Proof.
  intros Hn L Rs. unfold init_tour. rewrite (proj2 (Z.ltb_lt 0 n)) by lia. rewrite array_put_ok by lia. cbn [rbind].
  destruct (for_each_seqZ (fun i '(t, s) => take (Z.to_nat i) t ≡ₚ seqZ 1 i /\ length t = length tour /\ rand_ok s)
    (fun i '(tour, rand) =>
      let! (j, rand) := geqo_randint i 0 rand in
      let! tour := if negb (i =? j) then let! g := array_at tour j in array_put tour i g else Ok tour in
      let! tour := array_put tour j (i + 1) in
      Ok (tour, rand)) 1 (n - 1)) with (st := (<[Z.to_nat 0 := 1]> tour, s)) as ([t s'] & E & Pt & Lt & Rt).
  - intros i [t s0] Hi (Pt & Lt & R0). destruct (randint_range i 0 s0) as (j & s1 & -> & Hj & R1); [lia|lia|]. cbn [rbind].
    assert (seqZ 1 (i + 1) = seqZ 1 i ++ [i + 1]) as Es by (rewrite seqZ_app by lia; f_equal; rewrite seqZ_cons by lia; rewrite seqZ_nil by lia; f_equal; lia).
    replace (Z.to_nat (i + 1)) with (S (Z.to_nat i)) by lia. destruct (Z.eqb_spec i j) as [-> |N]; cbn [negb].
    + cbn [rbind]. rewrite array_put_ok by lia. cbn [rbind]. eexists (_, _). split; [reflexivity|]. rewrite length_insert. split_and!; [|exact Lt|exact R1].
      rewrite take_S_insert by lia. rewrite Es, Pt. reflexivity.
    + destruct (lookup_lt_is_Some_2 t (Z.to_nat j)) as [g Eg]; [lia|]. rewrite (array_at_ok t j g) by (lia || exact Eg). cbn [rbind].
      rewrite array_put_ok by lia. cbn [rbind]. rewrite array_put_ok by (rewrite ?length_insert; lia). cbn [rbind].
      eexists (_, _). split; [reflexivity|]. rewrite !length_insert. split_and!; [|exact Lt|exact R1].
      rewrite take_insert_lt by lia. rewrite take_S_insert by lia. rewrite insert_app_l by (rewrite length_take; lia).
      rewrite insert_snoc by (rewrite lookup_take_lt by lia; exact Eg). rewrite Es, Pt. apply Permutation_cons_append.
  - lia.
  - split_and!; [|apply length_insert|exact Rs]. destruct tour; [cbn in L; lia|]. reflexivity.
  - exists t, s'. split_and!; [exact E| |exact Lt|exact Rt]. unfold is_tour. replace (1 + (n - 1)) with n in Pt by lia. exact Pt.
Qed.

(** ** The edge table *)

(** The cities the unused edges lead to. *)
Definition nb (e : Edge) : list Gene := take (Z.to_nat (unused_edges e)) (map Z.abs (edge_list e)).
Definition nbr (T : list Edge) (c : Gene) : list Gene := match T !! Z.to_nat c with Some e => nb e | None => [] end.

(** Memory for the edges of [n] cities. *)
Record table_shape (n : Z) (T : list Edge) : Prop := {
  ts_length : length T = Z.to_nat (n + 1);
  ts_entry : forall c, 1 <= c <= n -> exists e, T !! Z.to_nat c = Some e /\ length (edge_list e) = 4%nat;
}.

Definition mutual (n : Z) (T : list Edge) : Prop :=
  forall c x, 1 <= c <= n -> 1 <= x <= n -> x ∈ nbr T c -> c ∈ nbr T x.

Lemma nbr_entry T c e : T !! Z.to_nat c = Some e -> nbr T c = nb e.
Proof. intros E. unfold nbr. rewrite E. reflexivity. Qed.

Lemma nbr_insert T c e x : 0 <= c -> 0 <= x -> (Z.to_nat c < length T)%nat -> nbr (<[Z.to_nat c := e]> T) x = if decide (x = c) then nb e else nbr T x.
Proof.
  intros Hc Hx L. unfold nbr. destruct (decide (x = c)) as [-> |N]; [rewrite list_lookup_insert_eq by exact L; reflexivity|].
  rewrite list_lookup_insert_ne by lia. reflexivity.
Qed.

Lemma abs_insert l i x : map Z.abs (<[i := x]> l) = <[i := Z.abs x]> (map Z.abs l).
Proof. exact (list_fmap_insert Z.abs l i x). Qed.

Lemma nb_length e : length (edge_list e) = 4%nat -> 0 <= unused_edges e <= 4 -> length (nb e) = Z.to_nat (unused_edges e).
Proof. intros L H. unfold nb. rewrite length_take, length_map. lia. Qed.

Lemma nb_lookup e i : 0 <= i < unused_edges e -> nb e !! Z.to_nat i = Z.abs <$> edge_list e !! Z.to_nat i.
Proof. intros Hi. unfold nb. rewrite lookup_take_lt by lia. apply list_lookup_fmap. Qed.

(** The test of the loops over an edge list. *)
Lemma edge_test e city i : length (edge_list e) = 4%nat -> 0 <= i < 4 ->
  exists g, edge_list e !! Z.to_nat i = Some g /\ array_at (edge_list e) i = Ok g
    /\ (let! g := array_at (edge_list e) i in Ok (Z.abs g =? city)) = Ok (bool_decide (map Z.abs (edge_list e) !! Z.to_nat i = Some city)).
Proof.
  intros L Hi. destruct (lookup_lt_is_Some_2 (edge_list e) (Z.to_nat i)) as [g E]; [lia|]. exists g.
  rewrite (array_at_ok _ _ g) by (lia || exact E). split_and!; [exact E|reflexivity|]. cbn [rbind]. rewrite list_lookup_fmap, E. cbn [fmap option_fmap option_map].
  f_equal. destruct (Z.eqb_spec (Z.abs g) city) as [-> |N]; symmetry; [apply bool_decide_true; reflexivity|apply bool_decide_false; congruence].
Qed.

(** Searching an edge list for a city. *)
Lemma find_edge e city k : length (edge_list e) = 4%nat -> 0 <= k <= 4 ->
  let search := first_index (Z.to_nat k) 0 (fun i => let! g := array_at (edge_list e) i in Ok (Z.abs g =? city)) in
  (exists i, search = Ok (Some i) /\ 0 <= i < k /\ map Z.abs (edge_list e) !! Z.to_nat i = Some city)
  \/ (search = Ok None /\ city ∉ take (Z.to_nat k) (map Z.abs (edge_list e))).
Proof.
  intros L Hk search. destruct (first_index_ok (fun i => let! g := array_at (edge_list e) i in Ok (Z.abs g =? city))
    (fun i => bool_decide (map Z.abs (edge_list e) !! Z.to_nat i = Some city)) (Z.to_nat k) 0) as [(i & E & Hi & P)|[E N]].
  - intros j Hj. destruct (edge_test e city j L ltac:(lia)) as (g & _ & _ & ->). reflexivity.
  - left. exists i. split_and!; [exact E|lia|lia|]. apply bool_decide_eq_true in P. exact P.
  - right. split; [exact E|]. intros I. apply list_elem_of_lookup in I as [i Ei]. rewrite lookup_take_Some in Ei. destruct Ei as [Ei Li].
    specialize (N (Z.of_nat i) ltac:(lia)). apply bool_decide_eq_false in N. rewrite Nat2Z.id in N. done.
Qed.

Section build.
Context (n : Z) (near : Gene -> Gene -> Prop).
Context (Near : forall c x, near c x -> 1 <= c <= n /\ 1 <= x <= n).
Context (Four : forall c, exists l, (length l <= 4)%nat /\ forall x, near c x -> x ∈ l).

Record built (T : list Edge) : Prop := {
  bt_shape : table_shape n T;
  bt_edges : forall c e, 1 <= c <= n -> T !! Z.to_nat c = Some e ->
    0 <= unused_edges e <= 4 /\ total_edges e = unused_edges e /\ NoDup (nb e) /\ forall x, x ∈ nb e -> near c x;
}.

Lemma shape_insert T c e : table_shape n T -> 0 <= c -> length (edge_list e) = 4%nat -> table_shape n (<[Z.to_nat c := e]> T).
Proof.
  intros [L En] Hc Le. split; [rewrite length_insert; exact L|]. intros x Hx. destruct (decide (x = c)) as [-> |N].
  - destruct (En c Hx) as (e' & E' & _). exists e. rewrite list_lookup_insert_eq by (eapply lookup_lt_Some, E'). auto.
  - rewrite list_lookup_insert_ne by lia. exact (En x Hx).
Qed.

Lemma built_insert T c e : built T -> 1 <= c <= n -> length (edge_list e) = 4%nat ->
  0 <= unused_edges e <= 4 -> total_edges e = unused_edges e -> NoDup (nb e) -> (forall x, x ∈ nb e -> near c x) ->
  built (<[Z.to_nat c := e]> T).
Proof.
  intros [Sh Ed] Hc Le Hu Ht Nd Nr. split; [apply shape_insert; [exact Sh|lia|exact Le]|]. intros x e' Hx E.
  destruct (decide (x = c)) as [-> |N].
  - rewrite list_lookup_insert_eq in E; [injection E as <-; auto|]. rewrite (ts_length _ _ Sh). lia.
  - rewrite list_lookup_insert_ne in E by lia. exact (Ed x e' Hx E).
Qed.

(** Registering an edge: the index into edge_list[4] stays below 4. *)
Lemma gimme_edge_ok a b T : built T -> near a b ->
  exists T' k, gimme_edge a b T = Ok (T', k) /\ built T'
    /\ forall c x, 1 <= c <= n -> x ∈ nbr T' c <-> x ∈ nbr T c \/ (c = a /\ x = b).
Proof.
  intros Bt Ab. destruct (Near a b Ab) as [Ha Hb]. pose proof Bt as [[L En] Ed]. destruct (En a Ha) as (e & Ee & Le).
  destruct (Ed a e Ha Ee) as (Hu & Ht & Nd & Nr). unfold gimme_edge. rewrite (array_at_ok T a e) by (lia || exact Ee). cbn [rbind].
  assert (Z.to_nat a < length T)%nat as La by (rewrite L; lia).
  assert (forall e', nb e' = nb e \/ nb e' = nb e ++ [b] -> b ∈ nb e' -> forall c x, 1 <= c <= n -> x ∈ nbr (<[Z.to_nat a := e']> T) c <-> x ∈ nbr T c \/ (c = a /\ x = b)) as Up.
  { intros e' Eq Ib c x Hc. rewrite nbr_insert by lia. destruct (decide (c = a)) as [-> |N]; [|intuition congruence].
    rewrite (nbr_entry T a e Ee). destruct Eq as [Eq|Eq]; rewrite Eq in *.
    - split; [auto|]. intros [?|[_ ->]]; assumption.
    - rewrite elem_of_app, list_elem_of_singleton. intuition. }
  destruct (find_edge e b (total_edges e) Le ltac:(lia)) as [(i & -> & Hi & Ei)|[-> Nb]]; cbn [rbind].
  - rewrite array_put_ok by lia. cbn [rbind]. rewrite array_put_ok by lia. cbn [rbind].
    assert (map Z.abs (<[Z.to_nat i := 0 - b]> (edge_list e)) = map Z.abs (edge_list e)) as Em.
    { rewrite abs_insert. apply list_insert_id. rewrite Ei. f_equal. lia. }
    assert (nb (set_edge_list e (<[Z.to_nat i := 0 - b]> (edge_list e))) = nb e) as En' by (unfold nb; cbn; rewrite Em; reflexivity).
    eexists _, 0. split; [reflexivity|]. split; [apply built_insert; cbn; rewrite ?En'; auto; rewrite length_insert; exact Le|].
    apply Up; [auto|]. rewrite En'. apply (list_elem_of_lookup_2 _ (Z.to_nat i)). unfold nb. rewrite lookup_take_lt by lia. exact Ei.
  - rewrite Ht in Nb. fold (nb e) in Nb. destruct (Four a) as (l & Ll & Fl).
    assert (unused_edges e < 4) as L4.
    { assert (length (nb e ++ [b]) <= length l)%nat as Lx.
      { apply submseteq_length, NoDup_submseteq.
        - apply NoDup_app. split_and!; [exact Nd|intros x Hx Hs; apply list_elem_of_singleton in Hs as ->; done|apply NoDup_singleton].
        - intros x Hx. apply Fl. apply elem_of_app in Hx as [Hx|Hx]; [apply Nr, Hx|apply list_elem_of_singleton in Hx as ->; exact Ab]. }
      rewrite length_app, nb_length in Lx by (exact Le || lia). cbn in Lx. lia. }
    rewrite Ht. rewrite array_put_ok by lia. cbn [rbind]. rewrite array_put_ok by lia. cbn [rbind].
    set (e' := mkEdge _ _ _). assert (nb e' = nb e ++ [b]) as Eb.
    { unfold nb, e'. cbn [edge_list unused_edges]. replace (Z.to_nat (unused_edges e + 1)) with (S (Z.to_nat (unused_edges e))) by lia.
      rewrite abs_insert, take_S_insert by (rewrite length_map; lia). rewrite Z.abs_eq by lia. reflexivity. }
    eexists _, 1. split; [reflexivity|]. split.
    + apply built_insert; cbn [edge_list unused_edges total_edges e']; auto; [rewrite length_insert; exact Le|lia| |].
      * rewrite Eb. apply NoDup_app. split_and!; [exact Nd|intros x Hx Hs; apply list_elem_of_singleton in Hs as ->; done|apply NoDup_singleton].
      * rewrite Eb. intros x Hx. apply elem_of_app in Hx as [Hx|Hx]; [apply Nr, Hx|apply list_elem_of_singleton in Hx as ->; exact Ab].
    + apply Up; [auto|]. rewrite Eb. apply elem_of_app. right. left.
Qed.

(** Both directions of an edge. *)
Lemma gimme_edges_ok a b T : built T -> mutual n T -> near a b -> near b a ->
  exists T' k, (let! (T1, k1) := gimme_edge a b T in let! (T2, _) := gimme_edge b a T1 in Ok (T2, k1)) = Ok (T', k) /\ built T' /\ mutual n T'.
Proof.
  intros Bt Mt Ab Ba. destruct (gimme_edge_ok a b T Bt Ab) as (T1 & k1 & -> & B1 & N1). cbn [rbind].
  destruct (gimme_edge_ok b a T1 B1 Ba) as (T2 & k2 & -> & B2 & N2). cbn [rbind]. exists T2, k1. split_and!; [reflexivity|exact B2|].
  intros c x Hc Hx. rewrite !N2, !N1 by assumption. intros [[I|[-> ->]]|[-> ->]]; [left; left; exact (Mt c x Hc Hx I)|auto..].
Qed.
End build.

(** Neighbours in one of the two tours. *)
Definition near_in (n : Z) (t1 t2 : list Gene) (c x : Gene) : Prop :=
  (linked n t1 c x \/ linked n t1 x c) \/ (linked n t2 c x \/ linked n t2 x c).

Lemma linked_range n t c x : 1 <= n -> is_tour n t -> linked n t c x -> 1 <= c <= n /\ 1 <= x <= n.
Proof.
  intros Hn Ht (i & Hi & Ec & Ex). rewrite Z.rem_mod_nonneg in Ex by lia. pose proof (Z.mod_pos_bound (i + 1) n ltac:(lia)).
  destruct (tour_lookup n t Ht i Hi) as (c' & Ec' & ?). destruct (tour_lookup n t Ht ((i + 1) mod n) ltac:(lia)) as (x' & Ex' & ?).
  simplify_eq. auto.
Qed.

Lemma near_range n t1 t2 c x : 1 <= n -> is_tour n t1 -> is_tour n t2 -> near_in n t1 t2 c x -> 1 <= c <= n /\ 1 <= x <= n.
Proof.
  intros Hn H1 H2 [[L|L]|[L|L]]; [destruct (linked_range n t1 _ _ Hn H1 L)|destruct (linked_range n t1 _ _ Hn H1 L)
    |destruct (linked_range n t2 _ _ Hn H2 L)|destruct (linked_range n t2 _ _ Hn H2 L)]; auto.
Qed.

Lemma near_four n t1 t2 c : is_tour n t1 -> is_tour n t2 -> exists l, (length l <= 4)%nat /\ forall x, near_in n t1 t2 c x -> x ∈ l.
Proof.
  intros H1 H2. destruct (linked_two n t1 H1 c) as (l1 & L1 & F1), (linked_two n t2 H2 c) as (l2 & L2 & F2).
  exists (l1 ++ l2). split; [rewrite length_app; lia|]. intros x [L|L]; apply elem_of_app; [left; apply F1, L|right; apply F2, L].
Qed.

Lemma clear_table_ok n T : 0 <= n -> table_shape n T ->
  exists T', for_each (seqZ 1 n) (fun i T => let! e := array_at T i in array_put T i (mkEdge (edge_list e) 0 0)) T = Ok T'
    /\ table_shape n T' /\ forall c e, 1 <= c <= n -> T' !! Z.to_nat c = Some e -> unused_edges e = 0 /\ total_edges e = 0.
Proof.
  intros Hn Sh.
  destruct (for_each_seqZ (fun i T => table_shape n T /\ forall c e, 1 <= c < i -> T !! Z.to_nat c = Some e -> unused_edges e = 0 /\ total_edges e = 0)
    (fun i T => let! e := array_at T i in array_put T i (mkEdge (edge_list e) 0 0)) 1 n) with (st := T) as (T' & E & Sh' & Z0).
  - intros i T1 Hi [S1 Z1]. destruct (ts_entry _ _ S1 i ltac:(lia)) as (e & Ee & Le). rewrite (array_at_ok T1 i e) by (lia || exact Ee). cbn [rbind].
    pose proof (ts_length _ _ S1) as L1. rewrite array_put_ok by lia. eexists. split; [reflexivity|]. split; [apply shape_insert; [exact S1|lia|exact Le]|].
    intros c e' Hc Ec. destruct (decide (c = i)) as [-> |N].
    + rewrite list_lookup_insert_eq in Ec by lia. injection Ec as <-. auto.
    + rewrite list_lookup_insert_ne in Ec by lia. apply (Z1 c e'); [lia|exact Ec].
  - exact Hn.
  - split; [exact Sh|]. intros. lia.
  - exists T'. split_and!; [exact E|exact Sh'|]. intros c e Hc. apply Z0. lia.
Qed.

Lemma gimme_edge_table_ok n t1 t2 T : 1 <= n -> is_tour n t1 -> is_tour n t2 -> table_shape n T ->
  exists T' k, gimme_edge_table t1 t2 n T = Ok (T', k) /\ built n (near_in n t1 t2) T' /\ mutual n T'.
Proof.
  intros Hn H1 H2 Sh. unfold gimme_edge_table. destruct (clear_table_ok n T ltac:(lia) Sh) as (T0 & -> & Sh0 & Z0). cbn [rbind].
  assert (forall c, 1 <= c <= n -> nbr T0 c = []) as Empty.
  { intros c Hc. destruct (ts_entry _ _ Sh0 c Hc) as (e & Ee & _). rewrite (nbr_entry _ _ _ Ee). unfold nb. destruct (Z0 c e Hc Ee) as [-> _]. reflexivity. }
  pose proof (near_range n t1 t2) as Nr. pose proof (fun c => near_four n t1 t2 c H1 H2) as Nf.
  match goal with |- context [for_each (seqZ 0 n) ?b _] => destruct (for_each_seqZ (fun _ '(T, k) => built n (near_in n t1 t2) T /\ mutual n T) b 0 n)
    with (st := (T0, 0)) as ([T' k] & E & Bt & Mt) end.
  - intros i [T1 k] Hi [B1 M1]. pose proof (Z.mod_pos_bound (i + 1) n ltac:(lia)) as Hm.
    assert (forall t, is_tour n t -> exists a b, array_at t i = Ok a /\ array_at t (Z.rem (i + 1) n) = Ok b /\ linked n t a b) as Get.
    { intros t Ht. destruct (tour_lookup n t Ht i ltac:(lia)) as (a & Ea & _).
      destruct (tour_lookup n t Ht ((i + 1) mod n) ltac:(lia)) as (b & Eb & _). rewrite <- Z.rem_mod_nonneg in * by lia. exists a, b.
      split_and!; [apply array_at_ok; [lia|exact Ea]|apply array_at_ok; [lia|exact Eb]|]. exists i. split_and!; [lia|lia|exact Ea|exact Eb]. }
    destruct (Get t1 H1) as (a1 & b1 & -> & -> & L1), (Get t2 H2) as (a2 & b2 & -> & -> & L2). cbn [rbind].
    destruct (gimme_edges_ok n (near_in n t1 t2) (fun c x => Nr c x Hn H1 H2) Nf a1 b1 T1 B1 M1) as (T2 & k1 & E2 & B2 & M2); [unfold near_in; auto..|].
    destruct (gimme_edges_ok n (near_in n t1 t2) (fun c x => Nr c x Hn H1 H2) Nf a2 b2 T2 B2 M2) as (T3 & k2 & E3 & B3 & M3); [unfold near_in; auto..|].
    apply rbind_ok in E2 as ([Ta ka] & -> & E2). cbn [rbind]. apply rbind_ok in E2 as ([Tb kb] & -> & E2). cbn [rbind]. injection E2 as <- <-.
    apply rbind_ok in E3 as ([Tc kc] & -> & E3). cbn [rbind]. apply rbind_ok in E3 as ([Td kd] & -> & E3). cbn [rbind]. injection E3 as <- <-.
    eexists (_, _). split; [reflexivity|]. auto.
  - lia.
  - split.
    + split; [exact Sh0|]. intros c e Hc Ee. pose proof (Empty c Hc) as En. rewrite (nbr_entry _ _ _ Ee) in En. destruct (Z0 c e Hc Ee) as [-> ->].
      rewrite En. split_and!; [lia|lia|reflexivity|constructor|]. intros x Hx. inversion Hx.
    + intros c x Hc Hx I. rewrite (Empty c Hc) in I. inversion I.
  - exists T', k. auto.
Qed.

(** ** Taking a city out of the table *)

Section removal.
Context (n : Z).

(** The table when the cities of [done] are in the tour: the lists of the others hold each
    a different city that is not in the tour, and are mutual. *)
Record tour_table (done : Gene -> Prop) (T : list Edge) : Prop := {
  tt_shape : table_shape n T;
  tt_done : forall c e, 1 <= c <= n -> T !! Z.to_nat c = Some e -> (unused_edges e = -1 <-> done c);
  tt_edges : forall c e, 1 <= c <= n -> T !! Z.to_nat c = Some e -> ~ done c ->
    0 <= unused_edges e <= 4 /\ NoDup (nb e) /\ forall x, x ∈ nb e -> 1 <= x <= n /\ x <> c /\ ~ done x;
  tt_mutual : forall c x, 1 <= c <= n -> 1 <= x <= n -> ~ done c -> ~ done x -> x ∈ nbr T c -> c ∈ nbr T x;
}.

(** The entry of a city from whose list [g] was deleted. *)
Record without (g : Gene) (e e' : Edge) : Prop := {
  wo_length : length (edge_list e') = 4%nat;
  wo_unused : unused_edges e' = unused_edges e - 1;
  wo_edges : nb e ≡ₚ g :: nb e';
}.

(** The last edge takes the place of the one deleted. *)
Lemma swap_last (l : list Gene) j k : (j <= k)%nat -> (k < length l)%nat -> forall g y, l !! j = Some g -> l !! k = Some y ->
  take (S k) l ≡ₚ g :: take k (<[j := y]> l).
Proof.
  intros Hj Hk g y Eg Ey. rewrite (take_S_r _ _ y Ey). destruct (decide (j = k)) as [-> |N].
  - simplify_eq. rewrite take_insert_ge by lia. symmetry. apply Permutation_cons_append.
  - rewrite take_insert_lt by lia. rewrite <- (insert_snoc (<[j := y]> (take k l)) j g y).
    + rewrite list_insert_insert_eq, list_insert_id by (rewrite lookup_take_lt by lia; exact Eg). reflexivity.
    + apply list_lookup_insert_eq. rewrite length_take. lia.
Qed.

Lemma without_swap e g j y : length (edge_list e) = 4%nat -> 0 <= j < unused_edges e -> unused_edges e <= 4 ->
  map Z.abs (edge_list e) !! Z.to_nat j = Some g -> edge_list e !! Z.to_nat (unused_edges e - 1) = Some y ->
  without g e (mkEdge (<[Z.to_nat j := y]> (edge_list e)) (total_edges e) (unused_edges e - 1)).
Proof.
  intros Le Hj Hu Eg Ey. split; cbn; [rewrite length_insert; exact Le|reflexivity|]. unfold nb. cbn. rewrite abs_insert.
  replace (Z.to_nat (unused_edges e)) with (S (Z.to_nat (unused_edges e - 1))) by lia.
  apply (swap_last (map Z.abs (edge_list e)) (Z.to_nat j)); [lia|rewrite length_map; lia|exact Eg|].
  change (map Z.abs (edge_list e)) with (Z.abs <$> edge_list e). rewrite list_lookup_fmap, Ey. reflexivity.
Qed.

(** remove_gene deletes the gene from the lists of exactly its neighbours. *)
Lemma remove_gene_ok done T g e : tour_table done T -> 1 <= g <= n -> ~ done g -> T !! Z.to_nat g = Some e ->
  exists T', remove_gene g e T = Ok T' /\ length T' = length T
    /\ forall c, 1 <= c <= n -> exists e0 e1, T !! Z.to_nat c = Some e0 /\ T' !! Z.to_nat c = Some e1
         /\ ((c ∈ nb e /\ without g e0 e1) \/ ((c ∉ nb e) /\ e1 = e0)).
Proof.
  intros [Sh _ Ed Mu] Hg Ng Eg. destruct (Ed g e Hg Eg Ng) as (Hu & Nd & Nr).
  assert (length (edge_list e) = 4%nat) as Le by (destruct (ts_entry _ _ Sh g Hg) as (e' & E' & L'); simplify_eq; exact L').
  pose proof (ts_length _ _ Sh) as Lt. unfold remove_gene.
  match goal with |- context [for_each _ ?b _] => destruct (for_each_seqZ (fun i T' => length T' = length T
    /\ forall c, 1 <= c <= n -> exists e0 e1, T !! Z.to_nat c = Some e0 /\ T' !! Z.to_nat c = Some e1
         /\ ((c ∈ take (Z.to_nat i) (nb e) /\ without g e0 e1) \/ ((c ∉ take (Z.to_nat i) (nb e)) /\ e1 = e0))) b 0 (unused_edges e))
    with (st := T) as (T' & E & L' & R) end.
  - intros i T1 Hi (L1 & R1). destruct (lookup_lt_is_Some_2 (edge_list e) (Z.to_nat i)) as [f Ef]; [lia|].
    rewrite (array_at_ok _ _ f) by (lia || exact Ef). cbn [rbind]. set (p := Z.abs f).
    assert (nb e !! Z.to_nat i = Some p) as Ep by (rewrite nb_lookup, Ef by lia; reflexivity).
    assert (p ∈ nb e) as Ip by (eapply list_elem_of_lookup_2, Ep). destruct (Nr p Ip) as (Hp & _ & Np).
    assert (take (Z.to_nat (i + 1)) (nb e) = take (Z.to_nat i) (nb e) ++ [p]) as Et
      by (replace (Z.to_nat (i + 1)) with (S (Z.to_nat i)) by lia; apply take_S_r, Ep).
    assert (p ∉ take (Z.to_nat i) (nb e)) as Fresh.
    { intros I. apply list_elem_of_lookup in I as [i' E']. rewrite lookup_take_Some in E'. destruct E' as [E' L2].
      pose proof (NoDup_lookup _ _ _ _ Nd E' Ep). lia. }
    destruct (R1 p Hp) as (e0 & e1 & E0 & E1 & [[I _]|[_ ->]]); [done|]. rewrite (array_at_ok T1 p e0) by (lia || exact E1). cbn [rbind].
    destruct (Ed p e0 Hp E0 Np) as (Hu0 & _ & _).
    assert (length (edge_list e0) = 4%nat) as L0 by (destruct (ts_entry _ _ Sh p Hp) as (e' & E' & ?); simplify_eq; assumption).
    assert (g ∈ nb e0) as Ig by (rewrite <- (nbr_entry T p e0 E0); apply (Mu g p Hg Hp Ng Np); rewrite (nbr_entry T g e Eg); exact Ip).
    destruct (find_edge e0 g (unused_edges e0) L0 Hu0) as [(j & -> & Hj & Ej)|[_ No]]; [|done]. cbn [rbind].
    destruct (lookup_lt_is_Some_2 (edge_list e0) (Z.to_nat (unused_edges e0 - 1))) as [y Ey]; [lia|].
    rewrite (array_at_ok _ _ y) by (lia || exact Ey). cbn [rbind]. rewrite array_put_ok by lia. cbn [rbind]. rewrite array_put_ok by lia.
    eexists. split; [reflexivity|]. split; [rewrite length_insert; exact L1|]. intros c Hc. rewrite Et.
    destruct (decide (c = p)) as [-> |N].
    + eexists e0, _. split_and!; [exact E0|apply list_lookup_insert_eq; lia|]. left. split; [apply elem_of_app; right; left|].
      apply without_swap; [exact L0|lia|lia|exact Ej|exact Ey].
    + destruct (R1 c Hc) as (c0 & c1 & C0 & C1 & D). exists c0, c1. rewrite list_lookup_insert_ne by lia. split_and!; [exact C0|exact C1|].
      rewrite elem_of_app, list_elem_of_singleton. destruct D as [[? ?]|[? ?]]; [left|right]; (split; [|assumption]); intuition.
  - lia.
  - split; [reflexivity|]. intros c Hc. destruct (ts_entry _ _ Sh c Hc) as (e0 & E0 & _). exists e0, e0. split_and!; [exact E0|exact E0|].
    right. split; [|reflexivity]. intros I. inversion I.
  - exists T'. split_and!; [exact E|exact L'|]. intros c Hc. destruct (R c Hc) as (e0 & e1 & E0 & E1 & D). exists e0, e1. split_and!; [exact E0|exact E1|].
    rewrite take_ge in D; [exact D|]. rewrite nb_length by (exact Le || lia). lia.
Qed.

(** The table when the city [g] has been put into the tour. *)
Lemma tour_table_step done T T' g e : tour_table done T -> 1 <= g <= n -> ~ done g -> T !! Z.to_nat g = Some e -> length T' = length T ->
  (forall c, 1 <= c <= n -> exists e0 e1, T !! Z.to_nat c = Some e0 /\ T' !! Z.to_nat c = Some e1
         /\ ((c ∈ nb e /\ without g e0 e1) \/ ((c ∉ nb e) /\ e1 = e0))) ->
  T' !! Z.to_nat g = Some e
  /\ tour_table (fun c => c = g \/ done c) (<[Z.to_nat g := set_unused e (-1)]> T').
Proof.
  intros [Sh Dn Ed Mu] Hg Ng Eg Lt R. destruct (Ed g e Hg Eg Ng) as (Hu & Nd & Nr). pose proof (ts_length _ _ Sh) as Ls.
  assert (forall c e', 1 <= c <= n -> T !! Z.to_nat c = Some e' -> length (edge_list e') = 4%nat) as Len
    by (intros c e' Hc Ec; destruct (ts_entry _ _ Sh c Hc) as (? & E' & ?); simplify_eq; assumption).
  assert (T' !! Z.to_nat g = Some e) as Eg'.
  { destruct (R g Hg) as (e0 & e1 & E0 & E1 & [[I _]|[_ ->]]); [destruct (Nr g I) as (_ & X & _); done|congruence]. }
  split; [exact Eg'|].
  assert (forall c e1, 1 <= c <= n -> c <> g -> T' !! Z.to_nat c = Some e1 -> exists e0, T !! Z.to_nat c = Some e0
    /\ length (edge_list e1) = 4%nat /\ (~ done c -> 0 <= unused_edges e1 <= 4 /\ NoDup (nb e1) /\ forall x, x ∈ nb e1 <-> x ∈ nb e0 /\ x <> g)
    /\ (done c -> e1 = e0)) as Each.
  { intros c e1 Hc Nc E1. destruct (R c Hc) as (e0 & e1' & E0 & E1' & D). assert (e1' = e1) as -> by congruence. exists e0. split; [exact E0|].
    destruct D as [[Ic [Wl Wu We]]|[Nn ->]].
    - destruct (Nr c Ic) as (_ & _ & Nc'). destruct (Ed c e0 Hc E0 Nc') as (Hu0 & Nd0 & _). rewrite We in Nd0. apply NoDup_cons in Nd0 as [Ng0 Nd0].
      split_and!; [exact Wl| |done]. intros _. split_and!; [|rewrite Wu; lia|exact Nd0|].
      + pose proof (Permutation_length We) as Lp. rewrite nb_length in Lp by (lia || exact (Len c e0 Hc E0)). cbn in Lp. lia.
      + intros x. rewrite We, elem_of_cons. split; [intros Hx; split; [auto|congruence]|intuition].
    - split_and!; [exact (Len c e0 Hc E0)| |reflexivity]. intros Nd'. destruct (Ed c e0 Hc E0 Nd') as (Hu0 & Nd0 & _). split_and!; [lia|lia|exact Nd0|].
      intros x. split; [|tauto]. intros Hx. split; [exact Hx|]. intros ->. apply Nn. rewrite <- (nbr_entry T g e Eg).
      apply (Mu c g Hc Hg Nd' Ng). rewrite (nbr_entry T c e0 E0). exact Hx. }
  assert (Z.to_nat g < length T')%nat as Lg by (rewrite Lt, Ls; lia).
  assert (forall c, 1 <= c <= n -> c <> g -> ~ done c -> forall x, x ∈ nbr T' c <-> x ∈ nbr T c /\ x <> g) as Nb.
  { intros c Hc Nc Nd' x. destruct (R c Hc) as (e0 & e1 & E0 & E1 & _). destruct (Each c e1 Hc Nc E1) as (e0' & E0' & _ & F & _). assert (e0' = e0) as -> by congruence.
    rewrite (nbr_entry _ _ _ E1), (nbr_entry _ _ _ E0). apply F, Nd'. }
  split.
  - split; [rewrite length_insert, Lt; exact Ls|]. intros c Hc. destruct (decide (c = g)) as [-> |N].
    + eexists. split; [apply list_lookup_insert_eq, Lg|]. exact (Len g e Hg Eg).
    + destruct (R c Hc) as (e0 & e1 & E0 & E1 & _). exists e1. rewrite list_lookup_insert_ne by lia. split; [exact E1|].
      destruct (Each c e1 Hc N E1) as (_ & _ & L1 & _). exact L1.
  - intros c e1 Hc E1. destruct (decide (c = g)) as [-> |N].
    + rewrite list_lookup_insert_eq in E1 by exact Lg. injection E1 as <-. cbn. tauto.
    + rewrite list_lookup_insert_ne in E1 by lia. destruct (Each c e1 Hc N E1) as (e0 & E0 & _ & F1 & F2). split.
      * intros U. right. apply (Dn c e0 Hc E0). destruct (decide (unused_edges e0 = -1)) as [|Nu]; [assumption|].
        destruct F1 as [? _]; [rewrite <- (Dn c e0 Hc E0); exact Nu|lia].
      * intros [?|D]; [done|]. rewrite (F2 D). apply (Dn c e0 Hc E0), D.
  - intros c e1 Hc E1 D. assert (c <> g /\ ~ done c) as [N Nd'] by tauto. rewrite list_lookup_insert_ne in E1 by lia.
    destruct (Each c e1 Hc N E1) as (e0 & E0 & _ & F1 & _). destruct (F1 Nd') as (Hu1 & Nd1 & F). split_and!; [lia|lia|exact Nd1|].
    intros x Hx. apply F in Hx as [Hx Nx]. destruct (Ed c e0 Hc E0 Nd') as (_ & _ & G). destruct (G x Hx) as (? & ? & ?). tauto.
  - intros c x Hc Hx Dc Dx. assert (c <> g /\ ~ done c) as [N Nc] by tauto. assert (x <> g /\ ~ done x) as [Nx Ndx] by tauto.
    rewrite !nbr_insert by lia. rewrite !decide_False by assumption. rewrite !Nb by assumption. intros [I _]. split; [exact (Mu c x Hc Hx Nc Ndx I)|exact N].
Qed.
End removal.

(** ** Choosing the next city *)

Section candidates.
Context (e : Edge) (T : list Edge).
Context (Le : length (edge_list e) = 4%nat) (Hu : 0 < unused_edges e <= 4).
Context (Cand : forall x, x ∈ nb e -> 1 <= x /\ exists e', T !! Z.to_nat x = Some e' /\ 0 <= unused_edges e' <= 4).

(** The candidate at [i] has [m] unused edges. *)
Definition has_unused (m i : Z) : bool :=
  match edge_list e !! Z.to_nat i with
  | Some f => match T !! Z.to_nat f with Some e' => unused_edges e' =? m | None => false end
  | None => false
  end.

(** What the loop knows when it has seen the candidates below [i]. *)
Definition scanned (i m c : Z) : Prop :=
  (i = 0 /\ m = 5 /\ c = -1)
  \/ (1 <= c /\ c = hits (Z.to_nat i) 0 (has_unused m) /\ forall j m', 0 <= j < i -> m' < m -> has_unused m' j = false).

Lemma candidate i : 0 <= i < unused_edges e -> exists f, edge_list e !! Z.to_nat i = Some f /\ array_at (edge_list e) i = Ok f
  /\ Z.abs f ∈ nb e
  /\ (0 <= f -> exists e', array_at T f = Ok e' /\ 0 <= unused_edges e' <= 4 /\ forall m, has_unused m i = (unused_edges e' =? m)).
Proof.
  intros Hi. destruct (lookup_lt_is_Some_2 (edge_list e) (Z.to_nat i)) as [f Ef]; [lia|]. exists f.
  assert (Z.abs f ∈ nb e) as In by (apply (list_elem_of_lookup_2 _ (Z.to_nat i)); rewrite nb_lookup, Ef by lia; reflexivity).
  split_and!; [exact Ef|apply array_at_ok; [lia|exact Ef]|exact In|]. intros Hf. destruct (Cand _ In) as (_ & e' & E' & Hu'). rewrite Z.abs_eq in E' by exact Hf.
  exists e'. split_and!; [apply array_at_ok; [exact Hf|exact E']|lia|lia|]. intros m. unfold has_unused. rewrite Ef, E'. reflexivity.
Qed.

Lemma scan_candidates_ok k : forall i m c, 0 <= i -> i + Z.of_nat k = unused_edges e -> scanned i m c ->
  (forall j f, 0 <= j < i -> edge_list e !! Z.to_nat j = Some f -> 0 <= f) ->
  (exists g, scan_candidates k i e T m c = Ok (inl g) /\ g ∈ nb e)
  \/ exists m' c', scan_candidates k i e T m c = Ok (inr (m', c')) /\ scanned (unused_edges e) m' c'
       /\ forall j f, 0 <= j < unused_edges e -> edge_list e !! Z.to_nat j = Some f -> 0 <= f.
Proof.
  induction k as [|k IH]; intros i m c Hi Ek Sc Pos; cbn [scan_candidates].
  { right. exists m, c. assert (i = unused_edges e) as -> by lia. auto. }
  destruct (candidate i ltac:(lia)) as (f & Ef & -> & In & C). cbn [rbind]. destruct (Z.ltb_spec f 0) as [Nf|Nf]; [left; exists (Z.abs f); auto|].
  destruct (C Nf) as (e' & -> & Hu' & Hm). cbn [rbind].
  assert (forall j f', 0 <= j < i + 1 -> edge_list e !! Z.to_nat j = Some f' -> 0 <= f') as Pos'
    by (intros j f' Hj Ej; destruct (decide (j = i)) as [-> |]; [congruence|apply (Pos j f'); [lia|exact Ej]]).
  assert (forall m0, hits (Z.to_nat (i + 1)) 0 (has_unused m0) = hits (Z.to_nat i) 0 (has_unused m0) + if unused_edges e' =? m0 then 1 else 0) as Hh.
  { intros m0. replace (Z.to_nat (i + 1)) with (S (Z.to_nat i)) by lia. rewrite hits_snoc. replace (0 + Z.of_nat (Z.to_nat i)) with i by lia. rewrite Hm. reflexivity. }
  destruct (Z.ltb_spec (unused_edges e') m) as [Lm|Lm].
  - apply IH; [lia|lia| |exact Pos']. right. split; [lia|]. rewrite Hh, Z.eqb_refl.
    assert (forall j m', 0 <= j < i -> m' <= unused_edges e' -> has_unused m' j = false) as Less
      by (destruct Sc as [(-> & _ & _)|(_ & _ & Sc)]; intros j m' Hj Hm'; [lia|apply Sc; lia]).
    split.
    + rewrite hits_none; [reflexivity|]. intros j Hj. apply Less; lia.
    + intros j m' Hj Hm'. destruct (decide (j = i)) as [-> |]; [rewrite Hm; apply Z.eqb_neq; lia|apply Less; lia].
  - destruct Sc as [(-> & -> & ->)|(Hc & Ec & Sc)]; [lia|]. rewrite (proj2 (Z.eqb_neq c (-1))) by lia.
    assert (forall j m', 0 <= j < i + 1 -> m' < m -> has_unused m' j = false) as Sc'
      by (intros j m' Hj Hm'; destruct (decide (j = i)) as [-> |]; [rewrite Hm; apply Z.eqb_neq; lia|apply Sc; lia]).
    specialize (Hh m). destruct (Z.eqb_spec (unused_edges e') m); (apply IH; [lia|lia|right; split_and!; [lia|lia|exact Sc']|exact Pos']).
Qed.

Lemma gimme_gene_ok s : rand_ok s -> exists g s', gimme_gene e T s = Ok (g, s') /\ g ∈ nb e /\ rand_ok s'.
Proof.
  intros Rs. unfold gimme_gene.
  destruct (scan_candidates_ok (Z.to_nat (unused_edges e)) 0 5 (-1)) as [(g & -> & In)|(m & c & -> & Sc & Pos)];
    [lia|lia|left; auto|intros; lia|cbn [rbind]; exists g, s; auto|]. cbn [rbind].
  destruct Sc as [(? & _)|(Hc & Ec & _)]; [lia|]. pose proof (hits_range (Z.to_nat (unused_edges e)) 0 (has_unused m)).
  destruct (randint_range (c - 1) 0 s) as (d & s' & -> & Hd & R'); [lia|lia|]. cbn [rbind].
  match goal with |- context [counted_index _ _ ?t _ _] => destruct (counted_index_ok t (has_unused m) (Z.to_nat (unused_edges e)) 0 c d) as (j & -> & Hj & _) end.
  - intros j Hj. destruct (candidate j ltac:(lia)) as (f & Ef & -> & _ & C). cbn [rbind]. destruct (C (Pos j f ltac:(lia) Ef)) as (e' & -> & _ & Hm).
    cbn [rbind]. rewrite Hm. reflexivity.
  - exact Ec.
  - lia.
  - cbn [rbind]. destruct (candidate j ltac:(lia)) as (f & Ef & -> & In & _). cbn [rbind]. exists f, s'. split_and!; [reflexivity| |exact R'].
    rewrite Z.abs_eq in In by (apply (Pos j f); [lia|exact Ef]). exact In.
Qed.
End candidates.

(** Without a candidate any city that is left is taken. *)
Lemma edge_failure_ok n (done : Gene -> Prop) T gene index g s : 0 < n < 2 ^ 31 -> 0 <= index -> gene !! Z.to_nat index = Some g ->
  (forall c, 1 <= c <= n -> exists e, T !! Z.to_nat c = Some e /\ (unused_edges e = -1 <-> done c)) ->
  (exists c, 1 <= c <= n /\ c <> g /\ ~ done c) -> rand_ok s ->
  exists c s', edge_failure gene index T n s = Ok (c, s') /\ 1 <= c <= n /\ c <> g /\ ~ done c /\ rand_ok s'.
Proof.
  intros Hn Hi Eg En (c0 & Hc0 & Nc0 & Dc0) Rs. unfold edge_failure. rewrite (array_at_ok gene index g Hi Eg). cbn [rbind].
  set (P := fun i => match T !! Z.to_nat i with Some e => negb (unused_edges e =? -1) && negb (i =? g) | None => false end).
  set (Q := fun i => P i && match T !! Z.to_nat i with Some e => total_edges e =? 4 | None => false end).
  assert (forall i, 1 <= i < 1 + Z.of_nat (Z.to_nat n) -> remains g T i = Ok (P i)) as HP.
  { intros i Hi'. destruct (En i ltac:(lia)) as (e & E & _). unfold remains, P. rewrite (array_at_ok T i e), E by (lia || exact E). reflexivity. }
  assert (forall i, 1 <= i < 1 + Z.of_nat (Z.to_nat n) -> remains_four g T i = Ok (Q i)) as HQ.
  { intros i Hi'. destruct (En i ltac:(lia)) as (e & E & _). unfold remains_four. rewrite HP by exact Hi'. cbn [rbind].
    rewrite (array_at_ok T i e) by (lia || exact E). unfold Q. rewrite E. reflexivity. }
  assert (forall i, 1 <= i <= n -> P i = true -> i <> g /\ ~ done i) as Sound.
  { intros i Hi' Pi. destruct (En i Hi') as (e & E & D). unfold P in Pi. rewrite E in Pi. apply andb_true_iff in Pi as [P1 P2].
    apply negb_true_iff, Z.eqb_neq in P1, P2. split; [exact P2|]. rewrite <- D. exact P1. }
  rewrite (count_index_ok _ P) by exact HP. cbn [rbind]. rewrite (count_index_ok _ Q) by exact HQ. cbn [rbind]. rewrite !Z.add_0_l.
  pose proof (hits_range (Z.to_nat n) 1 P) as RP. pose proof (hits_range (Z.to_nat n) 1 Q) as RQ.
  destruct (Z.eqb_spec (hits (Z.to_nat n) 1 Q) 0) as [_|NQ]; cbn [negb].
  - assert (0 < hits (Z.to_nat n) 1 P) as Pp.
    { apply hits_pos. exists c0. split; [lia|]. destruct (En c0 Hc0) as (e & E & D). unfold P. rewrite E.
      apply andb_true_iff. split; apply negb_true_iff, Z.eqb_neq; [rewrite D; exact Dc0|exact Nc0]. }
    rewrite (proj2 (Z.eqb_neq _ 0)) by lia. cbn [negb].
    destruct (randint_range (hits (Z.to_nat n) 1 P - 1) 0 s) as (d & s' & -> & Hd & R'); [lia|lia|]. cbn [rbind].
    destruct (counted_index_ok (remains g T) P (Z.to_nat n) 1 _ d HP eq_refl) as (j & -> & Hj & Pj); [lia|]. cbn [rbind].
    destruct (Sound j ltac:(lia) Pj). exists j, s'. split_and!; auto; lia.
  - destruct (randint_range (hits (Z.to_nat n) 1 Q - 1) 0 s) as (d & s' & -> & Hd & R'); [lia|lia|]. cbn [rbind].
    destruct (counted_index_ok (remains_four g T) Q (Z.to_nat n) 1 _ d HQ eq_refl) as (j & -> & Hj & Qj); [lia|]. cbn [rbind].
    apply andb_true_iff in Qj as [Pj _]. destruct (Sound j ltac:(lia) Pj). exists j, s'. split_and!; auto; lia.
Qed.

(** ** The crossover *)

Lemma built_tour_table n t1 t2 T : 2 <= n -> is_tour n t1 -> is_tour n t2 -> built n (near_in n t1 t2) T -> mutual n T ->
  tour_table n (fun _ => False) T.
Proof.
  intros Hn H1 H2 [Sh Ed] Mu. split; [exact Sh| | |].
  - intros c e Hc Ec. destruct (Ed c e Hc Ec) as (? & _). split; [lia|done].
  - intros c e Hc Ec _. destruct (Ed c e Hc Ec) as (Hu & _ & Nd & Nr). split_and!; [lia|lia|exact Nd|]. intros x Hx. specialize (Nr x Hx).
    split_and!; [apply (near_range n t1 t2 c x ltac:(lia) H1 H2 Nr)..| |auto].
    destruct Nr as [[L|L]|[L|L]]; [pose proof (linked_ne n t1 H1 _ _ Hn L)|pose proof (linked_ne n t1 H1 _ _ Hn L)
      |pose proof (linked_ne n t2 H2 _ _ Hn L)|pose proof (linked_ne n t2 H2 _ _ Hn L)]; congruence.
  - intros c x Hc Hx _ _. apply Mu; assumption.
Qed.

(** A number from 1 to [n] that is not in a shorter list. *)
Lemma missing_gene n (l : list Gene) : Z.of_nat (length l) < n -> exists c, 1 <= c <= n /\ c ∉ l.
Proof.
  intros L. destruct (decide (Forall (fun c => c ∈ l) (seqZ 1 n))) as [A|N].
  - assert (seqZ 1 n ⊆+ l) as S by (apply NoDup_submseteq; [apply NoDup_seqZ|intros x Hx; rewrite Forall_forall in A; auto]).
    apply submseteq_length in S. rewrite length_seqZ in S. lia.
  - apply not_Forall_Exists in N; [|apply _]. apply Exists_exists in N as (c & Hc & Nc). apply elem_of_seqZ in Hc. exists c. split; [lia|exact Nc].
Qed.

Lemma tour_table_iff n done done' T : (forall c, done c <-> done' c) -> tour_table n done T -> tour_table n done' T.
Proof.
  intros Eq [Sh Dn Ed Mu]. split; [exact Sh| | |].
  - intros c e Hc Ec. rewrite <- Eq. exact (Dn c e Hc Ec).
  - intros c e Hc Ec. rewrite <- Eq. intros N. destruct (Ed c e Hc Ec N) as (? & ? & R). split_and!; [lia|lia|assumption|].
    intros x Hx. rewrite <- Eq. exact (R x Hx).
  - intros c x Hc Hx. rewrite <- !Eq. exact (Mu c x Hc Hx).
Qed.

(** One gene of the child: the city is taken out of the table, and the next one is new. *)
Lemma next_gene_ok n done T gene i g s : 2 <= n < 2 ^ 31 -> tour_table n done T -> 1 <= i -> gene !! Z.to_nat (i - 1) = Some g ->
  1 <= g <= n -> ~ done g -> (exists c, 1 <= c <= n /\ c <> g /\ ~ done c) -> rand_ok s ->
  exists e T1 x s1, array_at T g = Ok e /\ remove_gene g e T = Ok T1 /\ array_at T1 g = Ok e
    /\ (if 0 <? unused_edges e then gimme_gene e T1 s else edge_failure gene (i - 1) T1 n s) = Ok (x, s1)
    /\ 1 <= x <= n /\ x <> g /\ ~ done x /\ rand_ok s1
    /\ array_put T1 g (set_unused e (-1)) = Ok (<[Z.to_nat g := set_unused e (-1)]> T1)
    /\ tour_table n (fun c => c = g \/ done c) (<[Z.to_nat g := set_unused e (-1)]> T1).
Proof.
  intros Hn Tt Hi Eg Hg Ng Left Rs. destruct (ts_entry _ _ (tt_shape _ _ _ Tt) g Hg) as (e & Ee & Le). pose proof (ts_length _ _ (tt_shape _ _ _ Tt)) as Lt.
  destruct (tt_edges _ _ _ Tt g e Hg Ee Ng) as (Hu & _ & Nr).
  destruct (remove_gene_ok n done T g e Tt Hg Ng Ee) as (T1 & E1 & L1 & R1). destruct (tour_table_step n done T T1 g e Tt Hg Ng Ee L1 R1) as (Eg1 & Tt1).
  assert (Z.to_nat g < length T1)%nat as Lg by lia.
  assert (exists x s1, (if 0 <? unused_edges e then gimme_gene e T1 s else edge_failure gene (i - 1) T1 n s) = Ok (x, s1)
    /\ 1 <= x <= n /\ x <> g /\ ~ done x /\ rand_ok s1) as (x & s1 & Ex & Hx & Nx & Dx & R').
  { destruct (Z.ltb_spec 0 (unused_edges e)) as [Pu|Zu].
    - destruct (gimme_gene_ok e T1 Le ltac:(lia)) with (s := s) as (x & s1 & E & In & R'); [|exact Rs|].
      + intros x Hx. destruct (Nr x Hx) as (Rx & Nx & Dx). split; [lia|]. destruct (R1 x Rx) as (_ & e1 & _ & Ex & _). exists e1. split; [exact Ex|].
        apply (tt_edges _ _ _ Tt1 x e1 Rx); [rewrite list_lookup_insert_ne by lia; exact Ex|tauto].
      + destruct (Nr x In) as (Rx & Nx & Dx). exists x, s1. auto.
    - apply (edge_failure_ok n done); try assumption; try lia. intros c Hc. destruct (R1 c Hc) as (_ & e1 & _ & Ec & _). exists e1. split; [exact Ec|].
      destruct (decide (c = g)) as [-> |N]; [simplify_eq; split; [lia|done]|].
      rewrite (tt_done _ _ _ Tt1 c e1 Hc) by (rewrite list_lookup_insert_ne by lia; exact Ec). tauto. }
  exists e, T1, x, s1. split_and!; [apply array_at_ok; [lia|exact Ee]|exact E1|apply array_at_ok; [lia|exact Eg1]|exact Ex|lia|lia|exact Nx|exact Dx|exact R'
    |apply array_put_ok; [lia|exact Lg]|exact Tt1].
Qed.

Lemma gimme_tour_ok n T gene s : 1 <= n < 2 ^ 31 -> (2 <= n -> tour_table n (fun _ => False) T) -> table_shape n T ->
  (Z.to_nat n <= length gene)%nat -> rand_ok s ->
  exists gene' T' failures s', gimme_tour T gene n s = Ok (gene', T', failures, s') /\ is_tour n gene' /\ length gene' = length gene
    /\ table_shape n T' /\ rand_ok s'.
Proof.
  intros Hn Tt Sh Lg Rs. unfold gimme_tour. destruct (randint_range n 1 s) as (g0 & s0 & -> & Hg0 & R0); [lia|lia|]. cbn [rbind].
  rewrite array_put_ok by lia. cbn [rbind].
  match goal with |- context [for_each _ ?b _] => destruct (for_each_seqZ (fun i '(ng, T, f, s) => length ng = length gene /\ NoDup (take (Z.to_nat i) ng)
    /\ (forall x, x ∈ take (Z.to_nat i) ng -> 1 <= x <= n) /\ (2 <= n -> tour_table n (fun c => c ∈ take (Z.to_nat (i - 1)) ng) T) /\ table_shape n T /\ rand_ok s) b 1 (n - 1))
    with (st := (<[Z.to_nat 0 := g0]> gene, T, 0, s0)) as ([[[ng T'] f] s'] & E & L' & Nd & Rg & _ & Sh' & R') end.
  - intros i [[[ng T1] f] s1] Hi (L1 & Nd1 & Rg1 & Tt1 & Sh1 & R1). specialize (Tt1 ltac:(lia)).
    destruct (lookup_lt_is_Some_2 ng (Z.to_nat (i - 1))) as [g Eg]; [lia|]. rewrite (array_at_ok ng (i - 1) g) by (lia || exact Eg). cbn [rbind].
    assert (take (Z.to_nat i) ng = take (Z.to_nat (i - 1)) ng ++ [g]) as Et by (replace (Z.to_nat i) with (S (Z.to_nat (i - 1))) by lia; apply take_S_r, Eg).
    assert (g ∉ take (Z.to_nat (i - 1)) ng) as Ng.
    { intros I. rewrite Et in Nd1. apply NoDup_app in Nd1 as (_ & D & _). apply (D g I). left. }
    assert (forall c, c ∈ take (Z.to_nat i) ng <-> c = g \/ c ∈ take (Z.to_nat (i - 1)) ng) as Iff by (intros c; rewrite Et, elem_of_app, list_elem_of_singleton; tauto).
    destruct (next_gene_ok n _ T1 ng i g s1 ltac:(lia) Tt1 ltac:(lia) Eg (Rg1 g (proj2 (Iff g) (or_introl eq_refl))) Ng) as (e & T2 & x & s2 & Ea & Er & Eb & Ex & Hx & Nx & Dx & R2 & Ep & Tt2);
      [|exact R1|].
    { destruct (missing_gene n (take (Z.to_nat i) ng)) as (c & Hc & Nc); [rewrite length_take; lia|]. exists c. rewrite Iff in Nc. tauto. }
    rewrite Ea. cbn [rbind]. rewrite Er. cbn [rbind]. rewrite Eb. cbn [rbind].
    assert ((if 0 <? unused_edges e then let! (next, rand) := gimme_gene e T2 s1 in Ok (next, f, rand)
      else let! (next, rand) := edge_failure ng (i - 1) T2 n s1 in Ok (next, f + 1, rand)) = Ok (x, (if 0 <? unused_edges e then f else f + 1), s2)) as ->
      by (destruct (0 <? unused_edges e); rewrite Ex; reflexivity).
    cbn [rbind]. rewrite array_put_ok by lia. cbn [rbind]. rewrite Ep. cbn [rbind]. eexists (_, _, _, _). split; [reflexivity|]. rewrite length_insert.
    replace (Z.to_nat (i + 1)) with (S (Z.to_nat i)) by lia. replace (i + 1 - 1) with i by lia. rewrite take_S_insert by lia. rewrite take_insert_ge by lia.
    assert (x ∉ take (Z.to_nat i) ng) as Fx by (rewrite Iff; tauto). split_and!; [exact L1| | | |apply Tt2|exact R2].
    + apply NoDup_app. split_and!; [exact Nd1|intros y Hy Hs; apply list_elem_of_singleton in Hs as ->; done|apply NoDup_singleton].
    + intros y Hy. apply elem_of_app in Hy as [Hy|Hy]; [exact (Rg1 y Hy)|apply list_elem_of_singleton in Hy as ->; exact Hx].
    + intros _. eapply tour_table_iff; [|exact Tt2]. intros c. symmetry. apply Iff.
  - lia.
  - rewrite length_insert. assert (take (Z.to_nat 1) (<[Z.to_nat 0 := g0]> gene) = [g0]) as E1 by (destruct gene; [cbn in Lg; lia|reflexivity]).
    rewrite E1. split_and!; [reflexivity|apply NoDup_singleton| | |exact Sh|exact R0].
    + intros x Hx. apply list_elem_of_singleton in Hx as ->. exact Hg0.
    + intros N2. eapply tour_table_iff; [|exact (Tt N2)]. intros c. split; [done|]. intros Hc. inversion Hc.
  - exists ng, T', f, s'. split_and!; [exact E| |exact L'|exact Sh'|exact R']. replace (1 + (n - 1)) with n in * by lia.
    apply tour_of_nodup; [lia|lia|exact Nd|exact Rg].
Qed.

(** init_tour writes a permutation of the numbers 1 .. num_gene into the first
    num_gene elements of the array, whatever was there before and whatever the random
    state; it never reads an element that was not written. *)
Theorem init_tour_permutation tour n s : 1 <= n < 2 ^ 31 -> (Z.to_nat n <= length tour)%nat -> rand_ok s ->
  exists tour' s', init_tour tour n s = Ok (tour', s') /\ take (Z.to_nat n) tour' ≡ₚ seqZ 1 n /\ length tour' = length tour /\ rand_ok s'.
Proof. apply init_tour_ok. Qed.

Lemma init_tour_permutation_witness : exists tour' s',
  init_tour [0; 0; 0; 0; 0; 0] 5 (mkRandState 1 2 3) = Ok (tour', s') /\ take 5 tour' ≡ₚ [1; 2; 3; 4; 5].
Proof.
  destruct (init_tour_permutation [0; 0; 0; 0; 0; 0] 5 (mkRandState 1 2 3)) as (t & s & E & P & _); [lia|cbn; lia|split; cbn; lia|].
  exists t, s. split; [exact E|exact P].
Defined.

(** C15: the edge recombination crossover of two tours is a tour: for parents that visit
    every relation once, the edge table has room for all their edges (no city gets more
    than four), building the child never fails (none of the "no edge found", "minimum_count
    not set" and similar errors is raised, no index leaves its array), and the child is
    again a permutation of 1 .. num_gene, whatever the random state and the old contents
    of the edge table. *)
Theorem crossover_permutation n momma daddy edge_table s : 1 <= n < 2 ^ 31 -> is_tour n momma -> is_tour n daddy ->
  table_shape n edge_table -> rand_ok s ->
  exists kid edge_table' failures s',
    (let! (edge_table, _) := gimme_edge_table momma daddy n edge_table in gimme_tour edge_table momma n s) = Ok (kid, edge_table', failures, s')
    /\ take (Z.to_nat n) kid ≡ₚ seqZ 1 n /\ length kid = length momma /\ table_shape n edge_table' /\ rand_ok s'.
Proof.
  intros Hn Hm Hd Sh Rs. destruct (gimme_edge_table_ok n momma daddy edge_table ltac:(lia) Hm Hd Sh) as (T1 & k & -> & Bt & Mt). cbn [rbind].
  apply gimme_tour_ok; [exact Hn| |apply Bt|exact (tour_length n momma Hm)|exact Rs].
  intros N2. exact (built_tour_table n momma daddy T1 N2 Hm Hd Bt Mt).
Qed.

(** Two parents over five relations, and an edge table with old contents. *)
Lemma crossover_permutation_witness : exists kid edge_table' failures s',
  (let! (edge_table, _) := gimme_edge_table [1; 2; 3; 4; 5; 0] [3; 1; 5; 2; 4; 0] 5 (replicate 6 (mkEdge [9; 9; 9; 9] 7 7)) in
   gimme_tour edge_table [1; 2; 3; 4; 5; 0] 5 (mkRandState 1 2 3)) = Ok (kid, edge_table', failures, s')
  /\ take 5 kid ≡ₚ [1; 2; 3; 4; 5].
Proof.
  destruct (crossover_permutation 5 [1; 2; 3; 4; 5; 0] [3; 1; 5; 2; 4; 0] (replicate 6 (mkEdge [9; 9; 9; 9] 7 7)) (mkRandState 1 2 3))
    as (kid & T & f & s & E & P & _).
  - lia.
  - unfold is_tour. reflexivity.
  - apply tour_of_nodup; [lia|cbn; lia| |].
    + apply NoDup_ListNoDup. repeat constructor; cbn; lia.
    + intros x Hx. cbn in Hx. repeat (apply elem_of_cons in Hx as [->|Hx]; [lia|]). inversion Hx.
  - split; [reflexivity|]. intros c Hc. exists (mkEdge [9; 9; 9; 9] 7 7). split; [|reflexivity]. apply lookup_replicate_2. lia.
  - split; cbn; lia.
  - exists kid, T, f, s. split; [exact E|exact P].
Defined.
