(* ===== verification/GeqoPoolSpec.v ===== *)
(** The pool of the genetic join search stays sorted by cost: sort_pool sorts it, and
    spread_chromo puts a new individual in its place and drops the worst. *)
From stdpp Require Import list.
From S2P Require Import Prelude Float64 Double DoubleOrder PlanTypes CostBase MergeKeys JoinPath BuildRel Qsort GeqoRandom GeqoTour GeqoTourSpec GeqoPool.
Open Scope Z_scope.

(** ** Order *)

(** A cost that is a number, and its value. *)
Definition counts (c : Chromosome) : Prop := isnan (worth c) = false.
Definition key (c : Chromosome) : Z := sval (worth c).

Lemma deq_sval x y : isnan x = false -> isnan y = false -> deq x y = (sval x =? sval y).
Proof.
  intros Nx Ny. unfold deq, SpecFloat.SFeqb. rewrite SFcompare_sval by assumption.
  destruct (Z.compare_spec (sval x) (sval y)); symmetry; [apply Z.eqb_eq|apply Z.eqb_neq|apply Z.eqb_neq]; lia.
Qed.

Lemma compare_key x y : counts x -> counts y -> compare x y = (if key x =? key y then 0 else if key y <? key x then 1 else -1).
Proof. intros Nx Ny. unfold compare, key. rewrite deq_sval, dlt_sval by assumption. reflexivity. Qed.

Lemma compare_le x y : counts x -> counts y -> compare x y <= 0 <-> key x <= key y.
Proof. intros Nx Ny. rewrite compare_key by assumption. destruct (Z.eqb_spec (key x) (key y)), (Z.ltb_spec (key y) (key x)); lia. Qed.

(** The comparison function of sort_pool orders individuals with a cost. *)
Lemma compare_ok : comparator compare counts.
Proof.
  split.
  - intros x Vx. rewrite compare_key, Z.eqb_refl by assumption. reflexivity.
  - intros x y Vx Vy. rewrite !compare_key by assumption. destruct (Z.eqb_spec (key x) (key y)), (Z.eqb_spec (key y) (key x)),
      (Z.ltb_spec (key y) (key x)), (Z.ltb_spec (key x) (key y)); lia.
  - intros x y z Vx Vy Vz. rewrite !compare_le by assumption. lia.
Qed.

(** Best first. *)
Definition ranked (data : list Chromosome) : Prop :=
  forall i j x y, (i < j)%nat -> data !! i = Some x -> data !! j = Some y -> key x <= key y.

Lemma sort_pool_ok data : Forall counts data -> exists data', sort_pool data = Ok data' /\ data' ≡ₚ data /\ ranked data'.
Proof.
  intros F. destruct (pg_qsort_ok compare counts compare_ok (S (length data)) data F) as (data' & E & P & S'); [lia|].
  exists data'. split_and!; [exact E|exact P|]. intros i j x y Hij Ex Ey. assert (Forall counts data') as F' by (rewrite P; exact F).
  apply compare_le; [exact (Forall_lookup_1 _ _ _ _ F' Ex)|exact (Forall_lookup_1 _ _ _ _ F' Ey)|]. exact (S' i j x y Hij Ex Ey).
Qed.

(** ** Copying *)

Lemma geqo_copy_ok c1 c2 n : 0 <= n -> (Z.to_nat n <= length (string c1))%nat -> (Z.to_nat n <= length (string c2))%nat ->
  geqo_copy c1 c2 n = Ok (mkChromosome (take (Z.to_nat n) (string c2) ++ drop (Z.to_nat n) (string c1)) (worth c2)).
Proof.
  intros Hn L1 L2. unfold geqo_copy.
  destruct (for_each_seqZ (fun i s => s = take (Z.to_nat i) (string c2) ++ drop (Z.to_nat i) (string c1))
    (fun i s => let! g := array_at (string c2) i in array_put s i g) 0 n) with (st := string c1) as (s & -> & ->).
  - intros i s Hi ->. destruct (lookup_lt_is_Some_2 (string c2) (Z.to_nat i)) as [g Eg]; [lia|]. rewrite (array_at_ok _ _ g) by (lia || exact Eg). cbn [rbind].
    rewrite array_put_ok by (rewrite ?length_app, ?length_take, ?length_drop; lia). eexists. split; [reflexivity|].
    replace (Z.to_nat (i + 1)) with (S (Z.to_nat i)) by lia. rewrite (take_S_r _ _ g Eg), <- app_assoc.
    rewrite insert_app_r_alt by (rewrite length_take; lia). rewrite length_take_le, Nat.sub_diag by lia. f_equal.
    destruct (lookup_lt_is_Some_2 (string c1) (Z.to_nat i)) as [h Eh]; [lia|]. rewrite (drop_S _ h _ Eh). reflexivity.
  - exact Hn.
  - rewrite drop_0. reflexivity.
  - reflexivity.
Qed.

Lemma copy_tour c1 c2 n : (Z.to_nat n <= length (string c2))%nat -> is_tour n (string c2) ->
  is_tour n (take (Z.to_nat n) (string c2) ++ drop (Z.to_nat n) (string c1)).
Proof. intros L T. unfold is_tour in *. rewrite take_app_le by (rewrite length_take; lia). rewrite take_take, Nat.min_id. exact T. Qed.

(** ** A new individual *)

Section spread.
Context (data : list Chromosome) (w : Cost).
Context (Fd : Forall counts data) (Rk : ranked data) (Nw : isnan w = false).

Lemma ranked_le i j x y : (i <= j)%nat -> data !! i = Some x -> data !! j = Some y -> key x <= key y.
Proof. intros Hij Ex Ey. destruct (decide (i = j)) as [-> |N]; [simplify_eq; lia|]. apply (Rk i j); [lia|assumption..]. Qed.

Lemma data_at i : 0 <= i < Z.of_nat (length data) -> exists x, array_at data i = Ok x /\ data !! Z.to_nat i = Some x /\ isnan (worth x) = false.
Proof.
  intros Hi. destruct (lookup_lt_is_Some_2 data (Z.to_nat i)) as [x Ex]; [lia|]. exists x. split_and!; [apply array_at_ok; [lia|exact Ex]|exact Ex|].
  exact (Forall_lookup_1 _ _ _ _ Fd Ex).
Qed.

(** A place for [w]: what comes before costs no more, what is there costs no less. *)
Definition place (i : Z) : Prop :=
  0 <= i < Z.of_nat (length data) /\ (forall j x, Z.of_nat j < i -> data !! j = Some x -> key x <= sval w)
  /\ forall x, data !! Z.to_nat i = Some x -> sval w <= key x.

Lemma spread_search_ok fuel : forall top mid bot, 0 <= top <= mid -> mid <= bot < Z.of_nat (length data) ->
  (2 <= bot - top -> top < mid < bot) -> bot - top < Z.of_nat fuel ->
  (top = 0 \/ forall x, data !! Z.to_nat top = Some x -> key x <= sval w) -> (forall x, data !! Z.to_nat bot = Some x -> sval w <= key x) ->
  exists i, spread_search fuel w data top mid bot = Ok i /\ place i.
Proof.
  induction fuel as [|fuel IH]; intros top mid bot Ht Hb Hm Hf Lo Hi; [lia|]. cbn [spread_search].
  destruct (data_at top ltac:(lia)) as (t & -> & Et & Nt), (data_at mid ltac:(lia)) as (m & -> & Em & Nm), (data_at bot ltac:(lia)) as (b & -> & Eb & Nb).
  cbn [rbind]. rewrite dle_sval, !deq_sval, dlt_sval by assumption. fold (key t) (key m) (key b). specialize (Hi b Eb).
  assert (forall j x c, Z.of_nat j < c -> 0 <= c -> forall y, data !! Z.to_nat c = Some y -> data !! j = Some x -> key x <= key y) as Before
    by (intros j x c Hj Hc y Ey Ex; apply (ranked_le j (Z.to_nat c)); [lia|assumption..]).
  destruct (Z.leb_spec (sval w) (key t)) as [Lt|Gt].
  { exists top. split; [reflexivity|]. split_and!; [lia|lia| |intros x Ex; simplify_eq; lia]. intros j x Hj Ex. destruct Lo as [->|Lo]; [lia|].
    specialize (Lo t Et). pose proof (Before j x top Hj ltac:(lia) t Et Ex). lia. }
  destruct (Z.eqb_spec (sval w) (key m)) as [Eqm|Nem].
  { exists mid. split; [reflexivity|]. split_and!; [lia|lia| |intros x Ex; simplify_eq; lia]. intros j x Hj Ex. pose proof (Before j x mid Hj ltac:(lia) m Em Ex). lia. }
  destruct (Z.eqb_spec (sval w) (key b)) as [Eqb|Neb].
  { exists bot. split; [reflexivity|]. split_and!; [lia|lia| |intros x Ex; simplify_eq; lia]. intros j x Hj Ex. pose proof (Before j x bot Hj ltac:(lia) b Eb Ex). lia. }
  destruct (Z.leb_spec (bot - top) 1) as [Sm|Lg].
  { exists bot. split; [reflexivity|]. split_and!; [lia|lia| |intros x Ex; simplify_eq; lia]. intros j x Hj Ex.
    assert (key x <= key t) by (apply (ranked_le j (Z.to_nat top)); [lia|exact Ex|exact Et]). lia. }
  specialize (Hm ltac:(lia)). destruct (Z.ltb_spec (sval w) (key m)) as [Lm|Gm]; cbv zeta; rewrite Z.quot_div_nonneg by lia.
  - pose proof (Z.div_mod (mid - top) 2 ltac:(lia)). pose proof (Z.mod_pos_bound (mid - top) 2 ltac:(lia)).
    apply IH; [lia|lia|lia|lia|exact Lo|]. intros x Ex. simplify_eq. lia.
  - pose proof (Z.div_mod (bot - mid) 2 ltac:(lia)). pose proof (Z.mod_pos_bound (bot - mid) 2 ltac:(lia)).
    apply IH; [lia|lia|lia|lia| |intros x Ex; simplify_eq; lia]. right. intros x Ex. simplify_eq. lia.
Qed.
End spread.

(** Everything from [A] on moves down by one. *)
Lemma shift_down_ok (B : list Chromosome) : forall A x,
  exists y, shift_down (Z.of_nat (length A)) (Z.of_nat (length A + length B)) (A ++ B) x = Ok (A ++ take (length B) (x :: B), y).
Proof.
  unfold shift_down. intros A x. replace (Z.of_nat (length A + length B) - Z.of_nat (length A)) with (Z.of_nat (length B)) by lia.
  revert A x. induction B as [|b B IH]; intros A x; [exists x; reflexivity|].
  rewrite seqZ_cons by (cbn; lia). cbn [for_each]. unfold andthen.
  assert ((A ++ b :: B) !! Z.to_nat (Z.of_nat (length A)) = Some b) as Eb by (rewrite Nat2Z.id; apply list_lookup_middle; reflexivity).
  rewrite (array_at_ok _ _ b) by (lia || exact Eb). cbn [rbind]. rewrite array_put_ok by (rewrite ?length_app; cbn; lia). cbn [rbind].
  rewrite Nat2Z.id, insert_app_r_alt, Nat.sub_diag by lia. cbn [insert list_insert].
  destruct (IH (A ++ [x]) b) as (y & E). rewrite length_app in E. cbn [length] in *. rewrite <- app_assoc in E. cbn [app] in E.
  replace (Z.succ (Z.of_nat (length A))) with (Z.of_nat (length A + 1)) by lia. replace (Z.pred (Z.of_nat (S (length B)))) with (Z.of_nat (length B)) by lia.
  exists y. rewrite E. rewrite <- app_assoc. reflexivity.
Qed.

(** The search looks only at elements of the pool and ends, whatever the costs. *)
Lemma spread_search_total data w fuel : forall top mid bot, 0 <= top <= mid -> mid <= bot < Z.of_nat (length data) ->
  (2 <= bot - top -> top < mid < bot) -> bot - top < Z.of_nat fuel ->
  exists i, spread_search fuel w data top mid bot = Ok i /\ 0 <= i < Z.of_nat (length data).
Proof.
  induction fuel as [|fuel IH]; intros top mid bot Ht Hb Hm Hf; [lia|]. cbn [spread_search].
  assert (forall i, 0 <= i < Z.of_nat (length data) -> exists x, array_at data i = Ok x) as At.
  { intros i Hi. destruct (lookup_lt_is_Some_2 data (Z.to_nat i)) as [x Ex]; [lia|]. exists x. apply array_at_ok; [lia|exact Ex]. }
  destruct (At top ltac:(lia)) as (t & ->), (At mid ltac:(lia)) as (m & ->), (At bot ltac:(lia)) as (b & ->). cbn [rbind].
  destruct (_ <=? _)%D; [exists top; split; [reflexivity|lia]|]. destruct (deq _ _); [exists mid; split; [reflexivity|lia]|].
  destruct (deq _ _); [exists bot; split; [reflexivity|lia]|]. destruct (Z.leb_spec (bot - top) 1); [exists bot; split; [reflexivity|lia]|].
  specialize (Hm ltac:(lia)). destruct (_ <? _)%D; cbv zeta; rewrite Z.quot_div_nonneg by lia.
  - pose proof (Z.div_mod (mid - top) 2 ltac:(lia)). pose proof (Z.mod_pos_bound (mid - top) 2 ltac:(lia)). apply IH; lia.
  - pose proof (Z.div_mod (bot - mid) 2 ltac:(lia)). pose proof (Z.mod_pos_bound (bot - mid) 2 ltac:(lia)). apply IH; lia.
Qed.

(** The range the search starts with. *)
Lemma spread_range size : 1 <= size -> 0 <= 0 <= Z.quot size 2 /\ Z.quot size 2 <= size - 1 < size /\ (2 <= size - 1 - 0 -> 0 < Z.quot size 2 < size - 1).
Proof.
  intros Hs. rewrite Z.quot_div_nonneg by lia. pose proof (Z.div_mod size 2 ltac:(lia)). pose proof (Z.mod_pos_bound size 2 ltac:(lia)). lia.
Qed.

Definition copy_of (n : Z) (chromo last : Chromosome) : Chromosome :=
  mkChromosome (take (Z.to_nat n) (string chromo) ++ drop (Z.to_nat n) (string last)) (worth chromo).

Section insertion.
Context (init : list Chromosome) (last chromo : Chromosome) (n : Z).
Context (Hn : 0 <= n) (Ll : (Z.to_nat n <= length (string last))%nat) (Lc : (Z.to_nat n <= length (string chromo))%nat).

(** spread_chromo once the place is found. *)
Lemma spread_at size i : size = Z.of_nat (length init + 1) -> 0 <= i < size ->
  (let! copy := geqo_copy last chromo n in
   let! data := array_put (init ++ [last]) (size - 1) copy in
   let! (data, _) := shift_down i size data copy in
   Ok data) = Ok (take (Z.to_nat i) init ++ copy_of n chromo last :: drop (Z.to_nat i) init).
Proof.
  intros Es Hi. rewrite geqo_copy_ok by assumption. cbn [rbind]. fold (copy_of n chromo last). set (copy := copy_of n chromo last).
  rewrite array_put_ok by (rewrite ?length_app; cbn; lia). cbn [rbind]. replace (Z.to_nat (size - 1)) with (length init) by lia.
  rewrite insert_app_r_alt, Nat.sub_diag by lia. cbn [insert list_insert].
  assert (init ++ [copy] = take (Z.to_nat i) init ++ (drop (Z.to_nat i) init ++ [copy])) as Ea by (rewrite app_assoc, take_drop; reflexivity).
  assert (length (take (Z.to_nat i) init) = Z.to_nat i) as Lt by (rewrite length_take; lia).
  destruct (shift_down_ok (drop (Z.to_nat i) init ++ [copy]) (take (Z.to_nat i) init) copy) as (y & E). rewrite <- Ea, Lt, length_app, length_drop in E. cbn [length] in E.
  replace (Z.of_nat (Z.to_nat i)) with i in E by lia. replace (Z.of_nat (Z.to_nat i + (length init - Z.to_nat i + 1))) with size in E by lia.
  rewrite E. cbn [rbind]. do 2 f_equal. replace (length init - Z.to_nat i + 1)%nat with (S (length (drop (Z.to_nat i) init))) by (rewrite length_drop; lia).
  cbn [take]. rewrite take_app_length. reflexivity.
Qed.

Lemma spread_last : (init ++ [last]) !! Z.to_nat (Z.of_nat (length (init ++ [last])) - 1) = Some last.
Proof. rewrite length_app. cbn [length]. replace (Z.to_nat _) with (length init) by lia. apply list_lookup_middle. reflexivity. Qed.

(** The pool after spread_chromo, for all costs. *)
Lemma spread_chromo_total : exists data', spread_chromo chromo (init ++ [last]) n = Ok data'
  /\ (data' = init ++ [last] \/ exists i, (i <= length init)%nat /\ data' = take i init ++ copy_of n chromo last :: drop i init).
Proof.
  unfold spread_chromo. rewrite (array_at_ok _ _ last) by (exact spread_last || (rewrite length_app; cbn; lia)). cbn [rbind].
  case_match; [eauto|]. rewrite length_app. cbn [length]. set (size := Z.of_nat (length init + 1)). destruct (spread_range size) as (R1 & R2 & R3); [lia|].
  destruct (spread_search_total (init ++ [last]) (worth chromo) (length init + 1) 0 (Z.quot size 2) (size - 1)) as (i & -> & Hi);
    [exact R1|rewrite length_app; cbn; lia|exact R3|lia|]. rewrite length_app in Hi. cbn [rbind length] in *. rewrite spread_at by (reflexivity || lia).
  eexists. split; [reflexivity|]. right. exists (Z.to_nat i). split; [lia|reflexivity].
Qed.

(** The new pool: the individual is inserted before those that cost as much or more, and
    the last one drops out. *)
Lemma spread_chromo_ok : Forall counts (init ++ [last]) -> ranked (init ++ [last]) -> counts chromo ->
  exists data', spread_chromo chromo (init ++ [last]) n = Ok data'
    /\ ((key last < key chromo /\ data' = init ++ [last])
        \/ (key chromo <= key last /\ exists i, (i <= length init)%nat /\ data' = take i init ++ copy_of n chromo last :: drop i init
             /\ (forall x, x ∈ take i init -> key x <= key chromo) /\ (forall x, x ∈ drop i init -> key chromo <= key x))).
Proof.
  intros Fd Rk Nc. unfold spread_chromo. rewrite (array_at_ok _ _ last) by (exact spread_last || (rewrite length_app; cbn; lia)). cbn [rbind].
  assert (counts last) as Nl by (rewrite Forall_app, Forall_singleton in Fd; apply Fd). rewrite dlt_sval by assumption. fold (key last) (key chromo).
  destruct (Z.ltb_spec (key last) (key chromo)) as [L|G]; [eauto|]. pose proof spread_last as El. rewrite length_app in *. cbn [length] in *.
  set (size := Z.of_nat (length init + 1)) in *. destruct (spread_range size) as (R1 & R2 & R3); [lia|].
  destruct (spread_search_ok (init ++ [last]) (worth chromo) Fd Rk Nc (length init + 1) 0 (Z.quot size 2) (size - 1)) as (i & -> & Hi & Before & At);
    [exact R1|rewrite length_app; cbn; lia|exact R3|lia|auto|intros x Ex; simplify_eq; exact G|].
  rewrite length_app in Hi. cbn [rbind length] in *. rewrite spread_at by (reflexivity || lia). eexists. split; [reflexivity|]. right. split; [exact G|].
  exists (Z.to_nat i). split_and!; [lia|reflexivity|..].
  - intros x Hx. apply list_elem_of_lookup in Hx as [j Ej]. apply lookup_take_Some in Ej as [Ej Lj]. apply (Before j x); [lia|]. apply lookup_app_l_Some, Ej.
  - intros x Hx. apply list_elem_of_lookup in Hx as [j Ej]. rewrite lookup_drop in Ej. destruct (lookup_lt_is_Some_2 (init ++ [last]) (Z.to_nat i)) as [z Ez]; [rewrite length_app; cbn; lia|].
    specialize (At z Ez). transitivity (key z); [exact At|]. apply (ranked_le (init ++ [last]) Rk (Z.to_nat i) (Z.to_nat i + j)); [lia|exact Ez|apply lookup_app_l_Some, Ej].
Qed.
End insertion.

Lemma ranked_insert init last c i : ranked (init ++ [last]) -> (forall x, x ∈ take i init -> key x <= key c) -> (forall x, x ∈ drop i init -> key c <= key x) ->
  ranked (take i init ++ c :: drop i init).
Proof.
  intros Rk Lo Hi. assert (ranked init) as Ri by (intros a b x y Hab Ex Ey; apply (Rk a b); [exact Hab|apply lookup_app_l_Some; assumption..]).
  intros a b x y Hab Ex Ey. destruct (decide (length (take i init) <= a)%nat) as [La|La].
  - rewrite lookup_app_r in Ex, Ey by lia. destruct (b - length (take i init))%nat as [|b'] eqn:Eb; [lia|]. rewrite lookup_cons in Ey.
    destruct (a - length (take i init))%nat as [|a'] eqn:Ea; rewrite lookup_cons in Ex; [simplify_eq; apply Hi; eapply list_elem_of_lookup_2, Ey|].
    rewrite lookup_drop in Ex, Ey. apply (Ri (i + a') (i + b'))%nat; [lia|assumption..].
  - rewrite lookup_app_l in Ex by lia. apply lookup_take_Some in Ex as [Ex La']. apply lookup_app_Some in Ey as [Ey|[Lb Ey]].
    + apply lookup_take_Some in Ey as [Ey _]. exact (Ri a b x y Hab Ex Ey).
    + destruct (b - length (take i init))%nat as [|b'] eqn:Eb; rewrite lookup_cons in Ey.
      * simplify_eq. apply Lo. apply (list_elem_of_lookup_2 _ a). apply lookup_take_Some. auto.
      * rewrite lookup_drop in Ey. apply (Ri a (i + b')%nat); [lia|assumption..].
Qed.

(** C30: spread_chromo keeps the pool sorted and of the same size. An individual that costs
    more than the worst is ignored. Any other is copied into the pool by a binary search
    that ends at the right place, and exactly the worst individual is dropped for it; in
    particular the best cost of the pool never grows. *)
Theorem spread_chromo_ranked chromo init last n : Forall counts (init ++ [last]) -> ranked (init ++ [last]) -> counts chromo -> 0 <= n ->
  Forall (fun c => (Z.to_nat n <= length (string c))%nat) (chromo :: init ++ [last]) ->
  exists data', spread_chromo chromo (init ++ [last]) n = Ok data' /\ ranked data' /\ length data' = length (init ++ [last])
    /\ ((key last < key chromo /\ data' = init ++ [last])
        \/ (key chromo <= key last /\ exists copy, data' ≡ₚ copy :: init /\ worth copy = worth chromo
             /\ take (Z.to_nat n) (string copy) = take (Z.to_nat n) (string chromo))).
Proof.
  intros Fd Rk Nc Hn Fs. apply Forall_cons in Fs as [Lc Fs]. rewrite Forall_app, Forall_singleton in Fs. destruct Fs as [_ Ll].
  destruct (spread_chromo_ok init last chromo n Hn Ll Lc Fd Rk Nc) as (data' & E & D). exists data'. split; [exact E|]. destruct D as [[L ->]|(G & i & Hi & -> & Lo & Up)].
  { split_and!; [exact Rk|reflexivity|left; auto]. }
  split_and!; [apply (ranked_insert init last); assumption|rewrite !length_app, length_take; cbn [length]; rewrite length_drop; lia|]. right. split; [exact G|].
  eexists. split_and!; [rewrite <- Permutation_middle, take_drop; reflexivity|reflexivity|]. unfold copy_of. cbn [string].
  rewrite take_app_le by (rewrite length_take; lia). rewrite take_take, Nat.min_id. reflexivity.
Qed.

(** A pool of three, and an individual that comes second. *)
Lemma spread_chromo_ranked_witness : let c w := mkChromosome [1; 2; 0] (i2d w) in
  exists data', spread_chromo (mkChromosome [2; 1; 7] (i2d 15)) [c 10; c 20; c 30] 2 = Ok data' /\ ranked data'
    /\ data' !! 1%nat = Some (mkChromosome [2; 1; 0] (i2d 15)).
Proof.
  intros c. destruct (spread_chromo_ranked (mkChromosome [2; 1; 7] (i2d 15)) [c 10; c 20] (c 30) 2) as (data' & E & Rk & _).
  - repeat constructor.
  - intros [|[|[|i]]] [|[|[|j]]] x y Hij Ex Ey; try lia; cbn in Ex, Ey; simplify_eq; vm_compute; discriminate.
  - reflexivity.
  - lia.
  - repeat constructor.
  - exists data'. split_and!; [exact E|exact Rk|].
    assert (spread_chromo (mkChromosome [2; 1; 7] (i2d 15)) [c 10; c 20; c 30] 2 = Ok [c 10; mkChromosome [2; 1; 0] (i2d 15); c 20]) as E2 by reflexivity.
    change ([c 10; c 20] ++ [c 30]) with [c 10; c 20; c 30] in E. rewrite E2 in E. injection E as <-. reflexivity.
Defined.
