(* ===== verification/GeqoDrawSpec.v ===== *)
(** One draw of linear_rand, numerically: the index is never a NaN, an index in range
    converts to an int in range, and two random numbers, 2^-48 and 7/8, give indexes near 0
    and well inside the pool. *)
From S2P Require Import Prelude Float64 Double DoubleOrder DoubleDiv DoubleRound DoubleUnit DoubleSqrt PlanTypes CostBase HashSize MergeKeys JoinPath BuildRel GeqoRandom GeqoTour GeqoTourSpec GeqoPool.
Open Scope Z_scope.

(** ** One draw *)

(** The index linear_rand computes from a random number. *)
Definition sqrt_arg (bias r : double) : double := (bias * bias - i2d 4 * (bias - i2d 1) * r)%D.
Definition sqrt_val (bias r : double) : double := if (sqrt_arg bias r >? i2d 0)%D then dsqrt (sqrt_arg bias r) else sqrt_arg bias r.
Definition draw_index (pool_size : Z) (bias r : double) : double :=
  (i2d pool_size * (bias - sqrt_val bias r) / i2d 2 / (bias - i2d 1))%D.

(** The number a draw yields, if linear_rand accepts it. *)
Definition draw (pool_size : Z) (bias : double) (s : RandState) : option Z :=
  let index := draw_index pool_size bias (geqo_rand s).1 in
  if (index <? i2d 0)%D || (i2d pool_size <=? index)%D then None else d2int index.

(** Geqo_selection_bias is between 1.5 and 2.0. *)
Record bias_ok (bias : double) : Prop := {
  bi_nonneg : nonneg bias = true;
  bi_min : 3 * 2 ^ 1073 <= cmag bias;
  bi_max : cmag bias <= 2 ^ 1075;
}.

Section bias.
Context (b : double) (Bo : bias_ok b).

(** The bias is a multiple of [2^-52]. *)
Lemma bias_grid : exists k, cmag b = k * 2 ^ 1022 /\ 3 * 2 ^ 51 <= k <= 2 ^ 53.
Proof.
  destruct Bo as [Nb Lo Hi]. pose proof (pow2_pos 1022 ltac:(lia)) as P. pose proof HUGE_pos.
  assert (cmag b < HUGE) as Fb by (eapply Z.le_lt_trans; [exact Hi|apply Z.pow_lt_mono_r; lia]).
  assert (exists k, cmag b = k * 2 ^ 1022) as [k Ek].
  { unfold cmag in *. destruct (SF b) as [[]|[]| |s m e] eqn:E; cbn [fmag] in *; try lia.
    destruct b as [x V]. cbn [SF] in E. subst x. pose proof (bounded_range _ _ V) as [B M].
    assert (1022 <= e + 1074) as He.
    { destruct (Z.le_gt_cases 1022 (e + 1074)) as [|L]; [assumption|]. pose proof (pow2_le (e + 1074) 1021 ltac:(lia)) as P2.
      pose proof (pow2_pos (e + 1074) ltac:(lia)). assert (Zpos m * 2 ^ (e + 1074) < 2 ^ 53 * 2 ^ 1021) by nia.
      change (2 ^ 1073) with (2 ^ 52 * 2 ^ 1021) in Lo. nia. }
    exists (Zpos m * 2 ^ (e + 1074 - 1022)). rewrite <- Z.mul_assoc, <- pow2_split by lia. do 2 f_equal. lia. }
  exists k. split; [exact Ek|]. rewrite Ek in *. change (2 ^ 1073) with (2 ^ 51 * 2 ^ 1022) in Lo. change (2 ^ 1075) with (2 ^ 53 * 2 ^ 1022) in Hi. nia.
Qed.

Context (k : Z) (Ek : cmag b = k * 2 ^ 1022) (Hk : 3 * 2 ^ 51 <= k <= 2 ^ 53).

Lemma bias_finite : finite b.
Proof. unfold finite. eapply Z.le_lt_trans; [exact (bi_max b Bo)|apply Z.pow_lt_mono_r; lia]. Qed.

Lemma small_finite m e : 0 <= m < 2 ^ 60 -> 0 <= e <= 1100 -> m * 2 ^ e < HUGE.
Proof.
  intros Hm He. pose proof (pow2_le e 1100 ltac:(lia)). pose proof (pow2_pos e ltac:(lia)). change HUGE with (2 ^ 998 * 2 ^ 1100).
  pose proof (pow2_le 60 998 ltac:(lia)). nia.
Qed.

(** bias - 1.0 and 4.0 * (bias - 1.0) are exact. *)
Lemma bias_minus_one : nonneg (b - i2d 1)%D = true /\ cmag (b - i2d 1)%D = (k - 2 ^ 52) * 2 ^ 1022.
Proof.
  pose proof (pow2_pos 1022 ltac:(lia)). assert (i2d 1 ⊑ b)%D as L by (unfold cle; rewrite cmag_one, Ek; change (2 ^ 1074) with (2 ^ 52 * 2 ^ 1022); nia).
  split; [apply nonneg_sub; [apply Bo|reflexivity|exact L]|]. rewrite cmag_sub by (apply Bo || reflexivity || exact bias_finite || exact L).
  rewrite cmag_one, Ek. change (2 ^ 1074) with (2 ^ 52 * 2 ^ 1022). rewrite <- Z.mul_sub_distr_r, Rnd_exact by lia. rewrite Z.sub_0_r.
  unfold sat. pose proof (small_finite (k - 2 ^ 52) 1022). lia.
Qed.

Lemma four_times : nonneg (i2d 4 * (b - i2d 1))%D = true /\ cmag (i2d 4 * (b - i2d 1))%D = (k - 2 ^ 52) * 2 ^ 1024.
Proof.
  destruct bias_minus_one as [N E]. split; [apply nonneg_mul; [reflexivity|exact N]|].
  rewrite cmag_mul; [|reflexivity|exact N|apply finite_i2d; lia|unfold finite; rewrite E; apply small_finite; lia].
  rewrite (cmag_i2d 4), E by lia. replace (4 * 2 ^ 1074 * ((k - 2 ^ 52) * 2 ^ 1022)) with ((k - 2 ^ 52) * 2 ^ 2098)
    by (replace (2 ^ 2098) with (2 ^ 2 * 2 ^ 1074 * 2 ^ 1022) by (rewrite <- !pow2_split by lia; reflexivity); ring).
  rewrite Rnd_exact by lia. unfold sat. replace (2098 - 1074) with 1024 by lia. pose proof (small_finite (k - 2 ^ 52) 1024). lia.
Qed.

Lemma nbits_ge v d : 2 ^ d <= v -> 0 <= d -> d + 1 <= nbits v.
Proof. intros L Hd. rewrite <- (nbits_unique (2 ^ d) (d + 1)); [apply nbits_mono; [apply Z.pow_nonneg; lia|exact L]|apply pow2_pos; lia|].
  replace (d + 1 - 1) with d by lia. pose proof (Z.pow_lt_mono_r 2 d (d + 1)). lia. Qed.

(** bias * bias is rounded. *)
Lemma bias_square : nonneg (b * b)%D = true /\ finite (b * b)%D /\ Z.abs (cmag (b * b)%D * 2 ^ 1074 - k * k * 2 ^ 2044) <= 2 ^ 2097.
Proof.
  pose proof bias_finite as Fb. split; [apply nonneg_mul; apply Bo|]. rewrite cmag_mul by (apply Bo || exact Fb). unfold finite. rewrite cmag_mul by (apply Bo || exact Fb).
  rewrite !Ek. replace (k * 2 ^ 1022 * (k * 2 ^ 1022)) with (k * k * 2 ^ 2044) by (replace (2 ^ 2044) with (2 ^ 1022 * 2 ^ 1022) by (rewrite <- pow2_split by lia; reflexivity); ring).
  set (v := k * k * 2 ^ 2044). pose proof (pow2_pos 2044 ltac:(lia)) as P.
  assert (2 ^ 2148 <= v <= 2 ^ 2150) as Hv.
  { change (2 ^ 2148) with (2 ^ 104 * 2 ^ 2044). change (2 ^ 2150) with (2 ^ 106 * 2 ^ 2044). unfold v. split; apply Z.mul_le_mono_nonneg_r; nia. }
  pose proof (Rnd_error 1074 v ltac:(lia) ltac:(lia)) as Er. specialize (Er ltac:(pose proof (nbits_ge v 2148); lia)).
  assert (Z.abs (Rnd 1074 v * 2 ^ 1074 - v) <= 2 ^ 2097) as A.
  { apply (Z.mul_le_mono_pos_r _ _ (2 ^ 53)); [lia|]. rewrite <- (pow2_split 2097 53) by lia. change (2097 + 53) with 2150. lia. }
  assert (Rnd 1074 v < HUGE) as Lh.
  { apply (Z.mul_lt_mono_pos_r (2 ^ 1074)); [apply pow2_pos; lia|]. change (HUGE * 2 ^ 1074) with (2 ^ 1022 * 2 ^ 2150). pose proof (pow2_le 2 1022 ltac:(lia)).
    change (2 ^ 2150) with (2 ^ 53 * 2 ^ 2097) in *. pose proof (pow2_pos 2097 ltac:(lia)). nia. }
  unfold sat. rewrite Z.min_l by lia. split; [exact Lh|exact A].
Qed.

(** ** Every draw is a number *)

Lemma square_bound : cmag (b * b)%D <= 2 ^ 1077.
Proof.
  destruct (bias_square) as (_ & _ & A). pose proof (pow2_pos 1074 ltac:(lia)). apply (Z.mul_le_mono_pos_r _ _ (2 ^ 1074)); [lia|].
  change (2 ^ 1077 * 2 ^ 1074) with (2 ^ 54 * 2 ^ 2097). assert (k * k * 2 ^ 2044 <= 2 ^ 53 * 2 ^ 2097) as B.
  { change (2 ^ 53 * 2 ^ 2097) with (2 ^ 106 * 2 ^ 2044). apply Z.mul_le_mono_nonneg_r; [apply Z.pow_nonneg; lia|nia]. }
  pose proof (pow2_pos 2097 ltac:(lia)). lia.
Qed.

Section number.
Context (r : double) (Fr : fraction r).

Lemma product_bound : nonneg (i2d 4 * (b - i2d 1) * r)%D = true /\ cmag (i2d 4 * (b - i2d 1) * r)%D <= 2 ^ 1077.
Proof.
  destruct four_times as [N E]. split; [apply nonneg_mul; [exact N|apply Fr]|].
  assert (finite (i2d 4 * (b - i2d 1))%D) as F by (unfold finite; rewrite E; apply small_finite; lia).
  rewrite dmul_comm. pose proof (mul_le_factor r _ (fr_nonneg r Fr) N F (fr_le r Fr)) as L. unfold cle in L. rewrite E in L.
  change (2 ^ 1077) with (2 ^ 53 * 2 ^ 1024). pose proof (pow2_pos 1024 ltac:(lia)). nia.
Qed.

Lemma sqrt_arg_bound : cmag (sqrt_arg b r) <= 2 ^ 1077.
Proof.
  destruct bias_square as (N1 & F1 & _), product_bound as (N3 & B3). pose proof square_bound as B1. unfold sqrt_arg.
  assert (finite (i2d 4 * (b - i2d 1) * r)%D) as F3 by (unfold finite; eapply Z.le_lt_trans; [exact B3|apply Z.pow_lt_mono_r; lia]).
  destruct (Z.le_gt_cases (cmag (i2d 4 * (b - i2d 1) * r)%D) (cmag (b * b)%D)) as [L|L].
  - etransitivity; [exact (cle_sub _ _ N1 N3 F1 L)|exact B1].
  - rewrite dneg_sub, cmag_dneg by (assumption || (apply finite_isnan; assumption)).
    etransitivity; [apply (cle_sub _ _ N3 N1 F3); unfold cle; lia|exact B3].
Qed.

Lemma bounded_finite x : cmag x <= 2 ^ 1077 -> finite x.
Proof. intros L. unfold finite. eapply Z.le_lt_trans; [exact L|apply Z.pow_lt_mono_r; lia]. Qed.

Lemma minus_sqrt_finite : finite (b - sqrt_val b r)%D.
Proof.
  pose proof (bounded_finite _ sqrt_arg_bound) as Fa. unfold sqrt_val. destruct (nonneg (sqrt_arg b r)) eqn:N.
  - case_match; apply finite_sub; try (apply Bo); try exact bias_finite; auto using nonneg_sqrt, sqrt_finite.
  - assert ((sqrt_arg b r >? i2d 0)%D = false) as ->.
    { rewrite dlt_sval by (apply isnan_i2d || apply (finite_isnan _ Fa)). unfold sval. rewrite N. pose proof (cmag_range (sqrt_arg b r)).
      change (nonneg (i2d 0)) with true. cbv iota. change (cmag (i2d 0)) with 0. apply Z.ltb_ge. lia. }
    rewrite dsub_dneg. unfold finite. rewrite cmag_add; [|apply Bo|apply nonneg_dneg, N|apply finite_isnan, bias_finite|rewrite isnan_dneg; exact (finite_isnan _ Fa)].
    rewrite cmag_dneg. pose proof sqrt_arg_bound as B. pose proof (bi_max b Bo) as Bb. pose proof (cmag_range (sqrt_arg b r)). pose proof (cmag_range b).
    assert (Rnd 0 (cmag b + cmag (sqrt_arg b r)) <= Rnd 0 (5 * 2 ^ 1075)) as R by (apply Rnd_mono; [lia|lia|change (2 ^ 1077) with (4 * 2 ^ 1075) in B; lia]).
    rewrite Rnd_exact in R by lia. unfold sat. pose proof (small_finite 5 1075). rewrite Z.sub_0_r in R. lia.
Qed.

Lemma index_number P : 1 <= P < 2 ^ 31 -> isnan (draw_index P b r) = false.
Proof.
  intros HP. unfold draw_index. destruct bias_minus_one as [N E]. apply number_div.
  - apply number_div; [|apply finite_i2d; lia|rewrite (cmag_i2d 2) by lia; pose proof (pow2_pos 1074); lia].
    apply isnan_mul; [apply finite_i2d; lia|exact minus_sqrt_finite].
  - unfold finite. rewrite E. apply small_finite; lia.
  - rewrite E. pose proof (pow2_pos 1022 ltac:(lia)). nia.
Qed.
End number.
End bias.

(** An index in range converts to an int in range. *)
Lemma d2int_in_range x P : 1 <= P < 2 ^ 31 -> isnan x = false -> (x <? i2d 0)%D = false -> (i2d P <=? x)%D = false ->
  exists n, d2int x = Some n /\ 0 <= n < P /\ (forall m, nonneg x = true -> m * 2 ^ 1074 <= cmag x -> m <= n).
Proof.
  intros HP Nx L0 LP. rewrite dlt_sval in L0 by (exact Nx || apply isnan_i2d). rewrite dle_sval in LP by (exact Nx || apply isnan_i2d).
  apply Z.ltb_ge in L0. apply Z.leb_gt in LP. change (sval (i2d 0)) with 0 in L0. rewrite (sval_nonneg (i2d P)), cmag_i2d in LP by (apply nonneg_i2d || idtac; lia).
  pose proof (pow2_pos 1074 ltac:(lia)) as P1. assert (P * 2 ^ 1074 < HUGE) as Lh by (change HUGE with (2 ^ 1024 * 2 ^ 1074); apply Z.mul_lt_mono_pos_r; [exact P1|pose proof (pow2_le 31 1024); lia]).
  pose proof HUGE_pos. unfold sval, cmag, nonneg, d2int in *. destruct x as [[[]|[]| |[] m e] V]; cbn [SF fmag negb] in *; try discriminate; try lia.
  - exists 0. split_and!; [reflexivity|lia|lia|]. intros; discriminate.
  - exists 0. split_and!; [reflexivity|lia|lia|]. intros m _ Hm. nia.
  - pose proof (bounded_range _ _ V) as [B _]. pose proof (pow2_pos (e + 1074) ltac:(lia)). nia.
  - pose proof (bounded_range _ _ V) as [B M]. set (v := if e <? 0 then Zpos m / 2 ^ (- e) else Zpos m * 2 ^ e).
    assert (0 <= v < P /\ forall c, c * 2 ^ 1074 <= Zpos m * 2 ^ (e + 1074) -> c <= v) as [Hv Hc].
    { unfold v. destruct (Z.ltb_spec e 0).
      - pose proof (pow2_pos (- e) ltac:(lia)) as Pe. pose proof (pow2_pos (e + 1074) ltac:(lia)) as Pq.
        assert (forall c, c * 2 ^ 1074 = c * 2 ^ (- e) * 2 ^ (e + 1074)) as Ec by (intros c; rewrite <- Z.mul_assoc, <- pow2_split by lia; do 2 f_equal; lia).
        rewrite Ec in LP. apply Z.mul_lt_mono_pos_r in LP; [|exact Pq]. split; [split; [apply Z.div_pos; lia|apply Z.div_lt_upper_bound; lia]|].
        intros c Hc. rewrite Ec in Hc. apply Z.mul_le_mono_pos_r in Hc; [|exact Pq]. apply Z.div_le_lower_bound; lia.
      - pose proof (pow2_pos e ltac:(lia)). rewrite pow2_split in * by lia. split; [nia|]. intros c Hc. nia. }
    exists v. unfold INT_MAX. rewrite (proj2 (Z.leb_le _ _)) by lia. rewrite (proj2 (Z.leb_le _ _)) by lia. cbn [andb]. split_and!; [reflexivity|lia|lia|].
    intros c _ Hc'. exact (Hc c Hc').
Qed.

(** ** Two draws that are accepted *)

(** Makes a large constant a variable. *)
Tactic Notation "forget" constr(c) "as" ident(x) := let E := fresh in remember c as x eqn:E; clear E.

Lemma nonneg_not_below0 x : nonneg x = true -> (x <? i2d 0)%D = false.
Proof. intros N. apply cle_not_lt; [reflexivity|exact N|]. unfold cle. change (cmag (i2d 0)) with 0. apply cmag_range. Qed.

Section draws.
Context (b : double) (Bo : bias_ok b) (k : Z) (Ek : cmag b = k * 2 ^ 1022) (Hk : 3 * 2 ^ 51 <= k <= 2 ^ 53).

(** The square root of [x] is a number between [lo] and [hi]. *)
Lemma sqrt_between r lo hi : finite lo -> finite hi -> nonneg (sqrt_arg b r) = true -> finite (sqrt_arg b r) -> 0 < cmag (sqrt_arg b r) ->
  cmag lo * cmag lo <= cmag (sqrt_arg b r) * 2 ^ 1074 <= cmag hi * cmag hi ->
  nonneg (sqrt_val b r) = true /\ cmag lo <= cmag (sqrt_val b r) <= cmag hi.
Proof.
  intros Fl Fh N F Pos [L1 L2]. unfold sqrt_val. assert ((sqrt_arg b r >? i2d 0)%D = true) as ->.
  { apply dlt_iff; [reflexivity|exact N|]. split; [exact Pos|exact (finite_isnan _ F)]. }
  split; [apply nonneg_sqrt, N|]. split; [apply sqrt_ge; assumption|apply sqrt_le; assumption].
Qed.

(** bias minus the square root, when that is between [lo] and [hi]. *)
Lemma minus_sqrt_between r lo hi : nonneg (sqrt_val b r) = true -> lo * 2 ^ 1022 <= cmag (sqrt_val b r) <= hi * 2 ^ 1022 -> 0 < lo -> hi <= k ->
  nonneg (b - sqrt_val b r)%D = true /\ (k - hi) * 2 ^ 1022 <= cmag (b - sqrt_val b r)%D <= (k - lo) * 2 ^ 1022.
Proof.
  intros N [L1 L2] H0 H1. pose proof (pow2_pos 1022 ltac:(lia)). assert (sqrt_val b r ⊑ b)%D as L by (unfold cle; rewrite Ek; nia).
  split; [apply nonneg_sub; [apply Bo|exact N|exact L]|]. rewrite cmag_sub by (apply Bo || exact N || exact (bias_finite b Bo) || exact L). rewrite Ek.
  assert (lo <= hi) as Lh by nia. pose proof (small_finite (k - lo) 1022 ltac:(lia) ltac:(lia)).
  assert (Rnd 0 ((k - hi) * 2 ^ 1022) <= Rnd 0 (k * 2 ^ 1022 - cmag (sqrt_val b r)) <= Rnd 0 ((k - lo) * 2 ^ 1022)) as R by (split; apply Rnd_mono; lia).
  rewrite !Rnd_exact, !Z.sub_0_r in R by lia. unfold sat. lia.
Qed.

(** The rounding errors of the argument, in units of [2^-2097]. *)
Lemma arg_error x1 x3 a c w u : 0 <= u -> Z.abs (x1 - a) <= u -> Z.abs (x3 - c) <= u -> 2 ^ 49 * u <= a - c <= 2 ^ 53 * u ->
  Z.abs (w - (x1 - x3)) * 2 ^ 53 <= x1 - x3 -> Z.abs (w - (a - c)) <= 4 * u.
Proof. lia. Qed.

(** The argument of the square root is near [c] below the square of the bias. *)
Lemma arg_near r c : let x3 := (i2d 4 * (b - i2d 1) * r)%D in nonneg r = true -> Z.abs (cmag x3 * 2 ^ 1074 - c) <= 2 ^ 2097 ->
  2 ^ 49 * 2 ^ 2097 <= k * k * 2 ^ 2044 - c <= 2 ^ 53 * 2 ^ 2097 ->
  nonneg (sqrt_arg b r) = true /\ finite (sqrt_arg b r)
  /\ Z.abs (cmag (sqrt_arg b r) * 2 ^ 1074 - (k * k * 2 ^ 2044 - c)) <= 4 * 2 ^ 2097.
Proof.
  intros x3 Nr A3 Bc. destruct (bias_square b Bo k Ek Hk) as (N1 & F1 & A1), (four_times b Bo k Ek Hk) as (N2 & _).
  set (x1 := (b * b)%D) in *. assert (nonneg x3 = true) as N3 by (apply nonneg_mul; assumption).
  assert (2 ^ 1071 * 2 ^ 1074 = 2 ^ 48 * 2 ^ 2097) as Eu by (rewrite <- !pow2_split by lia; reflexivity).
  assert (HUGE * 2 ^ 1074 = 2 ^ 1075 * 2 ^ 2097) as Eh by (unfold HUGE; rewrite <- !pow2_split by lia; reflexivity).
  pose proof (pow2_le 56 1075 ltac:(lia)) as Lw. pose proof (pow2_pos 1074 ltac:(lia)) as P1. pose proof (pow2_pos 2097 ltac:(lia)) as P3.
  forget (2 ^ 2097) as u. forget (2 ^ 1075) as h. forget (k * k * 2 ^ 2044) as a.
  assert (cmag x3 <= cmag x1) as L31 by (apply (Z.mul_le_mono_pos_r _ _ (2 ^ 1074)); [exact P1|]; clear - A1 A3 Bc P3; lia).
  unfold sqrt_arg. fold x1 x3. split; [apply nonneg_sub; assumption|].
  split; [unfold finite; eapply Z.le_lt_trans; [exact (cle_sub x1 x3 N1 N3 F1 L31)|exact F1]|].
  rewrite cmag_sub by assumption. remember (cmag x1 - cmag x3) as v eqn:Ev0.
  assert (v * 2 ^ 1074 = cmag x1 * 2 ^ 1074 - cmag x3 * 2 ^ 1074) as Ev by (subst v; ring).
  assert (2 ^ 1071 <= v) as Lv by (apply (Z.mul_le_mono_pos_r _ _ (2 ^ 1074)); [exact P1|]; rewrite Eu, Ev; clear - A1 A3 Bc P3; lia).
  pose proof (pow2_pos 1071 ltac:(lia)) as P4. assert (0 < v) as Pv by (clear - Lv P4; lia).
  pose proof (Rnd_error 0 v ltac:(lia) Pv ltac:(pose proof (nbits_ge v 1071); lia)) as Er. change (2 ^ 0) with 1 in Er. rewrite Z.mul_1_r in Er.
  apply (Z.mul_le_mono_pos_r _ _ (2 ^ 1074)) in Er; [|exact P1]. forget (2 ^ 1074) as q.
  assert (Z.abs (Rnd 0 v * q - (cmag x1 * q - cmag x3 * q)) * 2 ^ 53 <= cmag x1 * q - cmag x3 * q) as Er'.
  { rewrite <- Ev. replace (Rnd 0 v * q - v * q) with ((Rnd 0 v - v) * q) by ring. rewrite Z.abs_mul, (Z.abs_eq q) by lia. lia. }
  pose proof (arg_error _ _ a c _ u ltac:(lia) A1 A3 Bc Er') as G.
  assert (Rnd 0 v < HUGE) as Lh by (apply (Z.mul_lt_mono_pos_r q); [exact P1|]; rewrite Eh; clear - G Bc Lw P3; nia).
  unfold sat. rewrite Z.min_l by (clear - Lh; lia). exact G.
Qed.

Lemma square_range : 2 ^ 51 * 2 ^ 2097 <= k * k * 2 ^ 2044 <= 2 ^ 53 * 2 ^ 2097.
Proof.
  replace (2 ^ 51 * 2 ^ 2097) with (2 ^ 104 * 2 ^ 2044) by (rewrite <- !pow2_split by lia; reflexivity).
  replace (2 ^ 53 * 2 ^ 2097) with (2 ^ 106 * 2 ^ 2044) by (rewrite <- !pow2_split by lia; reflexivity).
  split; apply mul_pow2_le; nia.
Qed.

Section first.
Context (r : double) (Nr : nonneg r = true) (Er : cmag r = 2 ^ 1026).

(** r = 2^-48: the argument is a little below the square of the bias. *)
Lemma first_arg : nonneg (sqrt_arg b r) = true /\ finite (sqrt_arg b r)
  /\ (k - 2 ^ 12) * 2 ^ 1022 * ((k - 2 ^ 12) * 2 ^ 1022) <= cmag (sqrt_arg b r) * 2 ^ 1074 <= cmag b * cmag b.
Proof.
  destruct (four_times b Bo k Ek Hk) as (N2 & E2).
  assert (cmag (i2d 4 * (b - i2d 1) * r)%D * 2 ^ 1074 = (k - 2 ^ 52) * 2 ^ 2050) as E3.
  { rewrite cmag_mul; [|exact N2|exact Nr|unfold finite; rewrite E2; apply small_finite; lia|unfold finite; rewrite Er; pose proof (small_finite 1 1026); lia].
    rewrite E2, Er, <- Z.mul_assoc, <- pow2_split, Rnd_exact by lia. change (1024 + 1026 - 1074) with 976.
    unfold sat. rewrite Z.min_l by (pose proof (small_finite (k - 2 ^ 52) 976); lia). rewrite <- Z.mul_assoc, <- pow2_split by lia. reflexivity. }
  assert (2 ^ 4 * 2 ^ 2097 <= (k - 2 ^ 52) * 2 ^ 2050 <= 2 ^ 5 * 2 ^ 2097) as B3.
  { replace (2 ^ 4 * 2 ^ 2097) with (2 ^ 51 * 2 ^ 2050) by (rewrite <- !pow2_split by lia; reflexivity).
    replace (2 ^ 5 * 2 ^ 2097) with (2 ^ 52 * 2 ^ 2050) by (rewrite <- !pow2_split by lia; reflexivity). split; apply mul_pow2_le; lia. }
  assert (2 ^ 10 * 2 ^ 2097 <= (2 ^ 13 * k - 2 ^ 24) * 2 ^ 2044) as G.
  { replace (2 ^ 10 * 2 ^ 2097) with (2 ^ 63 * 2 ^ 2044) by (rewrite <- !pow2_split by lia; reflexivity). apply mul_pow2_le; lia. }
  pose proof square_range as Bk. pose proof (pow2_pos 2097 ltac:(lia)) as P3.
  assert (2 ^ 1022 * 2 ^ 1022 = 2 ^ 2044) as E4 by (rewrite <- !pow2_split by lia; reflexivity).
  destruct (arg_near r ((k - 2 ^ 52) * 2 ^ 2050) Nr) as (N & F & A).
  { rewrite E3, Z.sub_diag. clear - P3. change (Z.abs 0) with 0. lia. }
  { forget (2 ^ 2097) as u. lia. }
  split_and!; [exact N|exact F|..]; rewrite ?Ek.
  - replace ((k - 2 ^ 12) * 2 ^ 1022 * ((k - 2 ^ 12) * 2 ^ 1022)) with (k * k * 2 ^ 2044 - (2 ^ 13 * k - 2 ^ 24) * 2 ^ 2044) by (rewrite <- E4; ring).
    forget (2 ^ 2097) as u. lia.
  - replace (k * 2 ^ 1022 * (k * 2 ^ 1022)) with (k * k * 2 ^ 2044) by (rewrite <- E4; ring). forget (2 ^ 2097) as u. lia.
Qed.

(** The index is between 0 and [1/512]. *)
Lemma first_index_small P : 1 <= P < 2 ^ 31 -> nonneg (draw_index P b r) = true /\ cmag (draw_index P b r) <= 2 ^ 1065.
Proof.
  intros HP. destruct first_arg as (N4 & F4 & B4). set (z := (b - dlit 1 (2 ^ 40))%D).
  assert (cmag (dlit 1 (2 ^ 40)) = 2 ^ 1034) as E40 by (vm_compute; reflexivity). pose proof (pow2_pos 1022 ltac:(lia)) as P0.
  assert (nonneg (dlit 1 (2 ^ 40)) = true) as N40 by reflexivity.
  assert (cmag z = (k - 2 ^ 12) * 2 ^ 1022) as Ez.
  { unfold z. rewrite cmag_sub; [|apply Bo|exact N40|exact (bias_finite b Bo)|unfold cle; rewrite E40, Ek; change (2 ^ 1034) with (2 ^ 12 * 2 ^ 1022); nia].
    rewrite E40, Ek. change (2 ^ 1034) with (2 ^ 12 * 2 ^ 1022). rewrite <- Z.mul_sub_distr_r, Rnd_exact, Z.sub_0_r by lia.
    unfold sat. pose proof (small_finite (k - 2 ^ 12) 1022). lia. }
  assert (finite z) as Fz by (unfold finite; rewrite Ez; apply small_finite; lia).
  destruct (sqrt_between r z b Fz (bias_finite b Bo) N4 F4) as (Ns & Bs).
  { apply (Z.mul_lt_mono_pos_r (2 ^ 1074)); [apply pow2_pos; lia|]. rewrite Z.mul_0_l. eapply Z.lt_le_trans; [|apply B4]. nia. }
  { rewrite Ez. exact B4. }
  rewrite Ez, Ek in Bs. destruct (minus_sqrt_between r (k - 2 ^ 12) k Ns Bs ltac:(lia) ltac:(lia)) as (Nq & Lq).
  destruct (bias_minus_one b Bo k Ek Hk) as (N1 & E1). unfold draw_index.
  assert (cmag (i2d P * (b - sqrt_val b r))%D <= 2 ^ 1065) as Lp.
  { assert (cmag (i2d (2 ^ 31) * dlit 1 (2 ^ 40))%D = 2 ^ 1065) as <- by (vm_compute; reflexivity).
    change (i2d P * (b - sqrt_val b r) ⊑ i2d (2 ^ 31) * dlit 1 (2 ^ 40))%D. transitivity (i2d (2 ^ 31) * (b - sqrt_val b r))%D.
    - apply cle_mul_r; [apply nonneg_i2d; lia|reflexivity|exact Nq| |apply cle_i2d; lia].
      apply bounded_finite. etransitivity; [apply Lq|]. replace (k - (k - 2 ^ 12)) with (2 ^ 12) by lia. rewrite <- pow2_split by lia. apply pow2_le. lia.
    - apply cle_mul_l; [exact Nq|exact N40|reflexivity|apply finite_i2d; lia|]. unfold cle. rewrite E40. etransitivity; [apply Lq|].
      replace (k - (k - 2 ^ 12)) with (2 ^ 12) by lia. rewrite <- pow2_split by lia. reflexivity. }
  set (prod := (i2d P * (b - sqrt_val b r))%D) in *. assert (nonneg prod = true) as Np by (apply nonneg_mul; [apply nonneg_i2d; lia|exact Nq]).
  assert (finite prod) as Fp by (apply bounded_finite; etransitivity; [exact Lp|apply pow2_le; lia]).
  assert (finite (i2d 2)) as F2 by (apply finite_i2d; lia).
  assert (cmag (prod / i2d 2)%D <= 2 ^ 1064) as Lh.
  { assert (cmag (dlit 1 1024) = 2 ^ 1064) as <- by (vm_compute; reflexivity). apply (ddiv_le prod (i2d 2) Np ltac:(reflexivity) Fp F2).
    - rewrite (cmag_i2d 2) by lia. pose proof (pow2_pos 1074). lia.
    - apply bounded_finite. change (cmag (dlit 1 1024)) with (2 ^ 1064). apply pow2_le. lia.
    - assert (cmag (dlit 1 1024) = 2 ^ 1064) as -> by (vm_compute; reflexivity). rewrite (cmag_i2d 2) by lia.
      transitivity (2 ^ 1065 * 2 ^ 1074); [apply mul_pow2_le; lia|]. apply Z.leb_le. vm_compute. reflexivity. }
  assert (nonneg (prod / i2d 2)%D = true) as Nh by (apply nonneg_div; [exact Np|reflexivity]).
  assert (finite (prod / i2d 2)%D) as Fh by (apply bounded_finite; etransitivity; [exact Lh|apply pow2_le; lia]).
  split; [apply nonneg_div; assumption|]. assert (cmag (dlit 1 512) = 2 ^ 1065) as Ed by (vm_compute; reflexivity). rewrite <- Ed.
  apply (ddiv_le _ _ Nh N1 Fh); rewrite ?E1, ?Ed.
  - unfold finite. rewrite E1. apply small_finite; lia.
  - nia.
  - apply bounded_finite. rewrite Ed. apply pow2_le. lia.
  - transitivity (2 ^ 1064 * 2 ^ 1074); [apply mul_pow2_le; lia|]. transitivity (2 ^ 1065 * (2 ^ 51 * 2 ^ 1022)); [apply Z.leb_le; vm_compute; reflexivity|].
    apply Z.mul_le_mono_nonneg_l; [apply Z.pow_nonneg; lia|]. apply mul_pow2_le; lia.
Qed.
End first.

(** Numbers with eleven bits behind the point. *)
Definition grid (n : Z) : double := (i2d n * dlit 1 2048)%D.

Lemma grid_value n : 0 <= n < 2 ^ 53 -> nonneg (grid n) = true /\ cmag (grid n) = n * 2 ^ 1063 /\ finite (grid n).
Proof.
  intros Hn. unfold grid. assert (cmag (dlit 1 2048) = 2 ^ 1063) as E by (vm_compute; reflexivity).
  assert (finite (dlit 1 2048)) as F by (unfold finite; rewrite E; apply Z.pow_lt_mono_r; lia).
  assert (cmag (i2d n * dlit 1 2048)%D = n * 2 ^ 1063) as Em.
  { rewrite cmag_mul, cmag_i2d, E by (reflexivity || (apply nonneg_i2d; lia) || (apply finite_i2d; lia) || exact F || lia).
    rewrite <- Z.mul_assoc, <- pow2_split, Rnd_exact by lia. unfold sat. change (1074 + 1063 - 1074) with 1063. pose proof (small_finite n 1063). lia. }
  split_and!; [apply nonneg_mul; [apply nonneg_i2d; lia|reflexivity]|exact Em|]. unfold finite. rewrite Em. apply small_finite; lia.
Qed.

Section second.
Context (r : double) (Nr : nonneg r = true) (Er : cmag r = 7 * 2 ^ 1071).

(** r = 7/8: the argument is near (bias - 7/4)^2 + 7/16. *)
Lemma second_arg : nonneg (sqrt_arg b r) = true /\ finite (sqrt_arg b r)
  /\ 9 * 2 ^ 1070 * (9 * 2 ^ 1070) <= cmag (sqrt_arg b r) * 2 ^ 1074 <= 2 ^ 1074 * 2 ^ 1074.
Proof.
  destruct (four_times b Bo k Ek Hk) as (N2 & E2). set (c := 7 * (k - 2 ^ 52) * 2 ^ 2095).
  assert (2 ^ 2147 <= c <= 2 ^ 2150) as Bc.
  { unfold c. rewrite (pow2_split 52 2095 ltac:(lia) ltac:(lia) : 2 ^ 2147 = _), (pow2_split 55 2095 ltac:(lia) ltac:(lia) : 2 ^ 2150 = _). split; apply mul_pow2_le; lia. }
  assert (Z.abs (cmag (i2d 4 * (b - i2d 1) * r)%D * 2 ^ 1074 - c) <= 2 ^ 2097) as A3.
  { rewrite cmag_mul; [|exact N2|exact Nr|unfold finite; rewrite E2; apply small_finite; lia|unfold finite; rewrite Er; apply small_finite; lia].
    assert (cmag (i2d 4 * (b - i2d 1))%D * cmag r = c) as -> by (unfold c; rewrite E2, Er, (pow2_split 1024 1071 ltac:(lia) ltac:(lia) : 2 ^ 2095 = _); ring).
    pose proof (pow2_pos 2147 ltac:(lia)) as P. pose proof (Rnd_error 1074 c ltac:(lia) ltac:(lia) ltac:(pose proof (nbits_ge c 2147); lia)) as R.
    rewrite (pow2_split 53 2097 ltac:(lia) ltac:(lia) : 2 ^ 2150 = _) in Bc.
    assert (Z.abs (Rnd 1074 c * 2 ^ 1074 - c) <= 2 ^ 2097) as A by (forget (2 ^ 2097) as u; lia).
    unfold sat. rewrite Z.min_l; [exact A|].
    apply Z.lt_le_incl, (Z.mul_lt_mono_pos_r (2 ^ 1074)); [apply pow2_pos; lia|]. unfold HUGE. rewrite (pow2_split 1075 2097 ltac:(lia) ltac:(lia) : 2 ^ 2098 * 2 ^ 1074 = _).
    pose proof (pow2_le 54 1075 ltac:(lia)). pose proof (pow2_pos 2097 ltac:(lia)). forget (2 ^ 2097) as u. forget (2 ^ 1075) as h. nia. }
  assert (k * k * 2 ^ 2044 - c = ((k - 7 * 2 ^ 50) * (k - 7 * 2 ^ 50) + 7 * 2 ^ 100) * 2 ^ 2044) as Ed.
  { unfold c. rewrite (pow2_split 51 2044 ltac:(lia) ltac:(lia) : 2 ^ 2095 = _). ring. }
  assert (7 * 2 ^ 47 * 2 ^ 2097 <= k * k * 2 ^ 2044 - c <= 2 ^ 50 * 2 ^ 2097) as Bd.
  { rewrite Ed. rewrite <- (Z.mul_assoc 7), <- (pow2_split 47 2097), <- (pow2_split 50 2097) by lia.
    rewrite (pow2_split 100 2044 ltac:(lia) ltac:(lia) : 2 ^ (47 + 2097) = _), (pow2_split 103 2044 ltac:(lia) ltac:(lia) : 2 ^ (50 + 2097) = _), Z.mul_assoc. clear - Hk.
    assert (0 <= (k - 3 * 2 ^ 51) * (2 ^ 53 - k)) by (apply Z.mul_nonneg_nonneg; lia). pose proof (Z.square_nonneg (k - 7 * 2 ^ 50)). split; apply mul_pow2_le; lia. }
  destruct (arg_near r c Nr A3) as (N & F & A).
  { pose proof (pow2_pos 2097 ltac:(lia)). forget (2 ^ 2097) as u. lia. }
  split_and!; [exact N|exact F|..].
  - replace (9 * 2 ^ 1070 * (9 * 2 ^ 1070)) with (81 * 2 ^ 43 * 2 ^ 2097) by (rewrite <- (Z.mul_assoc 81), <- (pow2_split 43 2097 ltac:(lia) ltac:(lia)),
      (pow2_split 1070 1070 ltac:(lia) ltac:(lia) : 2 ^ (43 + 2097) = _); ring).
    pose proof (pow2_pos 2097 ltac:(lia)). forget (2 ^ 2097) as u. lia.
  - rewrite <- pow2_split by lia. rewrite (pow2_split 51 2097 ltac:(lia) ltac:(lia) : 2 ^ (1074 + 1074) = _). pose proof (pow2_pos 2097 ltac:(lia)). forget (2 ^ 2097) as u. lia.
Qed.

(** bias minus the square root lies between bias - 1 and bias - 9/16. *)
Lemma second_difference : nonneg (b - sqrt_val b r)%D = true
  /\ (k - 2 ^ 52) * 2 ^ 1022 <= cmag (b - sqrt_val b r)%D <= (k - 9 * 2 ^ 48) * 2 ^ 1022.
Proof.
  destruct second_arg as (N & F & B). assert (cmag (dlit 9 16) = 9 * 2 ^ 1070) as E9 by (vm_compute; reflexivity).
  assert (finite (dlit 9 16)) as F9 by (unfold finite; rewrite E9; apply small_finite; lia).
  destruct (sqrt_between r (dlit 9 16) (i2d 1) F9 (finite_i2d 1 ltac:(lia) ltac:(lia)) N F) as (Ns & Bs).
  - apply (Z.mul_lt_mono_pos_r (2 ^ 1074)); [apply pow2_pos; lia|]. rewrite Z.mul_0_l. eapply Z.lt_le_trans; [|apply B]. pose proof (pow2_pos 1070 ltac:(lia)). nia.
  - rewrite E9, cmag_one. exact B.
  - rewrite E9, cmag_one in Bs. apply minus_sqrt_between; [exact Ns| |lia|lia].
    rewrite <- Z.mul_assoc, <- !pow2_split by lia. exact Bs.
Qed.
End second.
End draws.
