(* ===== verification/GeqoSelectSpec.v ===== *)
(** The choice of the parents in the genetic join search ends: the loops of linear_rand and
    geqo_selection, which draw until they like the number, see every state of the random
    generator, and some states make them stop. *)
From S2P Require Import Prelude Float64 Double DoubleOrder DoubleDiv DoubleRound DoubleUnit DoubleSqrt PlanTypes CostBase HashSize MergeKeys JoinPath BuildRel GeqoRandom GeqoTour GeqoTourSpec GeqoPool GeqoPoolSpec GeqoDrawSpec.
Open Scope Z_scope.

(** ** The index for r = 7/8 *)

Section index.
Context (b : double) (Bo : bias_ok b) (k : Z) (Ek : cmag b = k * 2 ^ 1022) (Hk : 3 * 2 ^ 51 <= k <= 2 ^ 53).
Context (d : double) (Nd : nonneg d = true) (Ld : (k - 2 ^ 52) * 2 ^ 1022 <= cmag d <= (k - 9 * 2 ^ 48) * 2 ^ 1022).
Context (P : Z) (HP : 2 <= P < 2 ^ 31).

(** bias - 9/16 rounded up to a multiple of 1/1024. *)
Let j : Z := (k - 9 * 2 ^ 48) / 2 ^ 42 + 1.

Local Lemma j_range : 0 <= j < 2 ^ 11 /\ cmag d <= 2 * j * 2 ^ 1063 /\ j * 2 ^ 52 <= 1984 * (k - 2 ^ 52).
Proof.
  unfold j. pose proof (Z.div_mod (k - 9 * 2 ^ 48) (2 ^ 42) ltac:(lia)) as D. pose proof (Z.mod_pos_bound (k - 9 * 2 ^ 48) (2 ^ 42) ltac:(lia)) as M.
  split_and!; [lia|lia| |lia]. etransitivity; [apply Ld|]. rewrite (pow2_split 41 1022 ltac:(lia) ltac:(lia) : 2 ^ 1063 = _), Z.mul_assoc. apply mul_pow2_le; lia.
Qed.

Local Lemma half_bounds : nonneg (i2d P * d / i2d 2)%D = true
  /\ (k - 2 ^ 52) * 2 ^ 1022 <= cmag (i2d P * d / i2d 2)%D <= cmag (grid (P * j)) /\ finite (i2d P * d / i2d 2)%D.
Proof.
  destruct j_range as (Hj & Lj & _). destruct (grid_value (2 * j) ltac:(lia)) as (N2 & E2 & F2).
  destruct (grid_value (P * j) ltac:(nia)) as (N3 & E3 & F3). destruct (grid_value (2 * (P * j)) ltac:(nia)) as (N4 & E4 & F4).
  assert (finite d) as Fd by (eapply Z.le_lt_trans; [apply Ld|apply small_finite; lia]).
  assert (nonneg (i2d P) = true) as NP by (apply nonneg_i2d; lia). assert (finite (i2d P)) as FP by (apply finite_i2d; lia).
  assert (cmag (i2d 2) = 2 * 2 ^ 1074) as C2 by (apply cmag_i2d; lia). assert (finite (i2d 2)) as F2' by (apply finite_i2d; lia).
  assert (cmag (i2d P * d)%D <= 2 * (P * j) * 2 ^ 1063) as Up.
  { etransitivity; [apply (cle_mul_l _ d (grid (2 * j)) Nd N2 NP FP); unfold cle; rewrite E2; exact Lj|].
    rewrite cmag_mul, cmag_i2d, E2 by (assumption || lia). transitivity (Rnd 1074 (2 * (P * j) * 2 ^ 2137)).
    - etransitivity; [apply Z.le_min_l|]. rewrite (pow2_split 1074 1063 ltac:(lia) ltac:(lia) : 2 ^ 2137 = _). apply Z.eq_le_incl. f_equal. ring.
    - rewrite Rnd_exact by nia. reflexivity. }
  assert ((k - 2 ^ 52) * 2 ^ 1023 <= cmag (i2d P * d)%D) as Lo.
  { transitivity (cmag (i2d 2 * d)%D); [|apply cle_mul_r; [reflexivity|exact NP|exact Nd|exact Fd|apply cle_i2d; lia]].
    rewrite cmag_mul, C2 by (assumption || reflexivity). transitivity (Rnd 1074 ((k - 2 ^ 52) * 2 ^ 2097)).
    - rewrite Rnd_exact by lia. reflexivity.
    - apply Z.min_glb.
      + apply Rnd_mono; [lia|apply Z.mul_nonneg_nonneg; [lia|apply Z.pow_nonneg; lia]|]. rewrite (pow2_split 1075 1022 ltac:(lia) ltac:(lia) : 2 ^ 2097 = _).
        rewrite (Z.mul_comm (2 ^ 1075)), Z.mul_assoc, Z.mul_comm. rewrite (pow2_split 1 1074 ltac:(lia) ltac:(lia) : 2 ^ 1075 = _). change (2 ^ 1) with 2.
        apply Z.mul_le_mono_nonneg_l; [pose proof (pow2_pos 1074); lia|apply Ld].
      + rewrite Rnd_exact by lia. apply Z.lt_le_incl, small_finite; lia. }
  assert (nonneg (i2d P * d)%D = true) as Np by (apply nonneg_mul; assumption).
  assert (finite (i2d P * d)%D) as Fp by (eapply Z.le_lt_trans; [exact Up|apply small_finite; nia]).
  destruct (bias_minus_one b Bo k Ek Hk) as (N1 & E1). pose proof (pow2_pos 1074 ltac:(lia)) as P1.
  assert (cmag (i2d P * d / i2d 2)%D <= cmag (grid (P * j))) as Lh.
  { apply (ddiv_le _ (i2d 2) Np ltac:(reflexivity) Fp F2'); [lia|exact F3|]. rewrite C2, E3. forget (2 ^ 1074) as q. forget (2 ^ 1063) as u. nia. }
  split_and!; [apply nonneg_div; [exact Np|reflexivity]| |exact Lh|].
  - rewrite <- E1. apply (ddiv_ge _ (i2d 2) Np ltac:(reflexivity) Fp F2'); [lia|unfold finite; rewrite E1; apply small_finite; lia|].
    rewrite E1, C2. rewrite (pow2_split 1 1022 ltac:(lia) ltac:(lia) : 2 ^ 1023 = _) in Lo. change (2 ^ 1) with 2 in Lo. forget (2 ^ 1074) as q. forget (2 ^ 1022) as u. nia.
  - unfold finite in *. lia.
Qed.

Lemma second_index : let index := (i2d P * d / i2d 2 / (b - i2d 1))%D in
  nonneg index = true /\ 2 ^ 1074 <= cmag index < P * 2 ^ 1074.
Proof.
  cbv zeta. destruct half_bounds as (Nh & Lh & Fh), (bias_minus_one b Bo k Ek Hk) as (N1 & E1), j_range as (Hj & _ & Lj).
  destruct (grid_value (P * j) ltac:(nia)) as (_ & E3 & _), (grid_value (P * 1984) ltac:(lia)) as (_ & E4 & F4).
  assert (finite (b - i2d 1)%D) as F1 by (unfold finite; rewrite E1; apply small_finite; lia).
  pose proof (pow2_pos 1022 ltac:(lia)) as P1. pose proof (pow2_pos 1063 ltac:(lia)) as P2. assert (0 < cmag (b - i2d 1)%D) as Pos by (rewrite E1; clear - P1 Hk; nia).
  split_and!; [apply nonneg_div; assumption|..].
  - rewrite <- cmag_one. apply (ddiv_ge _ _ Nh N1 Fh F1 Pos); [apply finite_i2d; lia|]. rewrite E1, cmag_one. pose proof (pow2_pos 1074 ltac:(lia)). forget (2 ^ 1074) as q. nia.
  - eapply Z.le_lt_trans; [apply (ddiv_le _ _ Nh N1 Fh F1 Pos (grid (P * 1984)) F4)|].
    + rewrite E4, E1. rewrite E3 in Lh. rewrite (pow2_split 52 1022 ltac:(lia) ltac:(lia) : 2 ^ 1074 = _).
      forget (2 ^ 1022) as q. forget (2 ^ 1063) as u. destruct Lh as [_ Lh]. transitivity (P * j * u * (2 ^ 52 * q)); [apply Z.mul_le_mono_nonneg_r; lia|].
      transitivity (P * u * q * (j * 2 ^ 52)); [lia|]. transitivity (P * u * q * (1984 * (k - 2 ^ 52))); [apply Z.mul_le_mono_nonneg_l; [nia|lia]|lia].
    + rewrite E4, (pow2_split 11 1063 ltac:(lia) ltac:(lia) : 2 ^ 1074 = _). change (2 ^ 11) with 2048. forget (2 ^ 1063) as u. nia.
Qed.
End index.

(** ** The draws of the loops *)

Definition next (s : RandState) : RandState := (geqo_rand s).2.

Section select.
Context (P : Z) (HP : 1 <= P < 2 ^ 31) (b : double) (Bo : bias_ok b).

(** linear_rand takes the first number that [draw] yields. *)
Lemma linear_rand_draw fuel s : linear_rand (S fuel) P b s = match draw P b s with Some n => Ok (n, next s) | None => linear_rand fuel P b (next s) end.
Proof.
  destruct (bias_grid b Bo) as (k & Ek & Hk). pose proof (index_number b Bo k Ek Hk _ (rand_fraction s) P HP) as Nn.
  cbn [linear_rand]. unfold draw, next. destruct (geqo_rand s) as [r s'] eqn:E. cbn [fst snd] in *. change (b * b - _)%D with (sqrt_arg b r).
  change (if (sqrt_arg b r >? i2d 0)%D then _ else _) with (sqrt_val b r). change (i2d P * _ / _ / _)%D with (draw_index P b r).
  destruct (draw_index P b r <? i2d 0)%D eqn:L0; [reflexivity|]. destruct (i2d P <=? draw_index P b r)%D eqn:LP; [reflexivity|].
  destruct (d2int_in_range _ P HP Nn L0 LP) as (n & -> & _). reflexivity.
Qed.

Lemma draw_range s n : draw P b s = Some n -> 0 <= n < P.
Proof.
  destruct (bias_grid b Bo) as (k & Ek & Hk). pose proof (index_number b Bo k Ek Hk _ (rand_fraction s) P HP) as Nn. unfold draw.
  destruct (_ <? i2d 0)%D eqn:L0; [discriminate|]. destruct (i2d P <=? _)%D eqn:LP; [discriminate|]. cbn [orb].
  destruct (d2int_in_range _ P HP Nn L0 LP) as (m & -> & Hm & _). congruence.
Qed.

(** An index known to lie in a range is accepted. *)
Lemma draw_accepts s m : let index := draw_index P b (geqo_rand s).1 in nonneg index = true -> m * 2 ^ 1074 <= cmag index < P * 2 ^ 1074 ->
  exists n, draw P b s = Some n /\ m <= n.
Proof.
  cbv zeta. intros N [Lo Hi]. destruct (bias_grid b Bo) as (k & Ek & Hk). pose proof (index_number b Bo k Ek Hk _ (rand_fraction s) P HP) as Nn.
  unfold draw. pose proof (nonneg_not_below0 _ N) as L0. assert ((i2d P <=? draw_index P b (geqo_rand s).1)%D = false) as LP.
  { rewrite dle_sval by (exact Nn || apply isnan_i2d). rewrite !sval_nonneg, cmag_i2d by (exact N || apply nonneg_i2d || idtac; lia). apply Z.leb_gt, Hi. }
  destruct (d2int_in_range _ P HP Nn L0 LP) as (n & E & _ & Hm). rewrite L0, LP. cbn [orb]. exists n. split; [exact E|exact (Hm m N Lo)].
Qed.

Lemma draw_first s : state48 (next s) = 1 -> draw P b s = Some 0.
Proof.
  intros E. destruct (bias_grid b Bo) as (k & Ek & Hk). destruct (erand48_value s) as (Nr & Er & _). unfold next, geqo_rand in E. rewrite E, Z.mul_1_l in Er.
  destruct (first_index_small b Bo k Ek Hk _ Nr Er P HP) as (N & L). pose proof (index_number b Bo k Ek Hk _ (rand_fraction s) P HP) as Nn.
  unfold draw, geqo_rand in *. set (x := draw_index P b _) in *. pose proof (nonneg_not_below0 _ N) as L0.
  assert (forall q, 1 <= q < 2 ^ 31 -> (i2d q <=? x)%D = false) as LP.
  { intros q Hq. rewrite dle_sval by (exact Nn || apply isnan_i2d). rewrite !sval_nonneg, cmag_i2d by (exact N || apply nonneg_i2d || idtac; lia).
    apply Z.leb_gt. pose proof (Z.pow_lt_mono_r 2 1065 1074 ltac:(lia) ltac:(lia)) as Lt. pose proof (pow2_pos 1074 ltac:(lia)) as P1. forget (2 ^ 1074) as u. forget (2 ^ 1065) as v. nia. }
  rewrite L0, (LP P HP). cbn [orb]. destruct (d2int_in_range x 1 ltac:(lia) Nn L0 (LP 1 ltac:(lia))) as (n & -> & Hn & _). f_equal. lia.
Qed.

Lemma draw_second s : 2 <= P -> state48 (next s) = 7 * 2 ^ 45 -> exists n, draw P b s = Some n /\ 1 <= n.
Proof.
  intros P2 E. destruct (bias_grid b Bo) as (k & Ek & Hk). destruct (erand48_value s) as (Nr & Er & _). unfold next, geqo_rand in E.
  rewrite E, <- Z.mul_assoc, <- pow2_split in Er by lia. destruct (second_difference b Bo k Ek Hk _ Nr Er) as (Nd & Ld).
  destruct (second_index b Bo k Ek Hk _ Nd Ld P ltac:(lia)) as (N & L). apply draw_accepts; [exact N|]. rewrite Z.mul_1_l. exact L.
Qed.

(** [s] comes to a state that yields [n0] after [m] draws. *)
Definition yields_after (m : nat) (n0 : Z) (s : RandState) : Prop := draw P b (Nat.iter m next s) = Some n0.

Lemma reaches s x : rand_ok s -> 0 <= x < 2 ^ 48 -> exists m, Z.of_nat m < 2 ^ 48 /\ state48 (next (Nat.iter m next s)) = x.
Proof.
  intros Hs Hx. set (t := mkRandState (x mod 2 ^ 16) (x / 2 ^ 16 mod 2 ^ 16) (x / 2 ^ 32)).
  assert (rand_ok t) as Ht by (split; cbn; [apply Z.mod_pos_bound; lia|apply Z.mod_pos_bound; lia|split; [apply Z.div_pos; lia|apply Z.div_lt_upper_bound; lia]]).
  destruct (generator_reaches (next s) t (dorand48_ok s) Ht) as (m & Lm & Em). exists m. split; [exact Lm|].
  change next with _dorand48 in *. rewrite <- Nat.iter_succ, Nat.iter_succ_r, Em. unfold state48, t. cbn.
  change (2 ^ 32) with (2 ^ 16 * 2 ^ 16). rewrite <- Z.div_div by lia. pose proof (Z.div_mod x (2 ^ 16)). pose proof (Z.div_mod (x / 2 ^ 16) (2 ^ 16)). lia.
Qed.

Lemma yields_zero s : rand_ok s -> exists m, Z.of_nat m < 2 ^ 48 /\ yields_after m 0 s.
Proof. intros Hs. destruct (reaches s 1 Hs ltac:(lia)) as (m & Lm & Em). exists m. split; [exact Lm|exact (draw_first _ Em)]. Qed.

(** Some number other than [first] comes up. *)
Lemma yields_other s first : 2 <= P -> rand_ok s -> exists m n, Z.of_nat m < 2 ^ 48 /\ yields_after m n s /\ n <> first.
Proof.
  intros P2 Hs. destruct (decide (first = 0)) as [-> |N].
  - destruct (reaches s (7 * 2 ^ 45) Hs ltac:(lia)) as (m & Lm & Em). destruct (draw_second _ P2 Em) as (n & En & Hn). exists m, n. split_and!; [exact Lm|exact En|lia].
  - destruct (yields_zero s Hs) as (m & Lm & Em). exists m, 0. split_and!; [exact Lm|exact Em|lia].
Qed.

Lemma linear_rand_until n0 m : forall fuel s, yields_after m n0 s -> (m < fuel)%nat ->
  exists m' n, (m' <= m)%nat /\ linear_rand fuel P b s = Ok (n, Nat.iter (S m') next s) /\ 0 <= n < P /\ (m' = m -> n = n0).
Proof.
  induction m as [|m IH]; intros fuel s Y Hf; (destruct fuel as [|fuel]; [lia|]); rewrite linear_rand_draw; unfold yields_after in Y.
  - cbn in Y. rewrite Y. exists 0%nat, n0. split_and!; [lia|reflexivity|apply (draw_range s _ Y)..|auto].
  - rewrite Nat.iter_succ_r in Y. destruct (draw P b s) as [n|] eqn:E.
    + exists 0%nat, n. split_and!; [lia|reflexivity|apply (draw_range s _ E)..|lia].
    + destruct (IH fuel (next s) Y ltac:(lia)) as (m' & n & Lm & El & Hn & Hm). exists (S m'), n. split_and!; [lia| |apply Hn..|].
      * rewrite El, (Nat.iter_succ_r (S m')). reflexivity.
      * intros. apply Hm. lia.
Qed.

Lemma iter_next_ok m s : rand_ok (Nat.iter (S m) next s).
Proof. apply dorand48_ok. Qed.

Lemma linear_rand_ends fuel s : rand_ok s -> 2 ^ 48 <= Z.of_nat fuel -> exists n s', linear_rand fuel P b s = Ok (n, s') /\ 0 <= n < P /\ rand_ok s'.
Proof.
  intros Hs Hf. destruct (yields_zero s Hs) as (m & Lm & Y). destruct (linear_rand_until 0 m fuel s Y ltac:(lia)) as (m' & n & _ & E & Hn & _).
  exists n, (Nat.iter (S m') next s). split_and!; [exact E|apply Hn..|apply iter_next_ok].
Qed.

Lemma draw_other_ends fuel first n0 : n0 <> first -> forall m rounds second s, yields_after m n0 s -> Z.of_nat m < 2 ^ 48 -> 2 ^ 48 <= Z.of_nat fuel ->
  (m < rounds)%nat -> 0 <= second < P -> rand_ok s ->
  exists n s', draw_other fuel rounds first second P b s = Ok (n, s') /\ 0 <= n < P /\ n <> first /\ rand_ok s'.
Proof.
  intros N m. induction m as [m IH] using lt_wf_ind. intros rounds second s Y Lm Hf Hr Hs2 Hs. destruct rounds as [|rounds]; [lia|].
  cbn [draw_other]. destruct (Z.eqb_spec first second) as [Eq|Ne]; [|exists second, s; split_and!; [reflexivity|apply Hs2..|congruence|exact Hs]].
  destruct (linear_rand_until n0 m fuel s Y ltac:(lia)) as (m' & n & Lm' & El & Hn & Hm). rewrite El. cbn [rbind].
  destruct (decide (m' = m)) as [Em|Nm].
  - assert ((first =? n) = false) as Ef by (apply Z.eqb_neq; rewrite (Hm Em); congruence).
    exists n, (Nat.iter (S m') next s). split_and!; [|apply Hn..|rewrite (Hm Em); exact N|apply iter_next_ok].
    destruct rounds; cbn [draw_other]; rewrite Ef; reflexivity.
  - apply (IH (m - S m')%nat); [lia| |lia|exact Hf|lia|exact Hn|apply iter_next_ok].
    unfold yields_after in *. rewrite <- Nat.iter_add. replace (m - S m' + S m')%nat with m by lia. exact Y.
Qed.

Lemma select_parents_ok fuel s : rand_ok s -> 2 ^ 48 <= Z.of_nat fuel ->
  exists first second s', select_parents fuel P b s = Ok (first, second, s') /\ 0 <= first < P /\ 0 <= second < P
    /\ (1 < P -> first <> second) /\ rand_ok s'.
Proof.
  intros Hs Hf. unfold select_parents. destruct (linear_rand_ends fuel s Hs Hf) as (first & s1 & -> & H1 & R1). cbn [rbind].
  destruct (linear_rand_ends fuel s1 R1 Hf) as (second & s2 & -> & H2 & R2). cbn [rbind]. destruct (Z.ltb_spec 1 P) as [L|L].
  - destruct (yields_other s2 first ltac:(lia) R2) as (m & n0 & Lm & Y & N).
    destruct (draw_other_ends fuel first n0 N m fuel second s2 Y Lm Hf ltac:(lia) H2 R2) as (n & s3 & -> & H3 & N3 & R3).
    cbn [rbind]. exists first, n, s3. split_and!; [reflexivity|lia..|congruence|exact R3].
  - exists first, second, s2. split_and!; [reflexivity|lia..|exact R2].
Qed.
End select.

(** The copies of the parents are tours. *)
Lemma geqo_selection_ok fuel momma daddy data n b s : (0 < length data)%nat -> Z.of_nat (length data) < 2 ^ 31 -> bias_ok b -> 2 ^ 48 <= Z.of_nat fuel ->
  0 <= n -> Forall (fun c => is_tour n (string c)) data -> (Z.to_nat n <= length (string momma))%nat -> (Z.to_nat n <= length (string daddy))%nat -> rand_ok s ->
  exists i j x y momma' daddy' s', geqo_selection fuel momma daddy data n b s = Ok (momma', daddy', s') /\ data !! i = Some x /\ data !! j = Some y
    /\ ((1 < length data)%nat -> i <> j) /\ worth momma' = worth x /\ worth daddy' = worth y
    /\ take (Z.to_nat n) (string momma') = take (Z.to_nat n) (string x) /\ take (Z.to_nat n) (string daddy') = take (Z.to_nat n) (string y)
    /\ length (string momma') = length (string momma) /\ length (string daddy') = length (string daddy) /\ rand_ok s'.
Proof.
  intros L0 L31 Bo Hf Hn F Lm Ld Rs. unfold geqo_selection.
  destruct (select_parents_ok (Z.of_nat (length data)) ltac:(lia) b Bo fuel s Rs Hf) as (first & second & s' & -> & H1 & H2 & N & Rs'). cbn [rbind].
  destruct (lookup_lt_is_Some_2 data (Z.to_nat first)) as [x Ex]; [lia|]. destruct (lookup_lt_is_Some_2 data (Z.to_nat second)) as [y Ey]; [lia|].
  pose proof (tour_length n _ (Forall_lookup_1 _ _ _ _ F Ex)) as Lx. pose proof (tour_length n _ (Forall_lookup_1 _ _ _ _ F Ey)) as Ly.
  rewrite (array_at_ok data first x) by (lia || exact Ex). cbn [rbind]. rewrite geqo_copy_ok by (assumption || lia). cbn [rbind].
  rewrite (array_at_ok data second y) by (lia || exact Ey). cbn [rbind]. rewrite geqo_copy_ok by (assumption || lia). cbn [rbind].
  exists (Z.to_nat first), (Z.to_nat second), x, y. do 3 eexists. split_and!; [reflexivity|exact Ex|exact Ey|lia|reflexivity..| | | | |exact Rs']; cbn [string].
  all: rewrite ?length_app, ?length_take, ?length_drop; try lia; rewrite take_app_le by (rewrite length_take; lia); rewrite take_take, Nat.min_id; reflexivity.
Qed.

(** C14: choosing the parents ends. linear_rand draws until the index lies in the pool and
    geqo_selection repeats that until the two indexes differ; for a pool of any size and a
    bias between 1.5 and 2.0 (the range of geqo_selection_bias), whatever the state of the
    generator, [2^48] draws for each index and [2^48] rounds are enough: geqo_selection returns copies of
    two individuals of the pool, at different positions if it has more than one. *)
Theorem geqo_selection_ends fuel momma daddy data n bias s : (0 < length data)%nat -> Z.of_nat (length data) < 2 ^ 31 ->
  bias_ok bias -> 2 ^ 48 <= Z.of_nat fuel -> 0 <= n -> Forall (fun c => is_tour n (string c)) data ->
  (Z.to_nat n <= length (string momma))%nat -> (Z.to_nat n <= length (string daddy))%nat -> rand_ok s ->
  exists i j x y momma' daddy' s', geqo_selection fuel momma daddy data n bias s = Ok (momma', daddy', s')
    /\ data !! i = Some x /\ data !! j = Some y /\ ((1 < length data)%nat -> i <> j)
    /\ worth momma' = worth x /\ take (Z.to_nat n) (string momma') = take (Z.to_nat n) (string x)
    /\ worth daddy' = worth y /\ take (Z.to_nat n) (string daddy') = take (Z.to_nat n) (string y) /\ rand_ok s'.
Proof.
  intros L0 L31 Bo Hf Hn F Lm Ld Rs. destruct (geqo_selection_ok fuel momma daddy data n bias s L0 L31 Bo Hf Hn F Lm Ld Rs)
    as (i & j & x & y & m & d & s' & E & ? & ? & ? & ? & ? & ? & ? & _ & _ & ?).
  exists i, j, x, y, m, d, s'. split_and!; assumption.
Qed.

(** A pool of two, and the smallest bias. *)
Lemma geqo_selection_ends_witness : let c t w := mkChromosome t (i2d w) in
  exists momma' daddy' s', geqo_selection (Z.to_nat (2 ^ 48)) (c [0; 0] 0) (c [0; 0] 0) [c [1; 2] 10; c [2; 1] 20] 2 (dlit 3 2) (mkRandState 1 2 3) = Ok (momma', daddy', s')
    /\ worth momma' <> worth daddy'.
Proof.
  intros c. destruct (geqo_selection_ends (Z.to_nat (2 ^ 48)) (c [0; 0] 0) (c [0; 0] 0) [c [1; 2] 10; c [2; 1] 20] 2 (dlit 3 2) (mkRandState 1 2 3))
    as (i & j & x & y & m & d & s' & E & Ex & Ey & N & Wm & _ & Wd & _).
  - cbn. lia.
  - cbn. lia.
  - split; [reflexivity|apply Z.leb_le; vm_compute; reflexivity|apply Z.leb_le; vm_compute; reflexivity].
  - rewrite Z2Nat.id by lia. reflexivity.
  - lia.
  - repeat constructor.
  - cbn. lia.
  - cbn. lia.
  - split; cbn; lia.
  - exists m, d, s'. split; [exact E|clear E]. rewrite Wm, Wd. specialize (N ltac:(cbn; lia)).
    destruct i as [|[|i]], j as [|[|j]]; try discriminate; try congruence; cbn in Ex, Ey; injection Ex as <-; injection Ey as <-; discriminate.
Defined.
