(* ===== verification/GeqoTreeSpec.v ===== *)
(** Join trees of the genetic search: for a query of inner joins gimme_tree makes a join
    of all relations out of every tour, and geqo_eval leaves the search as it was. *)
From Stdlib Require Import Permutation.
From stdpp Require Import gmap relations.
From S2P Require Import Prelude Float64 Double DoubleOrder DoubleDiv DoubleRound DoubleUnit Bitmapset BitmapsetSpec PlanTypes Samples Pathkeys PathCompare AddPath Cheapest CostExpr CostBase CostScan CostScanSpec CostNode HashSize CostJoin CostJoinSpec SizeEst SizeEstSpec ParamInfo CreatePath CreatePathSpec UpperPathSpec MergeKeys MergeKeysSpec JoinPath QualCover JoinPathSpec JoinSearchSpec JoinLegal JoinLegalSpec BuildRel BuildRelSpec JoinOrder JoinParts JoinNodeSpec JoinOrderSpec GeqoTour GeqoTourSpec Geqo.
Open Scope Z_scope.

(** ** Sets of inputs *)

(** No two of the sets share an element. *)
Fixpoint apart (l : list (gset nat)) : Prop :=
  match l with [] => True | p :: l => Forall (fun q => p ## q) l /\ apart l end.

Lemma apart_perm l l' : l ≡ₚ l' -> apart l -> apart l'.
Proof.
  induction 1 as [|x l l' P IH|x y l|l l' l'' _ IH1 _ IH2]; cbn [apart]; [auto| | |auto].
  - intros [F A]. split; [rewrite <- P; exact F|auto].
  - intros [F1 [F2 A]]. inversion_clear F1 as [|? ? D F1']. split_and!; [constructor; [symmetry; exact D|exact F2]|exact F1'|exact A].
Qed.

(** Merging two of them. *)
Lemma apart_merge p q l : apart (p :: q :: l) -> apart (p ∪ q :: l).
Proof.
  cbn [apart]. intros [F1 [F2 A]]. inversion_clear F1 as [|? ? _ F1']. split; [|exact A].
  rewrite Forall_forall in *. intros x Hx. apply disjoint_union_l. auto.
Qed.

Lemma apart_sub p q l x : apart (p :: q :: l) -> x ∈ p :: q :: l -> p ∪ q ⊆ x -> p = ∅ \/ q = ∅.
Proof.
  cbn [apart]. intros [F1 [F2 A]] Hx Sub. inversion_clear F1 as [|? ? D F1']. rewrite Forall_forall in *.
  apply elem_of_cons in Hx as [->|Hx]; [right; set_solver|]. apply elem_of_cons in Hx as [->|Hx]; [left; set_solver|].
  left. specialize (F1' x Hx). set_solver.
Qed.

(** ** The state *)

Section tree.
Context `{Libm, Settings, Catalog, Estimator, Equivalences, PathSupport, EClasses, JoinSupport, SearchSupport}.
Context `{!CatalogLaws, !EstimatorLaws, !EquivalenceLaws, !LibmOrder, !JoinSupportLaws} (So : settings_ok).
Context (root : SearchRoot) (base : list RelNode) (inputs old_joins : list nat) (initial : list Relids).
Context (query : list RestrictInfo) (e w : Z).
Context (Iq : inner_query root base inputs old_joins initial query e w).

Abbreviation described := (described root base initial query e w).
Abbreviation caches_ok := (caches_ok root).

(** The relations of the query are as at the start; the lists by level are not in use. *)
Record tree_base (st : SearchState) : Prop := {
  tr_base : base `prefix_of` ss_rels st;
  tr_infos : ss_infos st = [];
  tr_table : exists entries, table_ok st entries;
  tr_caches : caches_ok (ss_canon st) (ss_scansel st) (ss_buckets st);
  tr_levels : join_rel_level st = None;
  tr_ready : forall r node, r ∈ inputs -> base !! r = Some node -> ready (ss_canon st) node;
}.

(** ** A new join relation *)

Lemma tree_build st r1 r2 p q n1 n2 : tree_base st -> ss_rels st !! r1 = Some n1 -> ss_rels st !! r2 = Some n2 ->
  described p n1 -> described q n2 -> p ## q ->
  (forall r node, r ∈ join_rel_list st -> ss_rels st !! r = Some node -> composed initial (p ∪ q) (rn_relids node) -> False) ->
  exists st' node rids, let j := length (ss_rels st) in
    build_join_rel root (bms_union (rn_relids n1) (rn_relids n2)) r1 r2 (sj_info (inner_sjinfo n1 n2)) st
      = Ok (st', j, build_joinrel_restrictlist rids n1 n2)
    /\ tree_base st' /\ ss_rels st' = ss_rels st ++ [node] /\ join_of root base initial query e w p q n1 n2 node /\ pending (ss_canon st') node
    /\ join_rel_list st' = join_rel_list st ++ [j] /\ ss_canon st' = ss_canon st /\ is_dummy_rel node = false.
Proof.
  intros Tb Hr1 Hr2 D1 D2 Ap New. pose proof (ds_composed _ _ _ _ _ _ _ _ D1) as C1. pose proof (ds_composed _ _ _ _ _ _ _ _ D2) as C2.
  destruct (composed_union initial p q _ _ C1 C2) as [Cu _]. set (rids := bms_union _ _) in *.
  unfold build_join_rel, rel_at. rewrite Hr1, Hr2. cbn [deref rbind]. destruct (tr_table _ Tb) as [entries T].
  destruct (find_join_rel_ok st entries rids T (cs_wf _ _ _ Cu)) as (hash & -> & T'). cbn [rbind].
  destruct (find_entry entries rids) as [j|] eqn:Fe.
  { exfalso. apply find_entry_some in Fe as (i & en & Hi & <- & Eq).
    destruct (Forall2_lookup_r _ _ _ _ _ (tb_entries _ _ T) Hi) as (r & Hl & node & Hn & ->). cbn [fst snd] in *.
    assert (bms_wf (rn_relids node)) as Wn by (pose proof (tb_wf _ _ T) as W; rewrite Forall_forall in W; apply (W _ (list_elem_of_lookup_2 _ _ _ Hi))).
    exact (New r node (list_elem_of_lookup_2 _ _ _ Hl) Hn (composed_bms_equal initial _ _ _ Cu Wn Eq)). }
  destruct (iq_rows _ _ _ _ _ _ _ _ Iq) as [He Hc], (iq_width _ _ _ _ _ _ _ _ Iq) as [Hw Wc].
  destruct (make_join_node_ok root base initial query e w (iq_clauses _ _ _ _ _ _ _ _ Iq) (iq_clauses_ok _ _ _ _ _ _ _ _ Iq) He Hw Hc Wc (with_hash st hash)
    (sj_info (inner_sjinfo n1 n2)) p q n1 n2 (tr_base _ Tb) (iq_placeholders _ _ _ _ _ _ _ _ Iq)
    (fkeys_st root base inputs old_joins initial query e w Iq _ (tr_base _ Tb)) eq_refl D1 D2 Ap)
    as (node & E & Dn & Gn & Er & Ep). fold rids in E, Er. rewrite E. cbn [rbind].
  assert (table_ok (set_rels (with_hash st hash) (ss_rels st ++ [node])) entries) as T1.
  { destruct T' as [Te Tw Td Th]. split; try assumption. cbn. eapply Forall2_impl; [exact Te|]. intros r en (rel & Hr & ->).
    exists rel. split; [apply lookup_app_l_Some, Hr|reflexivity]. }
  change (ss_rels (with_hash st hash)) with (ss_rels st). set (j := length (ss_rels st)) in *.
  assert ((ss_rels st ++ [node]) !! j = Some node) as Hj by (apply list_lookup_middle; reflexivity).
  rewrite <- Er in Fe. destruct (add_join_rel_ok _ entries j node T1 Hj (cs_wf _ _ _ (ds_composed _ _ _ _ _ _ _ _ Dn)) Fe) as (hash2 & E2 & T2).
  rewrite E2. cbn [rbind]. unfold add_to_level. cbn [join_rel_level set_join_rels set_rels]. rewrite (tr_levels _ Tb : join_rel_level (with_hash st hash) = None). cbn [rbind].
  eexists _, node, rids. split; [reflexivity|]. split_and!; try reflexivity; [split; cbn|split; assumption|right; split; [exact Gn|rewrite Ep; reflexivity]|].
  - apply prefix_app_r, Tb.
  - apply Tb.
  - eexists. exact T2.
  - apply Tb.
  - apply Tb.
  - apply Tb.
  - unfold is_dummy_rel. rewrite Ep. reflexivity.
Qed.

Lemma tree_grow st j node canon scansel buckets : tree_base st -> (length base <= j)%nat ->
  (forall old, ss_rels st !! j = Some old -> rn_relids node = rn_relids old) -> ss_canon st `prefix_of` canon -> caches_ok canon scansel buckets ->
  tree_base (set_caches (set_rel st j node) canon scansel buckets).
Proof.
  intros [B I [en T] C L R] Lj Er G K. split; cbn; [apply prefix_insert; assumption|exact I| |exact K|exact L|].
  - exists en. destruct (decide (j < length (ss_rels st))%nat) as [Lt|Ge].
    + destruct (lookup_lt_is_Some_2 _ _ Lt) as [old Ho]. eapply table_update; [exact T|exact Ho|exact (Er old Ho)].
    + unfold set_rel. rewrite list_insert_ge by lia. destruct T as [Te Tw Td Th]. split; assumption.
  - intros r n Hr Hn. eapply ready_grow; [exact G|exact (R r n Hr Hn)].
Qed.

(** A relation that is done has a cheapest path. *)
Lemma ready_path canon node : ready canon node -> exists p, cheapest_total_path (rn_paths node) = Some p.
Proof. intros [D|[_ _ _ (p & E & _)]]; [|eauto]. unfold is_dummy_rel in D. destruct (cheapest_total_path (rn_paths node)); [eauto|discriminate]. Qed.

(** make_join_rel, the gather paths and set_cheapest for two relations that were not
    joined before. *)
Lemma tree_join st r1 r2 p q n1 n2 : tree_base st -> ss_rels st !! r1 = Some n1 -> ss_rels st !! r2 = Some n2 ->
  described p n1 -> described q n2 -> p ## q -> (0 < size p)%nat -> (0 < size q)%nat -> ready (ss_canon st) n1 -> ready (ss_canon st) n2 ->
  (forall r node, r ∈ join_rel_list st -> ss_rels st !! r = Some node -> composed initial (p ∪ q) (rn_relids node) -> False) ->
  exists st1 st2 node, let j := length (ss_rels st) in
    make_join_rel root r1 r2 st = Ok (st1, Some j) /\ finish_rel j st1 = Ok st2 /\ tree_base st2
    /\ ss_rels st2 = ss_rels st ++ [node] /\ described (p ∪ q) node /\ ready (ss_canon st2) node
    /\ join_rel_list st2 = join_rel_list st ++ [j] /\ ss_canon st `prefix_of` ss_canon st2.
Proof.
  intros Tb Hr1 Hr2 D1 D2 Ap S1 S2 Rd1 Rd2 New. cbv zeta. set (j := length (ss_rels st)).
  destruct (tree_build st r1 r2 p q n1 n2 Tb Hr1 Hr2 D1 D2 Ap New) as (st0 & node & rids & E0 & Tb0 & Es & Jo & Pn & Ej & Ec & Nd). fold j in E0.
  unfold make_join_rel, rel_at. rewrite Hr1, Hr2. cbn [deref rbind].
  rewrite (check_legal_ok root base inputs old_joins initial query e w Iq st r1 r2 n1 n2 _ (tr_infos _ Tb) Hr1 Hr2). cbn [rbind snd]. rewrite E0. cbn [rbind].
  assert (ss_rels st0 !! j = Some node) as Hj by (rewrite Es; apply list_lookup_middle; reflexivity).
  assert (ss_rels st0 !! r1 = Some n1) as Hr1' by (rewrite Es; apply lookup_app_l_Some, Hr1).
  assert (ss_rels st0 !! r2 = Some n2) as Hr2' by (rewrite Es; apply lookup_app_l_Some, Hr2).
  rewrite Hj. cbn [deref rbind]. rewrite Nd. rewrite <- Ec in Rd1, Rd2. pose proof (prefix_length _ _ (tr_base _ Tb)) as Lb. fold j in Lb.
  destruct (populate_node So root base inputs old_joins initial query e w Iq st0 j r1 r2 p q n1 n2 node rids (tr_base _ Tb0) Lb (tr_caches _ Tb0) Hj Hr1' Hr2' Jo S1 S2 Pn Nd Rd1 Rd2)
    as (node' & canon & sc & bk & E1 & [Fr Fd Fp Ff] & G & K). rewrite E1. cbn [rbind].
  assert (empty_rel node' \/ (growing canon node' /\ alive (rn_paths node'))) as Fn by (destruct Fp as [?|[? _]], Ff as [?|?]; auto).
  destruct (finish_node So canon node' Fn) as (paths & F1 & F2 & F3 & F4). eexists _, _, (set_rn_paths node' paths). split; [reflexivity|].
  unfold finish_rel, rel_at. cbn [ss_rels set_caches set_rel set_rels]. rewrite list_lookup_insert_eq by (eapply lookup_lt_Some, Hj). cbn [deref rbind].
  rewrite F1. cbn [rbind]. rewrite F2. split; [reflexivity|].
  split_and!.
  - pose proof (tree_grow st0 j (set_rn_paths node' paths) canon sc bk Tb0 Lb) as Tg. unfold set_rel, set_rels, set_caches in *. cbn in *.
    rewrite list_insert_insert_eq. apply Tg; [intros old Ho; simplify_eq; exact Fr|exact G|exact K].
  - cbn. rewrite list_insert_insert_eq. rewrite Es. replace j with (length (ss_rels st) + 0)%nat by (unfold j; lia). rewrite insert_app_r. reflexivity.
  - destruct Fd as [C R V W J]. split; assumption.
  - exact F4.
  - exact Ej.
  - cbn. rewrite <- Ec. exact G.
Qed.

(** ** Clumps *)

(** A clump is the join of the inputs in [p]. *)
Definition clump_at (st : SearchState) (c : Clump) (p : gset nat) : Prop :=
  exists node, ss_rels st !! clump_joinrel c = Some node /\ described p node /\ ready (ss_canon st) node
    /\ clump_size c = Z.of_nat (size p) /\ (0 < size p)%nat.

(** The clumps share no input and cover [cover]; join relations made on the way are parts
    of them. *)
Record tree_inv (cover : gset nat) (clumps : list Clump) (st : SearchState) (parts : list (gset nat)) : Prop := {
  ti_base : tree_base st;
  ti_clumps : Forall2 (clump_at st) clumps parts;
  ti_apart : apart parts;
  ti_cover : ⋃ parts = cover;
  ti_joins : forall r, r ∈ join_rel_list st -> r ∈ old_joins
               \/ exists node p p', ss_rels st !! r = Some node /\ described p' node /\ p ∈ parts /\ p' ⊆ p;
}.

Lemma tree_inv_perm cover clumps clumps' st parts : clumps ≡ₚ clumps' -> tree_inv cover clumps st parts ->
  exists parts', tree_inv cover clumps' st parts' /\ parts ≡ₚ parts'.
Proof.
  intros P [B C A Co J]. destruct (Permutation_Forall2 P C) as (parts' & P' & C'). exists parts'. split; [|exact P']. split.
  - exact B.
  - exact C'.
  - exact (apart_perm _ _ P' A).
  - rewrite <- Co. symmetry. apply leibniz_equiv. rewrite P'. reflexivity.
  - intros r Hr. destruct (J r Hr) as [O|(node & p & p' & Hn & D & Hp & Sub)]; [auto|]. right. exists node, p, p'. rewrite <- P'. auto.
Qed.

Lemma clump_at_grow st st' c p : ss_rels st `prefix_of` ss_rels st' -> ss_canon st `prefix_of` ss_canon st' -> clump_at st c p -> clump_at st' c p.
Proof.
  intros Pr Pc (node & Hn & D & R & Sz). exists node. split_and!; [exact (prefix_lookup_Some _ _ _ _ Hn Pr)|exact D|exact (ready_grow _ _ _ Pc R)|apply Sz..].
Qed.

(** Two clumps are joined. *)
Lemma tree_merge cover c1 c2 rest st parts : tree_inv cover (c1 :: c2 :: rest) st parts ->
  exists st1 st2 j parts', make_join_rel root (clump_joinrel c1) (clump_joinrel c2) st = Ok (st1, Some j) /\ finish_rel j st1 = Ok st2
    /\ tree_inv cover (mkClump j (clump_size c1 + clump_size c2) :: rest) st2 parts' /\ ss_rels st `prefix_of` ss_rels st2
    /\ join_rel_list st `prefix_of` join_rel_list st2.
Proof.
  intros [B C A Co J]. inversion C as [|? p ? ps (n1 & Hn1 & D1 & R1 & Z1 & S1) C1]; subst. inversion C1 as [|? q ? rest' (n2 & Hn2 & D2 & R2 & Z2 & S2) C2]; subst.
  assert (p ## q) as Ap by (destruct A as [F _]; inversion F; assumption).
  destruct (tree_join st (clump_joinrel c1) (clump_joinrel c2) p q n1 n2 B Hn1 Hn2 D1 D2 Ap S1 S2 R1 R2) as (st1 & st2 & node & E1 & E2 & B2 & Es & D & R & Ej & Pc).
  { intros r node Hr Hn Cp. destruct (J r Hr) as [O|(node' & x & p' & Hn' & D' & Hx & Sub)].
    - destruct (iq_old _ _ _ _ _ _ _ _ Iq r O) as (n & Hb & Small). pose proof (prefix_lookup_Some _ _ _ _ Hb (tr_base _ B)) as Hb'. simplify_eq.
      specialize (Small _ Cp). rewrite size_union in Small by exact Ap. lia.
    - simplify_eq. assert (p' = p ∪ q) as ->.
      { apply (composed_equal initial (iq_apart _ _ _ _ _ _ _ _ Iq) _ _ _ _ (ds_composed _ _ _ _ _ _ _ _ D') Cp).
        apply bms_equal_subset; [apply Cp|apply Cp|]. split; intros y; auto. }
      destruct (apart_sub p q rest' x A Hx Sub) as [-> | ->]; [rewrite size_empty in S1; lia|rewrite size_empty in S2; lia]. }
  assert (ss_rels st `prefix_of` ss_rels st2) as Pr by (rewrite Es; eexists; reflexivity).
  exists st1, st2, (length (ss_rels st)), ((p ∪ q) :: rest'). split_and!; [exact E1|exact E2| |exact Pr|rewrite Ej; eexists; reflexivity]. split.
  - exact B2.
  - constructor; [|eapply Forall2_impl; [exact C2|intros; eapply clump_at_grow; eassumption]].
    exists node. split_and!; [rewrite Es; apply list_lookup_middle; reflexivity|exact D|exact R| |rewrite size_union by exact Ap; lia].
    cbn. rewrite size_union by exact Ap. lia.
  - exact (apart_merge _ _ _ A).
  - cbn. symmetry. apply (assoc_L _).
  - intros r Hr. rewrite Ej in Hr. apply elem_of_app in Hr as [Hr|Hr].
    + destruct (J r Hr) as [O|(node' & x & p' & Hn' & D' & Hx & Sub)]; [auto|right].
      assert (exists y, y ∈ (p ∪ q) :: rest' /\ p' ⊆ y) as (y & Hy & Suby).
      { apply elem_of_cons in Hx as [->|Hx]; [exists (p ∪ q); split; [left|etransitivity; [exact Sub|apply union_subseteq_l]]|].
        apply elem_of_cons in Hx as [->|Hx]; [exists (p ∪ q); split; [left|etransitivity; [exact Sub|apply union_subseteq_r]]|exists x; split; [right; exact Hx|exact Sub]]. }
      exists node', y, p'. split_and!; [exact (prefix_lookup_Some _ _ _ _ Hn' Pr)|exact D'|exact Hy|exact Suby].
    + right. apply list_elem_of_singleton in Hr as ->. exists node, (p ∪ q), (p ∪ q). split_and!; [rewrite Es; apply list_lookup_middle; reflexivity|exact D|left|reflexivity].
Qed.

(** ** Merging a clump *)

Lemma desirable_join_ok st c1 c2 p q : tree_base st -> clump_at st c1 p -> clump_at st c2 q ->
  exists b, desirable_join root (clump_joinrel c1) (clump_joinrel c2) st = Ok (st, b).
Proof.
  intros B (n1 & Hn1 & _) (n2 & Hn2 & _). unfold desirable_join, have_join_order_restriction, rel_at. rewrite Hn1, Hn2, (tr_infos _ B). cbn [deref rbind].
  destruct (have_relevant_joinclause n1 n2); [eauto|]. case_match; [eauto|]. case_match; eauto.
Qed.

(** What the routines keep: the state stays in order, relations are only added. *)
Definition kept (cover : gset nat) (clumps : list Clump) (st st' : SearchState) : Prop :=
  (exists parts, tree_inv cover clumps st' parts) /\ ss_rels st `prefix_of` ss_rels st' /\ join_rel_list st `prefix_of` join_rel_list st'.

Lemma absorb_clump_ok cover new frame force st : forall after before parts, tree_inv cover (new :: before ++ after ++ frame) st parts ->
  exists st' found, absorb_clump root before after new force st = Ok (st', found)
    /\ match found with
       | None => st' = st /\ (force = true -> after = [])
       | Some (clumps, c) => kept cover (c :: clumps ++ frame) st st' /\ S (length clumps) = length (before ++ after)
       end.
Proof.
  induction after as [|old after IH]; intros before parts T; cbn [absorb_clump]; [exists st, None; auto|].
  assert (new :: before ++ (old :: after) ++ frame ≡ₚ old :: new :: (before ++ after) ++ frame) as P.
  { rewrite <- app_assoc. cbn. rewrite <- Permutation_middle. apply Permutation_swap. }
  destruct (tree_inv_perm _ _ _ _ _ P T) as (parts' & T' & _). pose proof (ti_clumps _ _ _ _ T') as C.
  inversion C as [|? p ? ps C1 Cs]; subst. inversion Cs as [|? q ? qs C2 _]; subst.
  assert (exists b, (if force then Ok (st, true) else desirable_join root (clump_joinrel old) (clump_joinrel new) st) = Ok (st, b) /\ (force = true -> b = true))
    as (b & -> & Hb).
  { destruct force; [eauto|]. destruct (desirable_join_ok st old new p q (ti_base _ _ _ _ T') C1 C2) as (b & ->). exists b. split; [reflexivity|discriminate]. }
  cbn [rbind]. destruct b.
  - destruct (tree_merge cover old new ((before ++ after) ++ frame) st _ T') as (st1 & st2 & j & parts2 & -> & E2 & T2 & Pr & Pj). cbn [rbind]. rewrite E2. cbn [rbind].
    exists st2. eexists. split; [reflexivity|]. split; [split; [eauto|split; [exact Pr|exact Pj]]|]. rewrite !length_app. cbn. lia.
  - cbn [rbind]. destruct (IH (before ++ [old]) parts) as (st' & found & E & F); [rewrite <- app_assoc; exact T|]. rewrite E. exists st', found. split; [reflexivity|].
    destruct found as [[clumps c]|]; [|destruct F as [-> _]; split; [reflexivity|]; intros Hf; specialize (Hb Hf); discriminate].
    rewrite <- app_assoc in F. exact F.
Qed.

Lemma insert_after_perm c l : insert_after c l ≡ₚ c :: l.
Proof. induction l as [|x l IH]; cbn [insert_after]; [reflexivity|]. case_match; [reflexivity|]. rewrite IH. apply Permutation_swap. Qed.

Lemma insert_clump_perm l c : insert_clump l c ≡ₚ c :: l.
Proof.
  destruct l as [|x l]; cbn [insert_clump]; [reflexivity|]. repeat case_match; [|reflexivity|].
  - rewrite Permutation_app_comm. reflexivity.
  - rewrite insert_after_perm. apply Permutation_swap.
Qed.

Lemma kept_trans cover c1 c2 st st1 st2 : kept cover c1 st st1 -> kept cover c2 st1 st2 -> kept cover c2 st st2.
Proof. intros (_ & R1 & J1) (T & R2 & J2). split_and!; [exact T|etransitivity; eassumption..]. Qed.

Lemma merge_loop_ok cover frame force fuel : forall clumps new st parts, (length clumps < fuel)%nat ->
  tree_inv cover (new :: clumps ++ frame) st parts ->
  exists st' clumps', merge_loop root fuel clumps new force st = Ok (st', clumps') /\ kept cover (clumps' ++ frame) st st'
    /\ clumps' <> [] /\ (force = true -> length clumps' = 1%nat).
Proof.
  induction fuel as [|fuel IH]; intros clumps new st parts L T; [lia|]. cbn [merge_loop].
  destruct (absorb_clump_ok cover new frame force st clumps [] parts T) as (st1 & found & -> & F). cbn [rbind]. destruct found as [[clumps1 c]|].
  - destruct F as (K1 & L1). pose proof K1 as ((parts1 & T1) & _). cbn in L1. destruct (IH clumps1 c st1 parts1 ltac:(lia) T1) as (st2 & clumps2 & -> & K2 & N & F).
    exists st2, clumps2. split_and!; [reflexivity|exact (kept_trans _ _ _ _ _ _ K1 K2)|exact N|exact F].
  - destruct F as [-> F]. exists st, (insert_clump clumps new). split_and!; [reflexivity| | |].
    + assert (new :: clumps ++ frame ≡ₚ insert_clump clumps new ++ frame) as P by (rewrite insert_clump_perm; reflexivity).
      destruct (tree_inv_perm _ _ _ _ _ P T) as (parts' & T' & _).
      split; [eauto|split; reflexivity].
    + intros En. pose proof (insert_clump_perm clumps new) as P. rewrite En in P. apply Permutation_nil_cons in P. exact P.
    + intros Hf. rewrite (F Hf). reflexivity.
Qed.

(** ** Tours *)

(** The inputs that a list of genes names. *)
Definition named (genes : list Gene) : gset nat := list_to_set (map (fun g => Z.to_nat (g - 1)) genes).

(** The next input of a tour becomes a clump of its own. *)
Lemma tree_add cover clumps st parts i r : tree_inv cover clumps st parts -> i ∉ cover -> inputs !! i = Some r ->
  tree_inv ({[i]} ∪ cover) (mkClump r 1 :: clumps) st ({[i]} :: parts).
Proof.
  intros [B C A Co J] Ni Hr. destruct (iq_inputs _ _ _ _ _ _ _ _ Iq i r Hr) as (node & Hn & Hi & D). split.
  - exact B.
  - constructor; [|exact C]. exists node. split_and!; [exact (prefix_lookup_Some _ _ _ _ Hn (tr_base _ B))|exact D| |rewrite size_singleton; reflexivity|rewrite size_singleton; lia].
    exact (tr_ready _ B r node (list_elem_of_lookup_2 _ _ _ Hr) Hn).
  - split; [|exact A]. rewrite Forall_forall. intros q Hq. apply disjoint_singleton_l. intros Iq'. apply Ni. rewrite <- Co. apply elem_of_union_list. eauto.
  - cbn. rewrite Co. reflexivity.
  - intros r' Hr'. destruct (J r' Hr') as [O|(n & p & p' & Hn' & D' & Hp & Sub)]; [auto|]. right. exists n, p, p'. split_and!; auto. right. exact Hp.
Qed.

(** The first loop of gimme_tree. *)
Lemma tour_loop_ok n tour st : n = Z.of_nat (length inputs) -> is_tour n tour -> tree_base st -> join_rel_list st = old_joins ->
  exists st' clumps, for_each (seqZ 0 n) (fun rel_count '(st, clumps) =>
      let! cur_rel_index := array_at tour rel_count in
      let! cur_rel := array_at inputs (cur_rel_index - 1) in
      merge_clump root clumps (mkClump cur_rel 1) false st) (st, []) = Ok (st', clumps)
    /\ kept (named (take (Z.to_nat n) tour)) clumps st st' /\ (0 < n -> clumps <> []).
Proof.
  intros En Ht B Ej. pose proof (tour_length n tour Ht) as Lt.
  assert (forall i g, 0 <= i < n -> tour !! Z.to_nat i = Some g -> 1 <= g <= n) as Rg.
  { intros i g Hi Hg. assert (g ∈ take (Z.to_nat n) tour) as In by (apply (list_elem_of_lookup_2 _ (Z.to_nat i)), lookup_take_Some; split; [exact Hg|lia]).
    unfold is_tour in Ht. rewrite Ht in In. apply elem_of_seqZ in In. lia. }
  assert (NoDup (take (Z.to_nat n) tour)) as Nd by (unfold is_tour in Ht; rewrite Ht; apply NoDup_seqZ).
  destruct (for_each_seqZ (fun i '(st', clumps) => kept (named (take (Z.to_nat i) tour)) clumps st st' /\ (0 < i -> clumps <> []))
    (fun rel_count '(st, clumps) =>
      let! cur_rel_index := array_at tour rel_count in
      let! cur_rel := array_at inputs (cur_rel_index - 1) in
      merge_clump root clumps (mkClump cur_rel 1) false st) 0 n) with (st := (st, @nil Clump)) as ([st' clumps] & E & K & N); [|lia| |exists st', clumps; auto].
  - intros i [st1 clumps] Hi [K _]. destruct (lookup_lt_is_Some_2 tour (Z.to_nat i)) as [g Hg]; [lia|].
    pose proof (Rg i g ltac:(lia) Hg) as Bg. rewrite (array_at_ok tour i g) by (lia || exact Hg). cbn [rbind].
    destruct (lookup_lt_is_Some_2 inputs (Z.to_nat (g - 1))) as [r Hr]; [lia|]. rewrite (array_at_ok inputs (g - 1) r) by (lia || exact Hr). cbn [rbind].
    pose proof K as ((parts & T) & _). assert (Z.to_nat (g - 1) ∉ named (take (Z.to_nat i) tour)) as Ni.
    { unfold named. rewrite elem_of_list_to_set, list_elem_of_fmap. intros (g' & Eg & Ig). apply list_elem_of_lookup in Ig as [k Hk].
      apply lookup_take_Some in Hk as [Hk Lk]. pose proof (Rg (Z.of_nat k) g' ltac:(lia) ltac:(rewrite Nat2Z.id; exact Hk)).
      assert (g' = g) as -> by lia. rewrite NoDup_alt in Nd. specialize (Nd k (Z.to_nat i) g). rewrite !lookup_take_lt in Nd by lia. specialize (Nd Hk Hg). lia. }
    pose proof (tree_add _ _ _ _ _ _ T Ni Hr) as T1. rewrite <- (app_nil_r clumps) in T1.
    destruct (merge_loop_ok _ [] false (S (length clumps)) clumps _ st1 _ ltac:(lia) T1) as (st2 & clumps2 & E2 & K2 & N2 & _). rewrite app_nil_r in K2.
    exists (st2, clumps2). split; [exact E2|]. split; [|intros _; exact N2].
    replace (Z.to_nat (i + 1)) with (S (Z.to_nat i)) by lia. rewrite (take_S_r _ _ _ Hg).
    assert (named (take (Z.to_nat i) tour ++ [g]) = {[Z.to_nat (g - 1)]} ∪ named (take (Z.to_nat i) tour)) as ->
      by (unfold named; rewrite map_app, list_to_set_app_L; cbn; rewrite (right_id_L ∅ (∪)); apply (comm_L (∪))).
    destruct K as (_ & R1 & J1), K2 as (T2 & R2 & J2). split_and!; [exact T2|etransitivity; eassumption..].
  - split; [|lia]. split; [|split; reflexivity]. exists []. split; [exact B|constructor|exact Logic.I|reflexivity|]. intros r Hr. left. rewrite <- Ej. exact Hr.
Qed.

(** The second loop joins what is left. *)
Lemma force_loop_ok cover : forall clumps fclumps st parts, tree_inv cover (fclumps ++ clumps) st parts ->
  length fclumps = 1%nat \/ (fclumps = [] /\ clumps <> []) ->
  exists st' fclumps', for_each clumps (fun clump '(st, fclumps) => merge_clump root fclumps clump true st) (st, fclumps) = Ok (st', fclumps')
    /\ kept cover fclumps' st st' /\ length fclumps' = 1%nat.
Proof.
  induction clumps as [|c clumps IH]; intros fclumps st parts T L; cbn [for_each].
  { destruct L as [L|[_ L]]; [|done]. exists st, fclumps. rewrite app_nil_r in T. split_and!; [reflexivity| |exact L]. split; [eauto|split; reflexivity]. }
  assert (fclumps ++ c :: clumps ≡ₚ c :: fclumps ++ clumps) as P by (symmetry; apply Permutation_middle).
  destruct (tree_inv_perm _ _ _ _ _ P T) as (parts1 & T1 & _).
  destruct (merge_loop_ok cover clumps true (S (length fclumps)) fclumps c st parts1 ltac:(lia) T1) as (st1 & f1 & E1 & K1 & _ & L1).
  unfold andthen, merge_clump at 1. rewrite E1. cbn [rbind]. pose proof K1 as ((parts2 & T2) & _).
  destruct (IH f1 st1 parts2 T2 (or_introl (L1 eq_refl))) as (st2 & f2 & E2 & K2 & L2). exists st2, f2. split_and!; [exact E2|exact (kept_trans _ _ _ _ _ _ K1 K2)|exact L2].
Qed.

Lemma named_all n tour : is_tour n tour -> n = Z.of_nat (length inputs) -> size (named (take (Z.to_nat n) tour)) = length inputs.
Proof.
  intros Ht En. unfold is_tour in Ht. unfold named. rewrite size_list_to_set.
  - rewrite length_map, Ht, length_seqZ. lia.
  - rewrite Ht. apply NoDup_fmap_2_strong; [|apply NoDup_seqZ]. intros x y Hx Hy. rewrite elem_of_seqZ in Hx, Hy. lia.
Qed.

(** The join relation that gimme_tree returns. *)
Record tree_of (st st' : SearchState) (j : nat) (node : RelNode) : Prop := {
  to_node : ss_rels st' !! j = Some node;
  to_parts : exists parts, described parts node /\ size parts = length inputs;
  to_ready : ready (ss_canon st') node;
  to_base : tree_base st';
  to_rels : ss_rels st `prefix_of` ss_rels st';
  to_joins : join_rel_list st `prefix_of` join_rel_list st';
}.

Lemma gimme_tree_ok n tour st : n = Z.of_nat (length inputs) -> (1 <= length inputs)%nat -> is_tour n tour -> tree_base st -> join_rel_list st = old_joins ->
  exists st' j node, gimme_tree root inputs tour n st = Ok (st', Some j) /\ tree_of st st' j node.
Proof.
  intros En L1 Ht B Ej. unfold gimme_tree. destruct (tour_loop_ok n tour st En Ht B Ej) as (st1 & clumps & E & K & N). rewrite E. cbn [rbind].
  set (all := named _) in *. assert (exists st2 c, (if (1 <? length clumps)%nat then for_each clumps (fun clump '(st, fclumps) => merge_clump root fclumps clump true st) (st1, [])
      else Ok (st1, clumps)) = Ok (st2, [c]) /\ kept all [c] st st2) as (st2 & c & -> & K2).
  { destruct (Nat.ltb_spec 1 (length clumps)) as [L|L].
    - pose proof K as ((parts & T) & _). destruct (force_loop_ok all clumps [] st1 parts T) as (st2 & f & E2 & K2 & L2).
      { right. split; [reflexivity|]. intros ->. cbn in L. lia. }
      destruct f as [|c [|? ?]]; try (cbn in L2; lia). exists st2, c. split; [exact E2|exact (kept_trans _ _ _ _ _ _ K K2)].
    - specialize (N ltac:(lia)). destruct clumps as [|c [|? ?]]; [done| |cbn in L; lia]. exists st1, c. auto. }
  cbn [rbind]. destruct K2 as ((parts & [B2 C2 _ Co _]) & R2 & J2). inversion C2 as [|? p ? ps (node & Hn & D & Rd & _) C3]; subst. inversion C3; subst.
  exists st2, (clump_joinrel c), node. split; [reflexivity|]. split; try assumption. exists p. split; [exact D|].
  cbn in Co. rewrite (right_id_L ∅ (∪)) in Co. rewrite Co. apply named_all; [exact Ht|reflexivity].
Qed.

(** geqo_eval: the cost of the tree, and the search as before. *)
Record evaluation (n : Z) (tour : list Gene) (st st' : SearchState) : Prop := {
  ev_tree : exists st1 j node p, gimme_tree root inputs tour n (set_join_rels st (join_rel_list st) None) = Ok (st1, Some j)
    /\ tree_of (set_join_rels st (join_rel_list st) None) st1 j node /\ cheapest_total_path (rn_paths node) = Some p
    /\ geqo_eval root inputs tour n st = Ok (total_cost p, st');
  ev_base : tree_base st';
  ev_list : join_rel_list st' = join_rel_list st;
  ev_hash : join_rel_hash st' = join_rel_hash st;
  ev_rels : ss_rels st `prefix_of` ss_rels st';
}.

Lemma geqo_eval_ok n tour st : n = Z.of_nat (length inputs) -> (1 <= length inputs)%nat -> is_tour n tour -> tree_base st -> join_rel_list st = old_joins ->
  exists st', evaluation n tour st st'.
Proof.
  intros En L1 Ht B Ej. set (st0 := set_join_rels st (join_rel_list st) None).
  assert (tree_base st0) as B0.
  { destruct B as [B1 B2 [en [Te Tw Td Th]] B4 B5 B6]. split; try assumption. exists en. split; [exact Te|exact Tw|exact Td|exact Logic.I]. }
  destruct (gimme_tree_ok n tour st0 En L1 Ht B0 Ej) as (st1 & j & node & E & T). pose proof T as [Hn _ Rd B1 R1 J1].
  destruct (ready_path _ _ Rd) as (p & Ep). assert (take (length (join_rel_list st)) (join_rel_list st1) = join_rel_list st) as Et.
  { destruct J1 as [k ->]. cbn. rewrite take_app_length. reflexivity. }
  exists (set_join_rels st1 (join_rel_list st) (join_rel_hash st)).
  split; [exists st1, j, node, p; split_and!; [exact E|exact T|exact Ep|]| |reflexivity..|exact R1].
  { unfold geqo_eval. fold st0. rewrite E. cbn [rbind]. unfold rel_at. rewrite Hn. cbn [deref rbind]. rewrite Ep. cbn [deref rbind]. rewrite Et. reflexivity. }
  destruct B as [_ _ [en [Te Tw Td Th]] _ _ _], B1 as [B1 B2 _ B4 B5 B6]. split; try assumption.
  exists en. split; [|exact Tw|exact Td|exact Th]. cbn. eapply Forall2_impl; [exact Te|]. intros r x (rel & Hr & ->).
  exists rel. split; [exact (prefix_lookup_Some _ _ _ _ Hr R1)|reflexivity].
Qed.
End tree.
