(* ===== verification/GeqoSpec.v ===== *)
(** The genetic search as a whole: for a query of inner joins, once a first population is
    found, it ends with a join of all relations that has a plan or is proven empty. *)
From Stdlib Require Import Permutation.
From stdpp Require Import gmap relations.
From S2P Require Import Prelude Float64 Double DoubleOrder DoubleDiv DoubleRound DoubleUnit Bitmapset BitmapsetSpec PlanTypes Samples Pathkeys PathCompare AddPath Cheapest CostExpr CostBase CostScan CostScanSpec CostNode HashSize CostJoin CostJoinSpec SizeEst SizeEstSpec ParamInfo CreatePath CreatePathSpec UpperPathSpec MergeKeys MergeKeysSpec JoinPath QualCover JoinPathSpec JoinSearchSpec JoinLegal JoinLegalSpec BuildRel BuildRelSpec JoinOrder JoinParts JoinNodeSpec JoinOrderSpec Qsort GeqoRandom GeqoTour GeqoTourSpec GeqoPool GeqoPoolSpec GeqoDrawSpec GeqoSelectSpec Geqo GeqoTreeSpec.
Open Scope Z_scope.

(** The states of the search that evaluations of tours lead to. *)
Inductive evaluated `{Libm, Settings, Catalog, Estimator, Equivalences, PathSupport, EClasses, JoinSupport, SearchSupport}
    (root : SearchRoot) (inputs : list nat) (n : Z) (st : SearchState) : SearchState -> Prop :=
  | evaluated_none : evaluated root inputs n st st
  | evaluated_tour st1 st2 tour fitness : evaluated root inputs n st st1 -> is_tour n tour ->
      geqo_eval root inputs tour n st1 = Ok (fitness, st2) -> evaluated root inputs n st st2.

Section search.
Context `{Libm, Settings, Catalog, Estimator, Equivalences, PathSupport, EClasses, JoinSupport, SearchSupport, GeqoSettings, OldMemory}.
Context `{!CatalogLaws, !EstimatorLaws, !EquivalenceLaws, !LibmOrder, !JoinSupportLaws} (So : settings_ok).
Context (root : SearchRoot) (base : list RelNode) (inputs old_joins : list nat) (initial : list Relids).
Context (query : list RestrictInfo) (e w : Z).
Context (Iq : inner_query root base inputs old_joins initial query e w) (L1 : (1 <= length inputs)%nat).
Context (n : Z) (En : n = Z.of_nat (length inputs)) (Ln : n < 2 ^ 31).

Abbreviation tree_base := (tree_base root base inputs).

(** The search between two evaluations. *)
Definition idle (st : SearchState) : Prop := tree_base st /\ join_rel_list st = old_joins.

Abbreviation evaluation := (evaluation root base inputs initial query e w).

Lemma eval_tour tour st : is_tour n tour -> idle st -> exists st', evaluation n tour st st' /\ idle st'.
Proof.
  intros Ht [B J]. destruct (geqo_eval_ok So root base inputs old_joins initial query e w Iq n tour st En L1 Ht B J) as (st' & Ev).
  exists st'. split; [exact Ev|]. split; [apply Ev|]. rewrite (ev_list _ _ _ _ _ _ _ _ _ _ _ Ev). exact J.
Qed.

Abbreviation evaluated := (evaluated root inputs n).

(** Evaluating tours leaves the search as it was, but for the relations made. *)
Lemma evaluated_idle st st' : idle st -> evaluated st st' ->
  idle st' /\ join_rel_list st' = join_rel_list st /\ join_rel_hash st' = join_rel_hash st /\ ss_rels st `prefix_of` ss_rels st'.
Proof.
  intros I. induction 1 as [|st1 st2 tour fitness V IH Ht E]; [auto|]. destruct IH as (I1 & L & Hh & P).
  destruct (eval_tour tour st1 Ht I1) as (st' & [(s & j & node & p & _ & _ & _ & E') _ El Eh Er] & I2).
  rewrite E in E'. injection E' as _ <-. split_and!; [exact I2|congruence..|etransitivity; eassumption].
Qed.

(** One more tour. *)
Lemma evaluate_more st st1 tour : idle st -> evaluated st st1 -> is_tour n tour ->
  exists fitness st2, geqo_eval root inputs tour n st1 = Ok (fitness, st2) /\ evaluated st st2.
Proof.
  intros I V Ht. destruct (evaluated_idle _ _ I V) as (I1 & _).
  destruct (eval_tour tour st1 Ht I1) as (st2 & [(s & j & node & p & _ & _ & _ & E) _ _ _ _] & _).
  exists (total_cost p), st2. split; [exact E|]. eapply evaluated_tour; eassumption.
Qed.

(** ** The first population *)

(** A tour that has a valid plan. *)
Definition valid_individual (c : Chromosome) : Prop := is_tour n (string c) /\ (worth c <? DBL_MAX)%D = true.

Lemma valid_counts c : valid_individual c -> counts c.
Proof. intros [_ L]. unfold counts. destruct (isnan (worth c)) eqn:N; [|reflexivity]. rewrite dlt_nan_l in L by exact N. discriminate. Qed.

Lemma random_init_pool_ok st0 fuel : idle st0 -> forall i bad data rand st data' rand' st', 0 <= i -> rand_ok rand -> evaluated st0 st ->
  Forall (fun c => (Z.to_nat n <= length (string c))%nat) data -> Forall valid_individual (take (Z.to_nat i) data) ->
  random_init_pool root fuel inputs n i bad data rand st = Ok (data', rand', st') ->
  Forall valid_individual data' /\ length data' = length data /\ rand_ok rand' /\ evaluated st0 st'.
Proof.
  intros Id0. induction fuel as [|fuel IH]; intros i bad data rand st data' rand' st' Hi Rr Id Fl Fv E; cbn [random_init_pool] in E;
    (destruct (Z.ltb_spec i (Z.of_nat (length data))) as [L|G];
     [|injection E as <- <- <-; rewrite take_ge in Fv by lia; split_and!; [exact Fv|reflexivity|exact Rr|exact Id]]); [discriminate E|].
  destruct (lookup_lt_is_Some_2 data (Z.to_nat i)) as [c Hc]; [lia|]. rewrite (array_at_ok data i c Hi Hc) in E. cbn [rbind] in E.
  pose proof (Forall_lookup_1 _ _ _ _ Fl Hc) as Lc. destruct (init_tour_ok (string c) n rand ltac:(lia) Lc Rr) as (tour & s1 & E1 & Ht & Lt & R1).
  rewrite E1 in E. cbn [rbind] in E. destruct (evaluate_more st0 st tour Id0 Id Ht) as (f & st1 & E2 & Id1). rewrite E2 in E. cbn [rbind] in E.
  rewrite array_put_ok in E by lia. cbn [rbind] in E. set (data1 := <[Z.to_nat i := _]> data) in E.
  assert (Forall (fun c => (Z.to_nat n <= length (string c))%nat) data1) as Fl1 by (apply Forall_insert; [exact Fl|cbn [string]; rewrite Lt; exact Lc]).
  assert (take (Z.to_nat i) data1 = take (Z.to_nat i) data) as Et by (apply take_insert_ge; lia).
  assert (length data1 = length data) as Ll by apply length_insert.
  destruct (f <? DBL_MAX)%D eqn:Lf.
  - apply IH in E as (F & Le & R & I); [|lia|exact R1|exact Id1|exact Fl1|].
    { split_and!; [exact F|lia|exact R|exact I]. }
    replace (Z.to_nat (i + 1)) with (S (Z.to_nat i)) by lia. rewrite (take_S_r data1 (Z.to_nat i) (mkChromosome tour f)) by (apply list_lookup_insert_eq; lia).
    rewrite Et. apply Forall_app. split; [exact Fv|]. constructor; [split; assumption|constructor].
  - destruct (_ && _); [discriminate|]. apply IH in E as (F & Le & R & I); [|exact Hi|exact R1|exact Id1|exact Fl1|rewrite Et; exact Fv].
    split_and!; [exact F|lia|exact R|exact I].
Qed.

(** ** A generation *)

Record running (size : nat) (st0 : SearchState) (gs : GeqoState) : Prop := {
  rg_momma : (Z.to_nat n <= length (string (gs_momma gs)))%nat;
  rg_daddy : (Z.to_nat n <= length (string (gs_daddy gs)))%nat;
  rg_table : table_shape n (gs_edge_table gs);
  rg_pool : Forall (fun c => is_tour n (string c)) (gs_pool gs);
  rg_size : length (gs_pool gs) = size;
  rg_rand : rand_ok (gs_rand gs);
  rg_search : evaluated st0 (gs_search gs);
}.

Context (draws : nat) (Hd : 2 ^ 48 <= Z.of_nat draws) (Bo : bias_ok Geqo_selection_bias).

Lemma generation_ok size st0 gs : idle st0 -> (0 < size)%nat -> Z.of_nat size < 2 ^ 31 -> running size st0 gs ->
  exists gs', geqo_generation root draws inputs n gs = Ok gs' /\ running size st0 gs'.
Proof.
  intros Id0 S0 S31 [Lm Ld Sh Fp Lp Rr Id]. unfold geqo_generation.
  destruct (geqo_selection_ok draws (gs_momma gs) (gs_daddy gs) (gs_pool gs) n Geqo_selection_bias (gs_rand gs) ltac:(lia) ltac:(lia) Bo Hd ltac:(lia) Fp Lm Ld Rr)
    as (i & j & x & y & momma & daddy & s1 & -> & Hx & Hy & _ & _ & _ & Tm & Td & Lm' & Ld' & R1). cbn [rbind].
  assert (is_tour n (string momma)) as Hm by (unfold is_tour; rewrite Tm; exact (Forall_lookup_1 _ _ _ _ Fp Hx)).
  assert (is_tour n (string daddy)) as Hda by (unfold is_tour; rewrite Td; exact (Forall_lookup_1 _ _ _ _ Fp Hy)).
  destruct (gimme_edge_table_ok n (string momma) (string daddy) (gs_edge_table gs) ltac:(lia) Hm Hda Sh) as (T1 & k & -> & Bt & Mt). cbn [rbind].
  destruct (gimme_tour_ok n T1 (string momma) s1) as (tour & T2 & f & s2 & -> & Ht & Lt & Sh2 & R2);
    [lia|intros N2; exact (built_tour_table n (string momma) (string daddy) T1 N2 Hm Hda Bt Mt)|apply Bt|lia|exact R1|]. cbn [rbind].
  destruct (evaluate_more st0 (gs_search gs) tour Id0 Id Ht) as (fit & st' & -> & Id'). cbn [rbind].
  destruct (exists_last (l := gs_pool gs)) as (init & last & Ep); [intros En'; rewrite En' in Lp; cbn in Lp; lia|].
  rewrite Ep in Fp. pose proof Fp as Fp'. rewrite Forall_app, Forall_singleton in Fp'. destruct Fp' as [Fi Tl].
  destruct (spread_chromo_total init last (mkChromosome tour fit) n ltac:(lia) (tour_length n _ Tl) (tour_length n _ Ht)) as (pool & E & D).
  rewrite Ep, E. cbn [rbind]. eexists. split; [reflexivity|]. assert (is_tour n (string (copy_of n (mkChromosome tour fit) last))) as Tc.
  { unfold copy_of. cbn [string]. unfold is_tour. rewrite take_app_le by (rewrite length_take; pose proof (tour_length n _ Ht); lia). rewrite take_take, Nat.min_id. exact Ht. }
  split; cbn; [exact (tour_length n _ Ht)|lia|exact Sh2| | |exact R2|exact Id'].
  - destruct D as [->|(p & _ & ->)]; [exact Fp|]. apply Forall_app. split; [apply Forall_take, Fi|]. constructor; [exact Tc|apply Forall_drop, Fi].
  - rewrite Ep, length_app in Lp. cbn in Lp. destruct D as [->|(p & Hp & ->)]; rewrite length_app; cbn; [lia|]. rewrite length_take, length_drop. lia.
Qed.

(** ** The whole search *)

Lemma geqo_ok tries st pool rand st1 pool_size : idle st -> gimme_pool_size n = Ok pool_size -> 1 <= pool_size < 2 ^ 31 ->
  random_init_pool root tries inputs n 0 0 (alloc_pool pool_size n) (geqo_set_seed Geqo_seed) st = Ok (pool, rand, st1) ->
  exists st2 tour st' j node, geqo root tries draws (length inputs) inputs st = Ok (st', j)
    /\ evaluated st st2 /\ is_tour n tour /\ gimme_tree root inputs tour n st2 = Ok (st', Some j)
    /\ tree_of root base inputs initial query e w st2 st' j node.
Proof.
  intros Id Ep Hp E. unfold geqo. rewrite <- En, Ep. cbn [rbind]. rewrite E. cbn [rbind].
  assert (length (string (alloc_chromo n)) = Z.to_nat (n + 1)) as La by apply length_replicate.
  destruct (random_init_pool_ok st tries Id 0 0 (alloc_pool pool_size n) (geqo_set_seed Geqo_seed) st pool rand st1 ltac:(lia) (set_seed_ok _) (evaluated_none _ _ _ _)) as (Fv & Lp & Rr & Id1);
    [apply Forall_replicate; lia|constructor|exact E|].
  assert (Forall counts pool) as Fc by (eapply Forall_impl; [exact Fv|exact valid_counts]).
  destruct (sort_pool_ok pool Fc) as (pool' & -> & Pp & _). cbn [rbind].
  assert (length pool' = Z.to_nat pool_size) as Lp' by (rewrite Pp, Lp; apply length_replicate).
  destruct (for_each_keeps (running (Z.to_nat pool_size) st) (seqZ 0 (gimme_number_generations pool_size)) (fun _ => geqo_generation root draws inputs n)) with
    (st := mkGeqoState (alloc_chromo n) (alloc_chromo n) (alloc_edge_table n old_edge) pool' rand st1) as (gs & Eg & [_ _ _ Fp Ls _ Ev]).
  { intros _ gs _ Rg. apply generation_ok; [exact Id|lia|lia|exact Rg]. }
  { split; cbn [gs_momma gs_daddy gs_edge_table gs_pool gs_rand gs_search]; [lia|lia| |rewrite Pp; eapply Forall_impl; [exact Fv|intros c [T _]; exact T]|exact Lp'|exact Rr|exact Id1].
    split; [apply length_replicate|]. intros c Hc. exists old_edge. split; [apply lookup_replicate_2; lia|exact old_edge_list]. }
  rewrite Eg. cbn [rbind]. destruct (lookup_lt_is_Some_2 (gs_pool gs) 0) as [best Hb]; [lia|]. rewrite (array_at_ok _ 0 best) by (lia || exact Hb). cbn [rbind].
  destruct (evaluated_idle _ _ Id Ev) as ([Bs Js] & _). pose proof (Forall_lookup_1 _ _ _ _ Fp Hb) as Tb.
  destruct (gimme_tree_ok So root base inputs old_joins initial query e w Iq n (string best) (gs_search gs) En L1 Tb Bs Js) as (st' & j & node & Et & T).
  rewrite Et. cbn [rbind]. exists (gs_search gs), (string best), st', j, node. split_and!; [reflexivity|exact Ev|exact Tb|exact Et|exact T].
Qed.
End search.

(** The tree is the join of all inputs. *)
Lemma tree_everything `{Libm, Settings, Catalog, Estimator, Equivalences, PathSupport, EClasses, JoinSupport, SearchSupport}
    {root base inputs old_joins initial query e w st st' j node} :
  inner_query root base inputs old_joins initial query e w -> tree_of root base inputs initial query e w st st' j node ->
  represents (rn_relids node) (fun x => exists rids, rids ∈ initial /\ member x rids).
Proof.
  intros Iq [_ (parts & D & Sz) _ _ _ _]. rewrite <- (iq_length _ _ _ _ _ _ _ _ Iq) in Sz.
  exact (composed_everything _ _ _ (ds_composed _ _ _ _ _ _ _ _ D) Sz).
Qed.

(** ** The size of the pool *)

(** Powers of two are exact, or overflow. *)
Definition pow_two_exact `{Libm} : Prop :=
  (forall k, 0 <= k <= 1023 -> pow (i2d 2) (i2d k) = i2d (2 ^ k)) /\ (forall k, 1024 <= k <= 2 ^ 31 -> pow (i2d 2) (i2d k) = dinf false).

Lemma i2d_add a b : 0 <= a -> 0 <= b -> a + b < 2 ^ 53 -> (i2d a + i2d b)%D = i2d (a + b).
Proof.
  intros Ha Hb L. apply cmag_inj; [apply nonneg_add; apply nonneg_i2d; lia|apply nonneg_i2d; lia|].
  rewrite cmag_add by (apply nonneg_i2d || apply isnan_i2d; lia). rewrite !cmag_i2d, <- Z.mul_add_distr_r, Rnd_exact by lia. unfold sat.
  change (1074 - 0) with 1074. pose proof (small_finite (a + b) 1074). lia.
Qed.

(** The bounds that depend on the effort. *)
Definition clamp (effort : Z) (size : double) : result Z :=
  if (size >? i2d (50 * effort))%D then Ok (50 * effort)
  else if (size <? i2d (10 * effort))%D then Ok (10 * effort)
  else defined (d2int (ceil size)).

Lemma clamp_small effort k : 1 <= effort <= 10 -> 0 <= k <= 8 -> clamp effort (i2d (2 ^ k)) = Ok (Z.max (10 * effort) (Z.min (50 * effort) (2 ^ k))).
Proof.
  intros He Hk. assert (forallb (fun a => forallb (fun k => match clamp a (i2d (2 ^ k)) with Ok n => n =? Z.max (10 * a) (Z.min (50 * a) (2 ^ k)) | Error _ => false end)
    (seqZ 0 9)) (seqZ 1 10) = true) as C by (vm_compute; reflexivity).
  rewrite forallb_forall in C. specialize (C effort ltac:(apply list_elem_of_In, elem_of_seqZ; lia)). rewrite forallb_forall in C.
  specialize (C k ltac:(apply list_elem_of_In, elem_of_seqZ; lia)). destruct (clamp _ _); [|discriminate]. apply Z.eqb_eq in C as ->. reflexivity.
Qed.

Lemma clamp_large effort x : 1 <= effort <= 10 -> nonneg x = true -> isnan x = false -> i2d 512 ⊑ x -> clamp effort x = Ok (50 * effort).
Proof.
  intros He Nx Nn L. unfold clamp. assert ((i2d (50 * effort) <? x)%D = true) as ->; [|reflexivity].
  apply dlt_iff; [apply nonneg_i2d; lia|exact Nx|]. split; [|exact Nn]. unfold cle in L. rewrite cmag_i2d in * by lia. pose proof (pow2_pos 1074 ltac:(lia)). nia.
Qed.

(** The size of the population: the configured one if that is at least 2, otherwise
    [2^(nr_rel+1)] kept between 10 and 50 times the effort, for any number of relations,
    also when the power overflows to infinity. *)
Theorem gimme_pool_size_spec `{Libm, GeqoSettings} nr_rel : pow_two_exact -> 1 <= Geqo_effort <= 10 -> 1 <= nr_rel < 2 ^ 31 ->
  gimme_pool_size nr_rel = Ok (if 2 <=? Geqo_pool_size then Geqo_pool_size else Z.max (10 * Geqo_effort) (Z.min (50 * Geqo_effort) (2 ^ (nr_rel + 1)))).
Proof.
  intros [Pe Po] He Hn. unfold gimme_pool_size. destruct (2 <=? Geqo_pool_size); [reflexivity|]. rewrite i2d_add by lia. fold (clamp Geqo_effort (pow (i2d 2) (i2d (nr_rel + 1)))).
  set (k := nr_rel + 1). destruct (decide (k <= 8)) as [S|L].
  { rewrite Pe by lia. apply clamp_small; lia. }
  assert (500 <= 2 ^ k) as Lk by (pose proof (pow2_le 9 k ltac:(lia)); lia).
  replace (Z.max (10 * Geqo_effort) (Z.min (50 * Geqo_effort) (2 ^ k))) with (50 * Geqo_effort) by lia. destruct (decide (k <= 1023)) as [S|O].
  - rewrite Pe by lia. apply clamp_large; [exact He|apply nonneg_i2d; lia|apply isnan_i2d|apply cle_i2d; [lia|exact (pow2_le 9 k ltac:(lia))]].
  - rewrite Po by lia. apply clamp_large; [exact He|reflexivity|reflexivity|]. unfold cle. rewrite cmag_i2d by lia. apply Z.leb_le. vm_compute. reflexivity.
Qed.

(** A pow that is right for powers of two. *)
Definition two_pow (x y : double) : double :=
  match d2int y with Some k => if k <=? 1023 then i2d (2 ^ k) else dinf false | None => dinf false end.

Lemma d2int_i2d k : 0 <= k < 2 ^ 31 - 1 -> d2int (i2d k) = Some k.
Proof.
  intros Hk. destruct (d2int_in_range (i2d k) (k + 1) ltac:(lia) (isnan_i2d k)) as (n & E & Hn & Lo).
  - apply nonneg_not_below0, nonneg_i2d. lia.
  - rewrite dle_sval, !sval_nonneg, !cmag_i2d by (apply isnan_i2d || apply nonneg_i2d || idtac; lia). apply Z.leb_gt. pose proof (pow2_pos 1074 ltac:(lia)). nia.
  - rewrite E. f_equal. specialize (Lo k (nonneg_i2d k ltac:(lia))). rewrite cmag_i2d in Lo by lia. specialize (Lo ltac:(lia)). lia.
Qed.

Lemma two_pow_exact : @pow_two_exact {| log := log; pow := two_pow |}.
Proof.
  split; intros k Hk; cbn [pow]; unfold two_pow.
  - rewrite d2int_i2d by lia. rewrite (proj2 (Z.leb_le k 1023)) by lia. reflexivity.
  - destruct (d2int (i2d k)) as [v|] eqn:E; [|reflexivity]. rewrite (proj2 (Z.leb_gt v 1023)); [reflexivity|].
    destruct (decide (k < 2 ^ 31 - 1)) as [L|G]; [rewrite d2int_i2d in E by lia; simplify_eq; lia|].
    assert (k = 2 ^ 31 - 1 \/ k = 2 ^ 31) as [-> | ->] by lia; vm_compute in E; simplify_eq; lia.
Qed.

(** The default settings for five and twelve relations. *)
Lemma gimme_pool_size_spec_witness :
  let m := {| log := log; pow := two_pow |} in
  let s := {| Geqo_effort := 5; Geqo_pool_size := 0; Geqo_generations := 0; Geqo_selection_bias := i2d 2; Geqo_seed := i2d 0 |} in
  @gimme_pool_size m s 5 = Ok 64 /\ @gimme_pool_size m s 12 = Ok 250.
Proof.
  intros m s. split.
  - rewrite (@gimme_pool_size_spec m s 5 two_pow_exact); [reflexivity|cbn; lia|lia].
  - rewrite (@gimme_pool_size_spec m s 12 two_pow_exact); [reflexivity|cbn; lia|lia].
Defined.

(** C13: for a query of inner joins with no LATERAL references, no placeholders, no
    foreign-join paths and no join-path hook, and sizes that keep the row products at most
    2^1000 and the widths below 2^30, the genetic search succeeds once its first
    population is complete (tours whose cost is not below DBL_MAX are thrown away there,
    so that can fail): no routine on the way raises an error, whatever the random numbers,
    the costs of the children and the old contents of the memory. The relation returned is
    the join that gimme_tree makes of some tour after evaluations of tours; it joins
    exactly all inputs, and it is proven empty, or its cheapest path needs no parameters
    and has ordered costs, a whole number of rows not above the relation's and a canonical
    sort order. The relations there were before are as before.
    After any evaluations, every tour leads to a join of all inputs; its fitness is the
    cost of that join's cheapest path; and evaluating it leaves no trace: the list and the
    hash table of join relations are as at the start of the search. *)
Theorem geqo_complete
    `{Libm, Settings, Catalog, Estimator, Equivalences, PathSupport, EClasses, JoinSupport, SearchSupport, GeqoSettings, OldMemory}
    `{!CatalogLaws, !EstimatorLaws, !EquivalenceLaws, !LibmOrder, !JoinSupportLaws} root inputs initial query e w st tries draws pool_size population :
  settings_ok -> inner_query root (ss_rels st) inputs (join_rel_list st) initial query e w -> search_start root inputs st ->
  join_rel_level st = None -> (1 <= length inputs)%nat -> Z.of_nat (length inputs) < 2 ^ 31 ->
  bias_ok Geqo_selection_bias -> 2 ^ 48 <= Z.of_nat draws ->
  let n := Z.of_nat (length inputs) in
  gimme_pool_size n = Ok pool_size -> 1 <= pool_size < 2 ^ 31 ->
  random_init_pool root tries inputs n 0 0 (alloc_pool pool_size n) (geqo_set_seed Geqo_seed) st = Ok population ->
  (exists st' r node, geqo root tries draws (length inputs) inputs st = Ok (st', r)
    /\ (exists st2 tour, evaluated root inputs n st st2 /\ is_tour n tour /\ gimme_tree root inputs tour n st2 = Ok (st', Some r))
    /\ ss_rels st' !! r = Some node
    /\ represents (rn_relids node) (fun x => exists rids, rids ∈ initial /\ member x rids)
    /\ ss_rels st `prefix_of` ss_rels st' /\ join_rel_list st `prefix_of` join_rel_list st'
    /\ (is_dummy_rel node = true
        \/ exists p, cheapest_total_path (rn_paths node) = Some p /\ param_info p = None /\ side_path (rn_rel node) (ss_canon st') p))
  /\ (forall st2 tour, evaluated root inputs n st st2 -> is_tour n tour ->
       exists st3 st4 j node p, gimme_tree root inputs tour n (set_join_rels st2 (join_rel_list st2) None) = Ok (st3, Some j)
         /\ ss_rels st3 !! j = Some node
         /\ represents (rn_relids node) (fun x => exists rids, rids ∈ initial /\ member x rids)
         /\ cheapest_total_path (rn_paths node) = Some p
         /\ geqo_eval root inputs tour n st2 = Ok (total_cost p, st4)
         /\ join_rel_list st4 = join_rel_list st /\ join_rel_hash st4 = join_rel_hash st /\ ss_rels st2 `prefix_of` ss_rels st4).
Proof.
  intros So Iq [Ei Ta Ca Rd] El L1 Ln Bo Hd n Ep Hp E. destruct population as [[pool rand] st1].
  assert (idle root (ss_rels st) inputs (join_rel_list st) st) as Id by (split; [split; auto; reflexivity|reflexivity]).
  destruct (geqo_ok So root (ss_rels st) inputs (join_rel_list st) initial query e w Iq L1 n eq_refl Ln draws Hd Bo tries st pool rand st1 pool_size Id Ep Hp E)
    as (st2 & tour & st' & r & node & -> & V & Tt & Et & T).
  pose proof T as [Hn _ Rdy _ R2 J2]. split.
  - destruct (evaluated_idle So root (ss_rels st) inputs _ initial query e w Iq L1 n eq_refl st st2 Id V) as (_ & El2 & _ & Pr).
    exists st', r, node. split_and!; [reflexivity|eauto|exact Hn|exact (tree_everything Iq T)|etransitivity; eassumption|rewrite <- El2; exact J2|exact (ready_plan _ _ Rdy)].
  - intros st3 tour' V3 T3. destruct (evaluated_idle So root (ss_rels st) inputs _ initial query e w Iq L1 n eq_refl st st3 Id V3) as (I3 & El3 & Eh3 & _).
    destruct (eval_tour So root (ss_rels st) inputs _ initial query e w Iq L1 n eq_refl tour' st3 T3 I3) as (st4 & [(st5 & j & node' & p & Eg & T' & Ec & Ee) _ Ll Lh Pr] & _).
    exists st5, st4, j, node', p. split_and!; [exact Eg|apply T'|exact (tree_everything Iq T')|exact Ec|exact Ee|congruence..|exact Pr].
Qed.

(** ** Witness *)

#[local] Existing Instances default_settings no_equivalences.

#[local] Instance small_geqo : GeqoSettings := {|
  Geqo_effort := 5; Geqo_pool_size := 3; Geqo_generations := 10; Geqo_selection_bias := i2d 2; Geqo_seed := dlit 1 2 |}.

#[local] Instance cleared_memory : OldMemory := {|
  old_gene := 0; old_worth := dzero; old_edge := mkEdge [0; 0; 0; 0] 0 0; old_edge_list := eq_refl |}.

(** The population over the three tables is found with the first three tours. *)
Lemma first_population : exists population,
  random_init_pool (H6 := sample_join_support) order_root 3 order_inputs 3 0 0 (alloc_pool 3 3) (geqo_set_seed Geqo_seed) order_state = Ok population.
Proof.
  destruct (random_init_pool _ _ _ _ _ _ _ _ _) as [population|msg] eqn:E; [eauto|].
  assert (match random_init_pool (H6 := sample_join_support) order_root 3 order_inputs 3 0 0 (alloc_pool 3 3) (geqo_set_seed Geqo_seed) order_state with
          | Ok _ => true | Error _ => false end = true) as C by (vm_compute; reflexivity).
  rewrite E in C. discriminate.
Qed.

(** Three tables, three individuals, ten generations; and one tour evaluated. *)
Lemma geqo_complete_witness : exists st' r node,
  geqo (H6 := sample_join_support) order_root 3 (Z.to_nat (2 ^ 48)) 3 order_inputs order_state = Ok (st', r)
  /\ ss_rels st' !! r = Some node /\ represents (rn_relids node) (fun x => exists rids, rids ∈ order_sets /\ member x rids)
  /\ exists fitness st4, geqo_eval (H6 := sample_join_support) order_root order_inputs [3; 1; 2] 3 order_state = Ok (fitness, st4)
       /\ join_rel_list st4 = [] /\ join_rel_hash st4 = None.
Proof.
  pose proof no_equivalence_laws as Le. destruct first_population as [population E].
  destruct (geqo_complete (H6 := sample_join_support) order_root order_inputs order_sets search_clauses 14 4 order_state 3 (Z.to_nat (2 ^ 48)) 3 population
    default_settings_ok order_query order_start) as [(st' & r & node & Eg & _ & Hn & Rep & _) Ev].
  - reflexivity.
  - cbn. lia.
  - cbn. lia.
  - split; [reflexivity|apply Z.leb_le; vm_compute; reflexivity|apply Z.leb_le; vm_compute; reflexivity].
  - rewrite Z2Nat.id by lia. reflexivity.
  - reflexivity.
  - lia.
  - exact E.
  - exists st', r, node. split_and!; [exact Eg|exact Hn|exact Rep|].
    destruct (Ev order_state [3; 1; 2] (evaluated_none _ _ _ _)) as (_ & st4 & _ & _ & p & _ & _ & _ & _ & Et & El & Eh & _); [|eauto].
    change (Permutation [3; 1; 2] [1; 2; 3]). apply (Permutation_app_comm [3] [1; 2]).
Defined.
