(* ===== verification/WuPacket.v ===== *)
(** The packets of the Watts Up? power meter (watts-up-linux/util.c: wu_write and
    parse_packet) over a 256-byte C buffer: pointers into the buffer are offsets,
    the parser writes its NUL bytes into it, and what C leaves undefined is a
    value of its own. *)
From S2P Require Import Prelude.

Definition wu_strlen : Z := 256.
Definition wu_num_fields : Z := 18.
Definition wu_param_len : Z := 16.

(** The errno values of ret_err. *)
Inductive errno := EFAULT | EOVERFLOW | EINVAL | ETIME | EIO.

(** A call returns a value, fails with an errno, or has undefined behaviour (an
    access outside an object). *)
Inductive outcome (A : Type) : Type :=
| Done (a : A)
| Fail (e : errno)
| Undefined.
Arguments Done {A} a.
Arguments Fail {A} e.
Arguments Undefined {A}.

#[export] Instance outcome_ret : MRet outcome := fun _ a => Done a.
#[export] Instance outcome_bind : MBind outcome := fun _ _ f m =>
  match m with Done a => f a | Fail e => Fail e | Undefined => Undefined end.

(** Characters are bytes; a literal is the list of its codes. *)
Definition bytes (s : string) : list Z :=
  map (fun a => Z.of_N (Ascii.N_of_ascii a)) (String.list_ascii_of_string s).

Definition NUL : Z := 0.
Definition hash : Z := 35.
Definition comma : Z := 44.
Definition semicolon : Z := 59.

Definition isspace (c : Z) : bool := (c =? 32) || ((9 <=? c) && (c <=? 13)).
Definition isdigit (c : Z) : bool := (48 <=? c) && (c <=? 57).

(** ** Strings in memory *)

Inductive scanned := Found (i : nat) | NotFound | Overrun.

(** The first character from [i] on with [P], as strchr and strpbrk look for it:
    up to the NUL, or beyond the object. *)
Fixpoint scan (P : Z -> bool) (l : list Z) (i : nat) : scanned :=
  match l with
  | [] => Overrun
  | c :: l => if P c then Found i else if c =? NUL then NotFound else scan P l (S i)
  end.

Definition strchr (buf : list Z) (s : nat) (c : Z) : scanned := scan (Z.eqb c) (drop s buf) s.
Definition strpbrk (buf : list Z) (s : nat) : scanned :=
  scan (fun c => (c =? comma) || (c =? semicolon)) (drop s buf) s.

(** [while (isspace( *s)) s++] *)
Fixpoint skip_space (l : list Z) (i : nat) : option nat :=
  match l with
  | [] => None
  | c :: l => if isspace c then skip_space l (S i) else Some i
  end.

(** The C string at an address. *)
Fixpoint cstring (l : list Z) : list Z :=
  match l with
  | [] => []
  | c :: l => if c =? NUL then [] else c :: cstring l
  end.

(** The digits a number conversion reads in base 10: value and rest. *)
Fixpoint digits (l : list Z) (acc : Z) : Z * list Z :=
  match l with
  | c :: l' => if isdigit c then digits l' (10 * acc + (c - 48)) else (acc, l)
  | [] => (acc, [])
  end.

(** atoi: strtol in base 10, which saturates, converted to int. *)
Definition u32 (n : Z) : Z := n mod 2 ^ 32.
Definition saturate (n : Z) : Z := Z.max (- 2 ^ 63) (Z.min n (2 ^ 63 - 1)).

Fixpoint drop_space (l : list Z) : list Z :=
  match l with c :: l' => if isspace c then drop_space l' else l | [] => [] end.

Definition atoi (l : list Z) : Z :=
  let l := drop_space l in
  let '(neg, l) := match l with
                   | 45 :: l => (true, l)
                   | 43 :: l => (false, l)
                   | _ => (false, l)
                   end in
  let n := fst (digits l 0) in
  wrap32 (saturate (if neg : bool then - n else n)).

(** Decimal output of [%d] and [%u]; ten digits are enough for 32 bits. *)
Fixpoint dec_digits (fuel : nat) (n : Z) (acc : list Z) : list Z :=
  match fuel with
  | O => acc
  | S fuel =>
      let acc := (48 + n mod 10) :: acc in
      if n <? 10 then acc else dec_digits fuel (n / 10) acc
  end.

Definition print_u (n : Z) : list Z := dec_digits 10 (u32 n) [].
Definition print_d (n : Z) : list Z :=
  let n := wrap32 n in if n <? 0 then 45 :: dec_digits 10 (- n) [] else dec_digits 10 n [].

(** ** Packets *)

(** A packet as the driver fills it: [fields] are the C strings its field
    pointers refer to. *)
Record wu_packet := mkPacket {
  cmd : Z;
  sub_cmd : Z;
  count : Z;
  fields : list (list Z);
}.

(** The loop of wu_write over the fields: [len] is p->len, [out] the text. *)
Fixpoint write_fields (n : nat) (fields : list (list Z)) (out : list Z) : outcome (list Z) :=
  match n with
  | O => Done out
  | S n =>
      match fields with
      | [] => Undefined
      | f :: fields =>
          if wu_strlen <=? Z.of_nat (length out + length f) + 4 then Fail EOVERFLOW
          else write_fields n fields (out ++ comma :: f)
      end
  end.

(** The bytes wu_write passes to write(2); a packet has at most 18 field pointers. *)
Definition wu_write (p : wu_packet) : outcome (list Z) :=
  let header := hash :: (cmd p) mod 256 :: comma :: (sub_cmd p) mod 256 :: comma :: print_d (count p) in
  out ← write_fields (Z.to_nat (count p)) (take (Z.to_nat wu_num_fields) (fields p)) header;
  Done (out ++ [semicolon]).

(** A received packet: the buffer, and the offsets of the fields in it. *)
Record received := mkReceived {
  r_cmd : Z;
  r_sub_cmd : Z;
  r_count : Z;
  r_buf : list Z;
  r_field : list nat;
}.

(** A char converted to unsigned int. *)
Definition char_uint (c : Z) : Z := u32 (if c <? 128 then c else c - 256).

Definition at_ (buf : list Z) (i : nat) : outcome Z :=
  match buf !! i with Some c => Done c | None => Undefined end.

(** The loop over the parameters; [slots] counts the free entries of p->field[]. *)
Fixpoint parse_fields (slots : nat) (i count : Z) (s : nat) (buf : list Z) (field : list nat)
    : outcome (list Z * list nat) :=
  if i <? count then
    let next :=
      match strpbrk buf s with
      | Found n => Done (Some (S n), <[n := NUL]> buf)
      | NotFound => if i <? u32 (count - 1) then Fail EFAULT else Done (None, buf)
      | Overrun => Undefined
      end in
    '(next, buf) ← next;
    match skip_space (drop s buf) s, slots with
    | Some s, S slots =>
        match next with
        | Some next => parse_fields slots (i + 1) count next buf (field ++ [s])
        | None => Done (buf, field ++ [s])
        end
    | _, _ => Undefined
    end
  else Done (buf, field).

(** [strchr] with the failure of the parser. *)
Definition expect (r : scanned) : outcome nat :=
  match r with Found i => Done i | NotFound => Fail EFAULT | Overrun => Undefined end.

(** The part of parse_packet before the parameters: (cmd, sub_cmd, count), the
    offset of the first parameter and the buffer. *)
Definition parse_header (buf : list Z) (len : Z) : outcome (Z * Z * Z * nat * list Z) :=
  if (len <? 0) || (wu_strlen <=? len) then Undefined
  else
    let buf := <[Z.to_nat len := NUL]> buf in
    i ← expect (strchr buf 0 hash);
    let s := S i in
    next ← expect (strchr buf s comma);
    c ← at_ buf s;
    let s' := S next in
    next ← expect (strchr buf s' comma);
    sc ← at_ buf s';
    let s := S next in
    next ← expect (strchr buf s comma);
    let buf := <[next := NUL]> buf in
    let n := u32 (atoi (cstring (drop s buf))) in
    Done (char_uint c, char_uint sc, n, S next, buf).

Definition parse_packet (buf : list Z) (len : Z) : outcome received :=
  '(c, sc, n, s, buf) ← parse_header buf len;
  '(buf, field) ← parse_fields (Z.to_nat wu_num_fields) 0 n s buf [];
  Done (mkReceived c sc n buf field).

(** The text of the fields. *)
Definition field_text (r : received) : list (list Z) := map (fun s => cstring (drop s (r_buf r))) (r_field r).

(** A buffer of 256 bytes that starts with what was read. *)
Definition buffer (text : list Z) : list Z := text ++ replicate (Z.to_nat wu_strlen - length text) NUL.

Definition read_packet (text : list Z) : outcome received := parse_packet (buffer text) (Z.of_nat (length text)).

(** ** Lemmas on buffers *)

Lemma scan_found P a c b i : Forall (fun x => P x = false /\ x <> NUL) a -> P c = true ->
  scan P (a ++ c :: b) i = Found (i + length a)%nat.
Proof.
  intros Ha Hc. revert i. induction Ha as [|x a [Hx Hn] _ IH]; intros i; simpl.
  - rewrite Hc. f_equal. lia.
  - rewrite Hx, (proj2 (Z.eqb_neq x NUL) Hn), IH. f_equal. lia.
Qed.

Lemma insert_at {A} (a b : list A) x y : <[length a := x]> (a ++ y :: b) = a ++ x :: b.
Proof. induction a as [|z a IH]; simpl; [reflexivity|]. f_equal. exact IH. Qed.

Lemma drop_at {A} (a b : list A) : drop (length a) (a ++ b) = b.
Proof. induction a; simpl; auto. Qed.

Lemma cstring_app a b : Forall (fun x => x <> NUL) a -> cstring (a ++ NUL :: b) = a.
Proof.
  induction 1 as [|x a Hx _ IH]; simpl; [reflexivity|]. rewrite (proj2 (Z.eqb_neq x NUL) Hx), IH. reflexivity.
Qed.

(** A field that survives the wire: no delimiter, no NUL, no leading space. *)
Definition clean (f : list Z) : Prop :=
  Forall (fun x => x <> NUL /\ x <> comma /\ x <> semicolon) f
  /\ match f with c :: _ => isspace c = false | [] => True end.

Lemma clean_no_nul f : clean f -> Forall (fun x => x <> NUL) f.
Proof. intros [Hf _]. eapply Forall_impl; [exact Hf|]. simpl. tauto. Qed.

Lemma clean_scan f c b s : clean f -> c = comma \/ c = semicolon ->
  scan (fun c => (c =? comma) || (c =? semicolon)) (f ++ c :: b) s = Found (s + length f)%nat.
Proof.
  intros [Hf _] Hc. apply scan_found.
  - eapply Forall_impl; [exact Hf|]. simpl. intros x (N0 & N1 & N2). split; [|exact N0].
    rewrite (proj2 (Z.eqb_neq _ _) N1), (proj2 (Z.eqb_neq _ _) N2). reflexivity.
  - destruct Hc as [-> | ->]; reflexivity.
Qed.

(** Parameters on the wire, and in the buffer after parsing. *)
Fixpoint join (fs : list (list Z)) (last : Z) : list Z :=
  match fs with
  | [] => []
  | [f] => f ++ [last]
  | f :: fs => f ++ comma :: join fs last
  end.
Definition nul_join (fs : list (list Z)) : list Z := concat (map (fun f => f ++ [NUL]) fs).

Fixpoint starts (s : nat) (fs : list (list Z)) : list nat :=
  match fs with [] => [] | f :: fs => s :: starts (s + length f + 1) fs end.

Lemma skip_space_clean f b s : clean f -> skip_space (f ++ NUL :: b) s = Some s.
Proof. intros [_ Hf]. destruct f as [|c f]; simpl; [reflexivity|]. rewrite Hf. reflexivity. Qed.

Lemma join_head f fs : exists c rest, (c = comma \/ c = semicolon)
  /\ join (f :: fs) semicolon = f ++ c :: rest /\ (rest = [] /\ fs = [] \/ rest = join fs semicolon /\ fs <> []).
Proof.
  destruct fs as [|g fs].
  - exists semicolon, []. split; [right; reflexivity|]. split; [reflexivity|]. left. auto.
  - exists comma, (join (g :: fs) semicolon). split; [left; reflexivity|]. split; [reflexivity|]. right. split; [reflexivity|discriminate].
Qed.

Lemma u32_small n : 0 <= n < 2 ^ 32 -> u32 n = n.
Proof. apply Z.mod_small. Qed.

(** The parameter loop on well-formed text: it records the start of every
    parameter and terminates each with a NUL. *)
Lemma parse_fields_join fs slots i count pre tail acc : Forall clean fs -> fs <> [] ->
  (length fs <= slots)%nat -> count = i + Z.of_nat (length fs) -> 0 <= i -> count < 2 ^ 32 ->
  parse_fields slots i count (length pre) (pre ++ join fs semicolon ++ tail) acc
  = Done (pre ++ nul_join fs ++ tail, acc ++ starts (length pre) fs).
Proof.
  intros Hc. revert slots i pre acc. induction Hc as [|f fs Hf Hfs IH]; intros slots i pre acc Hne Hs Ec Hi Hb; [done|].
  destruct slots as [|slots]; [simpl in Hs; lia|]. simpl in Hs, Ec.
  destruct (join_head f fs) as (c & rest & Hsep & -> & Hrest). cbn [parse_fields].
  destruct (Z.ltb_spec i count) as [_|]; [|lia]. unfold strpbrk. rewrite <- app_assoc, drop_at. cbn [app].
  rewrite clean_scan by assumption. cbn [mbind outcome_bind].
  assert (<[(length pre + length f)%nat := NUL]> (pre ++ f ++ c :: rest ++ tail) = pre ++ f ++ NUL :: rest ++ tail) as ->.
  { rewrite !app_assoc, <- length_app. apply insert_at. }
  rewrite drop_at, skip_space_clean by exact Hf.
  assert (pre ++ f ++ NUL :: rest ++ tail = (pre ++ f ++ [NUL]) ++ rest ++ tail) as -> by (rewrite <- !app_assoc; reflexivity).
  assert (S (length pre + length f) = length (pre ++ f ++ [NUL])) as El by (rewrite !length_app; simpl; lia).
  rewrite El. destruct Hrest as [[-> ->]|[-> Hne']].
  - destruct slots; cbn [parse_fields]; simpl in Ec; destruct (Z.ltb_spec (i + 1) count); try lia.
    all: unfold nul_join; cbn [map concat app starts]; rewrite <- !app_assoc; reflexivity.
  - rewrite IH; [|exact Hne'|lia|lia|lia|exact Hb]. f_equal. f_equal.
    + unfold nul_join. cbn [map concat]. rewrite <- !app_assoc. reflexivity.
    + cbn [starts]. rewrite <- app_assoc. cbn [app]. do 3 f_equal. rewrite !length_app. simpl. lia.
Qed.

Lemma starts_text fs pre tail : Forall clean fs ->
  map (fun s => cstring (drop s (pre ++ nul_join fs ++ tail))) (starts (length pre) fs) = fs.
Proof.
  intros Hc. revert pre. induction Hc as [|f fs Hf Hfs IH]; intros pre; [reflexivity|]. cbn [starts map].
  unfold nul_join. cbn [map concat]. fold (nul_join fs). f_equal.
  - rewrite drop_at, <- !app_assoc. cbn [app]. apply cstring_app, clean_no_nul, Hf.
  - specialize (IH (pre ++ f ++ [NUL])).
    replace (length (pre ++ f ++ [NUL])) with (length pre + length f + 1)%nat in IH by (rewrite !length_app; simpl; lia).
    rewrite <- !app_assoc in IH |- *. exact IH.
Qed.

(** ** Writing *)

Definition fields_wire (fs : list (list Z)) : list Z := concat (map (cons comma) fs).

Lemma write_fields_done n fs out text : write_fields n fs out = Done text ->
  (n <= length fs)%nat /\ text = out ++ fields_wire (take n fs)
  /\ (n = 0%nat \/ Z.of_nat (length text) + 3 < wu_strlen).
Proof.
  revert fs out. induction n as [|n IH]; intros fs out E; cbn [write_fields] in E.
  - injection E as <-. split_and!; [lia|rewrite take_0, app_nil_r; reflexivity|left; reflexivity].
  - destruct fs as [|f fs]; [discriminate|]. destruct (Z.leb_spec wu_strlen (Z.of_nat (length out + length f) + 4)); [discriminate|].
    apply IH in E as (L & -> & B). simpl. split_and!; [lia| |right].
    + unfold fields_wire. cbn [map concat]. rewrite <- !app_assoc. reflexivity.
    + destruct B as [->|B]; [|exact B]. rewrite take_0. unfold fields_wire. simpl. rewrite !length_app. simpl. lia.
Qed.

Lemma dec_digits_length fuel n acc : (length (dec_digits fuel n acc) <= fuel + length acc)%nat.
Proof.
  revert n acc. induction fuel as [|fuel IH]; intros n acc; simpl; [lia|].
  destruct (n <? 10); simpl; [lia|]. specialize (IH (n / 10) ((48 + n mod 10) :: acc)). simpl in IH. lia.
Qed.

Lemma print_d_length n : (length (print_d n) <= 11)%nat.
Proof.
  unfold print_d. destruct (wrap32 n <? 0); simpl.
  - pose proof (dec_digits_length 10 (- wrap32 n) []). simpl in *. lia.
  - pose proof (dec_digits_length 10 (wrap32 n) []). simpl in *. lia.
Qed.

(** wu_write never writes outside the 256-byte packet buffer: when it succeeds, the
    command has at most 253 bytes, starts with '#' and ends with ';'; when the command would be
    too long it fails with EOVERFLOW.  It is undefined only for packets that claim more fields
    than they have. *)
Theorem wu_write_bounded p :
  0 <= count p <= Z.of_nat (length (fields p)) -> count p <= wu_num_fields ->
  match wu_write p with
  | Done text => (length text <= 253)%nat /\ head text = Some hash /\ last text = Some semicolon
  | Fail e => e = EOVERFLOW
  | Undefined => False
  end.
Proof.
  intros Hc Hn. unfold wu_write.
  set (header := hash :: _). assert (length header <= 16)%nat as Hh.
  { unfold header. simpl. pose proof (print_d_length (count p)). lia. }
  assert (forall n fs out, (n <= length fs)%nat -> match write_fields n fs out with
    | Done _ => True | Fail e => e = EOVERFLOW | Undefined => False end) as Tot.
  { induction n as [|n IH]; intros fs out L; cbn [write_fields]; [exact I|]. destruct fs; [simpl in L; lia|].
    destruct (_ <=? _); [reflexivity|]. apply IH. simpl in L. lia. }
  specialize (Tot (Z.to_nat (count p)) (take (Z.to_nat wu_num_fields) (fields p)) header).
  rewrite length_take in Tot. specialize (Tot ltac:(lia)).
  destruct (write_fields _ _ header) as [out|e|] eqn:E; cbn [mbind outcome_bind]; [|exact Tot|exact Tot].
  apply write_fields_done in E as (_ & Eo & B). split_and!.
  - rewrite length_app. simpl. destruct B as [B|B]; unfold wu_strlen in *; [|lia].
    subst out. rewrite B, take_0, app_nil_r. lia.
  - subst out. reflexivity.
  - apply last_snoc.
Qed.

Lemma fields_wire_join fs : fs <> [] -> fields_wire fs ++ [semicolon] = comma :: join fs semicolon.
Proof.
  unfold fields_wire. induction fs as [|f fs IH]; [done|]. intros _. cbn [map concat app]. f_equal.
  destruct fs as [|g fs]; [simpl; rewrite app_nil_r; reflexivity|].
  rewrite <- app_assoc, IH by discriminate. reflexivity.
Qed.

(** The parameter counts that fit a packet are printed and read back. *)
Definition no_comma (l : list Z) : Prop := Forall (fun x => (comma =? x) = false /\ x <> NUL) l.

Lemma count_text n : 1 <= n <= 127 -> u32 (atoi (print_d n)) = n /\ no_comma (print_d n).
Proof.
  intros Hn. assert (In (Z.to_nat n) (seq 1 127)) as Hin by (apply in_seq; lia).
  rewrite <- (Z2Nat.id n) by lia. revert Hin. generalize (Z.to_nat n) as k. clear n Hn. apply List.Forall_forall.
  repeat (constructor; [split; [vm_compute; reflexivity|repeat (constructor; [split; [reflexivity|vm_compute; discriminate]|]); constructor]|]).
  constructor.
Qed.

Lemma strchr_at pre a b c : Forall (fun x => (c =? x) = false /\ x <> NUL) a ->
  strchr (pre ++ a ++ c :: b) (length pre) c = Found (length pre + length a)%nat.
Proof. intros Ha. unfold strchr. rewrite drop_at. apply scan_found; [exact Ha|apply Z.eqb_refl]. Qed.

Lemma at_here pre c b : at_ (pre ++ c :: b) (length pre) = Done c.
Proof. unfold at_. rewrite list_lookup_middle by reflexivity. reflexivity. Qed.

(** The header on well-formed text. *)
Lemma parse_header_text c sc n rest len buf : 0 < c < 128 -> c <> comma -> 0 < sc < 128 -> sc <> comma -> 1 <= n <= 127 ->
  0 <= len < wu_strlen ->
  <[Z.to_nat len := NUL]> buf = hash :: c :: comma :: sc :: comma :: print_d n ++ comma :: rest ->
  parse_header buf len
  = Done (c, sc, n, (6 + length (print_d n))%nat, (hash :: c :: comma :: sc :: comma :: print_d n ++ [NUL]) ++ rest).
Proof.
  intros Hc Nc Hs Ns Hn Hl Eb. unfold parse_header.
  destruct (Z.ltb_spec len 0); [lia|]. destruct (Z.leb_spec wu_strlen len); [lia|]. cbn [orb].
  rewrite Eb. destruct (count_text n Hn) as [En Cn].
  assert (forall x, 0 < x < 128 -> x <> comma -> no_comma [x]) as One.
  { intros x Hx Nx. constructor; [|constructor]. split; [apply Z.eqb_neq; congruence|unfold NUL; lia]. }
  change (strchr _ 0 hash) with (Found 0%nat). cbn [expect mbind outcome_bind].
  pose proof (strchr_at [hash] [c] (sc :: comma :: print_d n ++ comma :: rest) comma (One c Hc Nc)) as E1. cbn [app length Nat.add] in E1.
  rewrite E1. cbn [expect mbind outcome_bind at_ lookup list_lookup].
  pose proof (strchr_at [hash; c; comma] [sc] (print_d n ++ comma :: rest) comma (One sc Hs Ns)) as E2. cbn [app length Nat.add] in E2.
  rewrite E2. cbn [expect mbind outcome_bind at_ lookup list_lookup].
  pose proof (strchr_at [hash; c; comma; sc; comma] (print_d n) rest comma Cn) as E3. cbn [app length] in E3.
  rewrite E3. cbn [expect mbind outcome_bind].
  pose proof (insert_at ([hash; c; comma; sc; comma] ++ print_d n) rest NUL comma) as E4.
  rewrite length_app, <- !app_assoc in E4. cbn [length app] in E4. rewrite E4.
  pose proof (drop_at [hash; c; comma; sc; comma] (print_d n ++ NUL :: rest)) as E5. cbn [app length] in E5. rewrite E5.
  rewrite cstring_app by (eapply Forall_impl; [exact Cn|simpl; tauto]). rewrite En.
  unfold char_uint. rewrite (proj2 (Z.ltb_lt c 128)), (proj2 (Z.ltb_lt sc 128)) by lia. rewrite !u32_small by lia.
  cbn [app]. rewrite <- app_assoc. reflexivity.
Qed.


(** ** Safety of the parser *)

(** A buffer whose byte at [len] is NUL keeps every scan inside. *)
Lemma scan_bounded P l i k : l !! k = Some NUL -> P NUL = false ->
  match scan P l i with Found j => (i <= j < i + k)%nat | NotFound => True | Overrun => False end.
Proof.
  intros Hk HP. revert i k Hk. induction l as [|c l IH]; intros i k Hk; [discriminate Hk|]. cbn [scan].
  destruct k as [|k]; simpl in Hk.
  - injection Hk as ->. rewrite HP. exact I.
  - destruct (P c); [lia|]. destruct (c =? NUL); [exact I|]. specialize (IH (S i) k Hk).
    destruct (scan P l (S i)); [lia|exact I|exact IH].
Qed.

Lemma skip_space_bounded l i k : l !! k = Some NUL -> exists j, skip_space l i = Some j /\ (i <= j <= i + k)%nat.
Proof.
  revert i k. induction l as [|c l IH]; intros i k Hk; [discriminate Hk|]. cbn [skip_space].
  destruct k as [|k]; simpl in Hk.
  - injection Hk as ->. exists i. split; [reflexivity|lia].
  - destruct (isspace c); [|exists i; split; [reflexivity|lia]]. destruct (IH (S i) k Hk) as (j & -> & Hj).
    exists j. split; [reflexivity|lia].
Qed.

(** The buffer of a packet of [len] bytes: 256 bytes, NUL at [len]. *)
Definition terminated (buf : list Z) (len : nat) : Prop := Z.of_nat (length buf) = wu_strlen /\ buf !! len = Some NUL.

Lemma terminated_insert buf len n : terminated buf len -> terminated (<[n := NUL]> buf) len.
Proof.
  intros [L H]. split; [rewrite length_insert; exact L|]. destruct (decide (n = len)) as [->|Ne].
  - apply list_lookup_insert_eq. eapply lookup_lt_Some. exact H.
  - rewrite list_lookup_insert_ne by exact Ne. exact H.
Qed.

Lemma terminated_drop buf len s : terminated buf len -> (s <= len)%nat -> drop s buf !! (len - s)%nat = Some NUL.
Proof. intros [_ H] Hs. rewrite lookup_drop. replace (s + (len - s))%nat with len by lia. exact H. Qed.

Lemma parse_fields_safe slots i count s buf field len : terminated buf len -> (s <= len)%nat -> 0 <= i <= count ->
  count - i <= Z.of_nat slots -> count < 2 ^ 32 -> Z.of_nat (length field) = i -> Forall (fun o => (o <= len)%nat) field ->
  match parse_fields slots i count s buf field with
  | Done (buf, field) => terminated buf len /\ Z.of_nat (length field) = count /\ Forall (fun o => (o <= len)%nat) field
  | Fail e => e = EFAULT
  | Undefined => False
  end.
Proof.
  revert i s buf field. induction slots as [|slots IH]; intros i s buf field T Hs Hi Hslots Hc Hl Hf;
    unfold parse_fields; fold parse_fields; destruct (Z.ltb_spec i count) as [Lt|Ge]; try lia.
  1, 3: split_and!; [exact T|lia|exact Hf].
  unfold strpbrk. pose proof (scan_bounded (fun c => (c =? comma) || (c =? semicolon)) (drop s buf) s _ (terminated_drop _ _ _ T Hs) eq_refl) as B.
  destruct (scan _ (drop s buf) s) as [n| |]; [| |destruct B].
  - cbn [mbind outcome_bind]. pose proof (terminated_insert buf len n T) as T'.
    destruct (skip_space_bounded _ s _ (terminated_drop _ _ s T' Hs)) as (j & -> & Hj).
    apply IH; [exact T'|lia|lia|lia|exact Hc|rewrite length_app; simpl; lia|].
    apply Forall_app. split; [exact Hf|constructor; [lia|constructor]].
  - rewrite u32_small by lia. destruct (Z.ltb_spec i (count - 1)); cbn [mbind outcome_bind]; [reflexivity|].
    destruct (skip_space_bounded _ s _ (terminated_drop _ _ s T Hs)) as (j & -> & Hj).
    split_and!; [exact T|rewrite length_app; simpl; lia|].
    apply Forall_app. split; [exact Hf|constructor; [lia|constructor]].
Qed.

Lemma strchr_safe buf len s c : terminated buf len -> (s <= len)%nat -> c <> NUL ->
  match expect (strchr buf s c) with Done j => (s <= j < len)%nat | Fail e => e = EFAULT | Undefined => False end.
Proof.
  intros T Hs Hc. unfold strchr.
  pose proof (scan_bounded (Z.eqb c) (drop s buf) s _ (terminated_drop _ _ _ T Hs) (proj2 (Z.eqb_neq c NUL) Hc)) as B.
  destruct (scan _ _ s); simpl; [lia|reflexivity|exact B].
Qed.

Lemma at_safe buf len s : terminated buf len -> (s <= len)%nat -> exists c, at_ buf s = Done c.
Proof.
  intros [_ H] Hs. unfold at_. destruct (lookup_lt_is_Some_2 buf s) as [c ->]; [apply lookup_lt_Some in H; lia|eauto].
Qed.

Lemma parse_header_safe buf len : Z.of_nat (length buf) = wu_strlen -> 0 <= len < wu_strlen ->
  match parse_header buf len with
  | Done (_, _, n, s, buf) => terminated buf (Z.to_nat len) /\ (s <= Z.to_nat len)%nat /\ 0 <= n < 2 ^ 32
  | Fail e => e = EFAULT
  | Undefined => False
  end.
Proof.
  intros L Hl. unfold parse_header. destruct (Z.ltb_spec len 0); [lia|]. destruct (Z.leb_spec wu_strlen len); [lia|]. cbn [orb].
  assert (terminated (<[Z.to_nat len := NUL]> buf) (Z.to_nat len)) as T.
  { split; [rewrite length_insert; exact L|]. apply list_lookup_insert_eq. lia. }
  revert T. generalize (<[Z.to_nat len := NUL]> buf) as b. generalize (Z.to_nat len) as k. intros k b T.
  assert (comma <> NUL) as Nc by discriminate.
  pose proof (strchr_safe b k 0 hash T ltac:(lia) ltac:(discriminate)) as H1.
  destruct (expect (strchr b 0 hash)) as [i1|e|]; cbn [mbind outcome_bind]; [|exact H1|exact H1].
  pose proof (strchr_safe b k (S i1) comma T ltac:(lia) Nc) as H2.
  destruct (expect (strchr b (S i1) comma)) as [i2|e|]; cbn [mbind outcome_bind]; [|exact H2|exact H2].
  destruct (at_safe b k (S i1) T ltac:(lia)) as [c1 ->]. cbn [mbind outcome_bind].
  pose proof (strchr_safe b k (S i2) comma T ltac:(lia) Nc) as H3.
  destruct (expect (strchr b (S i2) comma)) as [i3|e|]; cbn [mbind outcome_bind]; [|exact H3|exact H3].
  destruct (at_safe b k (S i2) T ltac:(lia)) as [c2 ->]. cbn [mbind outcome_bind].
  pose proof (strchr_safe b k (S i3) comma T ltac:(lia) Nc) as H4.
  destruct (expect (strchr b (S i3) comma)) as [i4|e|]; cbn [mbind outcome_bind]; [|exact H4|exact H4].
  split_and!; [apply terminated_insert, T|lia| |]; apply Z.mod_pos_bound; lia.
Qed.

(** The number of parameters a received packet announces. *)
Definition announced (buf : list Z) (len : Z) : Z :=
  match parse_header buf len with Done (_, _, n, _, _) => n | _ => 0 end.

Lemma parse_packet_cases buf len : Z.of_nat (length buf) = wu_strlen -> 0 <= len < wu_strlen ->
  announced buf len <= wu_num_fields ->
  match parse_packet buf len with
  | Done r => terminated (r_buf r) (Z.to_nat len) /\ Z.of_nat (length (r_field r)) = r_count r
              /\ r_count r = announced buf len /\ Forall (fun o => (o <= Z.to_nat len)%nat) (r_field r)
  | Fail e => e = EFAULT
  | Undefined => False
  end.
Proof.
  intros L Hl Ha. pose proof (parse_header_safe buf len L Hl) as H. unfold parse_packet, announced in *.
  destruct (parse_header buf len) as [[[[[c sc] n] s] b]|e|]; cbn [mbind outcome_bind]; [|exact H|exact H].
  destruct H as (T & Hs & Hn).
  pose proof (parse_fields_safe (Z.to_nat wu_num_fields) 0 n s b [] _ T Hs ltac:(lia) ltac:(unfold wu_num_fields in *; lia) ltac:(lia) eq_refl ltac:(constructor)) as F.
  destruct (parse_fields _ _ _ _ _ _) as [[b' field]|e|]; cbn [mbind outcome_bind]; [|exact F|exact F].
  destruct F as (T' & Lf & Ff). cbn [r_buf r_field r_count]. split_and!; [exact T'|exact Lf|reflexivity|exact Ff].
Qed.

(** C8: the parser is memory-safe on any bytes the device sends, as long as fewer than 256 bytes
    were read and at most 18 parameters are announced: it never leaves the buffer or the field
    array; it fails with EFAULT or records exactly the announced number of fields, each a position
    in the received text, with the NUL behind the text intact. *)
Theorem parse_packet_safe buf len : Z.of_nat (length buf) = wu_strlen -> 0 <= len < wu_strlen ->
  announced buf len <= wu_num_fields ->
  match parse_packet buf len with
  | Done r => terminated (r_buf r) (Z.to_nat len) /\ Z.of_nat (length (r_field r)) = r_count r
              /\ r_count r = announced buf len /\ Forall (fun o => (o <= Z.to_nat len)%nat) (r_field r)
  | Fail e => e = EFAULT
  | Undefined => False
  end.
Proof. apply parse_packet_cases. Qed.

(** ** More parameters than fields *)

Lemma parse_fields_step slots i count s buf field :
  parse_fields slots i count s buf field
  = if i <? count then
      '(next, buf) ← match strpbrk buf s with
                     | Found n => Done (Some (S n), <[n := NUL]> buf)
                     | NotFound => if i <? u32 (count - 1) then Fail EFAULT else Done (None, buf)
                     | Overrun => Undefined
                     end;
      match skip_space (drop s buf) s, slots with
      | Some s, S slots =>
          match next with
          | Some next => parse_fields slots (i + 1) count next buf (field ++ [s])
          | None => Done (buf, field ++ [s])
          end
      | _, _ => Undefined
      end
    else Done (buf, field).
Proof. destruct slots; reflexivity. Qed.

(** The loop with more well-formed parameters than free entries of p->field[]. *)
Lemma parse_fields_overflow fs slots i count pre tail acc : Forall clean fs ->
  (slots < length fs)%nat -> count = i + Z.of_nat (length fs) -> 
  parse_fields slots i count (length pre) (pre ++ join fs semicolon ++ tail) acc = Undefined.
Proof.
  intros Hc. revert slots i pre acc. induction Hc as [|f fs Hf Hfs IH]; intros slots i pre acc Hs Ec; [simpl in Hs; lia|].
  simpl in Hs, Ec. destruct (join_head f fs) as (c & rest & Hsep & -> & Hrest). rewrite parse_fields_step.
  destruct (Z.ltb_spec i count) as [_|]; [|lia]. unfold strpbrk. rewrite <- app_assoc, drop_at. cbn [app].
  rewrite clean_scan by assumption. cbn [mbind outcome_bind].
  assert (<[(length pre + length f)%nat := NUL]> (pre ++ f ++ c :: rest ++ tail) = pre ++ f ++ NUL :: rest ++ tail) as ->.
  { rewrite !app_assoc, <- length_app. apply insert_at. }
  rewrite drop_at, skip_space_clean by exact Hf.
  destruct slots as [|slots]; [reflexivity|].
  replace (S (length pre + length f)) with (length (pre ++ f ++ [NUL])) by (rewrite !length_app; simpl; lia).
  destruct Hrest as [[-> ->]|[-> Hne]]; [simpl in Hs; lia|].
  replace (pre ++ f ++ NUL :: join fs semicolon ++ tail) with ((pre ++ f ++ [NUL]) ++ join fs semicolon ++ tail)
    by (rewrite <- !app_assoc; reflexivity).
  apply IH; lia.
Qed.

(** ** What the parser depends on *)

(** Buffers that agree up to the NUL at [len]. *)
Definition agree (len : nat) (b1 b2 : list Z) : Prop := take (S len) b1 = take (S len) b2.

Lemma scan_agree P l1 l2 i k : l1 !! k = Some NUL -> P NUL = false -> agree k l1 l2 -> scan P l1 i = scan P l2 i.
Proof.
  intros Hk HP. unfold agree. revert l2 i k Hk. induction l1 as [|c l1 IH]; intros [|d l2] i k Hk E; try discriminate.
  cbn [take] in E. injection E as <- E. cbn [scan]. destruct k as [|k]; simpl in Hk.
  - injection Hk as ->. rewrite HP. reflexivity.
  - rewrite (IH l2 (S i) k Hk E). reflexivity.
Qed.

Lemma skip_space_agree l1 l2 i k : l1 !! k = Some NUL -> agree k l1 l2 -> skip_space l1 i = skip_space l2 i.
Proof.
  unfold agree. revert l2 i k. induction l1 as [|c l1 IH]; intros [|d l2] i k Hk E; try discriminate.
  cbn [take] in E. injection E as <- E. cbn [skip_space]. destruct k as [|k]; simpl in Hk.
  - injection Hk as ->. reflexivity.
  - rewrite (IH l2 (S i) k Hk E). reflexivity.
Qed.

Lemma cstring_agree l1 l2 k : l1 !! k = Some NUL -> agree k l1 l2 -> cstring l1 = cstring l2.
Proof.
  unfold agree. revert l2 k. induction l1 as [|c l1 IH]; intros [|d l2] k Hk E; try discriminate.
  cbn [take] in E. injection E as <- E. cbn [cstring]. destruct k as [|k]; simpl in Hk.
  - injection Hk as ->. reflexivity.
  - rewrite (IH l2 k Hk E). reflexivity.
Qed.

Lemma agree_drop len s b1 b2 : agree len b1 b2 -> (s <= len)%nat -> agree (len - s) (drop s b1) (drop s b2).
Proof.
  unfold agree. intros E Hs. rewrite !take_drop_commute. replace (s + S (len - s))%nat with (S len) by lia.
  rewrite E. reflexivity.
Qed.

Lemma agree_insert len n x b1 b2 : agree len b1 b2 -> agree len (<[n := x]> b1) (<[n := x]> b2).
Proof. unfold agree. intros E. rewrite !take_insert, E. reflexivity. Qed.

(** The same parse up to what lies behind [len]. *)
Definition same_fields (len : nat) (o1 o2 : outcome (list Z * list nat)) : Prop :=
  match o1, o2 with
  | Done (b1, f1), Done (b2, f2) => f1 = f2 /\ agree len b1 b2
  | Fail e1, Fail e2 => e1 = e2
  | Undefined, Undefined => True
  | _, _ => False
  end.

Lemma parse_fields_agree slots i count s b1 b2 field len : terminated b1 len -> (s <= len)%nat -> agree len b1 b2 ->
  same_fields len (parse_fields slots i count s b1 field) (parse_fields slots i count s b2 field).
Proof.
  revert i s b1 b2 field. induction slots as [|slots IH]; intros i s b1 b2 field T Hs A; rewrite !parse_fields_step;
    (destruct (i <? count); [|split; [reflexivity|exact A]]);
    unfold strpbrk; set (P := fun c => (c =? comma) || (c =? semicolon));
    rewrite <- (scan_agree P _ _ s _ (terminated_drop _ _ _ T Hs) eq_refl (agree_drop _ _ _ _ A Hs));
    pose proof (scan_bounded P (drop s b1) s _ (terminated_drop _ _ _ T Hs) eq_refl) as B;
    destruct (scan P (drop s b1) s) as [n| |]; try destruct B; try (destruct (i <? u32 (count - 1)); [reflexivity|]);
    cbn [mbind outcome_bind].
  - pose proof (terminated_insert b1 len n T) as T'. pose proof (agree_insert len n NUL b1 b2 A) as A'.
    rewrite <- (skip_space_agree _ _ s _ (terminated_drop _ _ _ T' Hs) (agree_drop _ _ _ _ A' Hs)).
    destruct (skip_space _ s); exact I.
  - rewrite <- (skip_space_agree _ _ s _ (terminated_drop _ _ _ T Hs) (agree_drop _ _ _ _ A Hs)).
    destruct (skip_space _ s); exact I.
  - pose proof (terminated_insert b1 len n T) as T'. pose proof (agree_insert len n NUL b1 b2 A) as A'.
    rewrite <- (skip_space_agree _ _ s _ (terminated_drop _ _ _ T' Hs) (agree_drop _ _ _ _ A' Hs)).
    destruct (skip_space _ s); [apply IH; [exact T'|lia|exact A']|exact I].
  - rewrite <- (skip_space_agree _ _ s _ (terminated_drop _ _ _ T Hs) (agree_drop _ _ _ _ A Hs)).
    destruct (skip_space _ s); [split; [reflexivity|exact A]|exact I].
Qed.

Lemma strchr_agree b1 b2 len s c : terminated b1 len -> (s <= len)%nat -> c <> NUL -> agree len b1 b2 ->
  strchr b2 s c = strchr b1 s c.
Proof.
  intros T Hs Hc A. unfold strchr. symmetry. eapply scan_agree; [apply (terminated_drop _ _ _ T Hs)| |apply agree_drop; assumption].
  apply Z.eqb_neq, Hc.
Qed.

Lemma at_agree b1 b2 len s : (s <= len)%nat -> agree len b1 b2 -> at_ b2 s = at_ b1 s.
Proof.
  intros Hs A. unfold at_. rewrite <- (lookup_take_lt b1 (S len)), <- (lookup_take_lt b2 (S len)) by lia.
  rewrite A. reflexivity.
Qed.

(** The header depends on the buffer up to [len] only. *)
Lemma parse_header_agree buf1 buf2 len : Z.of_nat (length buf1) = wu_strlen -> 0 <= len < wu_strlen ->
  agree (Z.to_nat len) (<[Z.to_nat len := NUL]> buf1) (<[Z.to_nat len := NUL]> buf2) ->
  match parse_header buf1 len, parse_header buf2 len with
  | Done (c1, s1, n1, o1, b1), Done (c2, s2, n2, o2, b2) =>
      c1 = c2 /\ s1 = s2 /\ n1 = n2 /\ o1 = o2 /\ agree (Z.to_nat len) b1 b2
  | Fail e1, Fail e2 => e1 = e2
  | Undefined, Undefined => True
  | _, _ => False
  end.
Proof.
  intros L Hl. unfold parse_header. destruct (Z.ltb_spec len 0); [lia|]. destruct (Z.leb_spec wu_strlen len); [lia|]. cbn [orb].
  assert (terminated (<[Z.to_nat len := NUL]> buf1) (Z.to_nat len)) as T.
  { split; [rewrite length_insert; exact L|]. apply list_lookup_insert_eq. lia. }
  revert T. generalize (<[Z.to_nat len := NUL]> buf1) as b, (<[Z.to_nat len := NUL]> buf2) as b2.
  generalize (Z.to_nat len) as k. intros k b b2 T A. assert (comma <> NUL) as Nc by discriminate.
  rewrite (strchr_agree b b2 k 0 hash T) by (lia || discriminate || exact A).
  pose proof (strchr_safe b k 0 hash T ltac:(lia) ltac:(discriminate)) as H1.
  destruct (expect (strchr b 0 hash)) as [i1|e|]; cbn [mbind outcome_bind]; [|reflexivity|exact I].
  rewrite (strchr_agree b b2 k (S i1) comma T) by (lia || exact Nc || exact A).
  pose proof (strchr_safe b k (S i1) comma T ltac:(lia) Nc) as H2.
  destruct (expect (strchr b (S i1) comma)) as [i2|e|]; cbn [mbind outcome_bind]; [|reflexivity|exact I].
  rewrite (at_agree b b2 k (S i1) ltac:(lia) A).
  destruct (at_safe b k (S i1) T ltac:(lia)) as [c1 ->]. cbn [mbind outcome_bind].
  rewrite (strchr_agree b b2 k (S i2) comma T) by (lia || exact Nc || exact A).
  pose proof (strchr_safe b k (S i2) comma T ltac:(lia) Nc) as H3.
  destruct (expect (strchr b (S i2) comma)) as [i3|e|]; cbn [mbind outcome_bind]; [|reflexivity|exact I].
  rewrite (at_agree b b2 k (S i2) ltac:(lia) A).
  destruct (at_safe b k (S i2) T ltac:(lia)) as [c2 ->]. cbn [mbind outcome_bind].
  rewrite (strchr_agree b b2 k (S i3) comma T) by (lia || exact Nc || exact A).
  pose proof (strchr_safe b k (S i3) comma T ltac:(lia) Nc) as H4.
  destruct (expect (strchr b (S i3) comma)) as [i4|e|]; cbn [mbind outcome_bind]; [|reflexivity|exact I].
  pose proof (agree_insert k i4 NUL b b2 A) as A'. split_and!; try reflexivity; [|exact A'].
  do 2 f_equal. eapply cstring_agree; [apply (terminated_drop _ k (S i3) (terminated_insert b k i4 T)); lia|].
  apply agree_drop; [exact A'|lia].
Qed.

(** What a caller sees of a packet. *)
Definition view (o : outcome received) : outcome (Z * Z * Z * list (list Z)) :=
  match o with
  | Done r => Done (r_cmd r, r_sub_cmd r, r_count r, field_text r)
  | Fail e => Fail e
  | Undefined => Undefined
  end.

Lemma field_text_agree len b1 b2 field : terminated b1 len -> agree len b1 b2 -> Forall (fun o => (o <= len)%nat) field ->
  map (fun s => cstring (drop s b1)) field = map (fun s => cstring (drop s b2)) field.
Proof.
  intros T A. induction 1 as [|o field Ho _ IH]; cbn [map]; [reflexivity|]. f_equal; [|exact IH].
  eapply cstring_agree; [apply (terminated_drop _ _ _ T Ho)|apply agree_drop; assumption].
Qed.

Lemma parse_packet_view buf1 buf2 len : Z.of_nat (length buf1) = wu_strlen -> 0 <= len < wu_strlen ->
  announced buf1 len <= wu_num_fields -> agree (Z.to_nat len) (<[Z.to_nat len := NUL]> buf1) (<[Z.to_nat len := NUL]> buf2) ->
  view (parse_packet buf1 len) = view (parse_packet buf2 len).
Proof.
  intros L Hl Ha A. pose proof (parse_header_safe buf1 len L Hl) as H.
  pose proof (parse_header_agree buf1 buf2 len L Hl A) as G. unfold announced in Ha. unfold parse_packet.
  destruct (parse_header buf1 len) as [[[[[c1 s1] n1] o1] b1]|e1|], (parse_header buf2 len) as [[[[[c2 s2] n2] o2] b2]|e2|];
    try (destruct G; fail); cbn [mbind outcome_bind]; [|rewrite G; reflexivity|reflexivity].
  destruct G as (<- & <- & <- & <- & A'). destruct H as (T & Ho & Hn).
  pose proof (parse_fields_agree (Z.to_nat wu_num_fields) 0 n1 o1 b1 b2 [] _ T Ho A') as F.
  pose proof (parse_fields_safe (Z.to_nat wu_num_fields) 0 n1 o1 b1 [] _ T Ho ltac:(lia) ltac:(unfold wu_num_fields in *; lia) ltac:(lia) eq_refl ltac:(constructor)) as S1.
  destruct (parse_fields _ 0 n1 o1 b1 []) as [[b1' f1]|e1|], (parse_fields _ 0 n1 o1 b2 []) as [[b2' f2]|e2|];
    try (destruct F; fail); cbn [mbind outcome_bind view r_cmd r_sub_cmd r_count]; [|rewrite F; reflexivity|reflexivity].
  destruct F as [<- A2]. destruct S1 as (T' & _ & Ff). do 2 f_equal. apply (field_text_agree _ _ _ _ T' A2 Ff).
Qed.

(** The result of parsing depends on the bytes received alone: whatever an earlier packet or
    command left behind them in the buffer, the command, the count and the parameter texts, or the
    failure, are the same. *)
Theorem parse_packet_stale text stale1 stale2 :
  Z.of_nat (length text + length stale1) = wu_strlen -> Z.of_nat (length text + length stale2) = wu_strlen ->
  Z.of_nat (length text) < wu_strlen -> announced (text ++ stale1) (Z.of_nat (length text)) <= wu_num_fields ->
  view (parse_packet (text ++ stale1) (Z.of_nat (length text))) = view (parse_packet (text ++ stale2) (Z.of_nat (length text))).
Proof.
  intros L1 L2 Lt Ha. apply parse_packet_view; [rewrite length_app; exact L1|lia|exact Ha|].
  destruct stale1 as [|x1 s1], stale2 as [|x2 s2]; simpl in *; try lia. rewrite Nat2Z.id, !insert_at. unfold agree.
  replace (S (length text)) with (length text + 1)%nat by lia. rewrite !take_app_add. reflexivity.
Qed.

(** A well-formed packet on the wire. *)
Definition wire (c sc : Z) (fs : list (list Z)) : list Z :=
  hash :: c :: comma :: sc :: comma :: print_d (Z.of_nat (length fs)) ++ comma :: join fs semicolon.

Lemma join_length fs : (length fs <= length (join fs semicolon))%nat.
Proof.
  induction fs as [|f fs IH]; [simpl; lia|]. destruct fs as [|g fs]; [simpl; rewrite length_app; simpl; lia|].
  cbn [join length] in *. rewrite length_app. cbn [length]. lia.
Qed.

Lemma parse_wire_overflow c sc fs stale : 0 < c < 128 -> c <> comma -> 0 < sc < 128 -> sc <> comma ->
  Forall clean fs -> wu_num_fields < Z.of_nat (length fs) <= 127 ->
  Z.of_nat (length (wire c sc fs)) < wu_strlen -> stale <> [] ->
  parse_packet (wire c sc fs ++ stale) (Z.of_nat (length (wire c sc fs))) = Undefined.
Proof.
  intros Hc Nc Hs Ns Cl Hn Hlen Hst. destruct stale as [|x stale]; [done|]. unfold parse_packet.
  erewrite parse_header_text with (n := Z.of_nat (length fs)) (rest := join fs semicolon ++ NUL :: stale);
    [|exact Hc|exact Nc|exact Hs|exact Ns|unfold wu_num_fields in *; lia|lia|].
  2: { rewrite Nat2Z.id, insert_at. unfold wire. cbn [app]. rewrite <- app_assoc. reflexivity. }
  cbn [mbind outcome_bind]. set (pre := hash :: _ :: _).
  replace (6 + length (print_d (Z.of_nat (length fs))))%nat with (length pre) by (unfold pre; simpl; rewrite length_app; simpl; lia).
  rewrite parse_fields_overflow; [reflexivity|exact Cl|unfold wu_num_fields in *; lia|lia].
Qed.

(** The parser trusts the count the device sends: a well-formed packet of fewer than 256
    bytes with more than 18 parameters is stored beyond the 18 entries of p->field[], and a read
    that fills the buffer makes it write the terminating NUL behind the buffer. *)
Theorem parse_packet_overflow :
  (forall c sc fs stale, 0 < c < 128 -> c <> comma -> 0 < sc < 128 -> sc <> comma ->
    Forall clean fs -> wu_num_fields < Z.of_nat (length fs) <= 127 ->
    Z.of_nat (length (wire c sc fs)) < wu_strlen -> stale <> [] ->
    parse_packet (wire c sc fs ++ stale) (Z.of_nat (length (wire c sc fs))) = Undefined)
  /\ (forall buf, parse_packet buf wu_strlen = Undefined).
Proof. split; [exact parse_wire_overflow|reflexivity]. Qed.

(** ** Witnesses *)

Definition log_packet : wu_packet := mkPacket 76 87 3 [bytes "E"; bytes "1"; bytes "1"].

Lemma wu_write_bounded_witness :
  match wu_write log_packet with
  | Done text => (length text <= 253)%nat /\ head text = Some hash /\ last text = Some semicolon
  | Fail e => e = EOVERFLOW
  | Undefined => False
  end.
Proof. apply (wu_write_bounded log_packet); vm_compute; intuition discriminate. Defined.

Lemma clean_log : Forall clean (fields log_packet).
Proof. repeat constructor; discriminate. Qed.


Lemma parse_packet_safe_witness :
  let buf := buffer (bytes "#d,-,2,10, 20") in
  match parse_packet buf 13 with
  | Done r => terminated (r_buf r) 13 /\ Z.of_nat (length (r_field r)) = r_count r
              /\ r_count r = announced buf 13 /\ Forall (fun o => (o <= 13)%nat) (r_field r)
  | Fail e => e = EFAULT
  | Undefined => False
  end.
Proof. apply (parse_packet_safe (buffer (bytes "#d,-,2,10, 20")) 13); vm_compute; intuition discriminate. Defined.

Lemma parse_packet_overflow_witness :
  parse_packet (wire 100 45 (replicate 19 (bytes "1")) ++ [NUL]) (Z.of_nat (length (wire 100 45 (replicate 19 (bytes "1"))))) = Undefined.
Proof.
  apply (proj1 parse_packet_overflow); try discriminate; try (vm_compute; intuition discriminate).
  repeat constructor; discriminate.
Defined.

Lemma parse_packet_stale_witness :
  view (parse_packet (bytes "#d,-,2,10, 20" ++ replicate 243 44) 13) = view (parse_packet (bytes "#d,-,2,10, 20" ++ replicate 243 35) 13).
Proof. apply (parse_packet_stale (bytes "#d,-,2,10, 20")); vm_compute; congruence. Defined.
