(* ===== verification/WuSession.v ===== *)
(** The Watts Up? command line tool (watts-up-linux/util.c, wattsup.c, config.c): the
    exchange of commands and packets with the meter, the logging loop with its
    retries, the options and the main program.  The operating system (the serial
    line, the device node, getopt_long) is a parameter; the effects of the tool are
    a trace of actions.  Debug output is not modelled. *)
From S2P Require Import Prelude WuPacket.

(** ** The operating system *)

(** What select(2) and read(2) make of one wu_read. *)
Inductive arrival :=
| SelectError
| TimedOut
| ReadError
| Arrived (data : list Z).

Class Device := {
  dev_arrival : nat -> arrival;            (* the n-th read from the line *)
  dev_write : nat -> list Z -> Z;          (* the value of the n-th write(2) *)
}.

(** A meter that sends fewer than 256 bytes at a time and announces at most 18
    parameters. *)
Class DeviceLaws `{Device} := {
  arrival_fits n data : dev_arrival n = Arrived data ->
    Z.of_nat (length data) < wu_strlen
    /\ announced (buffer data) (Z.of_nat (length data)) <= wu_num_fields;
}.

(** ** State *)

(** enum wu_option_... and enum wu_field_... of wattsup_common.h. *)
Inductive wu_opt :=
| opt_help | opt_version | opt_debug | opt_count | opt_final | opt_delim | opt_newline
| opt_localtime | opt_gmtime | opt_label | opt_suppress | opt_cal | opt_header
| opt_interval | opt_mode | opt_user | opt_info_all | opt_no_data | opt_set_only.

#[export] Instance wu_opt_eq : EqDecision wu_opt.
Proof. solve_decision. Defined.

Definition all_options : list wu_opt :=
  [opt_help; opt_version; opt_debug; opt_count; opt_final; opt_delim; opt_newline;
   opt_localtime; opt_gmtime; opt_label; opt_suppress; opt_cal; opt_header;
   opt_interval; opt_mode; opt_user; opt_info_all; opt_no_data; opt_set_only].

Definition field_watts : nat := 0.
Definition field_amps : nat := 2.
Definition field_max_volts : nat := 8.
Definition field_max_amps : nat := 9.
Definition field_min_volts : nat := 11.
Definition field_min_amps : nat := 12.
Definition field_power_factor : nat := 13.
Definition field_duty_cycle : nat := 14.

(** wu_fields of config.c, in the order of the enum. *)
Definition wu_field_names : list string :=
  ["watts"; "volts"; "amps"; "kwh"; "cost"; "mo-kwh"; "mo-cost"; "max-watts"; "min-volts"; "max-amps";
   "min-watts"; "max-volts"; "min-amps"; "power-factor"; "duty-cycle"; "power-cycle"; "frequency"; "VA"]%string.

(** The globals of util.c and globals.c. *)
Record globals := mkGlobals {
  wu_count : Z;
  wu_debug : bool;
  wu_delim : list Z;
  wu_final : bool;
  wu_interval : Z;
  wu_label : bool;
  wu_newline : bool;
  wu_suppress : bool;
  wu_localtime : bool;
  wu_gmtime : bool;
  wu_device : list Z;
  wu_fd : Z;
  wu_info_all : bool;
  wu_no_data : bool;
  wu_set_only : bool;
  enabled : list bool;                    (* wu_fields[i].enable *)
  flag : wu_opt -> bool;                  (* wu_options[i].flag *)
  value : wu_opt -> option (list Z);      (* wu_options[i].value *)
}.

Definition initial : globals :=
  mkGlobals 0 false (bytes ", ") false 1 false false false false false (bytes "ttyUSB0") 0 false false false
    (replicate 18 false) (fun _ => false) (fun _ => None).

(** A value of a data record as print_packet_filter hands it to snprintf. *)
Record sample := mkSample { s_field : nat; s_text : list Z; s_scale : Z; s_digits : Z }.

Inductive action :=
| Wrote (text : list Z)
| Slept (seconds : Z)
| Printed (text : list Z)
| Stamped (local : bool)
| Sampled (samples : list sample)
| HelpShown
| VersionShown
| Closed (fd : Z).

Record world := mkWorld { glob : globals; reads : nat; writes : nat; trace : list action }.

(** A routine of the tool; None is undefined behaviour. *)
Definition session (A : Type) : Type := world -> option (A * world).
#[export] Instance session_ret : MRet session := fun _ a w => Some (a, w).
#[export] Instance session_bind : MBind session := fun _ _ f m w =>
  match m w with Some (a, w) => f a w | None => None end.

Definition act (a : action) : session unit := fun w => Some (tt, mkWorld (glob w) (reads w) (writes w) (trace w ++ [a])).
Definition get : session globals := fun w => Some (glob w, w).
Definition put (g : globals) : session unit := fun w => Some (tt, mkWorld g (reads w) (writes w) (trace w)).
Definition undefined {A} : session A := fun _ => None.
Definition lift {A} (m : option A) : session A := match m with Some a => mret a | None => undefined end.
Definition sleep (n : Z) : session unit := act (Slept (u32 n)).

(** ret_err and the failures of the system calls are -1. *)
Definition failure : Z := -1.

Definition chr (s : string) : Z := match bytes s with c :: _ => c | [] => 0 end.

(** ** Output *)

(** vprintf of a format without arguments: any conversion but %% reads an
    argument that is not there. *)
Fixpoint printf0 (l : list Z) : option (list Z) :=
  match l with
  | 37 :: 37 :: l => cons 37 <$> printf0 l
  | 37 :: _ => None
  | c :: l => cons c <$> printf0 l
  | [] => Some []
  end.

Definition separator (g : globals) : list Z := if wu_newline g then [10] else wu_delim g.

(** The loop of print_packet from field [i] on; a label the caller did not
    initialise is a null pointer. *)
Fixpoint print_fields (g : globals) (labels : list string) (i : nat) (texts : list (list Z)) : option (list Z) :=
  match texts with
  | [] => Some []
  | f :: texts =>
      label ← (if wu_label g then l ← labels !! i; Some ([91] ++ bytes l ++ [93; 32]) else Some []);
      text ← printf0 f;
      rest ← print_fields g labels (S i) texts;
      Some ((if (i =? 0)%nat then [] else separator g) ++ label ++ text ++ rest)
  end.

Definition print_packet (labels : list string) (r : received) (str : string) : session unit :=
  g ← get;
  body ← lift (print_fields g labels 0 (field_text r));
  act (Printed ((if wu_suppress g then [] else bytes "Watts Up? " ++ bytes str ++ [10]) ++ body ++ [10])).

Definition print_time : session unit :=
  g ← get;
  if wu_localtime g || wu_gmtime g then act (Stamped (wu_localtime g)) else mret tt.

Definition filter_data (g : globals) (i : nat) (text : list Z) : option sample :=
  if (i <? 18)%nat then
    if default false (enabled g !! i) then
      let '(scale, digits) :=
        if bool_decide (i ∈ [field_min_amps; field_max_amps; field_amps]) then (1000, 3)
        else if bool_decide (i ∈ [field_power_factor; field_duty_cycle]) then (1, 1)
        else (10, 1) in
      Some (mkSample i text scale digits)
    else None
  else None.

Fixpoint filter_fields (g : globals) (i : nat) (texts : list (list Z)) : list sample :=
  match texts with
  | [] => []
  | f :: texts => match filter_data g i f with
                  | Some s => s :: filter_fields g (S i) texts
                  | None => filter_fields g (S i) texts
                  end
  end.

Definition print_packet_filter (r : received) : session unit :=
  _ ← print_time;
  g ← get;
  act (Sampled (filter_fields g 0 (field_text r))).

(** ** The line *)

Section Line.
Context `{Device}.

(** wu_write: the command, then write(2); a short write is reported and
    accepted. *)
Definition wu_write_fd (p : wu_packet) : session Z := fun w =>
  match wu_write p with
  | Done text =>
      let r := dev_write (writes w) text in
      Some (if 0 <=? r then 0 else r, mkWorld (glob w) (reads w) (S (writes w)) (trace w ++ [Wrote text]))
  | Fail _ => Some (failure, w)
  | Undefined => None
  end.

(** wu_read; what the buffer held before is immaterial (parse_packet_stale). *)
Definition wu_read : session (option received) := fun w =>
  let w' := mkWorld (glob w) (S (reads w)) (writes w) (trace w) in
  match dev_arrival (reads w) with
  | SelectError | TimedOut | ReadError => Some (None, w')
  | Arrived data =>
      match read_packet data with
      | Done r => Some (Some r, w')
      | Fail _ => Some (None, w')
      | Undefined => None
      end
  end.

Definition request (c sc : string) : wu_packet := mkPacket (chr c) (chr sc) 0 [].

Definition wu_start_log : session Z :=
  ret ← wu_write_fd (mkPacket (chr "L") (chr "W") 3 [bytes "E"; bytes "1"; bytes "1"]);
  if ret =? 0 then _ ← sleep 1; mret 0 else mret ret.

Definition wu_stop_log : session Z :=
  ret ← wu_write_fd (request "L" "R");
  if negb (ret =? 0) then mret ret
  else
    _ ← sleep 1;
    p ← wu_read;
    match p with
    | None => mret failure
    | Some r =>
        g ← get;
        if wu_final g then _ ← print_packet ["time stamp"; "interval"]%string r "Final Time Stamp and Interval"; mret 0
        else mret 0
    end.

Definition wu_clear : session Z :=
  ret ← wu_write_fd (request "R" "W");
  _ ← (if ret =? 0 then sleep 2 else mret tt);
  _ ← wu_read;
  mret ret.

Definition wu_max_retry : Z := 10.

(** The loop of wu_read_data: true when it left the loop, false when the fuel
    ran out.  num_read only appears in debug output. *)
Fixpoint read_data_loop (fuel : nat) (retry i : Z) : session bool :=
  match fuel with
  | O => mret false
  | S fuel =>
      p ← wu_read;
      g ← get;
      match p with
      | None =>
          let retry := retry + 1 in
          if retry <? wu_max_retry then _ ← sleep (wu_interval g); read_data_loop fuel retry i
          else if retry =? wu_max_retry then
            _ ← wu_stop_log; _ ← wu_clear; _ ← wu_start_log;
            _ ← sleep (wu_interval g); read_data_loop fuel retry i
          else mret true
      | Some r =>
          let retry := if negb (retry =? 0) then 0 else retry in
          _ ← print_packet_filter r;
          let i' := if negb (wu_count g =? 0) then i + 1 else i in
          if negb (wu_count g =? 0) && (i' =? wu_count g) then mret true
          else _ ← sleep (wu_interval g); read_data_loop fuel retry i'
      end
  end.

Definition wu_read_data (fuel : nat) : session bool := read_data_loop fuel 0 0.
End Line.

(** ** Number conversion *)

Definition digit_value (c : Z) : option Z :=
  if isdigit c then Some (c - 48)
  else if (97 <=? c) && (c <=? 122) then Some (c - 87)
  else if (65 <=? c) && (c <=? 90) then Some (c - 55)
  else None.

(** The digits in base [b]: their value and what follows. *)
Fixpoint digits_in (b : Z) (l : list Z) (acc : Z) : Z * list Z :=
  match l with
  | c :: l' => match digit_value c with
               | Some d => if d <? b then digits_in b l' (b * acc + d) else (acc, l)
               | None => (acc, l)
               end
  | [] => (acc, [])
  end.

Definition starts_digit (b : Z) (l : list Z) : bool :=
  match l with c :: _ => match digit_value c with Some d => d <? b | None => false end | [] => false end.

(** strtol and strtoul in base 0: sign, magnitude and the text at [*end]; no
    digits leave [*end] at the start. *)
Definition strto (l : list Z) : bool * Z * list Z :=
  let s := drop_space l in
  let '(neg, s) := match s with
                   | 45 :: s => (true, s)
                   | 43 :: s => (false, s)
                   | _ => (false, s)
                   end in
  let '(b, s) := match s with
                 | 48 :: x :: s' => if ((x =? 120) || (x =? 88)) && starts_digit 16 s' then (16, s') else (8, s)
                 | 48 :: _ => (8, s)
                 | _ => (10, s)
                 end in
  if starts_digit b s then let '(n, rest) := digits_in b s 0 in (neg, n, rest) else (false, 0, l).

Definition strtol (l : list Z) : Z * list Z :=
  let '(neg, n, rest) := strto l in (saturate (if neg : bool then - n else n), rest).

Definition strtoul (l : list Z) : Z * list Z :=
  let '(neg, n, rest) := strto l in
  (if n <? 2 ^ 64 then (if neg : bool then (- n) mod 2 ^ 64 else n) else 2 ^ 64 - 1, rest).

(** ** Options that talk to the meter *)

Section Options.
Context `{Device}.

(** Ask for a record and print it. *)
Definition show_record (c : string) (labels : list string) (title : string) : session Z :=
  ret ← wu_write_fd (request c "R");
  if negb (ret =? 0) then mret ret
  else
    _ ← sleep 1;
    p ← wu_read;
    match p with
    | None => mret failure
    | Some r => _ ← print_packet labels r title; mret 0
    end.

Definition wu_show_header : session Z :=
  show_record "H" ["watts header"; "volts header"; "amps header"; "kWh header"; "cost header"; "mo. kWh header";
    "mo. cost header"; "max watts header"; "max volts header"; "max amps header"; "min watts header";
    "min volts header"; "min amps header"; "power factor header"; "duty cycle header"; "power cycle header";
    "frequency header"; "VA header"]%string "Header Record".

Definition wu_show_cal : session Z :=
  show_record "F" ["flags"; "sample count"; "volts gain"; "volts bias"; "amps gain"; "amps bias"; "amps offset";
    "low amps gain"; "low amps bias"; "low amps offset"; "watts gain"; "watts offset"; "low watts gain";
    "low watts offset"]%string "Calibration Settings".

Definition wu_show_interval : session Z := show_record "S" ["reserved"; "interval"]%string "Interval Settings".

Definition wu_show_user : session Z :=
  show_record "U" ["cost per kWh"; "2nd tier cost"; "2nd tier threshold"; "duty cycle threshold"]%string "User Settings".

(** No pause before the read; the packet only goes to the debug output. *)
Definition wu_show_mode : session Z :=
  ret ← wu_write_fd (request "M" "R");
  if negb (ret =? 0) then mret ret
  else p ← wu_read; mret (match p with None => failure | Some _ => 0 end).

(** [snprintf(str, wu_param_len, "%ud", n)]: the conversion is %u and the
    format goes on with a letter. *)
Definition param_text (n : Z) : list Z := take (Z.to_nat wu_param_len - 1) (print_u n ++ bytes "d").

Definition wu_write_interval (seconds interval : Z) : session Z :=
  ret ← wu_write_fd (mkPacket (chr "S") (chr "W") 2 [param_text seconds; param_text interval]);
  if negb (ret =? 0) then mret ret else _ ← sleep 1; mret 0.

Definition set_interval (g : globals) (n : Z) : globals :=
  mkGlobals (wu_count g) (wu_debug g) (wu_delim g) (wu_final g) n (wu_label g) (wu_newline g) (wu_suppress g)
    (wu_localtime g) (wu_gmtime g) (wu_device g) (wu_fd g) (wu_info_all g) (wu_no_data g) (wu_set_only g)
    (enabled g) (flag g) (value g).

(** strtol of a null pointer is undefined. *)
Definition wu_store_interval : session Z :=
  g ← get;
  s ← lift (value g opt_interval);
  let '(n, rest) := strtol s in
  _ ← put (set_interval g (wrap32 n));
  match rest with
  | [] => wu_write_interval 1 (wrap32 n)
  | _ => mret failure
  end.

Definition wu_write_mode (mode : Z) : session Z :=
  ret ← wu_write_fd (mkPacket (chr "M") (chr "W") 1 [param_text mode]);
  if ret =? 0 then _ ← sleep 1; mret ret else mret ret.

Definition wu_store_mode : session Z :=
  g ← get;
  s ← lift (value g opt_mode);
  let '(n, rest) := strtol s in
  match rest with
  | [] => wu_write_mode (u32 n)
  | _ => mret failure
  end.

(** The texts of the parameters end up in the labels, and no parameter is
    announced. *)
Definition wu_write_user (kwh_cost second_tier_cost second_tier_threshold duty_cycle_threshold : Z) : session Z :=
  ret ← wu_write_fd (request "U" "R");
  if ret =? 0 then _ ← sleep 1; mret ret else mret ret.

(** [while (s && !isdigit( *s)) s++]: the pointer never becomes null, so the
    loop ends at a digit or leaves the string. *)
Fixpoint to_digit (l : list Z) : option (list Z) :=
  match l with
  | [] => None
  | c :: l' => if isdigit c then Some l else to_digit l'
  end.

(** One parameter: None when strtoul converts nothing. *)
Definition user_param (s : list Z) : session (option (Z * list Z)) :=
  let '(n, next) := strtoul s in
  if (length next =? length s)%nat then mret None
  else s ← lift (to_digit next); mret (Some (u32 n, s)).

Definition wu_store_user : session Z :=
  g ← get;
  match value g opt_user with
  | None => mret failure
  | Some s =>
      p1 ← user_param s;
      match p1 with None => mret failure | Some (kwh_cost, s) =>
      p2 ← user_param s;
      match p2 with None => mret failure | Some (second_tier_cost, s) =>
      p3 ← user_param s;
      match p3 with None => mret failure | Some (second_tier_threshold, s) =>
      p4 ← user_param s;
      match p4 with None => mret failure | Some (duty_cycle_threshold, _) =>
      wu_write_user kwh_cost second_tier_cost second_tier_threshold duty_cycle_threshold
      end end end end
  end.
End Options.

(** ** Options that set a global *)

Definition set_flag_of (o : wu_opt) (g : globals) : globals :=
  let on x := bool_decide (o = x) in
  mkGlobals (wu_count g) (wu_debug g || on opt_debug) (wu_delim g) (wu_final g || on opt_final) (wu_interval g)
    (wu_label g || on opt_label) (wu_newline g || on opt_newline) (wu_suppress g || on opt_suppress)
    (wu_localtime g || on opt_localtime) (wu_gmtime g || on opt_gmtime) (wu_device g) (wu_fd g)
    (wu_info_all g || on opt_info_all) (wu_no_data g || on opt_no_data) (wu_set_only g || on opt_set_only)
    (enabled g) (flag g) (value g).

Definition set_count (g : globals) (n : Z) : globals :=
  mkGlobals n (wu_debug g) (wu_delim g) (wu_final g) (wu_interval g) (wu_label g) (wu_newline g) (wu_suppress g)
    (wu_localtime g) (wu_gmtime g) (wu_device g) (wu_fd g) (wu_info_all g) (wu_no_data g) (wu_set_only g)
    (enabled g) (flag g) (value g).

Definition set_delim (g : globals) (s : list Z) : globals :=
  mkGlobals (wu_count g) (wu_debug g) s (wu_final g) (wu_interval g) (wu_label g) (wu_newline g) (wu_suppress g)
    (wu_localtime g) (wu_gmtime g) (wu_device g) (wu_fd g) (wu_info_all g) (wu_no_data g) (wu_set_only g)
    (enabled g) (flag g) (value g).

Definition set_device (g : globals) (dev : list Z) (fd : Z) : globals :=
  mkGlobals (wu_count g) (wu_debug g) (wu_delim g) (wu_final g) (wu_interval g) (wu_label g) (wu_newline g)
    (wu_suppress g) (wu_localtime g) (wu_gmtime g) dev fd (wu_info_all g) (wu_no_data g) (wu_set_only g)
    (enabled g) (flag g) (value g).

Definition set_enabled (g : globals) (e : list bool) : globals :=
  mkGlobals (wu_count g) (wu_debug g) (wu_delim g) (wu_final g) (wu_interval g) (wu_label g) (wu_newline g)
    (wu_suppress g) (wu_localtime g) (wu_gmtime g) (wu_device g) (wu_fd g) (wu_info_all g) (wu_no_data g)
    (wu_set_only g) e (flag g) (value g).

(** wu_options[o].flag = 1, and the argument when there is one. *)
Definition set_option (g : globals) (o : wu_opt) (arg : option (list Z)) : globals :=
  mkGlobals (wu_count g) (wu_debug g) (wu_delim g) (wu_final g) (wu_interval g) (wu_label g) (wu_newline g)
    (wu_suppress g) (wu_localtime g) (wu_gmtime g) (wu_device g) (wu_fd g) (wu_info_all g) (wu_no_data g)
    (wu_set_only g) (enabled g)
    (fun x => if decide (x = o) then true else flag g x)
    (fun x => if decide (x = o) then (match arg with Some a => Some a | None => value g x end) else value g x).

Definition wu_store_count : session Z :=
  g ← get;
  match value g opt_count with
  | None => mret 0
  | Some s => let '(n, rest) := strtol s in
              _ ← put (set_count g (wrap32 n));
              mret (match rest with [] => 0 | _ => failure end)
  end.

Definition wu_store_delim : session Z :=
  g ← get;
  _ ← (match value g opt_delim with Some s => put (set_delim g s) | None => mret tt end);
  mret 0.

(** wu_store_debug, wu_store_final and the other stores that set one flag. *)
Definition wu_store_flag (o : wu_opt) : session Z := g ← get; _ ← put (set_flag_of o g); mret 0.

(** strcasecmp on ASCII names. *)
Definition tolower (c : Z) : Z := if (65 <=? c) && (c <=? 90) then c + 32 else c.
Definition strcaseeq (a b : list Z) : bool := bool_decide (map tolower a = map tolower b).

Fixpoint field_index (names : list string) (name : list Z) (i : nat) : option nat :=
  match names with
  | [] => None
  | n :: names => if strcaseeq (bytes n) name then Some i else field_index names name (S i)
  end.

Definition enable_field (g : globals) (name : list Z) : globals :=
  match field_index wu_field_names name 0 with
  | Some i => set_enabled g (<[i := true]> (enabled g))
  | None => g
  end.

Definition enable_all_fields (g : globals) : globals := set_enabled g (map (fun _ => true) (enabled g)).

(** ** The option table *)

Definition wu_version_text : session Z := _ ← act VersionShown; mret 0.
Definition wu_show_help : session Z := _ ← wu_version_text; _ ← act HelpShown; mret 0.

Definition shortopt (o : wu_opt) : Z :=
  chr (match o with
       | opt_help => "h" | opt_version => "V" | opt_debug => "d" | opt_count => "c" | opt_final => "z"
       | opt_delim => "f" | opt_newline => "n" | opt_localtime => "t" | opt_gmtime => "g" | opt_label => "l"
       | opt_suppress => "s" | opt_cal => "b" | opt_header => "r" | opt_interval => "i" | opt_mode => "m"
       | opt_user => "u" | opt_info_all => "a" | opt_no_data => "N" | opt_set_only => "S"
       end).

Definition param (o : wu_opt) : Z :=
  match o with
  | opt_count | opt_delim => 1
  | opt_interval | opt_mode | opt_user => 2
  | _ => 0
  end.

Definition make_shortopt : list Z :=
  concat (map (fun o => shortopt o :: (if param o =? 0 then [] else [if param o =? 1 then chr ":" else chr ";"])) all_options).

Fixpoint enable_short_option (opts : list wu_opt) (c : Z) (arg : option (list Z)) (g : globals) : globals :=
  match opts with
  | [] => g
  | o :: opts => if shortopt o =? c then set_option g o arg else enable_short_option opts c arg g
  end.

Section Program.
Context `{Device}.

Definition wu_option_show (o : wu_opt) : option (session Z) :=
  match o with
  | opt_help => Some wu_show_help
  | opt_version => Some wu_version_text
  | opt_cal => Some wu_show_cal
  | opt_header => Some wu_show_header
  | opt_interval => Some wu_show_interval
  | opt_mode => Some wu_show_mode
  | opt_user => Some wu_show_user
  | _ => None
  end.

Definition wu_option_store (o : wu_opt) : option (session Z) :=
  match o with
  | opt_count => Some wu_store_count
  | opt_delim => Some wu_store_delim
  | opt_interval => Some wu_store_interval
  | opt_mode => Some wu_store_mode
  | opt_user => Some wu_store_user
  | opt_help | opt_version | opt_cal | opt_header => None
  | o => Some (wu_store_flag o)
  end.

Definition wu_show (o : wu_opt) : session Z :=
  match wu_option_show o with Some show => show | None => mret 0 end.

Definition wu_check_show (o : wu_opt) : session bool :=
  g ← get;
  if flag g o then _ ← wu_show o; mret true else mret false.

Definition wu_check_store (o : wu_opt) : session Z :=
  g ← get;
  if flag g o then match wu_option_store o with Some store => store | None => mret 0 end else mret 0.

(** What getopt_long reports. *)
Inductive getopt :=
| LongOption (o : wu_opt) (arg : option (list Z))
| BadOption
| ShortOption (c : Z) (arg : option (list Z)).

Fixpoint getopt_loop (opts : list getopt) : session Z :=
  match opts with
  | [] => mret 0
  | LongOption o arg :: opts =>
      g ← get; _ ← put (set_option g o arg); getopt_loop opts
  | BadOption :: _ => mret failure
  | ShortOption c arg :: opts =>
      g ← get; _ ← put (enable_short_option all_options c arg g); getopt_loop opts
  end.

(** None: the program exits with status 0. *)
Definition parse_args (opts : list getopt) (operands : list (list Z)) : session (option Z) :=
  ret ← getopt_loop opts;
  if negb (ret =? 0) then mret (Some ret)
  else
    help ← wu_check_show opt_help;
    if help : bool then mret None
    else
      version ← wu_check_show opt_version;
      if version : bool then mret None
      else
        match operands with
        | [] => _ ← wu_show opt_help; mret (Some failure)
        | dev :: names =>
            g ← get;
            let g := set_device g dev (wu_fd g) in
            _ ← put (match names with
                     | [] => enable_all_fields g
                     | _ => fold_left enable_field names g
                     end);
            mret (Some 0)
        end.

(** ** The main program *)

(** The checks on the device node. *)
Class System := {
  open_cwd : Z;                          (* open(".") *)
  chdir_sysfs : Z;                       (* chdir("/sys/class/tty") *)
  stat_sysfs : list Z -> option bool;    (* is it a directory? *)
  stat_dev : list Z -> option bool;      (* is it a character device? *)
  access_dev : list Z -> Z;
  open_dev : list Z -> Z;
  tcgetattr : Z -> Z;
  tcsetattr : Z -> Z;
}.
Context `{System}.

(** The return value, and the descriptor when *dev_fd was assigned. *)
Definition open_device (name : list Z) : Z * option Z :=
  if open_cwd <? 0 then (open_cwd, None)
  else if negb (chdir_sysfs =? 0) then (chdir_sysfs, None)
  else
    match stat_sysfs name with
    | None => (failure, None)
    | Some false => (0, None)
    | Some true =>
        match stat_dev name with
        | None => (failure, None)
        | Some false => (failure, None)
        | Some true =>
            if negb (access_dev name =? 0) then (access_dev name, None)
            else if open_dev name <? 0 then (open_dev name, None)
            else (0, Some (open_dev name))
        end
    end.

Definition setup_serial_device (fd : Z) : Z :=
  if negb (tcgetattr fd =? 0) then tcgetattr fd
  else if negb (tcsetattr fd =? 0) then tcsetattr fd
  else 0.

(** [if ((ret = step)) goto Close;] in sequence. *)
Fixpoint until_error (steps : list (session Z)) : session Z :=
  match steps with
  | [] => mret 0
  | s :: steps => ret ← s; if negb (ret =? 0) then mret ret else until_error steps
  end.

Definition stores : list wu_opt :=
  [opt_delim; opt_label; opt_newline; opt_suppress; opt_localtime; opt_gmtime; opt_set_only; opt_no_data;
   opt_info_all; opt_interval; opt_mode; opt_user].

Definition show_info : session unit :=
  g ← get;
  if wu_info_all g then
    _ ← wu_show opt_cal; _ ← wu_show opt_header; _ ← wu_show opt_interval; _ ← wu_show opt_mode;
    _ ← wu_show opt_user; mret tt
  else
    _ ← wu_check_show opt_cal; _ ← wu_check_show opt_header;
    if negb (wu_set_only g) then
      _ ← wu_check_show opt_interval; _ ← wu_check_show opt_mode; _ ← wu_check_show opt_user; mret tt
    else mret tt.

(** The data section: false when the fuel of wu_read_data ran out. *)
Definition read_section (fuel : nat) : session (option Z) :=
  g ← get;
  if wu_no_data g then mret (Some 0)
  else
    ret ← until_error [wu_check_store opt_count; wu_check_store opt_final; wu_start_log];
    if negb (ret =? 0) then mret (Some ret)
    else
      finished ← wu_read_data fuel;
      if finished : bool then _ ← wu_stop_log; mret (Some 0) else mret None.

(** From setup_serial_device to the label Close. *)
Definition main_body (fuel : nat) (fd : Z) : session (option Z) :=
  let ret := setup_serial_device fd in
  if negb (ret =? 0) then mret (Some ret)
  else
    _ ← wu_clear;
    g ← get;
    _ ← put (set_device g (wu_device g) fd);
    ret ← until_error (map wu_check_store stores);
    if negb (ret =? 0) then mret (Some ret)
    else _ ← show_info; read_section fuel.

(** The exit status; None when the fuel ran out. *)
Definition main (fuel : nat) (opts : list getopt) (operands : list (list Z)) : session (option Z) :=
  parsed ← parse_args opts operands;
  match parsed with
  | None => mret (Some 0)
  | Some ret =>
      if negb (ret =? 0) then mret (Some 0)
      else
        ret ← wu_check_store opt_debug;
        if negb (ret =? 0) then _ ← act (Closed 0); mret (Some ret)
        else
          g ← get;
          let '(ret, opened) := open_device (wu_device g) in
          if negb (ret =? 0) then mret (Some ret)
          else
            let fd := default 0 opened in
            r ← main_body fuel fd;
            match r with
            | None => mret None
            | Some ret => _ ← act (Closed fd); mret (Some ret)
            end
  end.
End Program.
