(* ===== verification/WuSessionSpec.v ===== *)
(** What a session with the meter does: the logging loop ends, prints one line per
    good record, gives up on a dead line after one reset; the commands it sends;
    and the options that do not do what they say. *)
From S2P Require Import Prelude WuPacket WuSession.

(** ** Reasoning about sessions *)

(** [m] runs from [w] without undefined behaviour into [Q]. *)
Definition runs {A} (m : session A) (w : world) (Q : A -> world -> Prop) : Prop :=
  exists a w', m w = Some (a, w') /\ Q a w'.

Lemma runs_ret {A} (a : A) w (Q : A -> world -> Prop) : Q a w -> runs (mret a) w Q.
Proof. intros HQ. exists a, w. split; [reflexivity|exact HQ]. Qed.

Lemma runs_bind {A B} (m : session A) (f : A -> session B) w Q :
  runs m w (fun a w => runs (f a) w Q) -> runs (m ≫= f) w Q.
Proof.
  intros (a & w' & E & b & w2 & E2 & HQ). exists b, w2. split; [|exact HQ].
  unfold mbind, session_bind. rewrite E. exact E2.
Qed.

Lemma runs_weaken {A} (m : session A) w (Q R : A -> world -> Prop) :
  runs m w Q -> (forall a w, Q a w -> R a w) -> runs m w R.
Proof. intros (a & w' & E & HQ) HR. exists a, w'. auto. Qed.

Lemma runs_get w (Q : globals -> world -> Prop) : Q (glob w) w -> runs get w Q.
Proof. intros HQ. exists (glob w), w. auto. Qed.

Create HintDb session.
#[export] Hint Resolve runs_ret runs_get : session.

(** The data lines printed so far. *)
Definition is_sample (a : action) : bool := match a with Sampled _ => true | _ => false end.
Definition samples (w : world) : nat := length (List.filter is_sample (trace w)).

(** Nothing but time, the line and the trace changed: at most [r] reads were made and [k]
    data lines were printed. *)
Definition advanced (r k : nat) (w w' : world) : Prop :=
  glob w' = glob w /\ samples w' = (samples w + k)%nat /\ (reads w' <= reads w + r)%nat.

(** Runs one after the other add up. *)
Ltac advance :=
  solve [cbv beta in *; repeat match goal with H : advanced _ _ _ _ |- _ => destruct H as (? & ? & ?) end; split_and!; [congruence|lia|lia]].

Lemma samples_snoc g rd wr tr x : samples (mkWorld g rd wr (tr ++ [x])) = (length (List.filter is_sample tr) + (if is_sample x then 1 else 0))%nat.
Proof. unfold samples. simpl. rewrite List.filter_app, length_app. simpl. destruct (is_sample x); reflexivity. Qed.

Lemma runs_act x w (Q : unit -> world -> Prop) :
  (forall w', advanced 0 (if is_sample x then 1 else 0) w w' -> Q tt w') -> runs (act x) w Q.
Proof.
  intros HQ. eexists tt, _. split; [reflexivity|]. apply HQ. split_and!; [reflexivity|rewrite samples_snoc; reflexivity|simpl; lia].
Qed.

Section Quiet.
Context `{DeviceLaws}.

Lemma wu_read_runs w : runs wu_read w (fun _ w' => advanced 1 0 w w').
Proof.
  unfold runs, wu_read. destruct (dev_arrival (reads w)) as [| | |data] eqn:E.
  1-3: eexists _, _; split; [reflexivity|]; split_and!; [reflexivity|unfold samples; simpl; lia..].
  destruct (arrival_fits _ _ E) as [Hl Ha]. unfold read_packet.
  pose proof (parse_packet_cases (buffer data) (Z.of_nat (length data))) as C.
  unfold wu_strlen in *. assert (Z.of_nat (length (buffer data)) = 256) as Lb.
  { unfold buffer. rewrite length_app, length_replicate. unfold wu_strlen. lia. }
  specialize (C Lb ltac:(lia) Ha). destruct (parse_packet _ _); [| |destruct C].
  all: eexists _, _; split; [reflexivity|]; split_and!; [reflexivity|unfold samples; simpl; lia..].
Qed.

(** A command whose text fits. *)
Lemma wu_write_fd_runs p text w : wu_write p = Done text -> runs (wu_write_fd p) w (fun _ w' => advanced 0 0 w w').
Proof.
  intros E. unfold runs, wu_write_fd. rewrite E. eexists _, _. split; [reflexivity|]. split_and!; [reflexivity| |simpl; lia].
  rewrite samples_snoc. simpl. unfold samples. lia.
Qed.

Lemma wu_stop_log_runs w : wu_final (glob w) = false -> runs wu_stop_log w (fun _ w' => advanced 1 0 w w').
Proof.
  intros Hf. apply runs_bind. eapply runs_weaken; [eapply wu_write_fd_runs; reflexivity|]. intros r w1 A1.
  destruct (negb _); [apply runs_ret; advance|]. apply runs_bind, runs_act. intros w2 A2. apply runs_bind.
  eapply runs_weaken; [apply wu_read_runs|]. intros p w3 A3. assert (advanced 1 0 w w3) as A by (cbn in A2; advance).
  destruct p as [r'|]; [|apply runs_ret, A]. apply runs_bind, runs_get. rewrite (proj1 A), Hf. apply runs_ret, A.
Qed.

Lemma wu_clear_runs w : runs wu_clear w (fun _ w' => advanced 1 0 w w').
Proof.
  apply runs_bind. eapply runs_weaken; [eapply wu_write_fd_runs; reflexivity|]. intros r w1 A1. apply runs_bind.
  assert (runs (if r =? 0 then sleep 2 else mret tt) w1 (fun _ w' => advanced 0 0 w w')) as R.
  { destruct (r =? 0); [apply runs_act; cbn; intros w2 A2; advance|apply runs_ret; advance]. }
  eapply runs_weaken; [exact R|]. intros ? w2 A2. apply runs_bind. eapply runs_weaken; [apply wu_read_runs|].
  intros p w3 A3. apply runs_ret. advance.
Qed.

Lemma wu_start_log_runs w : runs wu_start_log w (fun _ w' => advanced 0 0 w w').
Proof.
  apply runs_bind. eapply runs_weaken; [eapply wu_write_fd_runs; reflexivity|]. intros r w1 A1.
  destruct (r =? 0); [|apply runs_ret, A1]. apply runs_bind, runs_act. cbn. intros w2 A2. apply runs_ret. advance.
Qed.

Lemma print_packet_filter_runs r w : runs (print_packet_filter r) w (fun _ w' => advanced 0 1 w w').
Proof.
  apply runs_bind. assert (runs print_time w (fun _ w' => advanced 0 0 w w')) as R.
  { apply runs_bind, runs_get. destruct (_ || _); [apply runs_act; auto|apply runs_ret; split_and!; [reflexivity|lia..]]. }
  eapply runs_weaken; [exact R|]. intros ? w1 A1. apply runs_bind, runs_get, runs_act. cbn. intros w2 A2. advance.
Qed.

(** ** Termination *)

(** The reads that may be left for [n] samples after [retry] failures: eleven for each
    sample, and two in the reset that follows the tenth failure. *)
Definition reads_left (n retry : Z) : Z := 13 * n - retry - (if retry =? 10 then 2 else 0).

(** From the first read of a record on. *)
Definition finishes (n retry : Z) (w : world) (done : bool) (w' : world) : Prop :=
  done = true /\ exists r k, advanced r k w w' /\ Z.of_nat k <= n /\ Z.of_nat r <= reads_left n retry.

Lemma finishes_after r k n n' retry retry' w w1 done w' : advanced r k w w1 -> finishes n' retry' w1 done w' ->
  Z.of_nat k + n' <= n -> Z.of_nat r + reads_left n' retry' <= reads_left n retry -> finishes n retry w done w'.
Proof.
  intros A (-> & r' & k' & A' & Hk & Hr) Ln Lr. split; [reflexivity|]. exists (r + r')%nat, (k + k')%nat. split_and!; [advance|lia..].
Qed.

(** The tenth failure in a row: a reset and a pause. *)
Lemma reset_runs n w : wu_final (glob w) = false ->
  runs (_ ← wu_stop_log; _ ← wu_clear; _ ← wu_start_log; sleep n) w (fun _ w' => advanced 2 0 w w').
Proof.
  intros Hf. apply runs_bind. eapply runs_weaken; [apply wu_stop_log_runs, Hf|]. intros ? w2 A2.
  apply runs_bind. eapply runs_weaken; [apply wu_clear_runs|]. intros ? w3 A3.
  apply runs_bind. eapply runs_weaken; [apply wu_start_log_runs|]. intros ? w4 A4. apply runs_act. cbn. intros w5 A5. advance.
Qed.

(** Eleven more failures or one good record end an attempt. *)
Lemma read_data_loop_runs fuel retry i w : wu_final (glob w) = false -> 0 <= retry <= 10 ->
  0 <= i < wu_count (glob w) -> 11 * (wu_count (glob w) - i) - retry <= Z.of_nat fuel ->
  runs (read_data_loop fuel retry i) w (finishes (wu_count (glob w) - i) retry w).
Proof.
  revert retry i w. induction fuel as [|fuel IH]; intros retry i w Hf Hr Hi Hfuel; [lia|]. cbn [read_data_loop].
  apply runs_bind. eapply runs_weaken; [apply wu_read_runs|]. intros p w1 A1. apply runs_bind, runs_get.
  pose proof (proj1 A1) as G1. rewrite G1.
  assert (forall r k i' retry' w2, advanced r k w w2 -> 0 <= retry' <= 10 -> i' < wu_count (glob w) -> i' = i + Z.of_nat k ->
    11 * (wu_count (glob w) - i') - retry' <= Z.of_nat fuel ->
    Z.of_nat r + reads_left (wu_count (glob w) - i') retry' <= reads_left (wu_count (glob w) - i) retry ->
    runs (read_data_loop fuel retry' i') w2 (finishes (wu_count (glob w) - i) retry w)) as Again.
  { intros r k i' retry' w2 A2 Hr' Hi' -> Hfu Hrd. pose proof (proj1 A2) as G2. eapply runs_weaken.
    - apply IH; rewrite ?G2; [exact Hf|exact Hr'|lia|exact Hfu].
    - rewrite G2. intros b w3 F. eapply finishes_after; [exact A2|exact F|lia|exact Hrd]. }
  unfold reads_left in Again. destruct p as [r|].
  - apply runs_bind. eapply runs_weaken; [apply print_packet_filter_runs|]. intros ? w2 A2.
    assert ((wu_count (glob w) =? 0) = false) as -> by (apply Z.eqb_neq; lia).
    cbn [negb andb]. destruct (Z.eqb_spec (i + 1) (wu_count (glob w))) as [E|Ne].
    + apply runs_ret. split; [reflexivity|]. exists 1%nat, 1%nat. split_and!; [advance|lia|]. unfold reads_left. destruct (retry =? 10); lia.
    + apply runs_bind, runs_act. cbn. intros w3 A3.
      assert ((if negb (retry =? 0) then 0 else retry) = 0) as -> by (destruct (Z.eqb_spec retry 0); simpl; congruence).
      apply (Again 1%nat 1%nat); [advance|lia..|]. cbn. destruct (retry =? 10); lia.
  - unfold wu_max_retry. destruct (Z.ltb_spec (retry + 1) 10).
    + apply runs_bind, runs_act. cbn. intros w2 A2. apply (Again 1%nat 0%nat); [advance|lia..|].
      destruct (Z.eqb_spec (retry + 1) 10), (Z.eqb_spec retry 10); lia.
    + destruct (Z.eqb_spec (retry + 1) 10) as [E|Ne].
      * destruct (reset_runs (wu_interval (glob w)) w1 ltac:(rewrite G1; exact Hf)) as ([] & w2 & Es & A2).
        assert (forall (f : session bool), (_ ← wu_stop_log; _ ← wu_clear; _ ← wu_start_log; _ ← sleep (wu_interval (glob w)); f) w1
          = (_ ← (_ ← wu_stop_log; _ ← wu_clear; _ ← wu_start_log; sleep (wu_interval (glob w))); f) w1) as Assoc.
        { intros f. unfold mbind, session_bind. repeat (match goal with |- context [match ?m with Some _ => _ | None => _ end] => destruct m as [[]|] eqn:? end; try reflexivity). }
        unfold runs. rewrite Assoc. apply (runs_bind _ (fun _ => read_data_loop fuel (retry + 1) i)). exists tt, w2. split; [exact Es|].
        apply (Again 3%nat 0%nat); [advance|lia..|]. rewrite (proj2 (Z.eqb_eq _ _) E), (proj2 (Z.eqb_neq retry 10)) by lia. lia.
      * apply runs_ret. split; [reflexivity|]. exists 1%nat, 0%nat. split_and!; [advance|lia|]. unfold reads_left. destruct (retry =? 10); lia.
Qed.

(** C9: with a sample count, no final read and records that fit the buffer, wu_read_data
    ends however the line behaves: every good record counts one sample and eleven failed
    attempts in a row give up, so at most 11 rounds of the loop per sample are needed; with
    the two reads of the reset after the tenth failure it reads at most 13 times per sample.
    It prints at most the requested number of data lines and leaves the options alone. *)
Theorem wu_read_data_terminates fuel w : wu_final (glob w) = false -> 0 < wu_count (glob w) ->
  11 * wu_count (glob w) <= Z.of_nat fuel ->
  exists w' k, wu_read_data fuel w = Some (true, w') /\ glob w' = glob w
    /\ samples w' = (samples w + k)%nat /\ Z.of_nat k <= wu_count (glob w)
    /\ Z.of_nat (reads w') <= Z.of_nat (reads w) + 13 * wu_count (glob w).
Proof.
  intros Hf Hc Hfuel. destruct (read_data_loop_runs fuel 0 0 w Hf ltac:(lia) ltac:(lia) ltac:(lia)) as (b & w' & E & -> & r & k & (G & S & R) & Hk & Hr).
  unfold reads_left in Hr. cbn in Hr. exists w', k. split_and!; [exact E|exact G|exact S|lia..].
Qed.
End Quiet.

(** ** A line that answers *)

(** What a data record adds to the output. *)
Definition data_line (g : globals) (r : received) : list action :=
  (if wu_localtime g || wu_gmtime g then [Stamped (wu_localtime g)] else []) ++ [Sampled (filter_fields g 0 (field_text r))].

(** The actions of a run that collects [rs]: a pause between records. *)
Fixpoint collected (g : globals) (rs : list received) : list action :=
  match rs with
  | [] => []
  | [r] => data_line g r
  | r :: rs => data_line g r ++ Slept (u32 (wu_interval g)) :: collected g rs
  end.

Section Answers.
Context `{Device}.

(** The reads from the [n]-th on deliver the packets [rs]. *)
Fixpoint delivers (n : nat) (rs : list received) : Prop :=
  match rs with
  | [] => True
  | r :: rs => (exists data, dev_arrival n = Arrived data /\ read_packet data = Done r) /\ delivers (S n) rs
  end.

Lemma wu_read_delivers w r rs : delivers (reads w) (r :: rs) ->
  wu_read w = Some (Some r, mkWorld (glob w) (S (reads w)) (writes w) (trace w)).
Proof. intros [(data & Ed & Er) _]. unfold wu_read. rewrite Ed, Er. reflexivity. Qed.

Lemma print_packet_filter_line r w :
  print_packet_filter r w = Some (tt, mkWorld (glob w) (reads w) (writes w) (trace w ++ data_line (glob w) r)).
Proof.
  destruct w as [g rd wr tr]. unfold print_packet_filter, print_time, data_line, mbind, session_bind, get, act, mret, session_ret. cbn [glob reads writes trace].
  destruct (wu_localtime g || wu_gmtime g); cbn [app glob reads writes trace]; [rewrite <- app_assoc|]; reflexivity.
Qed.

Lemma read_data_loop_collects rs fuel i w : rs <> [] -> delivers (reads w) rs -> (length rs <= fuel)%nat -> 0 <= i ->
  wu_count (glob w) = i + Z.of_nat (length rs) ->
  read_data_loop fuel 0 i w
  = Some (true, mkWorld (glob w) (reads w + length rs) (writes w) (trace w ++ collected (glob w) rs)).
Proof.
  revert fuel i w. induction rs as [|r rs IH]; intros fuel i w Ne Hd Hfuel Hi Hc; [done|].
  destruct fuel as [|fuel]; [simpl in Hfuel; lia|]. cbn [read_data_loop]. unfold mbind at 1, session_bind at 1.
  rewrite (wu_read_delivers _ _ _ Hd). unfold mbind at 1, session_bind at 1, get at 1. cbn [glob].
  assert ((wu_count (glob w) =? 0) = false) as -> by (apply Z.eqb_neq; simpl in Hc; lia). cbn [negb andb Z.eqb].
  unfold mbind at 1, session_bind at 1. rewrite print_packet_filter_line. cbn [glob reads writes trace].
  destruct (Z.eqb_spec (i + 1) (wu_count (glob w))) as [E|E].
  - destruct rs as [|r2 rs]; [|simpl in Hc; lia]. cbn [collected length]. unfold mret, session_ret.
    rewrite Nat.add_1_r. reflexivity.
  - destruct rs as [|r2 rs]; [simpl in Hc; lia|]. unfold mbind at 1, session_bind at 1, sleep, act at 1. cbn [glob reads writes trace].
    rewrite IH; cbn [glob reads writes trace].
    + rewrite <- !app_assoc. cbn [collected length]. rewrite !Nat.add_succ_r. reflexivity.
    + discriminate.
    + apply (proj2 Hd).
    + simpl in *. lia.
    + lia.
    + simpl in *. lia.
Qed.

(** C40: when the meter answers every time, wu_read_data with count n reads exactly n packets,
    sends nothing, and prints for each packet in order one line with the enabled fields, pausing
    one interval between two records. *)
Theorem wu_read_data_collects rs fuel w : rs <> [] -> delivers (reads w) rs -> (length rs <= fuel)%nat ->
  wu_count (glob w) = Z.of_nat (length rs) ->
  wu_read_data fuel w
  = Some (true, mkWorld (glob w) (reads w + length rs) (writes w) (trace w ++ collected (glob w) rs)).
Proof. intros Ne Hd Hf Hc. apply read_data_loop_collects; [exact Ne|exact Hd|exact Hf|lia|exact Hc]. Qed.

(** ** A dead line *)

(** No read from the [n]-th on yields a packet. *)
Definition dead_from (n : nat) : Prop :=
  forall k, (n <= k)%nat -> match dev_arrival k with
                            | Arrived data => exists e, read_packet data = Fail e
                            | _ => True
                            end.

Lemma wu_read_dead w : dead_from (reads w) -> wu_read w = Some (None, mkWorld (glob w) (S (reads w)) (writes w) (trace w)).
Proof.
  intros D. specialize (D (reads w) (Nat.le_refl _)). unfold wu_read. destruct (dev_arrival (reads w)) as [| | |data]; try reflexivity.
  destruct D as [e ->]. reflexivity.
Qed.

Lemma dead_S n : dead_from n -> dead_from (S n).
Proof. intros D k Hk. apply D. lia. Qed.

(** The line takes what is written. *)
Definition writable : Prop := forall n text, 0 <= dev_write n text.

Lemma wu_write_fd_ok p text w : writable -> wu_write p = Done text ->
  wu_write_fd p w = Some (0, mkWorld (glob w) (reads w) (S (writes w)) (trace w ++ [Wrote text])).
Proof. intros W E. unfold wu_write_fd. rewrite E, (proj2 (Z.leb_le _ _) (W (writes w) text)). reflexivity. Qed.

(** The commands of a reset. *)
Definition reset_actions : list action :=
  [Wrote (bytes "#L,R,0;"); Slept 1; Wrote (bytes "#R,W,0;"); Slept 2; Wrote (bytes "#L,W,3,E,1,1;"); Slept 1].

Lemma wu_stop_log_dead w : writable -> dead_from (reads w) ->
  wu_stop_log w = Some (failure, mkWorld (glob w) (S (reads w)) (S (writes w)) (trace w ++ [Wrote (bytes "#L,R,0;"); Slept 1])).
Proof.
  intros W D. unfold wu_stop_log, mbind at 1, session_bind at 1. erewrite wu_write_fd_ok with (text := bytes "#L,R,0;"); [|exact W|reflexivity].
  unfold mbind, session_bind, sleep, act. cbn [negb Z.eqb glob reads writes trace].
  rewrite wu_read_dead by exact D. rewrite <- app_assoc. reflexivity.
Qed.

Lemma wu_clear_dead w : writable -> dead_from (reads w) ->
  wu_clear w = Some (0, mkWorld (glob w) (S (reads w)) (S (writes w)) (trace w ++ [Wrote (bytes "#R,W,0;"); Slept 2])).
Proof.
  intros W D. unfold wu_clear, mbind at 1, session_bind at 1. erewrite wu_write_fd_ok with (text := bytes "#R,W,0;"); [|exact W|reflexivity].
  unfold mbind, session_bind, sleep, act. cbn [Z.eqb glob reads writes trace].
  rewrite wu_read_dead by exact D. rewrite <- app_assoc. reflexivity.
Qed.

Lemma wu_start_log_ok w : writable ->
  wu_start_log w = Some (0, mkWorld (glob w) (reads w) (S (writes w)) (trace w ++ [Wrote (bytes "#L,W,3,E,1,1;"); Slept 1])).
Proof.
  intros W. unfold wu_start_log, mbind at 1, session_bind at 1. erewrite wu_write_fd_ok with (text := bytes "#L,W,3,E,1,1;"); [|exact W|reflexivity].
  unfold mbind, session_bind, sleep, act. cbn [Z.eqb glob reads writes trace]. rewrite <- app_assoc. reflexivity.
Qed.

(** One failed read before the tenth: a pause. *)
Lemma read_data_loop_retry fuel retry i w : dead_from (reads w) -> retry + 1 < 10 ->
  read_data_loop (S fuel) retry i w
  = read_data_loop fuel (retry + 1) i
      (mkWorld (glob w) (S (reads w)) (writes w) (trace w ++ [Slept (u32 (wu_interval (glob w)))])).
Proof.
  intros D Hr. cbn [read_data_loop]. unfold mbind, session_bind. rewrite wu_read_dead by exact D.
  unfold get, wu_max_retry. rewrite (proj2 (Z.ltb_lt _ _) Hr). reflexivity.
Qed.

Lemma read_data_loop_retries n fuel retry i w : dead_from (reads w) -> retry + Z.of_nat n < 10 ->
  read_data_loop (n + fuel) retry i w
  = read_data_loop fuel (retry + Z.of_nat n) i
      (mkWorld (glob w) (reads w + n) (writes w) (trace w ++ replicate n (Slept (u32 (wu_interval (glob w)))))).
Proof.
  revert retry w. induction n as [|n IH]; intros retry w D Hr.
  - simpl. rewrite Z.add_0_r, Nat.add_0_r, app_nil_r. destruct w; reflexivity.
  - cbn [Nat.add]. rewrite read_data_loop_retry by (exact D || lia). rewrite IH by (apply dead_S, D || lia). cbn [glob reads writes trace].
    rewrite <- app_assoc, Nat.add_succ_r. cbn [app replicate]. f_equal. lia.
Qed.

(** The tenth failure resets the meter, the eleventh ends the loop. *)
Lemma read_data_loop_reset fuel i w : writable -> dead_from (reads w) ->
  read_data_loop (S (S fuel)) 9 i w
  = Some (true, mkWorld (glob w) (reads w + 4) (writes w + 3)
           (trace w ++ reset_actions ++ [Slept (u32 (wu_interval (glob w)))])).
Proof.
  intros W D. cbn [read_data_loop]. unfold mbind, session_bind. rewrite wu_read_dead by exact D.
  unfold get, wu_max_retry. change (9 + 1 <? 10) with false. change (9 + 1 =? 10) with true. change (9 + 1 + 1 <? 10) with false.
  change (9 + 1 + 1 =? 10) with false. cbv iota beta.
  rewrite wu_stop_log_dead by (exact W || apply dead_S, D). cbn [glob reads writes trace].
  rewrite wu_clear_dead by (exact W || apply dead_S, dead_S, D). cbn [glob reads writes trace].
  rewrite wu_start_log_ok by exact W. unfold sleep, act. cbn [glob reads writes trace].
  rewrite wu_read_dead by (do 3 apply dead_S; exact D). cbn [glob reads writes trace].
  unfold mret, session_ret. rewrite <- !app_assoc. do 3 f_equal; lia.
Qed.

(** C36: On a line that never delivers a packet, wu_read_data gives up after eleven attempts: nine
    retries one interval apart, then one reset of the meter (stop, clear, start logging), one last
    attempt; no data line is printed, and the caller is not told (the value is 0). *)
Theorem wu_read_data_gives_up fuel w : writable -> dead_from (reads w) -> (11 <= fuel)%nat ->
  wu_read_data fuel w
  = Some (true, mkWorld (glob w) (reads w + 13) (writes w + 3)
           (trace w ++ replicate 9 (Slept (u32 (wu_interval (glob w)))) ++ reset_actions
              ++ [Slept (u32 (wu_interval (glob w)))])).
Proof.
  intros W D Hf. unfold wu_read_data. replace fuel with (9 + S (S (fuel - 11)))%nat by lia.
  rewrite read_data_loop_retries by (exact D || lia). cbn [Z.of_nat Z.add Pos.of_succ_nat Pos.succ].
  rewrite read_data_loop_reset; [|exact W|intros k Hk; apply D; simpl in Hk; lia]. cbn [glob reads writes trace].
  rewrite <- !app_assoc. do 3 f_equal; lia.
Qed.

(** ** The commands of the options *)

(** The options that write settings do not send them: wu_write_user, whatever its arguments,
    sends the request that reads the user settings; wu_write_interval and wu_write_mode send their
    numbers followed by the letter d; and storing user settings given in the documented format of
    four numbers runs past the end of the string. *)
Theorem wu_settings_not_sent w : writable ->
  (forall a b c d, exists w', wu_write_user a b c d w = Some (0, w') /\ trace w' = trace w ++ [Wrote (bytes "#U,R,0;"); Slept 1])
  /\ (exists w', wu_write_interval 1 2 w = Some (0, w') /\ trace w' = trace w ++ [Wrote (bytes "#S,W,2,1d,2d;"); Slept 1])
  /\ (exists w', wu_write_mode 3 w = Some (0, w') /\ trace w' = trace w ++ [Wrote (bytes "#M,W,1,3d;"); Slept 1])
  /\ (value (glob w) opt_user = Some (bytes "10,20,30,40") -> wu_store_user w = None).
Proof.
  intros W. split_and!.
  - intros a b c d. unfold wu_write_user, mbind at 1, session_bind at 1. erewrite wu_write_fd_ok with (text := bytes "#U,R,0;"); [|exact W|reflexivity].
    unfold mbind, session_bind, sleep, act. cbn [Z.eqb glob reads writes trace]. eexists. split; [reflexivity|]. cbn [trace].
    rewrite <- app_assoc. reflexivity.
  - unfold wu_write_interval, mbind at 1, session_bind at 1. erewrite wu_write_fd_ok with (text := bytes "#S,W,2,1d,2d;"); [|exact W|reflexivity].
    unfold mbind, session_bind, sleep, act. cbn [negb Z.eqb glob reads writes trace]. eexists. split; [reflexivity|]. cbn [trace].
    rewrite <- app_assoc. reflexivity.
  - unfold wu_write_mode, mbind at 1, session_bind at 1. erewrite wu_write_fd_ok with (text := bytes "#M,W,1,3d;"); [|exact W|reflexivity].
    unfold mbind, session_bind, sleep, act. cbn [Z.eqb glob reads writes trace]. eexists. split; [reflexivity|]. cbn [trace].
    rewrite <- app_assoc. reflexivity.
  - intros E. unfold wu_store_user, mbind at 1, session_bind at 1, get. rewrite E. reflexivity.
Qed.
End Answers.

(** ** Options and fields *)

(** "max-volts" on the command line enables the minimum and the other way round. *)
Example volts_exchanged :
  enabled (enable_field initial (bytes "max-volts")) !! field_min_volts = Some true
  /\ enabled (enable_field initial (bytes "max-volts")) !! field_max_volts = Some false
  /\ enabled (enable_field initial (bytes "min-volts")) !! field_max_volts = Some true.
Proof. split_and!; reflexivity. Qed.

(** The option string marks the optional arguments with a semicolon. *)
Example shortopts_text : make_shortopt = bytes "hVdc:zf:ntglsbri;m;u;aNS".
Proof. reflexivity. Qed.

(** -i without an argument converts a null pointer. *)
Lemma interval_without_value `{Device} w : value (glob w) opt_interval = None -> wu_store_interval w = None.
Proof. intros E. unfold wu_store_interval, mbind, session_bind, get. rewrite E. reflexivity. Qed.

(** A sysfs entry that is not a directory: success without a descriptor. *)
Lemma open_device_not_a_directory `{System} name : 0 <= open_cwd -> chdir_sysfs = 0 -> stat_sysfs name = Some false ->
  open_device name = (0, None).
Proof.
  intros Hc Hd Hs. unfold open_device. destruct (Z.ltb_spec open_cwd 0); [lia|]. rewrite Hd, Hs. reflexivity.
Qed.

(** ** Witnesses *)

Definition answering : Device :=
  {| dev_arrival _ := Arrived (bytes "#d,-,3,1205,1201,99;"); dev_write _ text := Z.of_nat (length text) |}.
Definition silent : Device := {| dev_arrival _ := TimedOut; dev_write _ text := Z.of_nat (length text) |}.

#[export] Instance answering_laws : @DeviceLaws answering.
Proof. constructor. intros n data E. injection E as <-. vm_compute. split; [reflexivity|discriminate]. Qed.

Definition session_start : world := mkWorld (set_count (enable_all_fields initial) 2) 0 0 [].

Lemma wu_read_data_terminates_witness :
  exists w' k, @wu_read_data answering 22 session_start = Some (true, w') /\ glob w' = glob session_start
    /\ samples w' = (samples session_start + k)%nat /\ Z.of_nat k <= wu_count (glob session_start)
    /\ Z.of_nat (reads w') <= Z.of_nat (reads session_start) + 13 * wu_count (glob session_start).
Proof. apply (@wu_read_data_terminates answering answering_laws 22 session_start); vm_compute; congruence. Defined.

Definition answer : received :=
  match read_packet (bytes "#d,-,3,1205,1201,99;") with Done r => r | _ => mkReceived 0 0 0 [] [] end.

Lemma wu_read_data_collects_witness :
  @wu_read_data answering 2 session_start
  = Some (true, mkWorld (glob session_start) 2 0 (collected (glob session_start) [answer; answer])).
Proof.
  apply (@wu_read_data_collects answering [answer; answer] 2 session_start); [discriminate| |simpl; lia|reflexivity].
  assert (exists data, @dev_arrival answering 0 = Arrived data /\ read_packet data = Done answer) as R
    by (eexists; split; [reflexivity|vm_compute; reflexivity]).
  split; [exact R|]. split; [exact R|exact I].
Defined.

Lemma wu_read_data_gives_up_witness :
  exists w', @wu_read_data silent 11 session_start = Some (true, w') /\ samples w' = 0%nat /\ reads w' = 13%nat.
Proof.
  eexists. split; [apply (@wu_read_data_gives_up silent 11 session_start)|split; reflexivity].
  - intros n text. simpl. lia.
  - intros k _. exact I.
  - lia.
Defined.

Lemma wu_settings_not_sent_witness :
  exists w', @wu_write_user silent 1 2 3 4 session_start = Some (0, w') /\ trace w' = [Wrote (bytes "#U,R,0;"); Slept 1].
Proof. apply (@wu_settings_not_sent silent session_start). intros n text. simpl. lia. Defined.
